(* ===== verification/_CoqProject ===== *)
-Q . S2P
Prelude.v
Text.v
Numbers.v
Regex.v
Json.v
WalGeneration.v
WalScan.v
Wal.v
Checkpoint.v
WalGroup.v
WalMigrate.v
LegacyWal.v
Replay.v
ReplayTheory.v
ReplayProps.v
WalExec.v
Recovery.v
Ontology.v
OntologyTheory.v
Prompts.v
Pointer.v
Graph.v
OntologyState.v
OntologyGuard.v
CrossGroup.v
CrossGroupTheory.v
GroupPurge.v
SummaryMerge.v
IdentifierVeto.v
TokenBudget.v
Replies.v
Extraction.v
ExtractionTheory.v
LlmRouter.v
EmbeddingCache.v
Embedder.v
DedupAdapter.v
Search.v
Corrections.v
CorrectionsCycles.v
DedupSearch.v
EpisodeFilter.v
Canonicalize.v
CanonicalizeTheory.v
Episode.v
EpisodeTheory.v
EpisodeDedup.v
Assert.v
AssertTheory.v
Migration.v
MigrationTheory.v
WalStrip.v
WalStripTheory.v
MergeEntities.v
MergeTheory.v
CorrectionsFile.v
CorrectionsFileTheory.v
Reprocess.v
ReprocessTheory.v
PageReads.v
PageReadsTheory.v
Rebuild.v
RebuildTheory.v
Mcp.v
McpTheory.v
Passes.v
PassesTheory.v
Dump.v
DumpTheory.v
Deletion.v
DeletionTheory.v
Strategies.v
StrategiesTheory.v
