(* ===== verification/Prelude.v ===== *)
(** * Liminis context graph: a verification development

    A knowledge graph that is built from episodes of text by a language model, kept in an embedded
    graph database, and recoverable from a write-ahead log (WAL) of the statements that changed
    it.  The core is the crate src/crates/core; paths below are relative to src/crates.

    ** The program and its model

    An episode enters through [add_episode] (core/src/episode.rs).  A model extracts entities and
    edges, a second call may judge which of them the graph already has, and one transaction-like
    section under the write lock inserts rows, appends the statements to the log of the episode's
    group, and records how far into that log the database has got.  After a crash the log is
    replayed from there.  Corrections merge entities, pointers let an edge of one group end at an
    entity of another, and a purge removes whole groups.  Clients reach all of it through tool calls,
    directly or over a socket.

    - Text, numbers, JSON.  [Text], [Numbers], [Json]: characters, UTF-8, integer printing and
      parsing, [serde_json::Value].  This file: the error type (core/src/error.rs), [result] and
      its [let?], sorting, list lemmas, the tactics shared by all.
    - The log.  [WalGeneration] (wal_generation.rs), [WalScan] and [Wal] (wal.rs: reading bounds,
      writing lines), [WalGroup] and [WalMigrate] (wal_group.rs: a directory per group; moving an
      old layout), [WalExec] (wal_exec.rs, [with_wal_writer], position rows), [Checkpoint]
      (checkpoint.rs), [LegacyWal] (legacy_wal.rs).
      [WalStrip], [WalStripTheory] (wal_strip.rs: removing stored vectors from log files);
      [Migration], [MigrationTheory] (service/src/migration.rs: moving the data of older layouts).
    - Rebuilding.  [Replay], [ReplayTheory], [ReplayProps] (replay.rs), [Recovery] (recovery.rs);
      [Rebuild], [RebuildTheory] (handlers.rs, rebuild_job.rs: one group rebuilt while others write);
      [Dump], [DumpTheory] (dump.rs: writing the database out as a fresh log);
      [Strategies], [StrategiesTheory] (handlers.rs: the recovery strategies and their requests).
    - Vocabulary.  [Ontology], [OntologyTheory] (ontology.rs); [OntologyState], [OntologyGuard]
      (identity_stamp.rs, ontology_sidecar.rs, the per-group cache of app_state.rs).
    - The graph.  [Graph] (the entity and edge tables of db.rs), [Pointer] (pointer.rs),
      [CrossGroup], [CrossGroupTheory] (cross_group.rs), [GroupPurge] (group_purge.rs),
      [Corrections], [CorrectionsCycles], [MergeEntities], [MergeTheory], [CorrectionsFile],
      [CorrectionsFileTheory], [Reprocess], [ReprocessTheory] (corrections.rs and its handlers: alias
      graphs, requested merges, the corrections file, re-typing of entities); [Assert],
      [AssertTheory] (assert.rs: entities and relationships stated by a client); [Deletion],
      [DeletionTheory] (handlers.rs: deleting episodes by id, source, chunk or group; clearing).
    - Edge types.  [Regex], [Canonicalize], [CanonicalizeTheory] (canonicalize.rs); [Passes],
      [PassesTheory] (backfill.rs, reprocess_relations.rs, backfill_summary_embeddings.rs).
    - Models.  [Prompts] (prompts/mod.rs), [TokenBudget] (token_budget.rs), [Replies] and
      [Extraction], [ExtractionTheory] (extractor.rs, dedup_judge.rs), [LlmRouter]
      (llm_router.rs), [EmbeddingCache], [Embedder], [DedupAdapter], [SummaryMerge],
      [IdentifierVeto] (the files of those names).
    - Finding and ingesting.  [Search] (search.rs), [DedupSearch] (the two duplicate searches of
      db.rs), [EpisodeFilter] and [Episode] (episode.rs), with [EpisodeTheory] and [EpisodeDedup];
      [PageReads], [PageReadsTheory] (read_page.rs and the paged listings of db.rs).
    - Clients.  [Mcp], [McpTheory] (service/src/mcp, the dispatcher of handlers.rs, the connection
      loop of service/src/main.rs).

    ** How code corresponds to definitions

    Each definition carries the lines it translates in its comment.  State is explicit: a writer,
    a connection, a cache or a table is a record that an operation takes and returns.  A fallible
    operation returns [result Error]; where a Rust panic is possible (a slice, an index) the
    outcome is an [option] whose [None] is the panic, and [Episode] threads both through a monad
    of its own with [let*].  What happens outside the program is an argument: the outcome of each
    system call, the answers of a network, a database or a callback, collected in classes
    ([ReplayDeps], [Network], [EpisodeDeps], [AssertDeps], [CanonDeps], [PassDeps], [SummaryDeps],
    [Floats], [VecFloats], [Unicode], [AttrCodec], [JsonText], [Digest]) whose laws are separate
    classes, each with an instance that shows they can hold.  Where one part relies on another
    through an interface the interface is a class as well: [Tables] shows the rebuild the rows of a
    connection, [McpBackend] is what the tool server asks of either way to execute a call, and
    [Handlers] is what the dispatcher asks of the handlers.
    Machine integers are [N] with their wrap-around written out ([add64]); ill-behaved writes are
    values, so that a torn line or a half-moved directory is a state like any other.  Concurrency
    is a step relation where the program has a race of its own: generation sidecars, the latch of
    the router, the first resolution of a group's ontology, overlapping requests to rebuild a group.
    In [Episode], [Assert] and the passes other writers act before each hold of the lock.

    ** What the theorems show

    - Log: sequence numbers are never used twice; flushes acknowledge and position exactly what
      was written; a single-stream root migrates to its group through any crash; callers that race
      for a generation agree; names of directories round-trip; checkpoints refine a map.
    - Replay and recovery: every line is accounted for once; a batch commits whole or not at all;
      a position is recorded only when the lines before it have been applied; the log dumped from
      a database replays to that database, up to vectors, which are recomputed; a recovery strategy
      loses no file it sets aside, and its reply is the state the service is left in.
    - Ontology: ancestors end after validation; what counts as identity-bearing is not
      reinterpreted while rows carry it; a drift that was cleared stays cleared in every
      interleaving; a reload replaces the whole entry or nothing.
    - Graph: a lookup finds what the scan would; resolution ends and is sound; re-binding settles;
      a purge leaves nothing of the group and no pointer bound into it; a merge moves exactly the
      facts of its own group; alias cycles are reported if and only if there are any; a deletion
      removes the rows asked for, logs them to their group and touches nothing else.
    - Models: requests are bounded, failures are recorded, pooled connections are never shared in
      a bad state; a fallback is announced once; verdicts and vectors go with their own texts.
    - Maintenance: a canonicalisation, a backfill and a reclassification log exactly what they
      change, leave types set meanwhile alone, and do nothing a second time; the flag over the
      summary index never covers a dropped one; stripping a log file replaces it whole or not at
      all and replays alike; a data migration loses no file; clearing a group and rebuilding it
      ends at the position replayed, one run at a time in every interleaving.
    - Clients: a tool call reaches the service only with a granted scope and its arguments; a reply
      over the socket is this call's own; and a session over the socket shows a client what the
      same session shows on a server that owns the database.  Listing by pages gives every row once.
    - Episodes: types are reclassified without loss; the two duplicate searches agree; every
      entity gets one decision; every edge is accounted for; a call that fails leaves no rows.

    Theorems that hold of the code but say something its documentation does not are listed as
    findings; each exhibits the behaviour on a concrete input.

    ** Fuel and bounds

    Recursion is structural wherever the code's is.  The loops that are not run on fuel: printing
    a number (its digits), [chunks] and [strip_vecf32] (the length of the text; more changes
    nothing), [follow_merged_into_chain] (one more than there are rows: each step goes to a row
    not visited), [dfs_detect] (the size of the alias graph bounds the path), [walk] and
    [ancestors] of the ontology (as many steps as there are types; [ancestors] is shown to need no
    more after validation, and to run for ever on a file that defeats it).  Running out is a value
    of its own, and a theorem excludes it.

    Passes and dumps read by pages: a turn per page of rows and one more is enough, and a page that
    is not full ends the loop.  A socket delivers a finite list of lines and is then silent, so that
    waiting for a reply always ends, at the latest with the call's timeout.

    ** Not modelled

    The handlers that only compose modelled operations and shape a reply: search, listing of edges
    and neighbours, status and health reports.  Process set-up: the command line,
    sockets, signals, environment variables, telemetry sinks and cost arithmetic in floating point.
    Offline tools: the evaluation harness, the HTTP cassette, the report of extraction failures.
    The statements that create the database's tables, and the tool descriptions and property
    schemas meant for a client to read.  The database engine, the network, the YAML and JSON
    readers, SHA-256, ONNX and the two regular expressions of the legacy statements are not under
    src/ or not executable here and are parameters.  Queries are taken to succeed except where a
    file says otherwise, and log lines are left out.  Times are inputs. *)

From stdpp Require Export base list gmap strings sorting.
From Stdlib Require Export Ascii NArith ZArith Lia.
From Stdlib Require String.

(** ** Text: a Rust [str] is a sequence of Unicode scalar values *)

Abbreviation char := N (only parsing).
Abbreviation str := (list N).
Abbreviation bytes := (list N).

(** ASCII literals: [#"abc"] is the text of the three characters. *)
Definition lit (s : string) : str := N_of_ascii <$> String.list_ascii_of_string s.
Notation "# s" := (lit s%string) (at level 1, s at level 0, format "# s").

(** ** Errors and fallible code *)

(** An argument of a formatted message. *)
Inductive arg := AStr (s : str) | ANum (n : N).

(** A message built by [format!]: the format string that identifies the site and its arguments. *)
Record msg := Msg { msg_fmt : string; msg_args : list arg }.

(** The crate's error type.
    Source: core/src/error.rs 2-119 (Error) *)
Inductive Error :=
| Lbug (m : msg)
| InvalidPath
| QueryFailed (m : msg)
| Http (m : msg)
| Json (m : msg)
| Ipc (m : msg)
| Join (m : msg)
| WalIo (m : msg)
| WalJson (m : msg)
| DbUnavailable (m : msg)
| Cancelled
| Config (m : msg)
| CassetteMiss (m : msg)
| CassetteCorrupt (m : msg)
| CassetteDuplicateKey (m : msg)
| CheckpointInvalidName (name : str)
| CheckpointDuplicateName (name : str)
| CheckpointNotFound (name : str)
| InvalidGroupId (gid : str)
| WalGenerationUnknown (m : msg)
| InvalidKind (k : str)
| AmbiguousEntity (name group_id : str) (candidates : list (str * str))
| IdentitySetChangeRefused (group_id label : str) (count : N) (m : msg).

Global Instance arg_eq_dec : EqDecision arg.
Proof. solve_decision. Defined.
Global Instance msg_eq_dec : EqDecision msg.
Proof. solve_decision. Defined.
Global Instance Error_eq_dec : EqDecision Error.
Proof. solve_decision. Defined.

(** Rust's [Result], for any error type. *)
Inductive result (E A : Type) :=
| Ok (a : A)
| Err (e : E).
Arguments Ok {E A} a.
Arguments Err {E A} e.

Global Instance result_eq_dec {E A} `{EqDecision E, EqDecision A} : EqDecision (result E A).
Proof. solve_decision. Defined.

Definition rbind {E A B} (r : result E A) (k : A → result E B) : result E B :=
  match r with Ok a => k a | Err e => Err e end.
Definition rmap {E A B} (f : A → B) (r : result E A) : result E B :=
  match r with Ok a => Ok (f a) | Err e => Err e end.
Definition rok {E A} (r : result E A) : option A :=
  match r with Ok a => Some a | Err _ => None end.
Definition is_ok {E A} (r : result E A) : bool :=
  match r with Ok _ => true | Err _ => false end.

Declare Scope lcg_scope.
Delimit Scope lcg_scope with lcg.
Open Scope lcg_scope.

(** The [?] operator. *)
Notation "'let?' x := e 'in' k" := (rbind e (λ x, k))
  (at level 200, x name, e at level 100, k at level 200) : lcg_scope.
Notation "'let?' ' p := e 'in' k" := (rbind e (λ p, k))
  (at level 200, p strict pattern, e at level 100, k at level 200) : lcg_scope.

Lemma rbind_ok {E A B} (r : result E A) (k : A → result E B) b :
  rbind r k = Ok b ↔ ∃ a, r = Ok a ∧ k a = Ok b.
Proof. destruct r; simpl; naive_solver. Qed.

Lemma rbind_assoc {E A B C} (r : result E A) (k : A → result E B) (h : B → result E C) :
  rbind (rbind r k) h = rbind r (λ a, rbind (k a) h).
Proof. by destruct r. Qed.

(** [iter.map(f).collect::<Result<Vec<_>, _>>()] *)
Fixpoint rcollect {E A B} (f : A → result E B) (l : list A) : result E (list B) :=
  match l with
  | [] => Ok []
  | x :: l => let? y := f x in let? ys := rcollect f l in Ok (y :: ys)
  end.

Lemma rcollect_ok {E A B} (f : A → result E B) l ys :
  rcollect f l = Ok ys ↔ Forall2 (λ x y, f x = Ok y) l ys.
Proof.
  revert ys. induction l as [|x l IH]; intros ys; simpl.
  - split; [intros [= <-]; constructor|]. intros H. by inversion H.
  - rewrite rbind_ok. split.
    + intros (y & Hy & (ys' & Hl & ?)%rbind_ok). simplify_eq. constructor; [done|]. by apply IH.
    + intros (y & ys' & Hy & Hl & ->)%Forall2_cons_inv_l. exists y. split; [done|].
      apply IH in Hl. by rewrite Hl.
Qed.

(** ** Machine integers *)

Definition u32_max : N := 2 ^ 32 - 1.
Definition u64_max : N := 2 ^ 64 - 1.
(** Addition in a release build wraps. *)
Definition add64 (a b : N) : N := (a + b) mod 2 ^ 64.
Definition add32 (a b : N) : N := (a + b) mod 2 ^ 32.
Definition sat_add64 (a b : N) : N := N.min u64_max (a + b).
Definition sat_mul32 (a b : N) : N := N.min u32_max (a * b).

Lemma add64_small a b : (a + b < 2 ^ 64)%N → add64 a b = (a + b)%N.
Proof. intros. by apply N.mod_small. Qed.

Lemma add32_small a b : (a + b < 2 ^ 32)%N → add32 a b = (a + b)%N.
Proof. intros. by apply N.mod_small. Qed.

(** ** Options *)

(** [acc.map_or(x, |m| m.max(x))] *)
Definition omax (acc : option N) (x : N) : option N :=
  Some (match acc with None => x | Some m => N.max m x end).
Definition omin (acc : option N) (x : N) : option N :=
  Some (match acc with None => x | Some m => N.min m x end).

(** [m] is the greatest element of [l], [None] for the empty list. *)
Definition is_max (l : list N) (m : option N) : Prop :=
  match m with
  | None => l = []
  | Some x => x ∈ l ∧ ∀ y, y ∈ l → (y ≤ x)%N
  end.
Definition is_min (l : list N) (m : option N) : Prop :=
  match m with
  | None => l = []
  | Some x => x ∈ l ∧ ∀ y, y ∈ l → (x ≤ y)%N
  end.

Lemma is_max_snoc l m x : is_max l m → is_max (l ++ [x]) (omax m x).
Proof.
  destruct m as [m|]; simpl.
  - intros [Hin Hle]. split.
    + destruct (N.max_spec m x) as [[_ ->]|[_ ->]]; set_solver.
    + intros y [Hy| ->%list_elem_of_singleton]%elem_of_app; [apply Hle in Hy|]; lia.
  - intros ->. simpl. split; [set_solver|]. intros y ->%list_elem_of_singleton. lia.
Qed.

Lemma is_min_snoc l m x : is_min l m → is_min (l ++ [x]) (omin m x).
Proof.
  destruct m as [m|]; simpl.
  - intros [Hin Hle]. split.
    + destruct (N.min_spec m x) as [[_ ->]|[_ ->]]; set_solver.
    + intros y [Hy| ->%list_elem_of_singleton]%elem_of_app; [apply Hle in Hy|]; lia.
  - intros ->. simpl. split; [set_solver|]. intros y ->%list_elem_of_singleton. lia.
Qed.

Lemma is_max_unique l m m' : is_max l m → is_max l m' → m = m'.
Proof.
  destruct m as [m|], m' as [m'|]; simpl; try done.
  - intros [Hi Hm] [Hi' Hm']. f_equal. apply N.le_antisymm; auto.
  - intros [Hi _] ->. by apply elem_of_nil in Hi.
  - intros -> [Hi _]. by apply elem_of_nil in Hi.
Qed.

Lemma is_min_unique l m m' : is_min l m → is_min l m' → m = m'.
Proof.
  destruct m as [m|], m' as [m'|]; simpl; try done.
  - intros [Hi Hm] [Hi' Hm']. f_equal. apply N.le_antisymm; auto.
  - intros [Hi _] ->. by apply elem_of_nil in Hi.
  - intros -> [Hi _]. by apply elem_of_nil in Hi.
Qed.

Lemma is_max_perm l l' m : l ≡ₚ l' → is_max l m → is_max l' m.
Proof.
  intros Hp. destruct m as [m|]; simpl.
  - intros [Hin Hle]. split; [by rewrite <- Hp|]. intros y Hy. apply Hle. by rewrite Hp.
  - intros ->. by apply Permutation_nil_l in Hp.
Qed.

Lemma is_min_perm l l' m : l ≡ₚ l' → is_min l m → is_min l' m.
Proof.
  intros Hp. destruct m as [m|]; simpl.
  - intros [Hin Hle]. split; [by rewrite <- Hp|]. intros y Hy. apply Hle. by rewrite Hp.
  - intros ->. by apply Permutation_nil_l in Hp.
Qed.

(** Scanning a list with [omax] computes its maximum. *)
Lemma omax_scan l : is_max l (foldl omax None l).
Proof.
  assert (∀ l acc m, is_max acc m → is_max (acc ++ l) (foldl omax m l)) as H.
  { clear. induction l as [|x l IH]; intros acc m Hm; simpl; [by rewrite app_nil_r|].
    change (x :: l) with ([x] ++ l). rewrite app_assoc. apply IH. by apply is_max_snoc. }
  by apply (H l [] None).
Qed.

(** ** Lists *)

(** The last element that [f] accepts: [iter.rev().find_map(f)]. *)
Fixpoint find_last {A B} (f : A → option B) (l : list A) : option B :=
  match l with
  | [] => None
  | x :: l => match find_last f l with Some y => Some y | None => f x end
  end.
Fixpoint find_first {A B} (f : A → option B) (l : list A) : option B :=
  match l with
  | [] => None
  | x :: l => match f x with Some y => Some y | None => find_first f l end
  end.

Lemma find_last_app {A B} (f : A → option B) l k :
  find_last f (l ++ k) = match find_last f k with Some y => Some y | None => find_last f l end.
Proof. induction l as [|x l IH]; simpl; [by destruct (find_last f k)|]. rewrite IH. by destruct (find_last f k). Qed.

Lemma find_first_app {A B} (f : A → option B) l k :
  find_first f (l ++ k) = match find_first f l with Some y => Some y | None => find_first f k end.
Proof. induction l as [|x l IH]; simpl; [done|]. rewrite IH. by destruct (f x). Qed.

Lemma find_first_Some {A B} (f : A → option B) l y : find_first f l = Some y → ∃ x, x ∈ l ∧ f x = Some y.
Proof.
  induction l as [|x l IH]; cbn; [done|]. destruct (f x) as [z|] eqn:Hx.
  - intros [= <-]. exists x. split; [left|done].
  - intros (x' & ? & ?)%IH. exists x'. split; [by right|done].
Qed.
Lemma find_first_omap {A B} (f : A → option B) l : find_first f l = head (omap f l).
Proof. induction l as [|x l IH]; simpl; [done|]. rewrite IH. by destruct (f x). Qed.

Lemma find_last_omap {A B} (f : A → option B) l : find_last f l = last (omap f l).
Proof.
  induction l as [|x l IH] using rev_ind; [done|].
  rewrite find_last_app, omap_app. cbn.
  destruct (f x) eqn:Hx; simpl; [by rewrite last_snoc|]. by rewrite app_nil_r.
Qed.

(** Stable insertion sort: what [sort_by] promises for a total preorder [le]. *)
Section isort.
Context {A : Type} (le : A → A → bool).

Fixpoint insert_by (x : A) (l : list A) : list A :=
  match l with
  | [] => [x]
  | y :: l' => if le x y then x :: l else y :: insert_by x l'
  end.
Fixpoint sort_by (l : list A) : list A :=
  match l with [] => [] | x :: l => insert_by x (sort_by l) end.

Lemma insert_by_perm x l : insert_by x l ≡ₚ x :: l.
Proof.
  induction l as [|y l IH]; simpl; [done|]. destruct (le x y); [done|].
  rewrite IH. apply Permutation_swap.
Qed.
Lemma sort_by_perm l : sort_by l ≡ₚ l.
Proof. induction l as [|x l IH]; simpl; [done|]. by rewrite insert_by_perm, IH. Qed.

Context (le_total : ∀ x y, le x y = false → le y x = true).
Context (le_trans : ∀ x y z, le x y = true → le y z = true → le x z = true).

Lemma insert_by_sorted x l :
  StronglySorted (λ a b, le a b = true) l → StronglySorted (λ a b, le a b = true) (insert_by x l).
Proof.
  induction l as [|y l IH]; simpl; intros Hs; [by repeat constructor|].
  apply StronglySorted_cons in Hs as [Hall Hs].
  destruct (le x y) eqn:Hxy.
  - constructor; [by constructor|]. constructor; [done|].
    eapply Forall_impl; [exact Hall|]. intros z Hz. eauto.
  - constructor; [by apply IH|]. rewrite insert_by_perm. constructor; [auto|done].
Qed.
Lemma sort_by_sorted l : StronglySorted (λ a b, le a b = true) (sort_by l).
Proof. induction l as [|x l IH]; simpl; [constructor|]. by apply insert_by_sorted. Qed.
End isort.

(** Two sorted permutations of one list agree when the order is antisymmetric. *)
Lemma sorted_perm_unique {A} (R : A → A → Prop) l1 l2 :
  (∀ x y, R x y → R y x → x = y) →
  StronglySorted R l1 → StronglySorted R l2 → l1 ≡ₚ l2 → l1 = l2.
Proof.
  intros Hanti. revert l2. induction l1 as [|x l1 IH]; intros l2 H1 H2 Hp.
  - by apply Permutation_nil_l in Hp.
  - destruct l2 as [|y l2]; [by apply Permutation_nil_r in Hp|].
    apply StronglySorted_cons in H1 as [Hx H1]. apply StronglySorted_cons in H2 as [Hy H2].
    assert (x = y) as ->.
    { assert (x ∈ y :: l2) as [->|Hxl]%elem_of_cons by (rewrite <- Hp; left); [done|].
      assert (y ∈ x :: l1) as [->|Hyl]%elem_of_cons by (rewrite Hp; left); [done|].
      rewrite Forall_forall in Hx, Hy. auto. }
    f_equal. apply IH; [done..|]. by apply Permutation_cons_inv in Hp.
Qed.

(** ** Order on texts: [Ord for str] compares bytes, which for UTF-8 is the order of code points *)

Fixpoint str_leb (a b : str) : bool :=
  match a, b with
  | [], _ => true
  | _, [] => false
  | x :: a, y :: b => if (x <? y)%N then true else if (y <? x)%N then false else str_leb a b
  end.

Lemma str_leb_total a b : str_leb a b = false → str_leb b a = true.
Proof.
  revert b. induction a as [|x a IH]; intros [|y b]; simpl; try done.
  destruct (N.ltb_spec x y), (N.ltb_spec y x); try done; try lia. auto.
Qed.
Lemma str_leb_trans a b c : str_leb a b = true → str_leb b c = true → str_leb a c = true.
Proof.
  revert b c. induction a as [|x a IH]; intros [|y b] [|z c]; simpl; try done.
  destruct (N.ltb_spec x y), (N.ltb_spec y x), (N.ltb_spec y z), (N.ltb_spec z y),
    (N.ltb_spec x z), (N.ltb_spec z x); try done; try lia. apply IH.
Qed.
Lemma str_leb_refl a : str_leb a a = true.
Proof. induction a as [|x a IH]; simpl; [done|]. by rewrite N.ltb_irrefl. Qed.
Lemma str_leb_antisym a b : str_leb a b = true → str_leb b a = true → a = b.
Proof.
  revert b. induction a as [|x a IH]; intros [|y b]; simpl; try done.
  destruct (N.ltb_spec x y), (N.ltb_spec y x); try done; try lia.
  intros. f_equal; [lia|auto].
Qed.

(** ** Automation *)

Create HintDb lcg.
#[export] Hint Resolve str_leb_total str_leb_trans str_leb_refl : lcg.
#[export] Hint Rewrite @rbind_ok @rcollect_ok : lcg.

(** Destruct every boolean test, match and option the goal is stuck on. *)
Ltac case_ifs :=
  repeat (first [case_match | case_bool_decide]; simplify_eq/=).
(** Invert a chain of [?] that returned [Ok]. *)
Ltac inv_ok :=
  repeat match goal with
  | H : rbind _ _ = Ok _ |- _ => apply rbind_ok in H as (? & ? & H)
  | H : Ok _ = Ok _ |- _ => injection H as H; subst
  | H : Err _ = Ok _ |- _ => discriminate H
  end.
