(* ===== verification/Text.v ===== *)
(** * Text: the parts of [str], [char] and UTF-8 that the program uses

    Character classes that Unicode fixes by a short list ([White_Space], [Cc]) are definitions;
    the alphabetic, numeric and case tables are the class [Unicode], whose laws say what the
    tables are on ASCII.  UTF-8 decoding is one automaton, read strictly ([String::from_utf8]) or
    lossily ([String::from_utf8_lossy]). *)

From S2P Require Import Prelude.

(** ** Characters *)

Definition in_range (lo hi c : N) : bool := ((lo <=? c) && (c <=? hi))%N.

Definition is_whitespace (c : char) : bool :=
  in_range 9 13 c || (c =? 32)%N || (c =? 0x85)%N || (c =? 0xA0)%N || (c =? 0x1680)%N
  || in_range 0x2000 0x200A c || (c =? 0x2028)%N || (c =? 0x2029)%N || (c =? 0x202F)%N
  || (c =? 0x205F)%N || (c =? 0x3000)%N.
Definition is_control (c : char) : bool := in_range 0 31 c || in_range 127 159 c.
Definition is_ascii (c : char) : bool := (c <? 128)%N.
Definition is_ascii_digit (c : char) : bool := in_range 48 57 c.
Definition is_ascii_upper (c : char) : bool := in_range 65 90 c.
Definition is_ascii_lower (c : char) : bool := in_range 97 122 c.
Definition is_ascii_alpha (c : char) : bool := is_ascii_upper c || is_ascii_lower c.
Definition is_ascii_alnum (c : char) : bool := is_ascii_alpha c || is_ascii_digit c.
(** [u8::is_ascii_whitespace]: space, tab, LF, FF, CR. *)
Definition is_ascii_ws (c : N) : bool :=
  (c =? 32)%N || (c =? 9)%N || (c =? 10)%N || (c =? 12)%N || (c =? 13)%N.
Definition ascii_upper (c : char) : char := if is_ascii_lower c then (c - 32)%N else c.
Definition ascii_lower (c : char) : char := if is_ascii_upper c then (c + 32)%N else c.

(** The Unicode tables behind [char::is_alphabetic] and its siblings. *)
Class Unicode := {
  is_alphabetic : char → bool;
  is_numeric : char → bool;
  is_uppercase : char → bool;
  is_lowercase : char → bool;
  to_uppercase : str → str;
  to_lowercase : str → str;
}.
(** What the tables are on ASCII, as [std] documents. *)
Class UnicodeLaws `{Unicode} := {
  alphabetic_ascii c : is_ascii c = true → is_alphabetic c = is_ascii_alpha c;
  numeric_ascii c : is_ascii c = true → is_numeric c = is_ascii_digit c;
  uppercase_ascii c : is_ascii c = true → is_uppercase c = is_ascii_upper c;
  lowercase_ascii c : is_ascii c = true → is_lowercase c = is_ascii_lower c;
  to_uppercase_ascii s : forallb is_ascii s = true → to_uppercase s = ascii_upper <$> s;
  to_lowercase_ascii s : forallb is_ascii s = true → to_lowercase s = ascii_lower <$> s;
}.
Definition is_alphanumeric `{Unicode} (c : char) : bool := is_alphabetic c || is_numeric c.

(** The tables restricted to ASCII: the instance the concrete examples run on. *)
Definition AsciiUnicode : Unicode := {|
  is_alphabetic := is_ascii_alpha;
  is_numeric := is_ascii_digit;
  is_uppercase := is_ascii_upper;
  is_lowercase := is_ascii_lower;
  to_uppercase s := ascii_upper <$> s;
  to_lowercase s := ascii_lower <$> s;
|}.
Global Instance AsciiUnicodeLaws : @UnicodeLaws AsciiUnicode.
Proof. by split. Qed.

(** ** Slicing *)

Fixpoint strip_prefix (p s : str) : option str :=
  match p, s with
  | [], _ => Some s
  | x :: p, y :: s => if (x =? y)%N then strip_prefix p s else None
  | _ :: _, [] => None
  end.
Definition starts_with (p s : str) : bool := bool_decide (is_Some (strip_prefix p s)).
Definition strip_suffix (p s : str) : option str := reverse <$> strip_prefix (reverse p) (reverse s).
Definition ends_with (p s : str) : bool := bool_decide (is_Some (strip_suffix p s)).
(** [s.contains(needle)] *)
Fixpoint contains (needle s : str) : bool :=
  starts_with needle s || match s with [] => false | _ :: s => contains needle s end.
Definition contains_char (c : char) (s : str) : bool := existsb (N.eqb c) s.

Fixpoint drop_while (p : char → bool) (s : str) : str :=
  match s with [] => [] | c :: r => if p c then drop_while p r else s end.
Definition trim_start (s : str) : str := drop_while is_whitespace s.
Definition trim_end_matches (p : char → bool) (s : str) : str := reverse (drop_while p (reverse s)).
Definition trim_end (s : str) : str := trim_end_matches is_whitespace s.
Definition trim_matches (p : char → bool) (s : str) : str := trim_end_matches p (drop_while p s).
Definition trim (s : str) : str := trim_matches is_whitespace s.

(** [str::split] on a character predicate: the pieces, empty ones included.
    [split_go] carries the current piece reversed. *)
Fixpoint split_go (p : char → bool) (cur s : str) : list str :=
  match s with
  | [] => [reverse cur]
  | c :: s => if p c then reverse cur :: split_go p [] s else split_go p (c :: cur) s
  end.
Definition split_on (p : char → bool) (s : str) : list str := split_go p [] s.
Definition nonempty (s : str) : bool := match s with [] => false | _ => true end.
Definition split_whitespace (s : str) : list str := List.filter nonempty (split_on is_whitespace s).

Fixpoint join (sep : str) (l : list str) : str :=
  match l with
  | [] => []
  | [x] => x
  | x :: l => x ++ sep ++ join sep l
  end.

Lemma strip_prefix_spec p s r : strip_prefix p s = Some r ↔ s = p ++ r.
Proof.
  revert s. induction p as [|x p IH]; intros s; simpl; [naive_solver|].
  destruct s as [|y s]; simpl; [naive_solver|].
  destruct (N.eqb_spec x y); [rewrite IH|]; naive_solver.
Qed.
Lemma strip_suffix_spec p s r : strip_suffix p s = Some r ↔ s = r ++ p.
Proof.
  unfold strip_suffix. rewrite fmap_Some. setoid_rewrite strip_prefix_spec. split.
  - intros (x & H & ->). apply (f_equal reverse) in H.
    by rewrite reverse_involutive, reverse_app, reverse_involutive in H.
  - intros ->. exists (reverse r). by rewrite reverse_app, reverse_involutive.
Qed.
Lemma starts_with_spec p s : starts_with p s = true ↔ ∃ r, s = p ++ r.
Proof.
  unfold starts_with. rewrite bool_decide_eq_true. unfold is_Some.
  by setoid_rewrite strip_prefix_spec.
Qed.
Lemma contains_spec needle s : contains needle s = true ↔ ∃ a b, s = a ++ needle ++ b.
Proof.
  induction s as [|c s IH]; simpl; rewrite orb_true_iff, starts_with_spec.
  - split.
    + intros [[r Hr]|]; [|done]. exists [], r. done.
    + intros ([|??] & b & H); [|done]. left. eauto.
  - rewrite IH. split.
    + intros [[r Hr]|(a & b & ->)]; [by exists [], r|]. by exists (c :: a), b.
    + intros ([|x a] & b & H); simpl in H; [left; eauto|]. right. simplify_eq. eauto.
Qed.

(** ** UTF-8 *)

Definition is_scalar (c : char) : bool := ((c <? 0xD800) || (0xDFFF <? c) && (c <=? 0x10FFFF))%N.
Definition wf_str (s : str) : Prop := Forall (λ c, is_scalar c = true) s.

Definition utf8_char (c : char) : bytes :=
  if (c <? 0x80)%N then [c]
  else if (c <? 0x800)%N then [192 + c / 64; 128 + c mod 64]%N
  else if (c <? 0x10000)%N then [224 + c / 4096; 128 + (c / 64) mod 64; 128 + c mod 64]%N
  else [240 + c / 262144; 128 + (c / 4096) mod 64; 128 + (c / 64) mod 64; 128 + c mod 64]%N.
Definition utf8 (s : str) : bytes := flat_map utf8_char s.
(** [str::len] *)
Definition byte_len (s : str) : N := N.of_nat (length (utf8 s)).

(** What the first byte of a character announces: the character, a sequence with [need + 1] more
    bytes of which the next is in [lo..=hi], or nothing valid. *)
Inductive lead := LEmit (c : N) | LGo (need : nat) (lo hi acc : N) | LBad.
Definition utf8_lead (b : N) : lead :=
  if (b <? 0x80)%N then LEmit b
  else if in_range 0xC2 0xDF b then LGo 0 0x80 0xBF (b - 192)
  else if (b =? 0xE0)%N then LGo 1 0xA0 0xBF (b - 224)
  else if (b =? 0xED)%N then LGo 1 0x80 0x9F (b - 224)
  else if in_range 0xE1 0xEF b then LGo 1 0x80 0xBF (b - 224)
  else if (b =? 0xF0)%N then LGo 2 0x90 0xBF (b - 240)
  else if (b =? 0xF4)%N then LGo 2 0x80 0x8F (b - 240)
  else if in_range 0xF1 0xF3 b then LGo 2 0x80 0xBF (b - 240)
  else LBad.

(** Decoder state: at a character boundary, or inside a sequence. *)
Inductive dec := D0 | DIn (need : nat) (lo hi acc : N).

(** [bad] says what an invalid sequence becomes: [Some] text to substitute, or failure. *)
Section decode.
Context (bad : option str).
Definition dec_lead (k : dec → option str) (b : N) : option str :=
  match utf8_lead b with
  | LEmit c => cons c <$> k D0
  | LGo n lo hi acc => k (DIn n lo hi acc)
  | LBad => x ← bad; (x ++.) <$> k D0
  end.
Fixpoint decode (st : dec) (bs : bytes) : option str :=
  match bs with
  | [] => match st with D0 => Some [] | _ => bad end
  | b :: bs =>
      let k st := decode st bs in
      match st with
      | D0 => dec_lead k b
      | DIn n lo hi acc =>
          if in_range lo hi b then
            let acc' := (acc * 64 + (b - 128))%N in
            match n with O => cons acc' <$> k D0 | S n => k (DIn n 0x80 0xBF acc') end
          else x ← bad; (x ++.) <$> dec_lead k b
      end
  end.
End decode.

(** [String::from_utf8] *)
Definition from_utf8 (bs : bytes) : option str := decode None D0 bs.
(** [String::from_utf8_lossy] *)
Definition replacement : char := 0xFFFD.
Definition from_utf8_lossy (bs : bytes) : str := default [] (decode (Some [replacement]) D0 bs).

Ltac Zify.zify_post_hook ::= Z.to_euclidean_division_equations.

Local Ltac range_step :=
  match goal with
  | |- context [ (?a <? ?b)%N ] =>
      first [ replace (a <? b)%N with true by (symmetry; apply N.ltb_lt; lia)
            | replace (a <? b)%N with false by (symmetry; apply N.ltb_ge; lia) ]
  | |- context [ (?a <=? ?b)%N ] =>
      first [ replace (a <=? b)%N with true by (symmetry; apply N.leb_le; lia)
            | replace (a <=? b)%N with false by (symmetry; apply N.leb_gt; lia) ]
  | |- context [ (?a =? ?b)%N ] =>
      first [ replace (a =? b)%N with true by (symmetry; apply N.eqb_eq; lia)
            | replace (a =? b)%N with false by (symmetry; apply N.eqb_neq; lia) ]
  end; cbn [andb orb].

Lemma decode_cont bad n lo hi acc b bs :
  in_range lo hi b = true →
  decode bad (DIn n lo hi acc) (b :: bs) =
    match n with
    | O => cons (acc * 64 + (b - 128))%N <$> decode bad D0 bs
    | S n => decode bad (DIn n 0x80 0xBF (acc * 64 + (b - 128))%N) bs
    end.
Proof. intros H. simpl. by rewrite H. Qed.

Lemma lead_2 c : (0x80 ≤ c < 0x800)%N → utf8_lead (192 + c / 64) = LGo 0 0x80 0xBF (c / 64).
Proof.
  intros H. unfold utf8_lead, in_range. repeat range_step.
  replace (192 + c / 64 - 192)%N with (c / 64)%N by lia. done.
Qed.
Lemma scalar_not_surrogate c : is_scalar c = true → (c < 0xD800 ∨ 0xDFFF < c ≤ 0x10FFFF)%N.
Proof. unfold is_scalar. rewrite orb_true_iff, andb_true_iff, N.ltb_lt, N.ltb_lt, N.leb_le. lia. Qed.

Lemma lead_3 c : (0x800 ≤ c < 0x10000)%N → is_scalar c = true →
  ∃ lo hi, utf8_lead (224 + c / 4096) = LGo 1 lo hi (c / 4096) ∧
    in_range lo hi (128 + (c / 64) mod 64) = true.
Proof.
  intros H Hs%scalar_not_surrogate. unfold utf8_lead, in_range.
  destruct (N.eqb_spec (224 + c / 4096) 0xE0) as [He|He];
    [|destruct (N.eqb_spec (224 + c / 4096) 0xED) as [Hd|Hd]];
    repeat range_step; (replace (224 + c / 4096 - 224)%N with (c / 4096)%N by lia);
    do 2 eexists; (split; [done|]); by repeat range_step.
Qed.
Lemma lead_4 c : (0x10000 ≤ c)%N → is_scalar c = true →
  ∃ lo hi, utf8_lead (240 + c / 262144) = LGo 2 lo hi (c / 262144) ∧
    in_range lo hi (128 + (c / 4096) mod 64) = true.
Proof.
  intros H Hs%scalar_not_surrogate. unfold utf8_lead, in_range.
  destruct (N.eqb_spec (240 + c / 262144) 0xF0) as [He|He];
    [|destruct (N.eqb_spec (240 + c / 262144) 0xF4) as [Hd|Hd]];
    repeat range_step; (replace (240 + c / 262144 - 240)%N with (c / 262144)%N by lia);
    do 2 eexists; (split; [done|]); by repeat range_step.
Qed.

Lemma cont_range n : in_range 0x80 0xBF (128 + n mod 64) = true.
Proof. unfold in_range. by repeat range_step. Qed.

(** Decoding reads back one encoded character, whatever follows. *)
Lemma decode_char bad c rest :
  is_scalar c = true → decode bad D0 (utf8_char c ++ rest) = cons c <$> decode bad D0 rest.
Proof.
  intros Hs. pose proof (scalar_not_surrogate c Hs) as Hc. unfold utf8_char.
  destruct (N.ltb_spec c 0x80) as [H1|H1].
  { simpl. unfold dec_lead, utf8_lead. by range_step. }
  destruct (N.ltb_spec c 0x800) as [H2|H2].
  { simpl app. simpl decode at 1. unfold dec_lead. rewrite lead_2 by lia.
    rewrite (cont_range c). do 2 f_equal. lia. }
  destruct (N.ltb_spec c 0x10000) as [H3|H3].
  { destruct (lead_3 c) as (lo & hi & Hl & Hr); [lia|done|].
    simpl app. cbn [decode]. unfold dec_lead at 1. rewrite Hl, Hr, cont_range. do 2 f_equal. lia. }
  destruct (lead_4 c) as (lo & hi & Hl & Hr); [lia|done|].
  simpl app. cbn [decode]. unfold dec_lead at 1.
  rewrite Hl, Hr, (cont_range (c / 64)), (cont_range c). do 2 f_equal. lia.
Qed.

Lemma decode_utf8 bad s : wf_str s → decode bad D0 (utf8 s) = Some s.
Proof.
  induction 1 as [|c s Hc Hs IH]; [done|]. simpl. by rewrite decode_char, IH.
Qed.

Lemma from_utf8_utf8 s : wf_str s → from_utf8 (utf8 s) = Some s.
Proof. apply decode_utf8. Qed.
Lemma from_utf8_lossy_utf8 s : wf_str s → from_utf8_lossy (utf8 s) = s.
Proof. intros. unfold from_utf8_lossy. by rewrite decode_utf8. Qed.

Lemma utf8_inj s t : wf_str s → wf_str t → utf8 s = utf8 t → s = t.
Proof.
  intros Hs Ht H. apply from_utf8_utf8 in Hs, Ht. rewrite H in Hs. congruence.
Qed.

Lemma utf8_app s t : utf8 (s ++ t) = utf8 s ++ utf8 t.
Proof. apply flat_map_app. Qed.

Lemma utf8_char_ascii c : is_ascii c = true → utf8_char c = [c].
Proof. unfold is_ascii, utf8_char. by intros ->. Qed.
Lemma utf8_ascii s : forallb is_ascii s = true → utf8 s = s.
Proof.
  induction s as [|c s IH]; simpl; [done|].
  intros [Hc Hs]%andb_true_iff. by rewrite utf8_char_ascii, IH.
Qed.
Lemma utf8_char_length c : (1 ≤ length (utf8_char c) ≤ 4)%nat.
Proof. unfold utf8_char. repeat case_match; simpl; lia. Qed.
Lemma byte_len_ge s : (N.of_nat (length s) ≤ byte_len s)%N.
Proof.
  unfold byte_len. induction s as [|c s IH]; simpl; [lia|].
  rewrite length_app. pose proof (utf8_char_length c). lia.
Qed.
Lemma byte_len_app s t : byte_len (s ++ t) = (byte_len s + byte_len t)%N.
Proof. unfold byte_len. rewrite utf8_app, length_app. lia. Qed.

(** Every byte the encoder writes is a byte, and a byte below 128 is the character itself. *)
Lemma utf8_char_bytes c b : is_scalar c = true → b ∈ utf8_char c → (b < 256)%N.
Proof.
  intros Hs%scalar_not_surrogate. unfold utf8_char.
  repeat case_match; rewrite ?N.ltb_lt, ?N.ltb_ge in *; rewrite ?elem_of_cons, ?elem_of_nil; lia.
Qed.

(** ** Lossy decoding and line breaks: a newline always ends the sequence before it *)

Lemma lossy_total st bs : is_Some (decode (Some [replacement]) st bs).
Proof.
  revert st. induction bs as [|b bs IH]; intros st; simpl.
  - destruct st; eauto.
  - assert (∀ b, is_Some (dec_lead (Some [replacement]) (λ st, decode (Some [replacement]) st bs) b)) as Hl.
    { intros b'. unfold dec_lead. destruct (utf8_lead b'); simpl; try apply fmap_is_Some; apply IH. }
    destruct st; [apply Hl|]. repeat case_match; try apply fmap_is_Some; auto.
Qed.

Lemma dec_lead_nl bad k : dec_lead bad k 10 = cons 10%N <$> k D0.
Proof. done. Qed.

Definition dec_ok (st : dec) : Prop := match st with D0 => True | DIn _ lo _ _ => (0x80 ≤ lo)%N end.
Lemma lead_ok b n lo hi acc : utf8_lead b = LGo n lo hi acc → dec_ok (DIn n lo hi acc).
Proof. unfold utf8_lead. intros H. simpl. repeat case_match; simplify_eq; lia. Qed.

Section lossy.
#[local] Abbreviation L := (decode (Some [replacement])).
Context (b : bytes) (tb : str) (Hb : L D0 b = Some tb).

Lemma lossy_lead_split x a
  (IH : ∀ st ta, dec_ok st → L st a = Some ta → L st (a ++ 10%N :: b) = Some (ta ++ 10%N :: tb)) ta :
  dec_lead (Some [replacement]) (λ st, L st a) x = Some ta →
  dec_lead (Some [replacement]) (λ st, L st (a ++ 10%N :: b)) x = Some (ta ++ 10%N :: tb).
Proof using Hb.
  unfold dec_lead. destruct (utf8_lead x) as [c|n lo hi acc|] eqn:Hx; simpl.
  - intros (t & Ht & ->)%fmap_Some. by rewrite (IH D0 t).
  - intros Ht. apply IH; [by apply lead_ok in Hx|done].
  - intros (t & Ht & ->)%fmap_Some. by rewrite (IH D0 t).
Qed.

Lemma lossy_split a : ∀ st ta, dec_ok st →
  L st a = Some ta → L st (a ++ 10%N :: b) = Some (ta ++ 10%N :: tb).
Proof using Hb.
  induction a as [|x a IH]; intros st ta Hok Ha.
  - destruct st as [|n lo hi acc]; simpl in *; injection Ha as <-.
    + by rewrite dec_lead_nl, Hb.
    + replace (in_range lo hi 10) with false; [by rewrite dec_lead_nl, Hb|].
      unfold in_range. simpl in Hok. by rewrite (proj2 (N.leb_gt lo 10)) by lia.
  - destruct st as [|n lo hi acc]; simpl in *.
    + by apply lossy_lead_split.
    + destruct (in_range lo hi x).
      * destruct n; [|apply IH; done].
        apply fmap_Some in Ha as (t & Ht & ->). by rewrite (IH D0 t).
      * apply fmap_Some in Ha as (t & Ht & ->).
        by rewrite (lossy_lead_split x a IH t Ht).
Qed.
End lossy.

(** Lossy decoding of [a ++ "\n" ++ b] splits at the newline, wherever [a] stops. *)
Lemma lossy_newline a b :
  from_utf8_lossy (a ++ 10%N :: b) = from_utf8_lossy a ++ 10%N :: from_utf8_lossy b.
Proof.
  unfold from_utf8_lossy.
  destruct (lossy_total D0 b) as [tb Hb]. destruct (lossy_total D0 a) as [ta Ha].
  rewrite Ha, Hb. by rewrite (lossy_split b tb Hb a D0 ta).
Qed.

(** A byte sequence without a newline decodes to a text without one. *)
Definition dec_wide (st : dec) : Prop :=
  match st with D0 => True | DIn n lo _ acc => (0x80 ≤ lo ∧ 0x80 ≤ (acc * 64 + (lo - 128)) * 64 ^ N.of_nat n)%N end.
Lemma lead_wide b n lo hi acc : utf8_lead b = LGo n lo hi acc → dec_wide (DIn n lo hi acc).
Proof.
  unfold utf8_lead, in_range. intros H. simpl.
  repeat case_match; simplify_eq;
    repeat match goal with
    | H : (_ && _) = true |- _ => apply andb_true_iff in H as [?%N.leb_le ?%N.leb_le]
    | H : (_ =? _)%N = true |- _ => apply N.eqb_eq in H
    end; change (N.of_nat 0) with 0%N; change (N.of_nat 1) with 1%N; change (N.of_nat 2) with 2%N;
    rewrite ?N.pow_0_r, ?N.pow_1_r; change (64 ^ 2)%N with 4096%N; lia.
Qed.
Lemma wide_step n lo hi acc b :
  dec_wide (DIn n lo hi acc) → in_range lo hi b = true →
  match n with
  | O => (0x80 ≤ acc * 64 + (b - 128))%N
  | S n => dec_wide (DIn n 0x80 0xBF (acc * 64 + (b - 128)))
  end.
Proof.
  unfold in_range. rewrite andb_true_iff, N.leb_le, N.leb_le. intros [Hlo Hw] [Hb _].
  destruct n as [|n]; simpl.
  - rewrite N.pow_0_r in Hw. lia.
  - split; [lia|]. rewrite Nat2N.inj_succ, N.pow_succ_r' in Hw.
    assert (acc * 64 + (lo - 128) ≤ acc * 64 + (b - 128))%N by lia.
    assert (0 < 64 ^ N.of_nat n)%N by (apply N.neq_0_lt_0, N.pow_nonzero; lia).
    set (k := (64 ^ N.of_nat n)%N) in *. nia.
Qed.

Lemma lossy_no_nl st bs t :
  dec_wide st → 10%N ∉ bs → decode (Some [replacement]) st bs = Some t → 10%N ∉ t.
Proof.
  revert st t. induction bs as [|b bs IH]; intros st t Hst Hbs.
  - destruct st; simpl; intros [= <-]; [set_solver|]. unfold replacement. set_solver.
  - apply not_elem_of_cons in Hbs as [Hb Hbs]. simpl.
    assert (∀ t, dec_lead (Some [replacement]) (λ st, decode (Some [replacement]) st bs) b = Some t →
      10%N ∉ t) as Hlead.
    { clear t. intros t. unfold dec_lead. destruct (utf8_lead b) as [c|n lo hi acc|] eqn:Hl.
      - intros (t' & Ht & ->)%fmap_Some. apply not_elem_of_cons. split; [|by eapply (IH D0)].
        unfold utf8_lead in Hl. repeat case_match; simplify_eq; done.
      - intros Ht. eapply IH, Ht; [by eapply lead_wide|done].
      - simpl. intros (t' & Ht & ->)%fmap_Some. apply not_elem_of_cons.
        split; [done|by eapply (IH D0)]. }
    destruct st as [|n lo hi acc]; [apply Hlead|].
    destruct (in_range lo hi b) eqn:Hr.
    + pose proof (wide_step _ _ _ _ _ Hst Hr) as Hw. destruct n as [|n].
      * intros (t' & Ht & ->)%fmap_Some. apply not_elem_of_cons.
        split; [lia|by eapply (IH D0)].
      * by apply IH.
    + simpl. intros (t' & Ht & ->)%fmap_Some. apply not_elem_of_cons.
      split; [done|by apply Hlead].
Qed.

Lemma from_utf8_lossy_no_nl bs : 10%N ∉ bs → 10%N ∉ from_utf8_lossy bs.
Proof.
  unfold from_utf8_lossy. destruct (lossy_total D0 bs) as [t Ht]. rewrite Ht. simpl.
  intros. by eapply (lossy_no_nl D0 bs).
Qed.

(** ** Lines *)

Definition is_nl (c : char) : bool := (c =? 10)%N.
Definition strip_cr (s : str) : str := default s (strip_suffix [13%N] s).
(** [str::lines]: a newline ends a line and takes a preceding carriage return with it; text after
    the last newline is a line when it is not empty. *)
Definition lines (s : str) : list str :=
  let l := split_on is_nl s in
  (strip_cr <$> removelast l) ++ List.filter nonempty [List.last l []].

Lemma split_go_app p cur a c b :
  p c = true → split_go p cur (a ++ c :: b) = split_go p cur a ++ split_on p b.
Proof.
  intros Hc. revert cur. induction a as [|x a IH]; intros cur; simpl; [by rewrite Hc|].
  destruct (p x); [|apply IH]. simpl. by rewrite IH.
Qed.
Lemma split_on_app p a c b : p c = true → split_on p (a ++ c :: b) = split_on p a ++ split_on p b.
Proof. apply split_go_app. Qed.
Lemma split_go_none p cur s : forallb (negb ∘ p) s = true → split_go p cur s = [reverse cur ++ s].
Proof.
  revert cur. induction s as [|c s IH]; intros cur; simpl; [by rewrite app_nil_r|].
  intros [Hc Hs]%andb_true_iff. apply negb_true_iff in Hc. rewrite Hc, IH by done.
  by rewrite reverse_cons, <- app_assoc.
Qed.
Lemma split_on_none p s : forallb (negb ∘ p) s = true → split_on p s = [s].
Proof. intros. unfold split_on. by rewrite split_go_none. Qed.
Lemma split_go_nonnil p cur s : split_go p cur s ≠ [].
Proof. revert cur. induction s as [|c s IH]; intros cur; simpl; [done|]. by destruct (p c). Qed.

Lemma removelast_last_app {A} (l k : list A) d :
  k ≠ [] → removelast (l ++ k) = l ++ removelast k ∧ List.last (l ++ k) d = List.last k d.
Proof.
  intros Hk. split; [by apply removelast_app|].
  induction l as [|x l IH]; [done|]. simpl. rewrite IH. by destruct l, k.
Qed.

(** What precedes a newline only adds complete lines in front. *)
Lemma lines_app a b : lines (a ++ 10%N :: b) = (strip_cr <$> split_on is_nl a) ++ lines b.
Proof.
  unfold lines. rewrite split_on_app by done.
  destruct (removelast_last_app (split_on is_nl a) (split_on is_nl b) []) as [-> ->];
    [apply split_go_nonnil|]. by rewrite fmap_app, app_assoc.
Qed.

Lemma no_nl_forallb s : 10%N ∉ s → forallb (negb ∘ is_nl) s = true.
Proof.
  induction s as [|c s IH]; simpl; [done|].
  rewrite not_elem_of_cons. intros [Hc Hs]. rewrite IH by done. unfold is_nl.
  by rewrite (proj2 (N.eqb_neq c 10)).
Qed.

(** ** A text codec for any countable type, to instantiate serializers in examples *)

Fixpoint pos_str (p : positive) : str :=
  match p with xH => [] | xO p => 48%N :: pos_str p | xI p => 49%N :: pos_str p end.
Fixpoint str_pos (s : str) : positive :=
  match s with [] => xH | c :: s => if (c =? 48)%N then xO (str_pos s) else xI (str_pos s) end.
Definition print_any {A} `{Countable A} (a : A) : str := pos_str (countable.encode a).
Definition parse_any {A} `{Countable A} (s : str) : option A := countable.decode (str_pos s).

Lemma str_pos_str p : str_pos (pos_str p) = p.
Proof. induction p; simpl; congruence. Qed.
Lemma parse_print_any {A} `{Countable A} (a : A) : parse_any (print_any a) = Some a.
Proof. unfold parse_any, print_any. by rewrite str_pos_str, countable.decode_encode. Qed.
Lemma print_any_wf {A} `{Countable A} (a : A) : wf_str (print_any a).
Proof.
  unfold print_any. induction (countable.encode a); simpl; constructor; done.
Qed.

Lemma drop_while_app p a b :
  drop_while p (a ++ b) = if forallb p a then drop_while p b else drop_while p a ++ b.
Proof. induction a as [|c a IH]; simpl; [done|]. destruct (p c); simpl; [exact IH|done]. Qed.
(** Trailing white space does not change a trimmed text. *)
Lemma trim_snoc_ws y c : is_whitespace c = true → trim (y ++ [c]) = trim y.
Proof.
  intros Hc. unfold trim, trim_matches, trim_end_matches. rewrite drop_while_app.
  destruct (forallb is_whitespace y) eqn:Hy.
  - simpl. rewrite Hc. assert (drop_while is_whitespace y = []) as ->; [|done].
    revert Hy. induction y as [|d y IH]; simpl; [done|]. by destruct (is_whitespace d).
  - rewrite reverse_app. simpl. by rewrite Hc.
Qed.
Lemma trim_strip_cr x : trim (strip_cr x) = trim x.
Proof.
  unfold strip_cr. destruct (strip_suffix [13%N] x) as [r|] eqn:H; [|done].
  apply strip_suffix_spec in H as ->. simpl. symmetry. by apply trim_snoc_ws.
Qed.
Lemma utf8_no_nl s : 10%N ∉ s → 10%N ∉ utf8 s.
Proof.
  unfold utf8. induction s as [|c s IH]; [done|]. rewrite not_elem_of_cons. intros [Hc Hs]. simpl.
  rewrite elem_of_app. intros [H|H]; [|by apply IH]. revert H. unfold utf8_char.
  repeat case_match; rewrite ?elem_of_cons, elem_of_nil; lia.
Qed.
Lemma ascii_lower_idem c : ascii_lower (ascii_lower c) = ascii_lower c.
Proof.
  unfold ascii_lower. destruct (is_ascii_upper c) eqn:H; [|by rewrite H].
  unfold is_ascii_upper, in_range in *. apply andb_true_iff in H as [H1%N.leb_le H2%N.leb_le].
  rewrite (proj2 (N.leb_gt (c + 32) 90)) by lia. by rewrite andb_false_r.
Qed.
Lemma drop_while_suffix (p : char → bool) (s : str) : ∃ a, s = a ++ drop_while p s ∧ Forall (λ c : char, p c = true) a.
Proof.
  induction s as [|c s (a & IH & Ha)]; [by exists []|]. cbn. destruct (p c) eqn:Hc.
  - exists (c :: a). cbn. rewrite <- IH. split; [done|]. by constructor.
  - by exists [].
Qed.
