(* ===== verification/Numbers.v ===== *)
(** * Numbers: printing and parsing of integers

    [format!("{n}")], [format!("{b:02X}")], [str::parse] and [from_str_radix] of the unsigned
    integer types, with the round trips the file-name schemes rely on. *)

From S2P Require Import Prelude Text.

(** The value of a digit character in any radix up to 36. *)
Definition digit_val (c : char) : option N :=
  if is_ascii_digit c then Some (c - 48)%N
  else if is_ascii_upper c then Some (c - 55)%N
  else if is_ascii_lower c then Some (c - 87)%N
  else None.

Fixpoint parse_digits (radix max acc : N) (s : str) : option N :=
  match s with
  | [] => Some acc
  | c :: s =>
      match digit_val c with
      | Some d =>
          if (d <? radix)%N then
            let acc' := (acc * radix + d)%N in
            if (acc' <=? max)%N then parse_digits radix max acc' s else None
          else None
      | None => None
      end
  end.
(** [uN::from_str_radix]: one leading ["+"] is accepted, an empty text and a bare sign are not;
    [max] is the type's largest value. *)
Definition parse_uint (radix max : N) (s : str) : option N :=
  match s with
  | [] => None
  | [c] => if (c =? 43)%N || (c =? 45)%N then None else parse_digits radix max 0 s
  | c :: r => if (c =? 43)%N then parse_digits radix max 0 r else parse_digits radix max 0 s
  end.

Fixpoint dec_go (fuel : nat) (n : N) (acc : str) : str :=
  match fuel with
  | O => acc
  | S f => let acc' := (48 + n mod 10)%N :: acc in if (n <? 10)%N then acc' else dec_go f (n / 10) acc'
  end.
(** [format!("{n}")]; a number below [2 ^ k] has at most [k] decimal digits. *)
Definition dec_str (n : N) : str := dec_go (S (N.to_nat (N.size n))) n [].

Definition hex_digit_upper (d : N) : char := if (d <? 10)%N then (48 + d)%N else (55 + d)%N.
(** [format!("{b:02X}")] for a byte. *)
Definition hex2_upper (b : N) : str := [hex_digit_upper (b / 16); hex_digit_upper (b mod 16)].
(** Two lowercase hex digits per byte.
    Source: core/src/sha256_hex.rs 11-20 (to_hex) *)
Definition hex_digit_lower (d : N) : char := if (d <? 10)%N then (48 + d)%N else (87 + d)%N.
Definition to_hex (bs : bytes) : str := flat_map (λ b, [hex_digit_lower (b / 16); hex_digit_lower (b mod 16)]) bs.

Ltac Zify.zify_post_hook ::= Z.to_euclidean_division_equations.

Lemma digit_val_dec d : (d < 10)%N → digit_val (48 + d) = Some d.
Proof.
  intros. unfold digit_val, is_ascii_digit, in_range.
  rewrite (proj2 (N.leb_le 48 (48 + d))), (proj2 (N.leb_le (48 + d) 57)) by lia.
  simpl. f_equal. lia.
Qed.
Lemma digit_val_hex_upper d : (d < 16)%N → digit_val (hex_digit_upper d) = Some d.
Proof.
  intros. unfold hex_digit_upper. destruct (N.ltb_spec d 10); [by apply digit_val_dec|].
  unfold digit_val, is_ascii_digit, is_ascii_upper, in_range.
  rewrite (proj2 (N.leb_gt (55 + d) 57)), andb_false_r by lia.
  rewrite (proj2 (N.leb_le 65 (55 + d))), (proj2 (N.leb_le (55 + d) 90)) by lia.
  simpl. f_equal. lia.
Qed.
Lemma digit_val_hex_lower d : (d < 16)%N → digit_val (hex_digit_lower d) = Some d.
Proof.
  intros. unfold hex_digit_lower. destruct (N.ltb_spec d 10); [by apply digit_val_dec|].
  unfold digit_val, is_ascii_digit, is_ascii_upper, is_ascii_lower, in_range.
  rewrite (proj2 (N.leb_gt (87 + d) 57)), andb_false_r by lia.
  rewrite (proj2 (N.leb_gt (87 + d) 90)), andb_false_r by lia.
  rewrite (proj2 (N.leb_le 97 (87 + d))), (proj2 (N.leb_le (87 + d) 122)) by lia.
  simpl. f_equal. lia.
Qed.

Lemma parse_digits_go fuel max n acc :
  (n < 10 ^ N.of_nat fuel)%N → (0 < fuel)%nat → (n ≤ max)%N →
  parse_digits 10 max 0 (dec_go fuel n acc) = parse_digits 10 max n acc.
Proof.
  revert n acc. induction fuel as [|f IH]; intros n acc Hn Hf Hm; [lia|]. simpl.
  assert ((n / 10) * 10 + n mod 10 = n)%N as Hdm by lia.
  destruct (N.ltb_spec n 10) as [H|H].
  - cbn [parse_digits]. rewrite digit_val_dec by lia.
    rewrite (proj2 (N.ltb_lt _ _)) by lia.
    replace (0 * 10 + n mod 10)%N with n by lia. by rewrite (proj2 (N.leb_le n max)).
  - rewrite Nat2N.inj_succ, N.pow_succ_r' in Hn.
    assert (0 < f)%nat by (destruct f; [simpl in Hn; lia|lia]).
    rewrite IH by (try lia; apply N.Div0.div_lt_upper_bound; lia).
    cbn [parse_digits]. rewrite digit_val_dec by lia.
    rewrite (proj2 (N.ltb_lt _ _)) by lia. rewrite Hdm. by rewrite (proj2 (N.leb_le n max)).
Qed.

Lemma dec_go_head fuel n acc : (0 < fuel)%nat → ∃ d r, (d < 10)%N ∧ dec_go fuel n acc = (48 + d)%N :: r.
Proof.
  revert n acc. induction fuel as [|f IH]; intros n acc Hf; [lia|]. simpl.
  destruct (n <? 10)%N; [exists (n mod 10)%N, acc; split; [lia|done]|].
  destruct f as [|f]; [exists (n mod 10)%N, acc; split; [lia|done]|]. apply IH. lia.
Qed.

Lemma size_bound n : (n < 10 ^ N.of_nat (S (N.to_nat (N.size n))))%N.
Proof.
  rewrite Nat2N.inj_succ, N2Nat.id. eapply N.lt_le_trans; [apply N.size_gt|].
  etransitivity; [apply (N.pow_le_mono_l 2 10); lia|]. apply N.pow_le_mono_r; lia.
Qed.

(** Printing then parsing a number that fits the type. *)
Lemma parse_dec_str max n : (n ≤ max)%N → parse_uint 10 max (dec_str n) = Some n.
Proof.
  intros Hm. unfold dec_str.
  pose proof (parse_digits_go (S (N.to_nat (N.size n))) max n [] (size_bound n) ltac:(lia) Hm) as Hp.
  destruct (dec_go_head (S (N.to_nat (N.size n))) n []) as (d & r & Hd & Hgo); [lia|].
  rewrite Hgo in *. unfold parse_uint.
  rewrite (proj2 (N.eqb_neq (48 + d) 43)), (proj2 (N.eqb_neq (48 + d) 45)) by lia.
  by destruct r.
Qed.

Lemma dec_str_inj n m : dec_str n = dec_str m → n = m.
Proof.
  intros H. pose proof (parse_dec_str (N.max n m) n ltac:(lia)) as Hn.
  rewrite H, parse_dec_str in Hn by lia. congruence.
Qed.

Lemma digits_ascii d : (d < 10)%N → is_ascii (48 + d) = true.
Proof. intros. unfold is_ascii. apply N.ltb_lt. lia. Qed.

(** The two hex digits of a byte read back as the byte. *)
Lemma parse_hex2_upper b : (b < 256)%N → parse_uint 16 255 (hex2_upper b) = Some b.
Proof.
  intros Hb. unfold hex2_upper, parse_uint.
  assert (hex_digit_upper (b / 16) ≠ 43%N) as Hne by (unfold hex_digit_upper; case_match; lia).
  rewrite (proj2 (N.eqb_neq _ _) Hne). cbn [parse_digits].
  rewrite !digit_val_hex_upper by lia.
  rewrite (proj2 (N.ltb_lt (b / 16) 16)), (proj2 (N.leb_le (0 * 16 + b / 16) 255)) by lia.
  rewrite (proj2 (N.ltb_lt (b mod 16) 16)) by lia.
  replace ((0 * 16 + b / 16) * 16 + b mod 16)%N with b by lia.
  by rewrite (proj2 (N.leb_le b 255)) by lia.
Qed.
