(* ===== verification/Regex.v ===== *)
(** * Regex: the regular expressions the program writes down

    Patterns are terms; matching a whole text is by derivatives.  [in_lang] is what a pattern
    means, and the matcher decides it. *)

From S2P Require Import Prelude Text.

Inductive regex :=
| RNone
| REps
| RClass (p : char → bool)
| RCat (r1 r2 : regex)
| RAlt (r1 r2 : regex)
| RStar (r : regex).

Definition RChar (c : char) : regex := RClass (N.eqb c).
(** The text itself. *)
Fixpoint RLit (s : str) : regex := match s with [] => REps | c :: s => RCat (RChar c) (RLit s) end.

Fixpoint nullable (r : regex) : bool :=
  match r with
  | RNone | RClass _ => false
  | REps | RStar _ => true
  | RCat r1 r2 => nullable r1 && nullable r2
  | RAlt r1 r2 => nullable r1 || nullable r2
  end.
Fixpoint deriv (c : char) (r : regex) : regex :=
  match r with
  | RNone | REps => RNone
  | RClass p => if p c then REps else RNone
  | RCat r1 r2 => if nullable r1 then RAlt (RCat (deriv c r1) r2) (deriv c r2) else RCat (deriv c r1) r2
  | RAlt r1 r2 => RAlt (deriv c r1) (deriv c r2)
  | RStar r => RCat (deriv c r) (RStar r)
  end.
(** Whether the pattern matches all of the text. *)
Fixpoint full_match (r : regex) (s : str) : bool := match s with [] => nullable r | c :: s => full_match (deriv c r) s end.

(** What a pattern means. *)
Inductive in_lang : regex → str → Prop :=
| l_eps : in_lang REps []
| l_class (p : char → bool) c : p c = true → in_lang (RClass p) [c]
| l_cat r1 r2 s1 s2 : in_lang r1 s1 → in_lang r2 s2 → in_lang (RCat r1 r2) (s1 ++ s2)
| l_left r1 r2 s : in_lang r1 s → in_lang (RAlt r1 r2) s
| l_right r1 r2 s : in_lang r2 s → in_lang (RAlt r1 r2) s
| l_done r : in_lang (RStar r) []
| l_more r s1 s2 : in_lang r s1 → in_lang (RStar r) s2 → in_lang (RStar r) (s1 ++ s2).

Create HintDb regex.
#[export] Hint Constructors in_lang : regex.

Lemma lang_eps s : in_lang REps s ↔ s = [].
Proof. split; [by inversion 1|intros ->; constructor]. Qed.
Lemma lang_class p s : in_lang (RClass p) s ↔ ∃ c, s = [c] ∧ p c = true.
Proof. split; [inversion 1; eauto|intros (c & -> & Hc); by constructor]. Qed.
Lemma lang_cat r1 r2 s : in_lang (RCat r1 r2) s ↔ ∃ s1 s2, s = s1 ++ s2 ∧ in_lang r1 s1 ∧ in_lang r2 s2.
Proof. split; [inversion 1; eauto 6|intros (s1 & s2 & -> & ? & ?); by constructor]. Qed.
Lemma lang_alt r1 r2 s : in_lang (RAlt r1 r2) s ↔ in_lang r1 s ∨ in_lang r2 s.
Proof. split; [inversion 1; auto|intros [H|H]; auto with regex]. Qed.
Lemma lang_star r s : in_lang (RStar r) s ↔ s = [] ∨ ∃ s1 s2, s = s1 ++ s2 ∧ s1 ≠ [] ∧ in_lang r s1 ∧ in_lang (RStar r) s2.
Proof.
  split; [|intros [->|(s1 & s2 & -> & _ & ? & ?)]; by constructor]. intros H. remember (RStar r) as q eqn:Hq. revert r Hq.
  induction H as [| | | | | |r s1 s2 H1 IH1 H2 IH2]; intros q0 Hq; try discriminate; [by left|]. injection Hq as ->.
  destruct s1 as [|c s1]; [by apply IH2|right]. by exists (c :: s1), s2.
Qed.
Lemma nullable_lang r : nullable r = true ↔ in_lang r [].
Proof.
  induction r as [| |p|r1 IH1 r2 IH2|r1 IH1 r2 IH2|r IH]; cbn.
  - split; [done|inversion 1].
  - rewrite lang_eps. done.
  - rewrite lang_class. split; [done|by intros (c & ? & _)].
  - rewrite andb_true_iff, IH1, IH2, lang_cat. split; [intros []; by exists [], []|].
    intros (s1 & s2 & [-> ->]%eq_sym%app_nil & ? & ?). done.
  - by rewrite orb_true_iff, IH1, IH2, lang_alt.
  - split; [constructor|done].
Qed.
Lemma deriv_lang c r : ∀ s, in_lang (deriv c r) s ↔ in_lang r (c :: s).
Proof.
  induction r as [| |p|r1 IH1 r2 IH2|r1 IH1 r2 IH2|r IH]; intros s; cbn [deriv].
  - split; inversion 1.
  - rewrite lang_eps. split; [inversion 1|done].
  - rewrite lang_class. destruct (p c) eqn:Hc; [rewrite lang_eps|]; split.
    + intros ->. by exists c.
    + by intros (d & [= -> ->] & _).
    + inversion 1.
    + intros (d & [= -> ->] & ?). congruence.
  - assert (Hcons : in_lang (RCat (deriv c r1) r2) s ↔ ∃ s1 s2, s = s1 ++ s2 ∧ in_lang r1 (c :: s1) ∧ in_lang r2 s2).
    { rewrite lang_cat. setoid_rewrite IH1. done. }
    assert (Hcat : in_lang (RCat r1 r2) (c :: s) ↔ (in_lang r1 [] ∧ in_lang r2 (c :: s)) ∨ ∃ s1 s2, s = s1 ++ s2 ∧ in_lang r1 (c :: s1) ∧ in_lang r2 s2).
    { rewrite lang_cat. split.
      - intros ([|d s1] & s2 & Hs & H1 & H2); [left; by rewrite Hs|right]. injection Hs as <- ->. eauto.
      - intros [[H1 H2]|(s1 & s2 & -> & H1 & H2)]; [by exists [], (c :: s)|by exists (c :: s1), s2]. }
    destruct (nullable r1) eqn:Hn.
    + apply nullable_lang in Hn. rewrite lang_alt, Hcons, IH2, Hcat. naive_solver.
    + rewrite Hcons, Hcat. split; [auto|]. intros [[H%nullable_lang _]|H]; [congruence|done].
  - by rewrite !lang_alt, IH1, IH2.
  - rewrite lang_cat, lang_star. split.
    + intros (s1 & s2 & -> & H1%IH & H2). right. by exists (c :: s1), s2.
    + intros [?|(s1 & s2 & Hs & Hne & H1 & H2)]; [done|]. destruct s1 as [|d s1]; [done|]. injection Hs as <- ->. apply IH in H1. eauto.
Qed.
(** The matcher decides the pattern. *)
Lemma full_match_lang s : ∀ r, full_match r s = true ↔ in_lang r s.
Proof. induction s as [|c s IH]; intros r; cbn; [apply nullable_lang|]. by rewrite IH, deriv_lang. Qed.

Lemma lang_lit s t : in_lang (RLit s) t ↔ t = s.
Proof.
  revert t. induction s as [|c s IH]; intros t; cbn; [apply lang_eps|]. rewrite lang_cat. split.
  - intros (s1 & s2 & -> & (d & -> & ->%N.eqb_eq)%lang_class & ->%IH). done.
  - intros ->. exists [c], s. split_and!; [done| |by apply IH]. apply lang_class. exists c. by rewrite N.eqb_refl.
Qed.
(** Repetitions of one class of characters. *)
Lemma lang_many p s : in_lang (RStar (RClass p)) s ↔ forallb p s = true.
Proof.
  induction s as [|c s IH]; rewrite lang_star; cbn.
  - split; [done|by left].
  - rewrite andb_true_iff, <- IH. split.
    + intros [?|(s1 & s2 & Hs & _ & (d & -> & Hd)%lang_class & H2)]; [done|]. by injection Hs as -> ->.
    + intros [Hc Hs]. right. exists [c], s. rewrite lang_class. split_and!; eauto.
Qed.
