(* ===== verification/Json.v ===== *)
(** * Json: [serde_json::Value] with [preserve_order]

    An object is its entries in insertion order, with distinct keys; [insert] replaces in place or
    appends, [remove] is the swap-remove of an [IndexMap]. *)

From S2P Require Import Prelude Text.

(** A JSON number: the two integer forms exactly, a float by its bits. *)
Inductive number := PosInt (n : N) | NegInt (z : Z) | Float (bits : N).

Inductive value :=
| VNull
| VBool (b : bool)
| VNumber (n : number)
| VString (s : str)
| VArray (l : list value)
| VObject (m : list (str * value)).

Section value_ind.
Context (P : value → Prop).
Context (HNull : P VNull) (HBool : ∀ b, P (VBool b)) (HNumber : ∀ n, P (VNumber n)).
Context (HString : ∀ s, P (VString s)).
Context (HArray : ∀ l, Forall P l → P (VArray l)).
Context (HObject : ∀ m, Forall (λ e, P (snd e)) m → P (VObject m)).
Fixpoint value_rect' (v : value) : P v :=
  match v with
  | VNull => HNull
  | VBool b => HBool b
  | VNumber n => HNumber n
  | VString s => HString s
  | VArray l => HArray l ((fix go l : Forall P l :=
      match l with [] => Forall_nil_2 _ | v :: l => Forall_cons_2 _ _ _ (value_rect' v) (go l) end) l)
  | VObject m => HObject m ((fix go m : Forall (λ e, P (snd e)) m :=
      match m with [] => Forall_nil_2 _ | (k, v) :: m => Forall_cons_2 _ (k, v) _ (value_rect' v) (go m) end) m)
  end.
End value_ind.

Global Instance number_eq_dec : EqDecision number.
Proof. solve_decision. Defined.
Fixpoint value_eqb (a b : value) : bool :=
  match a, b with
  | VNull, VNull => true
  | VBool x, VBool y => Bool.eqb x y
  | VNumber x, VNumber y => bool_decide (x = y)
  | VString x, VString y => bool_decide (x = y)
  | VArray l, VArray k =>
      (fix go l k := match l, k with
         | [], [] => true | x :: l, y :: k => value_eqb x y && go l k | _, _ => false end) l k
  | VObject l, VObject k =>
      (fix go l k := match l, k with
         | [], [] => true
         | (i, x) :: l, (j, y) :: k => bool_decide (i = j) && value_eqb x y && go l k
         | _, _ => false end) l k
  | _, _ => false
  end.
Lemma value_eqb_eq a b : value_eqb a b = true ↔ a = b.
Proof.
  revert b. induction a as [| | | |l IH|m IH] using value_rect'; intros [| | | |k|k]; try done.
  - simpl. rewrite Bool.eqb_true_iff. naive_solver.
  - simpl. rewrite bool_decide_eq_true. naive_solver.
  - simpl. rewrite bool_decide_eq_true. naive_solver.
  - transitivity (l = k); [|naive_solver]. simpl.
    revert k. induction IH as [|x l Hx _ IHl]; intros [|y k]; try done.
    rewrite andb_true_iff, Hx, IHl. naive_solver.
  - transitivity (m = k); [|naive_solver]. simpl.
    revert k. induction IH as [|[i x] l Hx _ IHl]; intros [|[j y] k]; try done.
    rewrite !andb_true_iff, bool_decide_eq_true, Hx, IHl. naive_solver.
Qed.
Global Instance value_eq_dec : EqDecision value.
Proof.
  intros a b. destruct (value_eqb a b) eqn:H; [left; by apply value_eqb_eq|right].
  intros ->. assert (value_eqb b b = true) by by apply value_eqb_eq. congruence.
Defined.

(** ** Objects *)

Abbreviation object := (list (str * value)).

Fixpoint obj_get (key : str) (m : object) : option value :=
  match m with [] => None | (k, v) :: m => if bool_decide (k = key) then Some v else obj_get key m end.
Fixpoint obj_insert (key : str) (x : value) (m : object) : object :=
  match m with
  | [] => [(key, x)]
  | (k, v) :: m => if bool_decide (k = key) then (k, x) :: m else (k, v) :: obj_insert key x m
  end.
(** [IndexMap::swap_remove]: the last entry takes the removed one's place. *)
Fixpoint obj_remove (key : str) (m : object) : object :=
  match m with
  | [] => []
  | (k, v) :: m =>
      if bool_decide (k = key) then
        match reverse m with [] => [] | e :: r => e :: reverse r end
      else (k, v) :: obj_remove key m
  end.
(** [value.get(key)] and [value[key]] on any value. *)
Definition get (key : str) (v : value) : option value :=
  match v with VObject m => obj_get key m | _ => None end.
Definition as_str (v : value) : option str := match v with VString s => Some s | _ => None end.
Definition as_u64 (v : value) : option N := match v with VNumber (PosInt n) => Some n | _ => None end.
Definition as_bool (v : value) : option bool := match v with VBool b => Some b | _ => None end.
Definition as_array (v : value) : option (list value) := match v with VArray l => Some l | _ => None end.
Definition as_object (v : value) : option object := match v with VObject m => Some m | _ => None end.
Definition is_null (v : value) : bool := match v with VNull => true | _ => false end.

(** Well-formed: the keys of every object are distinct. *)
Definition keys (m : object) : list str := fst <$> m.

Lemma obj_get_None key m : obj_get key m = None ↔ key ∉ keys m.
Proof.
  induction m as [|[k v] m IH]; simpl; [by split; [intros _; apply not_elem_of_nil|]|].
  rewrite not_elem_of_cons. case_bool_decide as H; [naive_solver|]. rewrite IH. naive_solver.
Qed.
Lemma obj_get_Some key m v : NoDup (keys m) → obj_get key m = Some v ↔ (key, v) ∈ m.
Proof.
  induction m as [|[k x] m IH]; simpl; [by rewrite elem_of_nil|].
  intros [Hk Hm]%NoDup_cons. rewrite elem_of_cons. case_bool_decide as H.
  - subst k. split; [naive_solver|]. intros [[= ->]|Hin]; [done|].
    destruct Hk. by apply (list_elem_of_fmap_2 fst _ (key, v)).
  - rewrite IH by done. naive_solver.
Qed.

Lemma obj_get_insert key k x m :
  obj_get key (obj_insert k x m) = if bool_decide (key = k) then Some x else obj_get key m.
Proof.
  induction m as [|[j v] m IH]; simpl.
  - by repeat case_bool_decide; subst.
  - destruct (decide (j = k)) as [->|Hj].
    + rewrite (bool_decide_eq_true_2 (k = k)) by done. simpl. by repeat case_bool_decide; subst.
    + rewrite (bool_decide_eq_false_2 (j = k)) by done. simpl.
      destruct (decide (j = key)) as [->|Hk].
      * by rewrite (bool_decide_eq_true_2 (key = key)), (bool_decide_eq_false_2 (key = k)) by done.
      * by rewrite (bool_decide_eq_false_2 (j = key)) by done.
Qed.
Lemma obj_insert_keys k x m : keys (obj_insert k x m) = if bool_decide (k ∈ keys m) then keys m else keys m ++ [k].
Proof.
  induction m as [|[j v] m IH]; [done|]. simpl. destruct (decide (j = k)) as [->|Hj].
  - rewrite (bool_decide_eq_true_2 (k = k)) by done.
    by rewrite bool_decide_eq_true_2 by (by left).
  - rewrite (bool_decide_eq_false_2 (j = k)) by done. simpl. rewrite IH.
    destruct (decide (k ∈ keys m)).
    + by rewrite (bool_decide_eq_true_2 (k ∈ keys m)), bool_decide_eq_true_2 by (try done; by right).
    + rewrite (bool_decide_eq_false_2 (k ∈ keys m)), bool_decide_eq_false_2; [done| |done].
      by intros [->|?]%elem_of_cons.
Qed.
Lemma obj_insert_NoDup k x m : NoDup (keys m) → NoDup (keys (obj_insert k x m)).
Proof.
  intros H. rewrite obj_insert_keys. case_bool_decide; [done|].
  apply NoDup_app. split; [done|]. split; [set_solver|]. apply NoDup_singleton.
Qed.

(** Removal is removal, up to the order of the entries. *)
Lemma obj_remove_perm key m :
  NoDup (keys m) → obj_remove key m ≡ₚ List.filter (λ e, negb (bool_decide (e.1 = key))) m.
Proof.
  induction m as [|[k v] m IH]; simpl; [done|]. intros [Hk Hm]%NoDup_cons.
  case_bool_decide as He; simpl; [|by rewrite IH].
  subst k. transitivity m.
  - destruct (reverse m) as [|e r] eqn:Hr.
    + apply (f_equal reverse) in Hr. rewrite reverse_involutive in Hr. by subst.
    + apply (f_equal reverse) in Hr. rewrite reverse_involutive, reverse_cons in Hr.
      rewrite Hr. by rewrite Permutation_app_comm.
  - clear IH. induction m as [|[j w] m IHm]; [done|]. simpl.
    rewrite bool_decide_eq_false_2 by set_solver. simpl. f_equiv. apply IHm.
    + set_solver.
    + by apply NoDup_cons in Hm as [_ ?].
Qed.
Lemma obj_remove_NoDup key m : NoDup (keys m) → NoDup (keys (obj_remove key m)).
Proof.
  intros H. unfold keys. rewrite (obj_remove_perm key m H). clear -H.
  induction m as [|[k v] m IH]; [constructor|]. apply NoDup_cons in H as [Hk Hm].
  simpl. destruct (negb _); [|by apply IH]. simpl. apply NoDup_cons. split; [|by apply IH].
  intros (e & He & Hin)%list_elem_of_fmap. apply Hk, list_elem_of_fmap. exists e. split; [done|].
  apply list_elem_of_In, filter_In in Hin as [Hin _]. by apply list_elem_of_In.
Qed.
Lemma obj_get_remove key k m :
  NoDup (keys m) → obj_get key (obj_remove k m) = if bool_decide (key = k) then None else obj_get key m.
Proof.
  intros H. pose proof (obj_remove_NoDup k m H) as H'. apply option_eq. intros v.
  rewrite obj_get_Some by done. rewrite (obj_remove_perm k m H).
  rewrite list_elem_of_In, filter_In, <- list_elem_of_In. simpl.
  destruct (decide (key = k)) as [->|Hk].
  - rewrite (bool_decide_eq_true_2 (k = k)) by done. naive_solver.
  - rewrite (bool_decide_eq_false_2 (key = k)) by done. rewrite <- obj_get_Some by done. naive_solver.
Qed.
