(* ===== verification/WalGeneration.v ===== *)
(** * WalGeneration: the identity of a WAL stream (core/src/wal_generation.rs)

    The sidecar [.wal-generation.json] is the optional content of one file.  [ensure_generation]
    is given twice: as the function of the source, with the outcome of every fallible system call
    an input, and as a step relation over any number of processes that run it at once.  The JSON
    reader and writer of [GenerationRecord] are parameters with their round-trip law. *)

From S2P Require Import Prelude Text.

(** Source: core/src/wal_generation.rs 31-31 (WAL_GENERATION_FILE) *)
Definition WAL_GENERATION_FILE : str := #".wal-generation.json".

(** Source: core/src/wal_generation.rs 194-196 (generation_mismatch) *)
Definition generation_mismatch (recorded current : option str) : bool :=
  match recorded, current with Some a, Some b => bool_decide (a ≠ b) | _, _ => false end.

(** Source: core/src/wal_generation.rs 200-208 (position_reset_detected) *)
Definition position_reset_detected (applied_seq : option N) (recorded current : option str) : bool :=
  bool_decide (is_Some applied_seq) && bool_decide (is_Some current) && bool_decide (recorded ≠ current).

(** The JSON codec of [GenerationRecord], which serde derives. *)
Class GenerationCodec := {
  gen_parse : str → option str;
  gen_print : str → str;
}.
Class GenerationCodecLaws `{GenerationCodec} := {
  gen_parse_print g : gen_parse (gen_print g) = Some g;
}.

Section generation.
Context {GC : GenerationCodec}.

(** The sidecar: [None] when the file is absent, its text otherwise. *)
Abbreviation sidecar := (option str).

(** Source: core/src/wal_generation.rs 46-53 (read_generation) *)
Definition read_generation (target : sidecar) : option str :=
  text ← target;
  generation ← gen_parse text;
  match trim generation with [] => None | _ => Some generation end.
#[global] Arguments read_generation : simpl never.

(** One attempt's environment: the UUID it draws, and whether writing the temp file, linking it
    (for a reason other than the target existing) and removing the target fail. *)
Record attempt := {
  att_uuid : str;
  att_tmp_err : option msg;
  att_link_err : option msg;
  att_rm_ok : bool;
}.

Definition unreadable_msg : msg :=
  Msg "generation file exists but could not be read after concurrent creation" [].

(** The attempt up to and including the link; [None] asks for a self-heal.
    Source: core/src/wal_generation.rs 102-157 (ensure_generation_impl) *)
Definition ensure_attempt (a : attempt) (target : sidecar) : option (result Error str) * sidecar :=
  match read_generation target with
  | Some existing => (Some (Ok existing), target)
  | None =>
      match att_tmp_err a with
      | Some e => (Some (Err (WalIo e)), target)
      | None =>
          match att_link_err a, target with
          | Some e, _ => (Some (Err (WalIo e)), target)
          | None, None => (Some (Ok (att_uuid a)), Some (gen_print (att_uuid a)))
          | None, Some _ =>
              match read_generation target with
              | Some winner => (Some (Ok winner), target)
              | None => (None, target)
              end
          end
      end
  end.
(** Source: core/src/wal_generation.rs 98-157 (ensure_generation) *)
Definition ensure_generation (a1 a2 : attempt) (target : sidecar) : result Error str * sidecar :=
  match ensure_attempt a1 target with
  | (Some r, t) => (r, t)
  | (None, t) =>
      let t := if att_rm_ok a1 then None else t in
      match ensure_attempt a2 t with
      | (Some r, t) => (r, t)
      | (None, t) => (Err (WalIo unreadable_msg), t)
      end
  end.

(** ** Concurrent callers *)

(** Where one caller stands: about to read, holding its synced temp file, refused by the link,
    about to remove a target it could not read, or finished.  [heal] is
    [self_heal_on_wreckage]. *)
Inductive pc :=
| PRead (heal : bool)
| PTmp (heal : bool) (uuid : str)
| PExists (heal : bool)
| PRemove
| PDone (r : option str).

(** One file-system step of one caller; a fresh UUID is any non-blank text not used before by
    the rule's side condition.
    Source: core/src/wal_generation.rs 98-157 (ensure_generation_impl) *)
Inductive pstep : sidecar → pc → sidecar → pc → Prop :=
| ps_found t h g : read_generation t = Some g → pstep t (PRead h) t (PDone (Some g))
| ps_mint t h u : read_generation t = None → trim u ≠ [] → pstep t (PRead h) t (PTmp h u)
| ps_link h u : pstep None (PTmp h u) (Some (gen_print u)) (PDone (Some u))
| ps_refused x h u : pstep (Some x) (PTmp h u) (Some x) (PExists h)
| ps_winner t h g : read_generation t = Some g → pstep t (PExists h) t (PDone (Some g))
| ps_wreck t : read_generation t = None → pstep t (PExists true) t PRemove
| ps_give_up t : read_generation t = None → pstep t (PExists false) t (PDone None)
| ps_remove t : pstep t PRemove None (PRead false).

Definition world : Type := sidecar * list pc.
Inductive gstep : world → world → Prop :=
| gstep_at t ps i p t' p' :
    ps !! i = Some p → pstep t p t' p' → gstep (t, ps) (t', <[i := p']> ps).
Definition start (t : sidecar) (n : nat) : world := (t, replicate n (PRead true)).

Context {GL : GenerationCodecLaws}.

Lemma read_print u : trim u ≠ [] → read_generation (Some (gen_print u)) = Some u.
Proof. intros H. unfold read_generation. simpl. rewrite gen_parse_print. simpl. by destruct (trim u). Qed.

(** What every reachable state of a race that starts without wreckage satisfies: nobody is about
    to remove the target, and everybody who finished holds what the target holds. *)
Definition race_inv (w : world) : Prop :=
  (w.1 = None ∨ is_Some (read_generation w.1)) ∧
  Forall (λ p, match p with
               | PRemove => False
               | PTmp _ u => trim u ≠ []
               | PDone r => is_Some r ∧ read_generation w.1 = r
               | PExists _ => is_Some (read_generation w.1)
               | PRead _ => True
               end) w.2.

Lemma race_inv_start t n : (t = None ∨ is_Some (read_generation t)) → race_inv (start t n).
Proof. intros H. split; [done|]. apply Forall_replicate. done. Qed.

Lemma race_inv_step w w' : race_inv w → gstep w w' → race_inv w'.
Proof.
  intros [Ht Hall] Hs. inversion Hs as [t ps i p t' p' Hi Hp]; subst w w'. simpl in *.
  pose proof (Forall_lookup_1 _ _ _ _ Hall Hi) as Hpi. simpl in Hpi.
  inversion Hp; subst; simpl in *; try done.
  - split; [done|]. apply Forall_insert; [done|]. simpl. eauto.
  - split; [done|]. by apply Forall_insert.
  - split; simpl; [right; rewrite read_print by done; eauto|].
    apply Forall_insert; [|rewrite read_print by done; eauto].
    eapply Forall_impl; [exact Hall|].
    intros [] Hq; simpl in *; try done; [by destruct Hq|]. by destruct Hq as [[? ->] ?].
  - destruct Ht as [|Ht]; [done|]. split; [by right|]. by apply Forall_insert.
  - split; [done|]. apply Forall_insert; [done|]. simpl. eauto.
  - destruct Hpi as [r ?]. congruence.
  - destruct Hpi as [r ?]. congruence.
Qed.

Lemma race_inv_reach w w' : race_inv w → rtc gstep w w' → race_inv w'.
Proof. induction 2; eauto using race_inv_step. Qed.
End generation.

(** A concrete codec: the record is its bare text. *)
Definition PlainCodec : GenerationCodec := {| gen_parse s := Some s; gen_print s := s |}.
Global Instance PlainCodecLaws : @GenerationCodecLaws PlainCodec.
Proof. by split. Qed.

(** One step of one caller, named by its positions before and after. *)
Ltac caller_step i p q :=
  eapply rtc_l; [eapply (gstep_at _ _ i p _ q); [done|by econstructor]|].
Tactic Notation "caller" constr(i) "at" constr(p) "to" constr(q) := caller_step i p q.

(** ** Properties *)

Section props.
Context {GC : GenerationCodec} {GL : GenerationCodecLaws}.

(** Racing first-time creations agree: from a stream whose sidecar is absent or readable,
    every caller that finishes returns the same generation, and it is the one on disk. *)
Theorem generation_race_agreement t n t' ps i j ri rj :
  (t = None ∨ is_Some (read_generation t)) →
  rtc gstep (start t n) (t', ps) →
  ps !! i = Some (PDone ri) → ps !! j = Some (PDone rj) →
  ri = rj ∧ is_Some ri ∧ read_generation t' = ri.
Proof using GL.
  intros Ht Hr Hi Hj.
  destruct (race_inv_reach _ _ (race_inv_start t n Ht) Hr) as [_ Hall]. simpl in Hall.
  pose proof (Forall_lookup_1 _ _ _ _ Hall Hi) as [Hsi Hgi].
  pose proof (Forall_lookup_1 _ _ _ _ Hall Hj) as [Hsj Hgj].
  split; [congruence|]. by split.
Qed.

(** The agreement fails when the target is unreadable wreckage: a caller that has seen the
    wreckage removes whatever is at the target when it gets there, so it can delete the record
    another self-healing caller has just published and returned. *)
Theorem generation_self_heal_race x u v :
  read_generation (Some x) = None → trim u ≠ [] → trim v ≠ [] →
  rtc gstep (start (Some x) 2) (Some (gen_print v), [PDone (Some u); PDone (Some v)]).
Proof.
  intros Hx Hu Hv. unfold start. simpl.
  caller 0 at (PRead true) to (PTmp true u).
  caller 1 at (PRead true) to (PTmp true v).
  caller 0 at (PTmp true u) to (PExists true).
  caller 1 at (PTmp true v) to (PExists true).
  caller 0 at (PExists true) to PRemove.
  caller 1 at (PExists true) to PRemove.
  caller 0 at PRemove to (PRead false).
  caller 0 at (PRead false) to (PTmp false u).
  caller 0 at (PTmp false u) to (PDone (Some u)).
  caller 1 at PRemove to (PRead false).
  caller 1 at (PRead false) to (PTmp false v).
  caller 1 at (PTmp false v) to (PDone (Some v)).
  apply rtc_refl.
Qed.

(** A call never replaces a readable record, and a call that succeeds leaves a record that
    the next read returns: minting is idempotent, whatever the second call's environment. *)
Theorem ensure_generation_idempotent a1 a2 b1 b2 t g t' :
  trim (att_uuid a1) ≠ [] → trim (att_uuid a2) ≠ [] →
  ensure_generation a1 a2 t = (Ok g, t') →
  read_generation t' = Some g ∧
  (∀ g0, read_generation t = Some g0 → g = g0 ∧ t' = t) ∧
  ensure_generation b1 b2 t' = (Ok g, t').
Proof using GL.
  intros H1 H2 He.
  assert (read_generation t' = Some g ∧ (∀ g0, read_generation t = Some g0 → g = g0 ∧ t' = t)) as [Hr Hk].
  { revert He. unfold ensure_generation, ensure_attempt.
    destruct (read_generation t) eqn:Ht; [intros; simplify_eq; naive_solver|].
    destruct (att_tmp_err a1); [done|]. destruct (att_link_err a1); [done|].
    destruct t as [x|]; [|intros; simplify_eq; rewrite read_print by done; naive_solver].
    destruct (att_rm_ok a1).
    - change (read_generation None) with (@None str).
      destruct (att_tmp_err a2); [done|]. destruct (att_link_err a2); [done|].
      intros; simplify_eq. rewrite read_print by done. naive_solver.
    - rewrite Ht. destruct (att_tmp_err a2); [done|]. by destruct (att_link_err a2). }
  split_and!; [done..|]. unfold ensure_generation, ensure_attempt. by rewrite Hr.
Qed.

(** The self-heal recovers a stream whose sidecar is wreckage: without I/O failures the call
    mints the second attempt's UUID. *)
Theorem ensure_generation_self_heals a1 a2 x :
  read_generation (Some x) = None →
  att_tmp_err a1 = None → att_link_err a1 = None → att_rm_ok a1 = true →
  att_tmp_err a2 = None → att_link_err a2 = None →
  ensure_generation a1 a2 (Some x) = (Ok (att_uuid a2), Some (gen_print (att_uuid a2))).
Proof.
  intros Hx H1 H2 H3 H4 H5. unfold ensure_generation, ensure_attempt.
  rewrite Hx, H1, H2, H3. change (read_generation None) with (@None str). by rewrite H4, H5.
Qed.
End props.

(** A consumer position counts as reset exactly when a position is recorded, the stream's
    generation is known now, and it is not the recorded one — so a baseline adopted without a
    generation is reset by the first generation that appears, unlike a checkpoint's. *)
Theorem position_reset_spec applied recorded current :
  position_reset_detected applied recorded current = true ↔
  ∃ n g, applied = Some n ∧ current = Some g ∧ recorded ≠ Some g.
Proof.
  unfold position_reset_detected. rewrite !andb_true_iff, !bool_decide_eq_true.
  unfold is_Some. naive_solver.
Qed.

(** The two rules differ only for a recorded [None]. *)
Lemma mismatch_reset applied recorded current :
  is_Some applied → is_Some recorded →
  position_reset_detected applied recorded current = generation_mismatch recorded current.
Proof.
  intros [n ->] [r ->]. unfold position_reset_detected, generation_mismatch.
  destruct current as [c|]; simpl; [|done]. by repeat case_bool_decide; simplify_eq.
Qed.

(** ** Witnesses *)

Lemma generation_race_agreement_witness :
  Some #"g1" = Some #"g1" ∧ is_Some (Some #"g1") ∧ @read_generation PlainCodec (Some #"g1") = Some #"g1".
Proof.
  refine (@generation_race_agreement PlainCodec _ None 2 (Some #"g1")
    [PDone (Some #"g1"); PDone (Some #"g1")] 0 1 (Some #"g1") (Some #"g1") _ _ _ _); [by left| |done|done].
  caller 0 at (PRead true) to (PTmp true #"g1").
  caller 1 at (PRead true) to (PTmp true #"g2").
  caller 0 at (PTmp true #"g1") to (PDone (Some #"g1")).
  caller 1 at (PTmp true #"g2") to (PExists true).
  caller 1 at (PExists true) to (PDone (Some #"g1")).
  apply rtc_refl.
Defined.

Lemma generation_self_heal_race_witness :
  rtc (@gstep PlainCodec) (@start (Some []) 2) (Some #"v", [PDone (Some #"u"); PDone (Some #"v")]).
Proof. apply (@generation_self_heal_race PlainCodec [] #"u" #"v"); done. Defined.

Definition quiet (u : str) : attempt := {| att_uuid := u; att_tmp_err := None; att_link_err := None; att_rm_ok := true |}.

Lemma ensure_generation_idempotent_witness :
  @read_generation PlainCodec (Some #"u1") = Some #"u1" ∧
  (∀ g0, @read_generation PlainCodec None = Some g0 → #"u1" = g0 ∧ Some #"u1" = None) ∧
  @ensure_generation PlainCodec (quiet #"x") (quiet #"y") (Some #"u1") = (Ok #"u1", Some #"u1").
Proof.
  apply (@ensure_generation_idempotent PlainCodec _ (quiet #"u1") (quiet #"u2")
    (quiet #"x") (quiet #"y") None #"u1" (Some #"u1")); done.
Defined.

Lemma ensure_generation_self_heals_witness :
  @ensure_generation PlainCodec (quiet #"u1") (quiet #"u2") (Some []) = (Ok #"u2", Some #"u2").
Proof. apply (@ensure_generation_self_heals PlainCodec (quiet #"u1") (quiet #"u2") []); done. Defined.
