(* ===== verification/WalScan.v ===== *)
(** * WalScan: sequence bounds of a WAL directory (core/src/wal.rs, the reading half)

    A directory is the list [read_dir] yields, in the order it yields it; each entry has its name
    and, unless it cannot be opened, its bytes.  The two serde entry points that look at a line
    (parse as any JSON value and take ["seq"], parse as a [WalLine]) are parameters. *)

From S2P Require Import Prelude Text Numbers.

(** What the scans ask of serde: the ["seq"] of a line read as a JSON value, and of a line read as
    a five-field record. *)
Class SeqReader := {
  value_seq : str → option N;
  line_seq : str → option N;
}.

Record wfile := WFile { wf_name : str; wf_bytes : option bytes }.
Global Instance wfile_eq_dec : EqDecision wfile.
Proof. solve_decision. Defined.
(** [None]: the directory cannot be listed. *)
Abbreviation wal_dir := (option (list wfile)).

Definition io_err : Error := WalIo (Msg "I/O error" []).
Definition file_len (bs : bytes) : N := N.of_nat (length bs).

(** [Path::extension] of a file name: what follows the last dot, unless that dot is the first
    character. *)
Definition is_dot (c : char) : bool := (c =? 46)%N.
Definition extension (name : str) : option str :=
  if bool_decide (name = #"..") then None else
  match reverse (split_on is_dot name) with
  | ext :: ((_ :: _) as stem) => if bool_decide (stem = [[]]) then None else Some ext
  | _ => None
  end.
Definition is_jsonl (name : str) : bool := bool_decide (extension name = Some #"jsonl").

(** The filter every listing of WAL files starts with. *)
Definition jsonl_files (dir : list wfile) : list wfile := List.filter (λ f, is_jsonl (wf_name f)) dir.

(** Source: core/src/wal.rs 345-357 (count_jsonl_files) *)
Definition count_jsonl_files (dir : wal_dir) : N :=
  match dir with Some d => N.of_nat (length (jsonl_files d)) | None => 0 end.

(** Source: core/src/wal.rs 890-890 (TAIL_READ_WINDOW) *)
Definition TAIL_READ_WINDOW : N := 256 * 1024.

Section scan.
Context {SR : SeqReader}.

(** The [seq] of one line of text: trimmed, skipped when empty or not a value with a [seq]. *)
Definition tail_line_seq (raw : str) : option N :=
  match trim raw with [] => None | t => value_seq t end.

(** Source: core/src/wal.rs 1034-1062 (read_last_seq_in_range) *)
Definition read_last_seq_in_range (bs : bytes) (start : N) : option N :=
  let buf := drop (N.to_nat start) bs in
  let text := from_utf8_lossy buf in
  let ls := lines text in
  let ls := if (0 <? start)%N then tail ls else ls in
  find_last tail_line_seq ls.

(** Source: core/src/wal.rs 1018-1029 (read_last_seq) *)
Definition read_last_seq (window : N) (f : wfile) : result Error (option N) :=
  match wf_bytes f with
  | None => Err io_err
  | Some bs =>
      if (window <? file_len bs)%N then
        match read_last_seq_in_range bs (file_len bs - window) with
        | Some seq => Ok (Some seq)
        | None => Ok (read_last_seq_in_range bs 0)
        end
      else Ok (read_last_seq_in_range bs 0)
  end.

(** [BufRead::lines]: bytes split at newlines, each decoded strictly. *)
Definition buf_lines (bs : bytes) : list (option str) :=
  let l := split_on is_nl bs in
  ((λ b, from_utf8 (strip_cr b)) <$> removelast l) ++
  (from_utf8 <$> List.filter nonempty [List.last l []]).

(** Source: core/src/wal.rs 864-884 (first_seq_in_file) *)
Definition first_seq_in_file (f : wfile) : option N :=
  bs ← wf_bytes f;
  find_first (λ line, raw ← line; match trim raw with [] => None | t => line_seq t end) (buf_lines bs).

(** [let Some(seq) = read? else continue; max = ...] over the files in listing order.
    Source: core/src/wal.rs 371-381 (scan_max_seq_detailed) *)
Definition scan_step (window : N) (acc : option N) (f : wfile) : result Error (option N) :=
  let? last := read_last_seq window f in
  Ok (match last with
      | Some seq =>
          match acc with Some m => if (m <? seq)%N then Some seq else acc | None => Some seq end
      | None => acc
      end).
Fixpoint rfold {E A B} (step : B → A → result E B) (acc : B) (l : list A) : result E B :=
  match l with [] => Ok acc | x :: l => let? acc := step acc x in rfold step acc l end.
(** Source: core/src/wal.rs 366-383 (scan_max_seq_detailed) *)
Definition scan_max_seq_detailed (window : N) (dir : wal_dir) : result Error (option N) :=
  match dir with
  | None => Err io_err
  | Some d => rfold (scan_step window) None (jsonl_files d)
  end.

(** Source: core/src/wal.rs 422-424 (scan_max_seq) *)
Definition scan_max_seq (window : N) (dir : wal_dir) : result Error N :=
  let? m := scan_max_seq_detailed window dir in
  Ok (match m with Some s => add64 s 1 | None => 0%N end).

(** ** The bounds manifest *)

(** Source: core/src/wal.rs 516-552 (WalBoundsManifest) *)
Record WalBoundsManifest := {
  file_set_fingerprint : N;
  max_seq_file : option str;
  max_seq_file_size : N;
  max_seq : option N;
  min_seq_file : option str;
  min_seq_file_size : N;
  min_seq : option N;
}.

(** [DefaultHasher] over the sorted names. *)
Context (hash_names : list str → N).
(** Source: core/src/wal.rs 394-403 (jsonl_file_set_fingerprint) *)
Definition jsonl_file_set_fingerprint (files : list wfile) : N :=
  hash_names (sort_by str_leb (wf_name <$> files)).
(** Source: core/src/wal.rs 411-419 (current_jsonl_file_set_fingerprint) *)
Definition current_jsonl_file_set_fingerprint (dir : wal_dir) : option N :=
  d ← dir; Some (jsonl_file_set_fingerprint (jsonl_files d)).

Definition meta_len (f : wfile) : N := match wf_bytes f with Some bs => file_len bs | None => 0 end.

(** A file's last sequence number against the running maximum.
    Source: core/src/wal.rs 468-481 (scan_wal_bounds_detailed) *)
Definition bounds_max (last : option N) (f : wfile) (acc : WalBoundsManifest) : WalBoundsManifest :=
  match last with
  | Some seq =>
      if match max_seq acc with Some m => (m <? seq)%N | None => true end then
        {| file_set_fingerprint := file_set_fingerprint acc;
           max_seq_file := Some (wf_name f); max_seq_file_size := meta_len f; max_seq := Some seq;
           min_seq_file := min_seq_file acc; min_seq_file_size := min_seq_file_size acc;
           min_seq := min_seq acc |}
      else acc
  | None => acc
  end.
(** A file's first sequence number against the running minimum.
    Source: core/src/wal.rs 482-488 (scan_wal_bounds_detailed) *)
Definition bounds_min (first : option N) (f : wfile) (acc : WalBoundsManifest) : WalBoundsManifest :=
  match first with
  | Some seq =>
      if match min_seq acc with Some m => (seq <? m)%N | None => true end then
        {| file_set_fingerprint := file_set_fingerprint acc;
           max_seq_file := max_seq_file acc; max_seq_file_size := max_seq_file_size acc;
           max_seq := max_seq acc;
           min_seq_file := Some (wf_name f); min_seq_file_size := meta_len f; min_seq := Some seq |}
      else acc
  | None => acc
  end.
(** Source: core/src/wal.rs 466-489 (scan_wal_bounds_detailed) *)
Definition bounds_step (window : N) (acc : WalBoundsManifest) (f : wfile) : result Error WalBoundsManifest :=
  let? last := read_last_seq window f in
  Ok (bounds_min (first_seq_in_file f) f (bounds_max last f acc)).
(** Source: core/src/wal.rs 453-500 (scan_wal_bounds_detailed) *)
Definition scan_wal_bounds_detailed (window : N) (dir : wal_dir) : result Error WalBoundsManifest :=
  match dir with
  | None => Err io_err
  | Some d =>
      let files := jsonl_files d in
      rfold (bounds_step window)
        {| file_set_fingerprint := jsonl_file_set_fingerprint files;
           max_seq_file := None; max_seq_file_size := 0; max_seq := None;
           min_seq_file := None; min_seq_file_size := 0; min_seq := None |} files
  end.

(** A single normal path component with the [jsonl] extension.
    Source: core/src/wal.rs 678-699 (is_safe_wal_file_name) *)
Definition is_safe_wal_file_name (name : str) : bool :=
  nonempty name && negb (contains_char 47 name) && bool_decide (name ≠ #".")
  && bool_decide (name ≠ #"..") && is_jsonl name.

Definition lookup_file (dir : wal_dir) (name : str) : option wfile :=
  d ← dir; List.find (λ f, bool_decide (wf_name f = name)) d.
(** [fs::metadata(path).ok()?.len()] *)
Definition file_size (dir : wal_dir) (name : str) : option N :=
  f ← lookup_file dir name; bs ← wf_bytes f; Some (file_len bs).

(** The answer, and the manifest to write back when the file had grown.
    Source: core/src/wal.rs 705-759 (wal_max_seq_fast_path) *)
Definition wal_max_seq_fast_path (window : N) (dir : wal_dir) (man : option WalBoundsManifest) :
    option (option N * option WalBoundsManifest) :=
  m ← man;
  current ← current_jsonl_file_set_fingerprint dir;
  if negb (current =? file_set_fingerprint m)%N then None else
  match max_seq_file m, max_seq m with
  | None, None => Some (None, None)
  | Some file_name, Some cached_seq =>
      if negb (is_safe_wal_file_name file_name) then None else
      current_size ← file_size dir file_name;
      if (current_size =? max_seq_file_size m)%N then Some (Some cached_seq, None) else
      f ← lookup_file dir file_name;
      match read_last_seq window f with
      | Ok (Some seq) =>
          if (cached_seq <=? seq)%N then
            Some (Some seq,
              Some {| file_set_fingerprint := current; max_seq_file := Some file_name;
                      max_seq_file_size := current_size; max_seq := Some seq;
                      min_seq_file := min_seq_file m; min_seq_file_size := min_seq_file_size m;
                      min_seq := min_seq m |})
          else None
      | _ => None
      end
  | _, _ => None
  end.

(** The answer and the manifest left on disk; the manifest write is best effort, [wr] says
    whether it lands.
    Source: core/src/wal.rs 651-671 (wal_max_seq) *)
Definition wal_max_seq (window : N) (dir : wal_dir) (wr : bool) (man : option WalBoundsManifest) :
    result Error (option N) * option WalBoundsManifest :=
  match wal_max_seq_fast_path window dir man with
  | Some (fast, Some m) => (Ok fast, if wr then Some m else man)
  | Some (fast, None) => (Ok fast, man)
  | None =>
      match scan_wal_bounds_detailed window dir with
      | Ok m => (Ok (max_seq m), if wr then Some m else man)
      | Err e => (Err e, man)
      end
  end.

(** Source: core/src/wal.rs 823-849 (wal_min_seq_fast_path) *)
Definition wal_min_seq_fast_path (dir : wal_dir) (man : option WalBoundsManifest) : option (option N) :=
  m ← man;
  current ← current_jsonl_file_set_fingerprint dir;
  if negb (current =? file_set_fingerprint m)%N then None else
  match min_seq_file m, min_seq m with
  | None, None => Some None
  | Some file_name, Some cached_seq =>
      if negb (is_safe_wal_file_name file_name) then None else
      current_size ← file_size dir file_name;
      if (current_size <? min_seq_file_size m)%N then None else Some (Some cached_seq)
  | _, _ => None
  end.
(** Source: core/src/wal.rs 780-804 (wal_min_seq) *)
Definition wal_min_seq (window : N) (dir : wal_dir) (wr : bool) (man : option WalBoundsManifest) :
    result Error (option N) * option WalBoundsManifest :=
  match wal_min_seq_fast_path dir man with
  | Some fast => (Ok fast, man)
  | None =>
      match scan_wal_bounds_detailed window dir with
      | Ok m => (Ok (min_seq m), if wr then Some m else man)
      | Err _ => (Ok None, man)
      end
  end.
End scan.

(** ** The tail window is an optimisation only *)

Section scan_lemmas.
Context {SR : SeqReader}.

Lemma take_until_nl (bs : bytes) : 10%N ∉ bs ∨ ∃ a b, bs = a ++ 10%N :: b ∧ 10%N ∉ a.
Proof.
  induction bs as [|c bs IH]; [left; set_solver|].
  destruct (decide (c = 10%N)) as [->|Hc]; [right; exists [], bs; split; [done|set_solver]|].
  destruct IH as [H|(a & b & -> & Ha)]; [left; set_solver|].
  right. exists (c :: a), b. split; [done|set_solver].
Qed.

(** Dropping the first line of a window leaves a suffix of the file's lines. *)
Lemma window_lines (p w : bytes) :
  ∃ front, lines (from_utf8_lossy (p ++ w)) = front ++ tail (lines (from_utf8_lossy w)) ∨
           tail (lines (from_utf8_lossy w)) = [].
Proof.
  destruct (take_until_nl w) as [H|(a & b & -> & Ha)].
  - exists []. right. apply from_utf8_lossy_no_nl in H. unfold lines.
    rewrite split_on_none by (by apply no_nl_forallb). simpl. by destruct (from_utf8_lossy w).
  - pose proof (from_utf8_lossy_no_nl a Ha) as Hta.
    exists (strip_cr <$> split_on is_nl (from_utf8_lossy (p ++ a))). left.
    rewrite app_assoc, !lossy_newline, !lines_app.
    by rewrite (split_on_none is_nl (from_utf8_lossy a)) by (by apply no_nl_forallb).
Qed.

(** The last sequence number of a file, read in full. *)
Definition last_seq (f : wfile) : option N := bs ← wf_bytes f; read_last_seq_in_range bs 0.
Definition readable (f : wfile) : Prop := is_Some (wf_bytes f).

Lemma read_last_seq_full window f :
  read_last_seq window f = match wf_bytes f with Some _ => Ok (last_seq f) | None => Err io_err end.
Proof.
  unfold read_last_seq, last_seq. destruct (wf_bytes f) as [bs|]; simpl; [|done].
  destruct (N.ltb_spec window (file_len bs)) as [H|H]; [|done].
  destruct (read_last_seq_in_range bs (file_len bs - window)) as [s|] eqn:Hr; [|done].
  do 2 f_equal. symmetry. revert Hr. unfold read_last_seq_in_range at 1.
  rewrite (proj2 (N.ltb_lt 0 (file_len bs - window))) by lia. intros Hr.
  unfold read_last_seq_in_range. rewrite drop_0, N.ltb_irrefl.
  rewrite <- (take_drop (N.to_nat (file_len bs - window)) bs) at 1.
  destruct (window_lines (take (N.to_nat (file_len bs - window)) bs)
    (drop (N.to_nat (file_len bs - window)) bs)) as [front [->|Hnil]].
  - by rewrite find_last_app, Hr.
  - by rewrite Hnil in Hr.
Qed.

Lemma scan_step_full window acc f a :
  scan_step window acc f = Ok a → readable f ∧
  a = match last_seq f with Some s => omax acc s | None => acc end.
Proof.
  unfold scan_step, readable. rewrite read_last_seq_full.
  destruct (wf_bytes f) eqn:Hb; [|done]. simpl. intros [= <-]. split; [eauto|].
  destruct (last_seq f) as [s|]; [|done]. unfold omax.
  destruct acc as [m|]; [|done]. destruct (N.ltb_spec m s); f_equal; lia.
Qed.

Lemma rfold_ind {E A B} (step : B → A → result E B) (P : list A → B → Prop) acc l b :
  P [] acc →
  (∀ done acc x acc', P done acc → step acc x = Ok acc' → P (done ++ [x]) acc') →
  rfold step acc l = Ok b → P l b.
Proof.
  intros H0 Hstep. enough (∀ done acc, P done acc → rfold step acc l = Ok b → P (done ++ l) b) as H
    by (intros; by apply (H [] acc)).
  clear acc H0. induction l as [|x l IH]; intros dn acc HP; simpl.
  - intros [= <-]. by rewrite app_nil_r.
  - intros (acc' & Hx & Hl)%rbind_ok. change (x :: l) with ([x] ++ l). rewrite app_assoc. eauto.
Qed.
Lemma rfold_total {E A B} (step : B → A → result E B) acc l :
  (∀ acc x, x ∈ l → ∃ acc', step acc x = Ok acc') → ∃ b, rfold step acc l = Ok b.
Proof.
  revert acc. induction l as [|x l IH]; intros acc H; simpl; [eauto|].
  destruct (H acc x) as [acc' ->]; [by left|]. simpl. apply IH. intros. apply H. by right.
Qed.

(** The accumulator of a scan is the maximum of what it has seen. *)
Lemma scan_max_spec window d m :
  scan_max_seq_detailed window (Some d) = Ok m →
  Forall readable (jsonl_files d) ∧ is_max (omap last_seq (jsonl_files d)) m.
Proof.
  apply (rfold_ind _ (λ l m, Forall readable l ∧ is_max (omap last_seq l) m)); [done|].
  intros l acc f acc' [Hr Hm] [Hf ->]%scan_step_full. split.
  - apply Forall_app. split; [done|]. by constructor.
  - rewrite omap_app. cbn. destruct (last_seq f) as [s|]; [by apply is_max_snoc|].
    by rewrite app_nil_r.
Qed.
End scan_lemmas.

(** ** What a full scan records *)

Section bounds.
Context {SR : SeqReader} (hash_names : list str → N).
#[local] Abbreviation scan := (scan_wal_bounds_detailed hash_names).
#[local] Abbreviation fingerprint := (jsonl_file_set_fingerprint hash_names).

(** The named file attains the bound [s] of [key] and had the recorded size. *)
Definition attains (key : wfile → option N) (l : list wfile)
    (name : option str) (size : N) (s : option N) : Prop :=
  match name, s with
  | None, None => True
  | Some n, Some s => ∃ f, f ∈ l ∧ wf_name f = n ∧ key f = Some s ∧ size = meta_len f
  | _, _ => False
  end.
Definition manifest_of (l : list wfile) (m : WalBoundsManifest) : Prop :=
  is_max (omap last_seq l) (max_seq m) ∧ is_min (omap first_seq_in_file l) (min_seq m) ∧
  attains last_seq l (max_seq_file m) (max_seq_file_size m) (max_seq m) ∧
  attains first_seq_in_file l (min_seq_file m) (min_seq_file_size m) (min_seq m).

Lemma attains_mono key l l' n z s : l ⊆ l' → attains key l n z s → attains key l' n z s.
Proof. unfold attains. intros Hl. destruct n, s; try done. intros (f & ? & ?). eauto. Qed.

Lemma max_keep l m x : is_max l m → (∃ y, m = Some y ∧ x ≤ y)%N → is_max (l ++ [x]) m.
Proof.
  intros Hm (y & -> & Hxy). replace (Some y) with (omax (Some y) x) by (unfold omax; f_equal; lia).
  by apply is_max_snoc.
Qed.
Lemma max_new l m x : is_max l m → (∀ y, m = Some y → y ≤ x)%N → is_max (l ++ [x]) (Some x).
Proof.
  intros Hm Hx. replace (Some x) with (omax m x); [by apply is_max_snoc|].
  unfold omax. destruct m as [y|]; [|done]. f_equal. specialize (Hx y eq_refl). lia.
Qed.
Lemma min_keep l m x : is_min l m → (∃ y, m = Some y ∧ y ≤ x)%N → is_min (l ++ [x]) m.
Proof.
  intros Hm (y & -> & Hxy). replace (Some y) with (omin (Some y) x) by (unfold omin; f_equal; lia).
  by apply is_min_snoc.
Qed.
Lemma min_new l m x : is_min l m → (∀ y, m = Some y → x ≤ y)%N → is_min (l ++ [x]) (Some x).
Proof.
  intros Hm Hx. replace (Some x) with (omin m x); [by apply is_min_snoc|].
  unfold omin. destruct m as [y|]; [|done]. f_equal. specialize (Hx y eq_refl). lia.
Qed.

Lemma bounds_min_max first f acc :
  max_seq (bounds_min first f acc) = max_seq acc ∧
  max_seq_file (bounds_min first f acc) = max_seq_file acc ∧
  max_seq_file_size (bounds_min first f acc) = max_seq_file_size acc ∧
  file_set_fingerprint (bounds_min first f acc) = file_set_fingerprint acc.
Proof. unfold bounds_min. by repeat case_match. Qed.
Lemma bounds_max_min last f acc :
  min_seq (bounds_max last f acc) = min_seq acc ∧
  min_seq_file (bounds_max last f acc) = min_seq_file acc ∧
  min_seq_file_size (bounds_max last f acc) = min_seq_file_size acc ∧
  file_set_fingerprint (bounds_max last f acc) = file_set_fingerprint acc.
Proof. unfold bounds_max. by repeat case_match. Qed.

Lemma bounds_max_spec acc f l (a := bounds_max (last_seq f) f acc) :
  is_max (omap last_seq l) (max_seq acc) →
  attains last_seq l (max_seq_file acc) (max_seq_file_size acc) (max_seq acc) →
  is_max (omap last_seq (l ++ [f])) (max_seq a) ∧
  attains last_seq (l ++ [f]) (max_seq_file a) (max_seq_file_size a) (max_seq a).
Proof.
  intros Hm Ha. rewrite omap_app. cbn. subst a. unfold bounds_max.
  assert (attains last_seq (l ++ [f]) (max_seq_file acc) (max_seq_file_size acc) (max_seq acc)) as Ha'
    by (eapply attains_mono; [|exact Ha]; set_solver).
  destruct (last_seq f) as [s|] eqn:Hs; [|by rewrite app_nil_r].
  destruct (max_seq acc) as [m|] eqn:Hmm; [destruct (N.ltb_spec m s)|]; simpl; rewrite ?Hmm.
  - split; [eapply max_new; [exact Hm|]|exists f]; [intros ? [= <-]; lia|].
    split_and!; [set_solver|done..].
  - split; [|done]. eapply max_keep; [exact Hm|]. eexists; split; [done|lia].
  - split; [eapply max_new; [exact Hm|]|exists f]; [done|]. split_and!; [set_solver|done..].
Qed.
Lemma bounds_min_spec acc f l (a := bounds_min (first_seq_in_file f) f acc) :
  is_min (omap first_seq_in_file l) (min_seq acc) →
  attains first_seq_in_file l (min_seq_file acc) (min_seq_file_size acc) (min_seq acc) →
  is_min (omap first_seq_in_file (l ++ [f])) (min_seq a) ∧
  attains first_seq_in_file (l ++ [f]) (min_seq_file a) (min_seq_file_size a) (min_seq a).
Proof.
  intros Hm Ha. rewrite omap_app. cbn. subst a. unfold bounds_min.
  assert (attains first_seq_in_file (l ++ [f]) (min_seq_file acc) (min_seq_file_size acc) (min_seq acc))
    as Ha' by (eapply attains_mono; [|exact Ha]; set_solver).
  destruct (first_seq_in_file f) as [s|] eqn:Hs; [|by rewrite app_nil_r].
  destruct (min_seq acc) as [m|] eqn:Hmm; [destruct (N.ltb_spec s m)|]; simpl; rewrite ?Hmm.
  - split; [eapply min_new; [exact Hm|]|exists f]; [intros ? [= <-]; lia|].
    split_and!; [set_solver|done..].
  - split; [|done]. eapply min_keep; [exact Hm|]. eexists; split; [done|lia].
  - split; [eapply min_new; [exact Hm|]|exists f]; [done|]. split_and!; [set_solver|done..].
Qed.

Lemma bounds_step_spec window acc f acc' l :
  manifest_of l acc → bounds_step window acc f = Ok acc' →
  readable f ∧ manifest_of (l ++ [f]) acc' ∧ file_set_fingerprint acc' = file_set_fingerprint acc.
Proof.
  intros (H1 & H2 & H3 & H4). unfold bounds_step. rewrite read_last_seq_full.
  destruct (wf_bytes f) eqn:Hb; [|done]. simpl. intros [= <-].
  destruct (bounds_max_spec acc f l H1 H3) as [M1 M2].
  destruct (bounds_max_min (last_seq f) f acc) as (E1 & E2 & E3 & E4).
  rewrite <- E1 in H2. rewrite <- E1, <- E2, <- E3 in H4.
  destruct (bounds_min_spec _ f l H2 H4) as [N1 N2].
  destruct (bounds_min_max (first_seq_in_file f) f (bounds_max (last_seq f) f acc)) as (F1 & F2 & F3 & F4).
  split; [unfold readable; eauto|]. split; [|by rewrite F4].
  unfold manifest_of. by rewrite F1, F2, F3.
Qed.

Lemma scan_bounds_spec window d m :
  scan window (Some d) = Ok m →
  Forall readable (jsonl_files d) ∧ manifest_of (jsonl_files d) m ∧
  file_set_fingerprint m = fingerprint (jsonl_files d).
Proof.
  apply (rfold_ind _ (λ l m, Forall readable l ∧ manifest_of l m ∧
    file_set_fingerprint m = fingerprint (jsonl_files d))); [by split_and!|].
  intros l acc f acc' (Hr & Hm & Hf) Hs.
  destruct (bounds_step_spec _ _ _ _ l Hm Hs) as (Hrf & ? & Hfp).
  split_and!; [|done|by rewrite Hfp]. apply Forall_app. by split; [|constructor].
Qed.
Lemma scan_bounds_total window d :
  Forall readable (jsonl_files d) → ∃ m, scan window (Some d) = Ok m.
Proof.
  intros Hr. apply rfold_total. intros acc f Hf.
  rewrite Forall_forall in Hr. destruct (Hr f Hf) as [bs Hb].
  unfold bounds_step. rewrite read_last_seq_full, Hb. simpl. eauto.
Qed.

(** ** A directory that only grows at the end of one file *)

Definition append_file (name : str) (ext : bytes) (f : wfile) : wfile :=
  if bool_decide (wf_name f = name) then WFile (wf_name f) ((.++ ext) <$> wf_bytes f) else f.
Definition append_to (name : str) (ext : bytes) (d : list wfile) : list wfile := append_file name ext <$> d.

Lemma append_name name ext f : wf_name (append_file name ext f) = wf_name f.
Proof. unfold append_file. by case_bool_decide. Qed.
Lemma append_names name ext d : wf_name <$> append_to name ext d = wf_name <$> d.
Proof.
  unfold append_to. rewrite <- list_fmap_compose. apply list_fmap_ext. intros i f _. apply append_name.
Qed.
Lemma append_jsonl name ext d : jsonl_files (append_to name ext d) = append_to name ext (jsonl_files d).
Proof.
  unfold jsonl_files, append_to. induction d as [|f d IH]; [done|].
  rewrite fmap_cons. cbn [List.filter]. rewrite append_name, IH. by destruct (is_jsonl (wf_name f)).
Qed.
Lemma append_fingerprint name ext d : fingerprint (append_to name ext d) = fingerprint d.
Proof. unfold jsonl_file_set_fingerprint. by rewrite append_names. Qed.
Lemma append_readable name ext d : Forall readable d → Forall readable (append_to name ext d).
Proof.
  intros H. apply Forall_fmap. eapply Forall_impl; [exact H|]. intros f [bs Hf].
  unfold append_file, readable. simpl. case_bool_decide; simpl; rewrite Hf; simpl; eauto.
Qed.
Lemma append_nil name d : append_to name [] d = d.
Proof.
  unfold append_to. rewrite <- (list_fmap_id d) at 2. apply list_fmap_ext. intros i [n bs] _.
  unfold append_file, id. simpl. case_bool_decide; [|done]. f_equal.
  destruct bs; simpl; [by rewrite app_nil_r|done].
Qed.

Lemma lookup_file_in d f :
  NoDup (wf_name <$> d) → f ∈ d → lookup_file (Some d) (wf_name f) = Some f.
Proof.
  unfold lookup_file. simpl. induction d as [|g d IH]; simpl; [by intros _ ?%elem_of_nil|].
  intros [Hg Hd]%NoDup_cons [->|Hf]%elem_of_cons; [by rewrite bool_decide_eq_true_2|].
  rewrite bool_decide_eq_false_2; [by apply IH|].
  intros He. apply Hg. rewrite He. by apply list_elem_of_fmap_2.
Qed.
Lemma lookup_file_append name ext d :
  lookup_file (Some (append_to name ext d)) name = append_file name ext <$> lookup_file (Some d) name.
Proof.
  unfold lookup_file, append_to. cbn [mbind option_bind]. induction d as [|f d IH]; [done|].
  rewrite fmap_cons. cbn [List.find]. rewrite append_name. by case_bool_decide.
Qed.

Lemma elem_of_jsonl f d : f ∈ jsonl_files d → f ∈ d.
Proof. unfold jsonl_files. rewrite !list_elem_of_In, filter_In. naive_solver. Qed.
Lemma NoDup_jsonl_names d : NoDup (wf_name <$> d) → NoDup (wf_name <$> jsonl_files d).
Proof.
  unfold jsonl_files. induction d as [|f d IH]; simpl; [done|].
  intros [Hf Hd]%NoDup_cons. destruct (is_jsonl (wf_name f)); simpl; [|by apply IH].
  apply NoDup_cons. split; [|by apply IH]. intros (g & Hg & Hin)%list_elem_of_fmap.
  apply Hf. apply elem_of_jsonl in Hin. rewrite Hg. by apply list_elem_of_fmap_2.
Qed.
End bounds.

(** ** Properties *)

Section props.
Context {SR : SeqReader} (hash_names : list str → N).
#[local] Abbreviation scan := (scan_wal_bounds_detailed hash_names).

(** C37. Reading only the tail of a large file never changes the answer: whatever the window, the
    result is the sequence number of the file's last parseable line, torn or invalid bytes at
    the window's edge included. *)
Theorem read_last_seq_window_exact window f bs :
  wf_bytes f = Some bs →
  read_last_seq window f = Ok (find_last tail_line_seq (lines (from_utf8_lossy bs))).
Proof.
  intros Hb. rewrite read_last_seq_full, Hb. unfold last_seq. by rewrite Hb.
Qed.

(** The start-up scan returns one more than the greatest last sequence number of any file,
    in whatever order the directory is listed, so below the type's limit the next number to
    assign exceeds every one of them. *)
Theorem scan_max_seq_order_free window d d' n :
  d ≡ₚ d' → scan_max_seq window (Some d) = Ok n →
  scan_max_seq window (Some d') = Ok n ∧
  ((∀ f s, f ∈ jsonl_files d → last_seq f = Some s → s < u64_max)%N →
   (∀ f s, f ∈ jsonl_files d → last_seq f = Some s → s < n)%N).
Proof.
  intros Hp. unfold scan_max_seq. intros (m & Hm & [= <-])%rbind_ok.
  destruct (scan_max_spec _ _ _ Hm) as [Hr Hmax].
  assert (jsonl_files d ≡ₚ jsonl_files d') as Hpj.
  { unfold jsonl_files. clear -Hp. induction Hp as [|x l l' Hp IH|x y l|l1 l2 l3 H1 IH1 H2 IH2]; simpl.
    - done.
    - destruct (is_jsonl _); [by rewrite IH|done].
    - destruct (is_jsonl _), (is_jsonl _); [by constructor|done..].
    - by rewrite IH1. }
  split.
  - destruct (rfold_total (scan_step window) None (jsonl_files d')) as [m' Hm'].
    { intros acc f Hf. rewrite <- Hpj in Hf. rewrite Forall_forall in Hr.
      destruct (Hr f Hf) as [bs Hb]. unfold scan_step. rewrite read_last_seq_full, Hb. simpl. eauto. }
    change (scan_max_seq_detailed window (Some d') = Ok m') in Hm'. rewrite Hm'. simpl.
    destruct (scan_max_spec _ _ _ Hm') as [_ Hmax'].
    rewrite (is_max_unique (omap last_seq (jsonl_files d')) m m'); [done| |done].
    eapply is_max_perm; [|exact Hmax]. by apply omap_Permutation.
  - intros Hb f s Hf Hs. assert (s ∈ omap last_seq (jsonl_files d)) as Hin
      by (apply list_elem_of_omap; eauto).
    destruct m as [m|]; simpl in Hmax; [|rewrite Hmax in Hin; by apply elem_of_nil in Hin].
    destruct Hmax as [(g & Hg & Hgm)%list_elem_of_omap Hle].
    pose proof (Hle s Hin). pose proof (Hb g m Hg Hgm) as Hu. unfold u64_max in Hu.
    rewrite add64_small by lia. lia.
Qed.

Lemma wal_max_fallback window dir wr man :
  wal_max_seq_fast_path hash_names window dir man = None →
  (wal_max_seq hash_names window dir wr man).1 = rmap max_seq (scan window dir).
Proof. intros H. unfold wal_max_seq. rewrite H. by destruct (scan window dir). Qed.

Lemma same_name_eq d f g :
  NoDup (wf_name <$> d) → f ∈ d → g ∈ d → wf_name f = wf_name g → f = g.
Proof.
  intros Hd Hf Hg He. pose proof (lookup_file_in d f Hd Hf) as H1.
  pose proof (lookup_file_in d g Hd Hg) as H2. rewrite He in H1. congruence.
Qed.

(** The maximum after appending to the file that held it. *)
Lemma append_max d f ext s s' m' :
  NoDup (wf_name <$> jsonl_files d) → f ∈ jsonl_files d →
  is_max (omap last_seq (jsonl_files d)) (Some s) →
  last_seq (append_file (wf_name f) ext f) = Some s' → (s ≤ s')%N →
  is_max (omap last_seq (jsonl_files (append_to (wf_name f) ext d))) m' → m' = Some s'.
Proof.
  intros Hd Hf [_ Hle] Hs' Hss Hm'. eapply is_max_unique; [exact Hm'|]. rewrite append_jsonl. split.
  - apply list_elem_of_omap. exists (append_file (wf_name f) ext f).
    split; [|done]. by apply list_elem_of_fmap_2.
  - intros y (g' & (g & -> & Hg)%list_elem_of_fmap & Hy)%list_elem_of_omap.
    destruct (decide (wf_name g = wf_name f)) as [He|Hne].
    + rewrite (same_name_eq _ g f Hd Hg Hf He) in Hy. rewrite Hy in Hs'. injection Hs' as ->. done.
    + unfold append_file in Hy. rewrite bool_decide_eq_false_2 in Hy by done.
      etransitivity; [|exact Hss]. apply Hle, list_elem_of_omap. eauto.
Qed.

(** With a manifest written by a full scan, after any bytes have been appended to the file
    that held the maximum, the cached path answers exactly what a full scan would. *)
Theorem wal_max_seq_cached_exact window d m name ext wr :
  NoDup (wf_name <$> d) → scan window (Some d) = Ok m → max_seq_file m = Some name →
  (wal_max_seq hash_names window (Some (append_to name ext d)) wr (Some m)).1 =
  rmap max_seq (scan window (Some (append_to name ext d))).
Proof.
  intros Hnd Hs Hname. destruct (scan_bounds_spec _ _ _ _ Hs) as (Hr & (Hmax & _ & Hatt & _) & Hfp).
  set (d' := append_to name ext d).
  destruct (wal_max_seq_fast_path hash_names window (Some d') (Some m)) as [[fast mm]|] eqn:Hfast;
    [|by apply wal_max_fallback].
  rewrite Hname in Hatt. destruct (max_seq m) as [s|] eqn:Hms; [|done].
  destruct Hatt as (f & Hf & <- & Hfs & Hsz).
  destruct (proj1 (Forall_forall _ _) Hr f Hf) as [bs Hb].
  assert (jsonl_files d' = append_to (wf_name f) ext (jsonl_files d)) as Hj by apply append_jsonl.
  destruct (scan_bounds_total hash_names window d') as [m' Hm'];
    [rewrite Hj; by apply append_readable|].
  destruct (scan_bounds_spec _ _ _ _ Hm') as (_ & (Hmax' & _) & _).
  assert (lookup_file (Some d') (wf_name f) = Some (append_file (wf_name f) ext f)) as Hlk.
  { subst d'. rewrite lookup_file_append.
    by rewrite (lookup_file_in d f) by (try done; by apply elem_of_jsonl). }
  assert (append_file (wf_name f) ext f = WFile (wf_name f) (Some (bs ++ ext))) as Haf.
  { unfold append_file. by rewrite bool_decide_eq_true_2, Hb. }
  assert (fast = max_seq m' ) as ->.
  2: { unfold wal_max_seq. rewrite Hfast, Hm'. by destruct mm. }
  revert Hfast. unfold wal_max_seq_fast_path. cbn [mbind option_bind current_jsonl_file_set_fingerprint].
  rewrite Hj, append_fingerprint, <- Hfp, N.eqb_refl, Hname, Hms. cbn [negb].
  destruct (is_safe_wal_file_name (wf_name f)); [|done]. cbn [negb].
  unfold file_size. rewrite Hlk, Haf. cbn [mbind option_bind wf_bytes].
  unfold meta_len in Hsz. rewrite Hb in Hsz. rewrite Hsz.
  destruct (N.eqb_spec (file_len (bs ++ ext)) (file_len bs)) as [Hl|Hl].
  - intros [= <- <-]. assert (ext = []) as ->.
    { unfold file_len in Hl. rewrite length_app in Hl. apply nil_length_inv. lia. }
    subst d'. rewrite append_nil in Hm'. rewrite Hs in Hm'. injection Hm' as <-. done.
  - rewrite read_last_seq_full. cbn [wf_bytes].
    destruct (last_seq (WFile (wf_name f) (Some (bs ++ ext)))) as [s'|] eqn:Hs'; [|done].
    destruct (N.leb_spec s s') as [Hle|]; [|done]. intros [= <- <-]. symmetry.
    eapply append_max; [by apply NoDup_jsonl_names|exact Hf|exact Hmax| |exact Hle|exact Hmax'].
    by rewrite Haf.
Qed.

(** The one case the cache cannot see: when the recorded scan found no sequence number, the
    cached path keeps answering "empty" for as long as the set of file names is unchanged, even
    after lines have been written to one of the files. *)
Theorem wal_max_seq_stale_empty window d d' m wr :
  scan window (Some d) = Ok m → max_seq m = None →
  wf_name <$> jsonl_files d' = wf_name <$> jsonl_files d →
  (wal_max_seq hash_names window (Some d') wr (Some m)).1 = Ok None.
Proof.
  intros Hs Hm Hn. destruct (scan_bounds_spec _ _ _ _ Hs) as (_ & (_ & _ & Hatt & _) & Hfp).
  rewrite Hm in Hatt. destruct (max_seq_file m) as [n|] eqn:Hf; [done|].
  unfold wal_max_seq, wal_max_seq_fast_path. cbn [mbind option_bind current_jsonl_file_set_fingerprint].
  unfold jsonl_file_set_fingerprint. rewrite Hn. fold (jsonl_file_set_fingerprint hash_names (jsonl_files d)).
  by rewrite <- Hfp, N.eqb_refl, Hf, Hm.
Qed.
End props.

(** ** Witnesses *)

(** A concrete reader: a line is its sequence number in decimal. *)
Definition DigitReader : SeqReader :=
  {| value_seq := parse_uint 10 u64_max; line_seq := parse_uint 10 u64_max |}.
(** A concrete hash of the sorted names. *)
Definition toy_hash (l : list str) : N := foldl (λ h s, foldl (λ h c, (h * 31 + c) mod 2 ^ 64) (h + 7) s)%N 1%N l.
Definition toy_a : wfile := WFile #"a.jsonl" (Some (#"5" ++ [10%N] ++ #"9" ++ [10%N])).
Definition toy_b : wfile := WFile #"b.jsonl" (Some (#"1" ++ [10%N] ++ #"3" ++ [10%N])).
Definition toy_empty : wfile := WFile #"c.jsonl" (Some []).
Definition toy_dir : list wfile := [toy_a; WFile #"notes.txt" None; toy_b].
Definition toy_manifest (d : list wfile) : option WalBoundsManifest :=
  rok (@scan_wal_bounds_detailed DigitReader toy_hash 2 (Some d)).

Example toy_scan : @scan_max_seq DigitReader 2 (Some toy_dir) = Ok 10%N.
Proof. vm_compute. reflexivity. Qed.

Lemma read_last_seq_window_exact_witness : @read_last_seq DigitReader 2 toy_a = Ok (Some 9%N).
Proof.
  etransitivity; [|exact (eq_refl : @Ok Error (option N) (Some 9%N) = Ok (Some 9%N))].
  refine (eq_trans (@read_last_seq_window_exact DigitReader 2 toy_a _ eq_refl) _). vm_compute. reflexivity.
Defined.

Lemma scan_max_seq_order_free_witness :
  @scan_max_seq DigitReader 2 (Some [toy_b; toy_a]) = Ok 10%N ∧
  ((∀ f s, f ∈ jsonl_files [toy_a; toy_b] → @last_seq DigitReader f = Some s → s < u64_max)%N →
   (∀ f s, f ∈ jsonl_files [toy_a; toy_b] → @last_seq DigitReader f = Some s → s < 10)%N).
Proof.
  apply (@scan_max_seq_order_free DigitReader 2 [toy_a; toy_b] [toy_b; toy_a] 10).
  - apply Permutation_swap.
  - vm_compute. reflexivity.
Defined.

Lemma wal_max_seq_cached_exact_witness :
  ∃ m, toy_manifest toy_dir = Some m ∧
    (@wal_max_seq DigitReader toy_hash 2 (Some (append_to #"a.jsonl" (#"12" ++ [10%N]) toy_dir)) true (Some m)).1
    = rmap max_seq (@scan_wal_bounds_detailed DigitReader toy_hash 2
        (Some (append_to #"a.jsonl" (#"12" ++ [10%N]) toy_dir))).
Proof.
  eexists. split; [vm_compute; reflexivity|].
  apply (@wal_max_seq_cached_exact DigitReader toy_hash 2 toy_dir _ #"a.jsonl" (#"12" ++ [10%N]) true).
  - apply (bool_decide_unpack _). vm_compute. exact I.
  - vm_compute. reflexivity.
  - vm_compute. reflexivity.
Defined.

Lemma wal_max_seq_stale_empty_witness :
  ∃ m, toy_manifest [toy_empty] = Some m ∧
    (@wal_max_seq DigitReader toy_hash 2 (Some [WFile #"c.jsonl" (Some (#"4" ++ [10%N]))]) true (Some m)).1 = Ok None.
Proof.
  eexists. split; [vm_compute; reflexivity|].
  apply (@wal_max_seq_stale_empty DigitReader toy_hash 2 [toy_empty] _ _ true).
  - vm_compute. reflexivity.
  - reflexivity.
  - reflexivity.
Defined.
