(* ===== verification/Wal.v ===== *)
(** * Wal: the write-ahead log writer (core/src/wal.rs, the writing half)

    The writer is a record threaded through its operations together with the directory it writes
    to.  Each flush takes the outcome of its system calls: a write can fail after any number of
    bytes.  Printing a line is a parameter. *)

From S2P Require Import Prelude Text Numbers Json WalGeneration WalScan.

(** Source: core/src/wal.rs 15-20 (WalRotationInfo) *)
Record WalRotationInfo := {
  from_file_seq : N;
  to_file_seq : N;
  closed_bytes : N;
  closed_events : N;
}.

(** Source: core/src/wal.rs 33-38 (VECTOR_PARAM_KEYS) *)
Definition VECTOR_PARAM_KEYS : list str :=
  [ #"name_embedding"; #"fact_embedding"; #"content_embedding"; #"summary_embedding" ].
(** Source: core/src/wal.rs 44-44 (DERIVED_PARAM_KEYS) *)
Definition DERIVED_PARAM_KEYS : list str := [ #"lookup_key" ].

(** Source: core/src/wal.rs 50-56 (WalLine) *)
Record WalLine := {
  wl_seq : N;
  wl_ts : str;
  wl_db : str;
  wl_cypher : str;
  wl_params : value;
}.

(** Source: core/src/wal.rs 59-77 (WalWriter) *)
Record WalWriter := {
  global_seq : N;
  file_seq : N;
  events_in_current_file : N;
  max_events_per_file : N;
  max_bytes_per_file : N;
  bytes_in_current_file : N;
  session_id : str;
  pending_lines : list WalLine;
  current_file : option str;
  last_rotation : option WalRotationInfo;
  generation : option str;
}.

(** Source: core/src/wal.rs 895-905 (strip_vector_params) *)
Definition strip_vector_params (params : value) : value :=
  match params with
  | VObject map => VObject (foldl (λ m key, obj_remove key m) map VECTOR_PARAM_KEYS)
  | other => other
  end.
(** Source: core/src/wal.rs 909-919 (strip_derived_params) *)
Definition strip_derived_params (params : value) : value :=
  match params with
  | VObject map => VObject (foldl (λ m key, obj_remove key m) map DERIVED_PARAM_KEYS)
  | other => other
  end.

(** Where the scanner stands: outside a literal, inside one, or after a backslash inside one. *)
Inductive quote_mode := QOut | QIn | QEsc.
Fixpoint strip_quoted_go (mode : quote_mode) (s : str) : str :=
  match mode, s with
  | QOut, [] => []
  | QOut, c :: s => if (c =? 39)%N then strip_quoted_go QIn s else c :: strip_quoted_go QOut s
  | _, [] => [32%N]
  | QIn, c :: s =>
      if (c =? 92)%N then strip_quoted_go QEsc s
      else if (c =? 39)%N then 32%N :: strip_quoted_go QOut s
      else strip_quoted_go QIn s
  | QEsc, _ :: s => strip_quoted_go QIn s
  end.
(** Source: core/src/wal.rs 930-952 (strip_quoted_literals) *)
Definition strip_quoted_literals (s : str) : str := strip_quoted_go QOut s.

Section classify.
Context {U : Unicode}.

(** Source: core/src/wal.rs 964-970 (is_index_ddl) *)
Definition is_index_ddl (cypher : str) : bool :=
  let upper := to_uppercase cypher in
  contains #"CREATE_VECTOR_INDEX" upper || contains #"CREATE INDEX" upper
  || contains #"CREATE ART INDEX" upper || contains #"DROP INDEX" upper.

Definition space_parens (s : str) : str :=
  flat_map (λ c, if (c =? 40)%N || (c =? 41)%N then [32%N; c; 32%N] else [c]) s.
Definition mutation_keywords : list str :=
  [ #"CREATE"; #"MERGE"; #"SET"; #"DELETE"; #"DETACH"; #"DROP"; #"REMOVE" ].
(** Source: core/src/wal.rs 989-1008 (looks_like_mutation) *)
Definition looks_like_mutation (cypher : str) : bool :=
  let upper := to_uppercase cypher in
  let stripped := strip_quoted_literals upper in
  existsb (λ t, bool_decide (t ∈ mutation_keywords)) (split_whitespace (space_parens stripped)).
End classify.

(** [u32] decrement in a release build. *)
Definition pred32 (n : N) : N := ((n + (2 ^ 32 - 1)) mod 2 ^ 32)%N.

Definition set_pending (ls : list WalLine) (w : WalWriter) : WalWriter :=
  {| global_seq := global_seq w; file_seq := file_seq w; events_in_current_file := events_in_current_file w;
     max_events_per_file := max_events_per_file w; max_bytes_per_file := max_bytes_per_file w;
     bytes_in_current_file := bytes_in_current_file w; session_id := session_id w; pending_lines := ls;
     current_file := current_file w; last_rotation := last_rotation w; generation := generation w |}.
Definition set_global_seq (n : N) (w : WalWriter) : WalWriter :=
  {| global_seq := n; file_seq := file_seq w; events_in_current_file := events_in_current_file w;
     max_events_per_file := max_events_per_file w; max_bytes_per_file := max_bytes_per_file w;
     bytes_in_current_file := bytes_in_current_file w; session_id := session_id w;
     pending_lines := pending_lines w; current_file := current_file w;
     last_rotation := last_rotation w; generation := generation w |}.
(** The file position: current file, its bytes and events, the next file's number, and the
    rotation to report. *)
Definition set_file (cur : option str) (bytes events : N) (next : N) (rot : option WalRotationInfo)
    (w : WalWriter) : WalWriter :=
  {| global_seq := global_seq w; file_seq := next; events_in_current_file := events;
     max_events_per_file := max_events_per_file w; max_bytes_per_file := max_bytes_per_file w;
     bytes_in_current_file := bytes; session_id := session_id w; pending_lines := pending_lines w;
     current_file := cur; last_rotation := rot; generation := generation w |}.

(** What the file being closed amounts to. *)
Definition rotation_info (w : WalWriter) : WalRotationInfo :=
  {| from_file_seq := pred32 (file_seq w); to_file_seq := file_seq w;
     closed_bytes := bytes_in_current_file w; closed_events := events_in_current_file w |}.

Definition pad4 (n : N) : str := let d := dec_str n in replicate (4 - length d) 48%N ++ d.
(** [stamp] is the formatted time.
    Source: core/src/wal.rs 252-262 (make_new_file_path) *)
Definition make_new_file_path (stamp : str) (w : WalWriter) : str :=
  stamp ++ #"_" ++ session_id w ++ #"_" ++ pad4 (file_seq w) ++ #".jsonl".

(** Opening a file for append, creating it when absent, and writing. *)
Fixpoint disk_write (path : str) (bs : bytes) (d : list wfile) : list wfile :=
  match d with
  | [] => [WFile path (Some bs)]
  | f :: d =>
      if bool_decide (wf_name f = path) then WFile path (Some (default [] (wf_bytes f) ++ bs)) :: d
      else f :: disk_write path bs d
  end.

(** The outcome of a flush's system calls: the directory or the file cannot be made, or writing
    fails after some bytes; and the time the new file would be named after. *)
Inductive flush_fault := FlushOk | FlushMkdir | FlushOpen | FlushWrite (written : nat).
Record flush_env := { fe_fault : flush_fault; fe_stamp : str }.

(** The JSON of a line, which serde derives. *)
Class LinePrinter := { line_print : WalLine → str }.

Section writer.
Context {U : Unicode} {LP : LinePrinter}.

(** A line as written: its JSON and a newline. *)
Definition printed (l : WalLine) : bytes := utf8 (line_print l) ++ [10%N].
Definition chunk_bytes (ls : list WalLine) : bytes := flat_map printed ls.
(** The sum the source computes from the lengths of the JSON texts. *)
Definition chunk_size (ls : list WalLine) : N := foldr (λ l n, byte_len (line_print l) + 1 + n)%N 0%N ls.

(** Source: core/src/wal.rs 141-167 (log_mutation) *)
Definition log_mutation (ts cypher : str) (params : value) (database : str) (w : WalWriter) :
    result Error unit * WalWriter :=
  if is_index_ddl cypher then (Ok tt, w)
  else if negb (looks_like_mutation cypher) then (Ok tt, w)
  else
    let line := {| wl_seq := global_seq w; wl_ts := ts; wl_db := database; wl_cypher := cypher;
                   wl_params := strip_derived_params (strip_vector_params params) |} in
    (Ok tt, set_pending (pending_lines w ++ [line]) (set_global_seq (add64 (global_seq w) 1) w)).

(** Source: core/src/wal.rs 214-219 (flush_pending) *)
Definition needs_new_file (w : WalWriter) : bool :=
  let chunk_len := N.of_nat (length (pending_lines w)) in
  let size := chunk_size (pending_lines w) in
  bool_decide (current_file w = None)
  || ((0 <? events_in_current_file w) && (max_events_per_file w <? events_in_current_file w + chunk_len))%N
  || ((0 <? max_bytes_per_file w) && (0 <? bytes_in_current_file w)
      && (max_bytes_per_file w <? bytes_in_current_file w + size))%N.
(** The file the pending lines go to, after a rotation if one is due.
    Source: core/src/wal.rs 221-236 (flush_pending) *)
Definition choose_file (stamp : str) (w : WalWriter) : str * WalWriter :=
  match current_file w, needs_new_file w with
  | Some path, false => (path, w)
  | cur, _ =>
      let path := make_new_file_path stamp w in
      let rot := match cur with Some _ => Some (rotation_info w) | None => last_rotation w end in
      (path, set_file (Some path) 0 0 (add32 (file_seq w) 1) rot w)
  end.

(** Source: core/src/wal.rs 189-250 (flush_pending) *)
Definition flush_pending (env : flush_env) (w : WalWriter) (d : list wfile) :
    result Error unit * WalWriter * list wfile :=
  match pending_lines w with
  | [] => (Ok tt, w, d)
  | ls =>
      match fe_fault env with
      | FlushMkdir => (Err io_err, w, d)
      | fault =>
          let '(path, w1) := choose_file (fe_stamp env) w in
          match fault with
          | FlushOpen => (Err io_err, w1, d)
          | FlushWrite n => (Err io_err, w1, disk_write path (take n (chunk_bytes ls)) d)
          | _ =>
              (Ok tt,
               set_pending []
                 (set_file (current_file w1) (bytes_in_current_file w1 + chunk_size ls)
                    (events_in_current_file w1 + N.of_nat (length ls)) (file_seq w1) (last_rotation w1) w1),
               disk_write path (chunk_bytes ls) d)
          end
      end
  end.

(** Source: core/src/wal.rs 171-187 (with_chunk) *)
Definition with_chunk {T} (env : flush_env) (f : WalWriter → result Error T * WalWriter)
    (w : WalWriter) (d : list wfile) : result Error T * WalWriter * list wfile :=
  let '(r, w) := f (set_pending [] w) in
  match r with
  | Ok val =>
      match flush_pending env w d with
      | (Ok _, w, d) => (Ok val, w, d)
      | (Err e, w, d) => (Err e, w, d)
      end
  | Err e => (Err e, set_pending [] w, d)
  end.

(** Source: core/src/wal.rs 267-283 (rotate) *)
Definition rotate (w : WalWriter) (d : wal_dir) : (N * N) * WalWriter :=
  match current_file w with
  | Some _ => ((1%N, count_jsonl_files d), set_file None 0 0 (file_seq w) (Some (rotation_info w)) w)
  | None => ((0%N, count_jsonl_files d), w)
  end.

(** Source: core/src/wal.rs 287-289 (take_rotation) *)
Definition take_rotation (w : WalWriter) : option WalRotationInfo * WalWriter :=
  (last_rotation w,
   set_file (current_file w) (bytes_in_current_file w) (events_in_current_file w) (file_seq w) None w).

(** Source: core/src/wal.rs 302-308 (resync_current_file_bytes) *)
Definition resync_current_file_bytes (w : WalWriter) (d : wal_dir) : WalWriter :=
  match current_file w ≫= file_size d with
  | Some len => set_file (current_file w) len (events_in_current_file w) (file_seq w) (last_rotation w) w
  | None => w
  end.

Context {SR : SeqReader} {GC : GenerationCodec}.

(** Source: core/src/wal.rs 323-333 (resync_global_seq) *)
Definition resync_global_seq (window : N) (last_committed_seq : option N) (w : WalWriter) (d : wal_dir) :
    result Error unit * WalWriter :=
  let from_commit := match last_committed_seq with Some s => sat_add64 s 1 | None => 0%N end in
  let w := set_global_seq (N.max (global_seq w) from_commit) w in
  match scan_max_seq window d with
  | Ok scanned => (Ok tt, set_global_seq (N.max (global_seq w) scanned) w)
  | Err e => (Err e, w)
  end.

(** [uuid] is the session's UUID in simple form; [target] the directory's generation sidecar.
    Source: core/src/wal.rs 92-128 (new) *)
Definition new_writer (window : N) (uuid : str) (a1 a2 : attempt) (max_events max_bytes : N)
    (mkdir_ok : bool) (d : wal_dir) (target : option str) : result Error WalWriter * option str :=
  if negb mkdir_ok then (Err io_err, target)
  else
    match scan_max_seq window d with
    | Err e => (Err e, target)
    | Ok seq =>
        let '(g, target) :=
          match read_generation target with
          | Some g => (Ok (Some g), target)
          | None =>
              if (seq =? 0)%N then
                let '(r, t) := ensure_generation a1 a2 target in (rmap Some r, t)
              else (Ok None, target)
          end in
        (let? g := g in
         Ok {| global_seq := seq; file_seq := 0; events_in_current_file := 0;
               max_events_per_file := max_events; max_bytes_per_file := max_bytes;
               bytes_in_current_file := 0; session_id := take 6 uuid; pending_lines := [];
               current_file := None; last_rotation := None; generation := g |}, target)
    end.

(** A chunk's mutations, logged in order; the timestamps are the clock's. *)
Fixpoint log_all (muts : list (str * str * value)) (database : str) (w : WalWriter) :
    result Error unit * WalWriter :=
  match muts with
  | [] => (Ok tt, w)
  | (ts, cypher, params) :: muts =>
      match log_mutation ts cypher params database w with
      | (Ok _, w) => log_all muts database w
      | (Err e, w) => (Err e, w)
      end
  end.
End writer.

(** ** Lines as written read back *)

Class LineLaws `{LP : LinePrinter} `{SR : SeqReader} := {
  line_print_wf l : wf_str (line_print l);
  line_print_shape l : ∃ mid, line_print l = #"{" ++ mid ++ #"}" ∧ 10%N ∉ mid;
  line_print_seq l : value_seq (line_print l) = Some (wl_seq l);
}.

Section lines.
Context {U : Unicode} {LP : LinePrinter} {SR : SeqReader} {LL : LineLaws}.

Lemma line_no_nl l : 10%N ∉ line_print l.
Proof.
  destruct (line_print_shape l) as (mid & -> & Hm). intros [H|[H|H]%elem_of_app]%elem_of_app; [|done|];
    by apply list_elem_of_singleton in H.
Qed.
Lemma line_strip_cr l : strip_cr (line_print l) = line_print l.
Proof.
  destruct (line_print_shape l) as (mid & -> & _). unfold strip_cr, strip_suffix.
  by rewrite app_assoc, reverse_app.
Qed.
Lemma line_trim l : trim (line_print l) = line_print l.
Proof.
  destruct (line_print_shape l) as (mid & -> & _). unfold trim, trim_matches, trim_end_matches.
  cbn [lit app]. change (#"{" ++ mid ++ #"}") with (123%N :: (mid ++ [125%N])).
  cbn [drop_while]. change (is_whitespace 123) with false. cbn [drop_while].
  rewrite app_comm_cons, reverse_app. change (reverse [125%N]) with [125%N]. cbn [app drop_while].
  change (is_whitespace 125) with false. cbv iota.
  change (125%N :: reverse (123%N :: mid)) with ([125%N] ++ reverse (123%N :: mid)).
  by rewrite reverse_app, reverse_involutive.
Qed.
Lemma line_tail_seq l : tail_line_seq (line_print l) = Some (wl_seq l).
Proof.
  unfold tail_line_seq. rewrite line_trim. destruct (line_print l) eqn:He.
  - destruct (line_print_shape l) as (mid & Hs & _). by rewrite He in Hs.
  - rewrite <- He. apply line_print_seq.
Qed.

Lemma chunk_bytes_app ls ks : chunk_bytes (ls ++ ks) = chunk_bytes ls ++ chunk_bytes ks.
Proof. apply flat_map_app. Qed.
Lemma chunk_size_bytes ls : chunk_size ls = file_len (chunk_bytes ls).
Proof.
  unfold file_len, chunk_bytes. induction ls as [|l ls IH]; [done|]. simpl. rewrite IH.
  unfold printed, byte_len. rewrite !length_app. simpl. lia.
Qed.

Lemma chunk_lines ls : lines (from_utf8_lossy (chunk_bytes ls)) = line_print <$> ls.
Proof.
  induction ls as [|l ls IH]; [done|]. unfold chunk_bytes. cbn [flat_map]. unfold printed at 1.
  rewrite <- app_assoc. cbn [app]. rewrite lossy_newline, lines_app. fold (chunk_bytes ls). rewrite IH.
  rewrite from_utf8_lossy_utf8 by apply line_print_wf.
  rewrite split_on_none by (apply no_nl_forallb, line_no_nl).
  rewrite fmap_cons. cbn [fmap list_fmap app]. by rewrite line_strip_cr.
Qed.
Lemma chunk_seqs ls : omap tail_line_seq (lines (from_utf8_lossy (chunk_bytes ls))) = wl_seq <$> ls.
Proof.
  rewrite chunk_lines. induction ls as [|l ls IH]; [done|]. rewrite !fmap_cons. cbn [omap list_omap].
  by rewrite line_tail_seq, IH.
Qed.
Lemma chunk_seqs_inj ls ks : chunk_bytes ls = chunk_bytes ks → wl_seq <$> ls = wl_seq <$> ks.
Proof. intros H. by rewrite <- !chunk_seqs, H. Qed.
Lemma chunk_last_seq name ls : last_seq (WFile name (Some (chunk_bytes ls))) = last (wl_seq <$> ls).
Proof.
  unfold last_seq. cbn [wf_bytes mbind option_bind]. unfold read_last_seq_in_range.
  by rewrite N.ltb_irrefl, drop_0, find_last_omap, chunk_seqs.
Qed.
End lines.

(** Whole lines, then a torn one that runs into the next chunk. *)
Section torn.
Context {U : Unicode} {LP : LinePrinter} {SR : SeqReader} {LL : LineLaws}.
Lemma chunk_then_lines ks bs :
  lines (from_utf8_lossy (chunk_bytes ks ++ bs)) = (line_print <$> ks) ++ lines (from_utf8_lossy bs).
Proof.
  induction ks as [|k ks IH]; [done|]. unfold chunk_bytes. cbn [flat_map]. unfold printed at 1.
  rewrite <- !app_assoc. cbn [app]. rewrite lossy_newline, lines_app. fold (chunk_bytes ks). rewrite IH.
  rewrite from_utf8_lossy_utf8 by apply line_print_wf.
  rewrite split_on_none by (apply no_nl_forallb, line_no_nl).
  rewrite !fmap_cons. cbn [fmap list_fmap app]. by rewrite line_strip_cr.
Qed.
Lemma torn_recovered ks t l ls :
  10%N ∉ t → tail_line_seq (from_utf8_lossy (t ++ utf8 (line_print l))) = None →
  omap tail_line_seq (lines (from_utf8_lossy (chunk_bytes ks ++ t ++ chunk_bytes (l :: ls)))) = wl_seq <$> ks ++ ls.
Proof.
  intros Ht Hn. rewrite chunk_then_lines, omap_app, fmap_app. f_equal.
  - rewrite <- chunk_lines. apply chunk_seqs.
  - unfold chunk_bytes. cbn [flat_map]. unfold printed at 1. rewrite <- !app_assoc, app_assoc. cbn [app].
    rewrite lossy_newline, lines_app, omap_app. fold (chunk_bytes ls).
    rewrite split_on_none.
    2: { apply no_nl_forallb, from_utf8_lossy_no_nl. rewrite elem_of_app. intros [H|H]; [done|].
      by destruct (utf8_no_nl (line_print l) (line_no_nl l) H). }
    rewrite chunk_seqs. cbn [fmap list_fmap]. cbn [omap list_omap].
    unfold tail_line_seq in Hn |- *. by rewrite trim_strip_cr, Hn.
Qed.
End torn.

(** ** What a chunk writes *)

Section chunks.
Context {U : Unicode} {LP : LinePrinter}.

(** The mutations [log_mutation] keeps. *)
Definition loggable (m : str * str * value) : bool :=
  negb (is_index_ddl m.1.2) && looks_like_mutation m.1.2.
(** The lines of a chunk: consecutive sequence numbers from [g]. *)
Fixpoint numbered (g : N) (database : str) (muts : list (str * str * value)) : list WalLine :=
  match muts with
  | [] => []
  | (ts, cypher, params) :: muts =>
      {| wl_seq := g; wl_ts := ts; wl_db := database; wl_cypher := cypher;
         wl_params := strip_derived_params (strip_vector_params params) |} :: numbered (g + 1) database muts
  end.
Definition chunk_of (g : N) (database : str) (muts : list (str * str * value)) : list WalLine :=
  numbered g database (List.filter loggable muts).

Lemma numbered_length g db muts : length (numbered g db muts) = length muts.
Proof. revert g. induction muts as [|[[ts c] p] muts IH]; intros g; simpl; [done|]. by rewrite IH. Qed.
Lemma numbered_seqs g db muts : wl_seq <$> numbered g db muts = (λ i, g + N.of_nat i)%N <$> seq 0 (length muts).
Proof.
  revert g. induction muts as [|[[ts c] p] muts IH]; intros g; [done|].
  cbn [numbered length seq]. rewrite !fmap_cons, IH, <- fmap_S_seq, <- list_fmap_compose. cbn [wl_seq].
  f_equal; [lia|]. apply list_fmap_ext. intros i x _. simpl. lia.
Qed.
Lemma numbered_bounds g db muts s :
  s ∈ wl_seq <$> numbered g db muts → (g ≤ s < g + N.of_nat (length muts))%N.
Proof. rewrite numbered_seqs. intros (i & -> & Hi%elem_of_seq)%list_elem_of_fmap. lia. Qed.
Lemma numbered_sorted g db muts : StronglySorted N.lt (wl_seq <$> numbered g db muts).
Proof.
  revert g. induction muts as [|[[ts c] p] muts IH]; intros g; cbn [numbered]; [constructor|].
  rewrite fmap_cons. constructor; [apply IH|]. apply Forall_forall. intros s Hs%numbered_bounds. simpl. lia.
Qed.

Lemma set_pending_twice ls ks w : set_pending ls (set_pending ks w) = set_pending ls w.
Proof. by destruct w. Qed.

Lemma log_all_spec muts db w :
  (global_seq w + N.of_nat (length muts) < 2 ^ 64)%N →
  let ls := chunk_of (global_seq w) db muts in
  log_all muts db w =
  (Ok tt, set_pending (pending_lines w ++ ls) (set_global_seq (global_seq w + N.of_nat (length ls)) w)).
Proof.
  intros Hb. cbv zeta. unfold chunk_of. revert w Hb.
  induction muts as [|[[ts c] p] muts IH]; intros w Hb.
  - simpl. rewrite app_nil_r, N.add_0_r. by destruct w.
  - cbn [log_all List.filter]. unfold log_mutation.
    change (loggable (ts, c, p)) with (negb (is_index_ddl c) && looks_like_mutation c).
    destruct (is_index_ddl c); cbn [negb andb]; [apply IH; simpl in Hb; lia|].
    destruct (looks_like_mutation c); cbn [negb]; [|apply IH; simpl in Hb; lia].
    cbn [length] in Hb. rewrite add64_small by lia. rewrite IH by (cbn [global_seq set_pending set_global_seq]; lia).
    cbn [global_seq set_pending set_global_seq pending_lines numbered length]. rewrite <- app_assoc.
    f_equal. unfold set_pending, set_global_seq. cbn. f_equal. lia.
Qed.

Lemma chunk_of_length g db muts : (length (chunk_of g db muts) ≤ length muts)%nat.
Proof. unfold chunk_of. rewrite numbered_length. apply filter_length_le. Qed.

Lemma choose_file_keeps stamp w path w1 :
  choose_file stamp w = (path, w1) →
  current_file w1 = Some path ∧ global_seq w1 = global_seq w ∧ pending_lines w1 = pending_lines w.
Proof.
  unfold choose_file. destruct (current_file w) as [p|] eqn:Hc, (needs_new_file w); intros [= <- <-]; done.
Qed.

(** The current file while it may grow, a new one otherwise. *)
Lemma choose_cases stamp w path w1 :
  choose_file stamp w = (path, w1) →
  (current_file w = Some path ∧ w1 = w ∧ needs_new_file w = false) ∨
  (path = make_new_file_path stamp w ∧ bytes_in_current_file w1 = 0%N ∧ events_in_current_file w1 = 0%N).
Proof.
  unfold choose_file. destruct (current_file w) as [p|] eqn:Hc; [destruct (needs_new_file w) eqn:Hn|];
    intros [= <- <-]; auto.
Qed.

(** The three ways a flush ends. *)
Lemma flush_cases env w d r w' d' :
  flush_pending env w d = (r, w', d') → global_seq w' = global_seq w ∧
  ((pending_lines w = [] ∧ r = Ok tt ∧ w' = w ∧ d' = d) ∨
   (∃ path, r = Ok tt ∧ current_file w' = Some path ∧ pending_lines w' = [] ∧
      path = (choose_file (fe_stamp env) w).1 ∧ d' = disk_write path (chunk_bytes (pending_lines w)) d) ∨
   (r = Err io_err ∧ (d' = d ∧ (∀ n, fe_fault env ≠ FlushWrite n) ∨ ∃ n path, fe_fault env = FlushWrite n ∧ current_file w' = Some path ∧
      path = (choose_file (fe_stamp env) w).1 ∧ d' = disk_write path (take n (chunk_bytes (pending_lines w))) d))).
Proof.
  unfold flush_pending. destruct (pending_lines w) as [|l ls] eqn:Hp.
  - intros [= <- <- <-]. split; [done|]. by left.
  - destruct (choose_file (fe_stamp env) w) as [path w1] eqn:Hc.
    destruct (choose_file_keeps _ _ _ _ Hc) as (H1 & H2 & H3).
    destruct (fe_fault env) as [| | |n] eqn:Hf; intros [= <- <- <-].
    + split; [done|]. right. left. exists path. done.
    + split; [done|]. right. right. split; [done|]. by left.
    + split; [done|]. right. right. split; [done|]. by left.
    + split; [done|]. right. right. split; [done|]. right. by exists n, path.
Qed.

Lemma flush_ok env w d l ls :
  fe_fault env = FlushOk → pending_lines w = l :: ls →
  ∃ path w', flush_pending env w d = (Ok tt, w', disk_write path (chunk_bytes (l :: ls)) d) ∧
    current_file w' = Some path ∧ pending_lines w' = [] ∧ global_seq w' = global_seq w.
Proof.
  intros Hf Hp. unfold flush_pending. rewrite Hp, Hf.
  destruct (choose_file (fe_stamp env) w) as [path w1] eqn:Hc.
  destruct (choose_file_keeps _ _ _ _ Hc) as (H1 & H2 & _). eauto 10.
Qed.
End chunks.

(** ** A writer's life *)

Lemma jsonl_suffix x : x ≠ [] → is_jsonl (x ++ #".jsonl") = true.
Proof.
  intros Hx. unfold is_jsonl, extension. rewrite (bool_decide_eq_false_2 (x ++ _ = #"..")).
  2: { intros H. apply (f_equal reverse) in H. rewrite reverse_app in H. discriminate H. }
  change #".jsonl" with (46%N :: #"jsonl"). rewrite split_on_app by done.
  change (split_on is_dot #"jsonl") with [ #"jsonl" ]. rewrite reverse_app.
  change (reverse [ #"jsonl" ]) with [ #"jsonl" ]. cbn [app].
  destruct (reverse (split_on is_dot x)) as [|y ys] eqn:Hr.
  - apply (f_equal reverse) in Hr. rewrite reverse_involutive in Hr. by destruct (split_go_nonnil is_dot [] x).
  - rewrite (bool_decide_eq_false_2 (y :: ys = [[]])); [by apply bool_decide_eq_true_2|]. intros [= -> ->].
    apply (f_equal reverse) in Hr. rewrite reverse_involutive in Hr. change (reverse [[]]) with [[]: str] in Hr.
    destruct x as [|c x]; [done|]. unfold split_on in Hr. cbn [split_go] in Hr.
    destruct (is_dot c).
    + injection Hr as Hr. by destruct (split_go_nonnil is_dot [] x).
    + assert (∀ s cur, cur ≠ [] → split_go is_dot cur s ≠ [[]]) as Hgo.
      { clear. induction s as [|c s IH]; intros cur Hc; cbn [split_go].
        - intros [= H]. apply Hc. apply (f_equal reverse) in H. by rewrite reverse_involutive in H.
        - destruct (is_dot c); [|by apply IH]. intros [= H H']. by destruct (split_go_nonnil is_dot [] s). }
      by apply (Hgo x [c]) in Hr.
Qed.

Section life.
Context {U : Unicode} {LP : LinePrinter} {SR : SeqReader} {GC : GenerationCodec} {LL : LineLaws}.

(** Every WAL file holds whole lines, in increasing order, below [g]. *)
Definition disk_ok (g : N) (d : list wfile) : Prop :=
  ∀ f, f ∈ jsonl_files d → ∃ ls, wf_bytes f = Some (chunk_bytes ls) ∧
    StronglySorted N.lt (wl_seq <$> ls) ∧ ∀ s, s ∈ wl_seq <$> ls → (s < g)%N.
(** [s] is the number of a line on disk. *)
Definition on_disk (d : list wfile) (s : N) : Prop :=
  ∃ f ls, f ∈ jsonl_files d ∧ wf_bytes f = Some (chunk_bytes ls) ∧ s ∈ wl_seq <$> ls.

Lemma jsonl_cons f d : jsonl_files (f :: d) = if is_jsonl (wf_name f) then f :: jsonl_files d else jsonl_files d.
Proof. done. Qed.

Lemma disk_write_files path bs d f :
  is_jsonl path = true → f ∈ jsonl_files (disk_write path bs d) →
  f ∈ jsonl_files d ∨ f = WFile path (Some bs) ∨
  ∃ f0, f0 ∈ jsonl_files d ∧ wf_name f0 = path ∧ f = WFile path (Some (default [] (wf_bytes f0) ++ bs)).
Proof.
  intros Hp. induction d as [|g d IH]; cbn [disk_write].
  - unfold jsonl_files. simpl. rewrite Hp. intros [->|H%elem_of_nil]%elem_of_cons; [auto|done].
  - case_bool_decide as Hn.
    + rewrite !jsonl_cons, Hn. cbn [wf_name]. rewrite Hp. intros [->|H]%elem_of_cons.
      * right. right. exists g. split; [by left|done].
      * left. by right.
    + rewrite !jsonl_cons. destruct (is_jsonl (wf_name g)).
      * intros [->|H]%elem_of_cons; [left; by left|].
        destruct (IH H) as [?|[?|(f0 & ? & ? & ?)]]; [left; by right|auto|].
        right. right. exists f0. split; [by right|done].
      * intros H. destruct (IH H) as [?|[?|?]]; auto.
Qed.

Lemma disk_write_ok g g' path ls d :
  is_jsonl path = true → disk_ok g d → (g ≤ g')%N → StronglySorted N.lt (wl_seq <$> ls) →
  (∀ s, s ∈ wl_seq <$> ls → (g ≤ s < g')%N) → disk_ok g' (disk_write path (chunk_bytes ls) d).
Proof.
  intros Hp Hd Hg Hs Hb f Hf. destruct (disk_write_files _ _ _ _ Hp Hf) as [H|[->|(f0 & H & Hn & ->)]].
  - destruct (Hd f H) as (ks & Hk & Hsk & Hbk). exists ks. split; [done|]. split; [done|].
    intros s Hin. specialize (Hbk s Hin). lia.
  - exists ls. split; [done|]. split; [done|]. intros s Hin. apply (Hb s Hin).
  - destruct (Hd f0 H) as (ks & Hk & Hsk & Hbk). exists (ks ++ ls). cbn [wf_bytes]. rewrite Hk. cbn [default from_option id].
    rewrite chunk_bytes_app. split; [done|]. rewrite fmap_app. split.
    + apply StronglySorted_app_2; [|done|done]. intros x y Hx Hy. specialize (Hbk x Hx). specialize (Hb y Hy). lia.
    + intros s [Hin|Hin]%elem_of_app; [specialize (Hbk s Hin); lia|apply (Hb s Hin)].
Qed.
Lemma disk_ok_mono g g' d : disk_ok g d → (g ≤ g')%N → disk_ok g' d.
Proof.
  intros Hd Hg f Hf. destruct (Hd f Hf) as (ls & H1 & H2 & H3). exists ls. split; [done|]. split; [done|].
  intros s Hs. specialize (H3 s Hs). lia.
Qed.

Lemma disk_write_keeps path ls d s :
  is_jsonl path = true → on_disk d s → on_disk (disk_write path (chunk_bytes ls) d) s.
Proof.
  intros Hp (f & ks & Hf & Hk & Hs). induction d as [|g d IH]; [by apply elem_of_nil in Hf|].
  rewrite jsonl_cons in Hf. cbn [disk_write]. case_bool_decide as Hn.
  - destruct (decide (f = g)) as [->|Hne].
    + exists (WFile path (Some (chunk_bytes (ks ++ ls)))), (ks ++ ls). rewrite jsonl_cons. cbn [wf_name wf_bytes].
      rewrite Hp, Hk. cbn [default from_option id]. rewrite chunk_bytes_app. split; [by left|]. split; [done|].
      rewrite fmap_app. apply elem_of_app. by left.
    + exists f, ks. rewrite jsonl_cons. cbn [wf_name]. rewrite Hp. split; [right|done].
      destruct (is_jsonl (wf_name g)); [by apply elem_of_cons in Hf as [?|?]|done].
  - destruct (is_jsonl (wf_name g)) eqn:Hg.
    + apply elem_of_cons in Hf as [->|Hf]; [exists g, ks; rewrite jsonl_cons, Hg; split; [by left|done]|].
      destruct (IH Hf) as (f' & ks' & Hf' & Hk'). exists f', ks'. rewrite jsonl_cons, Hg. split; [by right|done].
    + destruct (IH Hf) as (f' & ks' & Hf' & Hk'). exists f', ks'. rewrite jsonl_cons, Hg. done.
Qed.
Lemma disk_write_new g path ls d s :
  is_jsonl path = true → disk_ok g d → s ∈ wl_seq <$> ls → on_disk (disk_write path (chunk_bytes ls) d) s.
Proof.
  intros Hp Hd Hs. induction d as [|f d IH]; cbn [disk_write].
  - exists (WFile path (Some (chunk_bytes ls))), ls. rewrite jsonl_cons. cbn [wf_name]. rewrite Hp. split; [by left|done].
  - case_bool_decide as Hn.
    + destruct (Hd f) as (ks & Hk & _); [rewrite jsonl_cons, Hn, Hp; by left|].
      exists (WFile path (Some (chunk_bytes (ks ++ ls)))), (ks ++ ls). rewrite jsonl_cons. cbn [wf_name wf_bytes].
      rewrite Hp, Hk. cbn [default from_option id]. rewrite chunk_bytes_app. split; [by left|]. split; [done|].
      rewrite fmap_app. apply elem_of_app. by right.
    + destruct IH as (f' & ks & Hf' & Hk).
      { intros x Hx. apply Hd. rewrite jsonl_cons. case_match; [by right|done]. }
      exists f', ks. split; [|done]. rewrite jsonl_cons. case_match; [by right|done].
Qed.

(** The start-up scan finds a number above everything on disk. *)
Lemma scan_above window d g n :
  disk_ok g d → (g ≤ u64_max)%N → scan_max_seq window (Some d) = Ok n →
  (n ≤ u64_max)%N ∧ disk_ok n d ∧ ∀ s, on_disk d s → (s < n)%N.
Proof.
  intros Hd Hg. unfold scan_max_seq. intros (m & Hm & [= <-])%rbind_ok.
  destruct (scan_max_spec _ _ _ Hm) as [_ Hmax].
  assert (∀ f ls, f ∈ jsonl_files d → wf_bytes f = Some (chunk_bytes ls) → last_seq f = last (wl_seq <$> ls)) as Hlast.
  { intros [n b] ls _ Hb. cbn [wf_bytes] in Hb. subst b. apply chunk_last_seq. }
  (* the files' own numbers, bounded by their last *)
  assert (∀ s, on_disk d s → (s < g)%N ∧ ∃ t, (s ≤ t)%N ∧ t ∈ omap last_seq (jsonl_files d)) as Htop.
  { intros s (f & ls & Hf & Hb & Hin). destruct (Hd f Hf) as (ks & Hk & Hs & Hlt).
    assert (wl_seq <$> ls = wl_seq <$> ks) as He by (apply chunk_seqs_inj; congruence).
    rewrite He in Hin. split; [by apply Hlt|].
    destruct (last (wl_seq <$> ks)) as [t|] eqn:Ht; [|apply last_None in Ht; rewrite Ht in Hin; by apply elem_of_nil in Hin].
    exists t. split; [|apply list_elem_of_omap; exists f; split; [done|]; by rewrite (Hlast f ks)].
    apply last_Some in Ht as [l' Hl]. rewrite Hl in Hs, Hin.
    apply elem_of_app in Hin as [Hin|Hin%list_elem_of_singleton]; [|lia].
    assert (s < t)%N; [|lia]. eapply StronglySorted_app_1_elem_of; [exact Hs|done|by left]. }
  assert (∀ t, t ∈ omap last_seq (jsonl_files d) → (t < g)%N) as Hbelow.
  { intros t (f & Hf & Hft)%list_elem_of_omap. destruct (Hd f Hf) as (ks & Hk & _ & Hlt).
    rewrite (Hlast f ks Hf Hk) in Hft. apply Hlt. apply last_Some in Hft as [l' ->]. apply elem_of_app. right. by left. }
  assert (match m with Some s => add64 s 1 | None => 0 end ≤ u64_max ∧
    ∀ t, t ∈ omap last_seq (jsonl_files d) → t < match m with Some s => add64 s 1 | None => 0 end)%N as [Hle Hlt].
  { destruct m as [m|]; simpl in Hmax.
    - destruct Hmax as [Hm1%Hbelow Hall]. unfold u64_max in *. rewrite add64_small by lia. split; [lia|].
      intros t Ht. specialize (Hall t Ht). lia.
    - rewrite Hmax. split; [unfold u64_max; lia|]. intros t Ht. by apply elem_of_nil in Ht. }
  assert (∀ s, on_disk d s → (s < match m with Some s => add64 s 1 | None => 0 end)%N) as Hall.
  { intros s (_ & t & Hst & Ht)%Htop. specialize (Hlt t Ht). lia. }
  split; [done|]. split; [|exact Hall]. intros f Hf. destruct (Hd f Hf) as (ks & Hk & Hs & _).
  exists ks. split; [done|]. split; [done|]. intros s Hin. apply Hall. by exists f, ks.
Qed.

(** The writer, its directory, and the numbers of the mutations acknowledged so far. *)
Record life := { lf_w : WalWriter; lf_d : list wfile; lf_acked : list N }.

(** A chunk whose closure logs [muts] and then fails. *)
Definition log_then_fail (muts : list (str * str * value)) (db : str) (e : Error) (w : WalWriter) :
    result Error unit * WalWriter := (Err e, (log_all muts db w).2).
(** A failed write that stopped between lines. *)
Definition untorn (flt : flush_fault) (ls : list WalLine) : Prop :=
  ∀ n, flt = FlushWrite n → ∃ j, take n (chunk_bytes ls) = chunk_bytes (take j ls).

(** What can happen to a writer: a chunk that succeeds, fails while flushing, or whose closure
    fails; a rotation; the two resynchronisations; a restart over the same directory. *)
Inductive life_step : life → life → Prop :=
| ls_chunk env muts db w d acked r w' d' :
    (global_seq w + N.of_nat (length muts) ≤ u64_max)%N →
    untorn (fe_fault env) (chunk_of (global_seq w) db muts) →
    with_chunk env (log_all muts db) w d = (r, w', d') →
    life_step {| lf_w := w; lf_d := d; lf_acked := acked |}
      {| lf_w := w'; lf_d := d';
         lf_acked := if is_ok r then acked ++ (wl_seq <$> chunk_of (global_seq w) db muts) else acked |}
| ls_chunk_fails env muts db e w d acked r w' d' :
    (global_seq w + N.of_nat (length muts) ≤ u64_max)%N →
    with_chunk env (log_then_fail muts db e) w d = (r, w', d') →
    life_step {| lf_w := w; lf_d := d; lf_acked := acked |} {| lf_w := w'; lf_d := d'; lf_acked := acked |}
| ls_rotate w d acked :
    life_step {| lf_w := w; lf_d := d; lf_acked := acked |}
      {| lf_w := (rotate w (Some d)).2; lf_d := d; lf_acked := acked |}
| ls_take_rotation w d acked :
    life_step {| lf_w := w; lf_d := d; lf_acked := acked |}
      {| lf_w := (take_rotation w).2; lf_d := d; lf_acked := acked |}
| ls_resync_bytes w d acked :
    life_step {| lf_w := w; lf_d := d; lf_acked := acked |}
      {| lf_w := resync_current_file_bytes w (Some d); lf_d := d; lf_acked := acked |}
| ls_resync window lc w d acked :
    life_step {| lf_w := w; lf_d := d; lf_acked := acked |}
      {| lf_w := (resync_global_seq window lc w (Some d)).2; lf_d := d; lf_acked := acked |}
| ls_restart window uuid a1 a2 me mb ok target t' w w' d acked :
    new_writer window uuid a1 a2 me mb ok (Some d) target = (Ok w', t') →
    life_step {| lf_w := w; lf_d := d; lf_acked := acked |} {| lf_w := w'; lf_d := d; lf_acked := acked |}.

Definition life_inv (x : life) : Prop :=
  (global_seq (lf_w x) ≤ u64_max)%N ∧
  (∀ p, current_file (lf_w x) = Some p → is_jsonl p = true) ∧
  disk_ok (global_seq (lf_w x)) (lf_d x) ∧
  StronglySorted N.lt (lf_acked x) ∧
  ∀ s, s ∈ lf_acked x → (s < global_seq (lf_w x))%N ∧ on_disk (lf_d x) s.

Lemma new_path_jsonl stamp w : is_jsonl (make_new_file_path stamp w) = true.
Proof.
  unfold make_new_file_path. rewrite !app_assoc. apply jsonl_suffix.
  intros H. apply (f_equal length) in H. rewrite !length_app in H. simpl in H. lia.
Qed.
Lemma choose_jsonl stamp w :
  (∀ p, current_file w = Some p → is_jsonl p = true) → is_jsonl (choose_file stamp w).1 = true.
Proof.
  intros H. unfold choose_file. destruct (current_file w) as [p|] eqn:Hp; [|apply new_path_jsonl].
  destruct (needs_new_file w); [apply new_path_jsonl|by apply H].
Qed.
Lemma flush_current env w d r w' d' :
  (∀ p, current_file w = Some p → is_jsonl p = true) → flush_pending env w d = (r, w', d') →
  ∀ p, current_file w' = Some p → is_jsonl p = true.
Proof.
  intros Hw. unfold flush_pending. destruct (pending_lines w); [intros [= <- <- <-]; done|].
  pose proof (choose_jsonl (fe_stamp env) w Hw) as Hj.
  destruct (choose_file _ w) as [path w1] eqn:Hc. destruct (choose_file_keeps _ _ _ _ Hc) as [Hcur _].
  destruct (fe_fault env); intros [= <- <- <-] p Hp; [|by apply Hw| |];
    cbn [current_file set_pending set_file] in Hp; rewrite Hcur in Hp; by injection Hp as <-.
Qed.

Lemma resync_below window lc w d :
  (global_seq w ≤ u64_max)%N → disk_ok (global_seq w) d →
  let w' := (resync_global_seq window lc w (Some d)).2 in
  (global_seq w ≤ global_seq w' ≤ u64_max)%N ∧ current_file w' = current_file w.
Proof.
  intros Hg Hd. unfold resync_global_seq. set (fc := match lc with Some _ => _ | None => _ end).
  assert (fc ≤ u64_max)%N as Hfc by (unfold fc, sat_add64; destruct lc; unfold u64_max; lia).
  destruct (scan_max_seq window (Some d)) as [n|e] eqn:Hs; cbn [snd global_seq set_global_seq current_file].
  - destruct (scan_above _ _ _ _ Hd Hg Hs) as [Hn _]. split; [lia|done].
  - split; [lia|done].
Qed.

(** A state whose position only grew. *)
Lemma life_inv_grow w d acked w' :
  life_inv {| lf_w := w; lf_d := d; lf_acked := acked |} →
  (global_seq w ≤ global_seq w' ≤ u64_max)%N →
  (∀ p, current_file w' = Some p → current_file w = Some p) →
  life_inv {| lf_w := w'; lf_d := d; lf_acked := acked |}.
Proof.
  intros (H1 & H2 & H3 & H4 & H5) Hg Hc. unfold life_inv. cbn [lf_w lf_d lf_acked] in *. split; [lia|]. split; [naive_solver|].
  split; [apply (disk_ok_mono (global_seq w)); [done|lia]|]. split; [done|].
  intros s Hs. destruct (H5 s Hs). split; [lia|done].
Qed.

(** A chunk that is kept, lost or torn between lines. *)
Lemma chunk_inv env muts db w d acked r w' d' :
  life_inv {| lf_w := w; lf_d := d; lf_acked := acked |} →
  (global_seq w + N.of_nat (length muts) ≤ u64_max)%N →
  untorn (fe_fault env) (chunk_of (global_seq w) db muts) →
  with_chunk env (log_all muts db) w d = (r, w', d') →
  life_inv {| lf_w := w'; lf_d := d';
    lf_acked := if is_ok r then acked ++ (wl_seq <$> chunk_of (global_seq w) db muts) else acked |}.
Proof.
  intros (H1 & H2 & H3 & H4 & H5) Hb Hu Hc. cbn [lf_w lf_d lf_acked] in H1, H2, H3, H4, H5. set (ls := chunk_of _ _ _) in *.
  assert (N.of_nat (length ls) ≤ N.of_nat (length muts))%N as Hlen
    by (pose proof (chunk_of_length (global_seq w) db muts); unfold ls; lia).
  assert (∀ s, s ∈ wl_seq <$> ls → (global_seq w ≤ s < global_seq w + N.of_nat (length ls))%N) as Hnew.
  { intros s Hs. unfold ls, chunk_of in *. rewrite numbered_length. by apply (numbered_bounds _ db). }
  assert (StronglySorted N.lt (wl_seq <$> ls)) as Hsort by apply numbered_sorted.
  unfold with_chunk in Hc. rewrite log_all_spec in Hc by (cbn; unfold u64_max in Hb; lia).
  cbn [pending_lines set_pending global_seq app] in Hc. fold ls in Hc.
  set (w1 := set_pending _ _) in Hc. destruct (flush_pending env w1 d) as [[fr w2] d2] eqn:Hf.
  assert (∀ p, current_file w1 = Some p → is_jsonl p = true) as Hcur by exact H2.
  pose proof (flush_current _ _ _ _ _ _ Hcur Hf) as Hcur'.
  pose proof (choose_jsonl (fe_stamp env) w1 Hcur) as Hpath.
  destruct (flush_cases _ _ _ _ _ _ Hf) as [Hg Hcases].
  change (global_seq w1) with (global_seq w + N.of_nat (length ls))%N in Hg.
  change (pending_lines w1) with ls in Hcases.
  assert (∀ ls', (∀ s, s ∈ wl_seq <$> ls' → s ∈ wl_seq <$> ls) → StronglySorted N.lt (wl_seq <$> ls') →
    disk_ok (global_seq w + N.of_nat (length ls))
      (disk_write (choose_file (fe_stamp env) w1).1 (chunk_bytes ls') d)) as Hwr.
  { intros ls' Hin Hs'. apply (disk_write_ok (global_seq w)); [done|done|lia|done|].
    intros s Hs. by apply Hnew, Hin. }
  assert (r = fr ∧ w' = w2 ∧ d' = d2) as (-> & -> & ->) by (by destruct fr as [[]|]; injection Hc as <- <- <-).
  split; [cbn; lia|]. split; [exact Hcur'|]. cbn [lf_w lf_d lf_acked]. rewrite Hg.
  destruct Hcases as [(He & -> & -> & ->)|[(path & -> & _ & _ & -> & ->)|(-> & Hd)]]; cbn [is_ok].
  - rewrite He in *. cbn [fmap list_fmap app]. rewrite app_nil_r, N.add_0_r. auto.
  - split; [by apply Hwr|]. split.
    + apply StronglySorted_app_2; [|done|done]. intros x y Hx Hy.
      destruct (H5 x Hx). specialize (Hnew y Hy). lia.
    + intros s [Hs|Hs]%elem_of_app.
      * destruct (H5 s Hs). split; [lia|]. by apply disk_write_keeps.
      * split; [by apply Hnew|]. by eapply disk_write_new.
  - destruct Hd as [[-> _]|(n & path & Hfault & _ & -> & ->)].
    + split; [by eapply disk_ok_mono; [exact H3|lia]|]. split; [done|]. intros s Hs. destruct (H5 s Hs). split; [lia|done].
    + destruct (Hu n Hfault) as [j ->].
      assert (wl_seq <$> take j ls = take j (wl_seq <$> ls)) as Htake by (by rewrite fmap_take).
      split; [|split; [done|]].
      * apply Hwr; rewrite Htake; [intros s Hs; by apply elem_of_take in Hs as (i & ? & _); eapply list_elem_of_lookup_2|].
        rewrite <- (take_drop j (wl_seq <$> ls)) in Hsort. by eapply StronglySorted_app_1_l.
      * intros s Hs. destruct (H5 s Hs). split; [lia|]. by apply disk_write_keeps.
Qed.

Lemma chunk_fail_inv env muts db e w d acked r w' d' :
  life_inv {| lf_w := w; lf_d := d; lf_acked := acked |} →
  (global_seq w + N.of_nat (length muts) ≤ u64_max)%N →
  with_chunk env (log_then_fail muts db e) w d = (r, w', d') →
  life_inv {| lf_w := w'; lf_d := d'; lf_acked := acked |}.
Proof.
  intros Hi Hb. unfold with_chunk, log_then_fail.
  rewrite log_all_spec by (cbn; unfold u64_max in Hb; lia). cbn [snd]. intros [= <- <- <-].
  apply (life_inv_grow w); [done| |done]. cbn [global_seq set_pending set_global_seq].
  pose proof (chunk_of_length (global_seq w) db muts). lia.
Qed.

Lemma restart_inv window uuid a1 a2 me mb ok target t' w w' d acked :
  life_inv {| lf_w := w; lf_d := d; lf_acked := acked |} →
  new_writer window uuid a1 a2 me mb ok (Some d) target = (Ok w', t') →
  life_inv {| lf_w := w'; lf_d := d; lf_acked := acked |}.
Proof.
  intros (H1 & H2 & H3 & H4 & H5). unfold new_writer. destruct ok; [|done]. cbn [negb].
  destruct (scan_max_seq window (Some d)) as [n|] eqn:Hs; [|done].
  destruct (scan_above _ _ _ _ H3 H1 Hs) as (Hn & Hd & Hall).
  set (g := match read_generation target with Some _ => _ | None => _ end). destruct g as [[g|] t]; [|done].
  intros [= <- _]. split; [done|]. split; [done|]. split; [done|]. split; [done|].
  intros s Hin. destruct (H5 s Hin) as [_ Hon]. split; [|done]. by apply Hall.
Qed.

Lemma life_step_inv x y : life_inv x → life_step x y → life_inv y.
Proof.
  intros Hi Hs. destruct Hs.
  - by eapply chunk_inv.
  - by eapply chunk_fail_inv.
  - apply (life_inv_grow w); [done| |]; unfold rotate; destruct (current_file w) eqn:Hc; cbn; try congruence;
      destruct Hi; cbn in *; lia.
  - apply (life_inv_grow w); [done| |done]. destruct Hi; cbn in *; lia.
  - apply (life_inv_grow w); [done| |]; unfold resync_current_file_bytes;
      destruct (current_file w ≫= _); cbn; try done; destruct Hi; cbn in *; lia.
  - destruct (resync_below window lc w d) as [Hb Hc]; [by destruct Hi|by destruct Hi as (_ & _ & ? & _)|].
    apply (life_inv_grow w); [done|done|]. by rewrite Hc.
  - by eapply restart_inv.
Qed.
End life.

(** ** Literals *)

Section literals.
Context {U : Unicode} {UL : UnicodeLaws}.
Definition plain (c : char) : bool := negb (c =? 39)%N && negb (c =? 92)%N.
Lemma upper_quote c : (ascii_upper c =? 39)%N = (c =? 39)%N ∧ (ascii_upper c =? 92)%N = (c =? 92)%N.
Proof.
  unfold ascii_upper. destruct (is_ascii_lower c) eqn:H; [|done].
  unfold is_ascii_lower, in_range in H. apply andb_true_iff in H as [H1%N.leb_le H2%N.leb_le].
  split; destruct (N.eqb_spec (c - 32) 39), (N.eqb_spec c 39), (N.eqb_spec (c - 32) 92), (N.eqb_spec c 92);
    done || lia.
Qed.
Lemma plain_upper s : forallb plain s = true → forallb plain (ascii_upper <$> s) = true.
Proof.
  induction s as [|c s IH]; [done|]. rewrite fmap_cons. cbn [forallb]. rewrite !andb_true_iff.
  intros [Hc Hs]. split; [|by apply IH]. unfold plain. by destruct (upper_quote c) as [-> ->].
Qed.
Lemma strip_outside a s : forallb plain a = true → strip_quoted_go QOut (a ++ s) = a ++ strip_quoted_go QOut s.
Proof.
  induction a as [|c a IH]; [done|]. cbn [forallb]. rewrite andb_true_iff. intros [Hc Ha].
  cbn [app strip_quoted_go]. unfold plain in Hc. destruct (c =? 39)%N; [done|]. by rewrite IH.
Qed.
Lemma strip_inside a s : forallb plain a = true → strip_quoted_go QIn (a ++ 39%N :: s) = 32%N :: strip_quoted_go QOut s.
Proof.
  induction a as [|c a IH]; [done|]. cbn [forallb]. rewrite andb_true_iff. intros [Hc Ha].
  cbn [app strip_quoted_go]. unfold plain in Hc. destruct (c =? 39)%N, (c =? 92)%N; try done. by rewrite IH.
Qed.
Lemma literal_opaque a lit b :
  forallb is_ascii a = true → forallb is_ascii lit = true → forallb is_ascii b = true →
  forallb plain a = true → forallb plain lit = true →
  looks_like_mutation (a ++ #"'" ++ lit ++ #"'" ++ b) =
  existsb (λ t, bool_decide (t ∈ mutation_keywords)) (split_whitespace (space_parens
    ((ascii_upper <$> a) ++ 32%N :: strip_quoted_literals (ascii_upper <$> b)))).
Proof.
  intros Ha Hl Hb Hpa Hpl. unfold looks_like_mutation, strip_quoted_literals.
  rewrite to_uppercase_ascii by (by rewrite !forallb_app, Ha, Hl, Hb). rewrite !fmap_app.
  rewrite strip_outside by (by apply plain_upper).
  change (ascii_upper <$> #"'") with [39%N]. cbn [app strip_quoted_go]. change ((39 =? 39)%N) with true. cbv iota.
  by rewrite strip_inside by (by apply plain_upper).
Qed.
End literals.

Lemma obj_get_remove_all ks key m :
  NoDup (keys m) → obj_get key (foldl (λ m k, obj_remove k m) m ks) =
    if bool_decide (key ∈ ks) then None else obj_get key m.
Proof.
  revert m. induction ks as [|k ks IH]; intros m Hm; [done|]. cbn [foldl].
  rewrite IH by (by apply obj_remove_NoDup). rewrite obj_get_remove by done.
  destruct (decide (key ∈ ks)) as [Hin|Hin].
  - by rewrite !bool_decide_eq_true_2 by (try done; by right).
  - rewrite (bool_decide_eq_false_2 (key ∈ ks)) by done. destruct (decide (key = k)) as [->|Hne].
    + by rewrite !bool_decide_eq_true_2 by (try done; by left).
    + rewrite !bool_decide_eq_false_2; [done| |done]. by intros [?|?]%elem_of_cons.
Qed.

(** ** Properties *)

Section props.
Context {U : Unicode} {LP : LinePrinter} {SR : SeqReader} {GC : GenerationCodec} {LL : LineLaws}.

(** C2. Over any history of chunks, failures that do not tear a line, rotations, resynchronisations
    and restarts, the acknowledged mutations have strictly increasing sequence numbers, each is on
    disk, and none will be assigned again. *)
Theorem wal_no_seq_reuse w d y :
  (global_seq w ≤ u64_max)%N → current_file w = None → disk_ok (global_seq w) d →
  rtc life_step {| lf_w := w; lf_d := d; lf_acked := [] |} y →
  StronglySorted N.lt (lf_acked y) ∧
  ∀ s, s ∈ lf_acked y → on_disk (lf_d y) s ∧ (s < global_seq (lf_w y))%N.
Proof.
  intros Hg Hc Hd Hr. assert (life_inv y) as (_ & _ & _ & Hs & Ha).
  { eapply (rtc_ind_l (λ x, life_inv x → life_inv y)); [done| |exact Hr|].
    - intros x1 x2 H1 _ IH Hi. by apply IH, (life_step_inv x1).
    - split; [done|]. split; [cbn; by rewrite Hc|]. split; [done|]. split; [constructor|].
      intros s Hs. by apply elem_of_nil in Hs. }
  split; [done|]. intros s Hin. by destruct (Ha s Hin).
Qed.

(** A chunk that succeeds lands as a whole: the mutations that are not reads or index DDL take
    consecutive numbers from the writer's, all in one file, after everything already in it; the
    writer is ready for the next chunk.  A chunk of reads writes nothing. *)
Theorem chunk_lands env muts db w d :
  fe_fault env = FlushOk → (global_seq w + N.of_nat (length muts) ≤ u64_max)%N →
  let ls := chunk_of (global_seq w) db muts in
  ∃ w' d', with_chunk env (log_all muts db) w d = (Ok tt, w', d') ∧
    wl_seq <$> ls = (λ i, global_seq w + N.of_nat i)%N <$> seq 0 (length (List.filter loggable muts)) ∧
    global_seq w' = (global_seq w + N.of_nat (length ls))%N ∧ pending_lines w' = [] ∧
    match ls with
    | [] => d' = d
    | _ => ∃ path, current_file w' = Some path ∧ d' = disk_write path (chunk_bytes ls) d
    end.
Proof.
  intros Hf Hb ls. unfold with_chunk. rewrite log_all_spec by (cbn; unfold u64_max in Hb; lia).
  cbn [pending_lines set_pending global_seq app]. fold ls.
  set (w1 := set_pending ls _). assert (pending_lines w1 = ls) as Hp by done.
  assert (wl_seq <$> ls = (λ i, global_seq w + N.of_nat i)%N <$> seq 0 (length (List.filter loggable muts))) as Hseq
    by apply numbered_seqs.
  destruct ls as [|l ls'] eqn:Hls.
  - unfold flush_pending. rewrite Hp. exists w1, d. done.
  - destruct (flush_ok env w1 d l ls' Hf Hp) as (path & w' & -> & Hcur & Hpd & Hg).
    exists w', (disk_write path (chunk_bytes (l :: ls')) d). rewrite Hg. split; [done|]. split; [done|].
    split; [done|]. split; [done|]. by exists path.
Qed.

(** A file's size, when it is there. *)
Definition size_of (d : list wfile) (path : str) : N := default 0%N (file_size (Some d) path).
(** The counters describe the current file. *)
Definition accounted (w : WalWriter) (d : list wfile) : Prop :=
  match current_file w with
  | None => bytes_in_current_file w = 0%N ∧ events_in_current_file w = 0%N
  | Some p => bytes_in_current_file w = size_of d p
  end.

Lemma size_of_write path bs d : size_of (disk_write path bs d) path = (size_of d path + file_len bs)%N.
Proof.
  unfold size_of, file_size, lookup_file. cbn [mbind option_bind].
  induction d as [|f d IH]; cbn [disk_write].
  - simpl. rewrite bool_decide_eq_true_2 by done. done.
  - case_bool_decide as Hn; cbn [List.find wf_name].
    + rewrite !bool_decide_eq_true_2 by done. cbn [mbind option_bind wf_bytes default from_option id].
      unfold file_len. rewrite length_app. destruct (wf_bytes f); cbn; lia.
    + by rewrite !(bool_decide_eq_false_2 (wf_name f = path)) by done.
Qed.

(** Rotation keeps files within bounds: after a flush that succeeds the byte counter is the
    size of the current file, and unless the file was opened for this very chunk, neither limit is
    exceeded. *)
Theorem flush_respects_limits env w d w' d' :
  accounted w d → pending_lines w ≠ [] → flush_pending env w d = (Ok tt, w', d') →
  size_of d (make_new_file_path (fe_stamp env) w) = 0%N →
  accounted w' d' ∧
  ((bytes_in_current_file w' = chunk_size (pending_lines w) ∧
    events_in_current_file w' = N.of_nat (length (pending_lines w))) ∨
   ((max_bytes_per_file w = 0 ∨ bytes_in_current_file w = 0 ∨ bytes_in_current_file w' ≤ max_bytes_per_file w)%N ∧
    (events_in_current_file w = 0 ∨ events_in_current_file w' ≤ max_events_per_file w)%N)).
Proof.
  intros Ha Hp Hf Hnew. revert Hf. unfold flush_pending.
  destruct (pending_lines w) as [|l ls] eqn:Hls; [done|]. set (chunk := l :: ls) in *. clearbody chunk.
  destruct (choose_file (fe_stamp env) w) as [path w1] eqn:Hcf.
  pose proof (choose_file_keeps _ _ _ _ Hcf) as [Hcur _].
  destruct (fe_fault env); try discriminate. intros [= <- <-]. unfold accounted.
  cbn [current_file set_pending set_file bytes_in_current_file events_in_current_file].
  rewrite Hcur, size_of_write, <- chunk_size_bytes.
  destruct (choose_cases _ _ _ _ Hcf) as [(Hp0 & -> & Hn)|(-> & Hb0 & He0)].
  - unfold accounted in Ha. rewrite Hp0 in Ha. split; [by rewrite Ha|]. right.
    unfold needs_new_file in Hn. rewrite Hls in Hn.
    apply orb_false_iff in Hn as [[_ He]%orb_false_iff Hb].
    rewrite andb_false_iff, N.ltb_ge, N.ltb_ge in He. rewrite !andb_false_iff, !N.ltb_ge in Hb.
    split; [|lia]. destruct Hb as [[?|?]|?]; [left|right; left|right; right]; lia.
  - rewrite Hb0, He0, Hnew. split; [done|]. left. done.
Qed.

(** A write that fails inside a line is not undone: the next chunk, which is reported as
    written, continues the torn line, so that its first mutation can never be read back. *)
Theorem torn_line_swallows_next env1 env2 n w p ks muts1 muts2 db w1 d1 w2 d2 l ls :
  fe_fault env1 = FlushWrite n → fe_fault env2 = FlushOk →
  (global_seq w + N.of_nat (length muts1) + N.of_nat (length muts2) ≤ u64_max)%N →
  let t := take n (chunk_bytes (chunk_of (global_seq w) db muts1)) in
  10%N ∉ t →
  with_chunk env1 (log_all muts1 db) w [WFile p (Some (chunk_bytes ks))] = (Err io_err, w1, d1) →
  current_file w1 = Some p →
  with_chunk env2 (log_all muts2 db) w1 d1 = (Ok tt, w2, d2) → current_file w2 = Some p →
  chunk_of (global_seq w1) db muts2 = l :: ls →
  tail_line_seq (from_utf8_lossy (t ++ utf8 (line_print l))) = None →
  ∃ bs, d2 = [WFile p (Some bs)] ∧
    omap tail_line_seq (lines (from_utf8_lossy bs)) = wl_seq <$> ks ++ ls.
Proof.
  intros Hf1 Hf2 Hb t Ht H1 Hc1 H2 Hc2 Hch Hnone. unfold u64_max in Hb.
  unfold with_chunk in H1. rewrite log_all_spec in H1 by (cbn; lia).
  cbn [pending_lines set_pending global_seq app] in H1. set (wa := set_pending _ _) in H1.
  destruct (flush_pending env1 wa _) as [[fr w'] d'] eqn:Hfl1.
  destruct (flush_cases _ _ _ _ _ _ Hfl1) as [Hg Hcases].
  assert (fr = Err io_err ∧ w' = w1 ∧ d' = d1) as (-> & -> & ->) by (by destruct fr as [[]|]; injection H1 as <- <- <-).
  destruct Hcases as [(_ & ? & _)|[(? & ? & _)|(_ & Hd)]]; [done..|].
  assert (global_seq w1 ≤ global_seq w + N.of_nat (length muts1))%N as Hg1.
  { rewrite Hg. cbn [wa global_seq set_pending set_global_seq].
    pose proof (chunk_of_length (global_seq w) db muts1). lia. }
  assert (d1 = [WFile p (Some (chunk_bytes ks ++ t))]) as ->.
  { destruct Hd as [[_ Hd]|(n' & path & Hn & Hcur & _ & ->)]; [by destruct (Hd n)|].
    rewrite Hf1 in Hn. injection Hn as <-. rewrite Hc1 in Hcur. injection Hcur as <-.
    simpl. by rewrite bool_decide_eq_true_2. }
  unfold with_chunk in H2. rewrite log_all_spec in H2 by (cbn; lia).
  cbn [pending_lines set_pending global_seq app] in H2. rewrite Hch in H2. set (wb := set_pending _ _) in H2.
  destruct (flush_ok env2 wb [WFile p (Some (chunk_bytes ks ++ t))] l ls Hf2 eq_refl)
    as (path & w' & He & Hcur & _). rewrite He in H2. injection H2 as <- <-.
  rewrite Hc2 in Hcur. injection Hcur as <-. exists (chunk_bytes ks ++ t ++ chunk_bytes (l :: ls)). split.
  { simpl. rewrite bool_decide_eq_true_2 by done. cbn [wf_bytes default from_option id]. by rewrite <- app_assoc. }
  by apply torn_recovered.
Qed.

(** A logged mutation carries no embedding vector and no derived key, and every other parameter
    is recorded as it was given. *)
Theorem log_mutation_strips ts cypher params db w :
  loggable (ts, cypher, params) = true →
  (∀ m, params = VObject m → NoDup (keys m)) →
  ∃ l w', log_mutation ts cypher params db w = (Ok tt, w') ∧
    pending_lines w' = pending_lines w ++ [l] ∧ wl_seq l = global_seq w ∧ wl_cypher l = cypher ∧
    ∀ key, get key (wl_params l) =
      if bool_decide (key ∈ VECTOR_PARAM_KEYS ++ DERIVED_PARAM_KEYS) then None else get key params.
Proof.
  unfold loggable. cbn [fst snd]. rewrite andb_true_iff, negb_true_iff. intros [Hd Hm] Hp.
  unfold log_mutation. rewrite Hd, Hm. cbn [negb]. do 2 eexists. split; [done|].
  cbn [pending_lines set_pending set_global_seq wl_seq wl_cypher wl_params]. split; [done|]. split; [done|]. split; [done|].
  intros key. unfold strip_derived_params, strip_vector_params, get.
  destruct params as [| | | | |m]; try by case_bool_decide. specialize (Hp m eq_refl).
  rewrite <- foldl_app. by apply obj_get_remove_all.
Qed.

(** What a string literal says does not matter to the mutation test, but it does to the index
    test, which looks at the whole text: a mutation with the words "drop index" in a literal is
    acknowledged and never logged. *)
Theorem literal_index_ddl_drops_mutation {UL : UnicodeLaws} ts a b lit params db w :
  forallb is_ascii (a ++ lit ++ b) = true → forallb (λ c, negb (c =? 39)%N && negb (c =? 92)%N) (a ++ lit) = true →
  looks_like_mutation (a ++ #"'drop index'" ++ b) = looks_like_mutation (a ++ #"'" ++ lit ++ #"'" ++ b) ∧
  log_mutation ts (a ++ #"'drop index'" ++ b) params db w = (Ok tt, w).
Proof.
  rewrite !forallb_app, !andb_true_iff. intros (Ha & Hl & Hb) [Hqa Hql]. split.
  - change (#"'drop index'" ++ b) with (#"'" ++ #"drop index" ++ #"'" ++ b).
    rewrite !(literal_opaque a _ b); done.
  - unfold log_mutation. assert (is_index_ddl (a ++ #"'drop index'" ++ b) = true) as ->; [|done].
    unfold is_index_ddl. rewrite to_uppercase_ascii by (by rewrite !forallb_app, Ha, Hb).
    rewrite orb_true_iff. right. apply contains_spec. rewrite !fmap_app.
    exists ((ascii_upper <$> a) ++ #"'"), (#"'" ++ (ascii_upper <$> b)). rewrite <- !app_assoc. done.
Qed.
End props.

(** ** Witnesses *)

(** A concrete line format: the sequence number in braces. *)
Definition ToyPrinter : LinePrinter := {| line_print l := #"{" ++ print_any (wl_seq l) ++ #"}" |}.
Definition toy_seq (s : str) : option N :=
  mid ← strip_prefix #"{" s; mid ← strip_suffix #"}" mid;
  if forallb (λ c, (c =? 48)%N || (c =? 49)%N) mid then parse_any mid else None.
Definition ToyReader : SeqReader := {| value_seq := toy_seq; line_seq := toy_seq |}.

Lemma pos_str_digits p : forallb (λ c, (c =? 48)%N || (c =? 49)%N) (pos_str p) = true.
Proof. by induction p. Qed.
Global Instance ToyLines : @LineLaws ToyPrinter ToyReader.
Proof.
  split; intros l; unfold line_print, value_seq, ToyPrinter, ToyReader.
  - apply Forall_app. split; [by repeat constructor|]. apply Forall_app. split; [apply print_any_wf|by repeat constructor].
  - exists (print_any (wl_seq l)). split; [done|]. intros H. apply list_elem_of_In in H.
    pose proof (pos_str_digits (countable.encode (wl_seq l))) as Hd. eapply forallb_forall in Hd; [|exact H]. done.
  - unfold toy_seq. change (strip_prefix #"{" (#"{" ++ print_any (wl_seq l) ++ #"}")) with (Some (print_any (wl_seq l) ++ #"}")).
    cbn [mbind option_bind]. rewrite (proj2 (strip_suffix_spec #"}" _ _) eq_refl). cbn [mbind option_bind].
    unfold print_any at 1. rewrite pos_str_digits. apply parse_print_any.
Qed.

Definition toy_writer (max_events max_bytes : N) (cur : option str) (bytes events : N) : WalWriter :=
  {| global_seq := 5; file_seq := 1; events_in_current_file := events; max_events_per_file := max_events;
     max_bytes_per_file := max_bytes; bytes_in_current_file := bytes; session_id := #"abc123";
     pending_lines := []; current_file := cur; last_rotation := None; generation := None |}.
Definition toy_env (f : flush_fault) : flush_env := {| fe_fault := f; fe_stamp := #"20240101_000000" |}.
Definition toy_mut : str * str * value := (#"t", #"CREATE (n)", VObject [(#"name_embedding", VNull); (#"name", VString #"x")]).
Definition toy_read : str * str * value := (#"t", #"MATCH (n) RETURN n", VNull).
Definition toy_line (n : N) : WalLine :=
  {| wl_seq := n; wl_ts := #"t"; wl_db := []; wl_cypher := #"c"; wl_params := VNull |}.
#[local] Instance ascii_tables : Unicode := AsciiUnicode.

Lemma wal_no_seq_reuse_witness :
  let d' := [WFile #"20240101_000000_abc123_0001.jsonl" (Some (utf8 #"{100}" ++ [10%N]))] in
  ∃ y, lf_acked y = [5%N] ∧ StronglySorted N.lt (lf_acked y) ∧
    ∀ s, s ∈ lf_acked y → @on_disk ToyPrinter (lf_d y) s ∧ (s < global_seq (lf_w y))%N.
Proof.
  cbv zeta. eexists (Build_life _ _ _). split; [reflexivity|].
  apply (@wal_no_seq_reuse ascii_tables ToyPrinter ToyReader PlainCodec ToyLines (toy_writer 2 0 None 0 0) []);
    [vm_compute; discriminate|done| |].
  - intros f Hf. by apply elem_of_nil in Hf.
  - eapply rtc_once. refine (ls_chunk (toy_env FlushOk) [toy_mut; toy_read] [] _ _ [] (Ok tt) _ _ _ _ _).
    + vm_compute. discriminate.
    + intros n H. discriminate H.
    + vm_compute. reflexivity.
Defined.

Lemma chunk_lands_witness :
  ∃ w' d', @with_chunk ToyPrinter unit (toy_env FlushOk) (log_all [toy_mut; toy_read] []) (toy_writer 2 0 None 0 0) []
      = (Ok tt, w', d') ∧
    wl_seq <$> chunk_of 5 [] [toy_mut; toy_read] = (λ i, 5 + N.of_nat i)%N <$> seq 0 1 ∧
    global_seq w' = 6%N ∧ pending_lines w' = [] ∧
    ∃ path, current_file w' = Some path ∧
      d' = disk_write path (@chunk_bytes ToyPrinter (chunk_of 5 [] [toy_mut; toy_read])) [].
Proof.
  apply (@chunk_lands ascii_tables ToyPrinter (toy_env FlushOk) [toy_mut; toy_read] [] (toy_writer 2 0 None 0 0) []);
    [reflexivity|vm_compute; discriminate].
Defined.

Lemma flush_respects_limits_witness :
  ∃ w' d', accounted w' d' ∧
    ((bytes_in_current_file w' = @chunk_size ToyPrinter [toy_line 5] ∧ events_in_current_file w' = 1%N) ∨
     ((0 = 0 ∨ 7 = 0 ∨ bytes_in_current_file w' ≤ 0)%N ∧ (1 = 0 ∨ events_in_current_file w' ≤ 2)%N)).
Proof.
  do 2 eexists.
  apply (@flush_respects_limits ToyPrinter (toy_env FlushOk)
    (set_pending [toy_line 5] (toy_writer 2 0 (Some #"a.jsonl") 7 1)) [WFile #"a.jsonl" (Some (utf8 #"1234567"))]);
    [reflexivity|discriminate|vm_compute; reflexivity|vm_compute; reflexivity].
Defined.

Definition toy_torn1 : result Error unit * WalWriter * list wfile :=
  @with_chunk ToyPrinter unit (toy_env (FlushWrite 2)) (log_all [toy_mut] [])
    (toy_writer 9 0 (Some #"a.jsonl") 0 0) [WFile #"a.jsonl" (Some [])].
Definition toy_torn2 : result Error unit * WalWriter * list wfile :=
  @with_chunk ToyPrinter unit (toy_env FlushOk) (log_all [toy_mut; toy_mut] []) toy_torn1.1.2 toy_torn1.2.
Lemma torn_line_swallows_next_witness :
  toy_torn2.1.1 = Ok tt ∧ wl_seq <$> chunk_of 6 [] [toy_mut; toy_mut] = [6%N; 7%N] ∧
  ∃ bs, toy_torn2.2 = [WFile #"a.jsonl" (Some bs)] ∧
    omap (@tail_line_seq ToyReader) (lines (from_utf8_lossy bs)) = wl_seq <$> [] ++ tail (chunk_of 6 [] [toy_mut; toy_mut]).
Proof.
  split; [vm_compute; reflexivity|]. split; [vm_compute; reflexivity|].
  apply (@torn_line_swallows_next ascii_tables ToyPrinter ToyReader ToyLines (toy_env (FlushWrite 2)) (toy_env FlushOk) 2
    (toy_writer 9 0 (Some #"a.jsonl") 0 0) #"a.jsonl" [] [toy_mut] [toy_mut; toy_mut] [] toy_torn1.1.2 toy_torn1.2
    toy_torn2.1.2 toy_torn2.2 (default (toy_line 0) (head (chunk_of 6 [] [toy_mut; toy_mut])))
    (tail (chunk_of 6 [] [toy_mut; toy_mut]))); try (vm_compute; reflexivity).
  - vm_compute. discriminate.
  - apply (bool_decide_unpack _). vm_compute. exact I.
Defined.

Lemma log_mutation_strips_witness :
  ∃ l w', log_mutation #"t" #"CREATE (n)" toy_mut.2 [] (toy_writer 2 0 None 0 0) = (Ok tt, w') ∧
    pending_lines w' = [] ++ [l] ∧ wl_seq l = 5%N ∧ wl_cypher l = #"CREATE (n)" ∧
    ∀ key, get key (wl_params l) =
      if bool_decide (key ∈ VECTOR_PARAM_KEYS ++ DERIVED_PARAM_KEYS) then None else get key toy_mut.2.
Proof.
  apply (@log_mutation_strips ascii_tables #"t" #"CREATE (n)" toy_mut.2 [] (toy_writer 2 0 None 0 0)).
  - vm_compute. reflexivity.
  - intros m [= <-]. apply (bool_decide_unpack _). vm_compute. exact I.
Defined.

Lemma literal_index_ddl_drops_mutation_witness :
  looks_like_mutation (#"CREATE (:E {name: " ++ #"'drop index'" ++ #"})") =
  looks_like_mutation (#"CREATE (:E {name: " ++ #"'" ++ #"x" ++ #"'" ++ #"})") ∧
  log_mutation #"t" (#"CREATE (:E {name: " ++ #"'drop index'" ++ #"})") VNull [] (toy_writer 2 0 None 0 0)
    = (Ok tt, toy_writer 2 0 None 0 0).
Proof. apply (@literal_index_ddl_drops_mutation ascii_tables AsciiUnicodeLaws #"t"); vm_compute; reflexivity. Defined.
