(* ===== verification/Checkpoint.v ===== *)
(** * Checkpoint: the store of named WAL positions (core/src/checkpoint.rs)

    The store is a map from directory names to directories, a directory a map from file names to
    bytes; a name that is not a directory maps to [None].  Generation files are only ever created,
    never rewritten, so "active" is a fact about the highest generation number present.  The JSON
    of the two records is a parameter. *)

From S2P Require Import Prelude Text Numbers WalGeneration WalScan.

(** Source: core/src/checkpoint.rs 38-38 (CHECKPOINTS_DIR_NAME) *)
Definition CHECKPOINTS_DIR_NAME : str := #".checkpoints".

(** Source: core/src/checkpoint.rs 60-68 (CheckpointInfo) *)
Record CheckpointInfo := {
  ci_name : str;
  ci_seq : option N;
  ci_reachable : bool;
  ci_wal_min_seq : option N;
  ci_wal_max_seq : option N;
  ci_wal_generation : option str;
}.

(** Source: core/src/checkpoint.rs 71-82 (CreateRecord) *)
Record CreateRecord := {
  cr_name : str;
  cr_seq : option N;
  cr_created_at_ms : N;
  cr_wal_generation : option str;
}.

(** Source: core/src/checkpoint.rs 85-88 (DeleteRecord) *)
Record DeleteRecord := { dr_name : str; dr_deleted_at_ms : N }.

(** The serde codecs of the two records. *)
Class RecordCodec := {
  create_json : CreateRecord → str;
  delete_json : DeleteRecord → str;
  parse_create : str → option CreateRecord;
}.
Class RecordCodecLaws `{RecordCodec} := {
  parse_create_json r : parse_create (create_json r) = Some r;
  create_json_wf r : wf_str (create_json r);
}.

Definition is_safe_char (c : char) : bool := is_ascii_alnum c || (c =? 95)%N || (c =? 45)%N.
(** Source: core/src/checkpoint.rs 94-105 (validate_name) *)
Definition validate_name (name : str) : result Error unit :=
  if nonempty name && (byte_len name <=? 200)%N && forallb is_safe_char name
  then Ok tt else Err (CheckpointInvalidName name).

Definition create_suffix : str := #".create.json".
Definition delete_suffix : str := #".delete.json".
(** Source: core/src/checkpoint.rs 115-117 (create_file_path) *)
Definition create_file_path (generation : N) : str := #"g" ++ dec_str generation ++ create_suffix.
(** Source: core/src/checkpoint.rs 119-121 (delete_file_path) *)
Definition delete_file_path (generation : N) : str := #"g" ++ dec_str generation ++ delete_suffix.

(** Source: core/src/checkpoint.rs 137-143 (parse_generation) *)
Definition parse_generation (file_name : str) : option N :=
  rest ← strip_prefix #"g" file_name;
  rest ← match strip_suffix create_suffix rest with
         | Some r => Some r
         | None => strip_suffix delete_suffix rest
         end;
  parse_uint 10 u32_max rest.

(** The files of one checkpoint name, and the store. *)
Abbreviation cdir := (gmap str bytes).
Abbreviation store := (gmap str (option cdir)).

(** Source: core/src/checkpoint.rs 125-135 (highest_generation) *)
Definition highest_generation (dir : cdir) : N :=
  foldr N.max 0%N (omap parse_generation (fst <$> map_to_list dir)).

(** How the file system treats one call: the directory cannot be made, the file cannot be opened
    for a reason other than existing, or the write or its sync fails after some bytes. *)
Inductive fault := NoFault | MkdirFails | OpenFails | WriteFails (written : nat).
Global Instance fault_eq_dec : EqDecision fault.
Proof. solve_decision. Defined.

Section checkpoint.
Context {RC : RecordCodec}.

(** [create_new] followed by [write_all] and [sync_all]; [None]: the path already exists. *)
Definition create_exclusive (flt : fault) (path : str) (text : str) (dir : cdir) :
    option (result Error unit * cdir) :=
  match flt, dir !! path with
  | OpenFails, _ => Some (Err io_err, dir)
  | _, Some _ => None
  | WriteFails n, None => Some (Err io_err, <[path := take n (utf8 text)]> dir)
  | _, None => Some (Ok tt, <[path := utf8 text]> dir)
  end.

(** The generation [create] targets. *)
Definition create_target (dir : cdir) : N :=
  let g := highest_generation dir in
  if (g =? 0)%N then 1%N
  else match dir !! delete_file_path g with Some _ => add32 g 1 | None => g end.

(** Source: core/src/checkpoint.rs 153-198 (create) *)
Definition create (flt : fault) (now : N) (st : store) (name : str) (seq : option N)
    (wal_generation : option str) : result Error unit * store :=
  match validate_name name with
  | Err e => (Err e, st)
  | Ok _ =>
      match flt, st !! name with
      | MkdirFails, _ | _, Some None => (Err io_err, st)
      | _, d =>
          let dir := default ∅ (mjoin d) in
          let record := {| cr_name := name; cr_seq := seq; cr_created_at_ms := now;
                           cr_wal_generation := wal_generation |} in
          match create_exclusive flt (create_file_path (create_target dir)) (create_json record) dir with
          | Some (r, dir') => (r, <[name := Some dir']> st)
          | None => (Err (CheckpointDuplicateName name), <[name := Some dir]> st)
          end
      end
  end.

(** Source: core/src/checkpoint.rs 204-239 (delete) *)
Definition delete (flt : fault) (now : N) (st : store) (name : str) : result Error unit * store :=
  match validate_name name with
  | Err e => (Err e, st)
  | Ok _ =>
      let dir := default ∅ (mjoin (st !! name)) in
      let g := highest_generation dir in
      if (g =? 0)%N then (Err (CheckpointNotFound name), st)
      else
        match dir !! delete_file_path g with
        | Some _ => (Err (CheckpointNotFound name), st)
        | None =>
            let record := {| dr_name := name; dr_deleted_at_ms := now |} in
            match create_exclusive flt (delete_file_path g) (delete_json record) dir with
            | Some (r, dir') => (r, <[name := Some dir']> st)
            | None => (Err (CheckpointNotFound name), st)
            end
        end
  end.

(** Source: core/src/checkpoint.rs 338-341 (read_create_record) *)
Definition read_create_record (dir : cdir) (generation : N) : option CreateRecord :=
  contents ← dir !! create_file_path generation; text ← from_utf8 contents; parse_create text.

(** The record [list] reports for one directory entry, when it reports one.
    Source: core/src/checkpoint.rs 287-303 (list) *)
Definition active_record (entry : option cdir) : option CreateRecord :=
  dir ← entry;
  let g := highest_generation dir in
  if (g =? 0)%N then None else
  match dir !! delete_file_path g with
  | Some _ => None
  | None => read_create_record dir g
  end.

#[global] Arguments active_record : simpl never.

(** Source: core/src/checkpoint.rs 317-332 (list) *)
Definition checkpoint_info (min max : option N) (current_generation : option str)
    (name : str) (record : CreateRecord) : CheckpointInfo :=
  let bounds_reachable :=
    match cr_seq record with
    | None => true
    | Some n => match min, max with Some 0%N, Some hi => (n <=? hi)%N | _, _ => false end
    end in
  let generation_mismatched := generation_mismatch (cr_wal_generation record) current_generation in
  {| ci_name := name; ci_seq := cr_seq record;
     ci_reachable := bounds_reachable && negb generation_mismatched;
     ci_wal_min_seq := min; ci_wal_max_seq := max; ci_wal_generation := cr_wal_generation record |}.

Definition name_leb (a b : CheckpointInfo) : bool := str_leb (ci_name a) (ci_name b).

(** [entries] is what [read_dir] yields for the store, in its order; the bounds manifest may be
    rewritten on the way.
    Source: core/src/checkpoint.rs 275-336 (list) *)
Definition list_checkpoints `{SR : SeqReader} `{GC : GenerationCodec} (hash_names : list str → N)
    (window : N) (wal : wal_dir) (wr : bool) (man : option WalBoundsManifest) (target : option str)
    (entries : option (list (str * option cdir))) :
    result Error (list CheckpointInfo) * option WalBoundsManifest :=
  match entries with
  | None => (Ok [], man)
  | Some entries =>
      let '(rmin, man) := wal_min_seq hash_names window wal wr man in
      match rmin with
      | Err e => (Err e, man)
      | Ok min =>
          let '(rmax, man) := wal_max_seq hash_names window wal wr man in
          match rmax with
          | Err e => (Err e, man)
          | Ok max =>
              let current_generation := read_generation target in
              let results := omap (λ '(name, entry),
                checkpoint_info min max current_generation name <$> active_record entry) entries in
              (Ok (sort_by name_leb results), man)
          end
      end
  end.
End checkpoint.

(** ** Paths and generation numbers *)

Lemma strip_suffix_app a p : strip_suffix p (a ++ p) = Some a.
Proof. by apply strip_suffix_spec. Qed.
Lemma strip_create_delete a : strip_suffix create_suffix (a ++ delete_suffix) = None.
Proof. unfold strip_suffix. rewrite reverse_app. reflexivity. Qed.

Lemma parse_create_path g : (g ≤ u32_max)%N → parse_generation (create_file_path g) = Some g.
Proof.
  intros Hg. unfold parse_generation, create_file_path. cbn [strip_prefix app lit].
  change (strip_prefix #"g" (#"g" ++ dec_str g ++ create_suffix)) with (Some (dec_str g ++ create_suffix)).
  cbn [mbind option_bind]. rewrite strip_suffix_app. cbn [mbind option_bind]. by apply parse_dec_str.
Qed.
Lemma parse_delete_path g : (g ≤ u32_max)%N → parse_generation (delete_file_path g) = Some g.
Proof.
  intros Hg. unfold parse_generation, delete_file_path.
  change (strip_prefix #"g" (#"g" ++ dec_str g ++ delete_suffix)) with (Some (dec_str g ++ delete_suffix)).
  cbn [mbind option_bind]. rewrite strip_create_delete, strip_suffix_app. cbn [mbind option_bind].
  by apply parse_dec_str.
Qed.
Lemma create_delete_path g h : create_file_path g ≠ delete_file_path h.
Proof.
  unfold create_file_path, delete_file_path. intros Heq. apply (app_inv_head #"g") in Heq.
  pose proof (strip_suffix_app (dec_str g) create_suffix) as H. by rewrite Heq, strip_create_delete in H.
Qed.

Lemma foldr_max_ge l x : x ∈ l → (x ≤ foldr N.max 0 l)%N.
Proof.
  induction l as [|y l IH]; [by intros H%elem_of_nil|].
  intros [->|H]%elem_of_cons; simpl; [lia|]. specialize (IH H). lia.
Qed.
Lemma foldr_max_perm l l' : l ≡ₚ l' → foldr N.max 0%N l = foldr N.max 0%N l'.
Proof. induction 1; simpl; lia. Qed.

Lemma highest_ge (dir : cdir) p c g :
  dir !! p = Some c → parse_generation p = Some g → (g ≤ highest_generation dir)%N.
Proof.
  intros Hp Hg. apply foldr_max_ge, list_elem_of_omap. exists p. split; [|done].
  apply list_elem_of_fmap. exists (p, c). split; [done|]. by apply elem_of_map_to_list.
Qed.
Lemma highest_insert (dir : cdir) p c g :
  dir !! p = None → parse_generation p = Some g →
  highest_generation (<[p := c]> dir) = N.max g (highest_generation dir).
Proof.
  intros Hp Hg. unfold highest_generation.
  rewrite (foldr_max_perm _ (omap parse_generation (p :: (fst <$> map_to_list dir)))).
  - simpl. by rewrite Hg.
  - apply omap_Permutation. rewrite (fmap_Permutation fst _ _ (map_to_list_insert dir p c Hp)). done.
Qed.
(** Above the highest generation nothing is on disk. *)
Lemma fresh_generation (dir : cdir) p g :
  (highest_generation dir < g)%N → parse_generation p = Some g → dir !! p = None.
Proof.
  intros Hlt Hp. destruct (dir !! p) as [c|] eqn:Hc; [|done].
  pose proof (highest_ge _ _ _ _ Hc Hp). lia.
Qed.

(** ** What the store promises *)

Section spec.
Context {RC : RecordCodec} {RL : RecordCodecLaws}.

(** The abstract state: which names are active, and with which record. *)
Definition view (st : store) : gmap str CreateRecord := omap active_record st.

(** A directory that no torn write has touched: its active generation reads back. *)
Definition dir_ok (dir : cdir) : Prop :=
  let g := highest_generation dir in
  (g ≤ u32_max)%N ∧
  (g ≠ 0%N → dir !! delete_file_path g = None → is_Some (read_create_record dir g)).
Definition store_ok (st : store) : Prop := ∀ name dir, st !! name = Some (Some dir) → dir_ok dir.

Lemma dir_ok_empty : dir_ok ∅.
Proof. split; [done|]. intros H. by destruct H. Qed.
Lemma store_ok_insert st name dir : store_ok st → dir_ok dir → store_ok (<[name := Some dir]> st).
Proof. intros Hs Hd n d. rewrite lookup_insert_Some. naive_solver. Qed.

Lemma view_at st name : view st !! name = active_record (Some (default ∅ (mjoin (st !! name)))).
Proof. unfold view. rewrite lookup_omap. destruct (st !! name) as [[d|]|]; done. Qed.
Lemma store_ok_dir st name : store_ok st → dir_ok (default ∅ (mjoin (st !! name))).
Proof.
  intros Hst. destruct (st !! name) as [[d|]|] eqn:Hn; simpl; [by eapply Hst|apply dir_ok_empty..].
Qed.
Lemma view_insert st name dir r :
  active_record (Some dir) = Some r → view (<[name := Some dir]> st) = <[name := r]> (view st).
Proof. intros Hr. unfold view. by rewrite (omap_insert_Some _ _ _ _ _ Hr). Qed.
Lemma view_delete st name dir :
  active_record (Some dir) = None → view (<[name := Some dir]> st) = base.delete name (view st).
Proof.
  intros Hr. apply map_eq. intros i. unfold view. rewrite lookup_omap.
  destruct (decide (i = name)) as [->|Hne].
  - by rewrite lookup_insert_eq, lookup_delete_eq.
  - by rewrite lookup_insert_ne, lookup_delete_ne, lookup_omap by done.
Qed.

(** The record written at a fresh generation is the active one. *)
Lemma active_create (dir : cdir) g r :
  (highest_generation dir < g ≤ u32_max)%N →
  let dir' := <[create_file_path g := utf8 (create_json r)]> dir in
  active_record (Some dir') = Some r ∧ dir_ok dir'.
Proof.
  intros Hg dir'. pose proof (parse_create_path g ltac:(lia)) as Hp.
  assert (highest_generation dir' = g) as Hh.
  { unfold dir'. rewrite (highest_insert _ _ _ g); [lia| |done]. apply (fresh_generation _ _ g); [lia|done]. }
  assert (read_create_record dir' g = Some r) as Hr.
  { unfold read_create_record, dir'. rewrite lookup_insert_eq. cbn [mbind option_bind].
    rewrite from_utf8_utf8 by apply create_json_wf. cbn [mbind option_bind]. apply parse_create_json. }
  split.
  - unfold active_record. cbn [mbind option_bind]. rewrite Hh.
    rewrite (proj2 (N.eqb_neq g 0)) by lia. unfold dir' at 1.
    rewrite lookup_insert_ne by apply create_delete_path.
    by rewrite (fresh_generation _ _ g) by (try lia; by apply parse_delete_path; lia).
  - unfold dir_ok. rewrite Hh. split; [lia|]. rewrite Hr. eauto.
Qed.

Lemma active_delete (dir : cdir) c g :
  g = highest_generation dir → (0 < g ≤ u32_max)%N → dir !! delete_file_path g = None →
  let dir' := <[delete_file_path g := c]> dir in
  active_record (Some dir') = None ∧ dir_ok dir'.
Proof.
  intros Hg Hb Hn dir'. pose proof (parse_delete_path g ltac:(lia)) as Hp.
  assert (highest_generation dir' = g) as Hh.
  { unfold dir'. rewrite (highest_insert _ _ _ g) by done. lia. }
  assert (dir' !! delete_file_path g = Some c) as Hl by apply lookup_insert_eq.
  split.
  - unfold active_record. cbn [mbind option_bind]. rewrite Hh, Hl. by case_match.
  - unfold dir_ok. rewrite Hh, Hl. split; [lia|]. done.
Qed.

(** The target generation of an inactive name is fresh, that of an active one is its own. *)
Lemma target_inactive (dir : cdir) :
  dir_ok dir → active_record (Some dir) = None → (highest_generation dir < u32_max)%N →
  (highest_generation dir < create_target dir ≤ u32_max)%N.
Proof.
  intros [_ Hok]. unfold active_record, create_target. cbn [mbind option_bind]. intros Ha Hlt.
  destruct (N.eqb_spec (highest_generation dir) 0) as [->|Hn]; [unfold u32_max; lia|].
  destruct (dir !! _) eqn:Hd; [|destruct (Hok Hn eq_refl) as [r Hr]; congruence].
  unfold u32_max in *. rewrite add32_small; lia.
Qed.
Lemma target_active (dir : cdir) r :
  active_record (Some dir) = Some r → is_Some (dir !! create_file_path (create_target dir)).
Proof.
  unfold active_record, create_target, read_create_record. cbn [mbind option_bind]. intros Ha.
  case_match; [done|]. case_match; [done|].
  destruct (dir !! create_file_path _); [eauto|done].
Qed.
End spec.

(** ** Properties *)

Section props.
Context {RC : RecordCodec} {RL : RecordCodecLaws}.

Lemma exclusive_fresh (path text : str) (dir : cdir) :
  dir !! path = None → create_exclusive NoFault path text dir = Some (Ok tt, <[path := utf8 text]> dir).
Proof. intros H. unfold create_exclusive. by rewrite H. Qed.
Lemma active_none_cases (dir : cdir) :
  dir_ok dir → active_record (Some dir) = None →
  highest_generation dir = 0%N ∨ is_Some (dir !! delete_file_path (highest_generation dir)).
Proof.
  intros [_ Hok]. unfold active_record. cbn [mbind option_bind].
  destruct (N.eqb_spec (highest_generation dir) 0) as [H|Hn]; [by left|].
  destruct (dir !! _) eqn:Hd; [by right|]. intros Ha. destruct (Hok Hn eq_refl). congruence.
Qed.
Lemma active_some_cases (dir : cdir) r :
  active_record (Some dir) = Some r →
  (highest_generation dir =? 0)%N = false ∧ dir !! delete_file_path (highest_generation dir) = None.
Proof. unfold active_record. cbn [mbind option_bind]. case_match; [done|]. by case_match. Qed.


(** Deleting a checkpoint implements removal of a present key: an inactive name is refused
    without a change, an active one is active no more. *)
Theorem checkpoint_delete_refines now st name :
  store_ok st → is_ok (validate_name name) = true →
  match view st !! name with
  | None => delete NoFault now st name = (Err (CheckpointNotFound name), st)
  | Some _ => ∃ st', delete NoFault now st name = (Ok tt, st') ∧
                view st' = base.delete name (view st) ∧ store_ok st'
  end.
Proof.
  intros Hst Hv. unfold delete. destruct (validate_name name) as [[]|]; [|done].
  rewrite view_at. pose proof (store_ok_dir _ name Hst) as Hok. set (dir := default _ _) in *.
  destruct (active_record (Some dir)) as [r|] eqn:Ha.
  - destruct (active_some_cases _ _ Ha) as [-> Hd]. rewrite Hd.
    pose proof (proj1 Hok) as Hle. destruct (active_some_cases _ _ Ha) as [H0%N.eqb_neq _].
    destruct (active_delete dir (utf8 (delete_json {| dr_name := name; dr_deleted_at_ms := now |}))
      _ eq_refl ltac:(lia) Hd) as [Hr Hok'].
    rewrite exclusive_fresh by done.
    eexists. split; [done|]. split; [by apply view_delete|by apply store_ok_insert].
  - destruct (active_none_cases _ Hok Ha) as [->|[c Hc]]; [done|]. rewrite Hc. by case_match.
Qed.

(** A file of the store. *)
Definition stored (st : store) (name path : str) (c : bytes) : Prop :=
  ∃ dir, st !! name = Some (Some dir) ∧ dir !! path = Some c.
Lemma exclusive_keeps (flt : fault) (path text p : str) (dir dir' : cdir) r c :
  create_exclusive flt path text dir = Some (r, dir') → dir !! p = Some c → dir' !! p = Some c.
Proof.
  unfold create_exclusive. intros H Hp.
  destruct flt, (dir !! path) eqn:Hd; simplify_eq; try done;
    rewrite lookup_insert_ne by congruence; done.
Qed.
Lemma stored_insert st n0 d0 name path c :
  stored st name path c → (∀ dir, st !! n0 = Some (Some dir) → dir !! path = Some c → d0 !! path = Some c) →
  stored (<[n0 := Some d0]> st) name path c.
Proof.
  intros (dir & Hn & Hp) H. destruct (decide (name = n0)) as [->|Hne].
  - exists d0. rewrite lookup_insert_eq. eauto.
  - exists dir. by rewrite lookup_insert_ne.
Qed.

(** No operation ever changes or removes a file of the store, whatever fails on the way: a
    generation's record, once written, survives every later create and delete. *)
Theorem checkpoint_append_only flt now st n seq gen name path c :
  stored st name path c →
  stored (create flt now st n seq gen).2 name path c ∧ stored (delete flt now st n).2 name path c.
Proof.
  intros Hs. unfold create, delete. split.
  - destruct (validate_name n); [|done].
    assert (∀ d, d = default ∅ (mjoin (st !! n)) → stored (match create_exclusive flt
      (create_file_path (create_target d)) (create_json {| cr_name := n; cr_seq := seq;
         cr_created_at_ms := now; cr_wal_generation := gen |}) d with
      | Some (r, dir') => (r, <[n := Some dir']> st)
      | None => (Err (CheckpointDuplicateName n), <[n := Some d]> st) end).2 name path c) as Hc.
    { intros d Hd. destruct (create_exclusive _ _ _ _) as [[r d']|] eqn:He; simpl;
        (apply stored_insert; [done|]); intros dir Hn; rewrite Hn in Hd; simpl in Hd; subst d;
        [by eapply exclusive_keeps|done]. }
    destruct flt, (st !! n) as [[d|]|] eqn:Hn; try done; by apply Hc.
  - destruct (validate_name n); [|done]. case_match; [done|]. case_match; [done|].
    destruct (create_exclusive _ _ _ _) as [[r d']|] eqn:He; [|done]. simpl.
    apply stored_insert; [done|]. intros dir Hd. rewrite Hd in He. by eapply exclusive_keeps.
Qed.

(** A create whose write fails leaves a generation that cannot be read: from then on the name
    is refused as a duplicate, although no listing reports it, until it is deleted. *)
Theorem checkpoint_torn_create now st name seq gen n seq' gen' :
  is_ok (validate_name name) = true → st !! name = None →
  (from_utf8 (take n (utf8 (create_json {| cr_name := name; cr_seq := seq; cr_created_at_ms := now;
     cr_wal_generation := gen |}))) ≫= parse_create) = None →
  let '(r, st1) := create (WriteFails n) now st name seq gen in
  r = Err io_err ∧ view st1 !! name = None ∧
  create NoFault now st1 name seq' gen' = (Err (CheckpointDuplicateName name), st1) ∧
  (delete NoFault now st1 name).1 = Ok tt.
Proof.
  intros Hv Hn Hp. set (rec := Build_CreateRecord name seq now gen) in *.
  set (dir := <[create_file_path 1 := take n (utf8 (create_json rec))]> (∅ : cdir)).
  assert (highest_generation dir = 1%N) as Hh
    by (unfold dir; rewrite (highest_insert _ _ _ 1); [done|done|by apply parse_create_path]).
  assert (dir !! delete_file_path 1 = None) as Hd
    by (unfold dir; by rewrite lookup_insert_ne by apply create_delete_path).
  assert (dir !! create_file_path 1 = Some (take n (utf8 (create_json rec)))) as Hc
    by apply lookup_insert_eq.
  assert (create_target dir = 1%N) as Ht by (unfold create_target; rewrite Hh; simpl; by rewrite Hd).
  assert (create (WriteFails n) now st name seq gen = (Err io_err, <[name := Some dir]> st)) as ->.
  { unfold create. destruct (validate_name name); [|discriminate Hv]. rewrite Hn. cbn [mjoin option_join default from_option].
    change (create_target ∅) with 1%N. unfold create_exclusive. rewrite lookup_empty. reflexivity. }
  unfold create, delete. destruct (validate_name name) as [[]|]; [|discriminate Hv].
  rewrite view_at, lookup_insert_eq. cbn [mjoin option_join default from_option id].
  rewrite Hh, Hd, Ht. cbn [N.eqb Pos.eqb]. split; [done|]. split; [|split].
  - unfold active_record. cbn [mbind option_bind]. rewrite Hh. cbn [N.eqb]. rewrite Hd.
    unfold read_create_record. by rewrite Hc.
  - unfold create_exclusive. by rewrite Hc, insert_insert_eq.
  - by rewrite exclusive_fresh.
Qed.
End props.

Lemma and_iff (P Q R S : Prop) : (P ↔ R) → (Q ↔ S) → P ∧ Q ↔ R ∧ S.
Proof. tauto. Qed.

Section listing.
Context {RC : RecordCodec} {SR : SeqReader} {GC : GenerationCodec} (hash_names : list str → N).

Lemma info_name min max g name r : ci_name (checkpoint_info min max g name r) = name.
Proof. done. Qed.

Definition entry_info (min max : option N) (g : option str) (e : str * option cdir) : option CheckpointInfo :=
  checkpoint_info min max g e.1 <$> active_record e.2.
Lemma entry_infos_names min max g entries :
  sublist (ci_name <$> omap (entry_info min max g) entries) (fst <$> entries).
Proof.
  induction entries as [|[n e] l IH]; [constructor|]. rewrite fmap_cons. cbn [omap list_omap].
  unfold entry_info at 1. cbn [fst snd]. destruct (active_record e); cbn; by constructor.
Qed.

(** A listing holds each active checkpoint exactly once, in the order of the names whatever
    the order of the directory, with the WAL's current bounds; one is reported reachable exactly
    when it covers nothing, or the WAL still starts at 0 and reaches its position, and no two
    known generations disagree. *)
Theorem checkpoint_list_spec st entries window wal wr man target infos man' :
  entries ≡ₚ map_to_list st →
  list_checkpoints hash_names window wal wr man target (Some entries) = (Ok infos, man') →
  ∃ min max man1,
    wal_min_seq hash_names window wal wr man = (Ok min, man1) ∧
    wal_max_seq hash_names window wal wr man1 = (Ok max, man') ∧
    StronglySorted (λ a b, name_leb a b = true) infos ∧ NoDup (ci_name <$> infos) ∧
    (∀ i, i ∈ infos ↔ ∃ name r, view st !! name = Some r ∧
       i = checkpoint_info min max (read_generation target) name r) ∧
    (∀ i, i ∈ infos → ci_reachable i = true ↔
       (∀ n, ci_seq i = Some n → min = Some 0%N ∧ ∃ hi, max = Some hi ∧ (n ≤ hi)%N) ∧
       (∀ g g', ci_wal_generation i = Some g → read_generation target = Some g' → g = g')).
Proof.
  intros Hp. unfold list_checkpoints.
  destruct (wal_min_seq _ _ _ _ _) as [[min|] man1] eqn:Hmin; [|done].
  destruct (wal_max_seq _ _ _ _ _) as [[max|] man2] eqn:Hmax; [|done].
  intros H. assert (infos = sort_by name_leb (omap (entry_info min max (read_generation target)) entries)) as ->.
  { injection H as <- <-. f_equal. clear. induction entries as [|[n e] l IH]; [done|].
    cbn [omap list_omap]. by rewrite IH. }
  injection H as _ <-. exists min, max, man1. split; [done|]. split; [done|].
  set (f := entry_info min max (read_generation target)).
  assert (∀ i, i ∈ sort_by name_leb (omap f entries) ↔ ∃ name r, view st !! name = Some r ∧
       i = checkpoint_info min max (read_generation target) name r) as Hin.
  { intros i. rewrite sort_by_perm, Hp, list_elem_of_omap. unfold f, entry_info, view. split.
    - intros ([n e] & He%elem_of_map_to_list & (r & Hr & ->)%fmap_Some). exists n, r.
      split; [|done]. rewrite lookup_omap. by rewrite He.
    - intros (n & r & Hv & ->). rewrite lookup_omap in Hv. apply bind_Some in Hv as (e & He & Hr).
      exists (n, e). split; [by apply elem_of_map_to_list|]. cbn [fst snd]. by rewrite Hr. }
  split; [|split; [|split; [done|]]].
  - apply sort_by_sorted; unfold name_leb; intros *; [apply str_leb_total|apply str_leb_trans].
  - rewrite sort_by_perm. eapply sublist_NoDup; [|apply entry_infos_names].
    rewrite Hp. apply NoDup_fst_map_to_list.
  - intros i (n & r & _ & ->)%Hin. cbn [checkpoint_info ci_reachable ci_seq ci_wal_generation].
    rewrite andb_true_iff, negb_true_iff. apply and_iff.
    + destruct (cr_seq r) as [s|]; [|naive_solver].
      destruct min as [[|]|], max as [hi|]; rewrite ?N.leb_le; naive_solver.
    + unfold generation_mismatch. destruct (cr_wal_generation r) as [a|], (read_generation target) as [b|];
        try naive_solver.
      rewrite bool_decide_eq_false. split; [|intros H Hne; by apply Hne, H].
      intros Hnn g g' [= <-] [= <-]. by destruct (decide (a = b)).
Qed.
End listing.

(** ** Witnesses *)

(** A concrete codec. *)
Definition ToyRecords : RecordCodec := {|
  create_json r := print_any (cr_name r, cr_seq r, cr_created_at_ms r, cr_wal_generation r);
  delete_json r := print_any (dr_name r, dr_deleted_at_ms r);
  parse_create s := '(n, q, t, g) ← parse_any s; Some (Build_CreateRecord n q t g);
|}.
Global Instance ToyRecordsLaws : @RecordCodecLaws ToyRecords.
Proof.
  split; intros []; unfold create_json, parse_create, ToyRecords; [|apply print_any_wf].
  by rewrite parse_print_any.
Qed.
Definition toy_store : store := (@create ToyRecords NoFault 1 ∅ #"base" (Some 9%N) None).2.
Definition toy_bytes : bytes := utf8 (@create_json ToyRecords (Build_CreateRecord #"base" (Some 9%N) 1 None)).
Definition toy_infos : list CheckpointInfo :=
  [ {| ci_name := #"base"; ci_seq := Some 9%N; ci_reachable := false; ci_wal_min_seq := Some 1%N;
       ci_wal_max_seq := Some 9%N; ci_wal_generation := None |} ].


Lemma checkpoint_delete_refines_witness :
  @delete ToyRecords NoFault 5 ∅ #"base" = (Err (CheckpointNotFound #"base"), ∅).
Proof.
  refine (@checkpoint_delete_refines ToyRecords 5 ∅ #"base" _ _);
    [intros n d H; discriminate H|vm_compute; reflexivity].
Defined.

Lemma checkpoint_append_only_witness :
  stored (@create ToyRecords (WriteFails 1) 2 toy_store #"base" None None).2 #"base" #"g1.create.json" toy_bytes ∧
  stored (@delete ToyRecords (WriteFails 1) 2 toy_store #"base").2 #"base" #"g1.create.json" toy_bytes.
Proof.
  apply (@checkpoint_append_only ToyRecords (WriteFails 1) 2 toy_store #"base" None None
    #"base" #"g1.create.json" toy_bytes).
  eexists. split; [vm_compute; reflexivity|]. vm_compute. reflexivity.
Defined.

Lemma checkpoint_torn_create_witness :
  let '(r, st1) := @create ToyRecords (WriteFails 0) 1 ∅ #"base" (Some 9%N) None in
  r = Err io_err ∧ @view ToyRecords st1 !! #"base" = None ∧
  @create ToyRecords NoFault 1 st1 #"base" None None = (Err (CheckpointDuplicateName #"base"), st1) ∧
  (@delete ToyRecords NoFault 1 st1 #"base").1 = Ok tt.
Proof.
  apply (@checkpoint_torn_create ToyRecords 1 ∅ #"base" (Some 9%N) None 0 None None); vm_compute; reflexivity.
Defined.

Lemma checkpoint_list_spec_witness :
  ∃ min max man1,
    @wal_min_seq DigitReader toy_hash 2 (Some toy_dir) true None = (Ok min, man1) ∧
    @wal_max_seq DigitReader toy_hash 2 (Some toy_dir) true man1 = (Ok max, toy_manifest toy_dir) ∧
    StronglySorted (λ a b, name_leb a b = true) toy_infos ∧ NoDup (ci_name <$> toy_infos) ∧
    (∀ i, i ∈ toy_infos ↔ ∃ name r, @view ToyRecords toy_store !! name = Some r ∧
       i = checkpoint_info min max (@read_generation PlainCodec None) name r) ∧
    (∀ i, i ∈ toy_infos → ci_reachable i = true ↔
       (∀ n, ci_seq i = Some n → min = Some 0%N ∧ ∃ hi, max = Some hi ∧ (n ≤ hi)%N) ∧
       (∀ g g', ci_wal_generation i = Some g → @read_generation PlainCodec None = Some g' → g = g')).
Proof.
  apply (@checkpoint_list_spec ToyRecords DigitReader PlainCodec toy_hash toy_store (map_to_list toy_store)
    2 (Some toy_dir) true None None toy_infos); [reflexivity|vm_compute; reflexivity].
Defined.
