(* ===== verification/WalGroup.v ===== *)
(** * WalGroup: one WAL directory per group (core/src/wal_group.rs)

    The directory-name encoding is a function on texts.  A WAL root is what [read_dir] yields.  The
    migration of a single-stream root is written in a small monad over the root's contents in
    which every file-system call can succeed, fail or be the last one before a crash. *)

From S2P Require Import Prelude Text Numbers WalGeneration WalScan Checkpoint.

(** Source: core/src/wal_group.rs 27-27 (DEFAULT_GROUP_ID) *)
Definition DEFAULT_GROUP_ID : str := #"liminis".
(** Source: core/src/wal_group.rs 33-33 (WAL_BOUNDS_MANIFEST_FILE) *)
Definition WAL_BOUNDS_MANIFEST_FILE : str := #".wal-bounds.json".

(** One byte of a group id. *)
Definition encode_byte (b : N) : str := if is_safe_char b then [b] else 37%N :: hex2_upper b.
(** Source: core/src/wal_group.rs 65-84 (encode_group_dir_name) *)
Definition encode_group_dir_name (group_id : str) : result Error str :=
  match group_id with
  | [] => Err (InvalidGroupId group_id)
  | _ =>
      if is_ok (validate_name group_id) then Ok group_id
      else
        let encoded := flat_map encode_byte (utf8 group_id) in
        if negb (nonempty encoded) || (200 <? byte_len encoded)%N then Err (InvalidGroupId group_id)
        else Ok encoded
  end.

(** The loop over the bytes; [None] is an escape that is not two hex digits. *)
Fixpoint decode_bytes (bs : bytes) : option bytes :=
  match bs with
  | [] => Some []
  | b :: rest =>
      if (b =? 37)%N then
        match rest with
        | h :: l :: rest' =>
            hex ← from_utf8 [h; l];
            byte ← parse_uint 16 255 hex;
            cons byte <$> decode_bytes rest'
        | _ => None
        end
      else cons b <$> decode_bytes rest
  end.
(** Source: core/src/wal_group.rs 91-114 (decode_group_dir_name) *)
Definition decode_group_dir_name (dir_name : str) : result Error str :=
  if negb (contains_char 37 dir_name) then Ok dir_name
  else
    match decode_bytes (utf8 dir_name) ≫= from_utf8 with
    | Some s => Ok s
    | None => Err (InvalidGroupId dir_name)
    end.

(** What [read_dir] yields for a WAL root, entry by entry: an unreadable entry, or a name (if it
    is text) and whether it is a directory. *)
Inductive rentry := RErr | REntry (name : option str) (is_dir : bool).
Global Instance rentry_eq_dec : EqDecision rentry.
Proof. solve_decision. Defined.
Inductive wroot := RootAbsent | RootUnlistable | Root (entries : list rentry).

(** [eq_ignore_ascii_case] *)
Definition eq_ignore_ascii_case (a b : str) : bool := bool_decide (ascii_lower <$> a = ascii_lower <$> b).
Definition collision_msg (dir_name existing : str) : msg := Msg "cannot create WAL directory" [AStr dir_name; AStr existing].

(** Source: core/src/wal_group.rs 148-168 (check_no_case_insensitive_collision) *)
Fixpoint collision_loop (dir_name : str) (entries : list rentry) : result Error unit :=
  match entries with
  | [] => Ok tt
  | RErr :: _ => Err io_err
  | REntry (Some existing_name) true :: rest =>
      if bool_decide (existing_name = dir_name) then Ok tt
      else if eq_ignore_ascii_case existing_name dir_name then Err (Ipc (collision_msg dir_name existing_name))
      else collision_loop dir_name rest
  | REntry _ _ :: rest => collision_loop dir_name rest
  end.
(** Source: core/src/wal_group.rs 138-170 (check_no_case_insensitive_collision) *)
Definition check_no_case_insensitive_collision (root : wroot) (dir_name : str) : result Error unit :=
  match root with
  | RootAbsent => Ok tt
  | RootUnlistable => Err io_err
  | Root entries => collision_loop dir_name entries
  end.

(** Source: core/src/wal_group.rs 193-207 (list_group_wal_dirs) *)
Fixpoint list_loop (entries : list rentry) : result Error (list (str * str)) :=
  match entries with
  | [] => Ok []
  | RErr :: _ => Err io_err
  | REntry (Some name) true :: rest =>
      let? out := list_loop rest in
      Ok (match decode_group_dir_name name with
          | Ok group_id =>
              if bool_decide (encode_group_dir_name group_id = Ok name) then (group_id, name) :: out else out
          | Err _ => out
          end)
  | REntry _ _ :: rest => list_loop rest
  end.
(** Source: core/src/wal_group.rs 188-209 (list_group_wal_dirs) *)
Definition list_group_wal_dirs (root : wroot) : result Error (list (str * str)) :=
  match root with
  | RootAbsent => Ok []
  | RootUnlistable => Err io_err
  | Root entries => list_loop entries
  end.

(** ** The encoding *)

Lemma safe_char_ascii c : is_safe_char c = true → is_ascii c = true.
Proof.
  unfold is_safe_char, is_ascii_alnum, is_ascii_alpha, is_ascii_upper, is_ascii_lower, is_ascii_digit,
    in_range, is_ascii.
  rewrite !orb_true_iff, !andb_true_iff, !N.leb_le, !N.eqb_eq, N.ltb_lt. lia.
Qed.
Lemma safe_char_not_percent c : is_safe_char c = true → c ≠ 37%N.
Proof. by intros H ->. Qed.
Lemma safe_utf8 s : forallb is_safe_char s = true → utf8 s = s.
Proof.
  intros H. apply utf8_ascii. apply forallb_forall. intros c Hc.
  apply safe_char_ascii. by eapply forallb_forall in H.
Qed.
Lemma hex_digit_upper_safe d : (d < 16)%N → is_safe_char (hex_digit_upper d) = true.
Proof. intros H. do 16 (destruct d as [|d] using N.peano_ind; [reflexivity|clear IHd]; try lia).
  all: lia.
Qed.

Lemma hex2_safe b : (b < 256)%N → forallb is_safe_char (hex2_upper b) = true.
Proof.
  intros Hb. unfold hex2_upper. cbn [forallb].
  rewrite (hex_digit_upper_safe (b / 16)), (hex_digit_upper_safe (b mod 16)) by lia. done.
Qed.
Lemma safe_ascii s : forallb is_safe_char s = true → forallb is_ascii s = true.
Proof. rewrite !forallb_forall. intros H c Hc. by apply safe_char_ascii, H. Qed.
Lemma ascii_wf s : forallb is_ascii s = true → wf_str s.
Proof.
  intros H. apply Forall_forall. intros c Hc. apply list_elem_of_In in Hc.
  eapply forallb_forall in H; [|exact Hc]. unfold is_ascii in H. apply N.ltb_lt in H.
  unfold is_scalar. by rewrite (proj2 (N.ltb_lt c 0xD800)) by lia.
Qed.
Lemma from_utf8_ascii s : forallb is_ascii s = true → from_utf8 s = Some s.
Proof. intros H. rewrite <- (utf8_ascii s H) at 1. by apply from_utf8_utf8, ascii_wf. Qed.

Lemma encode_byte_safe b : is_safe_char b = true → encode_byte b = [b].
Proof. intros H. unfold encode_byte. by rewrite H. Qed.
Lemma encode_byte_ascii b : (b < 256)%N → forallb is_ascii (encode_byte b) = true.
Proof.
  intros Hb. unfold encode_byte. destruct (is_safe_char b) eqn:Hs; simpl.
  - by rewrite safe_char_ascii.
  - apply (safe_ascii (hex2_upper b)), hex2_safe, Hb.
Qed.

Lemma encode_byte_charset b :
  (b < 256)%N → forallb (λ c, is_safe_char c || (c =? 37)%N) (encode_byte b) = true.
Proof.
  intros Hb. unfold encode_byte. destruct (is_safe_char b) eqn:Hs; cbn [forallb]; [by rewrite Hs|].
  apply forallb_forall. intros c Hc. pose proof (hex2_safe b Hb) as Hh.
  rewrite forallb_forall in Hh. by rewrite (Hh c Hc).
Qed.

Lemma decode_encode_bytes bs :
  Forall (λ b, b < 256)%N bs → decode_bytes (flat_map encode_byte bs) = Some bs.
Proof.
  induction 1 as [|b bs Hb _ IH]; [done|]. cbn [flat_map]. unfold encode_byte at 1.
  destruct (is_safe_char b) eqn:Hs; cbn [app decode_bytes].
  - rewrite (proj2 (N.eqb_neq b 37)) by (by apply safe_char_not_percent). by rewrite IH.
  - rewrite N.eqb_refl. cbn [hex2_upper app].
    rewrite from_utf8_ascii by (apply (safe_ascii (hex2_upper b)), hex2_safe, Hb).
    cbn [mbind option_bind]. fold (hex2_upper b). rewrite parse_hex2_upper by done.
    cbn [mbind option_bind]. by rewrite IH.
Qed.
Lemma no_percent_safe bs :
  contains_char 37 (flat_map encode_byte bs) = false → flat_map encode_byte bs = bs.
Proof.
  induction bs as [|b bs IH]; [done|]. cbn [flat_map]. unfold contains_char. rewrite existsb_app, orb_false_iff.
  intros [Hb Hbs]. unfold encode_byte in *. destruct (is_safe_char b); [|done].
  simpl. f_equal. by apply IH.
Qed.
Lemma utf8_bytes s : wf_str s → Forall (λ b, b < 256)%N (utf8 s).
Proof.
  intros Hs. unfold utf8. induction Hs as [|c s Hc _ IH]; [constructor|]. simpl.
  apply Forall_app. split; [|done]. apply Forall_forall. intros b. by apply utf8_char_bytes.
Qed.
Lemma encoded_ascii s : wf_str s → forallb is_ascii (flat_map encode_byte (utf8 s)) = true.
Proof.
  intros Hs. induction (utf8_bytes s Hs) as [|b bs Hb _ IH]; [done|].
  cbn [flat_map]. by rewrite forallb_app, encode_byte_ascii.
Qed.

Lemma validate_name_ok name :
  is_ok (validate_name name) = true →
  name ≠ [] ∧ (byte_len name ≤ 200)%N ∧ forallb is_safe_char name = true.
Proof.
  unfold validate_name. destruct name as [|c s]; [done|]. simpl nonempty.
  destruct (N.leb_spec (byte_len (c :: s)) 200); [|done]. by destruct (forallb is_safe_char (c :: s)).
Qed.

(** Every way [encode_group_dir_name] succeeds. *)
Lemma encode_cases gid d :
  encode_group_dir_name gid = Ok d → gid ≠ [] ∧
  ((d = gid ∧ is_ok (validate_name gid) = true) ∨
   (d = flat_map encode_byte (utf8 gid) ∧ d ≠ [] ∧ (byte_len d ≤ 200)%N)).
Proof.
  unfold encode_group_dir_name. destruct gid as [|c s]; [done|]. intros H. split; [done|].
  destruct (is_ok (validate_name (c :: s))); [left; by injection H as <-|right].
  destruct (flat_map _ _) as [|e es] eqn:He; [done|]. cbn [nonempty negb orb] in H.
  destruct (N.ltb_spec 200 (byte_len (e :: es))); [done|]. by injection H as <-.
Qed.

Lemma encode_decode gid d :
  wf_str gid → encode_group_dir_name gid = Ok d →
  decode_group_dir_name d = Ok gid ∧ forallb (λ c, is_safe_char c || (c =? 37)%N) d = true.
Proof.
  intros Hwf Henc. destruct (encode_cases _ _ Henc) as [_ [[-> Hv]|(-> & Hne & Hlen)]].
  - destruct (validate_name_ok _ Hv) as (Hne & Hlen & Hsafe).
    assert (contains_char 37 gid = false) as Hp.
    { destruct (contains_char 37 gid) eqn:Hc; [|done]. apply existsb_exists in Hc as (c & Hin & <-%N.eqb_eq).
      by eapply forallb_forall in Hsafe; [|exact Hin]. }
    split.
    + unfold decode_group_dir_name. by rewrite Hp.
    + rewrite forallb_forall in Hsafe |- *. intros c Hc. by rewrite Hsafe.
  - split.
    + unfold decode_group_dir_name. destruct (contains_char 37 _) eqn:Hp; cbn [negb].
      * rewrite utf8_ascii by (by apply encoded_ascii). rewrite decode_encode_bytes by (by apply utf8_bytes).
        cbn [mbind option_bind]. by rewrite from_utf8_utf8.
      * pose proof (encoded_ascii gid Hwf) as Ha. rewrite (no_percent_safe _ Hp) in Ha |- *.
        pose proof (from_utf8_ascii _ Ha) as H1. rewrite from_utf8_utf8 in H1 by done. congruence.
    + clear Henc Hne Hlen. induction (utf8_bytes gid Hwf) as [|b bs Hb _ IH]; [done|].
      cbn [flat_map]. rewrite forallb_app, IH, andb_true_r by done. apply encode_byte_charset, Hb.
Qed.
(** A group's directory name decodes to the group it was made for, so two groups never share a
    directory; the name is a single safe path component of at most 200 bytes. *)
Theorem group_dir_name_roundtrip gid d :
  wf_str gid → encode_group_dir_name gid = Ok d →
  decode_group_dir_name d = Ok gid ∧ d ≠ [] ∧ (byte_len d ≤ 200)%N ∧
  forallb (λ c, is_safe_char c || (c =? 37)%N) d = true.
Proof.
  intros Hwf Henc. destruct (encode_decode _ _ Hwf Henc) as [Hd Hs].
  split; [done|]. destruct (encode_cases _ _ Henc) as [_ [[-> Hv]|(-> & Hne & Hlen)]]; [|done].
  by destruct (validate_name_ok _ Hv) as (Hne & Hlen & _).
Qed.

Lemma collision_loop_ok d entries :
  collision_loop d entries = Ok tt → REntry (Some d) true ∉ entries →
  ∀ e, REntry (Some e) true ∈ entries → eq_ignore_ascii_case e d = false.
Proof.
  induction entries as [|[|[n|] []] rest IH]; cbn [collision_loop]; [set_solver|done| | | |].
  2-4: intros H Hn e [|He]%elem_of_cons; [done|]; apply IH; [done| |done]; set_solver.
  case_bool_decide as Hd; [subst n; set_solver|].
  destruct (eq_ignore_ascii_case n d) eqn:Hc; [done|]. intros H Hn e [[= ->]|He]%elem_of_cons; [done|].
  apply IH; [done| |done]. set_solver.
Qed.

(** What the listing loop keeps. *)
Lemma list_loop_spec entries out :
  list_loop entries = Ok out →
  (∀ gid name, (gid, name) ∈ out → REntry (Some name) true ∈ entries ∧ encode_group_dir_name gid = Ok name) ∧
  (∀ gid name, wf_str gid → REntry (Some name) true ∈ entries → encode_group_dir_name gid = Ok name →
     (gid, name) ∈ out).
Proof.
  revert out. induction entries as [|[|[n|] []] rest IH]; cbn [list_loop]; intros out H.
  - injection H as <-. set_solver.
  - done.
  - apply rbind_ok in H as (o & Ho & [= <-]). destruct (IH _ Ho) as [H1 H2]. split.
    + intros gid name Hin. destruct (decode_group_dir_name n) as [g|]; [|set_solver].
      case_bool_decide as He; [|set_solver]. apply elem_of_cons in Hin as [[= -> ->]|Hin]; set_solver.
    + intros gid name Hwf [[= ->]|Hin]%elem_of_cons He.
      * destruct (encode_decode gid n Hwf He) as [-> _]. rewrite bool_decide_eq_true_2 by done. by left.
      * pose proof (H2 _ _ Hwf Hin He). destruct (decode_group_dir_name n); [|done].
        case_bool_decide; [by right|done].
  - destruct (IH _ H). set_solver.
  - destruct (IH _ H). set_solver.
  - destruct (IH _ H). set_solver.
Qed.

(** Enumerating a root yields exactly the directories that are the directory of some group,
    each with that group: housekeeping directories and undecodable names never appear. *)
Theorem list_group_wal_dirs_spec entries out :
  list_group_wal_dirs (Root entries) = Ok out →
  (∀ gid name, (gid, name) ∈ out → REntry (Some name) true ∈ entries ∧ encode_group_dir_name gid = Ok name) ∧
  (∀ gid name, wf_str gid → REntry (Some name) true ∈ entries → encode_group_dir_name gid = Ok name →
     (gid, name) ∈ out).
Proof. apply list_loop_spec. Qed.

(** When the collision check lets a new directory be created, no directory of the root differs
    from it by letter case only, so on a case-insensitive file system it is a directory of its
    own. *)
Theorem case_collision_check_sound entries d :
  check_no_case_insensitive_collision (Root entries) d = Ok tt →
  REntry (Some d) true ∈ entries ∨
  (∀ e, REntry (Some e) true ∈ entries → ascii_lower <$> e ≠ ascii_lower <$> d).
Proof.
  intros H. destruct (decide (REntry (Some d) true ∈ entries)) as [Hd|Hd]; [by left|right].
  intros e He Heq. pose proof (collision_loop_ok _ _ H Hd e He) as Hc.
  unfold eq_ignore_ascii_case in Hc. by rewrite bool_decide_eq_true_2 in Hc.
Qed.

(** ** Witnesses *)

Definition toy_entries : list rentry :=
  [REntry (Some #".checkpoints") true; REntry (Some #"liminis") true; REntry (Some #"a%2Fb") true;
   REntry (Some #"x.jsonl") false; REntry None true].

Lemma group_dir_name_roundtrip_witness :
  decode_group_dir_name #"a%2Fb%25" = Ok #"a/b%" ∧ #"a%2Fb%25" ≠ [] ∧ (byte_len #"a%2Fb%25" ≤ 200)%N ∧
  forallb (λ c, is_safe_char c || (c =? 37)%N) #"a%2Fb%25" = true.
Proof.
  apply (group_dir_name_roundtrip #"a/b%" #"a%2Fb%25"); [|vm_compute; reflexivity].
  by apply ascii_wf.
Defined.

Lemma list_group_wal_dirs_spec_witness :
  (∀ gid name, (gid, name) ∈ [(#"liminis", #"liminis"); (#"a/b", #"a%2Fb")] →
     REntry (Some name) true ∈ toy_entries ∧ encode_group_dir_name gid = Ok name) ∧
  (∀ gid name, wf_str gid → REntry (Some name) true ∈ toy_entries → encode_group_dir_name gid = Ok name →
     (gid, name) ∈ [(#"liminis", #"liminis"); (#"a/b", #"a%2Fb")]).
Proof. apply (list_group_wal_dirs_spec toy_entries). vm_compute. reflexivity. Defined.

Lemma case_collision_check_sound_witness :
  REntry (Some #"acme") true ∈ toy_entries ∨
  (∀ e, REntry (Some e) true ∈ toy_entries → ascii_lower <$> e ≠ ascii_lower <$> #"acme").
Proof. apply (case_collision_check_sound toy_entries #"acme"). vm_compute. reflexivity. Defined.
