(* ===== verification/WalMigrate.v ===== *)
(** * WalMigrate: moving a single-stream WAL root into its group (core/src/wal_group.rs)

    The state is the root's own entries and those of the default group's directory.  Every call
    that changes the disk consumes one verdict: it takes effect, it fails, or the process dies
    before it.  With the verdicts used up, calls succeed. *)

From S2P Require Import Prelude Text WalGeneration WalScan Checkpoint WalGroup.

Inductive verdict := VOk | VFail | VCrash.
(** How a run ends. *)
Inductive out (A : Type) := Done (a : A) | Raised (e : Error) | Crashed.
Arguments Done {A} a.
Arguments Raised {A} e.
Arguments Crashed {A}.

(** A file by its text, or a directory by its content, which is moved as a whole. *)
Inductive node := NFile (text : str) | NDir (content : store).
Global Instance node_eq_dec : EqDecision node.
Proof. solve_decision. Defined.

(** The root without the default group's directory, and that directory. *)
Record mfs := MFS { top : gmap str node; dflt : option (gmap str node) }.

Definition M (A : Type) : Type := list verdict → mfs → out A * list verdict * mfs.
Definition mret {A} (a : A) : M A := λ vs st, (Done a, vs, st).
Definition mraise {A} (e : Error) : M A := λ vs st, (Raised e, vs, st).
Definition mbnd {A B} (m : M A) (k : A → M B) : M B := λ vs st,
  match m vs st with
  | (Done a, vs, st) => k a vs st
  | (Raised e, vs, st) => (Raised e, vs, st)
  | (Crashed, vs, st) => (Crashed, vs, st)
  end.
Notation "'let!' x := m 'in' k" := (mbnd m (λ x, k)) (at level 200, x name, m at level 100, k at level 200).
Notation "m ;;; k" := (mbnd m (λ _, k)) (at level 100, k at level 200, right associativity).
(** One call of the file system. *)
Definition io {A} (f : mfs → result Error (A * mfs)) : M A := λ vs st,
  match vs with
  | VFail :: vs => (Raised io_err, vs, st)
  | VCrash :: vs => (Crashed, vs, st)
  | _ => match f st with Ok (a, st') => (Done a, tail vs, st') | Err e => (Raised e, tail vs, st) end
  end.

(** Source: core/src/wal_group.rs 217-228 (is_legacy_top_level_wal_artifact) *)
Definition is_legacy_top_level_wal_artifact (name : str) (x : node) : bool :=
  match x with
  | NDir _ => bool_decide (name = CHECKPOINTS_DIR_NAME)
  | NFile _ =>
      ends_with #".jsonl" name
      || bool_decide (name = WAL_BOUNDS_MANIFEST_FILE)
      || (starts_with #".wal-bounds." name && ends_with #".tmp" name)
      || bool_decide (name = WAL_GENERATION_FILE)
  end.
Definition is_loose (st : mfs) (name : str) : bool :=
  match top st !! name with Some x => is_legacy_top_level_wal_artifact name x | None => false end.

(** An entry of the default group's directory. *)
Definition dest (st : mfs) (name : str) : option node := dflt st ≫= (.!! name).
Definition set_dest (name : str) (x : option node) (st : mfs) : mfs :=
  MFS (top st) (Some (partial_alter (λ _, x) name (default ∅ (dflt st)))).
Definition drop_top (name : str) (st : mfs) : mfs := MFS (base.delete name (top st)) (dflt st).

Definition create_default_dir : M unit :=
  io (λ st, Ok (tt, MFS (top st) (Some (default ∅ (dflt st))))).
(** [false]: the target already exists. *)
Definition hard_link (name : str) : M bool :=
  io (λ st, match top st !! name, dest st name with
            | None, _ => Err io_err
            | Some _, Some _ => Ok (false, st)
            | Some x, None => Ok (true, set_dest name (Some x) st)
            end).
Definition remove_file (name : str) : M unit :=
  io (λ st, match top st !! name with Some (NFile _) => Ok (tt, drop_top name st) | _ => Err io_err end).
Definition rename (name : str) : M unit :=
  io (λ st, match top st !! name with
            | Some x => Ok (tt, drop_top name (set_dest name (Some x) st))
            | None => Err io_err
            end).
Definition node_text (x : option node) : option str := match x with Some (NFile c) => Some c | _ => None end.

(** The two sidecars' contents, when both can be read. *)
Definition read_both : M (str * str) := λ vs st,
  match node_text (top st !! WAL_GENERATION_FILE), node_text (dest st WAL_GENERATION_FILE) with
  | Some a, Some b => (Done (a, b), vs, st)
  | _, _ => (Raised io_err, vs, st)
  end.
Definition disagree_msg : msg := Msg "cannot migrate WAL root" [].

(** Source: core/src/wal_group.rs 301-337 (migrate_wal_root_if_needed) *)
Definition relocate_generation : M unit :=
  let! linked := hard_link WAL_GENERATION_FILE in
  if linked then remove_file WAL_GENERATION_FILE
  else
    let! both := read_both in
    if bool_decide (both.1 = both.2) then remove_file WAL_GENERATION_FILE
    else mraise (Ipc disagree_msg).

Section migrate.
Context {GC : GenerationCodec}.

(** The mint, taken as one step. *)
Definition ensure_default (a1 a2 : attempt) : M unit :=
  io (λ st,
    match dest st WAL_GENERATION_FILE with
    | Some (NDir _) => Err (WalIo unreadable_msg)
    | x =>
        match ensure_generation a1 a2 (node_text x) with
        | (Ok _, t) => Ok (tt, set_dest WAL_GENERATION_FILE (NFile <$> t) st)
        | (Err e, _) => Err e
        end
    end).

(** Source: core/src/wal_group.rs 340-350 (migrate_wal_root_if_needed) *)
Fixpoint move_all (names : list str) : M unit :=
  match names with
  | [] => mret tt
  | name :: names =>
      (λ vs st, match dest st name with Some _ => mret tt vs st | None => rename name vs st end) ;;;
      move_all names
  end.

(** [names] is what [read_dir] yields; [None] is a root that does not exist.
    Source: core/src/wal_group.rs 276-352 (migrate_wal_root_if_needed) *)
Definition migrate_wal_root_if_needed (a1 a2 : attempt) (names : option (list str)) : M unit := λ vs st,
  match names with
  | None => mret tt vs st
  | Some names =>
      let loose := List.filter (is_loose st) names in
      match loose with
      | [] => mret tt vs st
      | _ =>
          (create_default_dir ;;;
           (if bool_decide (WAL_GENERATION_FILE ∈ loose) then relocate_generation else mret tt) ;;;
           ensure_default a1 a2 ;;;
           move_all loose) vs st
      end
  end.
End migrate.

(** ** What a run keeps *)

(** Where an artifact of the original root can be. *)
Definition placed (st : mfs) (name : str) (x : node) : Prop :=
  (top st !! name = Some x ∧ (dest st name = None ∨ name = WAL_GENERATION_FILE ∧ dest st name = Some x)) ∨
  (top st !! name = None ∧ dest st name = Some x).

Section keep.
Context {GC : GenerationCodec}.

(** Relative to the root [orig] a migration started from: nothing else of the root has changed,
    every artifact is at the root or in the group's directory, unchanged, and what stands at the
    group's sidecar path is a file. *)
Definition kept (orig : gmap str node) (st : mfs) : Prop :=
  (∀ n x, orig !! n = Some x → is_legacy_top_level_wal_artifact n x = false → top st !! n = Some x) ∧
  (∀ n x, top st !! n = Some x → orig !! n = Some x) ∧
  (∀ n x, orig !! n = Some x → is_legacy_top_level_wal_artifact n x = true → placed st n x) ∧
  (∀ c, orig !! WAL_GENERATION_FILE = Some (NFile c) → is_Some (read_generation (Some c))) ∧
  (∀ t, dest st WAL_GENERATION_FILE ≠ Some (NDir t)).

Context (orig : gmap str node).

(** [m] keeps the root whatever its verdicts, and establishes [Q] when it returns. *)
Definition keeps {A : Type} (P : mfs → Prop) (m : M A) (Q : A → mfs → Prop) : Prop :=
  ∀ vs st, kept orig st → P st →
    let '(o, _, st') := m vs st in kept orig st' ∧ (∀ a, o = Done a → Q a st').
(** With calls that succeed, [m] returns and establishes [Q]. *)
Definition completes {A : Type} (P : mfs → Prop) (m : M A) (Q : A → mfs → Prop) : Prop :=
  ∀ st, kept orig st → P st → ∃ a st', m [] st = (Done a, [], st') ∧ Q a st'.

Lemma keeps_ret {A : Type} (a : A) (Q : A → mfs → Prop) : keeps (Q a) (mret a) Q.
Proof. intros vs st H HQ. simpl. split; [done|]. by intros ? [= <-]. Qed.
Lemma keeps_bnd {A B : Type} P Q R (m : M A) (k : A → M B) :
  keeps P m Q → (∀ a, keeps (Q a) (k a) R) → keeps P (mbnd m k) R.
Proof.
  intros Hm Hk vs st H HP. unfold mbnd. specialize (Hm vs st H HP).
  destruct (m vs st) as [[[a|e|] vs'] st'], Hm as [H' HQ]; [|by split..].
  apply Hk; [done|by apply HQ].
Qed.
Lemma keeps_io {A : Type} (P : mfs → Prop) (f : mfs → result Error (A * mfs)) Q :
  (∀ st a st', kept orig st → P st → f st = Ok (a, st') → kept orig st' ∧ Q a st') → keeps P (io f) Q.
Proof.
  intros Hf vs st H HP. unfold io.
  destruct vs as [|[] vs]; simpl; try (by split); destruct (f st) as [[a st']|e] eqn:He; try (by split);
    (split; [by eapply Hf|intros ? [= <-]; by eapply Hf]).
Qed.
Lemma completes_bnd {A B : Type} P Q R (m : M A) (k : A → M B) :
  keeps P m Q → completes P m Q → (∀ a, completes (Q a) (k a) R) → completes P (mbnd m k) R.
Proof.
  intros Hs Hm Hk st H HP. destruct (Hm st H HP) as (a & st' & Hr & HQ). specialize (Hs [] st H HP).
  rewrite Hr in Hs. destruct Hs as [H' _]. destruct (Hk a st' H' HQ) as (b & st2 & Hr2 & HR).
  exists b, st2. split; [|done]. unfold mbnd. by rewrite Hr.
Qed.
Lemma completes_io {A : Type} (P : mfs → Prop) (f : mfs → result Error (A * mfs)) Q :
  (∀ st, kept orig st → P st → ∃ a st', f st = Ok (a, st') ∧ Q a st') → completes P (io f) Q.
Proof.
  intros Hf st H HP. destruct (Hf st H HP) as (a & st' & He & HQ). exists a, st'.
  unfold io. by rewrite He.
Qed.

Lemma dest_set (st : mfs) (n m : str) (x : option node) :
  dest (set_dest n x st) m = if decide (m = n) then x else dest st m.
Proof.
  unfold dest, set_dest. simpl. destruct (decide (m = n)) as [->|Hne].
  - apply lookup_partial_alter_eq.
  - rewrite lookup_partial_alter_ne by done. by destruct (dflt st).
Qed.
Lemma dest_drop (st : mfs) (n m : str) : dest (drop_top n st) m = dest st m.
Proof. done. Qed.

(** The same root, and a group directory that lost nothing. *)
Lemma kept_dest (st st' : mfs) :
  kept orig st → top st' = top st →
  (∀ n x, is_legacy_top_level_wal_artifact n x = true → placed st n x → orig !! n = Some x → placed st' n x) →
  (∀ t, dest st' WAL_GENERATION_FILE ≠ Some (NDir t)) → kept orig st'.
Proof.
  intros (H1 & H2 & H3 & H4 & H5) Ht Hp Hd. split; [|split; [|split; [|split]]]; [by rewrite Ht..| |done|done].
  intros n x Hn Hl. apply Hp; [done|by apply H3|done].
Qed.
(** An artifact that is in the group's directory can leave the root. *)
Lemma kept_drop (st st' : mfs) (n : str) (x : node) :
  kept orig st → top st !! n = Some x → is_legacy_top_level_wal_artifact n x = true →
  top st' = base.delete n (top st) → dest st' n = Some x → (∀ m, m ≠ n → dest st' m = dest st m) →
  kept orig st'.
Proof.
  intros (H1 & H2 & H3 & H4 & H5) Hn Hl Ht Hd Hm. split; [|split; [|split; [|split]]]; [| | |done|].
  - intros m y Hy Hf. rewrite Ht, lookup_delete_ne; [by apply H1|].
    intros <-. pose proof (H2 _ _ Hn). congruence.
  - intros m y. rewrite Ht, lookup_delete_Some. naive_solver.
  - intros m y Hy Hf. unfold placed. rewrite Ht. destruct (decide (m = n)) as [->|Hne].
    + right. rewrite lookup_delete_eq. split; [done|]. pose proof (H2 _ _ Hn). congruence.
    + rewrite lookup_delete_ne, Hm by done. by apply H3.
  - destruct (decide (n = WAL_GENERATION_FILE)) as [->|Hne]; [|by rewrite Hm by done].
    intros t. rewrite Hd. intros [= ->]. discriminate Hl.
Qed.

(** ** The steps of a migration *)

Definition settled (st : mfs) : Prop := ∀ c, top st !! WAL_GENERATION_FILE ≠ Some (NFile c).
Definition loose_gen (st : mfs) : Prop := ∃ c, top st !! WAL_GENERATION_FILE = Some (NFile c).
Definition both_gens (st : mfs) : Prop :=
  ∃ c, top st !! WAL_GENERATION_FILE = Some (NFile c) ∧ dest st WAL_GENERATION_FILE = Some (NFile c).

Lemma gen_legacy c : is_legacy_top_level_wal_artifact WAL_GENERATION_FILE (NFile c) = true.
Proof. reflexivity. Qed.
Lemma loose_placed st c :
  kept orig st → top st !! WAL_GENERATION_FILE = Some (NFile c) →
  dest st WAL_GENERATION_FILE = None ∨ dest st WAL_GENERATION_FILE = Some (NFile c).
Proof.
  intros (_ & H2 & H3 & _) Ht. destruct (H3 _ _ (H2 _ _ Ht) (gen_legacy c)) as [[_ [?|[_ ?]]]|[? _]]; auto.
  congruence.
Qed.

Lemma create_dir_step (P : mfs → Prop) :
  (∀ st st', top st' = top st → P st → P st') →
  keeps P create_default_dir (λ _, P) ∧ completes P create_default_dir (λ _, P).
Proof.
  intros HP. assert (∀ st n, dest (MFS (top st) (Some (default ∅ (dflt st)))) n = dest st n) as Hd.
  { intros st n. unfold dest. simpl. destruct (dflt st); [done|]. apply lookup_empty. }
  split.
  - apply keeps_io. intros st a st' Hk Hp [= _ <-]. split; [|by apply (HP st)].
    apply (kept_dest st); [done|done| |rewrite Hd; by destruct Hk as (_ & _ & _ & _ & ?)].
    unfold placed. simpl. intros n x. by rewrite Hd.
  - apply completes_io. intros st Hk Hp. do 2 eexists. split; [done|]. by apply (HP st).
Qed.

Lemma hard_link_step :
  keeps loose_gen (hard_link WAL_GENERATION_FILE) (λ _, both_gens) ∧
  completes loose_gen (hard_link WAL_GENERATION_FILE) (λ _, both_gens).
Proof.
  assert (∀ st c, dest (set_dest WAL_GENERATION_FILE (Some (NFile c)) st) WAL_GENERATION_FILE = Some (NFile c))
    as Hd by (intros; rewrite dest_set; by case_decide).
  split.
  - apply keeps_io. intros st a st' Hk [c Hc]. rewrite Hc.
    destruct (loose_placed _ _ Hk Hc) as [Hn|Hn]; rewrite Hn; intros [= <- <-].
    + split; [|exists c; by rewrite Hd].
      apply (kept_dest st); [done|done| |intros t; by rewrite Hd].
      intros n x Hl Hp Ho. unfold placed in *. rewrite dest_set. simpl. case_decide as Hnn; [subst n|done].
      left. rewrite Hc. pose proof (proj1 (proj2 Hk) _ _ Hc). simplify_eq. auto.
    + split; [done|]. by exists c.
  - apply completes_io. intros st Hk [c Hc]. rewrite Hc.
    destruct (loose_placed _ _ Hk Hc) as [Hn|Hn]; rewrite Hn; do 2 eexists; (split; [done|]).
    + exists c. by rewrite Hd.
    + by exists c.
Qed.

Lemma remove_step :
  keeps both_gens (remove_file WAL_GENERATION_FILE) (λ _, settled) ∧
  completes both_gens (remove_file WAL_GENERATION_FILE) (λ _, settled).
Proof.
  assert (∀ st, settled (drop_top WAL_GENERATION_FILE st)) as Hs
    by (intros st c; simpl; by rewrite lookup_delete_eq).
  split.
  - apply keeps_io. intros st a st' Hk (c & Hc & Hd). rewrite Hc. intros [= _ <-].
    split; [|apply Hs]. by eapply (kept_drop st _ WAL_GENERATION_FILE).
  - apply completes_io. intros st Hk (c & Hc & Hd). rewrite Hc. do 2 eexists. split; [done|]. apply Hs.
Qed.

Lemma relocate_step :
  keeps loose_gen relocate_generation (λ _, settled) ∧
  completes loose_gen relocate_generation (λ _, settled).
Proof.
  assert (keeps both_gens read_both (λ p st, both_gens st ∧ p.1 = p.2)) as Hr.
  { intros vs st Hk HP. unfold read_both. destruct HP as (c & Hc & Hd). rewrite Hc, Hd. simpl.
    split; [done|]. intros ? [= <-]. split; [by exists c|done]. }
  assert (completes both_gens read_both (λ p st, both_gens st ∧ p.1 = p.2)) as Hrc.
  { intros st Hk (c & Hc & Hd). unfold read_both. rewrite Hc, Hd. simpl. do 2 eexists.
    split; [done|]. split; [by exists c|done]. }
  destruct hard_link_step as [Hk Hc], remove_step as [Hrk Hrm].
  assert (∀ p : str * str, keeps (λ st, both_gens st ∧ p.1 = p.2)
    (if bool_decide (p.1 = p.2) then remove_file WAL_GENERATION_FILE else mraise (Ipc disagree_msg)) (λ _, settled)) as H1.
  { intros p vs st H [Hb He]. rewrite bool_decide_eq_true_2 by done. by apply Hrk. }
  split.
  - eapply keeps_bnd; [exact Hk|]. intros [|]; [exact Hrk|]. eapply keeps_bnd; [exact Hr|]. exact H1.
  - eapply completes_bnd; [exact Hk|exact Hc|]. intros [|]; [exact Hrm|].
    eapply completes_bnd; [exact Hr|exact Hrc|]. intros p st H [Hb He].
    rewrite bool_decide_eq_true_2 by done. by apply Hrm.
Qed.

Lemma ensure_readable a1 a2 t g :
  read_generation t = Some g → ensure_generation a1 a2 t = (Ok g, t).
Proof. intros H. unfold ensure_generation, ensure_attempt. by rewrite H. Qed.

(** A mint whose own calls do not fail. *)
Definition quiet_attempt (a : attempt) : Prop :=
  att_tmp_err a = None ∧ att_link_err a = None ∧ att_rm_ok a = true.
Lemma ensure_quiet a1 a2 t :
  quiet_attempt a1 → quiet_attempt a2 → ∃ g t', ensure_generation a1 a2 t = (Ok g, Some t').
Proof.
  intros (E1 & E2 & E3) (F1 & F2 & F3). unfold ensure_generation, ensure_attempt.
  rewrite E1, E2, E3, F1, F2. change (read_generation None) with (@None str).
  destruct t as [x|]; [|eauto]. destruct (read_generation (Some x)); eauto.
Qed.

Lemma ensure_step a1 a2 :
  keeps settled (ensure_default a1 a2) (λ _, settled) ∧
  (quiet_attempt a1 → quiet_attempt a2 → completes settled (ensure_default a1 a2) (λ _, settled)).
Proof.
  split.
  - apply keeps_io. intros st a st' Hk Hs He.
    destruct (dest st WAL_GENERATION_FILE) as [[c|t]|] eqn:Hd; [|done|];
      (destruct (ensure_generation _ _ _) as [[g|e] t'] eqn:Hen; [|done]); injection He as _ <-; (split; [|done]);
      apply (kept_dest st); try done;
      try (intros u; rewrite dest_set; case_decide; [by destruct t'|done]);
      intros n x Hl Hp Ho; unfold placed in *; rewrite dest_set; simpl;
      (case_decide as Hn; [subst n|done]); destruct Hk as (_ & H2 & _ & H4 & _).
    + destruct x as [b|]; [|discriminate Hl]. destruct (H4 _ Ho) as [g' Hg].
      destruct Hp as [[Ht _]|[Ht Hb]]; [by destruct (Hs b)|]. rewrite Hd in Hb. injection Hb as <-.
      cbn [node_text] in Hen. rewrite (ensure_readable _ _ _ _ Hg) in Hen. injection Hen as _ <-. by right.
    + destruct x as [b|]; [|discriminate Hl].
      destruct Hp as [[Ht _]|[Ht Hb]]; [by destruct (Hs b)|congruence].
  - intros Hq1 Hq2. apply completes_io. intros st Hk Hs.
    destruct (ensure_quiet a1 a2 (node_text (dest st WAL_GENERATION_FILE)) Hq1 Hq2) as (g & t & He).
    destruct Hk as (_ & _ & _ & _ & H5).
    destruct (dest st WAL_GENERATION_FILE) as [[c|d]|] eqn:Hd; [|by destruct (H5 d)|];
      rewrite He; do 2 eexists; (split; [done|exact Hs]).
Qed.

(** Everything in [done] has arrived. *)
Definition arrived (names : list str) (st : mfs) : Prop :=
  settled st ∧ ∀ n, n ∈ names → is_Some (dest st n).
Definition artifact (n : str) : Prop :=
  ∃ x, orig !! n = Some x ∧ is_legacy_top_level_wal_artifact n x = true.

Lemma rename_kept st n x :
  kept orig st → artifact n → top st !! n = Some x → kept orig (drop_top n (set_dest n (Some x) st)).
Proof.
  intros Hk (y & Hy & Hl) Hn. pose proof (proj1 (proj2 Hk) _ _ Hn) as Hn'.
  apply (kept_drop st _ n x); [done|done|congruence|done| |].
  - rewrite dest_drop, dest_set. by case_decide.
  - intros m Hm. rewrite dest_drop, dest_set. by case_decide.
Qed.
Lemma rename_arrived st n x names :
  arrived names st → arrived (names ++ [n]) (drop_top n (set_dest n (Some x) st)).
Proof.
  intros [Hs Ha]. split.
  - intros c. simpl. rewrite lookup_delete_Some. intros [_ H]. by destruct (Hs c).
  - intros m [Hm|Hm%list_elem_of_singleton]%elem_of_app; rewrite dest_drop, dest_set; case_decide; eauto. done.
Qed.

Lemma move_step names seen :
  Forall artifact names →
  keeps (arrived seen) (move_all names) (λ _, arrived (seen ++ names)) ∧
  completes (arrived seen) (move_all names) (λ _, arrived (seen ++ names)).
Proof.
  intros Hall. revert seen. induction Hall as [|n names Hn _ IH]; intros seen.
  - rewrite app_nil_r. split; [apply (keeps_ret tt (λ _, arrived seen))|]. intros st _ H. by exists tt, st.
  - destruct (IH (seen ++ [n])) as [IHk IHc]. rewrite <- app_assoc in IHk, IHc. cbn [move_all].
    set (step := λ (vs : list verdict) (st : mfs),
      match dest st n with Some _ => mret tt vs st | None => rename n vs st end).
    assert (∀ st, arrived seen st → is_Some (dest st n) → arrived (seen ++ [n]) st) as Hstay.
    { intros st [Hs Ha] Hd. split; [done|]. intros m [Hm| ->%list_elem_of_singleton]%elem_of_app; auto. }
    assert (keeps (arrived seen) step (λ _, arrived (seen ++ [n]))) as Hk.
    { intros vs st H Ha. unfold step. destruct (dest st n) as [y|] eqn:Hd.
      - simpl. split; [done|]. intros a _. apply Hstay; [done|by rewrite Hd].
      - apply (keeps_io (arrived seen)); [|done|done]. intros st1 a st2 Hk1 Ha1.
        destruct (top st1 !! n) as [x|] eqn:Ht; [|done]. intros [= _ <-].
        split; [by apply rename_kept|by apply rename_arrived]. }
    split; [by eapply keeps_bnd|]. eapply completes_bnd; [exact Hk| |intros a; exact IHc].
    intros st H Ha. unfold step. destruct (dest st n) as [y|] eqn:Hd.
    + exists tt, st. split; [done|]. apply Hstay; [done|by rewrite Hd].
    + apply (completes_io (λ st, arrived seen st ∧ dest st n = None)); [|done|done].
      intros st1 (_ & _ & H3 & _) [Ha1 Hd1]. destruct Hn as (x & Hx & Hl).
      destruct (H3 _ _ Hx Hl) as [[Ht _]|[_ Hd2]]; [|congruence].
      rewrite Ht. do 2 eexists. split; [done|]. by apply rename_arrived.
Qed.

Lemma loose_artifact st n : kept orig st → is_loose st n = true → artifact n.
Proof.
  intros (_ & H2 & _). unfold is_loose. destruct (top st !! n) as [x|] eqn:Hn; [|done].
  intros Hl. exists x. split; [by apply H2|done].
Qed.
Lemma loose_generation st names :
  kept orig st → WAL_GENERATION_FILE ∈ List.filter (is_loose st) names → loose_gen st.
Proof.
  intros Hk Hin. apply list_elem_of_In, filter_In in Hin as [_ Hl]. revert Hl. unfold is_loose, loose_gen.
  destruct (top st !! WAL_GENERATION_FILE) as [[c|t]|]; [eauto|done|done].
Qed.
Lemma unloose_settled st names :
  kept orig st → (∀ n, is_Some (top st !! n) → n ∈ names) →
  WAL_GENERATION_FILE ∉ List.filter (is_loose st) names → settled st.
Proof.
  intros Hk Hnames Hin c Hc. apply Hin, list_elem_of_In, filter_In. split.
  - apply list_elem_of_In, Hnames. by rewrite Hc.
  - unfold is_loose. by rewrite Hc.
Qed.

(** The body of a migration that found something to move. *)
Lemma body_step a1 a2 st names :
  kept orig st → (∀ n, is_Some (top st !! n) → n ∈ names) →
  let loose := List.filter (is_loose st) names in
  let body := create_default_dir ;;;
     (if bool_decide (WAL_GENERATION_FILE ∈ loose) then relocate_generation else mret tt) ;;;
     ensure_default a1 a2 ;;; move_all loose in
  let P := if bool_decide (WAL_GENERATION_FILE ∈ loose) then loose_gen else settled in
  P st ∧ keeps P body (λ _, arrived loose) ∧
  (quiet_attempt a1 → quiet_attempt a2 → completes P body (λ _, arrived loose)).
Proof.
  intros Hk Hnames loose body P.
  assert (Forall artifact loose) as Hart.
  { apply Forall_forall. intros n [_ Hl]%list_elem_of_In%filter_In. by apply (loose_artifact st). }
  destruct (move_step loose [] Hart) as [Hmk Hmc]. destruct (ensure_step a1 a2) as [Hek Hec].
  assert (keeps settled (move_all loose) (λ _, arrived loose)) as Hmk'.
  { intros vs s H Hs. apply Hmk; [done|]. split; [done|]. intros n Hn. by apply elem_of_nil in Hn. }
  assert (completes settled (move_all loose) (λ _, arrived loose)) as Hmc'.
  { intros s H Hs. apply Hmc; [done|]. split; [done|]. intros n Hn. by apply elem_of_nil in Hn. }
  destruct relocate_step as [Hrk Hrc]. unfold body, P.
  assert (∀ s s', top s' = top s → (settled s → settled s') ∧ (loose_gen s → loose_gen s')) as Htop.
  { intros s s' Ht. unfold settled, loose_gen. by rewrite Ht. }
  case_bool_decide as Hg; (split; [by eapply loose_generation || by eapply unloose_settled|]).
  - destruct (create_dir_step loose_gen) as [Hck Hcc]; [intros; by eapply Htop|]. split.
    + eapply keeps_bnd; [exact Hck|intros ?]. eapply keeps_bnd; [exact Hrk|intros ?].
      eapply keeps_bnd; [exact Hek|by intros ?].
    + intros Hq1 Hq2. eapply completes_bnd; [exact Hck|exact Hcc|intros ?].
      eapply completes_bnd; [exact Hrk|exact Hrc|intros ?].
      eapply completes_bnd; [exact Hek|by apply Hec|by intros ?].
  - destruct (create_dir_step settled) as [Hck Hcc]; [intros; by eapply Htop|]. split.
    + eapply keeps_bnd; [exact Hck|intros ?]. eapply keeps_bnd; [apply (keeps_ret tt (λ _, settled))|intros ?].
      eapply keeps_bnd; [exact Hek|by intros ?].
    + intros Hq1 Hq2. eapply completes_bnd; [exact Hck|exact Hcc|intros ?].
      eapply completes_bnd; [apply (keeps_ret tt (λ _, settled))|intros s _ Hs; by exists tt, s|intros ?].
      eapply completes_bnd; [exact Hek|by apply Hec|by intros ?].
Qed.
End keep.

(** ** Properties *)

Section props.
Context {GC : GenerationCodec}.

(** One call, whatever the directory's listing order, the mint's environment and the verdicts. *)
Inductive mig_call : mfs → mfs → Prop :=
| mig_run st names a1 a2 vs :
    (∀ n, is_Some (top st !! n) → n ∈ names) →
    mig_call st (migrate_wal_root_if_needed a1 a2 (Some names) vs st).2.

Lemma migrate_keeps orig st names a1 a2 vs :
  kept orig st → (∀ n, is_Some (top st !! n) → n ∈ names) →
  let '(o, _, st') := migrate_wal_root_if_needed a1 a2 (Some names) vs st in
  kept orig st' ∧ (o = Done tt → ∀ n, n ∈ List.filter (is_loose st) names → settled st' ∧ is_Some (dest st' n)).
Proof.
  intros Hk Hn. unfold migrate_wal_root_if_needed.
  destruct (body_step orig a1 a2 st names Hk Hn) as (HP & Hb & _). cbv zeta in HP, Hb.
  specialize (Hb vs st Hk HP). destruct (List.filter (is_loose st) names) as [|l ls] eqn:Hf.
  - simpl. split; [done|]. intros _ n Hin. by apply elem_of_nil in Hin.
  - cbv zeta. destruct (mbnd _ _ vs st) as [[o vs'] st']. destruct Hb as [Hk' Ha].
    split; [done|]. intros -> n Hin. destruct (Ha tt eq_refl) as [Hs Hd]. auto.
Qed.

Lemma mig_calls_keep orig st st' : kept orig st → rtc mig_call st st' → kept orig st'.
Proof.
  induction 2 as [|st1 st2 st3 Hs _ IH]; [done|]. apply IH. inversion Hs as [st names a1 a2 vs Hn]; subst.
  pose proof (migrate_keeps orig st1 names a1 a2 vs ltac:(done) Hn) as Hm.
  destruct (migrate_wal_root_if_needed _ _ _ _ _) as [[o vs'] s']. by destruct Hm.
Qed.

(** A root ready to be migrated: nothing of it clashes with the group's directory. *)
Definition unclashed (st : mfs) : Prop :=
  (∀ n x, top st !! n = Some x → is_legacy_top_level_wal_artifact n x = true → dest st n = None) ∧
  (∀ c, top st !! WAL_GENERATION_FILE = Some (NFile c) → is_Some (read_generation (Some c))) ∧
  (∀ t, dest st WAL_GENERATION_FILE ≠ Some (NDir t)).
Lemma unclashed_kept st : unclashed st → kept (top st) st.
Proof. intros (H1 & H2 & H3). split; [done|split; [done|split; [|done]]]. intros n x Hn Hl. left. eauto. Qed.

Lemma kept_rebase orig st : kept orig st → kept (top st) st.
Proof.
  intros (H1 & H2 & H3 & H4 & H5). split; [done|split; [done|split; [|split; [|done]]]].
  - intros n x Hn. apply H3. by apply H2.
  - intros c Hc. by apply H4, H2.
Qed.

End props.

(** ** Witnesses *)

Definition toy_root : mfs :=
  MFS (<[#"0001.jsonl" := NFile #"line"]> (<[WAL_GENERATION_FILE := NFile #"g1"]>
       (<[#"notes.txt" := NFile #"x"]> (<[CHECKPOINTS_DIR_NAME := NDir ∅]> ∅)))) None.
Definition toy_names : list str := [ #"notes.txt"; CHECKPOINTS_DIR_NAME; #"0001.jsonl"; WAL_GENERATION_FILE].
(** The directory is made and the sidecar linked, then the process dies. *)
Definition toy_crashed : mfs :=
  (@migrate_wal_root_if_needed PlainCodec (quiet #"u") (quiet #"v") (Some toy_names) [VOk; VOk; VCrash] toy_root).2.

Example toy_crash_leaves_both :
  bool_decide (top toy_crashed !! WAL_GENERATION_FILE = Some (NFile #"g1")) &&
  bool_decide (dest toy_crashed WAL_GENERATION_FILE = Some (NFile #"g1")) = true.
Proof. vm_compute. reflexivity. Qed.

Lemma toy_names_all n : is_Some (top toy_root !! n) → n ∈ toy_names.
Proof.
  intros [x Hx]. unfold toy_root in Hx. cbn [top] in Hx. rewrite !lookup_insert_Some, lookup_empty in Hx.
  unfold toy_names. rewrite !elem_of_cons. naive_solver.
Qed.
Lemma toy_unclashed : @unclashed PlainCodec toy_root.
Proof.
  split; [|split].
  - intros n x _ _. reflexivity.
  - intros c Hc. cbn [toy_root top] in Hc. rewrite !lookup_insert_Some, lookup_empty in Hc.
    assert (c = #"g1") as -> by naive_solver. exists #"g1". vm_compute. reflexivity.
  - intros t. discriminate.
Qed.
Lemma toy_call : rtc (@mig_call PlainCodec) toy_root toy_crashed.
Proof. eapply rtc_once, (@mig_run PlainCodec), toy_names_all. Qed.

