(* ===== verification/LegacyWal.v ===== *)
(** * LegacyWal: normalising statements of older writers (core/src/legacy_wal.rs)

    The two regular expressions are parameters: what the [regex] crate finds in a text, as the
    text before a match, the captures, and the text after it. *)

From S2P Require Import Prelude Text Json WalScan Wal.

Definition eq_ci (a b : char) : bool := (ascii_lower a =? ascii_lower b)%N.
(** The needle at the head of a text, whatever its case; the needle is ASCII, so comparing bytes is
    comparing characters. *)
Fixpoint strip_prefix_ci (p s : str) : option str :=
  match p, s with
  | [], _ => Some s
  | x :: p, y :: s => if eq_ci x y then strip_prefix_ci p s else None
  | _, [] => None
  end.

(** The text up to the parenthesis that closes the one already open, and what follows it. *)
Fixpoint close_paren (depth : nat) (s : str) : option (str * str) :=
  match s with
  | [] => None
  | c :: s =>
      if (c =? 40)%N then '(a, b) ← close_paren (S depth) s; Some (c :: a, b)
      else if (c =? 41)%N then
        match depth with
        | O => Some ([], s)
        | S d => '(a, b) ← close_paren d s; Some (c :: a, b)
        end
      else '(a, b) ← close_paren depth s; Some (c :: a, b)
  end.

Definition vecf32_needle : str := #"vecf32(".
(** The loop; every turn consumes at least a character, so the length of the text is fuel enough. *)
Fixpoint strip_vecf32_go (fuel : nat) (rest : str) : str :=
  match fuel, rest with
  | O, _ => rest
  | _, [] => []
  | S fuel, c :: tl =>
      match strip_prefix_ci vecf32_needle rest with
      | Some after_open =>
          match close_paren 0 after_open with
          | Some (inner, rest') => inner ++ strip_vecf32_go fuel rest'
          | None => take (length vecf32_needle) rest ++ strip_vecf32_go fuel after_open
          end
      | None => c :: strip_vecf32_go fuel tl
      end
  end.
(** Source: core/src/legacy_wal.rs 31-83 (strip_vecf32) *)
Definition strip_vecf32 (cypher : str) : str := strip_vecf32_go (length cypher) cypher.

(** What the two patterns find: for a vector key, the first [key = [...]], as the text before it,
    the literal and the text after; for [SET var = $param], every match in turn: the text before it,
    its own, the variable and the parameter; then the text after the last. *)
Class LegacyPatterns := {
  find_vector_literal : str → str → option (str * str * str);
  find_bulk_sets : str → list (str * str * str * str) * str;
  parse_json : str → option value;
}.

Section legacy.
Context {LP : LegacyPatterns}.

Definition promote_step (acc : str * object) (vec_key : str) : str * object :=
  let '(result, params) := acc in
  match find_vector_literal vec_key result with
  | None => acc
  | Some (before, lit_text, after) =>
      match parse_json lit_text with
      | None => acc
      | Some parsed => (before ++ vec_key ++ #" = $" ++ vec_key ++ after, obj_insert vec_key parsed params)
      end
  end.
(** Source: core/src/legacy_wal.rs 101-145 (promote_inline_vector_literals_to_params) *)
Definition promote_inline_vector_literals_to_params (cypher : str) (params : value) : str * value :=
  match params with
  | VObject m => let '(c, m) := foldl promote_step (cypher, m) VECTOR_PARAM_KEYS in (c, VObject m)
  | _ => (cypher, params)
  end.

(** The assignments one bulk set expands to, and the parameters with the flattened keys. *)
Definition flatten_props (var_name param_name : str) (obj params : object) : list str * object :=
  foldl (λ '(asg, params) '(key, v),
    let flat_key := param_name ++ #"_" ++ key in
    (asg ++ [var_name ++ #"." ++ key ++ #" = $" ++ flat_key], obj_insert flat_key v params)) ([], params) obj.

(** The objects are those of the parameters as they came. *)
Fixpoint expand_go (original params : object) (ms : list (str * str * str * str)) : str * object :=
  match ms with
  | [] => ([], params)
  | (before, matched, var_name, param_name) :: ms =>
      match obj_get param_name original with
      | Some (VObject (e :: obj)) =>
          let '(asg, params) := flatten_props var_name param_name (e :: obj) params in
          let '(text, params) := expand_go original params ms in
          (before ++ #"SET " ++ join #", " asg ++ text, params)
      | _ =>
          let '(text, params) := expand_go original params ms in (before ++ matched ++ text, params)
      end
  end.
(** Source: core/src/legacy_wal.rs 157-227 (expand_bulk_property_set) *)
Definition expand_bulk_property_set (cypher : str) (params : value) : str * value :=
  match params with
  | VObject m =>
      let '(ms, rest) := find_bulk_sets cypher in
      let '(text, m') := expand_go m m ms in (text ++ rest, VObject m')
  | _ => (cypher, params)
  end.
End legacy.

(** ** The vector constructor *)

Lemma close_paren_split depth s a b : close_paren depth s = Some (a, b) → s = a ++ 41%N :: b.
Proof.
  revert depth a. induction s as [|c s IH]; intros depth a; simpl; [done|].
  destruct (c =? 40)%N.
  - intros H. apply bind_Some in H as ([x y] & Hc & [= <- <-]). by rewrite (IH _ _ Hc).
  - destruct (N.eqb_spec c 41) as [->|].
    + destruct depth as [|d]; [by intros [= <- <-]|].
      intros H. apply bind_Some in H as ([x y] & Hc & [= <- <-]). by rewrite (IH _ _ Hc).
    + intros H. apply bind_Some in H as ([x y] & Hc & [= <- <-]). by rewrite (IH _ _ Hc).
Qed.
Lemma strip_prefix_ci_length p s r : strip_prefix_ci p s = Some r → length s = (length p + length r)%nat.
Proof.
  revert s. induction p as [|x p IH]; intros s; [by destruct s; intros [= <-]|].
  destruct s as [|y s]; [done|]. cbn [strip_prefix_ci]. destruct (eq_ci x y); [|done].
  intros H. cbn [length]. by rewrite (IH _ H).
Qed.

(** More fuel than characters changes nothing. *)
Lemma strip_vecf32_fuel fuel rest : (length rest ≤ fuel)%nat → strip_vecf32_go fuel rest = strip_vecf32 rest.
Proof.
  unfold strip_vecf32. remember (length rest) as n eqn:Hn.
  revert fuel rest Hn. induction n as [n IH] using lt_wf_ind. intros fuel rest -> Hf.
  destruct rest as [|c tl]; [by destruct fuel|]. destruct fuel as [|fuel]; [simpl in Hf; lia|].
  cbn [length] in IH, Hf. cbn [strip_vecf32_go length].
  destruct (strip_prefix_ci vecf32_needle (c :: tl)) as [ao|] eqn:Hp.
  - apply strip_prefix_ci_length in Hp. change (length vecf32_needle) with 7%nat in Hp. cbn [length] in Hp.
    destruct (close_paren 0 ao) as [[inner r]|] eqn:Hc.
    + pose proof (f_equal length (close_paren_split _ _ _ _ Hc)) as Hl. rewrite length_app in Hl. cbn [length] in Hl.
      rewrite (IH (length r) ltac:(lia) fuel r eq_refl ltac:(lia)).
      by rewrite (IH (length r) ltac:(lia) (length tl) r eq_refl ltac:(lia)).
    + rewrite (IH (length ao) ltac:(lia) fuel ao eq_refl ltac:(lia)).
      by rewrite (IH (length ao) ltac:(lia) (length tl) ao eq_refl ltac:(lia)).
  - f_equal. rewrite (IH (length tl) ltac:(lia) fuel tl eq_refl ltac:(lia)). done.
Qed.

(** No occurrence of the needle starts in [a]. *)
Fixpoint needle_free (a rest : str) : Prop :=
  match a with
  | [] => True
  | c :: a => strip_prefix_ci vecf32_needle (c :: a ++ rest) = None ∧ needle_free a rest
  end.
Lemma strip_vecf32_skip a rest : needle_free a rest → strip_vecf32 (a ++ rest) = a ++ strip_vecf32 rest.
Proof.
  induction a as [|c a IH]; [done|]. intros [Hc Ha]. cbn [app]. unfold strip_vecf32 at 1.
  cbn [length strip_vecf32_go]. rewrite Hc. by rewrite strip_vecf32_fuel, IH.
Qed.

(** The vector constructor is unwrapped wherever it stands and however it is cased: what
    precedes the first one is kept, its balanced argument replaces it, and the rest of the
    statement is treated the same way. *)
Theorem strip_vecf32_unwraps a needle arg rest :
  ascii_lower <$> needle = vecf32_needle →
  needle_free a (needle ++ arg ++ #")" ++ rest) →
  close_paren 0 (arg ++ #")" ++ rest) = Some (arg, rest) →
  strip_vecf32 (a ++ needle ++ arg ++ #")" ++ rest) = a ++ arg ++ strip_vecf32 rest.
Proof.
  intros Hn Ha Hc. rewrite strip_vecf32_skip by done. f_equal.
  set (after := arg ++ #")" ++ rest) in *.
  assert (strip_prefix_ci vecf32_needle (needle ++ after) = Some after) as Hp.
  { rewrite <- Hn. clear. induction needle as [|c n IH]; [by destruct after|].
    rewrite fmap_cons. cbn [app strip_prefix_ci]. unfold eq_ci. rewrite ascii_lower_idem, N.eqb_refl. exact IH. }
  destruct needle as [|c n]; [discriminate Hn|]. unfold strip_vecf32 at 1.
  cbn [app] in Hp |- *. cbn [length strip_vecf32_go]. rewrite Hp, Hc.
  rewrite strip_vecf32_fuel; [done|]. unfold after. rewrite !length_app. lia.
Qed.

Lemma strip_vecf32_unwraps_witness :
  strip_vecf32 (#"SET n.e = " ++ #"VECF32(" ++ #"f(x)" ++ #")" ++ #", n.k = 1") =
  #"SET n.e = " ++ #"f(x)" ++ strip_vecf32 #", n.k = 1".
Proof.
  apply (strip_vecf32_unwraps #"SET n.e = " #"VECF32(" #"f(x)" #", n.k = 1"); [reflexivity| |reflexivity].
  by repeat split.
Defined.
