(* ===== verification/Replay.v ===== *)
(** * Replay: rebuilding a database from its WAL (core/src/replay.rs)

    The database is a class: preparing and executing statements, and transaction control, each
    returning the connection it leaves behind.  The callbacks (cancellation, progress, embedding)
    are functions of how often they have been called.  The numeric fields of [ReplayStats] are one
    function from the field's name; what is only printed is left out. *)

From S2P Require Import Prelude Text Numbers Json WalScan Wal LegacyWal.
From Stdlib Require Import SpecFloat.

Class Db := {
  conn : Type;
  stmt : Type;
  prepare : conn → str → result str stmt;
  execute_prepared : conn → stmt → value → result str unit * conn;
  execute_prepared_returning_count : conn → stmt → value → result str Z * conn;
  exec_transaction_control : str → conn → result Error unit * conn;
}.
(** The parser of a WAL line, and [Number::from_f64] of an [f32]. *)
Class ReplayDeps := {
  parse_wal_line : str → option WalLine;
  f32 : Type;
  number_of_f32 : f32 → option number;
}.

(** Source: core/src/replay.rs 30-30 (LEGACY_SCHEMA_ERROR_PATTERNS) *)
Definition LEGACY_SCHEMA_ERROR_PATTERNS : list str := [].
(** Source: core/src/replay.rs 283-288 (EMBEDDING_TEXT_PAIRS) *)
Definition EMBEDDING_TEXT_PAIRS : list (str * str) :=
  [ (#"name_embedding", #"name"); (#"fact_embedding", #"fact");
    (#"content_embedding", #"content"); (#"summary_embedding", #"summary") ].
(** Source: core/src/types.rs 28-28 (DEFAULT_KIND) *)
Definition DEFAULT_KIND : str := #"Entity".
(** Source: core/src/types.rs 32-32 (KEY_SEPARATOR) *)
Definition KEY_SEPARATOR : char := 31%N.

(** The numeric fields of [ReplayStats]. *)
Inductive counter :=
| lines_replayed | unrecognised_lines | failed_lines | unparseable_lines | files_read | indexes_created
| match_prefixed_replayed | legacy_skipped_lines | match_prefixed_no_op | match_delete_no_op
| seq_regressions | failed_sample_categories_dropped | prepare_calls | rolled_back_lines
| transactions_committed | transactions_rolled_back | embeddings_recomputed | embed_calls
| embeddings_recompute_skipped_no_text | embeddings_recompute_failed | embeddings_skip_rows.
Global Instance counter_eq_dec : EqDecision counter.
Proof. solve_decision. Defined.

(** Source: core/src/replay.rs 38-51 (FailureSample) *)
Record FailureSample := { fs_cypher : str; fs_error : str; fs_count : N; fs_template : str }.

(** Source: core/src/replay.rs 54-213 (ReplayStats) *)
Record ReplayStats := {
  counts : counter → N;
  failed_samples : list FailureSample;
  fidelity_warning : option msg;
  last_committed_seq : option N;
}.
Definition empty_stats : ReplayStats :=
  {| counts := λ _, 0%N; failed_samples := []; fidelity_warning := None; last_committed_seq := None |}.
Definition bump (c : counter) (n : N) (s : ReplayStats) : ReplayStats :=
  {| counts := λ d, if decide (d = c) then (counts s d + n)%N else counts s d;
     failed_samples := failed_samples s; fidelity_warning := fidelity_warning s;
     last_committed_seq := last_committed_seq s |}.
Definition set_samples (l : list FailureSample) (s : ReplayStats) : ReplayStats :=
  {| counts := counts s; failed_samples := l; fidelity_warning := fidelity_warning s;
     last_committed_seq := last_committed_seq s |}.
Definition set_committed (q : option N) (s : ReplayStats) : ReplayStats :=
  {| counts := counts s; failed_samples := failed_samples s; fidelity_warning := fidelity_warning s;
     last_committed_seq := q |}.

(** Source: core/src/replay.rs 218-220 (lines_skipped) *)
Definition lines_skipped (s : ReplayStats) : N :=
  (counts s unrecognised_lines + counts s failed_lines + counts s unparseable_lines)%N.
(** Source: core/src/replay.rs 236-238 (embeddings_recompute_had_no_failures) *)
Definition embeddings_recompute_had_no_failures (s : ReplayStats) : bool :=
  (counts s embeddings_recompute_failed =? 0)%N.

(** ** Statement shapes *)

Section shapes.
Context {U : Unicode}.

(** The keyword test of the replay loop, on the upper-cased statement.
    Source: core/src/replay.rs 704-710 (replay_opts) *)
Definition is_known (cypher : str) : bool :=
  existsb (λ t, bool_decide (t ∈ mutation_keywords))
    (split_whitespace (strip_quoted_literals (to_uppercase cypher))).
(** Source: core/src/replay.rs 726-731 (replay_opts) *)
Definition is_match_prefixed (cypher : str) : bool :=
  match strip_prefix #"MATCH" (trim_start (to_uppercase cypher)) with
  | Some [] => true
  | Some (c :: _) => negb (is_alphanumeric c) && negb (c =? 95)%N
  | None => false
  end.

(** Source: core/src/replay.rs 1505-1508 (with_match_count_probe) *)
Definition with_match_count_probe (template : str) : str :=
  trim_end (trim_end_matches (N.eqb 59) (trim template)) ++ #" RETURN count(*)".
(** Source: core/src/replay.rs 1526-1531 (is_delete_form) *)
Definition is_delete_form (template : str) : bool :=
  existsb (λ t, bool_decide (t = #"DELETE"))
    (split_whitespace (strip_quoted_literals (to_uppercase template))).

(** What follows the first occurrence of [word] as a whole word; [skip] passes over the rest of an
    occurrence that was not one, [prev] is the character before.
    Source: core/src/replay.rs 1358-1372 (find_word) *)
Fixpoint find_word (word : str) (skip : nat) (prev : option char) (haystack : str) : option str :=
  match haystack with
  | [] => None
  | c :: tl =>
      match skip with
      | S k => find_word word k (Some c) tl
      | O =>
          match strip_prefix word haystack with
          | Some rest =>
              let before_ok := match prev with Some p => negb (is_ascii_alnum p) | None => true end in
              let after_ok := match rest with n :: _ => negb (is_ascii_alnum n) | [] => true end in
              if before_ok && after_ok then Some rest else find_word word (length word - 1) (Some c) tl
          | None => find_word word 0 (Some c) tl
          end
      end
  end.
(** Source: core/src/replay.rs 1336-1351 (is_vector_only_set) *)
Definition is_vector_only_set (cypher vec_key : str) : bool :=
  match find_word #"SET" 0 None (to_uppercase cypher) with
  | None => false
  | Some set_clause =>
      if negb (contains (#"$" ++ to_uppercase vec_key) set_clause) then false
      else
        forallb (λ assignment,
          existsb (λ k, contains (#"$" ++ to_uppercase k) assignment) VECTOR_PARAM_KEYS)
          (split_on (N.eqb 44) set_clause)
  end.

(** Source: core/src/db.rs 4346-4352 (compute_lookup_key) *)
Definition compute_lookup_key (group_id kind name : str) : str :=
  group_id ++ [KEY_SEPARATOR] ++ kind ++ [KEY_SEPARATOR] ++ to_lowercase (trim name).
(** Source: core/src/replay.rs 1549-1567 (inject_derived_lookup_key) *)
Definition inject_derived_lookup_key (cypher : str) (params : object) : object :=
  if negb (contains #"$lookup_key" cypher) then params
  else
    let text k := obj_get k params ≫= as_str in
    let key :=
      match text #"group_id", text #"name" with
      | Some group_id, Some name =>
          let kind := match text #"kind" with
                      | Some k => if nonempty (trim k) then k else DEFAULT_KIND
                      | None => DEFAULT_KIND
                      end in
          VString (compute_lookup_key group_id kind name)
      | _, _ => VNull
      end in
    obj_insert #"lookup_key" key params.
End shapes.

(** ** Sizes *)

Definition size_msg (what : string) (n : N) : Error := Config (Msg what [ANum n]).
(** Source: core/src/replay.rs 1381-1404 (resolve_batch_size) *)
Definition resolve_batch_size (opt : option N) (env : option str) : result Error N :=
  let? size :=
    match opt with
    | Some s => Ok s
    | None =>
        match env with
        | None => Ok 64%N
        | Some v => match parse_uint 10 u64_max v with
                    | Some n => Ok n
                    | None => Err (Config (Msg "LCG_REPLAY_BATCH_SIZE" [AStr v]))
                    end
        end
    end in
  if (size =? 0)%N || (256 <? size)%N then Err (size_msg "batch size" size) else Ok size.
(** Source: core/src/replay.rs 1413-1436 (resolve_embed_window_size) *)
Definition resolve_embed_window_size (opt : option N) (env : option str) : result Error N :=
  let? size :=
    match opt with
    | Some s => Ok s
    | None =>
        match env with
        | None => Ok 64%N
        | Some v => match parse_uint 10 u64_max v with
                    | Some n => Ok n
                    | None => Err (Config (Msg "LCG_REPLAY_EMBED_WINDOW_SIZE" [AStr v]))
                    end
        end
    end in
  if (size =? 0)%N || (256 <? size)%N then Err (size_msg "embedding window size" size) else Ok size.

(** An integer count as an [f64], and the quotient of two. *)
Definition f64_of_N (n : N) : spec_float := binary_normalize 53 1024 (Z.of_N n) 0 false.
Definition f64_div (a b : spec_float) : spec_float := SFdiv 53 1024 a b.
(** Source: core/src/replay.rs 947-982 (compute_fidelity_warning) *)
Definition compute_fidelity_warning (s : ReplayStats) (threshold : spec_float) : option msg :=
  let total := (counts s lines_replayed + counts s failed_lines + counts s match_prefixed_no_op
                + counts s unrecognised_lines + counts s unparseable_lines)%N in
  if (total =? 0)%N then None
  else
    let ineffective := (counts s failed_lines + counts s match_prefixed_no_op
                        + counts s unrecognised_lines + counts s unparseable_lines)%N in
    let ratio := f64_div (f64_of_N ineffective) (f64_of_N total) in
    if SFltb threshold ratio then
      Some (Msg "mutations failed or had no effect"
        [ANum (counts s failed_lines); ANum (counts s match_prefixed_no_op);
         ANum (counts s unrecognised_lines); ANum (counts s unparseable_lines)])
    else None.

(** ** Embedding windows *)

(** Source: core/src/replay.rs 995-1000 (PendingRow) *)
Record PendingRow := {
  pr_cypher : str;
  pr_params : object;
  pr_match_prefixed : bool;
  pr_seq : N;
}.
(** A resolved row has the same fields.
    Source: core/src/replay.rs 1006-1011 (ResolvedRow) *)
Definition ResolvedRow : Type := PendingRow.
(** Source: core/src/replay.rs 1015-1024 (RowEmbeddingOutcome) *)
Inductive RowEmbeddingOutcome := Proceed | Skip.
Global Instance outcome_eq_dec : EqDecision RowEmbeddingOutcome.
Proof. solve_decision. Defined.

Section window.
Context {U : Unicode} {RD : ReplayDeps}.

(** Source: core/src/replay.rs 1292-1298 (vector_to_json) *)
Definition vector_to_json (vector : list f32) : option value :=
  VArray <$> mapM (λ f, VNumber <$> number_of_f32 f) vector.
(** Source: core/src/replay.rs 1302-1304 (zero_vector_json) *)
Definition zero_vector_json (dim : N) : value := VArray (replicate (N.to_nat dim) (VNumber (Float 0))).
(** Source: core/src/replay.rs 1210-1224 (validate_recomputed_vector) *)
Definition validate_recomputed_vector (vector : list f32) (embed_dim : N) : result Error value :=
  if negb (N.of_nat (length vector) =? embed_dim)%N then
    Err (Ipc (Msg "recomputed embedding dimension" [ANum (N.of_nat (length vector)); ANum embed_dim]))
  else
    match vector_to_json vector with
    | Some v => Ok v
    | None => Err (Ipc (Msg "recomputed embedding vector contains a non-finite value" []))
    end.

Definition set_params (m : object) (r : PendingRow) : PendingRow :=
  {| pr_cypher := pr_cypher r; pr_params := m; pr_match_prefixed := pr_match_prefixed r; pr_seq := pr_seq r |}.
(** Source: core/src/replay.rs 1185-1204 (apply_key_resolution) *)
Definition apply_key_resolution (vec_key : str) (recomputed : option value) (embed_dim : N)
    (ro : PendingRow * RowEmbeddingOutcome) : PendingRow * RowEmbeddingOutcome :=
  let '(row, outcome) := ro in
  match recomputed with
  | Some json_vector => (set_params (obj_insert vec_key json_vector (pr_params row)) row, outcome)
  | None =>
      if is_vector_only_set (pr_cypher row) vec_key then (row, Skip)
      else (set_params (obj_insert vec_key (zero_vector_json embed_dim) (pr_params row)) row, outcome)
  end.

(** A request of a window: the row's index, the vector key, and the text to embed; without a text
    it resolves at once. *)
Definition request : Type := nat * str * option str.
(** Source: core/src/replay.rs 1064-1081 (resolve_embed_window) *)
Definition window_requests (rows : list PendingRow) : list request :=
  concat (imap (λ i row,
    omap (λ '(vec_key, text_key),
      if contains (#"$" ++ vec_key) (pr_cypher row) then
        Some (i, vec_key,
          match obj_get text_key (pr_params row) ≫= as_str with
          | Some text => if nonempty text then Some text else None
          | None => None
          end)
      else None) EMBEDDING_TEXT_PAIRS) rows).

(** The requests that need the embedder, and those that resolve at once. *)
Definition queued_requests (reqs : list request) : list (nat * str * str) :=
  omap (λ '(i, k, t), t ← t; Some ((i, k), t)) reqs.
Definition immediate_requests (reqs : list request) : list (nat * str) :=
  omap (λ '(i, k, t), match t with None => Some (i, k) | Some _ => None end) reqs.

Abbreviation wrows := (list (PendingRow * RowEmbeddingOutcome)).
Definition resolve_at (embed_dim : N) (rows : wrows) (target : nat * str) (v : option value) : wrows :=
  alter (apply_key_resolution target.2 v embed_dim) target.1 rows.

(** The answer to one request, when the call as a whole succeeded.
    Source: core/src/replay.rs 1099-1127 (resolve_embed_window) *)
Definition resolve_answer (embed_dim : N) (acc : wrows * ReplayStats) (tv : (nat * str) * list f32) :
    wrows * ReplayStats :=
  let '(rows, stats) := acc in
  let '(target, vector) := tv in
  match validate_recomputed_vector vector embed_dim with
  | Ok json => (resolve_at embed_dim rows target (Some json), bump embeddings_recomputed 1 stats)
  | Err _ => (resolve_at embed_dim rows target None, bump embeddings_recompute_failed 1 stats)
  end.
(** Source: core/src/replay.rs 1137-1161 (resolve_embed_window) *)
Definition resolve_failure (embed_dim : N) (acc : wrows * ReplayStats) (target : nat * str) :
    wrows * ReplayStats :=
  let '(rows, stats) := acc in
  (resolve_at embed_dim rows target None, bump embeddings_recompute_failed 1 stats).

Abbreviation embedder := (nat → list str → result Error (list (list f32))).

(** [n] is how many calls the embedder has had; the rows that proceed, and the calls after.
    Source: core/src/replay.rs 1050-1180 (resolve_embed_window) *)
Definition resolve_embed_window (window : list PendingRow) (embed_fn : embedder) (n : nat)
    (embed_dim : N) (stats : ReplayStats) : list ResolvedRow * nat * ReplayStats :=
  let reqs := window_requests window in
  let queued := queued_requests reqs in
  let immediate := immediate_requests reqs in
  let stats := bump embed_calls (N.of_nat (length queued)) stats in
  let stats := bump embeddings_recompute_skipped_no_text (N.of_nat (length immediate)) stats in
  let rows := (λ r, (r, Proceed)) <$> window in
  let rows := foldl (λ rows t, resolve_at embed_dim rows t None) rows immediate in
  let '(rows, n, stats) :=
    match queued with
    | [] => (rows, n, stats)
    | _ =>
        let '(rows, stats) :=
          match embed_fn n queued.*2 with
          | Ok vectors =>
              if bool_decide (length vectors = length queued)
              then foldl (resolve_answer embed_dim) (rows, stats) (zip queued.*1 vectors)
              else foldl (resolve_failure embed_dim) (rows, stats) queued.*1
          | Err _ => foldl (resolve_failure embed_dim) (rows, stats) queued.*1
          end in
        (rows, S n, stats)
    end in
  let resolved := omap (λ '(row, o), match o with Proceed => Some row | Skip => None end) rows in
  (resolved, n, bump embeddings_skip_rows (N.of_nat (length rows - length resolved)) stats).
End window.

(** ** Batches *)

(** Source: core/src/replay.rs 1439-1473 (ReplayBatch) *)
Record ReplayBatch := {
  b_template : str;
  b_rows : list (object * bool * N);
}.
Definition empty_batch : ReplayBatch := {| b_template := []; b_rows := [] |}.

Section batch.
Context {U : Unicode} {DB : Db}.

(** Source: core/src/replay.rs 1489-1497 (PreparedCache) *)
Record PreparedCache := { pc_template : str; pc_use_probe : bool; pc_statement : stmt }.

(** What a flush reads and writes; [f_cancels] counts the calls of the cancellation callback. *)
Record fstate := {
  f_batch : ReplayBatch;
  f_conn : conn;
  f_cancels : nat;
  f_stats : ReplayStats;
  f_cache : option PreparedCache;
}.
Abbreviation canceller := (option (nat → bool)).
Definition ask (cancel_fn : canceller) (n : nat) : bool * nat :=
  match cancel_fn with Some f => (f n, S n) | None => (false, n) end.

(** Source: core/src/replay.rs 1797-1806 (classify_replay_failure) *)
Definition cypher_preview (template : str) : str :=
  take 200 (join #" " (split_whitespace (take 400 template))).
Fixpoint bump_sample (template err : str) (l : list FailureSample) : option (list FailureSample) :=
  match l with
  | [] => None
  | s :: l =>
      if bool_decide (fs_template s = template ∧ fs_error s = err)
      then Some ({| fs_cypher := fs_cypher s; fs_error := fs_error s; fs_count := fs_count s + 1;
                    fs_template := fs_template s |} :: l)
      else cons s <$> bump_sample template err l
  end.
(** Source: core/src/replay.rs 1782-1846 (classify_replay_failure) *)
Definition classify_replay_failure (err_str template : str) (sample_cap : nat) (stats : ReplayStats) : ReplayStats :=
  let err_lower := to_lowercase err_str in
  if existsb (λ pat, contains pat err_lower) LEGACY_SCHEMA_ERROR_PATTERNS
  then bump legacy_skipped_lines 1 stats
  else
    let stats := bump failed_lines 1 stats in
    match bump_sample template err_str (failed_samples stats) with
    | Some l => set_samples l stats
    | None =>
        if (length (failed_samples stats) <? sample_cap)%nat then
          set_samples (failed_samples stats ++
            [{| fs_cypher := cypher_preview template; fs_error := err_str; fs_count := 1; fs_template := template |}]) stats
        else bump failed_sample_categories_dropped 1 stats
    end.

(** Source: core/src/replay.rs 1645-1685 (flush_batch) *)
Definition prepare_batch (c : conn) (template : str) (is_match_prefixed_batch : bool) (stats : ReplayStats) :
    result str (stmt * bool) * ReplayStats :=
  if is_match_prefixed_batch then
    let stats := bump prepare_calls 1 stats in
    match prepare c (with_match_count_probe template) with
    | Ok p => (Ok (p, true), stats)
    | Err _ =>
        let stats := bump prepare_calls 1 stats in
        (rmap (λ p, (p, false)) (prepare c template), stats)
    end
  else
    (rmap (λ p, (p, false)) (prepare c template), bump prepare_calls 1 stats).

(** The row loop's own counters. *)
Record local := { lo_replayed : N; lo_match : N; lo_no_op : N; lo_delete : N }.
Definition local0 : local := {| lo_replayed := 0; lo_match := 0; lo_no_op := 0; lo_delete := 0 |}.
Inductive rows_end := RowsDone (l : local) | RowsCancelled | RowsFailed (e : str).

(** Source: core/src/replay.rs 1716-1721 (flush_batch) *)
Definition exec_row (c : conn) (st : stmt) (probed : bool) (params : value) : result str (option Z) * conn :=
  if probed then let '(r, c) := execute_prepared_returning_count c st params in (rmap Some r, c)
  else let '(r, c) := execute_prepared c st params in (rmap (λ _, None) r, c).
(** Source: core/src/replay.rs 1694-1752 (flush_batch) *)
Fixpoint exec_rows (cancel_fn : canceller) (st : stmt) (use_probe is_delete_form_batch : bool)
    (rows : list (object * bool * N)) (lo : local) (c : conn) (n : nat) : rows_end * conn * nat :=
  match rows with
  | [] => (RowsDone lo, c, n)
  | (row, mp, _) :: rows =>
      let '(cancelled, n) := ask cancel_fn n in
      if cancelled then (RowsCancelled, c, n)
      else
        let '(r, c) := exec_row c st (mp && use_probe) (VObject row) in
        match r with
        | Ok (Some count) =>
            let lo :=
              if (0 <? count)%Z then
                {| lo_replayed := lo_replayed lo + 1; lo_match := lo_match lo + 1;
                   lo_no_op := lo_no_op lo; lo_delete := lo_delete lo |}
              else if is_delete_form_batch then
                {| lo_replayed := lo_replayed lo; lo_match := lo_match lo;
                   lo_no_op := lo_no_op lo; lo_delete := lo_delete lo + 1 |}
              else
                {| lo_replayed := lo_replayed lo; lo_match := lo_match lo;
                   lo_no_op := lo_no_op lo + 1; lo_delete := lo_delete lo |} in
            exec_rows cancel_fn st use_probe is_delete_form_batch rows lo c n
        | Ok None =>
            let lo := {| lo_replayed := lo_replayed lo + 1;
                         lo_match := lo_match lo + (if mp then 1 else 0);
                         lo_no_op := lo_no_op lo; lo_delete := lo_delete lo |} in
            exec_rows cancel_fn st use_probe is_delete_form_batch rows lo c n
        | Err e => (RowsFailed e, c, n)
        end
  end.

Definition max_seq_of (rows : list (object * bool * N)) : option N := foldl omax None (snd <$> rows).
(** What a committed batch adds to the statistics.
    Source: core/src/replay.rs 1755-1763 (flush_batch) *)
Definition commit_stats (lo : local) (max_seq_in_batch : option N) (stats : ReplayStats) : ReplayStats :=
  let stats := bump lines_replayed (lo_replayed lo) stats in
  let stats := bump match_prefixed_replayed (lo_match lo) stats in
  let stats := bump match_prefixed_no_op (lo_no_op lo) stats in
  let stats := bump match_delete_no_op (lo_delete lo) stats in
  let stats := bump transactions_committed 1 stats in
  match max_seq_in_batch with
  | Some m => set_committed (omax (last_committed_seq stats) m) stats
  | None => stats
  end.

Definition BEGIN : str := #"BEGIN TRANSACTION".
Definition COMMIT : str := #"COMMIT".
Definition ROLLBACK : str := #"ROLLBACK".

(** The transaction of a batch whose statement is prepared.
    Source: core/src/replay.rs 1687-1773 (flush_batch) *)
Definition run_transaction (cancel_fn : canceller) (sample_cap : nat) (template : str) (rows : list (object * bool * N))
    (is_delete_form_batch : bool) (st : stmt) (use_probe : bool) (c : conn) (n : nat) (stats : ReplayStats) :
    result Error bool * fstate :=
  let over c n stats cache :=
    {| f_batch := empty_batch; f_conn := c; f_cancels := n; f_stats := stats; f_cache := cache |} in
  let batch_len := N.of_nat (length rows) in
  match exec_transaction_control BEGIN c with
  | (Err e, c) => (Err e, over c n stats None)
  | (Ok _, c) =>
      match exec_rows cancel_fn st use_probe is_delete_form_batch rows local0 c n with
      | (RowsCancelled, c, n) =>
          let '(_, c) := exec_transaction_control ROLLBACK c in
          let stats := bump transactions_rolled_back 1 (bump rolled_back_lines batch_len stats) in
          (Ok true, over c n stats None)
      | (RowsFailed e, c, n) =>
          let stats := classify_replay_failure e template sample_cap stats in
          let stats := bump transactions_rolled_back 1 (bump rolled_back_lines (batch_len - 1) stats) in
          (Ok false, over c n stats None)
      | (RowsDone lo, c, n) =>
          match exec_transaction_control COMMIT c with
          | (Err e, c) => (Err e, over c n stats None)
          | (Ok _, c) =>
              (Ok false, over c n (commit_stats lo (max_seq_of rows) stats)
                 (Some {| pc_template := template; pc_use_probe := use_probe; pc_statement := st |}))
          end
      end
  end.

(** [Ok true]: cancelled.
    Source: core/src/replay.rs 1623-1774 (flush_batch) *)
Definition flush_batch (cancel_fn : canceller) (sample_cap : nat) (s : fstate) : result Error bool * fstate :=
  match b_rows (f_batch s) with
  | [] => (Ok false, s)
  | ((_, mp0, _) :: _) as rows =>
      let template := b_template (f_batch s) in
      let is_delete_form_batch := mp0 && is_delete_form template in
      let cached := c ← f_cache s; if bool_decide (pc_template c = template) then Some c else None in
      let '(prepared, stats) :=
        match cached with
        | Some c => (Ok (pc_statement c, pc_use_probe c), f_stats s)
        | None => prepare_batch (f_conn s) template mp0 (f_stats s)
        end in
      match prepared with
      | Err e =>
          (Ok false,
           {| f_batch := empty_batch; f_conn := f_conn s; f_cancels := f_cancels s;
              f_stats := Nat.iter (length rows) (classify_replay_failure e template sample_cap) stats;
              f_cache := None |})
      | Ok (st, use_probe) =>
          run_transaction cancel_fn sample_cap template rows is_delete_form_batch st use_probe
            (f_conn s) (f_cancels s) stats
      end
  end.

Definition set_batch (b : ReplayBatch) (s : fstate) : fstate :=
  {| f_batch := b; f_conn := f_conn s; f_cancels := f_cancels s; f_stats := f_stats s; f_cache := f_cache s |}.
Definition set_stats (st : ReplayStats) (s : fstate) : fstate :=
  {| f_batch := f_batch s; f_conn := f_conn s; f_cancels := f_cancels s; f_stats := st; f_cache := f_cache s |}.

(** One resolved row joins the batch, after a flush when its template is another.
    Source: core/src/replay.rs 1259-1285 (push_resolved_rows) *)
Definition push_row (row : ResolvedRow) (s : fstate) : fstate :=
  let entry := (pr_params row, pr_match_prefixed row, pr_seq row) in
  match b_rows (f_batch s) with
  | [] => set_batch {| b_template := pr_cypher row; b_rows := [entry] |} s
  | rows => set_batch {| b_template := b_template (f_batch s); b_rows := rows ++ [entry] |} s
  end.
Definition flush_if (due : bool) (cancel_fn : canceller) (sample_cap : nat) (s : fstate) : result Error bool * fstate :=
  if due then flush_batch cancel_fn sample_cap s else (Ok false, s).
(** Source: core/src/replay.rs 1249-1287 (push_resolved_rows) *)
Fixpoint push_resolved_rows (cancel_fn : canceller) (sample_cap : nat) (batch_size : N)
    (resolved : list ResolvedRow) (s : fstate) : result Error bool * fstate :=
  match resolved with
  | [] => (Ok false, s)
  | row :: resolved =>
      match flush_if (bool_decide (b_rows (f_batch s) ≠ []) && bool_decide (b_template (f_batch s) ≠ pr_cypher row))
              cancel_fn sample_cap s with
      | (Ok false, s) =>
          let s := push_row row s in
          match flush_if (batch_size <=? N.of_nat (length (b_rows (f_batch s))))%N cancel_fn sample_cap s with
          | (Ok false, s) => push_resolved_rows cancel_fn sample_cap batch_size resolved s
          | stop => stop
          end
      | stop => stop
      end
  end.
End batch.

(** ** The replay loop *)

Section replay.
Context {U : Unicode} {SR : SeqReader} {RD : ReplayDeps} {DB : Db} {LGP : LegacyPatterns}.

(** Source: core/src/replay.rs 291-354 (ReplayOptions) *)
Record ReplayOptions := {
  from_seq : N;
  to_seq : option N;
  dry_run : bool;
  progress_fn : option (nat → bool);
  cancel_fn : option (nat → bool);
  failure_sample_cap : option nat;
  batch_size : option N;
  embed_window_size : option N;
  recompute_embed_fn : nat → list str → result Error (list (list f32));
  recompute_embed_dim : N;
}.
(** The variables the run reads: batch size, window size, sample cap, and the fidelity threshold
    as it parses. *)
Record replay_env := {
  env_batch_size : option str;
  env_embed_window_size : option str;
  env_failure_samples : option str;
  env_threshold : spec_float;
}.

(** Listing order made replay order: by first sequence number, files without one last, then by
    name.
    Source: core/src/replay.rs 542-549 (replay_opts) *)
Definition file_leb (a b : option N * wfile) : bool :=
  let by_name := str_leb (wf_name a.2) (wf_name b.2) in
  match a.1, b.1 with
  | Some x, Some y => if (x <? y)%N then true else if (y <? x)%N then false else by_name
  | Some _, None => true
  | None, Some _ => false
  | None, None => by_name
  end.
(** Source: core/src/replay.rs 515-550 (replay_opts) *)
Definition replay_files (d : list wfile) : list wfile :=
  (sort_by file_leb ((λ f, (first_seq_in_file f, f)) <$> jsonl_files d)).*2.

(** What a line of a file amounts to. *)
Inductive line_kind :=
| LUnparseable
| LIgnored
| LUnrecognised (seq : N)
| LMutation (l : WalLine).
(** Source: core/src/replay.rs 633-724 (replay_opts) *)
Definition classify_line (opts : ReplayOptions) (raw : option str) : line_kind :=
  match raw with
  | None => LUnparseable
  | Some raw =>
      match trim raw with
      | [] => LIgnored
      | raw =>
          match parse_wal_line raw with
          | None => LUnparseable
          | Some l =>
              if (wl_seq l <? from_seq opts)%N then LIgnored
              else if match to_seq opts with Some t => (t <? wl_seq l)%N | None => false end then LIgnored
              else if is_known (wl_cypher l) then LMutation l else LUnrecognised (wl_seq l)
          end
      end
  end.

(** The normalised form of a mutation, as it enters the embedding window.
    Source: core/src/replay.rs 747-771 (replay_opts) *)
Definition pending_row (l : WalLine) : PendingRow :=
  let norm := strip_vecf32 (wl_cypher l) in
  let '(norm, params) := promote_inline_vector_literals_to_params norm (wl_params l) in
  let '(norm, params) := expand_bulk_property_set norm params in
  let params_map := match params with VObject m => m | _ => [] end in
  {| pr_cypher := norm; pr_params := inject_derived_lookup_key norm params_map;
     pr_match_prefixed := is_match_prefixed (wl_cypher l); pr_seq := wl_seq l |}.

(** The loop's state; the counts of calls of the embedder and of the progress callback with it. *)
Record lstate := {
  l_f : fstate;
  l_window : list PendingRow;
  l_max_seq : option N;
  l_embeds : nat;
  l_ticks : nat;
}.
Definition with_f (f : fstate) (s : lstate) : lstate :=
  {| l_f := f; l_window := l_window s; l_max_seq := l_max_seq s; l_embeds := l_embeds s; l_ticks := l_ticks s |}.
Definition count_line (c : counter) (s : lstate) : lstate :=
  with_f (set_stats (bump c 1 (f_stats (l_f s))) (l_f s)) s.

(** How a step leaves the loop over the files: it goes on, breaks out, or the run fails. *)
Inductive flow := Go | Stop | Fail (e : Error).

(** The sequence check of a line that is in range.
    Source: core/src/replay.rs 683-699 (replay_opts) *)
Definition note_seq (q : N) (s : lstate) : lstate :=
  let s := match l_max_seq s with
           | Some m => if (q <=? m)%N then count_line seq_regressions s else s
           | None => s
           end in
  {| l_f := l_f s; l_window := l_window s; l_max_seq := omax (l_max_seq s) q;
     l_embeds := l_embeds s; l_ticks := l_ticks s |}.

(** Resolving the window and handing its rows to the batch.
    Source: core/src/replay.rs 773-794 (replay_opts) *)
Definition flush_window (opts : ReplayOptions) (cap : nat) (size : N) (s : lstate) : result Error bool * lstate :=
  let '(resolved, n, stats) :=
    resolve_embed_window (l_window s) (recompute_embed_fn opts) (l_embeds s) (recompute_embed_dim opts)
      (f_stats (l_f s)) in
  let '(r, f) := push_resolved_rows (cancel_fn opts) cap size resolved (set_stats stats (l_f s)) in
  (r, {| l_f := f; l_window := []; l_max_seq := l_max_seq s; l_embeds := n; l_ticks := l_ticks s |}).

Definition push_window (row : PendingRow) (s : lstate) : lstate :=
  {| l_f := l_f s; l_window := l_window s ++ [row]; l_max_seq := l_max_seq s;
     l_embeds := l_embeds s; l_ticks := l_ticks s |}.
Definition clear_window (s : lstate) : lstate :=
  {| l_f := l_f s; l_window := []; l_max_seq := l_max_seq s; l_embeds := l_embeds s; l_ticks := l_ticks s |}.

(** The progress callback, when there is one; [false] asks to stop. *)
Definition progress (opts : ReplayOptions) (s : lstate) : bool * lstate :=
  match progress_fn opts with
  | Some f => (f (l_ticks s), {| l_f := l_f s; l_window := l_window s; l_max_seq := l_max_seq s;
                                 l_embeds := l_embeds s; l_ticks := S (l_ticks s) |})
  | None => (true, s)
  end.

(** A mutation is replayed, or only counted in a dry run.
    Source: core/src/replay.rs 733-795 (replay_opts) *)
Definition take_mutation (opts : ReplayOptions) (cap : nat) (bsize wsize : N) (l : WalLine) (s : lstate) : flow * lstate :=
  if dry_run opts then
    let s := count_line lines_replayed s in
    (Go, if is_match_prefixed (wl_cypher l) then count_line match_prefixed_replayed s else s)
  else
    let s := push_window (pending_row l) s in
    if (wsize <=? N.of_nat (length (l_window s)))%N then
      match flush_window opts cap bsize s with
      | (Ok false, s) => (Go, s)
      | (Ok true, s) => (Stop, s)
      | (Err e, s) => (Fail e, s)
      end
    else (Go, s).

(** [k] counts the mutations of the file.
    Source: core/src/replay.rs 633-853 (replay_opts) *)
Definition process_line (opts : ReplayOptions) (cap : nat) (bsize wsize : N) (raw : option str) (k : N) (s : lstate) :
    flow * N * lstate :=
  match classify_line opts raw with
  | LUnparseable => (Go, k, count_line unparseable_lines s)
  | LIgnored => (Go, k, s)
  | LUnrecognised q => (Go, k, count_line unrecognised_lines (note_seq q s))
  | LMutation l =>
      match take_mutation opts cap bsize wsize l (note_seq (wl_seq l) s) with
      | (Go, s) =>
          let k := (k + 1)%N in
          let '(cancelled, n) := ask (cancel_fn opts) (f_cancels (l_f s)) in
          let f := l_f s in
          let s := with_f {| f_batch := f_batch f; f_conn := f_conn f; f_cancels := n;
                             f_stats := f_stats f; f_cache := f_cache f |} s in
          if cancelled then (Stop, k, clear_window s)
          else if (k mod 1000 =? 0)%N then
            let '(go_on, s) := progress opts s in (if go_on then Go else Stop, k, s)
          else (Go, k, s)
      | (stop, s) => (stop, k, s)
      end
  end.
Fixpoint process_lines (opts : ReplayOptions) (cap : nat) (bsize wsize : N) (ls : list (option str)) (k : N) (s : lstate) :
    flow * lstate :=
  match ls with
  | [] => (Go, s)
  | raw :: ls =>
      match process_line opts cap bsize wsize raw k s with
      | (Go, k, s) => process_lines opts cap bsize wsize ls k s
      | (stop, _, s) => (stop, s)
      end
  end.

Definition flush_l (opts : ReplayOptions) (cap : nat) (s : lstate) : result Error bool * lstate :=
  let '(r, f) := flush_batch (cancel_fn opts) cap (l_f s) in (r, with_f f s).

(** Source: core/src/replay.rs 581-870 (replay_opts) *)
Definition process_file (opts : ReplayOptions) (cap : nat) (bsize wsize : N) (f : wfile) (s : lstate) : flow * lstate :=
  let s := count_line files_read s in
  let '(go_on, s) := progress opts s in
  if negb go_on then (Stop, s)
  else
    match wf_bytes f with
    | None => (Go, s)
    | Some bs =>
        match process_lines opts cap bsize wsize (buf_lines bs) 0 s with
        | (Go, s) =>
            if dry_run opts then (Go, s)
            else match flush_l opts cap s with
                 | (Ok false, s) => (Go, s)
                 | (Ok true, s) => (Stop, s)
                 | (Err e, s) => (Fail e, s)
                 end
        | stop => stop
        end
    end.
Fixpoint process_files (opts : ReplayOptions) (cap : nat) (bsize wsize : N) (fs : list wfile) (s : lstate) : flow * lstate :=
  match fs with
  | [] => (Go, s)
  | f :: fs =>
      match process_file opts cap bsize wsize f s with
      | (Go, s) => process_files opts cap bsize wsize fs s
      | stop => stop
      end
  end.

(** The end of a run: the last window unless it was aborted, the last batch, and the warning.
    Source: core/src/replay.rs 879-931 (replay_opts) *)
Definition finish_replay (opts : ReplayOptions) (env : replay_env) (cap : nat) (bsize : N) (aborted : bool) (s : lstate) :
    result Error ReplayStats * lstate :=
  let close s :=
    let stats := f_stats (l_f s) in
    (Ok {| counts := counts stats; failed_samples := failed_samples stats;
           fidelity_warning := compute_fidelity_warning stats (env_threshold env);
           last_committed_seq := last_committed_seq stats |}, s) in
  if dry_run opts then close s
  else
    let '(r, s) :=
      if negb aborted && bool_decide (l_window s ≠ []) then flush_window opts cap bsize s else (Ok false, s) in
    match r with
    | Err e => (Err e, s)
    | Ok _ =>
        match flush_l opts cap s with
        | (Err e, s) => (Err e, s)
        | (Ok _, s) => close s
        end
    end.

(** [None]: the directory does not exist.
    Source: core/src/replay.rs 439-932 (replay_opts) *)
Definition replay_opts (opts : ReplayOptions) (env : replay_env) (d : option wal_dir) (c : conn) :
    result Error ReplayStats * conn :=
  if match to_seq opts with Some t => (t <? from_seq opts)%N | None => false end then
    (Err (Config (Msg "invalid ReplayOptions" [ANum (default 0%N (to_seq opts)); ANum (from_seq opts)])), c)
  else
    match resolve_batch_size (batch_size opts) (env_batch_size env),
          resolve_embed_window_size (embed_window_size opts) (env_embed_window_size env) with
    | Err e, _ | _, Err e => (Err e, c)
    | Ok bsize, Ok wsize =>
        let cap := match failure_sample_cap opts with
                   | Some n => n
                   | None => default 10%nat (N.to_nat <$> (v ← env_failure_samples env; parse_uint 10 u64_max v))
                   end in
        match d with
        | None => (Ok empty_stats, c)
        | Some None => (Err io_err, c)
        | Some (Some d) =>
            let s := {| l_f := {| f_batch := empty_batch; f_conn := c; f_cancels := 0; f_stats := empty_stats; f_cache := None |};
                        l_window := []; l_max_seq := None; l_embeds := 0; l_ticks := 0 |} in
            match process_files opts cap bsize wsize (replay_files d) s with
            | (Fail e, s) => (Err e, f_conn (l_f s))
            | (stop, s) =>
                let '(r, s) := finish_replay opts env cap bsize (match stop with Stop => true | _ => false end) s in
                (r, f_conn (l_f s))
            end
        end
    end.
End replay.
