(* ===== verification/ReplayTheory.v ===== *)
(** * ReplayTheory: what a replay accounts for, and what it leaves in the database

    The accounting is a potential: rows counted, rows in the batch, rows in the window, and rows
    skipped for want of a text.  Every step adds to it exactly the mutations it reads. *)

From S2P Require Import Prelude Text Numbers Json WalScan Wal LegacyWal Replay.

(** ** Counters *)

Lemma counts_bump c n s d : counts (bump c n s) d = if decide (d = c) then (counts s d + n)%N else counts s d.
Proof. done. Qed.
Lemma counts_bump_eq c n s : counts (bump c n s) c = (counts s c + n)%N.
Proof. rewrite counts_bump. by rewrite decide_True. Qed.
Lemma counts_bump_ne c n s d : d ≠ c → counts (bump c n s) d = counts s d.
Proof. intros H. rewrite counts_bump. by rewrite decide_False. Qed.
Create HintDb counts.
Create Rewrite HintDb counts.
#[export] Hint Rewrite counts_bump_eq : counts.
#[export] Hint Rewrite counts_bump_ne using discriminate : counts.
(** Reads every counter through the updates, then arithmetic. *)
Ltac counting := cbn [counts set_samples set_committed]; autorewrite with counts; cbn [counts set_samples set_committed]; try lia.

(** Rows a batch has been through: executed with or without effect, failed, or rolled back. *)
Definition settled_rows (s : ReplayStats) : N :=
  (counts s lines_replayed + counts s match_prefixed_no_op + counts s match_delete_no_op
   + counts s failed_lines + counts s legacy_skipped_lines + counts s rolled_back_lines)%N.
(** What a flush does not touch. *)
Definition reading_counters (s : ReplayStats) : N * N * N * N * N :=
  (counts s unrecognised_lines, counts s unparseable_lines, counts s embeddings_skip_rows,
   counts s files_read, counts s seq_regressions).

(** Failure details: what has been recorded, by row. *)
Definition sample_rows (l : list FailureSample) : N := foldr (λ s n, fs_count s + n)%N 0%N l.
Definition sample_keys (l : list FailureSample) : list (str * str) := (λ s, (fs_template s, fs_error s)) <$> l.

Lemma sample_keys_cons x l : sample_keys (x :: l) = (fs_template x, fs_error x) :: sample_keys l.
Proof. done. Qed.

Section flushing.
Context {U : Unicode} {DB : Db}.

Lemma bump_sample_some t e l l' :
  bump_sample t e l = Some l' →
  sample_rows l' = (sample_rows l + 1)%N ∧ sample_keys l' = sample_keys l ∧ length l' = length l.
Proof.
  revert l'. induction l as [|s l IH]; intros l'; simpl; [done|]. case_bool_decide as Hk.
  - intros [= <-]. destruct Hk as [Ht He]. split; [simpl; lia|]. done.
  - intros (l1 & Hl & ->)%fmap_Some. destruct (IH _ Hl) as (H1 & H2 & H3).
    split; [simpl; lia|]. split; [|simpl; lia]. rewrite !sample_keys_cons. by rewrite H2.
Qed.
Lemma bump_sample_none t e l : bump_sample t e l = None → (t, e) ∉ sample_keys l.
Proof.
  induction l as [|s l IH]; simpl; [intros _; apply not_elem_of_nil|]. case_bool_decide as Hk; [done|].
  intros H%fmap_None. rewrite ?sample_keys_cons, not_elem_of_cons.
  split; [naive_solver|by apply IH].
Qed.

(** The failure details of a statistics record, up to the cap. *)
Definition samples_ok (cap : nat) (s : ReplayStats) : Prop :=
  counts s failed_lines = (sample_rows (failed_samples s) + counts s failed_sample_categories_dropped)%N ∧
  NoDup (sample_keys (failed_samples s)) ∧ (length (failed_samples s) ≤ cap)%nat.

Lemma classify_spec e t cap s (s' := classify_replay_failure e t cap s) :
  settled_rows s' = (settled_rows s + 1)%N ∧ reading_counters s' = reading_counters s ∧
  last_committed_seq s' = last_committed_seq s ∧
  counts s' transactions_committed = counts s transactions_committed ∧
  counts s' rolled_back_lines = counts s rolled_back_lines ∧
  counts s' lines_replayed = counts s lines_replayed ∧
  (samples_ok cap s → samples_ok cap s').
Proof.
  subst s'. unfold classify_replay_failure. cbn [existsb LEGACY_SCHEMA_ERROR_PATTERNS].
  change (failed_samples (bump failed_lines 1 s)) with (failed_samples s).
  unfold settled_rows, reading_counters, samples_ok.
  destruct (bump_sample t e (failed_samples s)) as [l|] eqn:Hb.
  - destruct (bump_sample_some _ _ _ _ Hb) as (H1 & H2 & H3).
    cbn [set_samples failed_samples last_committed_seq bump].
    split; [counting|]. split; [by counting|]. split; [done|]. split; [counting|]. split; [counting|].
    split; [counting|]. rewrite H1, H2, H3. intros (Ha & Hn & Hl). split; [counting|done].
  - destruct (Nat.ltb_spec (length (failed_samples s)) cap) as [Hl|Hl].
    + cbn [set_samples failed_samples last_committed_seq bump].
      split; [counting|]. split; [by counting|]. split; [done|]. split; [counting|]. split; [counting|].
      split; [counting|]. intros (Ha & Hn & Hc). split; [|split].
      * assert (∀ a b, sample_rows (a ++ b) = sample_rows a + sample_rows b)%N as Happ
          by (intros a b; induction a as [|x a IH]; simpl; [done|rewrite IH; lia]).
        rewrite Happ. simpl. counting.
      * unfold sample_keys. rewrite fmap_app. apply NoDup_app. split; [done|]. split; [|apply NoDup_singleton].
        intros x Hx Hx'. apply list_elem_of_singleton in Hx' as ->. by apply (bump_sample_none _ _ _ Hb).
      * rewrite length_app. simpl. lia.
    + cbn [failed_samples last_committed_seq bump].
      split; [counting|]. split; [by counting|]. split; [done|]. split; [counting|]. split; [counting|].
      split; [counting|]. intros (Ha & Hn & Hc). split; [counting|done].
Qed.

Lemma classify_many n e t cap s (s' := Nat.iter n (classify_replay_failure e t cap) s) :
  settled_rows s' = (settled_rows s + N.of_nat n)%N ∧ reading_counters s' = reading_counters s ∧
  last_committed_seq s' = last_committed_seq s ∧
  counts s' transactions_committed = counts s transactions_committed ∧
  (samples_ok cap s → samples_ok cap s').
Proof.
  subst s'. induction n as [|n IH]; [split; [simpl; lia|done]|]. rewrite Nat.iter_succ.
  destruct IH as (H1 & H2 & H3 & H4 & H5).
  destruct (classify_spec e t cap (Nat.iter n (classify_replay_failure e t cap) s)) as (C1 & C2 & C3 & C4 & _ & _ & C7).
  rewrite C1, C2, C3, C4, H1, H2, H3, H4. split; [lia|]. split; [done|]. split; [done|]. split; [done|]. auto.
Qed.

Lemma prepare_spec c t mp s (s' := (prepare_batch c t mp s).2) :
  settled_rows s' = settled_rows s ∧ reading_counters s' = reading_counters s ∧
  last_committed_seq s' = last_committed_seq s ∧
  counts s' transactions_committed = counts s transactions_committed ∧ (∀ cap, samples_ok cap s → samples_ok cap s').
Proof.
  subst s'. unfold prepare_batch, settled_rows, reading_counters, samples_ok.
  destruct mp; [destruct (prepare c (with_match_count_probe t))|];
    cbn [snd failed_samples last_committed_seq bump];
    (split; [by counting|]); (split; [by counting|]); (split; [done|]); (split; [by counting|]);
    intros cap (? & ? & ?); (split; [by counting|done]).
Qed.

Lemma exec_rows_count cf st p df rows lo c n lo' c' n' :
  exec_rows cf st p df rows lo c n = (RowsDone lo', c', n') →
  (lo_replayed lo' + lo_no_op lo' + lo_delete lo' =
   lo_replayed lo + lo_no_op lo + lo_delete lo + N.of_nat (length rows))%N.
Proof.
  revert lo c n. induction rows as [|[[row mp] q] rows IH]; intros lo c n; cbn [exec_rows].
  - intros [= <- <- <-]. simpl. lia.
  - destruct (ask cf n) as [[|] n1]; [done|].
    destruct (exec_row c st (mp && p) (VObject row)) as [[[k|]|e] c1]; [| |done].
    + intros H%IH. rewrite H. cbn [length].
      destruct (0 <? k)%Z; [|destruct df]; cbn [lo_replayed lo_no_op lo_delete]; lia.
    + intros H%IH. rewrite H. cbn [length lo_replayed lo_no_op lo_delete]. lia.
Qed.
Lemma exec_rows_no_cancel st p df rows lo c n :
  (exec_rows None st p df rows lo c n).1.1 ≠ RowsCancelled.
Proof.
  revert lo c n. induction rows as [|[[row mp] q] rows IH]; intros lo c n; cbn [exec_rows ask]; [done|].
  destruct (exec_row c st (mp && p) (VObject row)) as [[[k|]|e] c1]; [apply IH|apply IH|done].
Qed.

(** A statistics record after a flush of [k] rows. *)
Definition accounts (cap : nat) (k : nat) (s s' : ReplayStats) : Prop :=
  settled_rows s' = (settled_rows s + N.of_nat k)%N ∧ reading_counters s' = reading_counters s ∧
  (samples_ok cap s → samples_ok cap s').

Lemma commit_accounts cap lo q s k :
  (lo_replayed lo + lo_no_op lo + lo_delete lo = N.of_nat k)%N → accounts cap k s (commit_stats lo q s).
Proof.
  intros Hk. unfold accounts, commit_stats, settled_rows, reading_counters, samples_ok.
  destruct q; (split; [by counting|]); (split; [by counting|]); intros (? & ? & ?); (split; [by counting|done]).
Qed.
Lemma rollback_accounts cap m s :
  accounts cap (N.to_nat m) s (bump transactions_rolled_back 1 (bump rolled_back_lines m s)).
Proof.
  unfold accounts, settled_rows, reading_counters, samples_ok. split; [counting|]. split; [by counting|].
  intros (? & ? & ?). split; [by counting|done].
Qed.
Lemma accounts_trans cap j k s s' s'' : accounts cap j s s' → accounts cap k s' s'' → accounts cap (j + k) s s''.
Proof.
  intros (A1 & A2 & A3) (B1 & B2 & B3). split; [lia|]. split; [congruence|]. auto.
Qed.

Lemma run_accounts cf cap t rows df st p c n s r s' :
  rows ≠ [] → run_transaction cf cap t rows df st p c n s = (Ok r, s') →
  accounts cap (length rows) s (f_stats s') ∧ b_rows (f_batch s') = [] ∧ (cf = None → r = false).
Proof.
  intros Hne. unfold run_transaction. destruct (exec_transaction_control BEGIN c) as [[u|e] c1]; [|done].
  destruct (exec_rows cf st p df rows local0 c1 n) as [[[lo| |e] c2] n2] eqn:Hx.
  - destruct (exec_transaction_control COMMIT c2) as [[u2|e2] c3]; [|done]. intros [= <- <-].
    cbn [f_stats f_batch b_rows empty_batch]. split; [|done]. apply commit_accounts.
    apply exec_rows_count in Hx. rewrite Hx. simpl. lia.
  - destruct (exec_transaction_control ROLLBACK c2) as [u2 c3]. intros [= <- <-].
    cbn [f_stats f_batch b_rows empty_batch]. split; [|split; [done|]].
    + pose proof (rollback_accounts cap (N.of_nat (length rows)) s) as H. by rewrite Nat2N.id in H.
    + intros ->. pose proof (exec_rows_no_cancel st p df rows local0 c1 n) as H. by rewrite Hx in H.
  - intros [= <- <-]. cbn [f_stats f_batch b_rows empty_batch]. split; [|done].
    destruct (classify_spec e t cap s) as (C1 & C2 & _ & _ & _ & _ & C7).
    pose proof (accounts_trans cap 1 _ s _ _ (conj C1 (conj C2 C7))
      (rollback_accounts cap (N.of_nat (length rows) - 1) _)) as H.
    replace (1 + N.to_nat (N.of_nat (length rows) - 1))%nat with (length rows) in H; [exact H|].
    destruct rows; [done|]. cbn [length]. lia.
Qed.

Lemma flush_accounts cf cap s r s' :
  flush_batch cf cap s = (Ok r, s') →
  accounts cap (length (b_rows (f_batch s))) (f_stats s) (f_stats s') ∧ b_rows (f_batch s') = [] ∧
  (cf = None → r = false).
Proof.
  unfold flush_batch. destruct (b_rows (f_batch s)) as [|[[row mp] q] rows] eqn:Hr.
  - intros [= <- <-]. rewrite Hr. split; [|done]. split; [simpl; lia|done].
  - cbv zeta. set (rs := (row, mp, q) :: rows). set (t := b_template (f_batch s)).
    destruct (match _ with Some c => _ | None => _ end) as [prep stats] eqn:Hp.
    assert (accounts cap 0 (f_stats s) stats) as H0.
    { destruct (f_cache s ≫= _) as [c|].
      - injection Hp as _ <-. split; [lia|done].
      - pose proof (prepare_spec (f_conn s) t mp (f_stats s)) as H. rewrite Hp in H.
        destruct H as (H1 & H2 & _ & _ & H5). split; [simpl in *; lia|]. split; [done|]. apply H5. }
    destruct prep as [[st p]|e].
    + intros Hrun. apply run_accounts in Hrun as (H1 & H2 & H3); [|done]. split; [|done].
      by apply (accounts_trans _ 0 _ _ _ _ H0).
    + intros [= <- <-]. cbn [f_stats f_batch b_rows empty_batch]. split; [|done].
      apply (accounts_trans _ 0 _ _ _ _ H0).
      destruct (classify_many (length rs) e t cap stats) as (C1 & C2 & _ & _ & C5). by split.
Qed.
End flushing.

(** ** Windows *)

Section windows.
Context {U : Unicode} {RD : ReplayDeps}.

(** Statistics that differ only in what windows count. *)
Definition same_rows (s s' : ReplayStats) : Prop :=
  settled_rows s' = settled_rows s ∧ reading_counters s' = reading_counters s ∧
  (∀ cap, samples_ok cap s → samples_ok cap s').
Lemma same_rows_trans s s' s'' : same_rows s s' → same_rows s' s'' → same_rows s s''.
Proof. intros (A1 & A2 & A3) (B1 & B2 & B3). split; [congruence|]. split; [congruence|]. auto. Qed.
Definition window_counter (c : counter) : Prop :=
  c = embeddings_recomputed ∨ c = embed_calls ∨ c = embeddings_recompute_skipped_no_text ∨ c = embeddings_recompute_failed.
Lemma same_rows_bump c n s : window_counter c → same_rows s (bump c n s).
Proof.
  intros Hc. unfold same_rows, settled_rows, reading_counters, samples_ok.
  destruct Hc as [-> | [-> | [-> | ->]]]; (split; [by counting|]); (split; [by counting|]);
    intros cap (? & ? & ?); (split; [by counting|done]).
Qed.

Lemma resolve_at_length dim rows t v : length (resolve_at dim rows t v) = length rows.
Proof. apply length_alter. Qed.
Lemma answers_spec dim tvs rows s rows' s' :
  foldl (resolve_answer dim) (rows, s) tvs = (rows', s') →
  length rows' = length rows ∧ same_rows s s' ∧
  (counts s' embeddings_recomputed + counts s' embeddings_recompute_failed =
   counts s embeddings_recomputed + counts s embeddings_recompute_failed + N.of_nat (length tvs))%N.
Proof.
  revert rows s. induction tvs as [|[t v] tvs IH]; intros rows s; cbn [foldl].
  - intros [= <- <-]. split; [done|]. split; [done|]. simpl. lia.
  - unfold resolve_answer at 2. destruct (validate_recomputed_vector v dim); intros (H1 & H2 & H3)%IH;
      rewrite resolve_at_length in H1; (split; [done|]); split;
      [eapply same_rows_trans; [|exact H2]; apply same_rows_bump; unfold window_counter; auto| |
       eapply same_rows_trans; [|exact H2]; apply same_rows_bump; unfold window_counter; auto|];
      rewrite H3; cbn [length]; counting.
Qed.
Lemma failures_spec dim ts rows s rows' s' :
  foldl (resolve_failure dim) (rows, s) ts = (rows', s') →
  length rows' = length rows ∧ same_rows s s' ∧
  (counts s' embeddings_recomputed + counts s' embeddings_recompute_failed =
   counts s embeddings_recomputed + counts s embeddings_recompute_failed + N.of_nat (length ts))%N.
Proof.
  revert rows s. induction ts as [|t ts IH]; intros rows s; cbn [foldl].
  - intros [= <- <-]. split; [done|]. split; [done|]. simpl. lia.
  - unfold resolve_failure at 2. intros (H1 & H2 & H3)%IH. rewrite resolve_at_length in H1.
    split; [done|]. split.
    + eapply same_rows_trans; [|exact H2]. apply same_rows_bump. unfold window_counter. auto.
    + rewrite H3. cbn [length]. counting.
Qed.

Lemma immediate_length dim ts (rows : list (PendingRow * RowEmbeddingOutcome)) :
  length (foldl (λ rows t, resolve_at dim rows t None) rows ts) = length rows.
Proof.
  revert rows. induction ts as [|t ts IH]; intros rows; cbn [foldl]; [done|]. by rewrite IH, resolve_at_length.
Qed.
Lemma omap_length_le {A B : Type} (f : A → option B) (l : list A) : (length (omap f l) ≤ length l)%nat.
Proof.
  induction l as [|x l IH]; [done|]. change (omap f (x :: l)) with (match f x with Some y => y :: omap f l | None => omap f l end).
  destruct (f x); cbn [length]; lia.
Qed.

(** A window of rows: what proceeds and what is skipped is all there was. *)
Definition window_accounts (k : nat) (s : ReplayStats) (m : nat) (s' : ReplayStats) : Prop :=
  settled_rows s' = settled_rows s ∧ (m ≤ k)%nat ∧
  (counts s' embeddings_skip_rows = counts s embeddings_skip_rows + N.of_nat (k - m))%N ∧
  counts s' unrecognised_lines = counts s unrecognised_lines ∧
  counts s' unparseable_lines = counts s unparseable_lines ∧ (∀ cap, samples_ok cap s → samples_ok cap s').

Lemma window_spec w ef n dim s res n' s' :
  resolve_embed_window w ef n dim s = (res, n', s') → window_accounts (length w) s (length res) s'.
Proof.
  unfold resolve_embed_window. cbv zeta.
  set (queued := queued_requests (window_requests w)).
  set (immediate := immediate_requests (window_requests w)).
  set (s1 := bump embeddings_recompute_skipped_no_text _ _).
  assert (same_rows s s1) as H1.
  { eapply same_rows_trans; [apply (same_rows_bump embed_calls)|apply same_rows_bump]; unfold window_counter; auto. }
  set (rows1 := foldl _ _ immediate).
  assert (length rows1 = length w) as Hl1 by (unfold rows1; by rewrite immediate_length, length_fmap).
  destruct (match queued with [] => _ | _ => _ end) as [[rows2 n2] s2] eqn:H2.
  assert (length rows2 = length w ∧ same_rows s s2) as [Hl2 Hs2].
  { destruct queued as [|q qs]; [by injection H2 as <- _ <-|].
    destruct (match ef n _ with Ok _ => _ | Err _ => _ end) as [rows3 s3] eqn:H3.
    injection H2 as <- _ <-. destruct (ef n _) as [vs|e].
    - case_bool_decide; [apply answers_spec in H3 as (? & ? & _)|apply failures_spec in H3 as (? & ? & _)];
        (split; [congruence|by eapply same_rows_trans]).
    - apply failures_spec in H3 as (? & ? & _). split; [congruence|by eapply same_rows_trans]. }
  intros [= <- _ <-]. destruct Hs2 as (A1 & A2 & A3). rewrite <- Hl2.
  pose proof (omap_length_le (λ '(row, o), match o with Proceed => Some row | Skip => None end) rows2) as Hle.
  unfold reading_counters in A2. injection A2 as B1 B2 B3 B4 B5.
  unfold window_accounts, settled_rows, samples_ok in *.
  split; [counting|]. split; [done|]. split; [rewrite counts_bump_eq; f_equal; exact B3|].
  split; [counting|]. split; [counting|].
  intros cap Hc. destruct (A3 cap Hc) as (? & ? & ?). split; [|done]. cbn [failed_samples bump]. counting.
Qed.
End windows.

(** ** The run *)

Section runs.
Context {U : Unicode} {SR : SeqReader} {RD : ReplayDeps} {DB : Db} {LGP : LegacyPatterns}.

Lemma reading_eqs s s' : reading_counters s' = reading_counters s →
  counts s' unrecognised_lines = counts s unrecognised_lines ∧
  counts s' unparseable_lines = counts s unparseable_lines ∧
  counts s' embeddings_skip_rows = counts s embeddings_skip_rows.
Proof. unfold reading_counters. intros H. by injection H. Qed.

(** What is in the batch or through it. *)
Definition batch_ledger (s : fstate) : N := (settled_rows (f_stats s) + N.of_nat (length (b_rows (f_batch s))))%N.

(** A step that moves [k] rows into the batch. *)
Definition fmoves (cap k : nat) (s s' : fstate) : Prop :=
  batch_ledger s' = (batch_ledger s + N.of_nat k)%N ∧
  reading_counters (f_stats s') = reading_counters (f_stats s) ∧
  (samples_ok cap (f_stats s) → samples_ok cap (f_stats s')).
Lemma fmoves_trans cap j k s s' s'' : fmoves cap j s s' → fmoves cap k s' s'' → fmoves cap (j + k) s s''.
Proof. intros (A1 & A2 & A3) (B1 & B2 & B3). split; [lia|]. split; [congruence|]. auto. Qed.
Lemma fmoves_refl cap s : fmoves cap 0 s s.
Proof. split; [lia|done]. Qed.

Lemma flush_moves cap s r s' : flush_batch None cap s = (Ok r, s') → r = false ∧ fmoves cap 0 s s' ∧ b_rows (f_batch s') = [].
Proof.
  intros H. destruct (flush_accounts None cap s r s' H) as ((A1 & A2 & A3) & A4 & A5).
  split; [by apply A5|]. split; [|done]. split; [|done]. unfold batch_ledger. rewrite A1, A4. cbn [length]. lia.
Qed.
Lemma flush_if_moves due cap s r s' :
  flush_if due None cap s = (Ok r, s') → r = false ∧ fmoves cap 0 s s'.
Proof.
  unfold flush_if. destruct due; [|intros [= <- <-]; split; [done|apply fmoves_refl]].
  intros H. by destruct (flush_moves _ _ _ _ H) as (? & ? & _).
Qed.
Lemma push_row_moves cap row s : fmoves cap 1 s (push_row row s).
Proof.
  unfold push_row, fmoves, batch_ledger. destruct (b_rows (f_batch s)) as [|e es] eqn:Hb;
    cbn [set_batch f_batch f_stats b_rows length]; (split; [|done]); rewrite ?length_app; cbn [length]; lia.
Qed.
Lemma push_moves cap size rows s r s' :
  push_resolved_rows None cap size rows s = (Ok r, s') → r = false ∧ fmoves cap (length rows) s s'.
Proof.
  revert s. induction rows as [|row rows IH]; intros s; cbn [push_resolved_rows].
  - intros [= <- <-]. split; [done|]. apply fmoves_refl.
  - destruct (flush_if _ None cap s) as [[b1|e1] s1] eqn:H1; [|done].
    destruct (flush_if_moves _ _ _ _ _ H1) as [-> Hm1].
    pose proof (push_row_moves cap row s1) as Hm2. set (s2 := push_row row s1) in *.
    destruct (flush_if _ None cap s2) as [[b3|e3] s3] eqn:H3; [|done].
    destruct (flush_if_moves _ _ _ _ _ H3) as [-> Hm3].
    intros [-> Hm4]%IH. split; [done|].
    apply (fmoves_trans _ 0 _ _ _ _ Hm1), (fmoves_trans _ 1 _ _ _ _ Hm2), (fmoves_trans _ 0 _ _ _ _ Hm3), Hm4.
Qed.

(** The rows a run has read so far. *)
Definition ledger (s : lstate) : N :=
  (batch_ledger (l_f s) + counts (f_stats (l_f s)) embeddings_skip_rows + N.of_nat (length (l_window s)))%N.
(** A step that reads [k] mutations, [u] unrecognised and [p] unparseable lines. *)
Definition lmoves (cap : nat) (k u p : N) (s s' : lstate) : Prop :=
  ledger s' = (ledger s + k)%N ∧
  counts (f_stats (l_f s')) unrecognised_lines = (counts (f_stats (l_f s)) unrecognised_lines + u)%N ∧
  counts (f_stats (l_f s')) unparseable_lines = (counts (f_stats (l_f s)) unparseable_lines + p)%N ∧
  (samples_ok cap (f_stats (l_f s)) → samples_ok cap (f_stats (l_f s'))).
Lemma lmoves_trans cap k u p k' u' p' s s' s'' :
  lmoves cap k u p s s' → lmoves cap k' u' p' s' s'' → lmoves cap (k + k') (u + u') (p + p') s s''.
Proof. intros (A1 & A2 & A3 & A4) (B1 & B2 & B3 & B4). split; [lia|]. split; [lia|]. split; [lia|]. auto. Qed.
Lemma lmoves_refl cap s : lmoves cap 0 0 0 s s.
Proof. unfold lmoves. rewrite !N.add_0_r. done. Qed.

Lemma flush_l_moves cap opts s r s' :
  cancel_fn opts = None → flush_l opts cap s = (Ok r, s') →
  r = false ∧ lmoves cap 0 0 0 s s' ∧ b_rows (f_batch (l_f s')) = [] ∧ l_window s' = l_window s.
Proof.
  intros Hc. unfold flush_l. rewrite Hc. destruct (flush_batch None cap (l_f s)) as [[b|e] f] eqn:Hf; [|done].
  intros [= <- <-]. destruct (flush_moves _ _ _ _ Hf) as (-> & (A1 & A2 & A3) & A4).
  destruct (reading_eqs _ _ A2) as (R1 & R2 & R3). split; [done|]. split; [|done].
  unfold lmoves, ledger. cbn [with_f l_f l_window]. rewrite R1, R2, R3, A1. split; [lia|]. split; [lia|]. split; [lia|done].
Qed.
Lemma flush_window_moves cap opts size s r s' :
  cancel_fn opts = None → flush_window opts cap size s = (Ok r, s') →
  r = false ∧ lmoves cap 0 0 0 s s' ∧ l_window s' = [].
Proof.
  intros Hc. unfold flush_window.
  destruct (resolve_embed_window _ _ _ _ _) as [[res n] st] eqn:Hw.
  destruct (window_spec _ _ _ _ _ _ _ _ Hw) as (W1 & W2 & W3 & W4 & W5 & W6).
  rewrite Hc. destruct (push_resolved_rows None cap size res _) as [[b|e] f] eqn:Hp; [|done].
  intros [= <- <-]. destruct (push_moves _ _ _ _ _ _ Hp) as (-> & (A1 & A2 & A3)).
  destruct (reading_eqs _ _ A2) as (R1 & R2 & R3). split; [done|]. split; [|done].
  unfold lmoves, ledger, batch_ledger in *. cbn [l_f l_window set_stats f_stats f_batch length] in *.
  rewrite R1, R2, R3, A1, W1, W3, W4, W5. split; [lia|]. split; [lia|]. split; [lia|]. intros Hs. by apply A3, W6.
Qed.

Lemma count_line_moves cap c s :
  (c = unrecognised_lines → lmoves cap 0 1 0 s (count_line c s)) ∧
  (c = unparseable_lines → lmoves cap 0 0 1 s (count_line c s)) ∧
  (c = files_read ∨ c = seq_regressions → lmoves cap 0 0 0 s (count_line c s)).
Proof.
  unfold lmoves, ledger, batch_ledger, settled_rows, samples_ok, count_line.
  cbn [with_f l_f l_window set_stats f_stats f_batch failed_samples bump].
  split; [|split]; [intros ->|intros ->|intros [-> | ->]];
    (split; [counting|]); (split; [counting|]); (split; [counting|]); intros (? & ? & ?); (split; [by counting|done]).
Qed.
Lemma note_seq_moves cap q s : lmoves cap 0 0 0 s (note_seq q s).
Proof.
  unfold note_seq. destruct (l_max_seq s) as [m|]; [|exact (lmoves_refl cap s)].
  destruct (q <=? m)%N; [|exact (lmoves_refl cap s)].
  destruct (count_line_moves cap seq_regressions s) as (_ & _ & H). exact (H (or_intror eq_refl)).
Qed.

(** The lines of each kind. *)
Definition is_mutation (k : line_kind) : bool := match k with LMutation _ => true | _ => false end.
Definition is_unrecognised (k : line_kind) : bool := match k with LUnrecognised _ => true | _ => false end.
Definition is_unparseable (k : line_kind) : bool := match k with LUnparseable => true | _ => false end.
Definition tally (p : line_kind → bool) (ks : list line_kind) : N := N.of_nat (length (List.filter p ks)).
Lemma tally_cons p k ks : tally p (k :: ks) = ((if p k then 1 else 0) + tally p ks)%N.
Proof. unfold tally. simpl. destruct (p k); simpl; lia. Qed.
Lemma tally_app p ks js : tally p (ks ++ js) = (tally p ks + tally p js)%N.
Proof. unfold tally. rewrite List.filter_app, length_app. lia. Qed.
Definition lmoves_kinds (cap : nat) (ks : list line_kind) : lstate → lstate → Prop :=
  lmoves cap (tally is_mutation ks) (tally is_unrecognised ks) (tally is_unparseable ks).

(** A run that nothing interrupts. *)
Definition uninterrupted (opts : ReplayOptions) : Prop :=
  dry_run opts = false ∧ cancel_fn opts = None ∧ progress_fn opts = None.

Lemma progress_none opts s : progress_fn opts = None → progress opts s = (true, s).
Proof. intros H. unfold progress. by rewrite H. Qed.
Lemma push_window_moves cap row s : lmoves cap 1 0 0 s (push_window row s).
Proof.
  unfold lmoves, ledger, push_window. cbn [l_f l_window]. rewrite length_app. cbn [length].
  split; [lia|]. split; [lia|]. split; [lia|done].
Qed.
Lemma take_mutation_moves opts cap bsize wsize l s fl s' :
  uninterrupted opts → take_mutation opts cap bsize wsize l s = (fl, s') →
  fl ≠ Stop ∧ (fl = Go → lmoves cap 1 0 0 s s').
Proof.
  intros (Hd & Hc & _). unfold take_mutation. rewrite Hd.
  pose proof (push_window_moves cap (pending_row l) s) as H1. set (s1 := push_window _ s) in *.
  destruct (wsize <=? _)%N; [|intros [= <- <-]; split; [done|by intros _]].
  destruct (flush_window opts cap bsize s1) as [[b|e] s2] eqn:Hf.
  - destruct (flush_window_moves _ _ _ _ _ _ Hc Hf) as (-> & H2 & _). intros [= <- <-].
    split; [done|]. intros _. exact (lmoves_trans _ _ _ _ _ _ _ _ _ _ H1 H2).
  - intros [= <- <-]. done.
Qed.

Lemma process_line_moves opts cap bsize wsize raw k s fl k' s' :
  uninterrupted opts → process_line opts cap bsize wsize raw k s = (fl, k', s') →
  fl ≠ Stop ∧ (fl = Go → lmoves_kinds cap [classify_line opts raw] s s').
Proof.
  intros Hu. unfold process_line, lmoves_kinds. destruct (classify_line opts raw) as [| |q|l].
  - intros [= <- _ <-]. split; [done|]. intros _. by apply count_line_moves.
  - intros [= <- _ <-]. split; [done|]. intros _. apply lmoves_refl.
  - intros [= <- _ <-]. split; [done|]. intros _.
    refine (lmoves_trans _ 0 0 0 _ _ _ _ _ _ (note_seq_moves cap q s) _). by apply count_line_moves.
  - destruct (take_mutation opts cap bsize wsize l (note_seq (wl_seq l) s)) as [fl1 s1] eqn:Ht.
    destruct (take_mutation_moves _ _ _ _ _ _ _ _ Hu Ht) as [H1 H2].
    destruct fl1; [|done|intros [= <- _ <-]; done].
    destruct Hu as (Hd & Hc & Hp). rewrite Hc. cbn [ask].
    assert (lmoves cap 1 0 0 s s1) as H3.
    { refine (lmoves_trans _ 0 0 0 1 0 0 _ _ _ (note_seq_moves cap _ s) _). by apply H2. }
    rewrite progress_none by done.
    destruct ((k + 1) mod 1000 =? 0)%N; intros [= <- _ <-]; (split; [done|]); intros _; exact H3.
Qed.

Lemma process_lines_moves opts cap bsize wsize ls k s fl s' :
  uninterrupted opts → process_lines opts cap bsize wsize ls k s = (fl, s') →
  fl ≠ Stop ∧ (fl = Go → lmoves_kinds cap (classify_line opts <$> ls) s s').
Proof.
  intros Hu. revert k s. induction ls as [|raw ls IH]; intros k s; cbn [process_lines].
  - intros [= <- <-]. split; [done|]. intros _. apply lmoves_refl.
  - destruct (process_line opts cap bsize wsize raw k s) as [[fl1 k1] s1] eqn:Hl.
    destruct (process_line_moves _ _ _ _ _ _ _ _ _ _ Hu Hl) as [H1 H2].
    destruct fl1; [|done|intros [= <- <-]; done]. intros Hrest.
    destruct (IH _ _ Hrest) as [H3 H4]. split; [done|]. intros Hg.
    unfold lmoves_kinds. rewrite fmap_cons. change (classify_line opts raw :: (classify_line opts <$> ls))
      with ([classify_line opts raw] ++ (classify_line opts <$> ls)).
    rewrite !tally_app. eapply lmoves_trans; [by apply H2|by apply H4].
Qed.

(** The kinds of the lines a run reads, in order. *)
Definition file_kinds (opts : ReplayOptions) (f : wfile) : list line_kind :=
  match wf_bytes f with Some bs => classify_line opts <$> buf_lines bs | None => [] end.
Lemma process_file_moves opts cap bsize wsize f s fl s' :
  uninterrupted opts → process_file opts cap bsize wsize f s = (fl, s') →
  fl ≠ Stop ∧ (fl = Go → lmoves_kinds cap (file_kinds opts f) s s').
Proof.
  intros Hu. unfold process_file, file_kinds. destruct Hu as (Hd & Hc & Hp).
  rewrite progress_none by done. cbn [negb].
  assert (lmoves cap 0 0 0 s (count_line files_read s)) as H0 by (apply count_line_moves; by left).
  destruct (wf_bytes f) as [bs|]; [|intros [= <- <-]; split; [done|by intros _]].
  destruct (process_lines _ _ _ _ (buf_lines bs) 0 _) as [fl1 s1] eqn:Hl.
  destruct (process_lines_moves opts _ _ _ _ _ _ _ _ ltac:(done) Hl) as [H1 H2].
  destruct fl1; [|done|intros [= <- <-]; done]. rewrite Hd.
  destruct (flush_l opts cap s1) as [[b|e] s2] eqn:Hf; [|intros [= <- <-]; done].
  destruct (flush_l_moves _ _ _ _ _ Hc Hf) as (-> & H3 & _). intros [= <- <-]. split; [done|]. intros _.
  unfold lmoves_kinds. pose proof (lmoves_trans _ _ _ _ _ _ _ _ _ _ (H2 eq_refl) H3) as H4.
  rewrite !N.add_0_r in H4. exact (lmoves_trans _ 0 0 0 _ _ _ _ _ _ H0 H4).
Qed.
Lemma process_files_moves opts cap bsize wsize fs s fl s' :
  uninterrupted opts → process_files opts cap bsize wsize fs s = (fl, s') →
  fl ≠ Stop ∧ (fl = Go → lmoves_kinds cap (fs ≫= file_kinds opts) s s').
Proof.
  intros Hu. revert s. induction fs as [|f fs IH]; intros s; cbn [process_files].
  - intros [= <- <-]. split; [done|]. intros _. apply lmoves_refl.
  - destruct (process_file opts cap bsize wsize f s) as [fl1 s1] eqn:Hf.
    destruct (process_file_moves _ _ _ _ _ _ _ _ Hu Hf) as [H1 H2].
    destruct fl1; [|done|intros [= <- <-]; done]. intros Hrest. destruct (IH _ Hrest) as [H3 H4].
    split; [done|]. intros Hg. unfold lmoves_kinds. rewrite bind_cons, !tally_app.
    eapply lmoves_trans; [by apply H2|by apply H4].
Qed.
End runs.

(** ** A run returns when transactions can be opened and closed *)

Section total.
Context {U : Unicode} {SR : SeqReader} {RD : ReplayDeps} {DB : Db} {LGP : LegacyPatterns}.
Context (tx_total : ∀ cmd c, is_ok (exec_transaction_control cmd c).1 = true).

Lemma run_total cf cap t rows df st p c n s : is_ok (run_transaction cf cap t rows df st p c n s).1 = true.
Proof.
  unfold run_transaction. pose proof (tx_total BEGIN c) as Hb.
  destruct (exec_transaction_control BEGIN c) as [[u|e] c1]; [|done].
  destruct (exec_rows _ _ _ _ _ _ _ _) as [[[lo| |e] c2] n2].
  - pose proof (tx_total COMMIT c2) as Hc. by destruct (exec_transaction_control COMMIT c2) as [[u2|e] c3].
  - by destruct (exec_transaction_control ROLLBACK c2).
  - done.
Qed.
Lemma flush_total cf cap s : is_ok (flush_batch cf cap s).1 = true.
Proof.
  unfold flush_batch. destruct (b_rows (f_batch s)) as [|[[row mp] q] rows]; [done|]. cbv zeta.
  destruct (match _ with Some c => _ | None => _ end) as [[[st p]|e] stats]; [apply run_total|done].
Qed.
Lemma flush_if_total due cf cap s : is_ok (flush_if due cf cap s).1 = true.
Proof. unfold flush_if. destruct due; [apply flush_total|done]. Qed.
Lemma push_total cf cap size rows s : is_ok (push_resolved_rows cf cap size rows s).1 = true.
Proof.
  revert s. induction rows as [|row rows IH]; intros s; cbn [push_resolved_rows]; [done|].
  pose proof (flush_if_total (bool_decide (b_rows (f_batch s) ≠ []) && bool_decide (b_template (f_batch s) ≠ pr_cypher row)) cf cap s) as H1.
  destruct (flush_if _ cf cap s) as [[[|]|e] s1]; [done| |done].
  pose proof (flush_if_total (size <=? N.of_nat (length (b_rows (f_batch (push_row row s1)))))%N cf cap (push_row row s1)) as H2.
  destruct (flush_if _ cf cap (push_row row s1)) as [[[|]|e] s2]; [done|apply IH|done].
Qed.
Lemma flush_window_total opts cap size s : is_ok (flush_window opts cap size s).1 = true.
Proof.
  unfold flush_window. destruct (resolve_embed_window _ _ _ _ _) as [[res n] st].
  pose proof (push_total (cancel_fn opts) cap size res (set_stats st (l_f s))) as H.
  by destruct (push_resolved_rows _ _ _ _ _) as [[b|e] f].
Qed.
Lemma flush_l_total opts cap s : is_ok (flush_l opts cap s).1 = true.
Proof.
  unfold flush_l. pose proof (flush_total (cancel_fn opts) cap (l_f s)) as H.
  by destruct (flush_batch _ _ _) as [[b|e] f].
Qed.
Definition no_fail (fl : flow) : Prop := match fl with Fail _ => False | _ => True end.
Lemma process_line_total opts cap bsize wsize raw k s : no_fail (process_line opts cap bsize wsize raw k s).1.1.
Proof.
  unfold process_line. destruct (classify_line opts raw) as [| |q|l]; [done..|].
  destruct (take_mutation opts cap bsize wsize l _) as [fl s1] eqn:Ht.
  assert (no_fail fl) as Hfl.
  { revert Ht. unfold take_mutation. destruct (dry_run opts); [by intros [= <- _]|].
    destruct (wsize <=? _)%N; [|by intros [= <- _]].
    pose proof (flush_window_total opts cap bsize (push_window (pending_row l) (note_seq (wl_seq l) s))) as H.
    destruct (flush_window _ _ _ _) as [[[|]|e] s2]; [by intros [= <- _]..|done]. }
  destruct fl; [|done|done]. destruct (ask _ _) as [[|] n]; [done|]. cbn [andb].
  destruct (_ mod 1000 =? 0)%N; [|done]. by destruct (progress opts _) as [[|] s2].
Qed.
Lemma process_lines_total opts cap bsize wsize ls k s : no_fail (process_lines opts cap bsize wsize ls k s).1.
Proof.
  revert k s. induction ls as [|raw ls IH]; intros k s; cbn [process_lines]; [done|].
  pose proof (process_line_total opts cap bsize wsize raw k s) as H.
  destruct (process_line _ _ _ _ _ _ _) as [[fl k1] s1]. destruct fl; [apply IH|done|done].
Qed.
Lemma process_file_total opts cap bsize wsize f s : no_fail (process_file opts cap bsize wsize f s).1.
Proof.
  unfold process_file. destruct (progress opts _) as [[|] s1]; cbn [negb]; [|done].
  destruct (wf_bytes f) as [bs|]; [|done].
  pose proof (process_lines_total opts cap bsize wsize (buf_lines bs) 0 s1) as H.
  destruct (process_lines _ _ _ _ _ _ _) as [fl s2]. destruct fl; [|done|done].
  destruct (dry_run opts); [done|]. pose proof (flush_l_total opts cap s2) as Hf.
  by destruct (flush_l opts cap s2) as [[[|]|e] s3].
Qed.
Lemma process_files_total opts cap bsize wsize fs s : no_fail (process_files opts cap bsize wsize fs s).1.
Proof.
  revert s. induction fs as [|f fs IH]; intros s; cbn [process_files]; [done|].
  pose proof (process_file_total opts cap bsize wsize f s) as H.
  destruct (process_file _ _ _ _ _ _) as [fl s1]. destruct fl; [apply IH|done|done].
Qed.
Lemma finish_total opts env cap bsize ab s : is_ok (finish_replay opts env cap bsize ab s).1 = true.
Proof.
  unfold finish_replay. destruct (dry_run opts); [done|].
  pose proof (flush_window_total opts cap bsize s) as Hw.
  destruct (negb ab && _); [destruct (flush_window _ _ _ _) as [[b|e] s1]; [|done]|];
    cbn iota beta; (match goal with |- context [flush_l opts cap ?x] => pose proof (flush_l_total opts cap x) as Hf;
      by destruct (flush_l opts cap x) as [[b'|e] s2] end).
Qed.
End total.

Lemma replay_files_perm `{SeqReader} d : replay_files d ≡ₚ jsonl_files d.
Proof.
  unfold replay_files. rewrite (fmap_Permutation snd _ _ (sort_by_perm _ _)).
  rewrite <- list_fmap_compose. by rewrite list_fmap_id.
Qed.

(** ** Properties *)

Section accounting.
Context {U : Unicode} {SR : SeqReader} {RD : ReplayDeps} {DB : Db} {LGP : LegacyPatterns}.

(** After the last flushes nothing is pending. *)
Lemma finish_moves opts env cap bsize s st s' :
  uninterrupted opts → finish_replay opts env cap bsize false s = (Ok st, s') →
  lmoves cap 0 0 0 s s' ∧ b_rows (f_batch (l_f s')) = [] ∧ l_window s' = [] ∧
  counts st = counts (f_stats (l_f s')) ∧ failed_samples st = failed_samples (f_stats (l_f s')).
Proof.
  intros (Hd & Hc & _). unfold finish_replay. rewrite Hd. cbn [negb andb].
  case_bool_decide as Hw.
  - destruct (flush_window opts cap bsize s) as [[b|e] s1] eqn:H1; [|done].
    destruct (flush_window_moves _ _ _ _ _ _ Hc H1) as (_ & M1 & W1).
    destruct (flush_l opts cap s1) as [[b2|e2] s2] eqn:H2; [|done].
    destruct (flush_l_moves _ _ _ _ _ Hc H2) as (_ & M2 & B2 & W2). intros [= <- <-].
    split; [exact (lmoves_trans _ 0 0 0 0 0 0 _ _ _ M1 M2)|]. split; [done|]. split; [congruence|done].
  - destruct (flush_l opts cap s) as [[b2|e2] s2] eqn:H2; [|done].
    destruct (flush_l_moves _ _ _ _ _ Hc H2) as (_ & M2 & B2 & W2). intros [= <- <-].
    split; [done|]. split; [done|]. split; [|done]. rewrite W2. by destruct (decide (l_window s = [])).
Qed.

(** C1. An uninterrupted replay returns as long as transactions can be opened and closed, reads
    every WAL file of the directory once, and accounts for every line exactly once: each mutation
    in range was executed with effect, matched nothing, failed, was rolled back with its batch or
    was skipped for want of a text; and the failure details account for every failed row. *)
Theorem replay_accounts_every_line opts env d c bsize wsize :
  uninterrupted opts → (∀ cmd c, is_ok (exec_transaction_control cmd c).1 = true) →
  (∀ t, to_seq opts = Some t → (from_seq opts ≤ t)%N) →
  resolve_batch_size (batch_size opts) (env_batch_size env) = Ok bsize →
  resolve_embed_window_size (embed_window_size opts) (env_embed_window_size env) = Ok wsize →
  let kinds := replay_files d ≫= file_kinds opts in
  replay_files d ≡ₚ jsonl_files d ∧
  ∃ stats c', replay_opts opts env (Some (Some d)) c = (Ok stats, c') ∧
    (settled_rows stats + counts stats embeddings_skip_rows = tally is_mutation kinds)%N ∧
    counts stats unrecognised_lines = tally is_unrecognised kinds ∧
    counts stats unparseable_lines = tally is_unparseable kinds ∧
    counts stats failed_lines = (sample_rows (failed_samples stats) + counts stats failed_sample_categories_dropped)%N.
Proof.
  intros Hu Htx Hrange Hb Hw kinds. subst kinds. split; [apply replay_files_perm|]. unfold replay_opts.
  assert (match to_seq opts with Some t => (t <? from_seq opts)%N | None => false end = false) as ->.
  { destruct (to_seq opts) as [t|]; [|done]. apply N.ltb_ge. by apply Hrange. }
  rewrite Hb, Hw. set (cap := match failure_sample_cap opts with Some _ => _ | None => _ end).
  set (s0 := Build_lstate _ _ _ _ _).
  pose proof (process_files_total Htx opts cap bsize wsize (replay_files d) s0) as Hnf.
  destruct (process_files opts cap bsize wsize (replay_files d) s0) as [fl s1] eqn:Hf.
  destruct (process_files_moves _ _ _ _ _ _ _ _ Hu Hf) as [H1 H2]. destruct fl; [|done|done].
  specialize (H2 eq_refl). pose proof (finish_total Htx opts env cap bsize false s1) as Hft.
  destruct (finish_replay opts env cap bsize false s1) as [[stats|e] s2] eqn:Hfin; [|done].
  destruct (finish_moves _ _ _ _ _ _ _ Hu Hfin) as (H3 & Hbatch & Hwin & Hcounts & Hsamples).
  exists stats, (f_conn (l_f s2)). split; [done|].
  destruct (lmoves_trans _ _ _ _ _ _ _ _ _ _ H2 H3) as (L1 & L2 & L3 & L4).
  unfold ledger, batch_ledger in L1. rewrite Hbatch, Hwin in L1.
  unfold settled_rows in *. rewrite Hcounts, Hsamples. cbn [s0 l_f f_stats f_batch l_window empty_batch b_rows counts empty_stats length] in *.
  split; [lia|]. split; [lia|]. split; [lia|]. apply L4. split; [done|]. split; [constructor|simpl; lia].
Qed.

(** The count of failure categories that were dropped is a count of rows: once the cap is
    reached, every further failure of one and the same category adds one to it. *)
Theorem dropped_categories_count_rows e t cap n s :
  (cap ≤ length (failed_samples s))%nat → (t, e) ∉ sample_keys (failed_samples s) →
  let s' := Nat.iter n (classify_replay_failure e t cap) s in
  failed_samples s' = failed_samples s ∧
  counts s' failed_sample_categories_dropped = (counts s failed_sample_categories_dropped + N.of_nat n)%N.
Proof.
  intros Hcap Hk. cbv zeta. induction n as [|n [IH1 IH2]]; [simpl; split; [done|lia]|].
  rewrite Nat.iter_succ. set (s1 := Nat.iter n _ s) in *. unfold classify_replay_failure.
  cbn [existsb LEGACY_SCHEMA_ERROR_PATTERNS].
  change (failed_samples (bump failed_lines 1 s1)) with (failed_samples s1). rewrite IH1.
  destruct (bump_sample t e (failed_samples s)) as [l|] eqn:Hb.
  - exfalso. clear -Hb Hk. revert l Hb. induction (failed_samples s) as [|x l IH]; intros l'; [done|].
    simpl. rewrite sample_keys_cons, not_elem_of_cons in Hk. case_bool_decide as Hx; [destruct Hk as [Hk _], Hx as [Ht He]; exfalso; apply Hk; by rewrite Ht, He|].
    intros (l1 & Hl & _)%fmap_Some. destruct Hk as [_ Hk]. exact (IH Hk _ Hl).
  - rewrite (proj2 (Nat.ltb_ge _ _)) by done. cbn [failed_samples bump]. split; [done|]. counting.
Qed.
End accounting.

(** ** Transactions *)

(** What the replay relies on about the engine: inside a transaction nothing becomes durable before
    the commit, and a statement that fails has already undone the transaction. *)
Class DbTx `{DB : Db} := {
  content : Type;
  durable : conn → content;
  in_tx : conn → Prop;
  begin_ok c c' : exec_transaction_control BEGIN c = (Ok tt, c') → in_tx c' ∧ durable c' = durable c;
  exec_ok c st v c' : in_tx c → execute_prepared c st v = (Ok tt, c') → in_tx c' ∧ durable c' = durable c;
  exec_err c st v e c' : in_tx c → execute_prepared c st v = (Err e, c') → durable c' = durable c;
  count_ok c st v k c' :
    in_tx c → execute_prepared_returning_count c st v = (Ok k, c') → in_tx c' ∧ durable c' = durable c;
  count_err c st v e c' :
    in_tx c → execute_prepared_returning_count c st v = (Err e, c') → durable c' = durable c;
  rollback_any c r c' : in_tx c → exec_transaction_control ROLLBACK c = (r, c') → durable c' = durable c;
}.

Section atomic.
Context {U : Unicode} {DB : Db} {TX : DbTx}.

Lemma exec_row_tx c st p v r c' :
  in_tx c → exec_row c st p v = (r, c') → durable c' = durable c ∧ (is_ok r = true → in_tx c').
Proof.
  intros Hin. unfold exec_row. destruct p.
  - destruct (execute_prepared_returning_count c st v) as [[k|e] c1] eqn:He; intros [= <- <-].
    + destruct (count_ok _ _ _ _ _ Hin He). done.
    + split; [by eapply count_err|done].
  - destruct (execute_prepared c st v) as [[[]|e] c1] eqn:He; intros [= <- <-].
    + destruct (exec_ok _ _ _ _ Hin He). done.
    + split; [by eapply exec_err|done].
Qed.
Lemma exec_rows_tx cf st p df rows lo c n e c' n' :
  in_tx c → exec_rows cf st p df rows lo c n = (e, c', n') →
  durable c' = durable c ∧ (∀ x, e ≠ RowsFailed x) ∧ in_tx c' ∨
  durable c' = durable c ∧ ∃ x, e = RowsFailed x.
Proof.
  revert lo c n. induction rows as [|[[row mp] q] rows IH]; intros lo c n Hin; cbn [exec_rows].
  - intros [= <- <- <-]. by left.
  - destruct (ask cf n) as [[|] n1]; [intros [= <- <- <-]; by left|].
    destruct (exec_row c st (mp && p) (VObject row)) as [r c1] eqn:Hr.
    destruct (exec_row_tx _ _ _ _ _ _ Hin Hr) as [Hd Ht].
    destruct r as [[k|]|x].
    + intros H. rewrite <- Hd. eapply IH; [by apply Ht|exact H].
    + intros H. rewrite <- Hd. eapply IH; [by apply Ht|exact H].
    + intros [= <- <- <-]. right. split; [done|by exists x].
Qed.

(** The counters of rows that took effect, or were found to have none. *)
Definition effects (s : ReplayStats) : N * N * N * N * N :=
  (counts s lines_replayed, counts s match_prefixed_replayed, counts s match_prefixed_no_op,
   counts s match_delete_no_op, counts s transactions_committed).
Definition losses (s : ReplayStats) : N * N * N * N :=
  (counts s failed_lines, counts s legacy_skipped_lines, counts s rolled_back_lines, counts s transactions_rolled_back).

Lemma classify_effects e t cap s : effects (classify_replay_failure e t cap s) = effects s.
Proof.
  unfold classify_replay_failure. cbn [existsb LEGACY_SCHEMA_ERROR_PATTERNS]. unfold effects.
  destruct (bump_sample _ _ _); [by counting|]. destruct (_ <? cap)%nat; by counting.
Qed.
Lemma classify_many_effects n e t cap s : effects (Nat.iter n (classify_replay_failure e t cap) s) = effects s.
Proof. induction n as [|n IH]; [done|]. by rewrite Nat.iter_succ, classify_effects. Qed.
Lemma prepare_effects c t mp s (s' := (prepare_batch c t mp s).2) : effects s' = effects s ∧ losses s' = losses s.
Proof.
  subst s'. unfold prepare_batch, effects, losses.
  destruct mp; [destruct (prepare c (with_match_count_probe t))|]; split; by counting.
Qed.

(** The batch's transaction committed: every row ran in it, in order. *)
Definition committed (cf : option (nat → bool)) (s s' : fstate) : Prop :=
  ∃ st p df lo c1 c2 n2 m,
    exec_transaction_control BEGIN (f_conn s) = (Ok tt, c1) ∧
    exec_rows cf st p df (b_rows (f_batch s)) local0 c1 (f_cancels s) = (RowsDone lo, c2, n2) ∧
    exec_transaction_control COMMIT c2 = (Ok tt, f_conn s') ∧
    losses (f_stats s') = losses (f_stats s) ∧
    counts (f_stats s') transactions_committed = (counts (f_stats s) transactions_committed + 1)%N ∧
    last_committed_seq (f_stats s') = Some m ∧
    is_max ((snd <$> b_rows (f_batch s)) ++ option_list (last_committed_seq (f_stats s))) (Some m).

Lemma omax_joined (l : list N) (o : option N) (a : N) :
  is_max l (Some a) → is_max (l ++ option_list o) (omax o a).
Proof.
  intros H. destruct o as [b|]; [|by rewrite app_nil_r]. apply is_max_snoc with (x := b) in H.
  unfold omax in *. by rewrite N.max_comm.
Qed.
Lemma commit_spec lo q s (s' := commit_stats lo (Some q) s) :
  losses s' = losses s ∧ counts s' transactions_committed = (counts s transactions_committed + 1)%N ∧
  last_committed_seq s' = omax (last_committed_seq s) q.
Proof. subst s'. unfold commit_stats, losses. split; [by counting|]. split; [counting|done]. Qed.
Lemma max_seq_some rows : rows ≠ [] → ∃ a, max_seq_of rows = Some a ∧ is_max (snd <$> rows) (Some a).
Proof.
  intros Hne. unfold max_seq_of. pose proof (omax_scan (snd <$> rows)) as H.
  destruct (foldl omax None (snd <$> rows)) as [a|]; [by exists a|]. by destruct rows.
Qed.

(** The transaction of a prepared batch either commits or leaves no trace. *)
Lemma run_atomic cf cap t rows df st p c n s r s' :
  rows ≠ [] → run_transaction cf cap t rows df st p c n s = (Ok r, s') →
  (durable (f_conn s') = durable c ∧ effects (f_stats s') = effects s ∧
   last_committed_seq (f_stats s') = last_committed_seq s) ∨
  (r = false ∧ ∃ lo c1 c2 n2 m, exec_transaction_control BEGIN c = (Ok tt, c1) ∧
    exec_rows cf st p df rows local0 c1 n = (RowsDone lo, c2, n2) ∧
    exec_transaction_control COMMIT c2 = (Ok tt, f_conn s') ∧
    losses (f_stats s') = losses s ∧
    counts (f_stats s') transactions_committed = (counts s transactions_committed + 1)%N ∧
    last_committed_seq (f_stats s') = Some m ∧ is_max ((snd <$> rows) ++ option_list (last_committed_seq s)) (Some m)).
Proof.
  intros Hne. unfold run_transaction.
  destruct (exec_transaction_control BEGIN c) as [[[]|e] c1] eqn:Hb; [|done].
  destruct (begin_ok _ _ Hb) as [Hin Hd].
  destruct (exec_rows cf st p df rows local0 c1 n) as [[[lo| |e] c2] n2] eqn:Hx.
  - destruct (exec_transaction_control COMMIT c2) as [[[]|e] c3] eqn:Hc; [|done]. intros [= <- <-]. right.
    cbn [f_stats f_conn]. destruct (max_seq_some rows Hne) as (a & Ha & Hm). rewrite Ha.
    destruct (commit_spec lo a s) as (C1 & C2 & C3). split; [done|]. rewrite C1, C2, C3.
    do 4 eexists. eexists. split; [done|]. split; [exact Hx|]. split; [done|]. split; [done|]. split; [done|].
    split; [done|]. by apply omax_joined.
  - destruct (exec_transaction_control ROLLBACK c2) as [r2 c3] eqn:Hc. intros [= <- <-]. left. cbn [f_stats f_conn].
    destruct (exec_rows_tx _ _ _ _ _ _ _ _ _ _ _ Hin Hx) as [(Hd2 & _ & Hin2)|(_ & x & Hx2)]; [|done].
    rewrite (rollback_any _ _ _ Hin2 Hc). split; [congruence|]. split; [|done]. unfold effects. by counting.
  - intros [= <- <-]. left. cbn [f_stats f_conn].
    assert (durable c2 = durable c1) as Hd2 by (by destruct (exec_rows_tx _ _ _ _ _ _ _ _ _ _ _ Hin Hx) as [(? & _)|(? & _)]).
    split; [congruence|]. split.
    + rewrite <- (classify_effects e t cap s). unfold effects. by counting.
    + by destruct (classify_spec e t cap s) as (_ & _ & ? & _).
Qed.

(** C4. A batch is all or nothing: either its transaction commits, having run every row in order,
    no row counted as lost, and the last committed position becomes the greatest of its rows' and
    the former; or nothing of it is durable, none of its rows is counted as replayed, and the
    position stays. *)
Theorem flush_batch_atomic cf cap s r s' :
  flush_batch cf cap s = (Ok r, s') → b_rows (f_batch s) ≠ [] →
  (durable (f_conn s') = durable (f_conn s) ∧ effects (f_stats s') = effects (f_stats s) ∧
   last_committed_seq (f_stats s') = last_committed_seq (f_stats s)) ∨ (r = false ∧ committed cf s s').
Proof.
  intros H Hne. revert H. unfold flush_batch, committed.
  destruct (b_rows (f_batch s)) as [|[[row mp] q] rows] eqn:Hr; [done|]. cbv zeta.
  set (rs := (row, mp, q) :: rows) in *.
  destruct (match _ with Some c => _ | None => _ end) as [prep stats] eqn:Hp.
  assert (effects stats = effects (f_stats s) ∧ losses stats = losses (f_stats s) ∧
    last_committed_seq stats = last_committed_seq (f_stats s)) as (He & Hl & Hc).
  { destruct (f_cache s ≫= _) as [pc|]; [by injection Hp as _ <-|].
    pose proof (prepare_effects (f_conn s) (b_template (f_batch s)) mp (f_stats s)) as H1.
    pose proof (prepare_spec (f_conn s) (b_template (f_batch s)) mp (f_stats s)) as (_ & _ & H2 & _).
    rewrite Hp in H1, H2. by destruct H1. }
  assert (counts stats transactions_committed = counts (f_stats s) transactions_committed) as Ht
    by (unfold effects in He; by injection He).
  destruct prep as [[st p]|e].
  - intros Hrun. apply run_atomic in Hrun; [|done]. rewrite He, Hl, Hc, Ht in Hrun.
    destruct Hrun as [?|(? & lo & c1 & c2 & n2 & m & H1 & H2)]; [by left|right]. split; [done|].
    by exists st, p, (mp && is_delete_form (b_template (f_batch s))), lo, c1, c2, n2, m.
  - intros [= <- <-]. left. cbn [f_stats f_conn]. split; [done|].
    destruct (classify_many (length rs) e (b_template (f_batch s)) cap stats) as (_ & _ & C3 & _).
    split; [|exact (eq_trans C3 Hc)].
    exact (eq_trans (classify_many_effects (length rs) e (b_template (f_batch s)) cap stats) He).
Qed.
End atomic.

(** ** Witnesses *)

(** A database that records what its transactions executed; a statement mentioning [BAD] fails. *)
Record toy_conn := { t_durable : list (str * value); t_work : option (list (str * value)) }.
Definition toy_exec (c : toy_conn) (st : str) (v : value) : result str unit * toy_conn :=
  if contains #"BAD" st then (Err #"boom", {| t_durable := t_durable c; t_work := None |})
  else
    match t_work c with
    | Some w => (Ok tt, {| t_durable := t_durable c; t_work := Some (w ++ [(st, v)]) |})
    | None => (Ok tt, {| t_durable := t_durable c ++ [(st, v)]; t_work := None |})
    end.
Definition toy_control (cmd : str) (c : toy_conn) : result Error unit * toy_conn :=
  if bool_decide (cmd = BEGIN) then (Ok tt, {| t_durable := t_durable c; t_work := Some (t_durable c) |})
  else if bool_decide (cmd = COMMIT) then (Ok tt, {| t_durable := default (t_durable c) (t_work c); t_work := None |})
  else (Ok tt, {| t_durable := t_durable c; t_work := None |}).
#[local] Instance ToyDb : Db := {|
  conn := toy_conn; stmt := str;
  prepare _ t := Ok t;
  execute_prepared := toy_exec;
  execute_prepared_returning_count c st v := let '(r, c) := toy_exec c st v in (rmap (λ _, 1%Z) r, c);
  exec_transaction_control := toy_control;
|}.
Lemma toy_exec_durable c st v r c' :
  is_Some (t_work c) → toy_exec c st v = (r, c') → t_durable c' = t_durable c ∧ (is_ok r = true → is_Some (t_work c')).
Proof.
  intros [w Hw]. unfold toy_exec. rewrite Hw. destruct (contains _ st); intros [= <- <-]; [done|].
  split; [done|]. by exists (w ++ [(st, v)]).
Qed.
#[local] Instance ToyDbTx : @DbTx ToyDb.
Proof.
  refine {| content := list (str * value); durable := t_durable : @conn ToyDb → _;
            in_tx c := is_Some (t_work c) |}.
  - intros c c' [= <-]. split; [by eexists|done].
  - intros c st v c' Hin H. destruct (toy_exec_durable _ _ _ _ _ Hin H). auto.
  - intros c st v e c' Hin H. by destruct (toy_exec_durable _ _ _ _ _ Hin H).
  - intros c st v k c' Hin. cbn [execute_prepared_returning_count ToyDb].
    destruct (toy_exec c st v) as [r c1] eqn:H. destruct (toy_exec_durable _ _ _ _ _ Hin H).
    destruct r; intros [= _ <-]; auto.
  - intros c st v e c' Hin. cbn [execute_prepared_returning_count ToyDb].
    destruct (toy_exec c st v) as [r c1] eqn:H. destruct (toy_exec_durable _ _ _ _ _ Hin H).
    by destruct r; intros [= _ <-].
  - intros c r c' _ [= _ <-]. done.
Defined.
(** A line is its statement; its length is its sequence number. *)
#[local] Instance ToyDeps : ReplayDeps := {|
  parse_wal_line raw :=
    if contains #"{" raw then None
    else Some {| wl_seq := N.of_nat (length raw); wl_ts := []; wl_db := []; wl_cypher := raw; wl_params := VObject [] |};
  f32 := N; number_of_f32 n := Some (PosInt n);
|}.
#[local] Instance ToyLegacy : LegacyPatterns := {|
  find_vector_literal _ _ := None; find_bulk_sets s := ([], s); parse_json _ := None;
|}.
#[local] Instance toy_tables : Unicode := AsciiUnicode.
#[local] Instance toy_digits : SeqReader := DigitReader.
Definition toy_opts : ReplayOptions := {|
  from_seq := 0; to_seq := None; dry_run := false; progress_fn := None; cancel_fn := None;
  failure_sample_cap := None; batch_size := Some 2%N; embed_window_size := Some 2%N;
  recompute_embed_fn _ _ := Err io_err; recompute_embed_dim := 3;
|}.
Definition toy_replay_env : replay_env := {|
  env_batch_size := None; env_embed_window_size := None; env_failure_samples := None; env_threshold := f64_of_N 0;
|}.
Definition toy_start : @conn ToyDb := Build_toy_conn [] None.
Definition toy_text (l : list str) : bytes := utf8 (l ≫= λ s, s ++ [10%N]).
Definition toy_log : list wfile :=
  [WFile #"b.jsonl" (Some (toy_text [ #"MERGE (m)"; #"{"; #"MATCH (n) SET n.e = $name_embedding" ]));
   WFile #"a.jsonl" (Some (toy_text [ #"CREATE (n)"; #"MERGE BAD"; #"CALL x" ]))].

Lemma replay_accounts_every_line_witness :
  let kinds := replay_files toy_log ≫= file_kinds toy_opts in
  replay_files toy_log ≡ₚ jsonl_files toy_log ∧
  ∃ stats c', replay_opts toy_opts toy_replay_env (Some (Some toy_log)) toy_start = (Ok stats, c') ∧
    (settled_rows stats + counts stats embeddings_skip_rows = tally is_mutation kinds)%N ∧
    counts stats unrecognised_lines = tally is_unrecognised kinds ∧
    counts stats unparseable_lines = tally is_unparseable kinds ∧
    counts stats failed_lines = (sample_rows (failed_samples stats) + counts stats failed_sample_categories_dropped)%N.
Proof.
  apply (replay_accounts_every_line toy_opts toy_replay_env toy_log toy_start 2 2);
    [done| |done|done|done].
  intros cmd c. cbn. unfold toy_control. by repeat case_bool_decide.
Defined.

Definition toy_full : ReplayStats :=
  set_samples [{| fs_cypher := []; fs_error := #"e"; fs_count := 1; fs_template := #"t" |}] empty_stats.
Lemma dropped_categories_count_rows_witness :
  let s' := Nat.iter 5 (classify_replay_failure #"boom" #"t" 1) toy_full in
  failed_samples s' = failed_samples toy_full ∧ counts s' failed_sample_categories_dropped = (0 + 5)%N.
Proof.
  apply (dropped_categories_count_rows #"boom" #"t" 1 5 toy_full); [done|].
  apply (bool_decide_unpack _). vm_compute. exact I.
Defined.

Definition toy_fstate (template : str) : fstate := {|
  f_batch := {| b_template := template; b_rows := [([], false, 3%N); ([], false, 7%N)] |};
  f_conn := toy_start; f_cancels := 0; f_stats := set_committed (Some 5%N) empty_stats; f_cache := None |}.
(** A batch whose positions surround the last committed one. *)
Lemma flush_batch_atomic_witness :
  let s := toy_fstate #"CREATE (n)" in
  let s' := (flush_batch None 10 s).2 in
  (durable (f_conn s') = durable (f_conn s) ∧ effects (f_stats s') = effects (f_stats s) ∧
   last_committed_seq (f_stats s') = last_committed_seq (f_stats s)) ∨ (false = false ∧ committed None s s').
Proof.
  apply (flush_batch_atomic None 10 (toy_fstate #"CREATE (n)") false); [|discriminate].
  vm_compute. reflexivity.
Defined.
