(* ===== verification/ReplayProps.v ===== *)
(** * ReplayProps: embedding windows, and which logged statements a replay recognises *)

From S2P Require Import Prelude Text Numbers Json WalScan Wal LegacyWal Replay ReplayTheory.

(** ** One embedder call per window *)

Section window.
Context {U : Unicode} {RD : ReplayDeps}.

Lemma requests_split (reqs : list request) :
  (length (queued_requests reqs) + length (immediate_requests reqs) = length reqs)%nat.
Proof.
  induction reqs as [|[[i k] [t|]] reqs IH]; [done| |].
  - exact (f_equal S IH).
  - refine (eq_trans (Nat.add_succ_r _ _) (f_equal S IH)).
Qed.

(** Rows keep their statement and position through every resolution. *)
Definition row_ids (rows : list (PendingRow * RowEmbeddingOutcome)) : list (str * N) :=
  (λ r, (pr_cypher r.1, pr_seq r.1)) <$> rows.
Lemma resolve_at_ids dim rows t v : row_ids (resolve_at dim rows t v) = row_ids rows.
Proof.
  unfold resolve_at, row_ids. apply list_eq. intros i. rewrite !list_lookup_fmap.
  destruct (decide (i = t.1)) as [->|Hne]; [|by rewrite list_lookup_alter_ne].
  rewrite list_lookup_alter_eq. destruct (rows !! t.1) as [[row o]|]; [|done]. simpl. f_equal.
  unfold apply_key_resolution. destruct v; [done|]. by destruct (is_vector_only_set _ _).
Qed.
Lemma immediate_ids dim ts rows : row_ids (foldl (λ rows t, resolve_at dim rows t None) rows ts) = row_ids rows.
Proof. revert rows. induction ts as [|t ts IH]; intros rows; cbn [foldl]; [done|]. by rewrite IH, resolve_at_ids. Qed.
Lemma answers_ids dim tvs rows s : row_ids (foldl (resolve_answer dim) (rows, s) tvs).1 = row_ids rows.
Proof.
  revert rows s. induction tvs as [|[t v] tvs IH]; intros rows s; cbn [foldl]; [done|].
  unfold resolve_answer at 2. destruct (validate_recomputed_vector v dim); by rewrite IH, resolve_at_ids.
Qed.
Lemma failures_ids dim ts rows s : row_ids (foldl (resolve_failure dim) (rows, s) ts).1 = row_ids rows.
Proof.
  revert rows s. induction ts as [|t ts IH]; intros rows s; cbn [foldl]; [done|].
  unfold resolve_failure at 2. by rewrite IH, resolve_at_ids.
Qed.
Lemma proceeding_sublist (rows : list (PendingRow * RowEmbeddingOutcome)) :
  ((λ r, (pr_cypher r, pr_seq r)) <$> omap (λ '(row, o), match o with Proceed => Some row | Skip => None end) rows)
    `sublist_of` row_ids rows.
Proof.
  induction rows as [|[row []] rows IH]; [done| |]; unfold row_ids; rewrite ?fmap_cons;
    cbn [omap list_omap]; rewrite ?fmap_cons; by constructor.
Qed.

(** What the embedder's answers do to the four window counters. *)
Definition answered (s : ReplayStats) : N :=
  (counts s embeddings_recomputed + counts s embeddings_recompute_failed)%N.
Lemma answers_keep c dim tvs rows s :
  c ≠ embeddings_recomputed → c ≠ embeddings_recompute_failed →
  counts (foldl (resolve_answer dim) (rows, s) tvs).2 c = counts s c.
Proof.
  intros H1 H2. revert rows s. induction tvs as [|[t v] tvs IH]; intros rows s; cbn [foldl]; [done|].
  unfold resolve_answer at 2. destruct (validate_recomputed_vector v dim); rewrite IH; by apply counts_bump_ne.
Qed.
Lemma failures_keep c dim ts rows s :
  c ≠ embeddings_recompute_failed → counts (foldl (resolve_failure dim) (rows, s) ts).2 c = counts s c.
Proof.
  intros H. revert rows s. induction ts as [|t ts IH]; intros rows s; cbn [foldl]; [done|].
  unfold resolve_failure at 2. rewrite IH. by apply counts_bump_ne.
Qed.

(** A window calls the embedder at most once, and not at all when no row has a text to embed;
    every request is counted once, as recomputed, failed, or without a text, whatever the embedder
    answers (an error, too few vectors, vectors of another dimension); and the rows that go on are
    rows of the window, in order, with their statements and positions. *)
Theorem window_one_call (w : list PendingRow) ef n dim s :
  let reqs := window_requests w in
  let '(res, n', s') := resolve_embed_window w ef n dim s in
  n' = (if bool_decide (queued_requests reqs = []) then n else S n) ∧
  (counts s' embed_calls = counts s embed_calls + N.of_nat (length (queued_requests reqs)))%N ∧
  (answered s' + counts s' embeddings_recompute_skipped_no_text =
   answered s + counts s embeddings_recompute_skipped_no_text + N.of_nat (length reqs))%N ∧
  ((λ r, (pr_cypher r, pr_seq r)) <$> res) `sublist_of` ((λ r, (pr_cypher r, pr_seq r)) <$> w).
Proof.
  cbv zeta. unfold resolve_embed_window. cbv zeta. set (reqs := window_requests w).
  pose proof (requests_split reqs) as Hlen.
  set (queued := queued_requests reqs) in *. set (immediate := immediate_requests reqs) in *.
  set (s1 := bump embeddings_recompute_skipped_no_text _ _). set (rows1 := foldl _ _ immediate).
  assert (row_ids rows1 = (λ r, (pr_cypher r, pr_seq r)) <$> w) as Hids.
  { unfold rows1. rewrite immediate_ids. unfold row_ids. by rewrite <- list_fmap_compose. }
  destruct (match queued with [] => _ | _ => _ end) as [[rows2 n2] s2] eqn:H2.
  assert (row_ids rows2 = row_ids rows1 ∧ n2 = (if bool_decide (queued = []) then n else S n) ∧
    counts s2 embed_calls = counts s1 embed_calls ∧
    counts s2 embeddings_recompute_skipped_no_text = counts s1 embeddings_recompute_skipped_no_text ∧
    answered s2 = (answered s1 + N.of_nat (length queued))%N) as (R1 & R2 & R3 & R4 & R5).
  { destruct queued as [|q qs] eqn:Hq; [injection H2 as <- <- <-; by rewrite N.add_0_r|].
    rewrite <- Hq in H2. assert (bool_decide (q :: qs = []) = false) as -> by done. rewrite <- Hq.
    set (out := match ef n _ with Ok _ => _ | Err _ => _ end) in H2.
    assert (rows2 = out.1 ∧ n2 = S n ∧ s2 = out.2) as (-> & -> & ->) by (by destruct out; injection H2 as <- <- <-).
    assert (length queued.*1 = length queued) as Hq1 by apply length_fmap.
    assert (∀ out, out = foldl (resolve_failure dim) (rows1, s1) queued.*1 →
      row_ids out.1 = row_ids rows1 ∧ S n = S n ∧ counts out.2 embed_calls = counts s1 embed_calls ∧
      counts out.2 embeddings_recompute_skipped_no_text = counts s1 embeddings_recompute_skipped_no_text ∧
      answered out.2 = (answered s1 + N.of_nat (length queued))%N) as Hfail.
    { intros o ->. rewrite failures_ids, !failures_keep by done.
      destruct (foldl (resolve_failure dim) (rows1, s1) queued.*1) as [r3 s3] eqn:Hf.
      apply failures_spec in Hf as (_ & _ & Hf). unfold answered. rewrite Hq1 in Hf. done. }
    unfold out. destruct (ef n _) as [vs|e]; [|by apply Hfail]. case_bool_decide as Hvs; [|by apply Hfail].
    rewrite answers_ids, !answers_keep by done.
    destruct (foldl (resolve_answer dim) _ _) as [r3 s3] eqn:Hf. apply answers_spec in Hf as (_ & _ & Hf).
    unfold answered. cbn [snd]. rewrite Hf, length_zip_with, Hq1, Hvs, Nat.min_id. done. }
  split; [done|]. unfold answered in *. split; [|split].
  - rewrite counts_bump_ne by done. rewrite R3. unfold s1. counting.
  - rewrite !counts_bump_ne by done. rewrite R4. unfold s1 in *. revert R5. counting.
  - etrans; [apply proceeding_sublist|]. by rewrite R1, Hids.
Qed.
End window.

(** ** Which logged statements a replay recognises *)

Section keywords.
Context {U : Unicode}.

Definition is_paren (c : char) : bool := (c =? 40)%N || (c =? 41)%N.
Lemma split_go_cur p cur s x xs : split_on p s = x :: xs → split_go p cur s = (reverse cur ++ x) :: xs.
Proof.
  unfold split_on. revert cur x xs. induction s as [|c s IH]; intros cur x xs; cbn [split_go].
  - intros [= <- <-]. by rewrite app_nil_r.
  - destruct (p c); [intros [= <- <-]; by rewrite app_nil_r|].
    destruct (split_go p [] s) as [|y ys] eqn:Hs; [by apply split_go_nonnil in Hs|].
    rewrite (IH [c] y ys eq_refl). intros [= <- <-]. rewrite (IH (c :: cur) y ys eq_refl).
    by rewrite reverse_cons, <- app_assoc.
Qed.
Lemma space_parens_paren c s : is_paren c = true → space_parens (c :: s) = [32%N; c; 32%N] ++ space_parens s.
Proof. intros H. unfold space_parens. cbn [flat_map]. unfold is_paren in H. by rewrite H. Qed.
Lemma space_parens_other c s : is_paren c = false → space_parens (c :: s) = c :: space_parens s.
Proof. intros H. unfold space_parens. cbn [flat_map]. unfold is_paren in H. by rewrite H. Qed.

(** A token without parentheses survives when parentheses are set apart. *)
Lemma token_survives t cur s :
  existsb is_paren t = false → t ∈ split_go is_whitespace cur s → t ∈ split_go is_whitespace cur (space_parens s).
Proof.
  intros Ht. revert cur. induction s as [|c s IH]; intros cur; [done|]. cbn [split_go].
  destruct (is_paren c) eqn:Hp.
  - rewrite space_parens_paren by done.
    assert (is_whitespace c = false) as -> by (apply orb_true_iff in Hp as [->%N.eqb_eq| ->%N.eqb_eq]; done).
    destruct (split_on is_whitespace s) as [|x xs] eqn:Hs; [by apply split_go_nonnil in Hs|].
    rewrite (split_go_cur _ _ _ _ _ Hs). intros [->|Hin]%elem_of_cons.
    + rewrite existsb_app, reverse_cons, existsb_app in Ht. cbn [existsb] in Ht. rewrite Hp in Ht.
      by rewrite orb_true_r in Ht.
    + assert (t ∈ split_go is_whitespace [] (space_parens s)) as Hin'.
      { apply IH. change (split_go is_whitespace [] s) with (split_on is_whitespace s). rewrite Hs. by right. }
      change ([32%N; c; 32%N] ++ space_parens s) with (32%N :: [c] ++ 32%N :: space_parens s).
      cbn [split_go]. change (is_whitespace 32) with true. cbv iota. right.
      rewrite split_go_app by done. apply elem_of_app. by right.
  - rewrite space_parens_other by done. cbn [split_go]. destruct (is_whitespace c).
    + intros [->|Hin]%elem_of_cons; [by left|]. right. by apply IH.
    + apply IH.
Qed.

(** Every statement a replay recognises as a mutation is one the writer keeps. *)
Theorem replay_keywords_sound cypher : is_known cypher = true → looks_like_mutation cypher = true.
Proof.
  unfold is_known, looks_like_mutation, split_whitespace. set (s := strip_quoted_literals _).
  rewrite !existsb_exists. intros (t & [Hin Hne]%filter_In & Hk). exists t. split; [|done].
  apply filter_In. split; [|done]. apply list_elem_of_In. apply token_survives.
  - apply bool_decide_eq_true in Hk. clear Hin Hne. revert t Hk. apply Forall_forall. by repeat constructor.
  - by apply list_elem_of_In.
Qed.

Context {UL : UnicodeLaws} {RD : ReplayDeps}.
Definition compact (c : char) : bool := is_ascii c && plain c && negb (is_whitespace c).
Lemma compact_upper s :
  forallb compact s = true →
  forallb is_ascii s = true ∧ forallb plain s = true ∧ forallb (negb ∘ is_whitespace) (ascii_upper <$> s) = true.
Proof.
  induction s as [|c s IH]; [done|]. rewrite fmap_cons. cbn [forallb]. unfold compact at 1.
  rewrite !andb_true_iff. intros [[[Ha Hp] Hw] (H1 & H2 & H3)%IH]. repeat split; try done. cbn.
  unfold ascii_upper. destruct (is_ascii_lower c) eqn:Hl; [|done].
  unfold is_ascii_lower, in_range in Hl. apply andb_true_iff in Hl as [L1%N.leb_le L2%N.leb_le].
  unfold is_whitespace, in_range. apply negb_true_iff.
  repeat (apply orb_false_iff; split); try (apply N.eqb_neq; lia);
    apply andb_false_iff; first [right; apply N.leb_gt; lia|left; apply N.leb_gt; lia].
Qed.

(** The writer sets parentheses apart before it looks for keywords, the replay does not: a
    keyword written against its parenthesis makes a statement that is logged as a mutation and
    that every replay of the log skips as unrecognised. *)
Theorem attached_keyword_not_replayed kw body raw l opts :
  kw ∈ mutation_keywords → forallb compact body = true →
  wl_cypher l = kw ++ #"(" ++ body → trim raw = raw → raw ≠ [] → parse_wal_line raw = Some l →
  (from_seq opts ≤ wl_seq l)%N → (∀ t, to_seq opts = Some t → (wl_seq l ≤ t)%N) →
  looks_like_mutation (wl_cypher l) = true ∧ classify_line opts (Some raw) = LUnrecognised (wl_seq l).
Proof.
  intros Hkw Hbody Hc Htrim Hraw Hparse Hfrom Hto.
  destruct (compact_upper body Hbody) as (Ha & Hp & Hw).
  assert (forallb is_ascii kw = true ∧ forallb plain kw = true ∧ ascii_upper <$> kw = kw ∧
    forallb (negb ∘ is_whitespace) kw = true ∧ space_parens kw = kw ∧ nonempty kw = true) as (K1 & K2 & K3 & K4 & K5 & K6).
  { clear Hc. revert kw Hkw. apply Forall_forall. by repeat constructor. }
  assert (strip_quoted_literals (to_uppercase (wl_cypher l)) = kw ++ 40%N :: (ascii_upper <$> body)) as Hup.
  { rewrite Hc, to_uppercase_ascii by (by rewrite !forallb_app, K1, Ha). rewrite !fmap_app, K3.
    unfold strip_quoted_literals. rewrite <- (app_nil_r (kw ++ _ ++ _)), strip_outside; [by rewrite app_nil_r|].
    rewrite !forallb_app, K2. cbn. by apply plain_upper. }
  split.
  - unfold looks_like_mutation. rewrite Hup. apply existsb_exists. exists kw.
    split; [|by apply bool_decide_eq_true]. unfold split_whitespace. apply filter_In. split; [|done].
    assert (space_parens (kw ++ 40%N :: (ascii_upper <$> body)) =
      kw ++ 32%N :: 40%N :: 32%N :: space_parens (ascii_upper <$> body)) as ->.
    { transitivity (space_parens kw ++ space_parens (40%N :: (ascii_upper <$> body)));
        [apply flat_map_app|]. rewrite K5. f_equal. }
    rewrite split_on_app by done. rewrite split_on_none by done. by left.
  - unfold classify_line. rewrite Htrim. destruct raw as [|c raw]; [done|]. rewrite Hparse.
    rewrite (proj2 (N.ltb_ge _ _)) by done.
    assert (match to_seq opts with Some t => (t <? wl_seq l)%N | None => false end = false) as ->.
    { destruct (to_seq opts) as [t|]; [|done]. apply N.ltb_ge. by apply Hto. }
    unfold is_known. rewrite Hup. unfold split_whitespace.
    rewrite split_on_none by (rewrite forallb_app, K4; exact Hw).
    assert (bool_decide (kw ++ 40%N :: (ascii_upper <$> body) ∈ mutation_keywords) = false) as Hnot.
    { apply bool_decide_eq_false. intros Hin. assert (existsb is_paren (kw ++ 40%N :: (ascii_upper <$> body)) = false) as Hb.
      { revert Hin. generalize (kw ++ 40%N :: (ascii_upper <$> body)). apply Forall_forall. by repeat constructor. }
      rewrite existsb_app in Hb. cbn [existsb is_paren] in Hb. by rewrite orb_true_r in Hb. }
    destruct (kw ++ 40%N :: _) as [|x xs] eqn:Hx; [done|]. cbn [List.filter nonempty existsb]. by rewrite Hnot.
Qed.
End keywords.

(** ** Witnesses *)

Lemma replay_keywords_sound_witness : @looks_like_mutation AsciiUnicode #"MATCH (n) SET n.x = 1" = true.
Proof. apply (@replay_keywords_sound AsciiUnicode). vm_compute. reflexivity. Defined.

Lemma attached_keyword_not_replayed_witness :
  @looks_like_mutation AsciiUnicode #"CREATE(:E(name))" = true ∧
  @classify_line AsciiUnicode ToyDeps toy_opts (Some #"CREATE(:E(name))") = LUnrecognised 16.
Proof.
  apply (@attached_keyword_not_replayed AsciiUnicode AsciiUnicodeLaws ToyDeps #"CREATE" #":E(name))" #"CREATE(:E(name))"
    {| wl_seq := 16; wl_ts := []; wl_db := []; wl_cypher := #"CREATE(:E(name))"; wl_params := VObject [] |} toy_opts);
    try (vm_compute; reflexivity); try discriminate.
  apply (bool_decide_unpack _). vm_compute. exact I.
Defined.
