(* ===== verification/WalExec.v ===== *)
(** * WalExec: flushing a handler's mutations to its group's WAL (core/src/wal_exec.rs, with
    [with_wal_writer] of core/src/app_state.rs and the position rows of core/src/db.rs)

    The WAL half of the application state: the writers by group, the contents of the directories
    and their generation sidecars by directory name.  What a system call does is an input.  The
    [WalPosition] rows are a map; a failing query is an input. *)

From S2P Require Import Prelude Text Numbers Json WalGeneration WalScan Checkpoint WalGroup Wal.

(** ** Position rows *)

(** A row as the database stores it: signed 64-bit integers, a missing column as [None]. *)
Record position_row := { row_seq : Z; row_generation : option str; row_model : option str; row_dim : option Z }.
Abbreviation positions := (gmap str position_row).

(** Source: core/src/db.rs 98-122 (WalPositionRecord) *)
Record WalPositionRecord := {
  applied_seq : option N;
  wp_generation : option str;
  embedding_model : option str;
  embedding_dim : option Z;
}.

(** [n as i64] *)
Definition as_i64 (n : N) : Z := if (n <? 2 ^ 63)%N then Z.of_N n else (Z.of_N n - 2 ^ 64)%Z.
(** Source: core/src/db.rs 4215-4222 (value_as_optional_u64) *)
Definition value_as_optional_u64 (z : Z) : option N := if (0 <=? z)%Z then Some (Z.to_N z) else None.
(** Source: core/src/db.rs 4183-4189 (value_as_optional_string) *)
Definition value_as_optional_string (s : option str) : option str :=
  match s with Some [] => None | s => s end.

Definition query_err : Error := Lbug (Msg "query failed" []).
(** Source: core/src/db.rs 3192-3208 (get_wal_position) *)
Definition get_wal_position (ok : bool) (group_id : str) (p : positions) : result Error WalPositionRecord :=
  if negb ok then Err query_err
  else
    Ok match p !! group_id with
       | Some row =>
           {| applied_seq := value_as_optional_u64 (row_seq row);
              wp_generation := value_as_optional_string (row_generation row);
              embedding_model := value_as_optional_string (row_model row);
              embedding_dim := z ← row_dim row; as_i64 <$> value_as_optional_u64 z |}
       | None => {| applied_seq := None; wp_generation := None; embedding_model := None; embedding_dim := None |}
       end.
(** Source: core/src/db.rs 3226-3257 (set_wal_position) *)
Definition set_wal_position (ok : bool) (group_id : str) (seq : N) (generation : option str)
    (embedding_identity : option (str * Z)) (p : positions) : result Error unit * positions :=
  if negb ok then (Err query_err, p)
  else
    (Ok tt, <[group_id := {| row_seq := as_i64 seq; row_generation := generation;
                             row_model := fst <$> embedding_identity; row_dim := snd <$> embedding_identity |}]> p).

Definition SINGLETON : str := #"singleton".
(** [legacy_ok], [get_ok], [set_ok], [del_ok]: which of its queries succeed.
    Source: core/src/db.rs 3279-3297 (migrate_legacy_singleton_wal_position) *)
Definition migrate_legacy_singleton_wal_position (legacy_ok get_ok set_ok del_ok : bool) (group_id : str)
    (p : positions) : result Error unit * positions :=
  if negb legacy_ok then (Err query_err, p)
  else
    match p !! SINGLETON ≫= λ row, value_as_optional_u64 (row_seq row) with
    | None => (Ok tt, p)
    | Some seq =>
        match get_wal_position get_ok group_id p with
        | Err e => (Err e, p)
        | Ok rec =>
            let '(r, p) :=
              match applied_seq rec with
              | None => set_wal_position set_ok group_id seq None None p
              | Some _ => (Ok tt, p)
              end in
            match r with
            | Err e => (Err e, p)
            | Ok _ => (Ok tt, if del_ok then base.delete SINGLETON p else p)
            end
        end
    end.

(** ** The writers *)

(** A writer is kept with the name of its directory. *)
Record wal_app := {
  wa_root : option wroot;
  wa_poisoned : bool;
  wa_writers : gmap str (str * WalWriter);
  wa_dirs : gmap str (list wfile);
  wa_gens : gmap str str;
  wa_max_events : N;
  wa_max_bytes : N;
  wa_rotations : list WalRotationInfo;
}.
Definition set_group (gid dir : str) (w : WalWriter) (d : list wfile) (rots : list WalRotationInfo) (s : wal_app) : wal_app :=
  {| wa_root := wa_root s; wa_poisoned := wa_poisoned s; wa_writers := <[gid := (dir, w)]> (wa_writers s);
     wa_dirs := <[dir := d]> (wa_dirs s); wa_gens := wa_gens s; wa_max_events := wa_max_events s;
     wa_max_bytes := wa_max_bytes s; wa_rotations := wa_rotations s ++ rots |}.
(** What creating a writer leaves: the directory, listed by the root, and its sidecar. *)
Definition set_created (dir : str) (gen : option str) (s : wal_app) : wal_app :=
  {| wa_root := (λ r, match r with
                      | Root es => if bool_decide (REntry (Some dir) true ∈ es) then r else Root (es ++ [REntry (Some dir) true])
                      | RootAbsent => Root [REntry (Some dir) true]
                      | RootUnlistable => r
                      end) <$> wa_root s;
     wa_poisoned := wa_poisoned s; wa_writers := wa_writers s;
     wa_dirs := <[dir := default [] (wa_dirs s !! dir)]> (wa_dirs s);
     wa_gens := match gen with Some g => <[dir := g]> (wa_gens s) | None => base.delete dir (wa_gens s) end;
     wa_max_events := wa_max_events s; wa_max_bytes := wa_max_bytes s; wa_rotations := wa_rotations s |}.

(** The environment of a writer's creation. *)
Record open_env := { oe_window : N; oe_uuid : str; oe_a1 : attempt; oe_a2 : attempt; oe_mkdir_ok : bool }.

(** A recorded mutation, with the time at which it is logged. *)
Abbreviation mutation := (str * str * value)%type.

Section exec.
Context {U : Unicode} {LP : LinePrinter} {SR : SeqReader} {GC : GenerationCodec}.

(** The writer of a group and its directory's name, created on first use.
    Source: core/src/app_state.rs 866-905 (with_wal_writer) *)
Definition open_writer (oe : open_env) (group_id : str) (root : wroot) (s : wal_app) :
    option (str * WalWriter) * wal_app :=
  match wa_writers s !! group_id, encode_group_dir_name group_id with
  | Some dw, _ => (Some dw, s)
  | None, Err _ => (None, s)
  | None, Ok dir =>
      match check_no_case_insensitive_collision root dir with
      | Err _ => (None, s)
      | Ok _ =>
          let '(r, gen) :=
            new_writer (oe_window oe) (oe_uuid oe) (oe_a1 oe) (oe_a2 oe) (wa_max_events s) (wa_max_bytes s)
              (oe_mkdir_ok oe) (Some (default [] (wa_dirs s !! dir))) (wa_gens s !! dir) in
          let s := if oe_mkdir_ok oe then set_created dir gen s else s in
          (match r with Ok w => Some (dir, w) | Err _ => None end, s)
      end
  end.
(** What [f] does to the writer and its directory, and what it reports to the sink.
    Source: core/src/app_state.rs 857-907 (with_wal_writer) *)
Definition with_wal_writer {T : Type} (oe : open_env) (group_id : str)
    (f : WalWriter → list wfile → T * WalWriter * list wfile * list WalRotationInfo) (s : wal_app) :
    option T * wal_app :=
  match wa_root s with
  | None => (None, s)
  | Some root =>
      if wa_poisoned s then (None, s)
      else
        match open_writer oe group_id root s with
        | (None, s) => (None, s)
        | (Some (dir, w), s) =>
            let '(v, w, d, rots) := f w (default [] (wa_dirs s !! dir)) in
            (Some v, set_group group_id dir w d rots s)
        end
  end.

(** Source: core/src/wal_exec.rs 66-76 (emit_rotation_if_any) *)
Definition emit_rotation_if_any (w : WalWriter) : list WalRotationInfo * WalWriter :=
  let '(info, w) := take_rotation w in (option_list info, w).
(** Source: core/src/wal_exec.rs 253-259 (wal_params) *)
Definition wal_params (params : value) : value := if is_null params then VObject [] else params.

Definition norm_mutation (m : mutation) : mutation := (m.1.1, m.1.2, wal_params m.2).

(** Source: core/src/wal_exec.rs 102-123 (wal_flush_chunk) *)
Definition chunk_body (env : flush_env) (mutations : list mutation) (w : WalWriter) (d : list wfile) :
    option (N * option str) * WalWriter * list wfile * list WalRotationInfo :=
  let before := global_seq w in
  match with_chunk env (log_all (norm_mutation <$> mutations) []) w d with
  | (Ok _, w, d) =>
      let '(rots, w) := emit_rotation_if_any w in
      let after := global_seq w in
      (if (before <? after)%N then Some ((after - 1)%N, generation w) else None, w, d, rots)
  | (Err _, w, d) => (None, w, d, [])
  end.
(** Source: core/src/wal_exec.rs 92-125 (wal_flush_chunk) *)
Definition wal_flush_chunk (oe : open_env) (env : flush_env) (group_id : str) (mutations : list mutation) (s : wal_app) :
    option (N * option str) * wal_app :=
  match mutations with
  | [] => (None, s)
  | _ => let '(r, s) := with_wal_writer oe group_id (chunk_body env mutations) s in (mjoin r, s)
  end.

(** One mutation of an ungrouped flush, in a chunk of its own: the running maximum goes through.
    Source: core/src/wal_exec.rs 158-177 (wal_flush_ungrouped) *)
Definition ungrouped_step (env : flush_env) (m : mutation) (max_seq : option N) (w : WalWriter) (d : list wfile) :
    option N * WalWriter * list wfile * list WalRotationInfo :=
  let before := global_seq w in
  match with_chunk env (log_mutation m.1.1 m.1.2 (wal_params m.2) []) w d with
  | (Ok _, w, d) =>
      let '(rots, w) := emit_rotation_if_any w in
      let after := global_seq w in
      (if (before <? after)%N then omax max_seq (after - 1) else max_seq, w, d, rots)
  | (Err _, w, d) => (max_seq, w, d, [])
  end.
Fixpoint ungrouped_loop (ms : list (flush_env * mutation)) (max_seq : option N) (w : WalWriter) (d : list wfile) :
    option N * WalWriter * list wfile * list WalRotationInfo :=
  match ms with
  | [] => (max_seq, w, d, [])
  | (env, m) :: ms =>
      let '(max_seq, w, d, rots) := ungrouped_step env m max_seq w d in
      let '(max_seq, w, d, rots') := ungrouped_loop ms max_seq w d in
      (max_seq, w, d, rots ++ rots')
  end.
(** Source: core/src/wal_exec.rs 147-181 (wal_flush_ungrouped) *)
Definition wal_flush_ungrouped (oe : open_env) (group_id : str) (mutations : list (flush_env * mutation)) (s : wal_app) :
    option (N * option str) * wal_app :=
  match mutations with
  | [] => (None, s)
  | _ =>
      let '(r, s) :=
        with_wal_writer oe group_id
          (λ w d,
            let '(max_seq, w, d, rots) := ungrouped_loop mutations None w d in
            ((λ q, (q, generation w)) <$> max_seq, w, d, rots)) s in
      (mjoin r, s)
  end.

(** [identity] is the running embedder's; a failing write changes nothing and is only reported.
    Source: core/src/wal_exec.rs 45-64 (advance_wal_position) *)
Definition advance_wal_position (ok : bool) (group_id : str) (result : option (N * option str))
    (identity : str * Z) (p : positions) : positions :=
  match result with
  | Some (seq, generation) => (set_wal_position ok group_id seq generation (Some identity) p).2
  | None => p
  end.

(** Source: core/src/wal_exec.rs 195-211 (resync_global_seq_after_rebuild) *)
Definition resync_global_seq_after_rebuild (oe : open_env) (group_id : str) (last_committed_seq : option N) (s : wal_app) :
    bool * wal_app :=
  let '(r, s) :=
    with_wal_writer oe group_id
      (λ w d, let '(r, w) := resync_global_seq (oe_window oe) last_committed_seq w (Some d) in (is_ok r, w, d, [])) s in
  (default true r, s).
(** The guard's end: a run that already resynchronised is left alone.
    Source: core/src/wal_exec.rs 242-248 (drop) *)
Definition drop_resync_guard (done : bool) (oe : open_env) (group_id : str) (s : wal_app) : wal_app :=
  if done then s else (resync_global_seq_after_rebuild oe group_id None s).2.
End exec.

(** ** What a chunk does, by fault *)

Section acks.
Context {U : Unicode} {LP : LinePrinter}.

Lemma choose_file_generation stamp w : generation (choose_file stamp w).2 = generation w.
Proof. unfold choose_file. by destruct (current_file w), (needs_new_file w). Qed.
Lemma flush_generation env w d : generation (flush_pending env w d).1.2 = generation w.
Proof.
  unfold flush_pending. destruct (pending_lines w); [done|].
  pose proof (choose_file_generation (fe_stamp env) w) as H.
  destruct (choose_file (fe_stamp env) w) as [path w1]. by destruct (fe_fault env).
Qed.

(** A chunk that logs [muts]: every kept mutation takes a number whether or not the flush works. *)
Lemma chunk_outcome env muts w d r w' d' :
  (global_seq w + N.of_nat (length muts) < 2 ^ 64)%N →
  with_chunk env (log_all muts []) w d = (r, w', d') →
  let ls := chunk_of (global_seq w) [] muts in
  global_seq w' = (global_seq w + N.of_nat (length ls))%N ∧ generation w' = generation w ∧
  (ls = [] → r = Ok tt ∧ d' = d) ∧
  (ls ≠ [] → fe_fault env = FlushOk → r = Ok tt ∧ ∃ path, d' = disk_write path (chunk_bytes ls) d) ∧
  (ls ≠ [] → fe_fault env ≠ FlushOk → r = Err io_err ∧ ((∀ n, fe_fault env ≠ FlushWrite n) → d' = d)).
Proof.
  intros Hb H ls. revert H. unfold with_chunk. rewrite log_all_spec by exact Hb.
  change (global_seq (set_pending [] w)) with (global_seq w). fold ls.
  change (pending_lines (set_pending [] w) ++ ls) with ls.
  set (w1 := set_pending ls _). destruct (flush_pending env w1 d) as [[r2 w2] d2] eqn:Hf.
  pose proof (flush_generation env w1 d) as Hg. rewrite Hf in Hg.
  destruct (flush_cases _ _ _ _ _ _ Hf) as [Hs Hc].
  assert (pending_lines w1 = ls) as Hp by done.
  assert (match r2 with Ok _ => (Ok tt, w2, d2) | Err e => (Err e, w2, d2) end = (r2, w2, d2)) as -> by (by destruct r2 as [[]|]).
  intros [= <- <- <-]. split; [exact Hs|]. split; [exact Hg|]. rewrite Hp in Hc.
  destruct Hc as [(H1 & -> & -> & ->)|[(path & -> & _ & H1 & -> & ->)|(-> & Hd)]].
  - split; [done|]. split; intros Hne; by destruct Hne.
  - split; [|split].
    + intros Hls. split; [done|]. revert Hf. unfold flush_pending. rewrite Hp, Hls. intros [= _ Hd]. by symmetry.
    + intros _ _. split; [done|]. by exists (choose_file (fe_stamp env) w1).1.
    + intros Hne Hfl. exfalso. revert Hf. unfold flush_pending. rewrite Hp. destruct ls; [done|].
      destruct (choose_file (fe_stamp env) w1). by destruct (fe_fault env).
  - split; [|split].
    + intros Hls. exfalso. revert Hf. unfold flush_pending. by rewrite Hp, Hls.
    + intros Hne Hfl. exfalso. revert Hf. unfold flush_pending. rewrite Hp, Hfl.
      destruct ls; [done|]. by destruct (choose_file (fe_stamp env) w1).
    + intros _ _. split; [done|]. intros Hn. destruct Hd as [[-> _]|(n & p & Hw & _)]; [done|]. by destruct (Hn n).
Qed.

(** The numbers of an ungrouped flush's mutations that reach the disk: every kept mutation takes
    one, those whose flush fails lose it. *)
Fixpoint flushed (g : N) (ms : list (flush_env * mutation)) : list N :=
  match ms with
  | [] => []
  | (env, m) :: ms =>
      if loggable m then match fe_fault env with FlushOk => [g] | _ => [] end ++ flushed (g + 1) ms
      else flushed g ms
  end.
Definition kept (ms : list (flush_env * mutation)) : N := N.of_nat (length (List.filter (loggable ∘ snd) ms)).
(** Lines appended one at a time. *)
Definition appended (d : list wfile) (writes : list (str * WalLine)) : list wfile :=
  foldl (λ d pl, disk_write pl.1 (chunk_bytes [pl.2]) d) d writes.
Definition untorn_fault (env : flush_env) : Prop := ∀ n, fe_fault env ≠ FlushWrite n.

Lemma step_outcome env m acc w d acc' w' d' rots :
  (global_seq w + 1 < 2 ^ 64)%N → ungrouped_step env m acc w d = (acc', w', d', rots) →
  global_seq w' = (global_seq w + kept [(env, m)])%N ∧ generation w' = generation w ∧
  acc' = foldl omax acc (flushed (global_seq w) [(env, m)]) ∧
  (untorn_fault env → ∃ writes, wl_seq ∘ snd <$> writes = flushed (global_seq w) [(env, m)] ∧ d' = appended d writes).
Proof.
  intros Hb. unfold ungrouped_step. destruct m as [[ts c] p]. cbn [fst snd].
  assert (with_chunk env (log_mutation ts c (wal_params p) []) w d = with_chunk env (log_all [(ts, c, wal_params p)] []) w d) as ->.
  { unfold with_chunk. cbn [log_all]. by destruct (log_mutation ts c (wal_params p) [] _) as [[[]|] w1]. }
  destruct (with_chunk env _ w d) as [[r w1] d1] eqn:H.
  destruct (chunk_outcome env [(ts, c, wal_params p)] w d r w1 d1) as (Hs & Hg & H0 & H1 & H2); [done|exact H|].
  unfold kept, chunk_of in *. cbn [flushed List.filter length compose snd] in *.
  change (loggable (ts, c, wal_params p)) with (loggable (ts, c, p)) in *.
  destruct (loggable (ts, c, p)); cbn [numbered length app] in *.
  - destruct (fe_fault env) eqn:Hf.
    + destruct H1 as (-> & path & ->); [done|done|]. cbn [emit_rotation_if_any take_rotation].
      intros [= <- <- <- <-]. cbn [set_file global_seq generation]. rewrite Hs.
      rewrite (proj2 (N.ltb_lt _ _)) by lia. split; [done|]. split; [done|]. split.
      * cbn [app foldl]. f_equal. lia.
      * intros _. eexists [(path, _)]. split; [|reflexivity]. done.
    + destruct H2 as [-> H2]; [done|done|]. intros [= <- <- <- <-]. split; [done|]. split; [done|]. split; [done|].
      intros Hu. exists []. split; [done|]. by apply H2.
    + destruct H2 as [-> H2]; [done|done|]. intros [= <- <- <- <-]. split; [done|]. split; [done|]. split; [done|].
      intros Hu. exists []. split; [done|]. by apply H2.
    + destruct H2 as [-> H2]; [done|done|]. intros [= <- <- <- <-]. split; [done|]. split; [done|]. split; [done|].
      intros Hu. by destruct (Hu written).
  - destruct H0 as [-> ->]; [done|]. intros [= <- <- <- <-]. cbn [set_file global_seq generation]. rewrite Hs.
    rewrite N.add_0_r, N.ltb_irrefl. split; [done|]. split; [done|]. split; [done|]. intros _. by exists [].
Qed.
Lemma loop_outcome ms acc w d acc' w' d' rots :
  (global_seq w + N.of_nat (length ms) < 2 ^ 64)%N → ungrouped_loop ms acc w d = (acc', w', d', rots) →
  global_seq w' = (global_seq w + kept ms)%N ∧ generation w' = generation w ∧
  acc' = foldl omax acc (flushed (global_seq w) ms) ∧
  ((∀ em, em ∈ ms → untorn_fault em.1) →
   ∃ writes, wl_seq ∘ snd <$> writes = flushed (global_seq w) ms ∧ d' = appended d writes).
Proof.
  revert acc w d acc' w' d' rots. induction ms as [|[env m] ms IH]; intros acc w d acc' w' d' rots Hb; cbn [ungrouped_loop].
  - intros [= <- <- <- <-]. unfold kept. simpl. rewrite N.add_0_r. split; [done|]. split; [done|]. split; [done|].
    intros _. by exists [].
  - cbn [length] in Hb. destruct (ungrouped_step env m acc w d) as [[[a1 w1] d1] r1] eqn:H1.
    destruct (step_outcome env m acc w d _ _ _ _ ltac:(lia) H1) as (S1 & S2 & S3 & S4).
    destruct (ungrouped_loop ms a1 w1 d1) as [[[a2 w2] d2] r2] eqn:H2. intros [= <- <- <- <-].
    assert (kept [(env, m)] ≤ 1)%N as Hk by (unfold kept; simpl; destruct (loggable m); simpl; lia).
    destruct (IH a1 w1 d1 _ _ _ _ ltac:(lia) H2) as (I1 & I2 & I3 & I4).
    assert (kept ((env, m) :: ms) = kept [(env, m)] + kept ms)%N as Hks
      by (unfold kept; simpl; destruct (loggable m); simpl; lia).
    assert (flushed (global_seq w) ((env, m) :: ms) = flushed (global_seq w) [(env, m)] ++ flushed (global_seq w1) ms) as Hfl.
    { rewrite S1. unfold kept. cbn [flushed List.filter compose snd]. destruct (loggable m); cbn [length].
      - by rewrite app_nil_r.
      - by rewrite N.add_0_r. }
    rewrite Hks, Hfl, foldl_app, <- S3, <- I3. split; [lia|]. split; [congruence|]. split; [done|]. intros Hu.
    destruct S4 as (ws1 & E1 & ->); [apply (Hu (env, m)); by left|].
    destruct I4 as (ws2 & E2 & ->); [intros em Hin; apply Hu; by right|].
    exists (ws1 ++ ws2). rewrite fmap_app, E1, E2. split; [done|]. unfold appended. by rewrite foldl_app.
Qed.

Context {SR : SeqReader} {GC : GenerationCodec}.

(** A group whose writer is open. *)
Definition opened (s : wal_app) (gid dir : str) (w : WalWriter) (d : list wfile) : Prop :=
  is_Some (wa_root s) ∧ wa_poisoned s = false ∧ wa_writers s !! gid = Some (dir, w) ∧ wa_dirs s !! dir = Some d.
Lemma with_opened {T : Type} oe gid dir w d (f : WalWriter → list wfile → T * WalWriter * list wfile * list WalRotationInfo) s :
  opened s gid dir w d →
  with_wal_writer oe gid f s = let '(v, w, d, rots) := f w d in (Some v, set_group gid dir w d rots s).
Proof.
  intros ([root Hr] & Hp & Hw & Hd). unfold with_wal_writer. rewrite Hr, Hp. unfold open_writer. rewrite Hw, Hd. done.
Qed.
Lemma opened_set gid dir w d w' d' rots s :
  opened s gid dir w d → opened (set_group gid dir w' d' rots s) gid dir w' d'.
Proof.
  intros ([root Hr] & Hp & _). split; [by exists root|]. split; [done|]. unfold set_group. cbn. by rewrite !lookup_insert_eq.
Qed.

(** An ungrouped flush acknowledges exactly what reached the log: the position it returns is the
    greatest number written, a failed mutation's number is passed over and never reused, the
    generation is the stream's, and the lines on disk are those of the acknowledged mutations, in
    order; with nothing written there is no position. *)
Theorem ungrouped_ack_exact oe gid dir w d ms s r s' :
  opened s gid dir w d → (global_seq w + N.of_nat (length ms) < 2 ^ 64)%N →
  wal_flush_ungrouped oe gid ms s = (r, s') → ms ≠ [] →
  is_max (flushed (global_seq w) ms) (fst <$> r) ∧ (∀ q g, r = Some (q, g) → g = generation w) ∧
  ∃ w' d', opened s' gid dir w' d' ∧ global_seq w' = (global_seq w + kept ms)%N ∧
    ((∀ em, em ∈ ms → untorn_fault em.1) →
     ∃ writes, wl_seq ∘ snd <$> writes = flushed (global_seq w) ms ∧ d' = appended d writes).
Proof.
  intros Ho Hb H Hne. revert H. unfold wal_flush_ungrouped. destruct ms as [|em ms]; [done|].
  rewrite (with_opened _ _ _ _ _ _ _ Ho).
  destruct (ungrouped_loop (em :: ms) None w d) as [[[acc w1] d1] rots] eqn:Hl. cbn [fst snd]. intros [= <- <-].
  destruct (loop_outcome _ _ _ _ _ _ _ _ Hb Hl) as (L1 & L2 & L3 & L4).
  assert (fst <$> ((λ q, (q, generation w1)) <$> acc) = acc) as Hfst by (by destruct acc).
  cbn [mjoin option_join]. rewrite Hfst, L3. split; [apply omax_scan|]. split.
  - intros q g. rewrite <- L3. intros (x & _ & [= -> ->])%fmap_Some. exact L2.
  - exists w1, d1. split; [by eapply opened_set|]. done.
Qed.

End acks.

(** ** Groups do not meet *)

Section isolation.
Context {U : Unicode} {LP : LinePrinter} {SR : SeqReader} {GC : GenerationCodec}.

(** Every open writer is on the directory its group's name encodes to. *)
Definition dirs_own (s : wal_app) : Prop :=
  ∀ gid dir w, wa_writers s !! gid = Some (dir, w) → encode_group_dir_name gid = Ok dir.

Lemma dirs_own_set_group gid dir w d rots s :
  dirs_own s → encode_group_dir_name gid = Ok dir → dirs_own (set_group gid dir w d rots s).
Proof.
  intros Ho He g dr w'. unfold set_group. cbn [wa_writers]. destruct (decide (g = gid)) as [->|Hne].
  - rewrite lookup_insert_eq. by intros [= <- _].
  - rewrite lookup_insert_ne by done. apply Ho.
Qed.
(** Opening a writer touches one directory. *)
Lemma open_writer_spec oe gid root s o s' :
  dirs_own s → open_writer oe gid root s = (o, s') →
  wa_writers s' = wa_writers s ∧ (∀ dw, o = Some dw → encode_group_dir_name gid = Ok dw.1) ∧
  (∀ d', encode_group_dir_name gid ≠ Ok d' → wa_dirs s' !! d' = wa_dirs s !! d' ∧ wa_gens s' !! d' = wa_gens s !! d').
Proof.
  intros Ho. unfold open_writer. destruct (wa_writers s !! gid) as [[dir w]|] eqn:Hw.
  - intros [= <- <-]. split; [done|]. split; [|done]. intros dw [= <-]. by apply Ho in Hw.
  - destruct (encode_group_dir_name gid) as [dir|e] eqn:He; [|by intros [= <- <-]].
    destruct (check_no_case_insensitive_collision root dir); [|by intros [= <- <-]].
    destruct (new_writer _ _ _ _ _ _ _ _ _) as [r gen]. intros [= <- <-]. destruct (oe_mkdir_ok oe).
    + split; [done|]. split; [destruct r; [by intros dw [= <-]|done]|]. intros d' Hd.
      unfold set_created. cbn [wa_dirs wa_gens]. rewrite lookup_insert_ne by congruence. split; [done|].
      destruct gen; [by rewrite lookup_insert_ne by congruence|]. by rewrite lookup_delete_ne by congruence.
    + split; [done|]. split; [destruct r; [by intros dw [= <-]|done]|done].
Qed.

(** Whatever is done with one group's writer (created on the way or not), every other group keeps
    its writer, its directory and its generation, and each writer stays on its group's own
    directory. *)
Theorem writer_isolation {T : Type} oe gid gid' d'
    (f : WalWriter → list wfile → T * WalWriter * list wfile * list WalRotationInfo) s r s' :
  dirs_own s → wf_str gid → wf_str gid' → gid ≠ gid' → encode_group_dir_name gid' = Ok d' →
  with_wal_writer oe gid f s = (r, s') →
  dirs_own s' ∧ wa_writers s' !! gid' = wa_writers s !! gid' ∧
  wa_dirs s' !! d' = wa_dirs s !! d' ∧ wa_gens s' !! d' = wa_gens s !! d'.
Proof.
  intros Ho Hw Hw' Hne He. unfold with_wal_writer.
  destruct (wa_root s) as [root|]; [|by intros [= <- <-]].
  destruct (wa_poisoned s); [by intros [= <- <-]|].
  destruct (open_writer oe gid root s) as [o s1] eqn:Hs1.
  destruct (open_writer_spec _ _ _ _ _ _ Ho Hs1) as (H1 & H2 & H3).
  assert (encode_group_dir_name gid ≠ Ok d') as Hd.
  { intros H. destruct (encode_decode _ _ Hw H) as [E1 _]. destruct (encode_decode _ _ Hw' He) as [E2 _]. congruence. }
  destruct (H3 _ Hd) as [H4 H5].
  assert (dirs_own s1) as Ho1 by (intros g dr w; rewrite H1; apply Ho).
  destruct o as [[dir w]|]; [|intros [= <- <-]; by rewrite H1].
  specialize (H2 _ eq_refl). cbn [fst] in H2.
  destruct (f w _) as [[[v w1] d1] rots]. intros [= <- <-]. split; [by apply dirs_own_set_group|].
  unfold set_group. cbn [wa_writers wa_dirs wa_gens]. rewrite !lookup_insert_ne by congruence. by rewrite H1.
Qed.
End isolation.

(** ** Witnesses *)

#[local] Instance exec_tables : Unicode := AsciiUnicode.
#[local] Instance exec_printer : LinePrinter := ToyPrinter.
#[local] Instance exec_reader : SeqReader := ToyReader.
#[local] Instance exec_codec : GenerationCodec := PlainCodec.
Definition toy_app : wal_app := {|
  wa_root := Some (Root [REntry (Some #"g") true]); wa_poisoned := false;
  wa_writers := {[ #"g" := (#"g", toy_writer 2 0 None 0 0) ]}; wa_dirs := {[ #"g" := [] ]}; wa_gens := ∅;
  wa_max_events := 10; wa_max_bytes := 0; wa_rotations := [] |}.
Lemma toy_opened : opened toy_app #"g" #"g" (toy_writer 2 0 None 0 0) [].
Proof. split; [by eexists|]. done. Qed.
Definition toy_open : open_env :=
  {| oe_window := 2; oe_uuid := #"abcdefgh"; oe_a1 := quiet #"u1"; oe_a2 := quiet #"u2"; oe_mkdir_ok := true |}.
Definition toy_batch : list (flush_env * mutation) :=
  [(toy_env FlushOk, toy_mut); (toy_env FlushOpen, toy_mut); (toy_env FlushOk, toy_read); (toy_env FlushOk, toy_mut)].

Lemma ungrouped_ack_exact_witness :
  let r := (wal_flush_ungrouped toy_open #"g" toy_batch toy_app).1 in
  let s' := (wal_flush_ungrouped toy_open #"g" toy_batch toy_app).2 in
  flushed 5 toy_batch = [5%N; 7%N] ∧
  is_max (flushed 5 toy_batch) (fst <$> r) ∧ (∀ q g, r = Some (q, g) → g = None) ∧
  ∃ w' d', opened s' #"g" #"g" w' d' ∧ global_seq w' = (5 + kept toy_batch)%N ∧
    ((∀ em, em ∈ toy_batch → untorn_fault em.1) →
     ∃ writes, wl_seq ∘ snd <$> writes = flushed 5 toy_batch ∧ d' = appended [] writes).
Proof.
  split; [vm_compute; reflexivity|].
  apply (ungrouped_ack_exact toy_open #"g" #"g" (toy_writer 2 0 None 0 0) [] toy_batch toy_app);
    [exact toy_opened|vm_compute; reflexivity|by destruct (wal_flush_ungrouped _ _ _ _)|discriminate].
Defined.


Lemma writer_isolation_witness :
  let s' := (with_wal_writer toy_open #"h" (chunk_body (toy_env FlushOk) [toy_mut]) toy_app).2 in
  dirs_own s' ∧ wa_writers s' !! #"g" = wa_writers toy_app !! #"g" ∧
  wa_dirs s' !! #"g" = wa_dirs toy_app !! #"g" ∧ wa_gens s' !! #"g" = wa_gens toy_app !! #"g".
Proof.
  apply (writer_isolation toy_open #"h" #"g" #"g" (chunk_body (toy_env FlushOk) [toy_mut]) toy_app
    (with_wal_writer toy_open #"h" (chunk_body (toy_env FlushOk) [toy_mut]) toy_app).1).
  - intros gid dir w H. cbn [toy_app wa_writers] in H. apply lookup_singleton_Some in H as [<- [= <- <-]]. reflexivity.
  - by apply ascii_wf.
  - by apply ascii_wf.
  - discriminate.
  - reflexivity.
  - by destruct (with_wal_writer _ _ _ _).
Defined.
