(* ===== verification/Recovery.v ===== *)
(** * Recovery: resuming from a torn database (core/src/recovery.rs)

    The episode cursor is a search of a group's WAL.  The recovery sequence runs the replay of
    [Replay] on whatever database the checkpoint drop or the rebuild opened; queries, index
    building and connections are inputs, the position rows are the map of [WalExec]. *)

From S2P Require Import Prelude Text Numbers Json WalGeneration WalScan Checkpoint WalGroup Wal LegacyWal Replay ReplayTheory WalExec.

(** Source: core/src/recovery.rs 18-22 (CursorReason) *)
Inductive CursorReason := UuidMatch | NoEpisodes | UuidNotFound.
Global Instance CursorReason_eq_dec : EqDecision CursorReason.
Proof. solve_decision. Defined.
(** Source: core/src/recovery.rs 24-32 (as_str) *)
Definition reason_str (r : CursorReason) : str :=
  match r with UuidMatch => #"uuid_match" | NoEpisodes => #"no_episodes" | UuidNotFound => #"uuid_not_found" end.

Section cursor.
Context {RD : ReplayDeps}.

(** [params.get(key).and_then(as_str) == Some(target)] *)
Definition param_is (key target : str) (l : WalLine) : bool :=
  bool_decide (get key (wl_params l) ≫= as_str = Some target).
(** The sequence number of a line that mentions the episode.
    Source: core/src/recovery.rs 123-134 (scan_file_for_uuid) *)
Definition uuid_line (target : str) (line : option str) : option N :=
  line ← line;
  if negb (contains target line) then None
  else
    l ← parse_wal_line line;
    if param_is #"uuid" target l || param_is #"ep" target l then Some (wl_seq l) else None.
(** Source: core/src/recovery.rs 114-139 (scan_file_for_uuid) *)
Definition scan_file_for_uuid (f : wfile) (target : str) : result Error (option N) :=
  match wf_bytes f with
  | None => Err io_err
  | Some bs => Ok (find_first (uuid_line target) (buf_lines bs))
  end.

(** Source: core/src/recovery.rs 95-106 (collect_wal_files) *)
Definition collect_wal_files (d : wal_dir) : list wfile :=
  sort_by (λ a b, str_leb (wf_name a) (wf_name b)) (jsonl_files (default [] d)).

(** [latest] is what [get_latest_episode_uuid] answers.
    Source: core/src/recovery.rs 61-93 (derive_episode_cursor) *)
Definition derive_episode_cursor (latest : result Error (option str)) (d : wal_dir) : result Error (N * CursorReason) :=
  let? target := latest in
  match target with
  | None => Ok (0%N, NoEpisodes)
  | Some uuid =>
      let min_seq :=
        foldl (λ m f, match scan_file_for_uuid f uuid with Ok (Some seq) => omin m seq | _ => m end)
          None (collect_wal_files d) in
      Ok match min_seq with Some seq => (seq, UuidMatch) | None => (0%N, UuidNotFound) end
  end.

(** The three counts of a group. *)
Record group_counts := { gc_episodes : result Error N; gc_entities : result Error N; gc_edges : result Error N }.
(** Source: core/src/recovery.rs 210-219 (group_has_no_content) *)
Definition group_has_no_content (g : group_counts) : result Error bool :=
  let? episodes := gc_episodes g in
  if negb (episodes =? 0)%N then Ok false
  else
    let? entities := gc_entities g in
    if negb (entities =? 0)%N then Ok false
    else
      let? edges := gc_edges g in
      Ok (edges =? 0)%N.

Context {GC : GenerationCodec}.

(** [get_ok] and [set_ok]: whether the two queries on the position rows succeed.
    Source: core/src/recovery.rs 171-202 (backfill_applied_seq_if_absent) *)
Definition backfill_applied_seq_if_absent (get_ok set_ok : bool) (g : group_counts) (latest : result Error (option str))
    (group_id : str) (d : wal_dir) (sidecar : option str) (p : positions) : result Error unit * positions :=
  match get_wal_position get_ok group_id p with
  | Err e => (Err e, p)
  | Ok rec =>
      match applied_seq rec with
      | Some _ => (Ok tt, p)
      | None =>
          let generation := read_generation sidecar in
          match gc_episodes g with
          | Err e => (Err e, p)
          | Ok 0%N =>
              match group_has_no_content g with
              | Err e => (Err e, p)
              | Ok true => set_wal_position set_ok group_id 0 generation None p
              | Ok false => (Ok tt, p)
              end
          | Ok _ =>
              match derive_episode_cursor latest d with
              | Err e => (Err e, p)
              | Ok (seq, UuidMatch) => set_wal_position set_ok group_id seq generation None p
              | Ok _ => (Ok tt, p)
              end
          end
      end
  end.
End cursor.

(** ** The recovery sequence *)

(** A position a group's replay earned: the group, the sequence number, the generation on disk,
    and whether every recompute succeeded. *)
Abbreviation earned := (str * N * option str * bool)%type.

Section recovery.
Context {U : Unicode} {SR : SeqReader} {RD : ReplayDeps} {DB : Db} {LGP : LegacyPatterns} {GC : GenerationCodec}.

(** Source: core/src/replay.rs 361-376 (new) *)
Definition new_replay_options (embed : nat → list str → result Error (list (list f32))) (dim : N) : ReplayOptions :=
  {| from_seq := 0; to_seq := None; dry_run := false; progress_fn := None; cancel_fn := None;
     failure_sample_cap := None; batch_size := None; embed_window_size := None;
     recompute_embed_fn := embed; recompute_embed_dim := dim |}.
Definition from_opts (q : N) (o : ReplayOptions) : ReplayOptions :=
  {| from_seq := q; to_seq := to_seq o; dry_run := dry_run o; progress_fn := progress_fn o; cancel_fn := cancel_fn o;
     failure_sample_cap := failure_sample_cap o; batch_size := batch_size o; embed_window_size := embed_window_size o;
     recompute_embed_fn := recompute_embed_fn o; recompute_embed_dim := recompute_embed_dim o |}.

(** Source: core/src/recovery.rs 35-43 (RecoveryReport) *)
Record RecoveryReport := {
  episodes_before : N;
  mutations_replayed : N;
  episodes_after : N;
  indexes_rebuilt : bool;
  rr_from_seq : N;
  cursor_reason : CursorReason;
}.

(** What the run asks of its surroundings: the two ways of opening the database, each connection,
    the queries, the index steps, and which position writes succeed. *)
Record rec_env := {
  re_drop : result Error conn;
  re_rebuild : result Error conn;
  re_connect : nat → result Error unit;
  re_latest : conn → result Error (option str);
  re_count_episodic : conn → result Error N;
  re_drop_fts : conn → conn;
  re_indexes : conn → result Error unit * conn;
  re_set_ok : str → bool;
  re_replay_env : replay_env;
}.

(** Source: core/src/recovery.rs 361-369 (run_full_recovery_sequence) *)
Definition earned_position (gid : str) (sidecar : option str) (st : ReplayStats) : list earned :=
  match last_committed_seq st with
  | Some seq => [(gid, seq, read_generation sidecar, embeddings_recompute_had_no_failures st)]
  | None => []
  end.

Context (e : rec_env) (opts : ReplayOptions).
(** A WAL root: what its listing yields, and each directory's files and sidecar. *)
Context (root : wroot) (dirs : str → option wal_dir) (sidecars : str → option str).

(** Every group of the root replayed into the wiped database.
    Source: core/src/recovery.rs 350-371 (run_full_recovery_sequence) *)
Fixpoint replay_groups (groups : list (str * str)) (c : conn) : result Error (N * list earned) * conn :=
  match groups with
  | [] => (Ok (0%N, []), c)
  | (gid, dir) :: groups =>
      match replay_opts (from_opts 0 opts) (re_replay_env e) (dirs dir) c with
      | (Err x, c) => (Err x, c)
      | (Ok st, c) =>
          match replay_groups groups c with
          | (Err x, c) => (Err x, c)
          | (Ok (total, ps), c) => (Ok (add64 (counts st lines_replayed) total, earned_position gid (sidecars dir) st ++ ps), c)
          end
      end
  end.
(** Source: core/src/recovery.rs 344-398 (run_full_recovery_sequence) *)
Definition replay_step (used_fallback : bool) (group_id wal_dir_name : str) (from : N) (c : conn) :
    result Error (N * list earned) * conn :=
  let c := re_drop_fts e c in
  if used_fallback then
    match list_group_wal_dirs root with
    | Err x => (Err x, c)
    | Ok groups => replay_groups groups c
    end
  else
    match replay_opts (from_opts from opts) (re_replay_env e) (dirs wal_dir_name) c with
    | (Err x, c) => (Err x, c)
    | (Ok st, c) => (Ok (counts st lines_replayed, earned_position group_id (sidecars wal_dir_name) st), c)
    end.

(** The identity is claimed only for a group whose recompute had no failure.
    Source: core/src/recovery.rs 443-455 (run_full_recovery_sequence) *)
Definition persist_position (identity : str * Z) (p : positions) (x : earned) : positions :=
  let '(gid, seq, generation, fully) := x in
  (set_wal_position (re_set_ok e gid) gid seq generation (if fully then Some identity else None) p).2.

(** The database is opened at its last checkpoint, or wiped.
    Source: core/src/recovery.rs 276-302 (run_full_recovery_sequence) *)
Definition open_step : result Error (conn * bool) :=
  match re_drop e with
  | Ok c => Ok (c, false)
  | Err _ => rmap (λ c, (c, true)) (re_rebuild e)
  end.
(** Source: core/src/recovery.rs 315-334 (run_full_recovery_sequence) *)
Definition cursor_step (used_fallback : bool) (d : wal_dir) (c : conn) : result Error (N * CursorReason) :=
  if used_fallback then Ok (0%N, NoEpisodes)
  else let? _ := re_connect e 0 in derive_episode_cursor (re_latest e c) d.

(** Source: core/src/recovery.rs 257-499 (run_full_recovery_sequence) *)
Definition run_full_recovery_sequence (group_id : str) (identity : str * Z) (p : positions) :
    result Error (conn * RecoveryReport) * positions :=
  let before :=
    let? wal_dir_name := encode_group_dir_name group_id in
    let? '(c, used_fallback) := open_step in
    let? '(from, reason) := cursor_step used_fallback (default (Some []) (dirs wal_dir_name)) c in
    let? _ := re_connect e 1 in
    let episodes := match re_count_episodic e c with Ok n => n | Err _ => 0%N end in
    let? _ := re_connect e 2 in
    match replay_step used_fallback group_id wal_dir_name from c with
    | (Err x, _) => Err x
    | (Ok (replayed, ps), c) =>
        let? _ := re_connect e 3 in
        match re_indexes e c with
        | (Err x, _) => Err x
        | (Ok _, c) => Ok (from, reason, episodes, replayed, ps, c)
        end
    end in
  match before with
  | Err x => (Err x, p)
  | Ok (from, reason, episodes, replayed, ps, c) =>
      let p := foldl (persist_position identity) p ps in
      (let? _ := re_connect e 4 in
       Ok (c, {| episodes_before := episodes; mutations_replayed := replayed;
                 episodes_after := match re_count_episodic e c with Ok n => n | Err _ => 0%N end;
                 indexes_rebuilt := true; rr_from_seq := from; cursor_reason := reason |}), p)
  end.
End recovery.

(** ** The cursor *)

Section cursor_props.
Context {RD : ReplayDeps}.

(** The numbers of a file's lines that mention the episode. *)
Definition mentions (u : str) (f : wfile) : list N :=
  match wf_bytes f with Some bs => omap (uuid_line u) (buf_lines bs) | None => [] end.

Lemma sorted_head_min l : StronglySorted N.lt l → is_min l (head l).
Proof.
  intros H. destruct l as [|x l]; [done|]. apply StronglySorted_cons in H as [H _]. split; [by left|].
  intros y [->|Hy]%elem_of_cons; [lia|]. rewrite Forall_forall in H. specialize (H y Hy). lia.
Qed.
Lemma is_min_merge l k m n :
  is_min l m → is_min k n → is_min (l ++ k) (match n with Some x => omin m x | None => m end).
Proof.
  destruct n as [x|]; [|intros H ->; by rewrite app_nil_r].
  intros Hm [Hx Hall]. destruct m as [y|]; cbn [omin is_min] in *.
  - destruct Hm as [Hy Hle]. split.
    + destruct (N.min_spec y x) as [[_ ->]|[_ ->]]; apply elem_of_app; auto.
    + intros z [Hz|Hz]%elem_of_app; [specialize (Hle z Hz)|specialize (Hall z Hz)]; lia.
  - subst l. split; [done|]. exact Hall.
Qed.
Lemma cursor_scan u fs acc m :
  (∀ f, f ∈ fs → StronglySorted N.lt (mentions u f)) → is_min acc m →
  is_min (acc ++ (fs ≫= mentions u))
    (foldl (λ m f, match scan_file_for_uuid f u with Ok (Some seq) => omin m seq | _ => m end) m fs).
Proof.
  revert acc m. induction fs as [|f fs IH]; intros acc m Hs Hm; cbn [foldl]; [by rewrite app_nil_r|].
  rewrite bind_cons, app_assoc. apply IH; [intros g Hg; apply Hs; by right|].
  pose proof (sorted_head_min _ (Hs f (list_elem_of_here _ _))) as Hh.
  pose proof (is_min_merge _ _ _ _ Hm Hh) as H. revert H. unfold scan_file_for_uuid, mentions.
  destruct (wf_bytes f) as [bs|]; [|done]. rewrite find_first_omap. by destruct (head _).
Qed.

(** With numbers increasing along each file, the cursor is the least number of any line of the
    group's WAL that mentions the last episode, whatever file it is in and in whatever order the
    files are listed; without such a line the whole log is replayed. *)
Theorem cursor_is_earliest_mention u d :
  (∀ f, f ∈ jsonl_files d → StronglySorted N.lt (mentions u f)) →
  ∃ m, is_min (jsonl_files d ≫= mentions u) m ∧
    derive_episode_cursor (Ok (Some u)) (Some d) =
      Ok match m with Some q => (q, UuidMatch) | None => (0%N, UuidNotFound) end.
Proof.
  intros Hs. eexists. split; [|reflexivity]. unfold collect_wal_files. cbn [default from_option id].
  set (le := λ a b : wfile, _). pose proof (sort_by_perm le (jsonl_files d)) as Hp.
  eapply is_min_perm; [|apply (cursor_scan u (sort_by le (jsonl_files d)) [] None); [|done]].
  - cbn [app]. by rewrite Hp.
  - intros f Hf. apply Hs. by rewrite <- Hp.
Qed.
End cursor_props.

(** ** What recovery records *)

Section recovery_props.
Context {U : Unicode} {SR : SeqReader} {RD : ReplayDeps} {DB : Db} {LGP : LegacyPatterns} {GC : GenerationCodec}.
Context (e : rec_env) (opts : ReplayOptions) (root : wroot) (dirs : str → option wal_dir) (sidecars : str → option str).

(** A replay of the group in directory [dir] that gave [st]. *)
Definition replayed (dir : str) (from : N) (st : ReplayStats) : Prop :=
  ∃ c c', replay_opts (from_opts from opts) (re_replay_env e) (dirs dir) c = (Ok st, c').
(** A position comes from the group's own replay and its own sidecar. *)
Definition justified (from : N) (x : earned) : Prop :=
  ∃ dir st, encode_group_dir_name x.1.1.1 = Ok dir ∧ replayed dir from st ∧ x ∈ earned_position x.1.1.1 (sidecars dir) st.

Lemma earned_gid gid sc st x : x ∈ earned_position gid sc st → x.1.1.1 = gid.
Proof. unfold earned_position. destruct (last_committed_seq st); [|by intros ?%elem_of_nil]. by intros ->%list_elem_of_singleton. Qed.
Lemma replay_groups_spec groups c total ps c' :
  replay_groups e opts dirs sidecars groups c = (Ok (total, ps), c') →
  (∀ gid dir, (gid, dir) ∈ groups → encode_group_dir_name gid = Ok dir) →
  (∀ x, x ∈ ps → justified 0 x) ∧
  (∀ gid dir, (gid, dir) ∈ groups → ∃ st, replayed dir 0 st ∧ earned_position gid (sidecars dir) st ⊆ ps).
Proof.
  revert c total ps c'. induction groups as [|[gid dir] groups IH]; intros c total ps c'; cbn [replay_groups].
  - intros [= <- <- <-] _. split; intros; by apply elem_of_nil in H.
  - destruct (replay_opts _ _ (dirs dir) c) as [[st|x] c1] eqn:Hr; [|done].
    destruct (replay_groups e opts dirs sidecars groups c1) as [[[t1 p1]|x] c2] eqn:Hg; [|done].
    intros [= <- <- <-] Henc.
    destruct (IH _ _ _ _ Hg) as [I1 I2]; [intros g d Hin; apply Henc; by right|].
    assert (replayed dir 0 st) as Hst by (by exists c, c1). split.
    + intros x [Hx|Hx]%elem_of_app; [|by apply I1]. exists dir, st.
      rewrite (earned_gid _ _ _ _ Hx). split; [apply Henc; by left|]. done.
    + intros g d [[= -> ->]|Hin]%elem_of_cons.
      * exists st. split; [done|]. set_solver.
      * destruct (I2 _ _ Hin) as (st' & ? & ?). exists st'. split; [done|]. set_solver.
Qed.

Lemma persist_other identity p ps g :
  (∀ x, x ∈ ps → x.1.1.1 ≠ g) → foldl (persist_position e identity) p ps !! g = p !! g.
Proof.
  revert p. induction ps as [|[[[gid q] gen] b] ps IH]; intros p Hne; cbn [foldl]; [done|].
  rewrite IH by (intros x Hx; apply Hne; by right). unfold persist_position, set_wal_position.
  destruct (re_set_ok e gid); cbn [negb snd]; [|done].
  apply lookup_insert_ne. apply (Hne (gid, q, gen, b)). by left.
Qed.

End recovery_props.

(** ** Witnesses *)

#[local] Existing Instances ToyDb ToyLegacy toy_tables toy_digits.
#[local] Instance recovery_codec : GenerationCodec := PlainCodec.
(** A line [xxx:u]: its number is the length of the first part, its uuid the second. *)
#[local] Instance UuidDeps : ReplayDeps := {|
  parse_wal_line raw :=
    match split_on (N.eqb 58) raw with
    | [a; u] => Some {| wl_seq := N.of_nat (length a); wl_ts := []; wl_db := []; wl_cypher := #"CREATE (n)";
                        wl_params := VObject [(#"uuid", VString u)] |}
    | _ => None
    end;
  f32 := N; number_of_f32 n := Some (PosInt n);
|}.
Definition uuid_log : list wfile :=
  [WFile #"b.jsonl" (Some (toy_text [ #"aaaa:e1"; #"aaaaa:e2" ]));
   WFile #"a.jsonl" (Some (toy_text [ #"aa:e2"; #"aaa:e2"; #"zz" ]))].

Lemma cursor_is_earliest_mention_witness :
  ∃ m, is_min (jsonl_files uuid_log ≫= mentions #"e2") m ∧
    derive_episode_cursor (Ok (Some #"e2")) (Some uuid_log) =
      Ok match m with Some q => (q, UuidMatch) | None => (0%N, UuidNotFound) end.
Proof.
  apply (cursor_is_earliest_mention #"e2" uuid_log). apply Forall_forall.
  repeat (constructor; [vm_compute; repeat constructor|]). constructor.
Defined.

Definition toy_rec_opts : ReplayOptions := new_replay_options (λ _ _, Err io_err) 3.
Definition toy_rec_env : rec_env := {|
  re_drop := Err io_err; re_rebuild := Ok toy_start; re_connect _ := Ok tt;
  re_latest _ := Ok None; re_count_episodic _ := Ok 0%N; re_drop_fts c := c; re_indexes c := (Ok tt, c);
  re_set_ok _ := true; re_replay_env := toy_replay_env |}.
Definition toy_dirs (d : str) : option wal_dir := if bool_decide (d = #"g") then Some (Some uuid_log) else None.
Definition toy_recovered := run_full_recovery_sequence toy_rec_env toy_rec_opts (Root toy_entries) toy_dirs (λ _, None) #"g" (#"m", 3%Z) ∅.
