(* ===== verification/Ontology.v ===== *)
(** * Ontology: declared entity and relation types (core/src/ontology.rs)

    The YAML reader is a parameter; from the parsed file on everything is a definition.  The two
    loops over the parent graph run on fuel; [validate_and_clean_parents] never runs out, and what
    the ancestor loop needs is a theorem. *)

From S2P Require Import Prelude Text WalGeneration WalScan Checkpoint WalGroup.

(** ** The file *)

(** Source: core/src/ontology.rs 22-25 (OntologyModeRaw) *)
Inductive OntologyModeRaw := RawOpen | RawStrict.
(** Source: core/src/ontology.rs 28-41 (EntityTypeRaw) *)
Record EntityTypeRaw := {
  er_name : str; er_description : option str; er_parent : option str; er_identity : bool; er_extract : bool }.
(** Source: core/src/ontology.rs 44-61 (RelationTypeRaw) *)
Record RelationTypeRaw := {
  rr_name : str; rr_description : option str; rr_source_type : option str; rr_target_type : option str;
  rr_aliases : option (list str); rr_keywords : option (list str); rr_extract : bool }.
(** Source: core/src/ontology.rs 11-18 (OntologyFile) *)
Record OntologyFile := {
  of_mode : option OntologyModeRaw; of_entity_types : list EntityTypeRaw; of_relation_types : list RelationTypeRaw }.

(** ** The ontology *)

(** Source: core/src/ontology.rs 70-73 (OntologyMode) *)
Inductive OntologyMode := Open | Strict.
(** Source: core/src/ontology.rs 75-82 (fmt) *)
Definition mode_str (m : OntologyMode) : str := match m with Open => #"open" | Strict => #"strict" end.
(** Source: core/src/ontology.rs 85-97 (EntityTypeDef) *)
Record EntityTypeDef := {
  et_name : str; et_description : option str; et_parent : option str; et_identity : bool; et_extract : bool }.
(** Source: core/src/ontology.rs 100-111 (RelationTypeDef) *)
Record RelationTypeDef := {
  rt_name : str; rt_description : option str; rt_source_type : option str; rt_target_type : option str;
  rt_aliases : list str; rt_keywords : list str; rt_extract : bool }.
(** Source: core/src/ontology.rs 114-122 (Ontology) *)
Record Ontology := {
  mode : OntologyMode;
  entity_types : list EntityTypeDef;
  relation_types : list RelationTypeDef;
  ancestor_map : gmap str (list str);
}.

(** Source: core/src/ontology.rs 125-127 (has_entity_types) *)
Definition has_entity_types (o : Ontology) : bool := match entity_types o with [] => false | _ => true end.
(** Source: core/src/ontology.rs 129-131 (has_relation_types) *)
Definition has_relation_types (o : Ontology) : bool := match relation_types o with [] => false | _ => true end.
(** Source: core/src/ontology.rs 133-135 (entity_type_names) *)
Definition entity_type_names (o : Ontology) : gset str := list_to_set (et_name <$> entity_types o).
(** Source: core/src/ontology.rs 137-139 (relation_type_names) *)
Definition relation_type_names (o : Ontology) : gset str := list_to_set (rt_name <$> relation_types o).
(** Source: core/src/ontology.rs 143-145 (extractable_entity_types) *)
Definition extractable_entity_types (o : Ontology) : list EntityTypeDef := List.filter et_extract (entity_types o).
(** Source: core/src/ontology.rs 148-150 (extractable_relation_types) *)
Definition extractable_relation_types (o : Ontology) : list RelationTypeDef := List.filter rt_extract (relation_types o).
(** Source: core/src/ontology.rs 152-156 (extractable_entity_type_names) *)
Definition extractable_entity_type_names (o : Ontology) : gset str := list_to_set (et_name <$> extractable_entity_types o).
(** Source: core/src/ontology.rs 158-162 (extractable_relation_type_names) *)
Definition extractable_relation_type_names (o : Ontology) : gset str := list_to_set (rt_name <$> extractable_relation_types o).

(** Sorted without duplicates: a [BTreeSet] of texts in order. *)
Definition btree (l : list str) : list str := sort_by str_leb (remove_dups l).
(** Source: core/src/ontology.rs 184-190 (identity_set) *)
Definition identity_set (o : Ontology) : list str := btree (et_name <$> List.filter et_identity (entity_types o)).

(** ** Names *)

Section names.
Context {U : Unicode}.

(** [cur] is the current word reversed.
    Source: core/src/ontology.rs 244-289 (split_words) *)
Fixpoint split_words_go (cur : str) (s : str) : list str :=
  match s with
  | [] => if nonempty cur then [reverse cur] else []
  | c :: rest =>
      if (c =? 95)%N || (c =? 45)%N || (c =? 32)%N then
        (if nonempty cur then [reverse cur] else []) ++ split_words_go [] rest
      else
        let boundary :=
          is_uppercase c &&
          match cur with
          | [] => false
          | prev :: _ =>
              is_lowercase prev
              || (match rest with next :: _ => is_lowercase next | [] => false end && is_uppercase prev)
          end in
        if boundary then reverse cur :: split_words_go [c] rest else split_words_go (c :: cur) rest
  end.
Definition split_words (s : str) : list str := split_words_go [] s.

(** One word of a PascalCase name. *)
Definition capitalise (w : str) : str :=
  match w with [] => [] | first :: rest => to_uppercase [first] ++ to_lowercase rest end.
(** Source: core/src/ontology.rs 209-227 (normalize_entity_type) *)
Definition normalize_entity_type (s : str) : str := concat (capitalise <$> split_words s).
(** Source: core/src/ontology.rs 231-241 (normalize_relation_type) *)
Definition normalize_relation_type (s : str) : str := join #"_" (to_uppercase <$> split_words s).

(** Source: core/src/ontology.rs 166-171 (is_extract_false_entity) *)
Definition is_extract_false_entity (o : Ontology) (label : str) : bool :=
  let normalized := normalize_entity_type label in
  existsb (λ e, negb (et_extract e) && bool_decide (et_name e = normalized)) (entity_types o).
(** Source: core/src/ontology.rs 175-180 (is_extract_false_relation) *)
Definition is_extract_false_relation (o : Ontology) (label : str) : bool :=
  let normalized := normalize_relation_type label in
  existsb (λ r, negb (rt_extract r) && bool_decide (rt_name r = normalized)) (relation_types o).
(** Source: core/src/ontology.rs 196-202 (identity_kind) *)
Definition identity_kind (o : Ontology) (entity_type : str) : option str :=
  let normalized := normalize_entity_type entity_type in
  find_first (λ e, if et_identity e && et_extract e && bool_decide (et_name e = normalized) then Some (et_name e) else None)
    (entity_types o).
End names.

(** ** The parent graph *)

Definition set_parent (p : option str) (e : EntityTypeDef) : EntityTypeDef :=
  {| et_name := et_name e; et_description := et_description e; et_parent := p; et_identity := et_identity e; et_extract := et_extract e |}.
(** Phase 1: a parent that is not declared is cleared.
    Source: core/src/ontology.rs 576-590 (validate_and_clean_parents) *)
Definition clear_undeclared (ets : list EntityTypeDef) : list EntityTypeDef :=
  (λ e, match et_parent e with
        | Some p => if bool_decide (p ∈ et_name <$> ets) then e else set_parent None e
        | None => e
        end) <$> ets.
(** Collecting a map keeps the last entry of a name.
    Source: core/src/ontology.rs 594-598 (validate_and_clean_parents) *)
Definition index_of (ets : list EntityTypeDef) (name : str) : option nat :=
  find_last (λ '(i, e), if bool_decide (et_name e = name) then Some i else None) (imap pair ets).
(** The parent's index.
    Source: core/src/ontology.rs 645-651 (validate_and_clean_parents) *)
Definition next_idx (ets : list EntityTypeDef) (cur : nat) : option nat :=
  e ← ets !! cur; p ← et_parent e; index_of ets p.
Definition position (x : nat) (path : list nat) : option nat := fst <$> list_find (eq x) path.
Definition clear_parents (ks : list nat) (ets : list EntityTypeDef) : list EntityTypeDef :=
  foldl (λ ets k, alter (set_parent None) k ets) ets ks.

(** The walk from one start: the list with a cycle's parents cleared, and the nodes known safe.
    Source: core/src/ontology.rs 612-659 (validate_and_clean_parents) *)
Fixpoint walk (fuel : nat) (ets : list EntityTypeDef) (safe : gset nat) (path : list nat) (cur : nat) :
    option (list EntityTypeDef * gset nat) :=
  match fuel with
  | O => None
  | S fuel =>
      if bool_decide (cur ∈ safe) then Some (ets, safe ∪ list_to_set path)
      else
        match position cur path with
        | Some k => Some (clear_parents (drop k path) ets, safe ∪ list_to_set (take k path))
        | None =>
            let path := path ++ [cur] in
            match next_idx ets cur with
            | Some next => walk fuel ets safe path next
            | None => Some (ets, safe ∪ list_to_set path)
            end
        end
  end.
(** Source: core/src/ontology.rs 603-660 (validate_and_clean_parents) *)
Fixpoint walk_all (fuel : nat) (starts : list nat) (ets : list EntityTypeDef) (safe : gset nat) : option (list EntityTypeDef) :=
  match starts with
  | [] => Some ets
  | start :: starts =>
      if bool_decide (start ∈ safe) then walk_all fuel starts ets safe
      else '(ets, safe) ← walk fuel ets safe [] start; walk_all fuel starts ets safe
  end.
(** A path repeats no node, so one more step than there are types is enough.
    Source: core/src/ontology.rs 575-661 (validate_and_clean_parents) *)
Definition validate_and_clean_parents (ets : list EntityTypeDef) : option (list EntityTypeDef) :=
  let ets := clear_undeclared ets in
  walk_all (S (length ets)) (seq 0 (length ets)) ets ∅.

(** The parent a name has in the map that [collect] builds: the last entry that has one.
    Source: core/src/ontology.rs 668-671 (compute_ancestor_map) *)
Definition parent_of (ets : list EntityTypeDef) (name : str) : option str :=
  find_last (λ e, if bool_decide (et_name e = name) then et_parent e else None) ets.
(** Source: core/src/ontology.rs 677-680 (compute_ancestor_map) *)
Fixpoint ancestors (fuel : nat) (ets : list EntityTypeDef) (cur : str) : option (list str) :=
  match parent_of ets cur with
  | None => Some []
  | Some p => match fuel with O => None | S fuel => cons p <$> ancestors fuel ets p end
  end.
(** Source: core/src/ontology.rs 667-685 (compute_ancestor_map) *)
Definition compute_ancestor_map (fuel : nat) (ets : list EntityTypeDef) : option (gmap str (list str)) :=
  foldl (λ m e, m ← m; l ← ancestors fuel ets (et_name e); Some (<[et_name e := reverse l]> m)) (Some ∅) ets.

(** ** Building *)

Section build.
Context {U : Unicode}.

(** Source: core/src/ontology.rs 467-505 (build_ontology) *)
Definition build_entity_type (raw : EntityTypeRaw) : option EntityTypeDef :=
  let normalized := normalize_entity_type (er_name raw) in
  if negb (nonempty normalized) then None
  else if bool_decide (normalized = #"Entity") then None
  else
    Some {| et_name := normalized; et_description := er_description raw;
            et_parent := normalize_entity_type <$> er_parent raw;
            et_identity := er_identity raw && negb (bool_decide (normalized ∈ [ #"Merged"; #"Unclassified" ]));
            et_extract := er_extract raw |}.
(** Source: core/src/ontology.rs 511-553 (build_ontology) *)
Definition build_relation_type (raw : RelationTypeRaw) : option RelationTypeDef :=
  let normalized := normalize_relation_type (rr_name raw) in
  if negb (nonempty normalized) then None
  else
    Some {| rt_name := normalized; rt_description := rr_description raw;
            rt_source_type := normalize_entity_type <$> rr_source_type raw;
            rt_target_type := normalize_entity_type <$> rr_target_type raw;
            rt_aliases := List.filter nonempty (normalize_relation_type <$> default [] (rr_aliases raw));
            rt_keywords := List.filter nonempty (to_lowercase <$> default [] (rr_keywords raw));
            rt_extract := rr_extract raw |}.
(** [None] when the fuel of the ancestor loop runs out, which the source never notices: it loops.
    Source: core/src/ontology.rs 458-566 (build_ontology) *)
Definition build_ontology (fuel : nat) (file : OntologyFile) (mode_override : option OntologyMode) : option (option Ontology) :=
  let mode :=
    match mode_override with
    | Some m => m
    | None => match of_mode file with Some RawStrict => Strict | _ => Open end
    end in
  ets ← validate_and_clean_parents (omap build_entity_type (of_entity_types file));
  ancestor_map ← compute_ancestor_map fuel ets;
  let rts := omap build_relation_type (of_relation_types file) in
  Some match ets, rts with
       | [], [] => None
       | _, _ => Some {| mode := mode; entity_types := ets; relation_types := rts; ancestor_map := ancestor_map |}
       end.

(** A file: absent, unreadable, or its text. *)
Inductive ofile := FAbsent | FUnreadable | FText (s : str).
Context (parse_yaml : str → option OntologyFile).
(** What the two silent loaders do with the file they chose.
    Source: core/src/ontology.rs 316-355 (load_ontology) *)
Definition load_text (fuel : nat) (f : ofile) : option (option Ontology) :=
  match f with
  | FAbsent | FUnreadable => Some None
  | FText text =>
      match trim text with
      | [] => Some None
      | _ => match parse_yaml text with None => Some None | Some file => build_ontology fuel file None end
      end
  end.
(** Source: core/src/ontology.rs 293-303 (ontology_file_path) *)
Definition ontology_file_path (primary fallback : ofile) : option ofile :=
  match primary with
  | FAbsent => match fallback with FAbsent => None | _ => Some fallback end
  | _ => Some primary
  end.
(** Source: core/src/ontology.rs 312-355 (load_ontology) *)
Definition load_ontology (fuel : nat) (workspace : option (ofile * ofile)) : option (option Ontology) :=
  match workspace ≫= λ '(primary, fallback), ontology_file_path primary fallback with
  | None => Some None
  | Some f => load_text fuel f
  end.
(** The file's name under the workspace's [.lcg/ontology].
    Source: core/src/ontology.rs 363-369 (group_ontology_path) *)
Definition group_ontology_path (group_id : str) : result Error str :=
  rmap (λ encoded, encoded ++ #".yaml") (encode_group_dir_name group_id).
(** Source: core/src/ontology.rs 378-422 (load_group_ontology) *)
Definition load_group_ontology (fuel : nat) (files : str → ofile) (group_id : str) : option (option Ontology) :=
  match group_ontology_path group_id with
  | Err _ => Some None
  | Ok path => load_text fuel (files path)
  end.
(** Source: core/src/ontology.rs 433-450 (load_ontology_from_path) *)
Definition load_ontology_from_path (fuel : nat) (f : ofile) (m : OntologyMode) : option (result str Ontology) :=
  match f with
  | FAbsent | FUnreadable => Some (Err #"failed to read ontology file")
  | FText text =>
      match trim text with
      | [] => Some (Err #"ontology file is empty")
      | _ =>
          match parse_yaml text with
          | None => Some (Err #"YAML parse error in ontology file")
          | Some file =>
              o ← build_ontology fuel file (Some m);
              Some match o with Some o => Ok o | None => Err #"ontology file declares no types" end
          end
      end
  end.
End build.

(** ** The content hash *)

Section hash.
Context (sha256_hex : bytes → str).

Definition nul : str := [0%N].
Definition fields (l : list str) : str := join nul l.
Definition entries (l : list str) : str := join (nul ++ nul) (sort_by str_leb l).
Definition newline : str := [10%N].
(** A part of the canonical form that is left out when it is empty. *)
Definition optional_part (title : str) (l : list str) : str :=
  match l with [] => [] | _ => newline ++ title ++ join (nul ++ nul) l end.

Definition entity_entry (e : EntityTypeDef) : str := fields [et_name e; default [] (et_description e)].
Definition relation_entry (r : RelationTypeDef) : str :=
  fields [rt_name r; default [] (rt_source_type r); default [] (rt_target_type r); default [] (rt_description r);
          join nul (sort_by str_leb (rt_aliases r)); join nul (sort_by str_leb (rt_keywords r))].
Definition parent_entry (e : EntityTypeDef) : option str := (λ p, fields [et_name e; p]) <$> et_parent e.

(** Source: core/src/ontology.rs 702-777 (content_hash) *)
Definition canonical_form (o : Ontology) : str :=
  let parents := sort_by str_leb (omap parent_entry (entity_types o)) in
  let no_entities := sort_by str_leb (et_name <$> List.filter (negb ∘ et_extract) (entity_types o)) in
  let no_relations := sort_by str_leb (rt_name <$> List.filter (negb ∘ rt_extract) (relation_types o)) in
  #"mode:" ++ mode_str (mode o) ++ newline ++ #"entity_types:" ++ entries (entity_entry <$> entity_types o)
  ++ newline ++ #"relation_types:" ++ entries (relation_entry <$> relation_types o)
  ++ optional_part #"parent_edges:" parents
  ++ optional_part #"identity:" (identity_set o)
  ++ match no_entities, no_relations with
     | [], [] => []
     | _, _ => newline ++ #"extract_false:" ++ join (nul ++ nul) no_entities
               ++ newline ++ #"extract_false_relations:" ++ join (nul ++ nul) no_relations
     end.
(** Source: core/src/ontology.rs 697-780 (content_hash) *)
Definition content_hash (o : option Ontology) : str :=
  match o with None => #"none" | Some o => sha256_hex (utf8 (canonical_form o)) end.
End hash.
