(* ===== verification/OntologyTheory.v ===== *)
(** * OntologyTheory: the parent graph after validation, and the names

    [rooted ets i l]: following parents from entry [i] visits the entries [l] and ends. *)

From S2P Require Import Prelude Text WalGeneration WalScan Checkpoint WalGroup Ontology.

(** ** Following parents *)

Inductive rooted (ets : list EntityTypeDef) : nat → list nat → Prop :=
| rooted_end i : next_idx ets i = None → rooted ets i [i]
| rooted_step i j l : next_idx ets i = Some j → rooted ets j l → rooted ets i (i :: l).
Definition Rooted (ets : list EntityTypeDef) (i : nat) : Prop := ∃ l, rooted ets i l.

Lemma rooted_det ets i l l' : rooted ets i l → rooted ets i l' → l = l'.
Proof.
  intros H. revert l'. induction H as [i Hi|i j l Hi Hl IH]; intros l' H'; inversion H'; simplify_eq; try done.
  f_equal. by apply IH.
Qed.
Lemma rooted_suffix ets i l x : rooted ets i l → x ∈ l → ∃ l', rooted ets x l' ∧ l' `suffix_of` l.
Proof.
  induction 1 as [i Hi|i j l Hi Hl IH].
  - intros ->%list_elem_of_singleton. exists [i]. split; [by constructor|done].
  - intros [->|Hx]%elem_of_cons; [exists (i :: l); split; [by econstructor|done]|].
    destruct (IH Hx) as (l' & H1 & H2). exists l'. split; [done|]. by apply suffix_cons_r.
Qed.
Lemma rooted_NoDup ets i l : rooted ets i l → NoDup l.
Proof.
  induction 1 as [i Hi|i j l Hi Hl IH]; [apply NoDup_singleton|]. apply NoDup_cons. split; [|done].
  intros Hin. destruct (rooted_suffix _ _ _ _ Hl Hin) as (l' & H1 & H2%suffix_length).
  pose proof (rooted_det _ _ _ _ H1 (rooted_step _ _ _ _ Hi Hl)) as ->. simpl in H2. lia.
Qed.
Lemma rooted_tail_next ets i l x : rooted ets i l → x ∈ tail l → ∃ y, next_idx ets y = Some x.
Proof.
  induction 1 as [i Hi|i j l Hi Hl IH]; [by intros ?%elem_of_nil|]. cbn [tail].
  destruct Hl as [j Hj|j k l Hj Hk]; [intros ->%list_elem_of_singleton; by exists i|].
  intros [->|Hx]%elem_of_cons; [by exists i|]. by apply IH.
Qed.

(** What an entry's parent leads to only depends on the names. *)
Definition same_names (ets ets' : list EntityTypeDef) : Prop := et_name <$> ets' = et_name <$> ets.
Lemma same_names_index ets ets' n : same_names ets ets' → index_of ets' n = index_of ets n.
Proof.
  unfold same_names, index_of. intros H. 
  assert (∀ k, find_last (λ '(i, e), if bool_decide (et_name e = n) then Some i else None) (imap (λ i, pair (k + i)) ets') =
    find_last (λ '(i, e), if bool_decide (et_name e = n) then Some i else None) (imap (λ i, pair (k + i)) ets)) as Hk.
  { revert ets H. induction ets' as [|e' ets' IH]; intros [|e ets]; rewrite ?fmap_cons, ?fmap_nil; try done.
    intros [= He H] k. cbn [imap].
    assert (∀ l : list EntityTypeDef, imap ((λ i, pair (k + i)) ∘ S) l = imap (λ i, pair (S k + i)) l) as Hs.
    { intros l. apply imap_ext. intros i x _. simpl. by rewrite Nat.add_succ_r. }
    rewrite !Hs. cbn [find_last]. rewrite (IH ets H (S k)). cbn beta iota. by rewrite He. }
  apply (Hk 0).
Qed.
Lemma find_last_app_spec {A B : Type} (f : A → option B) (l : list A) y : find_last f l = Some y → ∃ x, x ∈ l ∧ f x = Some y.
Proof.
  induction l as [|x l IH]; cbn [find_last]; [done|]. destruct (find_last f l) as [z|].
  - intros [= ->]. destruct IH as (x' & ? & ?); [done|]. exists x'. split; [by right|done].
  - intros H. exists x. split; [by left|done].
Qed.
Lemma find_last_is_Some {A B : Type} (f : A → option B) (l : list A) x : x ∈ l → is_Some (f x) → is_Some (find_last f l).
Proof.
  induction l as [|z l IH]; [by intros ?%elem_of_nil|]. intros Hin Hx. cbn [find_last].
  destruct (find_last f l) eqn:Hl; [by eexists|]. apply elem_of_cons in Hin as [->|Hin]; [done|].
  destruct (IH Hin Hx). congruence.
Qed.
Lemma index_of_Some ets n i : index_of ets n = Some i → ∃ e, ets !! i = Some e ∧ et_name e = n.
Proof.
  intros ([j e] & Hin & Hf)%find_last_app_spec. apply elem_of_lookup_imap in Hin as (k & x & [= -> ->] & Hx).
  case_bool_decide as Hn; [|done]. injection Hf as ->. by exists x.
Qed.
Lemma next_lt ets i j : next_idx ets i = Some j → (j < length ets)%nat.
Proof.
  unfold next_idx. intros (e & He & (p & Hp & Hj)%bind_Some)%bind_Some.
  apply index_of_Some in Hj as (e' & He' & _). by apply lookup_lt_Some in He'.
Qed.
Lemma next_dom ets i : is_Some (next_idx ets i) → (i < length ets)%nat.
Proof. intros [j H]. unfold next_idx in H. apply bind_Some in H as (e & He & _). by apply lookup_lt_Some in He. Qed.

(** Clearing parents keeps names and lengths, and only removes steps. *)
Lemma clear_one_lookup (k : nat) (ets : list EntityTypeDef) (i : nat) : alter (set_parent None) k ets !! i =
  if decide (i = k) then set_parent None <$> ets !! i else ets !! i.
Proof. destruct (decide (i = k)) as [->|H]; [apply list_lookup_alter_eq|by apply list_lookup_alter_ne]. Qed.
Lemma clear_parents_lookup (ks : list nat) (ets : list EntityTypeDef) (i : nat) :
  clear_parents ks ets !! i = if bool_decide (i ∈ ks) then set_parent None <$> ets !! i else ets !! i.
Proof.
  revert ets. induction ks as [|k ks IH]; intros ets; cbn [clear_parents foldl].
  - by rewrite bool_decide_eq_false_2 by apply not_elem_of_nil.
  - change (foldl _ (alter (set_parent None) k ets) ks) with (clear_parents ks (alter (set_parent None) k ets)).
    rewrite IH, clear_one_lookup. destruct (decide (i = k)) as [->|Hne].
    + rewrite (bool_decide_eq_true_2 (k ∈ k :: ks)) by by left. destruct (ets !! k); [|by case_bool_decide].
      by case_bool_decide.
    + destruct (decide (i ∈ ks)) as [Hi|Hi].
      * by rewrite !bool_decide_eq_true_2 by (try done; by right).
      * rewrite !bool_decide_eq_false_2; [done| |done]. by intros [?|?]%elem_of_cons.
Qed.
Lemma clear_parents_names ks ets : same_names ets (clear_parents ks ets).
Proof.
  unfold same_names. apply list_eq. intros i. rewrite !list_lookup_fmap, clear_parents_lookup.
  case_bool_decide; [|done]. by destruct (ets !! i).
Qed.
Lemma clear_parents_length ks ets : length (clear_parents ks ets) = length ets.
Proof. rewrite <- (length_fmap et_name), (clear_parents_names ks ets). apply length_fmap. Qed.
Lemma clear_next ks ets i : next_idx (clear_parents ks ets) i = if bool_decide (i ∈ ks) then None else next_idx ets i.
Proof.
  unfold next_idx. rewrite clear_parents_lookup.
  case_bool_decide; destruct (ets !! i) as [e|]; [done|done| |done]; cbn [mbind option_bind].
  destruct (et_parent e) as [p|]; [|done]. cbn [mbind option_bind]. apply same_names_index, clear_parents_names.
Qed.
Lemma clear_rooted ks ets i : Rooted ets i → Rooted (clear_parents ks ets) i.
Proof.
  intros [l H]. induction H as [i Hi|i j l Hi Hl [l' IH]].
  - exists [i]. constructor. rewrite clear_next, Hi. by case_bool_decide.
  - destruct (decide (i ∈ ks)) as [Hk|Hk].
    + exists [i]. constructor. by rewrite clear_next, bool_decide_eq_true_2.
    + exists (i :: l'). econstructor; [|exact IH]. by rewrite clear_next, bool_decide_eq_false_2.
Qed.

(** ** The walk *)

Lemma NoDup_bounded (l : list nat) n : NoDup l → (∀ x, x ∈ l → (x < n)%nat) → (length l ≤ n)%nat.
Proof.
  intros Hn Hl. rewrite <- (length_seq n 0). apply submseteq_length, NoDup_submseteq; [done|].
  intros x Hx%Hl. apply elem_of_seq. lia.
Qed.
(** Each entry of the path has the next one as its parent, the last one [cur]. *)
Definition leads (ets : list EntityTypeDef) (path : list nat) (cur : nat) : Prop :=
  ∀ (k x : nat), path !! k = Some x → next_idx ets x = Some (default cur (path !! S k)).
Lemma leads_rooted ets path cur : leads ets path cur → Rooted ets cur → ∀ x, x ∈ path → Rooted ets x.
Proof.
  intros Hl Hc. induction path as [|y path IH]; [by intros x ?%elem_of_nil|].
  assert (∀ x, x ∈ path → Rooted ets x) as IH' by (apply IH; intros k x Hk; apply (Hl (S k) x Hk)).
  intros x [->|Hx]%elem_of_cons; [|by apply IH']. specialize (Hl 0 y eq_refl). simpl in Hl.
  assert (Rooted ets (default cur (path !! 0))) as [l Hr]
    by (destruct path as [|z path]; [done|]; apply IH'; by left).
  exists (y :: l). by econstructor.
Qed.
Lemma leads_snoc ets path cur next :
  leads ets path cur → next_idx ets cur = Some next → leads ets (path ++ [cur]) next.
Proof.
  intros Hl Hn k x. rewrite lookup_app. destruct (path !! k) as [y|] eqn:Hk.
  - intros [= ->]. rewrite (Hl k x Hk). f_equal. rewrite lookup_app. destruct (path !! S k) eqn:Hk'; [done|].
    apply lookup_ge_None in Hk'. apply lookup_lt_Some in Hk. replace (S k - length path)%nat with 0%nat by lia. done.
  - apply lookup_ge_None in Hk. intros Hx. destruct (k - length path)%nat as [|m] eqn:Hm; [|done].
    injection Hx as <-. rewrite Hn. f_equal. rewrite lookup_app_r by lia. by replace (S k - length path)%nat with 1%nat by lia.
Qed.
Lemma position_Some x path k : position x path = Some k → path !! k = Some x.
Proof. unfold position. intros ([j y] & H & ->)%fmap_Some. apply list_find_Some in H as (H & <- & _). done. Qed.
Lemma position_None x path : position x path = None → x ∉ path.
Proof.
  unfold position. intros H%fmap_None. apply list_find_None in H. rewrite Forall_forall in H.
  intros Hin. by apply (H x Hin).
Qed.

(** Entries keep everything but perhaps their parent. *)
Definition trimmed (ets ets' : list EntityTypeDef) : Prop :=
  ∀ i : nat, ets' !! i = ets !! i ∨ ets' !! i = set_parent None <$> ets !! i.
Lemma trimmed_trans ets1 ets2 ets3 : trimmed ets1 ets2 → trimmed ets2 ets3 → trimmed ets1 ets3.
Proof.
  intros H1 H2 i. destruct (H1 i) as [E1|E1], (H2 i) as [E2|E2]; rewrite E2, E1; auto.
  right. by destruct (ets1 !! i).
Qed.
Lemma trimmed_names ets ets' : trimmed ets ets' → same_names ets ets'.
Proof.
  intros H. unfold same_names. apply list_eq. intros i. rewrite !list_lookup_fmap.
  destruct (H i) as [-> | ->]; [done|]. by destruct (ets !! i).
Qed.
Definition walked (ets : list EntityTypeDef) (xs : list nat) (safe' : gset nat) (ets' : list EntityTypeDef) : Prop :=
  trimmed ets ets' ∧ (∀ i : nat, Rooted ets i → Rooted ets' i ∧ ets' !! i = ets !! i) ∧
  (∀ i, i ∈ safe' → Rooted ets' i) ∧ (∀ i, i ∈ xs → Rooted ets' i).

(** No entry of a set that parents never leave is rooted. *)
Lemma closed_not_rooted ets (C : nat → Prop) i :
  (∀ x, C x → ∃ y, next_idx ets x = Some y ∧ C y) → C i → ¬ Rooted ets i.
Proof.
  intros HC Hi [l H]. induction H as [i Hn|i j l Hn Hl IH]; destruct (HC _ Hi) as (y & Hy & HCy); simplify_eq.
  by apply IH.
Qed.

Lemma walk_spec fuel ets safe path cur :
  NoDup path → (∀ x, x ∈ path → (x < length ets)%nat) → (cur < length ets)%nat → leads ets path cur →
  (∀ i, i ∈ safe → Rooted ets i) → (S (length ets) ≤ length path + fuel)%nat →
  ∃ ets' safe', walk fuel ets safe path cur = Some (ets', safe') ∧ walked ets (path ++ [cur]) safe' ets'.
Proof.
  revert path cur. induction fuel as [|fuel IH]; intros path cur Hnd Hlt Hcur Hl Hs Hf.
  { pose proof (NoDup_bounded path _ Hnd Hlt). lia. }
  cbn [walk]. case_bool_decide as Hsafe; [|destruct (position cur path) as [k|] eqn:Hp; [|destruct (next_idx ets cur) as [next|] eqn:Hn]].
  - do 2 eexists. split; [done|]. pose proof (leads_rooted _ _ _ Hl (Hs _ Hsafe)) as Hpath.
    split; [by left|]. split; [done|]. split; [|].
    + intros i [Hi|Hi%elem_of_list_to_set]%elem_of_union; auto.
    + intros i [Hi| ->%list_elem_of_singleton]%elem_of_app; auto.
  - do 2 eexists. split; [done|]. apply position_Some in Hp. set (ks := drop k path).
    assert (∀ i, i ∈ ks → Rooted (clear_parents ks ets) i) as Hcyc.
    { intros i Hi. exists [i]. constructor. by rewrite clear_next, bool_decide_eq_true_2. }
    assert (cur ∈ ks) as Hck.
    { apply list_elem_of_lookup. exists 0%nat. unfold ks. rewrite lookup_drop, Nat.add_0_r. done. }
    assert (leads (clear_parents ks ets) (take k path) cur) as Hl'.
    { intros j x Hj. apply lookup_take_Some in Hj as [Hj Hjk].
      rewrite clear_next, bool_decide_eq_false_2.
      - rewrite (Hl j x Hj). f_equal. destruct (decide (S j < k)%nat); [by rewrite lookup_take_lt by done|].
        rewrite lookup_take_ge by lia. replace (S j) with k by lia. by rewrite Hp.
      - intros Hin. apply list_elem_of_lookup in Hin as [m Hm]. unfold ks in Hm. rewrite lookup_drop in Hm.
        pose proof (NoDup_lookup _ _ _ _ Hnd Hj Hm). lia. }
    pose proof (leads_rooted _ _ _ Hl' (Hcyc _ Hck)) as Hpre.
    split; [intros i; rewrite clear_parents_lookup; case_bool_decide; auto|].
    split.
    { intros i Hi. split; [by apply clear_rooted|]. rewrite clear_parents_lookup, bool_decide_eq_false_2; [done|].
      intros Hin. revert Hi. apply (closed_not_rooted _ (λ x, x ∈ ks)); [|exact Hin].
      intros x Hx. apply list_elem_of_lookup in Hx as [m Hm]. unfold ks in Hm. rewrite lookup_drop in Hm.
      eexists. split; [by apply (Hl _ _ Hm)|]. destruct (path !! S (k + m)) as [y|] eqn:Hy; [|exact Hck].
      apply list_elem_of_lookup. exists (S m). unfold ks. rewrite lookup_drop. by rewrite Nat.add_succ_r. }
    split.
    + intros i [Hi|Hi%elem_of_list_to_set]%elem_of_union; [by apply clear_rooted, Hs|by apply Hpre].
    + intros i [Hi| ->%list_elem_of_singleton]%elem_of_app; [|by apply Hcyc].
      rewrite <- (take_drop k path) in Hi. apply elem_of_app in Hi as [Hi|Hi]; auto.
  - apply position_None in Hp. destruct (IH (path ++ [cur]) next) as (ets' & safe' & Hw & W1 & W2 & W3 & W4).
    + apply NoDup_app. split; [done|]. split; [|apply NoDup_singleton]. intros x Hx ->%list_elem_of_singleton. done.
    + intros x [Hx| ->%list_elem_of_singleton]%elem_of_app; auto.
    + by eapply next_lt.
    + by apply leads_snoc.
    + done.
    + rewrite length_app. simpl. lia.
    + exists ets', safe'. split; [done|]. split; [done|]. split; [done|]. split; [done|].
      intros i Hi. apply W4. apply elem_of_app. by left.
  - do 2 eexists. split; [done|]. assert (Rooted ets cur) as Hc by (exists [cur]; by constructor).
    pose proof (leads_rooted _ _ _ Hl Hc) as Hpath. split; [by left|]. split; [done|].
    assert (∀ i, i ∈ path ++ [cur] → Rooted ets i) as Hall.
    { intros i [Hi| ->%list_elem_of_singleton]%elem_of_app; auto. }
    split; [|done]. intros i [Hi|Hi%elem_of_list_to_set]%elem_of_union; auto.
Qed.

Lemma walk_all_spec starts ets safe n :
  length ets = n → (∀ x, x ∈ starts → (x < n)%nat) → (∀ i, i ∈ safe → Rooted ets i) →
  ∃ ets', walk_all (S n) starts ets safe = Some ets' ∧ trimmed ets ets' ∧
    (∀ i : nat, Rooted ets i → Rooted ets' i ∧ ets' !! i = ets !! i) ∧ (∀ i, i ∈ starts → Rooted ets' i).
Proof.
  revert ets safe. induction starts as [|x starts IH]; intros ets safe Hn Hlt Hs; cbn [walk_all].
  - exists ets. split; [done|]. split; [by left|]. split; [done|]. by intros i ?%elem_of_nil.
  - case_bool_decide as Hx.
    + destruct (IH ets safe) as (ets' & H1 & H2 & H3 & H4); [done|intros; apply Hlt; by right|done|].
      exists ets'. split; [done|]. split; [done|]. split; [done|].
      intros i [->|Hi]%elem_of_cons; [by apply H3, Hs|by apply H4].
    + destruct (walk_spec (S n) ets safe [] x) as (ets1 & safe1 & Hw & W1 & W2 & W3 & W4);
        [constructor|by intros ? ?%elem_of_nil|subst n; apply Hlt; by left|done|done|simpl; lia|].
      rewrite Hw. cbn [mbind option_bind].
      destruct (IH ets1 safe1) as (ets' & H1 & H2 & H3 & H4); [|intros; apply Hlt; by right|done|].
      { pose proof (trimmed_names _ _ W1) as H. apply (f_equal length) in H. by rewrite !length_fmap, Hn in H. }
      exists ets'. split; [done|]. split; [by eapply trimmed_trans|].
      split; [intros i Hi; destruct (W2 i Hi) as [Hi1 <-]; by apply H3|].
      intros i [->|Hi]%elem_of_cons; [|by apply H4]. apply H3, W4. by left.
Qed.

(** ** Ancestors *)

Lemma names_unique ets (i j : nat) e e' :
  NoDup (et_name <$> ets) → ets !! i = Some e → ets !! j = Some e' → et_name e = et_name e' → i = j.
Proof. intros Hn Hi Hj He. eapply NoDup_lookup; [exact Hn| |]; rewrite list_lookup_fmap; [by rewrite Hi|]. by rewrite Hj, He. Qed.
Lemma parent_of_unique ets e : NoDup (et_name <$> ets) → e ∈ ets → parent_of ets (et_name e) = et_parent e.
Proof.
  intros Hn [i Hi]%list_elem_of_lookup. unfold parent_of.
  destruct (et_parent e) as [p|] eqn:Hp.
  - destruct (find_last_is_Some (λ x, if bool_decide (et_name x = et_name e) then et_parent x else None) ets e) as [q Hq];
      [by eapply list_elem_of_lookup_2|by rewrite bool_decide_eq_true_2|].
    rewrite Hq. apply find_last_app_spec in Hq as (x & [j Hj]%list_elem_of_lookup & Hx). case_bool_decide as He; [|done].
    pose proof (names_unique _ _ _ _ _ Hn Hj Hi He) as ->. congruence.
  - destruct (find_last _ ets) as [q|] eqn:Hq; [|done].
    apply find_last_app_spec in Hq as (x & [j Hj]%list_elem_of_lookup & Hx). case_bool_decide as He; [|done].
    pose proof (names_unique _ _ _ _ _ Hn Hj Hi He) as ->. congruence.
Qed.
Lemma index_of_is_Some ets n : n ∈ et_name <$> ets → is_Some (index_of ets n).
Proof.
  intros (e & -> & [i Hi]%list_elem_of_lookup)%list_elem_of_fmap. unfold index_of.
  eapply (find_last_is_Some _ _ (i, e)); [|by rewrite bool_decide_eq_true_2].
  apply elem_of_lookup_imap. by exists i, e.
Qed.

(** The parents of a type, nearest first, up to a type without one. *)
Inductive lineage (ets : list EntityTypeDef) : EntityTypeDef → list str → Prop :=
| lineage_end e : et_parent e = None → lineage ets e []
| lineage_step e e' l : et_parent e = Some (et_name e') → e' ∈ ets → lineage ets e' l → lineage ets e (et_name e' :: l).

Definition parents_declared (ets : list EntityTypeDef) : Prop :=
  ∀ e p, e ∈ ets → et_parent e = Some p → p ∈ et_name <$> ets.
Lemma ancestors_rooted ets i idx e fuel :
  NoDup (et_name <$> ets) → parents_declared ets → rooted ets i idx → ets !! i = Some e → (length idx ≤ S fuel)%nat →
  ∃ l, ancestors fuel ets (et_name e) = Some l ∧ lineage ets e l ∧ Forall2 (λ n j, et_name <$> ets !! j = Some n) l (tail idx).
Proof.
  intros Hn Hd Hr. revert e fuel. induction Hr as [i Hi|i j idx Hi Hr IH]; intros e fuel He Hf.
  - assert (et_parent e = None) as Hp.
    { destruct (et_parent e) as [p|] eqn:Hp; [|done]. exfalso. unfold next_idx in Hi. rewrite He in Hi. cbn [mbind option_bind] in Hi.
      rewrite Hp in Hi. cbn [mbind option_bind] in Hi.
      destruct (index_of_is_Some ets p) as [j Hj]; [|congruence]. eapply Hd; [|exact Hp]. by eapply list_elem_of_lookup_2. }
    exists []. split; [|split; [by constructor|constructor]]. destruct fuel; cbn [ancestors];
      rewrite parent_of_unique, Hp; try done; by eapply list_elem_of_lookup_2.
  - cbn [length tail] in *. unfold next_idx in Hi. rewrite He in Hi.
    cbn [mbind option_bind] in Hi. apply bind_Some in Hi as (p & Hp & Hj).
    destruct (index_of_Some _ _ _ Hj) as (e' & He' & <-).
    destruct fuel as [|fuel]; [inversion Hr; subst; simpl in Hf; lia|].
    destruct (IH e' fuel He' ltac:(lia)) as (l & H1 & H2 & H3). exists (et_name e' :: l). cbn [ancestors].
    rewrite parent_of_unique, Hp, H1 by (try done; by eapply list_elem_of_lookup_2).
    split; [done|]. split; [econstructor; [exact Hp|by eapply list_elem_of_lookup_2|done]|].
    assert (idx = j :: tail idx) as -> by (by inversion Hr). constructor; [by rewrite He'|done].
Qed.

Lemma lineage_map_spec (fuel : nat) (ets es : list EntityTypeDef) (m0 : gmap str (list str)) :
  NoDup (et_name <$> es) → (∀ e, e ∈ es → is_Some (ancestors fuel ets (et_name e))) →
  ∃ m : gmap str (list str), foldl (λ (m : option (gmap str (list str))) e, m ← m; l ← ancestors fuel ets (et_name e); Some (<[et_name e := reverse l]> m)) (Some m0) es = Some m ∧
    (∀ e l, e ∈ es → ancestors fuel ets (et_name e) = Some l → m !! et_name e = Some (reverse l)) ∧
    (∀ n : str, n ∉ et_name <$> es → m !! n = m0 !! n).
Proof.
  revert m0. induction es as [|e es IH]; intros m0 Hn Ha; cbn [foldl].
  - exists m0. split; [done|]. split; [by intros ?? ?%elem_of_nil|done].
  - rewrite fmap_cons in Hn. apply NoDup_cons in Hn as [He Hn].
    destruct (Ha e) as [l Hl]; [by left|]. cbn [mbind option_bind]. rewrite Hl. cbn [mbind option_bind].
    destruct (IH (<[et_name e := reverse l]> m0)) as (m & H1 & H2 & H3); [done|intros; apply Ha; by right|].
    exists m. split; [done|]. split.
    + intros e' l' [->|Hin]%elem_of_cons Hl'; [|by apply H2]. rewrite H3 by done. rewrite lookup_insert_eq. congruence.
    + intros n [Hne Hnin]%not_elem_of_cons. rewrite H3 by done. by apply lookup_insert_ne.
Qed.

Lemma clear_undeclared_names ets : same_names ets (clear_undeclared ets).
Proof.
  unfold same_names, clear_undeclared. rewrite <- list_fmap_compose. apply list_fmap_ext. intros i e _. simpl.
  destruct (et_parent e); [|done]. by case_bool_decide.
Qed.
Lemma clear_undeclared_declared ets : parents_declared (clear_undeclared ets).
Proof.
  intros e p He Hp. rewrite (clear_undeclared_names ets). unfold clear_undeclared in He.
  apply list_elem_of_fmap in He as (x & -> & Hx). destruct (et_parent x) as [q|] eqn:Hq; [|congruence].
  case_bool_decide as Hd; [|done]. congruence.
Qed.
Lemma trimmed_declared ets ets' : trimmed ets ets' → parents_declared ets → parents_declared ets'.
Proof.
  intros Ht Hd e p [i Hi]%list_elem_of_lookup Hp. rewrite (trimmed_names _ _ Ht).
  destruct (Ht i) as [E|E]; rewrite Hi in E.
  - eapply Hd; [|exact Hp]. eapply list_elem_of_lookup_2. by symmetry.
  - symmetry in E. apply fmap_Some in E as (x & _ & ->). done.
Qed.

(** ** Properties *)

(** For declared types with distinct names, validation terminates and leaves a forest: every
    remaining parent is declared; a type whose parents already ended is untouched; the ancestor
    loop ends within as many steps as there are types; and each type's entry lists, root first,
    exactly its chain of parents, without repetition and without itself. *)
Theorem ancestors_after_validation ets :
  NoDup (et_name <$> ets) →
  ∃ ets' m, validate_and_clean_parents ets = Some ets' ∧ compute_ancestor_map (length ets) ets' = Some m ∧
    trimmed (clear_undeclared ets) ets' ∧ parents_declared ets' ∧
    (∀ i : nat, Rooted (clear_undeclared ets) i → ets' !! i = clear_undeclared ets !! i) ∧
    ∀ e, e ∈ ets' → ∃ l, m !! et_name e = Some (reverse l) ∧ lineage ets' e l ∧ NoDup (et_name e :: l).
Proof.
  intros Hn. unfold validate_and_clean_parents.
  pose proof (clear_undeclared_names ets) as Hc. pose proof (clear_undeclared_declared ets) as Hd.
  set (cs := clear_undeclared ets) in *.
  assert (length cs = length ets) as Hlen by (rewrite <- (length_fmap et_name), Hc; apply length_fmap).
  destruct (walk_all_spec (seq 0 (length cs)) cs ∅ (length cs)) as (ets' & H1 & H2 & H3 & H4);
    [done|intros x Hx%elem_of_seq; lia|by intros i ?%not_elem_of_empty|].
  pose proof (trimmed_names _ _ H2) as Hn2. pose proof (trimmed_declared _ _ H2 Hd) as Hd'.
  assert (NoDup (et_name <$> ets')) as Hnd by (by rewrite Hn2, Hc).
  assert (length ets' = length ets) as Hlen' by (rewrite <- (length_fmap et_name), Hn2, length_fmap; done).
  assert (∀ e, e ∈ ets' → ∃ l, ancestors (length ets) ets' (et_name e) = Some l ∧ lineage ets' e l ∧ NoDup (et_name e :: l)) as Hall.
  { intros e [i Hi]%list_elem_of_lookup. pose proof (lookup_lt_Some _ _ _ Hi) as Hlt.
    destruct (H4 i) as [idx Hidx]; [apply elem_of_seq; lia|].
    pose proof (rooted_NoDup _ _ _ Hidx) as Hnodup.
    assert (length idx ≤ S (length ets))%nat as Hfuel.
    { rewrite <- Hlen'. apply Nat.le_le_succ_r, NoDup_bounded; [done|]. intros x Hx.
      destruct Hidx as [j Hj|j k l Hj Hl]; [apply list_elem_of_singleton in Hx as ->; done|].
      apply elem_of_cons in Hx as [->|Hx]; [done|].
      destruct (rooted_tail_next ets' j (j :: l) x) as [y Hy]; [by econstructor|done|]. by eapply next_lt. }
    destruct (ancestors_rooted _ _ _ _ _ Hnd Hd' Hidx Hi Hfuel) as (l & A1 & A2 & A3).
    exists l. split; [done|]. split; [done|].
    assert (Forall2 (λ n j, et_name <$> ets' !! j = Some n) (et_name e :: l) idx) as HF.
    { assert (idx = i :: tail idx) as -> by (by inversion Hidx). constructor; [by rewrite Hi|done]. }
    apply NoDup_alt. intros p q n Hp Hq.
    destruct (Forall2_lookup_l _ _ _ _ _ HF Hp) as (x & Hx & Ex).
    destruct (Forall2_lookup_l _ _ _ _ _ HF Hq) as (y & Hy & Ey).
    assert (x = y) as -> by (eapply (NoDup_lookup (et_name <$> ets')); [done|rewrite list_lookup_fmap; exact Ex|rewrite list_lookup_fmap; exact Ey]).
    exact (NoDup_lookup _ _ _ _ Hnodup Hx Hy). }
  destruct (lineage_map_spec (length ets) ets' ets' ∅ Hnd) as (m & M1 & M2 & _).
  { intros e He. destruct (Hall e He) as (l & -> & _). done. }
  exists ets', m. split; [done|]. split; [exact M1|]. split; [done|]. split; [done|].
  split; [intros i Hi; by apply H3|]. intros e He. destruct (Hall e He) as (l & A1 & A2 & A3).
  exists l. split; [by apply M2|done].
Qed.

Definition plain_type (n : str) (p : option str) : EntityTypeDef :=
  {| et_name := n; et_description := None; et_parent := p; et_identity := false; et_extract := true |}.
Lemma parent_of_dup (a b : str) : a ≠ b →
  let ets := [plain_type a (Some b); plain_type b (Some a); plain_type b None] in
  parent_of ets a = Some b ∧ parent_of ets b = Some a.
Proof.
  intros Hab. cbv zeta. unfold parent_of. cbn [find_last plain_type et_name et_parent].
  rewrite (bool_decide_eq_false_2 (b = a)), (bool_decide_eq_false_2 (a = b)) by congruence.
  rewrite (bool_decide_eq_true_2 (a = a)), (bool_decide_eq_true_2 (b = b)) by done.
  done.
Qed.

(** Names that repeat defeat the validation: it keeps the last entry of a name, the ancestor
    loop the last one that has a parent.  With a type declared twice, once inside a cycle and then
    without a parent, the list passes unchanged and the loop never ends, whatever the fuel. *)
Theorem duplicate_type_never_ends (a b : str) fuel : a ≠ b →
  let ets := [plain_type a (Some b); plain_type b (Some a); plain_type b None] in
  validate_and_clean_parents ets = Some ets ∧ compute_ancestor_map fuel ets = None.
Proof.
  intros Hab ets. split.
  - unfold validate_and_clean_parents.
    assert (clear_undeclared ets = ets) as ->.
    { unfold clear_undeclared, ets. cbn [fmap list_fmap plain_type et_parent et_name].
      rewrite (bool_decide_eq_true_2 (b ∈ _)) by (right; left). by rewrite (bool_decide_eq_true_2 (a ∈ _)) by left. }
    assert (next_idx ets 0 = Some 2%nat ∧ next_idx ets 1 = Some 0%nat ∧ next_idx ets 2 = None) as (N0 & N1 & N2).
    { unfold next_idx, ets, index_of. cbn [lookup list_lookup mbind option_bind plain_type et_parent imap find_last compose et_name].
      rewrite (bool_decide_eq_false_2 (b = a)) by congruence.
      rewrite (bool_decide_eq_true_2 (a = a)), (bool_decide_eq_true_2 (b = b)) by done. done. }
    change (length ets) with 3%nat. cbn [seq walk_all].
    case_bool_decide; [set_solver|]. cbn [walk]. case_bool_decide; [set_solver|]. cbn [position list_find fmap option_fmap option_map].
    rewrite N0. cbn [app]. case_bool_decide; [set_solver|]. change (position 2 [0%nat]) with (@None nat).
    rewrite N2. cbn [mbind option_bind app]. case_bool_decide; [set_solver|]. cbn [walk].
    rewrite N1. cbn [app].
    case_bool_decide; [|set_solver]. cbn [mbind option_bind]. case_bool_decide; [done|set_solver].
  - destruct (parent_of_dup a b Hab) as [Pa Pb]. fold ets in Pa, Pb.
    assert (∀ fuel, ancestors fuel ets a = None ∧ ancestors fuel ets b = None) as Hf.
    { clear fuel. induction fuel as [|fuel [IHa IHb]]; cbn [ancestors]; rewrite Pa, Pb; [done|]. by rewrite IHa, IHb. }
    unfold compute_ancestor_map. unfold ets at 2. cbn [foldl mbind option_bind plain_type et_name].
    destruct (Hf fuel) as [-> ->]. done.
Qed.

Section names.
Context {U : Unicode} {UL : UnicodeLaws}.

Lemma lower_facts a : is_ascii_lower a = true →
  is_ascii a = true ∧ is_ascii (ascii_upper a) = true ∧ is_ascii_lower (ascii_upper a) = false ∧
  is_ascii_upper a = false ∧ is_ascii_upper (ascii_upper a) = true ∧
  ascii_lower (ascii_upper a) = a ∧ ascii_upper a ≠ a ∧
  ((a =? 95)%N || (a =? 45)%N || (a =? 32)%N) = false ∧
  ((ascii_upper a =? 95)%N || (ascii_upper a =? 45)%N || (ascii_upper a =? 32)%N) = false.
Proof.
  intros H. unfold ascii_upper. rewrite H. unfold is_ascii_lower, in_range in H.
  apply andb_true_iff in H as [H1%N.leb_le H2%N.leb_le].
  unfold ascii_lower, is_ascii_lower, is_ascii_upper, in_range, is_ascii.
  assert ((65 <=? a - 32) && (a - 32 <=? 90) = true)%N as -> by (apply andb_true_iff; split; apply N.leb_le; lia).
  repeat match goal with
  | |- _ ∧ _ => split
  | |- _ && _ = false => apply andb_false_iff
  | |- _ || _ = false => apply orb_false_iff
  | |- (_ =? _)%N = false => apply N.eqb_neq
  | |- (_ <? _)%N = true => apply N.ltb_lt
  end; try lia; first [left; apply N.leb_gt; lia | right; apply N.leb_gt; lia | done].
Qed.

(** Normalising a type name is not idempotent, and the extraction path normalises names that are
    already normalised: a type declared as two one-letter words gets a name that its own lookups
    turn into another one, so neither its identity flag nor its [extract: false] flag is found
    again under the name it has, and the strict-mode vocabulary of the extraction rejects the
    very name it offers. *)
Theorem normalised_name_not_found a b e rest o :
  is_ascii_lower a = true → is_ascii_lower b = true →
  let raw := [a; 95%N; b] in
  et_name e = normalize_entity_type raw → et_identity e = true → et_extract e = true →
  entity_types o = e :: rest → Forall (λ e', et_name e' ≠ [ascii_upper a; b]) rest →
  identity_kind o raw = Some (et_name e) ∧ identity_kind o (et_name e) = None ∧
  normalize_entity_type (et_name e) ∉ extractable_entity_type_names o.
Proof.
  intros Ha Hb raw Hname Hid Hex Ho Hrest.
  destruct (lower_facts a Ha) as (A1 & A2 & A3 & A4 & A5 & A6 & A7 & A8 & A9).
  destruct (lower_facts b Hb) as (B1 & B2 & B3 & B4 & B5 & B6 & B7 & B8 & B9).
  assert (to_lowercase [] = []) as Hl0 by (by rewrite to_lowercase_ascii).
  assert (normalize_entity_type raw = [ascii_upper a; ascii_upper b]) as Hn1.
  { unfold normalize_entity_type, split_words, raw. cbn [split_words_go]. rewrite A8, B8.
    rewrite (uppercase_ascii a A1), A4, (uppercase_ascii b B1), B4. cbn [andb nonempty app fmap list_fmap concat].
    change ((95 =? 95)%N) with true. cbn [orb fmap list_fmap].
    change (reverse [a]) with [a]. change (reverse [b]) with [b]. unfold capitalise.
    rewrite !to_uppercase_ascii, Hl0 by (simpl; by rewrite ?A1, ?B1). done. }
  assert (normalize_entity_type [ascii_upper a; ascii_upper b] = [ascii_upper a; b]) as Hn2.
  { unfold normalize_entity_type, split_words. cbn [split_words_go]. rewrite A9, B9.
    rewrite (lowercase_ascii (ascii_upper a) A2), A3. rewrite ?andb_false_r, ?andb_false_l. cbn [orb].
    rewrite ?andb_false_r. cbn [andb nonempty app fmap list_fmap concat].
    change (reverse [ascii_upper b; ascii_upper a]) with [ascii_upper a; ascii_upper b]. unfold capitalise.
    rewrite to_uppercase_ascii, to_lowercase_ascii by (simpl; by rewrite ?A2, ?B2).
    rewrite !fmap_cons, !fmap_nil, B6.
    assert (ascii_upper (ascii_upper a) = ascii_upper a) as -> by (unfold ascii_upper at 1; by rewrite A3). done. }
  rewrite Hn1 in Hname. unfold identity_kind. rewrite Hn1, Hname, Hn2, Ho. cbn [find_first].
  rewrite Hid, Hex, Hname. cbn [andb]. rewrite (bool_decide_eq_true_2 (_ = _)) by done.
  split; [done|]. rewrite bool_decide_eq_false_2 by congruence. split.
  - clear Ho o. induction Hrest as [|x rest Hx _ IH]; [done|]. cbn [find_first].
    rewrite (bool_decide_eq_false_2 (et_name x = _)) by done. by rewrite andb_false_r.
  - unfold extractable_entity_type_names, extractable_entity_types. rewrite Ho, elem_of_list_to_set.
    intros (x & Hx & Hin)%list_elem_of_fmap. apply list_elem_of_In, filter_In in Hin as [Hin _].
    apply list_elem_of_In, elem_of_cons in Hin as [->|Hin]; [congruence|].
    rewrite Forall_forall in Hrest. by apply (Hrest x Hin).
Qed.
End names.

Lemma sort_perm_eq l l' : l ≡ₚ l' → sort_by str_leb l = sort_by str_leb l'.
Proof.
  intros H. apply (sorted_perm_unique (λ a b, str_leb a b = true)).
  - apply str_leb_antisym.
  - apply sort_by_sorted; [apply str_leb_total|apply str_leb_trans].
  - apply sort_by_sorted; [apply str_leb_total|apply str_leb_trans].
  - by rewrite !sort_by_perm.
Qed.
Lemma filter_perm {A : Type} (f : A → bool) (l l' : list A) : l ≡ₚ l' → List.filter f l ≡ₚ List.filter f l'.
Proof. induction 1; simpl; repeat case_match; try done; [by constructor|constructor|by etrans]. Qed.
Lemma btree_perm l l' : l ≡ₚ l' → btree l = btree l'.
Proof.
  intros H. unfold btree. apply sort_perm_eq, NoDup_Permutation; [apply NoDup_remove_dups..|].
  intros x. rewrite !elem_of_remove_dups. by rewrite H.
Qed.

(** The content hash depends on what is declared, not on the order of the declarations. *)
Theorem content_hash_order_free sha o o' :
  mode o = mode o' → entity_types o ≡ₚ entity_types o' → relation_types o ≡ₚ relation_types o' →
  content_hash sha (Some o) = content_hash sha (Some o').
Proof.
  intros Hm He Hr. unfold content_hash. do 2 f_equal. unfold canonical_form, entries, identity_set. rewrite Hm.
  rewrite (sort_perm_eq (entity_entry <$> entity_types o) (entity_entry <$> entity_types o')) by (by rewrite He).
  rewrite (sort_perm_eq (relation_entry <$> relation_types o) (relation_entry <$> relation_types o')) by (by rewrite Hr).
  rewrite (sort_perm_eq (omap parent_entry (entity_types o)) (omap parent_entry (entity_types o'))) by (by rewrite He).
  rewrite (btree_perm (et_name <$> List.filter et_identity (entity_types o)) (et_name <$> List.filter et_identity (entity_types o')))
    by (by apply fmap_Permutation, filter_perm).
  rewrite (sort_perm_eq (et_name <$> List.filter (negb ∘ et_extract) (entity_types o))
    (et_name <$> List.filter (negb ∘ et_extract) (entity_types o'))) by (by apply fmap_Permutation, filter_perm).
  rewrite (sort_perm_eq (rt_name <$> List.filter (negb ∘ rt_extract) (relation_types o))
    (rt_name <$> List.filter (negb ∘ rt_extract) (relation_types o'))) by (by apply fmap_Permutation, filter_perm).
  done.
Qed.

(** ** Witnesses *)

Definition toy_types : list EntityTypeDef :=
  [plain_type #"Paper" (Some #"Work"); plain_type #"Work" None; plain_type #"A" (Some #"B"); plain_type #"B" (Some #"A");
   plain_type #"C" (Some #"A"); plain_type #"D" (Some #"Missing")].
Lemma ancestors_after_validation_witness :
  ∃ ets' m, validate_and_clean_parents toy_types = Some ets' ∧ compute_ancestor_map (length toy_types) ets' = Some m ∧
    trimmed (clear_undeclared toy_types) ets' ∧ parents_declared ets' ∧
    (∀ i : nat, Rooted (clear_undeclared toy_types) i → ets' !! i = clear_undeclared toy_types !! i) ∧
    ∀ e, e ∈ ets' → ∃ l, m !! et_name e = Some (reverse l) ∧ lineage ets' e l ∧ NoDup (et_name e :: l).
Proof.
  apply (ancestors_after_validation toy_types). apply (bool_decide_unpack _). vm_compute. exact I.
Defined.

Lemma duplicate_type_never_ends_witness :
  let ets := [plain_type #"Agent" (Some #"Person"); plain_type #"Person" (Some #"Agent"); plain_type #"Person" None] in
  validate_and_clean_parents ets = Some ets ∧ compute_ancestor_map 1000 ets = None.
Proof. apply (duplicate_type_never_ends #"Agent" #"Person" 1000). discriminate. Defined.

Definition toy_xy : EntityTypeDef :=
  {| et_name := #"XY"; et_description := None; et_parent := None; et_identity := true; et_extract := true |}.
Definition toy_ontology (ets : list EntityTypeDef) : Ontology :=
  {| mode := Strict; entity_types := ets; relation_types := []; ancestor_map := ∅ |}.
Lemma normalised_name_not_found_witness :
  @identity_kind AsciiUnicode (toy_ontology [toy_xy]) [120%N; 95%N; 121%N] = Some #"XY" ∧
  @identity_kind AsciiUnicode (toy_ontology [toy_xy]) #"XY" = None ∧
  @normalize_entity_type AsciiUnicode #"XY" ∉ extractable_entity_type_names (toy_ontology [toy_xy]).
Proof.
  apply (@normalised_name_not_found AsciiUnicode AsciiUnicodeLaws 120 121 toy_xy [] (toy_ontology [toy_xy]));
    try reflexivity. constructor.
Defined.

Lemma content_hash_order_free_witness :
  content_hash id (Some (toy_ontology toy_types)) = content_hash id (Some (toy_ontology (reverse toy_types))).
Proof.
  apply (content_hash_order_free id (toy_ontology toy_types) (toy_ontology (reverse toy_types))); [reflexivity| |reflexivity].
  symmetry. apply reverse_Permutation.
Defined.
