(* ===== verification/Prompts.v ===== *)
(** * Prompts: the texts sent to a model (core/src/prompts/mod.rs)

    The template files ([include_str!]) are the class [Templates]; the sections filled into them,
    the user messages and the entity-name normalisation are definitions. *)

From S2P Require Import Prelude Text Ontology.

Inductive SourceType := SText | SMessage | SJson.

Class Templates := {
  EXTRACT_TEXT : str; EXTRACT_MESSAGE : str; EXTRACT_JSON : str; EXTRACT_EDGES : str; DEFAULT_ENTITY_TYPES_SECTION : str;
}.

(** [str::replace] for a non-empty needle; [skip] counts the needle's characters still to pass. *)
Fixpoint replace_go (needle by_ : str) (skip : nat) (s : str) : str :=
  match s with
  | [] => []
  | c :: rest =>
      match skip with
      | S k => replace_go needle by_ k rest
      | O => if starts_with needle s then by_ ++ replace_go needle by_ (pred (length needle)) rest else c :: replace_go needle by_ 0 rest
      end
  end.
Definition replace_all (needle by_ s : str) : str := replace_go needle by_ 0 s.
Definition newline : str := [10%N].

Section prompts.
Context {U : Unicode} {T : Templates}.

Definition entity_type_line (et : EntityTypeDef) : str :=
  match et_description et with
  | Some desc => #"- " ++ et_name et ++ #": " ++ desc ++ newline
  | None => #"- " ++ et_name et ++ newline
  end.
(** Source: core/src/prompts/mod.rs 31-60 (build_entity_types_section) *)
Definition build_entity_types_section (ontology : option Ontology) : str :=
  match ontology with
  | Some onto =>
      match extractable_entity_types onto with
      | [] => DEFAULT_ENTITY_TYPES_SECTION
      | ets =>
          #"<ENTITY_TYPES>" ++ newline ++ #"The following entity types are defined for this workspace:" ++ newline
          ++ concat (entity_type_line <$> ets)
          ++ match mode onto with
             | Strict => #"Only extract entities whose type is exactly one of the listed types; do not invent or use types not in this list."
             | Open => #"Prefer the listed entity types when they apply; you may use other types for entities that clearly don't fit any listed type."
             end ++ newline
          ++ #"</ENTITY_TYPES>"
      end
  | None => DEFAULT_ENTITY_TYPES_SECTION
  end.
Definition rt_signature (rt : RelationTypeDef) : str :=
  match rt_source_type rt, rt_target_type rt with
  | Some s, Some t => #" (" ++ s ++ [32; 8594; 32]%N ++ t ++ #")"
  | _, _ => []
  end.
Definition relation_type_lines (m : OntologyMode) (rt : RelationTypeDef) : str :=
  match rt_description rt with
  | Some desc => #"- " ++ rt_name rt ++ rt_signature rt ++ #": " ++ desc ++ newline
  | None => #"- " ++ rt_name rt ++ rt_signature rt ++ newline
  end
  ++ match m with
     | Strict =>
         match rt_aliases rt with [] => [] | l => #"  Aliases: " ++ join #", " l ++ newline end
         ++ match rt_keywords rt with [] => [] | l => #"  Keywords: " ++ join #", " l ++ newline end
     | Open => []
     end.
(** Source: core/src/prompts/mod.rs 68-107 (build_fact_types_section) *)
Definition build_fact_types_section (ontology : option Ontology) : str :=
  match ontology with
  | Some onto =>
      match extractable_relation_types onto with
      | [] => []
      | rts =>
          #"<FACT_TYPES>" ++ newline ++ #"The following relation types are defined for this workspace:" ++ newline
          ++ concat (relation_type_lines (mode onto) <$> rts) ++ #"</FACT_TYPES>" ++ newline
          ++ match mode onto with
             | Strict =>
                 #"Only use relation types from the list above, identified by their canonical name. Aliases and keywords are listed to help you recognize a matching fact "
                 ++ [8212%N] ++ #" always output the canonical name, never the alias or keyword itself. Do not invent relation types outside this list." ++ newline
             | Open => []
             end
      end
  | None => []
  end.
(** Source: core/src/prompts/mod.rs 110-118 (entity_system_prompt) *)
Definition entity_system_prompt (source_type : SourceType) (ontology : option Ontology) : str :=
  let template := match source_type with SText => EXTRACT_TEXT | SMessage => EXTRACT_MESSAGE | SJson => EXTRACT_JSON end in
  replace_all #"{{ENTITY_TYPES_SECTION}}" (build_entity_types_section ontology) template.
(** Source: core/src/prompts/mod.rs 121-124 (edge_system_prompt) *)
Definition edge_system_prompt (ontology : option Ontology) : str :=
  replace_all #"{{FACT_TYPES_SECTION}}" (build_fact_types_section ontology) EXTRACT_EDGES.

Definition custom_of (custom_instructions : option str) : str := trim (default [] custom_instructions).
(** Source: core/src/prompts/mod.rs 132-139 (entity_user_prompt) *)
Definition entity_user_prompt (body : str) (custom_instructions : option str) : str :=
  let custom := custom_of custom_instructions in
  if negb (nonempty custom) then #"<TEXT>" ++ newline ++ body ++ newline ++ #"</TEXT>" ++ newline
  else #"<TEXT>" ++ newline ++ body ++ newline ++ #"</TEXT>" ++ newline ++ newline ++ custom ++ newline.
(** Source: core/src/prompts/mod.rs 142-149 (message_user_prompt) *)
Definition message_user_prompt (body : str) (custom_instructions : option str) : str :=
  let custom := custom_of custom_instructions in
  if negb (nonempty custom) then #"<CURRENT MESSAGE>" ++ newline ++ body ++ newline ++ #"</CURRENT MESSAGE>" ++ newline
  else #"<CURRENT MESSAGE>" ++ newline ++ body ++ newline ++ #"</CURRENT MESSAGE>" ++ newline ++ newline ++ custom ++ newline.
(** Source: core/src/prompts/mod.rs 152-161 (json_user_prompt) *)
Definition json_user_prompt (body : str) (custom_instructions : option str) : str :=
  let custom := custom_of custom_instructions in
  let text := #"<JSON>" ++ newline ++ body ++ newline ++ #"</JSON>" ++ newline ++ newline
              ++ #"Extract relevant entities from the provided JSON." ++ newline in
  if negb (nonempty custom) then text else text ++ custom ++ newline.
(** Source: core/src/prompts/mod.rs 164-174 (entity_user_prompt_for) *)
Definition entity_user_prompt_for (source_type : SourceType) (body : str) (custom_instructions : option str) : str :=
  match source_type with
  | SText => entity_user_prompt body custom_instructions
  | SMessage => message_user_prompt body custom_instructions
  | SJson => json_user_prompt body custom_instructions
  end.

(** Source: core/src/prompts/mod.rs 176-178 (strip_control_chars) *)
Definition strip_control_chars (s : str) : str := List.filter (negb ∘ is_control) s.
(** [seen] is the set of the names already kept.
    Source: core/src/prompts/mod.rs 184-197 (sanitize_entity_names) *)
Fixpoint sanitize_go (seen : gset str) (names : list str) : list str :=
  match names with
  | [] => []
  | n :: names =>
      let sanitized := trim (strip_control_chars n) in
      if negb (nonempty sanitized) || bool_decide (sanitized ∈ seen) then sanitize_go seen names
      else sanitized :: sanitize_go ({[sanitized]} ∪ seen) names
  end.
Definition sanitize_entity_names (entity_names : list str) : list str := sanitize_go ∅ entity_names.
(** Source: core/src/prompts/mod.rs 206-208 (normalize_name) *)
Definition normalize_name (name : str) : str := to_lowercase (trim (strip_control_chars name)).
(** Source: core/src/prompts/mod.rs 215-242 (edge_user_prompt) *)
Definition edge_user_prompt (entity_names : list str) (reference_time body : str) (custom_instructions : option str) : str :=
  let entities_section := join newline ((λ n, #"- " ++ n) <$> sanitize_entity_names entity_names) in
  let custom := custom_of custom_instructions in
  let text := #"<CURRENT_MESSAGE>" ++ newline ++ body ++ newline ++ #"</CURRENT_MESSAGE>" ++ newline ++ newline
              ++ #"<ENTITIES>" ++ newline ++ entities_section ++ newline ++ #"</ENTITIES>" ++ newline ++ newline
              ++ #"<REFERENCE_TIME>" ++ newline ++ reference_time ++ newline ++ #"</REFERENCE_TIME>" ++ newline in
  if negb (nonempty custom) then text else text ++ newline ++ custom ++ newline.
End prompts.

(** ** Entity names *)

Lemma filter_idem {A} (p : A → bool) l : List.filter p (List.filter p l) = List.filter p l.
Proof. induction l as [|x l IH]; [done|]. cbn. destruct (p x) eqn:Hp; cbn; [rewrite Hp|]; by rewrite IH. Qed.
Lemma filter_all {A} (p : A → bool) l : Forall (λ x, p x = true) l → List.filter p l = l.
Proof. induction 1 as [|x l Hp _ IH]; [done|]. cbn. by rewrite Hp, IH. Qed.
Lemma filter_holds {A} (p : A → bool) l : Forall (λ x, p x = true) (List.filter p l).
Proof. induction l as [|x l IH]; [constructor|]. cbn. destruct (p x) eqn:Hp; [by constructor|done]. Qed.
Lemma drop_while_fixed (p : char → bool) s : match drop_while p s with c :: _ => p c = false | [] => True end.
Proof. induction s as [|c s IH]; [done|]. cbn. by destruct (p c) eqn:Hp. Qed.
Lemma drop_while_id (p : char → bool) s : match s with c :: _ => p c = false | [] => True end → drop_while p s = s.
Proof. destruct s; [done|]. cbn. by intros ->. Qed.
Lemma trim_end_head (p : char → bool) t :
  match t with c :: _ => p c = false | [] => True end → match trim_end_matches p t with c :: _ => p c = false | [] => True end.
Proof.
  intros Ht. unfold trim_end_matches. destruct (drop_while_suffix p (reverse t)) as (a & Ha & _).
  apply (f_equal reverse) in Ha. rewrite reverse_involutive, reverse_app in Ha.
  destruct (reverse (drop_while p (reverse t))) as [|c r]; [done|]. rewrite Ha in Ht. exact Ht.
Qed.
Lemma trim_idem s : trim (trim s) = trim s.
Proof.
  unfold trim, trim_matches at 1. rewrite drop_while_id.
  - unfold trim_matches, trim_end_matches. rewrite reverse_involutive. f_equal. apply drop_while_id, drop_while_fixed.
  - unfold trim_matches. apply trim_end_head, drop_while_fixed.
Qed.
Lemma drop_while_elem (p : char → bool) s c : c ∈ drop_while p s → c ∈ s.
Proof. destruct (drop_while_suffix p s) as (a & Ha & _). rewrite Ha at 2. set_solver. Qed.
Lemma trim_elem s c : c ∈ trim s → c ∈ s.
Proof.
  unfold trim, trim_matches, trim_end_matches. rewrite elem_of_reverse. intros H%drop_while_elem.
  rewrite elem_of_reverse in H. by apply drop_while_elem in H.
Qed.

(** The name a model sees for an extracted name. *)
Definition shown (n : str) : str := trim (strip_control_chars n).
Lemma shown_clean n : Forall (λ c, is_control c = false) (shown n).
Proof.
  apply Forall_forall. intros c Hc%trim_elem. pose proof (filter_holds (negb ∘ is_control) n) as H.
  rewrite Forall_forall in H. specialize (H c Hc). cbn in H. by apply negb_true_iff in H.
Qed.
Lemma shown_idem n : shown (shown n) = shown n.
Proof.
  assert (H : strip_control_chars (shown n) = shown n).
  { apply filter_all. eapply Forall_impl; [apply shown_clean|]. cbn. by intros c ->. }
  unfold shown at 1. rewrite H. apply trim_idem.
Qed.
Lemma sanitize_elem names : ∀ seen s, s ∈ sanitize_go seen names ↔ s ∈ shown <$> names ∧ s ≠ [] ∧ s ∉ seen.
Proof.
  induction names as [|n names IH]; intros seen s; cbn [sanitize_go fmap list_fmap]; [set_solver|].
  fold (shown n). destruct (shown n) as [|c r] eqn:Hn; cbn [nonempty negb orb].
  - rewrite IH. set_solver.
  - case_bool_decide as Hin.
    + rewrite IH. set_solver.
    + rewrite elem_of_cons, IH. destruct (decide (s = c :: r)) as [->|]; set_solver.
Qed.
Lemma sanitize_sublist names : ∀ seen, sublist (sanitize_go seen names) (shown <$> names).
Proof.
  induction names as [|n names IH]; intros seen; cbn [sanitize_go fmap list_fmap]; [constructor|].
  destruct (_ || _); [by apply sublist_cons|by apply sublist_skip].
Qed.
Lemma sanitize_nodup names : ∀ seen, NoDup (sanitize_go seen names).
Proof.
  induction names as [|n names IH]; intros seen; cbn [sanitize_go]; [constructor|].
  destruct (_ || _); [done|]. constructor; [|done]. rewrite sanitize_elem. set_solver.
Qed.

(** The list of names offered to the model for edge extraction: no name twice, every name
    non-empty, trimmed and free of control characters, in the order of the extracted names,
    exactly the cleaned forms that are not empty; and the key under which the answer is resolved is
    the same for an extracted name and for the form the model saw. *)
Theorem offered_names_resolve `{Unicode} (names : list str) :
  NoDup (sanitize_entity_names names) ∧
  sublist (sanitize_entity_names names) ((λ n, trim (strip_control_chars n)) <$> names) ∧
  (∀ s, s ∈ sanitize_entity_names names ↔ s ≠ [] ∧ ∃ n, n ∈ names ∧ s = trim (strip_control_chars n)) ∧
  (∀ s, s ∈ sanitize_entity_names names → trim s = s ∧ Forall (λ c, is_control c = false) s) ∧
  (∀ n, n ∈ names → trim (strip_control_chars n) ≠ [] →
     ∃ s, s ∈ sanitize_entity_names names ∧ normalize_name s = normalize_name n).
Proof.
  unfold sanitize_entity_names. split; [apply sanitize_nodup|]. split; [apply sanitize_sublist|]. split; [|split].
  - intros s. rewrite sanitize_elem, list_elem_of_fmap. unfold shown. set_solver.
  - intros s Hs. rewrite sanitize_elem, list_elem_of_fmap in Hs. destruct Hs as [(n & -> & _) _].
    split; [apply trim_idem|apply shown_clean].
  - intros n Hn He. exists (shown n). split.
    + rewrite sanitize_elem. split; [by apply list_elem_of_fmap_2|set_solver].
    + unfold normalize_name. fold (shown (shown n)) (shown n). by rewrite shown_idem.
Qed.
