(* ===== verification/Pointer.v ===== *)
(** * Pointer: cross-group pointers inside an edge's attributes (core/src/pointer.rs)

    The attributes are JSON text.  The parser, the printer, and the serde derivations of
    [CrossGroupPointers] are the class [AttrCodec] with their round-trip laws. *)

From S2P Require Import Prelude Text Json.

(** Source: core/src/pointer.rs 20-27 (BindingState) *)
Inductive BindingState := Bound | Unbound | Ambiguous.
Global Instance BindingState_eq_dec : EqDecision BindingState.
Proof. solve_decision. Defined.
(** Source: core/src/pointer.rs 32-35 (EndpointSide) *)
Inductive EndpointSide := Src | Dst.
Global Instance EndpointSide_eq_dec : EqDecision EndpointSide.
Proof. solve_decision. Defined.
(** Source: core/src/pointer.rs 42-61 (CrossGroupPointer) *)
Record CrossGroupPointer := {
  source_group_id : str;
  endpoint_name : str;
  endpoint_kind : option str;
  resolved_uuid : option str;
  bound_at_seq : option N;
  binding_state : BindingState;
}.
Global Instance CrossGroupPointer_eq_dec : EqDecision CrossGroupPointer.
Proof. solve_decision. Defined.
(** Source: core/src/pointer.rs 67-72 (CrossGroupPointers) *)
Record CrossGroupPointers := { ptr_src : option CrossGroupPointer; ptr_dst : option CrossGroupPointer }.
Global Instance CrossGroupPointers_eq_dec : EqDecision CrossGroupPointers.
Proof. solve_decision. Defined.
Definition no_pointers : CrossGroupPointers := {| ptr_src := None; ptr_dst := None |}.

(** Source: core/src/pointer.rs 75-77 (is_empty) *)
Definition is_empty (p : CrossGroupPointers) : bool :=
  match ptr_src p, ptr_dst p with None, None => true | _, _ => false end.
(** Source: core/src/pointer.rs 79-84 (get) *)
Definition ptr_get (side : EndpointSide) (p : CrossGroupPointers) : option CrossGroupPointer :=
  match side with Src => ptr_src p | Dst => ptr_dst p end.
(** Source: core/src/pointer.rs 86-91 (set) *)
Definition ptr_set (side : EndpointSide) (x : CrossGroupPointer) (p : CrossGroupPointers) : CrossGroupPointers :=
  match side with
  | Src => {| ptr_src := Some x; ptr_dst := ptr_dst p |}
  | Dst => {| ptr_src := ptr_src p; ptr_dst := Some x |}
  end.
(** Source: core/src/pointer.rs 94-99 (iter) *)
Definition ptr_iter (p : CrossGroupPointers) : list (EndpointSide * CrossGroupPointer) :=
  option_list (pair Src <$> ptr_src p) ++ option_list (pair Dst <$> ptr_dst p).

Class AttrCodec := {
  json_parse : str → option value;
  json_print : value → str;
  pointers_of_json : value → option CrossGroupPointers;
  json_of_pointers : CrossGroupPointers → option value;
}.
Class AttrCodecLaws `{AttrCodec} := {
  json_parse_print v : json_parse (json_print v) = Some v;
  pointers_json p : ∃ v, json_of_pointers p = Some v ∧ pointers_of_json v = Some p;
}.

(** Source: core/src/pointer.rs 102-102 (POINTERS_KEY) *)
Definition POINTERS_KEY : str := #"cross_group_pointers".
(** Source: core/src/pointer.rs 141-141 (MERGED_INTO_KEY) *)
Definition MERGED_INTO_KEY : str := #"merged_into".

Section pointers.
Context {AC : AttrCodec}.

(** The object of an attributes text, when it is one. *)
Definition attr_object (attributes : str) : option object := json_parse attributes ≫= as_object.

(** Source: core/src/pointer.rs 108-117 (read_pointers) *)
Definition read_pointers (attributes : str) : CrossGroupPointers :=
  match attr_object attributes with
  | None => no_pointers
  | Some map =>
      match obj_get POINTERS_KEY map with
      | Some raw => default no_pointers (pointers_of_json raw)
      | None => no_pointers
      end
  end.
(** Source: core/src/pointer.rs 125-139 (write_pointers) *)
Definition write_pointers (attributes : str) (pointers : CrossGroupPointers) : str :=
  let map := default [] (attr_object attributes) in
  let map :=
    if is_empty pointers then obj_remove POINTERS_KEY map
    else obj_insert POINTERS_KEY (default VNull (json_of_pointers pointers)) map in
  json_print (VObject map).
(** Source: core/src/pointer.rs 148-154 (read_merged_into) *)
Definition read_merged_into (attributes : str) : option str :=
  map ← attr_object attributes; v ← obj_get MERGED_INTO_KEY map; as_str v.
(** Source: core/src/pointer.rs 159-169 (write_merged_into) *)
Definition write_merged_into (attributes canonical_uuid : str) : str :=
  json_print (VObject (obj_insert MERGED_INTO_KEY (VString canonical_uuid) (default [] (attr_object attributes)))).
End pointers.

(** Source: core/src/pointer.rs 173-177 (PointerStateCounts) *)
Record PointerStateCounts := { pc_bound : N; pc_unbound : N; pc_ambiguous : N }.
(** Source: core/src/pointer.rs 180-186 (record) *)
Definition record_state (state : BindingState) (c : PointerStateCounts) : PointerStateCounts :=
  match state with
  | Bound => {| pc_bound := add64 (pc_bound c) 1; pc_unbound := pc_unbound c; pc_ambiguous := pc_ambiguous c |}
  | Unbound => {| pc_bound := pc_bound c; pc_unbound := add64 (pc_unbound c) 1; pc_ambiguous := pc_ambiguous c |}
  | Ambiguous => {| pc_bound := pc_bound c; pc_unbound := pc_unbound c; pc_ambiguous := add64 (pc_ambiguous c) 1 |}
  end.

(** ** Laws *)

Section laws.
Context {AC : AttrCodec} {AL : AttrCodecLaws}.

Lemma attr_object_print m : attr_object (json_print (VObject m)) = Some m.
Proof. unfold attr_object. by rewrite json_parse_print. Qed.
Lemma read_write_merged attrs u : read_merged_into (write_merged_into attrs u) = Some u.
Proof.
  unfold read_merged_into, write_merged_into. rewrite attr_object_print. cbn [mbind option_bind].
  rewrite obj_get_insert, bool_decide_eq_true_2 by done. done.
Qed.
(** What an object's text holds at a key other than the pointers' is untouched by writing them. *)
Lemma write_pointers_other attrs p key :
  (∀ m, attr_object attrs = Some m → NoDup (keys m)) → key ≠ POINTERS_KEY →
  attr_object (write_pointers attrs p) ≫= obj_get key = attr_object attrs ≫= obj_get key.
Proof.
  intros Hn Hk. unfold write_pointers. rewrite attr_object_print. cbn [mbind option_bind].
  destruct (attr_object attrs) as [m|] eqn:Hm; cbn [default from_option id mbind option_bind].
  - destruct (is_empty p).
    + rewrite obj_get_remove by auto. by rewrite bool_decide_eq_false_2.
    + rewrite obj_get_insert. by rewrite bool_decide_eq_false_2.
  - destruct (is_empty p); [done|]. rewrite obj_get_insert. by rewrite bool_decide_eq_false_2.
Qed.

Lemma read_write_pointers attrs p : is_empty p = false → read_pointers (write_pointers attrs p) = p.
Proof.
  intros He. unfold read_pointers, write_pointers. rewrite attr_object_print, He.
  rewrite obj_get_insert, bool_decide_eq_true_2 by done. destruct (pointers_json p) as (v & -> & Hv). cbn. by rewrite Hv.
Qed.

(** Writing an edge's pointers and reading them back gives the same pointers, an empty set of
    pointers leaves no key behind, and every other attribute (a merge's forwarding reference
    among them) keeps its value, whatever the text was before. *)
Theorem pointers_roundtrip attrs p :
  (∀ m, attr_object attrs = Some m → NoDup (keys m)) →
  read_pointers (write_pointers attrs p) = p ∧
  (is_empty p = true → attr_object (write_pointers attrs p) ≫= obj_get POINTERS_KEY = None) ∧
  (∀ key, key ≠ POINTERS_KEY → attr_object (write_pointers attrs p) ≫= obj_get key = attr_object attrs ≫= obj_get key).
Proof.
  intros Hn. split; [|split].
  - destruct (is_empty p) eqn:He; [|by apply read_write_pointers].
    unfold read_pointers, write_pointers. rewrite attr_object_print, He.
    rewrite obj_get_remove; [|destruct (attr_object attrs); [by apply Hn|constructor]].
    rewrite bool_decide_eq_true_2 by done. destruct p as [[|] [|]]; done.
  - intros He. unfold write_pointers. rewrite attr_object_print, He. cbn [mbind option_bind].
    rewrite obj_get_remove; [|destruct (attr_object attrs); [by apply Hn|constructor]].
    by rewrite bool_decide_eq_true_2.
  - intros key Hk. by apply write_pointers_other.
Qed.
End laws.

(** ** A concrete codec, for the examples *)

Section tree.
Abbreviation leaf := (str + (bool + (N + (Z + N))))%type.
Fixpoint to_tree (v : value) : gen_tree leaf :=
  match v with
  | VNull => GenNode 0 []
  | VBool b => GenLeaf (inr (inl b))
  | VNumber (PosInt n) => GenLeaf (inr (inr (inl n)))
  | VNumber (NegInt z) => GenLeaf (inr (inr (inr (inl z))))
  | VNumber (Float n) => GenLeaf (inr (inr (inr (inr n))))
  | VString s => GenLeaf (inl s)
  | VArray l => GenNode 1 (to_tree <$> l)
  | VObject m => GenNode 2 ((λ e, GenNode 3 [GenLeaf (inl e.1); to_tree e.2]) <$> m)
  end.
Fixpoint of_tree (t : gen_tree leaf) : value :=
  match t with
  | GenLeaf (inl s) => VString s
  | GenLeaf (inr (inl b)) => VBool b
  | GenLeaf (inr (inr (inl n))) => VNumber (PosInt n)
  | GenLeaf (inr (inr (inr (inl z)))) => VNumber (NegInt z)
  | GenLeaf (inr (inr (inr (inr n)))) => VNumber (Float n)
  | GenNode 1 l => VArray (of_tree <$> l)
  | GenNode 2 l =>
      VObject ((λ t, match t with GenNode _ [GenLeaf (inl k); t] => (k, of_tree t) | _ => ([], VNull) end) <$> l)
  | GenNode _ _ => VNull
  end.
Lemma of_to_tree v : of_tree (to_tree v) = v.
Proof.
  induction v as [| |[]| |l IH|m IH] using value_rect'; try done; cbn [to_tree of_tree]; f_equal;
    rewrite <- list_fmap_compose.
  - rewrite <- (list_fmap_id l) at 2. apply Forall_fmap_ext_1. apply IH.
  - rewrite <- (list_fmap_id m) at 2. apply Forall_fmap_ext_1. eapply Forall_impl; [exact IH|].
    intros [k v] Hv. cbn in *. by rewrite Hv.
Qed.
End tree.
(** A text is the tree's nodes and leaves in postfix order, one character each; the pointers are
    nested arrays. *)
Abbreviation token := (nat * nat + (str + (bool + (N + (Z + N)))))%type.
Definition token_char (t : token) : char := Npos (countable.encode t).
Definition char_token (c : char) : option token := match c with Npos p => countable.decode p | N0 => None end.
Definition print_tree (v : value) : str := token_char <$> gen_tree_to_list (to_tree v).
Definition parse_tree (s : str) : option value := ts ← mapM char_token s; of_tree <$> gen_tree_of_list [] ts.
Lemma parse_print_tree v : parse_tree (print_tree v) = Some v.
Proof.
  unfold parse_tree, print_tree. replace (mapM _ _) with (Some (gen_tree_to_list (to_tree v))).
  - cbn [mbind option_bind]. rewrite <- (app_nil_r (gen_tree_to_list _)), gen_tree_of_to_list. cbn. by rewrite of_to_tree.
  - symmetry. apply mapM_Some. apply Forall2_fmap_l, Forall_Forall2_diag, Forall_true. intros t. apply decode_encode.
Qed.

Definition opt_json {A} (f : A → value) (o : option A) : value := match o with Some a => VArray [f a] | None => VNull end.
Definition json_opt {A} (f : value → option A) (v : value) : option (option A) :=
  match v with VArray [a] => Some <$> f a | VNull => Some None | _ => None end.
Definition num_json (n : N) : value := VNumber (PosInt n).
Definition json_num (v : value) : option N := match v with VNumber (PosInt n) => Some n | _ => None end.
Definition state_json (b : BindingState) : value := num_json (match b with Bound => 0 | Unbound => 1 | Ambiguous => 2 end).
Definition json_state (v : value) : option BindingState :=
  n ← json_num v; match n with 0%N => Some Bound | 1%N => Some Unbound | 2%N => Some Ambiguous | _ => None end.
Definition ptr_json (p : CrossGroupPointer) : value :=
  VArray [VString (source_group_id p); VString (endpoint_name p); opt_json VString (endpoint_kind p);
          opt_json VString (resolved_uuid p); opt_json num_json (bound_at_seq p); state_json (binding_state p)].
Definition json_ptr (v : value) : option CrossGroupPointer :=
  match v with
  | VArray [VString g; VString n; k; u; s; b] =>
      k ← json_opt as_str k; u ← json_opt as_str u; s ← json_opt json_num s; b ← json_state b;
      Some (Build_CrossGroupPointer g n k u s b)
  | _ => None
  end.
Definition ptrs_json (p : CrossGroupPointers) : value := VArray [opt_json ptr_json (ptr_src p); opt_json ptr_json (ptr_dst p)].
Definition json_ptrs (v : value) : option CrossGroupPointers :=
  match v with
  | VArray [a; b] => a ← json_opt json_ptr a; b ← json_opt json_ptr b; Some (Build_CrossGroupPointers a b)
  | _ => None
  end.
Lemma json_ptr_json p : json_ptr (ptr_json p) = Some p.
Proof. by destruct p as [g n [k|] [u|] [s|] []]. Qed.
Lemma json_ptrs_json p : json_ptrs (ptrs_json p) = Some p.
Proof. destruct p as [[a|] [b|]]; cbn -[ptr_json json_ptr]; by rewrite ?json_ptr_json. Qed.

Definition ToyAttrs : AttrCodec := {|
  json_parse := parse_tree; json_print := print_tree; pointers_of_json := json_ptrs; json_of_pointers p := Some (ptrs_json p);
|}.
Global Instance ToyAttrsLaws : @AttrCodecLaws ToyAttrs.
Proof. split; [apply parse_print_tree|]. intros p. eexists. split; [done|]. apply json_ptrs_json. Qed.

Definition toy_pointer (gid name : str) (uuid : option str) (at_seq : option N) (st : BindingState) : CrossGroupPointer :=
  {| source_group_id := gid; endpoint_name := name; endpoint_kind := None; resolved_uuid := uuid; bound_at_seq := at_seq; binding_state := st |}.
Lemma pointers_roundtrip_witness :
  let attrs := @json_print ToyAttrs (VObject [(MERGED_INTO_KEY, VString #"u2")]) in
  let p := {| ptr_src := None; ptr_dst := Some (toy_pointer #"g" #"bob" (Some #"u1") (Some 4%N) Bound) |} in
  @read_pointers ToyAttrs (@write_pointers ToyAttrs attrs p) = p ∧
  (is_empty p = true → @attr_object ToyAttrs (@write_pointers ToyAttrs attrs p) ≫= obj_get POINTERS_KEY = None) ∧
  (∀ key, key ≠ POINTERS_KEY →
    @attr_object ToyAttrs (@write_pointers ToyAttrs attrs p) ≫= obj_get key = @attr_object ToyAttrs attrs ≫= obj_get key).
Proof.
  intros attrs p. apply (@pointers_roundtrip ToyAttrs ToyAttrsLaws attrs p).
  unfold attrs. rewrite attr_object_print. intros m [= <-]. apply NoDup_singleton.
Defined.
