(* ===== verification/Graph.v ===== *)
(** * Graph: the entity table and name resolution (core/src/db.rs), kinds (core/src/types.rs)

    The database is its [Entity] rows, its [RelatesToNode_] rows with their hops, and the direct
    relations; a query reads or rewrites them.  Queries are taken to succeed.  Every recorded
    mutation is paired with the group whose row it changes (the code records only the statement).  The order of timestamps is that of
    their numbers; how a timestamp prints, and the engine's [lower], are parameters. *)

From S2P Require Import Prelude Text Numbers Json WalScan Wal LegacyWal Replay Pointer Ontology Prompts.

(** ** Rows *)

Record ent := {
  en_uuid : str; en_name : str; en_group : str; en_labels : list str;
  en_kind : option str; en_key : option str; en_created : N; en_attrs : str;
}.
(** A [RelatesToNode_] row, and the entities its two kinds of hop lead to. *)
Record relnode := {
  rn_uuid : str; rn_name : str; rn_group : str; rn_attrs : str; rn_invalid : option str;
  rn_srcs : list str; rn_dsts : list str;
}.
(** A recorded mutation, by the row it changes. *)
Inductive gmut :=
| MHeal (uuid : str)
| MEdge (uuid : str)
| MDelete (what : str)
| MEntity (uuid : str)
| MSummary (uuid : str)
| MEpisode (uuid : str)
| MMention (episode entity : str).
Record graph := {
  g_ents : list ent;
  g_eps : list (str * str);
  g_rels : list relnode;
  g_direct : list (str * str * str);
  g_kinds : list str;
  g_scans : N;
  g_pending : list (str * gmut);
}.
Definition with_ents (es : list ent) (g : graph) : graph :=
  {| g_ents := es; g_eps := g_eps g; g_rels := g_rels g; g_direct := g_direct g; g_kinds := g_kinds g; g_scans := g_scans g; g_pending := g_pending g |}.
Definition with_rels (rs : list relnode) (g : graph) : graph :=
  {| g_ents := g_ents g; g_eps := g_eps g; g_rels := rs; g_direct := g_direct g; g_kinds := g_kinds g; g_scans := g_scans g; g_pending := g_pending g |}.
Definition with_eps (es : list (str * str)) (g : graph) : graph :=
  {| g_ents := g_ents g; g_eps := es; g_rels := g_rels g; g_direct := g_direct g; g_kinds := g_kinds g; g_scans := g_scans g; g_pending := g_pending g |}.
Definition with_direct (ds : list (str * str * str)) (g : graph) : graph :=
  {| g_ents := g_ents g; g_eps := g_eps g; g_rels := g_rels g; g_direct := ds; g_kinds := g_kinds g; g_scans := g_scans g; g_pending := g_pending g |}.
(** [exec_params]: the statement is recorded once it has run. *)
Definition record_mut (owner : str) (m : gmut) (g : graph) : graph :=
  {| g_ents := g_ents g; g_eps := g_eps g; g_rels := g_rels g; g_direct := g_direct g; g_kinds := g_kinds g; g_scans := g_scans g;
     g_pending := g_pending g ++ [(owner, m)] |}.

(** ** Kinds and names *)

(** Source: core/src/types.rs 37-37 (RESERVED_KINDS) *)
Definition RESERVED_KINDS : list str := [ #"Merged" ].
(** Source: core/src/types.rs 42-53 (normalize_kind) *)
Definition normalize_kind (kind : option str) : result Error str :=
  match kind with
  | None => Ok DEFAULT_KIND
  | Some k =>
      let t := trim k in
      if negb (nonempty t) || contains_char KEY_SEPARATOR t || bool_decide (t ∈ RESERVED_KINDS)
      then Err (InvalidKind k) else Ok t
  end.
(** A missing column reads as the empty text.
    Source: core/src/db.rs 4382-4389 (value_as_kind) *)
Definition value_as_kind (column : option str) : str :=
  let k := default [] column in if nonempty (trim k) then k else DEFAULT_KIND.
Definition kind_of (e : ent) : str := value_as_kind (en_kind e).

Section lookup.
Context {U : Unicode} (db_lower : str → str) (ts_text : N → str).

(** The comparison of names every lookup uses. *)
Definition folded (name : str) : str := to_lowercase (trim name).
(** [ORDER BY created_at ASC, uuid ASC] *)
Definition ent_leb (a b : ent) : bool :=
  if (en_created a <? en_created b)%N then true else if (en_created b <? en_created a)%N then false
  else str_leb (en_uuid a) (en_uuid b).
(** The same comparison on the printed timestamps. *)
Definition row_leb (a b : ent) : bool :=
  if bool_decide (ts_text (en_created a) = ts_text (en_created b)) then str_leb (en_uuid a) (en_uuid b)
  else str_leb (ts_text (en_created a)) (ts_text (en_created b)).

(** Source: core/src/db.rs 2896-2922 (get_entity_by_uuid) *)
Definition get_entity_by_uuid (g : graph) (uuid : str) : option ent :=
  find_first (λ e, if bool_decide (en_uuid e = uuid) then Some e else None) (g_ents g).
(** Source: core/src/db.rs 2478-2506 (get_entity_by_name_ci) *)
Definition get_entity_by_name_ci (g : graph) (name group_id kind : str) : option ent :=
  let key := compute_lookup_key group_id kind name in
  head (sort_by ent_leb (List.filter (λ e, bool_decide (en_key e = Some key)) (g_ents g))).
(** The check of an indexed hit. *)
Definition verified (name group_id kind : str) (e : ent) : bool :=
  bool_decide (en_group e = group_id) && bool_decide (kind_of e = kind) && bool_decide (folded (en_name e) = folded name).
Definition probe (g : graph) (name group_id kind : str) : option ent :=
  row ← get_entity_by_name_ci g name group_id kind; if verified name group_id kind row then Some row else None.

(** Hydration goes back to the table by uuid; an exact-kind scan stops at the first candidate.
    Source: core/src/db.rs 2771-2799 (scan_entities_by_name_ci) *)
Definition scan_entities_by_name_ci (g : graph) (name group_id : str) (kind : option str) : list ent :=
  let rows := sort_by ent_leb (List.filter (λ e, bool_decide (en_group e = group_id)) (g_ents g)) in
  let found :=
    omap (λ e, get_entity_by_uuid g (en_uuid e))
      (List.filter (λ e, bool_decide (folded (en_name e) = folded name)
                         && match kind with Some k => bool_decide (kind_of e = k) | None => true end) rows) in
  match kind with Some _ => take 1 found | None => found end.

(** Source: core/src/db.rs 2715-2733 (self_heal_lookup_key) *)
Definition self_heal_lookup_key (row : ent) (g : graph) : graph :=
  record_mut (en_group row) (MHeal (en_uuid row))
    (with_ents
      ((λ e, if bool_decide (en_uuid e = en_uuid row ∧ en_name e = en_name row ∧ en_group e = en_group row) then
               {| en_uuid := en_uuid e; en_name := en_name e; en_group := en_group e; en_labels := en_labels e;
                  en_kind := Some (kind_of row); en_key := Some (compute_lookup_key (en_group row) (kind_of row) (en_name row));
                  en_created := en_created e; en_attrs := en_attrs e |}
             else e) <$> g_ents g) g).
(** Source: core/src/db.rs 2510-2519 (register_kind) *)
Definition register_kind (kind : str) (g : graph) : graph :=
  {| g_ents := g_ents g; g_eps := g_eps g; g_rels := g_rels g; g_direct := g_direct g;
     g_kinds := if bool_decide (kind ∈ g_kinds g) then g_kinds g else insert_by str_leb kind (g_kinds g);
     g_scans := g_scans g; g_pending := g_pending g |}.
(** Source: core/src/db.rs 2536-2546 (refresh_known_kinds) *)
Definition refresh_known_kinds (g : graph) : graph :=
  foldl (λ g k, register_kind (value_as_kind k) g) g (remove_dups (en_kind <$> g_ents g)).
Definition count_scan (g : graph) : graph :=
  {| g_ents := g_ents g; g_eps := g_eps g; g_rels := g_rels g; g_direct := g_direct g; g_kinds := g_kinds g;
     g_scans := add64 (g_scans g) 1; g_pending := g_pending g |}.

(** Source: core/src/db.rs 2680-2706 (get_entity_by_name_ci_with_scan_fallback) *)
Definition get_entity_by_name_ci_with_scan_fallback (name group_id kind : str) (g : graph) : option ent * graph :=
  match probe g name group_id kind with
  | Some row => (Some row, g)
  | None =>
      let g := count_scan g in
      let scanned := head (scan_entities_by_name_ci g name group_id (Some kind)) in
      (scanned, match scanned with Some row => self_heal_lookup_key row g | None => g end)
  end.

(** The scanned rows, healed and registered, one per kind.
    Source: core/src/db.rs 2579-2586 (resolve_entities_by_name_any_kind) *)
Fixpoint heal_rows (rows : list ent) (seen : list str) (g : graph) : list ent * graph :=
  match rows with
  | [] => ([], g)
  | row :: rows =>
      let g := register_kind (kind_of row) (self_heal_lookup_key row g) in
      if bool_decide (kind_of row ∈ seen) then heal_rows rows seen g
      else let '(out, g) := heal_rows rows (kind_of row :: seen) g in (row :: out, g)
  end.
(** Source: core/src/db.rs 2559-2594 (resolve_entities_by_name_any_kind) *)
Definition resolve_entities_by_name_any_kind (name group_id : str) (g : graph) : list ent * graph :=
  let out := omap (probe g name group_id) (g_kinds g) in
  let '(out, g) :=
    match out with
    | [] => let g := count_scan g in heal_rows (scan_entities_by_name_ci g name group_id None) [] g
    | _ => (out, g)
    end in
  (sort_by row_leb out, g).

(** Source: core/src/db.rs 2632-2643 (resolve_entities_by_name_in_kinds) *)
Fixpoint heal_rows_in (kinds : list str) (rows : list ent) (seen : list str) (g : graph) : list ent * graph :=
  match rows with
  | [] => ([], g)
  | row :: rows =>
      if negb (bool_decide (kind_of row ∈ kinds)) then heal_rows_in kinds rows seen g
      else
        let g := self_heal_lookup_key row g in
        if bool_decide (kind_of row ∈ seen) then heal_rows_in kinds rows seen g
        else let '(out, g) := heal_rows_in kinds rows (kind_of row :: seen) g in (row :: out, g)
  end.
(** Source: core/src/db.rs 2607-2651 (resolve_entities_by_name_in_kinds) *)
Definition resolve_entities_by_name_in_kinds (name group_id : str) (kinds : list str) (g : graph) : list ent * graph :=
  let out := omap (probe g name group_id) kinds in
  let seen := remove_dups (kind_of <$> out) in
  let '(more, g) :=
    if (length seen <? length (remove_dups kinds))%nat
    then let g := count_scan g in heal_rows_in kinds (scan_entities_by_name_ci g name group_id None) seen g
    else ([], g) in
  (sort_by row_leb (out ++ more), g).

(** Source: core/src/db.rs 2876-2893 (count_active_entities_by_name_ci) *)
Definition count_active_entities_by_name_ci (g : graph) (name group_id : str) (kind : option str) : N :=
  N.of_nat (length (List.filter
    (λ e, bool_decide (db_lower (en_name e) = folded name) && bool_decide (en_group e = group_id)
          && negb (bool_decide (#"Merged" ∈ en_labels e))
          && match kind with Some k => bool_decide (kind_of e = k) | None => true end) (g_ents g))).
End lookup.

(** ** Edges *)

Definition on_rel (uuid : str) (f : relnode → relnode) (g : graph) : graph :=
  with_rels ((λ r, if bool_decide (rn_uuid r = uuid) then f r else r) <$> g_rels g) g.
Definition rel_group (g : graph) (uuid : str) : str :=
  default [] (find_first (λ r, if bool_decide (rn_uuid r = uuid) then Some (rn_group r) else None) (g_rels g)).
Definition edge_mut (uuid : str) (g : graph) : graph := record_mut (rel_group g uuid) (MEdge uuid) g.
Definition has_entity (g : graph) (uuid : str) : bool := bool_decide (is_Some (get_entity_by_uuid g uuid)).

(** The live edges whose attributes mention pointers: uuid, name, owning group, attributes.
    Source: core/src/db.rs 1078-1098 (list_cross_group_pointer_candidates) *)
Definition list_cross_group_pointer_candidates (g : graph) : list (str * str * str * str) :=
  omap (λ r, if contains (34%N :: POINTERS_KEY ++ [34%N]) (rn_attrs r) && bool_decide (rn_invalid r = None)
             then Some (rn_uuid r, rn_name r, rn_group r, rn_attrs r) else None) (g_rels g).
(** The hops of an edge as the optional matches give them first; empty when there is none.
    Source: core/src/db.rs 3053-3084 (get_relates_to_by_uuids) *)
Definition current_hops (g : graph) (uuid : str) : option (str * str) :=
  find_first (λ r, if bool_decide (rn_uuid r = uuid)
                   then Some (default [] (head (rn_srcs r)), default [] (head (rn_dsts r))) else None) (g_rels g).
(** Source: core/src/db.rs 3384-3416 (has_directed_edge) *)
Definition has_directed_edge (g : graph) (src dst name group_id : str) : bool :=
  existsb (λ r, bool_decide (src ∈ rn_srcs r) && bool_decide (dst ∈ rn_dsts r) && bool_decide (rn_name r = name)
                && bool_decide (rn_invalid r = None) && bool_decide (rn_group r = group_id)) (g_rels g).
(** Source: core/src/db.rs 3533-3551 (invalidate_edge) *)
Definition invalidate_edge (uuid ts : str) (g : graph) : graph :=
  edge_mut uuid (edge_mut uuid
    (on_rel uuid (λ r, {| rn_uuid := rn_uuid r; rn_name := rn_name r; rn_group := rn_group r; rn_attrs := rn_attrs r;
                          rn_invalid := Some ts; rn_srcs := rn_srcs r; rn_dsts := rn_dsts r |}) g)).
Definition set_hops (side : EndpointSide) (hops : list str) (r : relnode) : relnode :=
  {| rn_uuid := rn_uuid r; rn_name := rn_name r; rn_group := rn_group r; rn_attrs := rn_attrs r; rn_invalid := rn_invalid r;
     rn_srcs := match side with Src => hops | Dst => rn_srcs r end;
     rn_dsts := match side with Src => rn_dsts r | Dst => hops end |}.
Definition hops (side : EndpointSide) (r : relnode) : list str := match side with Src => rn_srcs r | Dst => rn_dsts r end.
(** Source: core/src/db.rs 970-988 (create_relates_to_hop) *)
Definition create_relates_to_hop (uuid : str) (side : EndpointSide) (entity : str) (g : graph) : graph :=
  edge_mut uuid
    (if has_entity g entity then
       on_rel uuid (λ r, if bool_decide (entity ∈ hops side r) then r else set_hops side (hops side r ++ [entity]) r) g
     else g).
(** Source: core/src/db.rs 995-1006 (delete_relates_to_hop) *)
Definition delete_relates_to_hop (uuid : str) (side : EndpointSide) (g : graph) : graph :=
  edge_mut uuid (on_rel uuid (set_hops side []) g).
(** Source: core/src/db.rs 960-965 (delete_relates_to_direct) *)
Definition delete_relates_to_direct (uuid : str) (g : graph) : graph :=
  edge_mut uuid (with_direct (List.filter (λ d, negb (bool_decide (d.1.1 = uuid))) (g_direct g)) g).
(** Source: core/src/db.rs 934-952 (create_relates_to_direct) *)
Definition create_relates_to_direct (uuid src dst : str) (g : graph) : graph :=
  edge_mut uuid
    (if has_entity g src && has_entity g dst && negb (bool_decide ((uuid, src, dst) ∈ g_direct g))
     then with_direct (g_direct g ++ [(uuid, src, dst)]) g else g).
(** Source: core/src/db.rs 1011-1016 (update_relates_to_attributes) *)
Definition update_relates_to_attributes (uuid attrs : str) (g : graph) : graph :=
  edge_mut uuid
    (on_rel uuid (λ r, {| rn_uuid := rn_uuid r; rn_name := rn_name r; rn_group := rn_group r; rn_attrs := attrs;
                          rn_invalid := rn_invalid r; rn_srcs := rn_srcs r; rn_dsts := rn_dsts r |}) g).
(** Source: core/src/db.rs 892-924 (insert_cross_group_edge) *)
Definition insert_cross_group_edge (uuid name group_id attrs src dst : str) (g : graph) : graph :=
  let g := with_rels (g_rels g ++ [{| rn_uuid := uuid; rn_name := name; rn_group := group_id; rn_attrs := attrs;
                                      rn_invalid := None; rn_srcs := []; rn_dsts := [] |}]) g in
  let g := edge_mut uuid g in
  let g := if nonempty src && nonempty dst then create_relates_to_direct uuid src dst g else g in
  let g := if nonempty src then create_relates_to_hop uuid Src src g else g in
  if nonempty dst then create_relates_to_hop uuid Dst dst g else g.

(** Both hops are created in one statement, which does nothing unless both entities exist.
    Source: core/src/db.rs 820-876 (insert_relates_to_edge) *)
Definition insert_relates_to_edge (uuid name src dst group_id attrs : str) (invalid : option str) (g : graph) : graph :=
  let both := has_entity g src && has_entity g dst in
  let node := {| rn_uuid := uuid; rn_name := name; rn_group := group_id; rn_attrs := attrs; rn_invalid := invalid;
                 rn_srcs := if both then [src] else []; rn_dsts := if both then [dst] else [] |} in
  edge_mut uuid (edge_mut uuid (edge_mut uuid
    (with_direct (if both then g_direct g ++ [(uuid, src, dst)] else g_direct g) (with_rels (g_rels g ++ [node]) g)))).

(** ** Whole groups *)

(** Source: core/src/db.rs 1463-1465 (count_entities_by_group_ids) *)
Definition count_entities_by_group_ids (gids : list str) (g : graph) : N :=
  N.of_nat (length (List.filter (λ e, bool_decide (en_group e ∈ gids)) (g_ents g))).
(** Source: core/src/db.rs 1468-1470 (count_episodics_by_group_ids) *)
Definition count_episodics_by_group_ids (gids : list str) (g : graph) : N :=
  N.of_nat (length (List.filter (λ e, bool_decide (e.2 ∈ gids)) (g_eps g))).
(** Source: core/src/db.rs 1475-1477 (count_relates_to_by_group_ids) *)
Definition count_relates_to_by_group_ids (gids : list str) (g : graph) : N :=
  N.of_nat (length (List.filter (λ r, bool_decide (rn_group r ∈ gids)) (g_rels g))).
(** A node deleted with its relationships: an edge loses the hops to it, and the direct relations
    at it go too.
    Source: core/src/db.rs 1520-1525 (delete_entities_by_group_ids) *)
Definition delete_entities_by_group_ids (gids : list str) (g : graph) : graph :=
  let gone := en_uuid <$> List.filter (λ e, bool_decide (en_group e ∈ gids)) (g_ents g) in
  let kept u := negb (bool_decide (u ∈ gone)) in
  record_mut (default [] (head gids)) (MDelete #"Entity")
    (with_ents (List.filter (λ e, negb (bool_decide (en_group e ∈ gids))) (g_ents g))
      (with_direct (List.filter (λ d, kept d.1.2 && kept d.2) (g_direct g))
        (with_rels ((λ r, set_hops Src (List.filter kept (rn_srcs r)) (set_hops Dst (List.filter kept (rn_dsts r)) r)) <$> g_rels g) g))).
(** Source: core/src/db.rs 1528-1533 (delete_episodics_by_group_ids) *)
Definition delete_episodics_by_group_ids (gids : list str) (g : graph) : graph :=
  record_mut (default [] (head gids)) (MDelete #"Episodic")
    (with_eps (List.filter (λ e, negb (bool_decide (e.2 ∈ gids))) (g_eps g)) g).
(** Source: core/src/db.rs 1541-1546 (delete_relates_to_by_group_ids) *)
Definition delete_relates_to_by_group_ids (gids : list str) (g : graph) : graph :=
  record_mut (default [] (head gids)) (MDelete #"RelatesToNode_")
    (with_rels (List.filter (λ r, negb (bool_decide (rn_group r ∈ gids))) (g_rels g)) g).

(** The mutations of each group: [GroupedMutations] of db.rs. *)
Abbreviation GroupedMutations := (gmap str (list (str * gmut))).
Definition add_bucket (group_id : str) (ms : list (str * gmut)) (grouped : GroupedMutations) : GroupedMutations :=
  <[group_id := default [] (grouped !! group_id) ++ ms]> grouped.
(** Source: core/src/db.rs 723-731 (drain_mutations_into) *)
Definition drain_mutations_into (group_id : str) (grouped : GroupedMutations) (g : graph) : GroupedMutations * graph :=
  (match g_pending g with [] => grouped | ms => add_bucket group_id ms grouped end,
   {| g_ents := g_ents g; g_eps := g_eps g; g_rels := g_rels g; g_direct := g_direct g; g_kinds := g_kinds g; g_scans := g_scans g; g_pending := [] |}).
