(* ===== verification/OntologyState.v ===== *)
(** * OntologyState: which ontology a group runs under, and the guards on changing it

    The identity stamp (core/src/identity_stamp.rs), the drift sidecars
    (core/src/ontology_sidecar.rs) and the per-group cache of core/src/app_state.rs.  A sidecar is
    written to a temporary file that is renamed into place, so a write leaves either the old file
    or the new one; serde is taken to read back what it wrote.  A set is its sorted list. *)

From S2P Require Import Prelude Text Numbers WalGeneration WalScan Checkpoint WalGroup Ontology Graph.

(** ** Files *)

(** A file that exists: unreadable, not parseable, or its record. *)
Inductive dfile (A : Type) := DUnreadable (e : str) | DGarbled (e : str) | DHolds (a : A).
Arguments DUnreadable {A} e.
Arguments DGarbled {A} e.
Arguments DHolds {A} a.

(** Source: core/src/ontology_sidecar.rs 10-15 (OntologySidecar) *)
Record OntologySidecar := { sc_hash : str; sc_mode : option str; sc_entity_types : list str; sc_relation_types : list str }.
(** The directories [.lcg/identity-set] and [.lcg/ontology-hash] by encoded group, the file
    [.lcg/ontology-hash.json], and what the WAL directories publish. *)
Record odisk := {
  d_stamps : gmap str (dfile (list str));
  d_groups : gmap str (dfile OntologySidecar);
  d_workspace : option (dfile OntologySidecar);
  d_published : gmap str (dfile OntologySidecar);
}.
Definition with_stamps (m : gmap str (dfile (list str))) (d : odisk) : odisk :=
  {| d_stamps := m; d_groups := d_groups d; d_workspace := d_workspace d; d_published := d_published d |}.
Definition with_groups (m : gmap str (dfile OntologySidecar)) (d : odisk) : odisk :=
  {| d_stamps := d_stamps d; d_groups := m; d_workspace := d_workspace d; d_published := d_published d |}.

(** ** The identity stamp *)

(** Source: core/src/identity_stamp.rs 33-38 (IdentityRefusal) *)
Record IdentityRefusal := { ir_label : str; ir_count : N; ir_adding : bool }.
(** Source: core/src/identity_stamp.rs 41-52 (message) *)
Definition refusal_message (r : IdentityRefusal) (group_id : str) : msg :=
  Msg "identity-bearing set change refused for group {group_id:?}: {} the `identity` flag for type {:?} would reinterpret {} existing entit{} carrying that label."
    [AStr group_id; AStr (if ir_adding r then #"adding" else #"removing"); AStr (ir_label r); ANum (ir_count r);
     AStr (if (ir_count r =? 1)%N then #"y" else #"ies")].
(** Source: core/src/identity_stamp.rs 54-62 (into_error) *)
Definition into_error (r : IdentityRefusal) (group_id : str) : Error :=
  IdentitySetChangeRefused group_id (ir_label r) (ir_count r) (refusal_message r group_id).

(** Source: core/src/identity_stamp.rs 79-89 (read_stamp) *)
Definition read_stamp (d : odisk) (group_id : str) : result str (list str) :=
  match encode_group_dir_name group_id with
  | Err _ => Err #"invalid group id"
  | Ok name =>
      match d_stamps d !! name with
      | None => Ok []
      | Some (DUnreadable e) => Err (#"cannot read identity stamp: " ++ e)
      | Some (DGarbled e) => Err (#"cannot parse identity stamp: " ++ e)
      | Some (DHolds types) => Ok (btree types)
      end
  end.
(** [io] is why the write failed, if it did.
    Source: core/src/identity_stamp.rs 93-113 (write_stamp) *)
Definition write_stamp (io : option str) (group_id : str) (set : list str) (d : odisk) : result str unit * odisk :=
  match encode_group_dir_name group_id, io with
  | Err _, _ => (Err #"invalid group id", d)
  | Ok _, Some e => (Err e, d)
  | Ok name, None => (Ok tt, with_stamps (<[name := DHolds set]> (d_stamps d)) d)
  end.
(** Source: core/src/identity_stamp.rs 116-120 (remove_stamp) *)
Definition remove_stamp (group_id : str) (d : odisk) : odisk :=
  match encode_group_dir_name group_id with
  | Ok name => with_stamps (base.delete name (d_stamps d)) d
  | Err _ => d
  end.
(** Source: core/src/identity_stamp.rs 123-125 (remove_all_stamps) *)
Definition remove_all_stamps (d : odisk) : odisk := with_stamps ∅ d.

(** [Ord for (String, bool)] *)
Definition label_leb (a b : str * bool) : bool :=
  if bool_decide (a.1 = b.1) then negb a.2 || b.2 else str_leb a.1 b.1.
(** Source: core/src/identity_stamp.rs 127-140 (changed_labels) *)
Definition changed_labels (recorded current : list str) : list (str * bool) :=
  sort_by label_leb
    (((λ l, (l, true)) <$> List.filter (λ l : str, negb (bool_decide (l ∈ recorded))) current)
     ++ ((λ l, (l, false)) <$> List.filter (λ l : str, negb (bool_decide (l ∈ current))) recorded)).
(** Source: core/src/identity_stamp.rs 145-160 (check_identity_change) *)
Fixpoint check_identity_change {E : Type} (changed : list (str * bool)) (count : str → result E N) : result E (option IdentityRefusal) :=
  match changed with
  | [] => Ok None
  | (label, adding) :: changed =>
      match count label with
      | Err e => Err e
      | Ok n => if (0 <? n)%N then Ok (Some {| ir_label := label; ir_count := n; ir_adding := adding |})
                else check_identity_change changed count
      end
  end.

(** ** Drift *)

Section drift.
Context (sha256_hex : bytes → str).

(** Source: core/src/ontology_sidecar.rs 93-108 (write_group_sidecar) *)
Definition sidecar_of (o : option Ontology) : OntologySidecar :=
  {| sc_hash := content_hash sha256_hex o;
     sc_mode := (λ o, mode_str (mode o)) <$> o;
     sc_entity_types := match o with Some o => et_name <$> entity_types o | None => [] end;
     sc_relation_types := match o with Some o => rt_name <$> relation_types o | None => [] end |}.
(** Unreadable and unparseable files count as absent.
    Source: core/src/ontology_sidecar.rs 22-35 (read_sidecar) *)
Definition read_sidecar (f : option (dfile OntologySidecar)) : option OntologySidecar :=
  match f with Some (DHolds s) => Some s | _ => None end.
(** Source: core/src/ontology_sidecar.rs 56-69 (read_group_sidecar) *)
Definition read_group_sidecar (d : odisk) (group_id : str) : option OntologySidecar :=
  match encode_group_dir_name group_id with Ok name => read_sidecar (d_groups d !! name) | Err _ => None end.
(** Source: core/src/ontology_sidecar.rs 82-121 (write_group_sidecar) *)
Definition write_group_sidecar (io : option str) (group_id : str) (o : option Ontology) (d : odisk) : result str unit * odisk :=
  match encode_group_dir_name group_id, io with
  | Err _, _ => (Err #"invalid group id", d)
  | Ok _, Some e => (Err e, d)
  | Ok name, None => (Ok tt, with_groups (<[name := DHolds (sidecar_of o)]> (d_groups d)) d)
  end.
(** Source: core/src/ontology_sidecar.rs 124-156 (write_sidecar) *)
Definition write_sidecar (io : option str) (o : option Ontology) (d : odisk) : result str unit * odisk :=
  match io with
  | Some e => (Err e, d)
  | None => (Ok tt, {| d_stamps := d_stamps d; d_groups := d_groups d; d_workspace := Some (DHolds (sidecar_of o)); d_published := d_published d |})
  end.
(** Source: core/src/ontology_sidecar.rs 181-219 (write_wal_ontology_sidecar) *)
Definition write_wal_ontology_sidecar (io : option str) (wal_dir : str) (o : option Ontology) (d : odisk) : result str unit * odisk :=
  match io with
  | Some e => (Err e, d)
  | None => (Ok tt, {| d_stamps := d_stamps d; d_groups := d_groups d; d_workspace := d_workspace d;
                       d_published := <[wal_dir := DHolds (sidecar_of o)]> (d_published d) |})
  end.

(** The names of one list that the other lacks, sorted. *)
Definition names_beyond (l k : list str) : list str := btree (List.filter (λ x : str, negb (bool_decide (x ∈ k))) l).
(** A part of the summary that lists names, left out when there are none. *)
Definition named_part (title : str) (l : list str) : list str :=
  match l with [] => [] | _ => [title ++ #": [" ++ join #", " l ++ #"]"] end.
Definition ontology_added (o : Ontology) : msg :=
  Msg "ontology added: {} entity types, {} relation types" [ANum (N.of_nat (length (entity_types o))); ANum (N.of_nat (length (relation_types o)))].
(** What [build_drift_summary] lists when both sides are ontologies or the record is of none.
    Source: core/src/ontology_sidecar.rs 330-411 (build_drift_summary) *)
Definition drift_parts (sidecar : OntologySidecar) (current : option Ontology) : list str :=
  let prev_entities := sc_entity_types sidecar in
  let prev_relations := sc_relation_types sidecar in
  let cur_entities := match current with Some o => et_name <$> entity_types o | None => [] end in
  let cur_relations := match current with Some o => rt_name <$> relation_types o | None => [] end in
  let cur_mode := (λ o, mode_str (mode o)) <$> current in
  let mode_changed := match current with
                      | Some o => negb (bool_decide (sc_mode sidecar = Some (mode_str (mode o))))
                      | None => bool_decide (is_Some (sc_mode sidecar)) end in
  (if mode_changed then [ #"mode changed: " ++ default #"none" (sc_mode sidecar) ++ [32%N; 8594%N; 32%N] ++ default #"none" cur_mode] else [])
  ++ named_part #"entity types added" (names_beyond cur_entities prev_entities)
  ++ named_part #"entity types removed" (names_beyond prev_entities cur_entities)
  ++ named_part #"relation types added" (names_beyond cur_relations prev_relations)
  ++ named_part #"relation types removed" (names_beyond prev_relations cur_relations).
(** Source: core/src/ontology_sidecar.rs 310-418 (build_drift_summary) *)
Definition build_drift_summary (sidecar : OntologySidecar) (current : option Ontology) : msg :=
  let none_recorded := bool_decide (sc_hash sidecar = #"none") in
  match current, none_recorded with
  | Some o, true => ontology_added o
  | None, false =>
      Msg "ontology removed (was {} entity types, {} relation types)"
        [ANum (N.of_nat (length (sc_entity_types sidecar))); ANum (N.of_nat (length (sc_relation_types sidecar)))]
  | _, _ =>
      match drift_parts sidecar current with
      | [] => Msg "descriptions or structure updated" []
      | parts => Msg "{}" [AStr (join #"; " parts)]
      end
  end.
(** Source: core/src/ontology_sidecar.rs 275-308 (compute_drift_from_sidecar) *)
Definition compute_drift_from_sidecar (sidecar : option OntologySidecar) (o : option Ontology) (has_prior_data : bool) : bool * option msg :=
  match sidecar with
  | None => match has_prior_data, o with true, Some o => (true, Some (ontology_added o)) | _, _ => (false, None) end
  | Some sidecar =>
      if bool_decide (content_hash sha256_hex o = sc_hash sidecar) then (false, None)
      else (true, Some (build_drift_summary sidecar o))
  end.
(** Source: core/src/ontology_sidecar.rs 236-246 (compute_drift) *)
Definition compute_drift (workspace_root : option odisk) (o : option Ontology) (has_prior_data : bool) : bool * option msg :=
  match workspace_root with
  | None => (false, None)
  | Some d => compute_drift_from_sidecar (read_sidecar (d_workspace d)) o has_prior_data
  end.
(** Source: core/src/ontology_sidecar.rs 253-264 (compute_group_drift) *)
Definition compute_group_drift (workspace_root : option odisk) (group_id : str) (o : option Ontology) (has_prior_data : bool) : bool * option msg :=
  match workspace_root with
  | None => (false, None)
  | Some d => compute_drift_from_sidecar (read_group_sidecar d group_id) o has_prior_data
  end.
End drift.

(** ** The cache of each group's ontology *)

(** Source: core/src/app_state.rs 38-41 (GroupDriftStatus) *)
Record GroupDriftStatus := { drifted : bool; drift_summary : option msg }.
Definition no_drift : GroupDriftStatus := {| drifted := false; drift_summary := None |}.
(** Source: core/src/app_state.rs 47-57 (GroupOntologyEntry) *)
Record GroupOntologyEntry := {
  ge_ontology : option Ontology; ge_drift : GroupDriftStatus; ge_refusal : option IdentityRefusal; ge_unchecked : option msg }.
(** Source: core/src/app_state.rs 69-72 (GroupOntologyCacheState) *)
Inductive GroupOntologyCacheState := Resolving | Resolved (e : GroupOntologyEntry).
(** Source: core/src/app_state.rs 75-85 (ReloadOutcome) *)
Record ReloadOutcome := {
  ro_previous : option str; ro_new : str; ro_drift : GroupDriftStatus; ro_refusal : option IdentityRefusal; ro_unchecked : option msg }.
(** Source: core/src/app_state.rs 90-95 (changed) *)
Definition reload_changed (r : ReloadOutcome) : bool :=
  match ro_previous r with Some prev => negb (bool_decide (prev = ro_new r)) | None => negb (bool_decide (ro_new r = #"none")) end.

(** What a connection answers here. *)
Record odb := { count_episodics : str → result Error N; count_carriers : str → str → result Error N }.
(** Source: core/src/db.rs 1484-1498 (count_entities_carrying_label) *)
Definition count_entities_carrying_label (g : graph) (group_id label : str) : N :=
  N.of_nat (length (List.filter (λ e, bool_decide (en_group e = group_id) && bool_decide (label ∈ en_labels e)) (g_ents g))).
Definition graph_db (g : graph) : odb :=
  {| count_episodics gid := Ok (count_episodics_by_group_ids [gid] g); count_carriers gid l := Ok (count_entities_carrying_label g gid l) |}.
(** The surroundings of one call: the database (absent, refusing connections, or answering) and
    whether writing a stamp fails. *)
Record oenv := { oe_db : option (result Error odb); oe_stamp_io : option str }.
(** [workspace_root] is whether there is one; [own] is each group's file as
    [Ontology.load_group_ontology] reads it. *)
Record ostate := {
  o_root : bool; o_disk : odisk; o_own : str → option Ontology; o_ontology : option Ontology;
  o_groups : gmap str GroupOntologyCacheState;
}.
Definition with_disk (d : odisk) (s : ostate) : ostate :=
  {| o_root := o_root s; o_disk := d; o_own := o_own s; o_ontology := o_ontology s; o_groups := o_groups s |}.
Definition with_cache (m : gmap str GroupOntologyCacheState) (s : ostate) : ostate :=
  {| o_root := o_root s; o_disk := o_disk s; o_own := o_own s; o_ontology := o_ontology s; o_groups := m |}.
Definition cached (s : ostate) (group_id : str) : option GroupOntologyEntry :=
  match o_groups s !! group_id with Some (Resolved e) => Some e | _ => None end.

Section app.
Context (sha256_hex : bytes → str).
Abbreviation hash := (content_hash sha256_hex).

(** Source: core/src/app_state.rs 611-617 (load_resolved_ontology) *)
Definition load_resolved_ontology (s : ostate) (group_id : str) : option Ontology :=
  match (if o_root s then o_own s group_id else None) with Some o => Some o | None => o_ontology s end.
(** Source: core/src/app_state.rs 465-509 (check_identity_set) *)
Definition check_identity_set (env : oenv) (group_id : str) (resolved : option Ontology) (s : ostate) :
    (option IdentityRefusal * option msg) * ostate :=
  if negb (o_root s) then ((None, None), s)
  else
    let current := match resolved with Some o => identity_set o | None => [] end in
    match read_stamp (o_disk s) group_id with
    | Err e => ((None, Some (Msg "{}" [AStr e])), s)
    | Ok recorded =>
        match changed_labels recorded current with
        | [] => ((None, None), s)
        | changed =>
            match oe_db env with
            | None => ((None, Some (Msg "DB unavailable" [])), s)
            | Some (Err e) => ((None, Some (Msg "cannot open DB connection: {e}" [])), s)
            | Some (Ok db) =>
                match check_identity_change changed (count_carriers db group_id) with
                | Err e => ((None, Some (Msg "cannot count entities: {e}" [])), s)
                | Ok (Some refusal) => ((Some refusal, None), s)
                | Ok None =>
                    match write_stamp (oe_stamp_io env) group_id current (o_disk s) with
                    | (Err e, _) => ((None, Some (Msg "cannot record identity stamp: {e}" [AStr e])), s)
                    | (Ok _, d) => ((None, None), with_disk d s)
                    end
                end
            end
        end
    end.
(** Source: core/src/app_state.rs 399-453 (compute_group_ontology_entry) *)
Definition compute_group_ontology_entry (env : oenv) (group_id : str) (s : ostate) : option Ontology * GroupOntologyEntry * ostate :=
  let resolved := load_resolved_ontology s group_id in
  let has_prior_data :=
    if negb (o_root s) then false
    else match read_group_sidecar (o_disk s) group_id with
         | Some _ => false
         | None => (0 <? match oe_db env with Some (Ok db) => default 0 (rok (count_episodics db group_id)) | _ => 0 end)%N
         end in
  let '(drifted, summary) :=
    compute_group_drift sha256_hex (if o_root s then Some (o_disk s) else None) group_id resolved has_prior_data in
  let '((refusal, unchecked), s) := check_identity_set env group_id resolved s in
  (resolved, {| ge_ontology := resolved; ge_drift := {| drifted := drifted; drift_summary := summary |}; ge_refusal := refusal; ge_unchecked := unchecked |}, s).
(** Source: core/src/app_state.rs 387-393 (mark_group_resolving) *)
Definition mark_group_resolving (group_id : str) (s : ostate) : ostate :=
  match o_groups s !! group_id with Some _ => s | None => with_cache (<[group_id := Resolving]> (o_groups s)) s end.
(** Source: core/src/app_state.rs 578-605 (insert_group_ontology_entry_if_not_resolved) *)
Definition insert_group_ontology_entry_if_not_resolved (group_id : str) (e : GroupOntologyEntry) (s : ostate) : bool * ostate :=
  match cached s group_id with
  | Some _ => (false, s)
  | None => (true, with_cache (<[group_id := Resolved e]> (o_groups s)) s)
  end.
(** Source: core/src/app_state.rs 350-381 (resolve_and_cache) *)
Definition resolve_and_cache (env : oenv) (group_id : str) (s : ostate) : option Ontology * GroupOntologyEntry * ostate :=
  let s := mark_group_resolving group_id s in
  let '(resolved, entry, s) := compute_group_ontology_entry env group_id s in
  match ge_unchecked entry with
  | Some _ => (resolved, entry, s)
  | None => (resolved, entry, (insert_group_ontology_entry_if_not_resolved group_id entry s).2)
  end.
(** Source: core/src/app_state.rs 338-346 (resolve_ontology) *)
Definition resolve_ontology (env : oenv) (group_id : str) (s : ostate) : option Ontology * ostate :=
  match cached s group_id with
  | Some e => (ge_ontology e, s)
  | None => let '(resolved, _, s) := resolve_and_cache env group_id s in (resolved, s)
  end.
(** [retry] are the surroundings of the second check.
    Source: core/src/app_state.rs 516-536 (check_identity) *)
Definition check_identity (env retry : oenv) (group_id : str) (s : ostate) : result Error unit * ostate :=
  let '(_, s) := resolve_ontology env group_id s in
  match cached s group_id with
  | Some e => (match ge_refusal e with Some r => Err (into_error r group_id) | None => Ok tt end, s)
  | None =>
      let '(verdict, s) := check_identity_set retry group_id (load_resolved_ontology s group_id) s in
      (match verdict with
       | (Some r, _) => Err (into_error r group_id)
       | (None, Some reason) => Err (DbUnavailable (Msg "cannot verify identity-bearing set for group {group_id:?}: {reason}" (AStr group_id :: msg_args reason)))
       | (None, None) => Ok tt
       end, s)
  end.
(** Source: core/src/app_state.rs 539-546 (group_identity_refusal) *)
Definition group_identity_refusal (group_id : str) (s : ostate) : option msg :=
  e ← cached s group_id; r ← ge_refusal e; Some (refusal_message r group_id).
(** Source: core/src/app_state.rs 633-640 (peek_or_load_ontology) *)
Definition peek_or_load_ontology (group_id : str) (s : ostate) : option Ontology :=
  match cached s group_id with Some e => ge_ontology e | None => load_resolved_ontology s group_id end.
(** Source: core/src/app_state.rs 646-651 (group_drift_status) *)
Definition group_drift_status (group_id : str) (s : ostate) : option GroupDriftStatus := ge_drift <$> cached s group_id.
Definition cleared (e : GroupOntologyEntry) : GroupOntologyEntry :=
  {| ge_ontology := ge_ontology e; ge_drift := no_drift; ge_refusal := ge_refusal e; ge_unchecked := ge_unchecked e |}.
(** With no other thread in between, the loop goes round at most twice.
    Source: core/src/app_state.rs 700-730 (clear_group_drift) *)
Definition clear_group_drift (env : oenv) (group_id : str) (ontology : option Ontology) (s : ostate) : ostate :=
  match o_groups s !! group_id with
  | Some (Resolved e) => with_cache (<[group_id := Resolved (cleared e)]> (o_groups s)) s
  | Some Resolving =>
      let '((refusal, unchecked), s) := check_identity_set env group_id ontology s in
      match unchecked with
      | None => with_cache (<[group_id := Resolved {| ge_ontology := ontology; ge_drift := no_drift; ge_refusal := refusal; ge_unchecked := None |}]> (o_groups s)) s
      | Some _ => s
      end
  | None => s
  end.
(** Source: core/src/app_state.rs 742-746 (invalidate_group_ontology) *)
Definition invalidate_group_ontology (group_id : str) (s : ostate) : ostate := with_cache (base.delete group_id (o_groups s)) s.
(** Source: core/src/app_state.rs 843-847 (invalidate_all_group_ontologies) *)
Definition invalidate_all_group_ontologies (s : ostate) : ostate := with_cache ∅ s.
(** Source: core/src/app_state.rs 835-840 (cached_ontology_hash) *)
Definition cached_ontology_hash (group_id : str) (s : ostate) : option str := hash ∘ ge_ontology <$> cached s group_id.
(** Source: core/src/app_state.rs 762-829 (reload_group_ontology) *)
Definition reload_group_ontology (env : oenv) (group_id : str) (s : ostate) : ReloadOutcome * ostate :=
  let snapshot := o_groups s !! group_id in
  let previous := cached s group_id in
  let previous_hash := hash ∘ ge_ontology <$> previous in
  let unchanged := prev ← previous; if bool_decide (hash (load_resolved_ontology s group_id) = hash (ge_ontology prev)) then Some prev else None in
  match unchanged with
  | Some prev =>
      ({| ro_previous := previous_hash; ro_new := hash (ge_ontology prev); ro_drift := ge_drift prev; ro_refusal := ge_refusal prev; ro_unchecked := None |}, s)
  | None =>
      let '(_, computed, s) := resolve_and_cache env group_id (invalidate_group_ontology group_id s) in
      match ge_unchecked computed with
      | Some reason =>
          ({| ro_previous := previous_hash; ro_new := hash (ge_ontology computed); ro_drift := ge_drift computed; ro_refusal := None; ro_unchecked := Some reason |},
           with_cache (match snapshot with Some st => <[group_id := st]> (o_groups s) | None => base.delete group_id (o_groups s) end) s)
      | None =>
          let entry := default computed (cached s group_id) in
          ({| ro_previous := previous_hash; ro_new := hash (ge_ontology entry); ro_drift := ge_drift entry; ro_refusal := ge_refusal entry; ro_unchecked := None |}, s)
      end
  end.
(** Deleting a group, or everything, drops the stamps and what was cached under them. *)
Definition forget_group (group_id : str) (s : ostate) : ostate :=
  invalidate_group_ontology group_id (with_disk (remove_stamp group_id (o_disk s)) s).
Definition forget_everything (s : ostate) : ostate := invalidate_all_group_ontologies (with_disk (remove_all_stamps (o_disk s)) s).
End app.
