(* ===== verification/OntologyGuard.v ===== *)
(** * OntologyGuard: the identity stamp is never silently reinterpreted, and a cleared drift stays cleared

    What the per-group cache and the stamp of [OntologyState] guarantee, over every sequence of
    operations; and the race of first resolutions with remediations, step by step. *)

From S2P Require Import Prelude Text Numbers WalGeneration WalScan Checkpoint WalGroup Ontology Graph OntologyState.

(** ** Sets as sorted lists *)

Lemma btree_elem (l : list str) x : x ∈ btree l ↔ x ∈ l.
Proof. unfold btree. rewrite sort_by_perm. apply elem_of_remove_dups. Qed.
Lemma btree_sorted (l : list str) : StronglySorted (λ a b, str_leb a b = true) (btree l).
Proof. apply sort_by_sorted; eauto using str_leb_total, str_leb_trans. Qed.
Lemma btree_nodup (l : list str) : NoDup (btree l).
Proof. unfold btree. rewrite sort_by_perm. apply NoDup_remove_dups. Qed.
(** Two sorted lists without repetition that hold the same texts are one. *)
Lemma btree_ext (l k : list str) : (∀ x, x ∈ l ↔ x ∈ k) → btree l = btree k.
Proof.
  intros H. apply (sorted_perm_unique (λ a b, str_leb a b = true)).
  - intros x y. apply str_leb_antisym.
  - apply btree_sorted.
  - apply btree_sorted.
  - apply NoDup_Permutation; [apply btree_nodup..|]. intros x. by rewrite !btree_elem.
Qed.
Lemma btree_idem (l : list str) : btree (btree l) = btree l.
Proof. apply btree_ext. intros x. apply btree_elem. Qed.

(** The identity set of an ontology, or of none. *)
Definition idset (o : option Ontology) : list str := match o with Some o => identity_set o | None => [] end.
Lemma idset_btree o : btree (idset o) = idset o.
Proof. destruct o; [apply btree_idem|done]. Qed.
Lemma read_stamp_btree d g l : read_stamp d g = Ok l → btree l = l.
Proof.
  unfold read_stamp. destruct (encode_group_dir_name g) as [n|]; [|done].
  destruct (d_stamps d !! n) as [[e|e|ts]|]; intros [= <-]; [apply btree_idem|done].
Qed.

Lemma changed_elem (recorded current : list str) (l : str) (b : bool) :
  (l, b) ∈ changed_labels recorded current ↔ if b then l ∈ current ∧ l ∉ recorded else l ∈ recorded ∧ l ∉ current.
Proof.
  unfold changed_labels. rewrite sort_by_perm, elem_of_app, !list_elem_of_fmap.
  assert (Hf : ∀ (a k : list str) x, x ∈ List.filter (λ l : str, negb (bool_decide (l ∈ k))) a ↔ x ∈ a ∧ x ∉ k).
  { intros a k x. rewrite !list_elem_of_In, filter_In, <- !list_elem_of_In, negb_true_iff, bool_decide_eq_false. done. }
  setoid_rewrite Hf. destruct b; naive_solver.
Qed.
Lemma changed_nil (recorded current : list str) : btree recorded = recorded → btree current = current →
  changed_labels recorded current = [] → recorded = current.
Proof.
  intros Hr Hc Hn. rewrite <- Hr, <- Hc. apply btree_ext. intros x.
  assert (Hno : ∀ b, (x, b) ∉ changed_labels recorded current) by (intros b; rewrite Hn; apply not_elem_of_nil).
  pose proof (Hno true) as H1. pose proof (Hno false) as H2. rewrite changed_elem in H1, H2.
  destruct (decide (x ∈ recorded)), (decide (x ∈ current)); tauto.
Qed.
Lemma no_carrier {E} (changed : list (str * bool)) (count : str → result E N) : check_identity_change changed count = Ok None →
  ∀ l b, (l, b) ∈ changed → count l = Ok 0%N.
Proof.
  induction changed as [|[l b] changed IH]; cbn [check_identity_change]; intros H l' b' Hin; [by apply not_elem_of_nil in Hin|].
  destruct (count l) as [n|e] eqn:Hc; [|done]. destruct (N.ltb_spec 0 n); [done|].
  apply elem_of_cons in Hin as [[= -> ->]|Hin]; [rewrite Hc; f_equal; lia|by eapply IH].
Qed.

(** ** Stamps on disk *)

Lemma encode_inj g h n : wf_str g → wf_str h → encode_group_dir_name g = Ok n → encode_group_dir_name h = Ok n → g = h.
Proof.
  intros Hg Hh Eg Eh. destruct (encode_decode _ _ Hg Eg) as [Dg _]. destruct (encode_decode _ _ Hh Eh) as [Dh _]. congruence.
Qed.
Lemma write_stamp_reads io g set d d' : write_stamp io g set d = (Ok tt, d') → read_stamp d' g = Ok (btree set).
Proof.
  unfold write_stamp, read_stamp. destruct (encode_group_dir_name g) as [n|]; [|by destruct io]. destruct io; [done|].
  intros [= <-]. cbn. by rewrite lookup_insert_eq.
Qed.
Lemma write_stamp_frame io g set d d' r h : wf_str g → wf_str h → g ≠ h → write_stamp io g set d = (r, d') → read_stamp d' h = read_stamp d h.
Proof.
  unfold write_stamp, read_stamp. intros Hg Hh Hne. destruct (encode_group_dir_name g) as [n|] eqn:Eg; [|destruct io; intros [= _ <-]; done].
  destruct io; intros [= _ <-]; [done|]. destruct (encode_group_dir_name h) as [m|] eqn:Eh; [|done]. cbn.
  rewrite lookup_insert_ne; [done|]. intros ->. by apply Hne, (encode_inj g h m).
Qed.

(** What a check of the identity set leaves: nothing but the group's stamp can have changed, and
    that only to the ontology's set, when no entity carries a label that changed sides. *)
Record settled (env : oenv) (g : str) (o : option Ontology) (s : ostate) (v : option IdentityRefusal * option msg) (s' : ostate) : Prop := {
  st_root : o_root s' = o_root s;
  st_own : o_own s' = o_own s;
  st_ontology : o_ontology s' = o_ontology s;
  st_groups : o_groups s' = o_groups s;
  st_drift : d_groups (o_disk s') = d_groups (o_disk s);
  st_refused : v ≠ (None, None) → s' = s;
  st_frame h : wf_str g → wf_str h → g ≠ h → read_stamp (o_disk s') h = read_stamp (o_disk s) h;
  st_accepted : o_root s = true → v = (None, None) → read_stamp (o_disk s') g = Ok (idset o);
  st_stamp : s' = s ∨ ∃ old db, read_stamp (o_disk s) g = Ok old ∧ read_stamp (o_disk s') g = Ok (idset o) ∧ oe_db env = Some (Ok db) ∧
     ∀ l, (l ∈ old ∧ l ∉ idset o) ∨ (l ∈ idset o ∧ l ∉ old) → count_carriers db g l = Ok 0%N;
}.
Lemma settled_same env g o s v : v ≠ (None, None) → settled env g o s v s.
Proof. intros Hv. split; auto. done. Qed.
Lemma check_set_spec env g o s v s' : check_identity_set env g o s = (v, s') → settled env g o s v s'.
Proof.
  unfold check_identity_set. fold (idset o).
  destruct (o_root s) eqn:Hroot; cbn [negb]; [|intros [= <- <-]; split; auto; congruence].
  destruct (read_stamp (o_disk s) g) as [recorded|e] eqn:Hr; [|by intros [= <- <-]; apply settled_same].
  destruct (changed_labels recorded (idset o)) as [|c cs] eqn:Hch.
  - intros [= <- <-]. split; auto. intros _ _. rewrite Hr. f_equal.
    apply changed_nil; [by eapply read_stamp_btree|apply idset_btree|done].
  - destruct (oe_db env) as [[db|e]|] eqn:Hdb; [|by intros [= <- <-]; apply settled_same..]. rewrite <- Hch.
    destruct (check_identity_change _ _) as [[r|]|e] eqn:Hcnt; [by intros [= <- <-]; apply settled_same| |by intros [= <- <-]; apply settled_same].
    destruct (write_stamp _ _ _ _) as [[[]|e] d] eqn:Hw; [|by intros [= <- <-]; apply settled_same].
    intros [= <- <-]. pose proof (write_stamp_reads _ _ _ _ _ Hw) as Hrd. rewrite idset_btree in Hrd. split; cbn; auto.
    + unfold write_stamp in Hw. destruct (encode_group_dir_name g); [|by destruct (oe_stamp_io env)]. destruct (oe_stamp_io env); [done|]. by injection Hw as <-.
    + done.
    + intros h Hg Hh Hne. by apply (write_stamp_frame _ _ _ _ _ _ _ Hg Hh Hne Hw).
    + right. exists recorded, db. split_and!; try done. intros l [[H1 H2]|[H1 H2]].
      * eapply (no_carrier _ _ Hcnt l false). by apply changed_elem.
      * eapply (no_carrier _ _ Hcnt l true). by apply changed_elem.
Qed.

(** ** The cache against the stamps *)

Lemma cached_insert s g e h : cached (with_cache (<[g := Resolved e]> (o_groups s)) s) h = if decide (g = h) then Some e else cached s h.
Proof. unfold cached. cbn. destruct (decide (g = h)) as [->|Hne]; [by rewrite lookup_insert_eq|by rewrite lookup_insert_ne]. Qed.
Lemma cached_mark s g h : cached (mark_group_resolving g s) h = cached s h.
Proof.
  unfold mark_group_resolving, cached. destruct (o_groups s !! g) as [st|] eqn:Hg; [done|]. cbn.
  destruct (decide (g = h)) as [->|Hne]; [by rewrite lookup_insert_eq, Hg|by rewrite lookup_insert_ne].
Qed.
Lemma cached_invalidate s g h : cached (invalidate_group_ontology g s) h = if decide (g = h) then None else cached s h.
Proof. unfold cached. cbn. destruct (decide (g = h)) as [->|Hne]; [by rewrite lookup_delete_eq|by rewrite lookup_delete_ne]. Qed.
Lemma cached_settled env g o s v s' h : settled env g o s v s' → cached s' h = cached s h.
Proof. intros H. unfold cached. by rewrite (st_groups _ _ _ _ _ _ H). Qed.

(** Every cached entry was checked, and unless it refuses, the group's stamp is its set. *)
Definition stamped (s : ostate) : Prop := ∀ g e, wf_str g → cached s g = Some e → o_root s = true →
  ge_unchecked e = None ∧ (ge_refusal e = None → read_stamp (o_disk s) g = Ok (idset (ge_ontology e))).
Lemma stamped_sub s s' : o_root s' = o_root s → o_disk s' = o_disk s → (∀ h, cached s' h = cached s h ∨ cached s' h = None) → stamped s → stamped s'.
Proof. intros Hr Hd Hc Hs g e Hg He. rewrite Hr, Hd. destruct (Hc g) as [H|H]; rewrite H in He; [by apply Hs|done]. Qed.
Lemma stamped_settled env g o s v s' : wf_str g → settled env g o s v s' → cached s g = None → stamped s → stamped s'.
Proof.
  intros Hg H Hn Hs h e Hh He Hr. rewrite (cached_settled _ _ _ _ _ _ h H) in He. rewrite (st_root _ _ _ _ _ _ H) in Hr.
  destruct (decide (g = h)) as [->|Hne]; [by rewrite Hn in He|]. rewrite (st_frame _ _ _ _ _ _ H) by done. by apply Hs.
Qed.
Lemma stamped_insert s g e : stamped s → (o_root s = true → ge_unchecked e = None ∧ (ge_refusal e = None → read_stamp (o_disk s) g = Ok (idset (ge_ontology e)))) →
  stamped (with_cache (<[g := Resolved e]> (o_groups s)) s).
Proof. intros Hs He h e' Hh Hc Hr. rewrite cached_insert in Hc. destruct (decide (g = h)) as [->|Hne]; [injection Hc as <-; by apply He|by apply Hs]. Qed.

Section app.
Context (sha256_hex : bytes → str).

Lemma compute_spec env g s o e s' : compute_group_ontology_entry sha256_hex env g s = (o, e, s') →
  o = load_resolved_ontology s g ∧ ge_ontology e = o ∧ settled env g o s (ge_refusal e, ge_unchecked e) s'.
Proof.
  unfold compute_group_ontology_entry. destruct (compute_group_drift _ _ _ _ _) as [d sm].
  destruct (check_identity_set _ _ _ _) as [[r u] s1] eqn:Hc. intros [= <- <- <-]. split_and!; [done..|]. by apply check_set_spec.
Qed.
(** A first resolution: the check, then the entry in the cache if the check could be made. *)
Lemma resolve_and_cache_spec env g s o e s' : cached s g = None → resolve_and_cache sha256_hex env g s = (o, e, s') →
  o = load_resolved_ontology s g ∧ ge_ontology e = o ∧
  ∃ s1, settled env g o (mark_group_resolving g s) (ge_refusal e, ge_unchecked e) s1 ∧
    s' = match ge_unchecked e with None => with_cache (<[g := Resolved e]> (o_groups s1)) s1 | Some _ => s1 end.
Proof.
  unfold resolve_and_cache. intros Hn. destruct (compute_group_ontology_entry _ _ _ _) as [[o1 e1] s1] eqn:Hc.
  apply compute_spec in Hc as (Ho & Heo & Hs). assert (Hn1 : cached s1 g = None) by by rewrite (cached_settled _ _ _ _ _ _ g Hs), cached_mark.
  intros H. assert (Hl : load_resolved_ontology (mark_group_resolving g s) g = load_resolved_ontology s g).
  { unfold mark_group_resolving. by destruct (o_groups s !! g). }
  destruct (ge_unchecked e1) as [u|] eqn:Hu; injection H as <- <- <-; (split_and!; [congruence|done|]); exists s1; rewrite Hu; [done|].
  unfold insert_group_ontology_entry_if_not_resolved. by rewrite Hn1.
Qed.
Lemma mark_same s g : o_root (mark_group_resolving g s) = o_root s ∧ o_disk (mark_group_resolving g s) = o_disk s.
Proof. unfold mark_group_resolving. by destruct (o_groups s !! g). Qed.
Lemma stamped_mark s g : stamped s → stamped (mark_group_resolving g s).
Proof. intros H. destruct (mark_same s g). apply (stamped_sub s); [done..| |done]. intros h. left. apply cached_mark. Qed.
Lemma stamped_resolve_cache env g s o e s' : wf_str g → cached s g = None → resolve_and_cache sha256_hex env g s = (o, e, s') → stamped s → stamped s'.
Proof.
  intros Hg Hn H Hs. apply resolve_and_cache_spec in H as (_ & Ho & s1 & H1 & ->); [|done].
  assert (Hst : stamped s1). { eapply stamped_settled; [done|exact H1|by rewrite cached_mark|by apply stamped_mark]. }
  destruct (ge_unchecked e) eqn:Hu; [done|]. apply stamped_insert; [done|]. intros Hr. split; [done|]. intros Hf. rewrite Ho.
  apply (st_accepted _ _ _ _ _ _ H1); [|by rewrite Hf]. by rewrite <- (st_root _ _ _ _ _ _ H1).
Qed.

(** The operations on the cache, the stamps and the files they are read from. *)
Inductive ostep (s : ostate) : ostate → Prop :=
| os_resolve env g : wf_str g → ostep s (resolve_ontology sha256_hex env g s).2
| os_check env retry g : wf_str g → ostep s (check_identity sha256_hex env retry g s).2
| os_clear env g o : wf_str g → ostep s (clear_group_drift env g o s)
| os_reload env g : wf_str g → ostep s (reload_group_ontology sha256_hex env g s).2
| os_forget g : wf_str g → ostep s (forget_group g s)
| os_forget_all : ostep s (forget_everything s)
| os_edit own : ostep s {| o_root := o_root s; o_disk := o_disk s; o_own := own; o_ontology := o_ontology s; o_groups := o_groups s |}
| os_sidecar io g o : ostep s (with_disk (write_group_sidecar sha256_hex io g o (o_disk s)).2 s).
Inductive oreach : ostate → Prop :=
| or_start root d own o : oreach {| o_root := root; o_disk := d; o_own := own; o_ontology := o; o_groups := ∅ |}
| or_step s s' : oreach s → ostep s s' → oreach s'.

Lemma stamped_resolve env g s : wf_str g → stamped s → stamped (resolve_ontology sha256_hex env g s).2.
Proof.
  intros Hg Hs. unfold resolve_ontology. destruct (cached s g) eqn:Hc; [done|].
  destruct (resolve_and_cache _ _ _ _) as [[o e] s'] eqn:H. by eapply stamped_resolve_cache.
Qed.
Lemma stamped_check env retry g s : wf_str g → stamped s → stamped (check_identity sha256_hex env retry g s).2.
Proof.
  intros Hg Hs. unfold check_identity. pose proof (stamped_resolve env g s Hg Hs) as H1.
  destruct (resolve_ontology _ _ _ _) as [o s1]. cbn [snd] in H1. destruct (cached s1 g) eqn:Hc; [done|].
  destruct (check_identity_set _ _ _ _) as [v s2] eqn:H2. cbn [snd]. eapply stamped_settled; [done|by eapply check_set_spec|done|done].
Qed.
Lemma stamped_clear env g o s : wf_str g → stamped s → stamped (clear_group_drift env g o s).
Proof.
  intros Hg Hs. unfold clear_group_drift. destruct (o_groups s !! g) as [[|e]|] eqn:Hc; [| |done].
  - destruct (check_identity_set _ _ _ _) as [[r u] s1] eqn:H1. apply check_set_spec in H1.
    assert (Hst : stamped s1). { eapply stamped_settled; [done|exact H1| |done]. unfold cached. by rewrite Hc. }
    destruct u; [done|]. apply stamped_insert; [done|]. intros Hr. split; [done|]. cbn. intros ->.
    apply (st_accepted _ _ _ _ _ _ H1); [|done]. by rewrite <- (st_root _ _ _ _ _ _ H1).
  - apply stamped_insert; [done|]. intros Hr. apply (Hs g e); [done| |done]. unfold cached. by rewrite Hc.
Qed.
Lemma ostate_eq s s' : o_root s = o_root s' → o_disk s = o_disk s' → o_own s = o_own s' → o_ontology s = o_ontology s' → o_groups s = o_groups s' → s = s'.
Proof. destruct s, s'. cbn. congruence. Qed.
Lemma invalidated_marked s g : mark_group_resolving g (invalidate_group_ontology g s) = with_cache (<[g := Resolving]> (o_groups s)) s.
Proof.
  unfold mark_group_resolving. cbn. rewrite lookup_delete_eq. unfold with_cache. cbn. f_equal. apply insert_delete_eq.
Qed.
(** A reload either leaves everything as it was, or puts in place the entry of the ontology the
    group now resolves to. *)
Lemma reload_cases env g s out s' : reload_group_ontology sha256_hex env g s = (out, s') →
  s' = s ∨
  (ro_unchecked out = None ∧ ∃ e s1, ge_unchecked e = None ∧ ge_ontology e = load_resolved_ontology s g ∧
     settled env g (load_resolved_ontology s g) (with_cache (<[g := Resolving]> (o_groups s)) s) (ge_refusal e, None) s1 ∧
     s' = with_cache (<[g := Resolved e]> (o_groups s1)) s1 ∧
     out = {| ro_previous := content_hash sha256_hex ∘ ge_ontology <$> cached s g; ro_new := content_hash sha256_hex (load_resolved_ontology s g);
              ro_drift := ge_drift e; ro_refusal := ge_refusal e; ro_unchecked := None |}).
Proof.
  unfold reload_group_ontology. destruct (mbind _ (cached s g)) as [prev|]; [by intros [= _ <-]; left|].
  destruct (resolve_and_cache _ _ _ _) as [[o e] s2] eqn:H.
  apply resolve_and_cache_spec in H as (Ho & Heo & s1 & H1 & ->); [|rewrite cached_invalidate; by rewrite decide_True].
  rewrite invalidated_marked in H1. change (load_resolved_ontology (invalidate_group_ontology g s) g) with (load_resolved_ontology s g) in Ho. subst o.
  destruct (ge_unchecked e) as [u|] eqn:Hu.
  - intros [= _ <-]. left. rewrite (st_refused _ _ _ _ _ _ H1) by done. apply ostate_eq; try done. cbn.
    apply map_eq. intros h. destruct (o_groups s !! g) as [st|] eqn:Hg.
    + destruct (decide (g = h)) as [->|Hne]; [by rewrite lookup_insert_eq|by rewrite !lookup_insert_ne].
    + destruct (decide (g = h)) as [->|Hne]; [by rewrite lookup_delete_eq|by rewrite lookup_delete_ne, lookup_insert_ne].
  - rewrite cached_insert, decide_True by done. cbn [default]. intros [= <- <-]. right. cbn. split; [done|].
    exists e, s1. rewrite Heo. by split_and!.
Qed.
Lemma stamped_reload env g s : wf_str g → stamped s → stamped (reload_group_ontology sha256_hex env g s).2.
Proof.
  intros Hg Hs. destruct (reload_group_ontology _ _ _ _) as [out s'] eqn:H. cbn [snd].
  apply reload_cases in H as [->|(_ & e & s1 & Hu & Ho & H1 & -> & _)]; [done|]. apply stamped_insert.
  - eapply stamped_settled; [done|exact H1|unfold cached; cbn; by rewrite lookup_insert_eq|].
    apply (stamped_sub s); [done..| |done]. intros h. unfold cached. cbn. destruct (decide (g = h)) as [->|Hne]; [right; by rewrite lookup_insert_eq|left; by rewrite lookup_insert_ne].
  - intros Hr. split; [done|]. rewrite Ho. intros Hf. apply (st_accepted _ _ _ _ _ _ H1); [|by rewrite Hf].
    cbn. by rewrite (st_root _ _ _ _ _ _ H1) in Hr.
Qed.
Lemma remove_stamp_frame g h d : wf_str g → wf_str h → g ≠ h → read_stamp (remove_stamp g d) h = read_stamp d h.
Proof.
  intros Hg Hh Hne. unfold remove_stamp, read_stamp. destruct (encode_group_dir_name g) as [n|] eqn:Eg; [|done].
  destruct (encode_group_dir_name h) as [m|] eqn:Eh; [|done]. cbn. rewrite lookup_delete_ne; [done|]. intros ->. by apply Hne, (encode_inj g h m).
Qed.
Lemma stamped_step s s' : ostep s s' → stamped s → stamped s'.
Proof.
  intros H Hs. destruct H as [env g Hg|env retry g Hg|env g o Hg|env g Hg|g Hg| |own|io g o].
  - by apply stamped_resolve.
  - by apply stamped_check.
  - by apply stamped_clear.
  - by apply stamped_reload.
  - intros h e Hh Hc Hr. unfold forget_group in Hc. rewrite cached_invalidate in Hc. destruct (decide (g = h)) as [|Hne]; [done|].
    cbn. rewrite remove_stamp_frame by done. by apply (Hs h e).
  - intros h e Hh Hc. unfold cached in Hc. cbn in Hc. by rewrite lookup_empty in Hc.
  - intros h e Hh Hc Hr. by apply (Hs h e).
  - intros h e Hh Hc Hr. change (cached s h = Some e) in Hc. change (o_root s = true) in Hr.
    assert (Hd : read_stamp (write_group_sidecar sha256_hex io g o (o_disk s)).2 h = read_stamp (o_disk s) h).
    { unfold write_group_sidecar. destruct (encode_group_dir_name g), io; done. }
    cbn [with_disk o_disk]. rewrite Hd. by apply Hs.
Qed.
Lemma stamped_reach s : oreach s → stamped s.
Proof.
  induction 1 as [root d own o|s s' _ IH Hst]; [|by eapply stamped_step]. intros g e _ Hc. unfold cached in Hc. cbn in Hc. by rewrite lookup_empty in Hc.
Qed.
End app.

(** ** First resolutions against remediations *)

(** Where a first resolution stands: about to look in the cache, past a miss, past its mark, with
    the drift it computed from the sidecar, over. *)
Inductive rpc := RStart | RMissed | RMarked | RComputed (drift : bool) | RDone.
(** Where a remediation stands: before its sidecar write, before its look at the slot, checking
    the identity set with the lock released, over with the drift cleared, given up (the write
    failed or the check could not run). *)
Inductive mpc := MStart | MWritten | MChecking | MCleared | MGaveUp.
(** One group: its slot in the cache ([Some (Some d)] is resolved with drift [d]), and whether the
    sidecar records the ontology in force. *)
Record race := { slot : option (option bool); recorded : bool; resolvers : list rpc; remediators : list mpc }.
Definition race_at (sl : option (option bool)) (rec : bool) (rs : list rpc) (ms : list mpc) : race :=
  {| slot := sl; recorded := rec; resolvers := rs; remediators := ms |}.
Definition resolved_slot (sl : option (option bool)) : bool := match sl with Some (Some _) => true | _ => false end.
(** One step of some thread; [purges] says whether the group may be deleted meanwhile.
    Source: core/src/app_state.rs 700-730 (clear_group_drift) *)
Inductive race_step (purges : bool) : race → race → Prop :=
| rs_enter sl c rs ms : race_step purges (race_at sl c rs ms) (race_at sl c (rs ++ [RStart]) ms)
| rs_hit sl c rs ms i : rs !! i = Some RStart → resolved_slot sl = true → race_step purges (race_at sl c rs ms) (race_at sl c (<[i := RDone]> rs) ms)
| rs_miss sl c rs ms i : rs !! i = Some RStart → resolved_slot sl = false → race_step purges (race_at sl c rs ms) (race_at sl c (<[i := RMissed]> rs) ms)
| rs_mark sl c rs ms i : rs !! i = Some RMissed →
    race_step purges (race_at sl c rs ms) (race_at (match sl with None => Some None | _ => sl end) c (<[i := RMarked]> rs) ms)
| rs_compute sl c rs ms i : rs !! i = Some RMarked → race_step purges (race_at sl c rs ms) (race_at sl c (<[i := RComputed (negb c)]> rs) ms)
| rs_insert sl c rs ms i d : rs !! i = Some (RComputed d) →
    race_step purges (race_at sl c rs ms) (race_at (if resolved_slot sl then sl else Some (Some d)) c (<[i := RDone]> rs) ms)
| rs_unchecked sl c rs ms i d : rs !! i = Some (RComputed d) → race_step purges (race_at sl c rs ms) (race_at sl c (<[i := RDone]> rs) ms)
| ms_enter sl c rs ms : race_step purges (race_at sl c rs ms) (race_at sl c rs (ms ++ [MStart]))
| ms_write sl c rs ms i : ms !! i = Some MStart → race_step purges (race_at sl c rs ms) (race_at sl true rs (<[i := MWritten]> ms))
| ms_write_fails sl c rs ms i : ms !! i = Some MStart → race_step purges (race_at sl c rs ms) (race_at sl c rs (<[i := MGaveUp]> ms))
| ms_resolved sl c rs ms i p : ms !! i = Some p → (p = MWritten ∨ p = MChecking) → resolved_slot sl = true →
    race_step purges (race_at sl c rs ms) (race_at (Some (Some false)) c rs (<[i := MCleared]> ms))
| ms_absent c rs ms i p : ms !! i = Some p → (p = MWritten ∨ p = MChecking) → race_step purges (race_at None c rs ms) (race_at None c rs (<[i := MCleared]> ms))
| ms_resolving c rs ms i : ms !! i = Some MWritten → race_step purges (race_at (Some None) c rs ms) (race_at (Some None) c rs (<[i := MChecking]> ms))
| ms_upsert c rs ms i : ms !! i = Some MChecking → race_step purges (race_at (Some None) c rs ms) (race_at (Some (Some false)) c rs (<[i := MCleared]> ms))
| ms_unchecked c rs ms i : ms !! i = Some MChecking → race_step purges (race_at (Some None) c rs ms) (race_at (Some None) c rs (<[i := MGaveUp]> ms))
| purge_step sl c rs ms : purges = true → race_step purges (race_at sl c rs ms) (race_at None c rs ms).
Definition race_start (c : bool) : race := race_at None c [] [].

(** What the steps keep, without deletions. *)
Record race_inv (st : race) : Prop := {
  ri_recorded : recorded st = false → ∀ p, p ∈ remediators st → p = MStart ∨ p = MGaveUp;
  ri_absent : slot st = None → RMarked ∉ resolvers st ∧ ∀ d, RComputed d ∉ resolvers st;
  ri_cleared : MCleared ∈ remediators st → slot st = Some (Some false) ∨ (slot st ≠ Some (Some true) ∧ RComputed true ∉ resolvers st);
}.
Lemma elem_insert {A} (l : list A) i x y z : l !! i = Some x → z ∈ <[i := y]> l → z = y ∨ z ∈ l.
Proof.
  intros Hi [j Hj]%list_elem_of_lookup. destruct (decide (i = j)) as [->|Hne].
  - rewrite list_lookup_insert_eq in Hj by by eapply lookup_lt_Some. left. congruence.
  - rewrite list_lookup_insert_ne in Hj by done. right. by eapply list_elem_of_lookup_2.
Qed.
Lemma elem_of_snoc {A} (l : list A) y z : z ∈ l ++ [y] → z = y ∨ z ∈ l.
Proof. rewrite elem_of_app, list_elem_of_singleton. tauto. Qed.
(** Takes apart membership in an updated or extended list. *)
Ltac members := repeat match goal with
  | Hi : @lookup _ _ _ _ ?i ?l = Some _, H : _ ∈ <[?i := _]> ?l |- _ => apply (elem_insert _ _ _ _ _ Hi) in H as [H|H]
  | H : _ ∈ _ ++ [_] |- _ => apply elem_of_snoc in H as [H|H]
  end; try discriminate.
Lemma elem_in {A} (l : list A) i x : l !! i = Some x → x ∈ l.
Proof. apply list_elem_of_lookup_2. Qed.
Lemma recorded_step st st' : race_step false st st' → race_inv st →
  recorded st' = false → ∀ p, p ∈ remediators st' → p = MStart ∨ p = MGaveUp.
Proof.
  intros Hst [Hr _ _]. destruct Hst; cbn in *; try exact Hr; intros Hf q Hq; try discriminate;
    members; try (by apply (Hr Hf)); subst q; try (by left); try (by right).
  all: match goal with H : @lookup _ _ _ _ _ _ = Some ?p |- _ => pose proof (Hr Hf p (elem_in _ _ _ H)) end; naive_solver.
Qed.
Lemma absent_step st st' : race_step false st st' → race_inv st →
  slot st' = None → RMarked ∉ resolvers st' ∧ ∀ d, RComputed d ∉ resolvers st'.
Proof.
  intros Hst [_ Ha _]. destruct Hst; cbn in *; try exact Ha; try done.
  - intros Hn. destruct (Ha Hn) as [H1 H2]. split; [intros Hx|intros d Hx]; members; [by apply H1|by eapply H2].
  - intros ->. done.
  - intros Hn. destruct (Ha Hn) as [H1 H2]. split; [intros Hx|intros d Hx]; members; [by apply H1|by eapply H2].
  - by destruct sl as [[]|].
  - intros Hn. destruct (Ha Hn) as [H1 _]. by apply elem_in in H.
  - destruct sl as [[]|]; [done..|]. done.
  - intros Hn. destruct (Ha Hn) as [_ H2]. apply elem_in in H. by apply H2 in H.
Qed.
Lemma cleared_step st st' : race_step false st st' → race_inv st →
  MCleared ∈ remediators st' → slot st' = Some (Some false) ∨ (slot st' ≠ Some (Some true) ∧ RComputed true ∉ resolvers st').
Proof.
  intros Hst [Hr Ha Hc]. destruct Hst; cbn in *; try (by left); try exact Hc; intros Hm; try (members; by apply Hc).
  all: try (destruct (Hc Hm) as [->|[H1 H2]]; [by left|right; split; [done|intros Hx; members; done]]; fail).
  - destruct (Hc Hm) as [->|[H1 H2]]; [by left|right]. split; [by destruct sl|]. intros Hx. members. done.
  - destruct c.
    + destruct (Hc Hm) as [->|[H1 H2]]; [by left|right]. split; [done|]. intros Hx. members. done.
    + destruct (Hr eq_refl _ Hm); discriminate.
  - destruct (Hc Hm) as [->|[H1 H2]]; [by left|]. destruct d; [by apply elem_in in H|].
    destruct sl as [[[]|]|]; cbn; [done|by left|by left|by left].
  - right. split; [done|]. by apply (Ha eq_refl).
Qed.
Inductive race_reach (purges : bool) : race → Prop :=
| rr_start c : race_reach purges (race_start c)
| rr_step st st' : race_reach purges st → race_step purges st st' → race_reach purges st'.
Lemma race_reach_inv st : race_reach false st → race_inv st.
Proof.
  induction 1 as [c|st st' _ IH Hst]; [split; cbn; intros; by (split; [|intros]; apply not_elem_of_nil) || by (exfalso; eapply not_elem_of_nil)|].
  split; [by eapply recorded_step|by eapply absent_step|by eapply cleared_step].
Qed.

(** A remediation that has cleared a group's drift is final: however first resolutions of the
    group (any number, reading the sidecar before or after it was written) and other
    remediations interleave with it, from then on the cache never holds the group as drifted,
    and no resolution that still believes in the drift can put it there; as long as the group is
    not deleted meanwhile. *)
Theorem cleared_drift_stays_cleared st st' : race_reach false st → MCleared ∈ remediators st → rtc (race_step false) st st' →
  slot st' ≠ Some (Some true) ∧ (slot st' ≠ Some (Some false) → RComputed true ∉ resolvers st').
Proof.
  intros Hr Hm Hs. assert (H : race_reach false st' ∧ MCleared ∈ remediators st').
  { induction Hs as [|st st1 st' Hst _ IH]; [done|]. apply IH; [by eapply rr_step|]. clear IH.
    destruct Hst; cbn in *; try exact Hm; try (apply elem_of_app; by left).
    all: match goal with H : @lookup _ _ _ _ ?i _ = Some ?p |- _ => apply list_elem_of_lookup in Hm as [j Hj]; apply list_elem_of_lookup; exists j;
      destruct (decide (i = j)) as [->|]; [|by rewrite list_lookup_insert_ne] end.
    all: match goal with H : @lookup _ _ _ _ ?j ?l = Some ?p, Hj : @lookup _ _ _ _ ?j ?l = Some MCleared |- _ => rewrite Hj in H; simplify_eq; naive_solver end. }
  destruct H as [Hr' Hm']. destruct (ri_cleared _ (race_reach_inv _ Hr') Hm') as [-> |[H1 H2]]; [done|]. done.
Qed.

(** A resolution that read the old sidecar, a remediation that found it under way. *)
Definition race_midway : race := race_at (Some (Some false)) true [RComputed true] [MCleared].
Lemma race_midway_reached purges : race_reach purges race_midway.
Proof.
  assert (H0 : race_reach purges (race_at None false [] [])) by apply rr_start.
  assert (H1 : race_reach purges (race_at None false [RStart] [])) by exact (rr_step _ _ _ H0 (rs_enter _ None false [] [])).
  assert (H2 : race_reach purges (race_at None false [RMissed] [])) by exact (rr_step _ _ _ H1 (rs_miss _ None false [RStart] [] 0 eq_refl eq_refl)).
  assert (H3 : race_reach purges (race_at (Some None) false [RMarked] [])) by exact (rr_step _ _ _ H2 (rs_mark _ None false [RMissed] [] 0 eq_refl)).
  assert (H4 : race_reach purges (race_at (Some None) false [RComputed true] [])) by exact (rr_step _ _ _ H3 (rs_compute _ (Some None) false [RMarked] [] 0 eq_refl)).
  assert (H5 : race_reach purges (race_at (Some None) false [RComputed true] [MStart])) by exact (rr_step _ _ _ H4 (ms_enter _ (Some None) false [RComputed true] [])).
  assert (H6 : race_reach purges (race_at (Some None) true [RComputed true] [MWritten])) by exact (rr_step _ _ _ H5 (ms_write _ (Some None) false [RComputed true] [MStart] 0 eq_refl)).
  assert (H7 : race_reach purges (race_at (Some None) true [RComputed true] [MChecking])) by exact (rr_step _ _ _ H6 (ms_resolving _ true [RComputed true] [MWritten] 0 eq_refl)).
  exact (rr_step _ _ _ H7 (ms_upsert _ true [RComputed true] [MChecking] 0 eq_refl)).
Qed.
Lemma cleared_drift_stays_cleared_witness : slot (race_at (Some (Some false)) true [RDone] [MCleared]) ≠ Some (Some true).
Proof.
  apply (cleared_drift_stays_cleared race_midway).
  - apply race_midway_reached.
  - left.
  - apply rtc_once. exact (rs_insert _ (Some (Some false)) true [RComputed true] [MCleared] 0 true eq_refl).
Defined.

(** Deleting the group reopens the race: a resolution that read the old sidecar before the
    deletion caches the drift after a later remediation has cleared it. *)
Theorem purge_reopens_drift_race : race_reach true (race_at (Some (Some true)) true [RDone] [MCleared]).
Proof.
  assert (H0 : race_reach true (race_at None false [] [])) by apply rr_start.
  assert (H1 : race_reach true (race_at None false [RStart] [])) by exact (rr_step _ _ _ H0 (rs_enter _ None false [] [])).
  assert (H2 : race_reach true (race_at None false [RMissed] [])) by exact (rr_step _ _ _ H1 (rs_miss _ None false [RStart] [] 0 eq_refl eq_refl)).
  assert (H3 : race_reach true (race_at (Some None) false [RMarked] [])) by exact (rr_step _ _ _ H2 (rs_mark _ None false [RMissed] [] 0 eq_refl)).
  assert (H4 : race_reach true (race_at (Some None) false [RComputed true] [])) by exact (rr_step _ _ _ H3 (rs_compute _ (Some None) false [RMarked] [] 0 eq_refl)).
  assert (H5 : race_reach true (race_at None false [RComputed true] [])) by exact (rr_step _ _ _ H4 (purge_step _ (Some None) false [RComputed true] [] eq_refl)).
  assert (H6 : race_reach true (race_at None false [RComputed true] [MStart])) by exact (rr_step _ _ _ H5 (ms_enter _ None false [RComputed true] [])).
  assert (H7 : race_reach true (race_at None true [RComputed true] [MWritten])) by exact (rr_step _ _ _ H6 (ms_write _ None false [RComputed true] [MStart] 0 eq_refl)).
  assert (H8 : race_reach true (race_at None true [RComputed true] [MCleared])) by exact (rr_step _ _ _ H7 (ms_absent _ true [RComputed true] [MWritten] 0 MWritten eq_refl (or_introl eq_refl))).
  exact (rr_step _ _ _ H8 (rs_insert _ None true [RComputed true] [MCleared] 0 true eq_refl)).
Qed.

(** ** The guards *)

(** C21. Whatever was done before, and however often the database or the disk fails: when the check
    of a group's identity passes, the group's stamp is exactly the identity set of the ontology the
    group runs under; when it does not, the stamp is as it was; the stamp only ever changes by
    labels that no entity of the group carries; and no other group's stamp changes. *)
Theorem identity_guard sha256_hex env retry g s r s' :
  oreach sha256_hex s → wf_str g → o_root s = true → check_identity sha256_hex env retry g s = (r, s') →
  (r = Ok tt → read_stamp (o_disk s') g = Ok (idset (peek_or_load_ontology g s'))) ∧
  (r ≠ Ok tt → read_stamp (o_disk s') g = read_stamp (o_disk s) g) ∧
  (∀ old new l, read_stamp (o_disk s) g = Ok old → read_stamp (o_disk s') g = Ok new → ¬ (l ∈ old ↔ l ∈ new) →
     ∃ db, (oe_db env = Some (Ok db) ∨ oe_db retry = Some (Ok db)) ∧ count_carriers db g l = Ok 0%N) ∧
  (∀ h, wf_str h → g ≠ h → read_stamp (o_disk s') h = read_stamp (o_disk s) h).
Proof.
  intros Hreach Hg Hroot Hc. pose proof (stamped_check sha256_hex env retry g s Hg (stamped_reach _ _ Hreach)) as Hst.
  rewrite Hc in Hst. cbn [snd] in Hst. unfold check_identity in Hc.
  (* the two checks, from the state marked as resolving *)
  assert (Hlabel : ∀ ev o s0 v s1, settled ev g o s0 v s1 → o_disk s0 = o_disk s → ∀ old new l, read_stamp (o_disk s) g = Ok old →
    read_stamp (o_disk s1) g = Ok new → ¬ (l ∈ old ↔ l ∈ new) → ∃ db, oe_db ev = Some (Ok db) ∧ count_carriers db g l = Ok 0%N).
  { intros ev o s0 v s1 H Hd old new l Ho Hn Hl. destruct (st_stamp _ _ _ _ _ _ H) as [->|(old' & db & H1 & H2 & H3 & H4)]; [rewrite Hd, Ho in Hn; injection Hn as ->; by destruct Hl|].
    rewrite Hd, Ho in H1. injection H1 as <-. rewrite Hn in H2. injection H2 as ->. exists db. split; [done|]. apply H4. destruct (decide (l ∈ old)), (decide (l ∈ idset o)); tauto. }
  unfold resolve_ontology in Hc. destruct (cached s g) as [e|] eqn:Hcs.
  - rewrite Hcs in Hc. injection Hc as <- <-. split_and!; [| |intros old new l Ho Hn Hl; rewrite Ho in Hn; injection Hn as ->; by destruct Hl|done].
    + destruct (ge_refusal e) eqn:Hf; [done|]. intros _. unfold peek_or_load_ontology. rewrite Hcs. by apply (Hst g e).
    + by destruct (ge_refusal e).
  - destruct (resolve_and_cache _ _ _ _) as [[o e] s1] eqn:H1. apply resolve_and_cache_spec in H1 as (Ho & Heo & s0 & H0 & ->); [|done].
    destruct (mark_same s g) as [Hmr Hmd].
    destruct (ge_unchecked e) as [u|] eqn:Hu.
    + rewrite (st_refused _ _ _ _ _ _ H0) in Hc by done. rewrite cached_mark, Hcs in Hc.
      destruct (check_identity_set _ _ _ _) as [v s2] eqn:H2. apply check_set_spec in H2. injection Hc as <- <-.
      split_and!.
      * destruct v as [[r|] [reason|]]; try done. intros _. unfold peek_or_load_ontology.
        rewrite (cached_settled _ _ _ _ _ _ g H2), cached_mark, Hcs.
        rewrite (st_accepted _ _ _ _ _ _ H2) by (done || by rewrite Hmr). f_equal. f_equal.
        unfold load_resolved_ontology. by rewrite (st_root _ _ _ _ _ _ H2), (st_own _ _ _ _ _ _ H2), (st_ontology _ _ _ _ _ _ H2).
      * intros Hr. rewrite (st_refused _ _ _ _ _ _ H2); [by rewrite Hmd|]. intros ->. done.
      * intros old new l Hol Hn Hl. destruct (Hlabel _ _ _ _ _ H2 Hmd old new l Hol Hn Hl) as (db & ? & ?). exists db. auto.
      * intros h Hh Hne. rewrite (st_frame _ _ _ _ _ _ H2) by done. by rewrite Hmd.
    + rewrite cached_insert, decide_True in Hc by done. injection Hc as <- <-. split_and!.
      * destruct (ge_refusal e) eqn:Hf; [done|]. intros _. unfold peek_or_load_ontology. rewrite cached_insert, decide_True by done.
        apply (Hst g e); [done|by rewrite cached_insert, decide_True| |done]. cbn. by rewrite (st_root _ _ _ _ _ _ H0), Hmr.
      * intros Hr. cbn. destruct (ge_refusal e) eqn:Hf; [|done]. rewrite (st_refused _ _ _ _ _ _ H0) by done. by rewrite Hmd.
      * intros old new l Hol Hn Hl. destruct (Hlabel _ _ _ _ _ H0 Hmd old new l Hol Hn Hl) as (db & ? & ?). exists db. auto.
      * intros h Hh Hne. cbn. rewrite (st_frame _ _ _ _ _ _ H0) by done. by rewrite Hmd.
Qed.

(** Reloading a group's ontology is all or nothing: when the identity check cannot be made the
    whole state is exactly what it was; so it is when the ontology is unchanged; otherwise the
    group runs under what its files now say, checked against the stamp, and the outcome reports
    that entry.  No other group is touched. *)
Theorem reload_all_or_nothing sha256_hex env g s out s' : reload_group_ontology sha256_hex env g s = (out, s') →
  (ro_unchecked out ≠ None → s' = s) ∧
  (cached_ontology_hash sha256_hex g s = Some (content_hash sha256_hex (load_resolved_ontology s g)) → s' = s) ∧
  (s' ≠ s → ∃ e, cached s' g = Some e ∧ ge_ontology e = load_resolved_ontology s g ∧ ge_unchecked e = None ∧
     ro_new out = content_hash sha256_hex (load_resolved_ontology s g) ∧ ro_refusal out = ge_refusal e ∧ ro_drift out = ge_drift e ∧
     (o_root s = true → ge_refusal e = None → read_stamp (o_disk s') g = Ok (idset (load_resolved_ontology s g))) ∧
     (ge_refusal e ≠ None → d_stamps (o_disk s') = d_stamps (o_disk s))) ∧
  (∀ h, g ≠ h → o_groups s' !! h = o_groups s !! h).
Proof.
  intros H. split_and!.
  - intros Hu. apply reload_cases in H as [->|(Hu' & _)]; [done|]. by rewrite Hu' in Hu.
  - intros Heq. unfold reload_group_ontology in H. unfold cached_ontology_hash in Heq.
    destruct (cached s g) as [e|]; [|done]. injection Heq as Heq. cbn [mbind option_bind] in H.
    rewrite bool_decide_eq_true_2 in H by done. by injection H as _ <-.
  - intros Hne. apply reload_cases in H as [->|(Hu' & e & s1 & Hu & Ho & H1 & -> & ->)]; [done|].
    exists e. rewrite cached_insert, decide_True by done. cbn. split_and!; try done.
    + intros Hr Hf. apply (st_accepted _ _ _ _ _ _ H1); [done|by rewrite Hf].
    + intros Hf. rewrite (st_refused _ _ _ _ _ _ H1); [done|]. intros [=]. done.
  - intros h Hne. apply reload_cases in H as [->|(_ & e & s1 & _ & _ & H1 & -> & _)]; [done|]. cbn.
    rewrite lookup_insert_ne by done. rewrite (st_groups _ _ _ _ _ _ H1). cbn. by rewrite lookup_insert_ne.
Qed.

Definition toy_type (name : string) (identity : bool) : EntityTypeDef :=
  {| et_name := lit name; et_description := None; et_parent := None; et_identity := identity; et_extract := true |}.
Definition toy_onto (types : list EntityTypeDef) : Ontology := {| mode := Open; entity_types := types; relation_types := []; ancestor_map := ∅ |}.
Definition toy_hash (bs : bytes) : str := bs.
Definition toy_ostate : ostate :=
  {| o_root := true; o_disk := {| d_stamps := ∅; d_groups := ∅; d_workspace := None; d_published := ∅ |};
     o_own _ := Some (toy_onto [toy_type "Person" true; toy_type "City" false]); o_ontology := None; o_groups := ∅ |}.
(** Nobody is a [Person] yet. *)
Definition toy_env : oenv := {| oe_db := Some (Ok {| count_episodics _ := Ok 3%N; count_carriers _ l := Ok (if bool_decide (l = #"Person") then 0 else 5)%N |}); oe_stamp_io := None |}.
Definition toy_checked : ostate := (check_identity toy_hash toy_env toy_env #"g" toy_ostate).2.
Lemma identity_guard_witness : read_stamp (o_disk toy_checked) #"g" = Ok [ #"Person"].
Proof.
  refine (proj1 (identity_guard toy_hash toy_env toy_env #"g" toy_ostate (Ok tt) toy_checked _ _ _ _) eq_refl).
  - apply or_start.
  - apply ascii_wf. reflexivity.
  - reflexivity.
  - vm_compute. reflexivity.
Defined.
(** A second check under an ontology that also marks [City] is refused: cities exist. *)
Definition toy_edited : ostate :=
  {| o_root := true; o_disk := o_disk toy_checked; o_own _ := Some (toy_onto [toy_type "Person" true; toy_type "City" true]); o_ontology := None; o_groups := o_groups toy_checked |}.
Definition toy_reloaded : ReloadOutcome * ostate := reload_group_ontology toy_hash toy_env #"g" toy_edited.
Lemma reload_all_or_nothing_witness :
  ∃ e, cached toy_reloaded.2 #"g" = Some e ∧ ge_refusal e = Some {| ir_label := #"City"; ir_count := 5; ir_adding := true |} ∧
    read_stamp (o_disk toy_reloaded.2) #"g" = Ok [ #"Person"].
Proof.
  destruct (reload_all_or_nothing toy_hash toy_env #"g" toy_edited toy_reloaded.1 toy_reloaded.2) as (_ & _ & H & _); [vm_compute; reflexivity|].
  destruct H as (e & He & _); [intros Heq; apply (f_equal (λ s, ge_refusal <$> cached s #"g")) in Heq; vm_compute in Heq; discriminate|].
  exists e. split; [exact He|]. split; [|vm_compute; reflexivity].
  assert (Hr : Some (ge_refusal e) = Some (Some {| ir_label := #"City"; ir_count := 5; ir_adding := true |})); [|by injection Hr].
  change (ge_refusal <$> Some e = Some (Some {| ir_label := #"City"; ir_count := 5; ir_adding := true |})). rewrite <- He. vm_compute. reflexivity.
Defined.
