(* ===== verification/CrossGroup.v ===== *)
(** * CrossGroup: edges across groups and the re-binding of their pointers
    (core/src/cross_group.rs)

    A pass visits the edges whose attributes carry pointers, resolves the pointers that name the
    source group, and brings each edge's hops, attributes and direct relation in line, or
    invalidates it when it would become a self-loop or a duplicate.  The mutations of each edge
    are drained into the bucket of the edge's own group. *)

From S2P Require Import Prelude Text Numbers Json WalScan Wal LegacyWal Replay Pointer Prompts Graph.

(** Source: core/src/cross_group.rs 24-24 (UNRESOLVED) *)
Definition UNRESOLVED : str := [].
(** Source: core/src/cross_group.rs 28-41 (EndpointSpec) *)
Inductive EndpointSpec :=
| SUuid (uuid : str)
| SForeign (source_group_id endpoint_name : str) (kind : option str).
(** Source: core/src/cross_group.rs 44-55 (CreateCrossGroupEdgeParams) *)
Record CreateCrossGroupEdgeParams := { cp_name : str; cp_source : EndpointSpec; cp_target : EndpointSpec; cp_group_id : str }.

Section cross.
Context {U : Unicode} {AC : AttrCodec} (db_lower : str → str) (ts_text : N → str).
(** Each group's applied position. *)
Context (applied : str → option N).

Definition is_merged (e : ent) : bool := bool_decide (#"Merged" ∈ en_labels e).

(** The loop: every step visits a uuid that is new and in the table, so one more step than there
    are rows is enough; [None] is out of fuel.
    Source: core/src/cross_group.rs 157-174 (follow_merged_into_chain) *)
Fixpoint follow_go (fuel : nat) (g : graph) (group_id : str) (visited : list str) (current : ent) : option (option ent) :=
  match fuel with
  | O => None
  | S fuel =>
      match read_merged_into (en_attrs current) with
      | None => Some None
      | Some target =>
          if bool_decide (target ∈ visited) then Some None
          else
            match get_entity_by_uuid g target with
            | None => Some None
            | Some next =>
                if negb (bool_decide (en_group next = group_id)) then Some None
                else if negb (is_merged next) then Some (Some next)
                else follow_go fuel g group_id (target :: visited) next
            end
      end
  end.
(** Source: core/src/cross_group.rs 149-175 (follow_merged_into_chain) *)
Definition follow_merged_into_chain (g : graph) (group_id : str) (start : ent) : option ent :=
  default None (follow_go (S (length (g_ents g))) g group_id [en_uuid start] start).

(** Source: core/src/cross_group.rs 102-137 (resolve_endpoint_kind) *)
Definition resolve_endpoint_kind (source_group_id endpoint_name : str) (kind : option str) (g : graph) :
    (BindingState * option str) * graph :=
  let '(winners, g) :=
    match kind with
    | Some k => let '(r, g) := get_entity_by_name_ci_with_scan_fallback endpoint_name source_group_id k g in (option_list r, g)
    | None => resolve_entities_by_name_any_kind ts_text endpoint_name source_group_id g
    end in
  match winners with
  | [] => ((Unbound, None), g)
  | [winner] =>
      if (1 <? count_active_entities_by_name_ci db_lower g endpoint_name source_group_id (Some (kind_of winner)))%N
      then ((Ambiguous, None), g)
      else if negb (is_merged winner) then ((Bound, Some (en_uuid winner)), g)
      else match follow_merged_into_chain g source_group_id winner with
           | Some canonical => ((Bound, Some (en_uuid canonical)), g)
           | None => ((Unbound, None), g)
           end
  | _ => ((Ambiguous, None), g)
  end.
(** Source: core/src/cross_group.rs 84-90 (resolve_endpoint) *)
Definition resolve_endpoint (source_group_id endpoint_name : str) (g : graph) :=
  resolve_endpoint_kind source_group_id endpoint_name None g.

(** Source: core/src/cross_group.rs 181-239 (resolve_side) *)
Definition resolve_side (spec : EndpointSpec) (edge_group_id : str) (g : graph) :
    result Error (option str * option CrossGroupPointer) * graph :=
  match spec with
  | SUuid uuid =>
      match get_entity_by_uuid g uuid with
      | None => (Err (Ipc (Msg "cross-group edge endpoint {uuid} does not exist" [AStr uuid])), g)
      | Some entity =>
          if negb (bool_decide (en_group entity = edge_group_id))
          then (Err (Ipc (Msg "endpoint {uuid} belongs to group, foreign to this edge's own group" [AStr uuid; AStr (en_group entity); AStr edge_group_id])), g)
          else (Ok (Some uuid, None), g)
      end
  | SForeign sgid name kind =>
      if negb (nonempty (trim sgid)) || negb (nonempty (trim name))
      then (Err (Ipc (Msg "cross-group edge endpoint requires non-empty source_group_id and endpoint_name" [])), g)
      else
        let normalized := normalize_name name in
        match match kind with None => Ok None | Some k => rmap Some (normalize_kind (Some k)) end with
        | Err e => (Err e, g)
        | Ok endpoint_kind =>
            let '((state, uuid), g) := resolve_endpoint_kind sgid normalized endpoint_kind g in
            (Ok (uuid, Some {| source_group_id := sgid; endpoint_name := normalized; endpoint_kind := endpoint_kind;
                               resolved_uuid := uuid; bound_at_seq := applied sgid; binding_state := state |}), g)
        end
  end.

Definition opt_set (side : EndpointSide) (x : option CrossGroupPointer) (p : CrossGroupPointers) : CrossGroupPointers :=
  match x with Some x => ptr_set side x p | None => p end.
(** [uuid] is the edge's fresh identifier.
    Source: core/src/cross_group.rs 247-284 (create_cross_group_edge) *)
Definition create_cross_group_edge (uuid : str) (params : CreateCrossGroupEdgeParams) (g : graph) :
    result Error (str * str) * graph :=
  match resolve_side (cp_source params) (cp_group_id params) g with
  | (Err e, g) => (Err e, g)
  | (Ok (source_uuid, src_pointer), g) =>
      match resolve_side (cp_target params) (cp_group_id params) g with
      | (Err e, g) => (Err e, g)
      | (Ok (target_uuid, dst_pointer), g) =>
          let attributes := write_pointers #"{}" (opt_set Dst dst_pointer (opt_set Src src_pointer no_pointers)) in
          let src := default UNRESOLVED source_uuid in
          let dst := default UNRESOLVED target_uuid in
          (Ok (src, dst), insert_cross_group_edge uuid (cp_name params) (cp_group_id params) attributes src dst g)
      end
  end.

(** ** Re-binding *)

(** Source: core/src/cross_group.rs 289-302 (RebindCounts) *)
Record RebindCounts := {
  checked : N; bound : N; unbound : N; ambiguous : N;
  invalidated_self_loop : N; invalidated_duplicate : N; staleness_skipped : N;
}.
Definition zero_counts : RebindCounts :=
  {| checked := 0; bound := 0; unbound := 0; ambiguous := 0; invalidated_self_loop := 0; invalidated_duplicate := 0; staleness_skipped := 0 |}.
Definition add_counts (a b : RebindCounts) : RebindCounts :=
  {| checked := add64 (checked a) (checked b); bound := add64 (bound a) (bound b); unbound := add64 (unbound a) (unbound b);
     ambiguous := add64 (ambiguous a) (ambiguous b); invalidated_self_loop := add64 (invalidated_self_loop a) (invalidated_self_loop b);
     invalidated_duplicate := add64 (invalidated_duplicate a) (invalidated_duplicate b);
     staleness_skipped := add64 (staleness_skipped a) (staleness_skipped b) |}.
Definition one_checked : RebindCounts :=
  {| checked := 1; bound := 0; unbound := 0; ambiguous := 0; invalidated_self_loop := 0; invalidated_duplicate := 0; staleness_skipped := 0 |}.
Definition one_skipped : RebindCounts :=
  {| checked := 0; bound := 0; unbound := 0; ambiguous := 0; invalidated_self_loop := 0; invalidated_duplicate := 0; staleness_skipped := 1 |}.
Definition one_self_loop : RebindCounts :=
  {| checked := 0; bound := 0; unbound := 0; ambiguous := 0; invalidated_self_loop := 1; invalidated_duplicate := 0; staleness_skipped := 0 |}.
Definition one_duplicate : RebindCounts :=
  {| checked := 0; bound := 0; unbound := 0; ambiguous := 0; invalidated_self_loop := 0; invalidated_duplicate := 1; staleness_skipped := 0 |}.
Definition one_state (s : BindingState) : RebindCounts :=
  {| checked := 0; bound := if bool_decide (s = Bound) then 1 else 0; unbound := if bool_decide (s = Unbound) then 1 else 0;
     ambiguous := if bool_decide (s = Ambiguous) then 1 else 0; invalidated_self_loop := 0; invalidated_duplicate := 0; staleness_skipped := 0 |}.

(** Source: core/src/cross_group.rs 405-410 (SideResolution) *)
Record SideResolution := { sr_side : EndpointSide; sr_existing : CrossGroupPointer; sr_state : BindingState; sr_uuid : option str }.

(** The gate: a bound pointer checked at or past the group's position is left alone.
    Source: core/src/cross_group.rs 419-428 (rebind_pointers_impl) *)
Definition fresh (force : bool) (current_seq : option N) (p : CrossGroupPointer) : bool :=
  negb force && bool_decide (binding_state p = Bound)
  && match bound_at_seq p, current_seq with Some b, Some c => (c <=? b)%N | _, _ => false end.
(** Source: core/src/cross_group.rs 412-442 (rebind_pointers_impl) *)
Definition resolve_one (force : bool) (source : str) (current_seq : option N) (side : EndpointSide) (pointers : CrossGroupPointers) (g : graph) :
    list SideResolution * RebindCounts * graph :=
  match ptr_get side pointers with
  | None => ([], zero_counts, g)
  | Some existing =>
      if negb (bool_decide (source_group_id existing = source)) then ([], zero_counts, g)
      else if fresh force current_seq existing then ([], one_skipped, g)
      else
        let '((state, uuid), g) := resolve_endpoint_kind source (endpoint_name existing) (endpoint_kind existing) g in
        ([{| sr_side := side; sr_existing := existing; sr_state := state; sr_uuid := uuid |}], one_checked, g)
  end.

(** Both sides in turn.
    Source: core/src/cross_group.rs 411-442 (rebind_pointers_impl) *)
Definition resolve_sides (force : bool) (source : str) (current_seq : option N) (pointers : CrossGroupPointers) (g : graph) :
    list SideResolution * RebindCounts * graph :=
  let '(r1, c1, g) := resolve_one force source current_seq Src pointers g in
  let '(r2, c2, g) := resolve_one force source current_seq Dst pointers g in
  (r1 ++ r2, add_counts c1 c2, g).

(** The pair the edge would connect.
    Source: core/src/cross_group.rs 464-471 (rebind_pointers_impl) *)
Definition prospective (rs : list SideResolution) (actual : str * str) : str * str :=
  foldl (λ p r, match sr_side r with
                | Src => (default [] (sr_uuid r), p.2)
                | Dst => (p.1, default [] (sr_uuid r))
                end) actual rs.
(** Source: core/src/cross_group.rs 483-485 (rebind_pointers_impl) *)
Definition any_changed (rs : list SideResolution) : bool :=
  existsb (λ r, negb (bool_decide (sr_uuid r = resolved_uuid (sr_existing r)))) rs.

(** One side's hop, brought in line with its resolution; whether anything was written.
    Source: core/src/cross_group.rs 511-530 (rebind_pointers_impl) *)
Definition apply_hop (rn : str) (actual : str * str) (r : SideResolution) (g : graph) : bool * graph :=
  let actual_uuid := match sr_side r with Src => actual.1 | Dst => actual.2 end in
  let hop_present := nonempty actual_uuid in
  let matches :=
    match sr_uuid r with
    | Some u => hop_present && bool_decide (actual_uuid = u)
    | None => negb hop_present
    end in
  if matches then (false, g)
  else
    (true,
     if bool_decide (sr_state r = Bound) then
       let g := if hop_present then delete_relates_to_hop rn (sr_side r) g else g in
       create_relates_to_hop rn (sr_side r) (default [] (sr_uuid r)) g
     else if hop_present then delete_relates_to_hop rn (sr_side r) g else g).
Definition new_pointer (current_seq : option N) (r : SideResolution) : CrossGroupPointer :=
  {| source_group_id := source_group_id (sr_existing r); endpoint_name := endpoint_name (sr_existing r);
     endpoint_kind := endpoint_kind (sr_existing r); resolved_uuid := sr_uuid r; bound_at_seq := current_seq;
     binding_state := sr_state r |}.
(** Source: core/src/cross_group.rs 509-549 (rebind_pointers_impl) *)
Fixpoint apply_all (rn : str) (current_seq : option N) (actual : str * str) (rs : list SideResolution) (p : CrossGroupPointers) (g : graph) :
    bool * CrossGroupPointers * RebindCounts * graph :=
  match rs with
  | [] => (false, p, zero_counts, g)
  | r :: rs =>
      let '(changed, g) := apply_hop rn actual r g in
      let '(changed', p, c, g) := apply_all rn current_seq actual rs (ptr_set (sr_side r) (new_pointer current_seq r) p) g in
      (changed || changed', p, add_counts (one_state (sr_state r)) c, g)
  end.
(** Source: core/src/cross_group.rs 554-570 (rebind_pointers_impl) *)
Definition resync_direct (rn : str) (g : graph) : graph :=
  let g := delete_relates_to_direct rn g in
  match current_hops g rn with
  | Some (src, dst) => if nonempty src && nonempty dst then create_relates_to_direct rn src dst g else g
  | None => g
  end.

(** What is done with an edge once its sides are resolved.
    Source: core/src/cross_group.rs 447-570 (rebind_pointers_impl) *)
Definition settle_candidate (ts : str) (current_seq : option N) (cand : str * str * str * str) (pointers : CrossGroupPointers)
    (rs : list SideResolution) (g : graph) : RebindCounts * graph :=
  let '(rn, rname, rgroup, attrs) := cand in
  let actual := default ([], []) (current_hops g rn) in
  let p := prospective rs actual in
  let both_resolved := nonempty p.1 && nonempty p.2 in
  if any_changed rs && both_resolved && bool_decide (p.1 = p.2) then (one_self_loop, invalidate_edge rn ts g)
  else if any_changed rs && both_resolved && has_directed_edge g p.1 p.2 rname rgroup then (one_duplicate, invalidate_edge rn ts g)
  else
    let '(hop_changed, pointers, c, g) := apply_all rn current_seq actual rs pointers g in
    let g := update_relates_to_attributes rn (write_pointers attrs pointers) g in
    (c, if hop_changed then resync_direct rn g else g).
(** Source: core/src/cross_group.rs 399-573 (rebind_pointers_impl) *)
Definition rebind_candidate (force : bool) (source ts : str) (current_seq : option N) (cand : str * str * str * str)
    (grouped : GroupedMutations) (g : graph) : RebindCounts * GroupedMutations * graph :=
  let '(rn, rname, rgroup, attrs) := cand in
  let pointers := read_pointers attrs in
  let '(rs, c, g) := resolve_sides force source current_seq pointers g in
  match rs with
  | [] => (c, grouped, g)
  | _ =>
      let '(c', g) := settle_candidate ts current_seq cand pointers rs g in
      let '(grouped, g) := drain_mutations_into rgroup grouped g in
      (add_counts c c', grouped, g)
  end.
(** The loop over the candidates.
    Source: core/src/cross_group.rs 399-399 (rebind_pointers_impl) *)
Fixpoint rebind_all (force : bool) (source ts : str) (current_seq : option N) (cands : list (str * str * str * str))
    (grouped : GroupedMutations) (g : graph) : RebindCounts * GroupedMutations * graph :=
  match cands with
  | [] => (zero_counts, grouped, g)
  | cand :: cands =>
      let '(c, grouped, g) := rebind_candidate force source ts current_seq cand grouped g in
      let '(c', grouped, g) := rebind_all force source ts current_seq cands grouped g in
      (add_counts c c', grouped, g)
  end.
(** Source: core/src/cross_group.rs 382-576 (rebind_pointers_impl) *)
Definition rebind_pointers_impl (force : bool) (source ts : str) (g : graph) : RebindCounts * GroupedMutations * graph :=
  rebind_all force source ts (applied source) (list_cross_group_pointer_candidates g) ∅ g.
(** Source: core/src/cross_group.rs 352-358 (rebind_pointers) *)
Definition rebind_pointers := rebind_pointers_impl false.
(** Source: core/src/cross_group.rs 374-380 (rebind_pointers_forced) *)
Definition rebind_pointers_forced := rebind_pointers_impl true.
End cross.
