(* ===== verification/CrossGroupTheory.v ===== *)
(** * CrossGroupTheory: the laws of name resolution and of the re-binding of pointers *)

From S2P Require Import Prelude Text Numbers Json WalScan Wal LegacyWal Replay Pointer Prompts Graph CrossGroup.

(** ** Healing leaves everything but kinds and keys *)

Record heal_of (e e' : ent) : Prop := {
  ho_uuid : en_uuid e' = en_uuid e; ho_name : en_name e' = en_name e; ho_group : en_group e' = en_group e;
  ho_labels : en_labels e' = en_labels e; ho_created : en_created e' = en_created e; ho_attrs : en_attrs e' = en_attrs e;
}.
Definition is_heal (group_id : str) (m : str * gmut) : Prop := m.1 = group_id ∧ ∃ u, m.2 = MHeal u.
Record healed (group_id : str) (g g' : graph) : Prop := {
  hd_ents : Forall2 heal_of (g_ents g) (g_ents g');
  hd_eps : g_eps g' = g_eps g;
  hd_rels : g_rels g' = g_rels g;
  hd_direct : g_direct g' = g_direct g;
  hd_pending : ∃ ms, g_pending g' = g_pending g ++ ms ∧ Forall (is_heal group_id) ms;
}.
Global Instance heal_of_refl : Reflexive heal_of.
Proof. by split. Qed.
Global Instance heal_of_trans : Transitive heal_of.
Proof. intros a b c [] []. split; congruence. Qed.
Global Instance heal_of_pre : PreOrder heal_of.
Proof. split; apply _. Qed.
Global Instance healed_refl gid : Reflexive (healed gid).
Proof. intros g. split; try done. by exists []; rewrite app_nil_r. Qed.
Global Instance healed_trans gid : Transitive (healed gid).
Proof.
  intros a b c [] []. split; try congruence; [by etrans|].
  destruct hd_pending0 as (m1 & H1 & ?), hd_pending1 as (m2 & H2 & ?).
  exists (m1 ++ m2). rewrite H2, H1, app_assoc. split; [done|]. by apply Forall_app.
Qed.

Lemma healed_uuids gid g g' : healed gid g g' → en_uuid <$> g_ents g' = en_uuid <$> g_ents g.
Proof.
  intros [H _ _ _ _]. induction H as [|e e' l l' [Hu _ _ _ _ _] _ IH]; [done|]. cbn. by rewrite Hu, IH.
Qed.

(** ** Lookups *)

Lemma get_entity_spec g u e :
  NoDup (en_uuid <$> g_ents g) → get_entity_by_uuid g u = Some e ↔ e ∈ g_ents g ∧ en_uuid e = u.
Proof.
  unfold get_entity_by_uuid. rewrite find_first_omap. generalize (g_ents g) as l. intros l.
  induction l as [|a l IH]; cbn; intros Hn.
  - split; [done|]. intros [H _]. by apply elem_of_nil in H.
  - apply NoDup_cons in Hn as [Ha Hn]. case_bool_decide as Hau; cbn.
    + split.
      * intros [= <-]. split; [left|done].
      * intros [[->|Hin]%elem_of_cons Hu]; [done|]. destruct Ha. rewrite Hau, <- Hu. by apply list_elem_of_fmap_2.
    + rewrite IH by done. rewrite elem_of_cons. naive_solver.
Qed.
Lemma has_entity_spec g u : has_entity g u = true ↔ u ∈ en_uuid <$> g_ents g.
Proof.
  unfold has_entity, get_entity_by_uuid. rewrite bool_decide_eq_true, find_first_omap.
  generalize (g_ents g) as l. intros l. induction l as [|a l IH]; cbn.
  - split; [by intros []|]. intros H. by apply elem_of_nil in H.
  - rewrite elem_of_cons. case_bool_decide as Hau; cbn; [|rewrite IH; naive_solver].
    split; [by left|done].
Qed.
Lemma healed_entity gid g g' u e :
  NoDup (en_uuid <$> g_ents g) → healed gid g g' → get_entity_by_uuid g u = Some e →
  ∃ e', get_entity_by_uuid g' u = Some e' ∧ heal_of e e'.
Proof.
  intros Hn Hh. pose proof (healed_uuids _ _ _ Hh) as Hu. destruct Hh as [Hf _ _ _ _].
  rewrite get_entity_spec by done. intros [Hin He]. apply list_elem_of_lookup in Hin as [i Hi].
  apply (Forall2_lookup_l _ _ _ _ _ Hf) in Hi as (e' & Hi' & Hoe). exists e'. split; [|done].
  rewrite get_entity_spec by congruence. split; [by eapply list_elem_of_lookup_2|]. rewrite <- He. apply Hoe.
Qed.

Lemma filter_elem {A} (P : A → bool) l x : x ∈ List.filter P l ↔ x ∈ l ∧ P x = true.
Proof. rewrite !list_elem_of_In. apply filter_In. Qed.
Lemma head_elem {A} (l : list A) x : head l = Some x → x ∈ l.
Proof. destruct l; [done|]. intros [= ->]. left. Qed.
Lemma sort_by_elem {A} (le : A → A → bool) l x : x ∈ sort_by le l ↔ x ∈ l.
Proof. by rewrite sort_by_perm. Qed.

Section lookup.
Context {U : Unicode}.

Lemma self_heal_healed row g : healed (en_group row) g (self_heal_lookup_key row g).
Proof.
  split; try done.
  - unfold self_heal_lookup_key, record_mut, with_ents. cbn [g_ents]. apply Forall2_fmap_r.
    apply Forall_Forall2_diag.
    apply Forall_true. intros e. cbv beta delta [compose]. by case_bool_decide.
  - cbn. eexists. split; [done|]. constructor; [|done]. split; [done|]. by eexists.
Qed.
Lemma register_healed gid k g : healed gid g (register_kind k g).
Proof. split; try done. by exists []; rewrite app_nil_r. Qed.
Lemma count_scan_healed gid g : healed gid g (count_scan g).
Proof. split; try done. by exists []; rewrite app_nil_r. Qed.

(** The rows a lookup of a name may answer with. *)
Definition named (name group_id : str) (e : ent) : Prop := en_group e = group_id ∧ folded (en_name e) = folded name.

Lemma verified_spec name gid kind e : verified name gid kind e = true ↔ named name gid e ∧ kind_of e = kind.
Proof. unfold verified, named. rewrite !andb_true_iff, !bool_decide_eq_true. naive_solver. Qed.
Lemma probe_sound g name gid kind e :
  probe g name gid kind = Some e → e ∈ g_ents g ∧ named name gid e ∧ kind_of e = kind.
Proof.
  unfold probe, get_entity_by_name_ci. intros H. apply bind_Some in H as (x & Hx & H).
  destruct (verified name gid kind x) eqn:Hv; [|done]. injection H as ->.
  apply head_elem, sort_by_elem, filter_elem in Hx as [Hx _]. split; [done|]. by apply verified_spec.
Qed.
Lemma scan_rows_same g (l : list ent) : NoDup (en_uuid <$> g_ents g) → (∀ e, e ∈ l → e ∈ g_ents g) →
  omap (λ e, get_entity_by_uuid g (en_uuid e)) l = l.
Proof.
  intros Hn. induction l as [|a l IH]; intros Hl; [done|]. cbn.
  assert (Ha : get_entity_by_uuid g (en_uuid a) = Some a) by (apply get_entity_spec; [done|]; split; [|done]; apply Hl; left).
  rewrite Ha. f_equal. apply IH. intros e He. apply Hl. by right.
Qed.
Lemma scan_spec g name gid kind :
  NoDup (en_uuid <$> g_ents g) →
  scan_entities_by_name_ci g name gid kind =
    (match kind with Some _ => take 1 | None => id end)
      (List.filter (λ e, bool_decide (folded (en_name e) = folded name)
                         && match kind with Some k => bool_decide (kind_of e = k) | None => true end)
         (sort_by ent_leb (List.filter (λ e, bool_decide (en_group e = gid)) (g_ents g)))).
Proof.
  intros Hn. unfold scan_entities_by_name_ci. rewrite scan_rows_same; [by destruct kind|done|].
  intros e [He _]%filter_elem. apply sort_by_elem, filter_elem in He. tauto.
Qed.
Lemma scan_none_elem g name gid e :
  NoDup (en_uuid <$> g_ents g) → e ∈ scan_entities_by_name_ci g name gid None ↔ e ∈ g_ents g ∧ named name gid e.
Proof.
  intros Hn. rewrite scan_spec by done. unfold id. rewrite filter_elem, sort_by_elem, filter_elem.
  rewrite andb_true_r, !bool_decide_eq_true. unfold named. tauto.
Qed.
Lemma head_filter_none {A} (P : A → bool) l : head (List.filter P l) = None ↔ ∀ x, x ∈ l → P x = false.
Proof.
  induction l as [|a l IH]; cbn; [split; [|done]; intros _ x Hx; by apply elem_of_nil in Hx|].
  destruct (P a) eqn:Ha; cbn.
  - split; [done|]. intros H. rewrite (H a) in Ha by left. done.
  - rewrite IH. split; [|intros H x Hx; apply H; by right].
    intros H x [->|Hx]%elem_of_cons; [done|by apply H].
Qed.
Lemma scan_some_head g name gid kind :
  NoDup (en_uuid <$> g_ents g) →
  match head (scan_entities_by_name_ci g name gid (Some kind)) with
  | Some e => e ∈ g_ents g ∧ named name gid e ∧ kind_of e = kind
  | None => ∀ e, e ∈ g_ents g → named name gid e → kind_of e ≠ kind
  end.
Proof.
  intros Hn. rewrite scan_spec by done.
  set (l := sort_by _ _). set (P := λ e : ent, _).
  replace (head (take 1 (List.filter P l))) with (head (List.filter P l)) by by destruct (List.filter P l).
  destruct (head (List.filter P l)) as [e|] eqn:He.
  - apply head_elem, filter_elem in He as [Hin HP]. unfold l in Hin. rewrite sort_by_elem, filter_elem, bool_decide_eq_true in Hin.
    unfold P in HP. rewrite andb_true_iff, !bool_decide_eq_true in HP. unfold named. tauto.
  - intros e Hin [Hg Hf] Hk. rewrite head_filter_none in He. specialize (He e). unfold P in He.
    rewrite !bool_decide_eq_true_2 in He by done. enough (true = false) by done. apply He.
    unfold l. rewrite sort_by_elem, filter_elem, bool_decide_eq_true. done.
Qed.

Lemma authority_healed name gid kind g r g' :
  NoDup (en_uuid <$> g_ents g) →
  get_entity_by_name_ci_with_scan_fallback name gid kind g = (r, g') →
  healed gid g g' ∧
  match r with
  | Some e => e ∈ g_ents g ∧ named name gid e ∧ kind_of e = kind
  | None => ∀ e, e ∈ g_ents g → named name gid e → kind_of e ≠ kind
  end.
Proof.
  intros Hn. unfold get_entity_by_name_ci_with_scan_fallback.
  destruct (probe g name gid kind) as [row|] eqn:Hp.
  - intros [= <- <-]. split; [done|]. by apply probe_sound.
  - pose proof (scan_some_head (count_scan g) name gid kind Hn) as Hs. cbn zeta.
    intros [= <- <-]. split; [|exact Hs].
    destruct (head _) as [e|]; [|apply count_scan_healed].
    etrans; [apply count_scan_healed|]. destruct Hs as (_ & [<- _] & _). apply self_heal_healed.
Qed.

Lemma heal_rows_spec gid rows : ∀ seen g out g',
  Forall (λ e, en_group e = gid) rows → heal_rows rows seen g = (out, g') →
  healed gid g g' ∧ out ⊆ rows ∧ (out = [] → ∀ e, e ∈ rows → kind_of e ∈ seen).
Proof.
  induction rows as [|row rows IH]; cbn [heal_rows]; intros seen g out g' Hg.
  - intros [= <- <-]. split; [done|]. split; [done|]. intros _ e He. by apply elem_of_nil in He.
  - apply Forall_cons in Hg as [Hr Hg].
    assert (Hh : healed gid g (register_kind (kind_of row) (self_heal_lookup_key row g))).
    { etrans; [|apply register_healed]. rewrite <- Hr. apply self_heal_healed. }
    case_bool_decide as Hk.
    + intros H. apply IH in H as (? & ? & He); [|done]. split; [by etrans|]. split; [set_solver|].
      intros Ho e [->|Hin]%elem_of_cons; auto.
    + destruct (heal_rows rows _ _) as [o g1] eqn:H. intros [= <- <-]. apply IH in H as (? & ? & _); [|done].
      split; [by etrans|]. split; [set_solver|done].
Qed.
Lemma any_kind_spec ts_text name gid g out g' :
  NoDup (en_uuid <$> g_ents g) →
  resolve_entities_by_name_any_kind ts_text name gid g = (out, g') →
  healed gid g g' ∧ (∀ e, e ∈ out → e ∈ g_ents g ∧ named name gid e) ∧
  (out = [] → ∀ e, e ∈ g_ents g → ¬ named name gid e).
Proof.
  intros Hn. unfold resolve_entities_by_name_any_kind.
  destruct (omap (probe g name gid) (g_kinds g)) as [|p ps] eqn:Ho.
  - destruct (heal_rows _ _ _) as [o g1] eqn:Hh. intros [= <- <-].
    apply (heal_rows_spec gid) in Hh as (Hh & Hsub & Hnil).
    2: { apply list.Forall_forall. intros e He. by apply scan_none_elem in He as (_ & ? & _). }
    split; [by etrans; [apply count_scan_healed|]|]. split.
    + intros e He%sort_by_elem. apply Hsub in He. by apply scan_none_elem in He.
    + intros He e Hin Hnm. apply (f_equal length) in He. rewrite sort_by_perm in He.
      apply nil_length_inv in He. specialize (Hnil He e). rewrite scan_none_elem in Hnil by done.
      eapply not_elem_of_nil, Hnil; done.
  - intros [= <- <-]. split; [done|]. split.
    + intros e He. apply (sort_by_elem (row_leb ts_text) (p :: ps)) in He. rewrite <- Ho in He. apply list_elem_of_omap in He as (k & _ & Hp).
      apply probe_sound in Hp. tauto.
    + intros He. apply (f_equal length) in He. rewrite (sort_by_perm (row_leb ts_text) (p :: ps)) in He. done.
Qed.
End lookup.

(** ** The forwarding chain *)

Section chain.
Context {U : Unicode} {AC : AttrCodec}.

(** One step of the chain. *)
Definition forwards (g : graph) (e e' : ent) : Prop :=
  ∃ t, read_merged_into (en_attrs e) = Some t ∧ get_entity_by_uuid g t = Some e'.

Lemma follow_go_sound g gid : ∀ fuel visited cur e,
  follow_go fuel g gid visited cur = Some (Some e) →
  rtc (forwards g) cur e ∧ is_merged e = false ∧ en_group e = gid ∧ get_entity_by_uuid g (en_uuid e) = Some e.
Proof.
  induction fuel as [|fuel IH]; intros visited cur e; [done|]. cbn [follow_go].
  destruct (read_merged_into (en_attrs cur)) as [t|] eqn:Hr; [|done].
  destruct (bool_decide (t ∈ visited)); [done|].
  destruct (get_entity_by_uuid g t) as [nx|] eqn:Hg; [|done].
  case_bool_decide as Hgr; [|done]. cbn [negb].
  assert (Hf : forwards g cur nx) by by exists t.
  destruct (is_merged nx) eqn:Hm; cbn [negb].
  - intros H. apply IH in H as (? & ?). split; [by eapply rtc_l|done].
  - intros [= <-]. split; [by apply rtc_once|]. split; [done|]. split; [done|].
    replace (en_uuid nx) with t; [done|]. revert Hg. unfold get_entity_by_uuid. rewrite find_first_omap.
    intros Hh%head_elem. apply list_elem_of_omap in Hh as (x & _ & Hx). case_bool_decide; congruence.
Qed.

(** Enough fuel: a step only goes to a uuid of the table that was not visited. *)
Lemma follow_go_total g gid : ∀ fuel visited cur,
  (length (List.filter (λ u, negb (bool_decide (u ∈ visited))) (en_uuid <$> g_ents g)) < fuel)%nat →
  is_Some (follow_go fuel g gid visited cur).
Proof.
  induction fuel as [|fuel IH]; intros visited cur Hlt; [lia|]. cbn [follow_go].
  destruct (read_merged_into (en_attrs cur)) as [t|]; [|by eexists].
  case_bool_decide as Hv; [by eexists|].
  destruct (get_entity_by_uuid g t) as [nx|] eqn:Hg; [|by eexists].
  case_bool_decide; [|by eexists]. cbn [negb]. destruct (is_merged nx); [|by eexists]. cbn [negb].
  apply IH. assert (Ht : t ∈ en_uuid <$> g_ents g).
  { apply has_entity_spec. unfold has_entity. by rewrite Hg. }
  eapply Nat.lt_le_trans; [|apply Nat.lt_succ_r, Hlt].
  clear - Ht Hv. revert Ht. generalize (en_uuid <$> g_ents g) as l. intros l.
  assert (Hle : ∀ l : list str, (length (List.filter (λ u, negb (bool_decide (u ∈ t :: visited))) l)
                     ≤ length (List.filter (λ u, negb (bool_decide (u ∈ visited))) l))%nat).
  { clear l. induction l as [|a l IH]; [done|]. cbn. repeat case_bool_decide; cbn; try lia. set_solver. }
  induction l as [|a l IH]; intros Ht; [by apply elem_of_nil in Ht|]. cbn.
  specialize (Hle l). apply elem_of_cons in Ht as [->|Ht].
  - rewrite (bool_decide_eq_true_2 (a ∈ a :: visited)) by left. rewrite (bool_decide_eq_false_2 _ Hv). cbn. lia.
  - specialize (IH Ht). repeat case_bool_decide; cbn; try lia. set_solver.
Qed.
Lemma follow_chain_total g gid start :
  is_Some (follow_go (S (length (g_ents g))) g gid [en_uuid start] start).
Proof.
  apply follow_go_total. apply Nat.lt_succ_r. etrans; [apply filter_length_le|]. by rewrite length_fmap.
Qed.
End chain.

(** ** Resolution *)

Section resolution.
Context {U : Unicode} {AC : AttrCodec} (db_lower : str → str) (ts_text : N → str).
Abbreviation resolve := (resolve_endpoint_kind db_lower ts_text).

(** What a resolved identifier stands for: reached by forwarding from a row of the name, of the
    asserted kind, and present, unmerged and in the group. *)
Definition resolves_to (g g' : graph) (sg name : str) (kind : option str) (u : str) : Prop :=
  ∃ w x e, w ∈ g_ents g ∧ named name sg w ∧ (∀ k, kind = Some k → kind_of w = k) ∧
    rtc (forwards g') w x ∧ en_uuid x = u ∧ get_entity_by_uuid g' u = Some e ∧ heal_of x e ∧
    is_merged e = false ∧ en_group e = sg.

Lemma resolve_spec sg name kind g st u g' :
  NoDup (en_uuid <$> g_ents g) → resolve sg name kind g = ((st, u), g') →
  healed sg g g' ∧ match u with Some v => st = Bound ∧ resolves_to g g' sg name kind v | None => st ≠ Bound end.
Proof.
  intros Hn. unfold resolve_endpoint_kind.
  assert (∃ ws g1, (match kind with
      | Some k => let '(r, g) := get_entity_by_name_ci_with_scan_fallback name sg k g in (option_list r, g)
      | None => resolve_entities_by_name_any_kind ts_text name sg g end) = (ws, g1) ∧ healed sg g g1 ∧
      ∀ w, w ∈ ws → w ∈ g_ents g ∧ named name sg w ∧ (∀ k, kind = Some k → kind_of w = k)) as (ws & g1 & -> & Hh & Hws).
  { destruct kind as [k|].
    - destruct (get_entity_by_name_ci_with_scan_fallback name sg k g) as [r g1] eqn:Hl. eexists _, _. split; [done|].
      apply authority_healed in Hl as [Hh Hr]; [|done]. split; [done|]. intros w Hw. destruct r as [e|]; [|by apply elem_of_nil in Hw].
      apply list_elem_of_singleton in Hw as ->. destruct Hr as (? & ? & <-). split; [done|]. split; [done|]. by intros ? [= ->].
    - destruct (resolve_entities_by_name_any_kind ts_text name sg g) as [o g1] eqn:Hl. eexists _, _. split; [done|].
      apply any_kind_spec in Hl as (Hh & Ho & _); [|done]. split; [done|]. intros w Hw. destruct (Ho w Hw). done. }
  destruct ws as [|w [|? ?]]; try (by intros [= <- <- <-]).
  destruct (Hws w) as (Hw & Hnm & Hk); [left|].
  destruct (1 <? _)%N; [by intros [= <- <- <-]|].
  destruct (is_merged w) eqn:Hm; cbn [negb].
  - destruct (follow_merged_into_chain g1 sg w) as [e|] eqn:Hf; intros [= <- <- <-]; [|done].
    split; [done|]. split; [done|]. unfold follow_merged_into_chain in Hf.
    destruct (follow_go _ _ _ _ _) as [o|] eqn:Hgo; [|done]. cbn in Hf. subst o.
    apply follow_go_sound in Hgo as (? & ? & ? & ?). by exists w, e, e.
  - intros [= <- <- <-]. split; [done|]. split; [done|].
    destruct (healed_entity sg g g1 (en_uuid w) w) as (e & He & Hoe); [done..|by apply get_entity_spec|].
    exists w, w, e. do 4 (split; [done|]). split; [done|]. split; [done|]. split; [done|]. split.
    + unfold is_merged in *. by rewrite (ho_labels _ _ Hoe).
    + rewrite (ho_group _ _ Hoe). apply Hnm.
Qed.

(** Nothing is found in a group without entities. *)
Lemma resolve_empty sg name kind g :
  (∀ e, e ∈ g_ents g → en_group e ≠ sg) → resolve sg name kind g = ((Unbound, None), count_scan g).
Proof.
  intros He.
  assert (Hp : ∀ k, probe g name sg k = None).
  { intros k. destruct (probe g name sg k) as [e|] eqn:Hp; [|done]. apply probe_sound in Hp as (Hin & [Hg _] & _). by destruct (He e). }
  assert (Hs : ∀ k, scan_entities_by_name_ci (count_scan g) name sg k = []).
  { intros k. unfold scan_entities_by_name_ci. replace (List.filter _ (g_ents (count_scan g))) with (@nil ent); [by destruct k|].
    cbn. generalize He. generalize (g_ents g) as l. clear. intros l. induction l as [|a l IH]; intros H; [done|]. cbn.
    rewrite bool_decide_eq_false_2 by (apply H; left). apply IH. intros e Hin. apply H. by right. }
  unfold resolve_endpoint_kind. destruct kind as [k|].
  - unfold get_entity_by_name_ci_with_scan_fallback. rewrite Hp. cbn zeta. by rewrite Hs.
  - unfold resolve_entities_by_name_any_kind.
    assert (Ho : omap (probe g name sg) (g_kinds g) = []).
    { generalize (g_kinds g) as ks. intros ks. induction ks as [|k ks IH]; [done|]. cbn. by rewrite Hp. }
    rewrite Ho. cbn zeta. by rewrite Hs.
Qed.
End resolution.

(** ** One edge of the table *)

(** [r] is the only edge with its uuid. *)
Record focus (g : graph) (pre : list relnode) (r : relnode) (post : list relnode) : Prop := {
  fo_rels : g_rels g = pre ++ r :: post;
  fo_pre : rn_uuid r ∉ rn_uuid <$> pre;
  fo_post : rn_uuid r ∉ rn_uuid <$> post;
}.
(** Only that edge, direct relations, scans and the log may differ, the new log entries being on
    rows of the group [o]. *)
Record touched (o : str) (g g' : graph) (pre : list relnode) (r' : relnode) (post : list relnode) : Prop := {
  to_focus : focus g' pre r' post;
  to_ents : g_ents g' = g_ents g;
  to_eps : g_eps g' = g_eps g;
  to_pending : ∃ ms, g_pending g' = g_pending g ++ ms ∧ Forall (λ m, m.1 = o) ms;
}.

Lemma focus_find {A} g pre r post (f : relnode → A) :
  focus g pre r post →
  find_first (λ x, if bool_decide (rn_uuid x = rn_uuid r) then Some (f x) else None) (g_rels g) = Some (f r).
Proof.
  intros [-> Hp _]. rewrite find_first_app.
  assert (Hn : find_first (λ x, if bool_decide (rn_uuid x = rn_uuid r) then Some (f x) else None) pre = None).
  { induction pre as [|a l IH]; [done|]. cbn in *. rewrite not_elem_of_cons in Hp. destruct Hp as [Ha Hp].
    rewrite bool_decide_eq_false_2 by done. by apply IH. }
  rewrite Hn. cbn. by rewrite bool_decide_eq_true_2.
Qed.
Lemma map_other (u : str) (f : relnode → relnode) (l : list relnode) :
  u ∉ rn_uuid <$> l → (λ x, if bool_decide (rn_uuid x = u) then f x else x) <$> l = l.
Proof.
  induction l as [|a l IH]; [done|]. cbn. rewrite not_elem_of_cons. intros [Ha Hl].
  rewrite bool_decide_eq_false_2 by done. by rewrite IH.
Qed.
Lemma on_rel_focus g pre r post f :
  focus g pre r post → rn_uuid (f r) = rn_uuid r → focus (on_rel (rn_uuid r) f g) pre (f r) post.
Proof.
  intros [Hr Hp Hq] Hu. split; rewrite ?Hu; [|done..]. unfold on_rel. cbn. rewrite Hr, fmap_app, fmap_cons.
  rewrite !map_other by done. by rewrite bool_decide_eq_true_2.
Qed.
Lemma current_hops_focus g pre r post :
  focus g pre r post → current_hops g (rn_uuid r) = Some (default [] (head (rn_srcs r)), default [] (head (rn_dsts r))).
Proof. apply (focus_find g pre r post (λ r, (default [] (head (rn_srcs r)), default [] (head (rn_dsts r))))). Qed.
Lemma rel_group_focus g pre r post : focus g pre r post → rel_group g (rn_uuid r) = rn_group r.
Proof. intros Hf. unfold rel_group. by rewrite (focus_find g pre r post rn_group). Qed.

Lemma touched_refl o g pre r post : focus g pre r post → touched o g g pre r post.
Proof. split; try done. exists []. by rewrite app_nil_r. Qed.
Lemma touched_trans o g1 g2 g3 pre r2 r3 post :
  touched o g1 g2 pre r2 post → touched o g2 g3 pre r3 post → touched o g1 g3 pre r3 post.
Proof.
  intros [_ He Hp (m1 & H1 & F1)] [Hf He' Hp' (m2 & H2 & F2)]. split; [done|congruence..|].
  exists (m1 ++ m2). rewrite H2, H1, app_assoc. split; [done|]. by apply Forall_app.
Qed.
(** A logged change of the edge. *)
Lemma edge_mut_touched g pre r post (f : graph → graph) r' :
  focus g pre r post → focus (f g) pre r' post → rn_uuid r' = rn_uuid r → rn_group r' = rn_group r →
  g_ents (f g) = g_ents g → g_eps (f g) = g_eps g → g_pending (f g) = g_pending g →
  touched (rn_group r) g (edge_mut (rn_uuid r) (f g)) pre r' post.
Proof.
  intros _ Hf' Hu Hg He Hp Hpd. unfold edge_mut. split; cbn [g_rels g_ents g_eps g_pending record_mut].
  - by destruct Hf'.
  - done.
  - done.
  - eexists. rewrite Hpd. split; [done|]. constructor; [|done]. cbn.
    rewrite <- Hu. by rewrite (rel_group_focus _ _ _ _ Hf').
Qed.
Lemma on_rel_touched g pre r post f :
  focus g pre r post → rn_uuid (f r) = rn_uuid r → rn_group (f r) = rn_group r →
  touched (rn_group r) g (edge_mut (rn_uuid r) (on_rel (rn_uuid r) f g)) pre (f r) post.
Proof. intros Hf Hu Hg. apply (edge_mut_touched g pre r post); try done. by apply on_rel_focus. Qed.

Lemma invalidate_touched g pre r post ts :
  focus g pre r post →
  touched (rn_group r) g (invalidate_edge (rn_uuid r) ts g) pre
    {| rn_uuid := rn_uuid r; rn_name := rn_name r; rn_group := rn_group r; rn_attrs := rn_attrs r;
       rn_invalid := Some ts; rn_srcs := rn_srcs r; rn_dsts := rn_dsts r |} post.
Proof.
  intros Hf. unfold invalidate_edge.
  set (f := λ r, {| rn_uuid := rn_uuid r; rn_name := rn_name r; rn_group := rn_group r; rn_attrs := rn_attrs r;
                    rn_invalid := Some ts; rn_srcs := rn_srcs r; rn_dsts := rn_dsts r |}).
  pose proof (on_rel_touched g pre r post f Hf eq_refl eq_refl) as Ht. eapply touched_trans; [exact Ht|].
  change (rn_uuid r) with (rn_uuid (f r)) at 1. change (rn_group r) with (rn_group (f r)) at 1.
  apply (edge_mut_touched _ pre (f r) post id); try done; apply Ht.
Qed.
Lemma set_attrs_touched g pre r post attrs :
  focus g pre r post →
  touched (rn_group r) g (update_relates_to_attributes (rn_uuid r) attrs g) pre
    {| rn_uuid := rn_uuid r; rn_name := rn_name r; rn_group := rn_group r; rn_attrs := attrs;
       rn_invalid := rn_invalid r; rn_srcs := rn_srcs r; rn_dsts := rn_dsts r |} post.
Proof. intros Hf. by apply (on_rel_touched g pre r post). Qed.
Lemma delete_hop_touched g pre r post side :
  focus g pre r post → touched (rn_group r) g (delete_relates_to_hop (rn_uuid r) side g) pre (set_hops side [] r) post.
Proof. intros Hf. by apply (on_rel_touched g pre r post). Qed.
Lemma set_hops_same side r : set_hops side (hops side r) r = r.
Proof. by destruct r, side. Qed.
Lemma create_hop_touched g pre r post side u :
  focus g pre r post → has_entity g u = true →
  touched (rn_group r) g (create_relates_to_hop (rn_uuid r) side u g) pre
    (if bool_decide (u ∈ hops side r) then r else set_hops side (hops side r ++ [u]) r) post.
Proof.
  intros Hf Hu. unfold create_relates_to_hop. rewrite Hu.
  pose proof (on_rel_touched g pre r post (λ r, if bool_decide (u ∈ hops side r) then r else set_hops side (hops side r ++ [u]) r) Hf) as H.
  apply H; by case_bool_decide.
Qed.
Lemma resync_touched g pre r post :
  focus g pre r post → touched (rn_group r) g (resync_direct (rn_uuid r) g) pre r post.
Proof.
  intros Hf. unfold resync_direct.
  assert (H1 : touched (rn_group r) g (delete_relates_to_direct (rn_uuid r) g) pre r post).
  { unfold delete_relates_to_direct. apply (edge_mut_touched g pre r post (λ g, with_direct _ g)); try done. by destruct Hf. }
  cbn zeta. rewrite (current_hops_focus _ pre r post) by apply H1.
  destruct (nonempty _ && nonempty _); [|done]. eapply touched_trans; [exact H1|].
  unfold create_relates_to_direct.
  match goal with |- context [if ?b then _ else _] => destruct b end.
  - apply (edge_mut_touched _ pre r post (λ g, with_direct _ g)); try done; [apply H1|]. destruct H1 as [[] _ _ _]. done.
  - apply (edge_mut_touched _ pre r post id); try done; apply H1.
Qed.

(** ** One candidate *)

Definition hop_ok (r : relnode) : Prop := ∀ side, (length (hops side r) ≤ 1)%nat ∧ [] ∉ hops side r.
Definition first_hop (side : EndpointSide) (actual : str * str) : str := match side with Src => actual.1 | Dst => actual.2 end.
Definition hops_of (r : relnode) : str * str := (default [] (head (rn_srcs r)), default [] (head (rn_dsts r))).
Lemma first_hop_of side r : first_hop side (hops_of r) = default [] (head (hops side r)).
Proof. by destruct side. Qed.
Definition with_attrs (attrs : str) (r : relnode) : relnode :=
  {| rn_uuid := rn_uuid r; rn_name := rn_name r; rn_group := rn_group r; rn_attrs := attrs;
     rn_invalid := rn_invalid r; rn_srcs := rn_srcs r; rn_dsts := rn_dsts r |}.
Definition with_invalid (ts : str) (r : relnode) : relnode :=
  {| rn_uuid := rn_uuid r; rn_name := rn_name r; rn_group := rn_group r; rn_attrs := rn_attrs r;
     rn_invalid := Some ts; rn_srcs := rn_srcs r; rn_dsts := rn_dsts r |}.
(** A resolution is well formed: bound exactly when it has an identifier, which is an entity. *)
Definition res_ok (g : graph) (x : SideResolution) : Prop :=
  match sr_uuid x with
  | Some u => sr_state x = Bound ∧ has_entity g u = true
  | None => sr_state x ≠ Bound
  end.
Definition set_res (r : relnode) (x : SideResolution) : relnode := set_hops (sr_side x) (option_list (sr_uuid x)) r.

Lemma nonempty_false s : nonempty s = false ↔ s = [].
Proof. by destruct s. Qed.
Lemma set_hops_twice side a b r : set_hops side a (set_hops side b r) = set_hops side a r.
Proof. by destruct side. Qed.
Lemma hops_set_hops side side' l r : hops side' (set_hops side l r) = if bool_decide (side = side') then l else hops side' r.
Proof. by destruct side, side'. Qed.

Lemma apply_hop_touched g pre r post actual x ch g' :
  focus g pre r post → hop_ok r → res_ok g x → first_hop (sr_side x) actual = default [] (head (hops (sr_side x) r)) →
  apply_hop (rn_uuid r) actual x g = (ch, g') → touched (rn_group r) g g' pre (set_res r x) post.
Proof.
  intros Hf Hok Hx Ha. unfold apply_hop. change (match sr_side x with Src => actual.1 | Dst => actual.2 end) with (first_hop (sr_side x) actual).
  rewrite Ha. destruct (Hok (sr_side x)) as [Hl Hn]. unfold set_res, res_ok in *.
  remember (sr_side x) as side eqn:Hs. clear Hs.
  assert (Hcase : hops side r = [] ∨ ∃ v, hops side r = [v] ∧ nonempty v = true).
  { destruct (hops side r) as [|v [|? ?]]; [by left| |cbn in Hl; lia]. right. exists v. split; [done|].
    destruct v; [|done]. destruct Hn. left. }
  assert (Hsame : ∀ l, hops side r = l → touched (rn_group r) g g pre (set_hops side l r) post).
  { intros l <-. rewrite set_hops_same. by apply touched_refl. }
  destruct (sr_uuid x) as [u|]; cbn [option_list].
  - destruct Hx as [Hb Hu]. rewrite (bool_decide_eq_true_2 (sr_state x = Bound)) by done. destruct Hcase as [Hh|(v & Hh & Hv)]; rewrite Hh; cbn [head default].
    + intros [= <- <-]. pose proof (create_hop_touched g pre r post side u Hf Hu) as H. by rewrite Hh in H.
    + cbn [from_option id]. rewrite Hv. cbn [andb]. case_bool_decide as Hvu.
      * intros [= <- <-]. apply Hsame. by rewrite Hh, Hvu.
      * intros [= <- <-]. eapply touched_trans; [by apply delete_hop_touched|].
        pose proof (delete_hop_touched g pre r post side Hf) as Hd.
        assert (Hu' : has_entity (delete_relates_to_hop (rn_uuid r) side g) u = true).
        { unfold has_entity, get_entity_by_uuid in *. by rewrite (to_ents _ _ _ _ _ _ Hd). }
        pose proof (create_hop_touched _ pre (set_hops side [] r) post side u (to_focus _ _ _ _ _ _ Hd) Hu') as H.
        rewrite hops_set_hops, (bool_decide_eq_true_2 (side = side)), set_hops_twice in H by done. exact H.
  - rewrite (bool_decide_eq_false_2 (sr_state x = Bound)) by done. destruct Hcase as [Hh|(v & Hh & Hv)]; rewrite Hh; cbn [head default from_option id nonempty negb].
    + intros [= <- <-]. by apply Hsame.
    + rewrite Hv. intros [= <- <-]. by apply delete_hop_touched.
Qed.

Lemma set_res_ok r x : hop_ok r → sr_uuid x ≠ Some [] → hop_ok (set_res r x).
Proof.
  intros Hok Hx side. unfold set_res. rewrite hops_set_hops. case_bool_decide; [|apply Hok].
  destruct (sr_uuid x) as [u|]; cbn; [|by split; [lia|apply not_elem_of_nil]]. split; [lia|].
  intros Hs%list_elem_of_singleton. congruence.
Qed.
Lemma apply_all_touched rn seq actual rs : ∀ g pre r post p ch p' c g',
  rn = rn_uuid r → focus g pre r post → hop_ok r → Forall (res_ok g) rs → NoDup (sr_side <$> rs) →
  Forall (λ x, sr_uuid x ≠ Some []) rs →
  Forall (λ x, first_hop (sr_side x) actual = default [] (head (hops (sr_side x) r))) rs →
  apply_all rn seq actual rs p g = (ch, p', c, g') →
  touched (rn_group r) g g' pre (foldl set_res r rs) post ∧
  p' = foldl (λ p x, ptr_set (sr_side x) (new_pointer seq x) p) p rs.
Proof.
  induction rs as [|x rs IH]; intros g pre r post p ch p' c g' Hrn Hf Hok Hr Hnd Hne Ha; cbn [apply_all foldl].
  - intros [= <- <- <- <-]. split; [|done]. by apply touched_refl.
  - destruct (apply_hop rn actual x g) as [ch1 g1] eqn:H1. subst rn.
    destruct (apply_all _ _ _ _ _ g1) as [[[ch2 p2] c2] g2] eqn:H2. intros [= <- <- <- <-].
    apply Forall_cons in Hr as [Hx Hr], Hne as [Hnx Hne], Ha as [Hax Ha]. rewrite fmap_cons in Hnd. apply NoDup_cons in Hnd as [Hsx Hnd].
    apply (apply_hop_touched g pre r post) in H1; try done.
    apply (IH g1 pre (set_res r x) post) in H2 as [H2 ->]; try done.
    + split; [|done]. eapply touched_trans; [exact H1|exact H2].
    + apply H1.
    + by apply set_res_ok.
    + eapply Forall_impl; [exact Hr|]. intros y. unfold res_ok, has_entity, get_entity_by_uuid.
      by rewrite (to_ents _ _ _ _ _ _ H1).
    + rewrite list.Forall_forall in Ha |- *. intros y Hy. rewrite (Ha y Hy). unfold set_res.
      rewrite hops_set_hops. rewrite bool_decide_eq_false_2; [done|]. intros He. destruct Hsx. rewrite He. by apply list_elem_of_fmap_2.
Qed.

(** Every mutation of every bucket satisfies [P] of the bucket's group. *)
Definition bucket_ok (P : str → str * gmut → Prop) (grouped : GroupedMutations) : Prop :=
  ∀ o ms, grouped !! o = Some ms → Forall (P o) ms.
Lemma bucket_ok_empty P : bucket_ok P ∅.
Proof. intros o ms. by rewrite lookup_empty. Qed.
Lemma add_bucket_ok P o ms grouped : bucket_ok P grouped → Forall (P o) ms → bucket_ok P (add_bucket o ms grouped).
Proof.
  intros Hb Hm o' ms'. unfold add_bucket. destruct (decide (o = o')) as [<-|Hne].
  - rewrite lookup_insert_eq. intros [= <-]. apply Forall_app. split; [|done].
    destruct (grouped !! o) as [old|] eqn:Ho; [by eapply Hb|constructor].
  - rewrite lookup_insert_ne by done. apply Hb.
Qed.
Lemma drain_ok P o grouped grouped' g g' :
  drain_mutations_into o grouped g = (grouped', g') → bucket_ok P grouped → Forall (P o) (g_pending g) → bucket_ok P grouped'.
Proof.
  unfold drain_mutations_into. intros [= <- _] Hb Hp. destruct (g_pending g); [done|]. by apply add_bucket_ok.
Qed.

Definition ents_ok (g : graph) : Prop := NoDup (en_uuid <$> g_ents g) ∧ [] ∉ en_uuid <$> g_ents g.
Lemma healed_ents_ok gid g g' : healed gid g g' → ents_ok g → ents_ok g'.
Proof. intros H [? ?]. pose proof (healed_uuids _ _ _ H) as Hu. unfold ents_ok. by rewrite Hu. Qed.
Lemma healed_has gid g g' u : healed gid g g' → has_entity g' u = has_entity g u.
Proof. intros H. apply eq_true_iff_eq. by rewrite !has_entity_spec, (healed_uuids _ _ _ H). Qed.

Section candidate.
Context {U : Unicode} {AC : AttrCodec} (db_lower : str → str) (ts_text : N → str).

(** What a pass found for one pointer: the resolution of its name, taken at some point of the
    healing the pass performs. *)
Definition justified (source : str) (g g' : graph) (x : SideResolution) : Prop :=
  match sr_uuid x with
  | Some v =>
      sr_state x = Bound ∧ ∃ ga gb, healed source g ga ∧ healed source gb g' ∧
        resolves_to ga gb source (endpoint_name (sr_existing x)) (endpoint_kind (sr_existing x)) v
  | None => sr_state x ≠ Bound
  end.
(** The group has an entity. *)
Definition inhabited (group_id : str) (g : graph) : Prop := Exists (λ e, en_group e = group_id) (g_ents g).
Lemma not_inhabited group_id g : ¬ inhabited group_id g → ∀ e, e ∈ g_ents g → en_group e ≠ group_id.
Proof. unfold inhabited. rewrite Exists_exists. naive_solver. Qed.
Definition all_unbound (rs : list SideResolution) : Prop := Forall (λ x, sr_state x = Unbound ∧ sr_uuid x = None) rs.
(** The sides a pass looks at. *)
Definition due (force : bool) (source : str) (seq : option N) (pointers : CrossGroupPointers) (side : EndpointSide) : option CrossGroupPointer :=
  p ← ptr_get side pointers;
  if bool_decide (source_group_id p = source) && negb (fresh force seq p) then Some p else None.

Lemma resolve_one_spec force source seq side pointers g rs c g' :
  ents_ok g → resolve_one db_lower ts_text force source seq side pointers g = (rs, c, g') →
  healed source g g' ∧
  match due force source seq pointers side with
  | None => rs = [] ∧ g' = g
  | Some p => ∃ x, rs = [x] ∧ sr_side x = side ∧ sr_existing x = p ∧ justified source g g' x
  end ∧
  (¬ inhabited source g → all_unbound rs ∧ g_ents g' = g_ents g ∧ g_pending g' = g_pending g).
Proof.
  intros [Hn _]. unfold resolve_one, due. destruct (ptr_get side pointers) as [p|]; cbn [mbind option_bind].
  2: intros [= <- <- <-]; split_and!; try done; intros _; split_and!; try done; constructor.
  case_bool_decide as Hs; cbn [negb andb].
  2: intros [= <- <- <-]; split_and!; try done; intros _; split_and!; try done; constructor.
  destruct (fresh force seq p); cbn [negb].
  { intros [= <- <- <-]; split_and!; try done; intros _; split_and!; try done; constructor. }
  destruct (resolve_endpoint_kind _ _ _ _ _ g) as [[st u] g1] eqn:Hr. intros [= <- <- <-]. split; [|split].
  - by apply resolve_spec in Hr as [Hh _].
  - apply resolve_spec in Hr as [Hh Hr]; [|done]. eexists. do 3 (split; [done|]).
    unfold justified. cbn. destruct u as [v|]; [|done]. destruct Hr as [-> Hr]. split; [done|]. by exists g, g1.
  - intros Hni. rewrite resolve_empty in Hr by by apply not_inhabited. injection Hr as <- <- <-. split; [|done]. by apply Forall_singleton.
Qed.
Lemma justified_mono source g0 g g' g1 x :
  healed source g0 g → healed source g' g1 → justified source g g' x → justified source g0 g1 x.
Proof.
  unfold justified. intros Ha Hb. destruct (sr_uuid x); [|done]. intros (? & ga & gb & ? & ? & ?).
  split; [done|]. exists ga, gb. split; [by etrans|]. split; [by etrans|]. done.
Qed.

(** The resolutions of a pass over one edge: one per due side, in order. *)
Record sides_ok (force : bool) (source : str) (seq : option N) (pointers : CrossGroupPointers) (g g' : graph) (rs : list SideResolution) : Prop := {
  so_healed : healed source g g';
  so_sides : NoDup (sr_side <$> rs);
  so_due : ∀ side p, due force source seq pointers side = Some p → ∃ x, x ∈ rs ∧ sr_side x = side ∧ sr_existing x = p;
  so_just : Forall (λ x, due force source seq pointers (sr_side x) = Some (sr_existing x) ∧ justified source g g' x) rs;
  so_none : rs = [] → g' = g;
  so_empty : ¬ inhabited source g → all_unbound rs ∧ g_ents g' = g_ents g ∧ g_pending g' = g_pending g;
}.
Lemma resolve_sides_spec force source seq pointers g rs c g' :
  ents_ok g → resolve_sides db_lower ts_text force source seq pointers g = (rs, c, g') →
  sides_ok force source seq pointers g g' rs.
Proof.
  intros Hg. unfold resolve_sides.
  destruct (resolve_one _ _ _ _ _ Src _ g) as [[r1 c1] g1] eqn:H1. destruct (resolve_one _ _ _ _ _ Dst _ g1) as [[r2 c2] g2] eqn:H2.
  intros [= <- <- <-]. apply resolve_one_spec in H1 as (Hh1 & H1 & E1); [|done].
  apply resolve_one_spec in H2 as (Hh2 & H2 & E2); [|by eapply healed_ents_ok].
  assert (HE : ¬ inhabited source g → all_unbound (r1 ++ r2) ∧ g_ents g2 = g_ents g ∧ g_pending g2 = g_pending g).
  { intros Hni. destruct (E1 Hni) as (U1 & S1 & P1). destruct E2 as (U2 & S2 & P2); [unfold inhabited in *; by rewrite S1|].
    split; [by apply Forall_app|]. split; congruence. }
  destruct (due force source seq pointers Src) as [p1|] eqn:D1, (due force source seq pointers Dst) as [p2|] eqn:D2.
  - destruct H1 as (x & -> & Hx & Ex & Jx), H2 as (y & -> & Hy & Ey & Jy). split; [by etrans| | | |done|done].
    + cbn. rewrite Hx, Hy. apply NoDup_cons. split; [|apply NoDup_singleton]. by intros H%list_elem_of_singleton.
    + intros side p Hp. destruct side; [exists x|exists y]; (split; [set_solver|]); split; congruence.
    + rewrite Forall_app, !Forall_singleton, Hx, Hy, D1, D2, Ex, Ey.
      split; (split; [done|]); eapply justified_mono; [| |exact Jx| | |exact Jy]; done.
  - destruct H1 as (x & -> & Hx & Ex & Jx), H2 as [-> ->]. split; [done| | | |done|done].
    + apply NoDup_singleton.
    + intros side p Hp. exists x. destruct side; [|congruence]. split; [set_solver|]. split; congruence.
    + rewrite app_nil_r, Forall_singleton, Hx, D1, Ex. by split.
  - destruct H1 as [-> ->], H2 as (y & -> & Hy & Ey & Jy). split; [done| | | |done|done].
    + apply NoDup_singleton.
    + intros side p Hp. exists y. destruct side; [congruence|]. split; [set_solver|]. split; congruence.
    + cbn [app]. rewrite Forall_singleton, Hy, D2, Ey. by split.
  - destruct H1 as [-> ->], H2 as [-> ->]. split; [done|constructor|intros []; congruence|constructor|done|done].
Qed.

Definition set_ptr (seq : option N) (p : CrossGroupPointers) (x : SideResolution) : CrossGroupPointers :=
  ptr_set (sr_side x) (new_pointer seq x) p.
(** The edge of a candidate, brought in line. *)
Definition settled_rel (seq : option N) (rs : list SideResolution) (r : relnode) : relnode :=
  with_attrs (write_pointers (rn_attrs r) (foldl (set_ptr seq) (read_pointers (rn_attrs r)) rs)) (foldl set_res r rs).
Definition cand_of (r : relnode) : str * str * str * str := (rn_uuid r, rn_name r, rn_group r, rn_attrs r).
Definition both (p : str * str) : bool := nonempty p.1 && nonempty p.2.
(** How a candidate with due sides ends. *)
Definition settles (ts : str) (seq : option N) (rs : list SideResolution) (r r' : relnode) : Prop :=
  r' = with_invalid ts r ∧ any_changed rs = true ∧ both (prospective rs (hops_of r)) = true ∨ r' = settled_rel seq rs r.

Lemma foldl_set_res_same rs r : rn_uuid (foldl set_res r rs) = rn_uuid r ∧ rn_group (foldl set_res r rs) = rn_group r
  ∧ rn_attrs (foldl set_res r rs) = rn_attrs r ∧ rn_invalid (foldl set_res r rs) = rn_invalid r ∧ rn_name (foldl set_res r rs) = rn_name r.
Proof. revert r. induction rs as [|x rs IH]; intros r; [done|]. cbn. destruct (IH (set_res r x)) as (-> & -> & -> & -> & ->). done. Qed.

Lemma settle_spec ts seq rs g pre r post c g' :
  focus g pre r post → hop_ok r → ents_ok g → Forall (res_ok g) rs → NoDup (sr_side <$> rs) →
  settle_candidate ts seq (cand_of r) (read_pointers (rn_attrs r)) rs g = (c, g') →
  ∃ r', settles ts seq rs r r' ∧ touched (rn_group r) g g' pre r' post.
Proof.
  intros Hf Hok [_ He] Hr Hnd. unfold settle_candidate, cand_of. rewrite (current_hops_focus g pre r post) by done.
  cbn [default from_option id]. fold (hops_of r). cbn zeta.
  rewrite <- !andb_assoc.
  match goal with |- context [if ?b then (one_self_loop, _) else _] => destruct b eqn:H1 end.
  { intros [= <- <-]. exists (with_invalid ts r). split; [|by apply invalidate_touched]. left.
    apply andb_true_iff in H1 as [? [? [? _]%andb_true_iff]%andb_true_iff]. split; [done|]. split; [done|]. unfold both. by apply andb_true_iff. }
  match goal with |- context [if ?b then (one_duplicate, _) else _] => destruct b eqn:H2 end.
  { intros [= <- <-]. exists (with_invalid ts r). split; [|by apply invalidate_touched]. left.
    apply andb_true_iff in H2 as [? [? [? _]%andb_true_iff]%andb_true_iff]. split; [done|]. split; [done|]. unfold both. by apply andb_true_iff. }
  destruct (apply_all _ _ _ _ _ g) as [[[ch p] c1] g1] eqn:Ha. intros [= <- <-].
  exists (settled_rel seq rs r). split; [by right|].
  destruct (foldl_set_res_same rs r) as (Hu & Hg & Hat & _).
  assert (Hne : Forall (λ x, sr_uuid x ≠ Some []) rs).
  { eapply Forall_impl; [exact Hr|]. intros x. unfold res_ok. intros Hx Hx'. rewrite Hx' in Hx. destruct Hx as [_ Hx].
    apply has_entity_spec in Hx. done. }
  assert (Hfh : Forall (λ x, first_hop (sr_side x) (hops_of r) = default [] (head (hops (sr_side x) r))) rs).
  { apply list.Forall_forall. intros x _. by rewrite first_hop_of. }
  destruct (apply_all_touched _ _ _ _ g pre r post _ _ _ _ _ eq_refl Hf Hok Hr Hnd Hne Hfh Ha) as [Ht1 Hp]. subst p.
  assert (Ht : touched (rn_group r) g (update_relates_to_attributes (rn_uuid r)
             (write_pointers (rn_attrs r) (foldl (set_ptr seq) (read_pointers (rn_attrs r)) rs)) g1) pre (settled_rel seq rs r) post).
  { eapply touched_trans; [exact Ht1|]. pose proof (set_attrs_touched g1 pre _ post
      (write_pointers (rn_attrs r) (foldl (set_ptr seq) (read_pointers (rn_attrs r)) rs)) (to_focus _ _ _ _ _ _ Ht1)) as H.
    unfold settled_rel, with_attrs. rewrite Hu, Hg in H |- *. exact H. }
  destruct ch; [|exact Ht]. eapply touched_trans; [exact Ht|].
  pose proof (resync_touched _ pre _ post (to_focus _ _ _ _ _ _ Ht)) as H.
  change (rn_uuid (settled_rel seq rs r)) with (rn_uuid (foldl set_res r rs)) in H.
  change (rn_group (settled_rel seq rs r)) with (rn_group (foldl set_res r rs)) in H.
  by rewrite Hu, Hg in H.
Qed.
End candidate.

(** ** A whole pass *)

(** The entities of a later point of the pass. *)
Definition later (g g' : graph) : Prop := Forall2 heal_of (g_ents g) (g_ents g') ∧ g_eps g' = g_eps g.
Global Instance later_pre : PreOrder later.
Proof. split; [done|]. intros a b c [] []. split; [by etrans|congruence]. Qed.
Lemma healed_later gid g g' : healed gid g g' → later g g'.
Proof. by intros []. Qed.
Lemma touched_later o g g' pre r post : touched o g g' pre r post → later g g'.
Proof. intros [_ He Hp _]. split; [by rewrite He|done]. Qed.
Lemma later_uuids g g' : later g g' → en_uuid <$> g_ents g' = en_uuid <$> g_ents g.
Proof. intros [H _]. induction H as [|e e' l l' [Hu _ _ _ _ _] _ IH]; [done|]. cbn. by rewrite Hu, IH. Qed.
Lemma later_inhabited gid g g' : later g g' → inhabited gid g' → inhabited gid g.
Proof.
  intros [H _] Hi. unfold inhabited in *. revert Hi. induction H as [|e e' l l' [_ _ Hg _ _ _] _ IH]; intros Hi; [done|].
  apply Exists_cons in Hi as [Hi|Hi]; [left; congruence|right; by apply IH].
Qed.
Lemma later_ents_ok g g' : later g g' → ents_ok g → ents_ok g'.
Proof. intros H. unfold ents_ok. by rewrite (later_uuids _ _ H). Qed.
Lemma later_entity g g' u e :
  NoDup (en_uuid <$> g_ents g) → later g g' → get_entity_by_uuid g u = Some e →
  ∃ e', get_entity_by_uuid g' u = Some e' ∧ heal_of e e'.
Proof.
  intros Hn Hl. pose proof (later_uuids _ _ Hl) as Hu. destruct Hl as [Hf _].
  rewrite get_entity_spec by done. intros [Hin He]. apply list_elem_of_lookup in Hin as [i Hi].
  apply (Forall2_lookup_l _ _ _ _ _ Hf) in Hi as (e' & Hi' & Hoe). exists e'. split; [|done].
  rewrite get_entity_spec by congruence. split; [by eapply list_elem_of_lookup_2|]. rewrite <- He. apply Hoe.
Qed.

(** The edges a pass visits. *)
Definition pointer_edge (r : relnode) : bool :=
  contains (34%N :: POINTERS_KEY ++ [34%N]) (rn_attrs r) && bool_decide (rn_invalid r = None).
Lemma candidates_eq g :
  list_cross_group_pointer_candidates g = omap (λ r, if pointer_edge r then Some (cand_of r) else None) (g_rels g).
Proof. done. Qed.
Lemma settles_same ts seq rs r r' : ∀ {AC : AttrCodec}, settles ts seq rs r r' →
  rn_uuid r' = rn_uuid r ∧ rn_group r' = rn_group r ∧ rn_name r' = rn_name r.
Proof.
  intros AC [(-> & _)| ->]; [done|]. unfold settled_rel, with_attrs. cbn. by destruct (foldl_set_res_same rs r) as (-> & -> & _ & _ & ->).
Qed.

Section pass.
Context {U : Unicode} {AC : AttrCodec} (db_lower : str → str) (ts_text : N → str) (applied : str → option N).
Context (force : bool) (source ts : str) (seq : option N).

(** How a visited edge ends: what its due pointers resolved to, and the edge that gives. *)
Definition visited_as (g g' : graph) (r r' : relnode) : Prop :=
  ∃ rs ga gb, later g ga ∧ sides_ok force source seq (read_pointers (rn_attrs r)) ga gb rs ∧ later gb g' ∧
    (rs = [] ∧ r' = r ∨ rs ≠ [] ∧ settles ts seq rs r r').
Definition rebound (g g' : graph) (r r' : relnode) : Prop :=
  if pointer_edge r then visited_as g g' r r' else r' = r.

Lemma candidate_spec g pre r post grouped c grouped' g' :
  focus g pre r post → hop_ok r → ents_ok g → g_pending g = [] →
  rebind_candidate db_lower ts_text force source ts seq (cand_of r) grouped g = (c, grouped', g') →
  ∃ r', visited_as g g' r r' ∧ focus g' pre r' post ∧ later g g' ∧ g_pending g' = [] ∧ (¬ inhabited source g → g_ents g' = g_ents g) ∧
    ∀ P, bucket_ok P grouped → (∀ m, inhabited source g ∧ is_heal source m ∨ m.1 = rn_group r → P (rn_group r) m) → bucket_ok P grouped'.
Proof.
  intros Hf Hok Hg Hpd. unfold rebind_candidate. cbn [cand_of].
  destruct (resolve_sides _ _ _ _ _ _ g) as [[rs c1] g1] eqn:Hr. apply resolve_sides_spec in Hr; [|done].
  destruct (decide (rs = [])) as [->|Hne].
  - intros [= <- <- <-]. exists r. pose proof (so_none _ _ _ _ _ _ _ Hr eq_refl) as ->. split; [|done].
    exists [], g, g. split; [done|]. split; [done|]. split; [done|]. by left.
  - replace (match rs with [] => _ | _ => _ end) with
      (let '(c', g0) := settle_candidate ts seq (cand_of r) (read_pointers (rn_attrs r)) rs g1 in
       let '(gr, g0) := drain_mutations_into (rn_group r) grouped g0 in (add_counts c1 c', gr, g0)) by by destruct rs.
    destruct Hr as [Hh Hs Hd Hj Hn Hem] eqn:Hso; clear Hso.
    assert (Hf1 : focus g1 pre r post) by (destruct Hf; split; rewrite ?(hd_rels _ _ _ Hh); done).
    assert (Hg1 : ents_ok g1) by by eapply healed_ents_ok.
    assert (Hres : Forall (res_ok g1) rs).
    { eapply Forall_impl; [exact Hj|]. intros x [_ Hx]. unfold res_ok, justified in *. destruct (sr_uuid x) as [u|]; [|done].
      destruct Hx as (? & ga & gb & _ & Hb & w & y & e & _ & _ & _ & _ & _ & He & _). split; [done|].
      rewrite (healed_has _ _ _ u Hb). unfold has_entity. by rewrite He. }
    destruct (settle_candidate _ _ _ _ _ g1) as [c2 g2] eqn:Hse.
    apply (settle_spec ts seq rs g1 pre r post) in Hse as (r' & Hset & Ht); try done.
    destruct (drain_mutations_into _ _ g2) as [gr g3] eqn:Hdr. intros [= <- <- <-].
    pose proof Hdr as Hdr'. unfold drain_mutations_into in Hdr'. injection Hdr' as _ <-.
    assert (Hl : later g1 g2) by by eapply touched_later.
    exists r'. split; [|split; [|split; [|split; [done|split]]]].
    + exists rs, g, g1. split; [done|]. split; [done|]. split; [exact Hl|]. by right.
    + destruct (to_focus _ _ _ _ _ _ Ht). by split.
    + etrans; [by eapply healed_later|exact Hl].
    + intros Hni. destruct (Hem Hni) as (_ & <- & _). apply Ht.
    + intros P HP Hm. eapply drain_ok; [exact Hdr|done|]. destruct (to_pending _ _ _ _ _ _ Ht) as (ms & -> & Hms).
      apply Forall_app. split; [|eapply Forall_impl; [exact Hms|]; intros m Hmm; apply Hm; by right].
      destruct (decide (Exists (λ e, en_group e = source) (g_ents g))) as [Hi|Hni].
      * destruct (hd_pending _ _ _ Hh) as (hs & -> & Hhs). rewrite Hpd. cbn [app].
        eapply Forall_impl; [exact Hhs|]. intros m Hmm. apply Hm. by left.
      * destruct (Hem Hni) as (_ & _ & ->). rewrite Hpd. constructor.
Qed.

Lemma pass_spec todo : ∀ done grouped g c grouped' g',
  g_rels g = done ++ todo → NoDup (rn_uuid <$> g_rels g) → Forall hop_ok todo → ents_ok g → g_pending g = [] →
  rebind_all db_lower ts_text force source ts seq (omap (λ r, if pointer_edge r then Some (cand_of r) else None) todo) grouped g = (c, grouped', g') →
  ∃ todo', g_rels g' = done ++ todo' ∧ Forall2 (rebound g g') todo todo' ∧ later g g' ∧ g_pending g' = [] ∧ (¬ inhabited source g → g_ents g' = g_ents g) ∧
    ∀ P, bucket_ok P grouped → (∀ o m, inhabited source g ∧ is_heal source m ∨ m.1 = o → P o m) → bucket_ok P grouped'.
Proof.
  induction todo as [|r todo IH]; intros done grouped g c grouped' g' Hrels Hnd Hok Hg Hpd.
  - intros [= <- <- <-]. exists []. split; [exact Hrels|]. split; [constructor|]. split; [reflexivity|]. split; [exact Hpd|]. split; [reflexivity|]. intros P H _. exact H.
  - apply Forall_cons in Hok as [Hr Hok]. cbn [omap list_omap]. destruct (pointer_edge r) eqn:Hpe.
    + cbn [rebind_all]. destruct (rebind_candidate _ _ _ _ _ _ _ grouped g) as [[c1 gr1] g1] eqn:H1.
      destruct (rebind_all _ _ _ _ _ _ _ gr1 g1) as [[c2 gr2] g2] eqn:H2. intros [= <- <- <-].
      assert (Hf : focus g done r todo).
      { rewrite Hrels, fmap_app, fmap_cons in Hnd. apply NoDup_app in Hnd as (_ & Hd & Hnd). apply NoDup_cons in Hnd as [Hr1 _].
        split; [exact Hrels| |exact Hr1]. intros Hin. apply (Hd _ Hin). left. }
      apply (candidate_spec g done r todo) in H1 as (r' & Hv & Hf1 & Hl1 & Hp1 & He1 & Hb1); try assumption.
      assert (Hu : rn_uuid r' = rn_uuid r).
      { destruct Hv as (rs & _ & _ & _ & _ & _ & [[_ ->]|[_ Hs]]); [reflexivity|]. by apply settles_same in Hs as (? & _). }
      apply (IH (done ++ [r'])) in H2 as (todo' & Hr2 & HF & Hl2 & Hp2 & He2 & Hb2); try assumption.
      * exists (r' :: todo'). rewrite Hr2, <- app_assoc. split; [reflexivity|]. split; [|split; [by etrans|split; [assumption|split]]].
        -- constructor.
           ++ unfold rebound. rewrite Hpe. destruct Hv as (rs & ga & gb & ? & ? & ? & ?). exists rs, ga, gb.
              split; [assumption|]. split; [assumption|]. split; [by etrans|assumption].
           ++ eapply Forall2_impl; [exact HF|]. intros x x'. unfold rebound. destruct (pointer_edge x); [|trivial].
              intros (rs & ga & gb & ? & ?). exists rs, ga, gb. split; [by etrans|assumption].
        -- intros Hni. rewrite He2; [by apply He1|]. intros Hi. apply Hni. by eapply later_inhabited.
        -- intros P HP Hm. apply Hb2.
           ++ apply Hb1; [assumption|]. intros m. apply Hm.
           ++ intros o m [[Hi Hh]|Ho]; apply Hm; [left; split; [by eapply later_inhabited|assumption]|by right].
      * rewrite (fo_rels _ _ _ _ Hf1), <- app_assoc. reflexivity.
      * rewrite (fo_rels _ _ _ _ Hf1). rewrite Hrels in Hnd. rewrite fmap_app, fmap_cons in *. by rewrite Hu.
      * by eapply later_ents_ok.
    + intros H. apply (IH (done ++ [r])) in H as (todo' & Hr2 & HF & Hl & Hp & He & Hb); try assumption.
      * exists (r :: todo'). rewrite Hr2, <- app_assoc. split; [reflexivity|]. split; [|split; [assumption|split; [assumption|split; assumption]]].
        constructor; [|assumption]. unfold rebound. by rewrite Hpe.
      * by rewrite Hrels, <- app_assoc.
Qed.
End pass.

(** ** What a pass leaves behind *)

Section outcome.
Context {U : Unicode} {AC : AttrCodec} {AL : AttrCodecLaws} (db_lower : str → str) (ts_text : N → str) (applied : str → option N).

(** The state of one due pointer after the pass, in the pointer and in the hops. *)
Definition side_settled (source : str) (seq : option N) (g' : graph) (r' : relnode) (side : EndpointSide) (p : CrossGroupPointer) : Prop :=
  ∃ p', ptr_get side (read_pointers (rn_attrs r')) = Some p' ∧
    source_group_id p' = source ∧ endpoint_name p' = endpoint_name p ∧ endpoint_kind p' = endpoint_kind p ∧ bound_at_seq p' = seq ∧
    match resolved_uuid p' with
    | Some u => binding_state p' = Bound ∧ hops side r' = [u] ∧
                ∃ e, get_entity_by_uuid g' u = Some e ∧ en_group e = source ∧ is_merged e = false
    | None => binding_state p' ≠ Bound ∧ hops side r' = []
    end.

Lemma fold_ptrs_other seq rs side p :
  side ∉ sr_side <$> rs → ptr_get side (foldl (set_ptr seq) p rs) = ptr_get side p.
Proof.
  revert p. induction rs as [|x rs IH]; intros p; [done|]. cbn. rewrite not_elem_of_cons. intros [Hx Hr].
  rewrite IH by done. unfold set_ptr. by destruct side, (sr_side x).
Qed.
Lemma fold_ptrs_at seq rs x p :
  NoDup (sr_side <$> rs) → x ∈ rs → ptr_get (sr_side x) (foldl (set_ptr seq) p rs) = Some (new_pointer seq x).
Proof.
  revert p. induction rs as [|y rs IH]; intros p Hn Hx; [by apply elem_of_nil in Hx|]. cbn.
  rewrite fmap_cons in Hn. apply NoDup_cons in Hn as [Hy Hn]. apply elem_of_cons in Hx as [->|Hx]; [|by apply IH].
  rewrite fold_ptrs_other by done. unfold set_ptr. by destruct (sr_side y).
Qed.
Lemma fold_hops_other rs side r : side ∉ sr_side <$> rs → hops side (foldl set_res r rs) = hops side r.
Proof.
  revert r. induction rs as [|x rs IH]; intros r; [done|]. cbn. rewrite not_elem_of_cons. intros [Hx Hr].
  rewrite IH by done. unfold set_res. by rewrite hops_set_hops, bool_decide_eq_false_2.
Qed.
Lemma fold_hops_at rs x r :
  NoDup (sr_side <$> rs) → x ∈ rs → hops (sr_side x) (foldl set_res r rs) = option_list (sr_uuid x).
Proof.
  revert r. induction rs as [|y rs IH]; intros r Hn Hx; [by apply elem_of_nil in Hx|]. cbn.
  rewrite fmap_cons in Hn. apply NoDup_cons in Hn as [Hy Hn]. apply elem_of_cons in Hx as [->|Hx]; [|by apply IH].
  rewrite fold_hops_other by done. unfold set_res. by rewrite hops_set_hops, bool_decide_eq_true_2.
Qed.
Lemma ptr_get_nonempty side p x : ptr_get side p = Some x → is_empty p = false.
Proof. destruct side, p as [[|] [|]]; done. Qed.
Lemma settled_pointers seq rs r :
  NoDup (sr_side <$> rs) → rs ≠ [] →
  read_pointers (rn_attrs (settled_rel seq rs r)) = foldl (set_ptr seq) (read_pointers (rn_attrs r)) rs.
Proof.
  intros Hn Hne. cbn. apply read_write_pointers. destruct rs as [|x rs]; [done|].
  eapply ptr_get_nonempty. apply (fold_ptrs_at seq (x :: rs) x); [done|left].
Qed.
Lemma settled_hops seq rs r side : hops side (settled_rel seq rs r) = hops side (foldl set_res r rs).
Proof. by destruct side. Qed.

Lemma due_side force source seq side r p ga gb g' rs :
  sides_ok force source seq (read_pointers (rn_attrs r)) ga gb rs → ents_ok ga → later gb g' → 
  due force source seq (read_pointers (rn_attrs r)) side = Some p → rs ≠ [] →
  side_settled source seq g' (settled_rel seq rs r) side p.
Proof.
  intros [Hh Hs Hd Hj _ _] Hga Hl Hdue Hne. destruct (Hd _ _ Hdue) as (x & Hx & <- & <-).
  rewrite list.Forall_forall in Hj. destruct (Hj x Hx) as [_ Hjx].
  assert (Hsrc : source_group_id (sr_existing x) = source).
  { unfold due in Hdue. apply bind_Some in Hdue as (q & _ & Hq). case_bool_decide as Hc; [|done].
    destruct (negb _); [|done]. injection Hq as <-. done. }
  exists (new_pointer seq x). rewrite settled_pointers, fold_ptrs_at by done. split; [done|]. split; [done|].
  do 3 (split; [done|]). cbn [new_pointer resolved_uuid binding_state]. rewrite settled_hops, fold_hops_at by done.
  unfold justified in Hjx. destruct (sr_uuid x) as [u|]; [|done].
  destruct Hjx as (-> & g1 & g2 & Ha & Hb & w & y & e & _ & _ & _ & _ & _ & He & _ & Hm & Hg).
  split; [done|]. split; [done|].
  assert (Hb2 : later g2 g') by (etrans; [by eapply healed_later|done]).
  assert (Hn2 : NoDup (en_uuid <$> g_ents g2)).
  { destruct Hga as [Hn _]. rewrite <- (healed_uuids _ _ _ Hh), (healed_uuids _ _ _ Hb) in Hn. done. }
  destruct (later_entity g2 g' u e Hn2 Hb2 He) as (e' & He' & Ho). exists e'. split; [done|].
  destruct Ho as [_ _ Hgr Hlb _ _]. rewrite Hgr. split; [done|]. unfold is_merged in *. by rewrite Hlb.
Qed.

(** C19. What a re-binding pass leaves behind, edge by edge.  An edge that carries no pointers, or
    is already invalidated, is untouched; every edge keeps its uuid, name and group; an edge the
    pass invalidates keeps everything else, its hops and pointers included.  An edge that
    is still live after the pass has, on each side whose pointer names the source group and was
    not gated as fresh, a pointer stamped with the source group's position whose state agrees
    with the graph: bound with exactly one hop, to a present, unmerged entity of the source group,
    or not bound with no hop at all; its other sides keep their pointers and their hops.  The
    entities lose nothing but stale kinds and keys. *)
Theorem rebind_settles force source ts g c grouped g' :
  NoDup (rn_uuid <$> g_rels g) → Forall hop_ok (g_rels g) → ents_ok g → g_pending g = [] →
  rebind_pointers_impl db_lower ts_text applied force source ts g = (c, grouped, g') →
  later g g' ∧ g_pending g' = [] ∧
  Forall2 (λ r r', rn_uuid r' = rn_uuid r ∧ rn_name r' = rn_name r ∧ rn_group r' = rn_group r ∧
    (pointer_edge r = false → r' = r) ∧
    (pointer_edge r = true → rn_invalid r' ≠ None → r' = with_invalid ts r) ∧
    (pointer_edge r = true → rn_invalid r' = None → ∀ side,
      match due force source (applied source) (read_pointers (rn_attrs r)) side with
      | Some p => side_settled source (applied source) g' r' side p
      | None => ptr_get side (read_pointers (rn_attrs r')) = ptr_get side (read_pointers (rn_attrs r)) ∧ hops side r' = hops side r
      end)) (g_rels g) (g_rels g').
Proof.
  intros Hnd Hok Hg Hpd. unfold rebind_pointers_impl. rewrite candidates_eq. intros H.
  apply (pass_spec db_lower ts_text force source ts (applied source) (g_rels g) []) in H as (rels' & -> & HF & Hl & Hp & _ & _); try done.
  split; [done|]. split; [done|]. cbn [app]. eapply Forall2_impl; [exact HF|]. intros r r' Hr. unfold rebound in Hr.
  destruct (pointer_edge r) eqn:Hpe; [|subst r'; done].
  destruct Hr as (rs & ga & gb & Hla & Hs & Hlb & Hcase).
  assert (Hsame : rn_uuid r' = rn_uuid r ∧ rn_group r' = rn_group r ∧ rn_name r' = rn_name r).
  { destruct Hcase as [[_ ->]|[_ Hc]]; [done|by eapply settles_same]. }
  assert (Hlive : rn_invalid r = None) by (unfold pointer_edge in Hpe; apply andb_true_iff in Hpe as [_ Hi]; by apply bool_decide_eq_true in Hi).
  destruct Hsame as (? & ? & ?). do 4 (split; [done|]). split.
  { intros _ Hinv. destruct Hcase as [[_ ->]|[_ [(-> & _)| ->]]]; [done|done|]. destruct Hinv.
    cbn. by destruct (foldl_set_res_same rs r) as (_ & _ & _ & -> & _). }
  intros _ Hinv side.
  assert (Hnot : due force source (applied source) (read_pointers (rn_attrs r)) side = None → side ∉ sr_side <$> rs).
  { intros Hdn Hin. apply list_elem_of_fmap in Hin as (x & -> & Hx). destruct Hs as [_ _ _ Hj _ _].
    rewrite list.Forall_forall in Hj. destruct (Hj x Hx) as [Hd _]. congruence. }
  destruct Hcase as [[-> ->]|[Hne [(-> & _)| ->]]].
  - destruct (due _ _ _ _ side) as [p|] eqn:Hd; [|done]. destruct (so_due _ _ _ _ _ _ _ Hs _ _ Hd) as (x & Hx & _). by apply elem_of_nil in Hx.
  - done.
  - destruct (due _ _ _ _ side) as [p|] eqn:Hd.
    + eapply due_side; try done. by eapply later_ents_ok.
    + rewrite settled_pointers, settled_hops by (done || apply Hs). rewrite fold_ptrs_other, fold_hops_other by auto. done.
Qed.


(** Which stream a pass's mutations go to: the bucket of a group holds changes of edges of
    that group only, except for the repairs of rows of the source group that resolving a name
    performs, which go to the bucket of the edge being visited; and there are none of those when
    the source group has no entity. *)
Theorem rebind_buckets force source ts g c grouped g' :
  NoDup (rn_uuid <$> g_rels g) → Forall hop_ok (g_rels g) → ents_ok g → g_pending g = [] →
  rebind_pointers_impl db_lower ts_text applied force source ts g = (c, grouped, g') →
  bucket_ok (λ o m, m.1 = o ∨ inhabited source g ∧ is_heal source m) grouped.
Proof.
  intros Hnd Hok Hg Hpd. unfold rebind_pointers_impl. rewrite candidates_eq. intros H.
  apply (pass_spec db_lower ts_text force source ts (applied source) (g_rels g) []) in H as (rels' & _ & _ & _ & _ & _ & Hb); try done.
  apply Hb; [apply bucket_ok_empty|]. intros o m [?|?]; [by right|by left].
Qed.
End outcome.

(** ** Properties of resolution *)

Section properties.
Context {U : Unicode} {AC : AttrCodec} (db_lower : str → str) (ts_text : N → str).

Lemma default_kind_trim : nonempty (trim DEFAULT_KIND) = true.
Proof. vm_compute. reflexivity. Qed.
Lemma value_as_kind_idem k : value_as_kind (Some (value_as_kind k)) = value_as_kind k.
Proof.
  unfold value_as_kind at 2 3. set (t := default [] k). destruct (nonempty (trim t)) eqn:Ht; unfold value_as_kind; cbn [default from_option id].
  - by rewrite Ht.
  - by rewrite default_kind_trim.
Qed.
Lemma head_sort_some {A} (le : A → A → bool) (l : list A) x : x ∈ l → ∃ y, head (sort_by le l) = Some y ∧ y ∈ l.
Proof.
  intros Hx. destruct (sort_by le l) as [|y k] eqn:Hs.
  - rewrite <- (sort_by_elem le), Hs in Hx. by apply elem_of_nil in Hx.
  - exists y. split; [done|]. rewrite <- (sort_by_elem le), Hs. left.
Qed.

(** The exact-kind lookup is an authority: whatever the state of the index, it answers with a
    row exactly when the group has a row of the kind whose name is the same up to case and outer
    white space, and the answer is such a row.  It changes nothing but the kind and key columns
    of the row a scan found, and logs nothing but that repair.  Once a row was found, and if no
    row of another name still carries the key, the index alone answers the next lookup. *)
Theorem authority_lookup_exact name gid kind g r g' :
  NoDup (en_uuid <$> g_ents g) →
  get_entity_by_name_ci_with_scan_fallback name gid kind g = (r, g') →
  (is_Some r ↔ ∃ e, e ∈ g_ents g ∧ named name gid e ∧ kind_of e = kind) ∧
  (∀ e, r = Some e → e ∈ g_ents g ∧ named name gid e ∧ kind_of e = kind) ∧
  healed gid g g' ∧
  (is_Some r → (∀ e, e ∈ g_ents g → en_key e = Some (compute_lookup_key gid kind name) → verified name gid kind e = true) →
   is_Some (probe g' name gid kind)).
Proof.
  intros Hn Hl. pose proof (authority_healed _ _ _ _ _ _ Hn Hl) as [Hh Hr]. split; [|split; [|split; [done|]]].
  - destruct r as [e|]; split.
    + intros _. by exists e.
    + by eexists.
    + by intros [].
    + intros (e & He & Hnm & Hk). by destruct (Hr e He Hnm).
  - intros e ->. exact Hr.
  - intros [e ->] Hkey. destruct Hr as (He & Hnm & Hk). unfold get_entity_by_name_ci_with_scan_fallback in Hl.
    destruct (probe g name gid kind) as [row|] eqn:Hp; [injection Hl as _ <-; rewrite Hp; by eexists|].
    cbn zeta in Hl. destruct (head (scan_entities_by_name_ci _ _ _ _)) as [e0|]; injection Hl as He0 <-; [subst e0|done].
    set (e' := {| en_uuid := en_uuid e; en_name := en_name e; en_group := en_group e; en_labels := en_labels e;
                  en_kind := Some (kind_of e); en_key := Some (compute_lookup_key (en_group e) (kind_of e) (en_name e));
                  en_created := en_created e; en_attrs := en_attrs e |}).
    assert (Hall : ∀ y, y ∈ g_ents (self_heal_lookup_key e (count_scan g)) → y ∈ g_ents g ∨ (named name gid y ∧ kind_of y = kind)).
    { intros y Hy. unfold self_heal_lookup_key, record_mut, with_ents in Hy. cbn [g_ents] in Hy.
      apply list_elem_of_fmap in Hy as (x & -> & Hx). case_bool_decide as Hc; [|by left]. right. destruct Hc as (_ & Hcn & Hcg).
      unfold named, kind_of. cbn. rewrite Hcn, Hcg, value_as_kind_idem. done. }
    assert (He' : e' ∈ g_ents (self_heal_lookup_key e (count_scan g))).
    { unfold self_heal_lookup_key, record_mut, with_ents. cbn [g_ents]. apply list_elem_of_fmap. exists e.
      split; [|done]. by rewrite bool_decide_eq_true_2. }
    assert (Hk' : en_key e' = Some (compute_lookup_key gid kind name)).
    { cbn. destruct Hnm as [-> Hf]. rewrite Hk. unfold compute_lookup_key. unfold folded in Hf. by rewrite Hf. }
    unfold probe, get_entity_by_name_ci.
    destruct (head_sort_some ent_leb (List.filter (λ x, bool_decide (en_key x = Some (compute_lookup_key gid kind name)))
      (g_ents (self_heal_lookup_key e (count_scan g)))) e') as (y & Hy & Hyin).
    { apply filter_elem. split; [done|]. by rewrite bool_decide_eq_true_2. }
    cbn zeta. rewrite Hy. cbn [mbind option_bind]. apply filter_elem in Hyin as [Hyin Hyk]. apply bool_decide_eq_true in Hyk.
    assert (Hv : verified name gid kind y = true).
    { destruct (Hall y Hyin) as [Hold|Hnew]; [by apply Hkey|by apply verified_spec]. }
    rewrite Hv. by eexists.
Qed.

(** A name resolves as bound only to a present, unmerged entity of the source group, reached
    by following forwarding references from a row of that name (and of the asserted kind); any
    other answer carries no identifier.  The walk along forwarding references always ends, cycles
    included. *)
Theorem resolution_sound sg name kind g st u g' :
  NoDup (en_uuid <$> g_ents g) →
  resolve_endpoint_kind db_lower ts_text sg name kind g = ((st, u), g') →
  match u with
  | Some v => st = Bound ∧ resolves_to g g' sg name kind v
  | None => st ≠ Bound
  end ∧ healed sg g g' ∧
  (∀ start, is_Some (follow_go (S (length (g_ents g'))) g' sg [en_uuid start] start)).
Proof.
  intros Hn Hr. apply resolve_spec in Hr as [Hh Hr]; [|done]. split; [done|]. split; [done|]. intros start. apply follow_chain_total.
Qed.

(** The kind-less resolution looks at the table only on a total miss: as soon as one
    registered kind answers from the index, a same-named row without a key is invisible, whatever
    its kind. *)
Theorem unkeyed_row_masked name gid g e :
  en_key e = None → omap (probe g name gid) (g_kinds g) ≠ [] →
  fst (resolve_entities_by_name_any_kind ts_text name gid (with_ents (e :: g_ents g) g)) =
  fst (resolve_entities_by_name_any_kind ts_text name gid g).
Proof.
  intros Hk Hne. unfold resolve_entities_by_name_any_kind.
  assert (Hp : ∀ k, probe (with_ents (e :: g_ents g) g) name gid k = probe g name gid k).
  { intros k. unfold probe, get_entity_by_name_ci. cbn [g_ents with_ents List.filter]. rewrite Hk. by rewrite bool_decide_eq_false_2. }
  change (g_kinds (with_ents (e :: g_ents g) g)) with (g_kinds g).
  replace (omap (probe (with_ents (e :: g_ents g) g) name gid) (g_kinds g)) with (omap (probe g name gid) (g_kinds g)).
  - by destruct (omap (probe g name gid) (g_kinds g)).
  - generalize (g_kinds g) as ks. intros ks. induction ks as [|k ks IH]; [done|]. cbn. rewrite Hp. by rewrite IH.
Qed.

End properties.

Section selfdup.
Context {AC : AttrCodec}.

(** An edge can be invalidated as a duplicate of itself: when its hops already connect the
    pair its pointers resolve to, but a pointer's recorded identifier is an older one, the
    duplicate check finds the edge itself. *)
Theorem edge_duplicate_of_itself ts seq rs g pre r post :
  focus g pre r post → pointer_edge r = true → hop_ok r →
  any_changed rs = true → prospective rs (hops_of r) = hops_of r → both (hops_of r) = true → (hops_of r).1 ≠ (hops_of r).2 →
  settle_candidate ts seq (cand_of r) (read_pointers (rn_attrs r)) rs g = (one_duplicate, invalidate_edge (rn_uuid r) ts g).
Proof.
  intros Hf Hpe Hok Hc Hp Hb Hne. unfold settle_candidate, cand_of. rewrite (current_hops_focus g pre r post) by done.
  cbn [default from_option id]. fold (hops_of r). cbn zeta. rewrite Hp, Hc. unfold both in Hb. apply andb_true_iff in Hb as [H1 H2].
  rewrite H1, H2. cbn [andb]. rewrite bool_decide_eq_false_2 by done.
  assert (Hd : has_directed_edge g (hops_of r).1 (hops_of r).2 (rn_name r) (rn_group r) = true).
  { unfold has_directed_edge. rewrite existsb_exists. exists r. split.
    - apply list_elem_of_In. destruct Hf as [-> _ _]. set_solver.
    - unfold pointer_edge in Hpe. apply andb_true_iff in Hpe as [_ Hi]. rewrite Hi.
      rewrite !(bool_decide_eq_true_2 (_ = _)) by done.
      assert (Hin : ∀ l : list str, nonempty (default [] (head l)) = true → default [] (head l) ∈ l) by (intros [|a l]; [done|left]).
      rewrite (bool_decide_eq_true_2 (_ ∈ rn_srcs r)), (bool_decide_eq_true_2 (_ ∈ rn_dsts r)) by (apply Hin; assumption). done. }
  by rewrite Hd.
Qed.
End selfdup.

(** ** Concrete graphs *)

Global Instance gmut_eq_dec : EqDecision gmut.
Proof. solve_decision. Defined.


(** A codec whose texts show the pointers' key. *)
Definition key_mark : str := 34%N :: POINTERS_KEY ++ [34%N].
Definition KeyAttrs : AttrCodec := {|
  json_parse s := strip_prefix key_mark s ≫= parse_tree; json_print v := key_mark ++ print_tree v;
  pointers_of_json := json_ptrs; json_of_pointers p := Some (ptrs_json p);
|}.
Global Instance KeyAttrsLaws : @AttrCodecLaws KeyAttrs.
Proof.
  split.
  - intros v. change (strip_prefix key_mark (key_mark ++ print_tree v) ≫= parse_tree = Some v).
    rewrite (proj2 (strip_prefix_spec key_mark (key_mark ++ print_tree v) (print_tree v)) eq_refl). apply parse_print_tree.
  - intros p. eexists. split; [done|]. apply json_ptrs_json.
Qed.

Definition toy_lower : str → str := fmap ascii_lower.
Definition toy_ts (n : N) : str := [n].
Definition toy_ent (uuid name group kind : str) (keyed : bool) : ent :=
  {| en_uuid := uuid; en_name := name; en_group := group; en_labels := []; en_kind := Some kind;
     en_key := if keyed then Some (compute_lookup_key (U:=AsciiUnicode) group kind name) else None; en_created := 1; en_attrs := #"{}" |}.
Definition toy_edge (uuid : str) (p : CrossGroupPointers) (srcs dsts : list str) : relnode :=
  {| rn_uuid := uuid; rn_name := #"KNOWS"; rn_group := #"L"; rn_attrs := @write_pointers KeyAttrs #"{}" p; rn_invalid := None;
     rn_srcs := srcs; rn_dsts := dsts |}.
Definition toy_dst (uuid : option str) (st : BindingState) : CrossGroupPointers :=
  {| ptr_src := None; ptr_dst := Some (toy_pointer #"S" #"bob" uuid (Some 1%N) st) |}.
Definition toy_graph (ents : list ent) (rels : list relnode) : graph :=
  {| g_ents := ents; g_eps := []; g_rels := rels; g_direct := []; g_kinds := [ #"Entity" ]; g_scans := 0; g_pending := [] |}.
Definition toy_applied (g : str) : option N := Some 5%N.
Definition toy_rebind := @rebind_pointers_impl AsciiUnicode KeyAttrs toy_lower toy_ts toy_applied false.
Definition toy_amy : ent := toy_ent #"a" #"Amy" #"L" #"Entity" true.
Definition toy_bob (keyed : bool) : ent := toy_ent #"b" #"Bob" #"S" #"Entity" keyed.
Definition toy_unbound : graph := toy_graph [toy_amy; toy_bob false] [toy_edge #"e" (toy_dst None Unbound) [ #"a" ] []].

Lemma toy_ents_ok b : ents_ok (toy_graph [toy_amy; toy_bob b] []).
Proof. split; [apply (bool_decide_unpack _); by destruct b|]. apply (bool_decide_unpack _). by destruct b. Qed.
Lemma toy_hop_ok u p srcs dsts :
  (length srcs ≤ 1)%nat → (length dsts ≤ 1)%nat → [] ∉ srcs → [] ∉ dsts → hop_ok (toy_edge u p srcs dsts).
Proof. intros ? ? ? ? []; by split. Qed.

Lemma rebind_settles_witness :
  let o := toy_rebind #"S" #"now" toy_unbound in
  (bound o.1.1 = 1%N ∧ (rn_dsts <$> g_rels o.2) = [[ #"b" ]]) ∧ later toy_unbound o.2.
Proof.
  intros o. split; [vm_compute; done|]. destruct o as [[c gr] g'] eqn:Ho.
  destruct (@rebind_settles AsciiUnicode KeyAttrs KeyAttrsLaws toy_lower toy_ts toy_applied false #"S" #"now" toy_unbound c gr g') as [H _].
  - apply NoDup_singleton.
  - apply Forall_singleton. apply toy_hop_ok; cbn; (lia || set_solver).
  - apply (toy_ents_ok false).
  - done.
  - exact Ho.
  - exact H.
Defined.

(** The repair of Bob's row, which is the source group's, is in the bucket of the edge's group. *)
Lemma rebind_buckets_witness :
  let o := toy_rebind #"S" #"now" toy_unbound in
  (#"S", MHeal #"b") ∈ default [] (o.1.2 !! #"L") ∧
  bucket_ok (λ o m, m.1 = o ∨ inhabited #"S" toy_unbound ∧ is_heal #"S" m) o.1.2.
Proof.
  intros o. split; [apply (bool_decide_unpack _); vm_compute; done|]. destruct o as [[c gr] g'] eqn:Ho.
  apply (@rebind_buckets AsciiUnicode KeyAttrs toy_lower toy_ts toy_applied false #"S" #"now" toy_unbound c gr g').
  - apply NoDup_singleton.
  - apply Forall_singleton. apply toy_hop_ok; cbn; (lia || set_solver).
  - apply (toy_ents_ok false).
  - done.
  - exact Ho.
Defined.

Lemma authority_lookup_exact_witness :
  let o := @get_entity_by_name_ci_with_scan_fallback AsciiUnicode #" BOB" #"S" #"Entity" toy_unbound in
  o.1 = Some (toy_bob false) ∧ is_Some (@probe AsciiUnicode o.2 #" BOB" #"S" #"Entity").
Proof.
  intros o. split; [vm_compute; done|].
  destruct (@authority_lookup_exact AsciiUnicode #" BOB" #"S" #"Entity" toy_unbound o.1 o.2) as (_ & _ & _ & H).
  - apply (bool_decide_unpack _). vm_compute. done.
  - apply surjective_pairing.
  - apply H; [by eexists|]. intros e He. repeat (apply elem_of_cons in He as [->|He]; [vm_compute; done|]). by apply elem_of_nil in He.
Defined.

Lemma resolution_sound_witness :
  let o := @resolve_endpoint_kind AsciiUnicode KeyAttrs toy_lower toy_ts #"S" #"bob" None toy_unbound in
  o.1 = (Bound, Some #"b") ∧ healed #"S" toy_unbound o.2.
Proof.
  intros o. split; [vm_compute; done|]. destruct o as [[st u] g'] eqn:Ho.
  destruct (@resolution_sound AsciiUnicode KeyAttrs toy_lower toy_ts #"S" #"bob" None toy_unbound st u g') as (_ & H & _).
  - apply (bool_decide_unpack _). vm_compute. done.
  - exact Ho.
  - exact H.
Defined.

(** Two active rows named Bob: one kind is keyed, the other is not. *)
Lemma unkeyed_row_masked_witness :
  let keyed := toy_graph [toy_bob true] [] in
  let org := toy_ent #"o" #"Bob" #"S" #"Org" false in
  (fst (@resolve_entities_by_name_any_kind AsciiUnicode toy_ts #"bob" #"S" (with_ents (org :: g_ents keyed) keyed)) = [toy_bob true] ∧
   length (fst (@resolve_entities_by_name_in_kinds AsciiUnicode toy_ts #"bob" #"S" [ #"Entity"; #"Org" ] (with_ents (org :: g_ents keyed) keyed))) = 2%nat ∧
   fst (@resolve_endpoint_kind AsciiUnicode KeyAttrs toy_lower toy_ts #"S" #"bob" None (with_ents (org :: g_ents keyed) keyed)) = (Bound, Some #"b")).
Proof.
  intros keyed org. split; [|split; vm_compute; done].
  rewrite (@unkeyed_row_masked AsciiUnicode toy_ts #"bob" #"S" keyed org); vm_compute; done.
Defined.

(** The pointer still records the merged-away row [#"x"]; the hop already leads to its canonical. *)
Definition toy_stale : graph := toy_graph [toy_amy; toy_bob true] [toy_edge #"e" (toy_dst (Some #"x") Bound) [ #"a" ] [ #"b" ]].
Definition toy_res : SideResolution :=
  {| sr_side := Dst; sr_existing := toy_pointer #"S" #"bob" (Some #"x") (Some 1%N) Bound; sr_state := Bound; sr_uuid := Some #"b" |}.
Lemma edge_duplicate_of_itself_witness :
  let r := toy_edge #"e" (toy_dst (Some #"x") Bound) [ #"a" ] [ #"b" ] in
  invalidated_duplicate (toy_rebind #"S" #"now" toy_stale).1.1 = 1%N ∧
  @settle_candidate KeyAttrs #"now" (Some 5%N) (cand_of r) (@read_pointers KeyAttrs (rn_attrs r)) [toy_res] toy_stale =
    (one_duplicate, invalidate_edge #"e" #"now" toy_stale).
Proof.
  intros r. split; [vm_compute; done|].
  apply (@edge_duplicate_of_itself KeyAttrs #"now" (Some 5%N) [toy_res] toy_stale [] r []).
  - split; [done| |]; apply not_elem_of_nil.
  - vm_compute. done.
  - apply toy_hop_ok; cbn; (lia || set_solver).
  - vm_compute. done.
  - vm_compute. done.
  - vm_compute. done.
  - vm_compute. done.
Defined.
