(* ===== verification/GroupPurge.v ===== *)
(** * GroupPurge: removing whole groups (core/src/group_purge.rs)

    The deletions of each group, then a forced re-binding of every pointer into each.  Queries
    are taken to succeed, so the transaction always commits; the counts and the outcome are
    compared in the theorems. *)

From S2P Require Import Prelude Text Numbers Json WalScan Wal LegacyWal Replay Pointer Prompts Graph CrossGroup CrossGroupTheory.

(** Source: core/src/group_purge.rs 20-25 (GroupPurgeCounts) *)
Record GroupPurgeCounts := { gp_group : str; gp_entities : N; gp_episodes : N; gp_edges : N }.
(** Source: core/src/group_purge.rs 31-34 (UnboundImpact) *)
Record UnboundImpact := { ui_owner : str; ui_count : N }.
(** Source: core/src/group_purge.rs 43-47 (PurgeCounts) *)
Record PurgeCounts := { pu_dry_run : bool; pu_groups : list GroupPurgeCounts; pu_impacts : list UnboundImpact }.

Section purge.
Context {U : Unicode} {AC : AttrCodec} (db_lower : str → str) (ts_text : N → str) (applied : str → option N).

(** Source: core/src/group_purge.rs 80-91 (purge_groups) *)
Definition group_counts (g : graph) (gid : str) : GroupPurgeCounts :=
  {| gp_group := gid; gp_entities := count_entities_by_group_ids [gid] g;
     gp_episodes := count_episodics_by_group_ids [gid] g; gp_edges := count_relates_to_by_group_ids [gid] g |}.

(** Source: core/src/group_purge.rs 189-189 (compute_unbound_impacts) *)
Definition tally_one (owner : str) (tally : gmap str N) : gmap str N :=
  <[owner := add64 (default 0%N (tally !! owner)) 1]> tally.
(** Source: core/src/group_purge.rs 183-192 (compute_unbound_impacts) *)
Definition tally_candidate (purged : list str) (tally : gmap str N) (cand : str * str * str * str) : gmap str N :=
  let '(_, _, rn_group_id, attrs) := cand in
  if bool_decide (rn_group_id ∈ purged) then tally
  else foldl (λ t sp, if bool_decide (source_group_id sp.2 ∈ purged) then tally_one rn_group_id t else t)
         tally (ptr_iter (read_pointers attrs)).
(** Source: core/src/group_purge.rs 177-200 (compute_unbound_impacts) *)
Definition compute_unbound_impacts (purged : list str) (g : graph) : list UnboundImpact :=
  (λ e, {| ui_owner := e.1; ui_count := e.2 |}) <$>
    sort_by (λ a b : str * N, str_leb a.1 b.1)
      (map_to_list (foldl (tally_candidate purged) (∅ : gmap str N) (list_cross_group_pointer_candidates g))).

(** Source: core/src/group_purge.rs 119-125 (purge_groups) *)
Definition delete_group (st : GroupedMutations * graph) (gid : str) : GroupedMutations * graph :=
  let '(grouped, g) := st in
  let g := delete_relates_to_by_group_ids [gid] g in
  let g := delete_entities_by_group_ids [gid] g in
  let g := delete_episodics_by_group_ids [gid] g in
  drain_mutations_into gid grouped g.
(** The buckets of one pass added to the others.
    Source: core/src/group_purge.rs 134-136 (purge_groups) *)
Definition merge_buckets (more grouped : GroupedMutations) : GroupedMutations :=
  foldl (λ acc e, add_bucket e.1 e.2 acc) grouped (map_to_list more).
(** Source: core/src/group_purge.rs 132-137 (purge_groups) *)
Definition rebind_group (ts : str) (st : GroupedMutations * graph) (gid : str) : GroupedMutations * graph :=
  let '(grouped, g) := st in
  let '(_, rebind_grouped, g) := rebind_pointers_forced db_lower ts_text applied gid ts g in
  (merge_buckets rebind_grouped grouped, g).
(** Source: core/src/group_purge.rs 75-157 (purge_groups) *)
Definition purge_groups (group_ids : list str) (ts : str) (dry_run : bool) (g : graph) : PurgeCounts * GroupedMutations * graph :=
  let groups := group_counts g <$> group_ids in
  let unbound_impacts := compute_unbound_impacts group_ids g in
  if dry_run then ({| pu_dry_run := true; pu_groups := groups; pu_impacts := unbound_impacts |}, ∅, g)
  else
    let st := foldl delete_group ((∅ : GroupedMutations), g) group_ids in
    let '(grouped, g) := foldl (rebind_group ts) st group_ids in
    ({| pu_dry_run := false; pu_groups := groups; pu_impacts := unbound_impacts |}, grouped, g).
End purge.

(** ** The forced pass over an emptied group *)

Section theory.
Context {U : Unicode} {AC : AttrCodec} {AL : AttrCodecLaws} (db_lower : str → str) (ts_text : N → str) (applied : str → option N).
(** The compact printer quotes every key. *)
Context (print_key : ∀ m, POINTERS_KEY ∈ keys m → contains key_mark (json_print (VObject m)) = true).

Definition unbound_ptr (p : CrossGroupPointer) : CrossGroupPointer :=
  {| source_group_id := source_group_id p; endpoint_name := endpoint_name p; endpoint_kind := endpoint_kind p;
     resolved_uuid := None; bound_at_seq := applied (source_group_id p); binding_state := Unbound |}.
Definition same_edge (r r' : relnode) : Prop :=
  rn_uuid r' = rn_uuid r ∧ rn_name r' = rn_name r ∧ rn_group r' = rn_group r ∧ rn_invalid r' = rn_invalid r.
(** The edge [r] once every pointer into [gids] is let go. *)
Definition unbinds (gids : list str) (r r' : relnode) : Prop :=
  if pointer_edge r then
    same_edge r r' ∧ pointer_edge r' = true ∧ ∀ side,
      match ptr_get side (read_pointers (rn_attrs r)) with
      | Some p =>
          if bool_decide (source_group_id p ∈ gids)
          then ptr_get side (read_pointers (rn_attrs r')) = Some (unbound_ptr p) ∧ hops side r' = []
          else ptr_get side (read_pointers (rn_attrs r')) = Some p ∧ hops side r' = hops side r
      | None => ptr_get side (read_pointers (rn_attrs r')) = None ∧ hops side r' = hops side r
      end
  else r' = r.

Lemma written_pointer_edge r attrs p :
  is_empty p = false → rn_attrs r = write_pointers attrs p → rn_invalid r = None → pointer_edge r = true.
Proof.
  intros He Ha Hi. unfold pointer_edge. rewrite Ha, Hi, (bool_decide_eq_true_2 (None = None)), andb_true_r by done.
  unfold write_pointers. rewrite He. apply print_key. rewrite obj_insert_keys. case_bool_decide; [done|]. set_solver.
Qed.
Lemma prospective_unbound rs actual : all_unbound rs → rs ≠ [] → both (prospective rs actual) = false.
Proof.
  intros Hu Hne. assert (H : ∀ rs actual, all_unbound rs → both actual = false → both (prospective rs actual) = false).
  { clear. induction rs as [|x rs IH]; intros actual Hu Hb; [done|]. apply Forall_cons in Hu as [[_ Hx] Hu]. cbn.
    apply IH; [done|]. rewrite Hx. destruct (sr_side x); unfold both in *; cbn in *; [done|]. apply andb_false_r. }
  destruct rs as [|x rs]; [done|]. apply Forall_cons in Hu as [[_ Hx] Hu]. cbn. apply H; [done|]. rewrite Hx.
  destruct (sr_side x); unfold both; cbn; [done|apply andb_false_r].
Qed.
Lemma due_forced source seq ptrs side :
  due true source seq ptrs side = (p ← ptr_get side ptrs; if bool_decide (source_group_id p = source) then Some p else None).
Proof. unfold due. destruct (ptr_get side ptrs); [|done]. cbn. by rewrite andb_true_r. Qed.

Lemma visited_unbinds source ts g g' r r' :
  ¬ inhabited source g → pointer_edge r = true →
  visited_as true source ts (applied source) g g' r r' → unbinds [source] r r'.
Proof.
  intros Hni Hpe (rs & ga & gb & Hla & Hs & _ & Hcase). unfold unbinds. rewrite Hpe.
  destruct (so_empty _ _ _ _ _ _ _ Hs) as (Hu & _); [intros Hi; apply Hni; by eapply later_inhabited|].
  assert (Hdue : ∀ side p, ptr_get side (read_pointers (rn_attrs r)) = Some p → source_group_id p = source →
    ∃ x, x ∈ rs ∧ sr_side x = side ∧ sr_existing x = p).
  { intros side p Hp Hsp. apply (so_due _ _ _ _ _ _ _ Hs). rewrite due_forced, Hp. cbn. by rewrite bool_decide_eq_true_2. }
  assert (Hnot : ∀ side, (∀ p, ptr_get side (read_pointers (rn_attrs r)) = Some p → source_group_id p ≠ source) → side ∉ sr_side <$> rs).
  { intros side Hp Hin. apply list_elem_of_fmap in Hin as (x & -> & Hx). pose proof (so_just _ _ _ _ _ _ _ Hs) as Hj.
    rewrite list.Forall_forall in Hj. destruct (Hj x Hx) as [Hd _]. rewrite due_forced in Hd. apply bind_Some in Hd as (p & Hg & Hd).
    specialize (Hp p Hg). by rewrite bool_decide_eq_false_2 in Hd. }
  destruct Hcase as [[-> ->]|[Hne [(_ & _ & Hb)| ->]]].
  - split; [done|]. split; [done|]. intros side. destruct (ptr_get side (read_pointers (rn_attrs r))) as [p|] eqn:Hp; [|done].
    case_bool_decide as Hin; [|done]. apply list_elem_of_singleton in Hin. destruct (Hdue side p Hp Hin) as (x & Hx & _). by apply elem_of_nil in Hx.
  - by rewrite prospective_unbound in Hb.
  - assert (Hpt : read_pointers (rn_attrs (settled_rel (applied source) rs r)) = foldl (set_ptr (applied source)) (read_pointers (rn_attrs r)) rs)
      by (apply settled_pointers; [apply Hs|done]).
    destruct (foldl_set_res_same rs r) as (S1 & S2 & S3 & S4 & S5).
    split; [by unfold same_edge; cbn; rewrite S1, S2, S4, S5|]. split.
    + eapply (written_pointer_edge _ (rn_attrs r)); [| reflexivity |].
      * destruct rs as [|x rs]; [done|]. eapply ptr_get_nonempty. apply (fold_ptrs_at _ (x :: rs) x); [apply Hs|left].
      * cbn. rewrite S4. unfold pointer_edge in Hpe. apply andb_true_iff in Hpe as [_ Hi]. by apply bool_decide_eq_true in Hi.
    + intros side. rewrite Hpt, settled_hops. destruct (ptr_get side (read_pointers (rn_attrs r))) as [p|] eqn:Hp.
      * case_bool_decide as Hin.
        -- apply list_elem_of_singleton in Hin. destruct (Hdue side p Hp Hin) as (x & Hx & <- & <-).
           rewrite fold_ptrs_at, fold_hops_at by (apply Hs || done). unfold all_unbound in Hu. rewrite list.Forall_forall in Hu.
           destruct (Hu x Hx) as [Hst Hun]. rewrite Hun. split; [|done]. unfold new_pointer, unbound_ptr. by rewrite Hst, Hun, Hin.
        -- rewrite fold_ptrs_other, fold_hops_other; [done|..]; apply Hnot; intros q Hq; rewrite Hp in Hq; injection Hq as <-; set_solver.
      * rewrite fold_ptrs_other, fold_hops_other; [done|..]; apply Hnot; intros q Hq; congruence.
Qed.

(** What the re-binding of the purged groups needs of the graph, and keeps. *)
Record purge_ready (gids : list str) (g : graph) : Prop := {
  pr_rels : NoDup (rn_uuid <$> g_rels g);
  pr_hops : Forall hop_ok (g_rels g);
  pr_ents : ents_ok g;
  pr_pending : g_pending g = [];
  pr_empty : ∀ gid, gid ∈ gids → ¬ inhabited gid g;
}.
Lemma unbinds_hop_ok gids r r' : hop_ok r → unbinds gids r r' → hop_ok r'.
Proof.
  unfold unbinds. destruct (pointer_edge r); [|by intros ? ->]. intros Hok (_ & _ & H) side. specialize (H side).
  destruct (ptr_get side _); [case_bool_decide|]; destruct H as [_ ->]; try apply Hok. split; [cbn; lia|apply not_elem_of_nil].
Qed.
Lemma unbinds_uuid gids r r' : unbinds gids r r' → rn_uuid r' = rn_uuid r.
Proof. unfold unbinds. destruct (pointer_edge r); [|by intros ->]. by intros ((? & _) & _). Qed.
Lemma unbinds_nil r : unbinds [] r r.
Proof.
  unfold unbinds. destruct (pointer_edge r) eqn:Hp; [|done]. split; [done|]. split; [done|]. intros side.
  by destruct (ptr_get side _).
Qed.
Lemma unbinds_trans gids gids' a b c : unbinds gids a b → unbinds gids' b c → unbinds (gids ++ gids') a c.
Proof.
  unfold unbinds at 1 3. destruct (pointer_edge a) eqn:Ha.
  - intros ((A1 & A2 & A3 & A4) & Hb & H1). unfold unbinds. rewrite Hb. intros ((B1 & B2 & B3 & B4) & Hc & H2).
    split; [unfold same_edge; split_and!; congruence|]. split; [done|]. intros side. specialize (H1 side). specialize (H2 side).
    destruct (ptr_get side (read_pointers (rn_attrs a))) as [p|].
    + destruct (bool_decide (source_group_id p ∈ gids)) eqn:E1.
      * destruct H1 as [Hp Hh]. rewrite Hp in H2. apply bool_decide_eq_true in E1. rewrite bool_decide_eq_true_2 by set_solver.
        cbn [source_group_id unbound_ptr] in H2. case_bool_decide; destruct H2 as [-> ->]; [done|by rewrite Hh].
      * destruct H1 as [Hp Hh]. rewrite Hp in H2. apply bool_decide_eq_false in E1. rewrite Hh in H2.
        destruct (bool_decide (source_group_id p ∈ gids')) eqn:E2.
        -- apply bool_decide_eq_true in E2. by rewrite bool_decide_eq_true_2 by set_solver.
        -- apply bool_decide_eq_false in E2. by rewrite bool_decide_eq_false_2 by set_solver.
    + destruct H1 as [Hp Hh]. rewrite Hp, Hh in H2. done.
  - intros ->. unfold unbinds. by rewrite Ha.
Qed.

Lemma forall2_compose {A B C} (P : A → B → Prop) (Q : B → C → Prop) (R : A → C → Prop) l k m :
  (∀ a b c, P a b → Q b c → R a c) → Forall2 P l k → Forall2 Q k m → Forall2 R l m.
Proof.
  intros HR HP. revert m. induction HP as [|a b l k Hab _ IH]; intros m HQ; inversion HQ; subst; constructor; eauto.
Qed.
Definition owned : str → str * gmut → Prop := λ o m, m.1 = o.
Lemma merge_buckets_ok P more grouped : bucket_ok P more → bucket_ok P grouped → bucket_ok P (merge_buckets more grouped).
Proof.
  intros Hm Hg. unfold merge_buckets.
  assert (Hall : Forall (λ e, Forall (P e.1) e.2) (map_to_list more)).
  { apply list.Forall_forall. intros [o ms] Hin. apply elem_of_map_to_list in Hin. by apply Hm. }
  revert grouped Hg. induction Hall as [|e l He _ IH]; intros grouped Hg; [done|]. cbn. apply IH. by apply add_bucket_ok.
Qed.
Lemma rebind_loop ts gids : ∀ grouped g grouped' g',
  purge_ready gids g → bucket_ok owned grouped →
  foldl (rebind_group db_lower ts_text applied ts) (grouped, g) gids = (grouped', g') →
  Forall2 (unbinds gids) (g_rels g) (g_rels g') ∧ g_ents g' = g_ents g ∧ g_eps g' = g_eps g ∧ g_pending g' = [] ∧ bucket_ok owned grouped'.
Proof.
  induction gids as [|gid gids IH]; intros grouped g grouped' g' Hr Hb.
  - intros [= <- <-]. split; [|by destruct Hr]. apply Forall_Forall2_diag, Forall_true. apply unbinds_nil.
  - cbn [foldl]. destruct (rebind_group db_lower ts_text applied ts (grouped, g) gid) as [gr1 g1] eqn:H1. intros H2.
    destruct Hr as [Hnd Hok Hents Hpd Hemp]. assert (Hni : ¬ inhabited gid g) by (apply Hemp; left).
    unfold rebind_group, rebind_pointers_forced in H1.
    destruct (rebind_pointers_impl _ _ _ true gid ts g) as [[c more] g1'] eqn:Hp. injection H1 as <- <-.
    unfold rebind_pointers_impl in Hp. rewrite candidates_eq in Hp.
    apply (pass_spec db_lower ts_text true gid ts (applied gid) (g_rels g) []) in Hp as (rels' & Hrels & HF & Hl & Hpd1 & He1 & Hb1); try done.
    assert (HF1 : Forall2 (unbinds [gid]) (g_rels g) (g_rels g1')).
    { rewrite Hrels. cbn [app]. eapply Forall2_impl; [exact HF|]. intros r r' Hrr. unfold rebound in Hrr.
      destruct (pointer_edge r) eqn:Hpe; [by eapply visited_unbinds|]. unfold unbinds. by rewrite Hpe. }
    assert (Hu1 : rn_uuid <$> g_rels g1' = rn_uuid <$> g_rels g).
    { clear -HF1. induction HF1 as [|r r' l l' Hr _ IHl]; [done|]. cbn. by rewrite (unbinds_uuid _ _ _ Hr), IHl. }
    apply IH in H2 as (HF2 & He2 & Hp2 & Hpd2 & Hb2).
    + split; [|split; [rewrite He2; by apply He1|split; [|done]]].
      * eapply forall2_compose; [|exact HF1|exact HF2]. intros a b d Hab Hbd. apply (unbinds_trans [gid] gids _ _ _ Hab Hbd).
      * rewrite Hp2. apply Hl.
    + split; [by rewrite Hu1| |by eapply later_ents_ok|done|].
      * clear -HF1 Hok. induction HF1 as [|r r' l l' Hr _ IHl]; [constructor|]. apply Forall_cons in Hok as [? ?].
        constructor; [by eapply unbinds_hop_ok|by apply IHl].
      * intros gid' Hin Hi. apply (Hemp gid'); [by right|]. by eapply later_inhabited.
    + apply merge_buckets_ok; [|done]. apply Hb1; [apply bucket_ok_empty|]. intros o m [[? _]|?]; done.
Qed.

(** ** The deletions *)

(** An entity of that uuid goes with its group. *)
Definition severed (gids : list str) (g : graph) (u : str) : bool :=
  existsb (λ e, bool_decide (en_uuid e = u) && bool_decide (en_group e ∈ gids)) (g_ents g).
Definition cut (gids : list str) (g : graph) (r : relnode) : relnode :=
  set_hops Src (List.filter (λ u, negb (severed gids g u)) (rn_srcs r)) (set_hops Dst (List.filter (λ u, negb (severed gids g u)) (rn_dsts r)) r).
Definition outside {A} (f : A → str) (gids : list str) (l : list A) : list A := List.filter (λ x, negb (bool_decide (f x ∈ gids))) l.

Lemma filter_filter {A} (f h : A → bool) l : List.filter f (List.filter h l) = List.filter (λ x, h x && f x) l.
Proof. induction l as [|a l IH]; [done|]. cbn. destruct (h a); cbn; [destruct (f a)|]; by rewrite ?IH. Qed.
Lemma outside_cons {A} (f : A → str) gid gids l : outside f gids (outside f [gid] l) = outside f (gid :: gids) l.
Proof.
  unfold outside. rewrite filter_filter. apply filter_ext. intros x. repeat case_bool_decide; set_solver.
Qed.
Lemma severed_gone gid g u :
  bool_decide (u ∈ en_uuid <$> List.filter (λ e, bool_decide (en_group e ∈ [gid])) (g_ents g)) = severed [gid] g u.
Proof.
  unfold severed. induction (g_ents g) as [|e l IH]; [done|]. cbn [existsb List.filter].
  destruct (bool_decide (en_group e ∈ [gid])) eqn:Hg; [|by rewrite andb_false_r].
  rewrite andb_true_r, <- IH, fmap_cons. repeat case_bool_decide; set_solver.
Qed.
Lemma severed_cons gid gids g g1 u :
  g_ents g1 = outside en_group [gid] (g_ents g) →
  negb (severed [gid] g u) && negb (severed gids g1 u) = negb (severed (gid :: gids) g u).
Proof.
  intros Hg. rewrite <- negb_orb. f_equal. apply eq_true_iff_eq. unfold severed. rewrite orb_true_iff, !existsb_exists, Hg.
  split.
  - intros [(e & Hin & Hb)|(e & Hin & Hb)]; exists e.
    + split; [done|]. apply andb_true_iff in Hb as [-> Hb]. apply bool_decide_eq_true in Hb. apply bool_decide_eq_true. set_solver.
    + apply list_elem_of_In, filter_elem in Hin as [Hin _]. split; [by apply list_elem_of_In|].
      apply andb_true_iff in Hb as [-> Hb]. apply bool_decide_eq_true in Hb. apply bool_decide_eq_true. by right.
  - intros (e & Hin & Hb). apply andb_true_iff in Hb as [Hu Hb]. apply bool_decide_eq_true in Hb.
    destruct (decide (en_group e = gid)) as [Hgid|Hgid].
    + left. exists e. split; [done|]. rewrite Hu. apply bool_decide_eq_true. set_solver.
    + right. exists e. split.
      * apply list_elem_of_In, filter_elem. split; [by apply list_elem_of_In|]. rewrite bool_decide_eq_false_2; [done|set_solver].
      * rewrite Hu. apply bool_decide_eq_true. set_solver.
Qed.
Lemma severed_nil g u : severed [] g u = false.
Proof.
  unfold severed. induction (g_ents g) as [|e l IH]; [done|]. cbn [existsb]. rewrite IH, (bool_decide_eq_false_2 (en_group e ∈ [])) by apply not_elem_of_nil.
  by rewrite andb_false_r.
Qed.
Lemma filter_true {A} (f : A → bool) (l : list A) : (∀ x, f x = true) → List.filter f l = l.
Proof. intros H. induction l as [|a l IH]; [done|]. cbn. by rewrite H, IH. Qed.
Lemma outside_nil {A} (f : A → str) l : outside f [] l = l.
Proof. apply filter_true. intros x. rewrite bool_decide_eq_false_2; [done|apply not_elem_of_nil]. Qed.
Lemma cut_nil g r : cut [] g r = r.
Proof.
  unfold cut. rewrite !filter_true by (intros u; by rewrite severed_nil). by destruct r.
Qed.
Lemma cut_cut gid gids g g1 r :
  g_ents g1 = outside en_group [gid] (g_ents g) → cut gids g1 (cut [gid] g r) = cut (gid :: gids) g r.
Proof.
  intros Hg. unfold cut, set_hops. cbn. rewrite !filter_filter.
  f_equal; apply filter_ext; intros u; by apply severed_cons.
Qed.
Lemma filter_cut_group gids gid g (l : list relnode) :
  outside rn_group gids (cut [gid] g <$> l) = cut [gid] g <$> outside rn_group gids l.
Proof.
  unfold outside. induction l as [|r l IH]; [done|]. cbn.
  destruct (negb (bool_decide (rn_group r ∈ gids))); cbn; by rewrite IH.
Qed.
Lemma delete_group_spec grouped g gid grouped1 g1 :
  g_pending g = [] → bucket_ok owned grouped → delete_group (grouped, g) gid = (grouped1, g1) →
  g_ents g1 = outside en_group [gid] (g_ents g) ∧ g_eps g1 = outside snd [gid] (g_eps g) ∧
  g_rels g1 = cut [gid] g <$> outside rn_group [gid] (g_rels g) ∧ g_pending g1 = [] ∧ bucket_ok owned grouped1.
Proof.
  intros Hpd Hb. cbn [delete_group]. set (g2 := delete_episodics_by_group_ids _ _). intros H. split; [|split; [|split]].
  - by injection H as _ <-.
  - by injection H as _ <-.
  - injection H as _ <-. subst g2. cbn. apply list_fmap_ext. intros i r _. unfold cut, set_hops. cbn.
    f_equal; apply filter_ext; intros u; f_equal; apply severed_gone.
  - split; [by injection H as _ <-|]. eapply drain_ok; [exact H|done|].
    subst g2. cbn. rewrite Hpd. cbn. repeat constructor.
Qed.
Lemma delete_loop gids : ∀ grouped g grouped' g',
  g_pending g = [] → bucket_ok owned grouped → foldl delete_group (grouped, g) gids = (grouped', g') →
  g_ents g' = outside en_group gids (g_ents g) ∧ g_eps g' = outside snd gids (g_eps g) ∧
  g_rels g' = cut gids g <$> outside rn_group gids (g_rels g) ∧ g_pending g' = [] ∧ bucket_ok owned grouped'.
Proof.
  induction gids as [|gid gids IH]; intros grouped g grouped' g' Hpd Hb.
  - intros [= <- <-]. rewrite !outside_nil. split; [done|]. split; [done|]. split; [|done].
    rewrite <- (list_fmap_id (g_rels g)) at 1. apply list_fmap_ext. intros i r _. by rewrite cut_nil.
  - cbn [foldl]. destruct (delete_group (grouped, g) gid) as [gr1 g1] eqn:H1. intros H2.
    apply delete_group_spec in H1 as (E1 & P1 & R1 & D1 & B1); [|done..].
    apply IH in H2 as (E2 & P2 & R2 & D2 & B2); [|done..].
    split; [by rewrite E2, E1, outside_cons|]. split; [by rewrite P2, P1, outside_cons|]. split; [|done].
    rewrite R2, R1, filter_cut_group, outside_cons, <- list_fmap_compose. apply list_fmap_ext. intros i r _. by apply cut_cut.
Qed.

Lemma nodup_filter_map {A} (f : A → str) (P : A → bool) (l : list A) : NoDup (f <$> l) → NoDup (f <$> List.filter P l).
Proof.
  induction l as [|a l IH]; [done|]. rewrite fmap_cons. intros [Ha Hn]%NoDup_cons. cbn. destruct (P a); [|by apply IH].
  rewrite fmap_cons. apply NoDup_cons. split; [|by apply IH]. intros (x & Hx & Hin)%list_elem_of_fmap. apply filter_elem in Hin as [Hin _].
  apply Ha. rewrite Hx. by apply list_elem_of_fmap_2.
Qed.
Lemma purge_ready_deleted gids grouped g grouped' g' :
  NoDup (rn_uuid <$> g_rels g) → Forall hop_ok (g_rels g) → ents_ok g → g_pending g = [] → bucket_ok owned grouped →
  foldl delete_group (grouped, g) gids = (grouped', g') → purge_ready gids g'.
Proof.
  intros Hn Hok [Hen Hne] Hpd Hb H. apply delete_loop in H as (He & _ & Hr & Hp & _); [|done..].
  split; [| | |done|].
  - rewrite Hr, <- list_fmap_compose. change (rn_uuid ∘ cut gids g) with (λ r, rn_uuid r). by apply nodup_filter_map.
  - rewrite Hr. apply Forall_fmap, list.Forall_forall. intros r Hin. apply filter_elem in Hin as [Hin _].
    rewrite list.Forall_forall in Hok. intros side. cbn. destruct (Hok r Hin side) as [Hl Hne']. destruct side; cbn in *.
    all: split; [etrans; [apply filter_length_le|done]|by rewrite filter_elem; intros [? _]].
  - split; rewrite He.
    + by apply nodup_filter_map.
    + intros (x & Hx & Hin)%list_elem_of_fmap. apply filter_elem in Hin as [Hin _]. apply Hne. rewrite Hx. by apply list_elem_of_fmap_2.
  - intros gid Hgid Hi. unfold inhabited in Hi. apply Exists_exists in Hi as (e & Hin & Heg). rewrite He in Hin.
    apply filter_elem in Hin as [_ Hx]. rewrite Heg, bool_decide_eq_true_2 in Hx by done. done.
Qed.

Lemma cut_unbinds gids g (l l' : list relnode) :
  Forall2 (unbinds gids) (cut gids g <$> l) l' → Forall2 (λ r r', same_edge r r' ∧ unbinds gids (cut gids g r) r') l l'.
Proof.
  intros HF. apply (Forall2_fmap_l (cut gids g) (unbinds gids)) in HF. eapply Forall2_impl; [exact HF|]. intros r r' Hu. split; [|done].
  change (unbinds gids (cut gids g r) r') in Hu. unfold unbinds in Hu. destruct (pointer_edge (cut gids g r)); [by destruct Hu|by subst r'].
Qed.

Lemma purge_run gids ts g counts grouped g' :
  NoDup (rn_uuid <$> g_rels g) → Forall hop_ok (g_rels g) → ents_ok g → g_pending g = [] →
  purge_groups db_lower ts_text applied gids ts false g = (counts, grouped, g') →
  g_ents g' = outside en_group gids (g_ents g) ∧ g_eps g' = outside snd gids (g_eps g) ∧
  Forall2 (unbinds gids) (cut gids g <$> outside rn_group gids (g_rels g)) (g_rels g') ∧ bucket_ok owned grouped ∧ g_pending g' = [].
Proof.
  intros Hn Hok Hen Hpd. unfold purge_groups. destruct (foldl delete_group _ gids) as [gr1 g1] eqn:Hd.
  destruct (foldl (rebind_group _ _ _ ts) (gr1, g1) gids) as [gr2 g2] eqn:Hr. intros [= <- <- <-].
  assert (Hready : purge_ready gids g1) by (eapply purge_ready_deleted; try done; apply bucket_ok_empty).
  apply delete_loop in Hd as (E1 & P1 & R1 & _ & B1); [|done|apply bucket_ok_empty].
  apply rebind_loop in Hr as (HF & E2 & P2 & D2 & B2); [|done..].
  split; [congruence|]. split; [congruence|]. split; [by rewrite <- R1|done].
Qed.

(** C18. A purge is complete and leaves nobody else's data damaged.  No entity, episode or edge of
    a purged group remains; those of every other group remain, in order, each edge losing exactly
    its hops to the entities that are gone.  Every pointer into a purged group that a surviving
    live edge carries has become unbound, with no identifier and no hop; every other pointer is as
    it was.  And every logged mutation is in the bucket of the group whose rows it changed. *)
Theorem purge_complete gids ts g counts grouped g' :
  NoDup (rn_uuid <$> g_rels g) → Forall hop_ok (g_rels g) → ents_ok g → g_pending g = [] →
  purge_groups db_lower ts_text applied gids ts false g = (counts, grouped, g') →
  g_ents g' = outside en_group gids (g_ents g) ∧ g_eps g' = outside snd gids (g_eps g) ∧
  Forall2 (λ r r', same_edge r r' ∧ unbinds gids (cut gids g r) r') (outside rn_group gids (g_rels g)) (g_rels g') ∧
  bucket_ok (λ o m, m.1 = o) grouped ∧ g_pending g' = [].
Proof.
  intros Hn Hok Hen Hpd H. apply purge_run in H as (HE & HP & HF & HB & HD); [|done..].
  split; [done|]. split; [done|]. split; [by apply cut_unbinds|done].
Qed.

(** ** The counts *)

(** The pointers into [gids] of an edge, and those of them that are let go. *)
Definition sides_into (gids : list str) (r : relnode) : N :=
  N.of_nat (length (List.filter (λ sp, bool_decide (source_group_id sp.2 ∈ gids)) (ptr_iter (read_pointers (rn_attrs r))))).
Definition sides_let_go (gids : list str) (r : relnode) : N :=
  N.of_nat (length (List.filter (λ sp, bool_decide (source_group_id sp.2 ∈ gids) && bool_decide (binding_state sp.2 = Unbound)
    && bool_decide (resolved_uuid sp.2 = None) && bool_decide (hops sp.1 r = [])) (ptr_iter (read_pointers (rn_attrs r))))).
Fixpoint total (f : relnode → N) (owner : str) (l : list relnode) : N :=
  match l with
  | [] => 0
  | r :: l => (if pointer_edge r && bool_decide (rn_group r = owner) then f r else 0) + total f owner l
  end%N.

Lemma sides_into_le gids r : (sides_into gids r ≤ 2)%N.
Proof.
  unfold sides_into. pose proof (filter_length_le (λ sp, bool_decide (source_group_id sp.2 ∈ gids)) (ptr_iter (read_pointers (rn_attrs r)))) as H.
  revert H. destruct (read_pointers (rn_attrs r)) as [[a|] [b|]]; cbn; lia.
Qed.
Lemma total_le gids owner l : (total (sides_into gids) owner l ≤ 2 * N.of_nat (length l))%N.
Proof.
  induction l as [|r l IH]; [done|]. cbn [total length]. pose proof (sides_into_le gids r).
  destruct (pointer_edge r && bool_decide (rn_group r = owner)); lia.
Qed.

(** A tally holds a function's positive values. *)
Definition tallies (t : gmap str N) (n : str → N) : Prop := ∀ o, t !! o = if (n o =? 0)%N then None else Some (n o).
Lemma tally_one_ok t n o : tallies t n → (n o + 1 < 2 ^ 64)%N →
  tallies (tally_one o t) (λ o', if bool_decide (o' = o) then n o + 1 else n o')%N.
Proof.
  intros Ht Hb o'. unfold tally_one. case_bool_decide as Ho.
  - subst o'. rewrite lookup_insert_eq. pose proof (Ht o) as H. destruct (N.eqb_spec (n o) 0) as [Hz|Hz]; rewrite H; cbn [default from_option id].
    + rewrite add64_small by lia. by rewrite Hz.
    + rewrite add64_small by lia. by destruct (N.eqb_spec (n o + 1) 0); [lia|].
  - rewrite lookup_insert_ne by done. apply Ht.
Qed.
Lemma tally_sides (purged : list str) (owner : str) l : ∀ t n,
  tallies t n → (n owner + N.of_nat (length l) < 2 ^ 64)%N →
  tallies (foldl (λ t (sp : EndpointSide * CrossGroupPointer), if bool_decide (source_group_id sp.2 ∈ purged) then tally_one owner t else t) t l)
    (λ o', if bool_decide (o' = owner) then n owner + N.of_nat (length (List.filter (λ sp, bool_decide (source_group_id sp.2 ∈ purged)) l)) else n o')%N.
Proof.
  induction l as [|sp l IH]; intros t n Ht Hb; cbn [foldl List.filter].
  - intros o. rewrite Ht. cbn. rewrite N.add_0_r. by case_bool_decide; subst.
  - cbn [length] in Hb. destruct (bool_decide (source_group_id sp.2 ∈ purged)).
    + intros o. rewrite (IH _ _ (tally_one_ok t n owner Ht ltac:(lia))); cbn beta.
      * rewrite !(bool_decide_eq_true_2 (owner = owner)) by done. cbn [length]. case_bool_decide; [|done].
        replace (n owner + 1 + _)%N with (n owner + N.of_nat (S (length (List.filter (λ sp, bool_decide (source_group_id sp.2 ∈ purged)) l))))%N by lia. done.
      * rewrite (bool_decide_eq_true_2 (owner = owner)) by done. lia.
    + apply IH; [done|lia].
Qed.
Lemma tally_candidates (purged : list str) (l : list relnode) : ∀ t n,
  tallies t n → (∀ o, n o + 2 * N.of_nat (length l) < 2 ^ 64)%N →
  tallies (foldl (tally_candidate purged) t (omap (λ r, if pointer_edge r then Some (cand_of r) else None) l))
    (λ o, n o + if bool_decide (o ∈ purged) then 0 else total (sides_into purged) o l)%N.
Proof.
  induction l as [|r l IH]; intros t n Ht Hb.
  - intros o. cbn. rewrite Ht. by case_bool_decide; rewrite N.add_0_r.
  - cbn [omap list_omap length total] in *. destruct (pointer_edge r); cbn [andb].
    + cbn [foldl tally_candidate cand_of]. case_bool_decide as Hp.
      * intros o. rewrite (IH t n Ht ltac:(intros o'; specialize (Hb o'); lia) o). case_bool_decide; [done|].
        rewrite (bool_decide_eq_false_2 (rn_group r = o)) by congruence. done.
      * assert (Hlen : (length (ptr_iter (read_pointers (rn_attrs r))) ≤ 2)%nat)
          by (destruct (read_pointers (rn_attrs r)) as [[a|] [b|]]; cbn; lia).
        intros o. rewrite (IH _ _ (tally_sides purged (rn_group r) (ptr_iter (read_pointers (rn_attrs r))) t n Ht ltac:(specialize (Hb (rn_group r)); lia))).
        -- unfold sides_into. case_bool_decide as Ho; [subst o; rewrite (bool_decide_eq_false_2 _ Hp), (bool_decide_eq_true_2 (rn_group r = rn_group r)) by done|].
           ++ rewrite N.add_assoc. done.
           ++ rewrite (bool_decide_eq_false_2 (rn_group r = o)) by congruence. done.
        -- intros o'. pose proof (filter_length_le (λ sp, bool_decide (source_group_id sp.2 ∈ purged)) (ptr_iter (read_pointers (rn_attrs r)))).
           specialize (Hb o') as Hb'. case_bool_decide; [subst o'|]; lia.
    + intros o. rewrite (IH t n Ht ltac:(intros o'; specialize (Hb o'); lia) o). done.
Qed.

Lemma unbinds_sides gids r r' : pointer_edge r = true → unbinds gids r r' → sides_into gids r = sides_let_go gids r'.
Proof.
  unfold unbinds. intros ->. intros (_ & _ & H). unfold sides_into, sides_let_go.
  pose proof (H Src) as H1. pose proof (H Dst) as H2. clear H.
  destruct (read_pointers (rn_attrs r)) as [a b]. destruct (read_pointers (rn_attrs r')) as [a' b'].
  unfold ptr_iter. cbn [ptr_src ptr_dst ptr_get] in *.
  assert (Hside : ∀ side (a a' : option CrossGroupPointer),
    match a with
    | Some p => if bool_decide (source_group_id p ∈ gids) then a' = Some (unbound_ptr p) ∧ hops side r' = []
                else a' = Some p ∧ hops side r' = hops side r
    | None => a' = None ∧ hops side r' = hops side r
    end →
    length (List.filter (λ sp : EndpointSide * CrossGroupPointer, bool_decide (source_group_id sp.2 ∈ gids)) (option_list (pair side <$> a))) =
    length (List.filter (λ sp : EndpointSide * CrossGroupPointer, bool_decide (source_group_id sp.2 ∈ gids) && bool_decide (binding_state sp.2 = Unbound)
      && bool_decide (resolved_uuid sp.2 = None) && bool_decide (hops sp.1 r' = [])) (option_list (pair side <$> a')))).
  { clear. intros side [p|] a'; [|by intros [-> _]]. destruct (bool_decide (source_group_id p ∈ gids)) eqn:E.
    - intros [-> Hh]. cbn. rewrite E, Hh. done.
    - intros [-> Hh]. cbn. by rewrite E. }
  rewrite !List.filter_app, !length_app, (Hside Src a a' H1), (Hside Dst b b' H2). done.
Qed.
Lemma totals_agree gids g o l : ∀ l',
  o ∉ gids → Forall2 (λ r r', same_edge r r' ∧ unbinds gids (cut gids g r) r') (outside rn_group gids l) l' →
  total (sides_into gids) o l = total (sides_let_go gids) o l'.
Proof.
  induction l as [|r l IH]; intros l' Ho; cbn [outside List.filter].
  - intros HF. inversion HF. done.
  - cbn [total]. case_bool_decide as Hg; cbn [negb].
    + intros HF. rewrite (bool_decide_eq_false_2 (rn_group r = o)) by congruence. rewrite andb_false_r. rewrite N.add_0_l. by apply IH.
    + intros HF. inversion HF as [|? r' ? l'' [Hs Hu] HF']; subst. cbn [total]. f_equal; [|by apply IH].
      destruct Hs as (_ & _ & Hgr & _). rewrite Hgr.
      assert (Hpe : pointer_edge r' = pointer_edge r).
      { unfold unbinds in Hu. change (pointer_edge (cut gids g r)) with (pointer_edge r) in Hu. destruct (pointer_edge r) eqn:E; [by destruct Hu as (_ & ? & _)|].
        subst r'. exact E. }
      rewrite Hpe. destruct (pointer_edge r) eqn:E; [|done]. cbn [andb]. case_bool_decide; [|done].
      by apply (unbinds_sides gids (cut gids g r)).
Qed.
Lemma total_no_owner f o l : (∀ r, r ∈ l → rn_group r ≠ o) → total f o l = 0%N.
Proof.
  induction l as [|r l IH]; intros H; [done|]. cbn. rewrite (bool_decide_eq_false_2 (rn_group r = o)) by (apply H; left).
  rewrite andb_false_r. apply IH. intros x Hx. apply H. by right.
Qed.

Fixpoint sum_by {A} (f : A → N) (l : list A) : N := match l with [] => 0 | a :: l => f a + sum_by f l end%N.
Lemma counted_out {A} (f : A → str) (gids : list str) (l : list A) :
  NoDup gids →
  (sum_by (λ gid, N.of_nat (length (List.filter (λ x, bool_decide (f x ∈ [gid])) l))) gids + N.of_nat (length (outside f gids l))
    = N.of_nat (length l))%N.
Proof.
  intros Hn. induction l as [|x l IH].
  - assert (H0 : ∀ gs : list str, sum_by (λ _, 0%N) gs = 0%N) by (intros gs; induction gs as [|a gs IHg]; [done|exact IHg]).
    change (sum_by (λ _, 0%N) gids + 0 = 0)%N. by rewrite H0.
  - assert (Hsum : sum_by (λ gid, N.of_nat (length (List.filter (λ x, bool_decide (f x ∈ [gid])) (x :: l)))) gids =
      ((if bool_decide (f x ∈ gids) then 1 else 0) + sum_by (λ gid, N.of_nat (length (List.filter (λ x, bool_decide (f x ∈ [gid])) l))) gids)%N).
    { clear IH. induction gids as [|gid gids IHg]; [by rewrite bool_decide_eq_false_2 by apply not_elem_of_nil|].
      apply NoDup_cons in Hn as [Hg Hn]. specialize (IHg Hn). cbn [sum_by List.filter] in *.
      destruct (decide (f x = gid)) as [<-|Hne].
      - rewrite (bool_decide_eq_false_2 (f x ∈ gids)) in IHg by done.
        rewrite (bool_decide_eq_true_2 (f x ∈ [f x])), (bool_decide_eq_true_2 (f x ∈ f x :: gids)) by set_solver.
        cbn [length]. lia.
      - rewrite (bool_decide_eq_false_2 (f x ∈ [gid])) by set_solver. rewrite (bool_decide_ext (f x ∈ gid :: gids) (f x ∈ gids)) by set_solver. lia. }
    rewrite Hsum. cbn [length outside List.filter]. case_bool_decide; cbn [negb length]; fold (outside f gids l); lia.
Qed.

(** The counts a purge reports are what happened, and a dry run reports the same ones and
    changes nothing.  When the groups are distinct, the entities, episodes and edges counted are
    the ones that went; and the impact listed for an owning group is, for every owner, exactly the
    number of pointers of its live edges that name a purged group and now stand unbound, without
    identifier and without hop. *)
Theorem purge_counts_agree gids ts g counts grouped g' :
  NoDup (rn_uuid <$> g_rels g) → Forall hop_ok (g_rels g) → ents_ok g → g_pending g = [] → NoDup gids →
  (2 * N.of_nat (length (g_rels g)) < 2 ^ 64)%N →
  purge_groups db_lower ts_text applied gids ts false g = (counts, grouped, g') →
  purge_groups db_lower ts_text applied gids ts true g =
    ({| pu_dry_run := true; pu_groups := pu_groups counts; pu_impacts := pu_impacts counts |}, ∅, g) ∧
  (sum_by gp_entities (pu_groups counts) + N.of_nat (length (g_ents g')) = N.of_nat (length (g_ents g)))%N ∧
  (sum_by gp_episodes (pu_groups counts) + N.of_nat (length (g_eps g')) = N.of_nat (length (g_eps g)))%N ∧
  (sum_by gp_edges (pu_groups counts) + N.of_nat (length (g_rels g')) = N.of_nat (length (g_rels g)))%N ∧
  (∀ o n, {| ui_owner := o; ui_count := n |} ∈ pu_impacts counts ↔ n = total (sides_let_go gids) o (g_rels g') ∧ n ≠ 0%N).
Proof.
  intros Hn Hok Hen Hpd Hgids Hb. unfold purge_groups. destruct (foldl delete_group _ gids) as [gr1 g1] eqn:Hd.
  destruct (foldl (rebind_group _ _ _ ts) (gr1, g1) gids) as [gr2 g2] eqn:Hr. intros [= <- <- <-]. cbn [pu_groups pu_impacts].
  assert (Hready : purge_ready gids g1) by (eapply purge_ready_deleted; try done; apply bucket_ok_empty).
  apply delete_loop in Hd as (E1 & P1 & R1 & _ & B1); [|done|apply bucket_ok_empty].
  apply rebind_loop in Hr as (HF & E2 & P2 & D2 & B2); [|done..].
  assert (HF' : Forall2 (λ r r', same_edge r r' ∧ unbinds gids (cut gids g r) r') (outside rn_group gids (g_rels g)) (g_rels g2)).
  { rewrite R1 in HF. by apply cut_unbinds. }
  assert (Hsum : ∀ f, sum_by f (group_counts g <$> gids) = sum_by (λ gid, f (group_counts g gid)) gids).
  { intros f. clear. induction gids as [|gid gids IH]; [done|]. cbn in *. by rewrite IH. }
  rewrite !Hsum. cbn [group_counts gp_entities gp_episodes gp_edges]. split; [done|].
  unfold count_entities_by_group_ids, count_episodics_by_group_ids, count_relates_to_by_group_ids.
  split; [rewrite E2, E1; by apply counted_out|]. split; [rewrite P2, P1; by apply counted_out|]. split.
  { rewrite <- (Forall2_length _ _ _ HF'). by apply (counted_out rn_group). }
  intros o n. unfold compute_unbound_impacts. rewrite list_elem_of_fmap.
  assert (Ht : tallies (foldl (tally_candidate gids) ∅ (list_cross_group_pointer_candidates g))
                 (λ o, total (sides_let_go gids) o (g_rels g2))).
  { rewrite candidates_eq. intros o'. rewrite (tally_candidates gids (g_rels g) ∅ (λ _, 0%N)); [|by intros ?; rewrite lookup_empty|intros _; lia].
    rewrite N.add_0_l. case_bool_decide as Ho; [|by rewrite (totals_agree gids g o' (g_rels g) (g_rels g2))].
    rewrite (total_no_owner _ o' (g_rels g2)); [done|]. intros r' Hin. apply list_elem_of_lookup in Hin as [i Hi].
    destruct (Forall2_lookup_r _ _ _ _ _ HF' Hi) as (r & Hri & (_ & _ & Hgr & _) & _).
    apply list_elem_of_lookup_2, filter_elem in Hri as [_ Hri]. rewrite Hgr. intros Heq. rewrite Heq, bool_decide_eq_true_2 in Hri by done. done. }
  split.
  - intros ([o' n'] & [= -> ->] & Hin). rewrite sort_by_elem, elem_of_map_to_list, (Ht o') in Hin.
    destruct (N.eqb_spec (total (sides_let_go gids) o' (g_rels g2)) 0); [done|]. by injection Hin as <-.
  - intros [-> Hz]. exists (o, total (sides_let_go gids) o (g_rels g2)). split; [done|].
    rewrite sort_by_elem, elem_of_map_to_list, (Ht o). by destruct (N.eqb_spec (total (sides_let_go gids) o (g_rels g2)) 0).
Qed.
End theory.

(** ** A concrete purge *)

Definition toy_bound : graph :=
  toy_graph [toy_amy; toy_bob true] [toy_edge #"e" (toy_dst (Some #"b") Bound) [ #"a" ] [ #"b" ]].
Definition toy_purge := @purge_groups AsciiUnicode KeyAttrs toy_lower toy_ts toy_applied [ #"S" ] #"now".
Lemma key_print m : POINTERS_KEY ∈ keys m → contains key_mark (@json_print KeyAttrs (VObject m)) = true.
Proof. intros _. apply contains_spec. by exists [], (print_tree (VObject m)). Qed.
Lemma toy_bound_hops : Forall hop_ok (g_rels toy_bound).
Proof. apply Forall_singleton. apply toy_hop_ok; cbn; (lia || set_solver). Qed.

Lemma triple_eta {A B C} (x : A * B * C) : x = (x.1.1, x.1.2, x.2).
Proof. by destruct x as [[]]. Qed.

Lemma purge_complete_witness :
  (rn_dsts <$> g_rels (toy_purge false toy_bound).2) = [[]] ∧ g_ents (toy_purge false toy_bound).2 = [toy_amy] ∧
  bucket_ok (λ o m, m.1 = o) (toy_purge false toy_bound).1.2.
Proof.
  split; [vm_compute; done|].
  destruct (@purge_complete AsciiUnicode KeyAttrs KeyAttrsLaws toy_lower toy_ts toy_applied key_print [ #"S" ] #"now" toy_bound _ _ _
    (NoDup_singleton _) toy_bound_hops (toy_ents_ok true) eq_refl (triple_eta _)) as (He & _ & _ & Hb & _).
  split; [|exact Hb]. vm_compute. done.
Defined.
Lemma purge_counts_agree_witness :
  pu_impacts (toy_purge false toy_bound).1.1 = [{| ui_owner := #"L"; ui_count := 1 |}] ∧
  toy_purge true toy_bound =
    ({| pu_dry_run := true; pu_groups := pu_groups (toy_purge false toy_bound).1.1; pu_impacts := pu_impacts (toy_purge false toy_bound).1.1 |}, ∅, toy_bound).
Proof.
  split; [vm_compute; done|].
  destruct (@purge_counts_agree AsciiUnicode KeyAttrs KeyAttrsLaws toy_lower toy_ts toy_applied key_print [ #"S" ] #"now" toy_bound _ _ _
    (NoDup_singleton _) toy_bound_hops (toy_ents_ok true) eq_refl (NoDup_singleton _) eq_refl (triple_eta _)) as (Hd & _).
  exact Hd.
Defined.
