(* ===== verification/SummaryMerge.v ===== *)
(** * SummaryMerge: bounded consolidation of entity summaries (core/src/summary_merge.rs)

    A text is its characters, so the byte offsets of the code are character positions here. *)

From S2P Require Import Prelude Text.

(** Source: core/src/summary_merge.rs 18-18 (MERGED_SUMMARY_CAP) *)
Definition MERGED_SUMMARY_CAP : nat := 600.
(** Source: core/src/summary_merge.rs 22-30 (ConsolidationPlan) *)
Inductive ConsolidationPlan := Keep | UseIncoming (s : str) | Consolidate.

(** [str::match_indices]: the disjoint occurrences from the left, each with what precedes it (in
    reverse) and what follows. *)
Fixpoint match_indices (needle : str) (skip : nat) (before s : str) : list (str * str) :=
  match s with
  | [] => []
  | c :: s' =>
      match skip with
      | S skip => match_indices needle skip (c :: before) s'
      | O =>
          match strip_prefix needle s with
          | Some rest => (before, rest) :: match_indices needle (pred (length needle)) (c :: before) s'
          | None => match_indices needle 0 (c :: before) s'
          end
      end
  end.

Section merge.
Context {U : Unicode}.

Definition boundary (o : option char) : bool := match o with Some c => negb (is_alphanumeric c) | None => true end.
(** Source: core/src/summary_merge.rs 35-54 (contains_on_word_boundaries) *)
Definition contains_on_word_boundaries (current incoming : str) : bool :=
  let starts_alnum := negb (boundary (head incoming)) in
  let ends_alnum := negb (boundary (last incoming)) in
  existsb (λ '(before, after), (negb starts_alnum || boundary (head before)) && (negb ends_alnum || boundary (head after)))
    (match_indices incoming 0 [] current).

Definition is_terminator (c : char) : bool := bool_decide (c ∈ [46%N; 33%N; 63%N]).
Definition ends_here (rest : str) : bool := match rest with [] => true | n :: _ => is_whitespace n end.
(** Source: core/src/summary_merge.rs 71-80 (sentence_ends) *)
Fixpoint sentence_ends (i : nat) (text : str) : list nat :=
  match text with
  | [] => []
  | c :: rest => if is_terminator c && ends_here rest then S i :: sentence_ends (S i) rest else sentence_ends (S i) rest
  end.

(** Source: core/src/summary_merge.rs 93-111 (cap_summary_to) *)
Definition cap_summary_to (text : str) (cap : nat) : str :=
  let text := trim text in
  if (length text <=? cap)%nat then text
  else
    match find_first (λ e, if (e <=? cap)%nat then Some e else None) (reverse (sentence_ends 0 text)) with
    | Some e => trim_end (take e text)
    | None => trim_end (take cap text)
    end.
(** Source: core/src/summary_merge.rs 89-91 (cap_summary) *)
Definition cap_summary (text : str) : str := cap_summary_to text MERGED_SUMMARY_CAP.

(** Source: core/src/summary_merge.rs 56-65 (decide_consolidation) *)
Definition decide_consolidation (current incoming : str) : ConsolidationPlan :=
  let incoming := trim incoming in
  if negb (nonempty incoming) || contains_on_word_boundaries current incoming then Keep
  else if negb (nonempty (trim current)) then UseIncoming (cap_summary incoming)
  else Consolidate.

(** The first sentence start from which the rest fits; [None] falls through to the cut.
    Source: core/src/summary_merge.rs 132-140 (fallback_merge_to) *)
Fixpoint first_fitting (joined : str) (cap : nat) (ends : list nat) : option str :=
  match ends with
  | [] => None
  | e :: ends =>
      let rest := trim_start (drop e joined) in
      if negb (nonempty rest) then None
      else if (length rest <=? cap)%nat then Some rest
      else first_fitting joined cap ends
  end.
(** Source: core/src/summary_merge.rs 121-148 (fallback_merge_to) *)
Definition fallback_merge_to (existing incoming : str) (cap : nat) : str :=
  let existing := trim existing in
  let incoming := trim incoming in
  let joined :=
    if negb (nonempty existing) then incoming else if negb (nonempty incoming) then existing
    else existing ++ [32%N] ++ incoming in
  if (length joined <=? cap)%nat then joined
  else
    match first_fitting joined cap (sentence_ends 0 joined) with
    | Some rest => rest
    | None => trim_start (drop (length joined - cap) joined)
    end.
(** Source: core/src/summary_merge.rs 117-119 (fallback_merge) *)
Definition fallback_merge (existing incoming : str) : str := fallback_merge_to existing incoming MERGED_SUMMARY_CAP.

(** One quote removed from both ends, when the text holds no other of its kind.
    Source: core/src/summary_merge.rs 182-187 (finalize_consolidation) *)
Definition unwrap_once (t : str) : option str :=
  find_first (λ q, r ← strip_prefix [q] t; inner ← strip_suffix [q] r;
                   if contains_char q inner then None else Some inner) [34%N; 39%N; 96%N].
(** [None] is out of fuel; every unwrapping shortens the text by two.
    Source: core/src/summary_merge.rs 181-189 (finalize_consolidation) *)
Fixpoint unwrap_go (fuel : nat) (t : str) : option str :=
  match fuel with
  | O => None
  | S fuel => match unwrap_once t with Some inner => unwrap_go fuel (trim inner) | None => Some t end
  end.
(** Source: core/src/summary_merge.rs 180-192 (finalize_consolidation) *)
Definition finalize_consolidation (raw : str) : option str :=
  trimmed ← unwrap_go (S (length (trim raw))) (trim raw);
  let capped := cap_summary trimmed in if nonempty capped then Some capped else None.
End merge.

(** ** Lengths *)

Lemma trim_start_suffix s : ∃ a, s = a ++ trim_start s.
Proof. destruct (drop_while_suffix is_whitespace s) as (a & ? & _). by exists a. Qed.
Lemma trim_end_prefix s : ∃ b, s = trim_end s ++ b.
Proof.
  unfold trim_end, trim_end_matches. destruct (drop_while_suffix is_whitespace (reverse s)) as (a & Ha & _).
  exists (reverse a). rewrite <- reverse_app, <- Ha. by rewrite reverse_involutive.
Qed.
Lemma trim_middle s : ∃ a b, s = a ++ trim s ++ b.
Proof.
  unfold trim, trim_matches. destruct (drop_while_suffix is_whitespace s) as (a & Ha & _).
  destruct (trim_end_prefix (drop_while is_whitespace s)) as (b & Hb). exists a, b. unfold trim_end in Hb. by rewrite <- Hb.
Qed.
Lemma trim_start_length s : (length (trim_start s) ≤ length s)%nat.
Proof. destruct (trim_start_suffix s) as (a & Ha). rewrite Ha at 2. rewrite length_app. lia. Qed.
Lemma trim_end_length s : (length (trim_end s) ≤ length s)%nat.
Proof. destruct (trim_end_prefix s) as (a & Ha). rewrite Ha at 2. rewrite length_app. lia. Qed.
Lemma trim_length s : (length (trim s) ≤ length s)%nat.
Proof. destruct (trim_middle s) as (a & b & Ha). rewrite Ha at 2. rewrite !length_app. lia. Qed.

Section laws.
Context {U : Unicode}.

Lemma find_first_some {A B} (f : A → option B) l b : find_first f l = Some b → ∃ a, a ∈ l ∧ f a = Some b.
Proof. rewrite find_first_omap. intros H. destruct (omap f l) as [|x k] eqn:Ho; [done|]. injection H as ->.
  assert (Hb : b ∈ omap f l) by (rewrite Ho; left). apply list_elem_of_omap in Hb as (a & ? & ?). by exists a.
Qed.
Lemma cap_length text cap : (length (cap_summary_to text cap) ≤ cap)%nat.
Proof.
  unfold cap_summary_to. destruct (Nat.leb_spec (length (trim text)) cap); [done|].
  destruct (find_first _ _) as [e|] eqn:He.
  - apply find_first_some in He as (x & _ & Hx). destruct (Nat.leb_spec x cap); [|done]. injection Hx as ->.
    etrans; [apply trim_end_length|]. rewrite length_take. lia.
  - etrans; [apply trim_end_length|]. rewrite length_take. lia.
Qed.
(** A capped text is a prefix of the trimmed one. *)
Lemma cap_prefix text cap : ∃ b, trim text = cap_summary_to text cap ++ b.
Proof.
  unfold cap_summary_to. destruct (Nat.leb_spec (length (trim text)) cap); [exists []; by rewrite app_nil_r|].
  destruct (find_first _ _) as [e|].
  - destruct (trim_end_prefix (take e (trim text))) as (b & Hb). exists (b ++ drop e (trim text)). by rewrite app_assoc, <- Hb, take_drop.
  - destruct (trim_end_prefix (take cap (trim text))) as (b & Hb). exists (b ++ drop cap (trim text)). by rewrite app_assoc, <- Hb, take_drop.
Qed.
Lemma first_fitting_spec joined cap ends r :
  first_fitting joined cap ends = Some r → (length r ≤ cap)%nat ∧ nonempty r = true ∧ ∃ e a, e ∈ ends ∧ joined = a ++ r ∧ r = trim_start (drop e joined).
Proof.
  induction ends as [|e ends IH]; [done|]. cbn [first_fitting].
  destruct (nonempty (trim_start (drop e joined))) eqn:Hne; [|done]. cbn [negb].
  destruct (Nat.leb_spec (length (trim_start (drop e joined))) cap).
  - intros [= <-]. split; [done|]. split; [done|]. destruct (trim_start_suffix (drop e joined)) as (a & Ha).
    exists e, (take e joined ++ a). split; [left|]. split; [|done]. by rewrite <- app_assoc, <- Ha, take_drop.
  - intros H1. destruct (IH H1) as (? & ? & e' & a & ? & ?). split; [done|]. split; [done|]. exists e', a. split; [by right|done].
Qed.
Lemma fallback_length existing incoming cap : (length (fallback_merge_to existing incoming cap) ≤ cap)%nat.
Proof.
  unfold fallback_merge_to. set (joined := if negb (nonempty (trim existing)) then _ else _).
  destruct (Nat.leb_spec (length joined) cap); [done|].
  destruct (first_fitting joined cap _) as [r|] eqn:Hr; [by apply first_fitting_spec in Hr as (? & _)|].
  etrans; [apply trim_start_length|]. rewrite length_drop. lia.
Qed.
Lemma unwrap_once_shorter t inner : unwrap_once t = Some inner → (length inner + 2 ≤ length t)%nat.
Proof.
  intros H. apply find_first_some in H as (q & _ & H).
  apply bind_Some in H as (r & Hr & H). apply bind_Some in H as (i & Hi & H).
  destruct (contains_char q i); [done|]. injection H as ->.
  apply strip_prefix_spec in Hr. apply strip_suffix_spec in Hi. subst. rewrite !length_app. cbn. lia.
Qed.
Lemma unwrap_go_total fuel : ∀ t, (length t < fuel)%nat → is_Some (unwrap_go fuel t).
Proof.
  induction fuel as [|fuel IH]; intros t Hl; [lia|]. cbn [unwrap_go].
  destruct (unwrap_once t) as [i|] eqn:Hi; [|by eexists]. apply IH. apply unwrap_once_shorter in Hi.
  pose proof (trim_length i). lia.
Qed.
Lemma unwrap_go_done fuel : ∀ t r, unwrap_go fuel t = Some r → unwrap_once r = None.
Proof.
  induction fuel as [|fuel IH]; intros t r; [done|]. cbn [unwrap_go].
  destruct (unwrap_once t) as [i|] eqn:Hi; [apply IH|]. by intros [= <-].
Qed.

(** A merged summary is bounded on every path, and no path loses text that fits.  What is used
    of an incoming description, what the deterministic fallback builds, and what is kept of an
    extractor's reply never exceed the cap; a text that already fits is only trimmed; a capped text is
    a prefix of the original and the fallback's result is a suffix of the two joined; the cleaning
    of a reply always ends, on a text with no pair of surrounding quotes left to remove before the cap. *)
Theorem summary_bounded existing incoming raw :
  (∀ s, decide_consolidation existing incoming = UseIncoming s → (length s ≤ MERGED_SUMMARY_CAP)%nat ∧ ∃ b, trim (trim incoming) = s ++ b) ∧
  (length (fallback_merge existing incoming) ≤ MERGED_SUMMARY_CAP)%nat ∧
  (∃ a, (if negb (nonempty (trim existing)) then trim incoming else if negb (nonempty (trim incoming)) then trim existing
         else trim existing ++ [32%N] ++ trim incoming) = a ++ fallback_merge existing incoming) ∧
  ((length (trim raw) ≤ MERGED_SUMMARY_CAP)%nat → cap_summary raw = trim raw) ∧
  (∃ t, unwrap_go (S (length (trim raw))) (trim raw) = Some t ∧ unwrap_once t = None ∧
        finalize_consolidation raw = if nonempty (cap_summary t) then Some (cap_summary t) else None) ∧
  (∀ r, finalize_consolidation raw = Some r → (0 < length r ≤ MERGED_SUMMARY_CAP)%nat).
Proof.
  split; [|split; [|split; [|split; [|split]]]].
  - intros s. unfold decide_consolidation. destruct (_ || _); [done|]. destruct (negb _); [|done]. intros [= <-].
    split; [apply cap_length|]. apply (cap_prefix (trim incoming)).
  - apply fallback_length.
  - unfold fallback_merge, fallback_merge_to. set (joined := if negb (nonempty (trim existing)) then _ else _).
    destruct (Nat.leb_spec (length joined) MERGED_SUMMARY_CAP); [by exists []|].
    destruct (first_fitting joined _ _) as [r|] eqn:Hr.
    + apply first_fitting_spec in Hr as (_ & _ & e & a & _ & Ha & _). by exists a.
    + destruct (trim_start_suffix (drop (length joined - MERGED_SUMMARY_CAP) joined)) as (a & Ha).
      exists (take (length joined - MERGED_SUMMARY_CAP) joined ++ a). by rewrite <- app_assoc, <- Ha, take_drop.
  - intros H. unfold cap_summary, cap_summary_to. destruct (Nat.leb_spec (length (trim raw)) MERGED_SUMMARY_CAP); [done|lia].
  - destruct (unwrap_go_total (S (length (trim raw))) (trim raw)) as (t & Ht); [lia|]. exists t. split; [done|].
    split; [by eapply unwrap_go_done|]. unfold finalize_consolidation. by rewrite Ht.
  - intros r. unfold finalize_consolidation. destruct (unwrap_go _ _) as [t|]; [|done]. cbn [mbind option_bind].
    destruct (nonempty (cap_summary t)) eqn:Hne; [|done]. intros [= <-].
    pose proof (cap_length t MERGED_SUMMARY_CAP) as Hl. fold (cap_summary t) in Hl. split; [|done]. by destruct (cap_summary t); [|cbn; lia].
Qed.

(** Every occurrence [match_indices] reports is one. *)
Lemma match_indices_sound needle : ∀ s skip before b a,
  (b, a) ∈ match_indices needle skip before s → ∃ m, reverse before ++ s = reverse b ++ m ++ a ∧ needle = m.
Proof.
  induction s as [|c s IH]; intros skip before b a; cbn; [by intros ?%elem_of_nil|].
  assert (Hrec : ∀ k, (b, a) ∈ match_indices needle k (c :: before) s → ∃ m, reverse before ++ c :: s = reverse b ++ m ++ a ∧ needle = m).
  { intros k Hk. apply IH in Hk as (m & Hm & ?). exists m. split; [|done]. rewrite reverse_cons, <- app_assoc in Hm. exact Hm. }
  destruct skip as [|skip]; [|by apply Hrec].
  destruct (strip_prefix needle (c :: s)) as [rest|] eqn:Hp; [|by apply Hrec].
  intros [[= -> ->]|Hin]%elem_of_cons; [|by eapply Hrec]. apply strip_prefix_spec in Hp. exists needle. by rewrite Hp.
Qed.
End laws.

(** The containment test reads disjoint occurrences only, so one that begins inside another is
    missed: "a a" stands on word boundaries inside "xa a a", and is still sent to the extractor. *)
Theorem overlapping_occurrence_missed :
  decide_consolidation (U:=AsciiUnicode) #"xa a a" #"a a" = Consolidate ∧
  decide_consolidation (U:=AsciiUnicode) #"a a" #"a a" = Keep ∧
  #"xa a a" = #"xa " ++ #"a a".
Proof. vm_compute. done. Qed.
