(* ===== verification/IdentifierVeto.v ===== *)
(** * IdentifierVeto: names that must not merge on similarity (core/src/identifier_veto.rs) *)

From S2P Require Import Prelude Text Numbers Json WalScan Wal LegacyWal Replay Pointer Prompts Graph.

Section veto.
Context {U : Unicode}.

(** Source: core/src/identifier_veto.rs 37-39 (is_dash) *)
Definition is_dash (c : char) : bool := bool_decide (c ∈ [45%N; 8211%N; 8212%N]).
(** Source: core/src/identifier_veto.rs 41-43 (trim_punct) *)
Definition trim_punct (s : str) : str := trim_matches (negb ∘ is_alphanumeric) s.
(** The tokens one word of a name contributes; [first] is its being the first of several.
    Source: core/src/identifier_veto.rs 51-77 (distinguishing_tokens) *)
Definition word_tokens (first : bool) (raw : str) : list str :=
  let trimmed := trim_punct (default raw (strip_prefix [35%N] raw)) in
  if negb (nonempty trimmed) then []
  else if existsb is_numeric trimmed then
    List.filter (existsb is_numeric) (trim_punct <$> split_on is_dash trimmed)
  else
    match trimmed with
    | [c] =>
        if is_alphabetic c && negb (ends_with [46%N] raw) && negb (first && bool_decide (trimmed = [97%N])) then [trimmed] else []
    | _ => []
    end.
(** Source: core/src/identifier_veto.rs 46-79 (distinguishing_tokens) *)
Definition distinguishing_tokens (name : str) : gset str :=
  let tokens := split_whitespace (normalize_name name) in
  let multi := (1 <? length tokens)%nat in
  list_to_set (mjoin (imap (λ i raw, word_tokens (multi && (i =? 0)%nat) raw) tokens)).

Definition opt_strip (p s : str) : str := default s (strip_prefix p s).
(** Source: core/src/identifier_veto.rs 109-118 (strip_up_to) *)
Fixpoint strip_up_to (s : str) (c : char) (max : nat) : str :=
  match max with
  | O => s
  | S max => match strip_prefix [c] s with Some r => strip_up_to r c max | None => s end
  end.
(** One decimal digit of a numeral: nine, four, or five-and-ones.
    Source: core/src/identifier_veto.rs 88-93 (is_roman_numeral) *)
Definition strip_digit (one five ten : char) (rest : str) : str :=
  match strip_prefix [one; ten] rest with
  | Some r => r
  | None => match strip_prefix [one; five] rest with
            | Some r => r
            | None => strip_up_to (opt_strip [five] rest) one 3
            end
  end.
(** Source: core/src/identifier_veto.rs 82-107 (is_roman_numeral) *)
Definition is_roman_numeral (s : str) : bool :=
  let M := [77%N] in
  let rest := opt_strip M (opt_strip M (opt_strip M s)) in
  let rest := strip_digit 67 68 77 rest in
  let rest := strip_digit 88 76 67 rest in
  let rest := strip_digit 73 86 88 rest in
  negb (nonempty rest).

(** Source: core/src/identifier_veto.rs 121-133 (code_tokens) *)
Definition code_tokens (name : str) : gset str :=
  list_to_set (to_lowercase <$>
    List.filter (λ t, (2 <=? length t)%nat && (length t <=? 6)%nat
                      && forallb (λ c, is_alphabetic c && is_uppercase c) t && negb (is_roman_numeral t))
      (trim_punct <$> split_whitespace (strip_control_chars name))).
(** Source: core/src/identifier_veto.rs 136-139 (code_mismatch) *)
Definition code_mismatch (a b : str) : bool :=
  negb (bool_decide (code_tokens a ⊆ code_tokens b)) && negb (bool_decide (code_tokens b ⊆ code_tokens a)).
(** Source: core/src/identifier_veto.rs 144-146 (identifier_mismatch) *)
Definition identifier_mismatch (a b : str) : bool :=
  negb (bool_decide (distinguishing_tokens a = distinguishing_tokens b)) || code_mismatch a b.

(** ** Roman numerals *)

(** The ten ways to write a digit, and the numeral of a number below four thousand. *)
Definition roman_digit (one five ten : char) (d : nat) : str :=
  match d with
  | 4 => [one; five]
  | 9 => [one; ten]
  | _ => if (d <? 5)%nat then repeat one d else five :: repeat one (d - 5)
  end.
Definition roman (n : nat) : str :=
  repeat 77%N (n / 1000) ++ roman_digit 67 68 77 (n / 100 mod 10) ++ roman_digit 88 76 67 (n / 10 mod 10) ++ roman_digit 73 86 88 (n mod 10).

Lemma opt_strip_spec p s : s = opt_strip p s ∨ s = p ++ opt_strip p s.
Proof.
  unfold opt_strip. destruct (strip_prefix p s) as [r|] eqn:H; [right; by apply strip_prefix_spec in H|by left].
Qed.
Lemma strip_up_to_spec c max : ∀ s, ∃ k, (k ≤ max)%nat ∧ s = repeat c k ++ strip_up_to s c max.
Proof.
  induction max as [|max IH]; intros s; [by exists 0%nat|]. cbn [strip_up_to].
  destruct (strip_prefix [c] s) as [r|] eqn:H; [|exists 0%nat; split; [lia|done]].
  apply strip_prefix_spec in H as ->. destruct (IH r) as (k & Hk & Hr). exists (S k). split; [lia|]. cbn. by rewrite Hr at 1.
Qed.
Lemma strip_digit_spec one five ten s : ∃ d, (d < 10)%nat ∧ s = roman_digit one five ten d ++ strip_digit one five ten s.
Proof.
  unfold strip_digit. destruct (strip_prefix [one; ten] s) as [r|] eqn:H9; [exists 9%nat; split; [lia|by apply strip_prefix_spec in H9]|].
  destruct (strip_prefix [one; five] s) as [r|] eqn:H4; [exists 4%nat; split; [lia|by apply strip_prefix_spec in H4]|].
  destruct (strip_up_to_spec one 3 (opt_strip [five] s)) as (k & Hk & Hr).
  destruct (opt_strip_spec [five] s) as [Hs|Hs].
  - exists k. split; [lia|]. rewrite Hs at 1. rewrite Hr at 1. f_equal. by destruct k as [|[|[|[|?]]]]; [..|lia].
  - exists (5 + k)%nat. split; [lia|]. rewrite Hs at 1. rewrite Hr at 1. by destruct k as [|[|[|[|?]]]]; [..|lia].
Qed.
Lemma strip_thousands_spec s : ∃ k, (k ≤ 3)%nat ∧ s = repeat 77%N k ++ opt_strip [77%N] (opt_strip [77%N] (opt_strip [77%N] s)).
Proof.
  set (a := opt_strip [77%N] s). set (b := opt_strip [77%N] a). set (c := opt_strip [77%N] b).
  pose proof (opt_strip_spec [77%N] s) as H1. pose proof (opt_strip_spec [77%N] a) as H2. pose proof (opt_strip_spec [77%N] b) as H3.
  fold a in H1. fold b in H2. fold c in H3. clearbody c b a.
  destruct H1 as [->| ->], H2 as [->| ->], H3 as [->| ->];
    [exists 0%nat|exists 1%nat|exists 1%nat|exists 2%nat|exists 1%nat|exists 2%nat|exists 2%nat|exists 3%nat]; (split; [lia|done]).
Qed.

(** The numeral test is exact: it accepts precisely the numerals of the numbers below four
    thousand (the empty text, which stands for zero, among them). *)
Theorem roman_numerals_exact s : is_roman_numeral s = true ↔ ∃ n, (n < 4000)%nat ∧ s = roman n.
Proof.
  split.
  - unfold is_roman_numeral. set (r0 := opt_strip _ _). set (r1 := strip_digit 67 68 77 r0). set (r2 := strip_digit 88 76 67 r1).
    intros H. destruct (strip_thousands_spec s) as (k & Hk & Hs). fold r0 in Hs.
    destruct (strip_digit_spec 67 68 77 r0) as (c & Hc & H0). fold r1 in H0.
    destruct (strip_digit_spec 88 76 67 r1) as (x & Hx & H1). fold r2 in H1.
    destruct (strip_digit_spec 73 86 88 r2) as (i & Hi & H2).
    destruct (strip_digit 73 86 88 r2); [|done]. rewrite app_nil_r in H2.
    exists (1000 * k + 100 * c + 10 * x + i)%nat. split; [lia|]. rewrite Hs, H0, H1, H2. unfold roman.
    replace ((1000 * k + 100 * c + 10 * x + i) / 1000)%nat with k by (apply Nat.div_unique with (100 * c + 10 * x + i)%nat; lia).
    replace ((1000 * k + 100 * c + 10 * x + i) / 100)%nat with (10 * k + c)%nat by (apply Nat.div_unique with (10 * x + i)%nat; lia).
    replace ((1000 * k + 100 * c + 10 * x + i) / 10)%nat with (10 * (10 * k + c) + x)%nat by (apply Nat.div_unique with i; lia).
    replace ((10 * k + c) mod 10)%nat with c by (apply Nat.mod_unique with k; lia).
    replace ((10 * (10 * k + c) + x) mod 10)%nat with x by (apply Nat.mod_unique with (10 * k + c)%nat; lia).
    replace ((1000 * k + 100 * c + 10 * x + i) mod 10)%nat with i by (apply Nat.mod_unique with (100 * k + 10 * c + x)%nat; lia). done.
  - intros (n & Hn & ->).
    assert (Hall : forallb (λ n, is_roman_numeral (roman n)) (seq 0 4000) = true) by by vm_compute.
    rewrite forallb_forall in Hall. apply Hall. apply in_seq. lia.
Qed.

(** The veto is symmetric, never separates a name from itself, and sees the distinguishing
    tokens only through the normalised name; a digit-bearing word of one name that the other lacks
    always vetoes; and the code rule needs a code on both sides. *)
Theorem veto_laws a b :
  identifier_mismatch a b = identifier_mismatch b a ∧
  identifier_mismatch a a = false ∧
  (∀ t, t ∈ distinguishing_tokens a → t ∉ distinguishing_tokens b → identifier_mismatch a b = true) ∧
  (normalize_name a = normalize_name b → code_tokens b = ∅ → identifier_mismatch a b = false).
Proof.
  unfold identifier_mismatch. split; [|split; [|split]].
  - unfold code_mismatch. rewrite (andb_comm (negb _)). f_equal. f_equal. apply bool_decide_ext. done.
  - unfold code_mismatch. by rewrite !bool_decide_eq_true_2.
  - intros t Ha Hb. rewrite bool_decide_eq_false_2; [done|]. intros He. by rewrite He in Ha.
  - intros Hn Hc. unfold distinguishing_tokens. rewrite Hn, (bool_decide_eq_true_2 (_ = _)) by done. cbn [negb orb].
    unfold code_mismatch. rewrite Hc. rewrite (bool_decide_eq_true_2 (∅ ⊆ _)) by set_solver. by rewrite andb_false_r.
Qed.
End veto.

(** Two spellings of one name that differ only in case can veto each other: each shouts a word
    the other does not. *)
Theorem case_variants_vetoed :
  normalize_name (U:=AsciiUnicode) #"ACDS foo" = normalize_name (U:=AsciiUnicode) #"acds FOO" ∧
  identifier_mismatch (U:=AsciiUnicode) #"ACDS foo" #"acds FOO" = true ∧
  identifier_mismatch (U:=AsciiUnicode) #"ADR 2018" #"ADR 2019" = true ∧
  identifier_mismatch (U:=AsciiUnicode) #"NASA" #"nasa" = false ∧
  identifier_mismatch (U:=AsciiUnicode) #"GPT-4" #"GPT 4" = false.
Proof. vm_compute. done. Qed.
