(* ===== verification/TokenBudget.v ===== *)
(** * TokenBudget: the output budget of an extraction call (core/src/token_budget.rs)

    [f64] products are exact below 2^52 and every larger one saturates the [u32], so the scaling
    is integer arithmetic: [round] takes halves away from zero. *)

From S2P Require Import Prelude Text Numbers.

(** Source: core/src/token_budget.rs 15-18 (ExtractionCallType) *)
Inductive ExtractionCallType := Entities | Edges.
(** Source: core/src/token_budget.rs 22-22 (MAX_TOKENS_FLOOR) *)
Definition MAX_TOKENS_FLOOR : N := 4096.
(** Source: core/src/token_budget.rs 28-28 (MAX_TOKENS_CEILING_DEFAULT) *)
Definition MAX_TOKENS_CEILING_DEFAULT : N := 32768.

(** [str::parse::<u32>]: an optional plus sign and digits, within range. *)
Definition digit_value (c : char) : option N := if is_ascii_digit c then Some (c - 48)%N else None.
Fixpoint digits_value (acc : N) (s : str) : option N :=
  match s with
  | [] => Some acc
  | c :: s => d ← digit_value c; if (acc * 10 + d <=? u32_max)%N then digits_value (acc * 10 + d) s else None
  end.
Definition parse_u32 (s : str) : option N :=
  let s := default s (strip_prefix [43%N] s) in if nonempty s then digits_value 0 s else None.
(** [var] is the environment variable's value.
    Source: core/src/token_budget.rs 37-58 (resolve_max_tokens_ceiling) *)
Definition resolve_max_tokens_ceiling (var : option str) : N :=
  default MAX_TOKENS_CEILING_DEFAULT
    (v ← var; parsed ← parse_u32 v; if (MAX_TOKENS_FLOOR <=? parsed)%N then Some parsed else None).
Definition clamp (lo hi x : N) : N := N.max lo (N.min hi x).
(** The ratios are 1 and 3/2 tokens a byte.
    Source: core/src/token_budget.rs 62-83 (compute_initial_max_tokens) *)
Definition compute_initial_max_tokens (chunk_len_bytes : N) (call_type : ExtractionCallType) (ceiling : N) : N :=
  let scaled := match call_type with Entities => chunk_len_bytes | Edges => ((3 * chunk_len_bytes + 1) / 2)%N end in
  clamp MAX_TOKENS_FLOOR (N.max ceiling MAX_TOKENS_FLOOR) (N.min u32_max scaled).
(** Source: core/src/token_budget.rs 88-93 (next_retry_max_tokens) *)
Definition next_retry_max_tokens (current ceiling : N) : option N :=
  if (ceiling <=? current)%N then None else Some (N.min (sat_mul32 current 2) ceiling).

Lemma budget_range len ct ceiling :
  (MAX_TOKENS_FLOOR ≤ compute_initial_max_tokens len ct ceiling ≤ N.max ceiling MAX_TOKENS_FLOOR)%N.
Proof. unfold compute_initial_max_tokens, clamp. lia. Qed.
Lemma retry_grows current ceiling next :
  (0 < current)%N → (ceiling ≤ u32_max)%N → next_retry_max_tokens current ceiling = Some next → (current < next ≤ ceiling)%N.
Proof.
  unfold next_retry_max_tokens, sat_mul32. intros H0 Hu. destruct (N.leb_spec ceiling current); [done|]. intros [= <-]. lia.
Qed.
Lemma budget_mono len len' ct ceiling :
  (len ≤ len')%N → (compute_initial_max_tokens len ct ceiling ≤ compute_initial_max_tokens len' ct ceiling)%N.
Proof.
  intros Hl. unfold compute_initial_max_tokens, clamp. destruct ct; [lia|].
  assert (((3 * len + 1) / 2 ≤ (3 * len' + 1) / 2)%N) by (apply N.Div0.div_le_mono; lia). lia.
Qed.
Lemma digits_value_max s : ∀ acc n, (acc ≤ u32_max)%N → digits_value acc s = Some n → (n ≤ u32_max)%N.
Proof.
  induction s as [|c s IH]; intros acc n Ha; cbn [digits_value]; [by intros [= <-]|].
  destruct (digit_value c) as [d|]; [|done]. cbn [mbind option_bind].
  destruct (N.leb_spec (acc * 10 + d) u32_max); [|done]. by apply IH.
Qed.
Lemma ceiling_range var : (MAX_TOKENS_FLOOR ≤ resolve_max_tokens_ceiling var ≤ u32_max)%N.
Proof.
  assert (H0 : (MAX_TOKENS_FLOOR ≤ MAX_TOKENS_CEILING_DEFAULT ≤ u32_max)%N) by by vm_compute.
  unfold resolve_max_tokens_ceiling. destruct var as [v|]; [|exact H0]. cbn [mbind option_bind].
  destruct (parse_u32 v) as [n|] eqn:Hn; [|exact H0]. cbn [mbind option_bind].
  destruct (N.leb_spec MAX_TOKENS_FLOOR n); [|exact H0]. split; [done|].
  unfold parse_u32 in Hn. destruct (nonempty _); [|done]. by apply digits_value_max in Hn; [|vm_compute].
Qed.
