(* ===== verification/Replies.v ===== *)
(** * Replies: reading what a model answered (core/src/extractor.rs, core/src/dedup_judge.rs,
    the item types of core/src/types.rs)

    The JSON reader and the derived deserializers are the class [Serde].  A slice whose start is
    past its end panics, which is [None] here. *)

From S2P Require Import Prelude Text Numbers Json SummaryMerge.

(** Source: core/src/types.rs 249-261 (ExtractedEntity) *)
Record ExtractedEntity := { xe_name : str; xe_type : str; xe_summary : str; xe_original : option str }.
(** Source: core/src/types.rs 275-292 (ExtractedEdge) *)
Record ExtractedEdge := {
  xd_source : str; xd_target : str; xd_fact : str; xd_type : option str; xd_valid : option str; xd_invalid : option str;
  xd_original : option str;
}.
(** Source: core/src/types.rs 326-328 (is_well_formed) *)
Definition entity_well_formed (e : ExtractedEntity) : bool := nonempty (trim (xe_name e)).
(** Source: core/src/types.rs 332-336 (is_well_formed) *)
Definition edge_well_formed (e : ExtractedEdge) : bool :=
  nonempty (trim (xd_source e)) && nonempty (trim (xd_target e)) && nonempty (trim (xd_fact e)).

(** Typed reads fail with [true] when the text was JSON of the wrong shape ([Category::Data]). *)
Class Serde := {
  from_str : str → option value;
  payload_from_str : str → str → result bool (list value);
  payload_from_value : str → value → result bool (list value);
  strings_from_str : str → result bool (list str);
  types_from_str : str → result bool (list str);
  entity_of : value → option ExtractedEntity;
  edge_of : value → option ExtractedEdge;
  json_text : value → str;
}.
Definition json_error (data : bool) : Error := Json (Msg (if data then "data" else "syntax") []).

(** ** The JSON block of a reply *)

(** [str::find] of a text, with what precedes and follows the first occurrence. *)
Fixpoint split_first (needle s : str) : option (str * str) :=
  match strip_prefix needle s with
  | Some after => Some ([], after)
  | None => match s with [] => None | c :: s => '(b, a) ← split_first needle s; Some (c :: b, a) end
  end.
Fixpoint find_char (c : char) (s : str) : option nat :=
  match s with [] => None | x :: s => if (x =? c)%N then Some 0%nat else S <$> find_char c s end.
Definition rfind_char (c : char) (s : str) : option nat := (λ i, (length s - 1 - i)%nat) <$> find_char c (reverse s).
(** [&s[start..=end]] *)
Definition slice (s : str) (first last : nat) : option str :=
  if (first <=? S last)%nat then Some (take (S last - first) (drop first s)) else None.
Definition fenced (fence s : str) : option str :=
  '(_, after) ← split_first fence s; '(inner, _) ← split_first #"```" after; Some (trim inner).
(** Source: core/src/extractor.rs 2538-2555 (extract_json_block) *)
Definition extract_json_block (s : str) : option str :=
  match fenced #"```json" s with
  | Some r => Some r
  | None =>
      match fenced #"```" s with
      | Some r => Some r
      | None =>
          match find_char 123 s, rfind_char 125 s with
          | Some first, Some last => slice s first last
          | _, _ => Some (trim s)
          end
      end
  end.

(** ** Verdicts *)

(** Source: core/src/dedup_judge.rs 19-24 (DedupSide) *)
Record DedupSide := { ds_name : str; ds_type : str; ds_summary : str }.
(** Source: core/src/dedup_judge.rs 28-31 (DuplicatePair) *)
Record DuplicatePair := { dp_existing : DedupSide; dp_incoming : DedupSide }.
(** Source: core/src/dedup_judge.rs 37-42 (DedupVerdict) *)
Inductive DedupVerdict := Duplicate | Distinct | Unknown.
Global Instance DedupVerdict_eq_dec : EqDecision DedupVerdict.
Proof. solve_decision. Defined.
(** Source: core/src/dedup_judge.rs 45-45 (JUDGE_MAX_TOKENS) *)
Definition JUDGE_MAX_TOKENS : N := 512.
(** Source: core/src/dedup_judge.rs 60-62 (side_value) *)
Definition side_value (s : DedupSide) : value :=
  VObject [(#"name", VString (ds_name s)); (#"type", VString (ds_type s)); (#"summary", VString (ds_summary s))].
(** Source: core/src/dedup_judge.rs 65-73 (pairs_value) *)
Definition pairs_value (pairs : list DuplicatePair) : value :=
  VArray (imap (λ i p, VObject [(#"id", VNumber (PosInt (N.of_nat i))); (#"a", side_value (dp_existing p)); (#"b", side_value (dp_incoming p))]) pairs).

Section replies.
Context {SD : Serde}.

(** The counts and the last answer per id.
    Source: core/src/dedup_judge.rs 93-105 (parse_verdicts) *)
Definition read_item (n : nat) (st : list N * list (option bool)) (item : value) : list N * list (option bool) :=
  match get #"id" item ≫= as_u64 with
  | None => st
  | Some id =>
      if (N.of_nat n <=? id)%N then st
      else (alter (λ c, add32 c 1) (N.to_nat id) st.1, <[N.to_nat id := get #"duplicate" item ≫= as_bool]> st.2)
  end.
(** Source: core/src/dedup_judge.rs 106-115 (parse_verdicts) *)
Definition verdict_of (seen : N) (v : option bool) : DedupVerdict :=
  if (seen =? 1)%N then match v with Some true => Duplicate | Some false => Distinct | None => Unknown end else Unknown.
(** Source: core/src/dedup_judge.rs 85-117 (parse_verdicts) *)
Definition parse_verdicts (text : str) (n : nat) : option (list DedupVerdict) :=
  block ← extract_json_block text;
  Some
    match from_str block with
    | None => replicate n Unknown
    | Some value =>
        match get #"verdicts" value ≫= as_array with
        | None => replicate n Unknown
        | Some items =>
            let '(seen, verdicts) := foldl (read_item n) (replicate n 0%N, replicate n None) items in
            zip_with verdict_of seen verdicts
        end
    end.

(** Source: core/src/extractor.rs 2525-2534 (parse_consolidation_reply) *)
Definition parse_consolidation_reply `{Unicode} (content : str) : option (result Error str) :=
  block ← extract_json_block content;
  let text :=
    match from_str block with
    | Some v => get #"summary" v ≫= as_str
    | None => if contains_char 123 content then None else Some content
    end in
  Some match text ≫= finalize_consolidation with
       | Some s => Ok s
       | None => Err (Ipc (Msg "consolidate_summary reply held no summary text" []))
       end.

(** ** Structured replies *)

(** [EntityOutcome] and [EdgeOutcome].
    Source: core/src/extractor.rs 1105-1121 (EntityOutcome) *)
Inductive Outcome (A : Type) :=
| Success (items : list A) (dropped : N)
| BudgetExhausted
| ParseError (e : Error).
Arguments Success {A}. Arguments BudgetExhausted {A}. Arguments ParseError {A}.

(** Source: core/src/extractor.rs 1138-1150 (salvage_items) *)
Fixpoint salvage_items {A} (of_value : value → option A) (well_formed : A → bool) (raw : list value) : list A * N :=
  match raw with
  | [] => ([], 0%N)
  | v :: raw =>
      let '(items, dropped) := salvage_items of_value well_formed raw in
      match of_value v with
      | Some item => if well_formed item then (item :: items, dropped) else (items, (dropped + 1)%N)
      | None => (items, (dropped + 1)%N)
      end
  end.
(** Source: core/src/extractor.rs 1160-1165 (classify_parse_failure) *)
Definition classify_parse_failure (e : Error) : str :=
  if bool_decide (e = json_error true) then #"schema_invalid" else #"malformed".

Definition get_str (key : str) (v : value) : option str := get key v ≫= as_str.
(** The first tool block of the wanted name. *)
Definition tool_block (name : str) (resp : value) : option value :=
  content ← get #"content" resp ≫= as_array;
  find_first (λ b, if bool_decide (get_str #"type" b = Some #"tool_use") && bool_decide (get_str #"name" b = Some name) then Some b else None) content.
Section tool.
Context {A : Type} (tool key : str) (missing null : string) (of_value : value → option A) (well_formed : A → bool).
Definition payload_outcome (p : result bool (list value)) : Outcome A :=
  match p with
  | Ok raw => let '(items, dropped) := salvage_items of_value well_formed raw in Success items dropped
  | Err data => ParseError (json_error data)
  end.
Definition parse_tool_response (resp : value) : Outcome A :=
  if bool_decide (get_str #"stop_reason" resp = Some #"max_tokens") then BudgetExhausted
  else
    match tool_block tool resp with
    | None => ParseError (Ipc (Msg missing []))
    | Some block =>
        let input := default VNull (get #"input" block) in
        if is_null input then ParseError (Ipc (Msg null [])) else payload_outcome (payload_from_value key input)
    end.
End tool.
(** Source: core/src/extractor.rs 1167-1204 (parse_entity_response) *)
Definition parse_entity_response : value → Outcome ExtractedEntity :=
  parse_tool_response #"extract_entities" #"entities" "entity extraction response missing tool_use block"
    "entity extraction tool_use block has null input" entity_of entity_well_formed.
(** Source: core/src/extractor.rs 1206-1243 (parse_edge_response) *)
Definition parse_edge_response : value → Outcome ExtractedEdge :=
  parse_tool_response #"extract_edges" #"edges" "edge extraction response missing tool_use block"
    "edge extraction tool_use block has null input" edge_of edge_well_formed.

Definition first_choice (resp : value) : option value := choices ← get #"choices" resp; l ← as_array choices; head l.
(** Source: core/src/extractor.rs 2301-2303 (oai_finish_reason) *)
Definition oai_finish_reason (resp : value) : option str := c ← first_choice resp; get_str #"finish_reason" c.
(** Source: core/src/extractor.rs 2305-2307 (oai_message_content) *)
Definition oai_message_content (resp : value) : option str := c ← first_choice resp; m ← get #"message" c; get_str #"content" m.
(** The outcome, and whether the block had to be isolated; [None] is the panic of the slice. *)
Definition parse_oai_response {A} (key : str) (missing : string) (of_value : value → option A) (well_formed : A → bool) (resp : value) :
    option (Outcome A * bool) :=
  if bool_decide (oai_finish_reason resp = Some #"length") then Some (BudgetExhausted, false)
  else
    match oai_message_content resp with
    | None => Some (ParseError (Ipc (Msg missing [])), false)
    | Some content =>
        json_str ← extract_json_block content;
        Some (payload_outcome of_value well_formed (payload_from_str key json_str), negb (bool_decide (json_str = trim content)))
    end.
(** Source: core/src/extractor.rs 2309-2336 (parse_oai_entity_response) *)
Definition parse_oai_entity_response : value → option (Outcome ExtractedEntity * bool) :=
  parse_oai_response #"entities" "entity extraction response missing message content" entity_of entity_well_formed.
(** Source: core/src/extractor.rs 2338-2365 (parse_oai_edge_response) *)
Definition parse_oai_edge_response : value → option (Outcome ExtractedEdge * bool) :=
  parse_oai_response #"edges" "edge extraction response missing message content" edge_of edge_well_formed.

(** ** Laws *)

Lemma salvage_spec {A} (f : value → option A) wf raw items dropped :
  salvage_items f wf raw = (items, dropped) →
  items = List.filter wf (omap f raw) ∧ (N.of_nat (length items) + dropped = N.of_nat (length raw))%N.
Proof.
  revert items dropped. induction raw as [|v raw IH]; intros items dropped; cbn [salvage_items omap list_omap].
  - intros [= <- <-]. done.
  - destruct (salvage_items f wf raw) as [k d]. destruct (IH k d eq_refl) as [Hk Hd]. cbn [length].
    destruct (f v) as [a|]; [cbn [List.filter]; destruct (wf a)|]; intros [= <- <-]; rewrite Hk in *; cbn [length]; (split; [done|lia]).
Qed.

Definition item_id (item : value) : option N := get #"id" item ≫= as_u64.
Definition about (i : nat) (items : list value) : list value := List.filter (λ x, bool_decide (item_id x = Some (N.of_nat i))) items.

Lemma read_items n items : ∀ seen verdicts,
  length seen = n → length verdicts = n → Forall (λ c, (c + N.of_nat (length items) < 2 ^ 32)%N) seen →
  let '(seen', verdicts') := foldl (read_item n) (seen, verdicts) items in
  length seen' = n ∧ length verdicts' = n ∧
  (∀ i c, seen !! i = Some c → seen' !! i = Some (c + N.of_nat (length (about i items)))%N) ∧
  (∀ i v, verdicts !! i = Some v → verdicts' !! i = Some (match last (about i items) with Some x => get #"duplicate" x ≫= as_bool | None => v end)).
Proof.
  induction items as [|x items IH]; intros seen verdicts Hs Hv Hb; cbn [foldl].
  - split; [done|]. split; [done|]. split; [|done]. intros i c Hi. by rewrite N.add_0_r.
  - assert (Hskip : ∀ seen verdicts, length seen = n → length verdicts = n → Forall (λ c, (c + N.of_nat (length items) < 2 ^ 32)%N) seen →
      (∀ i, (i < n)%nat → about i (x :: items) = about i items) →
      let '(seen', verdicts') := foldl (read_item n) (seen, verdicts) items in
      length seen' = n ∧ length verdicts' = n ∧
      (∀ i c, seen !! i = Some c → seen' !! i = Some (c + N.of_nat (length (about i (x :: items))))%N) ∧
      (∀ i v, verdicts !! i = Some v → verdicts' !! i = Some (match last (about i (x :: items)) with Some x => get #"duplicate" x ≫= as_bool | None => v end))).
    { intros seen0 verdicts0 Hs0 Hv0 Hb0 Hab. specialize (IH seen0 verdicts0 Hs0 Hv0 Hb0). destruct (foldl _ _ _) as [s' v'].
      destruct IH as (? & ? & H1 & H2). split; [done|]. split; [done|]. split.
      - intros i c Hi. rewrite Hab; [by apply H1|]. apply lookup_lt_Some in Hi. lia.
      - intros i v Hi. rewrite Hab; [by apply H2|]. apply lookup_lt_Some in Hi. lia. }
    assert (Hb' : Forall (λ c, (c + N.of_nat (length items) < 2 ^ 32)%N) seen).
    { eapply Forall_impl; [exact Hb|]. cbn. intros c Hc. lia. }
    unfold read_item at 2. fold (item_id x). destruct (item_id x) as [id|] eqn:Hid.
    2: { apply Hskip; [done..|]. intros i _. unfold about. cbn. by rewrite Hid. }
    destruct (N.leb_spec (N.of_nat n) id).
    { apply Hskip; [done..|]. intros i Hi. unfold about. cbn. rewrite Hid, bool_decide_eq_false_2; [done|]. intros [= ->]. lia. }
    cbn [fst snd]. specialize (IH (alter (λ c, add32 c 1) (N.to_nat id) seen) (<[N.to_nat id := get #"duplicate" x ≫= as_bool]> verdicts)).
    rewrite length_alter, length_insert in IH. specialize (IH Hs Hv).
    assert (Hb2 : Forall (λ c, (c + N.of_nat (length items) < 2 ^ 32)%N) (alter (λ c, add32 c 1) (N.to_nat id) seen)).
    { apply Forall_lookup. intros i c Hi. destruct (decide (i = N.to_nat id)) as [->|Hne].
      - rewrite list_lookup_alter_eq in Hi. apply fmap_Some in Hi as (c0 & Hc0 & ->).
        rewrite Forall_lookup in Hb. specialize (Hb _ _ Hc0). cbn in Hb. rewrite add32_small by lia. lia.
      - rewrite list_lookup_alter_ne in Hi by done. rewrite Forall_lookup in Hb'. by eapply Hb'. }
    specialize (IH Hb2). destruct (foldl _ _ _) as [s' v']. destruct IH as (? & ? & H1 & H2). split; [done|]. split; [done|]. split.
    + intros i c Hi. destruct (decide (i = N.to_nat id)) as [->|Hne].
      * rewrite (H1 _ (c + 1)%N).
        -- unfold about. cbn [List.filter]. rewrite Hid, N2Nat.id, (bool_decide_eq_true_2 (Some id = Some id)) by done. cbn [length]. f_equal. lia.
        -- rewrite list_lookup_alter_eq, Hi. cbn. rewrite Forall_lookup in Hb. specialize (Hb _ _ Hi). cbn in Hb. rewrite add32_small by lia. done.
      * rewrite (H1 _ c) by by rewrite list_lookup_alter_ne. unfold about. cbn [List.filter].
        rewrite Hid, bool_decide_eq_false_2; [done|]. intros [= ->]. lia.
    + intros i v Hi. destruct (decide (i = N.to_nat id)) as [->|Hne].
      * rewrite (H2 _ (get #"duplicate" x ≫= as_bool)).
        -- unfold about. cbn [List.filter]. rewrite Hid, N2Nat.id, (bool_decide_eq_true_2 (Some id = Some id)) by done.
           rewrite last_cons. by destruct (last _).
        -- rewrite list_lookup_insert_eq; [done|]. apply lookup_lt_Some in Hi. lia.
      * rewrite (H2 _ v) by by rewrite list_lookup_insert_ne. unfold about. cbn [List.filter].
        rewrite Hid, bool_decide_eq_false_2; [done|]. intros [= ->]. lia.
Qed.

(** The verdict parser is strict: unless the reply makes the block isolation panic, it gives
    exactly one verdict per pair, and the pair is a duplicate (or distinct) exactly when one
    single entry of the reply's verdicts carries its id and that entry says so with a boolean;
    anything else, a repeated id included, is unknown. *)
Theorem verdicts_strict text n block :
  extract_json_block text = Some block →
  (∀ value items, from_str block = Some value → get #"verdicts" value ≫= as_array = Some items → (N.of_nat (length items) < 2 ^ 32)%N) →
  ∃ out, parse_verdicts text n = Some out ∧ length out = n ∧
    ∀ i, (i < n)%nat →
      out !! i = Some match (v ← from_str block; items ← get #"verdicts" v ≫= as_array; Some (about i items)) with
                      | Some [x] => match get #"duplicate" x ≫= as_bool with Some true => Duplicate | Some false => Distinct | None => Unknown end
                      | _ => Unknown
                      end.
Proof.
  intros Hbl Hlen. unfold parse_verdicts. rewrite Hbl. cbn [mbind option_bind].
  assert (Hrep : length (replicate n Unknown) = n ∧ ∀ i, (i < n)%nat → replicate n Unknown !! i = Some Unknown).
  { split; [apply length_replicate|]. intros i Hi. by apply lookup_replicate_2. }
  destruct (from_str block) as [v|] eqn:Hv; [|by exists (replicate n Unknown)]. cbn [mbind option_bind].
  destruct (get #"verdicts" v ≫= as_array) as [items|] eqn:Hi; cbn [mbind option_bind].
  2: { by exists (replicate n Unknown). }
  specialize (Hlen v items eq_refl Hi).
  pose proof (read_items n items (replicate n 0%N) (replicate n None) (length_replicate _ _) (length_replicate _ _)) as H.
  destruct (foldl _ _ _) as [seen verdicts].
  destruct H as (Hls & Hlv & Hs & Hd). { apply Forall_replicate. lia. }
  exists (zip_with verdict_of seen verdicts). split; [done|]. split; [rewrite length_zip_with; lia|]. intros i Hin.
  rewrite lookup_zip_with, (Hs i 0%N), (Hd i None) by by apply lookup_replicate_2. cbn.
  destruct (about i items) as [|x [|y l]]; [done|..].
  - cbn. by destruct (get _ x ≫= as_bool) as [[]|].
  - unfold verdict_of. rewrite (proj2 (N.eqb_neq _ 1)); [done|]. cbn [length]. lia.
Qed.

Lemma split_first_absent (c : char) (needle s : str) : c ∉ s → split_first (c :: needle) s = None.
Proof.
  induction s as [|x s IH]; intros Hc; [done|]. cbn [split_first strip_prefix].
  assert (c ≠ x) by set_solver. rewrite (proj2 (N.eqb_neq _ _)) by done. rewrite IH by set_solver. done.
Qed.
Lemma find_char_app (c : char) (b a : str) : c ∉ b → find_char c (b ++ c :: a) = Some (length b).
Proof.
  induction b as [|x b IH]; intros Hc; cbn [app find_char].
  - by rewrite N.eqb_refl.
  - rewrite (proj2 (N.eqb_neq _ _)) by set_solver. rewrite IH by set_solver. done.
Qed.
Lemma rfind_char_app (c : char) (b a : str) : c ∉ a → rfind_char c (b ++ c :: a) = Some (length b).
Proof.
  intros Hc. unfold rfind_char. rewrite reverse_app, reverse_cons, <- (assoc app). cbn [app].
  rewrite find_char_app by by rewrite elem_of_reverse. cbn. rewrite length_reverse, length_app. cbn [length]. f_equal. lia.
Qed.
Lemma fenced_absent (fence s : str) (c : char) : head fence = Some c → c ∉ s → fenced fence s = None.
Proof. intros Hf Hc. destruct fence as [|x fence]; [done|]. injection Hf as ->. unfold fenced. by rewrite split_first_absent. Qed.

(** The verdict parser is documented never to fail, yet it panics (the slice of the isolated
    block starts past its end) on every unfenced reply whose last closing brace comes before its
    first opening brace with text in between. *)
Theorem reversed_braces_panic before between after n :
  between ≠ [] →
  (123%N : char) ∉ before ++ between → (125%N : char) ∉ between ++ after → (96%N : char) ∉ before ++ between ++ after →
  parse_verdicts (before ++ 125%N :: between ++ 123%N :: after) n = None.
Proof.
  intros Hb Ho Hc Hq. unfold parse_verdicts, extract_json_block.
  rewrite !(fenced_absent _ _ 96%N) by (done || set_solver).
  assert (H1 : find_char 123 (before ++ 125%N :: between ++ 123%N :: after) = Some (length before + S (length between))%nat).
  { change (125%N :: between ++ 123%N :: after) with ((125%N :: between) ++ 123%N :: after).
    rewrite (assoc app), find_char_app, length_app by set_solver. done. }
  rewrite H1, rfind_char_app by set_solver. unfold slice.
  rewrite (proj2 (Nat.leb_gt _ _)); [done|]. destruct between; [done|]. cbn [length]. lia.
Qed.
End replies.
Arguments Success {A}. Arguments BudgetExhausted {A}. Arguments ParseError {A}.

(** ** Concrete readers *)

(** A JSON reader that knows the texts of a table. *)
Definition table_get (t : list (str * value)) (s : str) : option value := find_first (λ '(k, v), if bool_decide (k = s) then Some v else None) t.
Definition array_at (key : str) (v : value) : result bool (list value) := match get key v ≫= as_array with Some l => Ok l | None => Err true end.
Definition string_list (l : list value) : result bool (list str) := match mapM as_str l with Some l => Ok l | None => Err true end.
Definition read_table {A} (t : list (str * value)) (k : value → result bool A) (s : str) : result bool A :=
  match table_get t s with Some v => k v | None => Err false end.
Definition TableSerde (t : list (str * value)) : Serde := {|
  from_str := table_get t;
  payload_from_str key := read_table t (array_at key);
  payload_from_value := array_at;
  strings_from_str := read_table t (λ v, match as_array v with Some l => string_list l | None => Err true end);
  types_from_str := read_table t (λ v, match array_at #"types" v with Ok l => string_list l | Err e => Err e end);
  entity_of v :=
    name ← get_str #"name" v; ty ← get_str #"entity_type" v;
    Some {| xe_name := name; xe_type := ty; xe_summary := default [] (get_str #"summary" v); xe_original := None |};
  edge_of v :=
    s ← get_str #"source_name" v; t ← get_str #"target_name" v; f ← get_str #"fact" v;
    Some {| xd_source := s; xd_target := t; xd_fact := f; xd_type := get_str #"relation_type" v; xd_valid := None; xd_invalid := None; xd_original := None |};
  json_text v := match find_first (λ '(k, x), if value_eqb x v then Some k else None) t with Some k => k | None => [] end;
|}.

Definition judge_text : str := #"Verdicts: {v}".
Definition verdict_item (id : N) (d : bool) : value := VObject [(#"id", VNumber (PosInt id)); (#"duplicate", VBool d)].
(** Pair 0 is answered once, pair 1 twice, pair 2 not at all. *)
Definition judge_reply : value := VObject [(#"verdicts", VArray [verdict_item 0 true; verdict_item 1 true; verdict_item 1 true; verdict_item 9 true])].
Definition JudgeSerde : Serde := TableSerde [(#"{v}", judge_reply)].
Example judge_text_read : @parse_verdicts JudgeSerde judge_text 3 = Some [Duplicate; Unknown; Unknown].
Proof. vm_compute. reflexivity. Qed.

Lemma verdicts_strict_witness :
  ∃ out, @parse_verdicts JudgeSerde judge_text 3 = Some out ∧ length out = 3%nat.
Proof.
  destruct (@verdicts_strict JudgeSerde judge_text 3 #"{v}") as (out & H & Hl & _).
  - vm_compute. reflexivity.
  - intros value items Hv Hi. vm_compute in Hv. injection Hv as <-. vm_compute in Hi. injection Hi as <-. vm_compute. reflexivity.
  - exists out. split; assumption.
Defined.
Lemma reversed_braces_panic_witness : @parse_verdicts JudgeSerde #"Use } before {." 2 = None.
Proof.
  apply (@reversed_braces_panic JudgeSerde #"Use " #" before " #"." 2).
  - discriminate.
  - apply (bool_decide_unpack _); vm_compute; exact I.
  - apply (bool_decide_unpack _); vm_compute; exact I.
  - apply (bool_decide_unpack _); vm_compute; exact I.
Defined.
