(* ===== verification/Extraction.v ===== *)
(** * Extraction: the calls to a model (core/src/extractor.rs)

    The two adapters' extraction loops are one loop over what they differ in.  The network is the
    class [Network]: what it answers depends on everything done so far, the [trace] of the world,
    which also holds the telemetry.  Clock readings and the estimated cost, a float, are left out
    of the events; the wording of the prompts is the class [Wording].  A call's result is [None]
    when the code panics, which happens only where a reply's JSON block is isolated. *)

From S2P Require Import Prelude Text Numbers Json SummaryMerge TokenBudget Replies Ontology Prompts.

(** ** The world *)

(** The events the extractors emit.
    Source: core/src/telemetry.rs 11-134 (TelemetryEvent) *)
Inductive TelemetryEvent :=
| TokenUsage (role model : str) (input_tokens output_tokens cache_read_tokens cache_creation_tokens : N)
| LlmFallback (role primary_model fallback_model : str) (error_reason : Error)
| ExtractionTruncated (model : str) (chunk_len_bytes initial_max_tokens : N) (retry_succeeded : bool) (chunk_key : option str)
| StructuredOutputParse (model call_type outcome : str)
| ExtractionFailure (model call_type : str) (chunk_key : option str) (classification raw_body : str) (finish_reason : option str)
    (completion_tokens : option N) (max_tokens : N) (entities_extracted : option N)
| EntitiesMissingSummary (model : str) (chunk_key : option str) (entities_extracted missing_summary : N).

Inductive effect := Posted (max_tokens : N) (body : value) | Slept (seconds : N) | Dialed | UdsPosted (connection : nat) (max_tokens : N) (body : value) | Emitted (ev : TelemetryEvent).
(** [slots] holds the pool's connections, each named by the length of the trace when it was dialed. *)
Record world := World { trace : list effect; slots : list (option nat); cursor : N }.
Definition act (e : effect) (w : world) : world := World (trace w ++ [e]) (slots w) (cursor w).
Definition emit_all (evs : list TelemetryEvent) (w : world) : world := World (trace w ++ (Emitted <$> evs)) (slots w) (cursor w).
Definition set_slot (i : nat) (c : option nat) (w : world) : world := World (trace w) (<[i := c]> (slots w)) (cursor w).

(** What a POST brings: an error of the transport, or a status and the body's text (the error's
    text when reading it failed). *)
Inductive Http := HttpError (e : Error) | HttpAnswer (status : N) (text : result str str).
Inductive Uds := UdsBroken (e : Error) | UdsUnread (e : Error) | UdsAnswered (status : N) (body : bytes).
Class Network := {
  post : list effect → Http;
  dial : list effect → option Error;
  uds_post : list effect → Uds;
  status_error : N → Error;
  decode_error : str → Error;
}.
Class Wording := {
  JUDGE_SYSTEM_PROMPT : str; ENTITY_JSON_INSTRUCTION : str; EDGE_JSON_INSTRUCTION : str;
  classify_entities_prompt : bool → option (list str) → str;
  classify_relations_prompt : bool → str → str;
  consolidation_prompts : str → str → str → str * str;
}.

Definition is_success (status : N) : bool := (200 <=? status)%N && (status <? 300)%N.
Definition overloaded (status : N) : bool := (status =? 429)%N || (status =? 529)%N.
Definition body_text (t : result str str) : str :=
  match t with Ok t => t | Err e => #"<failed to read response body: " ++ e ++ #">" end.
Definition num (n : N) : value := VNumber (PosInt n).

Section extraction.
Context {U : Unicode} {SD : Serde} {NW : Network} {TP : Templates} {WD : Wording}.

(** ** One request *)

(** Source: core/src/extractor.rs 1087-1101 (SendOutcome) *)
Inductive SendOutcome := SendOk (v : value) | HttpFailure (status : N) (body : str) | MalformedBody (body : str) | Transport (e : Error).
(** Source: core/src/extractor.rs 1248-1257 (ChatFailure) *)
Inductive ChatFailure := ChatHttp (status : N) (body : str) | ChatMalformed (body : str) | ChatTransport (e : Error).
(** Source: core/src/extractor.rs 1259-1271 (from) *)
Definition chat_error (f : ChatFailure) : Error :=
  match f with
  | ChatHttp status body => Ipc (Msg "chat completion HTTP {status}: {body}" [ANum status; AStr body])
  | ChatMalformed body => Ipc (Msg "chat completion: response body was not valid JSON: {body}" [AStr body])
  | ChatTransport e => e
  end.
(** [left] is what is left of the three repetitions an overloaded server gets.
    Source: core/src/extractor.rs 240-281 (send_with_retry) *)
Fixpoint send_from (left : nat) (max_tokens : N) (body : value) (w : world) : SendOutcome * world :=
  let w := act (Posted max_tokens body) w in
  match post (trace w) with
  | HttpError e => (Transport e, w)
  | HttpAnswer status text =>
      let finish := if negb (is_success status) then HttpFailure status (body_text text)
                    else match from_str (body_text text) with Some v => SendOk v | None => MalformedBody (body_text text) end in
      match left with
      | S left' => if overloaded status then send_from left' max_tokens body (act (Slept (2 ^ N.of_nat (3 - left))) w) else (finish, w)
      | O => (finish, w)
      end
  end.
Definition send_with_retry (max_tokens : N) (body : value) (w : world) : SendOutcome * world := send_from 3 max_tokens body w.
Definition outcome_result (o : SendOutcome) : result ChatFailure value :=
  match o with
  | SendOk v => Ok v
  | HttpFailure status body => Err (ChatHttp status body)
  | MalformedBody body => Err (ChatMalformed body)
  | Transport e => Err (ChatTransport e)
  end.

(** The loop of the classification, consolidation and judgement calls: [error_for_status] makes
    client and server errors errors, [json] reads the body.
    Source: core/src/extractor.rs 771-794 (do_classify_entities) *)
Fixpoint request_from (left : nat) (max_tokens : N) (body : value) (w : world) : result Error value * world :=
  let w := act (Posted max_tokens body) w in
  match post (trace w) with
  | HttpError e => (Err e, w)
  | HttpAnswer status text =>
      let finish := if (400 <=? status)%N && (status <? 600)%N then Err (status_error status)
                    else match text with
                         | Err e => Err (decode_error e)
                         | Ok t => match from_str t with Some v => Ok v | None => Err (decode_error t) end
                         end in
      match left with
      | S left' => if overloaded status then request_from left' max_tokens body (act (Slept (2 ^ N.of_nat (3 - left))) w) else (finish, w)
      | O => (finish, w)
      end
  end.
Definition request (max_tokens : N) (body : value) (w : world) : result Error value * world := request_from 3 max_tokens body w.

(** ** The socket pool *)

(** Source: core/src/extractor.rs 1302-1302 (UDS_POOL_SIZE) *)
Definition UDS_POOL_SIZE : nat := 4.
(** Source: core/src/extractor.rs 1316-1324 (new) *)
Definition new_pool (w : world) : world := World (trace w) (replicate UDS_POOL_SIZE None) 0.
(** The result of dialing is the connection.
    Source: core/src/extractor.rs 1331-1346 (dial_uds) *)
Definition dial_uds (w : world) : result Error nat * world :=
  let w := act Dialed w in
  match dial (trace w) with Some e => (Err e, w) | None => (Ok (length (trace w)), w) end.
(** Source: core/src/extractor.rs 1354-1369 (UdsAttemptError) *)
Inductive UdsAttemptError := ConnectionBroken (e : Error) | UdsHttpStatus (status : N) (body : str) | UdsMalformed (body : str) | UdsOther (e : Error).
(** Source: core/src/extractor.rs 1376-1417 (send_and_read_uds) *)
Definition send_and_read_uds (conn : nat) (max_tokens : N) (body : value) (w : world) : result UdsAttemptError value * world :=
  let w := act (UdsPosted conn max_tokens body) w in
  (match uds_post (trace w) with
   | UdsBroken e => Err (ConnectionBroken e)
   | UdsUnread e => Err (UdsOther e)
   | UdsAnswered status bs =>
       if negb (is_success status) then Err (UdsHttpStatus status (from_utf8_lossy bs))
       else match from_utf8 bs ≫= from_str with Some v => Ok v | None => Err (UdsMalformed (from_utf8_lossy bs)) end
   end, w).
(** An attempt's error other than a broken connection, as the caller's failure. *)
Definition uds_failure (e : UdsAttemptError) : ChatFailure :=
  match e with
  | UdsHttpStatus status body => ChatHttp status body
  | UdsMalformed body => ChatMalformed body
  | UdsOther e | ConnectionBroken e => ChatTransport e
  end.
(** The slot is locked for the whole call; a call dropped while it waits for a reply empties it
    ([PoisonGuard]), which is [abandon_uds].
    Source: core/src/extractor.rs 1591-1657 (send_chat_uds) *)
Definition send_chat_uds (max_tokens : N) (body : value) (w : world) : result ChatFailure value * world :=
  let idx := N.to_nat (cursor w mod N.of_nat UDS_POOL_SIZE) in
  let w := World (trace w) (slots w) (add64 (cursor w) 1) in
  let '(conn, w) := match mjoin (slots w !! idx) with
                    | Some c => (Ok c, w)
                    | None => let '(r, w) := dial_uds w in (r, match r with Ok c => set_slot idx (Some c) w | Err _ => w end)
                    end in
  match conn with
  | Err e => (Err (ChatTransport e), w)
  | Ok c =>
      let '(first, w) := send_and_read_uds c max_tokens body w in
      match first with
      | Ok resp => (Ok resp, w)
      | Err (ConnectionBroken _) =>
          let w := set_slot idx None w in
          let '(redial, w) := dial_uds w in
          match redial with
          | Err e => (Err (ChatTransport e), w)
          | Ok c =>
              let '(second, w) := send_and_read_uds c max_tokens body (set_slot idx (Some c) w) in
              match second with
              | Ok resp => (Ok resp, w)
              | Err (ConnectionBroken e) => (Err (ChatTransport e), set_slot idx None w)
              | Err e => (Err (uds_failure e), w)
              end
          end
      | Err e => (Err (uds_failure e), w)
      end
  end.
(** Source: core/src/extractor.rs 1451-1457 (drop) *)
Definition abandon_uds (idx : nat) (w : world) : world := set_slot idx None w.

(** ** The extraction loop *)

(** What one call's loop works with. *)
Record Call := {
  c_model : str; c_type : str; c_http : string; c_malformed : string; c_exhausted : string;
  c_key : option str; c_len : N; c_initial : N; c_ceiling : N; c_extracted : option N;
}.
(** What the adapters differ in. *)
Record Adapter (A : Type) := {
  a_send : N → world → result ChatFailure value * world;
  a_usage : value → list TelemetryEvent;
  a_finish : value → option str;
  a_completion : value → option N;
  a_parse : value → option (Outcome A * bool);
  a_found : list A → list TelemetryEvent;
  a_post : list A → list A;
}.
Arguments a_send {A}. Arguments a_usage {A}. Arguments a_finish {A}. Arguments a_completion {A}.
Arguments a_parse {A}. Arguments a_found {A}. Arguments a_post {A}.

Definition parse_label (dropped : N) (defensive : bool) : str :=
  if (0 <? dropped)%N then #"salvaged" else if defensive then #"recovered" else #"clean".
Definition failed (c : Call) (classification raw : str) (finish : option str) (completion : option N) (max_tokens : N) : TelemetryEvent :=
  ExtractionFailure (c_model c) (c_type c) (c_key c) classification raw finish completion max_tokens (c_extracted c).
(** [retries] is 1 until the output budget was raised.
    Source: core/src/extractor.rs 338-449 (do_extract_entities) *)
Fixpoint extract_loop {A} (a : Adapter A) (c : Call) (retries : nat) (max_tokens : N) (w : world) :
    option (result Error (list A * N)) * world :=
  let '(r, w) := a_send a max_tokens w in
  match r with
  | Err (ChatHttp status body) =>
      (Some (Err (Ipc (Msg (c_http c) [ANum status]))), act (Emitted (failed c #"http_error" body None None max_tokens)) w)
  | Err (ChatMalformed body) =>
      (Some (Err (Ipc (Msg (c_malformed c) []))), act (Emitted (failed c #"malformed" body None None max_tokens)) w)
  | Err (ChatTransport e) => (Some (Err e), w)
  | Ok resp =>
      let w := emit_all (a_usage a resp) w in
      let failure classification := failed c classification (json_text resp) (a_finish a resp) (a_completion a resp) max_tokens in
      match a_parse a resp with
      | None => (None, w)
      | Some (Success items dropped, defensive) =>
          let w := act (Emitted (StructuredOutputParse (c_model c) (c_type c) (parse_label dropped defensive))) w in
          let w := match retries with
                   | O => act (Emitted (ExtractionTruncated (c_model c) (c_len c) (c_initial c) true (c_key c))) w
                   | S _ => w
                   end in
          (Some (Ok (a_post a items, dropped)), emit_all (a_found a items) w)
      | Some (BudgetExhausted, _) =>
          let abandon_attempts :=
            (Some (Err (Ipc (Msg (c_exhausted c) []))),
             emit_all [ExtractionTruncated (c_model c) (c_len c) (c_initial c) false (c_key c); failure #"truncation"] w) in
          match retries with
          | S rest => match next_retry_max_tokens max_tokens (c_ceiling c) with
                      | Some next => extract_loop a c rest next w
                      | None => abandon_attempts
                      end
          | O => abandon_attempts
          end
      | Some (ParseError e, _) =>
          (Some (Err e), emit_all [StructuredOutputParse (c_model c) (c_type c) (classify_parse_failure e); failure (classify_parse_failure e)] w)
      end
  end.

(** ** The Anthropic adapter *)

(** The extractor's own fields, and the ceiling read from the environment.
    Source: core/src/extractor.rs 165-171 (AnthropicExtractor) *)
Record Extractor := { x_model : str; x_ceiling : option str }.
(** Source: core/src/extractor.rs 33-46 (ExtractOptions) *)
Record ExtractOptions := {
  o_body : str; o_group : str; o_source : SourceType; o_custom : option str; o_time : str; o_ontology : option Ontology; o_key : option str;
}.
(** Source: core/src/extractor.rs 228-230 (is_sonnet) *)
Definition is_sonnet (x : Extractor) : bool := contains #"sonnet" (to_lowercase (x_model x)).
Definition jstr (s : string) : value := VString (lit s).
Definition system_value (x : Extractor) (text : str) : value :=
  if is_sonnet x then VArray [VObject [(#"type", jstr "text"); (#"text", VString text); (#"cache_control", VObject [(#"type", jstr "ephemeral")])]]
  else VString text.
Definition user_message (text : str) : value := VArray [VObject [(#"role", jstr "user"); (#"content", VString text)]].
Definition typed (t : string) : value := VObject [(#"type", jstr t)].
Definition list_schema (key : string) (items : value) : value :=
  VObject [(#"type", jstr "object");
           (#"properties", VObject [(lit key, VObject [(#"type", jstr "array"); (#"items", items)])]);
           (#"required", VArray [jstr key])].
(** Source: core/src/extractor.rs 300-321 (do_extract_entities) *)
Definition entity_tool : value :=
  VObject [(#"name", jstr "extract_entities"); (#"description", jstr "Extract named entities from the text.");
           (#"input_schema", list_schema "entities"
              (VObject [(#"type", jstr "object");
                        (#"properties", VObject [(#"name", typed "string"); (#"entity_type", typed "string"); (#"summary", typed "string")]);
                        (#"required", VArray [jstr "name"; jstr "entity_type"; jstr "summary"])]))].
Definition one_of (names : list str) : value := VObject [(#"type", jstr "string"); (#"enum", VArray (VString <$> names))].
Definition nullable : value := VObject [(#"type", VArray [jstr "string"; jstr "null"])].
(** Source: core/src/extractor.rs 134-160 (build_edge_tool_schema) *)
Definition build_edge_tool_schema (sanitized_names : list str) : value :=
  VObject [(#"name", jstr "extract_edges"); (#"description", jstr "Extract factual relationship edges between the given entities.");
           (#"input_schema", list_schema "edges"
              (VObject [(#"type", jstr "object");
                        (#"properties",
                          VObject [(#"source_name", one_of sanitized_names); (#"target_name", one_of sanitized_names); (#"fact", typed "string");
                                   (#"relation_type", nullable); (#"valid_at", nullable); (#"invalid_at", nullable)]);
                        (#"required", VArray [jstr "source_name"; jstr "target_name"; jstr "fact"])]))].
Definition tool_body (x : Extractor) (system : str) (tool : value) (name : string) (user : str) (max_tokens : N) : value :=
  VObject [(#"model", VString (x_model x)); (#"max_tokens", num max_tokens); (#"system", system_value x system);
           (#"tools", VArray [tool]); (#"tool_choice", VObject [(#"type", jstr "tool"); (#"name", jstr name)]);
           (#"messages", user_message user)].
Definition plain_body (x : Extractor) (system user : str) (max_tokens : N) : value :=
  VObject [(#"model", VString (x_model x)); (#"max_tokens", num max_tokens); (#"system", system_value x system);
           (#"messages", user_message user)].

Definition usage_of (resp : value) : value := default VNull (get #"usage" resp).
Definition count_of (key : str) (usage : value) : N := default 0%N (get key usage ≫= as_u64).
(** Source: core/src/extractor.rs 985-1011 (emit_token_usage_for) *)
Definition token_usage (x : Extractor) (role : str) (resp : value) : list TelemetryEvent :=
  let usage := usage_of resp in
  match as_object usage with
  | None => []
  | Some _ => [TokenUsage role (x_model x) (count_of #"input_tokens" usage) (count_of #"output_tokens" usage)
                 (count_of #"cache_read_input_tokens" usage) (count_of #"cache_creation_input_tokens" usage)]
  end.

(** The type of an edge after extraction.
    Source: core/src/backfill.rs 70-82 (derive_relation_type_from_fact) *)
Definition derive_relation_type_from_fact (fact : str) : str :=
  let normalized := normalize_relation_type (join #" " (take 4 (split_whitespace fact))) in
  if nonempty normalized then normalized else #"UNCLASSIFIED".
(** Source: core/src/extractor.rs 559-581 (do_extract_edges) *)
Definition settle_type (e : ExtractedEdge) : ExtractedEdge :=
  let rt := match normalize_relation_type <$> xd_type e with
            | None | Some [] => derive_relation_type_from_fact (xd_fact e)
            | Some rt => rt
            end in
  {| xd_source := xd_source e; xd_target := xd_target e; xd_fact := xd_fact e; xd_type := Some rt; xd_valid := xd_valid e;
     xd_invalid := xd_invalid e; xd_original := xd_original e |}.

Definition entity_call (x : Extractor) (o : ExtractOptions) : Call :=
  let ceiling := resolve_max_tokens_ceiling (x_ceiling x) in
  {| c_model := x_model x; c_type := #"entities"; c_http := "entity extraction HTTP {status}";
     c_malformed := "entity extraction: response body was not valid JSON"; c_exhausted := "entity extraction budget exhausted after retry";
     c_key := o_key o; c_len := byte_len (o_body o); c_initial := compute_initial_max_tokens (byte_len (o_body o)) Entities ceiling;
     c_ceiling := ceiling; c_extracted := None |}.
Definition edge_call (x : Extractor) (o : ExtractOptions) (names : list str) : Call :=
  let ceiling := resolve_max_tokens_ceiling (x_ceiling x) in
  {| c_model := x_model x; c_type := #"edges"; c_http := "edge extraction HTTP {status}";
     c_malformed := "edge extraction: response body was not valid JSON"; c_exhausted := "edge extraction budget exhausted after retry";
     c_key := o_key o; c_len := byte_len (o_body o); c_initial := compute_initial_max_tokens (byte_len (o_body o)) Edges ceiling;
     c_ceiling := ceiling; c_extracted := Some (N.of_nat (length names)) |}.
Definition run_call {A} (a : Adapter A) (c : Call) (w : world) : option (result Error (list A * N)) * world :=
  extract_loop a c 1 (c_initial c) w.
(** Source: core/src/extractor.rs 1018-1039 (emit_extraction_failure) *)
Definition anthropic {A} (x : Extractor) (body : N → value) (parse : value → Outcome A) (post : list A → list A) : Adapter A :=
  {| a_send n w := let '(o, w) := send_with_retry n (body n) w in (outcome_result o, w);
     a_usage := token_usage x #"extraction";
     a_finish := get_str #"stop_reason";
     a_completion resp := get #"output_tokens" (usage_of resp) ≫= as_u64;
     a_parse resp := Some (parse resp, false);
     a_found _ := [];
     a_post := post |}.
(** Source: core/src/extractor.rs 283-450 (do_extract_entities) *)
Definition do_extract_entities (x : Extractor) (o : ExtractOptions) (w : world) : option (result Error (list ExtractedEntity * N)) * world :=
  let body := tool_body x (entity_system_prompt (o_source o) (o_ontology o)) entity_tool "extract_entities"
                (entity_user_prompt_for (o_source o) (o_body o) (o_custom o)) in
  run_call (anthropic x body parse_entity_response id) (entity_call x o) w.
(** Source: core/src/extractor.rs 452-637 (do_extract_edges) *)
Definition do_extract_edges (x : Extractor) (o : ExtractOptions) (names : list str) (w : world) : option (result Error (list ExtractedEdge * N)) * world :=
  match sanitize_entity_names names with
  | [] => (Some (Ok ([], 0%N)), w)
  | sanitized =>
      let body := tool_body x (edge_system_prompt (o_ontology o)) (build_edge_tool_schema sanitized) "extract_edges"
                    (edge_user_prompt names (o_time o) (o_body o) (o_custom o)) in
      run_call (anthropic x body parse_edge_response (fmap settle_type)) (edge_call x o names) w
  end.

(** Source: core/src/types.rs 213-236 (ExtractionOutcome) *)
Record ExtractionOutcome := {
  eo_entities : list ExtractedEntity; eo_edges : list ExtractedEdge; eo_entities_dropped : N; eo_edges_dropped : N;
}.
(** The two passes: no edge call without entities, and none of a failed entity pass.
    Source: core/src/extractor.rs 646-665 (do_extract) *)
Definition two_pass (entities : world → option (result Error (list ExtractedEntity * N)) * world)
    (edges : list str → world → option (result Error (list ExtractedEdge * N)) * world) (w : world) : option (result Error ExtractionOutcome) * world :=
  let '(r, w) := entities w in
  match r with
  | None => (None, w)
  | Some (Err e) => (Some (Err e), w)
  | Some (Ok ([], dropped)) => (Some (Ok {| eo_entities := []; eo_edges := []; eo_entities_dropped := dropped; eo_edges_dropped := 0 |}), w)
  | Some (Ok (ents, dropped)) =>
      let '(r, w) := edges (xe_name <$> ents) w in
      (match r with
       | None => None
       | Some (Err e) => Some (Err e)
       | Some (Ok (es, edropped)) => Some (Ok {| eo_entities := ents; eo_edges := es; eo_entities_dropped := dropped; eo_edges_dropped := edropped |})
       end, w)
  end.
(** Source: core/src/extractor.rs 646-665 (do_extract) *)
Definition do_extract (x : Extractor) (o : ExtractOptions) : world → option (result Error ExtractionOutcome) * world :=
  two_pass (do_extract_entities x o) (do_extract_edges x o).

(** ** Classification, consolidation and judgement *)

Definition first_text (resp : value) : option str :=
  content ← get #"content" resp; l ← as_array content; b ← head l; get_str #"text" b.
(** [Vec::resize] with the empty text, then anything outside the allowed types blanked.
    Source: core/src/extractor.rs 807-820 (do_classify_entities) *)
Definition fit_types (n : nat) (allowed : option (list str)) (types : list str) : list str :=
  let result := resize n [] types in
  match allowed with
  | None => result
  | Some l => (λ entry, if nonempty entry && negb (bool_decide (entry ∈ l)) then [] else entry) <$> result
  end.
(** What follows the answer's text in a classification.
    Source: core/src/extractor.rs 804-820 (do_classify_entities) *)
Definition classify_reply (read : str → result bool (list str)) (n : nat) (allowed : option (list str)) (content : str) : option (result Error (list str)) :=
  block ← extract_json_block content;
  Some match read block with Err data => Err (json_error data) | Ok types => Ok (fit_types n allowed types) end.
(** A request whose answer holds a text, handed on.  The usage is emitted under [role]. *)
Definition asking {A} (x : Extractor) (role : str) (max_tokens : N) (body : value) (missing : string)
    (k : str → option (result Error A)) (w : world) : option (result Error A) * world :=
  let '(r, w) := request max_tokens body w in
  match r with
  | Err e => (Some (Err e), w)
  | Ok resp =>
      (match first_text resp with None => Some (Err (Ipc (Msg missing []))) | Some content => k content end,
       emit_all (token_usage x role resp) w)
  end.
Definition pair_values (a b : string) (l : list (str * str)) : value :=
  VArray ((λ p, VObject [(lit a, VString p.1); (lit b, VString p.2)]) <$> l).
Definition classify_entities_text (entities : list (str * str)) : str :=
  #"Classify the entity types for:" ++ newline ++ newline ++ json_text (pair_values "name" "summary" entities).
Definition classify_relations_text (edges : list (str * str)) : str :=
  #"Classify the relation types for:" ++ newline ++ newline ++ json_text (pair_values "fact" "current_type" edges).
(** Source: core/src/extractor.rs 882-889 (do_classify_relations) *)
Definition type_list (allowed_types : list (str * option str)) : str :=
  join #"; " ((λ '(name, desc), match desc with Some d => if nonempty d then name ++ #": " ++ d else name | None => name end) <$> allowed_types).
(** Source: core/src/dedup_judge.rs 76-81 (user_prompt) *)
Definition judge_user_prompt (pairs : list DuplicatePair) : str := #"Judge each pair:" ++ newline ++ newline ++ json_text (pairs_value pairs).

(** Source: core/src/extractor.rs 667-715 (do_consolidate_summary) *)
Definition do_consolidate_summary (x : Extractor) (entity_name existing incoming : str) : world → option (result Error str) * world :=
  let '(system_text, user_text) := consolidation_prompts entity_name existing incoming in
  asking x #"extraction" 512 (plain_body x system_text user_text 512) "consolidate_summary response missing content text" parse_consolidation_reply.
(** Source: core/src/extractor.rs 717-822 (do_classify_entities) *)
Definition do_classify_entities (x : Extractor) (entities : list (str * str)) (allowed_types : option (list str)) (w : world) : option (result Error (list str)) * world :=
  match entities with
  | [] => (Some (Ok []), w)
  | _ =>
      asking x #"extraction" 512 (plain_body x (classify_entities_prompt false allowed_types) (classify_entities_text entities) 512)
        "classify_entities response missing content text" (classify_reply strings_from_str (length entities) allowed_types) w
  end.
(** Source: core/src/extractor.rs 824-871 (do_judge_duplicates) *)
Definition do_judge_duplicates (x : Extractor) (pairs : list DuplicatePair) (w : world) : option (result Error (list DedupVerdict)) * world :=
  match pairs with
  | [] => (Some (Ok []), w)
  | _ =>
      asking x #"dedup" JUDGE_MAX_TOKENS (plain_body x JUDGE_SYSTEM_PROMPT (judge_user_prompt pairs) JUDGE_MAX_TOKENS)
        "judge_duplicates response missing content text" (λ content, Ok <$> parse_verdicts content (length pairs)) w
  end.
(** Source: core/src/extractor.rs 873-979 (do_classify_relations) *)
Definition do_classify_relations (x : Extractor) (edges : list (str * str)) (allowed_types : list (str * option str)) (w : world) : option (result Error (list str)) * world :=
  match edges with
  | [] => (Some (Ok []), w)
  | _ =>
      asking x #"extraction" 1024 (plain_body x (classify_relations_prompt false (type_list allowed_types)) (classify_relations_text edges) 1024)
        "classify_relations response missing content text" (classify_reply strings_from_str (length edges) (Some (fst <$> allowed_types))) w
  end.

(** ** The OpenAI-compatible adapter *)

(** Source: core/src/extractor.rs 1273-1283 (ExtractTransport) *)
Inductive ExtractTransport := OverHttp | OverUds.
Definition oai_body (x : Extractor) (system user : str) (max_tokens : N) : value :=
  VObject [(#"model", VString (x_model x)); (#"max_tokens", num max_tokens); (#"response_format", typed "json_object");
           (#"messages", VArray [VObject [(#"role", jstr "system"); (#"content", VString system)];
                                 VObject [(#"role", jstr "user"); (#"content", VString user)]])].
(** Source: core/src/extractor.rs 1541-1583 (send_chat) *)
Definition send_chat (x : Extractor) (t : ExtractTransport) (system user : str) (max_tokens : N) (w : world) : result ChatFailure value * world :=
  let body := oai_body x system user max_tokens in
  match t with
  | OverHttp =>
      let w := act (Posted max_tokens body) w in
      (match post (trace w) with
       | HttpError e => Err (ChatTransport e)
       | HttpAnswer status text =>
           if negb (is_success status) then Err (ChatHttp status (body_text text))
           else match from_str (body_text text) with Some v => Ok v | None => Err (ChatMalformed (body_text text)) end
       end, w)
  | OverUds => send_chat_uds max_tokens body w
  end.
(** Source: core/src/extractor.rs 1666-1686 (emit_token_usage_for) *)
Definition oai_token_usage (x : Extractor) (role : str) (resp : value) : list TelemetryEvent :=
  let usage := usage_of resp in
  match as_object usage with
  | None => []
  | Some _ => [TokenUsage role (x_model x) (count_of #"prompt_tokens" usage) (count_of #"completion_tokens" usage) 0 0]
  end.
(** Source: core/src/extractor.rs 1693-1714 (emit_extraction_failure) *)
Definition oai {A} (x : Extractor) (t : ExtractTransport) (system user : str) (parse : value → option (Outcome A * bool))
    (found : list A → list TelemetryEvent) (post : list A → list A) : Adapter A :=
  {| a_send := send_chat x t system user;
     a_usage := oai_token_usage x #"extraction";
     a_finish := oai_finish_reason;
     a_completion resp := get #"completion_tokens" (usage_of resp) ≫= as_u64;
     a_parse := parse;
     a_found := found;
     a_post := post |}.
(** Source: core/src/extractor.rs 1807-1817 (do_extract_entities) *)
Definition missing_summaries (x : Extractor) (o : ExtractOptions) (entities : list ExtractedEntity) : list TelemetryEvent :=
  match entities with
  | [] => []
  | _ => [EntitiesMissingSummary (x_model x) (o_key o) (N.of_nat (length entities))
            (N.of_nat (length (List.filter (λ e, negb (nonempty (xe_summary e))) entities)))]
  end.
(** Source: core/src/extractor.rs 1716-1868 (do_extract_entities) *)
Definition oai_extract_entities (x : Extractor) (t : ExtractTransport) (o : ExtractOptions) (w : world) : option (result Error (list ExtractedEntity * N)) * world :=
  run_call (oai x t (entity_system_prompt (o_source o) (o_ontology o) ++ ENTITY_JSON_INSTRUCTION)
              (entity_user_prompt_for (o_source o) (o_body o) (o_custom o)) parse_oai_entity_response (missing_summaries x o) id)
    (entity_call x o) w.
(** Source: core/src/extractor.rs 1870-2040 (do_extract_edges) *)
Definition oai_extract_edges (x : Extractor) (t : ExtractTransport) (o : ExtractOptions) (names : list str) (w : world) : option (result Error (list ExtractedEdge * N)) * world :=
  run_call (oai x t (edge_system_prompt (o_ontology o) ++ EDGE_JSON_INSTRUCTION)
              (edge_user_prompt names (o_time o) (o_body o) (o_custom o)) parse_oai_edge_response (λ _, []) (fmap settle_type))
    (edge_call x o names) w.
(** Source: core/src/extractor.rs 2049-2068 (do_extract) *)
Definition oai_extract (x : Extractor) (t : ExtractTransport) (o : ExtractOptions) : world → option (result Error ExtractionOutcome) * world :=
  two_pass (oai_extract_entities x t o) (oai_extract_edges x t o).

Definition oai_asking {A} (x : Extractor) (t : ExtractTransport) (role : str) (max_tokens : N) (system user : str) (missing : string)
    (k : str → option (result Error A)) (w : world) : option (result Error A) * world :=
  let '(r, w) := send_chat x t system user max_tokens w in
  match r with
  | Err f => (Some (Err (chat_error f)), w)
  | Ok resp =>
      (match oai_message_content resp with None => Some (Err (Ipc (Msg missing []))) | Some content => k content end,
       emit_all (oai_token_usage x role resp) w)
  end.
(** Source: core/src/extractor.rs 2070-2084 (do_consolidate_summary) *)
Definition oai_consolidate_summary (x : Extractor) (t : ExtractTransport) (entity_name existing incoming : str) : world → option (result Error str) * world :=
  let '(system_text, user_text) := consolidation_prompts entity_name existing incoming in
  oai_asking x t #"extraction" 512 system_text user_text "consolidate_summary response missing message content" parse_consolidation_reply.
(** Source: core/src/extractor.rs 2086-2153 (do_classify_entities) *)
Definition oai_classify_entities (x : Extractor) (t : ExtractTransport) (entities : list (str * str)) (allowed_types : option (list str)) (w : world) : option (result Error (list str)) * world :=
  match entities with
  | [] => (Some (Ok []), w)
  | _ =>
      oai_asking x t #"extraction" 512 (classify_entities_prompt true allowed_types) (classify_entities_text entities)
        "classify_entities response missing message content" (classify_reply types_from_str (length entities) allowed_types) w
  end.
(** Source: core/src/extractor.rs 2155-2174 (do_judge_duplicates) *)
Definition oai_judge_duplicates (x : Extractor) (t : ExtractTransport) (pairs : list DuplicatePair) (w : world) : option (result Error (list DedupVerdict)) * world :=
  match pairs with
  | [] => (Some (Ok []), w)
  | _ =>
      oai_asking x t #"dedup" JUDGE_MAX_TOKENS JUDGE_SYSTEM_PROMPT (judge_user_prompt pairs)
        "judge_duplicates response missing message content" (λ content, Ok <$> parse_verdicts content (length pairs)) w
  end.
(** Source: core/src/extractor.rs 2176-2241 (do_classify_relations) *)
Definition oai_classify_relations (x : Extractor) (t : ExtractTransport) (edges : list (str * str)) (allowed_types : list (str * option str)) (w : world) : option (result Error (list str)) * world :=
  match edges with
  | [] => (Some (Ok []), w)
  | _ =>
      oai_asking x t #"extraction" 1024 (classify_relations_prompt true (type_list allowed_types)) (classify_relations_text edges)
        "classify_relations response missing message content" (classify_reply types_from_str (length edges) (Some (fst <$> allowed_types))) w
  end.
End extraction.
Arguments a_send {A}. Arguments a_usage {A}. Arguments a_finish {A}. Arguments a_completion {A}.
Arguments a_parse {A}. Arguments a_found {A}. Arguments a_post {A}.
