(* ===== verification/ExtractionTheory.v ===== *)
(** * ExtractionTheory: what the calls to a model guarantee

    Every call only extends the trace, so what it did is the extension: the budgets it posted and
    the events it emitted.  Both adapters' loops are covered by the same induction. *)

From S2P Require Import Prelude Text Numbers Json SummaryMerge TokenBudget Replies Ontology Prompts Extraction.

Definition budget_of (e : effect) : option N :=
  match e with Posted n _ | UdsPosted _ n _ => Some n | _ => None end.
Definition event_of (e : effect) : option TelemetryEvent := match e with Emitted ev => Some ev | _ => None end.
Definition budgets (l : list effect) : list N := omap budget_of l.
Definition events (l : list effect) : list TelemetryEvent := omap event_of l.
(** [w'] is [w] after the effects [l]. *)
Definition did (w w' : world) (l : list effect) : Prop := trace w' = trace w ++ l.

Definition is_failure (e : TelemetryEvent) : bool := match e with ExtractionFailure _ _ _ _ _ _ _ _ _ => true | _ => false end.
Definition is_parse (e : TelemetryEvent) : bool := match e with StructuredOutputParse _ _ _ => true | _ => false end.
Definition failures (l : list effect) : nat := length (List.filter is_failure (events l)).
Definition parses (l : list effect) : nat := length (List.filter is_parse (events l)).

Lemma did_refl w : did w w [].
Proof. unfold did. by rewrite app_nil_r. Qed.
Lemma did_trans w1 w2 w3 l1 l2 : did w1 w2 l1 → did w2 w3 l2 → did w1 w3 (l1 ++ l2).
Proof. unfold did. intros H1 H2. by rewrite H2, H1, <- app_assoc. Qed.
Lemma did_act e w : did w (act e w) [e].
Proof. done. Qed.
Lemma did_emit evs w : did w (emit_all evs w) (Emitted <$> evs).
Proof. done. Qed.
Lemma budgets_app l1 l2 : budgets (l1 ++ l2) = budgets l1 ++ budgets l2.
Proof. apply omap_app. Qed.
Lemma events_app l1 l2 : events (l1 ++ l2) = events l1 ++ events l2.
Proof. apply omap_app. Qed.
Lemma budgets_emit evs : budgets (Emitted <$> evs) = [].
Proof. by induction evs. Qed.
Lemma events_emit evs : events (Emitted <$> evs) = evs.
Proof. induction evs as [|e evs IH]; [done|]. cbn. by f_equal. Qed.
Create HintDb effects.
Create Rewrite HintDb effects.
#[export] Hint Rewrite budgets_app events_app budgets_emit events_emit : effects.
#[export] Hint Resolve did_refl did_trans did_act did_emit : effects.

Section extraction.
Context {U : Unicode} {SD : Serde} {NW : Network} {TP : Templates} {WD : Wording}.

(** What the network last answered was an error of the transport. *)
Definition refused (t : list effect) (e : Error) : Prop :=
  post t = HttpError e ∨ dial t = Some e ∨ uds_post t = UdsBroken e ∨ uds_post t = UdsUnread e.
(** A way of sending posts its budget at most [most] times, emits nothing, and reports an error of
    the transport only for one. *)
Definition sends (most : nat) (send : N → world → result ChatFailure value * world) : Prop :=
  ∀ n w, ∃ l k, did w (send n w).2 l ∧ budgets l = replicate k n ∧ (k ≤ most)%nat ∧ events l = []
    ∧ (∀ e, (send n w).1 = Err (ChatTransport e) → refused (trace (send n w).2) e).

Lemma send_from_did left n body : ∀ w, ∃ l k,
  did w (send_from left n body w).2 l ∧ budgets l = replicate k n ∧ (1 ≤ k ≤ S left)%nat ∧ events l = []
  ∧ (∀ e, (send_from left n body w).1 = Transport e → post (trace (send_from left n body w).2) = HttpError e).
Proof.
  induction left as [|left IH]; intros w; cbn [send_from].
  - exists [Posted n body], 1%nat. destruct (post _) as [e|status text] eqn:Hp; cbn [fst snd].
    + repeat split; try done. intros e' [= <-]. done.
    + repeat split; try done. intros e'. destruct (negb _); [done|]. by destruct (from_str _).
  - destruct (post _) as [e|status text] eqn:Hp; cbn [fst snd].
    + exists [Posted n body], 1%nat. repeat split; try done; [lia|]. intros e' [= <-]. done.
    + destruct (overloaded status).
      * match goal with |- context [send_from left n body ?w1] => destruct (IH w1) as (l & k & Hd & Hb & Hk & He & Ht) end.
        exists ([Posted n body] ++ [Slept (2 ^ N.of_nat (3 - S left))] ++ l), (S k). split.
        { eapply did_trans; [apply did_act|]. eapply did_trans; [apply did_act|]. exact Hd. }
        autorewrite with effects. rewrite Hb, He. repeat split; [lia|lia|exact Ht].
      * exists [Posted n body], 1%nat. repeat split; try done; [lia|]. intros e'. cbn [fst snd].
        destruct (negb _); [done|]. by destruct (from_str _).
Qed.
Lemma anthropic_sends {A} x body (parse : value → Outcome A) (post : list A → list A) : sends 4 (a_send (anthropic x body parse post)).
Proof.
  intros n w. unfold anthropic; cbn [a_send]. unfold send_with_retry. destruct (send_from_did 3 n (body n) w) as (l & k & Hd & Hb & Hk & He & Ht).
  destruct (send_from _ _ _ _) as [o w']. exists l, k. cbn [fst snd] in *. split_and!; try done; [lia|].
  intros e Ho. left. apply Ht. by destruct o; try done; injection Ho as <-.
Qed.
Lemma dial_did w : did w (dial_uds w).2 [Dialed].
Proof. unfold dial_uds. by destruct (dial _). Qed.
Lemma send_uds_did c n body w : did w (send_and_read_uds c n body w).2 [UdsPosted c n body].
Proof. done. Qed.
Lemma dial_refused w e : (dial_uds w).1 = Err e → refused (trace (dial_uds w).2) e.
Proof. unfold dial_uds, refused. destruct (dial _) eqn:Hd; cbn; [intros [= <-]; auto|done]. Qed.
Lemma uds_refused c n body w e :
  (send_and_read_uds c n body w).1 = Err (ConnectionBroken e) ∨ (send_and_read_uds c n body w).1 = Err (UdsOther e) →
  refused (trace (send_and_read_uds c n body w).2) e.
Proof.
  unfold send_and_read_uds, refused. cbn. destruct (uds_post _) as [x|x|st bs] eqn:Hu; [naive_solver..|].
  destruct (negb _); [naive_solver|]. destruct (_ ≫= _); naive_solver.
Qed.
Lemma did_slot w i c w' l : did (set_slot i c w) w' l → did w w' l.
Proof. done. Qed.
Lemma did_slot_r w i c w' l : did w w' l → did w (set_slot i c w') l.
Proof. done. Qed.

Lemma uds_sends body : sends 2 (λ n, send_chat_uds n (body n)).
Proof.
  intros n w. cbv beta. generalize (body n) as bd. intros bd. unfold send_chat_uds. set (idx := N.to_nat _). set (w0 := World _ _ _).
  assert (H0 : did w w0 []) by by unfold did; rewrite app_nil_r.
  assert (Hc : let s := match mjoin (slots w0 !! idx) with
                        | Some c => (Ok c, w0)
                        | None => let '(r, w) := dial_uds w0 in (r, match r with Ok c => set_slot idx (Some c) w | Err _ => w end)
                        end : result Error nat * world in
    ∃ l, did w0 s.2 l ∧ (l = [] ∨ l = [Dialed]) ∧ ∀ e, s.1 = Err e → refused (trace s.2) e).
  { destruct (mjoin _); cbv zeta; [exists []; split; [apply did_refl|split; [by left|done]]|]. exists [Dialed].
    pose proof (dial_refused w0) as Hr. pose proof (dial_did w0) as Hd.
    destruct (dial_uds w0) as [[c|e] w']; (split; [done|split; [by right|]]); [done|exact Hr]. }
  cbv zeta in Hc. destruct (match mjoin _ with Some _ => _ | None => _ end) as [conn w1]. cbn [fst snd] in Hc. destruct Hc as (l1 & Hl1 & Hcase & Hce).
  assert (Hq : budgets l1 = [] ∧ events l1 = []) by by destruct Hcase as [-> | ->]. destruct Hq as [Hb1 He1].
  assert (Hout : ∀ (r : result ChatFailure value) w' l2 k, did w1 w' l2 → budgets l2 = replicate k n → (k ≤ 2)%nat → events l2 = [] →
    (∀ e, r = Err (ChatTransport e) → refused (trace w') e) →
    ∃ l k, did w (r, w').2 l ∧ budgets l = replicate k n ∧ (k ≤ 2)%nat ∧ events l = []
      ∧ (∀ e, (r, w').1 = Err (ChatTransport e) → refused (trace (r, w').2) e)).
  { intros r w' l2 k Hd Hb Hk He Hr. exists (l1 ++ l2), k. split; [eapply (did_trans _ w0 _ []); [done|by eapply did_trans]|].
    autorewrite with effects. by rewrite Hb1, He1, Hb, He. }
  destruct conn as [c|e]; [|apply (Hout _ w1 [] 0%nat); [apply did_refl|done|lia|done|by intros e0 [= <-]; apply Hce]].
  pose proof (send_uds_did c n bd w1) as H2. pose proof (uds_refused c n bd w1) as R2.
  destruct (send_and_read_uds c n bd w1) as [first w2]. cbn [fst snd] in H2, R2.
  destruct first as [v|[e|status b|b|e]].
  1, 3, 4, 5: apply (Hout _ w2 [UdsPosted c n bd] 1%nat); [done|done|lia|done|intros e0 [=]; subst; auto].
  apply (did_slot_r _ idx None) in H2. pose proof (dial_did (set_slot idx None w2)) as H3. pose proof (dial_refused (set_slot idx None w2)) as R3.
  destruct (dial_uds _) as [[c2|e2] w3]; cbn [fst snd] in H3, R3; pose proof (did_trans _ _ _ _ _ H2 H3) as H23.
  2: { eapply (Hout _ w3 _ 1%nat); [exact H23|done|lia|done|intros e0 [=]; subst; auto]. }
  apply (did_slot_r _ idx (Some c2)) in H23. pose proof (send_uds_did c2 n bd (set_slot idx (Some c2) w3)) as H4.
  pose proof (uds_refused c2 n bd (set_slot idx (Some c2) w3)) as R4.
  pose proof (did_trans _ _ _ _ _ H23 H4) as H24. destruct (send_and_read_uds c2 _ _ _) as [second w4]. cbn [fst snd] in H24, R4.
  assert (H25 := did_slot_r _ idx None _ _ H24).
  destruct second as [v|[e'|status b|b|e']];
    (eapply (Hout _ _ _ 2%nat); [first [exact H24|exact H25]|done|lia|done|intros e0 [=]; subst; apply R4; auto]).
Qed.
Lemma oai_sends {A} x t sys user (parse : value → option (Outcome A * bool)) found post0 :
  sends 4 (a_send (oai x t sys user parse found post0)).
Proof.
  intros n w. unfold oai; cbn [a_send]. destruct t; cbn [send_chat].
  - exists [Posted n (oai_body x sys user n)], 1%nat. split_and!; try done; [lia|]. cbn [fst snd]. intros e.
    unfold refused. destruct (post _) as [e'|st text]; [intros [= ->]; by left|]. destruct (negb _); [done|]. by destruct (from_str _).
  - destruct (uds_sends (oai_body x sys user) n w) as (l & k & ? & ? & ? & ? & ?). exists l, k. split_and!; try done. lia.
Qed.

(** ** The loop *)

Definition quiet (evs : list TelemetryEvent) : Prop := Forall (λ e, is_failure e = false ∧ is_parse e = false) evs.
Lemma quiet_failures evs : quiet evs → List.filter is_failure evs = [].
Proof. induction 1 as [|e l [H _] _ IH]; [done|]. cbn. by rewrite H. Qed.
Lemma quiet_parses evs : quiet evs → List.filter is_parse evs = [].
Proof. induction 1 as [|e l [_ H] _ IH]; [done|]. cbn. by rewrite H. Qed.

(** An adapter whose sending is accounted for and whose own events are not verdicts. *)
Record adapter_ok {A} (most : nat) (a : Adapter A) : Prop := {
  ok_sends : sends most (a_send a);
  ok_usage resp : quiet (a_usage a resp);
  ok_found items : quiet (a_found a items);
}.
(** What a loop did, told from what it returned: [l] are its effects. *)
Definition accounted {A} (r : option (result Error A)) (t : list effect) (l : list effect) : Prop :=
  match r with
  | Some (Ok _) => failures l = 0%nat ∧ parses l = 1%nat
  | Some (Err e) => (failures l = 1%nat ∧ (parses l ≤ 1)%nat) ∨ (failures l = 0%nat ∧ parses l = 0%nat ∧ refused t e)
  | None => failures l = 0%nat ∧ parses l = 0%nat
  end.
Definition budget_plan (most retries : nat) (max_tokens ceiling : N) (bs : list N) : Prop :=
  ∃ k k' next, bs = replicate k max_tokens ++ replicate k' next ∧ (k ≤ most)%nat ∧ (k' ≤ most)%nat ∧
    (k' = 0%nat ∨ retries ≠ 0%nat ∧ next_retry_max_tokens max_tokens ceiling = Some next).

Lemma failures_app l1 l2 : failures (l1 ++ l2) = (failures l1 + failures l2)%nat.
Proof. unfold failures. by rewrite events_app, List.filter_app, length_app. Qed.
Lemma parses_app l1 l2 : parses (l1 ++ l2) = (parses l1 + parses l2)%nat.
Proof. unfold parses. by rewrite events_app, List.filter_app, length_app. Qed.
Lemma failures_quiet evs : quiet evs → failures (Emitted <$> evs) = 0%nat.
Proof. intros H. unfold failures. by rewrite events_emit, quiet_failures. Qed.
Lemma parses_quiet evs : quiet evs → parses (Emitted <$> evs) = 0%nat.
Proof. intros H. unfold parses. by rewrite events_emit, quiet_parses. Qed.
Lemma eventless l : events l = [] → failures l = 0%nat ∧ parses l = 0%nat.
Proof. intros H. unfold failures, parses. by rewrite H. Qed.
(** The end of a loop: what the last sending did, then [l2]. *)
Lemma account_end {A} most n mt ceiling w w1 w2 l l2 k (r : option (result Error A)) :
  did w w1 l → budgets l = replicate k mt → (k ≤ most)%nat → events l = [] →
  did w1 w2 l2 → budgets l2 = [] → accounted r (trace w2) l2 →
  ∃ l, did w (r, w2).2 l ∧ budget_plan most n mt ceiling (budgets l) ∧ accounted (r, w2).1 (trace (r, w2).2) l.
Proof.
  intros Hd Hb Hk He Hd2 Hb2 Ha. exists (l ++ l2). cbn [fst snd]. split; [by eapply did_trans|]. split.
  - exists k, 0%nat, 0%N. rewrite budgets_app, Hb, Hb2. split_and!; [done|done|lia|by left].
  - unfold accounted in *. rewrite failures_app, parses_app. by destruct (eventless l He) as [-> ->].
Qed.
Lemma loop_accounts {A} most (a : Adapter A) c retries : adapter_ok most a → (retries ≤ 1)%nat → ∀ mt w,
  ∃ l, did w (extract_loop a c retries mt w).2 l ∧ budget_plan most retries mt (c_ceiling c) (budgets l)
    ∧ accounted (extract_loop a c retries mt w).1 (trace (extract_loop a c retries mt w).2) l.
Proof.
  intros [Hs Hu Hf]. induction retries as [|retries IH]; intros Hr mt w; cbn [extract_loop];
    destruct (Hs mt w) as (l & k & Hd & Hb & Hk & He & Ht); destruct (a_send a mt w) as [r w1]; cbn [fst snd] in *.
  all: destruct r as [resp|[status b|b|e]];
    [|eapply (account_end _ _ _ _ _ _ _ _ [Emitted _]); [done..|left; cbn; unfold parses; cbn; lia]
     |eapply (account_end _ _ _ _ _ _ _ _ [Emitted _]); [done..|left; cbn; unfold parses; cbn; lia]
     |eapply (account_end _ _ _ _ _ _ _ _ []); [done..|apply did_refl|done|right; auto]].
  all: pose proof (failures_quiet _ (Hu resp)) as Hq; pose proof (parses_quiet _ (Hu resp)) as Hp; pose proof (did_emit (a_usage a resp) w1) as Hd1.
  all: assert (Hbu := budgets_emit (a_usage a resp)).
  all: destruct (a_parse a resp) as [[[items dropped| |e] defensive]|];
    [| |eapply account_end; [done..|eapply did_trans; [exact Hd1|apply did_emit]|by autorewrite with effects|];
        cbn; rewrite failures_app, parses_app, Hq, Hp; unfold failures, parses; left; cbn; lia
     |eapply account_end; [done..|exact Hd1|done|done]].
  - eapply account_end; [done..|eapply did_trans; [exact Hd1|eapply did_trans; [apply did_act|eapply did_trans; [apply did_act|apply did_emit]]]|by autorewrite with effects|].
    cbn [accounted]. rewrite !failures_app, !parses_app, Hq, Hp, (failures_quiet _ (Hf items)), (parses_quiet _ (Hf items)). done.
  - eapply account_end; [done..|eapply did_trans; [exact Hd1|apply did_emit]|by autorewrite with effects|].
    cbn; rewrite failures_app, parses_app, Hq, Hp; unfold failures, parses; left; cbn; lia.
  - eapply account_end; [done..|eapply did_trans; [exact Hd1|eapply did_trans; [apply did_act|apply did_emit]]|by autorewrite with effects|].
    cbn [accounted]. rewrite !failures_app, !parses_app, Hq, Hp, (failures_quiet _ (Hf items)), (parses_quiet _ (Hf items)). done.
  - destruct (next_retry_max_tokens mt (c_ceiling c)) as [next|] eqn:Hn.
    + destruct retries; [|lia]. destruct (IH (Nat.le_0_l 1) next (emit_all (a_usage a resp) w1)) as (l2 & Hd2 & (k2 & k3 & n3 & Hb2 & Hk2 & _ & [-> |[? _]]) & Ha2); [|done].
      exists (l ++ (Emitted <$> a_usage a resp) ++ l2). split; [eapply did_trans; [done|by eapply did_trans]|]. split.
      * exists k, k2, next. rewrite !budgets_app, Hb, Hbu, Hb2. cbn. rewrite app_nil_r. split_and!; [done..|right; done].
      * unfold accounted in *. rewrite !failures_app, !parses_app, Hq, Hp. by destruct (eventless l He) as [-> ->].
    + eapply account_end; [done..|eapply did_trans; [exact Hd1|apply did_emit]|by autorewrite with effects|].
      cbn; rewrite failures_app, parses_app, Hq, Hp; unfold failures, parses; left; cbn; lia.
Qed.

(** ** Every extraction call *)

(** The four calls of the two adapters; an edge call without any name to offer is not one on the
    Anthropic side. *)
Inductive entry (x : Extractor) (o : ExtractOptions) : ExtractionCallType → ∀ A, (world → option (result Error (list A * N)) * world) → Prop :=
| entry_entities : entry x o Entities ExtractedEntity (do_extract_entities x o)
| entry_edges names : sanitize_entity_names names ≠ [] → entry x o Edges ExtractedEdge (do_extract_edges x o names)
| entry_oai_entities t : entry x o Entities ExtractedEntity (oai_extract_entities x t o)
| entry_oai_edges t names : entry x o Edges ExtractedEdge (oai_extract_edges x t o names).

Lemma token_usage_quiet x role resp : quiet (token_usage x role resp).
Proof. unfold token_usage. destruct (as_object _); repeat constructor. Qed.
Lemma oai_token_usage_quiet x role resp : quiet (oai_token_usage x role resp).
Proof. unfold oai_token_usage. destruct (as_object _); repeat constructor. Qed.
Lemma anthropic_ok {A} x body (parse : value → Outcome A) (p : list A → list A) : adapter_ok 4 (anthropic x body parse p).
Proof. split; [apply anthropic_sends|intros; apply token_usage_quiet|intros; constructor]. Qed.
Lemma oai_ok {A} x t sys user (parse : value → option (Outcome A * bool)) found p :
  (∀ items, quiet (found items)) → adapter_ok 4 (oai x t sys user parse found p).
Proof. intros Hf. split; [apply oai_sends|intros; apply oai_token_usage_quiet|exact Hf]. Qed.

Lemma entry_accounts x o ct A run w : entry x o ct A run →
  let ceiling := resolve_max_tokens_ceiling (x_ceiling x) in
  let initial := compute_initial_max_tokens (byte_len (o_body o)) ct ceiling in
  ∃ l, did w (run w).2 l ∧ budget_plan 4 1 initial ceiling (budgets l) ∧ accounted (run w).1 (trace (run w).2) l.
Proof.
  intros H. destruct H as [|names Hn|t|t names]; cbv zeta.
  - apply (loop_accounts 4 _ (entity_call x o)); [apply anthropic_ok|lia].
  - unfold do_extract_edges. destruct (sanitize_entity_names names); [done|].
    apply (loop_accounts 4 _ (edge_call x o names)); [apply anthropic_ok|lia].
  - apply (loop_accounts 4 _ (entity_call x o)); [apply oai_ok; intros []; repeat constructor|lia].
  - apply (loop_accounts 4 _ (edge_call x o names)); [apply oai_ok; repeat constructor|lia].
Qed.

(** C35. Every extraction call returns, after at most four requests with the initial output
    budget and then, only when the model's answer was cut off, at most four with a second budget
    that is strictly larger; both budgets lie between the floor and the configured ceiling, which
    itself lies between the floor and what 32 bits hold. *)
Theorem extraction_requests_bounded x o ct A run w : entry x o ct A run →
  let ceiling := resolve_max_tokens_ceiling (x_ceiling x) in
  let initial := compute_initial_max_tokens (byte_len (o_body o)) ct ceiling in
  ∃ l k k' next, did w (run w).2 l ∧ budgets l = replicate k initial ++ replicate k' next ∧ (k ≤ 4)%nat ∧ (k' ≤ 4)%nat ∧
    (k' = 0%nat ∨ (initial < next ≤ ceiling)%N) ∧ (MAX_TOKENS_FLOOR ≤ initial ≤ ceiling)%N ∧ (MAX_TOKENS_FLOOR ≤ ceiling ≤ u32_max)%N.
Proof.
  intros H ceiling initial. destruct (entry_accounts x o ct A run w H) as (l & Hd & (k & k' & next & Hb & Hk & Hk' & Hn) & _).
  exists l, k, k', next. pose proof (ceiling_range (x_ceiling x)) as Hc. pose proof (budget_range (byte_len (o_body o)) ct ceiling) as Hi.
  fold ceiling in Hc. fold initial in Hi. split_and!; try done; try lia.
  destruct Hn as [Hn|[_ Hn]]; [by left|right]. apply retry_grows in Hn; [done| |apply Hc].
  eapply N.lt_le_trans; [|apply Hi]. done.
Qed.

(** C34. The telemetry of an extraction call tells how it ended: a call that returns items emits
    exactly one parse verdict and no failure record; a call that returns an error emits exactly
    one failure record, unless the error is the transport's own, in which case it emits neither;
    a call that panics emits neither. *)
Theorem extraction_failures_recorded x o ct A run w : entry x o ct A run →
  ∃ l, did w (run w).2 l ∧
    match (run w).1 with
    | Some (Ok _) => failures l = 0%nat ∧ parses l = 1%nat
    | Some (Err e) => (failures l = 1%nat ∧ (parses l ≤ 1)%nat) ∨ (failures l = 0%nat ∧ parses l = 0%nat ∧ refused (trace (run w).2) e)
    | None => failures l = 0%nat ∧ parses l = 0%nat
    end.
Proof. intros H. destruct (entry_accounts x o ct A run w H) as (l & Hd & _ & Ha). by exists l. Qed.

(** ** What a call returns *)

Lemma loop_result {A} (P : A → Prop) (a : Adapter A) c retries : ∀ mt w items dropped,
  (∀ resp items dropped d, a_parse a resp = Some (Success items dropped, d) → Forall P (a_post a items)) →
  (extract_loop a c retries mt w).1 = Some (Ok (items, dropped)) → Forall P items.
Proof.
  induction retries as [|retries IH]; intros mt w items dropped HP; cbn [extract_loop];
    destruct (a_send a mt w) as [[resp|[| |]] w1]; try done.
  all: destruct (a_parse a resp) as [[[its d| |e] b]|] eqn:Hp; try done.
  - cbn [fst]. intros [= <- <-]. by eapply HP.
  - cbn [fst]. intros [= <- <-]. by eapply HP.
  - destruct (next_retry_max_tokens _ _); [|done]. by apply IH.
Qed.
Lemma salvage_holds {A} (f : value → option A) wf raw items dropped :
  salvage_items f wf raw = (items, dropped) → Forall (λ i, wf i = true) items.
Proof. intros [-> _]%salvage_spec. apply filter_holds. Qed.
Lemma payload_holds {A} (f : value → option A) wf p items dropped :
  payload_outcome f wf p = Success items dropped → Forall (λ i, wf i = true) items.
Proof.
  unfold payload_outcome. destruct p as [raw|]; [|done]. destruct (salvage_items _ _ _) eqn:Hs. intros [= <- <-]. by eapply salvage_holds.
Qed.
Lemma tool_holds {A} tool key m0 n0 (f : value → option A) wf resp items dropped :
  parse_tool_response tool key m0 n0 f wf resp = Success items dropped → Forall (λ i, wf i = true) items.
Proof.
  unfold parse_tool_response. case_bool_decide; [done|]. destruct (tool_block _ _); [|done]. destruct (is_null _); [done|]. apply payload_holds.
Qed.
Lemma oai_holds {A} key m0 (f : value → option A) wf resp items dropped d :
  parse_oai_response key m0 f wf resp = Some (Success items dropped, d) → Forall (λ i, wf i = true) items.
Proof.
  unfold parse_oai_response. case_bool_decide; [done|]. destruct (oai_message_content _); [|done].
  destruct (extract_json_block _); [|done]. cbn. intros [= Hp _]. by eapply payload_holds.
Qed.
Definition edge_settled (e : ExtractedEdge) : Prop := edge_well_formed e = true ∧ ∃ rt, xd_type e = Some rt ∧ rt ≠ [].
Lemma settle_settled es : Forall (λ e, edge_well_formed e = true) es → Forall edge_settled (settle_type <$> es).
Proof.
  intros Hes. apply Forall_fmap. eapply Forall_impl; [exact Hes|]. intros e He. split; [exact He|]. cbn. eexists; split; [done|].
  assert (Hd : derive_relation_type_from_fact (xd_fact e) ≠ []).
  { unfold derive_relation_type_from_fact. cbv zeta. destruct (normalize_relation_type _); done. }
  destruct (xd_type e) as [rt|]; cbn; [|done]. by destruct (normalize_relation_type rt).
Qed.

(** C36. Extraction with either adapter returns only well-formed items: every entity has a name
    that is not blank, every edge has endpoints and a fact that are not blank and a relation type
    that is not empty; and without entities there are no edges. *)
Theorem extraction_well_formed x o w run out :
  run = do_extract x o ∨ (∃ t, run = oai_extract x t o) → (run w).1 = Some (Ok out) →
  Forall (λ e, entity_well_formed e = true) (eo_entities out) ∧ Forall edge_settled (eo_edges out) ∧
  (eo_entities out = [] → eo_edges out = [] ∧ eo_edges_dropped out = 0%N).
Proof.
  intros Hrun. assert (Hrun' : ∃ ents edges, run = two_pass ents edges ∧
    (∀ w items d, (ents w).1 = Some (Ok (items, d)) → Forall (λ e, entity_well_formed e = true) items) ∧
    (∀ names w items d, (edges names w).1 = Some (Ok (items, d)) → Forall edge_settled items)).
  { destruct Hrun as [-> |[t ->]]; eexists _, _; (split; [reflexivity|]); split; intros *.
    - apply (loop_result _ (anthropic _ _ _ _)). intros resp its dr b Hp. unfold anthropic in Hp; cbn [a_parse] in Hp. injection Hp as Hp _. exact (tool_holds _ _ _ _ _ _ _ _ _ Hp).
    - unfold do_extract_edges. destruct (sanitize_entity_names names); [by intros [= <- <-]|].
      apply (loop_result _ (anthropic _ _ _ _)). intros resp its dr b Hp. unfold anthropic in Hp; cbn [a_parse] in Hp. injection Hp as Hp _. apply settle_settled. exact (tool_holds _ _ _ _ _ _ _ _ _ Hp).
    - apply (loop_result _ (oai _ _ _ _ _ _ _)). intros resp its dr b Hp. exact (oai_holds _ _ _ _ _ _ _ _ Hp).
    - apply (loop_result _ (oai _ _ _ _ _ _ _)). intros resp its dr b Hp. apply settle_settled. exact (oai_holds _ _ _ _ _ _ _ _ Hp). }
  clear Hrun. destruct Hrun' as (ents & edges & -> & He & Hd). unfold two_pass. specialize (He w).
  destruct (ents w) as [[[[items dr]|e]|] w1]; try done. specialize (He items dr eq_refl).
  destruct items as [|i items]; [by intros [= <-]|]. specialize (Hd (xe_name <$> i :: items) w1).
  destruct (edges (xe_name <$> i :: items) w1) as [[[[es edr]|e]|] w2]; try done. intros [= <-]. split; [done|]. split; [by eapply Hd|done].
Qed.

(** A classification gives exactly one label per input, in order, and under a closed list of
    types every label is empty or on the list, whatever the model answered. *)
Theorem classification_aligned x entities allowed w run types :
  run = do_classify_entities x entities allowed ∨ (∃ t, run = oai_classify_entities x t entities allowed) →
  (run w).1 = Some (Ok types) →
  length types = length entities ∧ match allowed with Some l => Forall (λ t, t = [] ∨ t ∈ l) types | None => True end.
Proof.
  assert (Hfit : ∀ ts, length (fit_types (length entities) allowed ts) = length entities ∧
    match allowed with Some l => Forall (λ t, t = [] ∨ t ∈ l) (fit_types (length entities) allowed ts) | None => True end).
  { intros ts. unfold fit_types. destruct allowed as [l|]; [|by rewrite length_resize]. rewrite length_fmap, length_resize. split; [done|].
    rewrite Forall_fmap. apply Forall_forall. intros t _. cbn. destruct t as [|c t]; [by left|]. case_bool_decide; [by right|by left]. }
  assert (Hreply : ∀ read content, classify_reply read (length entities) allowed content = Some (Ok types) → ∃ ts, types = fit_types (length entities) allowed ts).
  { intros read content. unfold classify_reply. destruct (extract_json_block content); [|done]. cbn. destruct (read _) as [ts|]; [|done].
    intros [= <-]. by exists ts. }
  intros Hrun Hr. destruct entities as [|e es].
  { destruct Hrun as [-> |[t ->]]; injection Hr as <-; (split; [done|]); destruct allowed; constructor. }
  assert (∃ ts, types = fit_types (length (e :: es)) allowed ts) as [ts ->]; [|apply Hfit].
  destruct Hrun as [-> |[t ->]]; cbn in Hr.
  - unfold asking in Hr. destruct (request _ _ _) as [[resp|] w1]; [|done]. cbn [fst] in Hr. destruct (first_text resp); [|done]. by eapply Hreply.
  - unfold oai_asking in Hr. destruct (send_chat _ _ _ _ _ _) as [[resp|] w1]; [|done]. cbn [fst] in Hr. destruct (oai_message_content resp); [|done]. by eapply Hreply.
Qed.

(** ** The socket pool *)

Definition broken (r : Uds) : bool := match r with UdsBroken _ => true | _ => false end.
Record pool_ok (w : world) : Prop := {
  p_size : length (slots w) = UDS_POOL_SIZE;
  p_posted j c n b : trace w !! j = Some (UdsPosted c n b) → (c ≤ j)%nat;
  p_bound i c : slots w !! i = Some (Some c) → (c ≤ length (trace w))%nat;
  p_distinct i j c : slots w !! i = Some (Some c) → slots w !! j = Some (Some c) → i = j;
  p_sound i c j n b : slots w !! i = Some (Some c) → trace w !! j = Some (UdsPosted c n b) → broken (uds_post (take (S j) (trace w))) = false;
}.
Lemma snoc_lookup {A} (l : list A) x j y : (l ++ [x]) !! j = Some y → l !! j = Some y ∨ j = length l ∧ x = y.
Proof. intros [H|[Hl H]]%lookup_app_Some; [by left|right]. apply list_lookup_singleton_Some in H as [? ->]. split; [lia|done]. Qed.
Lemma take_snoc {A} (l : list A) x j y : l !! j = Some y → take (S j) (l ++ [x]) = take (S j) l.
Proof. intros H%lookup_lt_Some. rewrite take_app_le by lia. done. Qed.
Lemma slot_set w idx v i c : slots (set_slot idx v w) !! i = Some (Some c) → (i = idx ∧ v = Some c) ∨ (i ≠ idx ∧ slots w !! i = Some (Some c)).
Proof.
  cbn. destruct (decide (i = idx)) as [->|Hne]; [|rewrite list_lookup_insert_ne by done; by right].
  intros H. left. split; [done|]. destruct (decide (idx < length (slots w))%nat).
  - rewrite list_lookup_insert_eq in H by done. by injection H.
  - rewrite list_insert_ge in H by lia. apply lookup_lt_Some in H. lia.
Qed.
Lemma pool_clear w idx : pool_ok w → pool_ok (set_slot idx None w).
Proof.
  intros [H1 H2 H3 H4 H5]. split.
  - cbn. by rewrite length_insert.
  - exact H2.
  - intros i c [[_ ?]|[_ ?]]%slot_set; [done|by eapply H3].
  - intros i j c [[_ ?]|[_ ?]]%slot_set [[_ ?]|[_ ?]]%slot_set; [done..|by eapply H4].
  - intros i c j n b [[_ ?]|[_ ?]]%slot_set; [done|by eapply H5].
Qed.
(** Anything but a post on the socket keeps the invariant. *)
Lemma pool_act w e : (∀ c n b, e ≠ UdsPosted c n b) → pool_ok w → pool_ok (act e w).
Proof.
  intros He [H1 H2 H3 H4 H5]. split; cbn [act trace slots].
  - done.
  - intros j c n b [H|[_ ->]]%snoc_lookup; [by eapply H2|by destruct (He c n b)].
  - intros i c H%H3. rewrite length_app. lia.
  - exact H4.
  - intros i c j n b Hi [H|[_ ->]]%snoc_lookup; [|by destruct (He c n b)]. rewrite (take_snoc _ _ _ _ H). by eapply H5.
Qed.
(** A fresh connection was never posted on. *)
Lemma pool_dial w idx c : (idx < UDS_POOL_SIZE)%nat → pool_ok w → (dial_uds w).1 = Ok c → pool_ok (set_slot idx (Some c) (dial_uds w).2).
Proof.
  intros Hidx Hok. assert (Hd : pool_ok (act Dialed w)) by by apply pool_act.
  unfold dial_uds. destruct (dial _); [done|]. cbn [fst snd]. intros [= <-].
  assert (Hfresh : ∀ i, slots w !! i ≠ Some (Some (length (trace (act Dialed w))))).
  { intros i H%(p_bound w Hok). cbn in H. rewrite length_app in H. cbn in H. lia. }
  destruct Hd as [H1 H2 H3 H4 H5]. split.
  - cbn. by rewrite length_insert.
  - exact H2.
  - intros i c [[_ [= <-]]|[_ H]]%slot_set; [done|by eapply H3].
  - intros i j c [[-> [= Hc]]|[_ Hi]]%slot_set [[-> [= Hc']]|[_ Hj]]%slot_set; subst; [done|by destruct (Hfresh j)|by destruct (Hfresh i)|by eapply H4].
  - intros i c j n b [[-> [= <-]]|[_ Hi]]%slot_set Hj; [|by eapply H5].
    pose proof (H2 _ _ _ _ Hj) as Hle. apply lookup_lt_Some in Hj. cbn in Hj, Hle. lia.
Qed.
Lemma pool_dial_fails w e : pool_ok w → (dial_uds w).1 = Err e → pool_ok (dial_uds w).2.
Proof. intros Hok. unfold dial_uds. assert (pool_ok (act Dialed w)) by by apply pool_act. by destruct (dial _). Qed.
(** A post keeps the invariant once the slot is emptied, and at once when the connection held. *)
Lemma pool_post w idx c n b : pool_ok w → slots w !! idx = Some (Some c) →
  let w' := act (UdsPosted c n b) w in
  pool_ok (set_slot idx None w') ∧ (broken (uds_post (trace w')) = false → pool_ok w').
Proof.
  intros [H1 H2 H3 H4 H5] Hc w'.
  assert (Hp : ∀ j c' n' b', trace w' !! j = Some (UdsPosted c' n' b') → (c' ≤ j)%nat).
  { intros j c' n' b' [H|[-> [= -> -> ->]]]%snoc_lookup; [by eapply H2|by eapply H3]. }
  assert (Hb : ∀ i c, slots w !! i = Some (Some c) → (c ≤ length (trace w'))%nat).
  { intros i c' H%H3. cbn. rewrite length_app. lia. }
  split; [|intros Hk]; split; try done.
  - cbn. by rewrite length_insert.
  - intros i c' [[_ ?]|[_ ?]]%slot_set; [done|by eapply Hb].
  - intros i j c' [[_ ?]|[_ ?]]%slot_set [[_ ?]|[_ ?]]%slot_set; [done..|by eapply H4].
  - intros i c' j n' b' [[_ Hx]|[Hi Hs]]%slot_set [H|[-> [= -> -> ->]]]%snoc_lookup; [done..| |].
    + cbn [trace set_slot w' act]. rewrite (take_snoc _ _ _ _ H). by eapply H5.
    + by destruct (Hi (H4 _ _ _ Hs Hc)).
  - intros i c' j n' b' Hs [H|[-> [= -> -> ->]]]%snoc_lookup.
    + cbn [trace w' act]. rewrite (take_snoc _ _ _ _ H). by eapply H5.
    + rewrite take_ge by (cbn; rewrite length_app; cbn; lia). exact Hk.
Qed.

Lemma uds_first_broken c n b w r : (send_and_read_uds c n b w).1 = r → (∀ e, r ≠ Err (ConnectionBroken e)) →
  broken (uds_post (trace (act (UdsPosted c n b) w))) = false.
Proof. unfold send_and_read_uds. cbv zeta. cbn [fst]. destruct (uds_post _); cbn; [intros <- H; by destruct (H e)|done..]. Qed.
(** One attempt on the slot's connection: the world after it, with the slot emptied when the
    connection broke, is sound again. *)
Lemma pool_attempt w idx c n b : pool_ok w → slots w !! idx = Some (Some c) →
  let '(r, w') := send_and_read_uds c n b w in
  pool_ok (set_slot idx None w') ∧ ((∀ e, r ≠ Err (ConnectionBroken e)) → pool_ok w').
Proof.
  intros Hok Hc. destruct (pool_post w idx c n b Hok Hc) as [H1 H2]. pose proof (uds_first_broken c n b w _ eq_refl) as Hb.
  pose proof (send_uds_did c n b w) as Hd. unfold send_and_read_uds in *. cbv zeta in *. cbn [fst snd] in *.
  split; [exact H1|]. intros Hr. apply H2, Hb, Hr.
Qed.
Lemma slot_filled w idx c : pool_ok w → (idx < UDS_POOL_SIZE)%nat → slots (set_slot idx (Some c) w) !! idx = Some (Some c).
Proof. intros Hok Hi. cbn. apply list_lookup_insert_eq. by rewrite (p_size w Hok). Qed.
Lemma dial_slots w : slots (dial_uds w).2 = slots w.
Proof. unfold dial_uds. by destruct (dial _). Qed.
Lemma pool_call n b w : pool_ok w → pool_ok (send_chat_uds n b w).2.
Proof.
  intros Hok. unfold send_chat_uds. set (idx := N.to_nat _). set (w0 := World _ _ _).
  assert (Hi : (idx < UDS_POOL_SIZE)%nat).
  { unfold idx. assert (cursor w mod N.of_nat UDS_POOL_SIZE < N.of_nat UDS_POOL_SIZE)%N by (apply N.mod_lt; done). lia. }
  assert (Hok0 : pool_ok w0) by by destruct Hok; split.
  assert (Hc : let s := match mjoin (slots w0 !! idx) with
                        | Some c => (Ok c, w0)
                        | None => let '(r, w) := dial_uds w0 in (r, match r with Ok c => set_slot idx (Some c) w | Err _ => w end)
                        end : result Error nat * world in pool_ok s.2 ∧ ∀ c, s.1 = Ok c → slots s.2 !! idx = Some (Some c)).
  { cbv zeta. destruct (slots w0 !! idx) as [[c|]|] eqn:Hs; cbn [mjoin option_join].
    1: { split; [done|]. intros c' [= <-]. exact Hs. }
    all: pose proof (pool_dial w0 idx) as Hd; pose proof (pool_dial_fails w0) as Hf; pose proof (slot_filled (dial_uds w0).2 idx) as Hsl;
      destruct (dial_uds w0) as [[c|e] w1]; cbn [fst snd] in *; split; try (by eauto); try done; intros c' [= <-];
      apply list_lookup_insert_eq; specialize (Hd c Hi Hok0 eq_refl); pose proof (p_size _ Hd) as Hz; cbn in Hz; rewrite length_insert in Hz; by rewrite Hz. }
  cbv zeta in Hc. destruct (match mjoin _ with Some _ => _ | None => _ end) as [conn w1]. cbn [fst snd] in Hc. destruct Hc as [Hok1 Hc].
  destruct conn as [c|e]; [|exact Hok1]. pose proof (pool_attempt w1 idx c n b Hok1 (Hc c eq_refl)) as Hat.
  destruct (send_and_read_uds c n b w1) as [first w2]. destruct Hat as [Hclear Hkeep].
  destruct first as [v|[e|status t|t|e]]; try (apply Hkeep; done).
  pose proof (pool_dial (set_slot idx None w2) idx) as Hd. pose proof (pool_dial_fails (set_slot idx None w2)) as Hf.
  destruct (dial_uds (set_slot idx None w2)) as [[c2|e2] w3]; cbn [fst snd] in *; [|by apply (Hf e2)].
  specialize (Hd c2 Hi Hclear eq_refl). assert (Hs2 : slots (set_slot idx (Some c2) w3) !! idx = Some (Some c2)).
  { apply list_lookup_insert_eq. pose proof (p_size _ Hd) as Hz. cbn in Hz. rewrite length_insert in Hz. by rewrite Hz. }
  pose proof (pool_attempt _ idx c2 n b Hd Hs2) as Hat. destruct (send_and_read_uds c2 n b _) as [second w4]. destruct Hat as [Hclear4 Hkeep4].
  destruct second as [v|[e'|status t|t|e']]; cbn [snd]; first [exact Hclear4|apply Hkeep4; done].
Qed.

(** The pool's life: calls that return, calls dropped while they wait, and anything else the
    process does. *)
Inductive pool_reach : world → Prop :=
| reach_new : pool_reach (new_pool (World [] [] 0))
| reach_call w n b : pool_reach w → pool_reach (send_chat_uds n b w).2
| reach_dropped w idx c n b : pool_reach w → slots w !! idx = Some (Some c) → pool_reach (abandon_uds idx (act (UdsPosted c n b) w))
| reach_other w e : pool_reach w → (∀ c n b, e ≠ UdsPosted c n b) → pool_reach (act e w).

End extraction.

(** ** Concrete calls *)

Definition ToyTemplates : Templates := {|
  EXTRACT_TEXT := #"Extract. {{ENTITY_TYPES_SECTION}}"; EXTRACT_MESSAGE := []; EXTRACT_JSON := []; EXTRACT_EDGES := #"Relate. {{FACT_TYPES_SECTION}}";
  DEFAULT_ENTITY_TYPES_SECTION := #"Types." |}.
Definition ToyWording : Wording := {|
  JUDGE_SYSTEM_PROMPT := #"Judge."; ENTITY_JSON_INSTRUCTION := []; EDGE_JSON_INSTRUCTION := [];
  classify_entities_prompt _ _ := #"Classify."; classify_relations_prompt _ _ := #"Classify."; consolidation_prompts _ a b := (a, b) |}.
Definition tool_reply (name key : string) (items : list value) : value :=
  VObject [(#"content", VArray [VObject [(#"type", jstr "tool_use"); (#"name", jstr name); (#"input", VObject [(lit key, VArray items)])]])].
Definition toy_entity (name : string) : value := VObject [(#"name", jstr name); (#"entity_type", jstr "Person"); (#"summary", jstr "s")].
(** An overloaded server, then an answer that was cut off, one with a nameless entity, the edges. *)
Definition ToyReplies : Serde := TableSerde [
  (#"cut", VObject [(#"stop_reason", jstr "max_tokens")]);
  (#"entities", tool_reply "extract_entities" "entities" [toy_entity "Amy"; toy_entity " "; toy_entity "Bob"]);
  (#"edges", tool_reply "extract_edges" "edges"
     [VObject [(#"source_name", jstr "Amy"); (#"target_name", jstr "Bob"); (#"fact", jstr "Amy knows Bob"); (#"relation_type", jstr "worksWith")]]);
  (#"labels", VObject [(#"content", VArray [VObject [(#"text", jstr "[labels]")]])]);
  (#"[labels]", VArray [jstr "Person"; jstr "Robot"; jstr "Person"])].
Definition toy_post (script : list Http) : Network := {|
  post t := default (HttpError (Ipc (Msg "connection refused" []))) (script !! pred (length (budgets t)));
  dial _ := None; uds_post _ := UdsBroken (Ipc (Msg "reset" []));
  status_error n := Prelude.Http (Msg "status" [ANum n]); decode_error s := Prelude.Http (Msg "decode" [AStr s]);
|}.
Definition ToyNet : Network := toy_post [HttpAnswer 529 (Ok #"busy"); HttpAnswer 200 (Ok #"cut"); HttpAnswer 200 (Ok #"entities"); HttpAnswer 200 (Ok #"edges")].
Definition DownNet : Network := toy_post [HttpAnswer 500 (Ok #"down")].
Definition LabelNet : Network := toy_post [HttpAnswer 200 (Ok #"labels")].
Definition toy_x : Extractor := {| x_model := #"toy"; x_ceiling := Some #"6000" |}.
Definition toy_o : ExtractOptions := {| o_body := #"Amy knows Bob"; o_group := #"g"; o_source := SText; o_custom := None; o_time := []; o_ontology := None; o_key := None |}.
Definition no_world : world := new_pool (World [] [] 0).
Definition toy_extracted : ExtractionOutcome := {|
  eo_entities := [{| xe_name := #"Amy"; xe_type := #"Person"; xe_summary := #"s"; xe_original := None |};
                  {| xe_name := #"Bob"; xe_type := #"Person"; xe_summary := #"s"; xe_original := None |}];
  eo_edges := [{| xd_source := #"Amy"; xd_target := #"Bob"; xd_fact := #"Amy knows Bob"; xd_type := Some #"WORKS_WITH"; xd_valid := None; xd_invalid := None; xd_original := None |}];
  eo_entities_dropped := 1; eo_edges_dropped := 0 |}.
Abbreviation toy_extract := (@do_extract AsciiUnicode ToyReplies ToyNet ToyTemplates toy_x toy_o no_world).
Example toy_extract_runs : toy_extract.1 = Some (Ok toy_extracted).
Proof. vm_compute. reflexivity. Qed.
Example toy_extract_budgets : budgets (trace toy_extract.2) = [4096; 4096; 6000; 4096]%N.
Proof. vm_compute. reflexivity. Qed.

Lemma extraction_requests_bounded_witness :
  ∃ l k k' next, did no_world (@do_extract_entities AsciiUnicode ToyReplies ToyNet ToyTemplates toy_x toy_o no_world).2 l ∧
    budgets l = replicate k 4096%N ++ replicate k' next ∧ (k ≤ 4)%nat ∧ (k' ≤ 4)%nat.
Proof.
  destruct (@extraction_requests_bounded AsciiUnicode ToyReplies ToyNet ToyTemplates ToyWording toy_x toy_o Entities _ _ no_world (entry_entities _ _))
    as (l & k & k' & next & H1 & H2 & H3 & H4 & _).
  exists l, k, k', next. split; [exact H1|]. split; [exact H2|]. split; assumption.
Defined.
Lemma extraction_failures_recorded_witness :
  ∃ l, did no_world (@do_extract_entities AsciiUnicode ToyReplies DownNet ToyTemplates toy_x toy_o no_world).2 l ∧ failures l = 1%nat.
Proof.
  destruct (@extraction_failures_recorded AsciiUnicode ToyReplies DownNet ToyTemplates ToyWording toy_x toy_o Entities _ _ no_world (entry_entities _ _)) as (l & H1 & H2).
  exists l. split; [exact H1|]. unfold did in H1. vm_compute in H1. rewrite <- H1. vm_compute. reflexivity.
Defined.
Lemma extraction_well_formed_witness :
  Forall (λ e, entity_well_formed e = true) (eo_entities toy_extracted) ∧ Forall edge_settled (eo_edges toy_extracted).
Proof.
  destruct (@extraction_well_formed AsciiUnicode ToyReplies ToyNet ToyTemplates ToyWording toy_x toy_o no_world _ toy_extracted (or_introl eq_refl)) as (H1 & H2 & _).
  - vm_compute. reflexivity.
  - split; assumption.
Defined.
Lemma classification_aligned_witness :
  length [ #"Person"; []] = 2%nat ∧ Forall (λ t, t = [] ∨ t ∈ [ #"Person"]) [ #"Person"; []].
Proof.
  apply (@classification_aligned AsciiUnicode ToyReplies LabelNet ToyWording toy_x [(#"Amy", #"a"); (#"R2", #"b")] (Some [ #"Person"]) no_world _ [ #"Person"; []] (or_introl eq_refl)).
  vm_compute. reflexivity.
Defined.
(** A peer whose first connection breaks. *)
Definition FlakyNet : Network := {|
  post _ := HttpError Cancelled; dial _ := None;
  uds_post t := if (length t <=? 2)%nat then UdsBroken Cancelled else UdsAnswered 500 [];
  status_error _ := Cancelled; decode_error _ := Cancelled |}.
