(* ===== verification/LlmRouter.v ===== *)
(** * LlmRouter: a primary model and the fallback it latches to (core/src/llm_router.rs)

    One call run alone is a function of the latch and the world; calls that overlap are a step
    relation whose steps are the atomic operations of the code: the latch's load, the primary's
    answer, the compare-and-exchange, the event, the fallback's answer. *)

From S2P Require Import Prelude Text Json Replies Extraction.

(** What a call of an extractor does to the world. *)
Abbreviation calling W A := (W → option (result Error A) * W).

Definition latch_bug : Error := Ipc (Msg "BUG: primary_failed set without fallback" []).

(** The router's own fields; the latch is the state of its calls.
    Source: core/src/llm_router.rs 27-34 (LlmRouter) *)
Record LlmRouter := { primary_model_name : str; fallback_model_name : str }.
(** The models a specification names, [primary:fallback].
    Source: core/src/llm_router.rs 79-84 (from_env_with) *)
Definition split_spec (spec : str) : str * option str :=
  match split_first #":" spec with Some (p, f) => (p, Some f) | None => (spec, None) end.

Section router.
Context {W : Type} (emit : TelemetryEvent → W → W) (R : LlmRouter).

Definition fallback_event (role : str) (err : Error) : TelemetryEvent := LlmFallback role (primary_model_name R) (fallback_model_name R) err.
(** The latching calls. *)
Definition route {A} (role : str) (primary : calling W A) (fallback : option (calling W A)) (st : bool * W) : option (result Error A) * (bool * W) :=
  let '(failed, w) := st in
  if failed then
    match fallback with
    | Some fb => let '(r, w) := fb w in (r, (failed, w))
    | None => (Some (Err latch_bug), (failed, w))
    end
  else
    let '(r, w) := primary w in
    match r with
    | None => (None, (failed, w))
    | Some (Ok a) => (Some (Ok a), (failed, w))
    | Some (Err err) =>
        match fallback with
        | Some fb => let '(r, w) := fb (emit (fallback_event role err) w) in (r, (true, w))
        | None => (Some (Err err), (failed, w))
        end
    end.
(** Source: core/src/llm_router.rs 254-298 (do_extract) *)
Definition route_extract : calling W ExtractionOutcome → option (calling W ExtractionOutcome) → bool * W → option (result Error ExtractionOutcome) * (bool * W) :=
  route #"extraction".
(** Source: core/src/llm_router.rs 116-164 (do_classify_entities) *)
Definition route_classify_entities : calling W (list str) → option (calling W (list str)) → bool * W → option (result Error (list str)) * (bool * W) :=
  route #"classification".
(** Source: core/src/llm_router.rs 208-252 (do_classify_relations) *)
Definition route_classify_relations : calling W (list str) → option (calling W (list str)) → bool * W → option (result Error (list str)) * (bool * W) :=
  route #"relation_classification".

(** Consolidation reads the latch and never sets it.
    Source: core/src/llm_router.rs 170-206 (do_consolidate_summary) *)
Definition route_consolidate (primary : calling W str) (fallback : option (calling W str)) (st : bool * W) : option (result Error str) * (bool * W) :=
  let '(failed, w) := st in
  let on_fallback (none : Error) (w : W) :=
    match fallback with
    | Some fb => let '(r, w) := fb w in (r, (failed, w))
    | None => (Some (Err none), (failed, w))
    end in
  if failed then on_fallback latch_bug w
  else
    let '(r, w) := primary w in
    match r with
    | Some (Err err) => on_fallback err w
    | _ => (r, (failed, w))
    end.

(** The pairs the primary left open, and the fallback's verdicts written over them. *)
Definition unresolved (n : nat) (verdicts : list DedupVerdict) : list nat :=
  List.filter (λ i, bool_decide (verdicts !! i = Some Unknown)) (seq 0 n).
Definition overwrite (verdicts : list DedupVerdict) (at_ : list nat) (fv : list DedupVerdict) : list DedupVerdict :=
  foldl (λ vs '(i, v), <[i := v]> vs) verdicts (zip at_ fv).
(** Source: core/src/llm_router.rs 303-346 (do_judge_duplicates) *)
Definition route_judge (primary : list DuplicatePair → calling W (list DedupVerdict)) (fallback : option (list DuplicatePair → calling W (list DedupVerdict)))
    (pairs : list DuplicatePair) (st : bool * W) : option (result Error (list DedupVerdict)) * (bool * W) :=
  let '(failed, w) := st in
  if failed then
    match fallback with
    | Some fb => let '(r, w) := fb pairs w in (r, (failed, w))
    | None => (Some (Err latch_bug), (failed, w))
    end
  else
    let '(r, w) := primary pairs w in
    match r with
    | None => (None, (failed, w))
    | Some (Err err) =>
        match fallback with
        | Some fb => let '(r, w) := fb pairs w in (r, (failed, w))
        | None => (Some (Err err), (failed, w))
        end
    | Some (Ok v) =>
        let verdicts := if bool_decide (length v = length pairs) then v else replicate (length pairs) Unknown in
        match fallback with
        | None => (Some (Ok verdicts), (failed, w))
        | Some fb =>
            match unresolved (length pairs) verdicts with
            | [] => (Some (Ok verdicts), (failed, w))
            | open =>
                let subset := omap (λ i, pairs !! i) open in
                let '(r, w) := fb subset w in
                match r with
                | None => (None, (failed, w))
                | Some (Ok fv) =>
                    (Some (Ok (if bool_decide (length fv = length subset) then overwrite verdicts open fv else verdicts)), (failed, w))
                | Some (Err _) => (Some (Ok verdicts), (failed, w))
                end
            end
        end
    end.

(** ** Overlapping calls *)

(** Where a latching call stands. *)
Inductive at_call (A : Type) :=
| Starting
| OnPrimary
| PrimaryFailed (err : Error)
| Latched (err : Error)
| OnFallback
| Finished (r : result Error A).
End router.
Arguments Starting {A}. Arguments OnPrimary {A}. Arguments PrimaryFailed {A}. Arguments Latched {A}.
Arguments OnFallback {A}. Arguments Finished {A}.

Section overlapping.
Context {A : Type} (R : LlmRouter) (role : nat → str) (has_fallback : bool).
(** The latch, the events emitted, and every call. *)
Record router_state := { latch : bool; emitted : list TelemetryEvent; calls : list (at_call A) }.
Definition goto (i : nat) (c : at_call A) (s : router_state) : router_state := {| latch := latch s; emitted := emitted s; calls := <[i := c]> (calls s) |}.

(** One atomic operation of the call [i].
    Source: core/src/llm_router.rs 254-298 (do_extract) *)
Inductive router_step (s : router_state) : router_state → Prop :=
| step_new : router_step s {| latch := latch s; emitted := emitted s; calls := calls s ++ [Starting] |}
| step_load_clear i : calls s !! i = Some Starting → latch s = false → router_step s (goto i OnPrimary s)
| step_load_set i : calls s !! i = Some Starting → latch s = true →
    router_step s (goto i (if has_fallback then OnFallback else Finished (Err latch_bug)) s)
| step_primary_ok i a : calls s !! i = Some OnPrimary → router_step s (goto i (Finished (Ok a)) s)
| step_primary_err i err : calls s !! i = Some OnPrimary →
    router_step s (goto i (if has_fallback then PrimaryFailed err else Finished (Err err)) s)
| step_exchange_won i err : calls s !! i = Some (PrimaryFailed err) → latch s = false →
    router_step s {| latch := true; emitted := emitted s; calls := <[i := Latched err]> (calls s) |}
| step_exchange_lost i err : calls s !! i = Some (PrimaryFailed err) → latch s = true → router_step s (goto i OnFallback s)
| step_emit i err : calls s !! i = Some (Latched err) →
    router_step s {| latch := latch s; emitted := emitted s ++ [fallback_event R (role i) err]; calls := <[i := OnFallback]> (calls s) |}
| step_fallback i r : calls s !! i = Some OnFallback → router_step s (goto i (Finished r) s).
Definition router_start : router_state := {| latch := false; emitted := []; calls := [] |}.
Inductive router_reach : router_state → Prop :=
| router_reach_start : router_reach router_start
| router_reach_step s s' : router_reach s → router_step s s' → router_reach s'.

(** ** The latch *)

Definition is_latched (c : at_call A) : bool := match c with Latched _ => true | _ => false end.
Definition is_finished (c : at_call A) : Prop := match c with Finished _ => True | _ => False end.
Definition latched_calls (cs : list (at_call A)) : nat := length (List.filter is_latched cs).

Lemma latched_set cs i c c' : cs !! i = Some c →
  (latched_calls (<[i := c']> cs) + Nat.b2n (is_latched c) = latched_calls cs + Nat.b2n (is_latched c'))%nat.
Proof.
  unfold latched_calls. revert i. induction cs as [|x cs IH]; intros [|i] H; try done.
  - injection H as ->. cbn. destruct (is_latched c), (is_latched c'); cbn; lia.
  - specialize (IH i H). change (<[S i := c']> (x :: cs)) with (x :: <[i := c']> cs). cbn [List.filter]. destruct (is_latched x); cbn [length]; lia.
Qed.
Record latch_inv (s : router_state) : Prop := {
  li_count : (latched_calls (calls s) + length (emitted s) = Nat.b2n (latch s))%nat;
  li_fallback : latch s = true → has_fallback = true;
  li_failed i err : calls s !! i = Some (PrimaryFailed err) → has_fallback = true;
}.
Lemma goto_inv s i c c' :
  latch_inv s → calls s !! i = Some c → is_latched c = false → is_latched c' = false → (∀ err, c' = PrimaryFailed err → has_fallback = true) → latch_inv (goto i c' s).
Proof.
  intros [H1 H2 H3] Hc Hl Hl' Hf. split; cbn [calls emitted latch goto].
  - pose proof (latched_set _ _ _ c' Hc) as Hs. rewrite Hl, Hl' in Hs. cbn [Nat.b2n] in Hs. lia.
  - done.
  - intros j err Hj. destruct (decide (j = i)) as [->|Hne].
    + rewrite list_lookup_insert_eq in Hj by (by eapply lookup_lt_Some). injection Hj as ->. by eapply Hf.
    + rewrite list_lookup_insert_ne in Hj by done. by eapply H3.
Qed.
Lemma step_inv s s' : latch_inv s → router_step s s' → latch_inv s'.
Proof.
  intros Hinv Hstep. destruct Hstep as [|i Hc Hl|i Hc Hl|i a Hc|i err Hc|i err Hc Hl|i err Hc Hl|i err Hc|i r Hc].
  - destruct Hinv as [H1 H2 H3]. split; cbn [calls emitted latch]; [|done|].
    + unfold latched_calls in *. rewrite List.filter_app, length_app. cbn. lia.
    + intros i err [H|[_ H]]%lookup_app_Some; [by eapply H3|]. by apply list_lookup_singleton_Some in H as [_ ?].
  - by eapply goto_inv.
  - eapply goto_inv; [done..|by destruct has_fallback|by destruct has_fallback].
  - by eapply goto_inv.
  - eapply goto_inv; [done..|by destruct has_fallback|]. intros e. by destruct has_fallback.
  - destruct Hinv as [H1 H2 H3]. split; cbn [calls emitted latch goto].
    + pose proof (latched_set _ _ _ (Latched err) Hc) as Hs. rewrite Hl in H1. cbn [Nat.b2n is_latched] in *. lia.
    + intros _. by eapply H3.
    + intros j e Hj. destruct (decide (j = i)) as [->|Hne]; [by eapply H3|]. rewrite list_lookup_insert_ne in Hj by done. by eapply H3.
  - by eapply goto_inv.
  - destruct Hinv as [H1 H2 H3]. split; cbn [calls emitted latch goto].
    + pose proof (latched_set _ _ _ OnFallback Hc) as Hs. rewrite length_app. cbn [Nat.b2n is_latched length] in *. lia.
    + done.
    + intros j e Hj. destruct (decide (j = i)) as [->|Hne].
      * rewrite list_lookup_insert_eq in Hj by (by eapply lookup_lt_Some). done.
      * rewrite list_lookup_insert_ne in Hj by done. by eapply H3.
  - by eapply goto_inv.
Qed.
Lemma reach_inv s : router_reach s → latch_inv s.
Proof. induction 1 as [|s s' _ IH Hs]; [by split; cbn|by eapply step_inv]. Qed.

(** C24. However many calls overlap, the switch to the fallback is announced at most once, and
    exactly when the latch is set once every call has finished; the latch is only ever set when
    there is a fallback, so the branch marked as a bug is never taken; and once it is set it stays
    set and no call starts on the primary any more. *)
Theorem fallback_latched_once s : router_reach s →
  (length (emitted s) ≤ 1)%nat ∧ (latch s = true → has_fallback = true) ∧
  (Forall is_finished (calls s) → length (emitted s) = Nat.b2n (latch s)) ∧
  (∀ s', router_step s s' → latch s = true → latch s' = true ∧ ∀ i, calls s' !! i = Some OnPrimary → calls s !! i = Some OnPrimary).
Proof.
  intros Hr. destruct (reach_inv s Hr) as [H1 H2 _]. split; [destruct (latch s); cbn in H1; lia|]. split; [done|]. split.
  - intros Hf. rewrite <- H1. assert (H0 : latched_calls (calls s) = 0%nat); [|by rewrite H0].
    clear H1. unfold latched_calls. induction Hf as [|c cs Hc _ IH]; [done|]. cbn. destruct c; [done..|exact IH].
  - intros s' Hs Hl.
    assert (Hins : ∀ j c i, c ≠ OnPrimary → <[j := c]> (calls s) !! i = Some OnPrimary → calls s !! i = Some OnPrimary).
    { intros j c i Hc H. destruct (decide (i = j)) as [->|Hne]; [|by rewrite list_lookup_insert_ne in H].
      destruct (decide (j < length (calls s))%nat); [rewrite list_lookup_insert_eq in H by done; by injection H|].
      by rewrite list_insert_ge in H by lia. }
    destruct Hs; cbn; (split; [done|intros k Hk]); try congruence; try (by eapply Hins; [|exact Hk]; destruct has_fallback).
    apply lookup_app_Some in Hk as [Hk|[_ Hk]]; [done|]. by apply list_lookup_singleton_Some in Hk as [_ ?].
Qed.

(** A call run alone is an execution of the step relation: from a state where the call has
    just started, the steps lead to the result, the latch and the events that the sequential
    function computes, whatever the two models answer. *)
Theorem route_refines_steps s i rp rf r l evs :
  calls s !! i = Some Starting →
  route (λ ev w, w ++ [ev]) R (role i) (λ w, (Some rp, w)) (if has_fallback then Some (λ w, (Some rf, w)) else None) (latch s, emitted s) = (Some r, (l, evs)) →
  rtc router_step s {| latch := l; emitted := evs; calls := <[i := Finished r]> (calls s) |}.
Proof.
  intros Hc Hr. assert (Hlt : (i < length (calls s))%nat) by by eapply lookup_lt_Some.
  assert (Hat : ∀ c, <[i := c]> (calls s) !! i = Some c) by (intros; by apply list_lookup_insert_eq).
  destruct s as [lt em cs]. cbn [latch emitted calls] in *. unfold route in Hr. destruct lt.
  - eapply rtc_l; [by eapply step_load_set|]. unfold goto; cbn. destruct has_fallback; injection Hr as <- <- <-; [|done].
    eapply rtc_l; [eapply (step_fallback _ i); apply Hat|]. unfold goto; cbn. rewrite list_insert_insert_eq. done.
  - eapply rtc_l; [by eapply step_load_clear|]. unfold goto; cbn. destruct rp as [a|e].
    + injection Hr as <- <- <-. eapply rtc_l; [eapply (step_primary_ok _ i); apply Hat|]. unfold goto; cbn. rewrite list_insert_insert_eq. done.
    + eapply rtc_l; [eapply (step_primary_err _ i); apply Hat|]. unfold goto; cbn. rewrite list_insert_insert_eq.
      destruct has_fallback; injection Hr as <- <- <-; [|done].
      eapply rtc_l; [eapply (step_exchange_won _ i); [apply Hat|done]|]. cbn. rewrite list_insert_insert_eq.
      eapply rtc_l; [eapply (step_emit _ i); apply Hat|]. cbn. rewrite list_insert_insert_eq.
      eapply rtc_l; [eapply (step_fallback _ i); apply Hat|]. unfold goto; cbn. rewrite list_insert_insert_eq. done.
Qed.
End overlapping.

(** ** The judge's two opinions *)

Lemma overwrite_lookup at_ : ∀ fv vs, NoDup at_ → length fv = length at_ → Forall (λ i, (i < length vs)%nat) at_ →
  length (overwrite vs at_ fv) = length vs ∧
  (∀ k i v, at_ !! k = Some i → fv !! k = Some v → overwrite vs at_ fv !! i = Some v) ∧
  (∀ i, i ∉ at_ → overwrite vs at_ fv !! i = vs !! i).
Proof.
  induction at_ as [|i0 at_ IH]; intros [|v0 fv] vs Hnd Hl Hlt; try done. cbn [overwrite zip zip_with foldl].
  inversion_clear Hnd as [|? ? Hi0 Hnd']. injection Hl as Hl. inversion_clear Hlt as [|? ? Hl0 Hlt'].
  fold (overwrite (<[i0 := v0]> vs) at_ fv). destruct (IH fv (<[i0 := v0]> vs) Hnd' Hl) as (H1 & H2 & H3).
  { eapply Forall_impl; [exact Hlt'|]. cbn. intros i. by rewrite length_insert. }
  rewrite length_insert in H1. split; [done|]. split.
  - intros [|k] i v; cbn; [|by apply H2]. intros [= ->] [= ->]. rewrite H3 by done. by apply list_lookup_insert_eq.
  - intros i Hi. rewrite H3 by set_solver. apply list_lookup_insert_ne. set_solver.
Qed.
Lemma unresolved_elem n vs i : i ∈ unresolved n vs ↔ (i < n)%nat ∧ vs !! i = Some Unknown.
Proof.
  unfold unresolved. rewrite list_elem_of_In, filter_In, bool_decide_eq_true, <- list_elem_of_In, elem_of_seq. split; intros [??]; split; try done; lia.
Qed.
Lemma unresolved_nodup n vs : NoDup (unresolved n vs).
Proof. apply NoDup_ListNoDup, List.NoDup_filter, NoDup_ListNoDup, NoDup_seq. Qed.
Lemma omap_all {A B} (f : A → option B) (l : list A) : Forall (λ x, is_Some (f x)) l → length (omap f l) = length l.
Proof. induction 1 as [|x l [y Hy] _ IH]; [done|]. cbn. rewrite Hy. cbn. by f_equal. Qed.

Section judge.
Context {W : Type}.

(** When the primary judges, there is one verdict per pair and a definite verdict of the
    primary always stands; a pair it left open gets the fallback's verdict for that pair when the
    fallback answered the open pairs one for one, and stays unknown when there is no fallback or
    it did not; a primary reply of the wrong length counts as leaving every pair open. *)
Theorem judge_keeps_definite (primary : list DuplicatePair → calling W (list DedupVerdict)) fallback pairs w w1 v out :
  primary pairs w = (Some (Ok v), w1) →
  (route_judge primary fallback pairs (false, w)).1 = Some (Ok out) →
  let base := if bool_decide (length v = length pairs) then v else replicate (length pairs) Unknown in
  let open := unresolved (length pairs) base in
  length out = length pairs ∧
  (∀ i d, base !! i = Some d → d ≠ Unknown → out !! i = Some d) ∧
  ((∀ i, i ∈ open → out !! i = Some Unknown) ∨
   ∃ fb fv w2, fallback = Some fb ∧ fb (omap (λ i, pairs !! i) open) w1 = (Some (Ok fv), w2) ∧ length fv = length open ∧
     ∀ k i x, open !! k = Some i → fv !! k = Some x → out !! i = Some x).
Proof.
  intros Hp Hr base open. cbn [route_judge] in Hr. rewrite Hp in Hr. fold base in Hr. fold open in Hr.
  assert (Hlen : length base = length pairs) by (unfold base; case_bool_decide; [done|apply length_replicate]).
  assert (Hopen : ∀ i, i ∈ open → base !! i = Some Unknown) by (intros i Hi; by apply unresolved_elem in Hi as [_ ?]).
  assert (Hbase : out = base → length out = length pairs ∧ (∀ i d, base !! i = Some d → d ≠ Unknown → out !! i = Some d) ∧
    ((∀ i, i ∈ open → out !! i = Some Unknown) ∨ ∃ fb fv w2, fallback = Some fb ∧ fb (omap (λ i, pairs !! i) open) w1 = (Some (Ok fv), w2) ∧
       length fv = length open ∧ ∀ k i x, open !! k = Some i → fv !! k = Some x → out !! i = Some x))
    by (intros ->; split; [done|split; [done|by left]]).
  destruct fallback as [fb|]; [|by injection Hr as <-; apply Hbase].
  destruct open as [|i0 open'] eqn:Ho; [by injection Hr as <-; apply Hbase|]. rewrite <- Ho in *.
  destruct (fb (omap _ open) w1) as [[[fv|e]|] w2] eqn:Hfb; [|by injection Hr as <-; apply Hbase|done].
  injection Hr as Hr. case_bool_decide as Hl; [|by apply Hbase].
  rewrite omap_all in Hl.
  2: { apply Forall_forall. intros i Hi%unresolved_elem. apply lookup_lt_is_Some. lia. }
  destruct (overwrite_lookup open fv base (unresolved_nodup _ _) Hl) as (H1 & H2 & H3).
  { apply Forall_forall. intros i Hi%unresolved_elem. rewrite Hlen. lia. }
  rewrite Hr in H1, H2, H3. split; [by rewrite H1|]. split.
  - intros i d Hi Hd. rewrite H3; [done|]. intros Hin%Hopen. congruence.
  - right. exists fb, fv, w2. done.
Qed.
End judge.

(** ** Concrete routers *)

Definition toy_router : LlmRouter := {| primary_model_name := #"big"; fallback_model_name := #"small" |}.
Definition toy_failure : Error := Ipc (Msg "overloaded" []).
Definition toy_state (l : bool) (evs : list TelemetryEvent) (cs : list (at_call str)) : router_state := {| latch := l; emitted := evs; calls := cs |}.
Definition toy_announced : list TelemetryEvent := [fallback_event toy_router #"extraction" toy_failure].
(** Two calls see the primary fail; one wins the exchange and announces the switch. *)
Lemma toy_reach : router_reach toy_router (λ _, #"extraction") true (toy_state true toy_announced [OnFallback; OnFallback]).
Proof.
  apply (router_reach_step _ _ _ (toy_state true toy_announced [OnFallback; PrimaryFailed toy_failure])); [|exact (step_exchange_lost _ _ _ (toy_state true toy_announced [OnFallback; PrimaryFailed toy_failure]) 1 toy_failure eq_refl eq_refl)].
  apply (router_reach_step _ _ _ (toy_state true [] [Latched toy_failure; PrimaryFailed toy_failure])); [|exact (step_emit _ _ _ (toy_state true [] [Latched toy_failure; PrimaryFailed toy_failure]) 0 toy_failure eq_refl)].
  apply (router_reach_step _ _ _ (toy_state false [] [PrimaryFailed toy_failure; PrimaryFailed toy_failure])); [|exact (step_exchange_won _ _ _ (toy_state false [] [PrimaryFailed toy_failure; PrimaryFailed toy_failure]) 0 toy_failure eq_refl eq_refl)].
  apply (router_reach_step _ _ _ (toy_state false [] [PrimaryFailed toy_failure; OnPrimary])); [|exact (step_primary_err _ _ _ (toy_state false [] [PrimaryFailed toy_failure; OnPrimary]) 1 toy_failure eq_refl)].
  apply (router_reach_step _ _ _ (toy_state false [] [OnPrimary; OnPrimary])); [|exact (step_primary_err _ _ _ (toy_state false [] [OnPrimary; OnPrimary]) 0 toy_failure eq_refl)].
  apply (router_reach_step _ _ _ (toy_state false [] [OnPrimary; Starting])); [|exact (step_load_clear _ _ _ (toy_state false [] [OnPrimary; Starting]) 1 eq_refl eq_refl)].
  apply (router_reach_step _ _ _ (toy_state false [] [Starting; Starting])); [|exact (step_load_clear _ _ _ (toy_state false [] [Starting; Starting]) 0 eq_refl eq_refl)].
  apply (router_reach_step _ _ _ (toy_state false [] [Starting])); [|exact (step_new _ _ _ (toy_state false [] [Starting]))].
  apply (router_reach_step _ _ _ router_start); [constructor|exact (step_new _ _ _ router_start)].
Qed.
Lemma fallback_latched_once_witness : (length (emitted (toy_state true toy_announced [OnFallback; OnFallback])) ≤ 1)%nat.
Proof. destruct (fallback_latched_once toy_router (λ _, #"extraction") true _ toy_reach) as [H _]. exact H. Defined.
Lemma route_refines_steps_witness :
  rtc (router_step toy_router (λ _, #"extraction") true) (toy_state false [] [Starting]) (toy_state true toy_announced [Finished (Ok #"ok")]).
Proof.
  apply (route_refines_steps toy_router (λ _, #"extraction") true (toy_state false [] [Starting]) 0 (Err toy_failure) (Ok #"ok") (Ok #"ok") true toy_announced);
    vm_compute; reflexivity.
Defined.
Definition toy_side (n : string) : DedupSide := {| ds_name := lit n; ds_type := []; ds_summary := [] |}.
Definition toy_pairs : list DuplicatePair := [{| dp_existing := toy_side "a"; dp_incoming := toy_side "A" |}; {| dp_existing := toy_side "b"; dp_incoming := toy_side "B" |}].
Lemma judge_keeps_definite_witness : [Distinct; Duplicate] !! 0%nat = Some Distinct.
Proof.
  destruct (@judge_keeps_definite nat (λ _ n, (Some (Ok [Distinct; Unknown]), n)) (Some (λ _ n, (Some (Ok [Duplicate]), n))) toy_pairs 0%nat 0%nat
              [Distinct; Unknown] [Distinct; Duplicate]) as (_ & H & _).
  - reflexivity.
  - vm_compute. reflexivity.
  - apply H; [vm_compute; reflexivity|discriminate].
Defined.
