(* ===== verification/EmbeddingCache.v ===== *)
(** * EmbeddingCache: each distinct text is embedded once (core/src/embedding_cache.rs)

    SHA-256 is the class [Digest], whose law is that it does not collide on the inputs hashed
    here.  A vector is any type.  A panic is [None]. *)

From S2P Require Import Prelude Text.

Class Digest := sha256 : bytes → bytes.

(** [i64::to_le_bytes] *)
Fixpoint le_bytes (count : nat) (n : N) : bytes :=
  match count with O => [] | S k => (n mod 256)%N :: le_bytes k (n / 256) end.
Definition i64_bytes (z : Z) : bytes := le_bytes 8 (Z.to_N (z mod 2 ^ 64)).

Section cache.
Context {D : Digest} {V : Type}.

(** What is hashed: the model, the dimension in eight bytes and the text, set apart by NULs.
    Source: core/src/embedding_cache.rs 222-230 (cache_key) *)
Definition key_bytes (model : str) (dim : Z) (text : str) : bytes := utf8 model ++ 0%N :: i64_bytes dim ++ 0%N :: utf8 text.
Definition cache_key (model : str) (dim : Z) (text : str) : bytes := sha256 (key_bytes model dim text).

(** The cache's map, [EmbeddingCache::entries]. *)
Abbreviation entries := (gmap bytes V).

(** Source: core/src/embedding_cache.rs 114-138 (get_or_compute) *)
Definition get_or_compute (c : entries) (model : str) (dim : Z) (text : str) (compute : result Error V) : result Error V * entries :=
  let key := cache_key model dim text in
  match c !! key with
  | Some cached => (Ok cached, c)
  | None => match compute with Err e => (Err e, c) | Ok vector => (Ok vector, <[key := vector]> c) end
  end.

(** The distinct misses in order, and the position of each key among them.
    Source: core/src/embedding_cache.rs 177-187 (get_or_compute_batch) *)
Definition add_miss (st : list str * gmap bytes nat) (e : bytes * str * option V) : list str * gmap bytes nat :=
  let '(miss_texts, pos) := st in
  let '(key, text, hit) := e in
  match hit with
  | Some _ => st
  | None => match pos !! key with Some _ => st | None => (miss_texts ++ [text], <[key := length miss_texts]> pos) end
  end.
(** The result, whether and on what the batch was computed, and the cache.
    Source: core/src/embedding_cache.rs 149-218 (get_or_compute_batch) *)
Definition get_or_compute_batch (c : entries) (model : str) (dim : Z) (texts : list str) (compute_batch : list str → result Error (list V)) :
    option (result Error (list V)) * list (list str) * entries :=
  match texts with
  | [] => (Some (Ok []), [], c)
  | _ =>
      let keys := cache_key model dim <$> texts in
      let results := (λ key, c !! key) <$> keys in
      let '(miss_texts, pos) := foldl add_miss ([], ∅) (zip (zip keys texts) results) in
      match miss_texts with
      | [] => (Ok <$> mapM id results, [], c)
      | _ =>
          match compute_batch miss_texts with
          | Err e => (Some (Err e), [miss_texts], c)
          | Ok computed =>
              if bool_decide (length computed = length miss_texts) then
                match map_fold (λ key p acc, acc ← acc; v ← computed !! p; Some (<[key := v]> acc)) (Some c) pos with
                | None => (None, [miss_texts], c)
                | Some c' =>
                    let filled := zip_with (λ key r, match r with Some v => Some v | None => p ← pos !! key; computed !! p end) keys results in
                    (Ok <$> mapM id filled, [miss_texts], c')
                end
              else (Some (Err (Ipc (Msg "embed batch computed {} vectors for {} requested distinct texts"
                                      [ANum (N.of_nat (length computed)); ANum (N.of_nat (length miss_texts))]))), [miss_texts], c)
          end
      end
  end.

(** The reference: the texts one by one. *)
Fixpoint one_by_one (c : entries) (model : str) (dim : Z) (texts : list str) (f : str → V) : list V * entries :=
  match texts with
  | [] => ([], c)
  | t :: texts =>
      match get_or_compute c model dim t (Ok (f t)) with
      | (Ok v, c) => let '(vs, c) := one_by_one c model dim texts f in (v :: vs, c)
      | (Err _, c) => ([], c)
      end
  end.

Section batch.
Context (model : str) (dim : Z) (c : entries).
Abbreviation key := (cache_key model dim).

(** The text a key's vector is computed from: the first one with the key. *)
Definition first_with (k : bytes) (texts : list str) : option str := find_first (λ t, if bool_decide (key t = k) then Some t else None) texts.
Lemma first_with_snoc k texts t :
  first_with k (texts ++ [t]) = match first_with k texts with Some x => Some x | None => if bool_decide (key t = k) then Some t else None end.
Proof.
  unfold first_with. induction texts as [|x texts IH]; cbn; [by destruct (bool_decide _)|]. by destruct (bool_decide (key x = k)).
Qed.
Lemma first_with_key k texts t : first_with k texts = Some t → key t = k ∧ t ∈ texts.
Proof.
  unfold first_with. induction texts as [|x texts IH]; cbn; [done|]. case_bool_decide as Hk; [intros [= <-]; split; [done|left]|].
  intros H%IH. split; [apply H|right; apply H].
Qed.
Lemma first_with_own texts t : t ∈ texts → is_Some (first_with (key t) texts).
Proof.
  unfold first_with. induction 1 as [t l|t x l _ IH]; cbn; [by rewrite bool_decide_eq_true_2 by done|]. case_bool_decide; [eauto|exact IH].
Qed.

Definition misses (texts : list str) : list str * gmap bytes nat :=
  foldl add_miss ([], ∅) ((λ t, (key t, t, c !! key t)) <$> texts).
Lemma zips texts : zip (zip (key <$> texts) texts) ((λ k, c !! k) <$> (key <$> texts)) = (λ t, (key t, t, c !! key t)) <$> texts.
Proof. induction texts as [|t texts IH]; [done|]. cbn. by f_equal. Qed.

Record misses_ok (texts ms : list str) (pos : gmap bytes nat) : Prop := {
  mo_pos k p : pos !! k = Some p → c !! k = None ∧ ∃ t, ms !! p = Some t ∧ first_with k texts = Some t;
  mo_none k : pos !! k = None → is_Some (c !! k) ∨ first_with k texts = None;
  mo_ms t : t ∈ ms → is_Some (pos !! key t);
  mo_nodup : NoDup (key <$> ms);
  mo_sub : sublist ms texts;
}.
Lemma misses_spec texts : misses_ok texts (misses texts).1 (misses texts).2.
Proof.
  induction texts as [|t texts IH] using rev_ind.
  { split; cbn; [|by right|intros t Ht; by apply not_elem_of_nil in Ht|constructor|constructor].
    intros k p Hp. by rewrite lookup_empty in Hp. }
  unfold misses in *. rewrite fmap_app, foldl_app. cbn [fmap list_fmap foldl]. destruct (foldl _ _ _) as [ms pos]. cbn [fst snd] in IH.
  destruct IH as [H1 H2 H3 H4 H5]. unfold add_miss.
  assert (Hkeep : (is_Some (c !! key t) ∨ is_Some (pos !! key t)) → misses_ok (texts ++ [t]) ms pos).
  { intros Hor. split; [| |done|done|by apply sublist_inserts_r].
    - intros k p Hp. destruct (H1 k p Hp) as (? & x & Hx & Hf). split; [done|]. exists x. by rewrite first_with_snoc, Hf.
    - intros k Hp. destruct (H2 k Hp) as [|Hf]; [by left|]. rewrite first_with_snoc, Hf. case_bool_decide as Hk; [|by right].
      left. subst k. destruct Hor as [|[? ?]]; [done|congruence]. }
  destruct (c !! key t) as [v|] eqn:Hc; [apply Hkeep; eauto|]. destruct (pos !! key t) as [p|] eqn:Hpos; [apply Hkeep; eauto|].
  clear Hkeep. cbn [fst snd]. assert (Hnew : first_with (key t) texts = None) by (destruct (H2 _ Hpos) as [[? ?]|]; [congruence|done]).
  split.
  - intros k p. destruct (decide (k = key t)) as [->|Hne].
    + rewrite lookup_insert_eq. intros [= <-]. split; [done|]. exists t. rewrite lookup_app_r, Nat.sub_diag by done. split; [done|].
      by rewrite first_with_snoc, Hnew, bool_decide_eq_true_2.
    + rewrite lookup_insert_ne by done. intros Hp. destruct (H1 k p Hp) as (? & x & Hx & Hf). split; [done|]. exists x.
      rewrite first_with_snoc, Hf. split; [by apply lookup_app_l_Some|done].
  - intros k. destruct (decide (k = key t)) as [->|Hne]; [by rewrite lookup_insert_eq|]. rewrite lookup_insert_ne by done. intros Hp.
    destruct (H2 k Hp) as [|Hf]; [by left|right]. rewrite first_with_snoc, Hf, bool_decide_eq_false_2; [done|]. congruence.
  - intros x Hx. destruct (decide (key x = key t)) as [Heq|Hne]; [rewrite Heq, lookup_insert_eq; eauto|]. rewrite lookup_insert_ne by done.
    apply elem_of_app in Hx as [Hx|Hx]; [by apply H3|]. apply list_elem_of_singleton in Hx as ->. done.
  - rewrite fmap_app. apply NoDup_app. split; [done|]. split; [|apply NoDup_singleton]. intros k (x & -> & Hx)%list_elem_of_fmap Hin.
    cbn in Hin. apply list_elem_of_singleton in Hin. destruct (H3 x Hx) as [p Hp]. congruence.
  - by apply sublist_app.
Qed.

Section pure.
Context (f : str → V).
(** The vector of a key after a batch. *)
Definition vector_of (c : entries) (texts : list str) (k : bytes) : option V :=
  match c !! k with Some v => Some v | None => f <$> first_with k texts end.
End pure.
End batch.
Lemma one_by_one_spec model dim f texts : ∀ c,
  let '(vs, c') := one_by_one c model dim texts f in
  Some <$> vs = (λ t, vector_of model dim f c texts (cache_key model dim t)) <$> texts ∧ (∀ k, c' !! k = vector_of model dim f c texts k).
Proof.
  induction texts as [|t texts IH]; intros c; cbn [one_by_one].
  - split; [done|]. intros k. unfold vector_of. cbn. by destruct (c !! k).
  - unfold get_or_compute. set (k0 := cache_key model dim t). set (c1 := match c !! k0 with Some _ => c | None => <[k0 := f t]> c end).
    assert (Hstep : ∀ k, vector_of model dim f c1 texts k = vector_of model dim f c (t :: texts) k).
    { intros k. unfold vector_of, c1, first_with. cbn [find_first]. fold k0. destruct (decide (k = k0)) as [->|Hne].
      - rewrite (bool_decide_eq_true_2 (k0 = k0)) by done. destruct (c !! k0) eqn:Hk; [by rewrite Hk|]. by rewrite lookup_insert_eq.
      - rewrite (bool_decide_eq_false_2 (k0 = k)) by congruence. destruct (c !! k0) eqn:Hk; [done|]. by rewrite lookup_insert_ne. }
    specialize (IH c1). assert (Hhd : vector_of model dim f c (t :: texts) k0 = Some (match c !! k0 with Some v => v | None => f t end)).
    { unfold vector_of, first_with. cbn [find_first]. fold k0. rewrite (bool_decide_eq_true_2 (k0 = k0)) by done. by destruct (c !! k0). }
    unfold c1 in *. destruct (c !! k0) as [v|] eqn:Hk; destruct (one_by_one _ model dim texts f) as [vs c'];
      destruct IH as [H1 H2]; (split; [|intros k; by rewrite H2, Hstep]); cbn [fmap list_fmap];
      fold k0; rewrite Hhd; f_equal; rewrite H1; apply list_fmap_ext; intros; by rewrite Hstep.
Qed.

Lemma fill_spec (computed : list V) (pos : gmap bytes nat) (c : entries) : (∀ (k : bytes) p, pos !! k = Some p → (p < length computed)%nat) →
  ∃ c', map_fold (λ key p acc, acc ← acc; v ← computed !! p; Some (<[key := v]> acc)) (Some c) pos = Some c'
    ∧ ∀ k, c' !! k = match pos !! k with Some p => computed !! p | None => c !! k end.
Proof.
  apply (map_fold_weak_ind (λ acc pos, (∀ (k : bytes) p, pos !! k = Some p → (p < length computed)%nat) → ∃ c', acc = Some c' ∧
    ∀ k, c' !! k = match pos !! k with Some p => computed !! p | None => c !! k end)).
  - intros _. exists c. split; [done|]. intros k. by rewrite lookup_empty.
  - intros k p m acc Hk IH Hlt. destruct IH as (c' & -> & Hc').
    { intros k' p' H'. apply (Hlt k'). rewrite lookup_insert_ne; [done|]. intros ->. congruence. }
    assert (Hp : (p < length computed)%nat) by (apply (Hlt k); by rewrite lookup_insert_eq).
    destruct (lookup_lt_is_Some_2 computed p Hp) as [v Hv]. cbn [mbind option_bind]. rewrite Hv. cbn [mbind option_bind]. eexists; split; [done|].
    intros k'. destruct (decide (k' = k)) as [->|Hne]; [by rewrite !lookup_insert_eq|]. by rewrite !lookup_insert_ne.
Qed.
Lemma mapM_id_some (l : list V) : mapM id (Some <$> l) = Some l.
Proof. induction l as [|v l IH]; [done|]. cbn in *. by rewrite IH. Qed.
Lemma all_some (l : list (option V)) : Forall is_Some l → ∃ vs, l = Some <$> vs.
Proof. induction 1 as [|x l [v ->] _ [vs ->]]; [by exists []|by exists (v :: vs)]. Qed.

Section runs.
Context (model : str) (dim : Z) (c : entries) (cb : list str → result Error (list V)).
Abbreviation key := (cache_key model dim).
Abbreviation ms := (λ texts, (misses model dim c texts).1).
Abbreviation pos := (λ texts, (misses model dim c texts).2).
(** What a batch does, by what its misses are computed to. *)
Lemma batch_run texts :
  match misses model dim c texts with
  | ([], _) => ∃ vs, get_or_compute_batch c model dim texts cb = (Some (Ok vs), [], c) ∧ Some <$> vs = (λ t, c !! key t) <$> texts
  | (miss_texts, pos) =>
      match cb miss_texts with
      | Err e => get_or_compute_batch c model dim texts cb = (Some (Err e), [miss_texts], c)
      | Ok computed =>
          if bool_decide (length computed = length miss_texts) then
            ∃ vs c', get_or_compute_batch c model dim texts cb = (Some (Ok vs), [miss_texts], c')
              ∧ (Some <$> vs = (λ t, match c !! key t with Some v => Some v | None => p ← pos !! key t; computed !! p end) <$> texts)
              ∧ (∀ k, c' !! k = match pos !! k with Some p => computed !! p | None => c !! k end)
          else ∃ e, get_or_compute_batch c model dim texts cb = (Some (Err e), [miss_texts], c)
      end
  end.
Proof.
  pose proof (misses_spec model dim c texts) as Hok. destruct texts as [|t texts]; [by exists []|].
  unfold get_or_compute_batch. cbv zeta. rewrite zips. fold (misses model dim c (t :: texts)).
  destruct (misses model dim c (t :: texts)) as [miss pos]. cbn [fst snd] in Hok. destruct miss as [|m miss].
  - destruct (all_some ((λ k, c !! k) <$> (key <$> t :: texts))) as [vs Hvs].
    { apply Forall_forall. intros o (k & -> & (x & -> & Hx)%list_elem_of_fmap)%list_elem_of_fmap.
      destruct (pos !! key x) as [p|] eqn:Hp; [destruct (mo_pos _ _ _ _ _ _ Hok _ _ Hp) as (_ & y & Hy & _); by rewrite lookup_nil in Hy|].
      destruct (mo_none _ _ _ _ _ _ Hok _ Hp) as [|Hf]; [done|]. destruct (first_with_own model dim (t :: texts) x Hx). congruence. }
    rewrite Hvs, mapM_id_some. exists vs. split; [done|]. rewrite <- Hvs, <- list_fmap_compose. done.
  - destruct (cb (m :: miss)) as [computed|e]; [|done]. case_bool_decide as Hl; [|by eexists].
    assert (Hlt : ∀ k p, pos !! k = Some p → (p < length computed)%nat).
    { intros k p Hp. destruct (mo_pos _ _ _ _ _ _ Hok _ _ Hp) as (_ & y & Hy & _). apply lookup_lt_Some in Hy. lia. }
    destruct (fill_spec computed pos c Hlt) as (c' & -> & Hc').
    assert (Hz : zip_with (λ key r, match r with Some v => Some v | None => p ← pos !! key; computed !! p end) (key <$> t :: texts) ((λ k, c !! k) <$> (key <$> t :: texts))
                 = (λ t, match c !! key t with Some v => Some v | None => p ← pos !! key t; computed !! p end) <$> t :: texts).
    { generalize (t :: texts). intros l. induction l as [|x l IH]; [done|]. cbn. by f_equal. }
    rewrite Hz. destruct (all_some ((λ t, match c !! key t with Some v => Some v | None => p ← pos !! key t; computed !! p end) <$> t :: texts)) as [vs Hvs].
    { apply Forall_forall. intros o (x & -> & Hx)%list_elem_of_fmap. destruct (c !! key x) eqn:Hcx; [done|].
      destruct (pos !! key x) as [p|] eqn:Hp.
      - cbn. apply lookup_lt_is_Some. by eapply Hlt.
      - destruct (mo_none _ _ _ _ _ _ Hok _ Hp) as [[? ?]|Hf]; [congruence|]. destruct (first_with_own model dim (t :: texts) x Hx). congruence. }
    rewrite Hvs, mapM_id_some. exists vs, c'. done.
Qed.
End runs.

(** Embedding a batch through the cache is embedding its texts one by one through the cache:
    the same vectors in the same order and the same cache afterwards, with at most one call of
    the model, on texts whose keys are distinct and not yet cached, in their order.  It needs
    nothing of the hash. *)
Theorem batch_equals_one_by_one (f : str → V) (c : entries) (model : str) (dim : Z) (texts : list str) :
  let '(r, calls, c') := get_or_compute_batch c model dim texts (λ ts, Ok (f <$> ts)) in
  let '(vs, c'') := one_by_one c model dim texts f in
  r = Some (Ok vs) ∧ c' = c'' ∧ (length calls ≤ 1)%nat ∧
  Forall (λ ms, ms ≠ [] ∧ sublist ms texts ∧ NoDup (cache_key model dim <$> ms) ∧ Forall (λ t, c !! cache_key model dim t = None) ms) calls.
Proof.
  pose proof (misses_spec model dim c texts) as Hok. pose proof (batch_run model dim c (λ ts, Ok (f <$> ts)) texts) as Hrun.
  pose proof (one_by_one_spec model dim f texts c) as Hone. destruct (one_by_one c model dim texts f) as [vs c'']. destruct Hone as [Hvs Hc''].
  destruct (misses model dim c texts) as [miss pos]. cbn [fst snd] in Hok. destruct miss as [|m miss].
  - destruct Hrun as (ws & -> & Hws).
    assert (Hnone : ∀ k, pos !! k = None).
    { intros k. destruct (pos !! k) as [p|] eqn:Hp; [|done]. destruct (mo_pos _ _ _ _ _ _ Hok _ _ Hp) as (_ & y & Hy & _). by rewrite lookup_nil in Hy. }
    assert (Hcached : ∀ k, vector_of model dim f c texts k = c !! k).
    { intros k. unfold vector_of. destruct (c !! k) eqn:Hk; [done|]. destruct (mo_none _ _ _ _ _ _ Hok k (Hnone k)) as [[? ?]|Hf]; [congruence|by rewrite Hf]. }
    split_and!; [|apply map_eq; intros k; by rewrite Hc'', Hcached|cbn; lia|constructor]. do 2 f_equal. apply (inj (fmap Some)).
    rewrite Hws, Hvs. apply list_fmap_ext. intros. by rewrite Hcached.
  - rewrite length_fmap, bool_decide_eq_true_2 in Hrun by done. destruct Hrun as (ws & c' & -> & Hws & Hc').
    assert (Hpos : ∀ k, match pos !! k with Some p => (f <$> m :: miss) !! p | None => c !! k end = vector_of model dim f c texts k).
    { intros k. unfold vector_of. destruct (pos !! k) as [p|] eqn:Hp.
      - destruct (mo_pos _ _ _ _ _ _ Hok _ _ Hp) as (-> & y & Hy & ->). by rewrite list_lookup_fmap, Hy.
      - destruct (c !! k) eqn:Hk; [done|]. destruct (mo_none _ _ _ _ _ _ Hok k Hp) as [[? ?]|Hf]; [congruence|by rewrite Hf]. }
    split_and!; [|apply map_eq; intros k; by rewrite Hc'', Hc', Hpos|cbn; lia|].
    + do 2 f_equal. apply (inj (fmap Some)). rewrite Hws, Hvs. apply list_fmap_ext. intros i t Ht. rewrite <- Hpos.
      destruct (pos !! cache_key model dim t) as [p|] eqn:Hp; [by destruct (mo_pos _ _ _ _ _ _ Hok _ _ Hp) as (-> & _)|].
      by destruct (c !! cache_key model dim t).
    + constructor; [|constructor]. split; [done|]. split; [apply Hok|]. split; [apply Hok|]. apply Forall_forall. intros t Ht.
      destruct (mo_ms _ _ _ _ _ _ Hok t Ht) as [p Hp]. apply (mo_pos _ _ _ _ _ _ Hok _ _ Hp).
Qed.

(** Whatever the model answers, a batch never panics: it returns one vector per text, or an
    error (the model's own, or that of a reply of the wrong length) that leaves the cache as it
    was. *)
Theorem batch_total (c : entries) (model : str) (dim : Z) (texts : list str) cb :
  let '(r, _, c') := get_or_compute_batch c model dim texts cb in
  match r with
  | None => False
  | Some (Ok vs) => length vs = length texts ∧ ∀ k v, c !! k = Some v → c' !! k = Some v
  | Some (Err _) => c' = c
  end.
Proof.
  pose proof (misses_spec model dim c texts) as Hok. pose proof (batch_run model dim c cb texts) as Hrun.
  assert (Hlen : ∀ (vs : list V) (g : str → option V), Some <$> vs = g <$> texts → length vs = length texts).
  { intros vs g H. apply (f_equal length) in H. by rewrite !length_fmap in H. }
  destruct (misses model dim c texts) as [[|m miss] pos].
  { destruct Hrun as (vs & -> & Hvs). split; [by eapply Hlen|done]. }
  destruct (cb (m :: miss)) as [computed|e]; [|by rewrite Hrun]. destruct (bool_decide _); [|by destruct Hrun as [e ->]].
  destruct Hrun as (vs & c' & -> & Hvs & Hc'). split; [by eapply Hlen|]. intros k v Hk. rewrite Hc'.
  destruct (pos !! k) as [p|] eqn:Hp; [|done]. destruct (mo_pos _ _ _ _ _ _ Hok _ _ Hp) as (? & _). congruence.
Qed.

(** ** Keys *)

Lemma le_bytes_inj k : ∀ a b, (a < 256 ^ N.of_nat k)%N → (b < 256 ^ N.of_nat k)%N → le_bytes k a = le_bytes k b → a = b.
Proof.
  induction k as [|k IH]; intros a b Ha Hb; [cbn in *; lia|]. cbn [le_bytes]. intros [= Hm Hd].
  rewrite Nat2N.inj_succ, N.pow_succ_r' in Ha, Hb. apply IH in Hd; [|by apply N.Div0.div_lt_upper_bound..].
  rewrite (N.div_mod a 256), (N.div_mod b 256) by done. by rewrite Hm, Hd.
Qed.
Lemma length_le_bytes k n : length (le_bytes k n) = k.
Proof. revert n. induction k as [|k IH]; intros n; [done|]. cbn. by rewrite IH. Qed.
Definition i64 (z : Z) : Prop := (- 2 ^ 63 ≤ z < 2 ^ 63)%Z.
Lemma i64_bytes_inj a b : i64 a → i64 b → i64_bytes a = i64_bytes b → a = b.
Proof.
  unfold i64, i64_bytes. intros Ha Hb H.
  assert (Hr : ∀ z, (Z.to_N (z mod 2 ^ 64) < 256 ^ N.of_nat 8)%N).
  { intros z. pose proof (Z.mod_pos_bound z (2 ^ 64)). change (256 ^ N.of_nat 8)%N with (2 ^ 64)%N. lia. }
  apply le_bytes_inj in H; [|apply Hr..]. pose proof (Z.mod_pos_bound a (2 ^ 64)). pose proof (Z.mod_pos_bound b (2 ^ 64)).
  assert (Hm : (a mod 2 ^ 64 = b mod 2 ^ 64)%Z) by lia. pose proof (Z.div_mod a (2 ^ 64)). pose proof (Z.div_mod b (2 ^ 64)).
  rewrite Hm in *. lia.
Qed.
Lemma split_nul (a a' r r' : bytes) : 0%N ∉ a → 0%N ∉ a' → a ++ 0%N :: r = a' ++ 0%N :: r' → a = a' ∧ r = r'.
Proof.
  revert a'. induction a as [|x a IH]; intros [|x' a'] Ha Ha' H; cbn in H.
  - by injection H as ->.
  - injection H as Hx _. destruct Ha'. rewrite Hx. left.
  - injection H as Hx _. destruct Ha. rewrite Hx. left.
  - injection H as -> H. rewrite not_elem_of_cons in Ha, Ha'. by destruct (IH a' (proj2 Ha) (proj2 Ha') H) as [-> ->].
Qed.
Lemma utf8_no_nul s : 0%N ∉ s → 0%N ∉ utf8 s.
Proof.
  unfold utf8. induction s as [|c s IH]; [done|]. rewrite not_elem_of_cons. intros [Hc Hs]. simpl.
  rewrite elem_of_app. intros [H|H]; [|by apply IH]. revert H. unfold utf8_char.
  repeat case_match; rewrite ?elem_of_cons, elem_of_nil; lia.
Qed.
Lemma key_bytes_inj m m' d d' t t' : wf_str m → wf_str m' → wf_str t → wf_str t' → 0%N ∉ m → 0%N ∉ m' → i64 d → i64 d' →
  key_bytes m d t = key_bytes m' d' t' → m = m' ∧ d = d' ∧ t = t'.
Proof.
  intros Hm Hm' Ht Ht' Hz Hz' Hd Hd' H. unfold key_bytes in H.
  apply split_nul in H as [H1 H2]; [|by apply utf8_no_nul..].
  apply app_inj_1 in H2 as [H2 H3]; [|unfold i64_bytes; by rewrite !length_le_bytes]. injection H3 as H3.
  split_and!; [by apply utf8_inj|by apply i64_bytes_inj|by apply utf8_inj].
Qed.

(** What a cache holds: under a hash that does not collide on keys, every vector is the one its
    own model gives its own text. *)
Definition cached (F : str → Z → str → V) (c : entries) : Prop :=
  ∀ m d t v, wf_str m → wf_str t → 0%N ∉ m → i64 d → c !! cache_key m d t = Some v → v = F m d t.
Definition collision_free : Prop :=
  ∀ m d t m' d' t', wf_str m → wf_str m' → wf_str t → wf_str t' → 0%N ∉ m → 0%N ∉ m' → i64 d → i64 d' →
    sha256 (key_bytes m d t) = sha256 (key_bytes m' d' t') → key_bytes m d t = key_bytes m' d' t'.

(** The cache never hands one model's vector to another: when the hash does not collide on
    keys, a batch for a model and a dimension returns exactly that model's vectors of the texts,
    and the cache keeps holding only right vectors for every model and dimension at once. *)
Theorem cache_keeps_models_apart (F : str → Z → str → V) (c : entries) (model : str) (dim : Z) (texts : list str) :
  collision_free → cached F c → wf_str model → 0%N ∉ model → i64 dim → Forall wf_str texts →
  let '(r, _, c') := get_or_compute_batch c model dim texts (λ ts, Ok (F model dim <$> ts)) in
  r = Some (Ok (F model dim <$> texts)) ∧ cached F c'.
Proof.
  intros Hcf Hc Hm Hz Hd Ht. pose proof (batch_run model dim c (λ ts, Ok (F model dim <$> ts)) texts) as Hrun.
  pose proof (misses_spec model dim c texts) as Hok.
  assert (Hsame : ∀ m d t t', wf_str m → wf_str t → 0%N ∉ m → i64 d → wf_str t' → cache_key model dim t' = cache_key m d t → m = model ∧ d = dim ∧ t = t').
  { intros m d t t' Hm' Hwt Hz' Hd' Hwt' Heq. apply Hcf in Heq; try done. by apply key_bytes_inj in Heq as (-> & -> & ->). }
  rewrite Forall_forall in Ht.
  assert (Hout : ∀ ws (g : str → option V), Some <$> ws = g <$> texts → (∀ t v, t ∈ texts → g t = Some v → v = F model dim t) → ws = F model dim <$> texts).
  { intros ws g Hws Hg. clear -Hws Hg. revert ws Hws. induction texts as [|t texts IH]; intros [|w ws] Hws; try done. injection Hws as Hw Hws.
    cbn. f_equal; [apply Hg; [left|done]|]. apply IH; [|done]. intros. apply Hg; [by right|done]. }
  destruct (misses model dim c texts) as [miss pos]. cbn [fst snd] in Hok. destruct miss as [|m0 miss].
  - destruct Hrun as (ws & -> & Hws). split; [|done]. do 2 f_equal. eapply Hout; [exact Hws|]. intros t v Hin Hv. apply (Hc model dim); auto.
  - rewrite length_fmap, bool_decide_eq_true_2 in Hrun by done. destruct Hrun as (ws & c' & -> & Hws & Hc').
    assert (Hpos : ∀ k p v, pos !! k = Some p → (F model dim <$> m0 :: miss) !! p = Some v → ∃ t, t ∈ texts ∧ cache_key model dim t = k ∧ v = F model dim t).
    { intros k p v Hp Hv. destruct (mo_pos _ _ _ _ _ _ Hok _ _ Hp) as (_ & y & Hy & Hf). rewrite list_lookup_fmap, Hy in Hv. injection Hv as <-.
      apply first_with_key in Hf as [? ?]. by exists y. }
    split.
    + do 2 f_equal. eapply Hout; [exact Hws|]. intros t v Hin Hv. cbn in Hv. destruct (c !! cache_key model dim t) eqn:Hct.
      * injection Hv as <-. apply (Hc model dim); auto.
      * destruct (pos !! cache_key model dim t) as [p|] eqn:Hp; [|done]. cbn in Hv. destruct (Hpos _ _ _ Hp Hv) as (t' & Ht' & Hk & ->).
        by destruct (Hsame model dim t t') as (_ & _ & ->); auto.
    + intros m d t v Hwm Hwt Hzm Hdd. rewrite Hc'. destruct (pos !! cache_key m d t) as [p|] eqn:Hp; [|by apply Hc].
      intros Hv. destruct (Hpos _ _ _ Hp Hv) as (t' & Ht' & Hk & ->). by destruct (Hsame m d t t') as (-> & -> & ->); auto.
Qed.
End cache.

Definition PlainDigest : Digest := λ bs, bs.
Definition toy_embedding (m : str) (d : Z) (t : str) : N := N.of_nat (length m + length t).
Lemma cache_keeps_models_apart_witness :
  let '(r, _, c') := @get_or_compute_batch PlainDigest N ∅ #"bge" 768 [ #"a"; #"bb"; #"a"] (λ ts, Ok (toy_embedding #"bge" 768 <$> ts)) in
  r = Some (Ok (toy_embedding #"bge" 768 <$> [ #"a"; #"bb"; #"a"])) ∧ @cached PlainDigest N toy_embedding c'.
Proof.
  apply (@cache_keeps_models_apart PlainDigest N toy_embedding ∅ #"bge" 768 [ #"a"; #"bb"; #"a"]).
  - intros m d t m' d' t' _ _ _ _ _ _ _ _ H. exact H.
  - intros m d t v _ _ _ _ H. discriminate H.
  - repeat constructor.
  - apply (bool_decide_unpack _). vm_compute. exact I.
  - unfold i64. lia.
  - repeat constructor.
Defined.
