(* ===== verification/Embedder.v ===== *)
(** * Embedder: vectors in the order of their texts (core/src/embedder.rs)

    A response names the position of each of its vectors.  The endpoint is a function of the texts
    sent; the cast of a coordinate from [f64] to [f32] is [narrow].  [try_join_all] reports one of
    the chunks' errors: the model reports the first chunk's. *)

From S2P Require Import Prelude Text Numbers TokenBudget Extraction.

(** ** Settings *)

(** Source: core/src/embedder.rs 10-10 (DEFAULT_EMBEDDING_TIMEOUT_MS) *)
Definition DEFAULT_EMBEDDING_TIMEOUT_MS : N := 30000.
(** Source: core/src/embedder.rs 14-14 (DEFAULT_EMBEDDING_CONNECT_TIMEOUT_MS) *)
Definition DEFAULT_EMBEDDING_CONNECT_TIMEOUT_MS : N := 5000.
(** [var] is the environment variable's value, [parse] a [u64]'s or a [usize]'s text.
    Source: core/src/embedder.rs 809-830 (resolve_embedding_timeout_ms) *)
Definition resolve_embedding_timeout_ms (env_var : str) (var : option str) (default_ms : N) : result Error N :=
  match match var with
        | None => Ok default_ms
        | Some v => match parse_uint 10 u64_max v with
                    | Some ms => Ok ms
                    | None => Err (Config (Msg "{env_var}={v} is not a valid positive integer (milliseconds)" [AStr env_var; AStr v]))
                    end
        end with
  | Err e => Err e
  | Ok ms => if (ms =? 0)%N then Err (Config (Msg "{env_var}=0 is invalid; timeout must be a positive number of milliseconds" [AStr env_var])) else Ok ms
  end.
(** Source: core/src/embedder.rs 837-855 (resolve_embed_batch_size) *)
Definition resolve_embed_batch_size (var : option str) : result Error N :=
  match match var with
        | None => Ok 64%N
        | Some v => match parse_uint 10 u64_max v with
                    | Some n => Ok n
                    | None => Err (Config (Msg "LCG_EMBED_BATCH_SIZE={v} is not a valid integer; expected 1-256" [AStr v]))
                    end
        end with
  | Err e => Err e
  | Ok size => if (size =? 0)%N || (256 <? size)%N then Err (Config (Msg "LCG_EMBED_BATCH_SIZE {size} is out of range; expected 1-256" [ANum size])) else Ok size
  end.
(** The first of the three variables that is set and not empty.
    Source: core/src/embedder.rs 680-712 (resolve_embedding_api_key) *)
Definition resolve_embedding_api_key (lcg graphiti openai : option str) : option str :=
  let set v := v ≫= λ s : str, if nonempty s then Some s else None in
  match set lcg with Some k => Some k | None => match set graphiti with Some k => Some k | None => set openai end end.

Section embedder.
Context {F64 F32 : Type} (narrow : F64 → F32).

(** Source: core/src/embedder.rs 41-48 (OaiEmbedding) *)
Record OaiEmbedding := { oe_embedding : list F64; oe_index : N }.
(** Source: core/src/embedder.rs 35-38 (OaiEmbedResponse) *)
Record OaiEmbedResponse := { er_data : list OaiEmbedding; er_model : str }.

(** Source: core/src/embedder.rs 742-757 (extract_embedding) *)
Definition extract_embedding (resp : OaiEmbedResponse) : result Error (list F32) :=
  match er_data resp with
  | [] => Err (Ipc (Msg "embedding response: empty data array" []))
  | item :: _ =>
      match oe_embedding item with
      | [] => Err (Ipc (Msg "embedding response shape mismatch: zero-length vector" []))
      | v => Ok (narrow <$> v)
      end
  end.
(** One entry after the other into its slot.
    Source: core/src/embedder.rs 774-794 (extract_embeddings_ordered) *)
Fixpoint fill_slots (expected_len : nat) (data : list OaiEmbedding) (slots : list (option (list F32))) : result Error (list (option (list F32))) :=
  match data with
  | [] => Ok slots
  | item :: data =>
      let idx := oe_index item in
      if (N.of_nat expected_len <=? idx)%N then
        Err (Ipc (Msg "embedding response index {idx} out of range for batch of {expected_len}" [ANum idx; ANum (N.of_nat expected_len)]))
      else
        match slots !! N.to_nat idx with
        | Some (Some _) => Err (Ipc (Msg "embedding response: duplicate index {idx}" [ANum idx]))
        | _ =>
            match oe_embedding item with
            | [] => Err (Ipc (Msg "embedding response shape mismatch: zero-length vector" []))
            | v => fill_slots expected_len data (<[N.to_nat idx := Some (narrow <$> v)]> slots)
            end
        end
  end.
Definition slot_or_missing (e : nat * option (list F32)) : result Error (list F32) :=
  let '(i, v) := e in match v with Some v => Ok v | None => Err (Ipc (Msg "embedding response: missing index {i}" [ANum (N.of_nat i)])) end.
(** Source: core/src/embedder.rs 764-800 (extract_embeddings_ordered) *)
Definition extract_embeddings_ordered (resp : OaiEmbedResponse) (expected_len : nat) : result Error (list (list F32)) :=
  if negb (length (er_data resp) =? expected_len)%nat then
    Err (Ipc (Msg "embedding response shape mismatch: expected {expected_len} entries, got {}" [ANum (N.of_nat expected_len); ANum (N.of_nat (length (er_data resp)))]))
  else
    match fill_slots expected_len (er_data resp) (replicate expected_len None) with
    | Err e => Err e
    | Ok slots =>
        rcollect slot_or_missing (imap pair slots)
    end.
Definition dim_mismatch (dim got : nat) : Error :=
  Ipc (Msg "embedding response shape mismatch: expected {} dimensions, got {}" [ANum (N.of_nat dim); ANum (N.of_nat got)]).
Definition check_dims (dim : nat) (vecs : list (list F32)) : result Error (list (list F32)) :=
  match find_first (λ v : list F32, if negb (length v =? dim)%nat then Some v else None) vecs with
  | Some v => Err (dim_mismatch dim (length v))
  | None => Ok vecs
  end.
(** [slice::chunks]; the fuel is the length. *)
Fixpoint chunks {A} (fuel size : nat) (l : list A) : list (list A) :=
  match fuel with
  | O => []
  | S fuel => match l with [] => [] | _ => take size l :: chunks fuel size (drop size l) end
  end.
Context (dim : nat) (ask : list str → result Error OaiEmbedResponse).
(** Source: core/src/embedder.rs 465-476 (do_embed) *)
Definition do_embed (text : str) : result Error (list F32) :=
  match ask [text] with
  | Err e => Err e
  | Ok resp =>
      match extract_embedding resp with
      | Err e => Err e
      | Ok v => if negb (length v =? dim)%nat then Err (dim_mismatch dim (length v)) else Ok v
      end
  end.
Definition embed_chunk (chunk : list str) : result Error (list (list F32)) :=
  match ask chunk with
  | Err e => Err e
  | Ok resp => match extract_embeddings_ordered resp (length chunk) with Err e => Err e | Ok vecs => check_dims dim vecs end
  end.
(** Source: core/src/embedder.rs 484-506 (do_embed_batch) *)
Definition do_embed_batch (batch_size : option str) (texts : list str) : result Error (list (list F32)) :=
  match texts with
  | [] => Ok []
  | _ =>
      match resolve_embed_batch_size batch_size with
      | Err e => Err e
      | Ok chunk_size =>
          match rcollect embed_chunk (chunks (length texts) (N.to_nat chunk_size) texts) with
          | Err e => Err e
          | Ok parts => Ok (concat parts)
          end
      end
  end.

(** ** Order *)

Lemma fill_ok n data : ∀ slots slots', length slots = n → fill_slots n data slots = Ok slots' →
  length slots' = n ∧ NoDup (oe_index <$> data) ∧
  (∀ item, item ∈ data → (oe_index item < N.of_nat n)%N ∧ oe_embedding item ≠ [] ∧ slots !! N.to_nat (oe_index item) = Some None
     ∧ slots' !! N.to_nat (oe_index item) = Some (Some (narrow <$> oe_embedding item))) ∧
  (∀ i, N.of_nat i ∉ oe_index <$> data → slots' !! i = slots !! i).
Proof.
  induction data as [|x data IH]; intros slots slots' Hl; cbn [fill_slots].
  - intros [= <-]. split_and!; [done|constructor|set_solver|done].
  - destruct (N.leb_spec (N.of_nat n) (oe_index x)); [done|]. destruct (slots !! N.to_nat (oe_index x)) as [[?|]|] eqn:Hx; [done| |].
    2: { apply lookup_ge_None in Hx. lia. }
    destruct (oe_embedding x) as [|y v] eqn:He; [done|]. intros Hf. apply IH in Hf as (H1 & H2 & H3 & H4); [|by rewrite length_insert].
    assert (Hnew : oe_index x ∉ oe_index <$> data).
    { intros (z & Hz & Hin)%list_elem_of_fmap. destruct (H3 z Hin) as (_ & _ & Hs & _). rewrite <- Hz in Hs.
      rewrite list_lookup_insert_eq in Hs by lia. done. }
    split; [done|]. split; [cbn; by constructor|]. split.
    + intros item [-> |Hin]%elem_of_cons.
      * rewrite He. split_and!; [done..|]. rewrite H4 by by rewrite N2Nat.id. apply list_lookup_insert_eq. lia.
      * destruct (H3 item Hin) as (? & ? & Hs & ?). split_and!; [done..| |done]. rewrite list_lookup_insert_ne in Hs; [done|].
        intros Heq%N2Nat.inj. apply Hnew. rewrite Heq. by apply list_elem_of_fmap_2.
    + intros i Hi. cbn in Hi. rewrite not_elem_of_cons in Hi. destruct Hi as [Hne Hi]. rewrite H4 by done. apply list_lookup_insert_ne. lia.
Qed.
Lemma fill_succeeds n data : ∀ slots, length slots = n → NoDup (oe_index <$> data) →
  (∀ item, item ∈ data → (oe_index item < N.of_nat n)%N ∧ oe_embedding item ≠ [] ∧ slots !! N.to_nat (oe_index item) = Some None) →
  ∃ slots', fill_slots n data slots = Ok slots'.
Proof.
  induction data as [|x data IH]; intros slots Hl Hnd Hall; cbn [fill_slots]; [by eexists|].
  destruct (Hall x) as (Hlt & He & Hs); [left|]. rewrite (proj2 (N.leb_gt _ _)) by done. rewrite Hs.
  destruct (oe_embedding x) as [|y v] eqn:Hex; [done|]. cbn in Hnd. inversion_clear Hnd as [|? ? Hx Hnd'].
  apply IH; [by rewrite length_insert|done|]. intros item Hin. destruct (Hall item) as (? & ? & ?); [by right|]. split_and!; [done..|].
  rewrite list_lookup_insert_ne; [done|]. intros Heq%N2Nat.inj. apply Hx. rewrite Heq. by apply list_elem_of_fmap_2.
Qed.
Lemma all_indices (l : list N) n : NoDup l → length l = n → Forall (λ i, (i < N.of_nat n)%N) l → ∀ i, (i < n)%nat → N.of_nat i ∈ l.
Proof.
  intros Hnd Hl Hlt i Hi. apply list_elem_of_In. apply (NoDup_length_incl (l := l) (l' := N.of_nat <$> seq 0 n)).
  - by apply NoDup_ListNoDup.
  - rewrite length_fmap, length_seq. lia.
  - intros x Hx%list_elem_of_In. apply list_elem_of_In. rewrite Forall_forall in Hlt. specialize (Hlt x Hx).
    apply list_elem_of_fmap. exists (N.to_nat x). rewrite N2Nat.id. split; [done|]. apply elem_of_seq. lia.
  - apply list_elem_of_In, list_elem_of_fmap_2, elem_of_seq. lia.
Qed.
Lemma collect_slots slots : ∀ (g : nat → option (list F32) → nat * option (list F32)) out, (∀ i x, (g i x).2 = x) →
  rcollect slot_or_missing (imap g slots) = Ok out ↔ slots = Some <$> out.
Proof.
  induction slots as [|s slots IH]; intros g out Hg; cbn [imap rcollect].
  - split; [by intros [= <-]|by destruct out].
  - specialize (Hg 0%nat s) as Hs. destruct (g 0%nat s) as [i s']. cbn in Hs. subst s'. cbn [slot_or_missing].
    destruct s as [v|]; cbn [rbind]; [|split; [done|by destruct out]].
    destruct (rcollect _ _) as [vs|e] eqn:Hr; cbn [rbind].
    + apply (IH (g ∘ S)) in Hr; [|intros; apply Hg]. split; [by intros [= <-]; rewrite Hr|].
      destruct out as [|o out]; [done|]. intros [= -> Ho]. rewrite Ho in Hr. by apply (inj (fmap Some)) in Hr as ->.
    + split; [done|]. destruct out as [|o out]; [done|]. intros [= -> Ho]. apply (IH (g ∘ S)) in Ho; [congruence|intros; apply Hg].
Qed.

Lemma ordered_exact (resp : OaiEmbedResponse) (n : nat) (out : list (list F32)) :
  extract_embeddings_ordered resp n = Ok out ↔
  length (er_data resp) = n ∧ length out = n ∧ NoDup (oe_index <$> er_data resp) ∧
  ∀ item, item ∈ er_data resp → oe_embedding item ≠ [] ∧ out !! N.to_nat (oe_index item) = Some (narrow <$> oe_embedding item).
Proof.
  unfold extract_embeddings_ordered. set (data := er_data resp). destruct (Nat.eqb_spec (length data) n) as [Hn|Hn]; cbn [negb].
  2: { split; [done|]. by intros (? & _). }
  assert (Hrep : length (replicate n (None : option (list F32))) = n) by apply length_replicate. split.
  - destruct (fill_slots n data (replicate n None)) as [slots|] eqn:Hf; [|done].
    intros Hout%collect_slots; [|done]. destruct (fill_ok n data _ _ Hrep Hf) as (H1 & H2 & H3 & _).
    rewrite Hout, length_fmap in H1. split_and!; [done..|]. intros item Hin. destruct (H3 item Hin) as (_ & ? & _ & H).
    split; [done|]. rewrite Hout, list_lookup_fmap in H. apply fmap_Some in H as (v & Hv & [= <-]). done.
  - intros (_ & Hlo & Hnd & Hall).
    assert (Hlt : ∀ item, item ∈ data → (oe_index item < N.of_nat n)%N).
    { intros item Hin. destruct (Hall item Hin) as [_ H%lookup_lt_Some]. lia. }
    destruct (fill_succeeds n data _ Hrep Hnd) as [slots Hf].
    { intros item Hin. split_and!; [by apply Hlt|by apply Hall|]. apply lookup_replicate_2. specialize (Hlt item Hin). lia. }
    rewrite Hf. apply collect_slots; [done|]. destruct (fill_ok n data _ _ Hrep Hf) as (H1 & _ & H3 & _).
    apply list_eq. intros i. rewrite list_lookup_fmap. destruct (decide (i < n)%nat) as [Hi|Hi].
    + pose proof (all_indices (oe_index <$> data) n Hnd) as Hix. rewrite length_fmap in Hix.
      assert (Hin : N.of_nat i ∈ oe_index <$> data).
      { apply Hix; [done| |done]. apply Forall_fmap, Forall_forall. exact Hlt. }
      apply list_elem_of_fmap in Hin as (item & Heq & Hin). destruct (H3 item Hin) as (_ & _ & _ & Hs). destruct (Hall item Hin) as [_ Ho].
      rewrite <- Heq, Nat2N.id in Hs, Ho. by rewrite Hs, Ho.
    + rewrite !lookup_ge_None_2 by lia. done.
Qed.
(** A response's vectors are accepted exactly when it holds as many entries as texts were
    sent, every entry has a vector and names a position of its own within the batch; and then
    every vector stands at the position its entry names, whatever the order of the entries. *)
Theorem embeddings_ordered_exact (resp : OaiEmbedResponse) (n : nat) (out : list (list F32)) :
  extract_embeddings_ordered resp n = Ok out ↔
  length (er_data resp) = n ∧ length out = n ∧ NoDup (oe_index <$> er_data resp) ∧
  ∀ item, item ∈ er_data resp → oe_embedding item ≠ [] ∧ out !! N.to_nat (oe_index item) = Some (narrow <$> oe_embedding item).
Proof. apply ordered_exact. Qed.

Lemma imap_indices (F : str → list F64) (chunk : list str) :
  oe_index <$> imap (λ i t, {| oe_embedding := F t; oe_index := N.of_nat i |}) chunk = N.of_nat <$> seq 0 (length chunk).
Proof.
  apply list_eq. intros i. rewrite !list_lookup_fmap, list_lookup_imap. destruct (decide (i < length chunk)%nat) as [Hi|Hi].
  - destruct (lookup_lt_is_Some_2 chunk i Hi) as [t ->]. by rewrite lookup_seq_lt by done.
  - rewrite lookup_ge_None_2 by lia. rewrite lookup_seq_ge by lia. done.
Qed.
Lemma check_dims_ok vecs out : check_dims dim vecs = Ok out ↔ out = vecs ∧ Forall (λ v : list F32, length v = dim) vecs.
Proof.
  unfold check_dims. assert (H : match find_first (λ v : list F32, if negb (length v =? dim)%nat then Some v else None) vecs with
    | Some v => ¬ Forall (λ v : list F32, length v = dim) vecs | None => Forall (λ v : list F32, length v = dim) vecs end).
  { induction vecs as [|v vecs IH]; cbn; [constructor|]. destruct (Nat.eqb_spec (length v) dim) as [Hd|Hd]; cbn.
    - destruct (find_first _ vecs); [by rewrite Forall_cons; intros [_ ?]|by constructor].
    - by rewrite Forall_cons; intros [? _]. }
  destruct (find_first _ vecs); split; [done|by intros [_ ?]|by intros [= <-]|by intros [-> _]].
Qed.
Lemma concat_fmaps {A B} (f : A → B) (ls : list (list A)) : concat ((λ c : list A, f <$> c) <$> ls) = f <$> concat ls.
Proof. induction ls as [|l ls IH]; [done|]. cbn. by rewrite IH, fmap_app. Qed.
Lemma chunks_concat {A} size : ∀ fuel (l : list A), (length l ≤ fuel)%nat → (0 < size)%nat → concat (chunks fuel size l) = l.
Proof.
  induction fuel as [|fuel IH]; intros [|x l] Hl Hs; try done; [cbn in Hl; lia|]. cbn [chunks concat]. rewrite IH; [apply take_drop| |done].
  rewrite length_drop. cbn [length] in *. lia.
Qed.
Lemma chunks_bound {A} size : ∀ fuel (l : list A), (0 < size)%nat → Forall (λ c, c ≠ [] ∧ (length c ≤ size)%nat) (chunks fuel size l).
Proof.
  induction fuel as [|fuel IH]; intros [|x l] Hs; cbn [chunks]; try constructor; [|by apply IH].
  split; [by destruct size; [lia|]|rewrite length_take; lia].
Qed.

(** When the endpoint answers every request of the configured size with the texts' vectors in
    any order, each under its position, a batch returns the texts' vectors in the texts' order,
    however it was cut into requests. *)
Theorem embed_batch_aligned (F : str → list F64) (batch_size : option str) (size : N) (texts : list str) :
  resolve_embed_batch_size batch_size = Ok size →
  (∀ t, F t ≠ [] ∧ length (F t) = dim) →
  (∀ chunk, chunk ≠ [] → (N.of_nat (length chunk) ≤ size)%N →
     ∃ resp, ask chunk = Ok resp ∧ er_data resp ≡ₚ imap (λ i t, {| oe_embedding := F t; oe_index := N.of_nat i |}) chunk) →
  do_embed_batch batch_size texts = Ok ((λ t, narrow <$> F t) <$> texts).
Proof.
  intros Hsize HF Hask. assert (Hpos : (0 < size)%N).
  { unfold resolve_embed_batch_size in Hsize. destruct (match batch_size with Some _ => _ | None => _ end) as [n|]; [|done].
    destruct (N.eqb_spec n 0); [done|]. destruct (256 <? n)%N; [done|]. injection Hsize as <-. lia. }
  assert (Hchunk : ∀ chunk, chunk ≠ [] → (length chunk ≤ N.to_nat size)%nat → embed_chunk chunk = Ok ((λ t, narrow <$> F t) <$> chunk)).
  { intros chunk Hne Hl. unfold embed_chunk. destruct (Hask chunk Hne) as (resp & -> & Hp); [lia|].
    rewrite (proj2 (ordered_exact resp (length chunk) ((λ t, narrow <$> F t) <$> chunk))).
    - apply check_dims_ok. split; [done|]. apply Forall_fmap, Forall_forall. intros t _. cbn. rewrite length_fmap. apply HF.
    - split_and!.
      + by rewrite Hp, length_imap.
      + by rewrite length_fmap.
      + rewrite Hp, imap_indices. apply (NoDup_fmap_2 _), NoDup_seq.
      + intros item. rewrite Hp. intros (i & Hi)%list_elem_of_lookup. rewrite list_lookup_imap in Hi. apply fmap_Some in Hi as (t & Ht & ->). cbn.
        split; [apply HF|]. by rewrite Nat2N.id, list_lookup_fmap, Ht. }
  unfold do_embed_batch. destruct texts as [|t texts]; [done|]. rewrite Hsize.
  rewrite (proj2 (rcollect_ok (embed_chunk) _ ((λ c : list str, (λ t, narrow <$> F t) <$> c) <$> chunks (length (t :: texts)) (N.to_nat size) (t :: texts)))).
  - f_equal. rewrite concat_fmaps, chunks_concat by (done || lia). done.
  - apply Forall2_fmap_r, Forall_Forall2_diag. eapply Forall_impl; [apply (chunks_bound (N.to_nat size)); lia|].
    intros c [Hc Hc']. by apply Hchunk.
Qed.
End embedder.

Definition toy_coords (t : str) : list N := [N.of_nat (length t); 7%N].
(** An endpoint that answers backwards. *)
Definition toy_ask (chunk : list str) : result Error (@OaiEmbedResponse N) :=
  Ok {| er_data := reverse (imap (λ i t, {| oe_embedding := toy_coords t; oe_index := N.of_nat i |}) chunk); er_model := [] |}.
Lemma embed_batch_aligned_witness :
  do_embed_batch (λ x : N, (x + 1)%N) 2 toy_ask (Some #"2") [ #"a"; #"bb"; #"ccc"] = Ok [[2; 8]; [3; 8]; [4; 8]]%N.
Proof.
  apply (embed_batch_aligned (λ x : N, (x + 1)%N) 2 toy_ask toy_coords (Some #"2") 2 [ #"a"; #"bb"; #"ccc"]).
  - vm_compute. reflexivity.
  - intros t. split; [discriminate|reflexivity].
  - intros chunk _ _. eexists. split; [reflexivity|]. apply reverse_Permutation.
Defined.
