(* ===== verification/DedupAdapter.v ===== *)
(** * DedupAdapter: judging pairs in groups behind a cache (core/src/dedup_adapter.rs)

    The judge, an extractor under a timeout, is a function of the world; a panic of the judge
    itself is not modelled here.  The log lines are left out. *)

From S2P Require Import Prelude Text Numbers SummaryMerge Replies Ontology Prompts EmbeddingCache Embedder.

(** Source: core/src/dedup_adapter.rs 18-18 (MAX_PAIRS_PER_CALL) *)
Definition MAX_PAIRS_PER_CALL : nat := 16.
(** Source: core/src/dedup_adapter.rs 23-23 (CACHE_CAP) *)
Definition CACHE_CAP : nat := 4096.
(** Source: core/src/dedup_adapter.rs 31-36 (DedupMode) *)
Inductive DedupMode := VetoOnly | LlmVerified.
(** Source: core/src/dedup_adapter.rs 39-44 (as_str) *)
Definition dedup_mode_str (m : DedupMode) : str := match m with VetoOnly => #"veto-only" | LlmVerified => #"llm-verified" end.
(** Source: core/src/dedup_adapter.rs 55-60 (parse_flag) *)
Definition parse_flag (v : str) : bool := negb (bool_decide (ascii_lower <$> trim v ∈ [ []; #"0"; #"false"; #"off"; #"no"])).
(** [var] is the environment variable's value.
    Source: core/src/dedup_adapter.rs 49-53 (dedup_llm_requested) *)
Definition dedup_llm_requested (var : option str) : bool := match var with Some v => parse_flag v | None => false end.
(** Source: core/src/dedup_adapter.rs 69-75 (effective_dedup_mode) *)
Definition effective_dedup_mode (var : option str) (extractor_configured : bool) : DedupMode :=
  if dedup_llm_requested var && extractor_configured then LlmVerified else VetoOnly.
(** Source: core/src/dedup_adapter.rs 78-86 (dedup_mode_description) *)
Definition dedup_mode_description (var : option str) (extractor_configured : bool) : str :=
  dedup_mode_str (effective_dedup_mode var extractor_configured) ++ #" (" ++
  match dedup_llm_requested var, extractor_configured with
  | true, true => #"LCG_DEDUP_LLM=on"
  | true, false => #"LCG_DEDUP_LLM=on-but-no-extractor"
  | false, _ => #"LCG_DEDUP_LLM=off"
  end ++ #"; identifier veto always on)".

(** The fields of a candidate row a pair is built from.
    Source: core/src/dedup_adapter.rs 174-194 (pair_from) *)
Definition pair_from (name summary : str) (labels : list str) (incoming : ExtractedEntity) : DuplicatePair :=
  let existing_type := default [] (find_last (λ l, if negb (bool_decide (l = #"Entity")) then Some l else None) labels) in
  {| dp_existing := {| ds_name := name; ds_type := existing_type; ds_summary := summary |};
     dp_incoming := {| ds_name := xe_name incoming; ds_type := xe_type incoming; ds_summary := xe_summary incoming |} |}.
(** Source: core/src/dedup_adapter.rs 202-204 (judge_batch) *)
Definition passthrough_judge_batch (pairs : list DuplicatePair) : list DedupVerdict := replicate (length pairs) Duplicate.

Inductive JudgeAnswer := Judged (r : result Error (list DedupVerdict)) | TimedOut.

Section adapter.
Context {U : Unicode} {D : Digest} {W : Type} (judge : list DuplicatePair → W → JudgeAnswer * W).

Definition side_bytes (s : DedupSide) : bytes :=
  utf8 (normalize_name (ds_name s)) ++ 31%N :: utf8 (ds_type s) ++ 31%N :: utf8 (ds_summary s) ++ [30%N].
(** Source: core/src/dedup_adapter.rs 238-249 (cache_key) *)
Definition pair_key (p : DuplicatePair) : str := to_hex (sha256 (side_bytes (dp_existing p) ++ side_bytes (dp_incoming p))).
Abbreviation verdict_cache := (gmap str DedupVerdict).
(** Source: core/src/dedup_adapter.rs 255-265 (cache_put) *)
Definition cache_put (c : verdict_cache) (key : str) (verdict : DedupVerdict) : verdict_cache :=
  if bool_decide (verdict = Unknown) then c
  else <[key := verdict]> (if (CACHE_CAP <=? size c)%nat then ∅ else c).
(** Source: core/src/dedup_adapter.rs 267-316 (judge_group) *)
Definition judge_group (group : list DuplicatePair) (w : W) : list DedupVerdict * W :=
  let unknown := replicate (length group) Unknown in
  let '(answer, w) := judge group w in
  (match answer with
   | Judged (Ok v) => if (length v =? length group)%nat then v else unknown
   | _ => unknown
   end, w).
Definition settle (st : list DedupVerdict * verdict_cache) (e : nat * str * DedupVerdict) : list DedupVerdict * verdict_cache :=
  let '(i, key, v) := e in (<[i := v]> st.1, cache_put st.2 key v).
(** One group after the other.
    Source: core/src/dedup_adapter.rs 331-339 (judge_batch) *)
Fixpoint judge_groups (pairs : list DuplicatePair) (groups : list (list (nat * str))) (out : list DedupVerdict) (c : verdict_cache) (w : W) :
    list DedupVerdict * verdict_cache * W :=
  match groups with
  | [] => (out, c, w)
  | group :: groups =>
      let batch := omap (λ e : nat * str, pairs !! e.1) group in
      let '(verdicts, w) := judge_group batch w in
      let '(out, c) := foldl settle (out, c) (zip group verdicts) in
      judge_groups pairs groups out c w
  end.
Definition pending_of (c : verdict_cache) (pairs : list DuplicatePair) : list (nat * str) :=
  omap (λ '(i, p), match c !! pair_key p with Some _ => None | None => Some (i, pair_key p) end) (imap pair pairs).
(** Source: core/src/dedup_adapter.rs 320-342 (judge_batch) *)
Definition judge_batch (pairs : list DuplicatePair) (c : verdict_cache) (w : W) : list DedupVerdict * verdict_cache * W :=
  let out := (λ p, default Unknown (c !! pair_key p)) <$> pairs in
  let pending := pending_of c pairs in
  judge_groups pairs (chunks (length pending) MAX_PAIRS_PER_CALL pending) out c w.

(** ** Laws *)

(** The cache holds definite verdicts only, and not too many. *)
Definition cache_ok (c : verdict_cache) : Prop := (size c ≤ CACHE_CAP)%nat ∧ ∀ k : str, c !! k ≠ Some Unknown.
Lemma cache_put_ok c key v : cache_ok c → cache_ok (cache_put c key v).
Proof.
  intros [Hs Hd]. unfold cache_put. case_bool_decide as Hv; [done|]. destruct (Nat.leb_spec CACHE_CAP (size c)) as [Hc|Hc].
  - split; [rewrite map_size_insert_None by done; rewrite map_size_empty; unfold CACHE_CAP; lia|].
    intros k. destruct (decide (k = key)) as [->|?]; [rewrite lookup_insert_eq; congruence|by rewrite lookup_insert_ne].
  - split.
    + destruct (c !! key) eqn:Hk; [rewrite map_size_insert_Some by eauto|rewrite map_size_insert_None by done]; lia.
    + intros k. destruct (decide (k = key)) as [->|?]; [rewrite lookup_insert_eq; congruence|rewrite lookup_insert_ne by done; apply Hd].
Qed.
Lemma judge_group_length group w : length (judge_group group w).1 = length group.
Proof.
  unfold judge_group. destruct (judge group w) as [[[v|e]|] w']; cbn; try apply length_replicate.
  destruct (Nat.eqb_spec (length v) (length group)); [done|apply length_replicate].
Qed.

(** Where a verdict comes from: the cache, or the judge's own answer for that very pair. *)
Definition judged (groups : list (list DuplicatePair)) (p : DuplicatePair) (v : DedupVerdict) : Prop :=
  ∃ (g : list DuplicatePair) (w : W) (vs : list DedupVerdict) (j : nat), g ∈ groups ∧ (judge g w).1 = Judged (Ok vs) ∧ length vs = length g ∧ g !! j = Some p ∧ vs !! j = Some v.
Definition groups_of (c : verdict_cache) (pairs : list DuplicatePair) : list (list DuplicatePair) :=
  (λ g : list (nat * str), omap (λ e : nat * str, pairs !! e.1) g) <$> chunks (length (pending_of c pairs)) MAX_PAIRS_PER_CALL (pending_of c pairs).

Lemma settle_list (pairs : list DuplicatePair) (group : list (nat * str)) (verdicts : list DedupVerdict) : ∀ (out : list DedupVerdict) (c : verdict_cache),
  Forall (λ e : nat * str, is_Some (pairs !! e.1)) group → length verdicts = length group → length out = length pairs →
  let '(out', c') := foldl settle (out, c) (zip group verdicts) in
  length out' = length pairs ∧ (cache_ok c → cache_ok c') ∧
  ∀ (i : nat) (p : DuplicatePair) (v : DedupVerdict), pairs !! i = Some p → out' !! i = Some v →
    out !! i = Some v ∨ ∃ j : nat, omap (λ e : nat * str, pairs !! e.1) group !! j = Some p ∧ verdicts !! j = Some v.
Proof.
  revert verdicts. induction group as [|[i0 key] group IH]; intros [|v0 verdicts] out c Hall Hl Hout; try done; cbn [zip zip_with foldl].
  { split; [done|]. split; [done|]. intros i p v _ H. by left. }
  inversion_clear Hall as [|? ? [p0 Hp0] Hall']. injection Hl as Hl. cbn [settle fst snd] in *. cbn in Hp0.
  specialize (IH verdicts (<[i0 := v0]> out) (cache_put c key v0) Hall' Hl). rewrite length_insert in IH. specialize (IH Hout).
  fold (zip group verdicts). change (foldl settle (settle (out, c) (i0, key, v0)) (zip group verdicts))
    with (foldl settle (<[i0 := v0]> out, cache_put c key v0) (zip group verdicts)).
  destruct (foldl settle _ _) as [out' c']. destruct IH as (H1 & H2 & H3). split; [done|]. split; [intros; by apply H2, cache_put_ok|].
  intros i p v Hp Hv. destruct (H3 i p v Hp Hv) as [H|(j & Hj & Hvj)].
  - destruct (decide (i = i0)) as [->|Hne].
    + right. exists 0%nat. rewrite list_lookup_insert_eq in H by (rewrite Hout; by eapply lookup_lt_Some). cbn. rewrite Hp0. cbn. by split; congruence.
    + left. by rewrite list_lookup_insert_ne in H.
  - right. exists (S j). cbn. rewrite Hp0. done.
Qed.
Lemma groups_settle (pairs : list DuplicatePair) (groups : list (list (nat * str))) : ∀ (out : list DedupVerdict) (c : verdict_cache) (w : W),
  Forall (Forall (λ e : nat * str, is_Some (pairs !! e.1))) groups → length out = length pairs →
  let '(out', c', _) := judge_groups pairs groups out c w in
  length out' = length pairs ∧ (cache_ok c → cache_ok c') ∧
  ∀ (i : nat) (p : DuplicatePair) (v : DedupVerdict), pairs !! i = Some p → out' !! i = Some v → v ≠ Unknown →
    out !! i = Some v ∨ judged ((λ g : list (nat * str), omap (λ e : nat * str, pairs !! e.1) g) <$> groups) p v.
Proof.
  induction groups as [|group groups IH]; intros out c w Hall Hout; cbn [judge_groups].
  { split; [done|]. split; [done|]. intros i p v _ H _. by left. }
  inversion_clear Hall as [|? ? Hg Hall']. set (batch := omap _ group).
  assert (Hlb : length batch = length group).
  { clear -Hg. unfold batch. induction Hg as [|e g [p Hp] _ IHg]; [done|]. cbn. rewrite Hp. cbn. by f_equal. }
  pose proof (judge_group_length batch w) as Hlen. destruct (judge_group batch w) as [verdicts w'] eqn:Hj. cbn [fst] in Hlen.
  pose proof (settle_list pairs group verdicts out c Hg (eq_trans Hlen Hlb) Hout) as Hs. destruct (foldl settle _ _) as [out1 c1].
  destruct Hs as (H1 & H2 & H3). specialize (IH out1 c1 w' Hall' H1). destruct (judge_groups pairs groups out1 c1 w') as [[out' c'] w''].
  destruct IH as (I1 & I2 & I3). split; [done|]. split; [auto|]. intros i p v Hp Hv Hd.
  destruct (I3 i p v Hp Hv Hd) as [H|(g & wg & vs & j & Hin & Hrest)].
  - destruct (H3 i p v Hp H) as [|(j & Hbj & Hvj)]; [by left|right]. fold batch in Hbj.
    unfold judge_group in Hj. destruct (judge batch w) as [answer wa] eqn:Ha.
    assert (Hnr : verdicts ≠ replicate (length batch) Unknown).
    { intros ->. apply lookup_replicate_1 in Hvj as [-> _]. done. }
    destruct answer as [[vs|e]|]; try by (injection Hj as <- _; destruct Hnr).
    destruct (Nat.eqb_spec (length vs) (length batch)) as [Hl|]; injection Hj as <- _; [|by destruct Hnr].
    exists batch, w, vs, j. rewrite Ha. split; [cbn; left|done].
  - right. exists g, wg, vs, j. split; [cbn; by right|done].
Qed.
Lemma pending_in_range c pairs : Forall (λ e : nat * str, is_Some (pairs !! e.1)) (pending_of c pairs).
Proof.
  apply Forall_forall. intros [i k] Hin. unfold pending_of in Hin. apply list_elem_of_omap in Hin as ([j p] & Hjp & He).
  apply list_elem_of_lookup in Hjp as (n & Hn). rewrite list_lookup_imap in Hn. apply fmap_Some in Hn as (p' & Hp' & [= -> ->]).
  destruct (c !! pair_key p'); [done|]. injection He as <- _. cbn. rewrite Hp'. by eexists.
Qed.
Lemma chunks_forall {A} (P : A → Prop) size : ∀ fuel l, Forall P l → Forall (Forall P) (chunks fuel size l).
Proof.
  induction fuel as [|fuel IH]; intros [|x l] Hl; cbn [chunks]; try constructor; [by apply Forall_take|]. by apply IH, Forall_drop.
Qed.

(** Judging a batch gives one verdict per pair, and a pair is declared the same (or different)
    only on the word of the cache or of the judge: every definite verdict stood in the cache
    under the pair's key, or the judge was asked about a group of at most sixteen that holds the
    pair, answered it one for one, and said so at the pair's place; timeouts, errors and replies
    of the wrong length never count.  The cache keeps definite verdicts only, at most 4096. *)
Theorem definite_verdicts_judged pairs c w :
  let '(out, c', _) := judge_batch pairs c w in
  length out = length pairs ∧ (cache_ok c → cache_ok c') ∧
  Forall (λ g, g ≠ [] ∧ (length g ≤ MAX_PAIRS_PER_CALL)%nat) (groups_of c pairs) ∧
  ∀ (i : nat) (p : DuplicatePair) (v : DedupVerdict), pairs !! i = Some p → out !! i = Some v → v ≠ Unknown → c !! pair_key p = Some v ∨ judged (groups_of c pairs) p v.
Proof.
  unfold judge_batch. set (groups := chunks _ _ _).
  pose proof (groups_settle pairs groups ((λ p, default Unknown (c !! pair_key p)) <$> pairs) c w) as H.
  rewrite length_fmap in H. specialize (H (chunks_forall _ _ _ _ (pending_in_range c pairs)) eq_refl).
  destruct (judge_groups pairs groups _ c w) as [[out c'] w']. destruct H as (H1 & H2 & H3). split; [done|]. split; [done|]. split.
  - unfold groups_of. fold groups. apply Forall_fmap. assert (Hb := chunks_bound MAX_PAIRS_PER_CALL (length (pending_of c pairs)) (pending_of c pairs)).
    assert (Hr := chunks_forall _ MAX_PAIRS_PER_CALL (length (pending_of c pairs)) _ (pending_in_range c pairs)). fold groups in Hb, Hr.
    specialize (Hb ltac:(unfold MAX_PAIRS_PER_CALL; lia)). apply Forall_forall. intros g Hg. rewrite Forall_forall in Hb, Hr.
    destruct (Hb g Hg) as [Hne Hl]. specialize (Hr g Hg). cbn.
    assert (Hlen : length (omap (λ e : nat * str, pairs !! e.1) g) = length g).
    { clear -Hr. induction Hr as [|e g [p Hp] _ IHg]; [done|]. cbn. rewrite Hp. cbn. by f_equal. }
    split; [|lia]. intros Hnil. rewrite Hnil in Hlen. by destruct g.
  - intros i p v Hp Hv Hd. destruct (H3 i p v Hp Hv Hd) as [H|H]; [left|by right].
    rewrite list_lookup_fmap, Hp in H. cbn in H. destruct (c !! pair_key p) as [v'|]; cbn in H; congruence.
Qed.

(** The separators of the cache's key are not kept out of a type or a summary: two pairs that
    differ share one key, whatever the hash, so the second is answered with the first's verdict. *)
Theorem pair_keys_collide n1 n2 a b t s :
  let p x y := {| dp_existing := {| ds_name := n1; ds_type := x; ds_summary := y |}; dp_incoming := {| ds_name := n2; ds_type := t; ds_summary := s |} |} in
  pair_key (p (a ++ 31%N :: b) []) = pair_key (p a (b ++ [31%N])) ∧ p (a ++ 31%N :: b) [] ≠ p a (b ++ [31%N]).
Proof.
  cbv zeta. split.
  - unfold pair_key. do 2 f_equal. f_equal. unfold side_bytes. cbn [dp_existing ds_name ds_type ds_summary].
    rewrite !utf8_app. change (31%N :: b) with ([31%N] ++ b). rewrite !utf8_app. change (utf8 [31%N]) with [31%N]. change (utf8 []) with (@nil N).
    rewrite <- !app_assoc. cbn [app]; done.
  - intros [= H _]. apply (f_equal length) in H. rewrite length_app in H. cbn in H. lia.
Qed.
End adapter.
