(* ===== verification/Search.v ===== *)
(** * Search: fusing ranked lists (core/src/search.rs)

    Floating-point numbers are the class [Floats]; what the proofs need of them is that the scores
    that are summed compare as a total preorder.  The index searches and the row fetches of the
    database are arguments. *)

From S2P Require Import Prelude Text.

Class Floats := {
  F : Type;
  fzero : F;
  fadd : F → F → F;
  rank_share : nat → F;
  one_minus : F → F;
  fle : F → F → bool;
  is_finite : F → bool;
}.
(** The sums of shares are never NaN. *)
Class FloatOrder `{Floats} := {
  is_score : F → Prop;
  score_zero : is_score fzero;
  score_add x rank : is_score x → is_score (fadd x (rank_share rank));
  fle_total x y : is_score x → is_score y → fle x y = false → fle y x = true;
  fle_trans x y z : is_score x → is_score y → is_score z → fle x y = true → fle y z = true → fle x z = true;
}.

Section search.
Context {FL : Floats}.
Abbreviation hits := (list (str * F)).

(** [1.0 / (rank + 60.0)] is [rank_share rank].
    Source: core/src/search.rs 32-38 (rrf_rank) *)
Definition add_share (scores : gmap str F) (rank : nat) (uuid : str) : gmap str F :=
  <[uuid := fadd (default fzero (scores !! uuid)) (rank_share rank)]> scores.
Definition add_list (scores : gmap str F) (l : hits) : gmap str F :=
  foldl (λ s '(rank, (uuid, _)), add_share s rank uuid) scores (imap pair l).
Definition rrf_scores (lists : list hits) : gmap str F := foldl add_list ∅ lists.
(** Higher scores first, then the smaller uuid. *)
Definition ranks_before (a b : str * F) : bool := if fle b.2 a.2 then if fle a.2 b.2 then str_leb a.1 b.1 else true else false.
(** [entries] are the map's entries in whatever order it iterates.
    Source: core/src/search.rs 31-48 (rrf_rank) *)
Definition rrf_rank_of (entries : hits) : hits := sort_by ranks_before entries.
Definition rrf_rank (lists : list hits) : hits := rrf_rank_of (map_to_list (rrf_scores lists)).
(** Source: core/src/search.rs 25-27 (rrf_fuse) *)
Definition rrf_fuse (lists : list hits) : list str := fst <$> rrf_rank lists.
(** Source: core/src/search.rs 53-58 (FusedHit) *)
Record FusedHit := { h_uuid : str; h_score : F; h_raw : list (option F) }.
Definition raw_of (uuid : str) (l : hits) : option F := find_first (λ '(u, raw), if bool_decide (u = uuid) then Some raw else None) l.
(** Source: core/src/search.rs 62-85 (rrf_fuse_scored) *)
Definition rrf_fuse_scored (lists : list hits) : list FusedHit :=
  (λ '(uuid, score), {| h_uuid := uuid; h_score := score; h_raw := raw_of uuid <$> lists |}) <$> rrf_rank lists.
(** Source: core/src/search.rs 90-95 (apply_similarity_floor) *)
Definition apply_similarity_floor (l : hits) (floor : option F) : hits :=
  match floor with None => l | Some f => List.filter (λ e, fle f (one_minus e.2)) l end.
(** Source: core/src/search.rs 103-105 (finite) *)
Definition finite (v : option F) : option F := x ← v; if is_finite x then Some x else None.
(** Source: core/src/search.rs 98-100 (similarity) *)
Definition similarity (distance : option F) : option F := finite (one_minus <$> distance).
Definition rank_in (ranked : list str) (uuid : str) : option nat := find_last (λ '(i, u), if bool_decide (u = uuid) then Some i else None) (imap pair ranked).
(** A row without a rank sorts after every ranked one.
    Source: core/src/search.rs 113-125 (order_by_rank) *)
Definition order_by_rank {T} (uuid_of : T → str) (rows : list T) (ranked_uuids : list str) : list T :=
  let key row := match rank_in ranked_uuids (uuid_of row) with Some i => N.of_nat i | None => u64_max end in
  sort_by (λ a b, (key a <=? key b)%N) rows.

Section scored.
Context {T : Type} (uuid_of : T → str) (fetch : list str → result Error (list T)).
(** Each row takes its evidence out of the map. *)
Fixpoint take_evidence (evidence : gmap str FusedHit) (rows : list T) : list (T * FusedHit) :=
  match rows with
  | [] => []
  | row :: rows =>
      match evidence !! uuid_of row with
      | Some hit => (row, hit) :: take_evidence (delete (uuid_of row) evidence) rows
      | None => take_evidence evidence rows
      end
  end.
Definition evidence_map (fused : list FusedHit) : gmap str FusedHit := foldl (λ m h, <[h_uuid h := h]> m) ∅ fused.
(** What both searches do with their lists.
    Source: core/src/search.rs 253-265 (hybrid_entity_search_scored) *)
Definition scored_rows (lists : list hits) (limit : nat) : result Error (list (T * FusedHit)) :=
  let fused := take limit (rrf_fuse_scored lists) in
  let top_uuids := h_uuid <$> fused in
  match fetch top_uuids with
  | Err e => Err e
  | Ok rows => Ok (take_evidence (evidence_map fused) (order_by_rank uuid_of rows top_uuids))
  end.
End scored.

(** Source: core/src/types.rs 359-366 (EntitySearchEvidence) *)
Record EntitySearchEvidence := { es_score : F; es_text : bool; es_bm25 : option F; es_name : option F; es_summary : option F }.
(** Source: core/src/types.rs 371-376 (EdgeSearchEvidence) *)
Record EdgeSearchEvidence := { eg_score : F; eg_text : bool; eg_bm25 : option F; eg_fact : option F }.
Definition raw_at (hit : FusedHit) (i : nat) : option F := mjoin (h_raw hit !! i).
(** The three index searches and the fetch are arguments.
    Source: core/src/search.rs 203-282 (hybrid_entity_search_scored) *)
Definition hybrid_entity_search_scored {T} (uuid_of : T → str) (fts vec vec_summary : nat → result Error hits) (fetch : list str → result Error (list T))
    (limit : nat) (min_similarity : option F) : result Error (list (T * EntitySearchEvidence)) :=
  let candidate_limit := (limit * 3)%nat in
  let? bm25 := fts candidate_limit in
  let? v := vec candidate_limit in
  let? vs := vec_summary candidate_limit in
  let? scored := scored_rows uuid_of fetch [bm25; apply_similarity_floor v min_similarity; apply_similarity_floor vs min_similarity] limit in
  Ok ((λ '(row, hit), (row, {| es_score := h_score hit; es_text := bool_decide (is_Some (raw_at hit 0)); es_bm25 := finite (raw_at hit 0);
                               es_name := similarity (raw_at hit 1); es_summary := similarity (raw_at hit 2) |})) <$> scored).
(** Source: core/src/search.rs 301-352 (hybrid_edge_search_scored) *)
Definition hybrid_edge_search_scored {T} (uuid_of : T → str) (fts vec : nat → result Error hits) (fetch : list str → result Error (list T))
    (limit : nat) (min_similarity : option F) : result Error (list (T * EdgeSearchEvidence)) :=
  let candidate_limit := (limit * 3)%nat in
  let? bm25 := fts candidate_limit in
  let? v := vec candidate_limit in
  let? scored := scored_rows uuid_of fetch [bm25; apply_similarity_floor v min_similarity] limit in
  Ok ((λ '(row, hit), (row, {| eg_score := h_score hit; eg_text := bool_decide (is_Some (raw_at hit 0)); eg_bm25 := finite (raw_at hit 0);
                               eg_fact := similarity (raw_at hit 1) |})) <$> scored).
(** Distances become scores, then the floor and the limit.
    Source: core/src/search.rs 142-156 (search_passages) *)
Definition search_passages {T} (vec : nat → result Error (list (T * F))) (num_results : nat) (min_score : F) : result Error (list (T * F)) :=
  let? passages := vec (num_results * 3)%nat in
  Ok (take num_results (List.filter (λ p, fle min_score p.2) ((λ p : T * F, (p.1, one_minus p.2)) <$> passages))).
End search.

(** ** Sorting the elements a predicate holds of *)

Section sorting.
Context {A : Type} (P : A → Prop) (le : A → A → bool).
Context (le_total : ∀ x y, P x → P y → le x y = false → le y x = true).
Context (le_trans : ∀ x y z, P x → P y → P z → le x y = true → le y z = true → le x z = true).
Lemma insert_by_sorted_on x l : P x → Forall P l →
  StronglySorted (λ a b, le a b = true) l → StronglySorted (λ a b, le a b = true) (insert_by le x l).
Proof.
  intros Hx. induction 1 as [|y l Hy Hl IH]; simpl; intros Hs; [by repeat constructor|].
  apply StronglySorted_cons in Hs as [Hall Hs]. destruct (le x y) eqn:Hxy.
  - constructor; [by constructor|]. constructor; [done|]. rewrite Forall_forall in *. intros z Hz. eapply (le_trans _ y); auto.
  - constructor; [by apply IH|]. rewrite insert_by_perm. constructor; [auto|done].
Qed.
Lemma sort_by_sorted_on l : Forall P l → StronglySorted (λ a b, le a b = true) (sort_by le l).
Proof.
  induction 1 as [|x l Hx Hl IH]; simpl; [constructor|]. apply insert_by_sorted_on; [done| |done]. by rewrite sort_by_perm.
Qed.
End sorting.
Lemma sorted_perm_unique_on {A} (R : A → A → Prop) (l1 : list A) : ∀ l2 : list A,
  (∀ x y, x ∈ l1 → y ∈ l1 → R x y → R y x → x = y) → StronglySorted R l1 → StronglySorted R l2 → l1 ≡ₚ l2 → l1 = l2.
Proof.
  induction l1 as [|x l1 IH]; intros l2 Hanti H1 H2 Hp; [by apply Permutation_nil_l in Hp|].
  destruct l2 as [|y l2]; [by apply Permutation_nil_r in Hp|].
  apply StronglySorted_cons in H1 as [Hx H1]. apply StronglySorted_cons in H2 as [Hy H2]. rewrite Forall_forall in Hx, Hy.
  assert (x = y) as ->.
  { assert (Hy1 : y ∈ x :: l1) by (rewrite Hp; left). assert (Hx2 : x ∈ y :: l2) by (rewrite <- Hp; left).
    apply elem_of_cons in Hx2 as [->|Hx2]; [done|]. pose proof Hy1 as Hy1'. apply elem_of_cons in Hy1 as [->|Hy1]; [done|].
    apply Hanti; [left|done|by apply Hx|by apply Hy]. }
  f_equal. apply IH; [|done..|by apply Permutation_cons_inv in Hp]. intros a b Ha Hb. apply Hanti; by right.
Qed.

Section laws.
Context {FL : Floats} {FO : @FloatOrder FL}.
Abbreviation hits := (list (str * F)).

(** The places a uuid takes in the lists, and the score they add up to. *)
Definition places (uuid : str) (l : hits) : list nat := omap (λ '(i, (u, _)), if bool_decide (u = uuid) then Some i else None) (imap pair l).
Definition score_of (lists : list hits) (uuid : str) : option F :=
  match concat (places uuid <$> lists) with [] => None | ranks => Some (foldl (λ s r, fadd s (rank_share r)) fzero ranks) end.
Definition add_shares (o : option F) (ranks : list nat) : option F := foldl (λ o r, Some (fadd (default fzero o) (rank_share r))) o ranks.
Lemma add_entries (es : list (nat * (str * F))) : ∀ scores uuid,
  foldl (λ s '(rank, (uuid, _)), add_share s rank uuid) scores es !! uuid
  = add_shares (scores !! uuid) (omap (λ '(i, (u, _)), if bool_decide (u = uuid) then Some i else None) es).
Proof.
  induction es as [|[i [u x]] es IH]; intros scores uuid; [done|]. cbn [foldl omap list_omap]. rewrite IH. unfold add_share.
  case_bool_decide as Hu; cbn; [subst; by rewrite lookup_insert_eq|by rewrite lookup_insert_ne].
Qed.
Lemma add_shares_app o r1 r2 : add_shares o (r1 ++ r2) = add_shares (add_shares o r1) r2.
Proof. apply foldl_app. Qed.
Lemma add_shares_some x ranks : add_shares (Some x) ranks = Some (foldl (λ s r, fadd s (rank_share r)) x ranks).
Proof. revert x. induction ranks as [|r ranks IH]; intros x; [done|]. apply IH. Qed.
Lemma rrf_scores_lookup lists uuid : rrf_scores lists !! uuid = score_of lists uuid.
Proof.
  assert (H : ∀ scores, foldl add_list scores lists !! uuid = add_shares (scores !! uuid) (concat (places uuid <$> lists))).
  { induction lists as [|l lists IH]; intros scores; [done|]. cbn [foldl]. rewrite IH. cbn. rewrite add_shares_app. f_equal. apply add_entries. }
  unfold rrf_scores, score_of. rewrite H, lookup_empty. destruct (concat _) as [|r ranks]; [done|]. exact (add_shares_some (fadd fzero (rank_share r)) ranks).
Qed.
Lemma score_of_is_score lists uuid s : score_of lists uuid = Some s → is_score s.
Proof.
  unfold score_of. assert (H : ∀ ranks x, is_score x → is_score (foldl (λ s r, fadd s (rank_share r)) x ranks)).
  { induction ranks as [|r ranks IH]; intros x Hx; [done|]. by apply IH, score_add. }
  destruct (concat _) as [|r ranks]; [done|]. intros [= <-]. apply (H (r :: ranks)), score_zero.
Qed.
Lemma in_places (u : str) (es : list (nat * (str * F))) :
  omap (λ '(i, (v, _)), if bool_decide (v = u) then Some i else None) es ≠ [] ↔ u ∈ (λ e, e.2.1) <$> es.
Proof.
  induction es as [|[i [v x]] es IH]; cbn; [set_solver|]. rewrite elem_of_cons. case_bool_decide as Hv; cbn; [naive_solver|].
  rewrite IH. naive_solver.
Qed.
Lemma places_nil u l : places u l ≠ [] ↔ u ∈ fst <$> l.
Proof.
  unfold places. rewrite in_places. replace ((λ e : nat * (str * F), e.2.1) <$> imap pair l) with (fst <$> l); [done|].
  apply list_eq. intros i. rewrite !list_lookup_fmap, list_lookup_imap. by destruct (l !! i).
Qed.
Lemma score_of_some lists u : is_Some (score_of lists u) ↔ ∃ l, l ∈ lists ∧ u ∈ fst <$> l.
Proof.
  unfold score_of. assert (H : concat (places u <$> lists) ≠ [] ↔ ∃ l, l ∈ lists ∧ u ∈ fst <$> l).
  { induction lists as [|l lists IH]; cbn; [set_solver|]. setoid_rewrite elem_of_cons. destruct (places u l) as [|r ranks] eqn:Hp.
    - cbn. rewrite IH. assert (u ∉ fst <$> l) by (rewrite <- places_nil; by intros []). naive_solver.
    - assert (u ∈ fst <$> l) by (rewrite <- places_nil; by rewrite Hp). naive_solver. }
  rewrite <- H. destruct (concat _); split; done.
Qed.

Lemma ranks_before_total (a b : str * F) : is_score a.2 → is_score b.2 → ranks_before a b = false → ranks_before b a = true.
Proof.
  unfold ranks_before. intros Ha Hb. destruct (fle b.2 a.2) eqn:H1, (fle a.2 b.2) eqn:H2; intros H; try done; eauto with lcg.
  apply fle_total in H1; [|done..]. congruence.
Qed.
Lemma ranks_before_trans (a b c : str * F) : is_score a.2 → is_score b.2 → is_score c.2 →
  ranks_before a b = true → ranks_before b c = true → ranks_before a c = true.
Proof.
  unfold ranks_before. intros Ha Hb Hc. destruct (fle b.2 a.2) eqn:H1; [|done]. destruct (fle c.2 b.2) eqn:H2; [|done].
  assert (H3 : fle c.2 a.2 = true) by (by eapply (fle_trans _ b.2)). rewrite H3.
  destruct (fle a.2 c.2) eqn:H4; [|done]. assert (H5 : fle a.2 b.2 = true) by (by eapply (fle_trans _ c.2)).
  assert (H6 : fle b.2 c.2 = true) by (by eapply (fle_trans _ a.2)). rewrite H5, H6. apply str_leb_trans.
Qed.
Lemma entries_scores lists (e : str * F) : e ∈ map_to_list (rrf_scores lists) → is_score e.2.
Proof. destruct e as [u s]. rewrite elem_of_map_to_list, rrf_scores_lookup. apply score_of_is_score. Qed.
Lemma rank_sorted lists (entries : hits) : entries ≡ₚ map_to_list (rrf_scores lists) →
  StronglySorted (λ a b, ranks_before a b = true) (rrf_rank_of entries).
Proof.
  intros Hp. apply (sort_by_sorted_on (λ e, is_score e.2)); [intros *; apply ranks_before_total|intros *; apply ranks_before_trans|].
  apply Forall_forall. intros e He. rewrite Hp in He. by eapply entries_scores.
Qed.
Lemma rank_unique lists (entries : hits) : entries ≡ₚ map_to_list (rrf_scores lists) → rrf_rank_of entries = rrf_rank lists.
Proof.
  intros Hp. apply (sorted_perm_unique_on (λ a b, ranks_before a b = true)).
  - intros [u s] [v t] Hx Hy H1 H2. unfold rrf_rank_of in Hx, Hy. rewrite sort_by_perm, Hp, elem_of_map_to_list in Hx, Hy.
    unfold ranks_before in H1, H2. cbn in *. destruct (fle t s); [|done]. destruct (fle s t); [|done].
    assert (u = v) as -> by (by apply str_leb_antisym). congruence.
  - by eapply rank_sorted.
  - by eapply rank_sorted.
  - unfold rrf_rank, rrf_rank_of. by rewrite !sort_by_perm.
Qed.
Lemma rank_nodup lists : NoDup (rrf_fuse lists).
Proof. unfold rrf_fuse, rrf_rank, rrf_rank_of. rewrite sort_by_perm. apply NoDup_fst_map_to_list. Qed.

(** Reciprocal rank fusion gives every uuid of the lists once, with the sum of the shares of
    all its places, by descending score and then by uuid; the order in which the hash map
    iterates never shows. *)
Theorem fusion_ranks lists (entries : hits) : entries ≡ₚ map_to_list (rrf_scores lists) →
  rrf_rank_of entries = rrf_rank lists ∧
  StronglySorted (λ a b, ranks_before a b = true) (rrf_rank lists) ∧
  NoDup (rrf_fuse lists) ∧
  (∀ u, u ∈ rrf_fuse lists ↔ ∃ l, l ∈ lists ∧ u ∈ fst <$> l) ∧
  (∀ u s, (u, s) ∈ rrf_rank lists ↔ score_of lists u = Some s).
Proof.
  intros Hp. split; [by apply rank_unique|]. split; [by apply (rank_sorted lists (map_to_list (rrf_scores lists)))|]. split; [apply rank_nodup|].
  assert (Hin : ∀ u s, (u, s) ∈ rrf_rank lists ↔ score_of lists u = Some s).
  { intros u s. unfold rrf_rank, rrf_rank_of. by rewrite sort_by_perm, elem_of_map_to_list, rrf_scores_lookup. }
  split; [|exact Hin]. intros u. rewrite <- score_of_some. unfold rrf_fuse. rewrite list_elem_of_fmap. split.
  - intros ([u' s] & -> & H%Hin). by eexists.
  - intros [s H%Hin]. by exists (u, s).
Qed.
End laws.

(** ** What a search returns *)

Section returned.
Context {FL : Floats} {T : Type} (uuid_of : T → str).

Definition rank_key (ranked : list str) (row : T) : N := match rank_in ranked (uuid_of row) with Some i => N.of_nat i | None => u64_max end.
Lemma rank_in_spec ranked : NoDup ranked → ∀ i u, ranked !! i = Some u → rank_in ranked u = Some i.
Proof.
  intros Hnd i u Hi. unfold rank_in. rewrite find_last_omap.
  assert (H : ∀ j, j ∈ omap (λ '(i, v), if bool_decide (v = u) then Some i else None) (imap pair ranked) → j = i).
  { intros j ([k v] & Hk & Hj)%list_elem_of_omap. apply list_elem_of_lookup in Hk as (n & Hn). rewrite list_lookup_imap in Hn.
    apply fmap_Some in Hn as (v' & Hv & [= -> ->]). case_bool_decide as Hvu; [|done]. injection Hj as <-. subst v'. by eapply NoDup_lookup. }
  destruct (last _) as [j|] eqn:Hl; [by apply last_Some_elem_of, H in Hl as ->|].
  exfalso. apply last_None in Hl. assert (Hin : i ∈ omap (λ '(i, v), if bool_decide (v = u) then Some i else None) (imap pair ranked)).
  { apply list_elem_of_omap. exists (i, u). split; [|by rewrite bool_decide_eq_true_2]. apply list_elem_of_lookup. exists i. by rewrite list_lookup_imap, Hi. }
  rewrite Hl in Hin. by apply not_elem_of_nil in Hin.
Qed.
Lemma rank_in_none ranked u : u ∉ ranked → rank_in ranked u = None.
Proof.
  intros Hu. unfold rank_in. rewrite find_last_omap. destruct (last _) as [j|] eqn:Hl; [|done].
  apply last_Some_elem_of, list_elem_of_omap in Hl as ([k v] & Hk & Hj). apply list_elem_of_lookup in Hk as (n & Hn).
  rewrite list_lookup_imap in Hn. apply fmap_Some in Hn as (v' & Hv & [= -> ->]). case_bool_decide; [|done]. subst.
  destruct Hu. by eapply list_elem_of_lookup_2.
Qed.
(** Two ranked rows compare as their places. *)
Lemma key_order ranked a u b x : NoDup ranked → (N.of_nat (length ranked) < u64_max)%N → ranked = a ++ u :: b → x ∈ a →
  ∀ r1 r2, uuid_of r1 = u → uuid_of r2 = x → (rank_key ranked r1 <=? rank_key ranked r2)%N = false.
Proof.
  intros Hnd Hl -> Hx r1 r2 H1 H2. apply list_elem_of_lookup in Hx as (i & Hi). pose proof (lookup_lt_Some _ _ _ Hi) as Hlt. unfold rank_key.
  rewrite H1, H2, (rank_in_spec _ Hnd (length a) u) by (rewrite lookup_app_r, Nat.sub_diag; done).
  rewrite (rank_in_spec _ Hnd i x) by (by apply lookup_app_l_Some). apply N.leb_gt. lia.
Qed.
Lemma filter_none {A} (p : A → bool) l : (∀ x, x ∈ l → p x = false) → List.filter p l = [].
Proof. induction l as [|x l IH]; intros H; [done|]. cbn. rewrite H by left. apply IH. intros. apply H. by right. Qed.
Lemma filter_ext_on {A} (p q : A → bool) l : (∀ x, x ∈ l → p x = q x) → List.filter p l = List.filter q l.
Proof. induction l as [|x l IH]; intros H; [done|]. cbn. rewrite H, IH by (intros; apply H; by right) || left. done. Qed.
Definition wanted (m : gmap str FusedHit) (rows : list T) (u : str) : bool := bool_decide (is_Some (m !! u)) && bool_decide (u ∈ uuid_of <$> rows).
Lemma take_evidence_uuids ranked : NoDup ranked → (N.of_nat (length ranked) < u64_max)%N → ∀ rows m,
  (∀ u, is_Some (m !! u) → u ∈ ranked) → StronglySorted (λ a b, (rank_key ranked a <=? rank_key ranked b)%N = true) rows →
  (λ e, uuid_of e.1) <$> take_evidence uuid_of m rows = List.filter (wanted m rows) ranked ∧
  Forall (λ e, e.1 ∈ rows ∧ m !! uuid_of e.1 = Some e.2) (take_evidence uuid_of m rows).
Proof.
  intros Hnd Hl. induction rows as [|row rows IH]; intros m Hdom Hs; cbn [take_evidence].
  - split; [|constructor]. rewrite filter_none; [done|]. intros u _. unfold wanted. rewrite (bool_decide_eq_false_2 (u ∈ _)) by set_solver. by rewrite andb_false_r.
  - apply StronglySorted_cons in Hs as [Hall Hs]. set (u := uuid_of row). destruct (m !! u) as [hit|] eqn:Hm.
    + destruct (IH (delete u m)) as [H1 H2]; [|done|].
      { intros v [h Hv]. rewrite lookup_delete_Some in Hv. apply Hdom. destruct Hv. by eexists. }
      destruct (list_elem_of_split ranked u (Hdom u ltac:(by eexists))) as (a & b & Hab). split.
      * cbn [fmap list_fmap fst]. fold u. rewrite H1. rewrite Hab, !List.filter_app. cbn [List.filter].
        assert (Hna : ∀ x, x ∈ a → x ∉ uuid_of <$> row :: rows).
        { intros x Hx (r & -> & [-> |Hr]%elem_of_cons)%list_elem_of_fmap.
          - fold u in Hx. rewrite Hab in Hnd. apply NoDup_app in Hnd as (_ & Hd & _). eapply Hd; [exact Hx|left].
          - rewrite Forall_forall in Hall. specialize (Hall r Hr). by rewrite (key_order ranked a u b (uuid_of r)) in Hall. }
        rewrite !(filter_none _ a).
        -- assert (Hw : wanted m (row :: rows) u = true) by (unfold wanted; rewrite !bool_decide_eq_true_2; [done|left|by eexists]).
           assert (Hw' : wanted (delete u m) rows u = false) by (unfold wanted; rewrite lookup_delete_eq, bool_decide_eq_false_2; [done|by intros []]).
           rewrite Hw, Hw'. cbn. f_equal. apply filter_ext_on. intros x Hx. assert (x ≠ u).
           { intros ->. rewrite Hab in Hnd. apply NoDup_app in Hnd as (_ & _ & Hnd). by apply NoDup_cons in Hnd as [? _]. }
           unfold wanted. rewrite lookup_delete_ne by done. f_equal. apply bool_decide_ext. cbn. rewrite elem_of_cons. fold u. naive_solver.
        -- intros x Hx. unfold wanted. rewrite (bool_decide_eq_false_2 (x ∈ _)) by (by apply Hna). by rewrite andb_false_r.
        -- intros x Hx. unfold wanted. rewrite (bool_decide_eq_false_2 (x ∈ _)); [by rewrite andb_false_r|]. intros Hin. apply (Hna x Hx). cbn. by right.
      * constructor; [split; [left|done]|]. eapply Forall_impl; [exact H2|]. intros e [He Hd]. split; [by right|]. by apply lookup_delete_Some in Hd as [_ ?].
    + destruct (IH m Hdom Hs) as [H1 H2]. split.
      * rewrite H1. apply filter_ext_on. intros x _. unfold wanted. destruct (decide (x = u)) as [->|Hne].
        -- rewrite Hm. rewrite (bool_decide_eq_false_2 (is_Some None)) by (by intros []). done.
        -- f_equal. apply bool_decide_ext. cbn. rewrite elem_of_cons. fold u. naive_solver.
      * eapply Forall_impl; [exact H2|]. intros e [He Hd]. split; [by right|done].
Qed.
Lemma evidence_lookup (fused : list FusedHit) : NoDup (h_uuid <$> fused) →
  (∀ h, h ∈ fused → evidence_map fused !! h_uuid h = Some h) ∧ (∀ u h, evidence_map fused !! u = Some h → h ∈ fused ∧ h_uuid h = u).
Proof.
  unfold evidence_map. induction fused as [|h fused IH] using rev_ind; intros Hnd; [split; [intros h Hh; by apply not_elem_of_nil in Hh|intros u h Hh; cbn [foldl] in Hh; by rewrite lookup_empty in Hh]|].
  rewrite fmap_app in Hnd. apply NoDup_app in Hnd as (Hnd & Hd & _). destruct (IH Hnd) as [H1 H2]. rewrite foldl_snoc. split.
  - intros x [Hx|Hx]%elem_of_app.
    + rewrite lookup_insert_ne; [by apply H1|]. intros Heq. apply (Hd (h_uuid x)); [by apply list_elem_of_fmap_2|]. rewrite <- Heq. left.
    + apply list_elem_of_singleton in Hx as ->. by rewrite lookup_insert_eq.
  - intros u x. destruct (decide (u = h_uuid h)) as [->|Hne].
    + rewrite lookup_insert_eq. intros [= <-]. split; [|done]. apply elem_of_app. right. left.
    + rewrite lookup_insert_ne by done. intros Hx%H2. destruct Hx. split; [|done]. apply elem_of_app. by left.
Qed.
Lemma fused_uuids lists : h_uuid <$> rrf_fuse_scored lists = rrf_fuse lists.
Proof. unfold rrf_fuse_scored, rrf_fuse. rewrite <- list_fmap_compose. apply list_fmap_ext. by intros i [u x] _. Qed.

(** A search returns, of the fused list's first [limit] uuids, exactly those the database
    still has, in the fused order and each once, every row with the evidence gathered for its own
    uuid: its score, and for each list what the list first said of it. *)
Theorem search_returns_ranked (fetch : list str → result Error (list T)) lists limit rows out :
  (N.of_nat limit < u64_max)%N →
  let top := take limit (rrf_fuse lists) in
  fetch top = Ok rows → scored_rows uuid_of fetch lists limit = Ok out →
  (λ e, uuid_of e.1) <$> out = List.filter (λ u, bool_decide (u ∈ uuid_of <$> rows)) top ∧
  Forall (λ e : T * FusedHit, e.1 ∈ rows ∧ h_uuid e.2 = uuid_of e.1 ∧ (uuid_of e.1, h_score e.2) ∈ rrf_rank lists
                ∧ h_raw e.2 = raw_of (uuid_of e.1) <$> lists) out.
Proof.
  intros Hlim top Hrows Hout. unfold scored_rows in Hout. cbv zeta in Hout. set (fused := take limit (rrf_fuse_scored lists)) in Hout.
  assert (Htop : h_uuid <$> fused = top) by (unfold fused, top; by rewrite <- fused_uuids, fmap_take).
  rewrite Htop, Hrows in Hout. injection Hout as <-.
  assert (Hnd : NoDup top) by (apply (sublist_NoDup _ (rrf_fuse lists)); [apply rank_nodup|apply sublist_take]).
  assert (Hlen : (N.of_nat (length top) < u64_max)%N) by (unfold top; rewrite length_take; lia).
  assert (Hnd' : NoDup (h_uuid <$> fused)) by by rewrite Htop.
  destruct (evidence_lookup fused Hnd') as [He1 He2].
  assert (Hsorted : StronglySorted (λ a b, (rank_key top a <=? rank_key top b)%N = true) (order_by_rank uuid_of rows top)).
  { apply (sort_by_sorted (λ a b, (rank_key top a <=? rank_key top b)%N)).
    - intros x y H%N.leb_gt. apply N.leb_le. lia.
    - intros x y z H1%N.leb_le H2%N.leb_le. apply N.leb_le. lia. }
  destruct (take_evidence_uuids top Hnd Hlen (order_by_rank uuid_of rows top) (evidence_map fused)) as [H1 H2]; [|done|].
  { intros u [h Hh]. apply He2 in Hh as [Hin <-]. rewrite <- Htop. by apply list_elem_of_fmap_2. }
  assert (Hperm : order_by_rank uuid_of rows top ≡ₚ rows) by apply sort_by_perm. split.
  - rewrite H1. apply filter_ext_on. intros u Hu. unfold wanted. rewrite <- Htop in Hu. apply list_elem_of_fmap in Hu as (h & -> & Hh).
    rewrite (He1 h Hh), (bool_decide_eq_true_2 (is_Some _)) by (by eexists). cbn. apply bool_decide_ext. by rewrite Hperm.
  - eapply Forall_impl; [exact H2|]. intros e [Hr He]. rewrite Hperm in Hr. apply He2 in He as [Hin Heq]. split; [done|]. split; [done|].
    assert (Hin' : e.2 ∈ rrf_fuse_scored lists) by (unfold fused in Hin; apply elem_of_take in Hin as (i & Hi & _); by eapply list_elem_of_lookup_2).
    unfold rrf_fuse_scored in Hin'. apply list_elem_of_fmap in Hin' as ([u x] & Hx & Hux). rewrite Hx in Heq |- *. cbn in *. subst u. done.
Qed.
End returned.

(** Integers for floats: a place's share is a million over the place plus sixty. *)
Definition ToyFloats : Floats := {|
  F := Z; fzero := 0%Z; fadd := Z.add; rank_share r := (1000000 / (Z.of_nat r + 60))%Z; one_minus := Z.sub 1; fle := Z.leb; is_finite _ := true |}.
Global Instance ToyFloatOrder : @FloatOrder ToyFloats.
Proof.
  apply (@Build_FloatOrder ToyFloats (λ _, True)); cbn; try done.
  - intros x y _ _ H%Z.leb_gt. apply Z.leb_le. lia.
  - intros x y z _ _ _ H1%Z.leb_le H2%Z.leb_le. apply Z.leb_le. lia.
Defined.
Definition toy_lists : list (list (str * @F ToyFloats)) := [[(#"a", 3%Z); (#"b", 2%Z)]; [(#"b", 0%Z); (#"c", 1%Z)]].
Lemma fusion_ranks_witness : @rrf_fuse ToyFloats toy_lists = [ #"b"; #"a"; #"c"] ∧ NoDup (@rrf_fuse ToyFloats toy_lists).
Proof.
  split; [vm_compute; reflexivity|].
  destruct (@fusion_ranks ToyFloats ToyFloatOrder toy_lists (map_to_list (@rrf_scores ToyFloats toy_lists)) (Permutation_refl _)) as (_ & _ & H & _). exact H.
Defined.
Definition toy_rows : list str := [ #"c"; #"x"; #"b"].
Lemma search_returns_ranked_witness :
  ∃ out, @scored_rows ToyFloats str id (λ _, Ok toy_rows) toy_lists 3 = Ok out ∧ fst <$> out = [ #"b"; #"c"].
Proof.
  destruct (@scored_rows ToyFloats str id (λ _, Ok toy_rows) toy_lists 3) as [out|e] eqn:H.
  - exists out. split; [reflexivity|].
    destruct (@search_returns_ranked ToyFloats str id (λ _, Ok toy_rows) toy_lists 3 toy_rows out ltac:(vm_compute; reflexivity) eq_refl H) as [H1 _].
    transitivity ((λ e : str * FusedHit, id e.1) <$> out); [apply list_fmap_ext; reflexivity|]. rewrite H1. vm_compute. reflexivity.
  - exfalso. vm_compute in H. discriminate H.
Defined.
