(* ===== verification/Corrections.v ===== *)
(** * Corrections: merging an alias into its canonical entity, the alias graph of a corrections
    file, and the leaf type of a label list (core/src/corrections.rs)

    Queries are taken to succeed.  [new_uuid] is the generator of fresh uuids, as a function of
    the graph. *)

From S2P Require Import Prelude Text Numbers Json WalScan Wal LegacyWal Replay Pointer Ontology Prompts Graph CrossGroup CrossGroupTheory.

(** ** Edges of an entity *)

(** One row of an edge as a query returns it. *)
Record EdgeRow := { ew_uuid : str; ew_name : str; ew_src : str; ew_dst : str; ew_group : str; ew_attrs : str; ew_invalid : option str }.
Definition edge_row (r : relnode) (src dst : str) : EdgeRow :=
  {| ew_uuid := rn_uuid r; ew_name := rn_name r; ew_src := src; ew_dst := dst; ew_group := rn_group r; ew_attrs := rn_attrs r; ew_invalid := rn_invalid r |}.
(** The edges out of the entity, then those into it; an edge needs both of its hops.
    Source: core/src/db.rs 3329-3348 (get_full_edges_for_entity) *)
Definition get_full_edges_for_entity (g : graph) (entity_uuid : str) : list EdgeRow :=
  concat ((λ r, if bool_decide (entity_uuid ∈ rn_srcs r) then edge_row r entity_uuid <$> rn_dsts r else []) <$> g_rels g)
  ++ concat ((λ r, if bool_decide (entity_uuid ∈ rn_dsts r) then (λ s, edge_row r s entity_uuid) <$> rn_srcs r else []) <$> g_rels g).
(** ** One alias *)

(** Source: core/src/corrections.rs 136-140 (MergeEdgeCounts) *)
Record MergeEdgeCounts := { mc_rewritten : N; mc_deduped : N; mc_foreign : N }.
Definition no_counts : MergeEdgeCounts := {| mc_rewritten := 0; mc_deduped := 0; mc_foreign := 0 |}.
Definition count_rewritten (c : MergeEdgeCounts) := {| mc_rewritten := mc_rewritten c + 1; mc_deduped := mc_deduped c; mc_foreign := mc_foreign c |}.
Definition count_deduped (c : MergeEdgeCounts) := {| mc_rewritten := mc_rewritten c; mc_deduped := mc_deduped c + 1; mc_foreign := mc_foreign c |}.
Definition count_foreign (c : MergeEdgeCounts) := {| mc_rewritten := mc_rewritten c; mc_deduped := mc_deduped c; mc_foreign := mc_foreign c + 1 |}.

Section merging.
Context (new_uuid : graph → str).

(** One edge of the alias.
    Source: core/src/corrections.rs 920-981 (merge_entities_inner) *)
Definition merge_edge (canonical alias merging_group_id ts : str) (dry_run : bool) (e : EdgeRow) (st : MergeEdgeCounts * graph) : MergeEdgeCounts * graph :=
  let '(counts, g) := st in
  match ew_invalid e with
  | Some _ => st
  | None =>
      if negb (bool_decide (ew_group e = merging_group_id)) then (count_foreign counts, g)
      else
        let new_src := if bool_decide (ew_src e = alias) then canonical else ew_src e in
        let new_dst := if bool_decide (ew_dst e = alias) then canonical else ew_dst e in
        if bool_decide (new_src = new_dst) then (counts, if dry_run then g else invalidate_edge (ew_uuid e) ts g)
        else if has_directed_edge g new_src new_dst (ew_name e) (ew_group e) then
          (count_deduped counts, if dry_run then g else invalidate_edge (ew_uuid e) ts g)
        else
          (count_rewritten counts,
           if dry_run then g
           else invalidate_edge (ew_uuid e) ts (insert_relates_to_edge (new_uuid g) (ew_name e) new_src new_dst (ew_group e) (ew_attrs e) None g))
  end.
(** Source: core/src/corrections.rs 907-984 (merge_entities_inner) *)
Definition merge_entities_inner (canonical alias merging_group_id ts : str) (dry_run : bool) (g : graph) : MergeEdgeCounts * graph :=
  foldl (λ st e, merge_edge canonical alias merging_group_id ts dry_run e st) (no_counts, g) (get_full_edges_for_entity g alias).
(** The alias of a correction: as a merge, without the self-loop check.
    Source: core/src/corrections.rs 551-603 (apply_same_as) *)
Definition same_as_edge (canonical alias canonical_group ts : str) (g : graph) (e : EdgeRow) : graph :=
  match ew_invalid e with
  | Some _ => g
  | None =>
      if negb (bool_decide (ew_group e = canonical_group)) then g
      else
        let new_src := if bool_decide (ew_src e = alias) then canonical else ew_src e in
        let new_dst := if bool_decide (ew_dst e = alias) then canonical else ew_dst e in
        if has_directed_edge g new_src new_dst (ew_name e) (ew_group e) then invalidate_edge (ew_uuid e) ts g
        else invalidate_edge (ew_uuid e) ts (insert_relates_to_edge (new_uuid g) (ew_name e) new_src new_dst (ew_group e) (ew_attrs e) None g)
  end.
Definition same_as_edges (canonical alias canonical_group ts : str) (g : graph) : graph :=
  foldl (same_as_edge canonical alias canonical_group ts) g (get_full_edges_for_entity g alias).
End merging.

(** ** The alias graph of a corrections file *)

(** Source: core/src/corrections.rs 22-41 (CorrectionEntry) *)
Record CorrectionEntry := {
  ce_id : str; ce_type : str; ce_canonical : option str; ce_canonical_uuid : option str; ce_aliases : option (list str);
  ce_edge_uuid : option str; ce_applied_at : option str;
}.
Section cycles.
Context {U : Unicode}.
(** Source: core/src/corrections.rs 249-264 (detect_cycles) *)
Definition alias_graph (entries : list CorrectionEntry) : gmap str str :=
  foldl (λ m entry,
    if bool_decide (to_lowercase (ce_type entry) = #"same_as") then
      let canonical := default (default [] (ce_canonical_uuid entry)) (ce_canonical entry) in
      foldl (λ m alias, <[alias := canonical]> m) m (default [] (ce_aliases entry))
    else m) ∅ entries.
Definition cycle_message (nodes : list str) (next : str) : str := #"Alias cycle: " ++ join #" -> " nodes ++ #" -> " ++ next.
(** [state] is 1 on the current path and 2 when done; the fuel bounds the path.
    Source: core/src/corrections.rs 287-317 (dfs_detect) *)
Fixpoint dfs_detect (fuel : nat) (node : str) (graph : gmap str str) (state : gmap str N) (path : list str) (cycles : list str) : gmap str N * list str :=
  match fuel with
  | O => (state, cycles)
  | S fuel =>
      let state := <[node := 1%N]> state in
      let path := path ++ [node] in
      let '(state, cycles) :=
        match graph !! node with
        | None => (state, cycles)
        | Some next =>
            match default 0%N (state !! next) with
            | 1%N => (state, cycles ++ [cycle_message (drop (default 0%nat (find_first (λ '(i, n), if bool_decide (n = next) then Some i else None) (imap pair path))) path) next])
            | 0%N => dfs_detect fuel next graph state path cycles
            | _ => (state, cycles)
            end
        end in
      (<[node := 2%N]> state, cycles)
  end.
(** [nodes] are the map's keys in the order it iterates.
    Source: core/src/corrections.rs 247-285 (detect_cycles) *)
Definition detect_cycles_in (nodes : list str) (graph : gmap str str) : list str :=
  (foldl (λ st start, let '(state, cycles) := st in
     if (default 0%N (state !! start) =? 0)%N then dfs_detect (S (size graph)) start graph state [] cycles else (state, cycles)) (∅, []) nodes).2.
Definition detect_cycles (entries : list CorrectionEntry) : list str :=
  let graph := alias_graph entries in detect_cycles_in (fst <$> map_to_list graph) graph.
End cycles.

(** ** Leaf types *)

Section leaf.
Context (ancestor_map : gmap str (list str)).
Definition specific_labels (labels : list str) : list str := List.filter (λ l, negb (bool_decide (l = #"Entity"))) labels.
(** Source: core/src/corrections.rs 780-806 (find_leaf_type) *)
Definition find_leaf_type (labels : list str) : option str :=
  let specific := specific_labels labels in
  match List.filter (λ t, negb (existsb (λ other, negb (bool_decide (t = other)) &&
          match ancestor_map !! other with Some anc => bool_decide (t ∈ anc) | None => false end) specific)) specific with
  | [t] => Some t
  | _ => None
  end.
(** Source: core/src/corrections.rs 831-844 (labels_without_kind) *)
Definition labels_without_kind (labels : list str) (kind : str) : list str :=
  List.filter (λ l, negb (bool_decide (l = kind)) && negb match ancestor_map !! kind with Some a => bool_decide (l ∈ a) | None => false end) labels.
(** Source: core/src/corrections.rs 815-828 (find_leaf_type_with_kind) *)
Definition find_leaf_type_with_kind (labels : list str) (kind : str) : option str :=
  match find_leaf_type labels with
  | Some leaf => Some leaf
  | None => if bool_decide (kind = DEFAULT_KIND) then None else find_leaf_type (labels_without_kind labels kind)
  end.
End leaf.
(** Source: core/src/corrections.rs 851-856 (is_off_ontology) *)
Definition is_off_ontology (labels : list str) (type_names : gset str) : bool :=
  existsb (λ l, negb (bool_decide (l ∈ type_names))) (specific_labels labels).

(** ** What a merge does to the graph *)

Definition invalidated (ts : str) (r : relnode) : relnode :=
  {| rn_uuid := rn_uuid r; rn_name := rn_name r; rn_group := rn_group r; rn_attrs := rn_attrs r; rn_invalid := Some ts;
     rn_srcs := rn_srcs r; rn_dsts := rn_dsts r |}.
Definition stepped (ts : str) (S : list str) (r : relnode) : relnode := if bool_decide (rn_uuid r ∈ S) then invalidated ts r else r.
(** A group whose edges have unique uuids and at most one hop on each side, into existing
    entities. *)
Record group_wf (group : str) (g : graph) : Prop := {
  gw_nodup : NoDup (rn_uuid <$> g_rels g);
  gw_src r s : r ∈ g_rels g → rn_group r = group → s ∈ rn_srcs r → rn_srcs r = [s] ∧ has_entity g s = true;
  gw_dst r d : r ∈ g_rels g → rn_group r = group → d ∈ rn_dsts r → rn_dsts r = [d] ∧ has_entity g d = true;
}.
Lemma row_of_edge g alias e : e ∈ get_full_edges_for_entity g alias ↔
  ∃ r, r ∈ g_rels g ∧ e = edge_row r (ew_src e) (ew_dst e) ∧ ew_src e ∈ rn_srcs r ∧ ew_dst e ∈ rn_dsts r ∧ (ew_src e = alias ∨ ew_dst e = alias).
Proof.
  unfold get_full_edges_for_entity. rewrite elem_of_app, !list_elem_of_In, !in_concat. setoid_rewrite <- list_elem_of_In.
  setoid_rewrite list_elem_of_fmap. split.
  - intros [(l & (r & -> & Hr) & He)|(l & (r & -> & Hr) & He)]; case_bool_decide as Ha; try by apply not_elem_of_nil in He.
    + apply list_elem_of_fmap in He as (d & -> & Hd). exists r. cbn. split_and!; auto.
    + apply list_elem_of_fmap in He as (s & -> & Hs). exists r. cbn. split_and!; auto.
  - intros (r & Hr & He & Hs & Hd & [Ha|Ha]).
    + left. eexists; split; [exists r; split; [reflexivity|done]|]. rewrite <- Ha, bool_decide_eq_true_2 by done.
      rewrite He at 1. by apply list_elem_of_fmap_2.
    + right. eexists; split; [exists r; split; [reflexivity|done]|]. rewrite <- Ha, bool_decide_eq_true_2 by done.
      rewrite He at 1. by apply (list_elem_of_fmap_2 (λ s, edge_row r s (ew_dst e))).
Qed.
Lemma nodup_uuid g r r' : NoDup (rn_uuid <$> g_rels g) → r ∈ g_rels g → r' ∈ g_rels g → rn_uuid r = rn_uuid r' → r = r'.
Proof.
  intros Hnd [i Hi]%list_elem_of_lookup [j Hj]%list_elem_of_lookup Heq.
  assert (i = j) as ->; [|congruence]. eapply NoDup_lookup; [exact Hnd| |]; rewrite list_lookup_fmap; [by rewrite Hi|by rewrite Hj, Heq].
Qed.
Lemma has_edge_spec g s d n gid : has_directed_edge g s d n gid = true ↔
  ∃ r, r ∈ g_rels g ∧ s ∈ rn_srcs r ∧ d ∈ rn_dsts r ∧ rn_name r = n ∧ rn_invalid r = None ∧ rn_group r = gid.
Proof.
  unfold has_directed_edge. rewrite existsb_exists. setoid_rewrite <- list_elem_of_In. setoid_rewrite andb_true_iff.
  setoid_rewrite andb_true_iff. setoid_rewrite andb_true_iff. setoid_rewrite andb_true_iff. setoid_rewrite bool_decide_eq_true. naive_solver.
Qed.

Section merged.
Context (new_uuid : graph → str) (Hfresh : ∀ g, new_uuid g ∉ rn_uuid <$> g_rels g).
Context (canonical alias group ts : str) (g0 : graph) (Hne : canonical ≠ alias) (Hwf : group_wf group g0) (Hcan : has_entity g0 canonical = true).

Definition own_live (e : EdgeRow) : Prop := ew_invalid e = None ∧ ew_group e = group.
Definition moved (u : str) : str := if bool_decide (u = alias) then canonical else u.
Lemma moved_ne u : moved u ≠ alias.
Proof. unfold moved. by case_bool_decide. Qed.
(** An edge the merge created. *)
Definition created (r : relnode) : Prop :=
  rn_group r = group ∧ rn_invalid r = None ∧ rn_uuid r ∉ rn_uuid <$> g_rels g0 ∧
  ∃ e, e ∈ get_full_edges_for_entity g0 alias ∧ own_live e ∧ rn_name r = ew_name e ∧ moved (ew_src e) ≠ moved (ew_dst e) ∧
    rn_srcs r = [moved (ew_src e)] ∧ rn_dsts r = [moved (ew_dst e)].
Record merging_inv (done : list EdgeRow) (st : MergeEdgeCounts * graph) (S : list str) (news : list relnode) : Prop := {
  mi_ents : g_ents st.2 = g_ents g0;
  mi_rels : g_rels st.2 = (stepped ts S <$> g_rels g0) ++ news;
  mi_done u : u ∈ S ↔ ∃ e, e ∈ done ∧ own_live e ∧ ew_uuid e = u;
  mi_news : Forall created news;
  mi_kept e : e ∈ done → own_live e → moved (ew_src e) ≠ moved (ew_dst e) →
    has_directed_edge st.2 (moved (ew_src e)) (moved (ew_dst e)) (ew_name e) group = true;
  mi_count : mc_rewritten st.1 = N.of_nat (length news);
  mi_foreign : mc_foreign st.1 = N.of_nat (length (List.filter (λ e, bool_decide (ew_invalid e = None) && negb (bool_decide (ew_group e = group))) done));
  mi_own : (mc_rewritten st.1 + mc_deduped st.1)%N = N.of_nat (length (List.filter (λ e, bool_decide (ew_invalid e = None) && bool_decide (ew_group e = group)
                                                       && negb (bool_decide (moved (ew_src e) = moved (ew_dst e)))) done));
}.
Lemma stepped_uuid S r : rn_uuid (stepped ts S r) = rn_uuid r.
Proof. unfold stepped. by destruct (bool_decide _). Qed.
Lemma stepped_uuids S (l : list relnode) : rn_uuid <$> (stepped ts S <$> l) = rn_uuid <$> l.
Proof. induction l as [|r l IH]; [done|]. cbn. by rewrite stepped_uuid, IH. Qed.
Lemma stepped_none (l : list relnode) : stepped ts [] <$> l = l.
Proof. induction l as [|r l IH]; [done|]. cbn. rewrite IH. unfold stepped. by rewrite bool_decide_eq_false_2 by set_solver. Qed.
(** Invalidating one more of the alias's edges. *)
Lemma invalidate_rels g u S news : g_rels g = (stepped ts S <$> g_rels g0) ++ news → Forall created news → u ∈ rn_uuid <$> g_rels g0 →
  g_rels (invalidate_edge u ts g) = (stepped ts (u :: S) <$> g_rels g0) ++ news.
Proof.
  intros Hr Hn Hu. unfold invalidate_edge. cbn [g_rels edge_mut record_mut on_rel with_rels]. rewrite Hr, fmap_app. f_equal.
  - rewrite <- list_fmap_compose. apply list_fmap_ext. intros i r _. cbn. rewrite stepped_uuid. unfold stepped, invalidated.
    repeat case_bool_decide; try done; set_solver.
  - rewrite map_other; [done|]. intros (r & -> & Hin)%list_elem_of_fmap. rewrite Forall_forall in Hn. by destruct (Hn r Hin) as (_ & _ & ? & _).
Qed.
Lemma row_rel e : e ∈ get_full_edges_for_entity g0 alias → own_live e →
  ∃ r, r ∈ g_rels g0 ∧ rn_uuid r = ew_uuid e ∧ rn_name r = ew_name e ∧ rn_group r = group ∧ rn_srcs r = [ew_src e] ∧ rn_dsts r = [ew_dst e] ∧
    (ew_src e = alias ∨ ew_dst e = alias) ∧ has_entity g0 (ew_src e) = true ∧ has_entity g0 (ew_dst e) = true.
Proof.
  intros (r & Hr & He & Hs & Hd & Ha)%row_of_edge [Hl Hg]. exists r. rewrite He in Hg. cbn in Hg.
  destruct (gw_src _ _ Hwf r _ Hr Hg Hs), (gw_dst _ _ Hwf r _ Hr Hg Hd). split_and!; try done; by rewrite He.
Qed.
(** An edge that matches endpoints other than the alias is none of the alias's own. *)
Lemma match_survives g S news e s d n :
  g_rels g = (stepped ts S <$> g_rels g0) ++ news → Forall created news →
  e ∈ get_full_edges_for_entity g0 alias → own_live e → s ≠ alias → d ≠ alias →
  has_directed_edge g s d n group = true → has_directed_edge (invalidate_edge (ew_uuid e) ts g) s d n group = true.
Proof.
  intros Hr Hn He Hl Hs Hd. rewrite !has_edge_spec. intros (r & Hin & Hrs & Hrd & Hrn & Hri & Hrg).
  destruct (row_rel e He Hl) as (r0 & Hr0 & Hu & _ & _ & Hr0s & Hr0d & Ha & _).
  exists r. split_and!; try done. rewrite (invalidate_rels g _ S news) by (done || (rewrite <- Hu; by apply list_elem_of_fmap_2)).
  rewrite Hr in Hin. apply elem_of_app in Hin as [Hin|Hin]; [|apply elem_of_app; by right].
  apply elem_of_app. left. apply list_elem_of_fmap in Hin as (x & -> & Hx).
  apply list_elem_of_fmap. exists x. split; [|done]. unfold stepped in *. destruct (decide (rn_uuid x ∈ S)) as [Hxs|Hxs].
  - rewrite bool_decide_eq_true_2 in Hri by done. done.
  - rewrite (bool_decide_eq_false_2 (rn_uuid x ∈ S)) in * by done. rewrite bool_decide_eq_false_2; [done|]. rewrite elem_of_cons. intros [Hxu|]; [|done].
    assert (x = r0) as -> by (eapply nodup_uuid; [apply Hwf|done..|congruence]). rewrite Hr0s in Hrs. rewrite Hr0d in Hrd.
    apply list_elem_of_singleton in Hrs, Hrd. naive_solver.
Qed.
Lemma match_appended g g' n s d nm gid : g_rels g' = g_rels g ++ [n] → has_directed_edge g s d nm gid = true → has_directed_edge g' s d nm gid = true.
Proof. rewrite !has_edge_spec. intros Hr (r & Hin & H). exists r. rewrite Hr. split; [apply elem_of_app; by left|done]. Qed.
Lemma done_snoc (done : list EdgeRow) (e : EdgeRow) (S S' : list str) :
  (∀ u, u ∈ S ↔ ∃ x, x ∈ done ∧ own_live x ∧ ew_uuid x = u) →
  (∀ u, u ∈ S' ↔ u ∈ S ∨ own_live e ∧ ew_uuid e = u) →
  ∀ u, u ∈ S' ↔ ∃ x, x ∈ done ++ [e] ∧ own_live x ∧ ew_uuid x = u.
Proof.
  intros HS HS' u. rewrite HS', HS. setoid_rewrite elem_of_app. setoid_rewrite list_elem_of_singleton. naive_solver.
Qed.
Lemma counted (p : EdgeRow → bool) done e : length (List.filter p (done ++ [e])) = (length (List.filter p done) + (if p e then 1 else 0))%nat.
Proof. rewrite List.filter_app, length_app. cbn. by destruct (p e). Qed.

Lemma merge_step done st S news e : merging_inv done st S news → e ∈ get_full_edges_for_entity g0 alias →
  ∃ S' news', merging_inv (done ++ [e]) (merge_edge new_uuid canonical alias group ts false e st) S' news'.
Proof.
  intros Hinv He. pose proof Hinv as [H1 H2 H3 H4 H5 H6 H7 H8]. destruct st as [counts g]. cbn [fst snd] in *. unfold merge_edge.
  assert (Hskip : ∀ c, ¬ own_live e → mc_rewritten c = mc_rewritten counts → mc_deduped c = mc_deduped counts →
    mc_foreign c = (mc_foreign counts + (if bool_decide (ew_invalid e = None) && negb (bool_decide (ew_group e = group)) then 1 else 0))%N →
    merging_inv (done ++ [e]) (c, g) S news).
  { intros c Hno Hc1 Hc2 Hc3. split; cbn [fst snd]; try done.
    - apply (done_snoc _ _ S); [done|]. naive_solver.
    - intros x [Hx| ->%list_elem_of_singleton]%elem_of_app Hlx; [by apply H5|done].
    - by rewrite Hc1.
    - rewrite counted, Hc3, H7. destruct (_ && _); lia.
    - rewrite counted, Hc1, Hc2, H8. assert (Hf : bool_decide (ew_invalid e = None) && bool_decide (ew_group e = group) = false).
      { apply not_true_iff_false. rewrite andb_true_iff, !bool_decide_eq_true. done. } rewrite Hf. cbn. lia. }
  destruct (ew_invalid e) as [t|] eqn:Hinvd.
  { exists S, news. apply Hskip; try done; [by intros [? _]; congruence|]. rewrite bool_decide_eq_false_2 by done. cbn. lia. }
  destruct (decide (ew_group e = group)) as [Hg|Hg].
  2: { rewrite (bool_decide_eq_false_2 (ew_group e = group)) by done. cbn [negb]. exists S, news. apply Hskip; try done; [by intros [_ ?]|].
       rewrite (bool_decide_eq_false_2 (ew_group e = group)), (bool_decide_eq_true_2 (None = None)) by done. cbn. done. }
  clear Hskip. rewrite (bool_decide_eq_true_2 (ew_group e = group)) by done. cbn [negb]. rewrite Hg. fold (moved (ew_src e)) (moved (ew_dst e)).
  assert (Hlive : own_live e) by done. destruct (row_rel e He Hlive) as (r0 & Hr0 & Hu & _ & _ & _ & _ & _ & Hes & Hed).
  assert (Hin : ew_uuid e ∈ rn_uuid <$> g_rels g0) by (rewrite <- Hu; by apply list_elem_of_fmap_2).
  assert (Hfor : mc_foreign counts = N.of_nat (length (List.filter (λ e, bool_decide (ew_invalid e = None) && negb (bool_decide (ew_group e = group))) (done ++ [e])))).
  { rewrite counted, (bool_decide_eq_true_2 (ew_group e = group)), andb_false_r by done. lia. }
  assert (HS : ∀ u, u ∈ ew_uuid e :: S ↔ ∃ x, x ∈ done ++ [e] ∧ own_live x ∧ ew_uuid x = u).
  { apply (done_snoc _ _ S); [done|]. intros u. rewrite elem_of_cons. naive_solver. }
  destruct (decide (moved (ew_src e) = moved (ew_dst e))) as [Hends|Hends].
  { rewrite (bool_decide_eq_true_2 (moved (ew_src e) = _)) by done. exists (ew_uuid e :: S), news. split; cbn [fst snd]; try done.
    - by apply invalidate_rels.
    - intros x [Hx| ->%list_elem_of_singleton]%elem_of_app Hlx Hx'; [|done]. eapply match_survives; eauto using moved_ne.
    - rewrite counted, H8, (bool_decide_eq_true_2 (moved (ew_src e) = _)), andb_false_r by done. lia. }
  rewrite (bool_decide_eq_false_2 (moved (ew_src e) = _)) by done.
  assert (Hown : ∀ n m, (n + m = mc_rewritten counts + mc_deduped counts + 1)%N → (n + m)%N = N.of_nat (length (List.filter
     (λ e, bool_decide (ew_invalid e = None) && bool_decide (ew_group e = group) && negb (bool_decide (moved (ew_src e) = moved (ew_dst e)))) (done ++ [e])))).
  { intros n m ->. rewrite counted, H8, Hinvd, (bool_decide_eq_true_2 (None = None)), (bool_decide_eq_true_2 (ew_group e = group)),
      (bool_decide_eq_false_2 (moved (ew_src e) = _)) by done. cbn. lia. }
  destruct (has_directed_edge g (moved (ew_src e)) (moved (ew_dst e)) (ew_name e) group) eqn:Hdup.
  - exists (ew_uuid e :: S), news. split; cbn [fst snd]; try done.
    + by apply invalidate_rels.
    + intros x [Hx| ->%list_elem_of_singleton]%elem_of_app Hlx Hx'; eapply match_survives; eauto using moved_ne.
    + apply Hown. cbn. lia.
  - set (gi := insert_relates_to_edge _ _ _ _ _ _ _ g).
    assert (Hm : ∀ u, has_entity g0 u = true → has_entity g (moved u) = true).
    { intros u Hu'. unfold moved. case_bool_decide; unfold has_entity, get_entity_by_uuid in *; by rewrite H1. }
    set (node := {| rn_uuid := new_uuid g; rn_name := ew_name e; rn_group := group; rn_attrs := ew_attrs e; rn_invalid := None;
                    rn_srcs := [moved (ew_src e)]; rn_dsts := [moved (ew_dst e)] |}).
    assert (Hgi : g_rels gi = g_rels g ++ [node]).
    { unfold gi, insert_relates_to_edge. cbn [g_rels edge_mut record_mut with_direct with_rels]. by rewrite !Hm by done. }
    assert (Hnode : created node).
    { split_and!; try done; [|by exists e]. cbn. intros Hx. apply (Hfresh g). rewrite H2, fmap_app, elem_of_app. left.
      by rewrite stepped_uuids. }
    assert (Hnews : Forall created (news ++ [node])) by (apply Forall_app; by split; [|constructor]).
    assert (Hri : g_rels gi = (stepped ts S <$> g_rels g0) ++ news ++ [node]) by by rewrite Hgi, H2, <- app_assoc.
    exists (ew_uuid e :: S), (news ++ [node]). split; cbn [fst snd]; try done.
    + by apply invalidate_rels.
    + intros x [Hx| ->%list_elem_of_singleton]%elem_of_app Hlx Hx'; eapply match_survives; eauto using moved_ne.
      * eapply match_appended; [exact Hgi|]. by apply H5.
      * apply has_edge_spec. exists node. rewrite Hgi. split; [apply elem_of_app; right; left|]. cbn. split_and!; try done; left.
    + rewrite length_app. cbn. rewrite H6. lia.
    + apply Hown. cbn. lia.
Qed.
Lemma merge_run : ∃ S news, merging_inv (get_full_edges_for_entity g0 alias) (merge_entities_inner new_uuid canonical alias group ts false g0) S news.
Proof.
  unfold merge_entities_inner. assert (H : ∀ rows done st S news, merging_inv done st S news → (∀ e, e ∈ rows → e ∈ get_full_edges_for_entity g0 alias) →
    ∃ S' news', merging_inv (done ++ rows) (foldl (λ st e, merge_edge new_uuid canonical alias group ts false e st) st rows) S' news').
  { induction rows as [|e rows IH]; intros done st S news Hinv Hrows; [exists S, news; by rewrite app_nil_r|]. cbn [foldl].
    destruct (merge_step done st S news e Hinv) as (S' & news' & Hinv'); [apply Hrows; left|].
    replace (done ++ e :: rows) with ((done ++ [e]) ++ rows) by by rewrite <- app_assoc. eapply IH; [exact Hinv'|]. intros x Hx. apply Hrows. by right. }
  apply (H _ [] _ [] []); [|done]. split; cbn; try done.
  - by rewrite app_nil_r, stepped_none.
  - intros u. split; [by intros ?%not_elem_of_nil|by intros (? & ?%not_elem_of_nil & _)].
  - by intros e ?%not_elem_of_nil.
Qed.

Lemma moved_other u : u ≠ alias → moved u = u.
Proof. intros. unfold moved. by rewrite bool_decide_eq_false_2. Qed.
Lemma moved_has_entity u : has_entity g0 u = true → has_entity g0 (moved u) = true.
Proof. unfold moved. by case_bool_decide. Qed.
(** An edge keeps its row unless it is a live edge of the group at the alias. *)
Lemma step_untouched (S : list str) (r : relnode) :
  (∀ u, u ∈ S ↔ ∃ e, e ∈ get_full_edges_for_entity g0 alias ∧ own_live e ∧ ew_uuid e = u) →
  r ∈ g_rels g0 → (rn_group r ≠ group ∨ (alias ∉ rn_srcs r ∧ alias ∉ rn_dsts r)) → rn_uuid r ∉ S.
Proof.
  intros HS Hr Ho (e & He & Hl & Hu)%HS. destruct (row_rel e He Hl) as (r0 & Hr0 & Hu0 & _ & Hg & Hs & Hd & Ha & _).
  assert (r = r0) as -> by (eapply nodup_uuid; [apply Hwf|done..|congruence]).
  destruct Ho as [?|[H1 H2]]; [done|]. rewrite Hs, list_elem_of_singleton in H1. rewrite Hd, list_elem_of_singleton in H2. naive_solver.
Qed.
Lemma live_row e : e ∈ get_full_edges_for_entity g0 alias → own_live e → has_directed_edge g0 (ew_src e) (ew_dst e) (ew_name e) group = true.
Proof.
  intros (r & Hr & He & Hs & Hd & _)%row_of_edge [Hl Hg]. apply has_edge_spec. exists r. rewrite He in Hl, Hg. cbn in Hl, Hg. split_and!; try done. by rewrite He.
Qed.
(** The group's live facts after a merge are those before it, moved, less those that would join an
    entity to itself. *)
Lemma merge_facts_iff s d n :
  has_directed_edge (merge_entities_inner new_uuid canonical alias group ts false g0).2 s d n group = true ↔
  ∃ s0 d0, has_directed_edge g0 s0 d0 n group = true ∧ s = moved s0 ∧ d = moved d0 ∧ (s ≠ d ∨ (s0 ≠ alias ∧ d0 ≠ alias)).
Proof.
  destruct merge_run as (S & news & [_ H2 H3 H4 H5 _ _ _]). rewrite Forall_forall in H4.
  set (g := (merge_entities_inner new_uuid canonical alias group ts false g0).2) in *. split.
  - rewrite has_edge_spec, H2. intros (r & [Hr|Hr]%elem_of_app & Hs & Hd & Hn & Hi & Hg).
    + apply list_elem_of_fmap in Hr as (x & -> & Hx). unfold stepped in *. destruct (decide (rn_uuid x ∈ S)) as [Hu|Hu].
      { by rewrite bool_decide_eq_true_2 in Hi. }
      rewrite bool_decide_eq_false_2 in * by done.
      assert (s ≠ alias ∧ d ≠ alias) as [Hsa Hda].
      { split; intros ->; apply Hu, H3; (exists (edge_row x s d) || exists (edge_row x alias d) || exists (edge_row x s alias)); split; try done; apply row_of_edge; exists x; naive_solver. }
      exists s, d. rewrite !moved_other by done. split; [|by auto]. apply has_edge_spec. by exists x.
    + destruct (H4 r Hr) as (_ & _ & _ & e & He & Hl & Hne' & Hm & Hrs & Hrd). rewrite Hrs, list_elem_of_singleton in Hs. rewrite Hrd, list_elem_of_singleton in Hd.
      exists (ew_src e), (ew_dst e). subst s d. split; [|by auto]. rewrite <- Hn, Hne'. by apply live_row.
  - intros (s0 & d0 & Hf & -> & -> & Hor). destruct (decide (s0 ≠ alias ∧ d0 ≠ alias)) as [[Hsa Hda]|Hal].
    + rewrite !moved_other by done. apply has_edge_spec in Hf as (r & Hr & Hs & Hd & Hn & Hi & Hg).
      destruct (gw_src _ _ Hwf r _ Hr Hg Hs) as [Hss _], (gw_dst _ _ Hwf r _ Hr Hg Hd) as [Hdd _].
      assert (rn_uuid r ∉ S) as Hu.
      { apply step_untouched; [done|done|]. right. rewrite Hss, Hdd, !list_elem_of_singleton. split; congruence. }
      apply has_edge_spec. exists r. split; [|done]. rewrite H2. apply elem_of_app. left. apply list_elem_of_fmap. exists r.
      split; [|done]. unfold stepped. by rewrite bool_decide_eq_false_2.
    + assert (moved s0 ≠ moved d0) as Hm by (destruct Hor; [done|contradiction]).
      apply has_edge_spec in Hf as (r & Hr & Hs & Hd & Hn & Hi & Hg). rewrite <- Hn.
      apply (H5 (edge_row r s0 d0)); [|by split|done]. apply row_of_edge. exists r. split_and!; try done. cbn.
      destruct (decide (s0 = alias)); [by left|]. destruct (decide (d0 = alias)); [by right|]. by destruct Hal.
Qed.
Lemma invalidate_uuids u t g : rn_uuid <$> g_rels (invalidate_edge u t g) = rn_uuid <$> g_rels g.
Proof.
  unfold invalidate_edge. cbn [g_rels edge_mut record_mut on_rel with_rels]. rewrite <- list_fmap_compose. apply list_fmap_ext.
  intros i r _. cbn. by case_bool_decide.
Qed.
Lemma merge_uuids : NoDup (rn_uuid <$> g_rels (merge_entities_inner new_uuid canonical alias group ts false g0).2).
Proof.
  unfold merge_entities_inner. assert (NoDup (rn_uuid <$> g_rels (no_counts, g0).2)) as H by apply Hwf. revert H.
  generalize (no_counts, g0). induction (get_full_edges_for_entity g0 alias) as [|e rows IH]; intros [c g] H; [done|]. cbn [foldl]. apply IH.
  unfold merge_edge. cbn [snd] in H. destruct (ew_invalid e); [done|]. destruct (negb _); [done|]. cbv zeta. case_bool_decide; [cbn [snd]; by rewrite invalidate_uuids|].
  destruct (has_directed_edge _ _ _ _ _); cbn [snd]; rewrite invalidate_uuids; [done|].
  unfold insert_relates_to_edge. cbn [g_rels edge_mut record_mut with_direct with_rels]. rewrite fmap_app. apply NoDup_app. split; [done|].
  split; [|apply NoDup_singleton]. intros u Hu ->%list_elem_of_singleton. by destruct (Hfresh g).
Qed.
(** A merge keeps a group well formed. *)
Lemma merge_keeps_wf : group_wf group (merge_entities_inner new_uuid canonical alias group ts false g0).2.
Proof.
  pose proof merge_uuids as Hnd. destruct merge_run as (S & news & [H1 H2 _ H4 _ _ _ _]). rewrite Forall_forall in H4.
  set (g := (merge_entities_inner new_uuid canonical alias group ts false g0).2) in *.
  assert (∀ u, has_entity g u = has_entity g0 u) as Hh by (intros u; unfold has_entity, get_entity_by_uuid; by rewrite H1).
  assert (∀ r, r ∈ g_rels g → rn_group r = group → (∃ x, x ∈ g_rels g0 ∧ rn_srcs r = rn_srcs x ∧ rn_dsts r = rn_dsts x ∧ rn_group x = group) ∨ created r) as Hr.
  { intros r Hr Hg. rewrite H2 in Hr. apply elem_of_app in Hr as [Hr|Hr]; [left|right; by apply H4].
    apply list_elem_of_fmap in Hr as (x & -> & Hx). exists x. unfold stepped in *. by case_bool_decide. }
  split; [done|..].
  - intros r s Hin Hg Hs. rewrite Hh. destruct (Hr r Hin Hg) as [(x & Hx & Hss & _ & Hxg)|(_ & _ & _ & e & He & Hl & _ & _ & Hss & _)].
    + rewrite Hss in *. by apply (gw_src _ _ Hwf x).
    + rewrite Hss in *. apply list_elem_of_singleton in Hs as ->. split; [done|]. destruct (row_rel e He Hl) as (_ & _ & _ & _ & _ & _ & _ & _ & H & _). by apply moved_has_entity.
  - intros r d Hin Hg Hd. rewrite Hh. destruct (Hr r Hin Hg) as [(x & Hx & _ & Hdd & Hxg)|(_ & _ & _ & e & He & Hl & _ & _ & _ & Hdd)].
    + rewrite Hdd in *. by apply (gw_dst _ _ Hwf x).
    + rewrite Hdd in *. apply list_elem_of_singleton in Hd as ->. split; [done|]. destruct (row_rel e He Hl) as (_ & _ & _ & _ & _ & _ & _ & _ & _ & H). by apply moved_has_entity.
Qed.
(** Entities, and the edges of other groups, are as they were. *)
Lemma merge_frame : let g := (merge_entities_inner new_uuid canonical alias group ts false g0).2 in
  g_ents g = g_ents g0 ∧ ∀ r, rn_group r ≠ group → r ∈ g_rels g ↔ r ∈ g_rels g0.
Proof.
  destruct merge_run as (S & news & [H1 H2 H3 H4 _ _ _ _]). rewrite Forall_forall in H4. cbv zeta. split; [done|]. intros r Hg. rewrite H2, elem_of_app. split.
  - intros [Hr|Hr]; [|by destruct (H4 r Hr)]. apply list_elem_of_fmap in Hr as (x & -> & Hx). unfold stepped in *. case_bool_decide as Hu; [|done].
    destruct (step_untouched S x H3 Hx); [by left|done].
  - intros Hr. left. apply list_elem_of_fmap. exists r. split; [|done]. unfold stepped. rewrite bool_decide_eq_false_2; [done|]. by apply step_untouched; [..|left].
Qed.
(** Merging an alias moves its own group's facts to the canonical entity and touches nothing
    else: afterwards no live edge of the group has the alias as an endpoint, every fact the alias
    had between two different entities stands between the moved endpoints, entities, other
    groups' edges and the group's edges away from the alias are as they were, and the counts are
    right: one new edge per rewrite, one rewrite or duplicate per moved fact, and the live edges
    of other groups skipped. *)
Theorem merge_moves_facts :
  let '(counts, g) := merge_entities_inner new_uuid canonical alias group ts false g0 in
  (∀ r, r ∈ g_rels g → rn_group r = group → rn_invalid r = None → rn_srcs r ≠ [] → rn_dsts r ≠ [] → alias ∉ rn_srcs r ∧ alias ∉ rn_dsts r) ∧
  (∀ e, e ∈ get_full_edges_for_entity g0 alias → own_live e → moved (ew_src e) ≠ moved (ew_dst e) →
     has_directed_edge g (moved (ew_src e)) (moved (ew_dst e)) (ew_name e) group = true) ∧
  g_ents g = g_ents g0 ∧
  (∀ r, rn_group r ≠ group → r ∈ g_rels g ↔ r ∈ g_rels g0) ∧
  (∀ r, r ∈ g_rels g0 → alias ∉ rn_srcs r → alias ∉ rn_dsts r → r ∈ g_rels g) ∧
  N.of_nat (length (g_rels g)) = (N.of_nat (length (g_rels g0)) + mc_rewritten counts)%N ∧
  mc_foreign counts = N.of_nat (length (List.filter (λ e, bool_decide (ew_invalid e = None) && negb (bool_decide (ew_group e = group)))
                                          (get_full_edges_for_entity g0 alias))).
Proof.
  destruct merge_run as (S & news & [H1 H2 H3 H4 H5 H6 H7 _]). destruct (merge_entities_inner _ _ _ _ _ _ _) as [counts g]. cbn [fst snd] in *.
  rewrite Forall_forall in H4.
  assert (Hold : ∀ r, r ∈ g_rels g0 → rn_uuid r ∈ S → rn_group r = group ∧ (alias ∈ rn_srcs r ∨ alias ∈ rn_dsts r)).
  { intros r Hr (e & He & Hl & Hu)%H3. destruct (row_rel e He Hl) as (r0 & Hr0 & Hu0 & _ & Hg & Hs & Hd & Ha & _).
    assert (r = r0) as -> by (eapply nodup_uuid; [apply Hwf|done..|congruence]). rewrite Hs, Hd, !list_elem_of_singleton. naive_solver. }
  assert (Hsame : ∀ r, r ∈ g_rels g0 → rn_uuid r ∉ S → r ∈ g_rels g).
  { intros r Hr Hu. rewrite H2. apply elem_of_app. left. apply list_elem_of_fmap. exists r. split; [|done]. unfold stepped. by rewrite bool_decide_eq_false_2. }
  split_and!; try done.
  - intros r Hr Hg Hi Hs Hd. rewrite H2 in Hr. apply elem_of_app in Hr as [Hr|Hr].
    2: { destruct (H4 r Hr) as (_ & _ & _ & e & _ & _ & _ & _ & -> & ->). rewrite !list_elem_of_singleton. split; intros Hx; by destruct (moved_ne _ (eq_sym Hx)). }
    apply list_elem_of_fmap in Hr as (x & -> & Hx). unfold stepped in *. destruct (decide (rn_uuid x ∈ S)) as [Hu|Hu].
    { by rewrite bool_decide_eq_true_2 in Hi. }
    rewrite bool_decide_eq_false_2 in * by done.
    assert (Hno : ∀ s d, s ∈ rn_srcs x → d ∈ rn_dsts x → s = alias ∨ d = alias → False).
    { intros s d Hxs Hxd Ha. apply Hu, H3. exists (edge_row x s d). split; [|done]. apply row_of_edge. exists x. done. }
    destruct (rn_srcs x) as [|s ss] eqn:Hss; [done|]. destruct (rn_dsts x) as [|d ds] eqn:Hdd; [done|]. split; intros Ha.
    + apply (Hno alias d); [done|left|by left].
    + apply (Hno s alias); [left|done|by right].
  - intros r Hg. split; [|intros Hr; apply Hsame; [done|]; intros Hu; by destruct (Hold r Hr Hu)].
    rewrite H2. intros [Hr|Hr]%elem_of_app; [|by destruct (H4 r Hr)]. apply list_elem_of_fmap in Hr as (x & -> & Hx).
    unfold stepped in *. case_bool_decide as Hu; [|done]. by destruct (Hold x Hx Hu).
  - intros r Hr Hs Hd. apply Hsame; [done|]. intros Hu. destruct (Hold r Hr Hu) as [_ [?|?]]; done.
  - rewrite H2, length_app, length_fmap, H6. lia.
Qed.
End merged.

(** ** Concrete merges *)

Definition longer_uuid (g : graph) : str := concat (rn_uuid <$> g_rels g) ++ #"x".
Lemma longer_fresh g : longer_uuid g ∉ rn_uuid <$> g_rels g.
Proof.
  unfold longer_uuid. intros Hin. assert (H : ∀ (l : list str) x, x ∈ l → (length x ≤ length (concat l))%nat).
  { induction l as [|y l IH]; intros x Hx; [by apply not_elem_of_nil in Hx|]. cbn. rewrite length_app. apply elem_of_cons in Hx as [->|Hx]; [lia|]. specialize (IH x Hx). lia. }
  specialize (H _ _ Hin). rewrite length_app in H. cbn in H. lia.
Qed.
Definition merge_ent (u : string) : ent :=
  {| en_uuid := lit u; en_name := lit u; en_group := #"g"; en_labels := [ #"Entity"]; en_kind := None; en_key := None; en_created := 0; en_attrs := [] |}.
Definition merge_rel (u s n d g : string) : relnode :=
  {| rn_uuid := lit u; rn_name := lit n; rn_group := lit g; rn_attrs := []; rn_invalid := None; rn_srcs := [lit s]; rn_dsts := [lit d] |}.
Definition merge_graph (rels : list relnode) : graph :=
  {| g_ents := [merge_ent "can"; merge_ent "ali"; merge_ent "bob"]; g_eps := []; g_rels := rels; g_direct := []; g_kinds := []; g_scans := 0; g_pending := [] |}.
(** Two facts that become one, and another group's edge. *)
Definition merge_toy : graph := merge_graph [merge_rel "e1" "ali" "KNOWS" "bob" "g"; merge_rel "e2" "ali" "KNOWS" "bob" "g"; merge_rel "e3" "ali" "KNOWS" "bob" "h"].
Lemma merge_toy_wf : group_wf #"g" merge_toy.
Proof.
  assert (H : Forall (λ r, Forall (λ s, rn_srcs r = [s] ∧ has_entity merge_toy s = true) (rn_srcs r)
                         ∧ Forall (λ d, rn_dsts r = [d] ∧ has_entity merge_toy d = true) (rn_dsts r)) (g_rels merge_toy)).
  { repeat constructor. }
  rewrite Forall_forall in H. setoid_rewrite Forall_forall in H.
  split; [apply (bool_decide_unpack _); vm_compute; exact I|intros r s Hr _ Hs; by apply (H r Hr)..].
Qed.
Lemma merge_moves_facts_witness :
  N.of_nat (length (g_rels (merge_entities_inner longer_uuid #"can" #"ali" #"g" #"now" false merge_toy).2)) = 4%N.
Proof.
  pose proof (merge_moves_facts longer_uuid longer_fresh #"can" #"ali" #"g" #"now" merge_toy ltac:(discriminate) merge_toy_wf eq_refl) as H.
  destruct (merge_entities_inner longer_uuid #"can" #"ali" #"g" #"now" false merge_toy) as [counts g] eqn:Hm.
  destruct H as (_ & _ & _ & _ & _ & H & _). cbn [snd]. rewrite H.
  assert (Hc : counts = fst (merge_entities_inner longer_uuid #"can" #"ali" #"g" #"now" false merge_toy)) by (rewrite Hm; reflexivity).
  rewrite Hc. vm_compute. reflexivity.
Defined.

(** A dry run does not foresee what the merge itself creates: where the alias has the same
    fact twice, the plan counts two rewrites and no duplicate, and the merge it plans makes one
    rewrite and collapses one duplicate. *)
Theorem dry_run_overcounts :
  (merge_entities_inner longer_uuid #"can" #"ali" #"g" #"now" true merge_toy).1 = {| mc_rewritten := 2; mc_deduped := 0; mc_foreign := 1 |} ∧
  (merge_entities_inner longer_uuid #"can" #"ali" #"g" #"now" false merge_toy).1 = {| mc_rewritten := 1; mc_deduped := 1; mc_foreign := 1 |}.
Proof. split; vm_compute; reflexivity. Qed.

(** Applying a corrections file keeps what a merge drops: an edge between the alias and the
    canonical entity becomes a live edge from the canonical entity to itself. *)
Theorem same_as_leaves_self_loop :
  let g := merge_graph [merge_rel "e1" "ali" "KNOWS" "can" "g"] in
  has_directed_edge (same_as_edges longer_uuid #"can" #"ali" #"g" #"now" g) #"can" #"can" #"KNOWS" #"g" = true ∧
  has_directed_edge (merge_entities_inner longer_uuid #"can" #"ali" #"g" #"now" false g).2 #"can" #"can" #"KNOWS" #"g" = false.
Proof. split; vm_compute; reflexivity. Qed.
