(* ===== verification/CorrectionsCycles.v ===== *)
(** * CorrectionsCycles: what the cycle check of a corrections file finds (core/src/corrections.rs) *)

From S2P Require Import Prelude Text Pointer Ontology Prompts Graph Corrections.

Section dfs.
Context (graph : gmap str str).

(** The node [k] steps along. *)
Fixpoint walk (k : nat) (n : str) : option str := match k with O => Some n | S k => next ← graph !! n; walk k next end.
Definition ends (n : str) : Prop := ∃ k, walk k n = None.
Definition on_cycle (n : str) : Prop := ∃ k, walk (S k) n = Some n.

Lemma walk_add j k n : walk (j + k) n = m ← walk j n; walk k m.
Proof. revert n. induction j as [|j IH]; intros n; [done|]. cbn. destruct (graph !! n); [apply IH|done]. Qed.
Lemma ends_next n m : graph !! n = Some m → ends m → ends n.
Proof. intros Hn [k Hk]. exists (S k). cbn. by rewrite Hn. Qed.
Lemma walk_none_mono j k n : walk j n = None → (j ≤ k)%nat → walk k n = None.
Proof. intros Hj Hle. replace k with (j + (k - j))%nat by lia. by rewrite walk_add, Hj. Qed.
Lemma cycle_never_ends n : on_cycle n → ¬ ends n.
Proof.
  intros [k Hk] [j Hj]. assert (Hm : ∀ m, walk (m * S k) n = Some n).
  { induction m as [|m IH]; [done|]. replace (S m * S k)%nat with (S k + m * S k)%nat by lia. rewrite walk_add, Hk. exact IH. }
  specialize (Hm j). rewrite (walk_none_mono j (j * S k) n Hj) in Hm by lia. done.
Qed.

(** The current path: distinct declared aliases, each leading to the next one. *)
Record on_path (path : list str) (node : str) : Prop := {
  op_nodup : NoDup path;
  op_dom x : x ∈ path → is_Some (graph !! x);
  op_step i x : path !! i = Some x → graph !! x = Some (default node (path !! S i));
}.
Lemma path_walk path node : on_path path node → ∀ j i x, (i + j ≤ length path)%nat → path !! i = Some x → walk j x = Some (default node (path !! (i + j)%nat)).
Proof.
  intros [_ _ Hs]. induction j as [|j IH]; intros i x Hl Hx; cbn [walk]; [by rewrite Nat.add_0_r, Hx|].
  rewrite (Hs _ _ Hx). cbn. destruct (path !! S i) as [y|] eqn:Hy; cbn.
  - rewrite (IH (S i) y) by (done || lia). do 2 f_equal. f_equal. lia.
  - apply lookup_ge_None in Hy. assert (j = 0)%nat as -> by (apply lookup_lt_Some in Hx; lia). cbn.
    rewrite lookup_ge_None_2 by lia. done.
Qed.
Lemma path_short path node : on_path path node → (length path ≤ size graph)%nat.
Proof.
  intros [Hnd Hd _]. rewrite <- (size_dom graph), <- (size_list_to_set (C := gset str) path) by done. apply subseteq_size.
  intros x Hx. rewrite elem_of_list_to_set in Hx. apply elem_of_dom. by apply Hd.
Qed.
Record marks (state : gmap str N) (path : list str) (cycles : list str) : Prop := {
  mk_vals x v : state !! x = Some v → v = 1%N ∨ v = 2%N;
  mk_path x : state !! x = Some 1%N ↔ x ∈ path;
  mk_done x : cycles = [] → state !! x = Some 2%N → ends x;
}.
Lemma on_path_snoc path node next : on_path path node → node ∉ path → graph !! node = Some next → on_path (path ++ [node]) next.
Proof.
  intros [Hnd Hd Hs] Hn Hg. split.
  - apply NoDup_app. split; [done|]. split; [|apply NoDup_singleton]. intros x Hx ->%list_elem_of_singleton. done.
  - intros x [Hx| ->%list_elem_of_singleton]%elem_of_app; [by apply Hd|by rewrite Hg].
  - intros i x [Hx|[Hge Hx]]%lookup_app_Some.
    + rewrite (Hs _ _ Hx). f_equal. destruct (path !! S i) as [y|] eqn:Hy; [by rewrite (lookup_app_l_Some _ _ _ _ Hy)|].
      apply lookup_ge_None in Hy. pose proof (lookup_lt_Some _ _ _ Hx) as Hl. rewrite lookup_app_r by exact Hy.
      assert ((S i - length path)%nat = 0%nat) as -> by lia. done.
    + apply list_lookup_singleton_Some in Hx as [Hi <-]. rewrite Hg. f_equal. rewrite lookup_ge_None_2; [done|]. rewrite length_app. cbn. lia.
Qed.

Lemma dfs_spec fuel : ∀ node state path cycles,
  on_path path node → marks state path cycles → default 0%N (state !! node) = 0%N → (S (size graph) ≤ fuel + length path)%nat →
  let '(state', cycles') := dfs_detect fuel node graph state path cycles in
  marks state' path cycles' ∧ state' !! node = Some 2%N ∧ (∀ x, state !! x = Some 2%N → state' !! x = Some 2%N) ∧
  (∃ more, cycles' = cycles ++ more ∧ (more = [] ∨ ∃ x, on_cycle x)).
Proof.
  induction fuel as [|fuel IH]; intros node state path cycles Hp Hm H0 Hf; cbn [dfs_detect].
  { pose proof (path_short _ _ Hp). cbn in Hf. lia. }
  assert (Hn : node ∉ path). { rewrite <- (mk_path _ _ _ Hm). intros Hx. rewrite Hx in H0. done. }
  assert (H2 : state !! node ≠ Some 2%N) by (intros Hx; rewrite Hx in H0; done).
  set (state1 := <[node := 1%N]> state). set (path1 := path ++ [node]).
  assert (Hm1 : marks state1 path1 cycles).
  { destruct Hm as [Hv Hpa Hd]. split; unfold state1, path1.
    - intros x v [[_ <-]|[_ Hx]]%lookup_insert_Some; [by left|by eapply Hv].
    - intros x. rewrite lookup_insert_Some, elem_of_app, list_elem_of_singleton, <- Hpa. destruct (decide (node = x)); naive_solver.
    - intros x Hc [[_ ?]|[_ Hx]]%lookup_insert_Some; [done|by apply Hd]. }
  (** Leaving the node: everything it leads to is done. *)
  assert (Hleave : ∀ st more, marks st path1 (cycles ++ more) → (∀ x, state1 !! x = Some 2%N → st !! x = Some 2%N) →
    (more = [] ∨ ∃ x, on_cycle x) → (cycles ++ more = [] → ends node) →
    marks (<[node := 2%N]> st) path (cycles ++ more) ∧ <[node := 2%N]> st !! node = Some 2%N ∧ (∀ x, state !! x = Some 2%N → <[node := 2%N]> st !! x = Some 2%N) ∧
    (∃ more', cycles ++ more = cycles ++ more' ∧ (more' = [] ∨ ∃ x, on_cycle x))).
  { intros st more [Hv Hpa Hd] Hk Hcy He. split; [|split; [apply lookup_insert_eq|split; [|by exists more]]].
    - split.
      + intros x v [[_ <-]|[_ Hx]]%lookup_insert_Some; [by right|by eapply Hv].
      + intros x. rewrite lookup_insert_Some, Hpa. unfold path1. rewrite elem_of_app, list_elem_of_singleton. split; [naive_solver|].
        intros Hx. right. split; [intros ->; done|by left].
      + intros x Hc [[<- _]|[_ Hx]]%lookup_insert_Some; [by apply He|by apply Hd].
    - intros x Hx. destruct (decide (x = node)) as [->|Hne]; [done|]. rewrite lookup_insert_ne by done. apply Hk.
      unfold state1. by rewrite lookup_insert_ne. }
  assert (Hleave0 := Hleave state1 []). rewrite app_nil_r in Hleave0. specialize (λ He, Hleave0 Hm1 (λ x Hx, Hx) (or_introl eq_refl) He) as Hsame.
  destruct (graph !! node) as [next|] eqn:Hg.
  - assert (Hp1 : on_path path1 next) by by apply on_path_snoc.
    destruct (default 0%N (state1 !! next)) as [|[q|q|]] eqn:Hs.
    + specialize (IH next state1 path1 cycles Hp1 Hm1 Hs). destruct (dfs_detect fuel next graph state1 path1 cycles) as [st cy].
      destruct IH as (I1 & I2 & I3 & more & -> & I4); [unfold path1; rewrite length_app; cbn; lia|]. apply Hleave; [done..|].
      intros Hc. apply (ends_next _ next Hg). by apply (mk_done _ _ _ I1).
    + exfalso. destruct (state1 !! next) as [v|] eqn:Hx; [|done]. destruct (mk_vals _ _ _ Hm1 _ _ Hx) as [-> | ->]; done.
    + apply Hsame. intros Hc. apply (ends_next _ next Hg).
      apply (mk_done _ _ _ Hm1); [done|]. destruct (state1 !! next) as [v|] eqn:Hx; [|done]. destruct (mk_vals _ _ _ Hm1 _ _ Hx) as [-> | ->]; done.
    + assert (Hin : next ∈ path1). { apply (mk_path _ _ _ Hm1). destruct (state1 !! next) as [v|] eqn:Hx; [|done]. cbn in Hs. by rewrite Hs. }
      assert (Hcyc : on_cycle next).
      { apply list_elem_of_lookup in Hin as [i Hi]. pose proof (lookup_lt_Some _ _ _ Hi) as Hlt. exists (length path1 - S i)%nat.
        rewrite (path_walk _ _ Hp1 _ i next) by (done || lia). rewrite lookup_ge_None_2 by lia. done. }
      apply Hleave; [|done|right; by exists next|by intros []%app_nil].
      destruct Hm1 as [Hv Hpa Hd]. split; [done..|]. by intros x []%app_nil.
  - apply Hsame. intros _. exists 1%nat. cbn. by rewrite Hg.
Qed.
Lemma detect_run nodes : ∀ state cycles, marks state [] cycles → (cycles ≠ [] → ∃ x, on_cycle x) →
  let '(state', cycles') := foldl (λ st start, let '(state, cycles) := st in
     if (default 0%N (state !! start) =? 0)%N then dfs_detect (S (size graph)) start graph state [] cycles else (state, cycles)) (state, cycles) nodes in
  marks state' [] cycles' ∧ (cycles' ≠ [] → ∃ x, on_cycle x) ∧ (∀ x, state !! x = Some 2%N → state' !! x = Some 2%N) ∧
  (∀ x, x ∈ nodes → state' !! x = Some 2%N).
Proof.
  induction nodes as [|n nodes IH]; intros state cycles Hm Hc; cbn [foldl]; [split_and!; try done; by intros x ?%not_elem_of_nil|].
  destruct (N.eqb_spec (default 0%N (state !! n)) 0) as [H0|H0].
  - pose proof (dfs_spec (S (size graph)) n state [] cycles) as Hd.
    destruct (dfs_detect _ n graph state [] cycles) as [st cy]. destruct Hd as (D1 & D2 & D3 & more & -> & D4); [split; [constructor|by intros x ?%not_elem_of_nil|done]|done..|lia|].
    specialize (IH st (cycles ++ more) D1). destruct (foldl _ _ nodes) as [st' cy'].
    destruct IH as (I1 & I2 & I3 & I4). { intros Hne. destruct D4 as [-> |?]; [|done]. rewrite app_nil_r in Hne. auto. }
    split_and!; [done|done|intros x Hx; by apply I3, D3|]. intros x [-> |Hx]%elem_of_cons; [by apply I3|by apply I4].
  - specialize (IH state cycles Hm Hc). destruct (foldl _ _ nodes) as [st' cy']. destruct IH as (I1 & I2 & I3 & I4). split_and!; try done.
    intros x [-> |Hx]%elem_of_cons; [|by apply I4]. apply I3. destruct (state !! n) as [v|] eqn:Hv; [|done].
    destruct (mk_vals _ _ _ Hm _ _ Hv) as [-> | ->]; [|done]. apply (mk_path _ _ _ Hm) in Hv. by apply not_elem_of_nil in Hv.
Qed.
End dfs.


Definition same_as (id canonical : string) (aliases : list string) : CorrectionEntry :=
  {| ce_id := lit id; ce_type := #"same_as"; ce_canonical := Some (lit canonical); ce_canonical_uuid := None; ce_aliases := Some (lit <$> aliases);
     ce_edge_uuid := None; ce_applied_at := None |}.
Definition toy_aliases : gmap str str := <[ #"x" := #"y"]> (<[ #"y" := #"x"]> ∅).

(** The check keeps one canonical per alias, the last one declared: a cycle through an alias
    that is declared twice goes unreported. *)
Theorem redeclared_alias_hides_cycle :
  let U := AsciiUnicode in
  detect_cycles [same_as "1" "x" ["y"]; same_as "2" "y" ["x"]] ≠ [] ∧
  detect_cycles [same_as "1" "x" ["y"]; same_as "2" "y" ["x"]; same_as "3" "z" ["y"]] = [].
Proof. cbv zeta. split; [vm_compute; discriminate|vm_compute; reflexivity]. Qed.
