(* ===== verification/DedupSearch.v ===== *)
(** * DedupSearch: the stored entity an extracted one may be the same as (core/src/db.rs)

    Two searches, a scan of the group and a look-up in the indexes, that are meant to select the
    same entity.  A row's vectors and summary are kept beside it, by uuid.  Single-precision
    arithmetic is the class [VecFloats]; what the indexes return is an argument. *)

From S2P Require Import Prelude Text Numbers Json WalScan Wal LegacyWal Replay Pointer Ontology Prompts Graph IdentifierVeto Search.

Class VecFloats := {
  F32 : Type;
  f32_zero : F32;
  f32_mul : F32 → F32 → F32;
  f32_div : F32 → F32 → F32;
  f32_sqrt : F32 → F32;
  f32_sum : list F32 → F32;
  f32_eq : F32 → F32 → bool;
  f32_lt : F32 → F32 → bool;
  f32_085 : F32;
}.
(** Comparison is an order on the numbers that are not below some number. *)
Class VecOrder `{VecFloats} := {
  f32_number : F32 → Prop;
  number_085 : f32_number f32_085;
  number_eq x y : f32_eq x y = true → f32_number x ∧ f32_number y;
  number_lt x y : f32_lt x y = true → f32_number x ∧ f32_number y;
  f32_lt_irrefl x : f32_lt x x = false;
  f32_lt_trans x y z : f32_lt x y = true → f32_lt y z = true → f32_lt x z = true;
  f32_tie_trans x y z : f32_number x → f32_number y → f32_number z → f32_lt x y = false → f32_lt y z = false → f32_lt x z = false;
}.

Section floats.
Context {VF : VecFloats}.
Abbreviation vec := (list F32).

(** [a >= b] *)
Definition f32_ge (a b : F32) : bool := f32_lt b a || f32_eq a b.
(** Source: core/src/db.rs 4423-4434 (cosine_similarity) *)
Definition cosine_similarity (a b : vec) : F32 :=
  if negb (bool_decide (length a = length b)) || negb (bool_decide (a ≠ [])) then f32_zero
  else
    let dot := f32_sum (zip_with f32_mul a b) in
    let norm_a := f32_sqrt (f32_sum ((λ x, f32_mul x x) <$> a)) in
    let norm_b := f32_sqrt (f32_sum ((λ x, f32_mul x x) <$> b)) in
    if f32_eq norm_a f32_zero || f32_eq norm_b f32_zero then f32_zero
    else f32_div dot (f32_mul norm_a norm_b).
(** Source: core/src/episode.rs 113-113 (DEDUP_THRESHOLD) *)
Definition DEDUP_THRESHOLD : F32 := f32_085.
End floats.
Abbreviation vec := (list F32).

(** Source: core/src/db.rs 124-127 (DedupSelection) *)
Record DedupSelection := { ds_candidate : option ent; ds_vetoed : N }.

Section search.
Context {U : Unicode} {VF : VecFloats} {FL : Floats}.
(** A group's rows and, by uuid, their name vectors. *)
Context (g : graph) (name_vec : gmap str vec).

(** The rows of one kind, as the query selects them. *)
Definition kind_is (kind : str) (e : ent) : bool :=
  bool_decide (en_kind e = Some kind) || (bool_decide (default [] (en_kind e) = []) && bool_decide (kind = DEFAULT_KIND)).
(** A missing vector reads as the empty one. *)
Definition stored_vec (uuid : str) : vec := default [] (name_vec !! uuid).
(** More similar first, then the smaller uuid. *)
Definition ranked_before {A} (uuid : A → str) (a b : F32 * A) : bool :=
  if f32_lt b.1 a.1 then true else if f32_lt a.1 b.1 then false else str_leb (uuid a.2) (uuid b.2).
(** Takes the first row that the veto lets through.
    Source: core/src/db.rs 2223-2239 (brute_force_select) *)
Fixpoint select_row (incoming : option str) (rows : list ent) (vetoed : N) : DedupSelection :=
  match rows with
  | [] => {| ds_candidate := None; ds_vetoed := vetoed |}
  | row :: rows =>
      if match incoming with Some n => identifier_mismatch n (en_name row) | None => false end
      then select_row incoming rows (vetoed + 1)
      else {| ds_candidate := Some row; ds_vetoed := vetoed |}
  end.
(** Source: core/src/db.rs 2181-2217 (brute_force_select) *)
Definition brute_force_rows (emb : vec) (group_id : str) (threshold : F32) (kind : str) : list (F32 * ent) :=
  omap (λ e, match stored_vec (en_uuid e) with
             | [] => None
             | v => let sim := cosine_similarity emb v in if f32_ge sim threshold then Some (sim, e) else None
             end)
    (List.filter (λ e, bool_decide (en_group e = group_id) && kind_is kind e) (g_ents g)).
(** Source: core/src/db.rs 2173-2240 (brute_force_select) *)
Definition brute_force_select (emb : vec) (incoming : option str) (group_id : str) (threshold : F32) (kind : str) : DedupSelection :=
  select_row incoming (snd <$> sort_by (ranked_before en_uuid) (brute_force_rows emb group_id threshold kind)) 0.
(** Source: core/src/db.rs 2156-2171 (brute_force_similar_entity_kind_for_name) *)
Definition brute_force_similar_entity_kind_for_name (emb : vec) (incoming_name group_id : str) (threshold : F32) (kind : str) : DedupSelection :=
  brute_force_select emb (Some incoming_name) group_id threshold kind.

(** Source: core/src/db.rs 2265-2291 (get_entity_embeddings_by_uuids_kind) *)
Definition get_entity_embeddings_by_uuids_kind (uuids : list str) (kind : str) : list (str * vec) :=
  omap (λ e, match stored_vec (en_uuid e) with [] => None | v => Some (en_uuid e, v) end)
    (List.filter (λ e, bool_decide (en_uuid e ∈ uuids) && kind_is kind e) (g_ents g)).
(** The answers of the vector index and of the text index to a search for some number of rows of a
    group, of one kind if it is given. *)
Context (vector_search : vec → str → option str → nat → list (str * F)) (fts_search : str → str → option str → nat → list (str * F)).
Definition CANDIDATE_K : nat := 200.
(** Source: core/src/db.rs 2385-2406 (hybrid_ranked) *)
Definition hybrid_candidates (emb : vec) (entity_name group_id kind : str) : list str :=
  let only := if bool_decide (kind = DEFAULT_KIND) then None else Some kind in
  rrf_fuse [fts_search entity_name group_id only CANDIDATE_K; vector_search emb group_id only CANDIDATE_K].
(** Source: core/src/db.rs 2375-2423 (hybrid_ranked) *)
Definition hybrid_ranked (emb : vec) (entity_name group_id : str) (threshold : F32) (kind : str) : list (F32 * str) :=
  sort_by (ranked_before id)
    (omap (λ '(uuid, v), let sim := cosine_similarity emb v in if f32_ge sim threshold then Some (sim, uuid) else None)
       (get_entity_embeddings_by_uuids_kind (hybrid_candidates emb entity_name group_id kind) kind)).
(** Source: core/src/db.rs 2351-2369 (hybrid_dedup_similar_entity_kind_for_name) *)
Fixpoint select_uuid (entity_name : str) (uuids : list str) (vetoed : N) : DedupSelection :=
  match uuids with
  | [] => {| ds_candidate := None; ds_vetoed := vetoed |}
  | uuid :: uuids =>
      match get_entity_by_uuid g uuid with
      | None => select_uuid entity_name uuids vetoed
      | Some row =>
          if identifier_mismatch entity_name (en_name row) then select_uuid entity_name uuids (vetoed + 1)
          else {| ds_candidate := Some row; ds_vetoed := vetoed |}
      end
  end.
(** Source: core/src/db.rs 2342-2370 (hybrid_dedup_similar_entity_kind_for_name) *)
Definition hybrid_dedup_similar_entity_kind_for_name (emb : vec) (entity_name group_id : str) (threshold : F32) (kind : str) : DedupSelection :=
  select_uuid entity_name (snd <$> hybrid_ranked emb entity_name group_id threshold kind) 0.
End search.

(** Source: core/src/db.rs 2243-2253 (entity_count_in_group) *)
Definition entity_count_in_group (g : graph) (group_id : str) : N :=
  N.of_nat (length (List.filter (λ e, bool_decide (en_group e = group_id)) (g_ents g))).

(** ** The two searches agree *)

(** Stable insertion commutes with a map that keeps the comparison. *)
Lemma sort_by_fmap {A B} (f : A → B) (le1 : A → A → bool) (le2 : B → B → bool) (l : list A) :
  (∀ a b, le1 a b = le2 (f a) (f b)) → sort_by le2 (f <$> l) = f <$> sort_by le1 l.
Proof.
  intros Hle. induction l as [|a l IH]; [done|]. cbn [fmap list_fmap sort_by]. change (list_fmap A B f l) with (f <$> l). rewrite IH.
  generalize (sort_by le1 l). clear IH l. intros l. induction l as [|b l IH]; [done|]. cbn [fmap list_fmap insert_by].
  rewrite Hle. destruct (le2 (f a) (f b)); [done|]. cbn. f_equal. exact IH.
Qed.
(** Two sorts of the same rows agree when the comparison is an order on them. *)
Lemma sort_by_perm_eq {A} (P : A → Prop) (le : A → A → bool) (l k : list A) :
  (∀ x y, P x → P y → le x y = false → le y x = true) →
  (∀ x y z, P x → P y → P z → le x y = true → le y z = true → le x z = true) →
  (∀ x y, x ∈ l → y ∈ l → le x y = true → le y x = true → x = y) →
  Forall P l → l ≡ₚ k → sort_by le l = sort_by le k.
Proof.
  intros Htot Htr Hanti HP Hlk.
  assert (HP' : Forall P k) by (by rewrite <- Hlk).
  apply (sorted_perm_unique_on (λ a b, le a b = true)).
  - intros x y. rewrite sort_by_perm. apply Hanti.
  - by apply (sort_by_sorted_on P).
  - by apply (sort_by_sorted_on P).
  - by rewrite !sort_by_perm.
Qed.

Lemma elem_of_cons_2 {A} {x y : A} {l : list A} : x ∈ l → x ∈ y :: l.
Proof. intros H. by right. Qed.
Section agree.
Context {U : Unicode} {VF : VecFloats} {VO : VecOrder} {FL : Floats}.

Lemma f32_ge_number a b : f32_ge a b = true → f32_number a.
Proof. unfold f32_ge. intros [H|H]%orb_true_iff; [by apply number_lt in H as [_ ?]|by apply number_eq in H as [? _]]. Qed.
Lemma f32_lt_total a b : f32_number a → f32_number b → f32_lt a b = true → f32_lt b a = false.
Proof. intros Ha Hb H. destruct (f32_lt b a) eqn:Hba; [|done]. pose proof (f32_lt_trans _ _ _ H Hba) as Hx. by rewrite f32_lt_irrefl in Hx. Qed.
Lemma ranked_total {A} (uuid : A → str) (a b : F32 * A) : ranked_before uuid a b = false → ranked_before uuid b a = true.
Proof.
  unfold ranked_before. destruct (f32_lt b.1 a.1); [done|]. destruct (f32_lt a.1 b.1); [done|]. apply str_leb_total.
Qed.
Lemma ranked_trans {A} (uuid : A → str) (a b c : F32 * A) : f32_number a.1 → f32_number b.1 → f32_number c.1 →
  ranked_before uuid a b = true → ranked_before uuid b c = true → ranked_before uuid a c = true.
Proof.
  intros Ha Hb Hc. unfold ranked_before.
  destruct (f32_lt b.1 a.1) eqn:Hba.
  - intros _. destruct (f32_lt c.1 b.1) eqn:Hcb; intros H.
    + by rewrite (f32_lt_trans _ _ _ Hcb Hba).
    + destruct (f32_lt b.1 c.1) eqn:Hbc; [done|].
      destruct (f32_lt c.1 a.1) eqn:Hca; [done|]. pose proof (f32_tie_trans _ _ _ Hb Hc Ha Hbc Hca) as Hx. congruence.
  - destruct (f32_lt a.1 b.1) eqn:Hab; [done|]. intros Hu1. destruct (f32_lt c.1 b.1) eqn:Hcb; intros H.
    + destruct (f32_lt c.1 a.1) eqn:Hca; [done|]. pose proof (f32_tie_trans _ _ _ Hc Ha Hb Hca Hab). congruence.
    + destruct (f32_lt b.1 c.1) eqn:Hbc; [done|].
      rewrite (f32_tie_trans _ _ _ Hc Hb Ha Hcb Hba), (f32_tie_trans _ _ _ Ha Hb Hc Hab Hbc). by eapply str_leb_trans.
Qed.
Lemma ranked_anti {A} (uuid : A → str) (a b : F32 * A) : f32_number a.1 → f32_number b.1 →
  ranked_before uuid a b = true → ranked_before uuid b a = true → uuid a.2 = uuid b.2.
Proof.
  intros Ha Hb. unfold ranked_before. destruct (f32_lt b.1 a.1) eqn:Hba.
  - rewrite (f32_lt_total _ _ Hb Ha Hba). done.
  - destruct (f32_lt a.1 b.1); [done|]. apply str_leb_antisym.
Qed.

(** A row of the group and kind whose vector is near enough, with its similarity. *)
Definition near (name_vec : gmap str vec) (emb : vec) (group_id : str) (threshold : F32) (kind : str) (p : F32 * ent) : Prop :=
  en_group p.2 = group_id ∧ kind_is kind p.2 = true ∧ stored_vec name_vec (en_uuid p.2) ≠ [] ∧
  p.1 = cosine_similarity emb (stored_vec name_vec (en_uuid p.2)) ∧ f32_ge p.1 threshold = true.
Lemma omap_filter {A B} (p : A → bool) (f : A → option B) (l : list A) : omap f (List.filter p l) = omap (λ x, if p x then f x else None) l.
Proof. induction l as [|x l IH]; [done|]. cbn. destruct (p x); cbn; rewrite IH; done. Qed.
Lemma brute_rows_elem g nv emb gid thr kind p :
  p ∈ brute_force_rows g nv emb gid thr kind ↔ p.2 ∈ g_ents g ∧ near nv emb gid thr kind p.
Proof.
  unfold brute_force_rows, near. rewrite omap_filter, list_elem_of_omap. split.
  - intros (e & He & H). destruct (bool_decide_reflect (en_group e = gid)) as [Hg|]; [|done]. destruct (kind_is kind e) eqn:Hk; [|done]. cbn in H.
    destruct (stored_vec nv (en_uuid e)) as [|x v] eqn:Hv; [done|]. destruct (f32_ge _ _) eqn:Hge; [|done]. injection H as <-. cbn.
    split_and!; try done; by rewrite ?Hv.
  - destruct p as [s e]. cbn. intros (He & Hg & Hk & Hv & -> & Hge). exists e. split; [done|].
    rewrite bool_decide_eq_true_2, Hk by done. cbn. destruct (stored_vec nv (en_uuid e)) as [|x v]; [done|]. by rewrite Hge.
Qed.
Lemma brute_rows_perm g g' nv emb gid thr kind : g_ents g ≡ₚ g_ents g' → brute_force_rows g nv emb gid thr kind ≡ₚ brute_force_rows g' nv emb gid thr kind.
Proof. intros Hp. unfold brute_force_rows. rewrite !omap_filter. induction Hp; cbn; repeat case_match; try done; by (constructor || (etrans; eauto)) || eauto using Permutation. Qed.
Lemma get_by_uuid_nodup g e : NoDup (en_uuid <$> g_ents g) → e ∈ g_ents g → get_entity_by_uuid g (en_uuid e) = Some e.
Proof.
  unfold get_entity_by_uuid. induction (g_ents g) as [|x l IH]; cbn; intros Hnd Hin; [by apply not_elem_of_nil in Hin|].
  apply NoDup_cons in Hnd as [Hx Hnd]. apply elem_of_cons in Hin as [<-|Hin]; [by rewrite bool_decide_eq_true_2|].
  rewrite bool_decide_eq_false_2; [by apply IH|]. intros Heq. apply Hx. rewrite Heq. by apply list_elem_of_fmap_2.
Qed.
Lemma nodup_uuid_inj (l : list ent) x y : NoDup (en_uuid <$> l) → x ∈ l → y ∈ l → en_uuid x = en_uuid y → x = y.
Proof.
  induction l as [|z l IH]; cbn; intros Hnd Hx Hy Heq; [by apply not_elem_of_nil in Hx|].
  apply NoDup_cons in Hnd as [Hz Hnd]. apply elem_of_cons in Hx as [->|Hx], Hy as [->|Hy]; try done.
  - destruct Hz. rewrite Heq. by apply list_elem_of_fmap_2.
  - destruct Hz. rewrite <- Heq. by apply list_elem_of_fmap_2.
  - by apply IH.
Qed.
Lemma sorted_rows_perm g g' nv emb gid thr kind : NoDup (en_uuid <$> g_ents g) → g_ents g ≡ₚ g_ents g' →
  sort_by (ranked_before en_uuid) (brute_force_rows g nv emb gid thr kind) = sort_by (ranked_before en_uuid) (brute_force_rows g' nv emb gid thr kind).
Proof.
  intros Hnd Hp. apply (sort_by_perm_eq (λ p, f32_number p.1)).
  - intros x y _ _. apply ranked_total.
  - intros x y z. apply ranked_trans.
  - intros [s x] [t y] [Hx Nx]%brute_rows_elem [Hy Ny]%brute_rows_elem H1 H2. cbn in Hx, Hy.
    destruct Nx as (_ & _ & _ & Es & Gs), Ny as (_ & _ & _ & Et & Gt). cbn in Es, Et, Gs, Gt.
    assert (en_uuid x = en_uuid y) as Hu by (apply (ranked_anti en_uuid (s, x) (t, y)); [by eapply f32_ge_number..|done|done]).
    rewrite (nodup_uuid_inj _ _ _ Hnd Hx Hy Hu) in *. by rewrite Es, Et.
  - apply Forall_forall. intros p [_ (_ & _ & _ & _ & Hge)]%brute_rows_elem. by eapply f32_ge_number.
  - by apply brute_rows_perm.
Qed.
Lemma select_uuid_row g name rows n : (∀ e, e ∈ rows → get_entity_by_uuid g (en_uuid e) = Some e) →
  select_uuid g name (en_uuid <$> rows) n = select_row (Some name) rows n.
Proof.
  revert n. induction rows as [|e rows IH]; intros n H; [done|]. cbn [fmap list_fmap select_uuid select_row].
  rewrite (H e) by left. rewrite IH by (intros x Hx; apply H; by right). done.
Qed.

Context (g : graph) (name_vec : gmap str vec) (vector_search : vec → str → option str → nat → list (str * F)) (fts_search : str → str → option str → nat → list (str * F)).
Context (emb : vec) (name group_id : str) (threshold : F32) (kind : str).
Abbreviation candidates := (hybrid_candidates vector_search fts_search emb name group_id kind).

Lemma hybrid_rows :
  (∀ e, e ∈ g_ents g → en_uuid e ∈ candidates → en_group e = group_id) →
  (∀ p, p.2 ∈ g_ents g → near name_vec emb group_id threshold kind p → en_uuid p.2 ∈ candidates) →
  hybrid_ranked g name_vec vector_search fts_search emb name group_id threshold kind =
  (λ p : F32 * ent, (p.1, en_uuid p.2)) <$> sort_by (ranked_before en_uuid) (brute_force_rows g name_vec emb group_id threshold kind).
Proof.
  intros Hscope Hcover. unfold hybrid_ranked. rewrite <- (sort_by_fmap _ (ranked_before en_uuid) (ranked_before id)) by done. f_equal.
  unfold get_entity_embeddings_by_uuids_kind, brute_force_rows. rewrite !omap_filter.
  assert (Hin : ∀ e, e ∈ g_ents g → e ∈ g_ents g) by done. revert Hin. generalize (g_ents g) at 1 3 4 as es. induction es as [|e es IH]; [done|]. intros Hin.
  cbn [omap list_omap]. assert (He : e ∈ g_ents g) by (apply Hin; left).
  specialize (IH (λ x Hx, Hin x (elem_of_cons_2 Hx))). pose proof (Hscope e He) as Hs.
  pose proof (λ s, Hcover (s, e) He) as Hc. unfold near in Hc. cbn in Hc.
  destruct (kind_is kind e) eqn:Hk; [rewrite !andb_true_r|rewrite !andb_false_r; exact IH].
  destruct (stored_vec name_vec (en_uuid e)) as [|x v] eqn:Hv.
  { destruct (bool_decide _), (bool_decide _); exact IH. }
  destruct (f32_ge (cosine_similarity emb (x :: v)) threshold) eqn:Hge.
  - destruct (bool_decide_reflect (en_group e = group_id)) as [Hg|Hg].
    + rewrite bool_decide_eq_true_2 by (apply (Hc (cosine_similarity emb (x :: v))); done).
      cbn [omap list_omap fmap list_fmap]. rewrite Hge. cbn. f_equal. exact IH.
    + rewrite bool_decide_eq_false_2 by auto. exact IH.
  - destruct (bool_decide (en_uuid e ∈ candidates)), (bool_decide (en_group e = group_id)); cbn [omap list_omap]; rewrite ?Hge; exact IH.
Qed.
End agree.

(** C30. The two searches for a stored duplicate select the same entity and count the same vetoes:
    when the index search returns rows of the group only and misses no row of the kind that is
    near enough, whatever order the two queries return rows in. *)
Theorem hybrid_matches_scan `{Unicode} `{VecOrder} `{Floats} g g' name_vec vector_search fts_search emb name group_id threshold kind :
  NoDup (en_uuid <$> g_ents g) → g_ents g ≡ₚ g_ents g' →
  (∀ e, e ∈ g_ents g → en_uuid e ∈ hybrid_candidates vector_search fts_search emb name group_id kind → en_group e = group_id) →
  (∀ p, p.2 ∈ g_ents g → near name_vec emb group_id threshold kind p → en_uuid p.2 ∈ hybrid_candidates vector_search fts_search emb name group_id kind) →
  hybrid_dedup_similar_entity_kind_for_name g name_vec vector_search fts_search emb name group_id threshold kind =
  brute_force_similar_entity_kind_for_name g' name_vec emb name group_id threshold kind.
Proof.
  intros Hnd Hp Hscope Hcover. unfold hybrid_dedup_similar_entity_kind_for_name, brute_force_similar_entity_kind_for_name, brute_force_select.
  rewrite (hybrid_rows _ _ _ _ _ _ _ _ _ Hscope Hcover), <- (sorted_rows_perm g g') by done. rewrite <- list_fmap_compose.
  change (snd ∘ (λ p : F32 * ent, (p.1, en_uuid p.2))) with (en_uuid ∘ snd (A := F32) (B := ent)). rewrite list_fmap_compose.
  apply select_uuid_row. intros e ([s x] & -> & Hin)%list_elem_of_fmap. rewrite sort_by_perm in Hin.
  apply brute_rows_elem in Hin as [Hin _]. by apply get_by_uuid_nodup.
Qed.

(** The scan selects the best admissible row: the selected row is of the group and the kind, at
    least as similar as the threshold and not vetoed, and of those the first by similarity and
    uuid; nothing is selected only if every near row is vetoed; and the count is that of the
    vetoed rows ranked ahead. *)
Theorem scan_selects_best `{Unicode} `{VecOrder} g name_vec emb name group_id threshold kind :
  let near_rows := brute_force_rows g name_vec emb group_id threshold kind in
  let vetoes (e : ent) := identifier_mismatch name (en_name e) in
  let sel := brute_force_similar_entity_kind_for_name g name_vec emb name group_id threshold kind in
  ∃ ahead rest, sort_by (ranked_before en_uuid) near_rows = ahead ++ rest ∧ ds_vetoed sel = N.of_nat (length ahead) ∧
    Forall (λ p, vetoes p.2 = true) ahead ∧
    match ds_candidate sel with
    | Some row => ∃ s later, rest = (s, row) :: later ∧ vetoes row = false ∧ row ∈ g_ents g ∧ near name_vec emb group_id threshold kind (s, row) ∧
                    Forall (λ p, ranked_before en_uuid (s, row) p = true) later
    | None => rest = []
    end.
Proof.
  cbv zeta. unfold brute_force_similar_entity_kind_for_name, brute_force_select.
  assert (Hel : ∀ p, p ∈ sort_by (ranked_before en_uuid) (brute_force_rows g name_vec emb group_id threshold kind) → p.2 ∈ g_ents g ∧ near name_vec emb group_id threshold kind p).
  { intros p. rewrite sort_by_perm. apply brute_rows_elem. }
  assert (Hsort : StronglySorted (λ a b, ranked_before en_uuid a b = true) (sort_by (ranked_before en_uuid) (brute_force_rows g name_vec emb group_id threshold kind))).
  { apply (sort_by_sorted_on (λ p, f32_number p.1)).
    - intros x y _ _. apply ranked_total.
    - intros x y z. apply ranked_trans.
    - apply Forall_forall. intros p [_ (_ & _ & _ & _ & Hge)]%brute_rows_elem. by eapply f32_ge_number. }
  revert Hel Hsort. generalize (sort_by (ranked_before en_uuid) (brute_force_rows g name_vec emb group_id threshold kind)) as l.
  intros l Hel Hs. assert (Hgen : ∀ n : N, ∃ ahead rest, l = ahead ++ rest ∧ ds_vetoed (select_row (Some name) (snd <$> l) n) = (n + N.of_nat (length ahead))%N ∧
    Forall (λ p, identifier_mismatch name (en_name p.2) = true) ahead ∧
    match ds_candidate (select_row (Some name) (snd <$> l) n) with
    | Some row => ∃ s later, rest = (s, row) :: later ∧ identifier_mismatch name (en_name row) = false ∧ row ∈ g_ents g ∧
                    near name_vec emb group_id threshold kind (s, row) ∧ Forall (λ p, ranked_before en_uuid (s, row) p = true) later
    | None => rest = []
    end); [|by destruct (Hgen 0%N) as (a & r & ? & ? & ?); exists a, r].
  induction l as [|[s e] l IH]; intros n; [exists [], []; cbn; split_and!; [done|lia|constructor|done]|].
  apply StronglySorted_cons in Hs as [Hall Hs]. cbn [fmap list_fmap snd select_row].
  destruct (identifier_mismatch name (en_name e)) eqn:Hm.
  - destruct (IH (λ p Hp, Hel p (elem_of_cons_2 Hp)) Hs (n + 1)%N) as (a & r & -> & Hv & Ha & Hc).
    exists ((s, e) :: a), r. split_and!; [done|rewrite Hv; cbn; lia|by constructor|done].
  - exists [], ((s, e) :: l). cbn. split_and!; [done|lia|constructor|]. exists s, l. destruct (Hel (s, e)) as [Hg1 Hn1]; [left|]. by split_and!.
Qed.

(** Vectors of whole numbers. *)
Definition ToyVec : VecFloats := {|
  F32 := N; f32_zero := 0%N; f32_mul := N.mul; f32_div := N.div; f32_sqrt := N.sqrt; f32_sum := foldr N.add 0%N; f32_eq := N.eqb; f32_lt := N.ltb; f32_085 := 1%N |}.
Definition ToyVecOrder : @VecOrder ToyVec.
Proof.
  refine {| f32_number := λ _ : @F32 ToyVec, True |}; cbn; try done.
  - intros x. apply N.ltb_irrefl.
  - intros x y z Hx%N.ltb_lt Hy%N.ltb_lt. apply N.ltb_lt. lia.
  - intros x y z _ _ _ Hx%N.ltb_ge Hy%N.ltb_ge. apply N.ltb_ge. lia.
Defined.
Definition toy_ent (uuid name group : string) : ent :=
  {| en_uuid := lit uuid; en_name := lit name; en_group := lit group; en_labels := [DEFAULT_KIND]; en_kind := Some DEFAULT_KIND; en_key := None; en_created := 0; en_attrs := [] |}.
Definition toy_ents : graph := {| g_ents := [toy_ent "u2" "ADR 2018" "g"; toy_ent "u1" "ADR 2019" "g"; toy_ent "u0" "ADR 2018" "h"]; g_eps := []; g_rels := []; g_direct := []; g_kinds := []; g_scans := 0; g_pending := [] |}.
Definition toy_vecs : gmap str (list (@F32 ToyVec)) := <[ #"u0" := [1; 0]%N]> (<[ #"u1" := [1; 0]%N]> (<[ #"u2" := [1; 0]%N]> ∅)).
Definition toy_hits (uuids : list string) : list (str * @F ToyFloats) := (λ u, (lit u, @fzero ToyFloats)) <$> uuids.
(** The nearest row by uuid, [u1], names another decision record; the next is selected. *)
Lemma scan_selects_best_witness :
  let sel := @brute_force_similar_entity_kind_for_name AsciiUnicode ToyVec toy_ents toy_vecs [1; 0]%N #"ADR-2018" #"g" 1%N DEFAULT_KIND in
  en_uuid <$> ds_candidate sel = Some #"u2" ∧ ds_vetoed sel = 1%N.
Proof.
  destruct (@scan_selects_best AsciiUnicode ToyVec ToyVecOrder toy_ents toy_vecs [1; 0]%N #"ADR-2018" #"g" 1%N DEFAULT_KIND) as (ahead & rest & _ & _ & _ & _).
  split; vm_compute; reflexivity.
Defined.
Definition toy_hybrid : DedupSelection :=
  @hybrid_dedup_similar_entity_kind_for_name AsciiUnicode ToyVec ToyFloats toy_ents toy_vecs (λ _ _ _ _, toy_hits ["u2"; "u1"]) (λ _ _ _ _, toy_hits ["u1"]) [1; 0]%N #"ADR-2018" #"g" 1%N DEFAULT_KIND.
Lemma hybrid_matches_scan_witness :
  toy_hybrid = @brute_force_similar_entity_kind_for_name AsciiUnicode ToyVec toy_ents toy_vecs [1; 0]%N #"ADR-2018" #"g" 1%N DEFAULT_KIND.
Proof.
  apply (@hybrid_matches_scan AsciiUnicode ToyVec ToyVecOrder ToyFloats).
  - apply (bool_decide_unpack _). vm_compute. exact I.
  - done.
  - intros e He. apply list_elem_of_In in He. cbn in He. destruct He as [<-|[<-|[<-|[]]]]; vm_compute; try reflexivity.
    intros H. exfalso. repeat (apply elem_of_cons in H as [H|H]; [discriminate|]). by apply elem_of_nil in H.
  - intros [s e] He (Hg & _). apply list_elem_of_In in He. cbn in He, Hg |- *.
    destruct He as [<-|[<-|[<-|[]]]]; apply (bool_decide_unpack _); vm_compute in Hg |- *; first [exact I|discriminate].
Defined.
