(* ===== verification/EpisodeFilter.v ===== *)
(** * EpisodeFilter: what an episode keeps of an extraction (core/src/episode.rs, before any lock)

    Blank names go, off-vocabulary types are reclassified and never dropped, and each entity gets
    its kind.  A step of a loop that only logs is left out. *)

From S2P Require Import Prelude Text Numbers Json WalScan Wal LegacyWal Replay Pointer Ontology SummaryMerge Replies Prompts Extraction Graph.

(** Source: core/src/episode.rs 118-118 (ENTITY_UNCLASSIFIED) *)
Definition ENTITY_UNCLASSIFIED : str := #"Unclassified".
(** Source: core/src/reprocess_relations.rs 30-30 (UNCLASSIFIED) *)
Definition UNCLASSIFIED : str := #"UNCLASSIFIED".

Section filter.
Context {U : Unicode}.

Definition set_original_entity (o : option str) (e : ExtractedEntity) : ExtractedEntity :=
  {| xe_name := xe_name e; xe_type := xe_type e; xe_summary := xe_summary e; xe_original := o |}.
Definition retype (t : str) (o : option str) (e : ExtractedEntity) : ExtractedEntity :=
  {| xe_name := xe_name e; xe_type := t; xe_summary := xe_summary e; xe_original := o |}.
Definition set_original_edge (o : option str) (e : ExtractedEdge) : ExtractedEdge :=
  {| xd_source := xd_source e; xd_target := xd_target e; xd_fact := xd_fact e; xd_type := xd_type e; xd_valid := xd_valid e; xd_invalid := xd_invalid e; xd_original := o |}.
Definition relate (t : option str) (o : option str) (e : ExtractedEdge) : ExtractedEdge :=
  {| xd_source := xd_source e; xd_target := xd_target e; xd_fact := xd_fact e; xd_type := t; xd_valid := xd_valid e; xd_invalid := xd_invalid e; xd_original := o |}.
Definition redirect (s t : str) (e : ExtractedEdge) : ExtractedEdge :=
  {| xd_source := s; xd_target := t; xd_fact := xd_fact e; xd_type := xd_type e; xd_valid := xd_valid e; xd_invalid := xd_invalid e; xd_original := xd_original e |}.

(** The originals a model may claim are cleared.
    Source: core/src/episode.rs 439-441 (add_episode) *)
Definition clear_edge_originals (edges : list ExtractedEdge) : list ExtractedEdge := set_original_edge None <$> edges.
(** Source: core/src/episode.rs 449-451 (add_episode) *)
Definition clear_entity_originals (entities : list ExtractedEntity) : list ExtractedEntity := set_original_entity None <$> entities.
(** The named ones, and how many went.
    Source: core/src/episode.rs 471-473 (add_episode) *)
Definition retain_named (entities : list ExtractedEntity) : list ExtractedEntity * N :=
  let kept := List.filter (λ e, nonempty (trim (xe_name e))) entities in
  (kept, (N.of_nat (length entities) - N.of_nat (length kept))%N).

(** ** Types *)

(** Outside the strict filter only labels that are not extractable are touched.
    Source: core/src/episode.rs 497-507 (add_episode) *)
Definition retype_open (onto : Ontology) (e : ExtractedEntity) : ExtractedEntity * bool :=
  if is_extract_false_entity onto (xe_type e) then (retype ENTITY_UNCLASSIFIED (Some (xe_type e)) e, true) else (e, false).
(** Source: core/src/episode.rs 511-530 (add_episode) *)
Definition retype_strict (onto : Ontology) (e : ExtractedEntity) : ExtractedEntity * bool :=
  let normalized := normalize_entity_type (xe_type e) in
  if negb (nonempty normalized) || bool_decide (normalized = #"Entity") then (retype normalized (xe_original e) e, false)
  else if bool_decide (normalized ∈ extractable_entity_type_names onto) then (retype normalized (xe_original e) e, false)
  else (retype ENTITY_UNCLASSIFIED (Some (xe_type e)) e, true).
Definition is_strict (onto : Ontology) : bool := match mode onto with Strict => true | Open => false end.
Definition strict_entities (onto : Ontology) : bool := is_strict onto && match extractable_entity_types onto with [] => false | _ => true end.
Definition strict_relations (onto : Ontology) : bool := is_strict onto && match extractable_relation_types onto with [] => false | _ => true end.
(** Source: core/src/episode.rs 487-532 (add_episode) *)
Definition reclassify_entities (ontology : option Ontology) (entities : list ExtractedEntity) : list ExtractedEntity * N :=
  match ontology with
  | None => (entities, 0%N)
  | Some onto =>
      let out := (if strict_entities onto then retype_strict onto else retype_open onto) <$> entities in
      (fst <$> out, N.of_nat (length (List.filter snd out)))
  end.

(** Each name, and each alias of it, to the name; later declarations win.
    Source: core/src/canonicalize.rs 108-119 (build_alias_map) *)
Definition build_alias_map (onto : Ontology) : gmap str str :=
  foldl (λ (m : gmap str str) rt, foldl (λ (m : gmap str str) alias, <[alias := rt_name rt]> m) (<[rt_name rt := rt_name rt]> m) (rt_aliases rt))
    ∅ (extractable_relation_types onto).
(** Source: core/src/episode.rs 555-567 (add_episode) *)
Definition relate_open (onto : Ontology) (e : ExtractedEdge) : ExtractedEdge :=
  match xd_type e with
  | None => e
  | Some original => if is_extract_false_relation onto original then relate (Some UNCLASSIFIED) (Some original) e else e
  end.
(** Source: core/src/episode.rs 571-594 (add_episode) *)
Definition relate_strict (alias_map : gmap str str) (e : ExtractedEdge) : ExtractedEdge :=
  let original := xd_type e in
  let normalized := default [] (normalize_relation_type <$> original) in
  match alias_map !! normalized with
  | Some canonical => relate (Some canonical) (xd_original e) e
  | None => relate (Some UNCLASSIFIED) (if nonempty normalized then original else None) e
  end.
(** Source: core/src/episode.rs 553-596 (add_episode) *)
Definition reclassify_edges (ontology : option Ontology) (edges : list ExtractedEdge) : list ExtractedEdge :=
  match ontology with
  | None => edges
  | Some onto => if strict_relations onto then relate_strict (build_alias_map onto) <$> edges else relate_open onto <$> edges
  end.

(** ** Kinds, summaries, endpoints *)

(** Source: core/src/episode.rs 633-644 (add_episode) *)
Definition entity_kind (ontology : option Ontology) (e : ExtractedEntity) : str :=
  if bool_decide (xe_type e = ENTITY_UNCLASSIFIED) then DEFAULT_KIND
  else default DEFAULT_KIND (onto ← ontology; identity_kind onto (xe_type e)).
(** Source: core/src/episode.rs 648-654 (add_episode) *)
Definition endpoint_kinds (ontology : option Ontology) : list str :=
  DEFAULT_KIND :: match ontology with Some onto => identity_set onto | None => [] end.
(** Source: core/src/episode.rs 656-662 (add_episode) *)
Definition summary_indices (entities : list ExtractedEntity) : list nat :=
  omap (λ '(i, e), if nonempty (trim (xe_summary e)) then Some i else None) (imap pair entities).
(** Source: core/src/episode.rs 696-705 (add_episode) *)
Definition drop_self_references (edges : list ExtractedEdge) : list ExtractedEdge :=
  List.filter (λ e, negb (bool_decide (normalize_name (xd_source e) = normalize_name (xd_target e)))) edges.
(** The endpoints that are not of this batch, each normalised name with its spellings in order.
    Source: core/src/episode.rs 714-744 (add_episode) *)
Definition missing_variants (entities : list ExtractedEntity) (edges : list ExtractedEdge) : gmap str (list str) :=
  let entity_name_set : gset str := list_to_set (normalize_name ∘ xe_name <$> entities) in
  foldl (λ (m : gmap str (list str)) name,
           let key := normalize_name name in
           if bool_decide (key ∈ entity_name_set) then m
           else let raw := trim name in
                let variants := default [] (m !! key) in
                <[key := if bool_decide (raw ∈ variants) then variants else variants ++ [raw]]> m)
    ∅ (concat ((λ e, [xd_source e; xd_target e]) <$> edges)).
(** The endpoint a salvaged key is rewritten to.
    Source: core/src/episode.rs 845-852 (add_episode) *)
Definition salvage_edge (salvage_map : gmap str str) (e : ExtractedEdge) : ExtractedEdge :=
  redirect (default (xd_source e) (salvage_map !! normalize_name (xd_source e)))
    (default (xd_target e) (salvage_map !! normalize_name (xd_target e))) e.

(** ** What the filters keep *)

(** The rest of an item. *)
Definition same_entity (a b : ExtractedEntity) : Prop := xe_name a = xe_name b ∧ xe_summary a = xe_summary b.
Definition same_fact (a b : ExtractedEdge) : Prop :=
  xd_source a = xd_source b ∧ xd_target a = xd_target b ∧ xd_fact a = xd_fact b ∧ xd_valid a = xd_valid b ∧ xd_invalid a = xd_invalid b.
Definition has_original (e : ExtractedEntity) : bool := match xe_original e with Some _ => true | None => false end.
(** A type that names nothing in particular. *)
Definition untyped (t : str) : Prop := t = [] ∨ t = #"Entity".

Definition reclassify_entity (ontology : option Ontology) (e : ExtractedEntity) : ExtractedEntity * bool :=
  match ontology with
  | None => (e, false)
  | Some onto => if strict_entities onto then retype_strict onto e else retype_open onto e
  end.
Definition reclassify_edge (ontology : option Ontology) (e : ExtractedEdge) : ExtractedEdge :=
  match ontology with
  | None => e
  | Some onto => if strict_relations onto then relate_strict (build_alias_map onto) e else relate_open onto e
  end.
Lemma reclassify_entities_map ontology entities :
  reclassify_entities ontology entities =
  ((λ e, (reclassify_entity ontology e).1) <$> entities, N.of_nat (length (List.filter (λ e, (reclassify_entity ontology e).2) entities))).
Proof.
  unfold reclassify_entities, reclassify_entity. destruct ontology as [onto|].
  - destruct (strict_entities onto); (f_equal; [by rewrite <- list_fmap_compose|f_equal]); induction entities as [|e l IH]; try done; cbn; destruct (snd _); cbn; by rewrite IH.
  - f_equal; [by rewrite list_fmap_id|]. induction entities as [|e l IH]; [done|exact IH].
Qed.
Lemma reclassify_edges_map ontology edges : reclassify_edges ontology edges = reclassify_edge ontology <$> edges.
Proof. unfold reclassify_edges, reclassify_edge. destruct ontology as [onto|]; [by destruct (strict_relations onto)|by rewrite list_fmap_id]. Qed.
(** One entity through the filter. *)
Lemma reclassify_entity_spec ontology e : let '(e', changed) := reclassify_entity ontology (set_original_entity None e) in
  same_entity e e' ∧ (if changed then xe_type e' = ENTITY_UNCLASSIFIED ∧ xe_original e' = Some (xe_type e) else xe_original e' = None) ∧
  (∀ onto, ontology = Some onto → strict_entities onto = true →
     untyped (xe_type e') ∨ xe_type e' ∈ extractable_entity_type_names onto ∨ (xe_type e' = ENTITY_UNCLASSIFIED ∧ is_Some (xe_original e'))).
Proof.
  unfold reclassify_entity. destruct ontology as [onto|]; [|split_and!; done]. destruct (strict_entities onto) eqn:Hs.
  - unfold retype_strict. cbn [xe_type set_original_entity]. set (n := normalize_entity_type (xe_type e)). clearbody n.
    destruct (negb (nonempty n) || bool_decide (n = #"Entity")) eqn:Hu; [|destruct (bool_decide_reflect (n ∈ extractable_entity_type_names onto)) as [Hin|]].
    + split_and!; try done. intros o [= <-] _. left. cbn. apply orb_true_iff in Hu as [Hu|Hu%bool_decide_eq_true_1]; [left; by destruct n|by right].
    + split_and!; try done. intros o [= <-] _. right. by left.
    + split_and!; try done. intros o _ _. right. right. split; [done|by eexists].
  - unfold retype_open. cbn [xe_type set_original_entity]. destruct (is_extract_false_entity _ _); (split_and!; try done); intros o [= <-]; congruence.
Qed.
Lemma alias_map_declared onto k t : build_alias_map onto !! k = Some t → ∃ rt, rt ∈ extractable_relation_types onto ∧ rt_name rt = t.
Proof.
  unfold build_alias_map. assert (H : ∀ (rts : list RelationTypeDef) (m : gmap str str),
    (∀ k t, m !! k = Some t → ∃ rt, rt ∈ extractable_relation_types onto ∧ rt_name rt = t) → (∀ rt, rt ∈ rts → rt ∈ extractable_relation_types onto) →
    ∀ k t, foldl (λ (m : gmap str str) rt, foldl (λ (m : gmap str str) alias, <[alias := rt_name rt]> m) (<[rt_name rt := rt_name rt]> m) (rt_aliases rt)) m rts !! k = Some t →
    ∃ rt, rt ∈ extractable_relation_types onto ∧ rt_name rt = t); [|apply H; [by intros ? ?; rewrite lookup_empty|done]].
  clear k t. induction rts as [|rt rts IH]; intros m Hm Hrts; [exact Hm|]. cbn [foldl]. apply IH; [|intros x Hx; apply Hrts; by right].
  assert (Hrt : rt ∈ extractable_relation_types onto) by (apply Hrts; left).
  assert (Hins : ∀ (m : gmap str str) a, (∀ k t, m !! k = Some t → ∃ rt, rt ∈ extractable_relation_types onto ∧ rt_name rt = t) →
    ∀ k t, <[a := rt_name rt]> m !! k = Some t → ∃ rt, rt ∈ extractable_relation_types onto ∧ rt_name rt = t).
  { intros m' a Hm' k t [[_ <-]|[_ Hk]]%lookup_insert_Some; [by exists rt|by eapply Hm']. }
  generalize (rt_aliases rt). intros l. assert (H0 := Hins m (rt_name rt) Hm). revert H0. generalize (<[rt_name rt := rt_name rt]> m) as m0.
  induction l as [|a l IHl]; intros m0 H0; [exact H0|]. cbn [foldl]. by apply IHl, Hins.
Qed.
(** One edge through the filter. *)
Lemma reclassify_edge_spec ontology e : let e' := reclassify_edge ontology (set_original_edge None e) in
  same_fact e e' ∧ (xd_original e' = None ∨ (xd_type e' = Some UNCLASSIFIED ∧ xd_original e' = xd_type e)) ∧
  (∀ onto, ontology = Some onto → strict_relations onto = true →
     ∃ t, xd_type e' = Some t ∧ (t = UNCLASSIFIED ∨ ∃ rt, rt ∈ extractable_relation_types onto ∧ rt_name rt = t)).
Proof.
  cbv zeta. unfold reclassify_edge. destruct ontology as [onto|]; [|split_and!; try done; by left]. destruct (strict_relations onto) eqn:Hs.
  - unfold relate_strict. cbn [xd_type set_original_edge]. destruct (build_alias_map onto !! _) as [t|] eqn:Ht.
    + split_and!; try done; [by left|]. intros o [= <-] _. exists t. split; [done|]. right. by eapply alias_map_declared.
    + split_and!; try done; [destruct (nonempty _); [by right|by left]|]. intros o _ _. exists UNCLASSIFIED. split; [done|by left].
  - unfold relate_open. cbn [xd_type set_original_edge]. destruct (xd_type e) as [t|] eqn:Ht.
    + destruct (is_extract_false_relation onto t); (split_and!; try done); cbn; rewrite ?Ht; try (by left); try (by right); intros o [= <-]; congruence.
    + split_and!; try done; [by left|]. intros o [= <-]. congruence.
Qed.

(** Reclassifying loses nothing: every entity and every edge is kept, in order, with its names,
    summary and fact; whatever original a model claims is gone; and an item whose type changed to
    unclassified remembers the type it came with, which is what the entity count counts.  Under a
    strict ontology that declares extractable types, every type that comes out is an extractable
    one, none in particular, or unclassified; and every relation is a declared one or
    unclassified. *)
Theorem reclassify_loses_nothing (ontology : option Ontology) (entities : list ExtractedEntity) (edges : list ExtractedEdge) :
  let '(es, n) := reclassify_entities ontology (clear_entity_originals entities) in
  let ds := reclassify_edges ontology (clear_edge_originals edges) in
  Forall2 (λ a b, same_entity a b ∧ (xe_original b = None ∨ (xe_type b = ENTITY_UNCLASSIFIED ∧ xe_original b = Some (xe_type a)))) entities es ∧
  n = N.of_nat (length (List.filter has_original es)) ∧
  Forall2 (λ a b, same_fact a b ∧ (xd_original b = None ∨ (xd_type b = Some UNCLASSIFIED ∧ xd_original b = xd_type a))) edges ds ∧
  (∀ onto, ontology = Some onto → strict_entities onto = true →
     Forall (λ e, untyped (xe_type e) ∨ xe_type e ∈ extractable_entity_type_names onto ∨ (xe_type e = ENTITY_UNCLASSIFIED ∧ is_Some (xe_original e))) es) ∧
  (∀ onto, ontology = Some onto → strict_relations onto = true →
     Forall (λ e, ∃ t, xd_type e = Some t ∧ (t = UNCLASSIFIED ∨ ∃ rt, rt ∈ extractable_relation_types onto ∧ rt_name rt = t)) ds).
Proof.
  rewrite reclassify_entities_map. cbv zeta. rewrite reclassify_edges_map. unfold clear_entity_originals, clear_edge_originals. rewrite <- !list_fmap_compose.
  split_and!.
  - apply Forall2_fmap_r, Forall_Forall2_diag, Forall_forall. intros e _. cbn. pose proof (reclassify_entity_spec ontology e) as H.
    destruct (reclassify_entity _ _) as [e' []]; cbn; destruct H as (H1 & H2 & _); [destruct H2; auto|auto].
  - f_equal. induction entities as [|e l IH]; [done|]. cbn [fmap list_fmap List.filter].
    pose proof (reclassify_entity_spec ontology e) as H.
    change (((λ e, (reclassify_entity ontology e).1) ∘ set_original_entity None) e) with (reclassify_entity ontology (set_original_entity None e)).1.
    destruct (reclassify_entity ontology (set_original_entity None e)) as [e' []]; cbn [fst snd] in *; destruct H as (_ & H2 & _); unfold has_original at 1.
    + destruct H2 as [_ ->]. cbn. f_equal. exact IH.
    + rewrite H2. exact IH.
  - apply Forall2_fmap_r, Forall_Forall2_diag, Forall_forall. intros e _. cbn. pose proof (reclassify_edge_spec ontology e) as (H1 & H2 & _). auto.
  - intros onto Ho Hs. apply Forall_fmap, Forall_forall. intros e _. cbn. pose proof (reclassify_entity_spec ontology e) as H.
    destruct (reclassify_entity _ _) as [e' b]. destruct H as (_ & _ & H). by apply (H onto).
  - intros onto Ho Hs. apply Forall_fmap, Forall_forall. intros e _. cbn. pose proof (reclassify_edge_spec ontology e) as (_ & _ & H). by apply (H onto).
Qed.
End filter.
