(* ===== verification/Canonicalize.v ===== *)
(** * Canonicalize: giving stored edges a declared relation type (core/src/canonicalize.rs)

    The edges of a group are read in pages, classified by their name and type, the rest by the
    similarity of their fact to a type's description, and written back in batches.  The database
    rows are a list; other writers may change them before each batch.  The embedder, the failures
    of statements and the flush to the log are the class [CanonDeps]; [cs_log] collects what has
    been handed to the flush.  Progress events and the percentages of the report are left out. *)

From S2P Require Import Prelude Text Numbers Regex Json WalGeneration WalScan Checkpoint WalGroup Wal LegacyWal Replay WalExec Pointer Ontology SummaryMerge Replies Prompts Extraction Graph IdentifierVeto Search DedupSearch EpisodeFilter.

(** Source: core/src/canonicalize.rs 32-32 (PAGE_SIZE) *)
Definition PAGE_SIZE : nat := 500.
(** Source: core/src/canonicalize.rs 33-33 (WRITE_BATCH_SIZE) *)
Definition WRITE_BATCH_SIZE : nat := 250.

(** Source: core/src/canonicalize.rs 69-77 (EdgeClass) *)
Inductive EdgeClass := Mapped (canonical : str) | Noise | Residual.
Global Instance EdgeClass_eq_dec : EqDecision EdgeClass.
Proof. solve_decision. Defined.
(** Source: core/src/canonicalize.rs 79-85 (EdgeRecord) *)
Record EdgeRecord := { er_uuid : str; er_name : str; er_type : option str; er_fact : str }.
(** Source: core/src/canonicalize.rs 89-100 (LexicalIndex) *)
Record LexicalIndex := {
  ix_exact : gmap str str; ix_keywords : list (str * str); ix_canonical_names : gset str; ix_assert_only_names : gset str }.
(** Source: core/src/canonicalize.rs 121-149 (build_lexical_index) *)
Definition build_lexical_index (onto : Ontology) : LexicalIndex :=
  {| ix_exact := build_alias_map onto;
     ix_keywords := concat ((λ rt, if rt_extract rt then (λ kw, (kw, rt_name rt)) <$> rt_keywords rt else []) <$> relation_types onto);
     ix_canonical_names := list_to_set (rt_name <$> relation_types onto);
     ix_assert_only_names := list_to_set (rt_name <$> List.filter (λ rt, negb (rt_extract rt)) (relation_types onto)) |}.

(** [[A-Z][A-Z0-9 ]*] *)
Definition caps : regex := RCat (RClass is_ascii_upper) (RStar (RClass (λ c, is_ascii_upper c || is_ascii_digit c || (c =? 32)%N))).
(** Source: core/src/canonicalize.rs 158-158 (is_noise_edge) *)
Definition NOISE_RE : regex :=
  RCat caps (RCat (RStar (RClass is_whitespace)) (RCat (RAlt (RLit [8594%N]) (RLit #"->")) (RCat (RStar (RClass is_whitespace)) caps))).
(** Source: core/src/canonicalize.rs 153-160 (is_noise_edge) *)
Definition is_noise_edge (s : str) : bool := full_match NOISE_RE (trim s).

Section classify.
Context {U : Unicode}.
(** Source: core/src/canonicalize.rs 203-208 (classify_edge_lexically) *)
Definition keyword_match (keywords : list (str * str)) (lower : str) : option str :=
  find_first (λ '(kw, canonical), if contains kw lower then Some canonical else None) keywords.
(** An alias or a keyword of the normalised text. *)
Definition evidence (idx : LexicalIndex) (text : str) : option str :=
  let normalized := normalize_relation_type text in
  match ix_exact idx !! normalized with
  | Some canonical => Some canonical
  | None => keyword_match (ix_keywords idx) (to_lowercase normalized)
  end.
(** Source: core/src/canonicalize.rs 175-232 (classify_edge_lexically) *)
Definition classify_edge_lexically (name : str) (current_rt : option str) (idx : LexicalIndex) : EdgeClass :=
  if is_noise_edge name then Noise
  else if match current_rt with Some rt => is_noise_edge rt | None => false end then Noise
  else
    match current_rt with
    | Some rt =>
        if bool_decide (rt ∈ ix_assert_only_names idx) then Mapped rt
        else match evidence idx name with
             | Some canonical => Mapped canonical
             | None => if bool_decide (rt ∈ ix_canonical_names idx) then Mapped rt
                       else match evidence idx rt with Some canonical => Mapped canonical | None => Residual end
             end
    | None => match evidence idx name with Some canonical => Mapped canonical | None => Residual end
    end.
End classify.

(** ** The pass *)

(** An edge row; the type column may be null. *)
Record edge_row := { rw_uuid : str; rw_group : str; rw_name : str; rw_fact : str; rw_type : option str }.
(** Source: core/src/db.rs 3690-3715 (dump_relatos_page) *)
Definition dump_relatos_page (table : list edge_row) (group_id : str) (offset limit : nat) : list edge_row :=
  take limit (drop offset (sort_by (λ a b, str_leb (rw_uuid a) (rw_uuid b)) (List.filter (λ r, bool_decide (rw_group r = group_id)) table))).
(** An empty column counts as none.
    Source: core/src/canonicalize.rs 266-282 (canonicalize_relations) *)
Definition edge_record (r : edge_row) : EdgeRecord :=
  {| er_uuid := rw_uuid r; er_name := rw_name r; er_type := match rw_type r with Some [] | None => None | Some rt => Some rt end; er_fact := rw_fact r |}.
(** The loop ends with a page that is not full, so a turn per page and one more is enough.
    Source: core/src/canonicalize.rs 260-288 (canonicalize_relations) *)
Fixpoint read_pages (fuel : nat) (table : list edge_row) (group_id : str) (page_error : nat → option str) (offset : nat) : result Error (list EdgeRecord) :=
  match fuel with
  | O => Ok []
  | S fuel =>
      match page_error offset with
      | Some e => Err (Ipc (Msg "read edges page: {e}" [AStr e]))
      | None =>
          let rows := dump_relatos_page table group_id offset PAGE_SIZE in
          if (length rows <? PAGE_SIZE)%nat then Ok (edge_record <$> rows)
          else let? more := read_pages fuel table group_id page_error (offset + length rows) in Ok ((edge_record <$> rows) ++ more)
      end
  end.
(** [MATCH (n:RelatesToNode_ {uuid: $uuid}) SET n.relation_type = $rt] *)
Abbreviation statement := (str * str)%type.
Definition set_relation_type (st : statement) (table : list edge_row) : list edge_row :=
  (λ r, if bool_decide (rw_uuid r = st.1) then {| rw_uuid := rw_uuid r; rw_group := rw_group r; rw_name := rw_name r; rw_fact := rw_fact r; rw_type := Some st.2 |} else r) <$> table.
(** The value to write, if any: a noise edge that has a type keeps it.
    Source: core/src/canonicalize.rs 440-480 (canonicalize_relations) *)
Definition target (current_rt : option str) (class : EdgeClass) : option str :=
  match class with
  | Mapped canonical => if bool_decide (current_rt = Some canonical) then None else Some canonical
  | Residual => if bool_decide (current_rt = Some UNCLASSIFIED) then None else Some UNCLASSIFIED
  | Noise => if nonempty (trim (default [] current_rt)) then None else Some UNCLASSIFIED
  end.

(** Source: core/src/canonicalize.rs 38-42 (CanonicalizeParams) *)
Record CanonicalizeParams `{VecFloats} := { cp_group : str; cp_dry_run : bool; cp_threshold : option F32 }.
(** Source: core/src/canonicalize.rs 44-52 (CanonicalizeReport) *)
Record CanonicalizeReport := {
  cr_group : str; cr_total : nat; cr_mapped : nat; cr_noise : nat; cr_residual : nat; cr_promoted : nat; cr_dry_run : bool; cr_warning : option msg }.
Class CanonDeps (W : Type) `{VecFloats} := {
  cd_db : W → bool;
  cd_connect_error : W → option str;
  cd_page_error : W → nat → option str;
  cd_others : W → list edge_row → list edge_row;
  cd_embed : str → W → result Error vec * W;
  cd_exec_error : W → statement → option Error;
  cd_flush : str → list statement → W → option (N * option str) * W;
  cd_position_ok : W → bool;
  cd_identity : str * Z;
  cd_next : W → W;
}.

Section pass.
Context {U : Unicode} {VF : VecFloats} {W : Type} {CD : CanonDeps W} (DEFAULT_EMBEDDING_THRESHOLD : F32).
Record cst := { cs_world : W; cs_table : list edge_row; cs_positions : positions; cs_log : list statement }.
Definition at_world (w : W) (s : cst) : cst := {| cs_world := w; cs_table := cs_table s; cs_positions := cs_positions s; cs_log := cs_log s |}.

(** One embedding per description; an error drops them all.
    Source: core/src/canonicalize.rs 345-357 (canonicalize_relations) *)
Fixpoint embed_glosses (types : list (str * str)) (acc : list (str * vec)) (w : W) : (list (str * vec) * option msg) * W :=
  match types with
  | [] => ((acc, None), w)
  | (name, desc) :: types =>
      match cd_embed desc w with
      | (Ok emb, w) => embed_glosses types (acc ++ [(name, emb)]) w
      | (Err e, w) => (([], Some (Msg "embedding fallback skipped: embedder error: {e}" [])), w)
      end
  end.
(** Source: core/src/canonicalize.rs 326-359 (canonicalize_relations) *)
Definition gloss_embeddings (onto : Ontology) (w : W) : (list (str * vec) * option msg) * W :=
  match omap (λ rt, d ← rt_description rt; if nonempty d then Some (rt_name rt, d) else None) (extractable_relation_types onto) with
  | [] => (([], Some (Msg "embedding fallback skipped: no canonical types have description glosses" [])), w)
  | types => embed_glosses types [] w
  end.
(** [max_by]: the last of the greatest, incomparable ones counting as equal.
    Source: core/src/canonicalize.rs 378-381 (canonicalize_relations) *)
Definition best_gloss (fact_emb : vec) (glosses : list (str * vec)) : option (str * F32) :=
  foldl (λ best '(name, emb), let sim := cosine_similarity fact_emb emb in
                              match best with Some (n, b) => if f32_lt sim b then Some (n, b) else Some (name, sim) | None => Some (name, sim) end) None glosses.
(** Source: core/src/canonicalize.rs 372-394 (canonicalize_relations) *)
Definition promote (threshold : F32) (glosses : list (str * vec)) (e : EdgeRecord) (w : W) : option str * W :=
  match er_fact e with
  | [] => (None, w)
  | fact =>
      match cd_embed fact w with
      | (Ok emb, w) => (best ← best_gloss emb glosses; if f32_ge best.2 threshold then Some best.1 else None, w)
      | (Err _, w) => (None, w)
      end
  end.
(** Source: core/src/canonicalize.rs 361-396 (canonicalize_relations) *)
Fixpoint promote_residuals (threshold : F32) (glosses : list (str * vec)) (l : list (EdgeRecord * EdgeClass)) (promoted : nat) (w : W) :
    list (EdgeRecord * EdgeClass) * nat * W :=
  match l with
  | [] => ([], promoted, w)
  | (e, Residual) :: l =>
      let '(p, w) := promote threshold glosses e w in
      let '(out, promoted, w) := promote_residuals threshold glosses l (match p with Some _ => S promoted | None => promoted end) w in
      ((e, match p with Some canonical => Mapped canonical | None => Residual end) :: out, promoted, w)
  | (e, class) :: l => let '(out, promoted, w) := promote_residuals threshold glosses l promoted w in ((e, class) :: out, promoted, w)
  end.
Definition is_mapped (c : EdgeClass) : bool := match c with Mapped _ => true | _ => false end.
Definition is_noise (c : EdgeClass) : bool := match c with Noise => true | _ => false end.
Definition is_residual (c : EdgeClass) : bool := match c with Residual => true | _ => false end.
Definition count_class (f : EdgeClass → bool) (l : list (EdgeRecord * EdgeClass)) : nat := length (List.filter (f ∘ snd) l).

(** A batch's statements in order, up to the first that fails.
    Source: core/src/canonicalize.rs 437-489 (canonicalize_relations) *)
Fixpoint exec_batch (batch : list (EdgeRecord * EdgeClass)) (pending : list statement) (table : list edge_row) (w : W) : result Error unit * list statement * list edge_row * W :=
  match batch with
  | [] => (Ok tt, pending, table, w)
  | (e, class) :: batch =>
      match target (er_type e) class with
      | None => exec_batch batch pending table w
      | Some rt =>
          match cd_exec_error w (er_uuid e, rt) with
          | Some err => (Err err, pending, table, cd_next w)
          | None => exec_batch batch (pending ++ [(er_uuid e, rt)]) (set_relation_type (er_uuid e, rt) table) (cd_next w)
          end
      end
  end.
(** Whatever succeeded is flushed before an error is returned.
    Source: core/src/canonicalize.rs 423-503 (canonicalize_relations) *)
Definition write_batch (group_id : str) (batch : list (EdgeRecord * EdgeClass)) (s : cst) : result Error unit * cst :=
  let table := cd_others (cs_world s) (cs_table s) in
  match cd_connect_error (cs_world s) with
  | Some e => (Err (Ipc (Msg "db: {e}" [AStr e])), {| cs_world := cs_world s; cs_table := table; cs_positions := cs_positions s; cs_log := cs_log s |})
  | None =>
      let '(r, pending, table, w) := exec_batch batch [] table (cs_world s) in
      let '(seq, w) := cd_flush group_id pending w in
      (r, {| cs_world := w; cs_table := table; cs_positions := advance_wal_position (cd_position_ok w) group_id seq cd_identity (cs_positions s);
             cs_log := cs_log s ++ pending |})
  end.
Fixpoint write_batches (group_id : str) (batches : list (list (EdgeRecord * EdgeClass))) (s : cst) : result Error unit * cst :=
  match batches with
  | [] => (Ok tt, s)
  | b :: batches => match write_batch group_id b s with (Ok _, s) => write_batches group_id batches s | out => out end
  end.
(** [slice::chunks] *)
Fixpoint batches_of {A} (fuel : nat) (l : list A) : list (list A) :=
  match fuel, l with
  | S fuel, _ :: _ => take WRITE_BATCH_SIZE l :: batches_of fuel (drop WRITE_BATCH_SIZE l)
  | _, _ => []
  end.
(** Source: core/src/canonicalize.rs 239-511 (canonicalize_relations) *)
Definition canonicalize_relations (params : CanonicalizeParams) (onto : Ontology) (s : cst) : result Error CanonicalizeReport * cst :=
  let threshold := default DEFAULT_EMBEDDING_THRESHOLD (cp_threshold params) in
  if negb (cd_db (cs_world s)) then (Err (DbUnavailable (Msg "DB unavailable" [])), s)
  else
    let table := cd_others (cs_world s) (cs_table s) in
    let s := {| cs_world := cs_world s; cs_table := table; cs_positions := cs_positions s; cs_log := cs_log s |} in
    match cd_connect_error (cs_world s) with
    | Some e => (Err (Ipc (Msg "db: {e}" [AStr e])), s)
    | None =>
        match read_pages (S (length table)) table (cp_group params) (cd_page_error (cs_world s)) 0 with
        | Err e => (Err e, s)
        | Ok edges =>
            let idx := build_lexical_index onto in
            let classified := (λ e, (e, classify_edge_lexically (er_name e) (er_type e) idx)) <$> edges in
            let '((glosses, warning), w) := gloss_embeddings onto (cs_world s) in
            let '(classified, promoted, w) :=
              match glosses with [] => (classified, 0%nat, w) | _ => promote_residuals threshold glosses classified 0 w end in
            let s := at_world w s in
            let report warning := {| cr_group := cp_group params; cr_total := length edges; cr_mapped := count_class is_mapped classified; cr_noise := count_class is_noise classified;
                             cr_residual := count_class is_residual classified; cr_promoted := promoted; cr_dry_run := cp_dry_run params; cr_warning := warning |} in
            if cp_dry_run params then (Ok (report None), s)
            else match write_batches (cp_group params) (batches_of (length classified) classified) s with
                 | (Ok _, s) => (Ok (report warning), s)
                 | (Err e, s) => (Err e, s)
                 end
        end
    end.
End pass.
