(* ===== verification/CanonicalizeTheory.v ===== *)
(** * CanonicalizeTheory: what the canonicalisation pass writes, and when a second pass is idle *)

From S2P Require Import Prelude Text Numbers Regex Json WalGeneration WalScan Checkpoint WalGroup Wal LegacyWal Replay WalExec Pointer Ontology SummaryMerge Replies Prompts Extraction Graph IdentifierVeto Search DedupSearch EpisodeFilter Canonicalize.

(** ** Noise *)

Lemma caps_lang s : in_lang caps s ↔ ∃ c t, s = c :: t ∧ is_ascii_upper c = true ∧ forallb (λ c, is_ascii_upper c || is_ascii_digit c || (c =? 32)%N) t = true.
Proof.
  unfold caps. rewrite lang_cat. split.
  - intros (s1 & s2 & -> & (c & -> & Hc)%lang_class & Ht%lang_many). by exists c, s2.
  - intros (c & t & -> & Hc & Ht). exists [c], t. rewrite lang_class, lang_many. split_and!; eauto.
Qed.
(** A noise edge is two names in capitals about an arrow. *)
Lemma noise_edge_spec s : is_noise_edge s = true ↔
  ∃ a w1 arrow w2 b, trim s = a ++ w1 ++ arrow ++ w2 ++ b ∧ in_lang caps a ∧ in_lang caps b ∧ (arrow = [8594%N] ∨ arrow = #"->") ∧
    forallb is_whitespace w1 = true ∧ forallb is_whitespace w2 = true.
Proof.
  unfold is_noise_edge. rewrite full_match_lang. unfold NOISE_RE. split.
  - intros (a & r1 & -> & Ha & (w1 & r2 & -> & H1%lang_many & (arrow & r3 & -> & Harrow%lang_alt & (w2 & b & -> & H2%lang_many & Hb)%lang_cat)%lang_cat)%lang_cat)%lang_cat.
    exists a, w1, arrow, w2, b. split_and!; try done. destruct Harrow as [H%lang_lit|H%lang_lit]; auto.
  - intros (a & w1 & arrow & w2 & b & -> & Ha & Hb & Harrow & H1 & H2).
    constructor; [done|]. constructor; [by apply lang_many|]. constructor; [|constructor; [by apply lang_many|done]].
    destruct Harrow as [->| ->]; [apply l_left|apply l_right]; by apply lang_lit.
Qed.
Lemma blank_not_noise s : trim s = [] → is_noise_edge s = false.
Proof. intros H. unfold is_noise_edge. rewrite H. reflexivity. Qed.

(** ** Reading in pages *)

Definition group_rows (table : list edge_row) (group_id : str) : list edge_row :=
  sort_by (λ a b, str_leb (rw_uuid a) (rw_uuid b)) (List.filter (λ r, bool_decide (rw_group r = group_id)) table).
(** Pages cover the group's rows, each once and in the order of their uuids. *)
Lemma read_pages_exact fuel table gid errors : ∀ offset edges,
  length (group_rows table gid) < offset + fuel → read_pages fuel table gid errors offset = Ok edges →
  edges = edge_record <$> drop offset (group_rows table gid).
Proof.
  induction fuel as [|fuel IH]; intros offset edges Hf; cbn [read_pages].
  - intros [= <-]. by rewrite drop_ge by lia.
  - destruct (errors offset); [done|]. unfold dump_relatos_page. fold (group_rows table gid). set (rest := drop offset (group_rows table gid)).
    assert (Hrest : length rest = length (group_rows table gid) - offset) by apply length_drop.
    destruct (_ <? _)%nat eqn:Hlt.
    + intros [= <-]. apply Nat.ltb_lt in Hlt. rewrite length_take in Hlt. by rewrite take_ge by lia.
    + apply Nat.ltb_ge in Hlt. intros (more & Hm & [= <-])%rbind_ok. apply IH in Hm as ->; [|rewrite length_take in *; unfold PAGE_SIZE in *; lia].
      rewrite <- fmap_app. f_equal. rewrite length_take in *. replace (PAGE_SIZE `min` length rest) with PAGE_SIZE by lia.
      unfold rest at 1. rewrite <- drop_drop. fold rest. apply take_drop.
Qed.
Lemma read_pages_all table gid errors edges :
  read_pages (S (length table)) table gid errors 0 = Ok edges → edges = edge_record <$> group_rows table gid.
Proof.
  intros H. apply read_pages_exact in H as ->; [by rewrite drop_0|]. unfold group_rows. rewrite (Permutation_length (sort_by_perm _ _)).
  pose proof (List.filter_length_le (λ r, bool_decide (rw_group r = gid)) table). lia.
Qed.

(** ** What a run writes *)

Definition plan (batch : list (EdgeRecord * EdgeClass)) : list statement := omap (λ '(e, c), rt ← target (er_type e) c; Some (er_uuid e, rt)) batch.
Definition applied (sts : list statement) (table : list edge_row) : list edge_row := foldl (λ t st, set_relation_type st t) table sts.
Lemma applied_app a b table : applied (a ++ b) table = applied b (applied a table).
Proof. apply foldl_app. Qed.

Section writes.
Context {U : Unicode} {VF : VecFloats} {W : Type} {CD : CanonDeps W} (threshold0 : F32).
Lemma exec_batch_plan batch : ∀ pending table (w : W) r pending' table' w',
  exec_batch batch pending table w = (r, pending', table', w') →
  ∃ k, pending' = pending ++ k ∧ table' = applied k table ∧ k `prefix_of` plan batch ∧ (r = Ok tt → k = plan batch).
Proof.
  induction batch as [|[e c] batch IH]; intros pending table w r pending' table' w'; cbn [exec_batch].
  - intros [= <- <- <- <-]. exists []. rewrite app_nil_r. split_and!; try done.
  - unfold plan. cbn [omap list_omap]. destruct (target (er_type e) c) as [rt|]; cbn; [|apply IH].
    destruct (cd_exec_error w _).
    + intros [= <- <- <- <-]. exists []. rewrite app_nil_r. split_and!; try done. apply prefix_nil.
    + intros (k & -> & -> & Hp & Hok)%IH. exists ((er_uuid e, rt) :: k). rewrite <- app_assoc. split_and!; try done; [by apply prefix_cons|].
      intros H. f_equal. by apply Hok.
Qed.
Lemma batches_concat {A} fuel : ∀ l : list A, length l ≤ fuel → concat (batches_of fuel l) = l.
Proof.
  induction fuel as [|fuel IH]; intros [|x l] Hl; try done; [cbn in Hl; lia|]. cbn [batches_of concat].
  rewrite IH; [apply take_drop|]. rewrite length_drop. unfold WRITE_BATCH_SIZE. cbn [length] in *. lia.
Qed.
Lemma plan_app a b : plan (a ++ b) = plan a ++ plan b.
Proof. apply omap_app. Qed.

(** No other writer interferes. *)
Hypothesis alone : ∀ (w : W) t, cd_others w t = t.
Lemma write_batches_plan gid batches : ∀ s r s', write_batches gid batches s = (r, s') →
  ∃ k, cs_log s' = cs_log s ++ k ∧ cs_table s' = applied k (cs_table s) ∧ k `prefix_of` plan (concat batches) ∧ (r = Ok tt → k = plan (concat batches)).
Proof.
  induction batches as [|b batches IH]; intros s r s'; cbn [write_batches].
  - intros [= <- <-]. exists []. by rewrite app_nil_r.
  - unfold write_batch. rewrite alone. cbn [concat]. rewrite plan_app. destruct (cd_connect_error _).
    { intros [= <- <-]. exists []. rewrite app_nil_r. split_and!; try done. apply prefix_nil. }
    destruct (exec_batch _ _ _ _) as [[[r1 p1] t1] w1] eqn:He. apply exec_batch_plan in He as (k1 & Hp & -> & Hpre & Hok). cbn in Hp. subst p1.
    destruct (cd_flush _ _ _) as [seq w2]. destruct r1 as [[]|err].
    + intros (k2 & -> & -> & Hpre2 & Hok2)%IH. cbn. exists (k1 ++ k2). rewrite (Hok eq_refl), applied_app, app_assoc. split_and!; try done.
      * by apply prefix_app.
      * intros H. f_equal. by apply Hok2.
    + intros [= <- <-]. cbn. exists k1. split_and!; try done. etrans; [exact Hpre|]. by apply prefix_app_r.
Qed.
End writes.

(** ** The classes of a run *)

Section classes.
Context {U : Unicode} {VF : VecFloats} {W : Type} {CD : CanonDeps W} (threshold0 : F32).
Definition described (onto : Ontology) : list (str * str) :=
  omap (λ rt, d ← rt_description rt; if nonempty d then Some (rt_name rt, d) else None) (extractable_relation_types onto).
Lemma described_declared onto name : name ∈ (described onto).*1 → name ∈ rt_name <$> relation_types onto.
Proof.
  intros ([n d] & -> & Hn)%list_elem_of_fmap. unfold described in Hn.
  apply list_elem_of_omap in Hn as (rt & Hrt & Hd). destruct (rt_description rt) as [x|]; cbn in Hd; [|done]. destruct (nonempty x); [|done]. injection Hd as <- <-.
  apply list_elem_of_fmap. exists rt. split; [done|]. apply list_elem_of_In, filter_In in Hrt as [Hrt _]. by apply list_elem_of_In.
Qed.
Lemma gloss_names onto (w : W) name : name ∈ (gloss_embeddings onto w).1.1.*1 → name ∈ rt_name <$> relation_types onto.
Proof.
  assert (H : ∀ l acc (w : W), name ∈ (embed_glosses l acc w).1.1.*1 → name ∈ l.*1 ∨ name ∈ acc.*1).
  { clear w. induction l as [|[n d] l IH]; intros acc w; cbn [embed_glosses]; [by right|]. destruct (cd_embed d w) as [[v|e] w']; [|cbn; intros ?%elem_of_nil; done].
    intros [?|Hn]%IH; [left; by right|]. rewrite fmap_app in Hn. apply elem_of_app in Hn as [?| ->%list_elem_of_singleton]; [by right|left; left]. }
  intros Hn. apply described_declared. unfold gloss_embeddings in Hn. fold (described onto) in Hn.
  destruct (described onto) as [|p l]; [by apply elem_of_nil in Hn|]. by apply H in Hn as [?|?%elem_of_nil].
Qed.
Lemma best_gloss_in emb gl b : best_gloss emb gl = Some b → b.1 ∈ gl.*1.
Proof.
  unfold best_gloss.
  assert (H : ∀ l acc, foldl (λ best '(name, emb0), let sim := cosine_similarity emb emb0 in
      match best with Some (n, b) => if f32_lt sim b then Some (n, b) else Some (name, sim) | None => Some (name, sim) end) acc l = Some b →
    b.1 ∈ l.*1 ∨ acc = Some b).
  { induction l as [|[n v] l IH]; intros acc; cbn [foldl]; [by right|]. intros [H|H]%IH; [left; by right|].
    destruct acc as [[m x]|]; cbn in H; [destruct (f32_lt _ _)|]; injection H as <-; [by right|left; left|left; left]. }
  intros [?|?]%H; done.
Qed.
Lemma promote_in threshold glosses e (w : W) c : (promote threshold glosses e w).1 = Some c → c ∈ glosses.*1.
Proof.
  unfold promote. destruct (er_fact e); [done|]. destruct (cd_embed _ w) as [[v|?] w']; [|done]. cbn. destruct (best_gloss _ _) as [b|] eqn:Hb; cbn; [|done].
  destruct (f32_ge _ _); [|done]. intros [= <-]. by eapply best_gloss_in.
Qed.
(** The fallback only ever settles residual edges, on a described type. *)
Lemma promote_keeps threshold glosses l : ∀ n (w : W) out n' w', promote_residuals threshold glosses l n w = (out, n', w') →
  Forall2 (λ a b, a.1 = b.1 ∧ (a.2 = b.2 ∨ (a.2 = Residual ∧ ∃ c, b.2 = Mapped c ∧ c ∈ glosses.*1))) l out.
Proof.
  induction l as [|[e c] l IH]; intros n w out n' w'; cbn [promote_residuals]; [intros [= <- _ _]; constructor|].
  destruct c; [| |pose proof (promote_in threshold glosses e w) as Hin; destruct (promote _ _ _ _) as [p w1]];
    (destruct (promote_residuals _ _ _ _ _) as [[o m] w2] eqn:H; apply IH in H); intros [= <- _ _];
    constructor; try done; cbn; (split; [done|]); auto. destruct p as [c|]; [right; eauto|by left].
Qed.

(** The embedder's answer depends on the text only. *)
Context (f : str → result Error vec) (stateless : ∀ t (w : W), (cd_embed t w).1 = f t).
Fixpoint glosses_of (types : list (str * str)) (acc : list (str * vec)) : list (str * vec) :=
  match types with [] => acc | (name, desc) :: types => match f desc with Ok emb => glosses_of types (acc ++ [(name, emb)]) | Err _ => [] end end.
Definition glosses (onto : Ontology) : list (str * vec) := glosses_of (described onto) [].
Lemma gloss_embeddings_stateless onto (w : W) : (gloss_embeddings onto w).1.1 = glosses onto.
Proof.
  unfold gloss_embeddings, glosses. fold (described onto). destruct (described onto) as [|p types]; [done|].
  generalize (p :: types) as l. clear p types. intros l. generalize (@nil (str * vec)). revert w.
  induction l as [|[name desc] l IH]; intros w acc; [done|]. cbn [embed_glosses glosses_of]. rewrite <- (stateless desc w).
  destruct (cd_embed desc w) as [[v|e] w']; [apply IH|done].
Qed.
(** What becomes of a residual edge. *)
Definition fallback (threshold : F32) (onto : Ontology) (fact : str) : option str :=
  match glosses onto, fact with
  | [], _ | _, [] => None
  | gl, _ => match f fact with Ok emb => best ← best_gloss emb gl; if f32_ge best.2 threshold then Some best.1 else None | Err _ => None end
  end.
Definition settle (threshold : F32) (onto : Ontology) (p : EdgeRecord * EdgeClass) : EdgeRecord * EdgeClass :=
  (p.1, match p.2 with Residual => match fallback threshold onto (er_fact p.1) with Some c => Mapped c | None => Residual end | c => c end).
Lemma promote_settles threshold onto l : glosses onto ≠ [] → ∀ n (w : W), (promote_residuals threshold (glosses onto) l n w).1.1 = settle threshold onto <$> l.
Proof.
  intros Hg. induction l as [|[e c] l IH]; intros n w; [done|]. cbn [promote_residuals fmap list_fmap].
  destruct c; [| |].
  - specialize (IH n w). destruct (promote_residuals _ _ _ _ _) as [[o m] w2]. cbn in IH. by rewrite IH.
  - specialize (IH n w). destruct (promote_residuals _ _ _ _ _) as [[o m] w2]. cbn in IH. by rewrite IH.
  - assert (Hp : (promote threshold (glosses onto) e w).1 = fallback threshold onto (er_fact e)).
    { unfold promote, fallback. destruct (glosses onto) as [|g gl]; [done|]. destruct (er_fact e) as [|x fact]; [done|].
      rewrite <- (stateless (x :: fact) w). by destruct (cd_embed _ w) as [[v|?] w']. }
    destruct (promote _ _ e w) as [p w1]. cbn in Hp. subst p. specialize (IH (if fallback threshold onto (er_fact e) then S n else n) w1).
    unfold settle at 1. cbn [fst snd]. destruct (fallback _ _ (er_fact e)); (destruct (promote_residuals _ _ _ _ _) as [[o m] w2]; cbn in IH; by rewrite IH).
Qed.
Lemma fallback_declared (w : W) threshold onto fact c : fallback threshold onto fact = Some c → c ∈ rt_name <$> relation_types onto.
Proof.
  unfold fallback. destruct (glosses onto) as [|g gl] eqn:Hg; [done|]. destruct fact; [done|]. destruct (f _); [|done].
  destruct (best_gloss _ _) as [b|] eqn:Hb; cbn; [|done]. destruct (f32_ge _ _); [|done]. intros [= <-]. apply best_gloss_in in Hb. rewrite <- Hg in Hb.
  rewrite <- (gloss_embeddings_stateless onto w) in Hb. by eapply gloss_names.
Qed.
End classes.

(** ** A run *)

Section run.
Context {U : Unicode} {VF : VecFloats} {W : Type} {CD : CanonDeps W} (threshold0 : F32).
Hypothesis alone : ∀ (w : W) t, cd_others w t = t.
Definition lexical (onto : Ontology) (e : EdgeRecord) : EdgeRecord * EdgeClass := (e, classify_edge_lexically (er_name e) (er_type e) (build_lexical_index onto)).
(** The classes a run over [table] writes down. *)
Definition classes (params : CanonicalizeParams) (onto : Ontology) (table : list edge_row) (w : W) : list (EdgeRecord * EdgeClass) :=
  let l := lexical onto <$> (edge_record <$> group_rows table (cp_group params)) in
  let '((glosses, _), w) := gloss_embeddings onto w in
  match glosses with [] => l | _ => (promote_residuals (default threshold0 (cp_threshold params)) glosses l 0 w).1.1 end.
Lemma run_cases params onto s r s' : canonicalize_relations threshold0 params onto s = (r, s') →
  let cl := classes params onto (cs_table s) (cs_world s) in
  ∃ k, cs_log s' = cs_log s ++ k ∧ cs_table s' = applied k (cs_table s) ∧ k `prefix_of` plan cl ∧ (cp_dry_run params = true → k = []) ∧
    ∀ rep, r = Ok rep → (cp_dry_run params = false → k = plan cl) ∧ cr_total rep = length cl ∧ cr_mapped rep = count_class is_mapped cl ∧
      cr_noise rep = count_class is_noise cl ∧ cr_residual rep = count_class is_residual cl.
Proof.
  unfold canonicalize_relations, classes. intros Hrun. cbv zeta.
  assert (Hidle : ∀ cl e, r = Err e → cs_log s' = cs_log s → cs_table s' = cs_table s → ∃ k : list statement, cs_log s' = cs_log s ++ k ∧ cs_table s' = applied k (cs_table s) ∧
      k `prefix_of` plan cl ∧ (cp_dry_run params = true → k = []) ∧ ∀ rep, r = Ok rep → (cp_dry_run params = false → k = plan cl) ∧ cr_total rep = length cl ∧
      cr_mapped rep = count_class is_mapped cl ∧ cr_noise rep = count_class is_noise cl ∧ cr_residual rep = count_class is_residual cl).
  { intros cl e -> Hl Ht. exists []. rewrite app_nil_r. split_and!; try done. apply prefix_nil. }
  rewrite !alone in Hrun. destruct (negb _); [injection Hrun as <- <-; by eapply Hidle|].
  destruct (cd_connect_error _); [injection Hrun as <- <-; by eapply Hidle|].
  destruct (read_pages _ _ _ _ _) as [edges|e] eqn:Hp; [|injection Hrun as <- <-; by eapply Hidle]. apply read_pages_all in Hp as ->.
  fold (lexical onto) in Hrun. set (l := lexical onto <$> _) in *. change ((λ e, (e, classify_edge_lexically (er_name e) (er_type e) (build_lexical_index onto))) <$> _) with l in Hrun.
  cbn [cs_world cs_table cs_log] in Hrun. destruct (gloss_embeddings onto (cs_world s)) as [[gl warning] w].
  set (out := match gl with [] => (l, 0%nat, w) | _ => promote_residuals (default threshold0 (cp_threshold params)) gl l 0 w end) in *.
  assert (Hcl : match gl with [] => l | _ => (promote_residuals (default threshold0 (cp_threshold params)) gl l 0 w).1.1 end = out.1.1) by (unfold out; by destruct gl).
  rewrite Hcl. assert (Hlen : length out.1.1 = length (edge_record <$> group_rows (cs_table s) (cp_group params))).
  { unfold out, l. destruct gl; cbn [fst]; [by rewrite length_fmap|]. fold l. destruct (promote_residuals _ _ _ _ _) as [[o n] w'] eqn:H.
    apply promote_keeps, Forall2_length in H. cbn. rewrite <- H. unfold l. by rewrite length_fmap. }
  destruct out as [[cl promoted] w1]. cbn [fst] in *. destruct (cp_dry_run params) eqn:Hd.
  - injection Hrun as <- <-. exists []. rewrite app_nil_r. cbn. split_and!; try done; [apply prefix_nil|]. intros rep [= <-]. cbn. by split_and!.
  - destruct (write_batches _ _ _) as [r1 s1] eqn:Hw. apply write_batches_plan in Hw as (k & Hl & Ht & Hpre & Hok); [|done]. rewrite batches_concat in Hpre, Hok by done.
    exists k. destruct r1 as [[]|e]; injection Hrun as <- <-; cbn in *; (split_and!; try done); intros rep [= <-]. cbn. split_and!; try done. intros _. by apply Hok.
Qed.

Definition declared (onto : Ontology) (c : str) : Prop := c ∈ rt_name <$> relation_types onto.
Lemma evidence_declared onto x c : evidence (build_lexical_index onto) x = Some c → declared onto c.
Proof.
  unfold evidence. destruct (ix_exact _ !! _) as [t|] eqn:Ht.
  - intros [= <-]. apply alias_map_declared in Ht as (rt & Hrt & <-). apply list_elem_of_In, filter_In in Hrt as [Hrt%list_elem_of_In _].
    by apply list_elem_of_fmap_2.
  - unfold keyword_match. intros Hk. apply find_first_Some in Hk as ([kw t] & Hin & Hc). destruct (contains _ _); [|done]. injection Hc as ->.
    cbn in Hin. apply list_elem_of_In, in_concat in Hin as (l & Hl%list_elem_of_In & Hin%list_elem_of_In). apply list_elem_of_fmap in Hl as (rt & -> & Hrt).
    destruct (rt_extract rt); [|by apply elem_of_nil in Hin]. apply list_elem_of_fmap in Hin as (? & [= -> ->] & _). by apply list_elem_of_fmap_2.
Qed.
Lemma classify_declared onto name rt c : classify_edge_lexically name rt (build_lexical_index onto) = Mapped c → declared onto c ∧ is_noise_edge name = false.
Proof.
  unfold classify_edge_lexically. destruct (is_noise_edge name); [done|]. intros H. split; [|done]. revert H.
  destruct (match rt with Some _ => _ | None => _ end); [done|]. destruct rt as [rt|].
  - case_bool_decide as Ha; [intros [= <-]|].
    { cbn in Ha. apply elem_of_list_to_set, list_elem_of_fmap in Ha as (x & -> & Hx%list_elem_of_In%filter_In). destruct Hx as [Hx%list_elem_of_In _]. by apply list_elem_of_fmap_2. }
    destruct (evidence _ name) eqn:He; [intros [= <-]; by eapply evidence_declared|].
    case_bool_decide as Hc; [intros [= <-]; by apply elem_of_list_to_set in Hc|].
    destruct (evidence _ rt) eqn:Hr; [intros [= <-]; by eapply evidence_declared|done].
  - destruct (evidence _ name) eqn:He; [intros [= <-]; by eapply evidence_declared|done].
Qed.
Lemma classify_quiet onto name rt : classify_edge_lexically name rt (build_lexical_index onto) ≠ Noise → is_noise_edge name = false.
Proof. unfold classify_edge_lexically. by destruct (is_noise_edge name). Qed.
Lemma count_classes (cl : list (EdgeRecord * EdgeClass)) : (count_class is_mapped cl + count_class is_noise cl + count_class is_residual cl)%nat = length cl.
Proof. unfold count_class. induction cl as [|[e []] cl IH]; cbn in *; lia. Qed.
(** A class goes with its row, and its type is declared. *)
Definition sound_class (onto : Ontology) (row : edge_row) (p : EdgeRecord * EdgeClass) : Prop :=
  p.1 = edge_record row ∧ (∀ c, p.2 = Mapped c → declared onto c) ∧ (p.2 ≠ Noise → is_noise_edge (rw_name row) = false).
Lemma classes_sound params onto table (w : W) : Forall2 (sound_class onto) (group_rows table (cp_group params)) (classes params onto table w).
Proof.
  unfold classes. pose proof (gloss_names onto w) as Hg. destruct (gloss_embeddings onto w) as [[gl wn] w1]. cbn in Hg. set (l := lexical onto <$> _).
  assert (H0 : Forall2 (sound_class onto) (group_rows table (cp_group params)) l).
  { unfold l. rewrite <- list_fmap_compose. apply Forall2_fmap_r, Forall_Forall2_diag, Forall_forall. intros row _. split_and!; [done| |].
    - intros c Hc. exact (proj1 (classify_declared _ _ _ _ Hc)).
    - exact (classify_quiet onto _ _). }
  destruct gl as [|g gl]; [exact H0|]. destruct (promote_residuals _ _ _ _ _) as [[o n] w'] eqn:Hp. apply promote_keeps in Hp. cbn [fst].
  apply Forall2_same_length_lookup_2; [by rewrite (Forall2_length _ _ _ H0), (Forall2_length _ _ _ Hp)|]. intros i row p Hrow Hpi.
  destruct (Forall2_lookup_r _ _ _ _ _ Hp Hpi) as (q & Hq & Hq1 & Hq2). destruct (Forall2_lookup_lr _ _ _ _ _ _ H0 Hrow Hq) as (He & Hm & Hn).
  split; [congruence|]. destruct Hq2 as [Hq2|(Hres & d & Hd & Hin)]; [by rewrite <- Hq2|]. rewrite Hd. split; [|intros _; apply Hn; by rewrite Hres].
  intros c [= <-]. by apply Hg.
Qed.
Lemma blank_column row : trim (default [] (er_type (edge_record row))) = [] → trim (default [] (rw_type row)) = [].
Proof. by destruct row as [? ? ? ? [[|]|]]. Qed.
(** One planned statement. *)
Lemma planned onto row p rt : sound_class onto row p → target (er_type p.1) p.2 = Some rt →
  (rt = UNCLASSIFIED ∨ declared onto rt) ∧ er_type (edge_record row) ≠ Some rt ∧ (is_noise_edge (rw_name row) = true → trim (default [] (rw_type row)) = []).
Proof.
  destruct p as [e c]. intros (He & Hm & Hn). cbn [fst snd] in *. subst e. unfold target. destruct c as [c| |].
  - case_bool_decide as Hne; [done|]. intros [= <-]. split_and!; [right; by apply Hm|done|by rewrite Hn].
  - destruct (nonempty _) eqn:Hb; [done|]. intros [= <-]. assert (Hb' : trim (default [] (er_type (edge_record row))) = []) by (by destruct (trim _)).
    split_and!; [by left|intros Hu; by rewrite Hu in Hb'|intros _; by apply blank_column].
  - case_bool_decide as Hne; [done|]. intros [= <-]. split_and!; [by left|done|by rewrite Hn].
Qed.
Lemma group_rows_elem row table gid : row ∈ group_rows table gid → row ∈ table ∧ rw_group row = gid.
Proof.
  unfold group_rows. rewrite sort_by_perm. intros Hrow. apply list_elem_of_In, filter_In in Hrow as [Hrow Hg].
  split; [by apply list_elem_of_In|]. by apply bool_decide_eq_true in Hg.
Qed.

End run.

(** ** A second run *)

Section again.
Context {U : Unicode} {VF : VecFloats} {W : Type} {CD : CanonDeps W} (threshold0 : F32).
Hypothesis alone : ∀ (w : W) t, cd_others w t = t.
Context (f : str → result Error vec).
Hypothesis stateless : ∀ t (w : W), (cd_embed t w).1 = f t.
Context (onto : Ontology) (th : F32).
(** The marker of residual edges is no evidence of another type, and no type is blank. *)
Definition marker_inert : Prop := ∀ c, evidence (build_lexical_index onto) UNCLASSIFIED = Some c → c = UNCLASSIFIED.
Hypothesis inert : marker_inert.
Hypothesis named : ∀ c, declared onto c → trim c ≠ [].

Definition final (row : edge_row) : EdgeRecord * EdgeClass := settle f th onto (lexical onto (edge_record row)).
(** A row after a run. *)
Definition retyped (row : edge_row) : edge_row :=
  match target (er_type (edge_record row)) (final row).2 with
  | Some rt => {| rw_uuid := rw_uuid row; rw_group := rw_group row; rw_name := rw_name row; rw_fact := rw_fact row; rw_type := Some rt |}
  | None => row
  end.
Lemma some_type rt : trim rt ≠ [] → match rt with [] => None | _ => Some rt end = Some rt.
Proof. by destruct rt. Qed.
Lemma nonblank rt : trim rt ≠ [] → nonempty (trim rt) = true.
Proof. by destruct (trim rt). Qed.
(** An edge that had no evidence and is now typed [rt] is left alone, when [rt] settles itself. *)
Lemma idle_typed name rt fact : trim rt ≠ [] →
  (is_noise_edge name = true ∨ evidence (build_lexical_index onto) name = Some rt ∨
   (evidence (build_lexical_index onto) name = None ∧
     (declared onto rt ∨ (rt = UNCLASSIFIED ∧ fallback f th onto fact = None)))) →
  target (Some rt) (settle f th onto (lexical onto {| er_uuid := []; er_name := name; er_type := Some rt; er_fact := fact |})).2 = None.
Proof.
  intros Hrt Hcase. unfold settle, lexical. cbn [fst snd er_name er_type er_fact]. unfold classify_edge_lexically.
  assert (Hnoise : target (Some rt) Noise = None) by (unfold target; change (default [] (Some rt)) with rt; by rewrite nonblank).
  assert (Hself : target (Some rt) (Mapped rt) = None) by (cbn; by rewrite bool_decide_true).
  destruct (is_noise_edge name); [exact Hnoise|]. destruct Hcase as [?|Hcase]; [done|].
  destruct (is_noise_edge rt); [exact Hnoise|]. case_bool_decide; [exact Hself|].
  destruct Hcase as [->|[-> Hcase]]; [exact Hself|]. case_bool_decide as Hcan; [exact Hself|].
  destruct Hcase as [Hd|[-> Hf]].
  - exfalso. apply Hcan. cbn. by apply elem_of_list_to_set.
  - destruct (evidence _ UNCLASSIFIED) as [c|] eqn:He; [apply inert in He as ->; exact Hself|]. rewrite Hf. cbn. by rewrite bool_decide_true.
Qed.
Lemma settle_uuid u name rt fact : (settle f th onto (lexical onto {| er_uuid := u; er_name := name; er_type := rt; er_fact := fact |})).2 =
  (settle f th onto (lexical onto {| er_uuid := []; er_name := name; er_type := rt; er_fact := fact |})).2.
Proof. done. Qed.
Lemma retyped_idle (w : W) row : target (er_type (edge_record (retyped row))) (final (retyped row)).2 = None.
Proof.
  unfold retyped. destruct (target _ (final row).2) as [rt|] eqn:Ht; [|exact Ht]. destruct row as [u g name fact ty]. cbn [rw_uuid rw_group rw_name rw_fact].
  assert (Hun : trim UNCLASSIFIED ≠ []) by done.
  cut (trim rt ≠ [] ∧ (is_noise_edge name = true ∨ evidence (build_lexical_index onto) name = Some rt ∨
   (evidence (build_lexical_index onto) name = None ∧ (declared onto rt ∨ (rt = UNCLASSIFIED ∧ fallback f th onto fact = None))))).
  { intros [Hrt H]. unfold final, edge_record. cbn [rw_uuid rw_name rw_type rw_fact er_type]. rewrite some_type by done. rewrite settle_uuid. by apply idle_typed. }
  revert Ht. unfold final, settle, lexical, edge_record. cbn [fst snd rw_uuid rw_name rw_type rw_fact er_name er_type er_fact].
  set (cur := match ty with Some [] | None => None | Some t => Some t end).
  assert (Hcur : ∀ t, cur = Some t → t ≠ []) by (intros t; unfold cur; destruct ty as [[|]|]; intros [= <-]; done). clearbody cur. clear ty.
  unfold classify_edge_lexically. destruct (is_noise_edge name) eqn:Hn.
  { cbn. destruct (nonempty _); [done|]. intros [= <-]. split; [done|by left]. }
  destruct (match cur with Some t => is_noise_edge t | None => false end) eqn:Hnt.
  { destruct cur as [t|]; [|done]. assert (Htr : trim t ≠ []) by (intros Htr; by rewrite (blank_not_noise t Htr) in Hnt).
    intros H. exfalso. revert H. unfold target. change (default [] (Some t)) with t. by rewrite nonblank. }
  assert (Hmapped : ∀ c, declared onto c → (cur ≠ Some c → evidence (build_lexical_index onto) name = Some c ∨ evidence (build_lexical_index onto) name = None) →
    target cur (Mapped c) = Some rt → trim rt ≠ [] ∧ (false = true ∨ evidence (build_lexical_index onto) name = Some rt ∨
      (evidence (build_lexical_index onto) name = None ∧ (declared onto rt ∨ (rt = UNCLASSIFIED ∧ fallback f th onto fact = None))))).
  { intros c Hc He. cbn. case_bool_decide as Hne; [done|]. intros [= <-]. split; [by apply named|]. right. destruct (He Hne); [by left|right]. auto. }
  assert (Hres : evidence (build_lexical_index onto) name = None →
    target cur match fallback f th onto fact with Some c => Mapped c | None => Residual end = Some rt → trim rt ≠ [] ∧ (false = true ∨ evidence (build_lexical_index onto) name = Some rt ∨
      (evidence (build_lexical_index onto) name = None ∧ (declared onto rt ∨ (rt = UNCLASSIFIED ∧ fallback f th onto fact = None))))).
  { intros He. destruct (fallback f th onto fact) as [c|] eqn:Hf; [apply Hmapped; [by eapply (fallback_declared f stateless w)|by right]|].
    cbn. case_bool_decide; [done|]. intros [= <-]. split; [done|]. right. right. auto. }
  destruct cur as [t|].
  - case_bool_decide as Ha; [intros H; cbn in H; by rewrite bool_decide_true in H|].
    destruct (evidence _ name) as [c|] eqn:He; [apply Hmapped; [by eapply evidence_declared|by left]|].
    case_bool_decide as Hc; [intros H; cbn in H; by rewrite bool_decide_true in H|].
    destruct (evidence _ t) as [c|] eqn:Het; [apply Hmapped; [by eapply evidence_declared|by right]|by apply Hres].
  - destruct (evidence _ name) as [c|] eqn:He; [apply Hmapped; [by eapply evidence_declared|by left]|by apply Hres].
Qed.

Lemma classes_final params table (w : W) : default threshold0 (cp_threshold params) = th →
  classes threshold0 params onto table w = final <$> group_rows table (cp_group params).
Proof.
  intros Hth. unfold classes. pose proof (gloss_embeddings_stateless f stateless onto w) as Hg. destruct (gloss_embeddings onto w) as [[gl wn] w1]. cbn in Hg. subst gl.
  rewrite <- list_fmap_compose. destruct (glosses f onto) as [|g gl] eqn:Hgl.
  - apply list_fmap_ext. intros _ row _. unfold final, settle, fallback. rewrite Hgl. unfold lexical. cbn [compose fst snd]. by destruct (classify_edge_lexically _ _ _).
  - rewrite <- Hgl, Hth. rewrite (promote_settles f stateless) by (by rewrite Hgl). by rewrite <- list_fmap_compose.
Qed.
Definition with_type (rt : str) (r : edge_row) : edge_row := {| rw_uuid := rw_uuid r; rw_group := rw_group r; rw_name := rw_name r; rw_fact := rw_fact r; rw_type := Some rt |}.
Lemma applied_map (sts : list statement) : NoDup sts.*1 → ∀ table, applied sts table =
  (λ r, match (list_to_map sts : gmap str str) !! rw_uuid r with Some rt => with_type rt r | None => r end) <$> table.
Proof.
  induction sts as [|[u rt] sts IH]; intros Hn table; [by rewrite list_fmap_id|].
  change (applied ((u, rt) :: sts) table) with (applied sts (set_relation_type (u, rt) table)). apply NoDup_cons in Hn as [Hu Hn]. rewrite IH by done.
  unfold set_relation_type. rewrite <- list_fmap_compose. apply list_fmap_ext. intros _ r _. cbn. rewrite lookup_insert.
  case_bool_decide as Hr; cbn in Hr |- *; [|by rewrite decide_False by congruence]. subst u. rewrite decide_True by done. by rewrite not_elem_of_list_to_map_1.
Qed.
Lemma final_record r : (final r).1 = edge_record r.
Proof. done. Qed.
Lemma plan_cons r l : plan (final <$> r :: l) =
  match target (er_type (edge_record r)) (final r).2 with Some rt => [(rw_uuid r, rt)] | None => [] end ++ plan (final <$> l).
Proof.
  unfold plan. cbn [fmap list_fmap omap list_omap]. pose proof (final_record r) as Hf. destruct (final r) as [e c]. cbn in Hf. subst e. cbn [snd er_uuid edge_record].
  by destruct (target _ c).
Qed.
Lemma plan_keys l : (plan (final <$> l)).*1 `sublist_of` (rw_uuid <$> l).
Proof. induction l as [|r l IH]; [done|]. rewrite plan_cons. destruct (target _ _); cbn; by constructor. Qed.
Lemma group_rows_nodup table gid : NoDup (rw_uuid <$> table) → NoDup (rw_uuid <$> group_rows table gid).
Proof.
  intros H. unfold group_rows. rewrite (fmap_Permutation _ _ _ (sort_by_perm _ _)). induction table as [|r table IH]; [done|].
  cbn in *. apply NoDup_cons in H as [Hr H]. destruct (bool_decide _); cbn; [|by apply IH]. constructor; [|by apply IH].
  intros (x & Hx & Hin)%list_elem_of_fmap. apply Hr. rewrite Hx. apply list_elem_of_fmap_2. apply list_elem_of_In, filter_In in Hin as [Hin _]. by apply list_elem_of_In.
Qed.
Definition one_pass (gid : str) (r : edge_row) : edge_row := if bool_decide (rw_group r = gid) then retyped r else r.
Lemma applied_plan table gid : NoDup (rw_uuid <$> table) → applied (plan (final <$> group_rows table gid)) table = one_pass gid <$> table.
Proof.
  intros Hn. pose proof (sublist_NoDup _ _ (group_rows_nodup table gid Hn) (plan_keys (group_rows table gid))) as Hk. rewrite applied_map by done.
  apply list_fmap_ext. intros i r Hr. unfold one_pass.
  assert (Hin : ∀ rt, (rw_uuid r, rt) ∈ plan (final <$> group_rows table gid) ↔ rw_group r = gid ∧ target (er_type (edge_record r)) (final r).2 = Some rt).
  { intros rt. unfold plan. rewrite list_elem_of_omap. split.
    - intros ([e c] & Hec & Ht). apply list_elem_of_fmap in Hec as (r' & Hf & Hr'). apply group_rows_elem in Hr' as [Hr' Hg].
      assert (He : e = edge_record r') by (change e with (e, c).1; by rewrite Hf). subst e. destruct (target _ c) as [t|] eqn:Htt; cbn in Ht; [|done]. injection Ht as Hu <-.
      assert (r' = r) as ->; [|by rewrite <- Hf]. apply list_elem_of_lookup_1 in Hr' as [j Hj].
      assert (i = j) as ->; [|congruence]. eapply (NoDup_lookup (rw_uuid <$> table)); [done|by rewrite list_lookup_fmap, Hr|by rewrite list_lookup_fmap, Hj; cbn; rewrite Hu].
    - intros [Hg Ht]. exists (final r). split.
      + apply list_elem_of_fmap_2. unfold group_rows. rewrite sort_by_perm. apply list_elem_of_In, filter_In. split; [apply list_elem_of_In; by eapply list_elem_of_lookup_2|by apply bool_decide_eq_true].
      + pose proof (final_record r) as Hf. destruct (final r) as [e c]. cbn in Hf. subst e. cbn in Ht |- *. by rewrite Ht. }
  destruct (list_to_map _ !! rw_uuid r) as [rt|] eqn:Hl.
  - apply elem_of_list_to_map_2, Hin in Hl as [Hg Ht]. rewrite bool_decide_true by done. unfold retyped. by rewrite Ht.
  - case_bool_decide as Hg; [|done]. unfold retyped. destruct (target _ _) as [rt|] eqn:Ht; [|done]. exfalso.
    apply not_elem_of_list_to_map_2 in Hl. apply Hl. apply list_elem_of_fmap. exists (rw_uuid r, rt). split; [done|]. by apply Hin.
Qed.
Lemma group_rows_after table gid : group_rows (one_pass gid <$> table) gid = retyped <$> group_rows table gid.
Proof.
  assert (Hkeep : ∀ r, rw_group (retyped r) = rw_group r ∧ rw_uuid (retyped r) = rw_uuid r) by (intros r; unfold retyped; by destruct (target _ _)).
  unfold group_rows. rewrite <- (sort_by_fmap retyped (λ a b, str_leb (rw_uuid a) (rw_uuid b)) (λ a b, str_leb (rw_uuid a) (rw_uuid b))) by (intros a b; by rewrite (proj2 (Hkeep a)), (proj2 (Hkeep b))).
  f_equal. induction table as [|r table IH]; [done|].
  assert (Hp : rw_group (one_pass gid r) = rw_group r) by (unfold one_pass; case_bool_decide; [apply Hkeep|done]).
  cbn [fmap list_fmap List.filter]. rewrite (bool_decide_ext (rw_group (one_pass gid r) = gid) (rw_group r = gid)) by (by rewrite Hp).
  case_bool_decide as Hg; [|exact IH]. cbn [fmap list_fmap]. f_equal; [|exact IH]. unfold one_pass. by rewrite bool_decide_true.
Qed.

(** The pass is idempotent, under conditions on the ontology: once a pass over a group has
    succeeded, another one with the same threshold, however it ends, writes nothing, so that a
    pass that was interrupted can be run again.  The embedder must answer the same text in the
    same way, no declared type may be blank, and the marker [UNCLASSIFIED] must itself be no
    evidence of a type. *)
Theorem canonicalization_idempotent (params again : CanonicalizeParams) (s s1 s2 : cst) (rep : CanonicalizeReport) (r : result Error CanonicalizeReport)
    (Huuids : NoDup (rw_uuid <$> cs_table s)) (Hwet : cp_dry_run params = false)
    (Hth : default threshold0 (cp_threshold params) = th) (Hth2 : default threshold0 (cp_threshold again) = th) (Hgid : cp_group again = cp_group params)
    (Hfirst : canonicalize_relations threshold0 params onto s = (Ok rep, s1))
    (Hsecond : canonicalize_relations threshold0 again onto s1 = (r, s2)) :
  cs_log s2 = cs_log s1 ∧ cs_table s2 = cs_table s1.
Proof.
  apply (run_cases threshold0 alone) in Hfirst as (k & _ & Ht & _ & _ & Hrep). destruct (Hrep rep eq_refl) as (Hk & _).
  rewrite classes_final in Hk by done. rewrite (Hk Hwet), applied_plan in Ht by done.
  apply (run_cases threshold0 alone) in Hsecond as (k2 & Hl2 & Ht2 & Hpre & _). rewrite classes_final, Ht, Hgid, group_rows_after in Hpre by done.
  assert (Hnil : plan (final <$> (retyped <$> group_rows (cs_table s) (cp_group params))) = []).
  { generalize (group_rows (cs_table s) (cp_group params)) as l. intros l. induction l as [|row l IH]; [done|].
    cbn [fmap list_fmap]. change (plan (final <$> retyped row :: (retyped <$> l)) = []). by rewrite plan_cons, (retyped_idle (cs_world s)). }
  rewrite Hnil in Hpre. apply prefix_nil_inv in Hpre as ->. rewrite app_nil_r in Hl2. by split.
Qed.
End again.

(** ** Concrete passes *)

Definition toy_one : list (@F32 ToyVec) := [1%N].
Definition ToyCanon : @CanonDeps unit ToyVec := {|
  cd_db _ := true; cd_connect_error _ := None; cd_page_error _ _ := None; cd_others _ t := t; cd_embed _ w := (Ok toy_one, w); cd_exec_error _ _ := None;
  cd_flush _ sts w := (Some (N.of_nat (length sts), None), w); cd_position_ok _ := true; cd_identity := (#"toy", 1%Z); cd_next w := w |}.
Definition toy_relation (name : string) (keywords : list string) : RelationTypeDef :=
  {| rt_name := lit name; rt_description := None; rt_source_type := None; rt_target_type := None; rt_aliases := []; rt_keywords := lit <$> keywords; rt_extract := true |}.
Definition toy_relations (l : list RelationTypeDef) : Ontology := {| mode := Open; entity_types := []; relation_types := l; ancestor_map := ∅ |}.
Definition toy_edge_row (uuid name : string) : edge_row := {| rw_uuid := lit uuid; rw_group := #"g"; rw_name := lit name; rw_fact := #"fact"; rw_type := None |}.
Definition toy_table : list edge_row := [toy_edge_row "e2" "met at school"; toy_edge_row "e1" "is employed by"; toy_edge_row "e3" "NASA -> ESA"].
Definition toy_pass (onto : Ontology) (s : @cst unit) := @canonicalize_relations AsciiUnicode ToyVec unit ToyCanon 1%N {| cp_group := #"g"; cp_dry_run := false; cp_threshold := None |} onto s.
Definition toy_before : @cst unit := {| cs_world := tt; cs_table := toy_table; cs_positions := ∅; cs_log := [] |}.
Definition toy_employs : Ontology := toy_relations [toy_relation "WORKS_AT" ["employ"]].
Definition toy_after : @cst unit := (toy_pass toy_employs toy_before).2.
Lemma canonicalization_idempotent_witness : cs_log (toy_pass toy_employs toy_after).2 = cs_log toy_after.
Proof.
  assert (H : ∃ rep, (toy_pass toy_employs toy_before).1 = Ok rep) by (eexists; vm_compute; reflexivity). destruct H as [rep Hrep].
  refine (proj1 (@canonicalization_idempotent AsciiUnicode ToyVec unit ToyCanon 1%N (λ _ _, eq_refl) (λ _, Ok toy_one) (λ _ _, eq_refl) toy_employs 1%N _ _
    {| cp_group := #"g"; cp_dry_run := false; cp_threshold := None |} {| cp_group := #"g"; cp_dry_run := false; cp_threshold := None |}
    toy_before toy_after (toy_pass toy_employs toy_after).2 rep (toy_pass toy_employs toy_after).1 _ eq_refl eq_refl eq_refl eq_refl _ (surjective_pairing _))).
  - intros c Hc. vm_compute in Hc. discriminate Hc.
  - intros c Hc. apply list_elem_of_singleton in Hc as ->. vm_compute. discriminate.
  - apply (bool_decide_unpack _). vm_compute. exact I.
  - change (toy_pass toy_employs toy_before = (Ok rep, toy_after)). rewrite <- Hrep. apply surjective_pairing.
Defined.

(** The documentation calls the pass idempotent without conditions.  It is not when a keyword
    is part of the marker's own text: with the keyword [class], the first pass marks an edge it
    knows nothing of as [UNCLASSIFIED], and the second takes that mark for evidence and retypes
    the edge. *)
Theorem marker_taken_for_evidence :
  let onto := toy_relations [toy_relation "CLASSMATE_OF" ["class"]] in
  let first := (toy_pass onto toy_before).2 in
  cs_log first = [(#"e1", UNCLASSIFIED); (#"e2", UNCLASSIFIED); (#"e3", UNCLASSIFIED)] ∧
  cs_log (toy_pass onto first).2 = cs_log first ++ [(#"e1", #"CLASSMATE_OF"); (#"e2", #"CLASSMATE_OF")].
Proof. vm_compute. split; reflexivity. Qed.
