(* ===== verification/Episode.v ===== *)
(** * Episode: ingesting one episode (core/src/episode.rs)

    The whole of [add_episode] as a computation over the database, the ontology state and the
    outside world [W].  The embedder, the extractor, the judge, the index searches, the flush to
    the log and the generator of uuids are the class [EpisodeDeps]; before each access to the
    database other writers may have changed it.  A computation ends with a value, an error, or,
    where the code indexes past the end of a list, a panic.  Of a select between a call and the
    cancellation token, the token wins when it is seen set.  Queries are taken to succeed, except
    the index search; a statement is recorded by the connection that ran it.  Log lines are left
    out. *)

From S2P Require Import Prelude Text Numbers Json WalGeneration WalScan Checkpoint WalGroup Wal LegacyWal Replay Pointer Ontology SummaryMerge Replies Prompts Extraction Graph OntologyState IdentifierVeto Search DedupAdapter DedupSearch EpisodeFilter.

(** ** Rows *)

Section rows.
Context {VF : VecFloats}.
(** Source: core/src/types.rs 67-94 (EntityRow) *)
Record EntityRow := {
  ey_uuid : str; ey_name : str; ey_group : str; ey_labels : list str; ey_kind : str; ey_created : str; ey_name_vec : vec;
  ey_summary : str; ey_attrs : str; ey_summary_vec : vec }.
(** Source: core/src/types.rs 171-204 (RelatesToEdge) *)
Record RelatesToEdge := {
  re_uuid : str; re_name : str; re_src : str; re_dst : str; re_group : str; re_fact : str; re_vec : vec; re_created : str;
  re_valid : option str; re_invalid : option str; re_attrs : str; re_type : option str }.
(** Source: core/src/types.rs 140-168 (EpisodicRow) *)
Record EpisodicRow := {
  ep_uuid : str; ep_name : str; ep_group : str; ep_created : str; ep_source : str; ep_source_description : str; ep_content : str;
  ep_vec : vec; ep_valid : str; ep_entity_edges : list str; ep_attrs : str }.
(** Source: core/src/types.rs 206-210 (MentionsEdge) *)
Record MentionsEdge := { me_episode : str; me_entity : str; me_group : str }.
(** The tables: the graph, the other columns of its rows by uuid, the episodes and their mentions,
    and each group's position in its log. *)
Record store := {
  sto_graph : graph; sto_name_vec : gmap str vec; sto_summary : gmap str str; sto_summary_vec : gmap str vec;
  sto_edges : list RelatesToEdge; sto_episodes : list EpisodicRow; sto_mentions : list MentionsEdge;
  sto_positions : gmap str (N * option str) }.
Definition with_graph (g : graph) (s : store) : store :=
  {| sto_graph := g; sto_name_vec := sto_name_vec s; sto_summary := sto_summary s; sto_summary_vec := sto_summary_vec s;
     sto_edges := sto_edges s; sto_episodes := sto_episodes s; sto_mentions := sto_mentions s; sto_positions := sto_positions s |}.
(** What a connection has recorded goes with it. *)
Definition fresh_conn (s : store) : store :=
  let g := sto_graph s in
  with_graph {| g_ents := g_ents g; g_eps := g_eps g; g_rels := g_rels g; g_direct := g_direct g; g_kinds := g_kinds g; g_scans := g_scans g; g_pending := [] |} s.

(** Source: core/src/db.rs 4410-4421 (enforce_entity_first) *)
Definition enforce_entity_first (labels : list str) : list str :=
  if bool_decide (head labels = Some #"Entity") then labels
  else #"Entity" :: List.filter (λ l : str, negb (bool_decide (l = #"Entity"))) labels.
(** Source: core/src/db.rs 4393-4399 (labels_with_kind) *)
Definition labels_with_kind (labels : list str) (kind : str) : list str :=
  let out := enforce_entity_first labels in if bool_decide (kind ∈ out) then out else out ++ [kind].
(** [ts] reads a timestamp's text.
    Source: core/src/db.rs 750-792 (insert_entity) *)
Definition insert_entity `{Unicode} (ts : str → N) (row : EntityRow) (s : store) : result Error store :=
  match normalize_kind (if nonempty (trim (ey_kind row)) then Some (ey_kind row) else None) with
  | Err e => Err e
  | Ok kind =>
      let sv := match ey_summary_vec row with [] => replicate (length (ey_name_vec row)) f32_zero | v => v end in
      let e := {| en_uuid := ey_uuid row; en_name := ey_name row; en_group := ey_group row; en_labels := labels_with_kind (ey_labels row) kind;
                  en_kind := Some kind; en_key := Some (compute_lookup_key (ey_group row) kind (ey_name row)); en_created := ts (ey_created row); en_attrs := ey_attrs row |} in
      let g := sto_graph s in
      Ok {| sto_graph := register_kind kind (record_mut (ey_group row) (MEntity (ey_uuid row)) (with_ents (g_ents g ++ [e]) g));
            sto_name_vec := <[ey_uuid row := ey_name_vec row]> (sto_name_vec s); sto_summary := <[ey_uuid row := ey_summary row]> (sto_summary s);
            sto_summary_vec := <[ey_uuid row := sv]> (sto_summary_vec s); sto_edges := sto_edges s; sto_episodes := sto_episodes s;
            sto_mentions := sto_mentions s; sto_positions := sto_positions s |}
  end.
(** One statement sets the summary and its vector, if there is such a row.
    Source: core/src/episode.rs 1254-1264 (add_episode) *)
Definition set_summary (group_id uuid summary : str) (emb : vec) (s : store) : store :=
  let s := with_graph (record_mut group_id (MSummary uuid) (sto_graph s)) s in
  if has_entity (sto_graph s) uuid then
    {| sto_graph := sto_graph s; sto_name_vec := sto_name_vec s; sto_summary := <[uuid := summary]> (sto_summary s);
       sto_summary_vec := <[uuid := emb]> (sto_summary_vec s); sto_edges := sto_edges s; sto_episodes := sto_episodes s;
       sto_mentions := sto_mentions s; sto_positions := sto_positions s |}
  else s.
Definition insert_edge (e : RelatesToEdge) (s : store) : store :=
  let g := insert_relates_to_edge (re_uuid e) (re_name e) (re_src e) (re_dst e) (re_group e) (re_attrs e) (re_invalid e) (sto_graph s) in
  {| sto_graph := g; sto_name_vec := sto_name_vec s; sto_summary := sto_summary s; sto_summary_vec := sto_summary_vec s;
     sto_edges := sto_edges s ++ [e]; sto_episodes := sto_episodes s; sto_mentions := sto_mentions s; sto_positions := sto_positions s |}.
(** Source: core/src/db.rs 794-815 (insert_episodic) *)
Definition insert_episodic (row : EpisodicRow) (s : store) : store :=
  let g := sto_graph s in
  let g := record_mut (ep_group row) (MEpisode (ep_uuid row)) (with_eps (g_eps g ++ [(ep_uuid row, ep_group row)]) g) in
  {| sto_graph := g; sto_name_vec := sto_name_vec s; sto_summary := sto_summary s; sto_summary_vec := sto_summary_vec s;
     sto_edges := sto_edges s; sto_episodes := sto_episodes s ++ [row]; sto_mentions := sto_mentions s; sto_positions := sto_positions s |}.
(** Nothing is created unless both rows exist.
    Source: core/src/db.rs 1100-1110 (insert_mentions_edge) *)
Definition insert_mentions_edge (m : MentionsEdge) (s : store) : store :=
  let s := with_graph (record_mut (me_group m) (MMention (me_episode m) (me_entity m)) (sto_graph s)) s in
  if bool_decide (me_episode m ∈ fst <$> g_eps (sto_graph s)) && has_entity (sto_graph s) (me_entity m) then
    {| sto_graph := sto_graph s; sto_name_vec := sto_name_vec s; sto_summary := sto_summary s; sto_summary_vec := sto_summary_vec s;
       sto_edges := sto_edges s; sto_episodes := sto_episodes s; sto_mentions := sto_mentions s ++ [m]; sto_positions := sto_positions s |}
  else s.
Definition set_position (group_id : str) (p : N * option str) (s : store) : store :=
  {| sto_graph := sto_graph s; sto_name_vec := sto_name_vec s; sto_summary := sto_summary s; sto_summary_vec := sto_summary_vec s;
     sto_edges := sto_edges s; sto_episodes := sto_episodes s; sto_mentions := sto_mentions s; sto_positions := <[group_id := p]> (sto_positions s) |}.
End rows.

(** Source: core/src/episode.rs 31-53 (DedupPathCounts) *)
Record DedupPathCounts := {
  exact_name : N; embedding_merge : N; path_vetoed : N; adapter_rejected : N; llm_confirmed : N; llm_rejected : N; llm_unavailable : N; salvage_vetoed : N }.
Inductive path := ExactName | EmbeddingMerge | Vetoed | AdapterRejected | LlmConfirmed | LlmRejected | LlmUnavailable | SalvageVetoed.
Global Instance path_eq_dec : EqDecision path.
Proof. solve_decision. Defined.
Definition path_count (p : path) (c : DedupPathCounts) : N :=
  match p with
  | ExactName => exact_name c | EmbeddingMerge => embedding_merge c | Vetoed => path_vetoed c | AdapterRejected => adapter_rejected c
  | LlmConfirmed => llm_confirmed c | LlmRejected => llm_rejected c | LlmUnavailable => llm_unavailable c | SalvageVetoed => salvage_vetoed c end.
Definition counts_of (f : path → N) : DedupPathCounts :=
  {| exact_name := f ExactName; embedding_merge := f EmbeddingMerge; path_vetoed := f Vetoed; adapter_rejected := f AdapterRejected;
     llm_confirmed := f LlmConfirmed; llm_rejected := f LlmRejected; llm_unavailable := f LlmUnavailable; salvage_vetoed := f SalvageVetoed |}.
Definition no_paths : DedupPathCounts := counts_of (λ _, 0%N).
(** [counts.p += 1] *)
Definition tally_path (p : path) (c : DedupPathCounts) : DedupPathCounts :=
  counts_of (λ q, if bool_decide (q = p) then (path_count q c + 1)%N else path_count q c).
(** Source: core/src/types.rs 297-301 (UnresolvedEndpoint) *)
Inductive UnresolvedEndpoint := USource | UTarget | UBoth.
(** Source: core/src/types.rs 308-314 (DroppedEdgeDetail) *)
Record DroppedEdgeDetail := { de_source : str; de_target : str; de_type : option str; de_fact : str; de_unresolved : UnresolvedEndpoint }.
(** Source: core/src/episode.rs 56-104 (AddEpisodeResult) *)
Record AddEpisodeResult := {
  episode_uuid : str; nodes_extracted : N; edges_extracted : N; edges_dropped_unresolvable : N; edges_dropped_self_loop : N;
  dropped_edges : list DroppedEdgeDetail; edges_reclassified_unclassified : N; entities_reclassified_unclassified : N;
  entities_dropped_malformed : N; edges_dropped_malformed : N; dedup_paths : DedupPathCounts }.
(** Source: core/src/episode.rs 227-231 (EndpointResolution) *)
Inductive EndpointResolution := Found (uuid : str) | Missing | Ambiguous_.
(** Source: core/src/episode.rs 234-239 (into_uuid) *)
Definition into_uuid (r : EndpointResolution) : option str := match r with Found u => Some u | _ => None end.

(** ** The computation *)

(** What the pipeline calls, over a world [W]. *)
Class EpisodeDeps (W : Type) `{VecFloats, Floats} := {
  ed_cancelled : W → bool;
  ed_others : W → store → store;
  ed_db : W → option str;
  ed_stamp_io : W → option str;
  ed_sidecar_io : W → option str;
  ed_embed : str → W → option (result Error vec) * W;
  ed_embed_batch : list str → W → option (result Error (list vec)) * W;
  ed_dim : nat;
  ed_extract : ExtractOptions → W → option (result Error ExtractionOutcome) * W;
  ed_consolidate : str → str → str → W → option (result Error str) * W;
  ed_judge : list DuplicatePair → W → list DedupVerdict * W;
  ed_mode : DedupMode;
  ed_vector_search : graph → vec → str → option str → nat → list (str * F);
  ed_fts_search : graph → str → str → option str → nat → list (str * F);
  ed_index_error : W → option Error;
  ed_build_indices : W → result Error unit * W;
  ed_display : Error → str;
  ed_hybrid_threshold : N;
  ed_new_uuid : W → str * W;
  ed_hash_order : list (str * str) → list (str * str);
  ed_rfc3339 : str → bool;
  ed_timestamp : str → N;
  ed_flush : str → list (str * gmut) → W → option (N * option str) * W;
  ed_sha256_hex : bytes → str;
}.

Section episode.
Context {U : Unicode} {VF : VecFloats} {FL : Floats} {AC : AttrCodec} {W : Type} {ED : EpisodeDeps W} (ts_text : N → str).

(** [x_drifted] is the workspace's drift flag, [x_wal] whether there is a log to publish beside. *)
Record est := {
  x_world : W; x_store : store; x_onto : ostate; x_cancelled : N; x_active : N; x_indices : bool; x_drifted : bool; x_wal : bool }.
Definition on_world (w : W) (s : est) : est :=
  {| x_world := w; x_store := x_store s; x_onto := x_onto s; x_cancelled := x_cancelled s; x_active := x_active s; x_indices := x_indices s; x_drifted := x_drifted s; x_wal := x_wal s |}.
Definition on_store (st : store) (s : est) : est :=
  {| x_world := x_world s; x_store := st; x_onto := x_onto s; x_cancelled := x_cancelled s; x_active := x_active s; x_indices := x_indices s; x_drifted := x_drifted s; x_wal := x_wal s |}.
Definition on_onto (o : ostate) (s : est) : est :=
  {| x_world := x_world s; x_store := x_store s; x_onto := o; x_cancelled := x_cancelled s; x_active := x_active s; x_indices := x_indices s; x_drifted := x_drifted s; x_wal := x_wal s |}.
Definition on_counts (cancelled active : N) (indices drifted : bool) (s : est) : est :=
  {| x_world := x_world s; x_store := x_store s; x_onto := x_onto s; x_cancelled := cancelled; x_active := active; x_indices := indices; x_drifted := drifted; x_wal := x_wal s |}.

(** The outcome is [None] for a panic. *)
Definition M (A : Type) : Type := est → option (result Error A) * est.
Definition ret {A} (a : A) : M A := λ s, (Some (Ok a), s).
Definition bind {A B} (m : M A) (k : A → M B) : M B := λ s,
  match m s with
  | (Some (Ok a), s) => k a s
  | (Some (Err e), s) => (Some (Err e), s)
  | (None, s) => (None, s)
  end.
Notation "'let*' x := m 'in' k" := (bind m (λ x, k)) (at level 200, x name, m at level 100, k at level 200).
Notation "'let*' ' p := m 'in' k" := (bind m (λ p, k)) (at level 200, p strict pattern, m at level 100, k at level 200).
Definition fail {A} (e : Error) : M A := λ s, (Some (Err e), s).
Definition panic {A} : M A := λ s, (None, s).
Definition of_result {A} (r : result Error A) : M A := match r with Ok a => ret a | Err e => fail e end.
(** Indexing. *)
Definition at_index {A} (l : list A) (i : nat) : M A := match l !! i with Some a => ret a | None => panic end.
Definition call {A} (c : W → option (result Error A) * W) : M A := λ s, let '(r, w) := c (x_world s) in (r, on_world w s).
Definition new_uuid : M str := λ s, let '(u, w) := ed_new_uuid (x_world s) in (Some (Ok u), on_world w s).
(** [select!] between a call and the token, counting the chunk when the token wins. *)
Definition select {A} (m : M A) : M A := λ s,
  if ed_cancelled (x_world s) then (Some (Err Cancelled), on_counts (add64 (x_cancelled s) 1) (x_active s) (x_indices s) (x_drifted s) s) else m s.
Definition check_cancelled : M unit := select (ret tt).
Fixpoint for_each {A B} (l : list A) (f : B → A → M B) (b : B) : M B :=
  match l with [] => ret b | a :: l => let* b := f b a in for_each l f b end.

(** An access to the database on a connection of its own: others came first, and what the
    connection records dies with it unless it is drained. *)
Definition on_conn {A} (m : M A) : M A := λ s,
  let '(r, s) := m (on_store (fresh_conn (ed_others (x_world s) (x_store s))) s) in (r, on_store (fresh_conn (x_store s)) s).
Definition get_store : M store := λ s, (Some (Ok (x_store s)), s).
Definition on_graph {A} (f : graph → A * graph) : M A := λ s,
  let '(a, g) := f (sto_graph (x_store s)) in (Some (Ok a), on_store (with_graph g (x_store s)) s).
Definition modify (f : store → store) : M unit := λ s, (Some (Ok tt), on_store (f (x_store s)) s).
(** Source: core/src/app_state.rs 916-926 (load_db) *)
Definition load_db : M unit := λ s,
  match ed_db (x_world s) with
  | None => (Some (Ok tt), s)
  | Some reason => (Some (Err (DbUnavailable (Msg "{}" [AStr reason]))), s)
  end.
(** What the ontology state sees of the surroundings. *)
Definition onto_env (s : est) : oenv :=
  {| oe_db := match ed_db (x_world s) with None => Some (Ok (graph_db (sto_graph (x_store s)))) | Some _ => None end; oe_stamp_io := ed_stamp_io (x_world s) |}.
Definition check_identity_now (group_id : str) : M unit := λ s,
  let '(r, o) := check_identity ed_sha256_hex (onto_env s) (onto_env s) group_id (x_onto s) in (Some r, on_onto o s).
Definition resolve_ontology_now (group_id : str) : M (option Ontology) := λ s,
  let '(onto, o) := resolve_ontology ed_sha256_hex (onto_env s) group_id (x_onto s) in (Some (Ok onto), on_onto o s).
(** Source: core/src/error.rs 143-146 (is_missing_index_error) *)
Definition is_missing_index_error (e : Error) : bool :=
  let s := ed_display e in contains #"Binder exception:" s && contains #"doesn't have an index with name" s.
(** Source: core/src/app_state.rs 932-960 (build_indices_once) *)
Definition build_indices_once : M unit := λ s,
  if x_indices s then (Some (Ok tt), s)
  else
    match load_db s with
    | (Some (Ok _), s) =>
        let '(r, w) := ed_build_indices (x_world s) in
        let s := on_world w s in
        match r with
        | Ok _ => (Some (Ok tt), on_counts (x_cancelled s) (x_active s) true (x_drifted s) s)
        | Err e => (Some (Err (Ipc (Msg "Auto-build of knowledge graph indices failed: {e}" [AStr (ed_display e)]))), s)
        end
    | (r, s) => (r, s)
    end.

(** ** Endpoints and salvage *)

(** Source: core/src/episode.rs 247-274 (resolve_stored_endpoint) *)
Definition resolve_stored_endpoint (raw_name group_id : str) (kinds : list str) (g : graph) : EndpointResolution * graph :=
  if (length kinds =? 1)%nat then
    let '(hit, g) := get_entity_by_name_ci_with_scan_fallback raw_name group_id DEFAULT_KIND g in
    (match hit with Some e => Found (en_uuid e) | None => Missing end, g)
  else
    let '(hits, g) := resolve_entities_by_name_in_kinds ts_text raw_name group_id kinds g in
    (match hits with [] => Missing | [e] => Found (en_uuid e) | _ => Ambiguous_ end, g).
(** Source: core/src/episode.rs 773-782 (add_episode) *)
Fixpoint exact_hit (variants : list str) (group_id : str) (kinds : list str) (g : graph) : bool * graph :=
  match variants with
  | [] => (false, g)
  | v :: variants =>
      let '(r, g) := resolve_stored_endpoint v group_id kinds g in
      match r with Missing => exact_hit variants group_id kinds g | _ => (true, g) end
  end.
(** Source: core/src/episode.rs 770-789 (add_episode) *)
Fixpoint probe_missing (names : list (str * str)) (variants : gmap str (list str)) (group_id : str) (kinds : list str) (g : graph) : list (str * str) * graph :=
  match names with
  | [] => ([], g)
  | (lower, original) :: names =>
      let '(hit, g) := exact_hit (default [] (variants !! lower)) group_id kinds g in
      let '(out, g) := probe_missing names variants group_id kinds g in
      (if hit then out else (lower, original) :: out, g)
  end.
(** The most similar entity of the batch, the first of equals, and whether one was vetoed.
    Source: core/src/episode.rs 811-831 (add_episode) *)
Fixpoint best_match (original : str) (emb : vec) (i : nat) (name_embeddings : list vec) (entities : list ExtractedEntity) (best : option (F32 * str)) (any_vetoed : bool) :
    option (option (F32 * str) * bool) :=
  match name_embeddings with
  | [] => Some (best, any_vetoed)
  | candidate_emb :: rest =>
      let score := cosine_similarity emb candidate_emb in
      let is_better := match best with Some (b, _) => f32_lt b score | None => true end in
      if f32_ge score DEDUP_THRESHOLD then
        match entities !! i with
        | None => None
        | Some e =>
            if identifier_mismatch original (xe_name e) then best_match original emb (S i) rest entities best true
            else best_match original emb (S i) rest entities (if is_better then Some (score, xe_name e) else best) any_vetoed
        end
      else best_match original emb (S i) rest entities best any_vetoed
  end.
(** Source: core/src/episode.rs 808-842 (add_episode) *)
Definition salvage_one (name_embeddings : list vec) (entities : list ExtractedEntity) (st : gmap str str * DedupPathCounts) (e : str * str * vec) : M (gmap str str * DedupPathCounts) :=
  let '(salvage_map, paths) := st in
  let '(lower, original, emb) := e in
  match best_match original emb 0 name_embeddings entities None false with
  | None => panic
  | Some (None, any_vetoed) => ret (salvage_map, if any_vetoed then tally_path SalvageVetoed paths else paths)
  | Some (Some (_, canonical), _) => ret (<[lower := canonical]> salvage_map, paths)
  end.
(** The missing names with the spelling each was first met in. *)
Definition missing_names (variants : gmap str (list str)) : list (str * str) :=
  ed_hash_order ((λ '(k, vs), (k, default [] (head vs))) <$> map_to_list variants).
(** Source: core/src/episode.rs 709-872 (add_episode) *)
Definition salvage (group_id : str) (kinds : list str) (entities : list ExtractedEntity) (name_embeddings : list vec) (edges : list ExtractedEdge) :
    M (list ExtractedEdge * DedupPathCounts) :=
  match edges with
  | [] => ret ([], no_paths)
  | _ =>
      let variants := missing_variants entities edges in
      let* names := match missing_names variants with
                    | [] => ret []
                    | names => on_conn (on_graph (probe_missing names variants group_id kinds))
                    end in
      let* embeddings := match names with [] => ret [] | _ => select (call (ed_embed_batch (snd <$> names))) end in
      let* '(salvage_map, paths) := for_each (zip names embeddings) (salvage_one name_embeddings entities) (∅, no_paths) in
      ret (if bool_decide (salvage_map = ∅) then edges else drop_self_references (salvage_edge salvage_map <$> edges), paths)
  end.

(** ** Deciding what each entity is *)

(** A stored row as the searches return it. *)
Record found_row := { fr_ent : ent; fr_summary : str }.
Definition found (s : store) (e : ent) : found_row := {| fr_ent := e; fr_summary := default [] (sto_summary s !! en_uuid e) |}.
(** Source: core/src/episode.rs 278-288 (PhaseBResult) *)
Inductive PhaseBResult := NameMatch (existing : found_row) | EmbeddingCandidate (candidate : option found_row) (vetoed : N).
(** Source: core/src/episode.rs 329-364 (resolve_phase_b) *)
Fixpoint resolve_names (group_id : str) (items : list (str * str)) (i : nat) (name_embeddings : list vec) (use_hybrid : bool) (s : store) (index_error : option Error) :
    option (result Error (list PhaseBResult)) :=
  match items with
  | [] => Some (Ok [])
  | (name, kind) :: items =>
      let trimmed := trim name in
      let g := sto_graph s in
      let here : option (result Error PhaseBResult) :=
        match get_entity_by_name_ci g trimmed group_id kind with
        | Some existing => Some (Ok (NameMatch (found s existing)))
        | None =>
            match name_embeddings !! i with
            | None => None
            | Some emb =>
                let selected sel := Some (Ok (EmbeddingCandidate (found s <$> ds_candidate sel) (ds_vetoed sel))) in
                if use_hybrid then
                  match index_error with
                  | Some e => Some (Err e)
                  | None => selected (hybrid_dedup_similar_entity_kind_for_name g (sto_name_vec s) (ed_vector_search g) (ed_fts_search g) emb trimmed group_id DEDUP_THRESHOLD kind)
                  end
                else selected (brute_force_similar_entity_kind_for_name g (sto_name_vec s) emb trimmed group_id DEDUP_THRESHOLD kind)
            end
        end in
      match here with
      | None => None
      | Some (Err e) => Some (Err e)
      | Some (Ok r) =>
          match resolve_names group_id items (S i) name_embeddings use_hybrid s index_error with
          | Some (Ok rs) => Some (Ok (r :: rs))
          | other => other
          end
      end
  end.
(** Source: core/src/episode.rs 318-368 (resolve_phase_b) *)
Definition resolve_phase_b (group_id : str) (entity_names entity_kinds : list str) (name_embeddings : list vec) (use_hybrid : bool) : M (list PhaseBResult) :=
  on_conn (λ s, (resolve_names group_id (zip entity_names entity_kinds) 0 name_embeddings use_hybrid (x_store s) (ed_index_error (x_world s)), s)).
(** Source: core/src/error.rs 137-138 (MISSING_INDEX_USER_MSG) *)
Definition MISSING_INDEX : Error := Ipc (Msg "Knowledge graph indices not yet built. Call knowledge_build_indices to resolve." []).
(** A missing index is built once and the whole pass repeated.
    Source: core/src/episode.rs 904-942 (add_episode) *)
Definition resolve_phase_b_healing (group_id : str) (entity_names entity_kinds : list str) (name_embeddings : list vec) (use_hybrid : bool) : M (list PhaseBResult) := λ s,
  match resolve_phase_b group_id entity_names entity_kinds name_embeddings use_hybrid s with
  | (Some (Err e), s) =>
      if is_missing_index_error e then
        if x_indices s then (Some (Err MISSING_INDEX), s)
        else
          (let* _ := build_indices_once in
           let* _ := load_db in
           λ s, match resolve_phase_b group_id entity_names entity_kinds name_embeddings use_hybrid s with
                | (Some (Err e2), s) => (Some (Err (if is_missing_index_error e2 then MISSING_INDEX else e2)), s)
                | out => out
                end) s
      else (Some (Err e), s)
  | out => out
  end.

(** Source: core/src/episode.rs 131-148 (DedupDecision) *)
Inductive DedupDecision :=
| Merge (existing_uuid merged_summary : str) (summary_embedding : option vec)
| Insert (row : EntityRow).
(** For each uuid: its summary before this chunk, the running one, and its latest decision. *)
Abbreviation merge_states := (gmap str (str * str * nat)).

(** Source: core/src/episode.rs 157-192 (merged_summary_for) *)
Definition merged_summary_for (entity_name current incoming : str) : M (option str) :=
  match decide_consolidation current incoming with
  | Keep => ret None
  | UseIncoming merged => ret (if bool_decide (merged = current) then None else Some merged)
  | Consolidate =>
      let* merged := select (λ s,
        let '(r, w) := ed_consolidate entity_name current incoming (x_world s) in
        (match r with
         | None => None
         | Some (Ok text) => Some (Ok (default (fallback_merge current incoming) (finalize_consolidation text)))
         | Some (Err _) => Some (Ok (fallback_merge current incoming))
         end, on_world w s)) in
      ret (if bool_decide (merged = current) then None else Some merged)
  end.
(** Source: core/src/episode.rs 197-222 (merge_into) *)
Definition merge_into (ms : merge_states) (decision_idx : nat) (existing : found_row) (incoming : str) : M (DedupDecision * merge_states) :=
  let uuid := en_uuid (fr_ent existing) in
  let '(before, running, latest) := default (fr_summary existing, fr_summary existing, decision_idx) (ms !! uuid) in
  let* next := merged_summary_for (en_name (fr_ent existing)) running incoming in
  let running := default running next in
  ret (Merge uuid running None, <[uuid := (before, running, Nat.max latest decision_idx)]> ms).

(** What Phase B has of the extraction. *)
Record batch := {
  b_group : str; b_time : str; b_ontology : option Ontology; b_entities : list ExtractedEntity; b_kinds : list str;
  b_name_embeddings : list vec; b_summary_embeddings : list vec }.
(** Source: core/src/episode.rs 971-989 (add_episode) *)
Definition insert_labels (ontology : option Ontology) (kind entity_type : str) : list str :=
  let label_type := if negb (bool_decide (kind = DEFAULT_KIND)) then kind else entity_type in
  #"Entity" :: if nonempty label_type && negb (bool_decide (label_type = #"Entity"))
               then default [] (onto ← ontology; ancestor_map onto !! label_type) ++ [label_type] else [].
(** Source: core/src/episode.rs 957-1002 (add_episode) *)
Definition make_insert_row (b : batch) (i : nat) : M DedupDecision :=
  let* extracted := at_index (b_entities b) i in
  let* name_embedding := at_index (b_name_embeddings b) i in
  let* summary_embedding := at_index (b_summary_embeddings b) i in
  let* kind := at_index (b_kinds b) i in
  let* uuid := new_uuid in
  ret (Insert {| ey_uuid := uuid; ey_name := xe_name extracted; ey_group := b_group b; ey_labels := insert_labels (b_ontology b) kind (xe_type extracted);
                 ey_kind := kind; ey_created := b_time b; ey_name_vec := name_embedding; ey_summary := xe_summary extracted;
                 ey_attrs := match xe_original extracted with Some orig => json_print (VObject [(#"original_entity_type", VString orig)]) | None => #"{}" end;
                 ey_summary_vec := summary_embedding |}).
(** The state of the first pass. *)
Record pass := { p_decisions : list (option DedupDecision); p_pending : list (nat * DuplicatePair); p_merges : merge_states; p_paths : DedupPathCounts }.
(** Source: core/src/episode.rs 1006-1066 (add_episode) *)
Definition first_pass_step (b : batch) (st : pass) (e : nat * (ExtractedEntity * PhaseBResult)) : M pass :=
  let '(i, (extracted, r)) := e in
  let* _ := check_cancelled in
  let merged path existing :=
    let* '(d, ms) := merge_into (p_merges st) (length (p_decisions st)) existing (xe_summary extracted) in
    ret {| p_decisions := p_decisions st ++ [Some d]; p_pending := p_pending st; p_merges := ms; p_paths := tally_path path (p_paths st) |} in
  match r with
  | NameMatch existing => merged ExactName existing
  | EmbeddingCandidate (Some existing) _ =>
      if bool_decide (normalize_name (en_name (fr_ent existing)) = normalize_name (xe_name extracted)) then merged EmbeddingMerge existing
      else ret {| p_decisions := p_decisions st ++ [None];
                  p_pending := p_pending st ++ [(i, pair_from (en_name (fr_ent existing)) (fr_summary existing) (en_labels (fr_ent existing)) extracted)];
                  p_merges := p_merges st; p_paths := p_paths st |}
  | EmbeddingCandidate None vetoed =>
      let* d := make_insert_row b i in
      ret {| p_decisions := p_decisions st ++ [Some d]; p_pending := p_pending st; p_merges := p_merges st;
             p_paths := if (0 <? vetoed)%N then tally_path Vetoed (p_paths st) else p_paths st |}
  end.
(** Source: core/src/episode.rs 1078-1119 (add_episode) *)
Definition second_pass_step (b : batch) (results : list PhaseBResult) (st : pass) (e : nat * DuplicatePair * DedupVerdict) : M pass :=
  let '(i, _, verdict) := e in
  let llm := match ed_mode with LlmVerified => true | VetoOnly => false end in
  let decided d ms path := {| p_decisions := <[i := Some d]> (p_decisions st); p_pending := p_pending st; p_merges := ms; p_paths := tally_path path (p_paths st) |} in
  match results !! i with
  | Some (EmbeddingCandidate (Some existing) _) =>
      let* extracted := at_index (b_entities b) i in
      match verdict with
      | Duplicate =>
          let* '(d, ms) := merge_into (p_merges st) i existing (xe_summary extracted) in
          ret (decided d ms (if llm then LlmConfirmed else EmbeddingMerge))
      | Distinct => let* d := make_insert_row b i in ret (decided d (p_merges st) (if llm then LlmRejected else AdapterRejected))
      | Unknown => let* d := make_insert_row b i in ret (decided d (p_merges st) (if llm then LlmUnavailable else AdapterRejected))
      end
  | _ => panic
  end.
(** Verdicts that are missing count as unknown. *)
Definition padded (n : nat) (verdicts : list DedupVerdict) : list DedupVerdict := take n (verdicts ++ replicate n Unknown).
(** Source: core/src/episode.rs 1068-1120 (add_episode) *)
Definition judge_pending (b : batch) (results : list PhaseBResult) (st : pass) : M pass :=
  match p_pending st with
  | [] => ret st
  | pending =>
      let* verdicts := select (λ s, let '(v, w) := ed_judge (snd <$> pending) (x_world s) in (Some (Ok v), on_world w s)) in
      for_each (zip pending (padded (length pending) verdicts)) (second_pass_step b results) st
  end.
(** Source: core/src/episode.rs 1147-1157 (add_episode) *)
Definition attach_embedding (decisions : list DedupDecision) (e : nat * str * vec) : list DedupDecision :=
  let '(idx, summary, emb) := e in
  match decisions !! idx with
  | Some (Merge u _ _) => <[idx := Merge u summary (Some emb)]> decisions
  | _ => decisions
  end.
(** The summaries a merge changed, each at the uuid's latest decision.
    Source: core/src/episode.rs 1130-1135 (add_episode) *)
Definition changed_summaries (ms : merge_states) : list (nat * str) :=
  sort_by (λ a b, (a.1 <=? b.1)%nat)
    (omap (λ '(before, running, idx), if bool_decide (before = running) then None else Some (idx, running)) (snd <$> map_to_list ms)).
(** Source: core/src/episode.rs 1121-1158 (add_episode) *)
Definition settle_decisions (st : pass) : M (list DedupDecision) :=
  match mapM id (p_decisions st) with
  | None => panic
  | Some decisions =>
      match changed_summaries (p_merges st) with
      | [] => ret decisions
      | changed =>
          let* embeddings := select (call (ed_embed_batch (snd <$> changed))) in
          ret (foldl attach_embedding decisions (zip changed embeddings))
      end
  end.
(** Source: core/src/episode.rs 1003-1158 (add_episode) *)
Definition decide_entities (b : batch) (results : list PhaseBResult) (paths : DedupPathCounts) : M (list DedupDecision * DedupPathCounts) :=
  let* st := for_each (imap pair (zip (b_entities b) results)) (first_pass_step b) {| p_decisions := []; p_pending := []; p_merges := ∅; p_paths := paths |} in
  let* st := judge_pending b results st in
  let* decisions := settle_decisions st in
  ret (decisions, p_paths st).

(** ** The commit *)

(** Source: core/src/episode.rs 1241-1273 (add_episode) *)
Definition apply_decision (group_id : str) (uuids : list str) (d : DedupDecision) : M (list str) :=
  match d with
  | Merge existing_uuid merged_summary (Some emb) => let* _ := modify (set_summary group_id existing_uuid merged_summary emb) in ret (uuids ++ [existing_uuid])
  | Merge existing_uuid _ None => ret (uuids ++ [existing_uuid])
  | Insert row => λ s, match insert_entity ed_timestamp row (x_store s) with
                       | Ok st => (Some (Ok (uuids ++ [ey_uuid row])), on_store st s)
                       | Err e => (Some (Err e), s)
                       end
  end.
(** One entity per kind under a name; a later one of the same kind replaces the earlier.
    Source: core/src/episode.rs 1287-1293 (add_episode) *)
Fixpoint put_slot (kind uuid : str) (slot : list (str * str)) : list (str * str) :=
  match slot with
  | [] => [(kind, uuid)]
  | (k, u) :: slot => if bool_decide (k = kind) then (k, uuid) :: slot else (k, u) :: put_slot kind uuid slot
  end.
(** Source: core/src/episode.rs 1285-1293 (add_episode) *)
Definition name_slots (entities : list ExtractedEntity) (kinds uuids : list str) : gmap str (list (str * str)) :=
  foldl (λ (m : gmap str (list (str * str))) '(e, (kind, uuid)), let key := normalize_name (xe_name e) in <[key := put_slot kind uuid (default [] (m !! key))]> m)
    ∅ (zip entities (zip kinds uuids)).
(** Source: core/src/episode.rs 1295-1306 (add_episode) *)
Definition resolve_via_scan (group_id : str) (kinds : list str) (raw_name : str) (cache : gmap str EndpointResolution) : M (EndpointResolution * gmap str EndpointResolution) :=
  let key := to_lowercase (trim raw_name) in
  match cache !! key with
  | Some cached => ret (cached, cache)
  | None => let* resolution := on_graph (resolve_stored_endpoint raw_name group_id kinds) in ret (resolution, <[key := resolution]> cache)
  end.
(** Source: core/src/episode.rs 1308-1314 (add_episode) *)
Definition resolve_edge_endpoint (group_id : str) (kinds : list str) (slots : gmap str (list (str * str))) (raw_name : str) (cache : gmap str EndpointResolution) :
    M (EndpointResolution * gmap str EndpointResolution) :=
  match slots !! normalize_name raw_name with
  | Some [(_, uuid)] => ret (Found uuid, cache)
  | Some (_ :: _ :: _) => ret (Ambiguous_, cache)
  | _ => resolve_via_scan group_id kinds raw_name cache
  end.
(** Source: core/src/episode.rs 294-309 (validate_llm_timestamp) *)
Definition validate_llm_timestamp (s : option str) : option str :=
  s ← s; let trimmed := trim s in if nonempty trimmed && ed_rfc3339 trimmed then Some trimmed else None.
(** What the commit has done with the edges so far. *)
Record tally := { t_inserted : N; t_unresolvable : N; t_self_loop : N; t_reclassified : N; t_dropped : list DroppedEdgeDetail; t_cache : gmap str EndpointResolution }.
Definition with_tally_cache (c : gmap str EndpointResolution) (t : tally) : tally :=
  {| t_inserted := t_inserted t; t_unresolvable := t_unresolvable t; t_self_loop := t_self_loop t; t_reclassified := t_reclassified t; t_dropped := t_dropped t; t_cache := c |}.
(** Source: core/src/episode.rs 1340-1366 (add_episode) *)
Definition drop_unresolvable (e : ExtractedEdge) (src dst : option str) (t : tally) : tally :=
  {| t_inserted := t_inserted t; t_unresolvable := t_unresolvable t + 1; t_self_loop := t_self_loop t; t_reclassified := t_reclassified t;
     t_dropped := t_dropped t ++ [{| de_source := xd_source e; de_target := xd_target e; de_type := xd_type e; de_fact := xd_fact e;
                                     de_unresolved := match src, dst with None, None => UBoth | None, _ => USource | _, _ => UTarget end |}];
     t_cache := t_cache t |}.
Definition drop_self_loop (t : tally) : tally :=
  {| t_inserted := t_inserted t; t_unresolvable := t_unresolvable t; t_self_loop := t_self_loop t + 1; t_reclassified := t_reclassified t; t_dropped := t_dropped t; t_cache := t_cache t |}.
Definition count_inserted (reclassified : bool) (t : tally) : tally :=
  {| t_inserted := t_inserted t + 1; t_unresolvable := t_unresolvable t; t_self_loop := t_self_loop t;
     t_reclassified := if reclassified then (t_reclassified t + 1)%N else t_reclassified t; t_dropped := t_dropped t; t_cache := t_cache t |}.
(** Source: core/src/episode.rs 1380-1402 (add_episode) *)
Definition edge_of (group_id time : str) (e : ExtractedEdge) (uuid src dst : str) (fact_embedding : vec) : RelatesToEdge :=
  {| re_uuid := uuid; re_name := xd_source e ++ [32%N; 8594%N; 32%N] ++ xd_target e; re_src := src; re_dst := dst; re_group := group_id; re_fact := xd_fact e;
     re_vec := fact_embedding; re_created := time;
     re_valid := match validate_llm_timestamp (xd_valid e) with Some t => Some t | None => Some time end;
     re_invalid := validate_llm_timestamp (xd_invalid e);
     re_attrs := match xd_original e with Some orig => json_print (VObject [(#"original_relation_type", VString orig)]) | None => #"{}" end;
     re_type := xd_type e |}.
(** Source: core/src/episode.rs 1320-1411 (add_episode) *)
Definition commit_edge (group_id time : str) (kinds : list str) (slots : gmap str (list (str * str))) (strict : bool) (fact_embeddings : list vec) (t : tally) (ie : nat * ExtractedEdge) : M tally :=
  let '(i, e) := ie in
  let* '(src_res, cache) := resolve_edge_endpoint group_id kinds slots (xd_source e) (t_cache t) in
  let* '(dst_res, cache) := resolve_edge_endpoint group_id kinds slots (xd_target e) cache in
  let t := with_tally_cache cache t in
  match into_uuid src_res, into_uuid dst_res with
  | Some src, Some dst =>
      if bool_decide (src = dst) then ret (drop_self_loop t)
      else
        let* fact_embedding := at_index fact_embeddings i in
        let* uuid := new_uuid in
        let* _ := modify (insert_edge (edge_of group_id time e uuid src dst fact_embedding)) in
        ret (count_inserted ((strict || bool_decide (is_Some (xd_original e))) && bool_decide (xd_type e = Some UNCLASSIFIED)) t)
  | src, dst => ret (drop_unresolvable e src dst t)
  end.

(** The arguments of one call. *)
Record AddEpisode := {
  a_name : str; a_body : str; a_source : str; a_source_description : str; a_time : str; a_group : str; a_source_type : SourceType;
  a_custom : option str; a_attributes : str }.
(** Source: core/src/episode.rs 1189-1192 (add_episode) *)
Definition episode_attributes (attributes : str) : str :=
  match json_parse (trim attributes) with Some (VObject _) => attributes | _ => #"{}" end.
(** Source: core/src/episode.rs 1413-1436 (add_episode) *)
Definition commit_episode (a : AddEpisode) (ep : str) (entity_uuids : list str) (content_embedding : vec) (s : store) : store :=
  let s := insert_episodic {| ep_uuid := ep; ep_name := a_name a; ep_group := a_group a; ep_created := a_time a; ep_source := a_source a;
                              ep_source_description := a_source_description a; ep_content := a_body a; ep_vec := content_embedding; ep_valid := a_time a;
                              ep_entity_edges := entity_uuids; ep_attrs := episode_attributes (a_attributes a) |} s in
  foldl (λ s u, insert_mentions_edge {| me_episode := ep; me_entity := u; me_group := a_group a |} s) s entity_uuids.
(** Drains the connection, appends to the log and records the position reached.
    Source: core/src/episode.rs 1438-1467 (add_episode) *)
Definition flush_episode (group_id : str) : M unit := λ s,
  let pending := g_pending (sto_graph (x_store s)) in
  let '(flushed, w) := ed_flush group_id pending (x_world s) in
  let st := fresh_conn (x_store s) in
  (Some (Ok tt), on_world w (on_store match flushed with Some p => set_position group_id p st | None => st end s)).
(** Everything under the write lock.
    Source: core/src/episode.rs 1229-1478 (add_episode) *)
Definition commit_body (a : AddEpisode) (ep : str) (b : batch) (kinds : list str) (decisions : list DedupDecision) (edges : list ExtractedEdge) (fact_embeddings : list vec) (strict : bool) (content_embedding : vec) :
    M tally :=
  let* entity_uuids := for_each decisions (apply_decision (a_group a)) [] in
  let slots := name_slots (b_entities b) (b_kinds b) entity_uuids in
  let* t := for_each (imap pair edges) (commit_edge (a_group a) (a_time a) kinds slots strict fact_embeddings)
              {| t_inserted := 0; t_unresolvable := 0; t_self_loop := 0; t_reclassified := 0; t_dropped := []; t_cache := ∅ |} in
  let* _ := modify (commit_episode a ep entity_uuids content_embedding) in
  let* _ := flush_episode (a_group a) in
  ret t.
Definition commit (a : AddEpisode) (ep : str) (b : batch) (kinds : list str) (decisions : list DedupDecision) (edges : list ExtractedEdge) (fact_embeddings : list vec) (strict : bool) (content_embedding : vec) :
    M tally := on_conn (commit_body a ep b kinds decisions edges fact_embeddings strict content_embedding).

(** ** After the commit, and the whole *)

(** The sidecars; their failures are not errors.
    Source: core/src/episode.rs 1487-1552 (add_episode) *)
Definition publish_ontology (group_id : str) (resolved : option Ontology) : M unit := λ s,
  let io := ed_sidecar_io (x_world s) in
  let s :=
    if o_root (x_onto s) then
      let '(r, d) := write_sidecar ed_sha256_hex io (o_ontology (x_onto s)) (o_disk (x_onto s)) in
      let s := on_onto (with_disk d (x_onto s)) s in
      let s := match r with Ok _ => on_counts (x_cancelled s) (x_active s) (x_indices s) false s | Err _ => s end in
      let reloaded_since_extraction := match cached_ontology_hash ed_sha256_hex group_id (x_onto s) with
                                       | Some h => negb (bool_decide (h = content_hash ed_sha256_hex resolved)) | None => false end in
      if reloaded_since_extraction then s
      else
        let '(r, d) := write_group_sidecar ed_sha256_hex io group_id resolved (o_disk (x_onto s)) in
        let s := on_onto (with_disk d (x_onto s)) s in
        match r with Ok _ => on_onto (clear_group_drift (onto_env s) group_id resolved (x_onto s)) s | Err _ => s end
    else s in
  (Some (Ok tt),
   if x_wal s then
     match encode_group_dir_name group_id with
     | Ok dir => on_onto (with_disk (write_wal_ontology_sidecar ed_sha256_hex io dir resolved (o_disk (x_onto s))).2 (x_onto s)) s
     | Err _ => s
     end
   else s).
(** Each summary's vector back at its entity's place; the others are zero.
    Source: core/src/episode.rs 679-683 (add_episode) *)
Definition scatter (n : nat) (indices : list nat) (embeddings : list vec) : list vec :=
  foldl (λ (l : list vec) '(i, emb), <[i := emb]> l) (replicate n (replicate ed_dim f32_zero)) (zip indices embeddings).
(** Source: core/src/episode.rs 397-1567 (add_episode) *)
Definition ingest (a : AddEpisode) : M AddEpisodeResult :=
  let group_id := a_group a in
  let* _ := check_identity_now group_id in
  let* ontology := resolve_ontology_now group_id in
  let opts := {| Extraction.o_body := a_body a; o_group := group_id; o_source := a_source_type a; o_custom := a_custom a; o_time := a_time a; Extraction.o_ontology := ontology; o_key := Some (a_name a) |} in
  let* '(content_embedding, outcome) := select (let* v := call (ed_embed (a_body a)) in let* x := call (ed_extract opts) in ret (v, x)) in
  let '(named, blank) := retain_named (clear_entity_originals (eo_entities outcome)) in
  let '(entities, reclassified) := reclassify_entities ontology named in
  let edges := reclassify_edges ontology (clear_edge_originals (eo_edges outcome)) in
  let* _ := load_db in
  let names := xe_name <$> entities in
  let entity_kinds := entity_kind ontology <$> entities in
  let kinds := endpoint_kinds ontology in
  let indices := summary_indices entities in
  let summaries := omap (λ i, xe_summary <$> entities !! i) indices in
  let* '(name_embeddings, summary_batch) := select (let* n := call (ed_embed_batch names) in let* s := call (ed_embed_batch summaries) in ret (n, s)) in
  let summary_embeddings := scatter (length entities) indices summary_batch in
  let* '(edges, paths) := salvage group_id kinds entities name_embeddings (drop_self_references edges) in
  let* fact_embeddings := select (call (ed_embed_batch (xd_fact <$> edges))) in
  let* _ := check_cancelled in
  let* count := on_conn (λ s, (Some (Ok (entity_count_in_group (sto_graph (x_store s)) group_id)), s)) in
  let* results := resolve_phase_b_healing group_id names entity_kinds name_embeddings (ed_hybrid_threshold <=? count)%N in
  let b := {| b_group := group_id; b_time := a_time a; b_ontology := ontology; b_entities := entities; b_kinds := entity_kinds;
              b_name_embeddings := name_embeddings; b_summary_embeddings := summary_embeddings |} in
  let* '(decisions, paths) := decide_entities b results paths in
  let strict := match ontology with Some o => strict_relations o | None => false end in
  let* ep := new_uuid in
  let* _ := load_db in
  let* _ := check_cancelled in
  let* _ := check_identity_now group_id in
  let* t := commit a ep b kinds decisions edges fact_embeddings strict content_embedding in
  let* _ := publish_ontology group_id ontology in
  ret {| episode_uuid := ep; nodes_extracted := N.of_nat (length entities); edges_extracted := t_inserted t; edges_dropped_unresolvable := t_unresolvable t;
         edges_dropped_self_loop := t_self_loop t; dropped_edges := t_dropped t; edges_reclassified_unclassified := t_reclassified t;
         entities_reclassified_unclassified := reclassified; entities_dropped_malformed := eo_entities_dropped outcome + blank;
         edges_dropped_malformed := eo_edges_dropped outcome; dedup_paths := paths |}.
(** The count of writes in flight goes back down however the call ends.
    Source: core/src/episode.rs 378-392 (add_episode) *)
Definition add_episode (a : AddEpisode) : M AddEpisodeResult := λ s,
  let '(r, s) := ingest a (on_counts (x_cancelled s) (add64 (x_active s) 1) (x_indices s) (x_drifted s) s) in
  (r, on_counts (x_cancelled s) ((x_active s + (2 ^ 64 - 1)) mod 2 ^ 64)%N (x_indices s) (x_drifted s) s).
End episode.
