(* ===== verification/EpisodeTheory.v ===== *)
(** * EpisodeTheory: what one episode leaves behind

    A small program logic for the computations of Episode.v: a precondition, what holds of a value,
    and what holds of an error or a panic.  With it: a call that fails leaves no rows and gives its
    slot back, a cancelled chunk is counted once, and the edges of a successful call are all
    accounted for. *)

From S2P Require Import Prelude Text Numbers Json WalGeneration WalScan Checkpoint WalGroup Wal LegacyWal Replay Pointer Ontology SummaryMerge Replies Prompts Extraction Graph OntologyState IdentifierVeto Search DedupAdapter DedupSearch EpisodeFilter OntologyGuard Episode.

Create HintDb episode.

Section logic.
Context {U : Unicode} {VF : VecFloats} {FL : Floats} {AC : AttrCodec} {W : Type} {ED : EpisodeDeps W} (ts_text : N → str).
Local Notation est := (@est VF W).
Local Notation M := (@M VF W).

Definition triple {A} (P : est → Prop) (m : M A) (Q : A → est → Prop) (E : option Error → est → Prop) : Prop :=
  ∀ s, P s → match m s with (Some (Ok a), s') => Q a s' | (Some (Err e), s') => E (Some e) s' | (None, s') => E None s' end.
Implicit Types P : est → Prop.
Implicit Types E : option Error → est → Prop.

Lemma triple_ret {A} (a : A) P (Q : A → est → Prop) E : (∀ s, P s → Q a s) → triple P (ret a) Q E.
Proof. intros H s Hs. exact (H s Hs). Qed.
Lemma triple_fail {A} e P (Q : A → est → Prop) E : (∀ s, P s → E (Some e) s) → triple P (fail e) Q E.
Proof. intros H s Hs. exact (H s Hs). Qed.
Lemma triple_panic {A} P (Q : A → est → Prop) E : (∀ s, P s → E None s) → triple P panic Q E.
Proof. intros H s Hs. exact (H s Hs). Qed.
Lemma triple_bind {A B} (m : M A) (k : A → M B) P Q (R : B → est → Prop) E :
  triple P m Q E → (∀ a, triple (Q a) (k a) R E) → triple P (bind m k) R E.
Proof.
  intros Hm Hk s Hs. unfold bind. specialize (Hm s Hs). destruct (m s) as [[[a|e]|] s']; [|done|done]. exact (Hk a s' Hm).
Qed.
Lemma triple_weaken {A} (m : M A) P P' (Q Q' : A → est → Prop) E E' :
  triple P' m Q' E' → (∀ s, P s → P' s) → (∀ a s, Q' a s → Q a s) → (∀ e s, E' e s → E e s) → triple P m Q E.
Proof. intros Hm HP HQ HE s Hs. specialize (Hm s (HP s Hs)). destruct (m s) as [[[a|e]|] s']; auto. Qed.
Lemma triple_for_each {A B} (l : list A) (f : B → A → M B) (I : list A → B → est → Prop) E b :
  (∀ d x rest b, l = d ++ x :: rest → triple (I d b) (f b x) (I (d ++ [x])) E) → triple (I [] b) (for_each l f b) (I l) E.
Proof.
  intros Hf. assert (H : ∀ rest d b, l = d ++ rest → triple (I d b) (for_each rest f b) (I l) E); [|by apply H].
  clear b. induction rest as [|x rest IH]; intros d b ->; cbn [for_each]; [rewrite app_nil_r; by apply triple_ret|].
  eapply triple_bind; [by eapply Hf|]. intros b'. apply IH. by rewrite <- app_assoc.
Qed.
Lemma triple_for_each_inv {A B} (l : list A) (f : B → A → M B) P E (b : B) :
  (∀ x b, x ∈ l → triple P (f b x) (λ _, P) E) → triple P (for_each l f b) (λ _, P) E.
Proof. intros H. apply (triple_for_each l f (λ _ _, P) E b). intros d x rest c ->. apply H. apply elem_of_app. right. left. Qed.
Lemma triple_at_index {A} (l : list A) i P E : (∀ s, P s → E None s) → triple P (at_index l i) (λ a s, P s ∧ l !! i = Some a) E.
Proof. intros H s Hs. unfold at_index. destruct (l !! i); [by split|by apply H]. Qed.
Lemma triple_of_result {A} (r : result Error A) P E : (∀ e s, P s → r = Err e → E (Some e) s) → triple P (of_result r) (λ _, P) E.
Proof. intros H s Hs. destruct r; [exact Hs|by apply H]. Qed.
Lemma triple_modify f P E : (∀ s, P s → P (on_store (f (x_store s)) s)) → triple P (modify f) (λ _, P) E.
Proof. intros H s Hs. exact (H s Hs). Qed.
Lemma triple_on_conn {A} (m : M A) P (Q : A → est → Prop) E :
  (∀ s, P s → P (on_store (fresh_conn (ed_others (x_world s) (x_store s))) s)) →
  triple P m (λ a s, Q a (on_store (fresh_conn (x_store s)) s)) (λ e s, E e (on_store (fresh_conn (x_store s)) s)) →
  triple P (on_conn m) Q E.
Proof.
  intros HP Hm s Hs. unfold on_conn. specialize (Hm _ (HP s Hs)). destruct (m _) as [[[a|e]|] s']; exact Hm.
Qed.

(** ** Failures *)

(** The rows of the graph, less the bookkeeping of lookups. *)
Definition skeleton_t : Type := list str * list (str * str) * list relnode * list (str * str * str).
Definition skeleton (g : graph) : skeleton_t := (en_uuid <$> g_ents g, g_eps g, g_rels g, g_direct g).
(** Everything a reader of the database sees, less lookup keys. *)
Definition rows_t : Type :=
  skeleton_t * (gmap str vec * gmap str str * gmap str vec) * (list RelatesToEdge * list EpisodicRow * list MentionsEdge) * gmap str (N * option str).
Definition rows (st : store) : rows_t :=
  (skeleton (sto_graph st), (sto_name_vec st, sto_summary st, sto_summary_vec st), (sto_edges st, sto_episodes st, sto_mentions st), sto_positions st).

Lemma heal_skeleton row g : skeleton (self_heal_lookup_key row g) = skeleton g.
Proof.
  unfold skeleton, self_heal_lookup_key, record_mut, with_ents. cbn. f_equal. f_equal. f_equal. rewrite <- list_fmap_compose. apply list_fmap_ext.
  intros _ e _. cbn. by case_bool_decide.
Qed.
Lemma heal_rows_in_skeleton kinds rws : ∀ seen g, skeleton (heal_rows_in kinds rws seen g).2 = skeleton g.
Proof.
  induction rws as [|r rws IH]; intros seen g; [done|]. cbn [heal_rows_in]. destruct (negb _); [apply IH|]. case_bool_decide.
  - by rewrite IH, heal_skeleton.
  - specialize (IH (kind_of r :: seen) (self_heal_lookup_key r g)). destruct (heal_rows_in _ _ _ _). cbn in *. by rewrite IH, heal_skeleton.
Qed.
Lemma resolve_stored_endpoint_skeleton n gid kinds g : skeleton (resolve_stored_endpoint ts_text n gid kinds g).2 = skeleton g.
Proof.
  unfold resolve_stored_endpoint. destruct (_ =? 1)%nat.
  - unfold get_entity_by_name_ci_with_scan_fallback. destruct (probe _ _ _ _); [done|]. cbn.
    destruct (head _); cbn; [by rewrite heal_skeleton|done].
  - unfold resolve_entities_by_name_in_kinds. destruct (_ <? _)%nat; [|done].
    pose proof (heal_rows_in_skeleton kinds (scan_entities_by_name_ci (count_scan g) n gid None) (remove_dups (kind_of <$> omap (probe g n gid) kinds)) (count_scan g)) as H.
    destruct (heal_rows_in _ _ _ _). exact H.
Qed.
Lemma exact_hit_skeleton variants gid kinds : ∀ g, skeleton (exact_hit ts_text variants gid kinds g).2 = skeleton g.
Proof.
  induction variants as [|v vs IH]; intros g; [done|]. cbn [exact_hit]. pose proof (resolve_stored_endpoint_skeleton v gid kinds g) as H.
  destruct (resolve_stored_endpoint _ _ _ _ _) as [[] g']; cbn in *; rewrite ?IH; done.
Qed.
Lemma probe_missing_skeleton names variants gid kinds : ∀ g, skeleton (probe_missing ts_text names variants gid kinds g).2 = skeleton g.
Proof.
  induction names as [|[l o] names IH]; intros g; [done|]. cbn [probe_missing].
  pose proof (exact_hit_skeleton (default [] (variants !! l)) gid kinds g) as H. destruct (exact_hit _ _ _ _ _) as [hit g1].
  specialize (IH g1). destruct (probe_missing _ _ _ _ _ _) as [out g2]. destruct hit; cbn in *; by rewrite IH, H.
Qed.

(** The collaborators report errors of their own, never a cancellation. *)
Record own_errors : Prop := {
  oe_embed : ∀ t w, (ed_embed t w).1 ≠ Some (Err Cancelled);
  oe_batch : ∀ l w, (ed_embed_batch l w).1 ≠ Some (Err Cancelled);
  oe_extract : ∀ o w, (ed_extract o w).1 ≠ Some (Err Cancelled);
  oe_index : ∀ w, ed_index_error w ≠ Some Cancelled }.

Context (P : rows_t → Prop) (act c : N).
Definition idle (s : est) : Prop := x_active s = act ∧ x_cancelled s = c ∧ P (rows (x_store s)).
Definition failed (e : option Error) (s : est) : Prop :=
  x_active s = act ∧
  match e with
  | None => x_cancelled s = c
  | Some Cancelled => x_cancelled s = add64 c 1 ∧ P (rows (x_store s))
  | Some (InvalidKind _) => x_cancelled s = c
  | Some _ => x_cancelled s = c ∧ P (rows (x_store s))
  end.
Lemma idle_failed (e : option Error) s : idle s → e ≠ Some Cancelled → failed e s.
Proof. intros (? & ? & ?) He. split; [done|]. destruct e as [[]|]; done. Qed.
Lemma idle_panic (s : est) : idle s → failed None s.
Proof. intros H. by apply idle_failed. Qed.
Hint Resolve idle_panic : episode.

(** [m] leaves the rows as they were, unless it says why it failed. *)
Definition quiet {A} (m : M A) : Prop := triple idle m (λ _, idle) failed.
Lemma quiet_ret {A} (a : A) : quiet (ret a).
Proof. by apply triple_ret. Qed.
Lemma quiet_panic {A} : quiet (@panic _ W A).
Proof. apply triple_panic. apply idle_panic. Qed.
Lemma quiet_bind {A B} (m : M A) (k : A → M B) : quiet m → (∀ a, quiet (k a)) → quiet (bind m k).
Proof. intros. by eapply triple_bind. Qed.
Lemma quiet_for_each {A B} (l : list A) (f : B → A → M B) b : (∀ b x, quiet (f b x)) → quiet (for_each l f b).
Proof. intros H. apply triple_for_each_inv. intros x b' _. apply H. Qed.
Lemma quiet_at_index {A} (l : list A) i : quiet (at_index l i).
Proof. unfold at_index. destruct (l !! i); [apply quiet_ret|apply quiet_panic]. Qed.
Lemma quiet_call {A} (f : W → option (result Error A) * W) : (∀ w, (f w).1 ≠ Some (Err Cancelled)) → quiet (call f).
Proof.
  intros Hf s Hs. unfold call. specialize (Hf (x_world s)). destruct (f (x_world s)) as [[[a|e]|] w]; [exact Hs| |exact (idle_panic _ Hs)].
  apply idle_failed; [exact Hs|]. cbn in Hf. congruence.
Qed.
Lemma quiet_select {A} (m : M A) : quiet m → quiet (select m).
Proof. intros Hm s Hs. unfold select. destruct (ed_cancelled _); [|by apply Hm]. destruct Hs as (Ha & Hc & Hp). split; [exact Ha|]. split; [cbn; by rewrite Hc|exact Hp]. Qed.
Lemma quiet_uuid : quiet new_uuid.
Proof. intros s Hs. unfold new_uuid. destruct (ed_new_uuid _). exact Hs. Qed.
Lemma quiet_load_db : quiet load_db.
Proof. intros s Hs. unfold load_db. destruct (ed_db _); [by apply idle_failed|exact Hs]. Qed.
Lemma quiet_resolve gid : quiet (resolve_ontology_now gid).
Proof. intros s Hs. unfold resolve_ontology_now. destruct (resolve_ontology _ _ _ _). exact Hs. Qed.
Lemma check_identity_own (env retry : oenv) gid o : (check_identity ed_sha256_hex env retry gid o).1 ≠ Err Cancelled.
Proof.
  unfold check_identity. destruct (resolve_ontology _ _ _ _) as [? s']. destruct (cached _ _) as [e|]; [by destruct (ge_refusal e)|].
  destruct (check_identity_set _ _ _ _) as [[[r|] [m|]] ?]; done.
Qed.
Lemma quiet_check_identity gid : quiet (check_identity_now gid).
Proof.
  intros s Hs. unfold check_identity_now. pose proof (check_identity_own (onto_env s) (onto_env s) gid (x_onto s)) as H.
  destruct (check_identity _ _ _ _ _) as [[[]|e] o]; [exact Hs|]. apply idle_failed; [exact Hs|]. cbn in H. congruence.
Qed.

(** A connection sees what other writers did first. *)
Hypothesis others : ∀ w st, P (rows st) → P (rows (ed_others w st)).
Hypothesis own : own_errors.

Lemma quiet_on_conn {A} (m : M A) : quiet m → quiet (on_conn m).
Proof.
  intros Hm. apply triple_on_conn; [intros s (? & ? & ?); split_and!; try done; by apply others|].
  eapply triple_weaken; [exact Hm|done|intros a s H; exact H|]. intros [[]|] s H; exact H.
Qed.
Lemma quiet_on_graph {A} (f : graph → A * graph) : (∀ g, skeleton (f g).2 = skeleton g) → quiet (on_graph f).
Proof.
  intros Hf s (Ha & Hc & Hp). unfold on_graph. specialize (Hf (sto_graph (x_store s))). destruct (f _) as [a g].
  split; [exact Ha|]. split; [exact Hc|]. unfold rows in *. cbn in *. by rewrite Hf.
Qed.
Lemma quiet_indices : quiet build_indices_once.
Proof.
  intros s Hs. unfold build_indices_once. destruct (x_indices s); [exact Hs|].
  pose proof (quiet_load_db s Hs) as Hl. destruct (load_db s) as [[[u|e]|] s1]; [|exact Hl|exact Hl].
  destruct (ed_build_indices _) as [[?|e] w]; [exact Hl|]. by apply idle_failed.
Qed.
Hint Resolve quiet_ret quiet_panic quiet_at_index quiet_uuid quiet_load_db quiet_resolve quiet_check_identity quiet_indices : episode.

Lemma quiet_salvage_one ne es st e : quiet (salvage_one ne es st e).
Proof. unfold salvage_one. destruct st, e as [[??]?], (best_match _ _ _ _ _ _ _) as [[[[??]|]?]|]; auto with episode. Qed.
Lemma quiet_salvage gid kinds es ne eds : quiet (salvage ts_text gid kinds es ne eds).
Proof.
  unfold salvage. destruct eds as [|e eds]; [auto with episode|]. set (v := missing_variants _ _). apply quiet_bind.
  { destruct (missing_names v); [auto with episode|]. apply quiet_on_conn, quiet_on_graph. intros g. apply probe_missing_skeleton. }
  intros names. apply quiet_bind.
  { destruct names; [auto with episode|]. apply quiet_select, quiet_call, (oe_batch own). }
  intros embs. apply quiet_bind; [apply quiet_for_each; intros; apply quiet_salvage_one|]. intros [m p]. auto with episode.
Qed.
Lemma resolve_names_error gid items : ∀ i ne h st ie e, resolve_names gid items i ne h st ie = Some (Err e) → ie = Some e.
Proof.
  induction items as [|[n k] items IH]; intros i ne h st ie e; cbn [resolve_names]; [done|].
  destruct (get_entity_by_name_ci _ _ _ _); [destruct (resolve_names _ _ _ _ _ _ _) as [[]|] eqn:H; intros [= <-]; by eapply IH|].
  destruct (ne !! i); [|done]. destruct h; [destruct ie as [x|]; [by intros [= <-]|]|];
    (destruct (resolve_names _ _ _ _ _ _ _) as [[]|] eqn:H; intros [= <-]; by eapply IH).
Qed.
(** Phase B only reads. *)
Lemma phase_b_reads gid ns ks ne h : triple idle (resolve_phase_b gid ns ks ne h) (λ _, idle) (λ e s, idle s ∧ e ≠ Some Cancelled).
Proof.
  unfold resolve_phase_b. apply triple_on_conn; [intros s (? & ? & ?); split_and!; try done; by apply others|].
  intros s Hs. destruct (resolve_names _ _ _ _ _ _ _) as [[rs|e]|] eqn:H; [exact Hs| |by split].
  apply resolve_names_error in H. split; [exact Hs|]. intros [= ->]. by apply (oe_index own (x_world s)).
Qed.
Lemma quiet_healing gid ns ks ne h : quiet (resolve_phase_b_healing gid ns ks ne h).
Proof.
  intros s Hs. unfold resolve_phase_b_healing. pose proof (phase_b_reads gid ns ks ne h s Hs) as H1.
  destruct (resolve_phase_b gid ns ks ne h s) as [[[rs|e]|] s1]; [exact H1| |exact (idle_panic _ (proj1 H1))]. destruct H1 as [H1 He].
  destruct (is_missing_index_error e); [|by apply idle_failed]. destruct (x_indices s1); [by apply idle_failed|].
  apply quiet_bind; [apply quiet_indices| |exact H1]. intros _. apply quiet_bind; [apply quiet_load_db|]. intros _ s2 H2.
  pose proof (phase_b_reads gid ns ks ne h s2 H2) as H3. destruct (resolve_phase_b gid ns ks ne h s2) as [[[rs|e2]|] s3]; [exact H3| |exact (idle_panic _ (proj1 H3))].
  destruct H3 as [H3 He2]. apply idle_failed; [exact H3|]. by destruct (is_missing_index_error e2).
Qed.
Lemma quiet_consolidated name current incoming : quiet (merged_summary_for name current incoming).
Proof.
  unfold merged_summary_for. destruct (decide_consolidation _ _); [auto with episode..|]. apply quiet_bind; [|auto with episode].
  apply quiet_select. intros s Hs. destruct (ed_consolidate _ _ _ _) as [[[t|e]|] w]; [exact Hs..|by apply idle_failed].
Qed.
Lemma quiet_merge_into ms i ex inc : quiet (merge_into ms i ex inc).
Proof.
  unfold merge_into. destruct (default _ _) as [[b r] l]. apply quiet_bind; [apply quiet_consolidated|]. auto with episode.
Qed.
Lemma quiet_insert_row b i : quiet (make_insert_row b i).
Proof. unfold make_insert_row. repeat (apply quiet_bind; [auto with episode|intros ?]). auto with episode. Qed.
Lemma quiet_check : quiet check_cancelled.
Proof. apply quiet_select, quiet_ret. Qed.
Hint Resolve quiet_salvage quiet_healing quiet_merge_into quiet_insert_row quiet_check : episode.
Lemma quiet_first b st e : quiet (first_pass_step b st e).
Proof.
  destruct e as [i [x [ex|[ex|] v]]]; cbn [first_pass_step]; (apply quiet_bind; [auto with episode|intros _]); [|case_bool_decide|];
    try (apply quiet_bind; [auto with episode|intros []]); auto with episode; intros; auto with episode.
Qed.
Lemma quiet_second b rs st e : quiet (second_pass_step b rs st e).
Proof.
  destruct e as [[i p] v]. unfold second_pass_step. destruct (rs !! i) as [[|[|] ?]|]; [auto with episode|..|auto with episode|auto with episode].
  apply quiet_bind; [auto with episode|intros x]. destruct v; (apply quiet_bind; [auto with episode|]); [intros []|..]; auto with episode.
Qed.
Lemma quiet_decide b rs paths : quiet (decide_entities b rs paths).
Proof.
  unfold decide_entities. apply quiet_bind; [apply quiet_for_each; intros; apply quiet_first|]. intros st. apply quiet_bind.
  { unfold judge_pending. destruct (p_pending st) as [|x pending]; [auto with episode|]. apply quiet_bind; [|intros; apply quiet_for_each; intros; apply quiet_second].
    apply quiet_select. intros s Hs. destruct (ed_judge _ _). exact Hs. }
  intros st2. apply quiet_bind; [|auto with episode]. unfold settle_decisions. destruct (mapM id _); [|auto with episode].
  destruct (changed_summaries _); [auto with episode|]. apply quiet_bind; [apply quiet_select, quiet_call, (oe_batch own)|auto with episode].
Qed.

(** The commit can only fail on a kind it will not store, or panic. *)
Definition held (s : est) : Prop := x_active s = act ∧ x_cancelled s = c.
Definition commit_failed (e : option Error) (s : est) : Prop := held s ∧ (e = None ∨ ∃ k, e = Some (InvalidKind k)).
Definition writes {A} (m : M A) : Prop := triple held m (λ _, held) commit_failed.
Lemma writes_ret {A} (a : A) : writes (ret a).
Proof. by apply triple_ret. Qed.
Lemma writes_modify f : writes (modify f).
Proof. by apply triple_modify. Qed.
Lemma writes_on_graph {A} (f : graph → A * graph) : writes (on_graph f).
Proof. intros s Hs. unfold on_graph. destruct (f _). exact Hs. Qed.
Lemma writes_uuid : writes new_uuid.
Proof. intros s Hs. unfold new_uuid. destruct (ed_new_uuid _). exact Hs. Qed.
Lemma writes_at_index {A} (l : list A) i : writes (at_index l i).
Proof. intros s Hs. unfold at_index. destruct (l !! i); [exact Hs|]. split; [exact Hs|by left]. Qed.
Lemma writes_bind {A B} (m : M A) (k : A → M B) : writes m → (∀ a, writes (k a)) → writes (bind m k).
Proof. intros. by eapply triple_bind. Qed.
Hint Resolve writes_ret writes_modify writes_on_graph writes_uuid writes_at_index : episode.
Lemma writes_decision gid uuids d : writes (apply_decision gid uuids d).
Proof.
  unfold apply_decision. destruct d as [u m [e|]|row]; [apply writes_bind; auto with episode|auto with episode|].
  intros s Hs. unfold insert_entity, normalize_kind. destruct (if nonempty _ then _ else _) as [k|]; [|exact Hs].
  destruct (_ || _); [|exact Hs]. split; [exact Hs|]. right. by exists k.
Qed.
Lemma writes_endpoint gid kinds slots n cache : writes (resolve_edge_endpoint ts_text gid kinds slots n cache).
Proof.
  assert (writes (resolve_via_scan ts_text gid kinds n cache)).
  { unfold resolve_via_scan. destruct (cache !! _); [auto with episode|]. apply writes_bind; auto with episode. }
  unfold resolve_edge_endpoint. destruct (slots !! _) as [[|[] []]|]; auto with episode.
Qed.
Lemma writes_edge gid time kinds slots strict fe t ie : writes (commit_edge ts_text gid time kinds slots strict fe t ie).
Proof.
  destruct ie as [i e]. unfold commit_edge. apply writes_bind; [apply writes_endpoint|intros [src c1]]. apply writes_bind; [apply writes_endpoint|intros [dst c2]].
  cbv zeta. destruct (into_uuid src), (into_uuid dst); [|auto with episode..]. case_bool_decide; [auto with episode|].
  do 3 (apply writes_bind; [auto with episode|intros ?]). auto with episode.
Qed.
Lemma commit_writes a ep b kinds ds eds fe strict ce : writes (commit ts_text a ep b kinds ds eds fe strict ce).
Proof.
  unfold commit, commit_body. apply triple_on_conn; [by intros|]. eapply triple_weaken with (P' := held) (Q' := λ _, held) (E' := commit_failed); [|done|done|by intros].
  apply writes_bind; [apply triple_for_each_inv; intros; apply writes_decision|intros uuids].
  apply writes_bind; [apply triple_for_each_inv; intros; apply writes_edge|intros t].
  apply writes_bind; [auto with episode|intros _]. apply writes_bind; [|auto with episode].
  intros s Hs. unfold flush_episode. destruct (ed_flush _ _ _) as [[]]; exact Hs.
Qed.
Lemma publish_writes gid o : triple held (publish_ontology gid o) (λ _, held) failed.
Proof.
  intros s Hs. unfold publish_ontology. destruct (o_root _); [|destruct (x_wal s); [destruct (encode_group_dir_name _)|]; exact Hs].
  destruct (write_sidecar _ _ _ _) as [[] d1]; cbn [x_onto on_onto on_counts]; (destruct (match cached_ontology_hash _ _ _ with Some _ => _ | None => _ end);
    [|destruct (write_group_sidecar _ _ _ _ _) as [[] d2]]); cbn [x_wal on_onto on_counts]; (destruct (x_wal s); [destruct (encode_group_dir_name _)|]); exact Hs.
Qed.
Lemma ingest_spec a : triple idle (ingest ts_text a) (λ _, held) failed.
Proof.
  unfold ingest. assert (Hb : ∀ {A B} (m : M A) (k : A → M B), quiet m → (∀ a, triple idle (k a) (λ _, held) failed) → triple idle (bind m k) (λ _, held) failed)
    by (intros; by eapply triple_bind).
  apply Hb; [auto with episode|intros _]. apply Hb; [auto with episode|intros onto]. cbv zeta. apply Hb.
  { apply quiet_select, quiet_bind; [apply quiet_call, (oe_embed own)|intros v]. apply quiet_bind; [apply quiet_call, (oe_extract own)|auto with episode]. }
  intros [v out]. destruct (retain_named _) as [named blank], (reclassify_entities _ _) as [es nr].
  apply Hb; [auto with episode|intros _]. apply Hb.
  { apply quiet_select, quiet_bind; [apply quiet_call, (oe_batch own)|intros n]. apply quiet_bind; [apply quiet_call, (oe_batch own)|auto with episode]. }
  intros [ne sb]. apply Hb; [auto with episode|intros [eds paths]]. apply Hb; [apply quiet_select, quiet_call, (oe_batch own)|intros fe].
  apply Hb; [auto with episode|intros _]. apply Hb; [apply quiet_on_conn; by intros s|intros count]. apply Hb; [auto with episode|intros rs].
  apply Hb; [apply quiet_decide|intros [ds paths2]]. apply Hb; [auto with episode|intros ep]. do 3 (apply Hb; [auto with episode|intros _]).
  apply triple_bind with (Q := λ _, held).
  - eapply triple_weaken; [apply commit_writes|by intros s (? & ? & _)|done|]. intros e s [[Ha Hc] [->|[k ->]]]; split; done.
  - intros t. eapply triple_bind; [apply publish_writes|intros ?]. by apply triple_ret.
Qed.
End logic.

(** ** What a commit adds *)

Section commit.
Context {U : Unicode} {VF : VecFloats} {FL : Floats} {AC : AttrCodec} {W : Type} {ED : EpisodeDeps W} (ts_text : N → str).
Local Notation est := (@est VF W).
Local Notation M := (@M VF W).

Definition view_t : Type := list RelatesToEdge * list EpisodicRow * list MentionsEdge.
Definition view (s : est) : view_t := (sto_edges (x_store s), sto_episodes (x_store s), sto_mentions (x_store s)).
(** [m] adds no edge, episode or mention. *)
Definition stays {A} (m : M A) : Prop := ∀ Q : view_t → Prop, triple (λ s, Q (view s)) m (λ _ s, Q (view s)) (λ _ _, True).
Lemma stays_ret {A} (a : A) : stays (ret a).
Proof. intros Q. by apply triple_ret. Qed.
Lemma stays_bind {A B} (m : M A) (k : A → M B) : stays m → (∀ a, stays (k a)) → stays (bind m k).
Proof. intros Hm Hk Q. eapply triple_bind; [apply Hm|]. intros a. apply Hk. Qed.
Lemma stays_modify f : (∀ st, (sto_edges (f st), sto_episodes (f st), sto_mentions (f st)) = (sto_edges st, sto_episodes st, sto_mentions st)) → stays (modify f).
Proof. intros Hf Q. apply triple_modify. intros s. unfold view. cbn. by rewrite Hf. Qed.
Lemma stays_on_graph {A} (f : graph → A * graph) : stays (on_graph f).
Proof. intros Q s Hs. unfold on_graph. destruct (f _). exact Hs. Qed.
Lemma stays_uuid : stays new_uuid.
Proof. intros Q s Hs. unfold new_uuid. destruct (ed_new_uuid _). exact Hs. Qed.
Lemma stays_at_index {A} (l : list A) i : stays (at_index l i).
Proof. intros Q s Hs. unfold at_index. by destruct (l !! i). Qed.
Hint Resolve stays_ret stays_on_graph stays_uuid stays_at_index : episode.
Lemma stays_endpoint gid kinds slots n cache : stays (resolve_edge_endpoint ts_text gid kinds slots n cache).
Proof.
  assert (stays (resolve_via_scan ts_text gid kinds n cache)).
  { unfold resolve_via_scan. destruct (cache !! _); [auto with episode|]. apply stays_bind; auto with episode. }
  unfold resolve_edge_endpoint. destruct (slots !! _) as [[|[] []]|]; auto with episode.
Qed.
Lemma stays_decision gid uuids d Q :
  triple (λ s, Q (view s)) (apply_decision gid uuids d) (λ us s, Q (view s) ∧ length us = S (length uuids)) (λ _ _, True).
Proof.
  intros s Hs. unfold apply_decision. destruct d as [u m [e|]|row].
  - split; [|by rewrite length_app; cbn; lia]. unfold bind, modify, ret, view, set_summary in *. cbn in *. by destruct (has_entity _ _).
  - split; [exact Hs|]. rewrite length_app. cbn. lia.
  - unfold insert_entity. destruct (normalize_kind _); [|done]. split; [exact Hs|]. rewrite length_app. cbn. lia.
Qed.
(** Every decision gives one uuid. *)
Lemma decisions_uuids gid ds Q : triple (λ s, Q (view s)) (for_each ds (apply_decision gid) []) (λ us s, Q (view s) ∧ length us = length ds) (λ _ _, True).
Proof.
  eapply triple_weaken; [apply (triple_for_each ds (apply_decision gid) (λ done us s, Q (view s) ∧ length us = length done) (λ _ _, True) [])|
    intros s Hs; by split|by intros us s H|done].
  intros done d rest us Hd s [Hs Hl]. pose proof (stays_decision gid us d Q s Hs) as H. destruct (apply_decision _ _ _ _) as [[[us'|e]|] s']; [|done..].
  destruct H as [H1 H2]. split; [done|]. rewrite length_app. cbn. lia.
Qed.

Section edges.
Context (gid time : str) (kinds : list str) (slots : gmap str (list (str * str))) (strict : bool) (fe : list vec) (base : view_t).
(** The edges done so far: each is inserted, dropped or a self-loop. *)
Record accounted (done : list (nat * ExtractedEdge)) (t : tally) (s : est) : Prop := {
  ac_total : (t_inserted t + t_unresolvable t + t_self_loop t)%N = N.of_nat (length done);
  ac_dropped : N.of_nat (length (t_dropped t)) = t_unresolvable t;
  ac_reclassified : (t_reclassified t <= t_inserted t)%N;
  ac_rows : ∃ new, view s = (base.1.1 ++ new, base.1.2, base.2) ∧ N.of_nat (length new) = t_inserted t ∧
    Forall (λ e, re_src e ≠ re_dst e ∧ re_group e = gid ∧ re_created e = time) new ∧ (re_fact <$> new) `sublist_of` (xd_fact ∘ snd <$> done) }.
Lemma sublist_snoc_r {A} (l k : list A) x : l `sublist_of` k → l `sublist_of` k ++ [x].
Proof. intros H. rewrite <- (app_nil_r l). apply sublist_app; [done|]. apply sublist_nil_l. Qed.
Lemma edge_accounted done t x :
  triple (accounted done t) (commit_edge ts_text gid time kinds slots strict fe t x) (accounted (done ++ [x])) (λ _ _, True).
Proof.
  destruct x as [i e]. intros s [Ht Hd Hr (new & Hv & Hn & Hf & Hsub)]. set (v := (base.1.1 ++ new, base.1.2, base.2)) in *.
  cut (triple (λ s, view s = v) (commit_edge ts_text gid time kinds slots strict fe t (i, e)) (accounted (done ++ [(i, e)])) (λ _ _, True));
    [intros H; exact (H s Hv)|]. clear s Hv. unfold commit_edge.
  assert (Hlen : length (done ++ [(i, e)]) = S (length done)) by (rewrite length_app; cbn; lia).
  apply triple_bind with (Q := λ _ s, view s = v); [apply (stays_endpoint _ _ _ _ _ (λ w, w = v))|intros [src c1]].
  apply triple_bind with (Q := λ _ s, view s = v); [apply (stays_endpoint _ _ _ _ _ (λ w, w = v))|intros [dst c2]].
  cbv zeta. assert (Hdrop : ∀ a b, triple (λ s, view s = v) (ret (drop_unresolvable e a b (with_tally_cache c2 t))) (accounted (done ++ [(i, e)])) (λ _ _, True)).
  { intros a b. apply triple_ret. intros s Hv. split; cbn; rewrite ?Hlen, ?length_app; cbn; try lia.
    exists new. split_and!; [done..|]. rewrite fmap_app. by apply sublist_snoc_r. }
  destruct (into_uuid src) as [a|], (into_uuid dst) as [b|]; [|auto..]. case_bool_decide as Hab.
  - apply triple_ret. intros s Hv. split; cbn; rewrite ?Hlen; try lia. exists new. split_and!; [done..|]. rewrite fmap_app. by apply sublist_snoc_r.
  - eapply triple_bind; [apply (stays_at_index _ _ (λ w, w = v))|intros emb]. eapply triple_bind; [apply (stays_uuid (λ w, w = v))|intros uuid].
    intros s Hv. split; cbn; rewrite ?Hlen; try lia; [destruct (_ && _); lia|]. unfold view in *. cbn. injection Hv as -> -> ->.
    exists (new ++ [edge_of gid time e uuid a b emb]). split_and!; [by rewrite app_assoc|rewrite length_app; cbn; lia|apply Forall_app; split; [done|by apply Forall_singleton]|].
    rewrite !fmap_app. by apply sublist_app.
Qed.
Lemma edges_all_accounted edges :
  triple (λ s, view s = base)
    (for_each (imap pair edges) (commit_edge ts_text gid time kinds slots strict fe)
       {| t_inserted := 0; t_unresolvable := 0; t_self_loop := 0; t_reclassified := 0; t_dropped := []; t_cache := ∅ |})
    (accounted (imap pair edges)) (λ _ _, True).
Proof.
  eapply triple_weaken; [apply (triple_for_each _ _ accounted (λ _ _, True))|..].
  - intros done x rest t _. apply edge_accounted.
  - intros s Hs. split; cbn; [done..|]. exists []. rewrite app_nil_r. destruct base as [[??]?]. by split_and!.
  - done.
  - done.
Qed.
End edges.

Lemma mentions_added (ep gid : str) us : ∀ st : store, let st' := foldl (λ s u, insert_mentions_edge {| me_episode := ep; me_entity := u; me_group := gid |} s) st us in
  sto_edges st' = sto_edges st ∧ sto_episodes st' = sto_episodes st ∧
  ∃ ms, sto_mentions st' = sto_mentions st ++ ms ∧ Forall (λ m, me_episode m = ep ∧ me_group m = gid ∧ me_entity m ∈ us) ms.
Proof.
  induction us as [|u us IH]; intros st; cbn [foldl]; [split_and!; [done..|]; exists []; rewrite app_nil_r; by split; [|constructor]|].
  cbv zeta. destruct (IH (insert_mentions_edge {| me_episode := ep; me_entity := u; me_group := gid |} st)) as (-> & -> & ms & -> & Hms).
  assert (Hms' : Forall (λ m, me_episode m = ep ∧ me_group m = gid ∧ me_entity m ∈ u :: us) ms).
  { eapply Forall_impl; [exact Hms|]. intros m (? & ? & ?). split_and!; [done..|by right]. }
  unfold insert_mentions_edge. destruct (_ && _); cbn; (split_and!; [done..|]); [|by exists ms].
  exists ({| me_episode := ep; me_entity := u; me_group := gid |} :: ms). rewrite <- app_assoc. split; [done|].
  constructor; [|done]. split_and!; [done..|left].
Qed.
Lemma sublist_facts (edges : list ExtractedEdge) l : l `sublist_of` (xd_fact ∘ snd <$> imap pair edges) → l `sublist_of` (xd_fact <$> edges).
Proof.
  intros H. replace (xd_fact <$> edges) with (xd_fact ∘ snd <$> imap pair edges); [done|].
  apply list_eq. intros i. rewrite !list_lookup_fmap, list_lookup_imap. by destruct (edges !! i).
Qed.

(** C5. When a commit succeeds every edge it was given is accounted for: it is inserted, counted
    and described as unresolvable, or counted as a self-loop, so no fact disappears unreported.
    The rows it adds to what other writers left are as many as it says, each from a different
    entity to another, in the call's group and at its time, with the facts of the extraction in
    order; one episode, whose entities are one per decision; and mentions of that episode only. *)
Theorem edges_accounted (a : AddEpisode) (ep : str) (b : batch) (kinds : list str) (decisions : list DedupDecision) (edges : list ExtractedEdge)
    (fe : list vec) (strict : bool) (ce : vec) (s s' : est) (t : tally) (Hok : commit ts_text a ep b kinds decisions edges fe strict ce s = (Some (Ok t), s')) :
  (t_inserted t + t_unresolvable t + t_self_loop t)%N = N.of_nat (length edges) ∧
  N.of_nat (length (t_dropped t)) = t_unresolvable t ∧ (t_reclassified t <= t_inserted t)%N ∧
  let before := ed_others (x_world s) (x_store s) in
  ∃ new row ms,
    sto_edges (x_store s') = sto_edges before ++ new ∧ sto_episodes (x_store s') = sto_episodes before ++ [row] ∧
    sto_mentions (x_store s') = sto_mentions before ++ ms ∧
    N.of_nat (length new) = t_inserted t ∧ Forall (λ e, re_src e ≠ re_dst e ∧ re_group e = a_group a ∧ re_created e = a_time a) new ∧
    (re_fact <$> new) `sublist_of` (xd_fact <$> edges) ∧
    ep_uuid row = ep ∧ length (ep_entity_edges row) = length decisions ∧
    Forall (λ m, me_episode m = ep ∧ me_group m = a_group a ∧ me_entity m ∈ ep_entity_edges row) ms.
Proof.
  set (before := ed_others (x_world s) (x_store s)). set (base := (sto_edges before, sto_episodes before, sto_mentions before) : view_t).
  assert (H : triple (λ s, view s = base) (commit_body ts_text a ep b kinds decisions edges fe strict ce)
        (λ t s, ∃ s0 us, accounted (a_group a) (a_time a) base (imap pair edges) t s0 ∧ length us = length decisions ∧
        view s = view (on_store (commit_episode a ep us ce (x_store s0)) s0)) (λ _ _, True)).
  { unfold commit_body. eapply triple_bind; [apply (decisions_uuids _ _ (λ w, w = base))|intros us].
    eapply triple_bind; [|intros t1].
    { intros s1 [Hv Hl]. pose proof (edges_all_accounted (a_group a) (a_time a) kinds (name_slots (b_entities b) (b_kinds b) us) strict fe base edges s1 Hv) as H.
      destruct (for_each _ _ _ _) as [[[t1|e]|] s2]; [|done..]. exact (conj H Hl : (λ t s, accounted (a_group a) (a_time a) base (imap pair edges) t s ∧ length us = length decisions) t1 s2). }
    intros s1 [Ha Hl]. unfold bind, modify, flush_episode, ret. cbn. destruct (ed_flush _ _ _) as [[p|] w]; exists s1, us; done. }
  specialize (H (on_store (fresh_conn before) s) eq_refl). unfold commit, on_conn in Hok. fold before in Hok.
  destruct (commit_body _ _ _ _ _ _ _ _ _ _ _) as [[[t'|e]|] s1]; [|discriminate Hok..]. injection Hok as -> <-.
  destruct H as (s0 & us & [Ht Hd Hr (new & Hv & Hn & Hf & Hsub)] & Hl & Hs1). rewrite length_imap in Ht. split; [exact Ht|]. split; [exact Hd|]. split; [exact Hr|].
  unfold view, commit_episode in Hs1, Hv. cbn in Hs1, Hv. 
  match type of Hs1 with context [foldl ?f ?st us] => destruct (mentions_added ep (a_group a) us st) as (He & Hp & ms & Hm & Hms) end.
  rewrite He, Hp, Hm in Hs1. cbn in Hs1 |- *. injection Hs1 as -> -> ->. injection Hv as -> -> ->.
  eexists new, _, ms. split_and!; try done. by apply sublist_facts.
Qed.
End commit.

Section whole.
Context {U : Unicode} {VF : VecFloats} {FL : Floats} {AC : AttrCodec} {W : Type} {ED : EpisodeDeps W} (ts_text : N → str).

End whole.

(** A world of a counter for the uuids and the cancellation token, which the extractor sets on one
    body; vectors tell names apart by their first letter. *)
Definition toy_vec (t : str) : list (@F32 ToyVec) :=
  match head t with Some 65%N => [1; 0; 0]%N | Some 66%N => [0; 1; 0]%N | _ => [0; 0; 1]%N end.
Definition toy_entity (name : string) : ExtractedEntity := {| xe_name := lit name; xe_type := #"Entity"; xe_summary := #"someone"; xe_original := None |}.
Definition toy_edge (src dst fact : string) : ExtractedEdge :=
  {| xd_source := lit src; xd_target := lit dst; xd_fact := lit fact; xd_type := None; xd_valid := None; xd_invalid := None; xd_original := None |}.
Definition toy_outcome : ExtractionOutcome :=
  {| eo_entities := [toy_entity "Alice"; toy_entity "Bob"]; eo_edges := [toy_edge "Alice" "Bob" "They met."; toy_edge "Alice" "Carol" "They wrote."];
     eo_entities_dropped := 0; eo_edges_dropped := 0 |}.
Definition ToyDeps : @EpisodeDeps (N * bool) ToyVec ToyFloats := {|
  ed_cancelled w := w.2; ed_others _ st := st; ed_db _ := None; ed_stamp_io _ := None; ed_sidecar_io _ := None;
  ed_embed t w := (Some (Ok (toy_vec t)), w); ed_embed_batch l w := (Some (Ok (toy_vec <$> l)), w); ed_dim := 3;
  ed_extract o w := (Some (Ok toy_outcome), (w.1, bool_decide (o_body o = #"stop"))); ed_consolidate _ x y w := (Some (Ok (x ++ y)), w);
  ed_judge _ w := ([], w); ed_mode := LlmVerified; ed_vector_search _ _ _ _ _ := []; ed_fts_search _ _ _ _ _ := []; ed_index_error _ := None;
  ed_build_indices w := (Ok tt, w); ed_display _ := #"error"; ed_hybrid_threshold := 100; ed_new_uuid w := ([w.1], ((w.1 + 1)%N, w.2)); ed_hash_order l := l;
  ed_rfc3339 _ := false; ed_timestamp _ := 0%N; ed_flush _ _ w := (None, w); ed_sha256_hex := toy_hash |}.
Definition no_store : @store ToyVec :=
  {| sto_graph := {| g_ents := []; g_eps := []; g_rels := []; g_direct := []; g_kinds := []; g_scans := 0; g_pending := [] |}; sto_name_vec := ∅; sto_summary := ∅;
     sto_summary_vec := ∅; sto_edges := []; sto_episodes := []; sto_mentions := []; sto_positions := ∅ |}.
Definition toy_start : @est ToyVec (N * bool) :=
  {| x_world := (1%N, false); x_store := no_store; x_onto := toy_ostate; x_cancelled := 4; x_active := 2; x_indices := false; x_drifted := false; x_wal := false |}.
Definition toy_call (body : string) : AddEpisode :=
  {| a_name := #"notes"; a_body := lit body; a_source := #"text"; a_source_description := []; a_time := #"2025-01-01"; a_group := #"g"; a_source_type := SText;
     a_custom := None; a_attributes := #"{}" |}.
Definition toy_ingest (body : string) := @add_episode AsciiUnicode ToyVec ToyFloats ToyAttrs (N * bool) ToyDeps (λ _, []) (toy_call body) toy_start.
Example toy_ingest_commits :
  (λ r, match r with Some (Ok x) => Some (nodes_extracted x, edges_extracted x, edges_dropped_unresolvable x) | _ => None end) (toy_ingest "hello").1 = Some (2, 1, 1)%N.
Proof. vm_compute. reflexivity. Qed.

Definition toy_row (uuid name : string) : @EntityRow ToyVec :=
  {| ey_uuid := lit uuid; ey_name := lit name; ey_group := #"g"; ey_labels := [ #"Entity"]; ey_kind := DEFAULT_KIND; ey_created := #"2025-01-01";
     ey_name_vec := toy_vec (lit name); ey_summary := #"someone"; ey_attrs := #"{}"; ey_summary_vec := toy_vec #"someone" |}.
Definition toy_batch : @batch ToyVec :=
  {| b_group := #"g"; b_time := #"2025-01-01"; b_ontology := None; b_entities := eo_entities toy_outcome; b_kinds := [DEFAULT_KIND; DEFAULT_KIND];
     b_name_embeddings := [toy_vec #"Alice"; toy_vec #"Bob"]; b_summary_embeddings := [toy_vec #"someone"; toy_vec #"someone"] |}.
Definition toy_commit := @commit AsciiUnicode ToyVec ToyFloats ToyAttrs (N * bool) ToyDeps (λ _, []) (toy_call "hello") #"ep" toy_batch [DEFAULT_KIND]
  [Insert (toy_row "a" "Alice"); Insert (toy_row "b" "Bob")] (eo_edges toy_outcome) [toy_vec #"They met."; toy_vec #"They wrote."] false (toy_vec #"hello") toy_start.
Definition toy_tally : tally := match toy_commit.1 with Some (Ok t) => t | _ => with_tally_cache ∅ {| t_inserted := 9; t_unresolvable := 9; t_self_loop := 9; t_reclassified := 9; t_dropped := []; t_cache := ∅ |} end.
(** One edge is stored; the other end of the second one is nobody. *)
Lemma edges_accounted_witness :
  (t_inserted toy_tally, t_unresolvable toy_tally, t_self_loop toy_tally) = (1, 1, 0)%N ∧ length (t_dropped toy_tally) = 1 ∧ length (sto_edges (x_store toy_commit.2)) = 1.
Proof.
  assert (Hok : toy_commit = (Some (Ok toy_tally), toy_commit.2)).
  { assert (H : match toy_commit.1 with Some (Ok _) => true | _ => false end = true) by (vm_compute; reflexivity).
    unfold toy_tally. destruct toy_commit as [[[t|e]|] s1]; [reflexivity|discriminate H|discriminate H]. }
  destruct (@edges_accounted AsciiUnicode ToyVec ToyFloats ToyAttrs (N * bool) ToyDeps (λ _, []) (toy_call "hello") #"ep" toy_batch [DEFAULT_KIND]
    [Insert (toy_row "a" "Alice"); Insert (toy_row "b" "Bob")] (eo_edges toy_outcome) [toy_vec #"They met."; toy_vec #"They wrote."] false (toy_vec #"hello")
    toy_start toy_commit.2 toy_tally Hok) as (_ & Hd & _ & _).
  split; [vm_compute; reflexivity|]. split; [|vm_compute; reflexivity]. apply Nat2N.inj. rewrite Hd. vm_compute. reflexivity.
Defined.
