(* ===== verification/EpisodeDedup.v ===== *)
(** * EpisodeDedup: every extracted entity gets exactly one decision

    The two passes of Phase B: the first decides what needs no judgement and leaves the rest
    pending, the second settles each pending entity by its verdict, or as unknown when the judge
    gave too few.  The theorem is about all of it, the re-embedding of merged summaries included. *)

From S2P Require Import Prelude Text Numbers Json WalGeneration WalScan Checkpoint WalGroup Wal LegacyWal Replay Pointer Ontology SummaryMerge Replies Prompts Extraction Graph OntologyState IdentifierVeto Search DedupAdapter DedupSearch EpisodeFilter Episode EpisodeTheory.

Definition total_paths (c : DedupPathCounts) : N :=
  exact_name c + embedding_merge c + path_vetoed c + adapter_rejected c + llm_confirmed c + llm_rejected c + llm_unavailable c + salvage_vetoed c.
Lemma tally_total p c : total_paths (tally_path p c) = (total_paths c + 1)%N.
Proof. destruct p; unfold total_paths, tally_path, counts_of; cbn; repeat case_bool_decide; try congruence; lia. Qed.

Section dedup.
Context {U : Unicode} {VF : VecFloats} {FL : Floats} {AC : AttrCodec} {W : Type} {ED : EpisodeDeps W}.
Local Notation est := (@est VF W).
Context (b : batch) (results : list PhaseBResult).

(** The entity a result may be merged into, and whether the first pass counts the result. *)
Definition existing_of (r : PhaseBResult) : option found_row := match r with NameMatch ex => Some ex | EmbeddingCandidate c _ => c end.
Definition counted (r : PhaseBResult) : N := match r with EmbeddingCandidate None v => if (0 <? v)%N then 1 else 0 | _ => 1 end.
Definition counted_all (l : list PhaseBResult) : N := foldr (λ r n, counted r + n)%N 0%N l.
(** A decision that fits the [i]th entity: a merge into the row found for it, always for an exact
    match, or an insert under its own name. *)
Definition fits (i : nat) (d : DedupDecision) : Prop :=
  match d with
  | Merge u _ _ => ∃ r ex, results !! i = Some r ∧ existing_of r = Some ex ∧ u = en_uuid (fr_ent ex)
  | Insert row => ∃ x c v, b_entities b !! i = Some x ∧ results !! i = Some (EmbeddingCandidate c v) ∧
                    ey_name row = xe_name x ∧ ey_summary row = xe_summary x ∧ ey_group row = b_group b
  end.
(** After [n] entities, with the indices [todo] still to be judged. *)
Record decided_upto (total : N) (n : nat) (todo : list nat) (st : pass) : Prop := {
  du_length : length (p_decisions st) = n;
  du_fits : ∀ i d, p_decisions st !! i = Some (Some d) → fits i d;
  du_todo : ∀ i, p_decisions st !! i = Some None → i ∈ todo;
  du_pending : ∀ i, i ∈ todo → i < n ∧ ∃ ex v, results !! i = Some (EmbeddingCandidate (Some ex) v);
  du_paths : (total_paths (p_paths st) + N.of_nat (length todo))%N = total }.

(** The lists of a batch have an entry per entity. *)
Record full_batch : Prop := {
  fb_results : length results = length (b_entities b); fb_kinds : length (b_kinds b) = length (b_entities b);
  fb_names : length (b_name_embeddings b) = length (b_entities b); fb_summaries : length (b_summary_embeddings b) = length (b_entities b) }.
Context (full : full_batch).
Hypothesis consolidates : ∀ name x y (w : W), (ed_consolidate name x y w).1 ≠ None.
Hypothesis embeds : ∀ l (w : W), (ed_embed_batch l w).1 ≠ None.
(** [m] does not panic, and its value is right. *)
Definition gives {A} (m : @M VF W A) (Q : A → Prop) : Prop := triple (λ _, True) m (λ a _, Q a) (λ e _, e ≠ None).
Lemma gives_ret {A} (a : A) (Q : A → Prop) : Q a → gives (ret a) Q.
Proof. intros H. by apply triple_ret. Qed.
Lemma gives_bind {A B} (m : M A) (k : A → M B) Q R : gives m Q → (∀ a, Q a → gives (k a) R) → gives (bind m k) R.
Proof.
  intros Hm Hk. eapply triple_bind; [exact Hm|]. intros a s Ha. exact (Hk a Ha s I).
Qed.
Lemma gives_at_index {A} (l : list A) i : i < length l → gives (at_index l i) (λ a, l !! i = Some a).
Proof. intros H s _. unfold at_index. destruct (l !! i) eqn:E; [done|]. apply lookup_ge_None in E. lia. Qed.
Lemma gives_select {A} (m : M A) Q : gives m Q → gives (select m) Q.
Proof. intros H s Hs. unfold select. destruct (ed_cancelled _); [done|exact (H s Hs)]. Qed.
Lemma gives_uuid : gives new_uuid (λ _, True).
Proof. intros s _. unfold new_uuid. by destruct (ed_new_uuid _). Qed.
Lemma gives_for_each {A B} (l : list A) (f : B → A → @M VF W B) (I : list A → B → Prop) c :
  I [] c → (∀ d x rest c, l = d ++ x :: rest → I d c → gives (f c x) (I (d ++ [x]))) → gives (for_each l f c) (I l).
Proof.
  intros H0 Hf. eapply triple_weaken; [apply (triple_for_each l f (λ d c _, I d c) (λ e _, e ≠ None))|done..].
  intros d x rest c' Hl s Hc. exact (Hf d x rest c' Hl Hc s Logic.I).
Qed.
Lemma gives_merge_into ms i ex inc : gives (merge_into ms i ex inc) (λ x, ∃ t e, x.1 = Merge (en_uuid (fr_ent ex)) t e).
Proof.
  unfold merge_into. destruct (default _ _) as [[b0 r] l]. apply gives_bind with (Q := λ _, True); [|intros o _; apply gives_ret; eauto].
  unfold merged_summary_for. destruct (decide_consolidation _ _); [by apply gives_ret..|].
  apply gives_bind with (Q := λ _, True); [|intros; by apply gives_ret]. apply gives_select. intros s _.
  pose proof (consolidates (en_name (fr_ent ex)) r inc (x_world s)) as Hc. by destruct (ed_consolidate _ _ _ _) as [[[]|] w].
Qed.
Lemma gives_insert_row i : i < length (b_entities b) → (∃ c v, results !! i = Some (EmbeddingCandidate c v)) → gives (make_insert_row b i) (fits i).
Proof.
  intros Hi (c & v & Hr). destruct full as [_ Hk Hn Hs]. unfold make_insert_row.
  eapply gives_bind; [by apply gives_at_index|intros x Hx]. do 3 (eapply gives_bind; [apply gives_at_index; lia|intros ? _]).
  eapply gives_bind; [apply gives_uuid|intros u _]. apply gives_ret. exists x, c, v. done.
Qed.
Lemma counted_snoc l r : counted_all (l ++ [r]) = (counted_all l + counted r)%N.
Proof. induction l as [|x l IH]; cbn; [lia|]. fold (counted_all (l ++ [r])) (counted_all l). lia. Qed.

(** The first pass over a prefix: what is pending is what is not decided yet. *)
Definition first_state (total0 : N) (d : list (nat * (ExtractedEntity * PhaseBResult))) (st : pass) : Prop :=
  decided_upto (total0 + counted_all (snd ∘ snd <$> d)) (length d) (fst <$> p_pending st) st.
Lemma item_at d x rest : imap pair (zip (b_entities b) results) = d ++ x :: rest →
  x.1 = length d ∧ b_entities b !! length d = Some x.2.1 ∧ results !! length d = Some x.2.2.
Proof.
  intros H. assert (Hx : (d ++ x :: rest) !! length d = Some x) by (rewrite lookup_app_r, Nat.sub_diag by lia; done).
  rewrite <- H, list_lookup_imap in Hx. destruct (zip _ _ !! length d) as [[e r]|] eqn:Hz; [|done]. injection Hx as <-.
  by apply lookup_zip_with_Some in Hz as (? & ? & [= <- <-] & -> & ->).
Qed.
Lemma push_decision total0 d x st dec ms q :
  first_state total0 d st → fits (length d) dec → (total_paths q = total_paths (p_paths st) + counted x.2.2)%N →
  first_state total0 (d ++ [x]) {| p_decisions := p_decisions st ++ [Some dec]; p_pending := p_pending st; p_merges := ms; p_paths := q |}.
Proof.
  intros [Hl Hf Ht Hp Htot] Hfit Hq. split; cbn [p_decisions p_pending p_paths].
  - rewrite !length_app, Hl. done.
  - intros i dd [H|[Hge H]]%lookup_app_Some; [by apply Hf|]. apply list_lookup_singleton_Some in H as [Hi [= <-]]. by replace i with (length d) by lia.
  - intros i [H|[Hge H]]%lookup_app_Some; [by apply Ht|]. by apply list_lookup_singleton_Some in H as [_ ?].
  - intros i Hi. apply Hp in Hi as [? ?]. rewrite length_app. cbn. split; [lia|done].
  - rewrite fmap_app. cbn [fmap list_fmap]. rewrite counted_snoc. cbn [compose]. lia.
Qed.
Lemma first_pass_right total0 d x rest st :
  imap pair (zip (b_entities b) results) = d ++ x :: rest → first_state total0 d st → gives (first_pass_step b st x) (first_state total0 (d ++ [x])).
Proof.
  intros Hl H. apply item_at in Hl as (Hi & He & Hr). destruct x as [i [e r]]. cbn in Hi, He, Hr. subst i. unfold first_pass_step.
  apply gives_bind with (Q := λ _, True); [by apply gives_select, gives_ret|intros _ _].
  destruct r as [ex|[ex|] v].
  - eapply gives_bind; [apply gives_merge_into|intros [dec ms] (t & o & Hd)]. cbn in Hd. subst dec. apply gives_ret, push_decision; [done| |by rewrite tally_total].
    by exists (NameMatch ex), ex.
  - case_bool_decide.
    + eapply gives_bind; [apply gives_merge_into|intros [dec ms] (t & o & Hd)]. cbn in Hd. subst dec. apply gives_ret, push_decision; [done| |by rewrite tally_total].
      by exists (EmbeddingCandidate (Some ex) v), ex.
    + apply gives_ret. destruct H as [Hl Hf Ht Hp Htot]. split; cbn [p_decisions p_pending p_paths].
      * rewrite !length_app, Hl. done.
      * intros j dd [H'|[Hge H']]%lookup_app_Some; [by apply Hf|]. by apply list_lookup_singleton_Some in H' as [_ ?].
      * intros j [H'|[Hge H']]%lookup_app_Some; rewrite fmap_app; apply elem_of_app; [left; by apply Ht|right].
        apply list_lookup_singleton_Some in H' as [Hj _]. apply list_elem_of_singleton. cbn. lia.
      * intros j. rewrite fmap_app, length_app. cbn. intros [Hj|Hj%list_elem_of_singleton]%elem_of_app; [apply Hp in Hj as [? ?]; split; [lia|done]|subst j; split; [lia|by exists ex, v]].
      * rewrite !fmap_app, length_app. cbn [fmap list_fmap length]. rewrite counted_snoc. cbn. lia.
  - eapply gives_bind; [apply gives_insert_row; [by apply lookup_lt_Some in He|by exists None, v]|intros dec Hd]. apply gives_ret, push_decision; [done..|].
    cbn. destruct (0 <? v)%N; [apply tally_total|lia].
Qed.

(** The second pass over a prefix: one index less to judge each time. *)
Definition second_state (total : N) (pending : list (nat * DuplicatePair)) (d : list (nat * DuplicatePair * DedupVerdict)) (st : pass) : Prop :=
  decided_upto total (length (b_entities b)) (drop (length d) (fst <$> pending)) st.
Lemma settle_decision total todo i st dec ms q ps :
  decided_upto total (length (b_entities b)) (i :: todo) st → fits i dec → total_paths q = (total_paths (p_paths st) + 1)%N →
  decided_upto total (length (b_entities b)) todo {| p_decisions := <[i := Some dec]> (p_decisions st); p_pending := ps; p_merges := ms; p_paths := q |}.
Proof.
  intros [Hl Hf Ht Hp Htot] Hfit Hq. split; cbn [p_decisions p_paths].
  - by rewrite length_insert.
  - intros j dd [(-> & [= <-] & _)|[_ H]]%list_lookup_insert_Some; [done|by apply Hf].
  - intros j [(-> & ? & _)|[Hne H]]%list_lookup_insert_Some; [done|]. apply Ht, elem_of_cons in H as [->|]; done.
  - intros j Hj. apply Hp. by right.
  - cbn [length] in Htot. lia.
Qed.
Lemma second_pass_right total pending verdicts d x rest st :
  zip pending verdicts = d ++ x :: rest → second_state total pending d st → gives (second_pass_step b results st x) (second_state total pending (d ++ [x])).
Proof.
  intros Hz H. assert (Hx : (d ++ x :: rest) !! length d = Some x) by (rewrite lookup_app_r, Nat.sub_diag by lia; done).
  rewrite <- Hz in Hx. apply lookup_zip_with_Some in Hx as ([i p] & v & -> & Hi & _). unfold second_state in *.
  erewrite drop_S in H by (rewrite list_lookup_fmap, Hi; done). cbn [fst] in H.
  rewrite length_app. cbn [length]. rewrite Nat.add_1_r. destruct (du_pending _ _ _ _ H i) as [Hlt (ex & veto & Hr)]; [left|].
  unfold second_pass_step. rewrite Hr. eapply gives_bind; [by apply gives_at_index|intros e He].
  destruct v; (eapply gives_bind; [first [apply gives_merge_into|apply gives_insert_row; eauto]|]).
  - intros [dec ms] (t & o & Hd). cbn in Hd. subst dec. apply gives_ret. eapply settle_decision; [exact H|by eexists _, ex|apply tally_total].
  - intros dec Hd. apply gives_ret. eapply settle_decision; [exact H|done|apply tally_total].
  - intros dec Hd. apply gives_ret. eapply settle_decision; [exact H|done|apply tally_total].
Qed.
Lemma padded_length n vs : length (padded n vs) = n.
Proof. unfold padded. rewrite length_take, length_app, length_replicate. lia. Qed.
Lemma judge_right total st :
  decided_upto total (length (b_entities b)) (fst <$> p_pending st) st →
  gives (judge_pending b results st) (decided_upto total (length (b_entities b)) []).
Proof.
  intros H. unfold judge_pending. destruct (p_pending st) as [|x pending] eqn:Hp; [by apply gives_ret|]. set (pend := x :: pending) in *.
  apply gives_bind with (Q := λ _, True); [apply gives_select; intros s _; by destruct (ed_judge _ _)|]. intros vs _.
  set (vs' := padded (length pend) vs). assert (Hlen : length (zip pend vs') = length pend) by (rewrite length_zip_with; unfold vs'; rewrite padded_length; lia).
  eapply triple_weaken; [apply (gives_for_each (zip pend vs') (second_pass_step b results) (second_state total pend) st)|done| |done].
  - unfold second_state. by rewrite drop_0.
  - intros d y rest c. apply second_pass_right.
  - intros st2 s. unfold second_state. by rewrite Hlen, drop_ge by (rewrite length_fmap; lia).
Qed.
Lemma attach_fits l : ∀ ds, (∀ i d, ds !! i = Some d → fits i d) →
  length (foldl attach_embedding ds l) = length ds ∧ ∀ i d, foldl attach_embedding ds l !! i = Some d → fits i d.
Proof.
  induction l as [|[[i t] e] l IH]; intros ds H; [done|]. cbn [foldl]. unfold attach_embedding at 2 4.
  destruct (ds !! i) as [[u m o|row]|] eqn:Hi; [|by apply IH..].
  destruct (IH (<[i := Merge u t (Some e)]> ds)) as [H1 H2].
  - intros j d [(-> & <- & _)|[_ Hj]]%list_lookup_insert_Some; [exact (H _ _ Hi)|by apply H].
  - by rewrite length_insert in H1.
Qed.
Lemma settle_right total st : decided_upto total (length (b_entities b)) [] st →
  gives (settle_decisions st) (λ ds, length ds = length (b_entities b) ∧ ∀ i d, ds !! i = Some d → fits i d).
Proof.
  intros [Hl Hf Ht _ _]. unfold settle_decisions.
  destruct (mapM id (p_decisions st)) as [ds|] eqn:Hm.
  - apply mapM_Some in Hm. assert (Hds : length ds = length (b_entities b) ∧ ∀ i d, ds !! i = Some d → fits i d).
    { split; [by rewrite <- Hl, (Forall2_length _ _ _ Hm)|]. intros i d Hd. eapply Forall2_lookup_r in Hm as (o & Ho & Hod); [|exact Hd]. cbn in Hod. subst o. by apply Hf. }
    destruct (changed_summaries _) as [|ch l]; [by apply gives_ret|]. apply gives_bind with (Q := λ _, True).
    + apply gives_select. intros s _. unfold call. pose proof (embeds (snd <$> ch :: l) (x_world s)). by destruct (ed_embed_batch _ _) as [[[]|] w].
    + intros embs _. apply gives_ret. destruct Hds as [Hd1 Hd2]. destruct (attach_fits (zip (ch :: l) embs) ds Hd2) as [Ha1 Ha2]. split; [congruence|done].
  - exfalso. apply mapM_None, Exists_exists in Hm as (o & Ho & Hn). cbn in Hn. subst o. apply list_elem_of_lookup_1 in Ho as [i Hi].
    apply Ht in Hi. by apply elem_of_nil in Hi.
Qed.

(** C20. Deciding what the entities of a batch are cannot panic, so long as the batch has an entry
    per entity in each of its lists and the collaborators return: the indexing is in range, and
    every entity left pending by the first pass is settled by the second, whatever number of
    verdicts the judge gives.  When it succeeds each entity has exactly one decision, in order: a
    merge into the very row its search found, or an insert under its own name and summary, never
    an insert over an exact match; and the path counts have grown by one for each entity, less
    the new ones that nothing resembled. *)
Theorem every_entity_decided (paths : DedupPathCounts) (s s' : est) (r : option (result Error (list DedupDecision * DedupPathCounts)))
    (Hrun : decide_entities b results paths s = (r, s')) :
  r ≠ None ∧
  ∀ decisions paths', r = Some (Ok (decisions, paths')) →
    length decisions = length (b_entities b) ∧ (∀ i d, decisions !! i = Some d → fits i d) ∧
    total_paths paths' = (total_paths paths + counted_all results)%N.
Proof.
  assert (H : gives (decide_entities b results paths) (λ '(ds, q),
    length ds = length (b_entities b) ∧ (∀ i d, ds !! i = Some d → fits i d) ∧ total_paths q = (total_paths paths + counted_all results)%N)).
  { unfold decide_entities. eapply gives_bind.
    - apply (gives_for_each _ _ (first_state (total_paths paths))).
      + split; cbn [length fmap list_fmap p_decisions p_pending p_paths counted_all foldr]; [done|done|done|by intros ? ?%elem_of_nil|lia].
      + intros d x rest c. apply first_pass_right.
    - intros st Hst. unfold first_state in Hst.
      assert (Hlen : length (imap pair (zip (b_entities b) results)) = length (b_entities b)) by (rewrite length_imap, length_zip_with, (fb_results full); lia).
      assert (Hsnd : snd ∘ snd <$> imap pair (zip (b_entities b) results) = results).
      { apply list_eq. intros i. rewrite list_lookup_fmap, list_lookup_imap, lookup_zip_with.
        destruct (results !! i) as [x|] eqn:Hx; [|by destruct (b_entities b !! i)].
        destruct (b_entities b !! i) as [e|] eqn:He; [done|]. apply lookup_ge_None in He. apply lookup_lt_Some in Hx. rewrite (fb_results full) in Hx. lia. }
      rewrite Hlen, Hsnd in Hst. eapply gives_bind; [by apply judge_right|intros st2 H2].
      eapply gives_bind; [by eapply settle_right|intros ds [Hd1 Hd2]]. apply gives_ret. split_and!; [done..|]. destruct H2 as [_ _ _ _ Ht]. cbn in Ht. lia. }
  specialize (H s Logic.I). rewrite Hrun in H. destruct r as [[[ds q]|e]|]; split; try done. by intros ds' q' [= <- <-].
Qed.
End dedup.

Definition toy_found : found_row := {| fr_ent := toy_ent "u9" "Alicia" "g"; fr_summary := #"a friend" |}.
Definition toy_results : list PhaseBResult := [EmbeddingCandidate (Some toy_found) 0; EmbeddingCandidate None 1].
Definition toy_decide := @decide_entities AsciiUnicode ToyVec ToyFloats ToyAttrs (N * bool) ToyDeps toy_batch toy_results no_paths toy_start.
(** The judge gives no verdict on Alice, who is inserted; something like Bob was vetoed. *)
Lemma every_entity_decided_witness :
  match toy_decide.1 with Some (Ok (ds, q)) => length ds = 2 ∧ llm_unavailable q = 1%N ∧ path_vetoed q = 1%N ∧ total_paths q = 2%N | _ => False end.
Proof.
  destruct (@every_entity_decided AsciiUnicode ToyVec ToyFloats ToyAttrs (N * bool) ToyDeps toy_batch toy_results) with (paths := no_paths) (s := toy_start)
    (s' := toy_decide.2) (r := toy_decide.1) as [_ H].
  - split; reflexivity.
  - intros. cbn. discriminate.
  - intros. cbn. discriminate.
  - apply surjective_pairing.
  - destruct toy_decide.1 as [[[ds q]|e]|] eqn:E; [|vm_compute in E; discriminate E|vm_compute in E; discriminate E].
    destruct (H ds q eq_refl) as (Hl & _ & Ht). split; [exact Hl|]. split; [vm_compute in E; injection E as _ <-; reflexivity|].
    split; [vm_compute in E; injection E as _ <-; reflexivity|]. rewrite Ht. reflexivity.
Defined.
