(* ===== verification/Assert.v ===== *)
(** * Assert: asserting one entity or one relationship (core/src/assert.rs, with its handlers in
    core/src/handlers.rs)

    Both handlers resolve under the write lock, embed without it, and resolve again under the lock
    before they insert.  The computations are those of [Episode]; what other writers do before
    each of the two passes is [ed_others].  [ed_flush] is the flush to the log; timestamps are read
    and normalised by the class [AssertDeps]. *)

From S2P Require Import Prelude Text Numbers Json WalGeneration WalScan Checkpoint WalGroup Wal LegacyWal Replay Pointer Ontology SummaryMerge Replies Prompts Extraction Graph CrossGroup OntologyState IdentifierVeto Search DedupAdapter DedupSearch EpisodeFilter Episode.

(** Source: core/src/assert.rs 29-37 (KindScope) *)
Inductive KindScope := ExactKind (kind : str) | AnyKind.
(** Source: core/src/assert.rs 39-44 (for_read) *)
Definition for_read (kind : option str) : KindScope := match kind with Some k => ExactKind k | None => AnyKind end.
(** Source: core/src/assert.rs 47-57 (Resolved) *)
Inductive Resolved := NotFound | Existing (e : ent).

Section resolve.
Context {U : Unicode} {AC : AttrCodec} (ts_text : N → str).
(** Source: core/src/assert.rs 107-119 (ambiguity_error) *)
Definition ambiguity_error (name group_id : str) (candidates : list ent) : Error :=
  AmbiguousEntity name group_id ((λ e, (en_uuid e, kind_of e)) <$> candidates).
(** Source: core/src/assert.rs 81-97 (resolve_entity_by_name) *)
Fixpoint canonicals (g : graph) (group_id name : str) (winners : list ent) : result Error (list ent) :=
  match winners with
  | [] => Ok []
  | w :: winners =>
      let? c := if negb (is_merged w) then Ok w
                else match follow_merged_into_chain g group_id w with
                     | Some canonical => Ok canonical
                     | None => Err (Ipc (Msg "name '{name}' resolves to a Merged tombstone in group '{group_id}' whose merged_into forwarding does not reach a canonical entity within the group" [AStr name; AStr group_id]))
                     end in
      let? l := canonicals g group_id name winners in Ok (c :: l)
  end.
(** Source: core/src/assert.rs 72-104 (resolve_entity_by_name) *)
Definition resolve_entity_by_name (group_id name : str) (scope : KindScope) (g : graph) : result Error Resolved * graph :=
  let '(winners, g) :=
    match scope with
    | ExactKind k => let '(r, g) := get_entity_by_name_ci_with_scan_fallback name group_id k g in (option_list r, g)
    | AnyKind => resolve_entities_by_name_any_kind ts_text name group_id g
    end in
  (match canonicals g group_id name winners with
   | Err e => Err e
   | Ok [] => Ok NotFound
   | Ok [e] => Ok (Existing e)
   | Ok l => Err (ambiguity_error name group_id l)
   end, g).
(** Source: core/src/assert.rs 131-156 (resolve_entity_by_uuid) *)
Definition resolve_entity_by_uuid (g : graph) (group_id entity_uuid : str) : result Error ent :=
  match get_entity_by_uuid g entity_uuid with
  | Some e =>
      if bool_decide (en_group e = group_id) then
        if negb (is_merged e) then Ok e
        else match follow_merged_into_chain g group_id e with
             | Some canonical => Ok canonical
             | None => Err (Ipc (Msg "entity_uuid '{entity_uuid}' resolves to a Merged tombstone in group '{group_id}' whose merged_into forwarding does not reach a canonical entity within the group" [AStr entity_uuid; AStr group_id]))
             end
      else Err (Ipc (Msg "entity_uuid '{entity_uuid}' does not exist in group '{group_id}'" [AStr entity_uuid; AStr group_id]))
  | None => Err (Ipc (Msg "entity_uuid '{entity_uuid}' does not exist in group '{group_id}'" [AStr entity_uuid; AStr group_id]))
  end.
End resolve.

(** ** Rows *)

Section rows.
Context {U : Unicode} {VF : VecFloats}.
(** Source: core/src/db.rs 4402-4408 (normalize_row_kind) *)
Definition normalize_row_kind (kind : str) : str := if nonempty (trim kind) then trim kind else DEFAULT_KIND.
(** Source: core/src/db.rs 3497-3530 (update_entity_core) *)
Definition update_entity_core (existing : ent) (new_name : str) (labels : list str) (summary attributes : str) (s : store) : store :=
  let kind := normalize_row_kind (kind_of existing) in
  let g := sto_graph s in
  let f e := if bool_decide (en_uuid e = en_uuid existing) then
               {| en_uuid := en_uuid e; en_name := new_name; en_group := en_group existing; en_labels := labels_with_kind labels kind; en_kind := Some kind;
                  en_key := Some (compute_lookup_key (en_group existing) kind new_name); en_created := en_created e; en_attrs := attributes |}
             else e in
  let g := record_mut (en_group existing) (MEntity (en_uuid existing)) (with_ents (f <$> g_ents g) g) in
  {| sto_graph := g; sto_name_vec := sto_name_vec s;
     sto_summary := if has_entity (sto_graph s) (en_uuid existing) then <[en_uuid existing := summary]> (sto_summary s) else sto_summary s;
     sto_summary_vec := sto_summary_vec s; sto_edges := sto_edges s; sto_episodes := sto_episodes s; sto_mentions := sto_mentions s; sto_positions := sto_positions s |}.
(** The oldest live edge of that name from one entity to the other; [ts] reads a timestamp's text.
    Source: core/src/db.rs 3402-3416 (find_active_relates_to_uuid) *)
Definition find_active_relates_to_uuid (ts : str → N) (s : store) (src dst name group_id : str) : option str :=
  let created u := default 0%N (find_first (λ e, if bool_decide (re_uuid e = u) then Some (ts (re_created e)) else None) (sto_edges s)) in
  let leb a b := if (created a <? created b)%N then true else if (created b <? created a)%N then false else str_leb a b in
  head (sort_by leb
    (omap (λ r, if bool_decide (src ∈ rn_srcs r) && bool_decide (dst ∈ rn_dsts r) && bool_decide (rn_name r = name)
                   && bool_decide (rn_invalid r = None) && bool_decide (rn_group r = group_id) then Some (rn_uuid r) else None) (g_rels (sto_graph s)))).
(** The shadow node, then the direct relation.
    Source: core/src/db.rs 1034-1071 (update_relates_to_core) *)
Definition update_relates_to_core (uuid fact : str) (valid_at relation_type : option str) (attributes : str) (s : store) : store :=
  let g := edge_mut uuid (update_relates_to_attributes uuid attributes (sto_graph s)) in
  let f e := if bool_decide (re_uuid e = uuid) then
               {| re_uuid := re_uuid e; re_name := re_name e; re_src := re_src e; re_dst := re_dst e; re_group := re_group e; re_fact := fact; re_vec := re_vec e;
                  re_created := re_created e; re_valid := valid_at; re_invalid := re_invalid e; re_attrs := attributes; re_type := relation_type |}
             else e in
  {| sto_graph := g; sto_name_vec := sto_name_vec s; sto_summary := sto_summary s; sto_summary_vec := sto_summary_vec s; sto_edges := f <$> sto_edges s;
     sto_episodes := sto_episodes s; sto_mentions := sto_mentions s; sto_positions := sto_positions s |}.
End rows.

(** ** The handlers *)

Class AssertDeps (W : Type) := {
  ad_now : W → str;
  ad_valid_at : str → option str;
  ad_connect_error : W → option str;
}.
(** [p[key]] of a request's parameters. *)
Definition param (key : string) (p : value) : value := default VNull (get (lit key) p).
Definition nonblank (s : str) : bool := nonempty (trim s).
Definition required (key : string) (p : value) : result Error str :=
  match as_str (param key p) with Some s => if nonblank s then Ok s else Err (Ipc (Msg "{key} is required" [AStr (lit key)])) | None => Err (Ipc (Msg "{key} is required" [AStr (lit key)])) end.
Definition group_param (p : value) : str := default DEFAULT_GROUP_ID (as_str (param "group_id" p)).

Section handlers.
Context {U : Unicode} {VF : VecFloats} {FL : Floats} {AC : AttrCodec} {W : Type} {ED : EpisodeDeps W} {AD : AssertDeps W} (db_lower : str → str) (ts_text : N → str).
Local Notation est := (@est VF W).
Local Notation M := (@M VF W).
Local Notation "'let*' x := m 'in' k" := (bind m (λ x, k)) (at level 200, x name, m at level 100, k at level 200).
Local Notation "'let*' ' p := m 'in' k" := (bind m (λ p, k)) (at level 200, p strict pattern, m at level 100, k at level 200).

(** Source: core/src/handlers.rs 4119-4124 (attributes_param_to_string) *)
Definition attributes_param_to_string (v : value) : str := match v with VObject _ => json_print v | _ => #"{}" end.
(** The arguments of an entity assertion. *)
Record entity_args := {
  aa_name : str; aa_uuid : option str; aa_group : str; aa_labels : list str; aa_summary : str; aa_attributes : str; aa_kind_explicit : bool; aa_kind : str }.
(** Source: core/src/handlers.rs 4228-4263 (handle_assert_entity) *)
Definition entity_args_of (p : value) : result Error entity_args :=
  let? name := required "name" p in
  let labels := match omap as_str (default [] (as_array (param "labels" p))) with [] => [ #"Entity"] | l => l end in
  let kind_explicit := negb (is_null (param "kind" p)) in
  let? kind := normalize_kind (match as_str (param "kind" p) with Some k => Some k | None => if kind_explicit then Some [] else None end) in
  Ok {| aa_name := name; aa_uuid := as_str (param "entity_uuid" p); aa_group := group_param p; aa_labels := labels;
        aa_summary := default [] (as_str (param "summary" p)); aa_attributes := attributes_param_to_string (param "attributes" p); aa_kind_explicit := kind_explicit; aa_kind := kind |}.

(** A connection under the write lock. *)
Definition locked {A} (m : M A) : M A :=
  on_conn (λ s, match ad_connect_error (x_world s) with Some e => (Some (Err (Ipc (Msg "db: {e}" [AStr e]))), s) | None => m s end).
(** Lookups may repair rows. *)
Definition by_name (group_id name : str) (scope : KindScope) : M Resolved := λ s,
  let '(r, g) := resolve_entity_by_name ts_text group_id name scope (sto_graph (x_store s)) in (Some r, on_store (with_graph g (x_store s)) s).
Definition by_uuid (group_id uuid : str) : M ent := λ s, (Some (resolve_entity_by_uuid (sto_graph (x_store s)) group_id uuid), s).
(** Source: core/src/handlers.rs 4150-4177 (resolve_and_update_entity) *)
Definition resolve_target (a : entity_args) (entity_uuid : option str) : M (option ent) :=
  match entity_uuid with
  | Some eu =>
      let* e := by_uuid (aa_group a) eu in
      if aa_kind_explicit a && negb (bool_decide (kind_of e = aa_kind a))
      then fail (Ipc (Msg "entity_uuid '{eu}' is kind '{}', but kind '{kind}' was supplied: an entity's kind is immutable" [AStr eu; AStr (kind_of e); AStr (aa_kind a)]))
      else ret (Some e)
  | None =>
      let* r := by_name (aa_group a) (aa_name a) (ExactKind (aa_kind a)) in
      ret match r with Existing e => Some e | NotFound => None end
  end.
(** A rename may not take the name of another live entity of the kind.
    Source: core/src/handlers.rs 4137-4209 (resolve_and_update_entity) *)
Definition resolve_and_update_entity (a : entity_args) (entity_uuid : option str) : M (option str) :=
  let* resolved := resolve_target a entity_uuid in
  match resolved with
  | None => ret None
  | Some existing =>
      let* s := get_store in
      if negb (bool_decide (folded (en_name existing) = folded (aa_name a)))
         && (0 <? count_active_entities_by_name_ci db_lower (sto_graph s) (aa_name a) (aa_group a) (Some (kind_of existing)))%N
      then fail (Ipc (Msg "cannot rename entity '{}' to '{name}': an active entity of kind '{}' in group '{group_id}' already uses that name"
                          [AStr (en_uuid existing); AStr (aa_name a); AStr (kind_of existing); AStr (aa_group a)]))
      else
        let* _ := modify (update_entity_core existing (aa_name a) (aa_labels a) (aa_summary a) (aa_attributes a)) in
        let* _ := flush_episode (aa_group a) in
        ret (Some (en_uuid existing))
  end.
Definition zero_vector : vec := replicate ed_dim f32_zero.
(** A failing embedder leaves a zero vector and a warning.
    Source: core/src/handlers.rs 4299-4325 (handle_assert_entity) *)
Definition embed_or_zero (text : str) : M (vec * option str) := λ s,
  let '(r, w) := ed_embed text (x_world s) in
  (match r with None => None | Some (Ok v) => Some (Ok (v, None)) | Some (Err e) => Some (Ok (zero_vector, Some (ed_display e))) end, on_world w s).
(** Source: core/src/handlers.rs 4362-4382 (handle_assert_entity) *)
Definition create_entity (a : entity_args) (name_vec summary_vec : vec) : M str :=
  let* uuid := new_uuid in
  λ s, let row := {| ey_uuid := uuid; ey_name := aa_name a; ey_group := aa_group a; ey_labels := aa_labels a; ey_kind := aa_kind a; ey_created := ad_now (x_world s);
                     ey_name_vec := name_vec; ey_summary := aa_summary a; ey_attrs := aa_attributes a; ey_summary_vec := summary_vec |} in
       match insert_entity ed_timestamp row (x_store s) with
       | Err e => (Some (Err e), s)
       | Ok st => (let* _ := flush_episode (aa_group a) in ret uuid) (on_store st s)
       end.
Record entity_answer := { an_uuid : str; an_created : bool; an_warning : option str }.
Definition warning_text (what : string) (e : option str) : list str :=
  match e with Some e => [lit "embedder unavailable; stored a zero-vector " ++ lit what ++ lit ": " ++ e] | None => [] end.
(** The second pass: whoever loses the race updates.
    Source: core/src/handlers.rs 4327-4389 (handle_assert_entity) *)
Definition second_pass (a : entity_args) (name_vec summary_vec : vec) : M (str * bool) :=
  locked (let* again := resolve_and_update_entity a None in
          match again with
          | Some uuid => ret (uuid, false)
          | None => let* uuid := create_entity a name_vec summary_vec in ret (uuid, true)
          end).
(** Source: core/src/handlers.rs 4265-4432 (handle_assert_entity) *)
Definition assert_entity (a : entity_args) : M entity_answer :=
  let* _ := load_db in
  let* pass1 := locked (resolve_and_update_entity a (aa_uuid a)) in
  match pass1 with
  | Some uuid => ret {| an_uuid := uuid; an_created := false; an_warning := None |}
  | None =>
      let* '(name_vec, name_err) := embed_or_zero (aa_name a) in
      let* '(summary_vec, summary_err) := if nonblank (aa_summary a) then embed_or_zero (aa_summary a) else ret (zero_vector, None) in
      let* '(uuid, created) := second_pass a name_vec summary_vec in
      ret {| an_uuid := uuid; an_created := created;
             an_warning := if created then match warning_text "name_embedding" name_err ++ warning_text "summary_embedding" summary_err with
                                           | [] => None | l => Some (join #"; " l) end else None |}
  end.
(** Source: core/src/handlers.rs 4227-4432 (handle_assert_entity) *)
Definition handle_assert_entity (p : value) : M entity_answer := let* a := of_result (entity_args_of p) in assert_entity a.

(** ** Relationships *)

(** The arguments of a relationship assertion. *)
Record edge_args := {
  ra_source : str; ra_target : str; ra_predicate : str; ra_group : str; ra_fact : str; ra_attributes : str; ra_type : option str; ra_valid_at : option str;
  ra_source_kind : option str; ra_target_kind : option str }.
(** Source: core/src/handlers.rs 4534-4540 (handle_assert_relationship) *)
Definition parse_kind (key : string) (p : value) : result Error (option str) :=
  if is_null (param key p) then Ok None else rmap Some (normalize_kind (Some (default [] (as_str (param key p))))).
(** Source: core/src/db.rs 4074-4085 (validate_and_normalize_valid_at) *)
Definition validate_and_normalize_valid_at (raw : str) : result Error str :=
  match ad_valid_at raw with Some t => Ok t | None => Err (Ipc (Msg "valid_at '{raw}' is not a valid RFC-3339 or 'YYYY-MM-DD HH:MM:SS' timestamp" [AStr raw])) end.
(** Source: core/src/handlers.rs 4494-4542 (handle_assert_relationship) *)
Definition edge_args_of (p : value) : result Error edge_args :=
  let? source := required "source_name" p in
  let? target := required "target_name" p in
  let? predicate := required "predicate" p in
  let spelled := source ++ #" " ++ predicate ++ #" " ++ target in
  let fact := match as_str (param "fact" p) with Some f => if nonblank f then f else spelled | None => spelled end in
  let? valid_at := match as_str (param "valid_at" p) with Some raw => rmap Some (validate_and_normalize_valid_at raw) | None => Ok None end in
  let? source_kind := parse_kind "source_kind" p in
  let? target_kind := parse_kind "target_kind" p in
  Ok {| ra_source := source; ra_target := target; ra_predicate := predicate; ra_group := group_param p; ra_fact := fact;
        ra_attributes := attributes_param_to_string (param "attributes" p); ra_type := as_str (param "relation_type" p); ra_valid_at := valid_at;
        ra_source_kind := source_kind; ra_target_kind := target_kind |}.
(** Source: core/src/handlers.rs 4441-4466 (resolve_and_update_edge) *)
Definition resolve_and_update_edge (a : edge_args) (source_uuid target_uuid : str) : M (option str * str * str) :=
  let* source := by_uuid (ra_group a) source_uuid in
  let* target := by_uuid (ra_group a) target_uuid in
  let* s := get_store in
  match find_active_relates_to_uuid ed_timestamp s (en_uuid source) (en_uuid target) (ra_predicate a) (ra_group a) with
  | None => ret (None, en_uuid source, en_uuid target)
  | Some uuid =>
      let* _ := modify (update_relates_to_core uuid (ra_fact a) (ra_valid_at a) (ra_type a) (ra_attributes a)) in
      let* _ := flush_episode (ra_group a) in
      ret (Some uuid, en_uuid source, en_uuid target)
  end.
(** Source: core/src/handlers.rs 4581-4597 (handle_assert_relationship) *)
Definition resolve_or_err (a : edge_args) (n : str) (kind : option str) : M ent :=
  let* r := by_name (ra_group a) n (for_read kind) in
  match r with
  | Existing e => ret e
  | NotFound => fail (Ipc (Msg "'{n}' does not exist in group '{group_id1}' — knowledge_assert_relationship only resolves endpoints within its own group_id; use knowledge_add_cross_group_edge" [AStr n; AStr (ra_group a)]))
  end.
(** Source: core/src/handlers.rs 4562-4629 (handle_assert_relationship) *)
Definition edge_first_pass (a : edge_args) : M (option str * str * str) :=
  locked (let* source := resolve_or_err a (ra_source a) (ra_source_kind a) in
          let* target := resolve_or_err a (ra_target a) (ra_target_kind a) in
          resolve_and_update_edge a (en_uuid source) (en_uuid target)).
(** Source: core/src/handlers.rs 4655-4713 (handle_assert_relationship) *)
Definition edge_second_pass (a : edge_args) (source_uuid target_uuid : str) (fact_vec : vec) : M (str * bool) :=
  locked (let* '(existing, src, dst) := resolve_and_update_edge a source_uuid target_uuid in
          match existing with
          | Some uuid => ret (uuid, false)
          | None =>
              let* uuid := new_uuid in
              λ s, (let* _ := modify (insert_edge {| re_uuid := uuid; re_name := ra_predicate a; re_src := src; re_dst := dst; re_group := ra_group a; re_fact := ra_fact a;
                                                   re_vec := fact_vec; re_created := ad_now (x_world s); re_valid := ra_valid_at a; re_invalid := None;
                                                   re_attrs := ra_attributes a; re_type := ra_type a |}) in
                    let* _ := flush_episode (ra_group a) in
                    ret (uuid, true)) s
          end).
(** Source: core/src/handlers.rs 4543-4734 (handle_assert_relationship) *)
Definition assert_relationship (a : edge_args) : M entity_answer :=
  let* _ := load_db in
  let* '(existing, src, dst) := edge_first_pass a in
  match existing with
  | Some uuid => ret {| an_uuid := uuid; an_created := false; an_warning := None |}
  | None =>
      let* '(fact_vec, err) := embed_or_zero (ra_fact a) in
      let* '(uuid, created) := edge_second_pass a src dst fact_vec in
      ret {| an_uuid := uuid; an_created := created; an_warning := if created then head (warning_text "fact_embedding" err) else None |}
  end.
(** Source: core/src/handlers.rs 4490-4734 (handle_assert_relationship) *)
Definition handle_assert_relationship (p : value) : M entity_answer := let* a := of_result (edge_args_of p) in assert_relationship a.
End handlers.
