(* ===== verification/AssertTheory.v ===== *)
(** * AssertTheory: what an assertion leaves in the graph

    The two handlers of Assert.v keep a group free of homonyms and of twin edges, whatever other
    writers that keep it so do between their two passes, and what they answer is there. *)

From S2P Require Import Prelude Text Numbers Json WalGeneration WalScan Checkpoint WalGroup Wal LegacyWal Replay Pointer Ontology SummaryMerge Replies Prompts Extraction Graph CrossGroup CrossGroupTheory OntologyState IdentifierVeto Search DedupAdapter DedupSearch EpisodeFilter OntologyGuard Episode EpisodeTheory Assert.

Create HintDb assertion.

(** ** What a repair leaves alone *)

Section cards.
Context {U : Unicode} {AC : AttrCodec} (ts_text : N → str).

(** A row as a lookup of names sees it. *)
Definition card (e : ent) : str * str * str * str * bool := (en_uuid e, en_name e, en_group e, kind_of e, is_merged e).
Definition cards (g : graph) : list (str * str * str * str * bool) := card <$> g_ents g.
(** [g'] is [g] with some lookup keys repaired. *)
Record repaired (g g' : graph) : Prop := { rp_cards : cards g' = cards g; rp_rels : g_rels g' = g_rels g }.
Global Instance repaired_refl : Reflexive repaired.
Proof. by split. Qed.
Global Instance repaired_trans : Transitive repaired.
Proof. intros a b c [] []. split; congruence. Qed.

Lemma card_in g g' e : cards g' = cards g → e ∈ g_ents g → ∃ e', e' ∈ g_ents g' ∧ card e' = card e.
Proof.
  intros H He. assert (Hc : card e ∈ cards g') by (rewrite H; by apply list_elem_of_fmap_2).
  apply list_elem_of_fmap in Hc as (e' & Hc & Hin). by exists e'.
Qed.
Lemma cards_uuids g g' : cards g' = cards g → en_uuid <$> g_ents g' = en_uuid <$> g_ents g.
Proof.
  intros H. apply (f_equal (fmap (λ c : str * str * str * str * bool, c.1.1.1.1))) in H. unfold cards in H. by rewrite <- !list_fmap_compose in H.
Qed.
Lemma row_same g e e' : NoDup (en_uuid <$> g_ents g) → e ∈ g_ents g → e' ∈ g_ents g → en_uuid e = en_uuid e' → e = e'.
Proof.
  intros Hn He He' Hu.
  pose proof (proj2 (get_entity_spec g (en_uuid e') e Hn) (conj He Hu)) as H1. pose proof (proj2 (get_entity_spec g (en_uuid e') e' Hn) (conj He' eq_refl)) as H2.
  rewrite H1 in H2. by injection H2.
Qed.
Lemma self_heal_repaired row g : NoDup (en_uuid <$> g_ents g) → card row ∈ cards g → repaired g (self_heal_lookup_key row g).
Proof.
  intros Hn Hrow. split; [|done]. unfold cards, self_heal_lookup_key, record_mut, with_ents. cbn. rewrite <- list_fmap_compose.
  apply list_elem_of_fmap in Hrow as (x & Hx & Hin). apply list_fmap_ext. intros i e He. apply list_elem_of_lookup_2 in He. cbn.
  case_bool_decide as Hc; [|done]. destruct Hc as (Hu & _). unfold card in Hx. injection Hx as Hxu _ _ Hxk _.
  assert (e = x) as -> by (apply (row_same g); [done..|congruence]). transitivity (en_uuid x, en_name x, en_group x, kind_of row, is_merged x); [|unfold card; by rewrite Hxk].
  unfold card. f_equal. f_equal. exact (value_as_kind_idem (en_kind row)).
Qed.
Lemma repaired_nodup g g' : repaired g g' → NoDup (en_uuid <$> g_ents g) → NoDup (en_uuid <$> g_ents g').
Proof. intros [H _]. by rewrite (cards_uuids _ _ H). Qed.
Lemma heal_rows_repaired rows : ∀ seen g, NoDup (en_uuid <$> g_ents g) → Forall (λ e, card e ∈ cards g) rows → repaired g (heal_rows rows seen g).2.
Proof.
  induction rows as [|row rows IH]; intros seen g Hn Hr; [done|]. apply Forall_cons in Hr as [Hr Hrs]. cbn [heal_rows].
  set (g1 := register_kind (kind_of row) (self_heal_lookup_key row g)).
  assert (H1 : repaired g g1) by (destruct (self_heal_repaired row g Hn Hr); by split).
  assert (Hrs1 : Forall (λ e, card e ∈ cards g1) rows) by (destruct H1 as [H1 _]; by rewrite H1).
  pose proof (repaired_nodup _ _ H1 Hn) as Hn1. case_bool_decide.
  - etrans; [exact H1|]. by apply IH.
  - specialize (IH (kind_of row :: seen) g1 Hn1 Hrs1). destruct (heal_rows _ _ _). cbn in *. by etrans.
Qed.
Lemma exact_repaired name gid kind g : NoDup (en_uuid <$> g_ents g) → repaired g (get_entity_by_name_ci_with_scan_fallback name gid kind g).2.
Proof.
  intros Hn. unfold get_entity_by_name_ci_with_scan_fallback. destruct (probe _ _ _ _); [done|]. cbn.
  pose proof (scan_some_head (count_scan g) name gid kind Hn) as Hs. destruct (head _) as [e|]; [|done].
  destruct Hs as (He & _). destruct (self_heal_repaired e (count_scan g) Hn); [by apply list_elem_of_fmap_2|by split].
Qed.
Lemma any_kind_repaired name gid g : NoDup (en_uuid <$> g_ents g) → repaired g (resolve_entities_by_name_any_kind ts_text name gid g).2.
Proof.
  intros Hn. unfold resolve_entities_by_name_any_kind. destruct (omap _ _); [|done].
  pose proof (heal_rows_repaired (scan_entities_by_name_ci (count_scan g) name gid None) [] (count_scan g) Hn) as H.
  destruct H as [H1 H2]; [|by destruct (heal_rows _ _ _)]. apply list.Forall_forall. intros e He.
  apply (scan_none_elem (count_scan g) name gid e Hn) in He as [He _]. by apply list_elem_of_fmap_2.
Qed.

(** ** Resolving *)

(** A live row of the group. *)
Definition stands (g : graph) (gid : str) (e : ent) : Prop := card e ∈ cards g ∧ is_merged e = false ∧ en_group e = gid.
Lemma follow_stands g gid e c : follow_merged_into_chain g gid e = Some c → NoDup (en_uuid <$> g_ents g) → stands g gid c.
Proof.
  unfold follow_merged_into_chain. destruct (follow_go _ _ _ _ _) as [[c'|]|] eqn:H; cbn; [|done..]. intros [= ->] Hn.
  apply follow_go_sound in H as (_ & Hm & Hg & H). apply get_entity_spec in H as [H _]; [|done]. split_and!; [|done..]. by apply list_elem_of_fmap_2.
Qed.
Lemma canonicals_stand g gid name ws : ∀ l, NoDup (en_uuid <$> g_ents g) → (∀ w, w ∈ ws → card w ∈ cards g ∧ en_group w = gid) →
  canonicals g gid name ws = Ok l → length l = length ws ∧ ∀ e, e ∈ l → stands g gid e.
Proof.
  induction ws as [|w ws IH]; intros l Hn Hws; cbn [canonicals]; [intros [= <-]; split; [done|]; intros e He; by apply elem_of_nil in He|].
  assert (Hw : ∀ c, (if negb (is_merged w) then Ok w else match follow_merged_into_chain g gid w with Some c => Ok c | None => Err (Ipc (Msg "name '{name}' resolves to a Merged tombstone in group '{group_id}' whose merged_into forwarding does not reach a canonical entity within the group" [AStr name; AStr gid])) end)
    = Ok c → stands g gid c).
  { intros c. destruct (is_merged w) eqn:Hm; cbn [negb].
    - destruct (follow_merged_into_chain g gid w) eqn:Hf; [|done]. intros [= <-]. by eapply follow_stands.
    - intros [= <-]. destruct (Hws w) as [H1 H2]; [left|]. by split_and!. }
  destruct (if negb (is_merged w) then _ else _) as [c|]; [|done]. cbn.
  destruct (canonicals g gid name ws) as [l'|] eqn:Hl; [|done]. cbn. intros [= <-].
  destruct (IH l' Hn (λ w' H, Hws w' (list_elem_of_further _ _ _ H)) eq_refl) as [Hlen Hall]. split; [cbn; by rewrite Hlen|].
  intros e [->|He]%elem_of_cons; [by apply Hw|by apply Hall].
Qed.
(** A name resolves to a live row of its group, or, at one kind, to nothing when there is no row. *)
Lemma by_name_resolves gid name scope g r g' : NoDup (en_uuid <$> g_ents g) → resolve_entity_by_name ts_text gid name scope g = (r, g') →
  repaired g g' ∧
  match r with
  | Ok (Existing e) => stands g' gid e
  | Ok NotFound => ∀ k, scope = ExactKind k → ∀ e, e ∈ g_ents g' → named name gid e → kind_of e ≠ k
  | Err _ => True
  end.
Proof.
  intros Hn H. unfold resolve_entity_by_name in H. destruct (match scope with ExactKind k => _ | AnyKind => _ end) as [ws g1] eqn:Hw.
  assert (Hspec : repaired g g1 ∧ (∀ w, w ∈ ws → card w ∈ cards g1 ∧ en_group w = gid) ∧
      (ws = [] → ∀ k, scope = ExactKind k → ∀ e, e ∈ g_ents g1 → named name gid e → kind_of e ≠ k)).
  { destruct scope as [k|].
    - pose proof (exact_repaired name gid k g Hn) as Hr. destruct (get_entity_by_name_ci_with_scan_fallback name gid k g) as [o g2] eqn:Hl. injection Hw as <- <-.
      cbn in Hr. apply authority_healed in Hl as [_ Ho]; [|done]. split; [done|]. destruct Hr as [Hr _]. split.
      + intros w Hin. destruct o as [e|]; cbn in Hin; [|by apply elem_of_nil in Hin]. apply list_elem_of_singleton in Hin as ->.
        destruct Ho as (He & [Hg _] & _). split; [|done]. rewrite Hr. by apply list_elem_of_fmap_2.
      + intros Hnil k' [= <-] e He [Hg Hf] Hk. destruct o; [done|]. destruct (card_in g2 g e (eq_sym Hr) He) as (e0 & Hin & Hc). unfold card in Hc. injection Hc as _ Hcn Hcg Hck _.
        apply (Ho e0 Hin); [split; congruence|congruence].
    - pose proof (any_kind_repaired name gid g Hn) as Hr. destruct (resolve_entities_by_name_any_kind ts_text name gid g) as [o g2] eqn:Hl. injection Hw as <- <-.
      cbn in Hr. apply any_kind_spec in Hl as (_ & Ho & _); [|done]. split; [done|]. destruct Hr as [Hr _]. split; [|done].
      intros w Hin. destruct (Ho w Hin) as (He & Hg & _). split; [|done]. rewrite Hr. by apply list_elem_of_fmap_2. }
  destruct Hspec as (Hr & Hws & Hnil). pose proof (repaired_nodup _ _ Hr Hn) as Hn1.
  destruct (canonicals g1 gid name ws) as [l|e] eqn:Hc; [|injection H as <- <-; by split].
  apply canonicals_stand in Hc as [Hlen Hall]; [|done..].
  destruct l as [|c [|c' l]]; injection H as <- <-; (split; [done|]); [|apply Hall; left|done].
  destruct ws; [|done]. by apply Hnil.
Qed.
Lemma by_uuid_resolves g gid u e : NoDup (en_uuid <$> g_ents g) → resolve_entity_by_uuid g gid u = Ok e → stands g gid e.
Proof.
  intros Hn. unfold resolve_entity_by_uuid. destruct (get_entity_by_uuid g u) as [x|] eqn:Hx; [|done]. case_bool_decide as Hg; [|done].
  destruct (is_merged x) eqn:Hm; cbn [negb].
  - destruct (follow_merged_into_chain g gid x) eqn:Hf; [|done]. intros [= <-]. by eapply follow_stands.
  - intros [= <-]. apply get_entity_spec in Hx as [Hx _]; [|done]. split_and!; [by apply list_elem_of_fmap_2|done..].
Qed.
End cards.

(** ** Entities *)

Section entities.
Context {U : Unicode} {VF : VecFloats} {FL : Floats} {AC : AttrCodec} {W : Type} {ED : EpisodeDeps W} {AD : AssertDeps W} (db_lower : str → str) (ts_text : N → str).
Local Notation est := (@est VF W).
Local Notation M := (@M VF W).

Definition table (s : est) : list ent := g_ents (sto_graph (x_store s)).
(** What lookups compare. *)
Definition slot (e : ent) : str * str * str := (en_group e, kind_of e, folded (en_name e)).
(** The engine's fold of the stored name is the program's, and the stored kind has no outer white space. *)
Definition tidy (e : ent) : Prop := db_lower (en_name e) = folded (en_name e) ∧ normalize_row_kind (kind_of e) = kind_of e.
(** No two live entities of a group and kind share a name. *)
Record names_ok (l : list ent) : Prop := {
  nk_uuids : NoDup (en_uuid <$> l);
  nk_tidy : ∀ e, e ∈ l → tidy e;
  nk_unique : ∀ e e', e ∈ l → e' ∈ l → is_merged e = false → is_merged e' = false → slot e = slot e' → en_uuid e = en_uuid e' }.

(** [issued w]: the uuids drawn before the world got to [w]. *)
Context (issued : W → str → Prop).
Definition sound (s : est) : Prop := names_ok (table s) ∧ ∀ e, e ∈ table s → issued (x_world s) (en_uuid e).
(** The collaborators: a fresh uuid is new, time only adds to the uuids issued, and other writers
    keep names apart. *)
Record keeps_names_apart : Prop := {
  kn_fresh : ∀ w, let '(u, w') := ed_new_uuid w in ¬ issued w u ∧ issued w' u ∧ ∀ v, issued w v → issued w' v;
  kn_embed : ∀ t w v, issued w v → issued (ed_embed t w).2 v;
  kn_flush : ∀ g l w v, issued w v → issued (ed_flush g l w).2 v;
  kn_others : ∀ s : est, sound s → sound (on_store (ed_others (x_world s) (x_store s)) s) }.

(** [m] keeps names apart however it ends, and leaves [Q] of its value and the table. *)
Definition keeps {A} (m : M A) (Q : A → list ent → Prop) : Prop := triple sound m (λ a s, sound s ∧ Q a (table s)) (λ _, sound).
Lemma asserts_keep_ret {A} (a : A) (Q : A → list ent → Prop) s : sound s → Q a (table s) → match ret a s with (Some (Ok a), s') => sound s' ∧ Q a (table s') | (_, s') => sound s' end.
Proof. by split. Qed.
Lemma keeps_bind {A B} (m : M A) (k : A → M B) Q R :
  keeps m Q → (∀ a, triple (λ s, sound s ∧ Q a (table s)) (k a) (λ b s, sound s ∧ R b (table s)) (λ _, sound)) → keeps (bind m k) R.
Proof. intros. by eapply triple_bind. Qed.

Lemma names_ok_cards l l' : card <$> l' = card <$> l → names_ok l → names_ok l'.
Proof.
  intros H [H1 H2 H3].
  assert (Hc : ∀ e, e ∈ l' → ∃ e0, e0 ∈ l ∧ card e = card e0).
  { intros e He. assert (Hin : card e ∈ card <$> l) by (rewrite <- H; by apply list_elem_of_fmap_2). apply list_elem_of_fmap in Hin as (e0 & ? & ?). by exists e0. }
  split.
  - apply (f_equal (fmap (λ c : str * str * str * str * bool, c.1.1.1.1))) in H. rewrite <- !list_fmap_compose in H.
    change (NoDup ((λ c : str * str * str * str * bool, c.1.1.1.1) ∘ card <$> l')). by rewrite H.
  - intros e He. destruct (Hc e He) as (e0 & Hin & Heq). unfold card in Heq. injection Heq as _ Hn _ Hk _. destruct (H2 e0 Hin). split; congruence.
  - intros e e' He He' Hm Hm' Hs. destruct (Hc e He) as (e0 & Hin & Heq), (Hc e' He') as (e1 & Hin1 & Heq1). unfold card in Heq, Heq1.
    injection Heq as -> Hn Hg Hk Hm0. injection Heq1 as -> Hn1 Hg1 Hk1 Hm1. unfold slot in Hs. apply H3; [done..|congruence|congruence|]. unfold slot. congruence.
Qed.
Lemma sound_repaired s g' : sound s → repaired (sto_graph (x_store s)) g' → sound (on_store (with_graph g' (x_store s)) s).
Proof.
  intros [Hn Hi] [Hc _]. split; [by apply (names_ok_cards (table s))|]. intros e He. destruct (card_in g' (sto_graph (x_store s)) e (eq_sym Hc) He) as (e0 & Hin & Heq).
  unfold card in Heq. injection Heq as <- _ _ _ _. by apply Hi.
Qed.

(** A live row of the group, as the table has it. *)
Definition live_row (l : list ent) (gid : str) (e : ent) : Prop := card e ∈ card <$> l ∧ is_merged e = false ∧ en_group e = gid.
Definition free_name (l : list ent) (gid kind name : str) : Prop := ∀ e, e ∈ l → named name gid e → kind_of e ≠ kind.
Lemma by_name_keeps gid name scope :
  keeps (by_name ts_text gid name scope) (λ r l, match r with Existing e => live_row l gid e | NotFound => ∀ k, scope = ExactKind k → free_name l gid k name end).
Proof.
  intros s Hs. unfold by_name. destruct (resolve_entity_by_name _ _ _ _ _) as [r g'] eqn:H. apply by_name_resolves in H as [Hr H]; [|apply Hs].
  assert (Hs' : sound (on_store (with_graph g' (x_store s)) s)) by (by apply sound_repaired). destruct r as [[|e]|e]; [split; [done|]..|done]; exact H.
Qed.
Lemma by_uuid_keeps gid u : keeps (by_uuid gid u) (λ e l, live_row l gid e).
Proof.
  intros s Hs. unfold by_uuid. destruct (resolve_entity_by_uuid _ _ _) as [e|e] eqn:H; [|done]. split; [done|]. eapply (by_uuid_resolves (sto_graph (x_store s))); [apply Hs|exact H].
Qed.
Lemma target_keeps a o :
  keeps (resolve_target ts_text a o) (λ r l, match r with Some e => live_row l (aa_group a) e | None => o = None ∧ free_name l (aa_group a) (aa_kind a) (aa_name a) end).
Proof.
  unfold resolve_target. destruct o as [eu|].
  - eapply keeps_bind; [apply by_uuid_keeps|]. intros e. destruct (_ && _); [by apply triple_fail; intros s []|by apply triple_ret].
  - eapply keeps_bind; [apply by_name_keeps|]. intros r. apply triple_ret. intros s [Hs Hr]. split; [done|]. destruct r as [|e]; [|done]. split; [done|]. by apply Hr.
Qed.

(** ** Updating *)

Definition renamed (existing : ent) (new_name : str) (labels : list str) (attributes : str) (e : ent) : ent :=
  if bool_decide (en_uuid e = en_uuid existing) then
    {| en_uuid := en_uuid e; en_name := new_name; en_group := en_group existing; en_labels := labels_with_kind labels (normalize_row_kind (kind_of existing));
       en_kind := Some (normalize_row_kind (kind_of existing)); en_key := Some (compute_lookup_key (en_group existing) (normalize_row_kind (kind_of existing)) new_name);
       en_created := en_created e; en_attrs := attributes |}
  else e.
Lemma renamed_uuid existing name labels attributes e : en_uuid (renamed existing name labels attributes e) = en_uuid e.
Proof. unfold renamed. by case_bool_decide. Qed.
Lemma update_table existing name labels summary attributes (st : store) :
  g_ents (sto_graph (update_entity_core existing name labels summary attributes st)) = renamed existing name labels attributes <$> g_ents (sto_graph st).
Proof. done. Qed.
Lemma count_zero g name gid kind : count_active_entities_by_name_ci db_lower g name gid (Some kind) = 0%N →
  ∀ e, e ∈ g_ents g → is_merged e = false → en_group e = gid → kind_of e = kind → db_lower (en_name e) ≠ folded name.
Proof.
  unfold count_active_entities_by_name_ci. intros H e He Hm Hg Hk Hl. set (P := λ e : ent, _) in H.
  assert (Hf : e ∈ List.filter P (g_ents g)).
  { apply filter_elem. split; [done|]. unfold P. rewrite Hl, !bool_decide_eq_true_2 by done. unfold is_merged in Hm. apply bool_decide_eq_false in Hm.
    rewrite bool_decide_eq_false_2 by done. by rewrite bool_decide_eq_true_2. }
  destruct (List.filter P (g_ents g)); [by apply elem_of_nil in Hf|]. cbn in H. lia.
Qed.
(** What the guard of a rename leaves possible. *)
Definition may_take (l : list ent) (existing : ent) (name : str) : Prop :=
  folded (en_name existing) = folded name ∨ ∀ e, e ∈ l → is_merged e = false → en_group e = en_group existing → kind_of e = kind_of existing → folded (en_name e) ≠ folded name.
Lemma renamed_names_ok l gid existing name labels attributes :
  names_ok l → live_row l gid existing → db_lower name = folded name → may_take l existing name → names_ok (renamed existing name labels attributes <$> l).
Proof.
  intros [H1 H2 H3] (Hc & Hm & _) Hname Hmay. apply list_elem_of_fmap in Hc as (x & Hx & Hin). unfold card in Hx. injection Hx as Hxu Hxn Hxg Hxk Hxm.
  destruct (H2 x Hin) as [_ Hk]. assert (Hkind : normalize_row_kind (kind_of existing) = kind_of existing) by congruence.
  set (f := renamed existing name labels attributes). assert (Hu : ∀ e, en_uuid (f e) = en_uuid e) by (intros e; apply renamed_uuid).
  assert (Hslot : ∀ e, slot (f e) = if bool_decide (en_uuid e = en_uuid existing) then (en_group existing, kind_of existing, folded name) else slot e).
  { intros e. unfold f, renamed, slot. case_bool_decide; [|done]. rewrite Hkind. f_equal. f_equal. exact (value_as_kind_idem (en_kind existing)). }
  assert (Hclash : ∀ e, e ∈ l → is_merged e = false → en_uuid e ≠ en_uuid existing → slot e ≠ (en_group existing, kind_of existing, folded name)).
  { intros e He Hme Hne Hs. destruct Hmay as [Hsame|Hfree].
    - apply Hne. rewrite Hxu. apply H3; [done..|congruence|]. unfold slot in Hs |- *. rewrite Hs, Hxg, Hxk, <- Hxn, Hsame. done.
    - unfold slot in Hs. injection Hs as Hg Hke Hf. by apply (Hfree e He Hme Hg Hke). }
  split.
  - rewrite <- list_fmap_compose. replace (en_uuid ∘ f <$> l) with (en_uuid <$> l); [done|]. apply list_fmap_ext. intros i e _. symmetry. apply Hu.
  - intros e (e0 & -> & He0)%list_elem_of_fmap. unfold tidy. specialize (Hslot e0). unfold slot in Hslot. unfold f in *. unfold renamed in *. case_bool_decide; [|by apply H2].
    cbn in *. split; [done|]. injection Hslot as Hslot. by rewrite Hslot.
  - intros e e' (e0 & -> & He0)%list_elem_of_fmap (e1 & -> & He1)%list_elem_of_fmap Hm0 Hm1. rewrite !Hslot, !Hu. intros Hs.
    unfold f, renamed in Hm0, Hm1. repeat case_bool_decide.
    + congruence.
    + symmetry in Hs. destruct (Hclash e1 He1 Hm1); done.
    + destruct (Hclash e0 He0 Hm0); done.
    + by apply H3.
Qed.

Hypothesis apart : keeps_names_apart.
(** The row the answer names. *)
Definition answers (l : list ent) (a : entity_args) (uuid : str) : Prop := ∃ e, e ∈ l ∧ en_uuid e = uuid ∧ en_name e = aa_name a ∧ en_group e = aa_group a.

Lemma flush_sound gid (Q : list ent → Prop) : triple (λ s, sound s ∧ Q (table s)) (flush_episode gid) (λ _ s, sound s ∧ Q (table s)) (λ _, sound).
Proof.
  intros s [[Hn Hi] Hq]. unfold flush_episode. pose proof (λ v, kn_flush apart gid (g_pending (sto_graph (x_store s))) (x_world s) v) as Hf.
  destruct (ed_flush _ _ _) as [[p|] w]; (split; [split; [exact Hn|]; intros e He; apply Hf, Hi, He|exact Hq]).
Qed.
Lemma locked_keeps {A} (m : M A) Q : keeps m Q → keeps (locked m) Q.
Proof.
  intros Hm. unfold locked. apply triple_on_conn; [intros s Hs; exact (kn_others apart s Hs)|].
  intros s Hs. destruct (ad_connect_error _); [exact Hs|]. exact (Hm s Hs).
Qed.
Lemma update_keeps a o : db_lower (aa_name a) = folded (aa_name a) →
  keeps (resolve_and_update_entity db_lower ts_text a o)
    (λ r l, match r with Some u => answers l a u | None => o = None ∧ free_name l (aa_group a) (aa_kind a) (aa_name a) end).
Proof.
  intros Hname. unfold resolve_and_update_entity. eapply keeps_bind; [apply target_keeps|]. intros [existing|]; [|by apply triple_ret].
  intros s [Hs Hlive]. unfold bind at 1, get_store. destruct (negb _ && _) eqn:Hguard; [exact Hs|].
  assert (Hmay : may_take (table s) existing (aa_name a)).
  { apply andb_false_iff in Hguard as [Hsame|Hcount]; [left; apply negb_false_iff, bool_decide_eq_true in Hsame; done|]. right.
    apply N.ltb_ge, N.le_0_r in Hcount. intros e He Hm Hg Hk. destruct Hs as [[_ Ht _] _]. rewrite <- (proj1 (Ht e He)).
    destruct Hlive as (_ & _ & Hgid). by apply (count_zero _ _ _ _ Hcount e He Hm); [congruence|]. }
  set (P := λ s : est, sound s ∧ answers (table s) a (en_uuid existing)).
  cut (triple P (bind (flush_episode (aa_group a)) (λ _, ret (Some (en_uuid existing)))) (λ (r : option str) (s : est), sound s ∧ match r with Some u => answers (table s) a u | None => o = None ∧ free_name (table s) (aa_group a) (aa_kind a) (aa_name a) end) (λ _, sound)).
  { intros H. apply (H (on_store _ s)). split; [split|].
    - unfold table. cbn [on_store x_store]. rewrite update_table. destruct Hs as [Hn _]. exact (renamed_names_ok _ _ _ _ _ _ Hn Hlive Hname Hmay).
    - intros e He. unfold table in He. cbn [on_store x_store] in He. rewrite update_table in He. apply list_elem_of_fmap in He as (e0 & -> & He).
      destruct Hs as [_ Hi]. rewrite renamed_uuid. exact (Hi e0 He).
    - unfold table. cbn [on_store x_store]. rewrite update_table. destruct Hlive as (Hc & _ & Hg). apply list_elem_of_fmap in Hc as (x & Hx & Hin). injection Hx as Hxu _ _ _ _.
      exists (renamed existing (aa_name a) (aa_labels a) (aa_attributes a) x). split; [by apply list_elem_of_fmap_2|]. unfold renamed. rewrite Hxu, bool_decide_eq_true_2 by done. by split_and!. }
  eapply triple_bind; [apply flush_sound with (Q := λ l, answers l a (en_uuid existing))|]. intros ?. by apply triple_ret.
Qed.
Lemma embed_sound text (Q : list ent → Prop) : triple (λ s, sound s ∧ Q (table s)) (embed_or_zero text) (λ _ s, sound s ∧ Q (table s)) (λ _, sound).
Proof.
  intros s [[Hn Hi] Hq]. unfold embed_or_zero. pose proof (λ v, kn_embed apart text (x_world s) v) as Hf.
  destruct (ed_embed _ _) as [[[v|e]|] w]; [split; [|exact Hq]| |]; try (split; [exact Hn|]; intros x Hx; apply Hf, Hi, Hx). split; [|exact Hq].
  split; [exact Hn|]. intros x Hx. apply Hf, Hi, Hx.
Qed.
Lemma nonempty_trim k : nonempty (trim k) = true → trim k = k → normalize_row_kind k = k.
Proof. intros H1 H2. unfold normalize_row_kind. by rewrite H1. Qed.
(** A kind of a request is stored as it is. *)
Lemma normalized_kind o k : normalize_kind o = Ok k → nonempty (trim k) = true ∧ trim k = k ∧ normalize_kind (Some k) = Ok k.
Proof.
  destruct o as [x|]; cbn; [|intros [= <-]; by vm_compute]. destruct (negb (nonempty (trim x)) || _ || _) eqn:H; [done|]. intros [= <-].
  rewrite trim_idem, H. split_and!; [|done..]. destruct (nonempty (trim x)); done.
Qed.
(** The creation, in a table that has no such name. *)
Lemma create_keeps a nv sv : db_lower (aa_name a) = folded (aa_name a) → nonempty (trim (aa_kind a)) = true → trim (aa_kind a) = aa_kind a → normalize_kind (Some (aa_kind a)) = Ok (aa_kind a) →
  triple (λ s, sound s ∧ free_name (table s) (aa_group a) (aa_kind a) (aa_name a)) (create_entity a nv sv) (λ u s, sound s ∧ answers (table s) a u) (λ _, sound).
Proof.
  intros Hname Hk1 Hk2 Hk3. unfold create_entity. apply triple_bind with (Q := λ u s, sound s ∧ free_name (table s) (aa_group a) (aa_kind a) (aa_name a) ∧
      issued (x_world s) u ∧ ∀ e, e ∈ table s → en_uuid e ≠ u).
  { intros s [[Hn Hi] Hfree]. unfold new_uuid. pose proof (kn_fresh apart (x_world s)) as Hf. destruct (ed_new_uuid _) as [u w]. destruct Hf as (Hnew & Hu & Hmono).
    split; [split; [exact Hn|]; intros e He; apply Hmono, Hi, He|]. split_and!; [done|done|]. intros e He <-. by apply Hnew, Hi. }
  intros u s ([Hn Hi] & Hfree & Hu & Hnew). unfold insert_entity. cbn [ey_kind]. rewrite Hk1, Hk3. cbn [ey_uuid ey_name ey_group ey_labels ey_created ey_attrs].
  set (row := {| en_uuid := u; en_name := _ |}).
  assert (Hrow : kind_of row = aa_kind a).
  { change (kind_of row) with (if nonempty (trim (aa_kind a)) then aa_kind a else DEFAULT_KIND). by rewrite Hk1. }
  assert (Hok : names_ok (table s ++ [row])).
  { destruct Hn as [H1 H2 H3]. split.
    - rewrite fmap_app. apply NoDup_app. split_and!; [done| |apply NoDup_singleton]. intros v (e & -> & He)%list_elem_of_fmap Hv%list_elem_of_singleton. by apply (Hnew e He).
    - intros e [He| ->%list_elem_of_singleton]%elem_of_app; [by apply H2|]. split; [done|]. rewrite Hrow. by apply nonempty_trim.
    - assert (Hsep : ∀ e, e ∈ table s → slot e ≠ slot row).
      { intros e He Hs. unfold slot in Hs. rewrite Hrow in Hs. injection Hs as Hg Hk Hf. by apply (Hfree e He). }
      intros e e' [He| ->%list_elem_of_singleton]%elem_of_app [He'| ->%list_elem_of_singleton]%elem_of_app Hm Hm' Hs; [by apply H3| | |done].
      + by apply Hsep in Hs.
      + symmetry in Hs. by apply Hsep in Hs. }
  set (s1 := on_store _ s). assert (Hs1 : sound s1 ∧ answers (table s1) a u).
  { split; [split; [exact Hok|]|].
    - intros e [He| ->%list_elem_of_singleton]%elem_of_app; [by apply Hi|exact Hu].
    - exists row. split; [apply elem_of_app; right; by apply list_elem_of_singleton|done]. }
  exact (triple_bind _ _ _ _ _ _ (flush_sound (aa_group a) (λ l, answers l a u)) (λ _, triple_ret u _ _ _ (λ _ H, H)) s1 Hs1).
Qed.
Lemma args_spec p a : entity_args_of p = Ok a →
  as_str (param "name" p) = Some (aa_name a) ∧ aa_group a = group_param p ∧ ∃ o, normalize_kind o = Ok (aa_kind a).
Proof.
  unfold entity_args_of, required. destruct (as_str (param "name" p)) as [n|]; [|done]. destruct (nonblank n); [|done]. cbn -[normalize_kind].
  set (o := match as_str (param "kind" p) with Some k => _ | None => _ end). destruct (normalize_kind o) as [k|] eqn:Hk; [|done]. intros [= <-]. cbn.
  split_and!; [done..|]. by exists o.
Qed.
Lemma second_pass_keeps a nv sv : db_lower (aa_name a) = folded (aa_name a) → (∃ o, normalize_kind o = Ok (aa_kind a)) →
  keeps (second_pass db_lower ts_text a nv sv) (λ r l, answers l a r.1).
Proof.
  intros Hname (o & (Hk1 & Hk2 & Hk3)%normalized_kind). unfold second_pass. apply (locked_keeps _ (λ r l, answers l a r.1)).
  eapply keeps_bind; [by apply update_keeps|]. intros [u|]; [by apply triple_ret|].
  eapply triple_bind; [|intros u; apply triple_ret; intros s H; exact H].
  eapply triple_weaken; [by apply create_keeps|by intros s (? & _ & ?)|done|done].
Qed.
Lemma assert_keeps a : db_lower (aa_name a) = folded (aa_name a) → (∃ o, normalize_kind o = Ok (aa_kind a)) →
  keeps (assert_entity db_lower ts_text a) (λ r l, answers l a (an_uuid r)).
Proof.
  intros Hname Hkind. unfold assert_entity.
  eapply triple_bind with (Q := λ _, sound). { intros s Hs. unfold load_db. by destruct (ed_db _). }
  intros _. refine (keeps_bind _ _ _ (λ r l, answers l a (an_uuid r)) _ _); [apply locked_keeps; by apply update_keeps|]. intros [u|]; [by apply triple_ret|].
  assert (Hembed : ∀ t, triple sound (embed_or_zero t) (λ _, sound) (λ _, sound)).
  { intros t. eapply triple_weaken; [apply (embed_sound t (λ _, True))|by intros|by intros ? ? []|done]. }
  apply triple_bind with (Q := λ _, sound); [eapply triple_weaken; [apply Hembed|by intros s []|done|done]|]. intros [nv e1].
  apply triple_bind with (Q := λ _, sound); [destruct (nonblank _); [apply Hembed|by apply triple_ret]|]. intros [sv e2].
  refine (keeps_bind _ _ _ (λ r l, answers l a (an_uuid r)) _ _); [by apply second_pass_keeps|]. intros [u c]. by apply triple_ret.
Qed.
End entities.

(** C9. Asserting an entity keeps a group free of homonyms.  Suppose no two live entities of the
    same group and kind share a name (up to case and outer white space), other writers keep it so,
    and the engine folds the stored names and the asserted one as the program does.  Then it is
    still so when the call ends, in a value, an error or a panic, whatever happened between its
    two passes; and a call that answers names an entity that is there, in the group of the
    request, under the name of the request.  The identifiers of the rows stay distinct. *)
Theorem assert_entity_keeps_names_apart {U : Unicode} {VF : VecFloats} {FL : Floats} {AC : AttrCodec} {W : Type} {ED : EpisodeDeps W} {AD : AssertDeps W}
    (db_lower : str → str) (ts_text : N → str) (issued : W → str → Prop) (p : value) (s s' : @est VF W) (r : option (result Error entity_answer))
    (Hcollab : keeps_names_apart db_lower issued)
    (Hname : ∀ n, as_str (param "name" p) = Some n → db_lower n = folded n)
    (Hbefore : sound db_lower issued s) (Hrun : handle_assert_entity db_lower ts_text p s = (r, s')) :
  sound db_lower issued s' ∧
  ∀ answer, r = Some (Ok answer) → ∃ n e, as_str (param "name" p) = Some n ∧ e ∈ table s' ∧ en_uuid e = an_uuid answer ∧ en_name e = n ∧ en_group e = group_param p.
Proof.
  unfold handle_assert_entity, bind, of_result in Hrun. destruct (entity_args_of p) as [a|e] eqn:Ha; [|injection Hrun as <- <-; by split].
  apply args_spec in Ha as (Hn & Hg & Hk). cbn in Hrun.
  pose proof (assert_keeps db_lower ts_text issued Hcollab a (Hname _ Hn) Hk s Hbefore) as H. rewrite Hrun in H.
  destruct r as [[answer|e]|]; [|by split|by split]. destruct H as [Hs (e & He & Hu & Hne & Hge)]. split; [done|]. intros ? [= <-].
  exists (aa_name a), e. split_and!; congruence || done.
Qed.

(** ** Relationships *)

Section relationships.
Context {U : Unicode} {VF : VecFloats} {FL : Floats} {AC : AttrCodec} {W : Type} {ED : EpisodeDeps W} {AD : AssertDeps W} (ts_text : N → str).
Local Notation est := (@est VF W).
Local Notation M := (@M VF W).

(** A live edge of that name from one entity to the other. *)
Definition joins (src dst name gid : str) (r : relnode) : Prop :=
  src ∈ rn_srcs r ∧ dst ∈ rn_dsts r ∧ rn_name r = name ∧ rn_invalid r = None ∧ rn_group r = gid.
(** No two of them. *)
Definition twin_free (g : graph) : Prop :=
  ∀ src dst name gid r r', r ∈ g_rels g → r' ∈ g_rels g → joins src dst name gid r → joins src dst name gid r' → rn_uuid r = rn_uuid r'.
Definition paired (s : est) : Prop := NoDup (en_uuid <$> table s) ∧ twin_free (sto_graph (x_store s)).
Hypothesis others : ∀ s : est, paired s → paired (on_store (ed_others (x_world s) (x_store s)) s).
(** [m] keeps edges apart however it ends, and leaves [Q] of its value and the graph. *)
Definition pairs {A} (m : M A) (Q : A → graph → Prop) : Prop := triple paired m (λ a s, paired s ∧ Q a (sto_graph (x_store s))) (λ _, paired).
Lemma pairs_bind {A B} (m : M A) (k : A → M B) Q R :
  pairs m Q → (∀ a, triple (λ s, paired s ∧ Q a (sto_graph (x_store s))) (k a) (λ b s, paired s ∧ R b (sto_graph (x_store s))) (λ _, paired)) → pairs (bind m k) R.
Proof. intros. by eapply triple_bind. Qed.
Lemma pairs_true {A} (m : M A) Q : pairs m Q → triple paired m (λ _, paired) (λ _, paired).
Proof. intros H. eapply triple_weaken; [exact H|done|by intros ? ? []|done]. Qed.

Lemma find_active_spec ts (st : store) src dst name gid :
  match find_active_relates_to_uuid ts st src dst name gid with
  | Some u => ∃ r, r ∈ g_rels (sto_graph st) ∧ rn_uuid r = u ∧ joins src dst name gid r
  | None => ∀ r, r ∈ g_rels (sto_graph st) → ¬ joins src dst name gid r
  end.
Proof.
  unfold find_active_relates_to_uuid. set (f := λ r : relnode, _). set (le := λ a b : str, _).
  assert (Hf : ∀ r u, f r = Some u ↔ rn_uuid r = u ∧ joins src dst name gid r).
  { intros r u. unfold f, joins. repeat case_bool_decide; cbn; naive_solver. }
  destruct (head _) as [u|] eqn:H.
  - apply head_elem, sort_by_elem, list_elem_of_omap in H as (r & Hr & Hu). apply Hf in Hu as [<- Hj]. by exists r.
  - intros r Hr Hj. assert (Hin : rn_uuid r ∈ omap f (g_rels (sto_graph st))) by (apply list_elem_of_omap; exists r; split; [done|]; by apply Hf).
    destruct (head_sort_some le _ _ Hin) as (u & Hu & _). congruence.
Qed.
Lemma by_name_pairs gid name scope : pairs (by_name ts_text gid name scope) (λ r g, match r with Existing e => stands g gid e | NotFound => True end).
Proof.
  intros s [Hn Ht]. unfold by_name. destruct (resolve_entity_by_name _ _ _ _ _) as [r g'] eqn:H. apply by_name_resolves in H as [Hr H]; [|done].
  assert (Hs' : paired (on_store (with_graph g' (x_store s)) s)).
  { split; [exact (repaired_nodup _ _ Hr Hn)|]. destruct Hr as [_ Hr]. unfold twin_free. cbn. by rewrite Hr. }
  destruct r as [[|e]|e]; [by split|by split|exact Hs'].
Qed.
Lemma by_uuid_pairs gid u (Q : graph → Prop) :
  triple (λ s, paired s ∧ Q (sto_graph (x_store s))) (by_uuid gid u) (λ e s, paired s ∧ Q (sto_graph (x_store s)) ∧ stands (sto_graph (x_store s)) gid e) (λ _, paired).
Proof.
  intros s [Hs HQ]. unfold by_uuid. destruct (resolve_entity_by_uuid _ _ _) as [e|e] eqn:H; [|done]. split_and!; [apply Hs..|done|]. eapply by_uuid_resolves; [apply Hs|exact H].
Qed.
Lemma locked_pairs {A} (m : M A) Q : pairs m Q → (∀ a (g : graph) p, Q a g → Q a {| g_ents := g_ents g; g_eps := g_eps g; g_rels := g_rels g; g_direct := g_direct g; g_kinds := g_kinds g; g_scans := g_scans g; g_pending := p |}) →
  pairs (locked m) Q.
Proof.
  intros Hm HQ. unfold locked. apply triple_on_conn; [intros s Hs; exact (others s Hs)|].
  intros s Hs. destruct (ad_connect_error _); [exact Hs|]. specialize (Hm s Hs). destruct (m s) as [[[a|e]|] s']; [|exact Hm..].
  destruct Hm as [Hm Hq]. split; [exact Hm|]. exact (HQ a _ [] Hq).
Qed.
(** What the answer says of the graph. *)
Definition edge_there (a : edge_args) (g : graph) (uuid : str) : Prop :=
  ∃ r src dst, r ∈ g_rels g ∧ rn_uuid r = uuid ∧ rn_attrs r = ra_attributes a ∧ joins (en_uuid src) (en_uuid dst) (ra_predicate a) (ra_group a) r ∧
    stands g (ra_group a) src ∧ stands g (ra_group a) dst.
Lemma flush_pairs gid (Q : graph → Prop) : (∀ (g : graph) p, Q g → Q {| g_ents := g_ents g; g_eps := g_eps g; g_rels := g_rels g; g_direct := g_direct g; g_kinds := g_kinds g; g_scans := g_scans g; g_pending := p |}) →
  triple (λ s, paired s ∧ Q (sto_graph (x_store s))) (flush_episode gid) (λ _ s, paired s ∧ Q (sto_graph (x_store s))) (λ _, paired).
Proof. intros HQ s [Hp Hq]. unfold flush_episode. destruct (ed_flush _ _ _) as [[p|] w]; (split; [exact Hp|by apply (HQ (sto_graph (x_store s)))]). Qed.
Lemma flush_ret_pairs {A} gid (v : A) (Q : A → graph → Prop) : (∀ (g : graph) p, Q v g → Q v {| g_ents := g_ents g; g_eps := g_eps g; g_rels := g_rels g; g_direct := g_direct g; g_kinds := g_kinds g; g_scans := g_scans g; g_pending := p |}) →
  triple (λ s, paired s ∧ Q v (sto_graph (x_store s))) (bind (flush_episode gid) (λ _, ret v)) (λ b s, paired s ∧ Q b (sto_graph (x_store s))) (λ _, paired).
Proof. intros HQ. eapply triple_bind; [by apply (flush_pairs gid (Q v))|]. intros ?. by apply triple_ret. Qed.

Definition with_attributes (uuid attrs : str) (r : relnode) : relnode :=
  if bool_decide (rn_uuid r = uuid) then
    {| rn_uuid := rn_uuid r; rn_name := rn_name r; rn_group := rn_group r; rn_attrs := attrs; rn_invalid := rn_invalid r; rn_srcs := rn_srcs r; rn_dsts := rn_dsts r |}
  else r.
Lemma with_attributes_joins uuid attrs src dst name gid r :
  rn_uuid (with_attributes uuid attrs r) = rn_uuid r ∧ (joins src dst name gid (with_attributes uuid attrs r) ↔ joins src dst name gid r).
Proof. unfold with_attributes. by case_bool_decide. Qed.
Definition second_look (a : edge_args) (x : option str * str * str) (g : graph) : Prop :=
  match x.1.1 with
  | Some u => edge_there a g u
  | None => ∃ src dst, x.1.2 = en_uuid src ∧ x.2 = en_uuid dst ∧ stands g (ra_group a) src ∧ stands g (ra_group a) dst ∧
              ∀ r, r ∈ g_rels g → ¬ joins (en_uuid src) (en_uuid dst) (ra_predicate a) (ra_group a) r
  end.
Lemma update_edge_pairs a su tu : pairs (resolve_and_update_edge a su tu) (second_look a).
Proof.
  unfold resolve_and_update_edge. eapply triple_bind; [eapply triple_weaken; [apply (by_uuid_pairs (ra_group a) su (λ _, True))|by split|intros x s H; exact H|done]|].
  intros src. eapply triple_bind; [eapply triple_weaken; [apply (by_uuid_pairs (ra_group a) tu (λ g, stands g (ra_group a) src))|by intros s (? & _ & ?)|intros x s H; exact H|done]|].
  intros dst s (Hs & Hsrc & Hdst). unfold bind at 1, get_store.
  pose proof (find_active_spec ed_timestamp (x_store s) (en_uuid src) (en_uuid dst) (ra_predicate a) (ra_group a)) as Hf.
  destruct (find_active_relates_to_uuid _ _ _ _ _ _) as [u|]; [|split; [exact Hs|]; by exists src, dst].
  set (s1 := on_store (update_relates_to_core u (ra_fact a) (ra_valid_at a) (ra_type a) (ra_attributes a) (x_store s)) s).
  assert (Hrels : g_rels (sto_graph (x_store s1)) = with_attributes u (ra_attributes a) <$> g_rels (sto_graph (x_store s))) by done.
  assert (H1 : paired s1 ∧ edge_there a (sto_graph (x_store s1)) u).
  { split; [split; [apply Hs|]|].
    - intros x y name gid r r' Hr Hr'. rewrite Hrels in Hr, Hr'. apply list_elem_of_fmap in Hr as (r0 & -> & Hr), Hr' as (r1 & -> & Hr').
      rewrite !(proj2 (with_attributes_joins _ _ _ _ _ _ _)), !(proj1 (with_attributes_joins u (ra_attributes a) x y name gid _)). by apply (proj2 Hs).
    - destruct Hf as (r & Hr & Hu & Hj). exists (with_attributes u (ra_attributes a) r), src, dst. rewrite Hrels.
      split; [by apply list_elem_of_fmap_2|]. split; [by rewrite (proj1 (with_attributes_joins u (ra_attributes a) [] [] [] [] r))|].
      split; [unfold with_attributes; by rewrite bool_decide_eq_true_2|]. split; [by apply with_attributes_joins|]. by split. }
  exact (flush_ret_pairs (ra_group a) (Some u, en_uuid src, en_uuid dst) (second_look a) (λ _ _ H, H) s1 H1).
Qed.
Lemma stands_present (g : graph) gid e : stands g gid e → has_entity g (en_uuid e) = true.
Proof.
  intros (Hc & _). apply has_entity_spec. apply list_elem_of_fmap in Hc as (x & Hx & Hin). unfold card in Hx. injection Hx as -> _ _ _ _. by apply list_elem_of_fmap_2.
Qed.
Lemma edge_second_pass_pairs a su tu v : pairs (edge_second_pass a su tu v) (λ r g, edge_there a g r.1).
Proof.
  unfold edge_second_pass. apply (locked_pairs _ (λ r g, edge_there a g r.1)); [|done].
  refine (pairs_bind _ _ _ (λ (r : str * bool) g, edge_there a g r.1) (update_edge_pairs a su tu) _). intros [[[u|] sx] dx]; [by apply triple_ret|].
  intros s [Hs (src & dst & Hsx & Hdx & Hsrc & Hdst & Hno)]. cbn in Hsx, Hdx. subst sx dx. unfold bind at 1, new_uuid. destruct (ed_new_uuid _) as [u w].
  set (row := {| re_uuid := u; re_name := ra_predicate a; re_src := en_uuid src; re_dst := en_uuid dst; re_group := ra_group a; re_fact := ra_fact a; re_vec := v;
                 re_created := ad_now w; re_valid := ra_valid_at a; re_invalid := None; re_attrs := ra_attributes a; re_type := ra_type a |}).
  set (s1 := on_store (insert_edge row (x_store s)) (on_world w s)).
  set (node := {| rn_uuid := u; rn_name := ra_predicate a; rn_group := ra_group a; rn_attrs := ra_attributes a; rn_invalid := None; rn_srcs := [en_uuid src]; rn_dsts := [en_uuid dst] |}).
  assert (Hrels : g_rels (sto_graph (x_store s1)) = g_rels (sto_graph (x_store s)) ++ [node]).
  { unfold s1, row, insert_edge, insert_relates_to_edge. cbn [sto_graph re_src re_dst re_uuid re_name re_group re_attrs re_invalid on_store x_store on_world].
    rewrite (stands_present _ _ _ Hsrc), (stands_present _ _ _ Hdst). done. }
  assert (Hents : cards (sto_graph (x_store s1)) = cards (sto_graph (x_store s))).
  { unfold s1, row, insert_edge, insert_relates_to_edge. cbn [sto_graph re_src re_dst re_uuid re_name re_group re_attrs re_invalid on_store x_store on_world].
    rewrite (stands_present _ _ _ Hsrc), (stands_present _ _ _ Hdst). done. }
  assert (Hnode : ∀ x y name gid, joins x y name gid node → x = en_uuid src ∧ y = en_uuid dst ∧ name = ra_predicate a ∧ gid = ra_group a).
  { intros x y name gid (Hx & Hy & <- & _ & <-). apply list_elem_of_singleton in Hx, Hy. by split_and!. }
  assert (H1 : paired s1 ∧ edge_there a (sto_graph (x_store s1)) u).
  { split; [split|].
    - unfold table. rewrite (cards_uuids _ _ Hents). apply Hs.
    - intros x y name gid r r' Hr Hr' Hj Hj'. rewrite Hrels in Hr, Hr'.
      apply elem_of_app in Hr as [Hr| ->%list_elem_of_singleton], Hr' as [Hr'| ->%list_elem_of_singleton]; [by eapply (proj2 Hs)| | |done].
      + apply Hnode in Hj' as (-> & -> & -> & ->). by apply Hno in Hj.
      + apply Hnode in Hj as (-> & -> & -> & ->). by apply Hno in Hj'.
    - exists node, src, dst. rewrite Hrels. split; [apply elem_of_app; right; by apply list_elem_of_singleton|]. split; [done|]. split; [done|]. unfold stands. rewrite Hents.
      split; [|by split]. unfold joins, node. cbn. split_and!; [by apply list_elem_of_singleton..|done|done|done]. }
  exact (flush_ret_pairs (ra_group a) (u, true) (λ (r : str * bool) g, edge_there a g r.1) (λ _ _ H, H) s1 H1).
Qed.
Lemma first_look_pairs a : pairs (edge_first_pass ts_text a) (λ x g, match x.1.1 with Some u => edge_there a g u | None => True end).
Proof.
  unfold edge_first_pass. apply (locked_pairs _ (λ x g, match x.1.1 with Some u => edge_there a g u | None => True end)); [|by intros [[[]]]].
  assert (Hr : ∀ n k, triple paired (resolve_or_err ts_text a n k) (λ _, paired) (λ _, paired)).
  { intros n k. unfold resolve_or_err. eapply triple_bind; [eapply pairs_true, by_name_pairs|]. intros [|e]; [by apply triple_fail|by apply triple_ret]. }
  eapply triple_bind; [apply Hr|]. intros src. eapply triple_bind; [apply Hr|]. intros dst.
  eapply triple_weaken; [apply update_edge_pairs|done| |done]. intros [[[u|] x] y] s [Hs H]; by split.
Qed.
Lemma assert_edge_pairs a : pairs (assert_relationship ts_text a) (λ r g, edge_there a g (an_uuid r)).
Proof.
  unfold assert_relationship. eapply triple_bind with (Q := λ _, paired). { intros s Hs. unfold load_db. by destruct (ed_db _). }
  intros _. refine (pairs_bind _ _ _ (λ r g, edge_there a g (an_uuid r)) (first_look_pairs a) _). intros [[[u|] sx] dx]; [by apply triple_ret|].
  apply triple_bind with (Q := λ _, paired).
  { intros s [Hs _]. unfold embed_or_zero. by destruct (ed_embed _ _) as [[[v|e]|] w]. }
  intros [v e]. refine (pairs_bind _ _ _ (λ r g, edge_there a g (an_uuid r)) (edge_second_pass_pairs a sx dx v) _). intros [u c]. by apply triple_ret.
Qed.
End relationships.

(** C22. Asserting a relationship keeps a graph free of twin edges.  If between any two entities of
    a group there is at most one live edge of a name, and other writers keep it so, there still is
    at most one when the call ends, in a value, an error or a panic, whatever happened between
    its two passes.  A call that answers names a live edge of the request's predicate and group,
    with the attributes of the request, from one live entity of the group to another. *)
Theorem assert_relationship_keeps_edges_single {U : Unicode} {VF : VecFloats} {FL : Floats} {AC : AttrCodec} {W : Type} {ED : EpisodeDeps W} {AD : AssertDeps W}
    (ts_text : N → str) (p : value) (s s' : @est VF W) (r : option (result Error entity_answer))
    (Hothers : ∀ s : @est VF W, paired s → paired (on_store (ed_others (x_world s) (x_store s)) s))
    (Hbefore : paired s) (Hrun : handle_assert_relationship ts_text p s = (r, s')) :
  paired s' ∧
  ∀ answer, r = Some (Ok answer) → ∃ a, edge_args_of p = Ok a ∧ edge_there a (sto_graph (x_store s')) (an_uuid answer).
Proof.
  unfold handle_assert_relationship, bind, of_result in Hrun. destruct (edge_args_of p) as [a|e] eqn:Ha; [|injection Hrun as <- <-; by split]. cbn in Hrun.
  pose proof (assert_edge_pairs ts_text Hothers a s Hbefore) as H. rewrite Hrun in H.
  destruct r as [[answer|e]|]; [|by split|by split]. destruct H as [Hs H]. split; [done|]. intros ? [= <-]. by exists a.
Qed.

(** ** Concrete calls *)

(** A world of a counter for the uuids and of what was flushed. *)
Definition LogDeps : @EpisodeDeps (N * list (str * gmut)) ToyVec ToyFloats := {|
  ed_cancelled _ := false; ed_others _ st := st; ed_db _ := None; ed_stamp_io _ := None; ed_sidecar_io _ := None;
  ed_embed t w := (Some (Ok (toy_vec t)), w); ed_embed_batch l w := (Some (Ok (toy_vec <$> l)), w); ed_dim := 3;
  ed_extract o w := (Some (Ok toy_outcome), w); ed_consolidate _ x y w := (Some (Ok (x ++ y)), w);
  ed_judge _ w := ([], w); ed_mode := LlmVerified; ed_vector_search _ _ _ _ _ := []; ed_fts_search _ _ _ _ _ := []; ed_index_error _ := None;
  ed_build_indices w := (Ok tt, w); ed_display _ := #"error"; ed_hybrid_threshold := 100; ed_new_uuid w := ([w.1], ((w.1 + 1)%N, w.2)); ed_hash_order l := l;
  ed_rfc3339 _ := false; ed_timestamp _ := 0%N; ed_flush _ l w := (None, (w.1, w.2 ++ l)); ed_sha256_hex := toy_hash |}.
Definition ToyAssert : AssertDeps (N * list (str * gmut)) := {| ad_now _ := #"2025-01-01"; ad_valid_at s := Some s; ad_connect_error _ := None |}.
Definition toy_issued (w : N * list (str * gmut)) (u : str) : Prop := ∃ n, u = [n] ∧ (n < w.1)%N.
Definition toy_person (uuid : N) (name : string) (keyed : bool) : ent :=
  {| en_uuid := [uuid]; en_name := lit name; en_group := #"g"; en_labels := [ #"Entity"]; en_kind := Some DEFAULT_KIND;
     en_key := if keyed then Some (@compute_lookup_key AsciiUnicode #"g" DEFAULT_KIND (lit name)) else None; en_created := 0; en_attrs := #"{}" |}.
Definition toy_people (l : list ent) : @est ToyVec (N * list (str * gmut)) :=
  {| x_world := (9%N, []); x_store := with_graph (with_ents l (sto_graph no_store)) no_store; x_onto := toy_ostate; x_cancelled := 0; x_active := 0; x_indices := false; x_drifted := false; x_wal := false |}.
Definition toy_request (fields : list (string * string)) : value := VObject ((λ '(k, v), (lit k, VString (lit v))) <$> (("group_id", "g") :: fields)).
Definition assert_toy := @handle_assert_entity AsciiUnicode ToyVec ToyFloats ToyAttrs (N * list (str * gmut)) LogDeps ToyAssert toy_lower toy_ts.
Definition relate_toy := @handle_assert_relationship AsciiUnicode ToyVec ToyFloats ToyAttrs (N * list (str * gmut)) LogDeps ToyAssert toy_ts.
Definition alice_and_bob (keyed : bool) := toy_people [toy_person 1 "Alice" keyed; toy_person 2 "Bob" keyed].

Lemma toy_apart : @keeps_names_apart AsciiUnicode ToyVec ToyFloats (N * list (str * gmut)) LogDeps toy_lower toy_issued.
Proof.
  split; cbn.
  - intros [n l]. split; [intros (m & [= ->] & Hm); cbn in Hm; lia|]. split; [exists n; cbn; split; [done|lia]|]. intros v (m & -> & Hm). exists m. cbn in *. split; [done|lia].
  - by intros.
  - intros g l [n k] v (m & -> & Hm). by exists m.
  - by intros s.
Qed.
Lemma alice_and_bob_sound keyed : @sound AsciiUnicode ToyVec (N * list (str * gmut)) toy_lower toy_issued (alice_and_bob keyed).
Proof.
  split; [split|].
  - apply (bool_decide_unpack _). by vm_compute.
  - intros e [->|[->|H]%elem_of_cons]%elem_of_cons; [by split..|by apply elem_of_nil in H].
  - intros e e' [->|[->|H]%elem_of_cons]%elem_of_cons [->|[->|H']%elem_of_cons]%elem_of_cons; try (by apply elem_of_nil in H); try (by apply elem_of_nil in H'); try done; intros _ _ Hs; exfalso;
      vm_compute in Hs; discriminate Hs.
  - intros e [->|[->|H]%elem_of_cons]%elem_of_cons; [exists 1%N; by split..|exists 2%N; by split|by apply elem_of_nil in H].
Qed.
Definition carol_asserted := assert_toy (toy_request [("name", "Carol")]) (alice_and_bob true).
Lemma assert_entity_keeps_names_apart_witness :
  carol_asserted.1 = Some (Ok {| an_uuid := [9%N]; an_created := true; an_warning := None |}) ∧ length (table carol_asserted.2) = 3 ∧
  @sound AsciiUnicode ToyVec (N * list (str * gmut)) toy_lower toy_issued carol_asserted.2.
Proof.
  split; [vm_compute; reflexivity|]. split; [vm_compute; reflexivity|].
  refine (proj1 (@assert_entity_keeps_names_apart AsciiUnicode ToyVec ToyFloats ToyAttrs (N * list (str * gmut)) LogDeps ToyAssert toy_lower toy_ts toy_issued
    (toy_request [("name", "Carol")]) (alice_and_bob true) carol_asserted.2 carol_asserted.1 toy_apart _ (alice_and_bob_sound true) (surjective_pairing _))).
  intros n Hn. vm_compute in Hn. injection Hn as <-. vm_compute. reflexivity.
Defined.
Definition met_asserted (keyed : bool) := relate_toy (toy_request [("source_name", "Alice"); ("target_name", "Bob"); ("predicate", "MET")]) (alice_and_bob keyed).
Lemma assert_relationship_keeps_edges_single_witness :
  (met_asserted true).1 = Some (Ok {| an_uuid := [9%N]; an_created := true; an_warning := None |}) ∧ length (g_rels (sto_graph (x_store (met_asserted true).2))) = 1 ∧ paired (met_asserted true).2.
Proof.
  split; [vm_compute; reflexivity|]. split; [vm_compute; reflexivity|].
  refine (proj1 (@assert_relationship_keeps_edges_single AsciiUnicode ToyVec ToyFloats ToyAttrs (N * list (str * gmut)) LogDeps ToyAssert toy_ts
    (toy_request [("source_name", "Alice"); ("target_name", "Bob"); ("predicate", "MET")]) (alice_and_bob true) (met_asserted true).2 (met_asserted true).1 _ _ (surjective_pairing _))).
  - by intros s.
  - split; [apply (bool_decide_unpack _); by vm_compute|]. intros src dst name gid r r' Hr. by apply elem_of_nil in Hr.
Defined.

(** ** Where the guards end *)

(** The guard of a rename does not see a name stored with outer white space: its query compares
    the folded stored name, untrimmed, with the trimmed new one, while every lookup trims both.
    So the row stored as [Bob ] does not stop [Alice] from being renamed to [Bob], after which two
    live entities of one group and kind answer to the same name. *)
Theorem padded_name_evades_rename_guard :
  let before := toy_people [toy_person 1 "Alice" true; toy_person 2 "Bob " true] in
  let '(r, after) := assert_toy (toy_request [("entity_uuid", String "001" ""); ("name", "Bob")]) before in
  r = Some (Ok {| an_uuid := [1%N]; an_created := false; an_warning := None |}) ∧
  (@slot AsciiUnicode <$> table after) = [(#"g", #"Entity", #"bob"); (#"g", #"Entity", #"bob")] ∧ (is_merged <$> table after) = [false; false].
Proof. vm_compute. repeat split. Qed.

(** [Merged] is refused as a kind because it would make a live entity look like the tombstone
    of a merge, but it is accepted among the labels.  The entity so created answers to its name
    no more: the next assertion of the name fails. *)
Theorem reserved_label_accepted :
  let request := VObject [(#"name", VString #"Ann"); (#"group_id", VString #"g"); (#"labels", VArray [VString #"Merged"])] in
  let '(first, after) := assert_toy request (toy_people []) in
  first = Some (Ok {| an_uuid := [9%N]; an_created := true; an_warning := None |}) ∧ (is_merged <$> table after) = [true] ∧
  match (assert_toy (toy_request [("name", "Ann")]) after).1 with Some (Err (Ipc _)) => True | _ => False end.
Proof. vm_compute. repeat split. Qed.

(** The first pass over a relationship says that it mutated nothing on the way to a creation.
    Resolving a name may have repaired a lookup key, and that statement dies with the pass's
    connection: the rows are changed, and no repair reaches the log. *)
Theorem first_pass_repairs_unlogged :
  let after := (met_asserted false).2 in
  (en_key <$> table after) = (en_key <$> table (alice_and_bob true)) ∧ (en_key <$> table (alice_and_bob false)) = [None; None] ∧
  (x_world after).2 = replicate 3 (#"g", MEdge [9%N]).
Proof. vm_compute. repeat split. Qed.
