(* ===== verification/Migration.v ===== *)
(** * Migration: moving a legacy workspace to the new layout (service/src/migration.rs)

    The file system is a tree without symbolic links; a directory lists its entries in the order in
    which they came.  Every fallible call consumes one fault: it runs, it fails, or the process
    dies in it, with [k] telling how much of a call that is not atomic was done; with the faults
    used up, calls run.  [mount] says which paths share a file system, and [db_open] whether the
    engine can open what is at the place of the database (which leaves the tree alone).  Paths are
    lists of names below a common root and always printable; of a telemetry event its phase and
    its paths are kept. *)

From S2P Require Import Prelude Text.

(** ** The file system *)

Inductive node := NFile (content : bytes) | NSock | NDir (entries : list (str * node)).
Notation path := (list str).
Inductive io_kind := NotFound | AlreadyExists | CrossesDevices | DirectoryNotEmpty | Other.
Global Instance io_kind_eq_dec : EqDecision io_kind.
Proof. solve_decision. Defined.

Fixpoint entry (k : str) (l : list (str * node)) : option node :=
  match l with [] => None | (k', x) :: l => if bool_decide (k' = k) then Some x else entry k l end.
Fixpoint set_entry (k : str) (x : option node) (l : list (str * node)) : list (str * node) :=
  match l with
  | [] => match x with Some x => [(k, x)] | None => [] end
  | (k', y) :: l => if bool_decide (k' = k) then match x with Some x => (k, x) :: l | None => l end else (k', y) :: set_entry k x l
  end.
Definition at_name (k : str) (t : node) : option node := match t with NDir l => entry k l | _ => None end.
Fixpoint at_path (p : path) (t : node) : option node := match p with [] => Some t | k :: p => at_name k t ≫= at_path p end.
(** Only inside directories that are there. *)
Fixpoint put (p : path) (x : option node) (t : node) : node :=
  match p, t with
  | [k], NDir l => NDir (set_entry k x l)
  | k :: p, NDir l => match entry k l with Some y => NDir (set_entry k (Some (put p x y)) l) | None => t end
  | _, _ => t
  end.
Definition exists_at (t : node) (p : path) : bool := bool_decide (is_Some (at_path p t)).
Definition is_dir_at (t : node) (p : path) : bool := match at_path p t with Some (NDir _) => true | _ => false end.
Definition is_file_at (t : node) (p : path) : bool := match at_path p t with Some (NFile _) => true | _ => false end.
Definition parent (p : path) : path := removelast p.
Definition inside (p q : path) : bool := bool_decide (p `prefix_of` q).

Section calls.
Context (mount : path → N).
(** [rename(2)]: a file replaces a file, a directory an empty directory. *)
Definition os_rename (from to : path) (t : node) : io_kind + node :=
  match at_path from t with
  | None => inl NotFound
  | Some x =>
      if negb (is_dir_at t (parent to)) then inl NotFound
      else if negb (bool_decide (mount from = mount to)) then inl CrossesDevices
      else if bool_decide (from = to) then inr t
      else if inside from to then inl Other
      else
        let allowed := match at_path to t, x with
                       | None, _ => None
                       | Some (NDir []), NDir _ => None
                       | Some (NDir _), NDir _ => Some DirectoryNotEmpty
                       | Some (NDir _), _ | Some _, NDir _ => Some Other
                       | Some _, _ => None
                       end in
        match allowed with Some e => inl e | None => inr (put to (Some x) (put from None t)) end
  end.
Definition os_create_dir (p : path) (t : node) : io_kind + node :=
  if exists_at t p then inl AlreadyExists else if is_dir_at t (parent p) then inr (put p (Some (NDir [])) t) else inl NotFound.
(** The missing directories of the path, the outermost first; [k] of them. *)
Fixpoint make_dirs (done rest : path) (k : nat) (t : node) : io_kind + node :=
  match rest with
  | [] => inr t
  | n :: rest =>
      let p := done ++ [n] in
      match at_path p t with
      | Some (NDir _) => make_dirs p rest k t
      | Some _ => inl AlreadyExists
      | None => match k with O => inr t | S k => make_dirs p rest k (put p (Some (NDir [])) t) end
      end
  end.
Definition os_create_dir_all (k : nat) (p : path) (t : node) : io_kind + node := make_dirs [] p k t.
Definition os_remove_dir (p : path) (t : node) : io_kind + node :=
  match at_path p t with Some (NDir []) => inr (put p None t) | Some (NDir _) => inl DirectoryNotEmpty | Some _ => inl Other | None => inl NotFound end.
Definition os_remove_file (p : path) (t : node) : io_kind + node :=
  match at_path p t with Some (NDir _) => inl Other | Some _ => inr (put p None t) | None => inl NotFound end.
(** The entries go one by one. *)
Definition os_remove_dir_all (p : path) (t : node) : io_kind + node :=
  match at_path p t with Some (NDir _) => inr (put p None t) | Some _ => inl Other | None => inl NotFound end.
Definition partly_removed (k : nat) (p : path) (t : node) : node :=
  match at_path p t with Some (NDir l) => put p (Some (NDir (drop k l))) t | _ => t end.
(** [std::fs::copy]: the target is created, or truncated, and filled. *)
Definition os_copy (k : option nat) (from to : path) (t : node) : io_kind + node :=
  match at_path from t with
  | Some (NFile b) =>
      if is_dir_at t to then inl Other else if is_dir_at t (parent to) then inr (put to (Some (NFile (match k with Some k => take k b | None => b end))) t) else inl NotFound
  | Some _ => inl Other
  | None => inl NotFound
  end.
Definition os_read_dir (p : path) (t : node) : io_kind + list (str * node) :=
  match at_path p t with Some (NDir l) => inr l | Some _ => inl Other | None => inl NotFound end.
End calls.

(** ** Runs *)

Inductive fault := Fine | Fails | Dies (k : nat).
(** Source: service/src/migration.rs 17-25 (MigrationOutcome) *)
Inductive MigrationOutcome := Migrated | AlreadyMigrated | NothingToMigrate.
(** Source: service/src/migration.rs 27-38 (MigrationError) *)
Inductive MigrationError := Schism (paths : list path) | MoveFile (p : path) (source : io_kind) | DbValidation (p : path) (reason : str).
Record mst := { m_fs : node; m_faults : list fault; m_events : list (str * list path) }.
(** No outcome: the process died. *)
Definition M (A : Type) : Type := mst → option (MigrationError + A) * mst.
Definition ret {A} (a : A) : M A := λ s, (Some (inr a), s).
Definition throw {A} (e : MigrationError) : M A := λ s, (Some (inl e), s).
Definition bind {A B} (m : M A) (k : A → M B) : M B := λ s,
  match m s with (Some (inr a), s) => k a s | (Some (inl e), s) => (Some (inl e), s) | (None, s) => (None, s) end.
Notation "'let!' x := m 'in' k" := (bind m (λ x, k)) (at level 200, x name, m at level 100, k at level 200).
Notation "m ;;; k" := (bind m (λ _, k)) (at level 100, k at level 200, right associativity).
Definition get_fs : M node := λ s, (Some (inr (m_fs s)), s).
Definition emit (phase : string) (paths : list path) : M unit := λ s,
  (Some (inr tt), {| m_fs := m_fs s; m_faults := m_faults s; m_events := m_events s ++ [(lit phase, paths)] |}).
Definition on_fs (t : node) (s : mst) : mst := {| m_fs := t; m_faults := tail (m_faults s); m_events := m_events s |}.
(** One call: its effect, and what is there when the process dies in it. *)
Definition attempt (op : node → io_kind + node) (dies : nat → node → node) : M (io_kind + unit) := λ s,
  match head (m_faults s) with
  | Some Fails => (Some (inr (inl Other)), on_fs (m_fs s) s)
  | Some (Dies k) => (None, on_fs (dies k (m_fs s)) s)
  | _ => match op (m_fs s) with inl e => (Some (inr (inl e)), on_fs (m_fs s) s) | inr t => (Some (inr (inr tt)), on_fs t s) end
  end.
(** A call that reads. *)
Definition read {A} (op : node → io_kind + A) : M (io_kind + A) := λ s,
  match head (m_faults s) with
  | Some Fails => (Some (inr (inl Other)), on_fs (m_fs s) s)
  | Some (Dies _) => (None, on_fs (m_fs s) s)
  | _ => (Some (inr (op (m_fs s))), on_fs (m_fs s) s)
  end.
(** [map_err] and [?]. *)
Definition or_throw {A} (p : path) (r : io_kind + A) : M A := match r with inl e => throw (MoveFile p e) | inr a => ret a end.
Definition all_or_nothing (op : node → io_kind + node) (k : nat) (t : node) : node := match k, op t with S _, inr t => t | _, _ => t end.
Fixpoint each {A} (l : list A) (f : A → M unit) : M unit := match l with [] => ret tt | a :: l => f a ;;; each l f end.

Section migration.
Context (mount : path → N) (db_open : node → option str).
Definition rename (from to : path) : M (io_kind + unit) := attempt (os_rename mount from to) (all_or_nothing (os_rename mount from to)).
Definition create_dir_all (p : path) : M unit :=
  let! r := attempt (os_create_dir_all (length p) p) (λ k t, match os_create_dir_all k p t with inr t => t | inl _ => t end) in or_throw p r.
Definition remove_dir (p : path) : M (io_kind + unit) := attempt (os_remove_dir p) (all_or_nothing (os_remove_dir p)).
Definition remove_file (p : path) : M (io_kind + unit) := attempt (os_remove_file p) (all_or_nothing (os_remove_file p)).
Definition remove_dir_all (p : path) : M (io_kind + unit) := attempt (os_remove_dir_all p) (λ k, partly_removed k p).

Definition copy_file (from to : path) : M unit :=
  let! r := attempt (os_copy None from to) (λ n t, match os_copy (Some n) from to t with inr t => t | inl _ => t end) in or_throw from r.
Section entries.
Context (copy_dir : node → path → path → M unit) (from to : path).
(** Source: service/src/migration.rs 411-419 (copy_dir_recursive) *)
Fixpoint copy_entries (l : list (str * node)) : M unit :=
  match l with
  | [] => ret tt
  | (k, y) :: l =>
      let! r := read (λ _, inr tt) in
      or_throw from r ;;;
      match y with NDir _ => copy_dir y (from ++ [k]) (to ++ [k]) | _ => copy_file (from ++ [k]) (to ++ [k]) end ;;;
      copy_entries l
  end.
End entries.
(** The tree below [from] is read as it was found.
    Source: service/src/migration.rs 405-421 (copy_dir_recursive) *)
Fixpoint copy_dir_recursive (x : node) (from to : path) : M unit :=
  create_dir_all to ;;;
  let! r := read (os_read_dir from) in
  or_throw from r ;;;
  match x with NDir l => copy_entries copy_dir_recursive from to l | _ => ret tt end.
(** Source: service/src/migration.rs 385-403 (copy_and_remove_cross_device) *)
Definition copy_and_remove_cross_device (from to : path) : M unit :=
  let! r := read (λ t, match at_path from t with Some x => inr x | None => inl NotFound end) in
  let! x := or_throw from r in
  match x with
  | NDir _ =>
      copy_dir_recursive x from to ;;;
      let! r := remove_dir_all from in or_throw from r
  | _ =>
      create_dir_all (parent to) ;;;
      copy_file from to ;;;
      let! r := remove_file from in or_throw from r
  end.
(** Source: service/src/migration.rs 351-376 (move_path) *)
Definition move_path (from to : path) : M unit :=
  let! r := rename from to in
  match r with
  | inr _ => ret tt
  | inl CrossesDevices => copy_and_remove_cross_device from to
  | inl e => throw (MoveFile from e)
  end ;;;
  emit "step_moved" [from; to].
(** Source: service/src/migration.rs 505-532 (same_file_contents) *)
Definition same_file_contents (a b : node) : bool := match a, b with NFile x, NFile y => bool_decide (x = y) | _, _ => false end.
(** Source: service/src/migration.rs 545-581 (same_tree_contents) *)
Fixpoint same_tree_contents (a b : node) : bool :=
  match a, b with
  | NDir l, NDir l' =>
      bool_decide (sort_by str_leb (fst <$> l) = sort_by str_leb (fst <$> l')) &&
      (fix go m := match m with
                   | [] => true
                   | (k, x) :: m => match entry k l' with Some y => same_tree_contents x y | None => false end && go m
                   end) l
  | _, _ => same_file_contents a b
  end.
(** The reads of one comparison are one call.
    Source: service/src/migration.rs 453-489 (merge_wal_dir_into_root) *)
Definition merge_entry (legacy_wal_dir wal_root : path) (name : str) : M unit :=
  let src := legacy_wal_dir ++ [name] in
  let dest := wal_root ++ [name] in
  let! t := get_fs in
  if exists_at t dest then
    let! r := read (λ t, match at_path src t, at_path dest t with Some a, Some b => inr (same_tree_contents a b) | _, _ => inl NotFound end) in
    let! same := or_throw src r in
    if same : bool then
      let! t := get_fs in
      let! r := if is_dir_at t src then remove_dir_all src else remove_file src in
      or_throw src r
    else emit "wal_merge_collision" [src; dest]
  else move_path src dest.
(** Source: service/src/migration.rs 436-500 (merge_wal_dir_into_root) *)
Definition merge_wal_dir_into_root (legacy_wal_dir wal_root : path) : M unit :=
  let! r := read (os_read_dir legacy_wal_dir) in
  let! entries := or_throw legacy_wal_dir r in
  each (fst <$> entries) (merge_entry legacy_wal_dir wal_root) ;;;
  let! r := remove_dir legacy_wal_dir in
  match r with inr _ => ret tt | inl DirectoryNotEmpty => ret tt | inl e => throw (MoveFile legacy_wal_dir e) end.
Definition validate (partial_marker : path) : M unit :=
  let! t := get_fs in
  match at_path partial_marker t with
  | None => ret tt
  | Some x =>
      match db_open x with
      | None => emit "db_validated" [partial_marker]
      | Some reason => emit "db_validation_failed" [partial_marker] ;;; throw (DbValidation partial_marker reason)
      end
  end.
(** Source: service/src/migration.rs 589-672 (fix_broken_lcg_layout) *)
Definition fix_broken_lcg_layout (new_dir partial_marker : path) : M MigrationOutcome :=
  emit "lcg_layout_fix_started" [new_dir] ;;;
  let lcg_db := new_dir ++ [ #"db"] in
  let tmp_db := new_dir ++ [ #"_db_migrate_tmp"] in
  let! r := rename lcg_db tmp_db in
  or_throw lcg_db r ;;;
  let! r := attempt (os_create_dir lcg_db) (all_or_nothing (os_create_dir lcg_db)) in
  or_throw lcg_db r ;;;
  let! r := rename tmp_db partial_marker in
  or_throw tmp_db r ;;;
  emit "step_moved" [lcg_db; partial_marker] ;;;
  let lcg_db_wal := new_dir ++ [ #"db.wal"] in
  let new_db_wal := lcg_db ++ [ #"liminis.db.wal"] in
  let! t := get_fs in
  (if exists_at t lcg_db_wal && negb (exists_at t new_db_wal) then move_path lcg_db_wal new_db_wal else ret tt) ;;;
  validate partial_marker ;;;
  emit "lcg_layout_fix_complete" [new_dir] ;;;
  ret Migrated.
(** Failures are ignored.
    Source: service/src/migration.rs 679-694 (remove_sockets_in_dir) *)
Definition remove_sockets_in_dir (dir : path) : M unit :=
  let! r := read (os_read_dir dir) in
  match r with
  | inl _ => ret tt
  | inr entries =>
      each entries (λ '(name, x),
        if bool_decide (name = #"service.sock") || match x with NSock => true | _ => false end
        then let! _ := remove_file (dir ++ [name]) in ret tt else ret tt)
  end.
(** Source: service/src/migration.rs 222-229 (migrate_workspace) *)
Definition RECOGNIZED : list str := [ #"db"; #"db.wal"; #"wal"; #"ontology.yaml"; #"ontology-hash.json"; #"service.sock"].
(** Step 7: a directory that cannot be read is passed over.
    Source: service/src/migration.rs 220-273 (migrate_workspace) *)
Definition move_unrecognized (legacy new_dir : path) : M unit :=
  let dir := new_dir ++ [ #"_unrecognized"] in
  let! r := read (os_read_dir legacy) in
  match r with
  | inl _ => ret tt
  | inr entries =>
      each entries (λ '(name, x),
        if bool_decide (name ∈ RECOGNIZED) then ret tt
        else match x with
             | NSock => emit "skip_socket" [[name]]
             | _ =>
                 let! t := get_fs in
                 (if exists_at t dir then ret tt else create_dir_all dir) ;;;
                 emit "unrecognized_file" [[name]; dir ++ [name]] ;;;
                 move_path (legacy ++ [name]) (dir ++ [name])
             end)
  end.
(** Steps 3, 5 and 6: moved if it is there and its place is free. *)
Definition move_if_free (from to : path) : M unit :=
  let! t := get_fs in if exists_at t from && negb (exists_at t to) then move_path from to else ret tt.
(** Step 4.
    Source: service/src/migration.rs 174-201 (migrate_workspace) *)
Definition move_wal (legacy_wal_dir wal_root : path) : M unit :=
  let! t := get_fs in
  if exists_at t legacy_wal_dir then
    if negb (exists_at t wal_root) then create_dir_all (parent wal_root) ;;; move_path legacy_wal_dir wal_root
    else merge_wal_dir_into_root legacy_wal_dir wal_root
  else ret tt.
(** Step 9.
    Source: service/src/migration.rs 308-340 (migrate_workspace) *)
Definition retire_legacy (keep_backup : bool) (legacy bak : path) : M unit :=
  remove_sockets_in_dir legacy ;;;
  if keep_backup then
    let! r := rename legacy bak in
    or_throw legacy r ;;; emit "backup_created" [bak]
  else
    let! r := remove_dir legacy in
    or_throw legacy r ;;; emit "legacy_removed" [legacy].
(** The value of the environment variable [LCG_MIGRATION_KEEP_BACKUP].
    Source: service/src/migration.rs 309-311 (migrate_workspace) *)
Definition keep_backup_of (v : option str) : bool :=
  match v with Some v => bool_decide (v = #"1") || bool_decide (ascii_lower <$> v = #"true") | None => false end.
(** Steps 1 to 9.
    Source: service/src/migration.rs 138-341 (migrate_workspace) *)
Definition migrate_steps (keep_backup : bool) (legacy new_dir bak wal_root : path) : M MigrationOutcome :=
  let new_db_dir := new_dir ++ [ #"db"] in
  let partial_marker := new_db_dir ++ [ #"liminis.db"] in
  emit "started" [legacy; new_dir] ;;;
  let! t := get_fs in
  (if exists_at t new_db_dir then ret tt else create_dir_all new_db_dir) ;;;
  let! t := get_fs in
  (if is_file_at t (legacy ++ [ #"db"]) && negb (exists_at t partial_marker) then move_path (legacy ++ [ #"db"]) partial_marker else ret tt) ;;;
  move_if_free (legacy ++ [ #"db.wal"]) (new_db_dir ++ [ #"liminis.db.wal"]) ;;;
  move_wal (legacy ++ [ #"wal"]) wal_root ;;;
  move_if_free (legacy ++ [ #"ontology.yaml"]) (new_dir ++ [ #"ontology.yaml"]) ;;;
  move_if_free (legacy ++ [ #"ontology-hash.json"]) (new_dir ++ [ #"ontology-hash.json"]) ;;;
  move_unrecognized legacy new_dir ;;;
  validate partial_marker ;;;
  retire_legacy keep_backup legacy bak ;;;
  emit "complete" [legacy; new_dir] ;;;
  ret Migrated.
(** Source: service/src/migration.rs 80-342 (migrate_workspace) *)
Definition migrate_workspace (keep_backup : bool) (workspace wal_root : path) : M MigrationOutcome :=
  let legacy := workspace ++ [ #".graphiti"] in
  let new_dir := workspace ++ [ #".lcg"] in
  let partial_marker := new_dir ++ [ #"db"] ++ [ #"liminis.db"] in
  let steps := migrate_steps keep_backup legacy new_dir (workspace ++ [ #".graphiti.bak"]) wal_root in
  let! t := get_fs in
  match exists_at t legacy, exists_at t new_dir with
  | false, false => ret NothingToMigrate
  | false, true =>
      let lcg_db := new_dir ++ [ #"db"] in
      if exists_at t lcg_db && negb (is_dir_at t lcg_db) then fix_broken_lcg_layout new_dir partial_marker else ret AlreadyMigrated
  | true, true =>
      if negb (exists_at t partial_marker) then
        emit "schism" [] ;;; throw (Schism [legacy; new_dir; partial_marker; legacy; legacy])
      else emit "resume_partial" [legacy; new_dir] ;;; steps
  | true, false => steps
  end.
End migration.
