(* ===== verification/MigrationTheory.v ===== *)
(** * MigrationTheory: what survives a migration *)

From S2P Require Import Prelude Text Migration.

(** ** Trees *)

Section node_induction.
Context (P : node → Prop) (Hf : ∀ b, P (NFile b)) (Hs : P NSock) (Hd : ∀ l, Forall (λ e : str * node, P e.2) l → P (NDir l)).
Fixpoint node_ind' (t : node) : P t :=
  match t with
  | NFile b => Hf b
  | NSock => Hs
  | NDir l => Hd l ((fix go l : Forall (λ e : str * node, P e.2) l := match l with [] => List.Forall_nil _ | e :: l => List.Forall_cons _ e l (node_ind' e.2) (go l) end) l)
  end.
End node_induction.
(** The contents of the regular files. *)
Fixpoint files (t : node) : list bytes := match t with NFile b => [b] | NSock => [] | NDir l => flat_map (λ e, files e.2) l end.
Definition ofiles (o : option node) : list bytes := match o with Some x => files x | None => [] end.
(** No directory lists a name twice. *)
Fixpoint wf (t : node) : Prop := match t with NDir l => NoDup (fst <$> l) ∧ Forall id ((λ e, wf e.2) <$> l) | _ => True end.
Lemma wf_dir l : wf (NDir l) ↔ NoDup (fst <$> l) ∧ Forall (λ e, wf e.2) l.
Proof. cbn. by rewrite Forall_fmap. Qed.

Lemma wf_empty : wf (NDir []).
Proof. apply wf_dir. split; constructor. Qed.

Lemma entry_elem k l x : entry k l = Some x → (k, x) ∈ l.
Proof.
  induction l as [|[k' y] l IH]; [done|]. cbn. case_bool_decide as Hk; [intros [= ->]; rewrite Hk; left|]. intros H. right. by apply IH.
Qed.
Lemma entry_none k l : entry k l = None ↔ k ∉ fst <$> l.
Proof.
  induction l as [|[k' y] l IH]; cbn; [split; [intros _ H; by apply elem_of_nil in H|done]|].
  rewrite not_elem_of_cons. case_bool_decide; [naive_solver|]. rewrite IH. naive_solver.
Qed.
Lemma entry_nodup k l x : NoDup (fst <$> l) → (k, x) ∈ l → entry k l = Some x.
Proof.
  induction l as [|[k' y] l IH]; intros Hn; [intros H; by apply elem_of_nil in H|]. cbn in Hn. apply NoDup_cons in Hn as [Hk Hn].
  intros [[= -> ->]|H]%elem_of_cons; cbn; [by rewrite bool_decide_eq_true_2|]. case_bool_decide as Hd; [|by apply IH].
  subst k'. destruct Hk. by apply (list_elem_of_fmap_2 fst _ (k, x)).
Qed.
Lemma entry_set_same k x l : entry k (set_entry k (Some x) l) = Some x.
Proof. induction l as [|[k' y] l IH]; cbn; [by rewrite bool_decide_eq_true_2|]. case_bool_decide; cbn; case_bool_decide; done. Qed.
Lemma entry_set_other k k' x l : k ≠ k' → entry k' (set_entry k x l) = entry k' l.
Proof.
  intros Hk. induction l as [|[k2 y] l IH]; cbn; [destruct x; cbn; [by rewrite bool_decide_eq_false_2|done]|].
  case_bool_decide as H2; [subst k2; rewrite (bool_decide_eq_false_2 (k = k')) by done; destruct x; cbn; [by rewrite bool_decide_eq_false_2|done]|]. cbn. by rewrite IH.
Qed.
Lemma set_names k x l k' : k' ∈ fst <$> set_entry k x l → k' = k ∨ k' ∈ fst <$> l.
Proof.
  induction l as [|[k2 y] l IH]; cbn; [destruct x; cbn; [intros ->%list_elem_of_singleton; by left|intros H; by right]|].
  case_bool_decide as Hk; [subst k2; destruct x; cbn; rewrite ?elem_of_cons; tauto|]. cbn. rewrite !elem_of_cons. tauto.
Qed.
Lemma set_names_nodup k x l : NoDup (fst <$> l) → NoDup (fst <$> set_entry k x l).
Proof.
  induction l as [|[k2 y] l IH]; cbn; [intros _; destruct x; cbn; [apply NoDup_singleton|constructor]|]. intros [H1 H2]%NoDup_cons.
  case_bool_decide as Hk; [subst k2; destruct x; [by apply NoDup_cons|done]|]. cbn. apply NoDup_cons. split; [|by apply IH].
  intros [->|H]%set_names; done.
Qed.
Lemma entry_set_none k l : NoDup (fst <$> l) → entry k (set_entry k None l) = None.
Proof.
  induction l as [|[k2 y] l IH]; cbn; [done|]. intros [H1 H2]%NoDup_cons. case_bool_decide as Hk; [subst k2; by apply entry_none|]. cbn.
  rewrite bool_decide_eq_false_2 by done. by apply IH.
Qed.
Lemma set_forall (P : node → Prop) k x l : (∀ y, x = Some y → P y) → Forall (λ e, P e.2) l → Forall (λ e, P e.2) (set_entry k x l).
Proof.
  intros Hx. induction 1 as [|[k2 y] l Hy Hl IH]; cbn; [destruct x; [by constructor; [apply Hx|]|constructor]|].
  case_bool_decide; [destruct x; [constructor; [by apply Hx|done]|done]|]. by constructor.
Qed.
Lemma set_files k x l : flat_map (λ e, files e.2) (set_entry k x l) ++ ofiles (entry k l) ≡ₚ ofiles x ++ flat_map (λ e, files e.2) l.
Proof.
  induction l as [|[k2 y] l IH]; cbn; [destruct x; cbn; by rewrite ?app_nil_r|].
  case_bool_decide as Hk; cbn; [destruct x as [z|]; cbn; [|by rewrite Permutation_app_comm]; rewrite <- app_assoc; f_equiv; by rewrite Permutation_app_comm|].
  rewrite <- app_assoc, IH, !app_assoc. f_equiv. by rewrite Permutation_app_comm.
Qed.

(** ** Paths *)

Lemma put_cons k p x l : p ≠ [] → put (k :: p) x (NDir l) = match entry k l with Some y => NDir (set_entry k (Some (put p x y)) l) | None => NDir l end.
Proof. by destruct p. Qed.
Lemma is_dir_cons k p l : is_dir_at (NDir l) (k :: p) = match entry k l with Some y => is_dir_at y p | None => false end.
Proof. unfold is_dir_at. cbn. by destruct (entry k l). Qed.
Lemma parent_cons k p : p ≠ [] → parent (k :: p) = k :: parent p.
Proof. by destruct p. Qed.
Lemma put_wf p x : ∀ t, wf t → (∀ y, x = Some y → wf y) → wf (put p x t).
Proof.
  induction p as [|k p IH]; intros t Ht Hx; [done|]. destruct t as [b| |l]; [by destruct p..|]. apply wf_dir in Ht as [H1 H2]. destruct p as [|k2 p].
  - cbn [put]. apply wf_dir. split; [by apply set_names_nodup|by apply set_forall].
  - rewrite put_cons by done. destruct (entry k l) as [y|] eqn:He; [|by apply wf_dir]. apply wf_dir. split; [by apply set_names_nodup|]. apply set_forall; [|done].
    intros z [= <-]. apply IH; [|done]. apply entry_elem in He. rewrite Forall_forall in H2. exact (H2 _ He).
Qed.
Lemma at_wf p : ∀ t x, wf t → at_path p t = Some x → wf x.
Proof.
  induction p as [|k p IH]; intros t x Ht; cbn; [by intros [= <-]|]. intros (y & Hy & Hx)%bind_Some. destruct t as [b| |l]; [done..|]. cbn in Hy. apply entry_elem in Hy.
  apply wf_dir in Ht as [_ Ht]. rewrite Forall_forall in Ht. apply (IH y x); [exact (Ht _ Hy)|done].
Qed.
Lemma perm_mix (a b l x y z : list bytes) : a ++ y ≡ₚ z ++ l → z ++ b ≡ₚ x ++ y → a ++ b ≡ₚ x ++ l.
Proof.
  intros H1 H2. apply (Permutation_app_inv_r y). rewrite <- (app_assoc a), (Permutation_app_comm b y), (app_assoc a), H1, <- app_assoc, (Permutation_app_comm l b), app_assoc, H2.
  rewrite <- !app_assoc. apply Permutation_app_head, Permutation_app_comm.
Qed.
Lemma put_files p x : ∀ t, p ≠ [] → is_dir_at t (parent p) = true → files (put p x t) ++ ofiles (at_path p t) ≡ₚ ofiles x ++ files t.
Proof.
  induction p as [|k p IH]; intros t Hp Hd; [done|]. destruct t as [b| |l]; [by destruct p..|]. destruct p as [|k2 p].
  - cbn [put at_path at_name files]. rewrite <- (set_files k). destruct (entry k l); reflexivity.
  - rewrite put_cons by done. rewrite parent_cons, is_dir_cons in Hd by done. cbn [at_path at_name]. destruct (entry k l) as [y|] eqn:He; [|done]. cbn [mbind option_bind].
    specialize (IH y ltac:(done) Hd). pose proof (set_files k (Some (put (k2 :: p) x y)) l) as Hs. rewrite He in Hs. cbn [ofiles] in Hs. cbn [files].
    exact (perm_mix _ _ _ _ _ _ Hs IH).
Qed.
Lemma put_nothing p x : ∀ t, p ≠ [] → is_dir_at t (parent p) = false → put p x t = t.
Proof.
  induction p as [|k p IH]; intros t Hp Hd; [done|]. destruct t as [b| |l]; [by destruct p..|]. destruct p as [|k2 p]; [done|].
  rewrite put_cons by done. rewrite parent_cons, is_dir_cons in Hd by done. destruct (entry k l) as [y|] eqn:He; [|done]. rewrite IH by done.
  f_equal. clear IH Hd. induction l as [|[k' z] l IHl]; [done|]. cbn in He |- *. case_bool_decide as Hk; [by injection He as ->; subst k'|]. by rewrite IHl.
Qed.
Lemma at_put_same p x : ∀ t, p ≠ [] → is_dir_at t (parent p) = true → at_path p (put p (Some x) t) = Some x.
Proof.
  induction p as [|k p IH]; intros t Hp Hd; [done|]. destruct t as [b| |l]; [by destruct p..|]. destruct p as [|k2 p].
  - cbn. by rewrite entry_set_same.
  - rewrite put_cons by done. rewrite parent_cons, is_dir_cons in Hd by done. destruct (entry k l) as [y|] eqn:He; [|done].
    cbn [at_path at_name]. rewrite entry_set_same. cbn [mbind option_bind]. by apply IH.
Qed.
Lemma at_put_none p : ∀ t, p ≠ [] → wf t → at_path p (put p None t) = None.
Proof.
  induction p as [|k p IH]; intros t Hp Ht; [done|]. destruct t as [b| |l]; [by destruct p..|]. pose proof (proj1 (wf_dir l) Ht) as [H1 H2]. destruct p as [|k2 p].
  - cbn. by rewrite entry_set_none.
  - rewrite put_cons by done. destruct (entry k l) as [y|] eqn:He; [|cbn [at_path at_name]; by rewrite He].
    cbn [at_path at_name]. rewrite entry_set_same. cbn [mbind option_bind]. apply IH; [done|]. rewrite Forall_forall in H2. exact (H2 _ (entry_elem _ _ _ He)).
Qed.
(** Neither path leads to the other. *)
Definition apart (p q : path) : Prop := ¬ p `prefix_of` q ∧ ¬ q `prefix_of` p.
Lemma at_put_apart p x : ∀ q t, apart p q → at_path q (put p x t) = at_path q t.
Proof.
  induction p as [|k p IH]; intros q t [H1 H2]; [destruct H1; apply prefix_nil|]. destruct q as [|k' q]; [destruct H2; apply prefix_nil|].
  destruct t as [b| |l]; [by destruct p..|]. destruct (decide (k = k')) as [<-|Hk].
  - assert (Ha : apart p q) by (split; intros H; [apply H1|apply H2]; by apply prefix_cons). destruct p as [|k2 p]; [destruct Ha as [[] _]; apply prefix_nil|].
    rewrite put_cons by done. cbn [at_path at_name]. destruct (entry k l) as [y|] eqn:He; cbn [at_path at_name]; [|by rewrite He]. rewrite entry_set_same. cbn [mbind option_bind]. by apply IH.
  - destruct p as [|k2 p]; [cbn; by rewrite entry_set_other|]. rewrite put_cons by done. cbn [at_path at_name]. destruct (entry k l); cbn [at_path at_name]; [by rewrite entry_set_other|done].
Qed.
(** What is at a path: nothing, a file, a socket, a directory. *)
Inductive shape := Nothing | AFile | ASock | ADir.
Definition shape_of (o : option node) : shape := match o with None => Nothing | Some (NFile _) => AFile | Some NSock => ASock | Some (NDir _) => ADir end.
Definition shape_at (q : path) (t : node) : shape := shape_of (at_path q t).
Lemma shape_put p x q t : ¬ p `prefix_of` q → shape_at q (put p x t) = shape_at q t.
Proof.
  revert q t. induction p as [|k p IH]; intros q t H; [destruct H; apply prefix_nil|]. destruct t as [b| |l]; [by destruct p..|]. destruct q as [|k' q].
  { destruct p; [done|]. rewrite put_cons by done. by destruct (entry k l). }
  destruct (decide (k = k')) as [<-|Hk].
  - assert (Ha : ¬ p `prefix_of` q) by (intros Hq; apply H; by apply prefix_cons). destruct p as [|k2 p]; [destruct Ha; apply prefix_nil|].
    rewrite put_cons by done. unfold shape_at. cbn [at_path at_name]. destruct (entry k l) as [y|] eqn:He; cbn [at_path at_name]; [|by rewrite He]. rewrite entry_set_same. cbn [mbind option_bind]. by apply IH.
  - unfold shape_at. destruct p as [|k2 p]; [cbn; by rewrite entry_set_other|]. rewrite put_cons by done. cbn [at_path at_name]. destruct (entry k l); cbn [at_path at_name]; [by rewrite entry_set_other|done].
Qed.
Lemma at_app p q t : at_path (p ++ q) t = at_path p t ≫= at_path q.
Proof. revert t. induction p as [|k p IH]; intros t; [done|]. cbn. destruct (at_name k t); [|done]. cbn. apply IH. Qed.
Lemma exists_prefix p q t : p `prefix_of` q → is_Some (at_path q t) → is_Some (at_path p t).
Proof. intros [r ->]. rewrite at_app. by destruct (at_path p t). Qed.

(** ** Calls *)

Section run.
Context (mount : path → N) (F : list bytes).
(** Every content of [F] is still somewhere. *)
Definition kept (t : node) : Prop := F ⊆ files t.
(** From a tree of [P], [m] loses nothing however it ends, and leaves [Q] of its value. *)
Definition safe {A} (P : node → Prop) (m : M A) (Q : A → node → Prop) : Prop :=
  ∀ s, P (m_fs s) → match m s with (Some (inr a), s') => Q a (m_fs s') | (_, s') => kept (m_fs s') end.
Lemma safe_ret {A} (a : A) P (Q : A → node → Prop) : (∀ t, P t → Q a t) → safe P (ret a) Q.
Proof. intros H s Hs. by apply H. Qed.
Lemma safe_throw {A} e P (Q : A → node → Prop) : (∀ t, P t → kept t) → safe P (throw e) Q.
Proof. intros H s Hs. by apply H. Qed.
Lemma safe_bind {A B} (m : M A) (k : A → M B) P Q R : safe P m Q → (∀ a, safe (Q a) (k a) R) → safe P (bind m k) R.
Proof. intros Hm Hk s Hs. unfold bind. specialize (Hm s Hs). destruct (m s) as [[[e|a]|] s']; [done|exact (Hk a s' Hm)|done]. Qed.
Lemma safe_weaken {A} (m : M A) (P P' : node → Prop) (Q Q' : A → node → Prop) : safe P' m Q' → (∀ t, P t → P' t) → (∀ a t, Q' a t → Q a t) → safe P m Q.
Proof. intros Hm HP HQ s Hs. specialize (Hm s (HP _ Hs)). destruct (m s) as [[[e|a]|] s']; auto. Qed.
Lemma safe_emit ph ps P : safe P (emit ph ps) (λ _, P).
Proof. by intros s Hs. Qed.
Lemma safe_get P : safe P get_fs (λ t t', t' = t ∧ P t).
Proof. by intros s Hs. Qed.
Lemma safe_each {A} (l : list A) (f : A → M unit) (I : list A → node → Prop) :
  (∀ x rest, safe (I (x :: rest)) (f x) (λ _, I rest)) → safe (I l) (each l f) (λ _, I []).
Proof. intros Hf. induction l as [|x l IH]; cbn [each]; [by apply safe_ret|]. eapply safe_bind; [apply Hf|]. intros ?. exact IH. Qed.
Lemma safe_attempt op dies P (Q : io_kind + unit → node → Prop) :
  (∀ t e, P t → e = Other ∨ op t = inl e → Q (inl e) t) → (∀ t t', P t → op t = inr t' → Q (inr tt) t') → (∀ t k, P t → kept (dies k t)) → safe P (attempt op dies) Q.
Proof.
  intros H2 H3 H4 s Hs. unfold attempt. destruct (head (m_faults s)) as [[| |k]|]; cbn; [|by apply H2; [|left]|by apply H4|];
    (destruct (op (m_fs s)) as [e|t] eqn:Ht; cbn; [by apply H2; [|right]|by eapply H3]).
Qed.
Lemma safe_read {A} (op : node → io_kind + A) P : (∀ t, P t → kept t) → safe P (read op) (λ r t, P t ∧ ∀ a, r = inr a → op t = inr a).
Proof. intros H s Hs. unfold read. destruct (head (m_faults s)) as [[| |k]|]; cbn; [split; [done|by intros a]|by split|by apply H|by split]. Qed.
Lemma safe_or_throw {A} p (r : io_kind + A) P : (∀ t, P t → kept t) → safe (λ t, P t) (or_throw p r) (λ a t, P t ∧ r = inr a).
Proof. intros H. destruct r; [by apply safe_throw|by apply safe_ret]. Qed.
(** A call whose failure stops the run. *)
Lemma safe_call op dies p P (Q : node → Prop) :
  (∀ t, P t → kept t) → (∀ t t', P t → op t = inr t' → Q t') → (∀ t k, P t → kept (dies k t)) → safe P (bind (attempt op dies) (or_throw p)) (λ _, Q).
Proof.
  intros H1 H2 H3. eapply safe_bind with (Q := λ r t, match r with inl _ => kept t | inr _ => Q t end); [apply safe_attempt; auto|].
  intros [e|[]]; [by apply safe_throw|by apply safe_ret].
Qed.
Lemma kept_done op k t : kept t → (∀ t', op t = inr t' → kept t') → kept (all_or_nothing op k t).
Proof. intros H1 H2. unfold all_or_nothing. destruct k; [done|]. destruct (op t) eqn:Ho; [done|by apply H2]. Qed.

Lemma files_at p : ∀ t x, at_path p t = Some x → files x ⊆ files t.
Proof.
  induction p as [|k p IH]; intros t x; cbn; [by intros [= <-]|]. intros (y & Hy & Hx)%bind_Some. destruct t as [b| |l]; [done..|]. cbn in Hy. apply entry_elem in Hy.
  apply IH in Hx. intros b Hb. cbn. apply list_elem_of_In, in_flat_map. exists (k, y). split; [by apply list_elem_of_In|]. apply list_elem_of_In. by apply Hx.
Qed.
(** What a change at one path can lose is what was there. *)
Lemma put_kept p x t : p ≠ [] → kept t → (∀ b, b ∈ ofiles (at_path p t) → b ∈ files (put p x t)) → kept (put p x t).
Proof.
  intros Hp Hk Hold. destruct (is_dir_at t (parent p)) eqn:Hd; [|by rewrite put_nothing]. intros b Hb. specialize (Hk b Hb).
  assert (Hin : b ∈ files (put p x t) ++ ofiles (at_path p t)) by (rewrite put_files by done; apply elem_of_app; by right).
  apply elem_of_app in Hin as [Hin|Hin]; [done|]. by apply Hold.
Qed.
Lemma put_new p x t : p ≠ [] → ofiles (at_path p t) = [] → kept t → kept (put p x t).
Proof. intros Hp Ho Hk. apply put_kept; [done..|]. rewrite Ho. intros b Hb. by apply elem_of_nil in Hb. Qed.
Lemma put_spare p q x t y z : p ≠ [] → at_path p t = Some y → at_path q t = Some z → apart p q → files y ⊆ files z → kept t → kept (put p x t).
Proof.
  intros Hp Hy Hz Ha Hsub Hk. apply put_kept; [done..|]. rewrite Hy. intros b Hb. apply (files_at q _ z); [|by apply Hsub]. by rewrite at_put_apart.
Qed.
Lemma is_dir_shape t p : is_dir_at t p = true ↔ shape_at p t = ADir.
Proof. unfold is_dir_at, shape_at. destruct (at_path p t) as [[]|]; cbn; split; done. Qed.
Lemma parent_prefix p : parent p `prefix_of` p.
Proof.
  destruct (decide (p = [])) as [->|Hp]; [done|]. rewrite (app_removelast_last [] Hp) at 2. apply prefix_app_r. done.
Qed.

(** What a rename does, when it does it. *)
Lemma rename_inv from to t t' : os_rename mount from to t = inr t' → from ≠ to → to ≠ [] →
  ∃ x, at_path from t = Some x ∧ apart from to ∧ is_dir_at t (parent to) = true ∧ t' = put to (Some x) (put from None t) ∧
    (at_path to t = None ∨ (shape_at from t = ADir ∧ at_path to t = Some (NDir [])) ∨ (shape_at from t ≠ ADir ∧ ∃ y, at_path to t = Some y)).
Proof.
  unfold os_rename. intros H Hne Hto. destruct (at_path from t) as [x|] eqn:Hx; [|done]. exists x. destruct (is_dir_at t (parent to)) eqn:Hd; cbn [negb] in H; [|done].
  destruct (negb _); [done|]. rewrite bool_decide_eq_false_2 in H by done. destruct (inside from to) eqn:Hi; [done|]. unfold inside in Hi. apply bool_decide_eq_false in Hi.
  assert (Hs : shape_at from t = shape_of (Some x)) by (unfold shape_at; by rewrite Hx).
  destruct (at_path to t) as [y|] eqn:Hy.
  - assert (Ha : (∀ z, y = NDir z → z = []) → apart from to).
    { intros Hz. split; [done|]. intros [r ->]. rewrite at_app, Hy in Hx. cbn in Hx. destruct r as [|k r]; [by rewrite app_nil_r in Hne|]. cbn in Hx.
      destruct y as [b| |z]; [done..|]. by rewrite (Hz z eq_refl) in Hx. }
    destruct y as [b| |[|e z]], x as [b'| |z']; cbn in H; try done; injection H as <-; (split; [done|]); (split; [apply Ha; by intros ? [= <-]|]); (split; [done|]); (split; [done|]); rewrite Hs; cbn; naive_solver.
  - injection H as <-. split; [done|]. split; [|by split_and!; [..|left]]. split; [done|]. intros Hp. apply (exists_prefix _ _ t) in Hp; [|by rewrite Hx]. rewrite Hy in Hp. by destruct Hp.
Qed.
Lemma renamed_file_kept from to t t' : os_rename mount from to t = inr t' → from ≠ [] → to ≠ [] → at_path to t = None ∨ shape_at from t = ADir → kept t → kept t'.
Proof.
  intros H Hf Hto Hcase Hk. destruct (decide (from = to)) as [<-|Hne].
  { unfold os_rename in H. destruct (at_path from t); [|done]. destruct (negb _); [done|]. destruct (negb _); [done|]. rewrite bool_decide_eq_true_2 in H by done. by injection H as <-. }
  apply rename_inv in H as (x & Hx & Ha & Hd & -> & Hold); [|done..].
  assert (Hd1 : is_dir_at (put from None t) (parent to) = true).
  { apply is_dir_shape. rewrite shape_put; [by apply is_dir_shape|]. intros Hp. apply (proj1 Ha). etrans; [exact Hp|apply parent_prefix]. }
  assert (Hnone : ofiles (at_path to (put from None t)) = []).
  { rewrite at_put_apart by done. destruct Hold as [->|[[_ ->]|[Hs (y & Hy)]]]; [done..|]. destruct Hcase as [Hc|Hc]; [by rewrite Hy in Hc|done]. }
  intros b Hb. specialize (Hk b Hb). pose proof (put_files to (Some x) (put from None t) Hto Hd1) as H1. rewrite Hnone, app_nil_r in H1. rewrite H1. cbn [ofiles].
  destruct (is_dir_at t (parent from)) eqn:Hdf.
  - pose proof (put_files from None t Hf Hdf) as H2. rewrite Hx in H2. cbn [ofiles app] in H2. rewrite <- H2 in Hk. apply elem_of_app in Hk as [?|?]; apply elem_of_app; tauto.
  - rewrite put_nothing by done. apply elem_of_app. by right.
Qed.
Lemma rename_after from to t t' : os_rename mount from to t = inr t' → from ≠ [] → to ≠ [] → from ≠ to → wf t →
  wf t' ∧ at_path from t' = None ∧ (∀ q, ¬ from `prefix_of` q → ¬ to `prefix_of` q → shape_at q t' = shape_at q t).
Proof.
  intros H Hf Hto Hne Hw. apply rename_inv in H as (x & Hx & Ha & Hd & -> & _); [|done..]. pose proof (at_wf _ _ _ Hw Hx) as Hxw.
  assert (Hw1 : wf (put from None t)) by by apply put_wf. split; [apply put_wf; [done|by intros ? [= <-]]|]. split; [rewrite at_put_apart; [by apply at_put_none|by destruct Ha; split]|].
  intros q H1 H2. by rewrite !shape_put.
Qed.

(** ** Copies *)

(** [t'] is [t] but for what is below [to]. *)
Record grown (to : path) (t t' : node) : Prop := {
  gr_wf : wf t → wf t';
  gr_at : ∀ q, apart to q → at_path q t' = at_path q t;
  gr_shape : ∀ q, ¬ to `prefix_of` q → shape_at q t' = shape_at q t }.
Lemma grown_refl to t : grown to t t.
Proof. by split. Qed.
Lemma grown_trans to t1 t2 t3 : grown to t1 t2 → grown to t2 t3 → grown to t1 t3.
Proof. intros [A1 A2 A3] [B1 B2 B3]. split; [auto|intros q Hq; by rewrite B2, A2|intros q Hq; by rewrite B3, A3]. Qed.
Lemma grown_below to k t t' : grown (to ++ [k]) t t' → grown to t t'.
Proof.
  assert (Hp : to `prefix_of` to ++ [k]) by by apply prefix_app_r. intros [A1 A2 A3]. split; [done| |].
  - intros q [H1 H2]. apply A2. split; intros H; [apply H1; by etrans|]. destruct (prefix_weak_total q to (to ++ [k]) H Hp); done.
  - intros q H. apply A3. intros Hq. apply H. by etrans.
Qed.
Lemma grown_put to p x t : to `prefix_of` p → (∀ y, x = Some y → wf y) → grown to t (put p x t).
Proof.
  intros Hp Hx. split; [intros Hw; by apply put_wf| |].
  - intros q [H1 H2]. apply at_put_apart. split; intros H; [apply H1; by etrans|]. destruct (prefix_weak_total q to p H Hp); done.
  - intros q H. apply shape_put. intros Hq. apply H. by etrans.
Qed.

Lemma shape_some q t x : at_path q t = Some x → shape_at q t = shape_of (Some x).
Proof. unfold shape_at. by intros ->. Qed.
(** Missing directories: nothing is lost, and only places that were free are filled. *)
Lemma make_dirs_spec : ∀ rest done k t t', make_dirs done rest k t = inr t' →
  (kept t → kept t') ∧ (wf t → wf t') ∧ ∀ q, shape_at q t' = shape_at q t ∨ (shape_at q t = Nothing ∧ shape_at q t' = ADir ∧ q `prefix_of` done ++ rest).
Proof.
  induction rest as [|n rest IH]; intros dn k t t' H; cbn [make_dirs] in H; [injection H as <-; split_and!; try done; by left|].
  assert (Happ : dn ++ n :: rest = (dn ++ [n]) ++ rest) by by rewrite <- app_assoc. rewrite Happ.
  destruct (at_path (dn ++ [n]) t) as [x|] eqn:Hx.
  - destruct x as [b| |l]; [done..|]. by apply IH in H.
  - destruct k as [|k]; [injection H as <-; split_and!; try done; by left|]. apply IH in H as (H1 & H2 & H3). set (p := dn ++ [n]) in *.
    assert (Hp : p ≠ []) by (unfold p; by destruct dn). split; [intros Hk; apply H1, put_new; [done| |done]; by rewrite Hx|]. split; [intros Hw; apply H2, put_wf; [done|]; intros y [= <-]; exact wf_empty|].
    intros q. destruct (H3 q) as [Hq|(Hq1 & Hq2 & Hq3)].
    + destruct (decide (p `prefix_of` q)) as [Hpq|Hpq]; [|left; rewrite Hq; by apply shape_put].
      assert (Hno : shape_at q t = Nothing).
      { unfold shape_at. destruct (at_path q t) eqn:Hat; [|done]. assert (Hs : is_Some (at_path p t)) by (eapply exists_prefix; [exact Hpq|by rewrite Hat]). rewrite Hx in Hs. by destruct Hs. }
      destruct (decide (p = q)) as [<-|Hpq2].
      * destruct (is_dir_at t (parent p)) eqn:Hd; [right; split_and!; [done| |by apply prefix_app_r]|left; by rewrite Hq, put_nothing].
        rewrite Hq. unfold shape_at. by rewrite at_put_same.
      * left. rewrite Hq, Hno. destruct Hpq as [[|k2 r] ->]; [by rewrite app_nil_r in Hpq2|]. unfold shape_at. rewrite at_app.
        destruct (is_dir_at t (parent p)) eqn:Hd; [by rewrite at_put_same|]. rewrite put_nothing by done. by rewrite Hx.
    + right. destruct (decide (p `prefix_of` q)) as [Hpq|Hpq].
      * split_and!; [|done|done]. unfold shape_at. destruct (at_path q t) eqn:Hat; [|done].
        assert (Hs : is_Some (at_path p t)) by (eapply exists_prefix; [exact Hpq|by rewrite Hat]). rewrite Hx in Hs. by destruct Hs.
      * split_and!; [by rewrite <- Hq1, shape_put|done..].
Qed.
Lemma make_dirs_there : ∀ rest done k t, is_dir_at t (done ++ rest) = true → make_dirs done rest k t = inr t.
Proof.
  induction rest as [|n rest IH]; intros dn k t H; [done|]. cbn [make_dirs].
  assert (Happ : dn ++ n :: rest = (dn ++ [n]) ++ rest) by by rewrite <- app_assoc. rewrite Happ in H. pose proof H as H0. unfold is_dir_at in H0. rewrite at_app in H0.
  destruct (at_path (dn ++ [n]) t) as [[b| |l]|] eqn:Hx; [by destruct rest..| |done]. by apply IH.
Qed.
(** One new directory, below one that is there. *)
Lemma make_dirs_one : ∀ rest done k t, rest ≠ [] → is_dir_at t (done ++ parent rest) = true → at_path (done ++ rest) t = None →
  make_dirs done rest k t = inr (match k with O => t | S _ => put (done ++ rest) (Some (NDir [])) t end).
Proof.
  induction rest as [|n rest IH]; intros dn k t Hr Hd Hn; [done|]. cbn [make_dirs]. destruct (decide (rest = [])) as [->|Hrest].
  - rewrite Hn. destruct k; done.
  - rewrite parent_cons in Hd by done. assert (Happ : ∀ r, dn ++ n :: r = (dn ++ [n]) ++ r) by (intros; by rewrite <- app_assoc). rewrite (Happ (parent rest)) in Hd. rewrite (Happ rest) in Hn |- *.
    pose proof Hd as H0. unfold is_dir_at in H0. rewrite at_app in H0. destruct (at_path (dn ++ [n]) t) as [[b| |l]|] eqn:Hx; [by destruct (parent rest)..| |done]. by apply IH.
Qed.

(** The place of a new copy. *)
Definition place (to : path) (t : node) : Prop := to ≠ [] ∧ at_path to t = None ∧ is_dir_at t (parent to) = true.
Lemma safe_create_place t0 to : place to t0 → wf t0 → kept t0 →
  safe (λ t, t = t0) (create_dir_all to) (λ _ t, kept t ∧ grown to t0 t ∧ at_path to t = Some (NDir [])).
Proof.
  intros (Hto & Hn & Hd) Hw Hk. assert (Hmk : ∀ k, os_create_dir_all k to t0 = inr (match k with O => t0 | S _ => put to (Some (NDir [])) t0 end)) by (intros k; by apply (make_dirs_one to [] k t0)).
  assert (Hput : kept (put to (Some (NDir [])) t0)) by (apply put_new; [done|by rewrite Hn|done]).
  unfold create_dir_all. apply safe_call.
  - by intros t ->.
  - intros t t' -> Ht. rewrite Hmk in Ht. destruct (length to) eqn:Hl; [by destruct to|]. injection Ht as <-. split; [done|]. split; [apply grown_put; [done|]; intros y [= <-]; exact wf_empty|by apply at_put_same].
  - intros t k ->. rewrite Hmk. by destruct k.
Qed.
Lemma safe_copy_file t0 from to x : at_path from t0 = Some x → place to t0 → kept t0 →
  safe (λ t, t = t0) (copy_file from to) (λ _ t, kept t ∧ grown to t0 t ∧ at_path to t = Some x ∧ ¬ shape_of (Some x) = ADir).
Proof.
  intros Hx (Hto & Hn & Hd) Hk. assert (Hput : ∀ y, kept (put to (Some y) t0)) by (intros y; apply put_new; [done|by rewrite Hn|done]). unfold copy_file. apply safe_call.
  - by intros t ->.
  - intros t t' -> Ht. unfold os_copy in Ht. rewrite Hx in Ht. destruct x as [b| |l]; [|done..]. destruct (is_dir_at t0 to); [done|]. rewrite Hd in Ht. injection Ht as <-.
    split; [apply Hput|]. split; [apply grown_put; [done|]; by intros y [= <-]|]. split; [by apply at_put_same|done].
  - intros t n ->. destruct (os_copy (Some n) from to t0) as [|t'] eqn:Ht; [done|]. unfold os_copy in Ht. rewrite Hx in Ht. destruct x as [b| |l]; [|done..]. destruct (is_dir_at t0 to); [done|].
    rewrite Hd in Ht. injection Ht as <-. apply Hput.
Qed.
Lemma safe_step {A} (m : M A) (P : node → Prop) (Q : A → node → Prop) : (∀ t, P t → safe (λ u, u = t) m Q) → safe P m Q.
Proof. intros H s Hs. exact (H _ Hs s eq_refl). Qed.
Lemma apart_child p q k : apart p q → apart (p ++ [k]) (q ++ [k]).
Proof.
  assert (H : ∀ p q : path, ¬ q `prefix_of` p → ¬ p `prefix_of` q → ¬ p ++ [k] `prefix_of` q ++ [k]).
  { intros p' q' Hq Hp [r Hr]. destruct r as [|x r _] using rev_ind; [rewrite app_nil_r in Hr; apply app_inj_tail in Hr as [-> _]; by apply Hq|].
    rewrite app_assoc in Hr. apply app_inj_tail in Hr as [-> _]. apply Hp. rewrite <- app_assoc. by apply prefix_app_r. }
  intros [H1 H2]. split; by apply H.
Qed.
Lemma apart_sibling to j k : j ≠ k → apart (to ++ [k]) (to ++ [j]).
Proof. intros H. split; intros Hp%prefix_app_inv%prefix_cons_inv_1; congruence. Qed.
Lemma at_child to k t l : at_path to t = Some (NDir l) → at_path (to ++ [k]) t = entry k l.
Proof. intros H. rewrite at_app, H. cbn. by destruct (entry k l). Qed.
(** What a copy of [x] leaves: all its files, and nothing changed elsewhere. *)
Definition copied (x : node) (to : path) (t0 t : node) : Prop := kept t ∧ grown to t0 t ∧ ∃ y, at_path to t = Some y ∧ files x ⊆ files y.
Definition copies (x : node) : Prop := ∀ from to t0, at_path from t0 = Some x → place to t0 → apart from to → wf t0 → kept t0 → safe (λ t, t = t0) (copy_dir_recursive x from to) (λ _, copied x to t0).
Definition half_copied (to : path) (t0 : node) (dn rest : list (str * node)) (t : node) : Prop :=
  kept t ∧ grown to t0 t ∧ ∃ m, at_path to t = Some (NDir m) ∧ (∀ e, e ∈ rest → entry e.1 m = None) ∧ (∀ e, e ∈ dn → ∃ z, entry e.1 m = Some z ∧ files e.2 ⊆ files z).
Lemma half_copied_next to t0 dn k y rest t t' : NoDup (fst <$> dn ++ (k, y) :: rest) → half_copied to t0 dn ((k, y) :: rest) t → copied y (to ++ [k]) t t' →
  half_copied to t0 (dn ++ [(k, y)]) rest t'.
Proof.
  intros Hnd (Hk & Hg & m & Hm & Hrest & Hdn) (Hk' & Hg' & z & Hz & Hsub). split; [done|]. split; [eapply grown_trans; [exact Hg|by eapply grown_below]|].
  rewrite fmap_app, fmap_cons in Hnd. cbn in Hnd. apply NoDup_app in Hnd as (_ & Hd1 & Hd2). apply NoDup_cons in Hd2 as [Hd2 _].
  assert (Hdir : shape_at to t' = ADir).
  { rewrite (gr_shape _ _ _ Hg'); [by rewrite (shape_some _ _ _ Hm)|]. intros Hp. apply prefix_length in Hp. rewrite length_app in Hp. cbn in Hp. lia. }
  unfold shape_at in Hdir. destruct (at_path to t') as [[b| |m']|] eqn:Hm'; [done..| |done]. exists m'. split; [done|].
  assert (Hsame : ∀ j, j ≠ k → entry j m' = entry j m).
  { intros j Hj. rewrite <- (at_child to j t' m' Hm'), <- (at_child to j t m Hm). apply (gr_at _ _ _ Hg'). by apply apart_sibling. }
  split.
  - intros e He. rewrite Hsame; [apply Hrest; by right|]. intros He'. apply Hd2. rewrite <- He'. by apply list_elem_of_fmap_2.
  - intros e [He| ->%list_elem_of_singleton]%elem_of_app.
    + rewrite Hsame; [by apply Hdn|]. intros He'. apply (Hd1 e.1); [by apply list_elem_of_fmap_2|]. rewrite He'. left.
    + exists z. split; [|done]. cbn [fst]. by rewrite <- (at_child to k t' m' Hm').
Qed.
Lemma copy_dir_copies x : copies x.
Proof.
  induction x as [b| |l IH] using node_ind'; intros from to t0 Hx Hplace Hap Hw Hk;
    (eapply safe_bind; [by apply safe_create_place|]; intros ?;
     eapply safe_bind; [apply safe_read; by intros t (? & _)|]; intros r; cbv beta;
     eapply safe_bind; [apply safe_or_throw; by intros t [(? & _) _]|]; intros es; cbv beta).
  1,2: apply safe_ret; intros t [[(_ & Hg & _) Hr] Hes]; specialize (Hr es Hes); unfold os_read_dir in Hr; rewrite (gr_at _ _ _ Hg), Hx in Hr; [done|by destruct Hap].
  pose proof (at_wf _ _ _ Hw Hx) as Hxw. apply wf_dir in Hxw as [Hnd _].
  assert (Hgo : ∀ rest dn, l = dn ++ rest → safe (half_copied to t0 dn rest) (copy_entries copy_dir_recursive from to rest) (λ _, half_copied to t0 l [])).
  { induction rest as [|[k y] rest IHr]; intros dn Hl; cbn [copy_entries]; [apply safe_ret; intros t; by rewrite Hl, app_nil_r|].
    eapply safe_bind; [apply safe_read; by intros t (? & _)|]. intros r1; cbv beta. eapply safe_bind; [apply safe_or_throw; by intros t [(? & _) _]|]. intros ?; cbv beta.
    eapply safe_bind with (Q := λ _, half_copied to t0 (dn ++ [(k, y)]) rest); [|intros _; apply IHr; by rewrite <- app_assoc].
    apply safe_step. intros t [[Hh _] _]. assert (Hwt : wf t) by (destruct Hh as (_ & Hg & _); by apply (gr_wf _ _ _ Hg)). pose proof Hh as (Hkt & Hg & m & Hm & Hrest & _).
    assert (Hfrom : at_path (from ++ [k]) t = Some y).
    { rewrite at_app, (gr_at _ _ _ Hg), Hx by (by destruct Hap). cbn. rewrite (entry_nodup k l y); [done|done|]. rewrite Hl. apply elem_of_app. right. left. }
    assert (Hpl : place (to ++ [k]) t).
    { split; [intros H; by apply app_nil in H as [_ H]|]. split; [rewrite (at_child _ _ _ _ Hm); apply (Hrest (k, y)); left|]. unfold parent. rewrite removelast_last. unfold is_dir_at. by rewrite Hm. }
    assert (Hnext : ∀ t', copied y (to ++ [k]) t t' → half_copied to t0 (dn ++ [(k, y)]) rest t') by (intros t' Hc; eapply half_copied_next; [by rewrite <- Hl|done|done]).
    assert (Hone : safe (λ u, u = t) (copy_file (from ++ [k]) (to ++ [k])) (λ _, half_copied to t0 (dn ++ [(k, y)]) rest)).
    { eapply safe_weaken; [by apply (safe_copy_file t _ _ y)|done|]. intros u t' (? & ? & ? & _). apply Hnext. split; [done|]. split; [done|]. by exists y. }
    destruct y as [b| |l']; [exact Hone|exact Hone|].
    apply safe_weaken with (P' := λ u, u = t) (Q' := λ _, copied (NDir l') (to ++ [k]) t); [|done|intros u; apply Hnext]. rewrite Forall_forall in IH. apply (IH (k, NDir l')); [rewrite Hl; apply elem_of_app; right; left|done|done|by apply apart_child|done|done]. }
  eapply safe_weaken; [by apply (Hgo l [])|..].
  - intros t [[(? & Hg & Hm) _] _]. split; [done|]. split; [done|]. exists []. split; [done|]. split; [done|]. intros e He. by apply elem_of_nil in He.
  - intros u t (Hkt & Hg & m & Hm & _ & Hall). split; [done|]. split; [done|]. exists (NDir m). split; [done|]. intros b Hb. cbn in Hb |- *.
    apply list_elem_of_In, in_flat_map in Hb as (e & He & Hb). apply list_elem_of_In in He, Hb. destruct (Hall e He) as (z & Hz & Hsub).
    apply list_elem_of_In, in_flat_map. exists (e.1, z). split; apply list_elem_of_In; [by apply entry_elem|by apply Hsub].
Qed.

(** ** Moves *)

(** [from] is gone, and the shape of what is neither below it nor below a path of [tos] is the same. *)
Definition gone (from : path) (tos : list path) (t0 t : node) : Prop :=
  kept t ∧ wf t ∧ at_path from t = None ∧ ∀ q, ¬ from `prefix_of` q → (∀ to, to ∈ tos → ¬ to `prefix_of` q) → shape_at q t = shape_at q t0.
(** Every file at [from] is also below [to]. *)
Definition spare (from to : path) (t : node) : Prop := kept t ∧ wf t ∧ ∃ x y, at_path from t = Some x ∧ at_path to t = Some y ∧ files x ⊆ files y.
Lemma spare_put from to t x : from ≠ [] → apart from to → spare from to t → kept (put from x t).
Proof. intros Hf Ha (Hk & _ & y & z & Hy & Hz & Hsub). by eapply put_spare. Qed.
Lemma gone_put from t : from ≠ [] → wf t → kept (put from None t) → gone from [] t (put from None t).
Proof. intros Hf Hw Hk. split; [done|]. split; [by apply put_wf|]. split; [by apply at_put_none|]. intros q Hq _. by apply shape_put. Qed.
Lemma remove_op_spare from to t0 op dies : from ≠ [] → apart from to → spare from to t0 →
  (∀ t', op t0 = inr t' → t' = put from None t0) → (∀ k, dies k t0 = t0 ∨ ∃ x, dies k t0 = put from x t0) →
  safe (λ t, t = t0) (bind (attempt op dies) (or_throw from)) (λ _, gone from [] t0).
Proof.
  intros Hf Ha Hs Hop Hdies. pose proof Hs as (Hk & Hw & _). apply safe_call; [by intros t ->| |].
  - intros t t' -> ->%Hop. apply gone_put; [done|done|]. by eapply spare_put.
  - intros t k ->. destruct (Hdies k) as [->|[x ->]]; [done|]. by eapply spare_put.
Qed.
Lemma done_or_not op k (t0 : node) : all_or_nothing op k t0 = t0 ∨ ∃ t', op t0 = inr t' ∧ all_or_nothing op k t0 = t'.
Proof. unfold all_or_nothing. destruct k; [by left|]. destruct (op t0) as [|t'] eqn:H; [by left|]. right. by exists t'. Qed.
Lemma remove_dir_spare from to t0 : from ≠ [] → apart from to → spare from to t0 → safe (λ t, t = t0) (bind (remove_dir_all from) (or_throw from)) (λ _, gone from [] t0).
Proof.
  intros Hf Ha Hs. eapply remove_op_spare; [done..| |].
  - intros t'. unfold os_remove_dir_all. destruct (at_path from t0) as [[]|]; [done|done| |done]. by intros [= <-].
  - intros k. unfold partly_removed. destruct (at_path from t0) as [[| |l]|]; [by left..| |by left]. right. by eexists.
Qed.
Lemma remove_file_spare from to t0 : from ≠ [] → apart from to → spare from to t0 → safe (λ t, t = t0) (bind (remove_file from) (or_throw from)) (λ _, gone from [] t0).
Proof.
  intros Hf Ha Hs. assert (Hop : ∀ t', os_remove_file from t0 = inr t' → t' = put from None t0).
  { intros t'. unfold os_remove_file. destruct (at_path from t0) as [[]|]; [| |done|done]; by intros [= <-]. }
  eapply remove_op_spare; [done..|]. intros k. destruct (done_or_not (os_remove_file from) k t0) as [->|(t' & Ht & ->)]; [by left|]. right. exists None. by apply Hop.
Qed.
Lemma copied_spare from to x t0 t : at_path from t0 = Some x → apart from to → wf t0 → copied x to t0 t → spare from to t.
Proof.
  intros Hx Ha Hw (Hk & Hg & y & Hy & Hsub). split; [done|]. split; [by apply (gr_wf _ _ _ Hg)|]. exists x, y. split; [|done]. rewrite (gr_at _ _ _ Hg); [done|by destruct Ha].
Qed.
Lemma gone_grown from to t0 t1 t : grown to t0 t1 → gone from [] t1 t → gone from [to] t0 t.
Proof.
  intros Hg (Hk & Hw & Hn & Hs). split; [done|]. split; [done|]. split; [done|]. intros q H1 H2. rewrite Hs; [|done|intros x Hx; by apply elem_of_nil in Hx].
  apply (gr_shape _ _ _ Hg). apply H2. left.
Qed.
Lemma safe_cross from to x t0 : from ≠ [] → at_path from t0 = Some x → place to t0 → apart from to → wf t0 → kept t0 →
  safe (λ t, t = t0) (copy_and_remove_cross_device from to) (λ _, gone from [to] t0).
Proof.
  intros Hf Hx Hp Ha Hw Hk. unfold copy_and_remove_cross_device. eapply safe_bind; [apply safe_read; by intros t ->|]. intros r; cbv beta.
  eapply safe_bind; [apply safe_or_throw; by intros t [-> _]|]. intros x'; cbv beta.
  apply safe_weaken with (P' := λ t, t = t0 ∧ x' = x) (Q' := λ _, gone from [to] t0); [|intros t [[-> Hr] Hr']; specialize (Hr _ Hr'); rewrite Hx in Hr; by injection Hr as ->|done].
  apply safe_step. intros t [-> ->].
  assert (Hrest : ∀ m : M unit, (∀ t1, spare from to t1 → safe (λ t, t = t1) m (λ _, gone from [] t1)) → ∀ t1, copied x to t0 t1 → safe (λ t, t = t1) m (λ _, gone from [to] t0)).
  { intros m Hm t1 Hc. eapply safe_weaken; [apply Hm; by eapply copied_spare|done|]. intros ? t Hg. eapply gone_grown; [apply Hc|done]. }
  assert (Hfile : safe (λ t, t = t0) (create_dir_all (parent to) ;;; copy_file from to ;;; bind (remove_file from) (or_throw from)) (λ _, gone from [to] t0)).
  { destruct Hp as (Hp1 & Hp2 & Hp3). assert (Hmk : ∀ k, os_create_dir_all k (parent to) t0 = inr t0) by (intros k; by apply make_dirs_there).
    eapply safe_bind with (Q := λ _ t, t = t0).
    { unfold create_dir_all. apply safe_call; [by intros t ->|intros t t' ->; rewrite Hmk; by intros [= <-]|intros t k ->; by rewrite Hmk]. }
    intros ?. eapply safe_bind; [by apply (safe_copy_file t0 _ _ x)|]. intros ?; cbv beta. apply safe_step. intros t1 (Hk1 & Hg1 & Hy1 & _).
    apply Hrest; [intros t2 Hs2; by apply remove_file_spare with (to := to)|]. split; [done|]. split; [done|]. by exists x. }
  destruct x as [b| |l]; [exact Hfile|exact Hfile|].
  eapply safe_bind; [by apply copy_dir_copies|]. intros ?; cbv beta. apply safe_step. intros t1 Hc. apply Hrest; [|done]. intros t2 Hs2. by apply remove_dir_spare with (to := to).
Qed.
Lemma safe_move from to t0 : from ≠ [] → to ≠ [] → ¬ from `prefix_of` to → (is_Some (at_path from t0) → at_path to t0 = None) → wf t0 → kept t0 →
  safe (λ t, t = t0) (move_path mount from to) (λ _, gone from [to] t0).
Proof.
  intros Hf Hto Hnp Hfree Hw Hk. assert (Hne : from ≠ to) by by intros ->.
  assert (Hok : ∀ t', os_rename mount from to t0 = inr t' → kept t').
  { intros t' Ht. eapply renamed_file_kept; [exact Ht|done|done| |done]. left. apply Hfree. apply rename_inv in Ht as (x & -> & _); [by eexists|done..]. }
  unfold move_path. eapply safe_bind with (Q := λ r t, match r with inl CrossesDevices => t = t0 ∧ os_rename mount from to t0 = inl CrossesDevices | inl _ => kept t | inr _ => gone from [to] t0 t end).
  { unfold rename. apply safe_attempt.
    - intros t e -> [->|He]; [done|]. destruct e; done.
    - intros t t' -> Ht. split; [by apply Hok|]. destruct (rename_after from to t0 t' Ht Hf Hto Hne Hw) as (? & ? & Hs). split; [done|]. split; [done|].
      intros q H1 H2. apply Hs; [done|]. apply H2. left.
    - intros t k ->. apply kept_done; [done|]. exact Hok. }
  intros r. eapply safe_bind with (Q := λ _, gone from [to] t0); [|intros ?; apply safe_emit]. destruct r as [e|[]]; [|by apply safe_ret].
  destruct e; try by apply safe_throw. apply safe_step. intros t [-> He]. unfold os_rename in He. destruct (at_path from t0) as [x|] eqn:Hx; [|done].
  destruct (is_dir_at t0 (parent to)) eqn:Hd; cbn in He; [|done]. apply (safe_cross from to x); [done|done| | |done|done].
  - split; [done|]. split; [by apply Hfree|done].
  - split; [done|]. intros Hp. apply (exists_prefix _ _ t0) in Hp; [|by rewrite Hx]. rewrite Hfree in Hp by done. by destruct Hp.
Qed.
End run.

(** ** The whole migration *)

Lemma make_dirs_made : ∀ rest done k t t', (length rest ≤ k)%nat → make_dirs done rest k t = inr t' → is_dir_at t done = true → is_dir_at t' (done ++ rest) = true.
Proof.
  induction rest as [|n rest IH]; intros dn k t t' Hk H Hd; cbn [make_dirs] in H; [injection H as <-; by rewrite app_nil_r|]. cbn in Hk.
  replace (dn ++ n :: rest) with ((dn ++ [n]) ++ rest) by by rewrite <- app_assoc. destruct (at_path (dn ++ [n]) t) as [x|] eqn:Hx.
  - destruct x as [b| |l]; [done..|]. eapply IH; [|exact H|]; [lia|]. unfold is_dir_at. by rewrite Hx.
  - destruct k as [|k]; [lia|]. eapply IH; [|exact H|]; [lia|]. unfold is_dir_at. rewrite at_put_same; [done|by destruct dn|]. unfold parent. by rewrite removelast_last.
Qed.
Lemma apart_below p x r : apart p x → ¬ p `prefix_of` x ++ r.
Proof. intros [H1 H2] H. destruct (prefix_weak_total p x (x ++ r) H) as [|]; [by apply prefix_app_r|done..]. Qed.
Lemma apart_ext p q r r' : apart p q → apart (p ++ r) (q ++ r').
Proof.
  intros [H1 H2]. split; intros H.
  - destruct (prefix_weak_total p q (q ++ r')) as [|]; [etrans; [|exact H]; by apply prefix_app_r|by apply prefix_app_r|done..].
  - destruct (prefix_weak_total p q (p ++ r)) as [|]; [by apply prefix_app_r|etrans; [|exact H]; by apply prefix_app_r|done..].
Qed.
Lemma prefix_len {A} (p q : list A) : (length q < length p)%nat → ¬ p `prefix_of` q.
Proof. intros H Hp%prefix_length. lia. Qed.
Lemma prefix_two (w : path) a b (p q : path) : (w ++ [a]) ++ p `prefix_of` (w ++ [b]) ++ q → a = b ∧ p `prefix_of` q.
Proof.
  rewrite <- !app_assoc. intros H%prefix_app_inv. cbn in H. split; [by eapply prefix_cons_inv_1|by eapply prefix_cons_inv_2].
Qed.
Lemma same_tree_files a : ∀ b, same_tree_contents a b = true → files a ⊆ files b.
Proof.
  induction a as [x| |l IH] using node_ind'; intros b H.
  - destruct b; cbn in H; [|done..]. apply bool_decide_eq_true in H as ->. done.
  - intros y Hy. by apply elem_of_nil in Hy.
  - destruct b as [| |l']; [done..|]. cbn [same_tree_contents] in H. apply andb_true_iff in H as [_ H].
    set (go := fix go m := match m with [] => true | _ => _ end) in H.
    assert (Hgo : ∀ m, go m = true → ∀ e, e ∈ m → ∃ y, entry e.1 l' = Some y ∧ same_tree_contents e.2 y = true).
    { induction m as [|[k x] m IHm]; intros Hm e He; [by apply elem_of_nil in He|]. cbn in Hm. apply andb_true_iff in Hm as [Hx Hm]. apply elem_of_cons in He as [->|He]; [|by apply IHm].
      destruct (entry k l') as [y|] eqn:Hy; [|done]. by exists y. }
    intros c Hc. cbn in Hc |- *. apply list_elem_of_In, in_flat_map in Hc as (e & He & Hc). apply list_elem_of_In in He, Hc. destruct (Hgo l H e He) as (y & Hy & Hsame).
    rewrite Forall_forall in IH. apply list_elem_of_In, in_flat_map. exists (e.1, y). split; apply list_elem_of_In; [by apply entry_elem|]. by apply (IH e He y Hsame).
Qed.

Section whole.
Context (mount : path → N) (db_open : node → option str) (F : list bytes) (ws W : path).
Local Notation L := (ws ++ [ #".graphiti"]).
Local Notation N := (ws ++ [ #".lcg"]).
Local Notation DB := (N ++ [ #"db"]).
Local Notation U := (N ++ [ #"_unrecognized"]).
Local Notation kept := (kept F).
Local Notation safe := (safe F).
Local Notation gone := (gone F).
Hypothesis W_legacy : apart W L.
Hypothesis W_unrecognized : apart W U.

(** Before step 1, and after it. *)
Record ready (t : node) : Prop := {
  rd_kept : kept t; rd_wf : wf t; rd_legacy : shape_at L t = ADir;
  rd_sock : shape_at (L ++ [ #"service.sock"]) t ≠ AFile;
  rd_clear : ∀ n, n ∉ RECOGNIZED → shape_at (L ++ [n]) t = Nothing ∨ shape_at (U ++ [n]) t = Nothing }.
Definition going (t : node) : Prop := ready t ∧ shape_at DB t = ADir.
(** The paths whose shape matters. *)
Definition watched (q : path) : Prop := (∃ n, n ∉ RECOGNIZED ∧ (q = L ++ [n] ∨ q = U ++ [n])) ∨ q = L ++ [ #"service.sock"] ∨ q = DB ∨ q = L.
Lemma going_kept t : going t → kept t.
Proof. by intros [[] _]. Qed.
Lemma going_same t t' : going t → kept t' → wf t' → (∀ q, watched q → shape_at q t' = shape_at q t) → going t'.
Proof.
  intros [[_ _ H1 H2 H3] H4] Hk Hw Hs. split; [split; [done|done| | |]|].
  - rewrite Hs; [done|]. unfold watched. tauto.
  - rewrite Hs; [done|]. unfold watched. tauto.
  - intros n Hn. rewrite !Hs; [by apply H3|left; exists n; tauto..].
  - rewrite Hs; [done|]. unfold watched. tauto.
Qed.
Lemma going_gone from tos t t' : going t → gone from tos t t' → (∀ q, watched q → ¬ from `prefix_of` q ∧ ∀ to, to ∈ tos → ¬ to `prefix_of` q) → going t'.
Proof. intros Hg (Hk & Hw & _ & Hs) Hq. apply (going_same t); [done..|]. intros q Hwq. destruct (Hq q Hwq). by apply Hs. Qed.

Lemma neq_graphiti_lcg : #".graphiti" ≠ #".lcg".
Proof. by vm_compute. Qed.
Lemma unwatched_legacy m r q : m ∈ RECOGNIZED → m ≠ #"service.sock" → watched q → ¬ L ++ m :: r `prefix_of` q.
Proof.
  intros Hm Hs [(n & Hn & [->| ->])|[->|[->| ->]]].
  - intros [_ Hp]%prefix_two. apply prefix_cons_inv_1 in Hp. congruence.
  - rewrite <- (app_assoc N). intros [Ha _]%prefix_two. by apply neq_graphiti_lcg.
  - intros [_ Hp]%prefix_two. apply prefix_cons_inv_1 in Hp. congruence.
  - intros [Ha _]%prefix_two. by apply neq_graphiti_lcg.
  - apply prefix_len. rewrite !length_app. cbn. lia.
Qed.
Lemma unwatched_new k r q : k ≠ #"_unrecognized" → (k = #"db" → r ≠ []) → watched q → ¬ N ++ k :: r `prefix_of` q.
Proof.
  intros Hk Hdb [(n & Hn & [->| ->])|[->|[->| ->]]].
  - intros [Ha _]%prefix_two. by apply neq_graphiti_lcg.
  - rewrite <- (app_assoc N). intros [_ Hp]%prefix_two. by apply prefix_cons_inv_1 in Hp.
  - intros [Ha _]%prefix_two. by apply neq_graphiti_lcg.
  - intros [_ Hp]%prefix_two. pose proof (prefix_cons_inv_1 _ _ _ _ Hp) as ->. apply prefix_cons_inv_2 in Hp. apply prefix_nil_inv in Hp. by apply Hdb.
  - rewrite <- (app_nil_r L). intros [Ha _]%prefix_two. by apply neq_graphiti_lcg.
Qed.
Lemma unwatched_wal t q : going t → at_path W t = None → watched q → ¬ W `prefix_of` q.
Proof.
  intros [_ Hdb] Hw [(n & Hn & [->| ->])|[->|[->| ->]]]; [by apply apart_below..| |by destruct W_legacy].
  intros Hp. unfold shape_at in Hdb. apply (exists_prefix _ _ t) in Hp; [rewrite Hw in Hp; by destruct Hp|]. by destruct (at_path DB t).
Qed.
Lemma unwatched_wal_entry n q : watched q → ¬ W ++ [n] `prefix_of` q.
Proof.
  intros Hq Hp. assert (Hpre : W `prefix_of` q) by (etrans; [|exact Hp]; by apply prefix_app_r). revert Hpre.
  destruct Hq as [(m & Hn & [->| ->])|[->|[->| ->]]]; [by apply apart_below..| |by destruct W_legacy]. intros _.
  destruct Hp as [r Hr]. apply (proj1 W_unrecognized). destruct r as [|x r _] using rev_ind.
  - rewrite app_nil_r in Hr. apply app_inj_tail in Hr as [<- _]. by apply prefix_app_r.
  - rewrite app_assoc in Hr. apply app_inj_tail in Hr as [-> _]. rewrite <- !app_assoc. by apply prefix_app_r.
Qed.

(** The steps. *)
Lemma step_move from to : from ≠ [] → to ≠ [] → ¬ from `prefix_of` to →
  (∀ t, going t → (is_Some (at_path from t) → at_path to t = None) ∧ ∀ q, watched q → ¬ from `prefix_of` q ∧ ¬ to `prefix_of` q) → ∀ t0, going t0 →
  safe (λ t, t = t0) (move_path mount from to) (λ _, going).
Proof.
  intros Hf Hto Hnp H t0 Hg. destruct (H t0 Hg) as [Hfree Hq]. eapply safe_weaken; [exact (safe_move mount F from to t0 Hf Hto Hnp Hfree (rd_wf _ (proj1 Hg)) (going_kept _ Hg))|done|].
  intros ? t' Hgone. eapply going_gone; [exact Hg|exact Hgone|]. intros q Hwq. destruct (Hq q Hwq). split; [done|]. by intros x ->%list_elem_of_singleton.
Qed.
Lemma app_not_nil (p : path) k r : p ++ k :: r ≠ [].
Proof. by destruct p. Qed.
Lemma safe_if_free from to P (Q : unit → node → Prop) :
  (∀ t, P t → Q tt t) → (∀ t0, P t0 → at_path to t0 = None → safe (λ t, t = t0) (move_path mount from to) Q) → safe P (move_if_free mount from to) Q.
Proof.
  intros H1 H2. unfold move_if_free. apply safe_step. intros t0 Ht0. eapply safe_bind; [apply safe_get|]. intros t. destruct (_ && _) eqn:He.
  - apply andb_true_iff in He as [_ He]. unfold exists_at in He. apply negb_true_iff, bool_decide_eq_false in He. apply safe_step. intros t1 [-> ->]. apply H2; [done|].
    destruct (at_path to t0); [destruct He; by eexists|done].
  - apply safe_ret. by intros t1 [-> ->]; apply H1.
Qed.
(** Steps 2, 3, 5 and 6: from below the legacy directory to a free place below the new one. *)
Lemma legacy_to_new m k r t0 : m ∈ RECOGNIZED → m ≠ #"service.sock" → k ≠ #"_unrecognized" → (k = #"db" → r ≠ []) → going t0 → at_path (N ++ k :: r) t0 = None →
  safe (λ t, t = t0) (move_path mount (L ++ [m]) (N ++ k :: r)) (λ _, going).
Proof.
  intros Hm Hs Hk Hr Hg Hfree. apply safe_weaken with (P' := λ t, t = t0) (Q' := λ _, gone (L ++ [m]) [N ++ k :: r] t0); [apply safe_move|done|].
  - apply app_not_nil.
  - apply app_not_nil.
  - intros [Ha _]%prefix_two. by apply neq_graphiti_lcg.
  - done.
  - exact (rd_wf _ (proj1 Hg)).
  - exact (going_kept _ Hg).
  - intros ? t' Hgone. eapply going_gone; [exact Hg|exact Hgone|]. intros q Hwq. split; [by apply unwatched_legacy|]. intros x ->%list_elem_of_singleton. by apply unwatched_new.
Qed.
Lemma safe_dirs p (P Q : node → Prop) : (∀ t, P t → kept t) →
  (∀ t t', P t → os_create_dir_all (length p) p t = inr t' → kept t' → (wf t → wf t') →
     (∀ q, shape_at q t' = shape_at q t ∨ (shape_at q t = Nothing ∧ shape_at q t' = ADir ∧ q `prefix_of` p)) → Q t') → safe P (create_dir_all p) (λ _, Q).
Proof.
  intros Hk H. unfold create_dir_all. apply safe_call; [done| |].
  - intros t t' Ht Hm. pose proof Hm as Hm'. unfold os_create_dir_all in Hm'. apply make_dirs_spec with (F := F) in Hm' as (H1 & H2 & H3). apply (H t t'); auto.
  - intros t k Ht. destruct (os_create_dir_all k p t) as [|t'] eqn:Hm; [by apply Hk|]. unfold os_create_dir_all in Hm. apply make_dirs_spec with (F := F) in Hm as (H1 & _). by apply H1, Hk.
Qed.
Lemma ready_dirs p t t' : ready t → (∀ n, ¬ L ++ [n] `prefix_of` p ∧ ¬ U ++ [n] `prefix_of` p) → kept t' → (wf t → wf t') →
  (∀ q, shape_at q t' = shape_at q t ∨ (shape_at q t = Nothing ∧ shape_at q t' = ADir ∧ q `prefix_of` p)) → ready t'.
Proof.
  intros [_ H1 H2 H3 H4] Hp Hk Hw Hs. split; [done|by apply Hw| | |].
  - destruct (Hs L) as [->|(Hn & _)]; congruence.
  - destruct (Hs (L ++ [ #"service.sock"])) as [->|(_ & -> & _)]; done.
  - intros n Hn. destruct (Hs (L ++ [n])) as [->|(_ & _ & Hq)]; [|by destruct (Hp n)]. destruct (Hs (U ++ [n])) as [->|(_ & _ & Hq)]; [|by destruct (Hp n)]. by apply H4.
Qed.
Lemma step_db_dir t0 : ready t0 → shape_at DB t0 = Nothing → safe (λ t, t = t0) (create_dir_all DB) (λ _, going).
Proof.
  intros Hr Hn. apply safe_dirs; [intros t ->; apply Hr|]. intros t t' -> Hm Hk Hw Hs. split.
  - eapply ready_dirs; [exact Hr| |done|done|exact Hs]. intros n. split; [intros [Ha _]%prefix_two; by apply neq_graphiti_lcg|]. apply prefix_len. rewrite !length_app. cbn. lia.
  - apply is_dir_shape. apply (make_dirs_made DB [] (length DB) t0); [done|done|]. pose proof (rd_legacy _ Hr) as Hl. unfold is_dir_at. cbn. destruct t0 as [b| |l]; [by destruct ws..|done].
Qed.
Lemma going_dirs p t0 : going t0 → (∀ n, ¬ L ++ [n] `prefix_of` p ∧ ¬ U ++ [n] `prefix_of` p) → safe (λ t, t = t0) (create_dir_all p) (λ _, going).
Proof.
  intros [Hr Hdb] Hp. apply safe_dirs; [intros t ->; apply Hr|]. intros t t' -> Hm Hk Hw Hs. split; [by eapply ready_dirs|]. destruct (Hs DB) as [->|(Hn & _)]; congruence.
Qed.

(** Step 4. *)
Local Notation LW := (L ++ [ #"wal"]).
Lemma wal_recognized : #"wal" ∈ RECOGNIZED ∧ #"wal" ≠ #"service.sock".
Proof. split; [apply (bool_decide_unpack _); by vm_compute|by vm_compute]. Qed.
Lemma wal_apart r r' : apart (LW ++ r) (W ++ r').
Proof. rewrite <- app_assoc. apply apart_ext. by destruct W_legacy. Qed.
Lemma unwatched_lw r q : watched q → ¬ LW ++ r `prefix_of` q.
Proof. rewrite <- app_assoc. destruct wal_recognized. by apply unwatched_legacy. Qed.
Lemma step_merge_entry name : safe going (merge_entry mount LW W name) (λ _, going).
Proof.
  unfold merge_entry. set (src := LW ++ [name]). set (dest := W ++ [name]). assert (Hap : apart src dest) by apply wal_apart. assert (Hsrc : src ≠ []) by apply app_not_nil.
  apply safe_step. intros t0 Hg. eapply safe_bind; [apply safe_get|]. intros t. cbv beta. destruct (exists_at t dest) eqn:He.
  - eapply safe_bind; [apply safe_read; intros u [-> ->]; by apply going_kept|]. intros r; cbv beta.
    eapply safe_bind; [apply safe_or_throw; intros u [[-> ->] _]; by apply going_kept|]. intros same; cbv beta. destruct same.
    + apply safe_step. intros u [[[-> ->] Hr] Hr']. specialize (Hr _ Hr'). cbv beta in Hr. destruct (at_path src t0) as [a|] eqn:Ha; [|done]. destruct (at_path dest t0) as [b|] eqn:Hb; [|done].
      injection Hr as Hr. assert (Hsp : spare F src dest t0) by (split; [by apply going_kept|]; split; [exact (rd_wf _ (proj1 Hg))|]; exists a, b; split_and!; [done|done|by apply same_tree_files]).
      eapply safe_bind; [apply safe_get|]. intros t1. cbv beta. apply safe_step. intros t2 [-> ->].
      assert (Hgone : ∀ t', gone src [] t0 t' → going t').
      { intros t' Hgo. eapply going_gone; [exact Hg|exact Hgo|]. intros q Hq. split; [by apply unwatched_lw|]. intros x Hx. by apply elem_of_nil in Hx. }
      destruct (is_dir_at t0 src); (apply safe_weaken with (P' := λ u, u = t0) (Q' := λ _, gone src [] t0); [|done|intros ?; apply Hgone]); [exact (remove_dir_spare F src dest t0 Hsrc Hap Hsp)|exact (remove_file_spare F src dest t0 Hsrc Hap Hsp)].
    + eapply safe_weaken; [apply safe_emit with (P := going)| |done]. by intros u [[[-> ->] _] _].
  - apply safe_step. intros t1 [-> ->]. eapply safe_weaken; [apply (safe_move mount F src dest t0)|done|].
    + apply app_not_nil.
    + apply app_not_nil.
    + by destruct Hap.
    + intros _. unfold exists_at in He. apply bool_decide_eq_false in He. destruct (at_path dest t0); [destruct He; by eexists|done].
    + exact (rd_wf _ (proj1 Hg)).
    + by apply going_kept.
    + intros ? t' Hgo. eapply going_gone; [exact Hg|exact Hgo|]. intros q Hq. split; [by apply unwatched_lw|]. intros x ->%list_elem_of_singleton. by apply unwatched_wal_entry.
Qed.
(** An empty directory that goes takes nothing with it. *)
Lemma remove_dir_gone p t0 t' : p ≠ [] → kept t0 → wf t0 → os_remove_dir p t0 = inr t' → gone p [] t0 t'.
Proof.
  intros Hp Hk Hw. unfold os_remove_dir. destruct (at_path p t0) as [[b| |[|e l]]|] eqn:Hat; [done|done| |done|done]. intros [= <-]. apply gone_put; [done|done|].
  apply put_new; [done| |done]. by rewrite Hat.
Qed.
Lemma step_merge : safe going (merge_wal_dir_into_root mount LW W) (λ _, going).
Proof.
  unfold merge_wal_dir_into_root. eapply safe_bind; [apply safe_read, going_kept|]. intros r; cbv beta. eapply safe_bind; [apply safe_or_throw; by intros t [?%going_kept _]|]. intros es; cbv beta.
  apply safe_bind with (Q := λ _, going).
  { eapply safe_weaken; [apply (safe_each F (fst <$> es) (merge_entry mount LW W) (λ _, going)); intros n rest; apply step_merge_entry|by intros t [[? _] _]|done]. }
  intros ?. unfold remove_dir. apply safe_bind with (Q := λ _, going).
  - apply safe_step. intros t0 Hg. apply safe_attempt.
    + by intros t e ->.
    + intros t t' -> Ht. eapply going_gone; [exact Hg|eapply remove_dir_gone; [apply app_not_nil|by apply going_kept|exact (rd_wf _ (proj1 Hg))|exact Ht]|].
      intros q Hq. split; [pose proof (unwatched_lw [] q Hq) as Hu; by rewrite app_nil_r in Hu|]. intros x Hx. by apply elem_of_nil in Hx.
    + intros t k ->. apply kept_done; [by apply going_kept|]. intros t' Ht. eapply remove_dir_gone; [apply app_not_nil|by apply going_kept|exact (rd_wf _ (proj1 Hg))|exact Ht].
  - intros [e|[]]; [|by apply safe_ret]. destruct e; try (apply safe_throw; apply going_kept). by apply safe_ret.
Qed.
Lemma no_child_of_wal n : ¬ L ++ [n] `prefix_of` parent W ∧ ¬ U ++ [n] `prefix_of` parent W.
Proof.
  split; intros Hp; [destruct W_legacy as [_ []]|destruct W_unrecognized as [_ []]]; (etrans; [by apply prefix_app_r|]; etrans; [exact Hp|apply parent_prefix]).
Qed.
Lemma step_wal : safe going (move_wal mount LW W) (λ _, going).
Proof.
  unfold move_wal. apply safe_step. intros t0 Hg. eapply safe_bind; [apply safe_get|]. intros t. cbv beta. destruct (exists_at t LW); [|apply safe_ret; by intros u [-> ->]].
  destruct (negb (exists_at t W)) eqn:He; [|eapply safe_weaken; [apply step_merge|by intros u [-> ->]|done]].
  apply safe_step. intros u [-> ->]. apply safe_bind with (Q := λ _ t', going t' ∧ at_path W t' = None).
  { apply safe_dirs; [intros t' ->; by apply going_kept|]. intros t1 t' -> Hm Hk Hw Hs. split.
    - destruct Hg as [Hr Hdb]. split; [eapply ready_dirs; [exact Hr|apply no_child_of_wal|done|done|exact Hs]|]. destruct (Hs DB) as [->|(Hn & _)]; congruence.
    - apply negb_true_iff in He. unfold exists_at in He. apply bool_decide_eq_false in He. destruct (Hs W) as [Hsame|(_ & _ & Hp)].
      + unfold shape_at in Hsame. destruct (at_path W t') as [x|]; [|done]. destruct (at_path W t0) as [y|]; [destruct He; by eexists|by destruct x].
      + exfalso. assert (HW : W ≠ []) by (intros H0; destruct W_legacy as [[] _]; rewrite H0; apply prefix_nil). apply prefix_length in Hp. unfold parent in Hp.
        rewrite (app_removelast_last [] HW) in Hp at 1. rewrite length_app in Hp. cbn in Hp. lia. }
  intros ?. apply safe_step. intros t1 [Hg1 Hw1]. eapply safe_weaken; [apply (safe_move mount F LW W t1)|done|].
  - apply app_not_nil.
  - intros H0. destruct W_legacy as [[] _]. rewrite H0. apply prefix_nil.
  - pose proof (proj1 (wal_apart [] [])) as Ha. by rewrite !app_nil_r in Ha.
  - done.
  - exact (rd_wf _ (proj1 Hg1)).
  - by apply going_kept.
  - intros ? t' Hgo. eapply going_gone; [exact Hg1|exact Hgo|]. intros q Hq. split; [pose proof (unwatched_lw [] q Hq) as Hu; by rewrite app_nil_r in Hu|].
    intros x ->%list_elem_of_singleton. by apply (unwatched_wal t1).
Qed.

(** Step 7. *)
Lemma step_unrecognized_one name t0 : name ∉ RECOGNIZED → going t0 → safe (λ t, t = t0) (move_path mount (L ++ [name]) (U ++ [name])) (λ _, going).
Proof.
  intros Hn Hg. pose proof (rd_clear _ (proj1 Hg) name Hn) as Hclear.
  apply safe_weaken with (P' := λ t, t = t0) (Q' := λ _, gone (L ++ [name]) [U ++ [name]] t0); [apply safe_move|done|].
  - apply app_not_nil.
  - apply app_not_nil.
  - rewrite <- (app_assoc N). intros [Ha _]%prefix_two. by apply neq_graphiti_lcg.
  - intros [x Hx]. destruct Hclear as [Hc|Hc]; [unfold shape_at in Hc; rewrite Hx in Hc; by destruct x|]. unfold shape_at in Hc. destruct (at_path (U ++ [name]) t0) as [[]|]; done.
  - exact (rd_wf _ (proj1 Hg)).
  - by apply going_kept.
  - intros ? t' (Hk & Hw & Hnone & Hs). destruct Hg as [[_ _ H1 H2 H3] H4].
    assert (HsL : ∀ r, ¬ [name] `prefix_of` r → shape_at (L ++ r) t' = shape_at (L ++ r) t0).
    { intros r Hr. apply Hs; [intros Hp%prefix_app_inv; done|]. intros x ->%list_elem_of_singleton. rewrite <- (app_assoc N). intros [Ha _]%prefix_two. symmetry in Ha. by apply neq_graphiti_lcg. }
    assert (HsN : ∀ r, ¬ [ #"_unrecognized"; name] `prefix_of` r → shape_at (N ++ r) t' = shape_at (N ++ r) t0).
    { intros r Hr. apply Hs; [intros [Ha _]%prefix_two; by apply neq_graphiti_lcg|]. intros x ->%list_elem_of_singleton. rewrite <- (app_assoc N). by intros [_ Hp]%prefix_two. }
    split; [split; [done|done| | |]|].
    + rewrite <- (app_nil_r L), HsL, app_nil_r; [done|]. by intros Hp%prefix_nil_inv.
    + rewrite HsL; [done|]. intros Hp%prefix_cons_inv_1. subst name. apply Hn. apply (bool_decide_unpack _). by vm_compute.
    + intros n Hn'. destruct (decide (n = name)) as [->|Hne]; [left; unfold shape_at; by rewrite Hnone|]. rewrite HsL; [|by intros Hp%prefix_cons_inv_1].
      rewrite <- (app_assoc N), HsN; [rewrite (app_assoc N); by apply H3|]. intros Hp%prefix_cons_inv_2%prefix_cons_inv_1. done.
    + rewrite HsN; [done|]. intros Hp%prefix_cons_inv_1. by vm_compute in Hp.
Qed.
Lemma step_unrecognized : safe going (move_unrecognized mount L N) (λ _, going).
Proof.
  unfold move_unrecognized. eapply safe_bind; [apply safe_read, going_kept|]. intros [e|es]; cbv beta; [apply safe_ret; by intros t [? _]|].
  apply safe_weaken with (P' := going) (Q' := λ _, going); [|by intros t [? _]|done]. apply (safe_each F es _ (λ _, going)). intros [name x] rest.
  case_bool_decide as Hn; [by apply safe_ret|].
  assert (Hmove : safe going (let! t := get_fs in (if exists_at t U then ret tt else create_dir_all U) ;;; emit "unrecognized_file" [[name]; U ++ [name]] ;;; move_path mount (L ++ [name]) (U ++ [name])) (λ _, going)).
  { apply safe_step. intros t0 Hg. eapply safe_bind; [apply safe_get|]. intros t. cbv beta. apply safe_bind with (Q := λ _, going).
    - destruct (exists_at t U); [apply safe_ret; by intros u [-> ->]|]. apply safe_step. intros u [-> ->]. apply going_dirs; [done|]. intros n. split.
      + intros [Ha _]%prefix_two. by apply neq_graphiti_lcg.
      + apply prefix_len. rewrite !length_app. cbn. lia.
    - intros ?. eapply safe_bind; [apply safe_emit|]. intros ?; cbv beta. apply safe_step. intros t1 Hg1. by apply step_unrecognized_one. }
  destruct x; [exact Hmove|apply safe_emit|exact Hmove].
Qed.
(** Step 8. *)
Lemma step_validate p (P : node → Prop) : (∀ t, P t → kept t) → safe P (validate db_open p) (λ _, P).
Proof.
  intros Hk. unfold validate. apply safe_step. intros t0 Ht. eapply safe_bind; [apply safe_get|]. intros t; cbv beta. destruct (at_path p t) as [x|]; [|apply safe_ret; by intros u [-> ->]].
  destruct (db_open x); [|eapply safe_weaken; [apply safe_emit with (P := P)|by intros u [-> ->]|done]].
  apply safe_bind with (Q := λ _, P); [eapply safe_weaken; [apply safe_emit with (P := P)|by intros u [-> ->]|done]|]. intros ?. apply safe_throw. done.
Qed.

(** Step 9: the sockets go. *)
Definition no_file (n : str) (t : node) : Prop := shape_at (L ++ [n]) t ≠ AFile.
Definition clearing (rest : list (str * node)) (t : node) : Prop :=
  kept t ∧ wf t ∧ shape_at L t = ADir ∧ shape_at DB t = ADir ∧ no_file #"service.sock" t ∧ ∀ e, e ∈ rest → e.2 = NSock → no_file e.1 t.
Lemma clearing_remove n rest t t' : clearing rest t → no_file n t → os_remove_file (L ++ [n]) t = inr t' → clearing rest t'.
Proof.
  intros (Hk & Hw & HL & HD & Hs & Hr) Hn. unfold os_remove_file, no_file, shape_at in *. destruct (at_path (L ++ [n]) t) as [[b| |l]|] eqn:Hat; [done| |done|done]. intros [= <-].
  assert (Hother : ∀ m, no_file m t → no_file m (put (L ++ [n]) None t)).
  { intros m Hm. unfold no_file, shape_at. destruct (decide (m = n)) as [->|Hne]; [rewrite at_put_none; [done|apply app_not_nil|done]|].
    rewrite at_put_apart; [exact Hm|]. by apply apart_sibling. }
  assert (Hne : L ++ [n] ≠ []) by apply app_not_nil.
  split; [apply put_new; [done| |done]; by rewrite Hat|]. split; [by apply put_wf|].
  split; [rewrite <- HL; apply (shape_put (L ++ [n])), prefix_len; rewrite !length_app; cbn; lia|].
  split; [rewrite <- HD; apply (shape_put (L ++ [n])); intros [Ha _]%prefix_two; by apply neq_graphiti_lcg|]. split; [by apply Hother|]. intros e He Hes. by apply Hother, Hr.
Qed.
Lemma step_sockets : safe going (remove_sockets_in_dir L) (λ _, clearing []).
Proof.
  assert (Hstart : ∀ t, going t → clearing [] t).
  { intros t [[H1 H2 H3 H4 _] H5]. split_and!; try done. intros e He. by apply elem_of_nil in He. }
  unfold remove_sockets_in_dir. eapply safe_bind; [apply safe_read, going_kept|]. intros [e|es]; cbv beta; [apply safe_ret; intros t [? _]; by apply Hstart|].
  apply safe_weaken with (P' := clearing es) (Q' := λ _, clearing []); [| |done].
  - apply (safe_each F es _ clearing). intros [n x] rest. destruct (_ || _) eqn:Hx.
    + apply safe_bind with (Q := λ _, clearing rest); [|intros ?; by apply safe_ret].
      assert (Hn : ∀ t, clearing ((n, x) :: rest) t → clearing rest t ∧ no_file n t).
      { intros t (H1 & H2 & H3 & H4 & H5 & H6). split; [split_and!; try done; intros e He; apply H6; by right|].
        apply orb_true_iff in Hx as [Hx|Hx]; [apply bool_decide_eq_true in Hx as ->; exact H5|]. apply (H6 (n, x)); [left|]. by destruct x. }
      unfold remove_file. apply safe_attempt.
      * intros t e Ht _. by apply Hn.
      * intros t t' Ht Hr. destruct (Hn t Ht). by eapply clearing_remove.
      * intros t k Ht. destruct (Hn t Ht) as [Hc Hf]. apply kept_done; [apply Hc|]. intros t' Hr. by apply (clearing_remove n rest t t').
    + apply safe_ret. intros t (H1 & H2 & H3 & H4 & H5 & H6). split_and!; try done. intros e He. apply H6. by right.
  - intros t [Hg Hr]. specialize (Hr es eq_refl). destruct (Hstart t Hg) as (H1 & H2 & H3 & H4 & H5 & _). split_and!; try done.
    unfold os_read_dir in Hr. destruct (at_path L t) as [[b| |l]|] eqn:Hl; [done..| |done]. injection Hr as ->.
    intros [n x] He Hx. cbn in Hx. subst x. pose proof (at_wf _ _ _ H2 Hl) as Hw. apply wf_dir in Hw as [Hw _]. unfold no_file, shape_at. cbn [fst]. by rewrite (at_child _ _ _ _ Hl), (entry_nodup _ _ _ Hw He).
Qed.
(** The legacy directory is gone and the new layout is in place. *)
Definition settled (t : node) : Prop := kept t ∧ shape_at L t = Nothing ∧ shape_at DB t = ADir.
Lemma neq_bak : #".graphiti" ≠ #".graphiti.bak".
Proof. by vm_compute. Qed.
Lemma settled_gone tos t t' : clearing [] t → gone L tos t t' → (∀ to, to ∈ tos → ¬ to `prefix_of` DB) → settled t'.
Proof.
  intros (_ & _ & _ & HD & _) (Hk & Hw & Hn & Hs) Hto. split; [done|]. split; [unfold shape_at; by rewrite Hn|]. rewrite Hs; [done| |done].
  rewrite <- (app_nil_r L). intros [Ha _]%prefix_two. by apply neq_graphiti_lcg.
Qed.
Lemma step_retire keep : safe going (retire_legacy mount keep L (ws ++ [ #".graphiti.bak"])) (λ _, settled).
Proof.
  set (bak := ws ++ [ #".graphiti.bak"]). unfold retire_legacy. eapply safe_bind; [apply step_sockets|]. intros ?; cbv beta.
  assert (HL : L ≠ []) by apply app_not_nil. assert (Hbak : bak ≠ []) by apply app_not_nil. assert (Hne : L ≠ bak).
  { intros H. apply app_inj_tail in H as [_ H]. by apply neq_bak. }
  assert (Hend : ∀ ev ps (m : M unit), safe (clearing []) m (λ _, settled) → safe (clearing []) (m ;;; emit ev ps) (λ _, settled)).
  { intros ev ps m Hm. eapply safe_bind; [exact Hm|]. intros ?. apply safe_emit. }
  destruct keep.
  - assert (H : safe (clearing []) (bind (rename mount L bak) (or_throw L)) (λ _, settled)).
    { assert (Hok : ∀ t t', clearing [] t → os_rename mount L bak t = inr t' → kept t' ∧ settled t').
      { intros t t' Hc Ht. pose proof Hc as (Hk & Hw & HLd & _). assert (Hk' : kept t') by (eapply renamed_file_kept; [exact Ht|done|done|by right|done]). split; [done|].
        destruct (rename_after mount L bak t t' Ht HL Hbak Hne Hw) as (Hw' & Hn & Hs). apply (settled_gone [bak] t); [done| |].
        - split; [done|]. split; [done|]. split; [done|]. intros q H1 H2. apply Hs; [done|]. apply H2. left.
        - intros x ->%list_elem_of_singleton. unfold bak. rewrite <- (app_nil_r (ws ++ [ #".graphiti.bak"])). intros [Ha _]%prefix_two. by vm_compute in Ha. }
      unfold rename. apply safe_call; [by intros t (? & _)|intros t t' Hc Ht; by eapply Hok|]. intros t k Hc. apply kept_done; [apply Hc|]. intros t' Ht. by eapply Hok. }
    intros s Hs. specialize (Hend "backup_created" [bak] _ H s Hs). unfold bind in *. by destruct (rename mount L bak s) as [[[|]|] ?].
  - assert (H : safe (clearing []) (bind (remove_dir L) (or_throw L)) (λ _, settled)).
    { assert (Hok : ∀ t t', clearing [] t → os_remove_dir L t = inr t' → gone L [] t t').
      { intros t t' (Hk & Hw & _) Ht. by eapply remove_dir_gone. }
      unfold remove_dir. apply safe_call; [by intros t (? & _)| |].
      - intros t t' Hc Ht. apply (settled_gone [] t); [done|by apply Hok|]. intros x Hx. by apply elem_of_nil in Hx.
      - intros t k Hc. apply kept_done; [apply Hc|]. intros t' Ht. by eapply Hok. }
    intros s Hs. specialize (Hend "legacy_removed" [L] _ H s Hs). unfold bind in *. by destruct (remove_dir L s) as [[[|]|] ?].
Qed.
Lemma db_names : #"db" ∈ RECOGNIZED ∧ #"db" ≠ #"service.sock" ∧ #"db.wal" ∈ RECOGNIZED ∧ #"db.wal" ≠ #"service.sock" ∧ #"db" ≠ #"_unrecognized" ∧
  #"ontology.yaml" ∈ RECOGNIZED ∧ #"ontology.yaml" ≠ #"service.sock" ∧ #"ontology.yaml" ≠ #"_unrecognized" ∧ #"ontology.yaml" ≠ #"db" ∧
  #"ontology-hash.json" ∈ RECOGNIZED ∧ #"ontology-hash.json" ≠ #"service.sock" ∧ #"ontology-hash.json" ≠ #"_unrecognized" ∧ #"ontology-hash.json" ≠ #"db".
Proof. apply (bool_decide_unpack _). by vm_compute. Qed.
Lemma below_db (x : str) : DB ++ [x] = N ++ #"db" :: [x].
Proof. by rewrite <- (app_assoc N). Qed.
Lemma step_free m k r : m ∈ RECOGNIZED → m ≠ #"service.sock" → k ≠ #"_unrecognized" → (k = #"db" → r ≠ []) → safe going (move_if_free mount (L ++ [m]) (N ++ k :: r)) (λ _, going).
Proof. intros. apply safe_if_free; [done|]. intros t0 Hg Hn. by apply legacy_to_new. Qed.
Lemma steps_safe keep : safe (λ t, ready t ∧ (shape_at DB t = ADir ∨ shape_at DB t = Nothing)) (migrate_steps mount db_open keep L N (ws ++ [ #".graphiti.bak"]) W) (λ _, settled).
Proof.
  destruct db_names as (A1 & A2 & A3 & A4 & A5 & A6 & A7 & A8 & A9 & A10 & A11 & A12 & A13).
  unfold migrate_steps. eapply safe_bind; [apply safe_emit|]. intros ?; cbv beta. apply safe_step. intros t0 [Hr Hdb].
  eapply safe_bind; [apply safe_get|]. intros t; cbv beta. apply safe_bind with (Q := λ _, going).
  { apply safe_step. intros u [-> ->]. destruct (exists_at t0 DB) eqn:He; unfold exists_at in He.
    - apply safe_ret. intros u ->. split; [done|]. destruct Hdb as [|Hn]; [done|]. apply bool_decide_eq_true in He as [x Hx]. unfold shape_at in Hn. rewrite Hx in Hn. by destruct x.
    - apply step_db_dir; [done|]. apply bool_decide_eq_false in He. unfold shape_at. destruct (at_path DB t0); [destruct He; by eexists|done]. }
  intros ?. apply safe_step. intros t1 Hg1. eapply safe_bind; [apply safe_get|]. intros u; cbv beta. apply safe_bind with (Q := λ _, going).
  { apply safe_step. intros v [-> ->]. destruct (_ && _) eqn:He; [|apply safe_ret; by intros v ->]. apply andb_true_iff in He as [_ He]. apply negb_true_iff in He. unfold exists_at in He.
    apply bool_decide_eq_false in He. rewrite below_db in He |- *. apply legacy_to_new; [done..|]. destruct (at_path _ t1); [destruct He; by eexists|done]. }
  intros ?. rewrite !below_db. apply safe_bind with (Q := λ _, going); [by apply step_free|]. intros ?.
  apply safe_bind with (Q := λ _, going); [apply step_wal|]. intros ?. apply safe_bind with (Q := λ _, going); [by apply step_free|]. intros ?.
  apply safe_bind with (Q := λ _, going); [by apply step_free|]. intros ?. apply safe_bind with (Q := λ _, going); [apply step_unrecognized|]. intros ?.
  apply safe_bind with (Q := λ _, going); [apply step_validate, going_kept|]. intros ?. apply safe_bind with (Q := λ _, settled); [apply step_retire|]. intros ?.
  eapply safe_bind; [apply safe_emit|]. intros ?. by apply safe_ret.
Qed.

(** The old rename's layout, repaired in place. *)
Definition repairing (t : node) : Prop := kept t ∧ wf t ∧ shape_at L t = Nothing.
Definition repaired (t : node) : Prop := repairing t ∧ shape_at DB t = ADir.
Local Notation TMP := (N ++ [ #"_db_migrate_tmp"]).
Lemma not_below_legacy p q : ¬ N ++ p `prefix_of` L ++ q.
Proof. intros [Ha _]%prefix_two. symmetry in Ha. by apply neq_graphiti_lcg. Qed.
Lemma repairing_rename from to t t' : repairing t → N ++ from ≠ N ++ to → from ≠ [] → to ≠ [] → at_path (N ++ to) t = None → os_rename mount (N ++ from) (N ++ to) t = inr t' →
  repairing t' ∧ at_path (N ++ from) t' = None ∧ ∀ q, ¬ N ++ from `prefix_of` q → ¬ N ++ to `prefix_of` q → shape_at q t' = shape_at q t.
Proof.
  intros (Hk & Hw & HL) Hne Hf Hto Hn Ht. assert (H1 : N ++ from ≠ []) by (intros H; by apply app_nil in H as [_ H]). assert (H2 : N ++ to ≠ []) by (intros H; by apply app_nil in H as [_ H]).
  destruct (rename_after mount _ _ t t' Ht H1 H2 Hne Hw) as (Hw' & Hn' & Hs). split; [|done]. split; [eapply renamed_file_kept; [exact Ht|done|done|by left|done]|]. split; [done|].
  rewrite Hs; [done|..]; rewrite <- (app_nil_r L); apply not_below_legacy.
Qed.
Lemma shape_nothing p t : shape_at p t = Nothing → at_path p t = None.
Proof. unfold shape_at. by destruct (at_path p t) as [[]|]. Qed.
Lemma fix_safe : safe (λ t, repairing t ∧ shape_at TMP t = Nothing) (fix_broken_lcg_layout mount db_open N (N ++ [ #"db"] ++ [ #"liminis.db"])) (λ _, repaired).
Proof.
  unfold fix_broken_lcg_layout. eapply safe_bind; [apply safe_emit|]. intros ?; cbv beta. set (marker := N ++ #"db" :: [ #"liminis.db"]).
  assert (Hcall : ∀ {A} op dies p (m : M A) (P Q : node → Prop) R, safe P (bind (attempt op dies) (or_throw p)) (λ _, Q) → safe Q m R → safe P (let! r := attempt op dies in or_throw p r ;;; m) R).
  { intros A op dies p m P Q R H1 H2 s Hs. pose proof (safe_bind F _ (λ _, m) P (λ _, Q) R H1 (λ _, H2) s Hs) as H. unfold bind in *. by destruct (attempt op dies s) as [[[|]|] ?]. }
  apply Hcall with (Q := λ t, repairing t ∧ at_path DB t = None).
  { assert (Hok : ∀ t t', repairing t ∧ shape_at TMP t = Nothing → os_rename mount DB TMP t = inr t' → repairing t' ∧ at_path DB t' = None).
    { intros t t' [Hr Hn%shape_nothing] Ht. destruct (repairing_rename [ #"db"] [ #"_db_migrate_tmp"] t t' Hr) as (? & ? & _); [intros H%app_inv_head; by vm_compute in H|done..]. }
    apply safe_call; [by intros t [[] _]|done|]. intros t k H. apply kept_done; [apply H|]. intros t' Ht. by apply (Hok t t'). }
  apply Hcall with (Q := λ t, repairing t ∧ at_path DB t = Some (NDir [])).
  { assert (Hok : ∀ t t', repairing t ∧ at_path DB t = None → os_create_dir DB t = inr t' → repairing t' ∧ at_path DB t' = Some (NDir [])).
    { intros t t' [(Hk & Hw & HL) Hn]. unfold os_create_dir, exists_at. rewrite Hn, bool_decide_eq_false_2 by (by intros []). destruct (is_dir_at t (parent DB)) eqn:Hd; [|done]. intros [= <-]. assert (Hp : DB ≠ []) by apply app_not_nil.
      split; [|by apply at_put_same]. split; [apply put_new; [done|by rewrite Hn|done]|]. split; [apply put_wf; [done|]; intros y [= <-]; exact wf_empty|].
      rewrite <- HL. apply shape_put. rewrite <- (app_nil_r L). apply not_below_legacy. }
    apply safe_call; [by intros t [[] _]|done|]. intros t k H. apply kept_done; [apply H|]. intros t' Ht. by apply (Hok t t'). }
  apply Hcall with (Q := repaired).
  { assert (Hok : ∀ t t', repairing t ∧ at_path DB t = Some (NDir []) → os_rename mount TMP marker t = inr t' → repaired t').
    { intros t t' [Hr Hdb] Ht. destruct (repairing_rename [ #"_db_migrate_tmp"] [ #"db"; #"liminis.db"] t t' Hr) as (Hr' & _ & Hs).
      - intros H%app_inv_head. by vm_compute in H.
      - done.
      - done.
      - fold marker. unfold marker. rewrite <- below_db. by rewrite (at_child _ _ _ _ Hdb).
      - exact Ht.
      - split; [done|]. rewrite Hs; [by rewrite (shape_some _ _ _ Hdb)|..].
        + intros [_ Hp]%prefix_two. apply prefix_cons_inv_1 in Hp. by vm_compute in Hp.
        + intros [_ Hp]%prefix_two. by apply prefix_cons_inv_2, prefix_nil_inv in Hp. }
    apply safe_call; [by intros t [[] _]|done|]. intros t k H. apply kept_done; [apply H|]. intros t' Ht. by apply (Hok t t'). }
  eapply safe_bind; [apply safe_emit|]. intros ?; cbv beta. apply safe_step. intros t0 Hr. eapply safe_bind; [apply safe_get|]. intros t; cbv beta.
  apply safe_bind with (Q := λ _, repaired).
  { apply safe_step. intros u [-> ->]. destruct (_ && _) eqn:He; [|apply safe_ret; by intros u ->]. apply andb_true_iff in He as [_ He]. apply negb_true_iff in He. unfold exists_at in He.
    apply bool_decide_eq_false in He. rewrite below_db in He |- *. destruct Hr as [(Hk & Hw & HL) Hdb].
    apply safe_weaken with (P' := λ t, t = t0) (Q' := λ _, gone (N ++ [ #"db.wal"]) [N ++ [ #"db"; #"liminis.db.wal"]] t0); [apply safe_move|done|]; [apply app_not_nil|apply app_not_nil| | |done|done|].
    - intros [_ Hp]%prefix_two. apply prefix_cons_inv_1 in Hp. by vm_compute in Hp.
    - intros _. destruct (at_path (N ++ _) t0); [destruct He; by eexists|done].
    - intros ? t' (Hk' & Hw' & _ & Hs). split; [split; [done|split; [done|]]|]; (rewrite Hs; [done|..]).
      + rewrite <- (app_nil_r L). apply not_below_legacy.
      + intros x ->%list_elem_of_singleton. rewrite <- (app_nil_r L). apply not_below_legacy.
      + intros [_ Hp]%prefix_two. apply prefix_cons_inv_1 in Hp. by vm_compute in Hp.
      + intros x ->%list_elem_of_singleton. intros [_ Hp]%prefix_two. by apply prefix_cons_inv_2, prefix_nil_inv in Hp. }
  intros ?. eapply safe_bind; [apply step_validate; by intros u [[] _]|]. intros ?; cbv beta. eapply safe_bind; [apply safe_emit|]. intros ?. by apply safe_ret.
Qed.
End whole.

(** What a workspace must be like for its migration to lose nothing. *)
Record migratable (ws wal_root : path) (t : node) : Prop := {
  mg_wal : apart wal_root (ws ++ [ #".graphiti"]) ∧ apart wal_root ((ws ++ [ #".lcg"]) ++ [ #"_unrecognized"]);
  mg_wf : wf t;
  mg_legacy : shape_at (ws ++ [ #".graphiti"]) t = Nothing ∨ shape_at (ws ++ [ #".graphiti"]) t = ADir;
  mg_sock : shape_at ((ws ++ [ #".graphiti"]) ++ [ #"service.sock"]) t ≠ AFile;
  mg_clear : ∀ n, n ∉ RECOGNIZED → shape_at ((ws ++ [ #".graphiti"]) ++ [n]) t = Nothing ∨ shape_at (((ws ++ [ #".lcg"]) ++ [ #"_unrecognized"]) ++ [n]) t = Nothing;
  mg_tmp : shape_at ((ws ++ [ #".lcg"]) ++ [ #"_db_migrate_tmp"]) t = Nothing }.


(** ** Concrete migrations *)

Definition same_device (p : path) : N := 0%N.
Definition opens (x : node) : option str := None.
Definition toy_dir (l : list (string * node)) : node := NDir ((λ '(k, x), (lit k, x)) <$> l).
Definition toy_legacy : node :=
  toy_dir [("db", NFile #"database"); ("wal", toy_dir [("1.jsonl", NFile #"one"); ("2.jsonl", NFile #"two")]); ("ontology.yaml", NFile #"types"); ("service.sock", NSock); ("notes.txt", NFile #"mine")].
Definition run_migration (mount : path → N) (wal_root : path) (t : node) (faults : list fault) :=
  migrate_workspace mount opens false [] wal_root {| m_fs := t; m_faults := faults; m_events := [] |}.
Definition default_root : path := [ #".lcg"; #"wal"].
Definition outcome (x : option (MigrationError + MigrationOutcome) * mst) := x.1.
Definition tree (x : option (MigrationError + MigrationOutcome) * mst) : node := m_fs x.2.
(** From legacy to new, in one go. *)
Example toy_migrates : (λ x, (outcome x, tree x)) (run_migration same_device default_root (toy_dir [(".graphiti", toy_legacy)]) []) =
  (Some (inr Migrated), toy_dir [(".lcg", toy_dir [("db", toy_dir [("liminis.db", NFile #"database")]); ("wal", toy_dir [("1.jsonl", NFile #"one"); ("2.jsonl", NFile #"two")]);
     ("ontology.yaml", NFile #"types"); ("_unrecognized", toy_dir [("notes.txt", NFile #"mine")])])]).
Proof. vm_compute. reflexivity. Qed.
(** The log goes to another device and the process dies in the copy of its second file. *)
Definition other_device (p : path) : N := if bool_decide (head p = Some #"mnt") then 1%N else 0%N.
Definition mnt_root : path := [ #"mnt"; #"wal"].
Definition toy_before : node := toy_dir [(".graphiti", toy_legacy); ("mnt", toy_dir [])].
Lemma toy_migratable : migratable [] mnt_root toy_before.
Proof.
  split.
  - unfold apart. split; split; apply (bool_decide_unpack _); by vm_compute.
  - unfold toy_before, toy_legacy, toy_dir. cbn [fmap list_fmap].
    repeat lazymatch goal with
           | |- wf (NDir _) => apply (proj2 (wf_dir _)); split
           | |- wf _ => exact I
           | |- NoDup _ => apply (bool_decide_unpack _); vm_compute; exact I
           | |- Forall _ [] => apply List.Forall_nil
           | |- Forall _ (_ :: _) => apply List.Forall_cons; [cbn [snd]|]
           end.
  - right. by vm_compute.
  - by vm_compute.
  - intros n _. right. reflexivity.
  - by vm_compute.
Qed.
Definition toy_torn := run_migration other_device mnt_root toy_before (replicate 10 Fine ++ [Dies 2]).

(** The first condition matters.  With the log's root set to the legacy log itself, which is what
    the deprecated variable named, the merge compares every file with itself, takes it for a copy
    that a crash left behind, and removes it: the migration succeeds and the log is gone. *)
Theorem log_root_in_place_is_deleted :
  let before := toy_dir [(".graphiti", toy_legacy)] in
  let x := run_migration same_device [ #".graphiti"; #"wal"] before [] in
  outcome x = Some (inr Migrated) ∧ files before = [ #"database"; #"one"; #"two"; #"types"; #"mine"] ∧ files (tree x) = [ #"database"; #"types"; #"mine"].
Proof. vm_compute. repeat split. Qed.
(** A copy to another device that a crash cut short is not started over, as its comment says: the
    next run finds the root there, merges into it, takes the torn file for a file of another
    origin and fails on the legacy directory, and so does every run after it. *)
Theorem torn_copy_blocks_every_restart :
  let second := run_migration other_device mnt_root (tree toy_torn) [] in
  let third := run_migration other_device mnt_root (tree second) [] in
  outcome second = Some (inl (MoveFile [ #".graphiti"] DirectoryNotEmpty)) ∧ outcome third = outcome second ∧ tree third = tree second.
Proof. vm_compute. repeat split. Qed.
(** The repair of the old layout moves the database aside before it makes room for it.  A process
    that dies in between leaves a workspace that the next run finds in order, with the database
    under a name nothing reads. *)
Theorem interrupted_repair_hides_database :
  let first := run_migration same_device default_root (toy_dir [(".lcg", toy_dir [("db", NFile #"database")])]) [Fine; Dies 0] in
  let second := run_migration same_device default_root (tree first) [] in
  outcome first = None ∧ outcome second = Some (inr AlreadyMigrated) ∧ tree second = toy_dir [(".lcg", toy_dir [("_db_migrate_tmp", NFile #"database")])].
Proof. vm_compute. repeat split. Qed.
(** An unrecognised file is moved without looking at its destination, unlike every other file: a
    file of that name which an earlier migration put there is lost. *)
Theorem unrecognized_file_overwritten :
  let before := toy_dir [(".graphiti", toy_dir [("notes.txt", NFile #"new")]);
                         (".lcg", toy_dir [("db", toy_dir [("liminis.db", NFile #"database")]); ("_unrecognized", toy_dir [("notes.txt", NFile #"old")])])] in
  let x := run_migration same_device default_root before [] in
  outcome x = Some (inr Migrated) ∧ files before = [ #"new"; #"database"; #"old"] ∧ files (tree x) = [ #"database"; #"new"].
Proof. vm_compute. repeat split. Qed.
