(* ===== verification/WalStrip.v ===== *)
(** * WalStrip: removing stored vectors from log files (core/src/wal_strip.rs)

    A directory is a map from file names to bytes.  Each file's treatment takes one fault, which
    says what failed or where the process died; listing a directory is an input, as are the random
    part of a temporary name and the text of an error.  The migration that the whole run starts
    with is that of WalMigrate.v, and what it leaves is the state here.  JSON text is read and
    printed by [AttrCodec]. *)

From S2P Require Import Prelude Text Json WalGeneration WalScan Checkpoint WalGroup Wal Pointer.

(** Source: core/src/wal_strip.rs 28-32 (StripFileError) *)
Record StripFileError := { sf_path : list str; sf_error : str }.
(** Source: core/src/wal_strip.rs 36-46 (StripWalEmbeddingsReport) *)
Record StripWalEmbeddingsReport := {
  st_dry_run : bool; files_processed : N; files_rewritten : N; files_unchanged : N; st_bytes_before : N; st_bytes_after : N; st_records_rewritten : N;
  st_unparseable_lines : N; st_errors : list StripFileError }.
(** Source: core/src/wal_strip.rs 157-163 (FileResult) *)
Record FileResult := { fr_rewritten : bool; fr_bytes_before : N; fr_bytes_after : N; fr_records_rewritten : N; fr_unparseable_lines : N }.
(** Source: core/src/wal_strip.rs 205-211 (FileScanResult) *)
Record FileScanResult := { sc_bytes_before : N; sc_bytes_after : N; sc_needs_rewrite : bool; sc_records_rewritten : N; sc_unparseable_lines : N }.
(** Source: core/src/wal_strip.rs 318-327 (LineOutcome) *)
Record LineOutcome := { lo_output : bytes; lo_rewritten : bool; lo_unparseable : bool }.

(** ** Lines *)

Section lines.
Context {AC : AttrCodec}.
(** The derived reader of a record takes an object or a list of its fields.
    Source: core/src/wal.rs 49-56 (WalLine) *)
Definition deserialize_wal_line (v : value) : option WalLine :=
  let build seq ts db cypher params :=
    q ← as_u64 seq; t ← as_str ts; d ← as_str db; c ← as_str cypher; Some {| wl_seq := q; wl_ts := t; wl_db := d; wl_cypher := c; wl_params := params |} in
  match v with
  | VObject _ =>
      seq ← get #"seq" v; ts ← get #"ts" v; db ← get #"db" v; cypher ← get #"cypher" v; params ← get #"params" v; build seq ts db cypher params
  | VArray [seq; ts; db; cypher; params] => build seq ts db cypher params
  | _ => None
  end.
(** Source: core/src/wal_strip.rs 450-455 (is_well_formed_number_array) *)
Definition is_well_formed_number_array (v : value) : bool :=
  match v with VArray items => forallb (λ x, match x with VNumber _ => true | _ => false end) items | _ => false end.
Definition ascii_space (b : N) : bool := bool_decide (b ∈ [32; 9; 10; 12; 13]%N).
Definition passed (raw : bytes) (unparseable : bool) : result Error LineOutcome := Ok {| lo_output := raw; lo_rewritten := false; lo_unparseable := unparseable |}.
(** The first malformed vector is the error.
    Source: core/src/wal_strip.rs 412-424 (transform_line) *)
Fixpoint check_vectors (params : object) (has : bool) (line_no : nat) (path : list str) (l : list str) : result Error bool :=
  match l with
  | [] => Ok has
  | key :: l =>
      match obj_get key params with
      | None => check_vectors params has line_no path l
      | Some v =>
          if is_well_formed_number_array v then check_vectors params true line_no path l
          else Err (Ipc (Msg "{}: line {line_no}: embedding-vector param {key:?} is not a well-formed JSON array of numbers" [AStr (join #"/" path); ANum (N.of_nat line_no); AStr key]))
      end
  end.
(** The parameters' place in the object is kept. *)
Definition replace_params (v : value) (params : value) : value := match v with VObject m => VObject (obj_insert #"params" params m) | _ => v end.
(** Source: core/src/wal_strip.rs 350-448 (transform_line) *)
Definition transform_line (raw : bytes) (line_no : nat) (path : list str) : result Error LineOutcome :=
  let has_trailing_newline := bool_decide (last raw = Some 10%N) in
  let content := if has_trailing_newline then removelast raw else raw in
  if forallb ascii_space content then passed raw false
  else
    match from_utf8 content with
    | None => passed raw true
    | Some text =>
        match json_parse text with
        | None => passed raw true
        | Some v =>
            match deserialize_wal_line v with
            | None => passed raw true
            | Some _ =>
                match get #"params" v with
                | Some (VObject params) =>
                    let? has := check_vectors params false line_no path VECTOR_PARAM_KEYS in
                    if has : bool then
                      Ok {| lo_output := utf8 (json_print (replace_params v (strip_vector_params (VObject params)))) ++ (if has_trailing_newline then [10%N] else []);
                            lo_rewritten := true; lo_unparseable := false |}
                    else passed raw false
                | _ => passed raw false
                end
            end
        end
    end.

(** ** Files *)

(** [read_until]: each line with its newline, the last one perhaps without. *)
Fixpoint raw_lines (b : bytes) : list bytes :=
  match b with
  | [] => []
  | c :: b => if bool_decide (c = 10%N) then [c] :: raw_lines b else match raw_lines b with [] => [[c]] | l :: ls => (c :: l) :: ls end
  end.
(** Source: core/src/wal_strip.rs 227-243 (scan_file) *)
Fixpoint scan_lines (ls : list bytes) (line_no : nat) (path : list str) (r : FileScanResult) : result Error FileScanResult :=
  match ls with
  | [] => Ok r
  | raw :: ls =>
      let? o := transform_line raw (S line_no) path in
      scan_lines ls (S line_no) path
        {| sc_bytes_before := sc_bytes_before r; sc_bytes_after := sc_bytes_after r + N.of_nat (length (lo_output o));
           sc_needs_rewrite := lo_rewritten o || sc_needs_rewrite r; sc_records_rewritten := sc_records_rewritten r + (if lo_rewritten o then 1 else 0);
           sc_unparseable_lines := sc_unparseable_lines r + (if lo_unparseable o then 1 else 0) |}
  end.
(** Source: core/src/wal_strip.rs 217-252 (scan_file) *)
Definition scan_file (b : bytes) (path : list str) : result Error FileScanResult :=
  scan_lines (raw_lines b) 0 path {| sc_bytes_before := N.of_nat (length b); sc_bytes_after := 0; sc_needs_rewrite := false; sc_records_rewritten := 0; sc_unparseable_lines := 0 |}.
(** What the second pass writes, up to the line that fails. *)
Fixpoint rewritten_bytes (ls : list bytes) (line_no : nat) (path : list str) : result Error bytes * bytes :=
  match ls with
  | [] => (Ok [], [])
  | raw :: ls =>
      match transform_line raw (S line_no) path with
      | Err e => (Err e, [])
      | Ok o => let '(r, written) := rewritten_bytes ls (S line_no) path in (rmap (app (lo_output o)) r, lo_output o ++ written)
      end
  end.
(** What happens to one file: a failing read, creation, write, rename or size query; or the death of
    the process.  [k] is how many bytes had reached the temporary file, [cleaned] whether it could
    be removed. *)
Inductive strip_fault :=
| SFine | SReadFails | SCreateFails | SWriteFails (k : nat) (cleaned : bool) | SRenameFails (cleaned : bool) | SSizeFails
| SDiesWriting (k : nat) | SDiesBeforeRename | SDiesAfterRename.
Notation dir := (gmap str bytes).
Definition tmp_name (file_name uuid : str) : str := file_name ++ #"." ++ uuid ++ #".tmp".
(** No outcome: the process died.
    Source: core/src/wal_strip.rs 303-311 (commit_or_cleanup) *)
Definition commit_or_cleanup (flt : strip_fault) (tmp name : str) (d : dir) : option (result Error unit) * dir :=
  match flt with
  | SRenameFails cleaned => (Some (Err io_err), if cleaned then base.delete tmp d else d)
  | SDiesBeforeRename => (None, d)
  | _ =>
      let d := match d !! tmp with Some b => <[name := b]> (base.delete tmp d) | None => d end in
      match flt with SDiesAfterRename => (None, d) | _ => (Some (Ok tt), d) end
  end.
(** Source: core/src/wal_strip.rs 261-301 (rewrite_file) *)
Definition rewrite_file (flt : strip_fault) (uuid name : str) (path : list str) (b : bytes) (d : dir) : option (result Error unit) * dir :=
  let tmp := tmp_name name uuid in
  match flt with
  | SCreateFails => (Some (Err io_err), d)
  | _ =>
      let '(r, written) := rewritten_bytes (raw_lines b) 0 path in
      match flt, r with
      | SWriteFails k cleaned, _ => (Some (Err io_err), if cleaned then base.delete tmp d else <[tmp := take k written]> d)
      | SDiesWriting k, _ => (None, <[tmp := take k written]> d)
      | _, Err e => (Some (Err e), base.delete tmp d)
      | _, Ok all => commit_or_cleanup flt tmp name (<[tmp := all]> d)
      end
  end.
(** Source: core/src/wal_strip.rs 172-203 (strip_one_file) *)
Definition strip_one_file (flt : strip_fault) (uuid : str) (dry_run : bool) (path : list str) (name : str) (d : dir) : option (result Error FileResult) * dir :=
  match flt, d !! name with
  | SReadFails, _ | _, None => (Some (Err io_err), d)
  | _, Some b =>
      match scan_file b (path ++ [name]) with
      | Err e => (Some (Err e), d)
      | Ok scan =>
          if negb (sc_needs_rewrite scan) then
            (Some (Ok {| fr_rewritten := false; fr_bytes_before := sc_bytes_before scan; fr_bytes_after := sc_bytes_before scan; fr_records_rewritten := 0; fr_unparseable_lines := sc_unparseable_lines scan |}), d)
          else if dry_run then
            (Some (Ok {| fr_rewritten := true; fr_bytes_before := sc_bytes_before scan; fr_bytes_after := sc_bytes_after scan; fr_records_rewritten := sc_records_rewritten scan; fr_unparseable_lines := sc_unparseable_lines scan |}), d)
          else
            match rewrite_file flt uuid name (path ++ [name]) b d with
            | (None, d) => (None, d)
            | (Some (Err e), d) => (Some (Err e), d)
            | (Some (Ok _), d) =>
                match flt, d !! name with
                | SSizeFails, _ | _, None => (Some (Err io_err), d)
                | _, Some b' =>
                    (Some (Ok {| fr_rewritten := true; fr_bytes_before := sc_bytes_before scan; fr_bytes_after := N.of_nat (length b'); fr_records_rewritten := sc_records_rewritten scan;
                                 fr_unparseable_lines := sc_unparseable_lines scan |}), d)
                end
            end
      end
  end.

(** ** The whole run *)

Notation disk := (gmap (list str) dir).
(** Listing a directory: it is missing, it cannot be listed, or its entries, some unreadable. *)
Inductive listed := LMissing | LFails (e : str) | LEntries (l : list (result str str)).
Context (listing : list str → listed) (display : Error → str) (fault_of : list str → str → strip_fault) (uuid_of : list str → str → str).
Definition add_error (e : StripFileError) (r : StripWalEmbeddingsReport) : StripWalEmbeddingsReport :=
  {| st_dry_run := st_dry_run r; files_processed := files_processed r; files_rewritten := files_rewritten r; files_unchanged := files_unchanged r; st_bytes_before := st_bytes_before r;
     st_bytes_after := st_bytes_after r; st_records_rewritten := st_records_rewritten r; st_unparseable_lines := st_unparseable_lines r; st_errors := st_errors r ++ [e] |}.
(** Source: core/src/wal_strip.rs 127-150 (strip_wal_embeddings) *)
Definition record_file (path : list str) (name : str) (res : result Error FileResult) (r : StripWalEmbeddingsReport) : StripWalEmbeddingsReport :=
  let r := {| st_dry_run := st_dry_run r; files_processed := files_processed r + 1; files_rewritten := files_rewritten r; files_unchanged := files_unchanged r; st_bytes_before := st_bytes_before r;
              st_bytes_after := st_bytes_after r; st_records_rewritten := st_records_rewritten r; st_unparseable_lines := st_unparseable_lines r; st_errors := st_errors r |} in
  match res with
  | Ok f =>
      {| st_dry_run := st_dry_run r; files_processed := files_processed r; files_rewritten := files_rewritten r + (if fr_rewritten f then 1 else 0);
         files_unchanged := files_unchanged r + (if fr_rewritten f then 0 else 1); st_bytes_before := st_bytes_before r + fr_bytes_before f; st_bytes_after := st_bytes_after r + fr_bytes_after f;
         st_records_rewritten := st_records_rewritten r + (if fr_rewritten f then fr_records_rewritten f else 0); st_unparseable_lines := st_unparseable_lines r + fr_unparseable_lines f;
         st_errors := st_errors r |}
  | Err e => add_error {| sf_path := path ++ [name]; sf_error := display e |} r
  end.
Fixpoint strip_files (dry_run : bool) (path : list str) (names : list str) (w : disk) (r : StripWalEmbeddingsReport) : option StripWalEmbeddingsReport * disk :=
  match names with
  | [] => (Some r, w)
  | name :: names =>
      let '(res, d) := strip_one_file (fault_of path name) (uuid_of path name) dry_run path name (default ∅ (w !! path)) in
      let w := <[path := d]> w in
      match res with None => (None, w) | Some res => strip_files dry_run path names w (record_file path name res r) end
  end.
(** Source: core/src/wal_strip.rs 105-125 (strip_wal_embeddings) *)
Fixpoint pick_files (path : list str) (d : dir) (entries : list (result str str)) (r : StripWalEmbeddingsReport) : list str * StripWalEmbeddingsReport :=
  match entries with
  | [] => ([], r)
  | Ok name :: entries =>
      let '(files, r) := pick_files path d entries r in (if bool_decide (is_Some (d !! name)) && is_jsonl name then name :: files else files, r)
  | Err e :: entries => pick_files path d entries (add_error {| sf_path := path; sf_error := #"failed to read a directory entry: " ++ e |} r)
  end.
(** Source: core/src/wal_strip.rs 90-152 (strip_wal_embeddings) *)
Fixpoint strip_dirs (dry_run : bool) (dirs : list (list str)) (w : disk) (r : StripWalEmbeddingsReport) : option StripWalEmbeddingsReport * disk :=
  match dirs with
  | [] => (Some r, w)
  | path :: dirs =>
      match listing path with
      | LMissing => strip_dirs dry_run dirs w r
      | LFails e => strip_dirs dry_run dirs w (add_error {| sf_path := path; sf_error := e |} r)
      | LEntries entries =>
          let '(files, r) := pick_files path (default ∅ (w !! path)) entries r in
          match strip_files dry_run path (sort_by str_leb files) w r with
          | (None, w) => (None, w)
          | (Some r, w) => strip_dirs dry_run dirs w r
          end
      end
  end.
(** [root] is the log's root as [list_group_wal_dirs] sees it; a group's directory is there if it is listed.
    Source: core/src/wal_strip.rs 60-155 (strip_wal_embeddings) *)
Definition strip_wal_embeddings (root : wroot) (group_id : option str) (dry_run : bool) (w : disk) : result Error (option StripWalEmbeddingsReport * disk) :=
  let report := {| st_dry_run := dry_run; files_processed := 0; files_rewritten := 0; files_unchanged := 0; st_bytes_before := 0; st_bytes_after := 0; st_records_rewritten := 0;
                   st_unparseable_lines := 0; st_errors := [] |} in
  let? dirs := match group_id with
               | Some gid => rmap (λ n, match listing [n] with LMissing => [] | _ => [[n]] end) (encode_group_dir_name gid)
               | None => Ok ((match list_group_wal_dirs root with Ok l => (λ e : str * str, [e.2]) <$> l | Err _ => [] end) ++ [[]])
               end in
  Ok (strip_dirs dry_run dirs w report).
End lines.
