(* ===== verification/WalStripTheory.v ===== *)
(** * WalStripTheory: what stripping a log promises

    One file is rewritten whole or not at all, whatever fails; what is rewritten is every line,
    unchanged or without its vectors; a second run has nothing to do; and replaying the stripped
    log embeds, counts and keeps what replaying the original does. *)

From S2P Require Import Prelude Text Json WalGeneration WalScan Checkpoint WalGroup Wal Pointer LegacyWal Replay ReplayProps WalStrip.

Section strip.
Context {AC : AttrCodec}.

(** ** Lines *)

Fixpoint distinct_keys (v : value) : bool :=
  match v with
  | VArray l => forallb distinct_keys l
  | VObject m => bool_decide (NoDup (keys m)) && forallb (λ e, distinct_keys e.2) m
  | _ => true
  end.
Lemma distinct_object m : distinct_keys (VObject m) = true ↔ NoDup (keys m) ∧ ∀ k v, (k, v) ∈ m → distinct_keys v = true.
Proof.
  cbn [distinct_keys]. rewrite andb_true_iff, bool_decide_eq_true, forallb_forall. split; intros [Hm H]; (split; [done|]).
  - intros k v Hin. by apply (H (k, v)), list_elem_of_In.
  - intros [k v] Hin. by eapply H, list_elem_of_In.
Qed.
Lemma distinct_get key v x : distinct_keys v = true → get key v = Some x → distinct_keys x = true.
Proof. destruct v as [| | | | |m]; try done. intros [Hm H]%distinct_object. cbn [get]. rewrite obj_get_Some by done. apply H. Qed.
Lemma distinct_remove_all m ks : distinct_keys (VObject m) = true → distinct_keys (VObject (foldl (λ m k, obj_remove k m) m ks)) = true.
Proof.
  revert m. induction ks as [|k ks IH]; intros m H; [done|]. apply IH. apply distinct_object in H as [Hm H]. apply distinct_object.
  split; [by apply obj_remove_NoDup|]. intros j v. rewrite <- obj_get_Some by (by apply obj_remove_NoDup). rewrite obj_get_remove by done.
  case_bool_decide; [done|]. rewrite obj_get_Some by done. apply H.
Qed.
Lemma distinct_insert m k x : distinct_keys (VObject m) = true → distinct_keys x = true → distinct_keys (VObject (obj_insert k x m)) = true.
Proof.
  intros [Hm H]%distinct_object Hx. apply distinct_object. split; [by apply obj_insert_NoDup|]. intros j v.
  rewrite <- obj_get_Some by (by apply obj_insert_NoDup). rewrite obj_get_insert. case_bool_decide; [by intros [= <-]|].
  rewrite obj_get_Some by done. apply H.
Qed.

Lemma concat_raw_lines b : concat (raw_lines b) = b.
Proof.
  induction b as [|c b IH]; [done|]. cbn [raw_lines]. case_bool_decide as Hc; cbn [concat]; [by rewrite IH|].
  revert IH. destruct (raw_lines b) as [|l ls]; cbn [concat]; intros <-; [done|by rewrite <- app_comm_cons].
Qed.

(** A line that is written without its vectors; [nl] is its newline. *)
Inductive stripped (raw out : bytes) : Prop :=
| Stripped text v params content nl :
    (nl = [] ∧ last raw ≠ Some 10%N) ∨ nl = [10%N] → raw = content ++ nl → from_utf8 content = Some text → json_parse text = Some v →
    is_Some (deserialize_wal_line v) → get #"params" v = Some (VObject params) →
    (∀ key x, key ∈ VECTOR_PARAM_KEYS → obj_get key params = Some x → is_well_formed_number_array x = true) →
    out = utf8 (json_print (replace_params v (strip_vector_params (VObject params)))) ++ nl → stripped raw out.

Lemma check_vectors_spec params has n path ks r :
  check_vectors params has n path ks = Ok r →
  (∀ key v, key ∈ ks → obj_get key params = Some v → is_well_formed_number_array v = true) ∧
  (r = false ↔ has = false ∧ ∀ key, key ∈ ks → obj_get key params = None).
Proof.
  revert has. induction ks as [|k ks IH]; intros has; cbn [check_vectors].
  - intros [= <-]. split; [by intros ? ? ?%elem_of_nil|]. split; [|naive_solver]. intros ->. split; [done|]. by intros ? ?%elem_of_nil.
  - destruct (obj_get k params) as [v|] eqn:Hk.
    + destruct (is_well_formed_number_array v) eqn:Hv; [|done]. intros [Hks Hr]%IH. split.
      * intros key v' [->|Hin]%elem_of_cons Hv'; [congruence|eauto].
      * rewrite Hr. split; [naive_solver|]. intros [-> Hall]. specialize (Hall k ltac:(by left)). congruence.
    + intros [Hks Hr]%IH. split.
      * intros key v' [->|Hin]%elem_of_cons Hv'; [congruence|eauto].
      * rewrite Hr. split; intros [-> Hall]; (split; [done|]); intros key; rewrite ?elem_of_cons; [intros [->|?]|intros ?; apply Hall; rewrite elem_of_cons]; eauto.
Qed.

Lemma split_newline (raw : bytes) :
  raw = (if bool_decide (last raw = Some 10%N) then removelast raw else raw) ++ (if bool_decide (last raw = Some 10%N) then [10%N] else []).
Proof.
  case_bool_decide as H; [|by rewrite app_nil_r]. apply last_Some in H as [l ->]. by rewrite removelast_last.
Qed.

Lemma transform_line_inv raw n path o :
  transform_line raw n path = Ok o →
  (lo_rewritten o = false ∧ lo_output o = raw) ∨ (lo_rewritten o = true ∧ stripped raw (lo_output o)).
Proof.
  unfold transform_line. set (nl := bool_decide (last raw = Some 10%N)). set (content := if nl then removelast raw else raw).
  pose proof (split_newline raw) as Hraw. fold nl content in Hraw.
  destruct (forallb ascii_space content); [intros [= <-]; by left|].
  destruct (from_utf8 content) as [text|] eqn:Ht; [|intros [= <-]; by left].
  destruct (json_parse text) as [v|] eqn:Hv; [|intros [= <-]; by left].
  destruct (deserialize_wal_line v) as [w|] eqn:Hw; [|intros [= <-]; by left].
  destruct (get #"params" v) as [[| | | | |params]|] eqn:Hp; try (intros [= <-]; by left).
  destruct (check_vectors params false n path VECTOR_PARAM_KEYS) as [[]|e] eqn:Hc; simpl; [|intros [= <-]; by left|done].
  intros [= <-]. right. split; [done|]. apply check_vectors_spec in Hc as [Hc _].
  apply (Stripped _ _ text v params content (if nl then [10%N] else [])); try done.
  unfold nl. case_bool_decide; [by right|by left].
Qed.

(** What the second pass writes is every line in order, and the first pass has measured it. *)
Lemma rewritten_total ls n path r r' :
  scan_lines ls n path r = Ok r' →
  ∃ outs, rewritten_bytes ls n path = (Ok (concat outs), concat outs) ∧
    Forall2 (λ raw out, out = raw ∨ stripped raw out) ls outs ∧
    sc_bytes_after r' = (sc_bytes_after r + N.of_nat (length (concat outs)))%N ∧ sc_bytes_before r' = sc_bytes_before r.
Proof.
  revert n r. induction ls as [|raw ls IH]; intros n r; cbn [scan_lines rewritten_bytes].
  - intros [= <-]. exists []. cbn [concat length]. by rewrite N.add_0_r.
  - destruct (transform_line raw (S n) path) as [o|e] eqn:Ho; [|done]. cbn [rbind]. intros Hs.
    apply IH in Hs as (outs & -> & Hall & Hb & Hbb). cbn [sc_bytes_after sc_bytes_before rmap] in *.
    exists (lo_output o :: outs). cbn [concat]. split; [done|]. split; [|split; [rewrite Hb, length_app; lia|done]].
    constructor; [|done]. apply transform_line_inv in Ho as [[_ ->]|[_ ?]]; [by left|by right].
Qed.

(** ** One file *)

Lemma tmp_not_jsonl name uuid : is_jsonl (tmp_name name uuid) = false.
Proof.
  unfold is_jsonl, extension, tmp_name. apply bool_decide_eq_false_2.
  assert (name ++ #"." ++ uuid ++ #".tmp" = (name ++ #"." ++ uuid) ++ 46%N :: #"tmp") as -> by (by rewrite <- !app_assoc).
  case_bool_decide; [done|]. rewrite split_on_app by done.
  change (split_on is_dot #"tmp") with [ #"tmp" ]. rewrite reverse_app. simpl.
  destruct (reverse (split_on is_dot _)) as [|x l]; [done|]. by case_bool_decide.
Qed.

Global Instance strip_fault_eq_dec : EqDecision strip_fault.
Proof. solve_decision. Defined.

(** The outcome of one file's run on a directory where its contents were [b]. *)
Definition whole_or_untouched (name tmp : str) (b : bytes) (d d' : gmap str bytes) : Prop :=
  (∀ f, f ≠ name → f ≠ tmp → d' !! f = d !! f) ∧
  (d' !! name = Some b ∨
   ∃ outs, Forall2 (λ raw out, out = raw ∨ stripped raw out) (raw_lines b) outs ∧ d' !! name = Some (concat outs) ∧ d' !! tmp = None).

Lemma rewrite_file_spec flt uuid name path b d r r' d' outs :
  rewritten_bytes (raw_lines b) 0 path = (Ok (concat outs), concat outs) →
  d !! name = Some b → rewrite_file flt uuid name path b d = (r', d') → r = r' →
  let tmp := tmp_name name uuid in
  (∀ f, f ≠ name → f ≠ tmp → d' !! f = d !! f) ∧
  ((d' !! name = Some b ∧ r ≠ Some (Ok tt)) ∨
   (d' !! name = Some (concat outs) ∧ d' !! tmp = None ∧ ∀ e, r ≠ Some (Err e))).
Proof.
  intros Hr Hb H ->. cbv zeta. set (tmp := tmp_name name uuid) in *.
  assert (name ≠ tmp) as Hne.
  { intros Hn. apply (f_equal length) in Hn. unfold tmp, tmp_name in Hn. rewrite !length_app in Hn. simpl in Hn. lia. }
  assert (∀ x, <[tmp := x]> d !! name = Some b) as Hi by (intros; by rewrite lookup_insert_ne).
  unfold rewrite_file in H. fold tmp in H. rewrite Hr in H. cbv beta iota zeta in H.
  destruct flt; try destruct cleaned; unfold commit_or_cleanup in H; rewrite ?lookup_insert_eq in H; injection H as <- <-;
    (split; [intros f Hf1 Hf2; by simplify_map_eq|]).
  all: first [left; split; [by simplify_map_eq|done] | right; split; [by simplify_map_eq|]; split; [by simplify_map_eq|done]].
Qed.

(** C38. Whatever fails while a file is rewritten, and wherever the process dies, every other file keeps
    its bytes, and the file itself has its old bytes or all its lines, each as it was or without its
    vectors; what an interrupted run leaves beside it is not read as a log file.  A dry run writes
    nothing; a run that reports an error has left the file as it was, unless only the final size
    could not be read; and a run that succeeds has done what the dry run foretold. *)
Theorem stripping_is_atomic (flt : strip_fault) (uuid name : str) (path : list str) (d : gmap str bytes) (b : bytes) :
  d !! name = Some b →
  let tmp := tmp_name name uuid in
  let '(res, d') := strip_one_file flt uuid false path name d in
  whole_or_untouched name tmp b d d' ∧ is_jsonl tmp = false ∧
  (strip_one_file flt uuid true path name d).2 = d ∧
  (∀ e, res = Some (Err e) → flt ≠ SSizeFails → d' !! name = Some b) ∧
  (∀ f, res = Some (Ok f) → (strip_one_file flt uuid true path name d).1 = Some (Ok f) ∧
     (∃ b', d' !! name = Some b' ∧ fr_bytes_before f = N.of_nat (length b) ∧ fr_bytes_after f = N.of_nat (length b')) ∧
     (fr_rewritten f = false → d' = d)).
Proof.
  intros Hb. cbv zeta. set (tmp := tmp_name name uuid).
  assert (is_jsonl tmp = false) as Hj by apply tmp_not_jsonl.
  assert (∀ d' : gmap str bytes, d' = d → whole_or_untouched name tmp b d d') as Hsame by (intros ? ->; split; [done|by left]).
  unfold strip_one_file. rewrite Hb. destruct (scan_file b (path ++ [name])) as [scan|e] eqn:Hscan.
  2: { destruct flt; (split_and!; [by apply Hsame|done|done|done|done]). }
  apply rewritten_total in Hscan as (outs & Hr & Hall & Hafter & Hbefore). cbn [sc_bytes_after sc_bytes_before] in Hafter, Hbefore.
  destruct (decide (flt = SReadFails)) as [->|Hrf]; [split_and!; [by apply Hsame|done..]|].
  destruct (sc_needs_rewrite scan) eqn:Hn; cbn [negb].
  2: { destruct flt; [|done|..]; (split_and!; [by apply Hsame|done|done|done|]); intros f [= <-]; (split; [done|]); (split; [by exists b|done]). }
  destruct (rewrite_file flt uuid name (path ++ [name]) b d) as [r d'] eqn:Hw.
  apply (rewrite_file_spec _ _ _ _ _ _ r _ _ outs Hr Hb) in Hw as [Hframe Hwhole]; [|done]. fold tmp in Hframe, Hwhole.
  assert (whole_or_untouched name tmp b d d') as Hd.
  { split; [done|]. destruct Hwhole as [[? _]|(? & ? & _)]; [by left|right; by exists outs]. }
  assert (∀ A (x y : A), match flt with SReadFails => x | _ => y end = y) as Hflt by (intros; by destruct flt).
  rewrite !Hflt. destruct r as [[[]|e]|].
  - destruct Hwhole as [[_ []]|(Hname & _)]; [done|]. rewrite Hname.
    assert (∀ A (x y : A), flt ≠ SSizeFails → match flt with SSizeFails => x | _ => y end = y) as Hsz by (intros; by destruct flt).
    destruct (decide (flt = SSizeFails)) as [->|Hne]; [split_and!; try done; by intros ? [= <-]|].
    rewrite Hsz by done. split_and!; [done..|]. intros f [= <-]. split; [by rewrite Hafter|]. split; [by exists (concat outs)|done].
  - destruct Hwhole as [[Hname _]|(_ & _ & He)]; [|by destruct (He e)]. split_and!; [done..|intros ? _ _; done|done].
  - split_and!; done.
Qed.

(** ** A second run *)

(** Nothing is left to strip from a line. *)
Definition settled_line (raw : bytes) : Prop := ∀ n path, ∃ o, transform_line raw n path = Ok o ∧ lo_rewritten o = false.

Lemma raw_lines_nil c b : raw_lines (c :: b) ≠ [].
Proof. cbn [raw_lines]. case_bool_decide; [done|]. by destruct (raw_lines b). Qed.
Lemma raw_lines_app body b : 10%N ∉ body → raw_lines (body ++ 10%N :: b) = (body ++ [10%N]) :: raw_lines b.
Proof.
  induction body as [|c body IH]; cbn [app raw_lines]; [by rewrite bool_decide_eq_true_2|].
  intros [Hc Hb]%not_elem_of_cons. rewrite bool_decide_eq_false_2 by congruence. by rewrite IH.
Qed.
Lemma raw_lines_single body : 10%N ∉ body → body ≠ [] → raw_lines body = [body].
Proof.
  induction body as [|c body IH]; [done|]. intros [Hc Hb]%not_elem_of_cons _. cbn [raw_lines].
  rewrite bool_decide_eq_false_2 by congruence. destruct body as [|c' body]; [done|]. by rewrite IH.
Qed.
(** The shape of the lines of a text: only the last may lack its newline. *)
Inductive lines_shape : list bytes → Prop :=
| ls_nil : lines_shape []
| ls_last body : 10%N ∉ body → lines_shape [body]
| ls_cons body ls : 10%N ∉ body → lines_shape ls → lines_shape ((body ++ [10%N]) :: ls).
Lemma raw_lines_shape b : lines_shape (raw_lines b).
Proof.
  induction b as [|c b IH]; cbn [raw_lines]; [constructor|]. case_bool_decide as Hc.
  - subst c. apply (ls_cons [] _); [apply not_elem_of_nil|done].
  - destruct IH as [|body Hb|body ls Hb IH].
    + apply (ls_last [c]). set_solver.
    + apply (ls_last (c :: body)). set_solver.
    + apply (ls_cons (c :: body)); [set_solver|done].
Qed.
Lemma raw_lines_concat ls : lines_shape ls → ∀ l, l ∈ raw_lines (concat ls) → l ∈ ls.
Proof.
  induction 1 as [|body Hb|body ls Hb _ IH]; intros l; cbn [concat].
  - done.
  - rewrite app_nil_r. destruct body as [|c body]; [by intros ?%elem_of_nil|]. by rewrite raw_lines_single by done.
  - rewrite <- app_assoc. cbn [app]. rewrite raw_lines_app by done. rewrite !elem_of_cons. intros [->|Hl]; [by left|right; by apply IH].
Qed.

Lemma settled_scan ls n path r :
  Forall settled_line ls → ∃ r', scan_lines ls n path r = Ok r' ∧ sc_needs_rewrite r' = sc_needs_rewrite r.
Proof.
  intros H. revert n r. induction H as [|raw ls Hraw _ IH]; intros n r; cbn [scan_lines]; [by exists r|].
  destruct (Hraw (S n) path) as (o & -> & Ho). cbn [rbind]. rewrite Ho. destruct (IH (S n) {| sc_bytes_before := sc_bytes_before r;
    sc_bytes_after := sc_bytes_after r + N.of_nat (length (lo_output o)); sc_needs_rewrite := sc_needs_rewrite r;
    sc_records_rewritten := sc_records_rewritten r + 0;
    sc_unparseable_lines := sc_unparseable_lines r + (if lo_unparseable o then 1 else 0) |}) as (r' & Hr & Hn). by exists r'.
Qed.

(** What the JSON library is relied on for: a parsed object's keys are distinct, such a value is read
    back from its text, the empty text is no value, and printed text is characters, on one line. *)
Class JsonText := {
  json_empty : json_parse [] = None;
  json_distinct s v : json_parse s = Some v → distinct_keys v = true;
  json_reparse v : distinct_keys v = true → json_parse (json_print v) = Some v;
  json_print_wf v : wf_str (json_print v);
  json_print_one_line v : 10%N ∉ json_print v;
}.
Context {JT : JsonText}.

Lemma get_replace_params v p x : get #"params" v = Some x → get #"params" (replace_params v p) = Some p.
Proof. destruct v; try done. cbn [get replace_params]. intros _. rewrite obj_get_insert. by rewrite bool_decide_eq_true_2. Qed.

Lemma stripped_settles raw out : stripped raw out → settled_line out ∧ (∃ body nl, out = body ++ nl ∧ 10%N ∉ body ∧ ((nl = [] ∧ last raw ≠ Some 10%N) ∨ nl = [10%N]) ∧ ∃ c, raw = c ++ nl).
Proof.
  intros [text v params content nl Hnl Hraw Ht Hv Hw Hp _ Hout].
  set (printed := json_print (replace_params v (strip_vector_params (VObject params)))) in *.
  assert (10%N ∉ utf8 printed) as Hone by apply utf8_no_nl, json_print_one_line.
  split.
  2: { exists (utf8 printed), nl. split; [done|]. split; [done|]. split; [done|]. by exists content. }
  intros n path. unfold transform_line. pose proof (split_newline out) as Hsplit.
  set (t := bool_decide (last out = Some 10%N)) in *. set (c := if t then removelast out else out) in *.
  assert (c = utf8 printed) as ->.
  { unfold c, t. rewrite Hout. destruct Hnl as [[-> _] | ->].
    - rewrite app_nil_r. rewrite bool_decide_eq_false_2; [done|]. intros [l Hl]%last_Some. rewrite Hl in Hone. set_solver.
    - rewrite last_snoc, removelast_last. by rewrite bool_decide_eq_true_2. }
  destruct (forallb ascii_space (utf8 printed)); [by eexists|]. rewrite from_utf8_utf8 by apply json_print_wf.
  apply json_distinct in Hv. pose proof (distinct_get _ _ _ Hv Hp) as Hps.
  assert (distinct_keys (replace_params v (strip_vector_params (VObject params))) = true) as Hd.
  { destruct v as [| | | | |m]; try done. cbn [replace_params strip_vector_params]. apply distinct_insert; [done|]. by apply distinct_remove_all. }
  unfold printed. rewrite (json_reparse _ Hd). clear Hw Hd. destruct (deserialize_wal_line _); [|by eexists].
  rewrite (get_replace_params _ _ _ Hp). cbn [strip_vector_params].
  set (kept := foldl _ params VECTOR_PARAM_KEYS).
  assert (∀ key, key ∈ VECTOR_PARAM_KEYS → obj_get key kept = None) as Hkept.
  { intros key Hin. unfold kept. rewrite obj_get_remove_all by (by apply distinct_object in Hps as [? _]). by rewrite bool_decide_eq_true_2. }
  assert (∀ ks, (∀ key, key ∈ ks → obj_get key kept = None) → check_vectors kept false n path ks = Ok false) as Hcheck.
  { induction ks as [|k ks IH]; [done|]. intros H. cbn [check_vectors]. rewrite H by (by left). apply IH. intros ? ?. apply H. by right. }
  rewrite (Hcheck _ Hkept). cbn [rbind]. eexists. by split.
Qed.
Lemma kept_settles raw n path o : transform_line raw n path = Ok o → lo_rewritten o = false → settled_line raw.
Proof.
  intros Ho Hf m path'. revert Ho. unfold transform_line.
  set (content := if bool_decide (last raw = Some 10%N) then _ else _).
  destruct (forallb ascii_space content); [by eexists|]. destruct (from_utf8 content) as [text|]; [|by eexists].
  destruct (json_parse text) as [v|]; [|by eexists]. destruct (deserialize_wal_line v) as [w|]; [|by eexists].
  destruct (get #"params" v) as [[| | | | |params]|]; try by eexists.
  destruct (check_vectors params false n path VECTOR_PARAM_KEYS) as [[]|e] eqn:Hc; cbn [rbind]; [by intros [= <-]| |done].
  apply check_vectors_spec in Hc as [_ [Hc _]]. destruct (Hc eq_refl) as [_ Hnone]. intros _.
  assert (∀ ks, (∀ key, key ∈ ks → obj_get key params = None) → check_vectors params false m path' ks = Ok false) as Hcheck.
  { induction ks as [|k ks IH]; [done|]. intros H. cbn [check_vectors]. rewrite H by (by left). apply IH. intros ? ?. apply H. by right. }
  rewrite (Hcheck _ Hnone). cbn [rbind]. eexists. by split.
Qed.

(** The lines of the rewritten file: each settled, and of the shape of the lines they came from. *)
Lemma rewritten_settled ls n path all written :
  rewritten_bytes ls n path = (Ok all, written) → lines_shape ls →
  ∃ outs, all = concat outs ∧ lines_shape outs ∧ Forall settled_line outs.
Proof.
  intros H Hs. revert n all written H. induction Hs as [|body Hb|body ls Hb Hs IH]; intros n all written; cbn [rewritten_bytes].
  - intros [= <- <-]. exists []. split; [done|]. split; [constructor|done].
  - destruct (transform_line body (S n) path) as [o|] eqn:Ho; [|done]. intros [= <- _]. exists [lo_output o]. cbn [concat].
    split; [done|]. pose proof (transform_line_inv _ _ _ _ Ho) as [[Hf ->]|[_ Hst]].
    + split; [by apply ls_last|]. constructor; [|done]. by eapply kept_settles.
    + apply stripped_settles in Hst as [Hset (body' & nl & Heq & Hb' & Hnl & c & ->)]. split; [rewrite Heq|by constructor].
      destruct Hnl as [[-> _] | ->]; [rewrite app_nil_r; by apply ls_last|]. set_solver.
  - destruct (transform_line (body ++ [10%N]) (S n) path) as [o|] eqn:Ho; [|done].
    destruct (rewritten_bytes ls (S n) path) as [[all'|] w] eqn:Hr; [|done]. cbn [rmap]. intros [= <- _].
    destruct (IH _ _ _ Hr) as (outs & -> & Hshape & Hset). exists (lo_output o :: outs). split; [done|].
    pose proof (transform_line_inv _ _ _ _ Ho) as [[Hf Heq]|[_ Hst]].
    + split; [rewrite Heq; by apply ls_cons|]. constructor; [|done]. rewrite Heq. by eapply kept_settles.
    + apply stripped_settles in Hst as [Hs' (body' & nl & Heq & Hb' & Hnl & c & Hc)]. split; [|by constructor].
      rewrite last_snoc in Hnl. destruct Hnl as [[_ Hl] | ->]; [by destruct Hl|]. rewrite Heq. by apply ls_cons.
Qed.

(** Stripping is idempotent: after a successful run on a file, another run, under any temporary
    name, finds nothing to rewrite, leaves the directory as it is, and reports the size the first
    run reported. *)
Theorem stripping_is_idempotent (flt : strip_fault) (uuid uuid' name : str) (path : list str) (d d' : gmap str bytes) (f : FileResult) :
  strip_one_file flt uuid false path name d = (Some (Ok f), d') →
  ∃ f', strip_one_file SFine uuid' false path name d' = (Some (Ok f'), d') ∧
    fr_rewritten f' = false ∧ fr_bytes_before f' = fr_bytes_after f ∧ fr_bytes_after f' = fr_bytes_after f.
Proof.
  unfold strip_one_file at 1. destruct (d !! name) as [b|] eqn:Hb; [|by destruct flt].
  destruct (decide (flt = SReadFails)) as [->|Hrf]; [done|].
  assert (∀ A (x y : A), match flt with SReadFails => x | _ => y end = y) as -> by (intros; by destruct flt).
  destruct (scan_file b (path ++ [name])) as [scan|] eqn:Hscan; [|done]. destruct (sc_needs_rewrite scan) eqn:Hn; cbn [negb].
  2: { intros [= <- <-]. unfold strip_one_file. rewrite Hb, Hscan, Hn. cbn [negb]. eexists. split_and!; done. }
  destruct (rewritten_total _ _ _ _ _ Hscan) as (outs & Hr & _). cbn [sc_needs_rewrite].
  destruct (rewrite_file flt uuid name (path ++ [name]) b d) as [r d1] eqn:Hw.
  apply (rewrite_file_spec _ _ _ _ _ _ r _ _ outs Hr Hb) in Hw as [_ Hw]; [|done].
  destruct r as [[[]|e]|]; [|done..]. destruct Hw as [[_ []]|(Hname & _)]; [done|]. rewrite Hname.
  intros H. assert (d1 = d' ∧ fr_bytes_after f = N.of_nat (length (concat outs))) as [-> Hlen] by (destruct flt; by simplify_eq/=). clear H.
  destruct (rewritten_settled _ _ _ _ _ Hr (raw_lines_shape b)) as (outs' & Heq & Hshape & Hset). rewrite Heq in Hname, Hlen.
  unfold strip_one_file. rewrite Hname. unfold scan_file.
  destruct (settled_scan (raw_lines (concat outs')) 0 (path ++ [name]) {| sc_bytes_before := N.of_nat (length (concat outs')); sc_bytes_after := 0;
    sc_needs_rewrite := false; sc_records_rewritten := 0; sc_unparseable_lines := 0 |}) as (r' & Hs & Hn').
  { apply Forall_forall. intros l Hl. by eapply Forall_forall, raw_lines_concat. }
  pose proof (rewritten_total _ _ _ _ _ Hs) as (_ & _ & _ & _ & Hbefore). rewrite Hs. cbn in Hn'. rewrite Hn'. cbn [negb].
  eexists. cbn in Hbefore. rewrite Hlen, <- Hbefore. split_and!; done.
Qed.
End strip.

(** ** Replaying a stripped log *)

Section alike.
Context {U : Unicode} {LP : LegacyPatterns} {RD : ReplayDeps}.

Definition strip_line (l : WalLine) : WalLine :=
  {| wl_seq := wl_seq l; wl_ts := wl_ts l; wl_db := wl_db l; wl_cypher := wl_cypher l; wl_params := strip_vector_params (wl_params l) |}.
(** What a run that strips a record has seen of its parameters. *)
Definition strippable (l : WalLine) : Prop :=
  ∀ m, wl_params l = VObject m → NoDup (keys m) ∧ ∀ k x, k ∈ VECTOR_PARAM_KEYS → obj_get k m = Some x → is_well_formed_number_array x = true.
(** Equal parameters but for vectors the first still has. *)
Definition lost_at (k : str) (m m' : object) : Prop :=
  k ∈ VECTOR_PARAM_KEYS ∧ obj_get k m' = None ∧ ∃ items, obj_get k m = Some (VArray items).
Definition alike (m m' : object) : Prop := ∀ k, obj_get k m = obj_get k m' ∨ lost_at k m m'.

Lemma alike_insert k x m m' : alike m m' → alike (obj_insert k x m) (obj_insert k x m').
Proof.
  intros H j. specialize (H j). unfold lost_at in *. rewrite !obj_get_insert. case_bool_decide; [by left|naive_solver].
Qed.
Lemma alike_promote c m m' : alike m m' →
  (foldl promote_step (c, m) VECTOR_PARAM_KEYS).1 = (foldl promote_step (c, m') VECTOR_PARAM_KEYS).1 ∧
  alike (foldl promote_step (c, m) VECTOR_PARAM_KEYS).2 (foldl promote_step (c, m') VECTOR_PARAM_KEYS).2.
Proof.
  generalize VECTOR_PARAM_KEYS. intros ks. revert c m m'. induction ks as [|k ks IH]; intros c m m' H; cbn [foldl]; [done|].
  unfold promote_step at 2 4 6 8. destruct (find_vector_literal k c) as [[[before lit] after]|]; [|by apply IH].
  destruct (parse_json lit); [|by apply IH]. by apply IH, alike_insert.
Qed.
Lemma alike_flatten var p obj acc m m' : alike m m' →
  let f := λ '(asg, params) '(key, v),
    let flat_key := p ++ #"_" ++ key in (asg ++ [var ++ #"." ++ key ++ #" = $" ++ flat_key], obj_insert flat_key v params) in
  (foldl f (acc, m) obj).1 = (foldl f (acc, m') obj).1 ∧ alike (foldl f (acc, m) obj).2 (foldl f (acc, m') obj).2.
Proof.
  intros H f. revert acc m m' H. induction obj as [|[k v] obj IH]; intros acc m m' H; cbn [foldl]; [done|].
  unfold f at 2 4 6 8. by apply IH, alike_insert.
Qed.
Lemma alike_expand o o' m m' ms : alike o o' → alike m m' →
  (expand_go o m ms).1 = (expand_go o' m' ms).1 ∧ alike (expand_go o m ms).2 (expand_go o' m' ms).2.
Proof.
  intros Ho. revert m m'. induction ms as [|[[[before matched] var] p] ms IH]; intros m m' H; cbn [expand_go]; [done|].
  destruct (Ho p) as [Heq|(_ & Hn & items & Hi)].
  - rewrite <- Heq. destruct (obj_get p o) as [[| | | | |[|e obj]]|];
      try (specialize (IH m m' H); destruct (expand_go o m ms), (expand_go o' m' ms); cbn [fst snd] in *; destruct IH as [-> ?]; done).
    pose proof (alike_flatten var p (e :: obj) [] m m' H) as [Hf1 Hf2]. unfold flatten_props.
    destruct (foldl _ ([], m) (e :: obj)) as [asg1 m1], (foldl _ ([], m') (e :: obj)) as [asg2 m2]. cbn [fst snd] in Hf1, Hf2. subst asg2.
    specialize (IH m1 m2 Hf2). destruct (expand_go o m1 ms), (expand_go o' m2 ms). cbn [fst snd] in *. by destruct IH as [-> ?].
  - rewrite Hn, Hi. specialize (IH m m' H). destruct (expand_go o m ms), (expand_go o' m' ms); cbn [fst snd] in *; destruct IH as [-> ?]; done.
Qed.
Lemma text_key_alike k m m' : k ∉ VECTOR_PARAM_KEYS → alike m m' → obj_get k m = obj_get k m'.
Proof. intros Hk H. destruct (H k) as [?|[? _]]; [done|contradiction]. Qed.
Lemma alike_lookup_key c m m' : alike m m' → alike (inject_derived_lookup_key c m) (inject_derived_lookup_key c m').
Proof.
  intros H. unfold inject_derived_lookup_key. destruct (negb _); [done|]. cbv zeta.
  rewrite !(text_key_alike _ m m') by (done || (by apply (bool_decide_eq_false_1 _))).
  by apply alike_insert.
Qed.
Lemma alike_strip m : NoDup (keys m) → (∀ k x, k ∈ VECTOR_PARAM_KEYS → obj_get k m = Some x → is_well_formed_number_array x = true) →
  ∃ m', strip_vector_params (VObject m) = VObject m' ∧ alike m m'.
Proof.
  intros Hm Ha. eexists. split; [done|]. intros k. unfold lost_at. rewrite obj_get_remove_all by done.
  destruct (decide (k ∈ VECTOR_PARAM_KEYS)) as [Hk|Hk]; [|left; by rewrite bool_decide_eq_false_2].
  rewrite bool_decide_eq_true_2 by done. destruct (obj_get k m) as [x|] eqn:Hx; [|by left]. right. specialize (Ha k x Hk Hx).
  destruct x; try done. split; [done|]. split; [done|]. by eexists.
Qed.

Definition same_statement (r r' : PendingRow) : Prop :=
  pr_cypher r = pr_cypher r' ∧ pr_match_prefixed r = pr_match_prefixed r' ∧ pr_seq r = pr_seq r'.
Lemma pending_alike l : strippable l →
  same_statement (pending_row l) (pending_row (strip_line l)) ∧ alike (pr_params (pending_row l)) (pr_params (pending_row (strip_line l))).
Proof.
  intros Hl. unfold pending_row. cbn [strip_line wl_cypher wl_params wl_seq].
  destruct (wl_params l) as [| | | | |m] eqn:Hp; try (cbn [strip_vector_params]; split; [by destruct (promote_inline_vector_literals_to_params _ _), (expand_bulk_property_set _ _)|by left]).
  destruct (Hl m Hp) as [Hm Ha]. destruct (alike_strip m Hm Ha) as (m' & -> & Hmm).
  cbn [promote_inline_vector_literals_to_params].
  destruct (alike_promote (strip_vecf32 (wl_cypher l)) m m' Hmm) as [H1 H2].
  destruct (foldl promote_step (_, m) _) as [c1 m1], (foldl promote_step (_, m') _) as [c2 m2]. cbn [fst snd] in H1, H2. subst c2.
  cbn [expand_bulk_property_set]. destruct (find_bulk_sets c1) as [ms rest].
  destruct (alike_expand m1 m2 m1 m2 ms H2 H2) as [H3 H4].
  destruct (expand_go m1 m1 ms) as [t1 x1], (expand_go m2 m2 ms) as [t2 x2]. cbn [fst snd] in H3, H4. subst t2.
  split; [done|]. cbn [pr_params]. by apply alike_lookup_key.
Qed.

(** The rows of two windows, when the requests of [D] have been settled on both. *)
Definition row_alike (i : nat) (D : list (nat * str)) (ro ro' : PendingRow * RowEmbeddingOutcome) : Prop :=
  same_statement ro.1 ro'.1 ∧ ro.2 = ro'.2 ∧
  (ro.2 = Proceed → ∀ k, obj_get k (pr_params ro.1) = obj_get k (pr_params ro'.1) ∨ (k ∈ VECTOR_PARAM_KEYS ∧ (i, k) ∉ D)).
Abbreviation wrows := (list (PendingRow * RowEmbeddingOutcome)).
Definition rows_alike (D : list (nat * str)) (rows rows' : wrows) : Prop :=
  length rows = length rows' ∧ ∀ i ro ro', rows !! i = Some ro → rows' !! i = Some ro' → row_alike i D ro ro'.

Lemma resolve_at_alike dim D rows rows' t v :
  rows_alike D rows rows' → rows_alike (t :: D) (resolve_at dim rows t v) (resolve_at dim rows' t v).
Proof.
  intros [Hl H]. unfold resolve_at. split; [by rewrite !length_alter|]. destruct t as [i k]. cbn [fst snd]. intros j ro ro'.
  destruct (decide (i = j)) as [->|Hne].
  - rewrite !list_lookup_alter_eq. intros ([row o] & Hr & ->)%fmap_Some ([row' o'] & Hr' & ->)%fmap_Some.
    destruct (H j _ _ Hr Hr') as ((Hc & Hm & Hs) & Ho & Hk). cbn [fst snd] in *. subst o'.
    assert (∀ x, row_alike j ((j, k) :: D) (set_params (obj_insert k x (pr_params row)) row, o) (set_params (obj_insert k x (pr_params row')) row', o)) as Hins.
    { intros x. split; [done|]. split; [done|]. cbn [fst snd pr_params set_params]. intros Hp key. rewrite !obj_get_insert. case_bool_decide as Hkey; [by left|].
      destruct (Hk Hp key) as [?|[? ?]]; [by left|right]. split; [done|]. rewrite not_elem_of_cons. split; [congruence|done]. }
    unfold apply_key_resolution. rewrite <- Hc. destruct v as [x|]; [apply Hins|]. destruct (is_vector_only_set _ _); [|apply Hins]. done.
  - rewrite !list_lookup_alter_ne by done. intros Hr Hr'. destruct (H j _ _ Hr Hr') as (Hs & Ho & Hk). split; [done|]. split; [done|].
    intros Hp key. destruct (Hk Hp key) as [?|[? ?]]; [by left|right]. split; [done|]. rewrite not_elem_of_cons. split; [congruence|done].
Qed.
Lemma immediates_alike dim ts : ∀ D rows rows', rows_alike D rows rows' →
  rows_alike (reverse ts ++ D) (foldl (λ rows t, resolve_at dim rows t None) rows ts) (foldl (λ rows t, resolve_at dim rows t None) rows' ts).
Proof.
  induction ts as [|t ts IH]; intros D rows rows' H; cbn [foldl]; [done|].
  rewrite reverse_cons, <- app_assoc. by apply IH, resolve_at_alike.
Qed.
Lemma failures_alike dim ts : ∀ D rows rows' s, rows_alike D rows rows' →
  rows_alike (reverse ts ++ D) (foldl (resolve_failure dim) (rows, s) ts).1 (foldl (resolve_failure dim) (rows', s) ts).1 ∧
  (foldl (resolve_failure dim) (rows, s) ts).2 = (foldl (resolve_failure dim) (rows', s) ts).2.
Proof.
  induction ts as [|t ts IH]; intros D rows rows' s H; cbn [foldl]; [done|]. unfold resolve_failure at 2 4 6 8.
  rewrite reverse_cons, <- app_assoc. by apply IH, resolve_at_alike.
Qed.
Lemma answers_alike dim tvs : ∀ D rows rows' s, rows_alike D rows rows' →
  rows_alike (reverse tvs.*1 ++ D) (foldl (resolve_answer dim) (rows, s) tvs).1 (foldl (resolve_answer dim) (rows', s) tvs).1 ∧
  (foldl (resolve_answer dim) (rows, s) tvs).2 = (foldl (resolve_answer dim) (rows', s) tvs).2.
Proof.
  induction tvs as [|[t v] tvs IH]; intros D rows rows' s H; cbn [foldl]; [done|]. unfold resolve_answer at 2 4 6 8.
  rewrite fmap_cons, reverse_cons, <- app_assoc. destruct (validate_recomputed_vector v dim); by apply IH, resolve_at_alike.
Qed.
(** The same statement, with the same parameters but for vectors that it does not name. *)
Definition executes_alike (r r' : PendingRow) : Prop :=
  same_statement r r' ∧
  ∀ k, obj_get k (pr_params r) = obj_get k (pr_params r') ∨ (k ∈ VECTOR_PARAM_KEYS ∧ contains (#"$" ++ k) (pr_cypher r) = false).
Lemma proceeding_alike D rows rows' : rows_alike D rows rows' →
  (∀ i ro k, rows !! i = Some ro → k ∈ VECTOR_PARAM_KEYS → contains (#"$" ++ k) (pr_cypher ro.1) = true → (i, k) ∈ D) →
  Forall2 executes_alike (omap (λ '(row, o), match o with Proceed => Some row | Skip => None end) rows)
    (omap (λ '(row, o), match o with Proceed => Some row | Skip => None end) rows').
Proof.
  intros [Hl H] HD.
  assert (Forall2 (λ ro ro', ro.2 = ro'.2 ∧ (ro.2 = Proceed → executes_alike ro.1 ro'.1)) rows rows') as Hall.
  { apply Forall2_same_length_lookup_2; [done|]. intros i ro ro' Hr Hr'. destruct (H i _ _ Hr Hr') as (Hs & Ho & Hk). split; [done|].
    intros Hp. split; [done|]. intros k. destruct (Hk Hp k) as [?|[Hv Hn]]; [by left|]. right. split; [done|].
    destruct (contains _ _) eqn:Hc; [|done]. destruct Hn. by eapply HD. }
  clear Hl H HD. induction Hall as [|[r o] [r' o'] rows rows' [Ho He] _ IH]; [constructor|]. cbn [omap list_omap fst snd] in *. subst o'.
  destruct o; [constructor; [by apply He|done]|done].
Qed.

(** Every vector a statement names is a request of its window. *)
Lemma requests_named (w : list PendingRow) i r k :
  w !! i = Some r → k ∈ VECTOR_PARAM_KEYS → contains (#"$" ++ k) (pr_cypher r) = true → ∃ t, (i, k, t) ∈ window_requests w.
Proof.
  intros Hi Hk Hc. assert (∃ tk, (k, tk) ∈ EMBEDDING_TEXT_PAIRS) as [tk Hin].
  { change VECTOR_PARAM_KEYS with (EMBEDDING_TEXT_PAIRS.*1) in Hk. apply list_elem_of_fmap in Hk as ([? tk] & -> & ?). by exists tk. }
  eexists. unfold window_requests. apply list_elem_of_In, in_concat. eexists. split.
  - apply list_elem_of_In, list_elem_of_lookup. exists i. rewrite list_lookup_imap, Hi. done.
  - apply list_elem_of_In, list_elem_of_omap. exists (k, tk). split; [done|]. by rewrite Hc.
Qed.
Lemma requests_covered reqs i k t :
  (i, k, t) ∈ reqs → (i, k) ∈ reverse (queued_requests reqs).*1 ++ reverse (immediate_requests reqs) ++ [].
Proof.
  intros H. rewrite !elem_of_app, !elem_of_reverse. destruct t as [t|].
  - left. apply list_elem_of_fmap. exists (i, k, t). split; [done|]. apply list_elem_of_omap. by exists (i, k, Some t).
  - right. left. apply list_elem_of_omap. by exists (i, k, None).
Qed.
Lemma window_requests_alike w w' :
  Forall2 (λ r r', same_statement r r' ∧ alike (pr_params r) (pr_params r')) w w' → window_requests w = window_requests w'.
Proof.
  intros H. unfold window_requests. f_equal. apply list_eq. intros i. rewrite !list_lookup_imap.
  pose proof (proj1 (Forall2_lookup _ w w') H i) as Hi. destruct Hi as [r r' [(Hc & _ & _) Ha]|]; [|done]. cbn [fmap option_fmap option_map]. f_equal.
  rewrite <- Hc. unfold EMBEDDING_TEXT_PAIRS. cbn [omap list_omap].
  by rewrite !(text_key_alike _ (pr_params r) (pr_params r')) by (done || (by apply (bool_decide_eq_false_1 _))).
Qed.

Lemma window_settled reqs D w rows rows' s s' (n : nat) :
  rows_alike D rows rows' → s = s' → row_ids rows = (λ r, (pr_cypher r, pr_seq r)) <$> w →
  reqs = window_requests w → D = reverse (queued_requests reqs).*1 ++ reverse (immediate_requests reqs) ++ [] →
  let proceed := omap (λ '(row, o), match o with Proceed => Some row | Skip => None end) in
  n = n ∧ bump embeddings_skip_rows (N.of_nat (length rows - length (proceed rows))) s =
          bump embeddings_skip_rows (N.of_nat (length rows' - length (proceed rows'))) s' ∧
  Forall2 executes_alike (proceed rows) (proceed rows').
Proof.
  intros Hr -> Hids -> ->. cbv zeta.
  assert (Forall2 executes_alike (omap (λ '(row, o), match o with Proceed => Some row | Skip => None end) rows)
    (omap (λ '(row, o), match o with Proceed => Some row | Skip => None end) rows')) as Hf.
  { eapply proceeding_alike; [done|]. intros i ro k Hi Hk Hc.
    apply (f_equal (lookup i)) in Hids. unfold row_ids in Hids. rewrite !list_lookup_fmap, Hi in Hids. cbn in Hids.
    destruct (w !! i) as [r|] eqn:Hw; [|done]. cbn in Hids. injection Hids as Hcy _. rewrite Hcy in Hc.
    destruct (requests_named w i r k Hw Hk Hc) as [t Ht]. by eapply requests_covered. }
  split; [done|]. split; [|done]. by rewrite (proj1 Hr), (Forall2_length _ _ _ Hf).
Qed.

(** C40. Stripping does not change what a replay does: the window of a log's records and the window of
    the same records without their stored vectors make the same requests of the embedder and count
    the same, and the rows that are executed are the same statements in the same order, with the
    same parameters except for vectors the statement never names. *)
Theorem stripped_log_replays_alike (ls : list WalLine) (ef : nat → list str → result Error (list (list f32))) (n : nat) (dim : N) (s : ReplayStats) :
  Forall strippable ls →
  let '(res, n1, s1) := resolve_embed_window (pending_row <$> ls) ef n dim s in
  let '(res', n2, s2) := resolve_embed_window (pending_row <$> (strip_line <$> ls)) ef n dim s in
  n1 = n2 ∧ s1 = s2 ∧ Forall2 executes_alike res res'.
Proof.
  intros Hs. set (w := pending_row <$> ls). set (w' := pending_row <$> (strip_line <$> ls)).
  assert (Forall2 (λ r r', same_statement r r' ∧ alike (pr_params r) (pr_params r')) w w') as Hw.
  { unfold w, w'. rewrite <- list_fmap_compose. apply Forall2_fmap, Forall_Forall2_diag. eapply Forall_impl; [done|]. intros l. apply pending_alike. }
  assert (rows_alike [] ((λ r, (r, Proceed)) <$> w) ((λ r, (r, Proceed)) <$> w')) as Hrows.
  { split; [rewrite !length_fmap; by eapply Forall2_length|]. intros i ro ro'. rewrite !list_lookup_fmap.
    intros (r & Hr & ->)%fmap_Some (r' & Hr' & ->)%fmap_Some. destruct (Forall2_lookup_lr _ _ _ _ _ _ Hw Hr Hr') as [H1 H2].
    split; [done|]. split; [done|]. intros _ k. destruct (H2 k) as [?|[? _]]; [by left|right]. split; [done|]. apply not_elem_of_nil. }
  unfold resolve_embed_window. rewrite <- (window_requests_alike w w' Hw). set (reqs := window_requests w).
  cbv zeta. apply (immediates_alike dim (immediate_requests reqs)) in Hrows.
  set (s1 := bump embeddings_recompute_skipped_no_text _ _). set (rows0 := foldl _ ((λ r, (r, Proceed)) <$> w) _) in *. set (rows0' := foldl _ ((λ r, (r, Proceed)) <$> w') _) in *.
  assert (row_ids rows0 = (λ r, (pr_cypher r, pr_seq r)) <$> w) as Hids.
  { unfold rows0. rewrite immediate_ids. unfold row_ids. by rewrite <- list_fmap_compose. }
  destruct (queued_requests reqs) as [|q qs] eqn:Hq.
  { apply (window_settled reqs (reverse (queued_requests reqs).*1 ++ reverse (immediate_requests reqs) ++ []) w rows0 rows0' s1 s1 n); [by rewrite Hq|done..]. }
  rewrite <- Hq. set (queued := queued_requests reqs).
  set (out := match ef n _ with Ok _ => _ | Err _ => _ end). set (out' := match ef n _ with Ok _ => _ | Err _ => _ end).
  assert (rows_alike (reverse queued.*1 ++ reverse (immediate_requests reqs) ++ []) out.1 out'.1 ∧ out.2 = out'.2 ∧ row_ids out.1 = row_ids rows0) as (Ho & Hs' & Hi).
  { unfold out, out'. destruct (ef n queued.*2) as [vs|e].
    - case_bool_decide as Hvs.
      + pose proof (answers_alike dim (zip queued.*1 vs) _ _ _ s1 Hrows) as [Ha Hb]. split; [|split; [done|apply answers_ids]].
        revert Ha. rewrite fst_zip by (rewrite length_fmap; lia). done.
      + pose proof (failures_alike dim queued.*1 _ _ _ s1 Hrows) as [Ha Hb]. split; [done|]. split; [done|apply failures_ids].
    - pose proof (failures_alike dim queued.*1 _ _ _ s1 Hrows) as [Ha Hb]. split; [done|]. split; [done|apply failures_ids]. }
  destruct out as [rows1 st1], out' as [rows1' st1']. cbn [fst snd] in *.
  apply (window_settled reqs _ w rows1 rows1' st1 st1' (S n) Ho); [done|by rewrite Hi|done..].
Qed.
End alike.

(** ** Witnesses *)

(** A codec that prints values as binary digits and reads only values with distinct keys. *)
Definition LineAttrs : AttrCodec := {|
  json_parse s := ts ← parse_any s; v ← of_tree <$> gen_tree_of_list [] ts; if distinct_keys v then Some v else None;
  json_print v := print_any (gen_tree_to_list (to_tree v));
  pointers_of_json := json_ptrs; json_of_pointers p := Some (ptrs_json p);
|}.
Global Instance LineAttrsText : @JsonText LineAttrs.
Proof.
  split.
  - vm_compute. reflexivity.
  - intros s v. cbn [json_parse LineAttrs]. intros (ts & _ & H)%bind_Some. apply bind_Some in H as (w & _ & H).
    destruct (distinct_keys w) eqn:Hd; [by simplify_eq|done].
  - intros v Hv. cbn [json_parse json_print LineAttrs]. rewrite parse_print_any. cbn [mbind option_bind].
    rewrite <- (app_nil_r (gen_tree_to_list _)), gen_tree_of_to_list. cbn [gen_tree_of_list head fmap option_fmap option_map mbind option_bind].
    by rewrite of_to_tree, Hv.
  - intros v. apply print_any_wf.
  - intros v. cbn [json_print LineAttrs]. unfold print_any. induction (countable.encode _); cbn [pos_str]; rewrite ?elem_of_cons, ?elem_of_nil; intuition done.
Qed.

Definition toy_record (params : value) : value :=
  VObject [(#"seq", VNumber (PosInt 1)); (#"ts", VString #"t"); (#"db", VString #"d"); (#"cypher", VString #"c"); (#"params", params)].
Definition toy_line : bytes :=
  utf8 (@json_print LineAttrs (toy_record (VObject [(#"name", VString #"x"); (#"name_embedding", VArray [VNumber (PosInt 1); VNumber (PosInt 2)])]))) ++ [10%N].
Definition toy_dir : gmap str bytes := {[ #"1.jsonl" := toy_line ++ #"not json" ]}.
Definition toy_strip (flt : strip_fault) (d : gmap str bytes) := @strip_one_file LineAttrs flt #"u" false [] #"1.jsonl" d.

(** The toy file is rewritten, to fewer bytes. *)
Example toy_strips : match (toy_strip SFine toy_dir).1 with Some (Ok f) => fr_rewritten f && (fr_bytes_after f <? fr_bytes_before f)%N | _ => false end = true.
Proof. vm_compute. reflexivity. Qed.

Lemma stripping_is_atomic_witness :
  toy_dir !! #"1.jsonl" = Some (toy_line ++ #"not json") ∧
  whole_or_untouched (AC := LineAttrs) #"1.jsonl" (tmp_name #"1.jsonl" #"u") (toy_line ++ #"not json") toy_dir (toy_strip (SDiesWriting 3) toy_dir).2.
Proof.
  assert (toy_dir !! #"1.jsonl" = Some (toy_line ++ #"not json")) as H by (vm_compute; reflexivity).
  split; [exact H|].
  pose proof (@stripping_is_atomic LineAttrs (SDiesWriting 3) #"u" #"1.jsonl" [] toy_dir _ H) as A. cbv zeta in A.
  change (strip_one_file (SDiesWriting 3) #"u" false [] #"1.jsonl" toy_dir) with (toy_strip (SDiesWriting 3) toy_dir) in A.
  destruct (toy_strip (SDiesWriting 3) toy_dir) as [r d']. exact (proj1 A).
Defined.
Definition toy_report : FileResult := match (toy_strip SFine toy_dir).1 with Some (Ok f) => f | _ => {| fr_rewritten := false; fr_bytes_before := 0; fr_bytes_after := 0; fr_records_rewritten := 0; fr_unparseable_lines := 0 |} end.
Lemma stripping_is_idempotent_witness :
  ∃ f', toy_strip SFine (toy_strip SFine toy_dir).2 = (Some (Ok f'), (toy_strip SFine toy_dir).2) ∧ fr_rewritten f' = false.
Proof.
  assert (toy_strip SFine toy_dir = (Some (Ok toy_report), (toy_strip SFine toy_dir).2)) as H by (vm_compute; reflexivity).
  destruct (@stripping_is_idempotent LineAttrs LineAttrsText SFine #"u" #"u" #"1.jsonl" [] _ _ _ H) as (f' & Hf & Hr & _).
  exists f'. split; [exact Hf|exact Hr].
Defined.

#[local] Instance StripReplay : ReplayDeps := {| parse_wal_line _ := None; f32 := N; number_of_f32 n := Some (PosInt n) |}.
#[local] Instance StripLegacy : LegacyPatterns := {| find_vector_literal _ _ := None; find_bulk_sets s := ([], s); parse_json _ := None |}.
Definition toy_wal_line : WalLine :=
  {| wl_seq := 1; wl_ts := []; wl_db := []; wl_cypher := #"MERGE (n {name: $name}) SET n.e = $name_embedding";
     wl_params := VObject [(#"name", VString #"x"); (#"name_embedding", VArray [VNumber (PosInt 1)])] |}.
Definition toy_window (ls : list WalLine) :=
  @resolve_embed_window AsciiUnicode StripReplay (@pending_row AsciiUnicode StripLegacy <$> ls) (λ _ ts, Ok ((λ _, [7%N]) <$> ts)) 0 1 empty_stats.
Lemma stripped_log_replays_alike_witness :
  Forall strippable [toy_wal_line] ∧ Forall2 executes_alike (toy_window [toy_wal_line]).1.1 (toy_window [strip_line toy_wal_line]).1.1.
Proof.
  assert (Forall strippable [toy_wal_line]) as H.
  { constructor; [|constructor]. intros m [= <-]. split; [by apply (bool_decide_eq_true_1 _)|].
    intros k x Hk. unfold VECTOR_PARAM_KEYS in Hk. rewrite !elem_of_cons, elem_of_nil in Hk.
    destruct Hk as [->|[->|[->|[->|[]]]]]; intros Hx; vm_compute in Hx; [injection Hx as <-; reflexivity|discriminate..]. }
  split; [exact H|].
  pose proof (@stripped_log_replays_alike AsciiUnicode StripLegacy StripReplay [toy_wal_line] (λ _ ts, Ok ((λ _, [7%N]) <$> ts)) 0 1 empty_stats H) as A.
  change (resolve_embed_window (pending_row <$> [toy_wal_line]) (λ _ ts, Ok ((λ _, [7%N]) <$> ts)) 0 1 empty_stats) with (toy_window [toy_wal_line]) in A.
  change (resolve_embed_window (pending_row <$> (strip_line <$> [toy_wal_line])) (λ _ ts, Ok ((λ _, [7%N]) <$> ts)) 0 1 empty_stats) with (toy_window [strip_line toy_wal_line]) in A.
  destruct (toy_window [toy_wal_line]) as [[r1 n1] s1], (toy_window [strip_line toy_wal_line]) as [[r2 n2] s2].
  exact (proj2 (proj2 A)).
Defined.
