(* ===== verification/MergeEntities.v ===== *)
(** * MergeEntities: merging entities on request (core/src/corrections.rs, with its handler in
    core/src/handlers.rs)

    Queries are taken to succeed, as in Graph.v; [new_uuid] generates fresh uuids as a function of
    the graph, [display] is the text of an error, [ts_text] that of a timestamp.  Errors are text, because the result
    looks into them. *)

From S2P Require Import Prelude Text Numbers Json WalGeneration WalScan Checkpoint WalGroup Wal LegacyWal Replay WalExec Pointer Ontology Prompts Graph CrossGroup CrossGroupTheory Assert Corrections.

(** Source: core/src/corrections.rs 87-99 (MergeEntitiesParams) *)
Record MergeEntitiesParams := {
  mp_canonical_uuid : option str; mp_canonical_name : option str; mp_alias_uuids : list str; mp_alias_names : list str;
  mp_merge_all_by_name : bool; mp_kind : option str; mp_group_id : str; mp_dry_run : bool }.
(** Source: core/src/corrections.rs 102-108 (AliasInfo) *)
Record AliasInfo := { ai_uuid : str; ai_name : str; ai_active_edges : N; ai_duplicate_edges : N; ai_foreign_edges_skipped : N }.
(** Source: core/src/corrections.rs 111-116 (MergePlan) *)
Record MergePlan := { pl_aliases : list AliasInfo; pl_rewritten : N; pl_collapsed : N; pl_foreign : N }.
(** Source: core/src/corrections.rs 119-129 (MergeEntitiesResult) *)
Record MergeEntitiesResult := {
  mr_success : bool; mr_canonical_uuid : str; mr_merged_count : N; mr_skipped : N; mr_rewritten : N; mr_deduplicated : N; mr_foreign : N;
  mr_errors : list str; mr_plan : option MergePlan }.
Definition refused (canonical_uuid : str) (errors : list str) : MergeEntitiesResult :=
  {| mr_success := false; mr_canonical_uuid := canonical_uuid; mr_merged_count := 0; mr_skipped := 0; mr_rewritten := 0; mr_deduplicated := 0; mr_foreign := 0;
     mr_errors := errors; mr_plan := None |}.

(** The dash of the messages. *)
Definition dash : str := [32%N; 8212%N; 32%N].

(** ** Queries *)

(** Source: core/src/db.rs 2925-2951 (get_entities_by_uuids) *)
Definition get_entities_by_uuids (g : graph) (uuids : list str) : list ent := List.filter (λ e, bool_decide (en_uuid e ∈ uuids)) (g_ents g).
(** Source: core/src/db.rs 2960-2993 (get_entities_by_name_all) *)
Definition get_entities_by_name_all (g : graph) (name group_id : str) (kind : option str) : list ent :=
  List.filter (λ e, match kind with Some k => bool_decide (kind_of e = k) | None => true end)
    (sort_by ent_leb (List.filter (λ e, bool_decide (en_name e = name) && bool_decide (en_group e = group_id)) (g_ents g))).
(** A statement that rewrites one row; it is recorded for the row's group. *)
Definition on_ent (uuid : str) (f : ent → ent) (g : graph) : graph :=
  record_mut (match get_entity_by_uuid g uuid with Some e => en_group e | None => [] end) (MEntity uuid)
    (with_ents ((λ e, if bool_decide (en_uuid e = uuid) then f e else e) <$> g_ents g) g).
Definition set_labels (labels : list str) (e : ent) : ent :=
  {| en_uuid := en_uuid e; en_name := en_name e; en_group := en_group e; en_labels := labels; en_kind := en_kind e; en_key := en_key e; en_created := en_created e; en_attrs := en_attrs e |}.
Definition set_attributes (attributes : str) (e : ent) : ent :=
  {| en_uuid := en_uuid e; en_name := en_name e; en_group := en_group e; en_labels := en_labels e; en_kind := en_kind e; en_key := en_key e; en_created := en_created e; en_attrs := attributes |}.
Definition set_created_at (created : N) (e : ent) : ent :=
  {| en_uuid := en_uuid e; en_name := en_name e; en_group := en_group e; en_labels := en_labels e; en_kind := en_kind e; en_key := en_key e; en_created := created; en_attrs := en_attrs e |}.
(** Source: core/src/db.rs 3459-3464 (update_entity_labels) *)
Definition update_entity_labels (uuid : str) (labels : list str) (g : graph) : graph := on_ent uuid (set_labels labels) g.
(** Source: core/src/db.rs 3469-3474 (update_entity_attributes) *)
Definition update_entity_attributes (uuid attributes : str) (g : graph) : graph := on_ent uuid (set_attributes attributes) g.
(** Source: core/src/db.rs 3004-3009 (update_entity_created_at) *)
Definition update_entity_created_at (uuid : str) (created : N) (g : graph) : graph := on_ent uuid (set_created_at created) g.

(** ** The merge *)

Section merge.
Context {AC : AttrCodec} (new_uuid : graph → str) (display : Error → str) (ts_text : N → str).

Definition merge_group (p : MergeEntitiesParams) : str := if nonempty (mp_group_id p) then mp_group_id p else #"liminis".
(** Source: core/src/corrections.rs 1020-1078 (merge_entities) *)
Definition find_canonical (p : MergeEntitiesParams) (group_id : str) (g : graph) : result (list str) ent :=
  match mp_canonical_uuid p with
  | Some uuid =>
      match get_entity_by_uuid g uuid with
      | Some e => Ok e
      | None => Err [ #"canonical entity not found: uuid=" ++ uuid ]
      end
  | None =>
      let name := default [] (mp_canonical_name p) in
      let rows := List.filter (λ r, negb (bool_decide (#"Merged" ∈ en_labels r))) (get_entities_by_name_all g name group_id (mp_kind p)) in
      match rows with
      | [] => Err [ #"canonical entity not found: name=" ++ name ++ #", group=" ++ group_id ]
      | r0 :: _ =>
          if existsb (λ r, negb (bool_decide (kind_of r = kind_of r0))) rows
          then Err [ display (ambiguity_error name group_id rows) ++ dash ++ #"pass `kind` to select one" ]
          else Ok r0
      end
  end.
(** Source: core/src/corrections.rs 1118-1154 (merge_entities) *)
Definition aliases_by_uuid (p : MergeEntitiesParams) (group_id canonical_uuid : str) (g : graph) : gmap str ent * list str :=
  match mp_alias_uuids p with
  | [] => (∅, [])
  | _ =>
      let rows := List.filter (λ r, negb (bool_decide (en_uuid r = canonical_uuid))) (get_entities_by_uuids g (mp_alias_uuids p)) in
      let foreign := List.filter (λ r, negb (bool_decide (en_group r = group_id))) rows in
      let own := List.filter (λ r, bool_decide (en_group r = group_id)) rows in
      let m := foldl (λ m r, <[en_uuid r := r]> m) ∅ own in
      (m, ((λ r, #"alias uuid " ++ en_uuid r ++ #" belongs to group '" ++ en_group r ++ #"', foreign to the requested merge group '" ++ group_id
             ++ #"'" ++ dash ++ #"merge never writes another group's data") <$> foreign)
          ++ ((λ u, #"alias uuid not found: " ++ u) <$>
              List.filter (λ u, negb (bool_decide (u = canonical_uuid)) && negb (bool_decide (is_Some (m !! u))) && negb (bool_decide (u ∈ en_uuid <$> foreign))) (mp_alias_uuids p)))
  end.
(** Rows already there are kept. *)
Definition add_rows (canonical_uuid : str) (rows : list ent) (m : gmap str ent) : gmap str ent :=
  foldl (λ m r, if bool_decide (en_uuid r = canonical_uuid) || bool_decide (is_Some (m !! en_uuid r)) then m else <[en_uuid r := r]> m) m rows.
(** Source: core/src/corrections.rs 1157-1173 (merge_entities) *)
Definition aliases_by_name (p : MergeEntitiesParams) (group_id canonical_uuid : str) (g : graph) (acc : gmap str ent * list str) : gmap str ent * list str :=
  foldl (λ '(m, errors) name,
    let rows := get_entities_by_name_all g name group_id (mp_kind p) in
    (add_rows canonical_uuid rows m,
     errors ++ match rows with [] => [ #"alias name '" ++ name ++ #"' matches no entities in group '" ++ group_id ++ #"'" ] | _ => [] end)) acc (mp_alias_names p).
(** Source: core/src/corrections.rs 1113-1190 (merge_entities) *)
Definition collect_aliases (p : MergeEntitiesParams) (group_id : str) (canonical : ent) (g : graph) : gmap str ent * list str :=
  let '(m, errors) := aliases_by_name p group_id (en_uuid canonical) g (aliases_by_uuid p group_id (en_uuid canonical) g) in
  (if mp_merge_all_by_name p
   then add_rows (en_uuid canonical) (get_entities_by_name_all g (en_name canonical) group_id (Some (kind_of canonical))) m else m, errors).
(** The kinds, the canonical's first; a map iterates in no particular order. *)
Definition kinds_of (canonical : ent) (aliases : list ent) : list str :=
  foldl (λ kinds a, if bool_decide (kind_of a ∈ kinds) then kinds else kinds ++ [kind_of a]) [kind_of canonical] aliases.

Record mstate := { ms_merged : N; ms_skipped : N; ms_counts : MergeEdgeCounts; ms_plan : list AliasInfo; ms_earliest : N; ms_graph : graph }.
Definition add_counts (a b : MergeEdgeCounts) : MergeEdgeCounts :=
  {| mc_rewritten := mc_rewritten a + mc_rewritten b; mc_deduped := mc_deduped a + mc_deduped b; mc_foreign := mc_foreign a + mc_foreign b |}.
Definition merged_labels (labels : list str) : list str := if bool_decide (#"Merged" ∈ labels) then labels else labels ++ [ #"Merged" ].
(** Source: core/src/corrections.rs 1260-1279 (merge_entities) *)
Definition tombstone (canonical_uuid : str) (alias : ent) (g : graph) : graph :=
  update_entity_attributes (en_uuid alias) (write_merged_into (en_attrs alias) canonical_uuid)
    (update_entity_labels (en_uuid alias) (merged_labels (en_labels alias)) g).
(** Source: core/src/corrections.rs 1237-1291 (merge_entities) *)
Definition merge_alias (canonical_uuid group_id ts : str) (dry_run : bool) (s : mstate) (alias : ent) : mstate :=
  if bool_decide (#"Merged" ∈ en_labels alias) then
    {| ms_merged := ms_merged s; ms_skipped := ms_skipped s + 1; ms_counts := ms_counts s; ms_plan := ms_plan s; ms_earliest := ms_earliest s; ms_graph := ms_graph s |}
  else
    let '(counts, g) := merge_entities_inner new_uuid canonical_uuid (en_uuid alias) group_id ts dry_run (ms_graph s) in
    let created := ts_text (en_created alias) in
    {| ms_merged := ms_merged s + 1; ms_skipped := ms_skipped s; ms_counts := add_counts (ms_counts s) counts;
       ms_plan := if dry_run then ms_plan s ++ [{| ai_uuid := en_uuid alias; ai_name := en_name alias; ai_active_edges := mc_rewritten counts;
                                                   ai_duplicate_edges := mc_deduped counts; ai_foreign_edges_skipped := mc_foreign counts |}] else ms_plan s;
       ms_earliest := if negb dry_run && nonempty created && negb (str_leb (ts_text (ms_earliest s)) created) then en_created alias else ms_earliest s;
       ms_graph := if dry_run then g else tombstone canonical_uuid alias g |}.
Definition start_merge (canonical : ent) (g : graph) : mstate :=
  {| ms_merged := 0; ms_skipped := 0; ms_counts := no_counts; ms_plan := []; ms_earliest := en_created canonical; ms_graph := g |}.
(** Source: core/src/corrections.rs 1225-1298 (merge_entities) *)
Definition merge_aliases (canonical : ent) (group_id ts : str) (dry_run : bool) (aliases : list ent) (g : graph) : mstate * graph :=
  let s := foldl (merge_alias (en_uuid canonical) group_id ts dry_run) (start_merge canonical g) aliases in
  (s, if negb dry_run && (0 <? ms_merged s)%N && negb (bool_decide (ts_text (ms_earliest s) = ts_text (en_created canonical)))
      then update_entity_created_at (en_uuid canonical) (ms_earliest s) (ms_graph s) else ms_graph s).
Definition harmless (e : str) : bool := contains #"not found" e || contains #"matches no entities" e.
(** Source: core/src/corrections.rs 991-1327 (merge_entities) *)
Definition merge_entities (p : MergeEntitiesParams) (ts : str) (g : graph) : MergeEntitiesResult * graph :=
  if bool_decide (mp_canonical_uuid p = None) && bool_decide (mp_canonical_name p = None) then
    (refused [] [ #"at least one of canonical_uuid or canonical_name must be provided" ], g)
  else if bool_decide (mp_alias_uuids p = []) && bool_decide (mp_alias_names p = []) && negb (mp_merge_all_by_name p) then
    (refused [] [ #"at least one of alias_uuids, alias_names, or merge_all_by_name must be provided" ], g)
  else
    let group_id := merge_group p in
    match find_canonical p group_id g with
    | Err errors => (refused [] errors, g)
    | Ok canonical =>
        if bool_decide (#"Merged" ∈ en_labels canonical) then
          (refused (en_uuid canonical) [ #"canonical entity is already merged" ++ dash ++ #"cannot use as merge target" ], g)
        else if negb (bool_decide (en_group canonical = group_id)) then
          (refused (en_uuid canonical) [ #"canonical entity " ++ en_uuid canonical ++ #" belongs to group '" ++ en_group canonical ++ #"', foreign to the requested merge group '" ++ group_id
             ++ #"'" ++ dash ++ #"merge never writes another group's data" ], g)
        else
          let '(m, errors) := collect_aliases p group_id canonical g in
          let kinds := kinds_of canonical (snd <$> map_to_list m) in
          if (1 <? length kinds)%nat then
            (refused (en_uuid canonical) (errors ++ [ #"refusing to merge entities of different kinds: canonical " ++ en_uuid canonical ++ #" is kind '" ++ kind_of canonical
               ++ #"', aliases include kind(s) " ++ join #", " ((λ k, #"'" ++ k ++ #"'") <$> drop 1 kinds) ++ dash ++ #"merges never cross kinds; nothing was modified" ]), g)
          else
            let aliases := sort_by (λ a b, str_leb (en_uuid a) (en_uuid b)) (snd <$> map_to_list m) in
            let '(s, g) := merge_aliases canonical group_id ts (mp_dry_run p) aliases g in
            ({| mr_success := forallb harmless errors; mr_canonical_uuid := en_uuid canonical; mr_merged_count := ms_merged s; mr_skipped := ms_skipped s;
                mr_rewritten := mc_rewritten (ms_counts s); mr_deduplicated := mc_deduped (ms_counts s); mr_foreign := mc_foreign (ms_counts s); mr_errors := errors;
                mr_plan := if mp_dry_run p then Some {| pl_aliases := ms_plan s; pl_rewritten := mc_rewritten (ms_counts s); pl_collapsed := mc_deduped (ms_counts s); pl_foreign := mc_foreign (ms_counts s) |}
                           else None |}, g)
    end.

End merge.

(** ** The handler *)

Definition str_list (v : value) : list str := omap as_str (default [] (as_array v)).
(** Source: core/src/handlers.rs 3876-3912 (handle_merge_entities) *)
Definition merge_params (p : value) : result Error MergeEntitiesParams :=
  let? kind := match param "kind" p with VNull => Ok None | v => rmap Some (normalize_kind (Some (default [] (as_str v)))) end in
  Ok {| mp_canonical_uuid := as_str (param "canonical_uuid" p); mp_canonical_name := as_str (param "canonical_name" p); mp_alias_uuids := str_list (param "alias_uuids" p);
        mp_alias_names := str_list (param "alias_names" p); mp_merge_all_by_name := default false (as_bool (param "merge_all_by_name" p)); mp_kind := kind;
        mp_group_id := default DEFAULT_GROUP_ID (as_str (param "group_id" p)); mp_dry_run := default false (as_bool (param "dry_run" p)) |}.

Section handler.
Context {U : Unicode} {LP : LinePrinter} {SR : SeqReader} {GC : GenerationCodec} {AC : AttrCodec}.
Context (new_uuid : graph → str) (display : Error → str) (ts_text : N → str).
(** What the log is given for a recorded mutation: its statement, and the environment of its flush. *)
Context (logged : str * gmut → flush_env * mutation).

(** What the handlers change: the database, the log, and the position rows. *)
Record served := { sv_graph : graph; sv_wal : wal_app; sv_positions : positions }.
(** A connection of its own has no mutations recorded yet. *)
Definition fresh_connection (g : graph) : graph := (drain_mutations_into [] ∅ g).2.
(** Flushing a connection's mutations one by one to a group's log, then moving its position. *)
Definition flush_ungrouped (oe : open_env) (ok : bool) (identity : str * Z) (group_id : str) (s : served) : served :=
  let '(seq, wal) := wal_flush_ungrouped oe group_id (logged <$> g_pending (sv_graph s)) (sv_wal s) in
  {| sv_graph := fresh_connection (sv_graph s); sv_wal := wal; sv_positions := advance_wal_position ok group_id seq identity (sv_positions s) |}.
(** The result is returned as JSON, field by field.
    Source: core/src/handlers.rs 3876-3933 (handle_merge_entities) *)
Definition handle_merge_entities (oe : open_env) (ok : bool) (identity : str * Z) (p : value) (ts : str) (s : served) : result Error MergeEntitiesResult * served :=
  match merge_params p with
  | Err e => (Err e, s)
  | Ok params =>
      let '(r, g) := merge_entities new_uuid display ts_text params ts (fresh_connection (sv_graph s)) in
      let s := {| sv_graph := g; sv_wal := sv_wal s; sv_positions := sv_positions s |} in
      (Ok r, if mp_dry_run params then s else flush_ungrouped oe ok identity (mp_group_id params) s)
  end.
End handler.
