(* ===== verification/MergeTheory.v ===== *)
(** * MergeTheory: what a requested merge does

    A merge is a quotient of one group's live facts: every alias becomes the canonical entity, and
    facts that would join an entity to itself go.  Nothing of another group or another kind
    changes, and a request that is refused, or is a dry run, changes nothing. *)

From S2P Require Import Prelude Text Numbers Json WalGeneration WalScan Checkpoint WalGroup Wal LegacyWal Replay WalExec Pointer Ontology Prompts Graph CrossGroup CrossGroupTheory Assert AssertTheory Corrections MergeEntities.

Section theory.
Context {AC : AttrCodec} (new_uuid : graph → str) (display : Error → str) (ts_text : N → str).
Context (Hfresh : ∀ g, new_uuid g ∉ rn_uuid <$> g_rels g).

(** The row of a merged alias. *)
Definition entombed (canonical_uuid : str) (e : ent) : ent := set_attributes (write_merged_into (en_attrs e) canonical_uuid) (set_labels (merged_labels (en_labels e)) e).
Definition entomb (canonical_uuid : str) (merged : list ent) (e : ent) : ent := if bool_decide (en_uuid e ∈ en_uuid <$> merged) then entombed canonical_uuid e else e.
(** Where an endpoint ends up. *)
Definition redirected (canonical_uuid : str) (merged : list ent) (u : str) : str := if bool_decide (u ∈ en_uuid <$> merged) then canonical_uuid else u.
(** The facts of [g'] are those of [g], redirected, less those that collapse. *)
Definition facts_redirected (group canonical_uuid : str) (merged : list ent) (g g' : graph) : Prop :=
  ∀ s d n, has_directed_edge g' s d n group = true ↔
    ∃ s0 d0, has_directed_edge g s0 d0 n group = true ∧ s = redirected canonical_uuid merged s0 ∧ d = redirected canonical_uuid merged d0 ∧
      (s ≠ d ∨ (s0 ∉ en_uuid <$> merged ∧ d0 ∉ en_uuid <$> merged)).
Definition live_alias (a : ent) : bool := negb (bool_decide (#"Merged" ∈ en_labels a)).

Section run.
Context (group ts : str) (canonical : ent) (g : graph).
Context (Hents : NoDup (en_uuid <$> g_ents g)) (Hwf : group_wf group g) (Hcan : canonical ∈ g_ents g).

Record merged_inv (done : list ent) (s : mstate) : Prop := {
  ti_ents : g_ents (ms_graph s) = entomb (en_uuid canonical) (List.filter live_alias done) <$> g_ents g;
  ti_wf : group_wf group (ms_graph s);
  ti_facts : facts_redirected group (en_uuid canonical) (List.filter live_alias done) g (ms_graph s);
  ti_frame r : rn_group r ≠ group → r ∈ g_rels (ms_graph s) ↔ r ∈ g_rels g;
  ti_count : ms_merged s = N.of_nat (length (List.filter live_alias done));
  ti_none : List.filter live_alias done = [] → ms_graph s = g ∧ ms_earliest s = en_created canonical;
}.

Lemma entomb_uuid c m e : en_uuid (entomb c m e) = en_uuid e.
Proof. unfold entomb. by case_bool_decide. Qed.
Lemma has_entity_ents (g1 g2 : graph) u : en_uuid <$> g_ents g1 = en_uuid <$> g_ents g2 → has_entity g1 u = has_entity g2 u.
Proof.
  intros H. apply eq_true_iff_eq. by rewrite !has_entity_spec, H.
Qed.
Lemma group_wf_ents (g1 g2 : graph) : en_uuid <$> g_ents g1 = en_uuid <$> g_ents g2 → g_rels g1 = g_rels g2 → group_wf group g1 → group_wf group g2.
Proof.
  intros He Hr [H1 H2 H3]. split; [by rewrite <- Hr| |]; intros r x Hin Hg Hx; rewrite <- Hr in Hin; rewrite <- (has_entity_ents g1 g2) by done; eauto.
Qed.
Lemma facts_ents (g1 g2 : graph) s d n : g_rels g1 = g_rels g2 → has_directed_edge g1 s d n group = has_directed_edge g2 s d n group.
Proof. intros H. unfold has_directed_edge. by rewrite H. Qed.
Lemma redirected_step (a : ent) (l : list ent) (u : str) : en_uuid a ≠ en_uuid canonical →
  redirected (en_uuid canonical) (l ++ [a]) u = moved (en_uuid canonical) (en_uuid a) (redirected (en_uuid canonical) l u).
Proof.
  intros Ha. unfold redirected, moved. rewrite fmap_app. cbn [fmap list_fmap]. repeat case_bool_decide; try done; set_solver.
Qed.
Lemma facts_step (a : ent) (l : list ent) (g1 g2 : graph) :
  en_uuid a ≠ en_uuid canonical → en_uuid a ∉ en_uuid <$> l →
  facts_redirected group (en_uuid canonical) l g g1 →
  (∀ s d n, has_directed_edge g2 s d n group = true ↔
     ∃ s0 d0, has_directed_edge g1 s0 d0 n group = true ∧ s = moved (en_uuid canonical) (en_uuid a) s0 ∧ d = moved (en_uuid canonical) (en_uuid a) d0 ∧
       (s ≠ d ∨ (s0 ≠ en_uuid a ∧ d0 ≠ en_uuid a))) →
  facts_redirected group (en_uuid canonical) (l ++ [a]) g g2.
Proof.
  intros Ha Hl H1 H2 s d n. rewrite H2. split.
  - intros (s1 & d1 & (s0 & d0 & Hf & -> & -> & Hor1)%H1 & -> & -> & Hor2). exists s0, d0. rewrite !redirected_step by done. split_and!; try done.
    destruct Hor2 as [?|[Hs Hd]]; [by left|]. revert Hor1 Hs Hd. unfold moved, redirected. rewrite fmap_app. cbn [fmap list_fmap].
    repeat case_bool_decide; try done; set_solver.
  - intros (s0 & d0 & Hf & -> & -> & Hor). exists (redirected (en_uuid canonical) l s0), (redirected (en_uuid canonical) l d0).
    rewrite !redirected_step in * by done. split_and!; try done.
    + apply H1. exists s0, d0. split_and!; try done. revert Hor. unfold moved. rewrite fmap_app. cbn [fmap list_fmap].
      intros [Hor|Hor]; [left; by intros Heq; rewrite Heq in Hor|right; set_solver].
    + revert Hor. unfold redirected. rewrite fmap_app. cbn [fmap list_fmap]. intros [Hor|[Hs Hd]]; [by left|right]. repeat case_bool_decide; set_solver.
Qed.
Lemma tombstone_ents c a l g1 : a ∈ g_ents g → en_uuid a ∉ en_uuid <$> l → g_ents g1 = entomb c l <$> g_ents g →
  g_ents (tombstone c a g1) = entomb c (l ++ [a]) <$> g_ents g.
Proof.
  intros Ha Hl He. unfold tombstone, update_entity_attributes, update_entity_labels, on_ent. cbn [g_ents record_mut with_ents].
  rewrite He, <- !list_fmap_compose. apply list_fmap_ext. intros i e Hi. cbn.
  assert (e ∈ g_ents g) as Hin by (by apply list_elem_of_lookup_2 in Hi).
  destruct (decide (en_uuid e = en_uuid a)) as [Heq|Hne].
  - assert (e = a) as -> by (by eapply row_same).
    unfold entomb. rewrite (bool_decide_eq_false_2 (en_uuid a ∈ en_uuid <$> l)), (bool_decide_eq_true_2 (en_uuid a = en_uuid a)) by done.
    rewrite (bool_decide_eq_true_2 (en_uuid a ∈ _)) by (rewrite fmap_app; set_solver). cbn. by rewrite bool_decide_eq_true_2.
  - unfold entomb. rewrite fmap_app. cbn [fmap list_fmap].
    assert (bool_decide (en_uuid e ∈ (en_uuid <$> l) ++ [en_uuid a]) = bool_decide (en_uuid e ∈ en_uuid <$> l)) as ->.
    { apply bool_decide_ext. rewrite elem_of_app, list_elem_of_singleton. naive_solver. }
    destruct (bool_decide (en_uuid e ∈ en_uuid <$> l)); cbn; rewrite (bool_decide_eq_false_2 (en_uuid e = en_uuid a)) by done; cbn;
      by rewrite (bool_decide_eq_false_2 (en_uuid e = en_uuid a)) by done.
Qed.
Lemma tombstone_rels c a g1 : g_rels (tombstone c a g1) = g_rels g1.
Proof. done. Qed.
Lemma filter_snoc (p : ent → bool) l a : List.filter p (l ++ [a]) = List.filter p l ++ (if p a then [a] else []).
Proof. rewrite List.filter_app. cbn. by destruct (p a). Qed.

Lemma merged_step done s a : merged_inv done s → a ∈ g_ents g → en_uuid a ≠ en_uuid canonical → en_uuid a ∉ en_uuid <$> done →
  merged_inv (done ++ [a]) (merge_alias new_uuid ts_text (en_uuid canonical) group ts false s a).
Proof.
  intros [H1 H2 H3 H4 H5 H6] Ha Hc Hd. unfold merge_alias. destruct (decide (#"Merged" ∈ en_labels a)) as [Hm|Hm].
  { rewrite bool_decide_eq_true_2 by done. assert (live_alias a = false) as Hla by (unfold live_alias; by rewrite bool_decide_eq_true_2).
    split; cbn [ms_graph ms_merged ms_earliest]; rewrite ?filter_snoc, ?Hla, ?app_nil_r; done. }
  rewrite bool_decide_eq_false_2 by done. assert (live_alias a = true) as Hla by (unfold live_alias; by rewrite bool_decide_eq_false_2).
  assert (Hl : en_uuid a ∉ en_uuid <$> List.filter live_alias done).
  { intros (x & Hx & Hin)%list_elem_of_fmap. apply list_elem_of_In, filter_In in Hin as [Hin _]. apply Hd, list_elem_of_fmap. exists x. split; [done|by apply list_elem_of_In]. }
  assert (Hcan' : has_entity (ms_graph s) (en_uuid canonical) = true).
  { rewrite (has_entity_ents _ g) by (rewrite H1, <- list_fmap_compose; apply list_fmap_ext; intros; apply entomb_uuid). apply has_entity_spec. by apply list_elem_of_fmap_2. }
  pose proof (merge_facts_iff new_uuid Hfresh (en_uuid canonical) (en_uuid a) group ts (ms_graph s) (not_eq_sym Hc) H2 Hcan') as Hf.
  pose proof (merge_keeps_wf new_uuid Hfresh (en_uuid canonical) (en_uuid a) group ts (ms_graph s) (not_eq_sym Hc) H2 Hcan') as Hw.
  pose proof (merge_frame new_uuid Hfresh (en_uuid canonical) (en_uuid a) group ts (ms_graph s) (not_eq_sym Hc) H2 Hcan') as [He Hfr].
  destruct (merge_entities_inner _ _ _ _ _ _ _) as [counts g1]. cbn [snd] in *. rewrite H1 in He.
  pose proof (tombstone_ents (en_uuid canonical) a _ g1 Ha Hl He) as Ht.
  split; cbn [ms_graph ms_merged ms_earliest]; rewrite ?filter_snoc, ?Hla.
  - done.
  - eapply (group_wf_ents g1); [|done|done]. rewrite He, Ht, <- !list_fmap_compose. apply list_fmap_ext. intros i e _. cbn. by rewrite !entomb_uuid.
  - by apply (facts_step a _ (ms_graph s)).
  - intros r Hr. rewrite tombstone_rels. rewrite Hfr by done. by apply H4.
  - rewrite H5, length_app. cbn. lia.
  - intros Hx. by apply app_eq_nil in Hx as [_ ?].
Qed.
Lemma merged_run aliases : ∀ done s, merged_inv done s → (∀ a, a ∈ aliases → a ∈ g_ents g ∧ en_uuid a ≠ en_uuid canonical) →
  NoDup (en_uuid <$> done ++ aliases) →
  merged_inv (done ++ aliases) (foldl (merge_alias new_uuid ts_text (en_uuid canonical) group ts false) s aliases).
Proof.
  induction aliases as [|a aliases IH]; intros done s Hs Ha Hnd; cbn [foldl]; [by rewrite app_nil_r|].
  replace (done ++ a :: aliases) with ((done ++ [a]) ++ aliases) in * by by rewrite <- app_assoc.
  destruct (Ha a) as [Hin Hc]; [by left|]. apply IH; [|intros x Hx; apply Ha; by right|done].
  apply merged_step; try done. rewrite !fmap_app in Hnd. apply NoDup_app in Hnd as (Hnd & _ & _). apply NoDup_app in Hnd as (_ & Hnd & _).
  intros Hx. apply (Hnd _ Hx). by left.
Qed.
Lemma merged_start : merged_inv [] (start_merge canonical g).
Proof.
  split; cbn [ms_graph ms_merged ms_earliest start_merge List.filter length]; try done.
  - rewrite <- (list_fmap_id (g_ents g)) at 1. apply list_fmap_ext. intros i e _. unfold entomb. by rewrite bool_decide_eq_false_2 by apply not_elem_of_nil.
  - intros s d n. unfold redirected. split.
    + intros H. exists s, d. rewrite !bool_decide_eq_false_2 by apply not_elem_of_nil. split_and!; try done. right. split; apply not_elem_of_nil.
    + intros (s0 & d0 & Hf & -> & -> & _). by rewrite !bool_decide_eq_false_2 by apply not_elem_of_nil.
Qed.
End run.

(** ** The aliases of a request *)

Definition aliases_ok (group canonical_uuid : str) (g : graph) (m : gmap str ent) : Prop :=
  map_Forall (λ u a, en_uuid a = u ∧ a ∈ g_ents g ∧ en_group a = group ∧ u ≠ canonical_uuid) m.
Lemma add_rows_ok group c g rows m : (∀ a, a ∈ rows → a ∈ g_ents g ∧ en_group a = group) → aliases_ok group c g m → aliases_ok group c g (add_rows c rows m).
Proof.
  intros Hr. revert m. unfold add_rows. induction rows as [|a rows IH]; intros m Hm; cbn [foldl]; [done|]. apply IH; [intros x Hx; apply Hr; by right|].
  destruct (decide (en_uuid a = c)) as [Hc|Hc]; [by rewrite bool_decide_eq_true_2|]. rewrite (bool_decide_eq_false_2 (en_uuid a = c)) by done. cbn [orb].
  case_bool_decide; [done|]. apply map_Forall_insert_2; [|done]. destruct (Hr a) as [? ?]; [by left|]. done.
Qed.
Lemma rows_by_name g name group kind a : a ∈ get_entities_by_name_all g name group kind → a ∈ g_ents g ∧ en_group a = group.
Proof.
  unfold get_entities_by_name_all. intros [Ha _]%list_elem_of_In%filter_In. apply list_elem_of_In, sort_by_elem, list_elem_of_In, filter_In in Ha as [Ha Hp].
  apply andb_true_iff in Hp as [_ Hp%bool_decide_eq_true]. split; [by apply list_elem_of_In|done].
Qed.
Lemma by_uuid_ok p group c g : aliases_ok group c g (aliases_by_uuid p group c g).1.
Proof.
  unfold aliases_by_uuid. destruct (mp_alias_uuids p) as [|u us]; [apply map_Forall_empty|]. cbn [fst].
  set (own := List.filter (λ r : ent, bool_decide (en_group r = group)) _).
  assert (∀ a, a ∈ own → a ∈ g_ents g ∧ en_group a = group ∧ en_uuid a ≠ c) as Hown.
  { intros a. unfold own, get_entities_by_uuids. intros [Ha Hg]%list_elem_of_In%filter_In. apply filter_In in Ha as [Ha Hu]. apply filter_In in Ha as [Ha _].
    apply bool_decide_eq_true in Hg. apply negb_true_iff, bool_decide_eq_false in Hu. split; [by apply list_elem_of_In|done]. }
  revert Hown. generalize own. clear own. intros own Hown. assert (aliases_ok group c g ∅) as Hm by apply map_Forall_empty. revert Hm. generalize (∅ : gmap str ent).
  induction own as [|a own IH]; intros m Hm; cbn [foldl]; [done|]. apply IH; [intros x Hx; apply Hown; by right|].
  apply map_Forall_insert_2; [|done]. destruct (Hown a) as (? & ? & ?); [by left|done].
Qed.
Lemma by_name_ok p group c g acc : aliases_ok group c g acc.1 → aliases_ok group c g (aliases_by_name p group c g acc).1.
Proof.
  unfold aliases_by_name. revert acc. induction (mp_alias_names p) as [|n ns IH]; intros [m es] Hm; cbn [foldl]; [done|]. apply IH. cbn [fst].
  apply add_rows_ok; [|done]. intros a. apply rows_by_name.
Qed.
Lemma collect_ok p group canonical g : aliases_ok group (en_uuid canonical) g (collect_aliases p group canonical g).1.
Proof.
  unfold collect_aliases. pose proof (by_name_ok p group (en_uuid canonical) g _ (by_uuid_ok p group (en_uuid canonical) g)) as H.
  destruct (aliases_by_name _ _ _ _ _) as [m es]. cbn [fst] in *. destruct (mp_merge_all_by_name p); [|done]. apply add_rows_ok; [|done]. intros a. apply rows_by_name.
Qed.
Lemma kinds_alone canonical l : (1 <? length (kinds_of canonical l))%nat = false → ∀ a, a ∈ l → kind_of a = kind_of canonical.
Proof.
  unfold kinds_of. intros H. apply Nat.ltb_ge in H. revert H.
  set (f := λ kinds a, if bool_decide (kind_of a ∈ kinds) then kinds else kinds ++ [kind_of a]).
  assert (∀ l ks, (length ks ≤ length (foldl f ks l))%nat) as Hlen.
  { clear. induction l as [|a l IH]; intros ks; cbn [foldl]; [done|]. etrans; [|apply IH]. unfold f. case_bool_decide; [done|]. rewrite length_app. lia. }
  induction l as [|a l IH]; cbn [foldl]; intros H x Hx; [by apply elem_of_nil in Hx|]. unfold f at 2 in H. case_bool_decide as Ha.
  - apply list_elem_of_singleton in Ha. apply elem_of_cons in Hx as [->|Hx]; [done|by apply IH].
  - specialize (Hlen l ([kind_of canonical] ++ [kind_of a])). cbn in Hlen, H. lia.
Qed.
Lemma sorted_aliases group c g m aliases : aliases_ok group c g m → aliases = sort_by (λ a b, str_leb (en_uuid a) (en_uuid b)) (snd <$> map_to_list m) →
  NoDup (en_uuid <$> aliases) ∧ ∀ a, a ∈ aliases → a ∈ snd <$> map_to_list m ∧ a ∈ g_ents g ∧ en_group a = group ∧ en_uuid a ≠ c.
Proof.
  intros Hm ->. split.
  - rewrite sort_by_perm. rewrite <- list_fmap_compose.
    assert ((en_uuid ∘ snd) <$> map_to_list m = fst <$> map_to_list m) as ->; [|apply NoDup_fst_map_to_list].
    apply list_fmap_ext. intros i [u a] Hi. apply list_elem_of_lookup_2, elem_of_map_to_list in Hi. by destruct (Hm u a Hi).
  - intros a Ha%sort_by_elem. split; [done|]. apply list_elem_of_fmap in Ha as ([u x] & -> & Hin). apply elem_of_map_to_list in Hin. destruct (Hm u x Hin) as (Hu & ? & ? & ?). cbn. by rewrite Hu.
Qed.

Lemma find_canonical_in p group g canonical : find_canonical display p group g = Ok canonical → canonical ∈ g_ents g.
Proof.
  unfold find_canonical. destruct (mp_canonical_uuid p) as [u|].
  - destruct (get_entity_by_uuid g u) as [e|] eqn:He; [|done]. intros [= <-]. revert He. unfold get_entity_by_uuid. intros (x & Hin & Hx)%find_first_Some. case_bool_decide; [|done]. by injection Hx as <-.
  - set (rows := List.filter _ _). assert (∀ x, x ∈ rows → x ∈ g_ents g) as Hrows.
    { intros x [Hx _]%list_elem_of_In%filter_In. by apply list_elem_of_In, rows_by_name in Hx as [? _]. }
    destruct rows as [|r0 rows]; [done|]. destruct (existsb _ _); [done|]. intros [= <-]. apply Hrows. by left.
Qed.

Lemma dry_run_graph c group ts aliases : ∀ s, ms_graph (foldl (merge_alias new_uuid ts_text c group ts true) s aliases) = ms_graph s.
Proof.
  assert (∀ alias g, (merge_entities_inner new_uuid c alias group ts true g).2 = g) as Hin.
  { intros alias g. unfold merge_entities_inner. 
    assert (∀ rows st, (foldl (λ st e, merge_edge new_uuid c alias group ts true e st) st rows).2 = st.2) as H; [|by rewrite H].
    intros rows. induction rows as [|e rows IH]; intros st; cbn [foldl]; [done|]. rewrite IH.
    destruct st as [cs g1]. unfold merge_edge. destruct (ew_invalid e); [done|]. destruct (negb _); [done|]. cbv zeta. case_bool_decide; [done|]. by destruct (has_directed_edge _ _ _ _ _). }
  induction aliases as [|a aliases IH]; intros s; cbn [foldl]; [done|]. rewrite IH. unfold merge_alias. case_bool_decide; [done|].
  specialize (Hin (en_uuid a) (ms_graph s)). by destruct (merge_entities_inner _ _ _ _ _ _ _).
Qed.

(** ** The earliest creation *)

Definition earliest_of (created : N) (l : list ent) : Prop :=
  (∃ x, x ∈ l ∧ ts_text created = ts_text (en_created x)) ∧
  ∀ y, y ∈ l → nonempty (ts_text (en_created y)) = true → str_leb (ts_text created) (ts_text (en_created y)) = true.
Lemma earliest_run c group ts aliases : ∀ s l, earliest_of (ms_earliest s) l →
  earliest_of (ms_earliest (foldl (merge_alias new_uuid ts_text c group ts false) s aliases)) (l ++ List.filter live_alias aliases).
Proof.
  induction aliases as [|a aliases IH]; intros s l H; cbn [foldl List.filter]; [by rewrite app_nil_r|]. unfold merge_alias at 2, live_alias at 1.
  destruct (decide (#"Merged" ∈ en_labels a)) as [Hm|Hm].
  - rewrite !bool_decide_eq_true_2 by done. cbn [negb]. by apply IH.
  - rewrite !bool_decide_eq_false_2 by done. cbn [negb]. replace (l ++ a :: List.filter live_alias aliases) with ((l ++ [a]) ++ List.filter live_alias aliases) by by rewrite <- app_assoc.
    destruct (merge_entities_inner _ _ _ _ _ _ _) as [counts g1]. apply IH. cbn [ms_earliest andb]. destruct H as [(x & Hx & Hxt) Hmin].
    destruct (nonempty (ts_text (en_created a))) eqn:Hne; cbn [andb].
    2: { split; [exists x; split; [apply elem_of_app; by left|done]|]. intros y [Hy| ->%list_elem_of_singleton]%elem_of_app Hn; [by apply Hmin|congruence]. }
    destruct (str_leb (ts_text (ms_earliest s)) (ts_text (en_created a))) eqn:Hle; cbn [negb].
    + split; [exists x; split; [apply elem_of_app; by left|done]|]. intros y [Hy| ->%list_elem_of_singleton]%elem_of_app Hn; [by apply Hmin|done].
    + split; [exists a; split; [apply elem_of_app; right; by left|done]|]. intros y [Hy| ->%list_elem_of_singleton]%elem_of_app Hn; [|by apply str_leb_refl].
      apply (str_leb_trans _ (ts_text (ms_earliest s))); [|by apply Hmin]. by apply str_leb_total.
Qed.

(** ** The request *)

Lemma filter_sublist_list (f : ent → bool) l : List.filter f l `sublist_of` l.
Proof. induction l as [|x l IH]; cbn; [constructor|]. destruct (f x); by constructor. Qed.

(** A row after a merge: the canonical entity has the earliest creation, an alias is a tombstone. *)
Definition after_merge (canonical_uuid : str) (merged : list ent) (created : N) (e : ent) : ent :=
  if bool_decide (en_uuid e = canonical_uuid) then set_created_at created e else entomb canonical_uuid merged e.
(** What a merge that merged something has done. *)
Record merge_done (group : str) (r : MergeEntitiesResult) (g g' : graph) (canonical : ent) (merged : list ent) (created : N) : Prop := {
  md_canonical : canonical ∈ g_ents g ∧ en_uuid canonical = mr_canonical_uuid r ∧ is_merged canonical = false ∧ en_group canonical = group;
  md_merged : N.of_nat (length merged) = mr_merged_count r ∧ NoDup (en_uuid <$> merged);
  md_alias a : a ∈ merged → a ∈ g_ents g ∧ is_merged a = false ∧ en_group a = group ∧ kind_of a = kind_of canonical ∧ en_uuid a ≠ en_uuid canonical;
  md_ents : g_ents g' = after_merge (en_uuid canonical) merged created <$> g_ents g;
  md_created : earliest_of created (canonical :: merged);
  md_facts : facts_redirected group (en_uuid canonical) merged g g';
  md_frame x : rn_group x ≠ group → x ∈ g_rels g' ↔ x ∈ g_rels g;
}.

End theory.

(** ** Requests, concretely *)

Section concrete.
Definition toy_time (n : N) : str := replicate (N.to_nat n) 49%N.
Definition toy_merge (p : MergeEntitiesParams) := @merge_entities ToyAttrs longer_uuid (λ _, []) toy_time p #"now" merge_toy.
Definition toy_request (group : str) (dry : bool) : MergeEntitiesParams :=
  {| mp_canonical_uuid := Some #"can"; mp_canonical_name := None; mp_alias_uuids := [ #"ali"; #"ghost"]; mp_alias_names := []; mp_merge_all_by_name := false;
     mp_kind := None; mp_group_id := group; mp_dry_run := dry |}.


(** A refusal to touch another group's alias is an error, but the result counts as a success when
    the text of the refusal happens to contain the words of a harmless one: here the alias
    belongs to a group named "not found". *)
Definition foreign_toy : graph :=
  {| g_ents := [merge_ent "can"; {| en_uuid := #"ali"; en_name := #"ali"; en_group := #"not found"; en_labels := [ #"Entity"]; en_kind := None; en_key := None; en_created := 0; en_attrs := [] |}];
     g_eps := []; g_rels := []; g_direct := []; g_kinds := []; g_scans := 0; g_pending := [] |}.
Theorem refusal_counts_as_success :
  let r := (@merge_entities ToyAttrs longer_uuid (λ _, []) toy_time
              {| mp_canonical_uuid := Some #"can"; mp_canonical_name := None; mp_alias_uuids := [ #"ali"]; mp_alias_names := []; mp_merge_all_by_name := false;
                 mp_kind := None; mp_group_id := #"g"; mp_dry_run := false |} #"now" foreign_toy).1 in
  mr_success r = true ∧ mr_merged_count r = 0%N ∧ length (mr_errors r) = 1%nat ∧ existsb (contains #"foreign to the requested merge group") (mr_errors r) = true.
Proof. vm_compute. auto. Qed.
End concrete.

(** ** The log of a merge *)

Section logs.
Context {U : Unicode} {LP : LinePrinter} {SR : SeqReader} {GC : GenerationCodec} {AC : AttrCodec}.
Context (new_uuid : graph → str) (display : Error → str) (ts_text : N → str) (logged : str * gmut → flush_env * mutation).

(** A request whose group is the empty text merges in the default group, but its mutations are
    flushed to the log of the empty group, which has no directory: nothing is logged and no
    position moves, whatever the merge has changed. *)
Theorem merge_for_empty_group_unlogged oe ok identity p params ts s :
  merge_params p = Ok params → mp_group_id params = [] → wa_writers (sv_wal s) !! [] = None →
  let '(_, s') := handle_merge_entities new_uuid display ts_text logged oe ok identity p ts s in
  merge_group params = DEFAULT_GROUP_ID ∧ sv_wal s' = sv_wal s ∧ sv_positions s' = sv_positions s.
Proof.
  intros Hp Hg Hw. unfold handle_merge_entities. rewrite Hp. destruct (merge_entities _ _ _ _ _ _) as [r g].
  assert (merge_group params = DEFAULT_GROUP_ID) as Hgroup by (unfold merge_group; by rewrite Hg).
  destruct (mp_dry_run params); [done|]. rewrite Hg. unfold flush_ungrouped. cbn [sv_wal sv_graph sv_positions].
  assert (∀ ms, wal_flush_ungrouped oe [] ms (sv_wal s) = (None, sv_wal s)) as ->; [|done].
  intros ms. unfold wal_flush_ungrouped. destruct ms; [done|]. unfold with_wal_writer. destruct (wa_root (sv_wal s)); [|done].
  destruct (wa_poisoned (sv_wal s)); [done|]. unfold open_writer. by rewrite Hw.
Qed.
End logs.
