(* ===== verification/CorrectionsFile.v ===== *)
(** * CorrectionsFile: validating and applying a workspace's corrections file
    (core/src/corrections.rs, with the handlers in core/src/handlers.rs)

    The file is its text, absent or not; marking an entry as applied can fail while reading, while
    writing the copy beside it, or while renaming that copy over it.  The YAML reader, the text of an
    error, and fresh uuids are parameters; queries are taken to succeed. *)

From S2P Require Import Prelude Text Numbers Json WalGeneration WalScan Checkpoint WalGroup Wal LegacyWal Replay WalExec Pointer Ontology Prompts Graph CrossGroup CrossGroupTheory Assert Corrections MergeEntities.

(** Source: core/src/corrections.rs 51-58 (ValidateResult) *)
Record ValidateResult := { vr_valid : bool; vr_message : str; vr_total : N; vr_unapplied : N; vr_issues : list str; vr_warnings : list str }.
(** Source: core/src/corrections.rs 61-64 (ApplyDetail) *)
Record ApplyDetail := { ad_id : str; ad_action : str }.
(** Source: core/src/corrections.rs 67-74 (ApplyResult) *)
Record ApplyResult := { ar_success : bool; ar_applied : N; ar_skipped : N; ar_errors : list str; ar_details : list ApplyDetail; ar_message : option str }.

(** ** Marking an entry *)

(** The text of an entry's id on a line, when there is one.
    Source: core/src/corrections.rs 180-187 (patch_applied_at) *)
Definition id_on_line (l : str) : option str :=
  let t := trim l in
  let rest := match strip_prefix #"- id:" t with Some r => Some r | None => strip_prefix #"id:" t end in
  (λ r, trim_matches (N.eqb 39) (trim_matches (N.eqb 34) (trim r))) <$> rest.
Definition starts_item (l : str) : bool := starts_with #"- " (trim_start l).
Definition indent (l : str) : N := byte_len l - byte_len (trim_start l).
(** The first index from [i] on whose line satisfies the test. *)
Fixpoint find_from (p : str → bool) (i : nat) (ls : list str) : option nat :=
  match ls with [] => None | l :: ls => if p l then Some i else find_from p (S i) ls end.
Definition find_line (p : str → bool) (first : nat) (ls : list str) : option nat := find_from p first (drop first ls).
(** The last index up to [i] whose line starts an item. *)
Fixpoint last_item (i : nat) (ls : list str) : option nat :=
  if match ls !! i with Some l => starts_item l | None => false end then Some i
  else match i with O => None | S i => last_item i ls end.
(** Source: core/src/corrections.rs 195-209 (patch_applied_at) *)
Definition item_block (id_idx : nat) (ls : list str) : nat * N * nat :=
  let item := default id_idx (last_item id_idx ls) in
  let item_indent := match ls !! item with Some l => indent l | None => 0%N end in
  (item, item_indent, default (length ls) (find_line (λ l, nonempty (trim l) && (indent l =? item_indent)%N && starts_item l) (S item) ls)).
(** Source: core/src/corrections.rs 178-226 (patch_applied_at) *)
Definition patch_lines (id ts : str) (ls : list str) : option (list str) :=
  id_idx ← find_line (λ l, bool_decide (id_on_line l = Some id)) 0 ls;
  let '(item, item_indent, block_end) := item_block id_idx ls in
  let new_line := replicate (N.to_nat (item_indent + 2)) 32%N ++ #"applied_at: " ++ [34%N] ++ ts ++ [34%N] in
  match find_line (λ l, starts_with #"applied_at:" (trim_start l)) item (take block_end ls) with
  | Some idx => Some (<[idx := new_line]> ls)
  | None => Some (take (S id_idx) ls ++ new_line :: drop (S id_idx) ls)
  end.
Inductive patch_fault := PFine | PReadFails | PWriteFails | PRenameFails.
(** The text afterwards; a failing write or rename leaves the file as it was.
    Source: core/src/corrections.rs 170-241 (patch_applied_at) *)
Definition patch_applied_at (flt : patch_fault) (text : option str) (id ts : str) : result Error unit * option str :=
  match flt, text with
  | PReadFails, _ | _, None => (Err (Ipc (Msg "corrections file read error" [])), text)
  | _, Some t =>
      match patch_lines id ts (lines t) with
      | None => (Err (Ipc (Msg "correction id '{id}' not found in corrections file" [AStr id])), text)
      | Some ls =>
          match flt with
          | PWriteFails => (Err (Ipc (Msg "corrections tmp write error" [])), text)
          | PRenameFails => (Err (Ipc (Msg "corrections file rename error" [])), text)
          | _ => (Ok tt, Some (join [10%N] ls ++ (if bool_decide (last t = Some 10%N) then [10%N] else [])))
          end
      end
  end.

(** ** Queries *)

(** Source: core/src/db.rs 3921-3940 (search_entities) *)
Definition search_entities (g : graph) (name_prefix : str) : list ent := List.filter (λ e, starts_with name_prefix (en_name e)) (g_ents g).
(** A row for each pair of the edge's hops, the last of them.
    Source: core/src/db.rs 3419-3428 (get_edge_by_uuid) *)
Definition get_edge_by_uuid (g : graph) (uuid : str) : option EdgeRow :=
  last (concat ((λ r, if bool_decide (rn_uuid r = uuid) then concat ((λ s, edge_row r s <$> rn_dsts r) <$> rn_srcs r) else []) <$> g_rels g)).

Section file.
Context {U : Unicode} {AC : AttrCodec} (parse_yaml : str → result str (list CorrectionEntry)) (display : Error → str) (new_uuid : graph → str).

(** Source: core/src/corrections.rs 154-163 (read_corrections_file) *)
Definition read_corrections_file (readable : bool) (text : option str) : result Error (option (list CorrectionEntry)) :=
  match text with
  | None => Ok None
  | Some t =>
      if negb readable then Err (Ipc (Msg "failed to read corrections file" []))
      else match parse_yaml t with Ok l => Ok (Some l) | Err e => Err (Ipc (Msg "YAML parse error: {e}" [AStr e])) end
  end.

(** ** Validating *)

Definition about (entry : CorrectionEntry) (text : str) : str := #"Correction '" ++ ce_id entry ++ #"': " ++ text.
(** Source: core/src/corrections.rs 357-410 (validate_corrections_file) *)
Definition entry_issues (g : graph) (entry : CorrectionEntry) : list str :=
  let kind := to_lowercase (ce_type entry) in
  about entry <$>
    (if bool_decide (kind = #"same_as") then
       (if bool_decide (ce_canonical entry = None) && bool_decide (ce_canonical_uuid entry = None) then [ #"same_as requires 'canonical' or 'canonical_uuid'" ] else [])
       ++ (match ce_aliases entry with None | Some [] => [ #"same_as requires non-empty 'aliases'" ] | _ => [] end)
       ++ (match ce_canonical_uuid entry with
           | Some u => match get_entity_by_uuid g u with None => [ #"canonical_uuid '" ++ u ++ #"' not found in graph" ] | Some _ => [] end
           | None => []
           end)
     else if bool_decide (kind = #"retract") then
       match ce_edge_uuid entry with
       | Some u => match get_edge_by_uuid g u with None => [ #"edge_uuid '" ++ u ++ #"' not found in graph" ] | Some _ => [] end
       | None => [ #"retract requires 'edge_uuid'" ]
       end
     else [ #"unknown type '" ++ kind ++ #"'" ]).
(** Source: core/src/corrections.rs 321-428 (validate_corrections_file) *)
Definition validate_corrections_file (readable : bool) (text : option str) (g : graph) : ValidateResult :=
  match read_corrections_file readable text with
  | Ok None => {| vr_valid := true; vr_message := #"No corrections file found"; vr_total := 0; vr_unapplied := 0; vr_issues := []; vr_warnings := [] |}
  | Err e => {| vr_valid := false; vr_message := #"Failed to read corrections file"; vr_total := 0; vr_unapplied := 0; vr_issues := [display e]; vr_warnings := [] |}
  | Ok (Some entries) =>
      let issues := concat (entry_issues g <$> entries) ++ detect_cycles entries in
      {| vr_valid := bool_decide (issues = []);
         vr_message := if bool_decide (issues = []) then #"All corrections are valid" else dec_str (N.of_nat (length issues)) ++ #" issue(s) found";
         vr_total := N.of_nat (length entries); vr_unapplied := N.of_nat (length (List.filter (λ e, bool_decide (ce_applied_at e = None)) entries));
         vr_issues := issues; vr_warnings := [] |}
  end.

(** ** Applying *)

(** What applying changes. *)
Record astate := { as_graph : graph; as_text : option str }.
Definition on_text (t : option str) (s : astate) : astate := {| as_graph := as_graph s; as_text := t |}.
Definition on_graph (g : graph) (s : astate) : astate := {| as_graph := g; as_text := as_text s |}.

(** The rows a search returns carry no labels.
    Source: core/src/corrections.rs 659-691 (resolve_canonical) *)
Definition resolve_canonical (entry : CorrectionEntry) (g : graph) : result Error ent :=
  match ce_canonical_uuid entry, ce_canonical entry with
  | Some uuid, _ => match get_entity_by_uuid g uuid with Some e => Ok e | None => Err (Ipc (Msg "canonical_uuid '{uuid}' not found in graph" [AStr uuid])) end
  | None, Some name =>
      match List.filter (λ e, bool_decide (en_name e = name)) (search_entities g name) with
      | [] => Err (Ipc (Msg "canonical entity '{name}' not found in graph" [AStr name]))
      | e0 :: exact =>
          let exact := List.filter (λ e, bool_decide (en_group e = en_group e0)) (e0 :: exact) in
          if existsb (λ e, negb (bool_decide (kind_of e = kind_of e0))) exact then Err (ambiguity_error name (en_group e0) exact) else Ok e0
      end
  | None, None => Err (Ipc (Msg "same_as requires 'canonical' or 'canonical_uuid'" []))
  end.
(** Source: core/src/corrections.rs 527-616 (apply_same_as) *)
Fixpoint same_as_aliases (canonical : ent) (ts : str) (dry_run : bool) (aliases : list str) (g : graph) : result Error unit * graph :=
  match aliases with
  | [] => (Ok tt, g)
  | name :: aliases =>
      match head (get_entities_by_name_all g name (en_group canonical) (Some (kind_of canonical))) with
      | None => (Err (Ipc (Msg "alias entity '{alias_name}' of kind '{}' not found in group '{canonical_group}' (merges never cross kinds)" [AStr name; AStr (kind_of canonical); AStr (en_group canonical)])), g)
      | Some alias =>
          if bool_decide (en_uuid alias = en_uuid canonical) then same_as_aliases canonical ts dry_run aliases g
          else if dry_run then same_as_aliases canonical ts dry_run aliases g
          else same_as_aliases canonical ts dry_run aliases
                 (tombstone (en_uuid canonical) alias (same_as_edges new_uuid (en_uuid canonical) (en_uuid alias) (en_group canonical) ts g))
      end
  end.
(** Source: core/src/corrections.rs 508-628 (apply_same_as) *)
Definition apply_same_as (flt : patch_fault) (entry : CorrectionEntry) (ts : str) (dry_run : bool) (s : astate) : result Error str * astate :=
  match resolve_canonical entry (as_graph s), default [] (ce_aliases entry) with
  | Err e, _ => (Err e, s)
  | Ok _, [] => (Err (Ipc (Msg "same_as requires non-empty 'aliases'" [])), s)
  | Ok canonical, aliases =>
      let '(r, g) := same_as_aliases canonical ts dry_run aliases (as_graph s) in
      let s := on_graph g s in
      match r with
      | Err e => (Err e, s)
      | Ok _ =>
          if dry_run then (Ok #"dry_run:same_as", s)
          else let '(r, t) := patch_applied_at flt (as_text s) (ce_id entry) ts in (rmap (λ _, #"same_as") r, on_text t s)
      end
  end.
(** Source: core/src/corrections.rs 630-657 (apply_retract) *)
Definition apply_retract (flt : patch_fault) (entry : CorrectionEntry) (ts : str) (dry_run : bool) (s : astate) : result Error str * astate :=
  match ce_edge_uuid entry with
  | None => (Err (Ipc (Msg "retract requires 'edge_uuid'" [])), s)
  | Some u =>
      match get_edge_by_uuid (as_graph s) u with
      | None => (Err (Ipc (Msg "edge_uuid '{edge_uuid}' not found in graph" [AStr u])), s)
      | Some _ =>
          if dry_run then (Ok #"dry_run:retract", s)
          else
            let s := on_graph (invalidate_edge u ts (as_graph s)) s in
            let '(r, t) := patch_applied_at flt (as_text s) (ce_id entry) ts in (rmap (λ _, #"retract") r, on_text t s)
      end
  end.
Definition apply_entry (flt : patch_fault) (entry : CorrectionEntry) (ts : str) (dry_run : bool) (s : astate) : result Error str * astate :=
  let kind := to_lowercase (ce_type entry) in
  if bool_decide (kind = #"same_as") then apply_same_as flt entry ts dry_run s
  else if bool_decide (kind = #"retract") then apply_retract flt entry ts dry_run s
  else (Err (Ipc (Msg "Correction '{}': unknown type '{other}'" [AStr (ce_id entry); AStr kind])), s).
(** Source: core/src/corrections.rs 466-496 (apply_corrections_file) *)
Definition apply_step (ts : str) (dry_run : bool) (acc : ApplyResult * astate) (fe : patch_fault * CorrectionEntry) : ApplyResult * astate :=
  let '(r, s) := acc in
  let '(flt, entry) := fe in
  match ce_applied_at entry with
  | Some _ => ({| ar_success := ar_success r; ar_applied := ar_applied r; ar_skipped := ar_skipped r + 1; ar_errors := ar_errors r; ar_details := ar_details r; ar_message := ar_message r |}, s)
  | None =>
      match apply_entry flt entry ts dry_run s with
      | (Ok action, s) =>
          ({| ar_success := ar_success r; ar_applied := ar_applied r + (if dry_run then 0 else 1); ar_skipped := ar_skipped r; ar_errors := ar_errors r;
              ar_details := ar_details r ++ [{| ad_id := ce_id entry; ad_action := action |}]; ar_message := ar_message r |}, s)
      | (Err e, s) =>
          ({| ar_success := ar_success r; ar_applied := ar_applied r; ar_skipped := ar_skipped r; ar_errors := ar_errors r ++ [about entry (display e)];
              ar_details := ar_details r; ar_message := ar_message r |}, s)
      end
  end.
Definition empty_result (success : bool) (errors : list str) (message : option str) : ApplyResult :=
  {| ar_success := success; ar_applied := 0; ar_skipped := 0; ar_errors := errors; ar_details := []; ar_message := message |}.
(** [faults] is what happens when each entry is marked.
    Source: core/src/corrections.rs 432-506 (apply_corrections_file) *)
Definition apply_corrections_file (readable : bool) (faults : nat → patch_fault) (ts : str) (dry_run : bool) (s : astate) : ApplyResult * astate :=
  match read_corrections_file readable (as_text s) with
  | Ok None => (empty_result true [] (Some #"No corrections file found"), s)
  | Ok (Some []) => (empty_result true [] (Some #"Corrections file is empty"), s)
  | Err e => (empty_result false [ #"Failed to read corrections file: " ++ display e ] None, s)
  | Ok (Some entries) =>
      let '(r, s) := foldl (apply_step ts dry_run) (empty_result true [] None, s) (imap (λ i e, (faults i, e)) entries) in
      ({| ar_success := bool_decide (ar_errors r = []); ar_applied := ar_applied r; ar_skipped := ar_skipped r; ar_errors := ar_errors r; ar_details := ar_details r; ar_message := None |}, s)
  end.
End file.

(** ** The handlers *)

Section handlers.
Context {U : Unicode} {LP : LinePrinter} {SR : SeqReader} {GC : GenerationCodec} {AC : AttrCodec}.
Context (parse_yaml : str → result str (list CorrectionEntry)) (display : Error → str) (new_uuid : graph → str) (logged : str * gmut → flush_env * mutation).

Definition no_workspace : Error := Ipc (Msg "LIMINIS_WORKSPACE_ROOT not set; corrections unavailable" []).
(** Source: core/src/handlers.rs 3810-3835 (handle_validate_corrections) *)
Definition handle_validate_corrections (workspace readable : bool) (text : option str) (s : served) : result Error ValidateResult :=
  if workspace then Ok (validate_corrections_file parse_yaml display readable text (fresh_connection (sv_graph s))) else Err no_workspace.
(** Every mutation goes to the default group's log.
    Source: core/src/handlers.rs 3837-3874 (handle_apply_corrections) *)
Definition handle_apply_corrections (oe : open_env) (ok : bool) (identity : str * Z) (workspace readable : bool) (faults : nat → patch_fault) (p : value) (ts : str)
    (text : option str) (s : served) : result Error ApplyResult * option str * served :=
  if negb workspace then (Err no_workspace, text, s)
  else
    let dry_run := default false (as_bool (param "dry_run" p)) in
    let '(r, a) := apply_corrections_file parse_yaml display new_uuid readable faults ts dry_run {| as_graph := fresh_connection (sv_graph s); as_text := text |} in
    let s := {| sv_graph := as_graph a; sv_wal := sv_wal s; sv_positions := sv_positions s |} in
    (Ok r, as_text a, if dry_run then s else flush_ungrouped logged oe ok identity DEFAULT_GROUP_ID s).
End handlers.
