(* ===== verification/CorrectionsFileTheory.v ===== *)
(** * CorrectionsFileTheory: what marking and applying corrections do

    Marking an entry changes one line of that entry's block and no other entry; every entry of a
    file is counted once; a dry run changes nothing.  Some files are marked wrongly or never. *)

From S2P Require Import Prelude Text Numbers Json WalGeneration WalScan Checkpoint WalGroup Wal LegacyWal Replay WalExec Pointer Ontology Prompts Graph CrossGroup CrossGroupTheory Assert Corrections MergeEntities CorrectionsFile.

(** ** One entry's block *)

Lemma find_from_spec p ls : ∀ i j, find_from p i ls = Some j → ∃ k l, j = (i + k)%nat ∧ ls !! k = Some l ∧ p l = true ∧ ∀ m l', (m < k)%nat → ls !! m = Some l' → p l' = false.
Proof.
  induction ls as [|l ls IH]; intros i j; cbn [find_from]; [done|]. destruct (p l) eqn:Hp.
  - intros [= <-]. exists 0%nat, l. split_and!; [lia|done|done|lia].
  - intros (k & l' & -> & Hl & Hp' & Hmin)%IH. exists (S k), l'. split_and!; [lia|done|done|]. intros [|m] x Hm; cbn; [by intros [= <-]|apply Hmin; lia].
Qed.
Lemma find_from_none p ls : ∀ i, find_from p i ls = None → ∀ m l, ls !! m = Some l → p l = false.
Proof.
  induction ls as [|l ls IH]; intros i; cbn [find_from]; [done|]. destruct (p l) eqn:Hp; [done|]. intros H [|m] x; cbn; [by intros [= <-]|by eapply IH].
Qed.
Lemma find_line_spec p first ls j : find_line p first ls = Some j →
  (first ≤ j)%nat ∧ ∃ l, ls !! j = Some l ∧ p l = true ∧ ∀ m l', (first ≤ m < j)%nat → ls !! m = Some l' → p l' = false.
Proof.
  unfold find_line. intros (k & l & -> & Hl & Hp & Hmin)%find_from_spec. rewrite lookup_drop in Hl. split; [lia|]. exists l. split_and!; try done.
  intros m l' Hm Hl'. apply (Hmin (m - first)%nat); [lia|]. rewrite lookup_drop. by replace (first + (m - first))%nat with m by lia.
Qed.
Lemma find_line_none p first ls m l : find_line p first ls = None → (first ≤ m)%nat → ls !! m = Some l → p l = false.
Proof.
  unfold find_line. intros H Hm Hl. apply (find_from_none _ _ _ H (m - first)). rewrite lookup_drop. by replace (first + (m - first))%nat with m by lia.
Qed.
Lemma last_item_spec i ls j : last_item i ls = Some j → (j ≤ i)%nat ∧ (∃ l, ls !! j = Some l ∧ starts_item l = true) ∧ ∀ m l, (j < m ≤ i)%nat → ls !! m = Some l → starts_item l = false.
Proof.
  revert j. induction i as [|i IH]; intros j; cbn [last_item].
  - destruct (ls !! 0%nat) as [l|] eqn:Hl; [|done]. destruct (starts_item l) eqn:Hs; [|done]. intros [= <-]. split_and!; [lia|by exists l|lia].
  - destruct (ls !! S i) as [l|] eqn:Hl.
    + destruct (starts_item l) eqn:Hs; [intros [= <-]; split_and!; [lia|by exists l|lia]|]. intros (Hj & Hl' & Hno)%IH. split_and!; [lia|done|].
      intros m x Hm Hx. destruct (decide (m = S i)) as [->|]; [congruence|]. apply (Hno m); [lia|done].
    + intros (Hj & Hl' & Hno)%IH. split_and!; [lia|done|]. intros m x Hm Hx. destruct (decide (m = S i)) as [->|]; [congruence|]. apply (Hno m); [lia|done].
Qed.

Lemma split_block (ls : list str) item stop : (item ≤ stop ≤ length ls)%nat → ls = take item ls ++ take (stop - item) (drop item ls) ++ drop stop ls.
Proof.
  intros H. rewrite <- (take_drop item ls) at 1. f_equal. rewrite <- (take_drop (stop - item) (drop item ls)) at 1. f_equal. rewrite drop_drop. f_equal. lia.
Qed.

Definition mark_line (item_indent : N) (ts : str) : str := replicate (N.to_nat (item_indent + 2)) 32%N ++ #"applied_at: " ++ [34%N] ++ ts ++ [34%N].
(** A block is an item's first line and what follows it up to the next item as far in. *)
Definition is_block (block : list str) : Prop :=
  ∃ first rest, block = first :: rest ∧ ∀ l, l ∈ rest → nonempty (trim l) && (indent l =? indent first)%N && starts_item l = false.
(** One line of the block is the mark: the one that said so, or one after the id. *)
Definition marked (id ts : str) (block block' : list str) : Prop :=
  ∃ first a l b, head block = Some first ∧ block = a ++ l :: b ∧
    ((starts_with #"applied_at:" (trim_start l) = true ∧ block' = a ++ mark_line (indent first) ts :: b) ∨
     ((∀ x, x ∈ block → starts_with #"applied_at:" (trim_start x) = false) ∧ id_on_line l = Some id ∧ block' = a ++ l :: mark_line (indent first) ts :: b)).

(** Marking an entry as applied changes one line of the block that names its id, or adds one
    after the id, and leaves every other line of the file as it is: no other entry is marked, and
    the first entry that has the id is. *)
Theorem marking_stays_in_block (cid ts : str) (ls ls' : list str) :
  patch_lines cid ts ls = Some ls' →
  ∃ pre block block' post, ls = pre ++ block ++ post ∧ ls' = pre ++ block' ++ post ∧ is_block block ∧ marked cid ts block block' ∧
    (∃ l, l ∈ block ∧ id_on_line l = Some cid) ∧ ∀ l, l ∈ pre → id_on_line l ≠ Some cid.
Proof.
  unfold patch_lines. intros (i & Hi & H)%bind_Some. destruct (find_line_spec _ _ _ _ Hi) as (_ & li & Hli & Hid & Hfirst). apply bool_decide_eq_true in Hid.
  destruct (item_block i ls) as [[item ind] stop] eqn:Hb. unfold item_block in Hb. injection Hb as Hitem Hind Hstop. rewrite Hitem in Hind, Hstop. rewrite Hind in Hstop.
  assert ((item ≤ i)%nat ∧ ∀ m l, (item < m ≤ i)%nat → ls !! m = Some l → starts_item l = false) as [Hle Hno].
  { revert Hitem. destruct (last_item i ls) as [j|] eqn:Hj; cbn; intros <-; [|split; [done|lia]]. destruct (last_item_spec _ _ _ Hj) as (? & _ & ?). done. }
  destruct (lookup_lt_is_Some_2 ls item) as [first Hf]; [apply lookup_lt_Some in Hli; lia|]. rewrite Hf in Hind.
  assert ((i < stop ≤ length ls)%nat ∧ ∀ m l, (item < m < stop)%nat → ls !! m = Some l → nonempty (trim l) && (indent l =? ind)%N && starts_item l = false) as [Hs Hrest].
  { revert Hstop. destruct (find_line _ (S item) ls) as [j|] eqn:Hj; cbn [default from_option id]; intros <-.
    - destruct (find_line_spec _ _ _ _ Hj) as (Hsj & l & Hl & Hp & Hmin). apply andb_true_iff in Hp as [_ Hp]. split.
      + split; [|apply lookup_lt_Some in Hl; lia]. destruct (decide (j ≤ i)%nat); [|lia]. rewrite (Hno j l) in Hp by (done || lia). done.
      + intros m x Hm. apply Hmin. lia.
    - split; [apply lookup_lt_Some in Hli; lia|]. intros m x Hm. apply (find_line_none _ _ _ m x Hj). lia. }
  set (block := take (stop - item) (drop item ls)). pose proof (split_block ls item stop ltac:(lia)) as Hsplit. fold block in Hsplit.
  assert (∀ m, (item ≤ m < stop)%nat → block !! (m - item)%nat = ls !! m) as Hlook.
  { intros m Hm. unfold block. rewrite lookup_take_lt by lia. rewrite lookup_drop. f_equal. lia. }
  assert (head block = Some first) as Hhead by (rewrite head_lookup; rewrite <- Hf, <- (Hlook item) by lia; f_equal; lia).
  assert (is_block block) as Hblock.
  { destruct block as [|x rest] eqn:Hbl; [done|]. injection Hhead as ->. exists first, rest. split; [done|]. intros l [k Hk]%list_elem_of_lookup.
    assert (item + S k < stop)%nat as Hk'.
    { assert (length (first :: rest) = stop - item)%nat as Hlen by (rewrite <- Hbl; unfold block; rewrite length_take, length_drop; lia).
      apply lookup_lt_Some in Hk. cbn in Hlen. lia. }
    rewrite Hind. apply (Hrest (item + S k)%nat); [lia|]. rewrite <- Hlook by lia. by replace (item + S k - item)%nat with (S k) by lia. }
  exists (take item ls), block. 
  assert (li ∈ block) as Hlib by (apply (list_elem_of_lookup_2 _ (i - item)); rewrite Hlook by lia; done).
  assert (∀ l, l ∈ take item ls → id_on_line l ≠ Some cid) as Hpre.
  { intros l [m Hm]%list_elem_of_lookup. pose proof (lookup_lt_Some _ _ _ Hm) as Hlt. rewrite length_take in Hlt. rewrite lookup_take_lt in Hm by lia.
    apply (bool_decide_eq_false_1 _), (Hfirst m); [lia|done]. }
  fold (mark_line ind ts) in H. rewrite <- Hind in H.
  destruct (find_line _ item (take stop ls)) as [k|] eqn:Hk; injection H as <-.
  - destruct (find_line_spec _ _ _ _ Hk) as (Hik & l & Hl & Hp & _). pose proof (lookup_lt_Some _ _ _ Hl) as Hlt. rewrite length_take in Hlt. rewrite lookup_take_lt in Hl by lia.
    assert (block !! (k - item)%nat = Some l) as Hbl by (rewrite Hlook by lia; done).
    exists (<[(k - item)%nat := mark_line (indent first) ts]> block), (drop stop ls). split; [done|]. split.
    { rewrite Hsplit at 1. replace k with (length (take item ls) + (k - item))%nat at 1 by (rewrite length_take; lia). rewrite insert_app_r, insert_app_l; [done|].
      by eapply lookup_lt_Some. }
    split; [done|]. split; [|split; [by exists li|done]]. exists first, (take (k - item) block), l, (drop (S (k - item)) block). split; [done|].
    split; [by rewrite take_drop_middle|]. left. split; [done|]. apply insert_take_drop. by eapply lookup_lt_Some.
  - assert (block !! (i - item)%nat = Some li) as Hbl by (rewrite Hlook by lia; done).
    exists (take (S (i - item)) block ++ mark_line (indent first) ts :: drop (S (i - item)) block), (drop stop ls). split; [done|]. split.
    { rewrite Hsplit at 1 2. pose proof (lookup_lt_Some _ _ _ Hbl) as Hlt. assert (length (take item ls) = item) as Hpl by (rewrite length_take; lia).
      replace (S i) with (length (take item ls) + S (i - item))%nat by lia. rewrite take_app_add, drop_app_add, take_app_le, drop_app_le by lia. by rewrite <- !app_assoc. }
    split; [done|]. split; [|split; [by exists li|done]]. exists first, (take (i - item) block), li, (drop (S (i - item)) block). split; [done|].
    split; [by rewrite take_drop_middle|]. right. split.
    + intros x [m Hm]%list_elem_of_lookup. pose proof (lookup_lt_Some _ _ _ Hm) as Hlt. unfold block in Hlt. rewrite length_take, length_drop in Hlt.
      apply (find_line_none _ _ _ (item + m) x Hk); [lia|]. rewrite lookup_take_lt by lia. rewrite <- Hlook by lia. by replace (item + m - item)%nat with m by lia.
    + split; [done|]. rewrite (take_S_r _ _ li) by done. by rewrite <- app_assoc.
Qed.

(** ** A run over the file *)

(** Nothing is lost: an entity keeps all but its labels and attributes, and an edge is at most
    invalidated. *)
Definition identity_of (e : ent) : str * str * str * option str * option str * N := (en_uuid e, en_name e, en_group e, en_kind e, en_key e, en_created e).
Definition only_invalidated (ts : str) (r r' : relnode) : Prop := r' = r ∨ r' = invalidated ts r.
Definition history_kept (ts : str) (g g' : graph) : Prop :=
  identity_of <$> g_ents g' = identity_of <$> g_ents g ∧ ∀ r, r ∈ g_rels g → ∃ r', r' ∈ g_rels g' ∧ only_invalidated ts r r'.
Lemma kept_refl ts g : history_kept ts g g.
Proof. split; [done|]. intros r Hr. exists r. split; [done|by left]. Qed.
Lemma kept_trans ts g1 g2 g3 : history_kept ts g1 g2 → history_kept ts g2 g3 → history_kept ts g1 g3.
Proof.
  intros [H1 H2] [H3 H4]. split; [congruence|]. intros r Hr. destruct (H2 r Hr) as (r1 & Hr1 & Hk1). destruct (H4 r1 Hr1) as (r2 & Hr2 & Hk2).
  exists r2. split; [done|]. destruct Hk1 as [->| ->], Hk2 as [->| ->]; [by left|by right|by right|by right].
Qed.
Lemma kept_invalidate ts u g : history_kept ts g (invalidate_edge u ts g).
Proof.
  split; [done|]. intros r Hr. unfold invalidate_edge. cbn [g_rels edge_mut record_mut on_rel with_rels]. eexists. split; [by apply list_elem_of_fmap_2|].
  case_bool_decide; [by right|by left].
Qed.
Lemma kept_insert ts u n s d gid a i g : history_kept ts g (insert_relates_to_edge u n s d gid a i g).
Proof.
  split; [done|]. intros r Hr. exists r. split; [|by left]. unfold insert_relates_to_edge. cbn [g_rels edge_mut record_mut with_direct with_rels]. apply elem_of_app. by left.
Qed.
Lemma kept_ents ts f u g : (∀ e, identity_of (f e) = identity_of e) → history_kept ts g (on_ent u f g).
Proof.
  intros Hf. split; [|intros r Hr; exists r; split; [done|by left]]. cbn [on_ent g_ents record_mut with_ents]. rewrite <- list_fmap_compose. apply list_fmap_ext.
  intros i e _. cbn. case_bool_decide; [apply Hf|done].
Qed.
Create HintDb kept.
#[local] Hint Resolve kept_refl kept_invalidate kept_insert : kept.

Section run.
Context {U : Unicode} {AC : AttrCodec} (parse_yaml : str → result str (list CorrectionEntry)) (display : Error → str) (new_uuid : graph → str).

Lemma kept_tombstone ts c a g : history_kept ts g (tombstone c a g).
Proof. unfold tombstone, update_entity_attributes, update_entity_labels. eapply kept_trans; by apply kept_ents. Qed.
Lemma kept_same_as ts c a gid g : history_kept ts g (same_as_edges new_uuid c a gid ts g).
Proof.
  unfold same_as_edges. generalize (get_full_edges_for_entity g a). intros rows. revert g. induction rows as [|e rows IH]; intros g; cbn [foldl]; [apply kept_refl|].
  eapply kept_trans; [|apply IH]. unfold same_as_edge. destruct (ew_invalid e); [apply kept_refl|]. destruct (negb _); [apply kept_refl|]. cbv zeta.
  destruct (has_directed_edge _ _ _ _ _); [apply kept_invalidate|]. eapply kept_trans; [apply kept_insert|apply kept_invalidate].
Qed.
Lemma kept_aliases canonical ts dry aliases g : history_kept ts g (same_as_aliases new_uuid canonical ts dry aliases g).2 ∧ (dry = true → (same_as_aliases new_uuid canonical ts dry aliases g).2 = g).
Proof.
  revert g. induction aliases as [|n aliases IH]; intros g; cbn [same_as_aliases]; [split; [apply kept_refl|done]|].
  destruct (head _) as [alias|]; [|split; [apply kept_refl|done]]. case_bool_decide; [apply IH|]. destruct dry; [apply IH|].
  split; [|done]. eapply kept_trans; [apply kept_same_as|]. eapply kept_trans; [apply kept_tombstone|apply IH].
Qed.
Lemma kept_entry flt entry ts dry s : history_kept ts (as_graph s) (as_graph (apply_entry new_uuid flt entry ts dry s).2) ∧ (dry = true → (apply_entry new_uuid flt entry ts dry s).2 = s).
Proof.
  unfold apply_entry. case_bool_decide; [|case_bool_decide; [|split; [apply kept_refl|done]]].
  - unfold apply_same_as. destruct (resolve_canonical entry (as_graph s)) as [c|]; [|split; [apply kept_refl|done]].
    destruct (default [] (ce_aliases entry)) as [|n aliases]; [split; [apply kept_refl|done]|].
    pose proof (kept_aliases c ts dry (n :: aliases) (as_graph s)) as [H1 H2]. destruct (same_as_aliases _ _ _ _ _ _) as [[] g]; cbn [snd] in *.
    2: { split; [done|]. intros Hd. rewrite (H2 Hd). by destruct s. }
    destruct dry; [split; [done|]; rewrite H2 by done; by destruct s|]. destruct (patch_applied_at _ _ _ _) as [r t]. done.
  - unfold apply_retract. destruct (ce_edge_uuid entry) as [u|]; [|split; [apply kept_refl|done]]. destruct (get_edge_by_uuid (as_graph s) u); [|split; [apply kept_refl|done]].
    destruct dry; [split; [apply kept_refl|done]|]. destruct (patch_applied_at _ _ _ _) as [r t]. split; [|done]. cbn. apply kept_invalidate.
Qed.

(** Every entry of a file is accounted for exactly once, as skipped, done or failed; a run is a
    success only without failures; a dry run changes neither the graph nor the file; and a real one
    loses nothing: entities keep what identifies them and edges are at most invalidated. *)
Theorem corrections_accounted (readable dry : bool) (faults : nat → patch_fault) (ts : str) (s : astate) (entries : list CorrectionEntry) :
  read_corrections_file parse_yaml readable (as_text s) = Ok (Some entries) → entries ≠ [] →
  let '(r, s') := apply_corrections_file parse_yaml display new_uuid readable faults ts dry s in
  N.of_nat (length entries) = (ar_skipped r + N.of_nat (length (ar_details r)) + N.of_nat (length (ar_errors r)))%N ∧
  ar_skipped r = N.of_nat (length (List.filter (λ e, bool_decide (is_Some (ce_applied_at e))) entries)) ∧
  ar_applied r = (if dry then 0%N else N.of_nat (length (ar_details r))) ∧
  (ar_success r = true ↔ ar_errors r = []) ∧
  (dry = true → s' = s) ∧ history_kept ts (as_graph s) (as_graph s').
Proof.
  intros Hread Hne. unfold apply_corrections_file. rewrite Hread. destruct entries as [|e0 es]; [done|]. clear Hne Hread. set (entries := e0 :: es).
  assert (∀ l acc, let '(r, s') := foldl (apply_step display new_uuid ts dry) acc l in let '(r0, s0) := acc in
    N.of_nat (length l) + ar_skipped r0 + N.of_nat (length (ar_details r0)) + N.of_nat (length (ar_errors r0)) = ar_skipped r + N.of_nat (length (ar_details r)) + N.of_nat (length (ar_errors r)) ∧
    ar_skipped r = ar_skipped r0 + N.of_nat (length (List.filter (λ e, bool_decide (is_Some (ce_applied_at e.2))) l)) ∧
    (ar_applied r + (if dry then 0 else N.of_nat (length (ar_details r0))) = ar_applied r0 + if dry then 0 else N.of_nat (length (ar_details r))) ∧
    (dry = true → s' = s0) ∧ history_kept ts (as_graph s0) (as_graph s'))%N as H.
  { induction l as [|[flt e] l IH]; intros [r0 s0]; cbn [foldl].
    - cbn [length List.filter]. split_and!; try lia; [done|apply kept_refl].
    - specialize (IH (apply_step display new_uuid ts dry (r0, s0) (flt, e))). destruct (foldl _ _ l) as [r s']. revert IH. unfold apply_step.
      cbn [List.filter length snd]. destruct (ce_applied_at e) as [t|].
      + rewrite (bool_decide_eq_true_2 (is_Some (Some t))) by done. cbn [ar_skipped ar_details ar_errors ar_applied length]. intros (H1 & H2 & H3 & H4 & H5). split_and!; try done; lia.
      + rewrite (bool_decide_eq_false_2 (is_Some None)) by (by intros []). pose proof (kept_entry flt e ts dry s0) as [Hk Hd].
        destruct (apply_entry new_uuid flt e ts dry s0) as [[a|er] s1]; cbn [ar_skipped ar_details ar_errors ar_applied snd] in *; rewrite ?length_app; cbn [length]; intros (H1 & H2 & H3 & H4 & H5);
          (split_and!; [lia|lia|destruct dry; lia|intros Hdry; rewrite H4 by done; by apply Hd|by eapply kept_trans]). }
  specialize (H (imap (λ i e, (faults i, e)) entries) (empty_result true [] None, s)). destruct (foldl _ _ _) as [r s'].
  destruct H as (H1 & H2 & H3 & H4 & H5). cbn [empty_result ar_skipped ar_details ar_errors ar_applied length] in *. rewrite length_imap in H1. split_and!; try done.
  - rewrite H2, N.add_0_l. f_equal. generalize entries as l. intros l. clear. assert (∀ f : nat → patch_fault,
      length (List.filter (λ e : patch_fault * CorrectionEntry, bool_decide (is_Some (ce_applied_at e.2))) (imap (λ i e, (f i, e)) l)) =
      length (List.filter (λ e, bool_decide (is_Some (ce_applied_at e))) l)) as H; [|apply H].
    induction l as [|e l IH]; intros f; [done|]. rewrite imap_cons. cbn [List.filter snd]. specialize (IH (f ∘ S)). destruct (bool_decide _); cbn [length]; by rewrite <- IH.
  - destruct dry; lia.
  - cbn [ar_success]. apply bool_decide_eq_true.
Qed.
End run.

(** ** Files, concretely *)

Definition toy_file : list str := [ #"corrections:"; #"  - id: c1"; #"    type: retract"; #"  - id: c2"; #"    type: retract"; #"    applied_at: old" ].
Lemma marking_stays_in_block_witness :
  let ls' := [ #"corrections:"; #"  - id: c1"; #"    applied_at: " ++ [34%N] ++ #"now" ++ [34%N]; #"    type: retract"; #"  - id: c2"; #"    type: retract"; #"    applied_at: old" ] in
  patch_lines #"c1" #"now" toy_file = Some ls' ∧
  ∃ pre block block' post, toy_file = pre ++ block ++ post ∧ ls' = pre ++ block' ++ post ∧ marked #"c1" #"now" block block'.
Proof.
  cbv zeta. assert (patch_lines #"c1" #"now" toy_file = Some [ #"corrections:"; #"  - id: c1"; #"    applied_at: " ++ [34%N] ++ #"now" ++ [34%N]; #"    type: retract"; #"  - id: c2"; #"    type: retract"; #"    applied_at: old" ]) as H by (vm_compute; reflexivity).
  split; [exact H|]. destruct (marking_stays_in_block _ _ _ _ H) as (pre & block & block' & post & H1 & H2 & _ & H4 & _).
  exists pre, block, block', post. split; [exact H1|]. split; [exact H2|exact H4].
Defined.

(** An entry whose id line carries a comment is read by YAML but never found again: its lines are
    refused, so what it asks for is done again by every run and reported as a failure by every run. *)
Theorem commented_id_never_marked (ts : str) : patch_lines #"c1" ts [ #"- id: c1 # why"; #"  type: retract"; #"  edge_uuid: e1" ] = None.
Proof. vm_compute. reflexivity. Qed.

Definition toy_entry : CorrectionEntry :=
  {| ce_id := #"c1"; ce_type := #"retract"; ce_canonical := None; ce_canonical_uuid := None; ce_aliases := None; ce_edge_uuid := Some #"e1"; ce_applied_at := None |}.
Definition toy_apply (dry : bool) (text : string) :=
  @apply_corrections_file AsciiUnicode ToyAttrs (λ _, Ok [toy_entry]) (λ _, #"error") longer_uuid true (λ _, PFine) #"now" dry
    {| as_graph := merge_graph [merge_rel "e1" "ali" "KNOWS" "bob" "g"]; as_text := Some (lit text) |}.
(** The edge is invalidated, yet the run fails and the file is as it was. *)
Theorem commented_entry_applied_and_failed :
  let '(r, s) := toy_apply false "- id: c1 # why" in
  ar_success r = false ∧ ar_applied r = 0%N ∧ as_text s = Some #"- id: c1 # why" ∧ (rn_invalid <$> g_rels (as_graph s)) = [Some #"now"].
Proof. vm_compute. auto. Qed.
Lemma corrections_accounted_witness :
  read_corrections_file (λ _, Ok [toy_entry]) true (Some #"- id: c1") = Ok (Some [toy_entry]) ∧ (ar_skipped (toy_apply true "- id: c1").1 = 0%N ∧ (toy_apply true "- id: c1").2 = {| as_graph := merge_graph [merge_rel "e1" "ali" "KNOWS" "bob" "g"]; as_text := Some #"- id: c1" |}).
Proof.
  assert (read_corrections_file (λ _, Ok [toy_entry]) true (Some #"- id: c1") = Ok (Some [toy_entry])) as H by reflexivity. split; [exact H|].
  pose proof (@corrections_accounted AsciiUnicode ToyAttrs (λ _, Ok [toy_entry]) (λ _, #"error") longer_uuid true true (λ _, PFine) #"now"
    {| as_graph := merge_graph [merge_rel "e1" "ali" "KNOWS" "bob" "g"]; as_text := Some #"- id: c1" |} [toy_entry] H ltac:(discriminate)) as A.
  change (apply_corrections_file _ _ _ _ _ _ _ _) with (toy_apply true "- id: c1") in A. destruct (toy_apply true "- id: c1") as [r s'].
  destruct A as (_ & A2 & _ & _ & A5 & _). split; [exact A2|exact (A5 eq_refl)].
Defined.

(** Where an item's fields are indented by more than two, the mark is not among them: the file is
    no longer the YAML it was. *)
Theorem wide_item_marked_outside :
  patch_lines #"c1" #"now" [ #"-   type: retract"; #"    id: c1" ] = Some [ #"-   type: retract"; #"    id: c1"; #"  applied_at: " ++ [34%N] ++ #"now" ++ [34%N] ].
Proof. vm_compute. reflexivity. Qed.
(** A mark that an item begins with is not seen, and a second one is added. *)
Theorem leading_mark_duplicated :
  patch_lines #"c1" #"now" [ #"- applied_at: ~"; #"  id: c1" ] = Some [ #"- applied_at: ~"; #"  id: c1"; #"  applied_at: " ++ [34%N] ++ #"now" ++ [34%N] ].
Proof. vm_compute. reflexivity. Qed.

(** A canonical entity given by name may be a tombstone, which a requested merge refuses: the alias
    is then merged into it. *)
Definition tomb_graph : graph :=
  {| g_ents := [set_labels [ #"Entity"; #"Merged"] (merge_ent "can"); merge_ent "ali"; merge_ent "bob"]; g_eps := []; g_rels := [merge_rel "e1" "ali" "KNOWS" "bob" "g"];
     g_direct := []; g_kinds := []; g_scans := 0; g_pending := [] |}.
Definition tomb_entry : CorrectionEntry :=
  {| ce_id := #"c1"; ce_type := #"same_as"; ce_canonical := Some #"can"; ce_canonical_uuid := None; ce_aliases := Some [ #"ali"]; ce_edge_uuid := None; ce_applied_at := None |}.
Theorem same_as_into_tombstone :
  let '(r, s) := @apply_same_as ToyAttrs longer_uuid PFine tomb_entry #"now" false {| as_graph := tomb_graph; as_text := Some #"- id: c1" |} in
  r = Ok #"same_as" ∧ (is_merged <$> g_ents (as_graph s)) = [true; true; false] ∧ has_directed_edge (as_graph s) #"can" #"bob" #"KNOWS" #"g" = true ∧
  (@merge_entities ToyAttrs longer_uuid (λ _, []) (λ _, []) {| mp_canonical_uuid := Some #"can"; mp_canonical_name := None; mp_alias_uuids := [ #"ali"]; mp_alias_names := [];
     mp_merge_all_by_name := false; mp_kind := None; mp_group_id := #"g"; mp_dry_run := false |} #"now" tomb_graph).2 = tomb_graph.
Proof. vm_compute. auto. Qed.
