(* ===== verification/Reprocess.v ===== *)
(** * Reprocess: classifying a group's entities again (core/src/corrections.rs, with the handler in
    core/src/handlers.rs)

    The classifier is an oracle of the call's number; [others] is what other writers have done
    before the n-th time the handler takes the lock; progress messages are left out, and queries are
    taken to succeed.  Entities are listed under the read lock, classified without a lock, and
    written in batches under the write lock. *)

From S2P Require Import Prelude Text Numbers Json WalGeneration WalScan Checkpoint WalGroup Wal LegacyWal Replay WalExec Pointer Ontology Prompts Graph CrossGroup CrossGroupTheory OntologyState SummaryMerge Replies Extraction IdentifierVeto Embedder Search DedupAdapter DedupSearch EpisodeFilter Episode Assert Corrections MergeEntities.

(** Source: core/src/corrections.rs 17-17 (REPROCESS_BATCH_SIZE) *)
Definition REPROCESS_BATCH_SIZE : nat := 50.
(** Source: core/src/corrections.rs 763-772 (ReprocessScope) *)
Inductive ReprocessScope := Untyped | OffOntology | AllTypes.

(** ** Listing *)

Definition by_uuid (a b : ent) : bool := str_leb (en_uuid a) (en_uuid b).
Definition generic (group_id : str) (e : ent) : bool := bool_decide (en_group e = group_id) && (length (en_labels e) =? 1)%nat && bool_decide (#"Entity" ∈ en_labels e).
Definition typed (group_id : str) (e : ent) : bool := bool_decide (en_group e = group_id) && (2 <=? length (en_labels e))%nat && bool_decide (#"Entity" ∈ en_labels e).
(** Source: core/src/db.rs 3557-3585 (list_generic_entities_page) *)
Definition list_generic_entities_page (g : graph) (group_id : str) (offset limit : nat) : list ent :=
  take limit (drop offset (sort_by by_uuid (List.filter (generic group_id) (g_ents g)))).
(** Source: core/src/db.rs 3591-3619 (list_typed_entities_page) *)
Definition list_typed_entities_page (g : graph) (group_id : str) (offset limit : nat) : list ent :=
  take limit (drop offset (sort_by by_uuid (List.filter (typed group_id) (g_ents g)))).
(** Pages until one is not full; a turn per page and one more is enough. *)
Fixpoint all_pages (page : nat → nat → list ent) (fuel offset : nat) : list ent :=
  match fuel with
  | O => []
  | S fuel =>
      let rows := page offset REPROCESS_BATCH_SIZE in
      if (length rows <? REPROCESS_BATCH_SIZE)%nat then rows else rows ++ all_pages page fuel (offset + REPROCESS_BATCH_SIZE)
  end.
(** Source: core/src/corrections.rs 697-710 (list_all_generic_entities) *)
Definition list_all_generic_entities (g : graph) (group_id : str) : list ent := all_pages (list_generic_entities_page g group_id) (S (length (g_ents g))) 0.
(** Source: core/src/corrections.rs 744-757 (list_all_typed_entities) *)
Definition list_all_typed_entities (g : graph) (group_id : str) : list ent := all_pages (list_typed_entities_page g group_id) (S (length (g_ents g))) 0.
(** Source: core/src/corrections.rs 864-890 (list_entities_for_scope) *)
Definition list_entities_for_scope (g : graph) (group_id : str) (scope : ReprocessScope) (ontology_type_names : option (gset str)) : result Error (list ent) :=
  match scope with
  | Untyped => Ok (list_all_generic_entities g group_id)
  | OffOntology =>
      match ontology_type_names with
      | None => Err (Ipc (Msg "ontology type names required for OffOntology scope" []))
      | Some type_names => Ok (list_all_generic_entities g group_id ++ List.filter (λ e, is_off_ontology (en_labels e) type_names) (list_all_typed_entities g group_id))
      end
  | AllTypes => Ok (list_all_generic_entities g group_id ++ list_all_typed_entities g group_id)
  end.

(** ** Writing labels *)

Section labels.
Context (ancestor_map : gmap str (list str)).
(** Source: core/src/corrections.rs 726-735 (apply_entity_type_labels) *)
Definition labels_for (entity_type : str) (kind : option str) : list str :=
  let labels := [ #"Entity"] ++ default [] (ancestor_map !! entity_type) ++ [entity_type] in
  match kind with Some k => labels_with_kind labels k | None => labels end.
(** Source: core/src/db.rs 3450-3456 (get_entity_kind) *)
Definition get_entity_kind (g : graph) (uuid : str) : option str := kind_of <$> get_entity_by_uuid g uuid.
(** Source: core/src/corrections.rs 716-740 (apply_entity_type_labels) *)
Fixpoint apply_entity_type_labels (updates : list (str * str)) (count : N) (g : graph) : N * graph :=
  match updates with
  | [] => (count, g)
  | (uuid, []) :: updates => apply_entity_type_labels updates count g
  | (uuid, entity_type) :: updates => apply_entity_type_labels updates (count + 1) (update_entity_labels uuid (labels_for entity_type (get_entity_kind g uuid)) g)
  end.
(** Source: core/src/handlers.rs 5051-5071 (handle_reprocess_entity_types) *)
Definition declared_leaves (labels : list str) : list str :=
  let specific := specific_labels labels in
  List.filter (λ t, bool_decide (is_Some (ancestor_map !! t)) &&
    negb (existsb (λ other, negb (bool_decide (t = other)) && match ancestor_map !! other with Some anc => bool_decide (t ∈ anc) | None => false end) specific)) specific.
(** The labels an entity should have by its own leaf type, if it has one.
    Source: core/src/handlers.rs 5075-5113 (handle_reprocess_entity_types) *)
Definition expected_labels (e : ent) : option (list str) :=
  let leaves := declared_leaves (en_labels e) in
  let leaves := match leaves with
                | [_] => leaves
                | _ => if bool_decide (kind_of e = DEFAULT_KIND) then leaves else declared_leaves (labels_without_kind ancestor_map (en_labels e) (kind_of e))
                end in
  match leaves with [t] => Some (labels_for t (Some (kind_of e))) | _ => None end.
(** Source: core/src/handlers.rs 5036-5122 (handle_reprocess_entity_types) *)
Fixpoint restamp (rows : list ent) (count : N) (g : graph) : N * graph :=
  match rows with
  | [] => (count, g)
  | e :: rows =>
      match expected_labels e with
      | Some expected =>
          if bool_decide (sort_by str_leb (en_labels e) = sort_by str_leb expected) then restamp rows count g
          else restamp rows (count + 1) (update_entity_labels (en_uuid e) expected g)
      | None => restamp rows count g
      end
  end.
End labels.

(** ** The handler *)

(** One planned change: uuid, name, old type, new type. *)
Record retype := { rt_uuid : str; rt_entity_name : str; rt_old : option str; rt_new : str }.
Record disagreement := { ds_uuid : str; ds_name : str; ds_kind : str; ds_type : str }.
Inductive reprocess_result :=
| RFailed (error : str)
| RDry (plan : list retype) (disagreements : list disagreement)
| RDone (reclassified unchanged restamped : N) (disagreements : list disagreement).

Section handler.
Context {U : Unicode} {LP : LinePrinter} {SR : SeqReader} {GC : GenerationCodec}.
Context (logged : str * gmut → flush_env * mutation) (display : Error → str) (summary : str → str).
Context (classify : nat → list (str * str) → option (list str) → result Error (list str)) (others : nat → graph → graph).

(** A batch of answers is padded or cut to the batch asked about.
    Source: core/src/handlers.rs 4881-4915 (handle_reprocess_entity_types) *)
Fixpoint classify_chunks (n : nat) (chunks : list (list (str * str))) (allowed : option (list str)) : result Error (list str) :=
  match chunks with
  | [] => Ok []
  | chunk :: chunks =>
      let? batch := classify n chunk allowed in
      let? more := classify_chunks (S n) chunks allowed in
      Ok (take (length chunk) (batch ++ replicate (length chunk) []) ++ more)
  end.
(** What is decided about one entity: a change, if any, and whether its kind disagrees.
    Source: core/src/handlers.rs 4924-4961 (handle_reprocess_entity_types) *)
Definition decide_type (onto : option Ontology) (anc : gmap str (list str)) (e : ent) (assigned : str) : option retype * list disagreement :=
  if negb (nonempty assigned) then (None, [])
  else if match onto with Some o => is_extract_false_entity o assigned | None => false end then (None, [])
  else
    let current := find_leaf_type_with_kind anc (en_labels e) (kind_of e) in
    (if bool_decide (current = Some assigned) then None else Some {| rt_uuid := en_uuid e; rt_entity_name := en_name e; rt_old := current; rt_new := assigned |},
     if negb (bool_decide (kind_of e = DEFAULT_KIND)) && negb (bool_decide (assigned = kind_of e))
     then [{| ds_uuid := en_uuid e; ds_name := en_name e; ds_kind := kind_of e; ds_type := assigned |}] else []).
(** [k] counts the times the lock has been taken.
    Source: core/src/handlers.rs 4981-5014 (handle_reprocess_entity_types) *)
Fixpoint write_types (oe : open_env) (ok : bool) (identity : str * Z) (group_id : str) (anc : gmap str (list str)) (batches : list (list (str * str))) (k : nat) (count : N) (s : served) : N * nat * served :=
  match batches with
  | [] => (count, k, s)
  | b :: batches =>
      let '(n, g) := apply_entity_type_labels anc b 0 (fresh_connection (others k (sv_graph s))) in
      let s := flush_ungrouped logged oe ok identity group_id {| sv_graph := g; sv_wal := sv_wal s; sv_positions := sv_positions s |} in
      write_types oe ok identity group_id anc batches (S k) (count + n) s
  end.
Definition scope_of (p : value) : option ReprocessScope :=
  match default #"untyped" (as_str (param "scope" p)) with
  | s => if bool_decide (s = #"untyped") then Some Untyped else if bool_decide (s = #"off_ontology") then Some OffOntology else if bool_decide (s = #"all") then Some AllTypes else None
  end.
(** Source: core/src/handlers.rs 4772-4822 (handle_reprocess_entity_types) *)
Definition check_ontology (scope : ReprocessScope) (onto : option Ontology) : result str (option (gset str)) :=
  match scope, onto with
  | Untyped, _ => Ok None
  | OffOntology, None => Err #"scope 'off_ontology' requires an ontology to be configured"
  | AllTypes, None => Err #"scope 'all' requires an ontology to be configured"
  | _, Some o =>
      if bool_decide (entity_type_names o = ∅) then Err #"the configured ontology declares no entity types; scope requires at least one declared entity type to constrain classification"
      else match extractable_entity_types o with
           | [] => Err #"every declared entity type is `extract: false`; reprocessing has no extractable type to classify into"
           | _ => Ok (Some (entity_type_names o))
           end
  end.
(** Source: core/src/handlers.rs 4736-5140 (handle_reprocess_entity_types) *)
Definition handle_reprocess_entity_types (oe : open_env) (ok : bool) (identity : str * Z) (workspace : bool) (onto : option Ontology) (p : value) (s : served) : result Error reprocess_result * served :=
  if negb workspace then (Err (Ipc (Msg "LIMINIS_WORKSPACE_ROOT not set; corrections unavailable" [])), s)
  else
    let group_id := group_param p in
    match scope_of p with
    | None => (Ok (RFailed (#"unknown scope '" ++ default #"untyped" (as_str (param "scope" p)) ++ #"'; valid values: untyped, off_ontology, all")), s)
    | Some scope =>
        let dry_run := default false (as_bool (param "dry_run" p)) in
        match check_ontology scope onto with
        | Err e => (Ok (RFailed e), s)
        | Ok type_names =>
            let anc := match onto with Some o => ancestor_map o | None => ∅ end in
            let s := {| sv_graph := others 0 (sv_graph s); sv_wal := sv_wal s; sv_positions := sv_positions s |} in
            match list_entities_for_scope (sv_graph s) group_id scope type_names with
            | Err e => (Err e, s)
            | Ok [] => (Ok (if dry_run then RDry [] [] else RDone 0 0 0 []), s)
            | Ok entities =>
                let allowed := match type_names, onto with Some _, Some o => Some (sort_by str_leb (elements (extractable_entity_type_names o))) | _, _ => None end in
                match classify_chunks 0 (chunks (length entities) REPROCESS_BATCH_SIZE ((λ e, (en_name e, summary (en_uuid e))) <$> entities)) allowed with
                | Err e => (Ok (RFailed (#"Failed to reprocess entity types: " ++ display e)), s)
                | Ok types =>
                    let decided := zip_with (decide_type onto anc) entities types in
                    let plan := omap fst decided in
                    let disagreements := concat (snd <$> decided) in
                    let unchanged := N.of_nat (length decided - length plan) in
                    if dry_run then (Ok (RDry plan disagreements), s)
                    else
                      let '(reclassified, k, s) :=
                        write_types oe ok identity group_id anc (chunks (length plan) REPROCESS_BATCH_SIZE ((λ r, (rt_uuid r, rt_new r)) <$> plan)) 1 0 s in
                      if existsb (λ e : str * list str, negb (bool_decide (e.2 = []))) (map_to_list anc) then
                        let g := fresh_connection (others k (sv_graph s)) in
                        let '(restamped, g) := restamp anc (list_all_typed_entities g group_id) 0 g in
                        (Ok (RDone reclassified unchanged restamped disagreements),
                         flush_ungrouped logged oe ok identity group_id {| sv_graph := g; sv_wal := sv_wal s; sv_positions := sv_positions s |})
                      else (Ok (RDone reclassified unchanged 0 disagreements), s)
                end
            end
        end
    end.
End handler.
