(* ===== verification/ReprocessTheory.v ===== *)
(** * ReprocessTheory: what classifying a group's entities again does

    Listing by pages misses nothing; a run changes labels only, of the group's own rows, and keeps
    the generic label and the kind among them; but it takes tombstones for typed entities and
    writes labels without the mark. *)

From S2P Require Import Prelude Text Numbers Json WalGeneration WalScan Checkpoint WalGroup Wal LegacyWal Replay WalExec Pointer Ontology Prompts Graph CrossGroup CrossGroupTheory OntologyState SummaryMerge Replies Extraction IdentifierVeto Embedder Search DedupAdapter DedupSearch EpisodeFilter Episode Assert AssertTheory Corrections MergeEntities MergeTheory Reprocess.

(** ** Pages *)

Lemma all_pages_exact (l : list ent) (page : nat → nat → list ent) : (∀ o n, page o n = take n (drop o l)) →
  ∀ fuel offset, (length l < offset + fuel)%nat → all_pages page fuel offset = drop offset l.
Proof.
  intros Hp. induction fuel as [|fuel IH]; intros offset Hf; cbn [all_pages]; [by rewrite drop_ge by lia|]. rewrite Hp, length_take, length_drop.
  destruct (_ <? _)%nat eqn:Hlt; [apply Nat.ltb_lt in Hlt; apply take_ge; rewrite length_drop; lia|]. apply Nat.ltb_ge in Hlt.
  rewrite IH by (unfold REPROCESS_BATCH_SIZE in *; lia). rewrite <- drop_drop. apply take_drop.
Qed.
Lemma filtered_length (f : ent → bool) l : (length (sort_by by_uuid (List.filter f l)) ≤ length l)%nat.
Proof. rewrite (Permutation_length (sort_by_perm _ _)). apply List.filter_length_le. Qed.
Lemma generic_complete g gid : list_all_generic_entities g gid = sort_by by_uuid (List.filter (generic gid) (g_ents g)).
Proof. unfold list_all_generic_entities. erewrite all_pages_exact; [by rewrite drop_0|done|]. pose proof (filtered_length (generic gid) (g_ents g)). lia. Qed.
Lemma typed_complete g gid : list_all_typed_entities g gid = sort_by by_uuid (List.filter (typed gid) (g_ents g)).
Proof. unfold list_all_typed_entities. erewrite all_pages_exact; [by rewrite drop_0|done|]. pose proof (filtered_length (typed gid) (g_ents g)). lia. Qed.
Lemma listed_in_group g gid scope names l e : list_entities_for_scope g gid scope names = Ok l → e ∈ l → e ∈ g_ents g ∧ en_group e = gid.
Proof.
  assert (∀ f : ent → bool, (∀ e, f e = true → en_group e = gid) → ∀ e, e ∈ sort_by by_uuid (List.filter f (g_ents g)) → e ∈ g_ents g ∧ en_group e = gid) as H.
  { intros f Hf x Hx%sort_by_elem. apply list_elem_of_In, filter_In in Hx as [Hx Hfx]. split; [by apply list_elem_of_In|by apply Hf]. }
  assert (∀ e, generic gid e = true → en_group e = gid) as Hg by (intros x; unfold generic; rewrite !andb_true_iff, bool_decide_eq_true; tauto).
  assert (∀ e, typed gid e = true → en_group e = gid) as Ht by (intros x; unfold typed; rewrite !andb_true_iff, bool_decide_eq_true; tauto).
  unfold list_entities_for_scope. rewrite generic_complete, typed_complete. destruct scope; [intros [= <-]; by apply (H _ Hg)| |].
  - destruct names; [|done]. intros [= <-] [Hx|Hx]%elem_of_app; [by apply (H _ Hg)|]. apply list_elem_of_In, filter_In in Hx as [Hx%list_elem_of_In _]. by apply (H _ Ht).
  - intros [= <-] [Hx|Hx]%elem_of_app; [by apply (H _ Hg)|by apply (H _ Ht)].
Qed.

(** ** Labels *)

(** Rows change their labels only, and only rows of the group; what is written begins with the
    generic label and names the row's kind. *)
Definition relabelled (group : str) (e e' : ent) : Prop :=
  e' = e ∨ (en_group e = group ∧ e' = set_labels (en_labels e') e ∧ head (en_labels e') = Some #"Entity" ∧ kind_of e ∈ en_labels e').
Definition only_labels (group : str) (g g' : graph) : Prop := Forall2 (relabelled group) (g_ents g) (g_ents g') ∧ g_rels g' = g_rels g ∧ g_eps g' = g_eps g.
Lemma relabelled_trans group a b c : relabelled group a b → relabelled group b c → relabelled group a c.
Proof.
  intros [->|(Hg & Hb & Hh & Hk)] Hc; [done|]. right. destruct Hc as [->|(Hg' & Hc & Hh' & Hk')]; [by split_and!|].
  rewrite Hb in Hg', Hc, Hk'. split_and!; try done.
Qed.
Lemma only_labels_refl group g : only_labels group g g.
Proof. split; [|done]. induction (g_ents g); constructor; [by left|done]. Qed.
Lemma only_labels_trans group g1 g2 g3 : only_labels group g1 g2 → only_labels group g2 g3 → only_labels group g1 g3.
Proof.
  intros (H1 & H2 & H3) (H4 & H5 & H6). split_and!; [|congruence|congruence]. clear -H1 H4. revert H4. generalize (g_ents g3).
  induction H1 as [|a b l1 l2 Hab _ IH]; intros l3 H; inversion H; subst; constructor; [by eapply relabelled_trans|by apply IH].
Qed.
Lemma only_labels_fresh group g : only_labels group g (fresh_connection g).
Proof. split; [|done]. cbn. induction (g_ents g); constructor; [by left|done]. Qed.
Lemma update_only_labels group uuid labels g : NoDup (en_uuid <$> g_ents g) → head labels = Some #"Entity" →
  (∀ e, e ∈ g_ents g → en_uuid e = uuid → en_group e = group ∧ kind_of e ∈ labels) → only_labels group g (update_entity_labels uuid labels g).
Proof.
  intros Hnd Hh He. split; [|done]. cbn [update_entity_labels on_ent g_ents record_mut with_ents]. apply Forall2_fmap_r, Forall_Forall2_diag, Forall_forall.
  intros e Hin. cbn. case_bool_decide as Hu; [|by left]. right. destruct (He e Hin Hu). by split_and!.
Qed.
Lemma only_labels_uuids group g g' : only_labels group g g' → en_uuid <$> g_ents g' = en_uuid <$> g_ents g.
Proof.
  intros (H & _). induction H as [|e e' l l' He _ IH]; [done|]. cbn. rewrite IH. f_equal. by destruct He as [->|(_ & -> & _)].
Qed.
(** What is true of a listed row's group and kind stays true of the row of that uuid. *)
Lemma only_labels_row group g g' e e' : NoDup (en_uuid <$> g_ents g) → only_labels group g g' → e ∈ g_ents g → e' ∈ g_ents g' → en_uuid e' = en_uuid e →
  en_group e' = en_group e ∧ kind_of e' = kind_of e.
Proof.
  intros Hnd Ho He He' Hu. pose proof (only_labels_uuids _ _ _ Ho) as Huu. destruct Ho as (H & _). apply list_elem_of_lookup in He' as [i Hi].
  destruct (Forall2_lookup_r _ _ _ _ _ H Hi) as (x & Hx & Hr).
  assert (en_uuid e' = en_uuid x) as Hux by (by destruct Hr as [->|(_ & -> & _)]).
  assert (x = e) as -> by (apply (row_same g); [done|by eapply list_elem_of_lookup_2|done|congruence]). by destruct Hr as [->|(_ & -> & _)].
Qed.
Lemma labels_with_kind_shape labels kind : head labels = Some #"Entity" → head (labels_with_kind labels kind) = Some #"Entity" ∧ kind ∈ labels_with_kind labels kind.
Proof.
  intros H. unfold labels_with_kind, enforce_entity_first. rewrite (bool_decide_eq_true_2 (head labels = _)) by done. case_bool_decide; [done|]. split; [destruct labels as [|x l]; [done|exact H]|].
  apply elem_of_app. right. by left.
Qed.
Lemma labels_for_shape anc t kind : head (labels_for anc t (Some kind)) = Some #"Entity" ∧ kind ∈ labels_for anc t (Some kind).
Proof. unfold labels_for. by apply labels_with_kind_shape. Qed.

Lemma apply_labels_only group anc updates : ∀ count g, NoDup (en_uuid <$> g_ents g) →
  (∀ u t, (u, t) ∈ updates → ∀ e, e ∈ g_ents g → en_uuid e = u → en_group e = group) → only_labels group g (apply_entity_type_labels anc updates count g).2.
Proof.
  induction updates as [|[u t] updates IH]; intros count g Hnd Hg; [apply only_labels_refl|].
  assert (∀ count, only_labels group g (apply_entity_type_labels anc updates count g).2) as Hskip by (intros; apply IH; [done|]; intros ? ? ?; eapply Hg; by right).
  cbn [apply_entity_type_labels]. destruct t as [|c t]; [apply Hskip|]. set (labels := labels_for _ _ _).
  assert (only_labels group g (update_entity_labels u labels g)) as Hu.
  { unfold labels, get_entity_kind. destruct (get_entity_by_uuid g u) as [x|] eqn:Hx.
    - apply get_entity_spec in Hx as [Hx Hxu]; [|done]. destruct (labels_for_shape anc (c :: t) (kind_of x)) as [Hh Hk]. apply update_only_labels; [done|done|].
      intros e He Heu. assert (e = x) as -> by (apply (row_same g); congruence). split; [|done]. eapply Hg; [by left|done|done].
    - split; [|done]. cbn [update_entity_labels on_ent g_ents record_mut with_ents]. apply Forall2_fmap_r, Forall_Forall2_diag, Forall_forall.
      intros e He. cbn. case_bool_decide as Heu; [|by left]. assert (get_entity_by_uuid g u = Some e) by (by apply get_entity_spec). congruence. }
  eapply only_labels_trans; [exact Hu|]. apply IH; [by rewrite (only_labels_uuids _ _ _ Hu)|]. intros u' t' Hin e He Heu.
  assert (en_uuid e ∈ en_uuid <$> g_ents g) as (x & Hxu & Hx)%list_elem_of_fmap by (rewrite <- (only_labels_uuids _ _ _ Hu); by apply list_elem_of_fmap_2).
  destruct (only_labels_row _ _ _ x e Hnd Hu Hx He Hxu) as [-> _]. eapply Hg; [by right|done|congruence].
Qed.

(** ** Labels put in order *)

Lemma expected_shape anc e labels : expected_labels anc e = Some labels → head labels = Some #"Entity" ∧ kind_of e ∈ labels.
Proof. unfold expected_labels. destruct (match declared_leaves anc (en_labels e) with [_] => _ | _ => _ end) as [|t [|]]; [done|intros [= <-]; apply labels_for_shape|done]. Qed.
Lemma restamp_only_labels group anc rows : ∀ count g, NoDup (en_uuid <$> g_ents g) →
  (∀ r, r ∈ rows → ∀ e, e ∈ g_ents g → en_uuid e = en_uuid r → en_group e = group ∧ kind_of e = kind_of r) → only_labels group g (restamp anc rows count g).2.
Proof.
  induction rows as [|r rows IH]; intros count g Hnd Hr; [apply only_labels_refl|]. cbn [restamp].
  assert (∀ count, only_labels group g (restamp anc rows count g).2) as Hskip by (intros; apply IH; [done|]; intros ??; apply Hr; by right).
  destruct (expected_labels anc r) as [labels|] eqn:Hl; [|apply Hskip]. case_bool_decide; [apply Hskip|]. apply expected_shape in Hl as [Hh Hk].
  assert (only_labels group g (update_entity_labels (en_uuid r) labels g)) as Hu.
  { apply update_only_labels; [done|done|]. intros e He Heu. destruct (Hr r (list_elem_of_here _ _) e He Heu) as [Hg Hke]. rewrite Hke. done. }
  eapply only_labels_trans; [exact Hu|]. apply IH; [by rewrite (only_labels_uuids _ _ _ Hu)|]. intros r' Hin e He Heu.
  assert (en_uuid e ∈ en_uuid <$> g_ents g) as (x & Hxu & Hx)%list_elem_of_fmap by (rewrite <- (only_labels_uuids _ _ _ Hu); by apply list_elem_of_fmap_2).
  destruct (only_labels_row _ _ _ x e Hnd Hu Hx He Hxu) as [-> ->]. apply (Hr r'); [by right|done|congruence].
Qed.

(** ** A whole run *)

Section run.
Context {U : Unicode} {LP : LinePrinter} {SR : SeqReader} {GC : GenerationCodec}.
Context (logged : str * gmut → flush_env * mutation) (display : Error → str) (summary : str → str).
Context (classify : nat → list (str * str) → option (list str) → result Error (list str)) (others : nat → graph → graph).

Lemma flush_graph oe ok identity gid s : sv_graph (flush_ungrouped logged oe ok identity gid s) = fresh_connection (sv_graph s).
Proof. unfold flush_ungrouped. by destruct (wal_flush_ungrouped _ _ _ _). Qed.
Lemma write_types_only_labels oe ok identity group gid anc (Hothers : ∀ k g, others k g = g) batches : ∀ k count s,
  NoDup (en_uuid <$> g_ents (sv_graph s)) →
  (∀ u t, (u, t) ∈ concat batches → ∀ e, e ∈ g_ents (sv_graph s) → en_uuid e = u → en_group e = group) →
  only_labels group (sv_graph s) (sv_graph (write_types logged others oe ok identity gid anc batches k count s).2).
Proof.
  induction batches as [|b batches IH]; intros k count s Hnd Hb; [apply only_labels_refl|]. cbn [write_types]. rewrite Hothers.
  destruct (apply_entity_type_labels anc b 0 _) as [n g'] eqn:Ha.
  assert (only_labels group (sv_graph s) g') as Hg.
  { eapply only_labels_trans; [apply only_labels_fresh|]. change g' with (n, g').2. rewrite <- Ha. apply apply_labels_only; [done|].
    intros u t Hin. apply (Hb u t). cbn. apply elem_of_app. by left. }
  set (s' := flush_ungrouped _ _ _ _ _ _). assert (only_labels group (sv_graph s) (sv_graph s')) as Hs.
  { unfold s'. rewrite flush_graph. eapply only_labels_trans; [exact Hg|apply only_labels_fresh]. }
  eapply only_labels_trans; [exact Hs|]. apply IH; [by rewrite (only_labels_uuids _ _ _ Hs)|]. intros u t Hin e He Heu.
  assert (en_uuid e ∈ en_uuid <$> g_ents (sv_graph s)) as (x & Hxu & Hx)%list_elem_of_fmap by (rewrite <- (only_labels_uuids _ _ _ Hs); by apply list_elem_of_fmap_2).
  destruct (only_labels_row _ _ _ x e Hnd Hs Hx He Hxu) as [-> _]. eapply Hb; [cbn; apply elem_of_app; by right|done|congruence].
Qed.
Lemma planned_listed onto anc : ∀ entities types r, r ∈ omap fst (zip_with (decide_type onto anc) entities types) → ∃ e, e ∈ entities ∧ en_uuid e = rt_uuid r.
Proof.
  induction entities as [|e entities IH]; intros [|t types] r Hr; [by apply elem_of_nil in Hr..|]. cbn [zip_with] in Hr. apply list_elem_of_omap in Hr as (d & Hd & Hr).
  apply elem_of_cons in Hd as [->|Hd].
  - exists e. split; [by left|]. unfold decide_type in Hr. destruct (negb _); [done|]. destruct (match onto with Some _ => _ | None => _ end); [done|].
    cbn in Hr. case_bool_decide; [done|]. by injection Hr as <-.
  - destruct (IH types r) as (x & Hx & Hu); [apply list_elem_of_omap; by exists d|]. exists x. split; [by right|done].
Qed.

(** A run of the re-typing pass, with nobody else writing, keeps every edge and every episode and
    every row of another group; a row of the group keeps all but its labels, and labels it is
    given begin with the generic one and name its kind.  A dry run, and one that fails, leave the
    graph as it was. *)
Theorem reprocess_changes_labels_only oe ok identity workspace onto p s :
  NoDup (en_uuid <$> g_ents (sv_graph s)) → (∀ k g, others k g = g) →
  let '(r, s') := handle_reprocess_entity_types logged display summary classify others oe ok identity workspace onto p s in
  only_labels (group_param p) (sv_graph s) (sv_graph s') ∧ match r with Ok (RDone _ _ _ _) => True | _ => s' = s end.
Proof.
  intros Hnd Ho. unfold handle_reprocess_entity_types. rewrite Ho. assert ({| sv_graph := sv_graph s; sv_wal := sv_wal s; sv_positions := sv_positions s |} = s) as -> by (by destruct s).
  pose proof (only_labels_refl (group_param p) (sv_graph s)) as Hs. destruct (negb workspace); [done|]. destruct (scope_of p) as [scope|]; [|done]. destruct (check_ontology scope onto) as [names|]; [|done].
  set (anc := match onto with Some o => ancestor_map o | None => ∅ end). destruct (list_entities_for_scope _ _ _ _) as [entities|] eqn:Hl; [|done].
  assert (∀ e, e ∈ entities → e ∈ g_ents (sv_graph s) ∧ en_group e = group_param p) as Hlist by (intros; by eapply listed_in_group).
  destruct entities as [|e0 entities]; [by destruct (default false _)|]. set (all := e0 :: entities) in *. destruct (classify_chunks _ _ _ _) as [types|]; [|done].
  set (plan := omap fst _). destruct (default false _); [done|].
  pose proof (write_types_only_labels oe ok identity (group_param p) (group_param p) anc Ho
    (chunks (length plan) REPROCESS_BATCH_SIZE ((λ r, (rt_uuid r, rt_new r)) <$> plan)) 1 0 s Hnd) as Hw.
  destruct (write_types _ _ _ _ _ _ _ _ _ _ _) as [[n k] s2]. cbn [snd] in Hw.
  assert (only_labels (group_param p) (sv_graph s) (sv_graph s2)) as H2.
  { apply Hw. rewrite chunks_concat by (rewrite ?length_fmap; unfold REPROCESS_BATCH_SIZE; lia). intros u t (r & [= -> ->] & Hr)%list_elem_of_fmap e He Heu.
    apply planned_listed in Hr as (x & Hx & Hxu). destruct (Hlist x Hx) as [Hxg <-]. f_equal. apply (row_same (sv_graph s)); [done..|congruence]. }
  destruct (existsb _ _); [|done]. rewrite Ho. set (g2 := fresh_connection (sv_graph s2)).
  assert (only_labels (group_param p) (sv_graph s) g2) as Hg2 by (eapply only_labels_trans; [exact H2|apply only_labels_fresh]).
  destruct (restamp _ _ _ _) as [m g3] eqn:Hr. split; [|done]. rewrite flush_graph. eapply only_labels_trans; [exact Hg2|]. eapply only_labels_trans; [|apply only_labels_fresh].
  change g3 with (m, g3).2. rewrite <- Hr. assert (NoDup (en_uuid <$> g_ents g2)) as Hnd2 by (by rewrite (only_labels_uuids _ _ _ Hg2)). apply restamp_only_labels; [done|].
  intros r Hin e He Heu.
  assert (r ∈ g_ents g2 ∧ en_group r = group_param p) as [Hr2 Hrg].
  { apply (listed_in_group g2 (group_param p) AllTypes None _ r eq_refl). apply elem_of_app. by right. }
  by assert (r = e) as <- by (apply (row_same g2); done).
Qed.
End run.

(** ** Tombstones *)

Definition retype_ent (u : string) (labels : list str) (kind : str) : ent :=
  {| en_uuid := lit u; en_name := lit u; en_group := #"g"; en_labels := labels; en_kind := Some kind; en_key := None; en_created := 0; en_attrs := [] |}.
Definition person_types : gmap str (list str) := <[ #"Person" := [ #"Agent"] ]> (<[ #"Agent" := [] ]> ∅).
Definition tomb_graph : graph :=
  {| g_ents := [retype_ent "old" [ #"Entity"; #"Person"; #"Merged"] #"Person"]; g_eps := []; g_rels := []; g_direct := []; g_kinds := []; g_scans := 0; g_pending := [] |}.
(** The listing of typed entities has no regard for the mark of a merged entity, and the labels an
    entity ought to have do not include it: putting labels in order brings a merged entity back to
    life, and classifying it again does too. *)
Theorem tombstone_resurrected :
  forallb is_merged (g_ents tomb_graph) = true ∧
  existsb is_merged (g_ents (restamp person_types (list_all_typed_entities tomb_graph #"g") 0 tomb_graph).2) = false ∧
  existsb is_merged (g_ents (apply_entity_type_labels person_types [(#"old", #"Agent")] 0 tomb_graph).2) = false.
Proof. vm_compute. auto. Qed.

(** ** A concrete run *)

Definition retype_graph : graph :=
  {| g_ents := [retype_ent "ann" [ #"Entity"] #"Entity"; retype_ent "bob" [ #"Entity"; #"Person"] #"Entity"];
     g_eps := []; g_rels := []; g_direct := []; g_kinds := []; g_scans := 0; g_pending := [] |}.
Definition retype_run : result Error reprocess_result * served :=
  @handle_reprocess_entity_types AsciiUnicode ToyPrinter ToyReader PlainCodec (λ _, (toy_env FlushOk, toy_mut)) (λ _, []) (λ _, []) (λ _ _ _, Ok [ #"Person"]) (λ _ g, g)
    toy_open true (#"m", 3%Z) true (Some {| mode := Open; entity_types := []; relation_types := []; ancestor_map := person_types |})
    (VObject [(#"group_id", VString #"g")]) {| sv_graph := retype_graph; sv_wal := toy_app; sv_positions := ∅ |}.
Lemma reprocess_changes_labels_only_witness :
  retype_run.1 = Ok (RDone 1 0 1 []) ∧ only_labels #"g" retype_graph (sv_graph retype_run.2) ∧
  en_labels <$> g_ents (sv_graph retype_run.2) = [[ #"Entity"; #"Agent"; #"Person"]; [ #"Entity"; #"Agent"; #"Person"]].
Proof.
  split; [vm_compute; reflexivity|]. split; [|vm_compute; reflexivity].
  pose proof (@reprocess_changes_labels_only AsciiUnicode ToyPrinter ToyReader PlainCodec (λ _, (toy_env FlushOk, toy_mut)) (λ _, []) (λ _, []) (λ _ _ _, Ok [ #"Person"]) (λ _ g, g)
    toy_open true (#"m", 3%Z) true (Some {| mode := Open; entity_types := []; relation_types := []; ancestor_map := person_types |})
    (VObject [(#"group_id", VString #"g")]) {| sv_graph := retype_graph; sv_wal := toy_app; sv_positions := ∅ |}) as H.
  fold retype_run in H. destruct retype_run as [r s']. apply H; [apply (bool_decide_unpack _); vm_compute; exact I|done].
Defined.
