(* ===== verification/PageReads.v ===== *)
(** * PageReads: listing entities and episodes page by page (core/src/read_page.rs, with the
    queries of core/src/db.rs and the handlers of core/src/handlers.rs)

    Rows are the columns a query returns.  Queries are taken to succeed; the engine's [lower], the
    text of an episode's time and the digest of a query's shape are parameters.  A time's text is
    taken to be read back by the engine as the time it was printed from. *)

From S2P Require Import Prelude Text Numbers Json Replay Ontology Pointer Graph Assert EmbeddingCache.

(** ** Parameters *)

(** First-seen order.  *)
Fixpoint distinct_go (seen l : list str) : list str :=
  match l with
  | [] => []
  | s :: l => if bool_decide (s ∈ seen) then distinct_go seen l else s :: distinct_go (s :: seen) l
  end.
Definition distinct_of (l : list str) : list str := distinct_go [] l.
(** Source: core/src/handlers.rs 5913-5929 (extract_optional_group_ids) *)
Definition extract_optional_group_ids (v : value) : option (list str) :=
  match v with
  | VArray arr => match omap as_str arr with [] => None | gids => Some gids end
  | VString s => Some [s]
  | _ => None
  end.
(** Source: core/src/handlers.rs 5942-5952 (extract_optional_group_ids_preserve_empty) *)
Definition extract_optional_group_ids_preserve_empty (v : value) : option (list str) :=
  match v with VArray arr => Some (omap as_str arr) | VString s => Some [s] | _ => None end.
(** Source: core/src/handlers.rs 5961-5968 (extract_required_group_id) *)
Definition extract_required_group_id (v : value) : result Error str :=
  match as_str v with
  | Some s => if nonempty s then Ok s else Err (Ipc (Msg "group_id is required and must be a non-empty string" []))
  | None => Err (Ipc (Msg "group_id is required and must be a non-empty string" []))
  end.
(** Source: core/src/handlers.rs 5978-6002 (extract_required_group_ids) *)
Definition extract_required_group_ids (v : value) : result Error (list str) :=
  let refused := Err (Ipc (Msg "group_ids is required and must be a non-empty array of non-empty strings" [])) in
  match as_array v with
  | None | Some [] => refused
  | Some arr => if forallb (λ v, match as_str v with Some s => nonempty s | None => false end) arr then Ok (distinct_of (default [] ∘ as_str <$> arr)) else refused
  end.
(** Source: core/src/handlers.rs 1376-1388 (episode_group_scope) *)
Definition episode_group_scope (p : value) : option (list str) :=
  let out := default [] (extract_optional_group_ids (param "group_ids" p)) ++ match as_str (param "group_id" p) with Some g => if nonempty g then [g] else [] | None => [] end in
  match distinct_of out with [] => None | out => Some out end.
(** Source: core/src/handlers.rs 1166-1171 (optional_kind_param) *)
Definition optional_kind_param (v : value) : result Error (option str) :=
  if is_null v then Ok None else rmap Some (normalize_kind (Some (default [] (as_str v)))).
(** [Value::as_i64] *)
Definition num_i64 (v : value) : option Z :=
  match v with
  | VNumber (PosInt n) => if (n <? 2 ^ 63)%N then Some (Z.of_N n) else None
  | VNumber (NegInt z) => Some z
  | _ => None
  end.
Definition i64_num (z : Z) : number := if (0 <=? z)%Z then PosInt (Z.to_N z) else NegInt z.
Definition i64_max : N := 2 ^ 63 - 1.

(** ** Options, projections and cursors *)

(** Source: core/src/read_page.rs 18-30 (EPISODE_FIELDS) *)
Definition EPISODE_FIELDS : list str :=
  [ #"uuid"; #"name"; #"group_id"; #"created_at"; #"ingested_at"; #"source"; #"source_description"; #"content"; #"valid_at"; #"entity_edges"; #"attributes"].
(** Source: core/src/read_page.rs 33-45 (ENTITY_FIELDS) *)
Definition ENTITY_FIELDS : list str :=
  [ #"uuid"; #"name"; #"group_id"; #"labels"; #"kind"; #"created_at"; #"ingested_at"; #"summary"; #"attributes"; #"episode_uuids"; #"source_descriptions"].
Definition EPISODES_TAG : str := #"episodes".
Definition ENTITIES_TAG : str := #"entities".
Definition CURSOR_VERSION : N := 1.
(** Source: core/src/read_page.rs 53-64 (ReadOpts) *)
Record ReadOpts := { ro_cursor : option str; ro_fields : option (list str); ro_name_prefix : option str; ro_paged : bool }.
(** Source: core/src/read_page.rs 66-68 (has_key) *)
Definition has_key (p : value) (key : string) : bool := bool_decide (is_Some (as_object p ≫= obj_get (lit key))).
Definition opt_text (v : value) (e : Error) : result Error (option str) :=
  match v with VNull => Ok None | VString s => Ok (if nonempty s then Some s else None) | _ => Err e end.
Fixpoint read_fields (allowed : list str) (arr : list value) (out : list str) : result Error (list str) :=
  match arr with
  | [] => Ok out
  | f :: arr =>
      match as_str f with
      | None => Err (Ipc (Msg "fields must be an array of strings" []))
      | Some name =>
          if negb (bool_decide (name ∈ allowed)) then Err (Ipc (Msg "unknown field '{name}' (allowed: {})" [AStr name; AStr (join #", " allowed)]))
          else read_fields allowed arr (if bool_decide (name ∈ out) then out else out ++ [name])
      end
  end.
(** Source: core/src/read_page.rs 72-121 (parse_read_opts) *)
Definition parse_read_opts (p : value) (allowed : list str) : result Error ReadOpts :=
  let paged := has_key p "cursor" || has_key p "fields" || has_key p "name_prefix" in
  let? cursor := opt_text (param "cursor" p) (Ipc (Msg "cursor must be a string" [])) in
  let? name_prefix := opt_text (param "name_prefix" p) (Ipc (Msg "name_prefix must be a string" [])) in
  let? fields := match param "fields" p with
                 | VNull => Ok None
                 | VArray [] => Err (Ipc (Msg "fields must not be empty" []))
                 | VArray arr => rmap Some (read_fields allowed arr [])
                 | _ => Err (Ipc (Msg "fields must be an array of strings" []))
                 end in
  Ok {| ro_cursor := cursor; ro_fields := fields; ro_name_prefix := name_prefix; ro_paged := paged |}.
(** Source: core/src/read_page.rs 124-132 (project) *)
Definition project (item : value) (fields : list str) : value :=
  VObject (foldl (λ m f, match get f item with Some v => obj_insert f v m | None => m end) [] fields).
(** Consecutive duplicates of a sorted list. *)
Fixpoint dedup (l : list str) : list str :=
  match l with
  | a :: l => match l with b :: _ => if bool_decide (a = b) then dedup l else a :: dedup l | [] => [a] end
  | [] => []
  end.
Definition opt_value {A} (f : A → value) (x : option A) : value := match x with Some a => f a | None => VNull end.

Section cursor.
Context {AC : AttrCodec} {D : Digest}.
(** Source: core/src/read_page.rs 137-151 (shape_hash) *)
Definition shape_hash (tag : str) (groups : option (list str)) (kind name_prefix : option str) : str :=
  let groups := (λ g, dedup (sort_by str_leb g)) <$> groups in
  let canonical := json_print (VArray [VString tag; opt_value (λ g, VArray (VString <$> g)) groups; opt_value VString kind; opt_value VString name_prefix]) in
  to_hex (sha256 (utf8 canonical)).
(** Source: core/src/read_page.rs 153-156 (encode_cursor) *)
Definition encode_cursor (tag shape : str) (pos : value) : str :=
  to_hex (utf8 (json_print (VObject [(#"v", VNumber (PosInt CURSOR_VERSION)); (#"t", VString tag); (#"shape", VString shape); (#"pos", pos)]))).
Fixpoint hex_pairs (s : str) : option bytes :=
  match s with
  | [] => Some []
  | a :: b :: s => match parse_uint 16 255 [a; b] with Some x => cons x <$> hex_pairs s | None => None end
  | [_] => None
  end.
(** Source: core/src/read_page.rs 175-183 (hex_decode) *)
Definition hex_decode (s : str) : option bytes := if forallb is_ascii s && Nat.even (length s) then hex_pairs s else None.
Definition bad (why : string) : Error := Ipc (Msg "invalid cursor: {why}" [AStr (lit why)]).
(** Source: core/src/read_page.rs 159-173 (decode_cursor) *)
Definition decode_cursor (cursor tag shape : str) : result Error value :=
  match hex_decode cursor with
  | None => Err (bad "malformed")
  | Some bytes =>
      match from_utf8 bytes ≫= json_parse with
      | None => Err (bad "malformed")
      | Some payload =>
          if negb (bool_decide (as_u64 (param "v" payload) = Some CURSOR_VERSION)) then Err (bad "unsupported version")
          else if negb (bool_decide (as_str (param "t" payload) = Some tag)) || negb (bool_decide (as_str (param "shape" payload) = Some shape))
          then Err (bad "cursor does not belong to this query")
          else match get #"pos" payload with Some (VObject m) => Ok (VObject m) | _ => Err (bad "malformed") end
      end
  end.
End cursor.

(** ** Rows and queries *)

(** Source: core/src/types.rs 67-94 (EntityRow) *)
Record listed := {
  li_uuid : str; li_name : str; li_group : str; li_labels : list str; li_kind : option str; li_created : str; li_ingested : str; li_summary : str; li_attrs : str }.
(** Source: core/src/types.rs 140-168 (EpisodicRow) *)
Record listed_episode := {
  le_uuid : str; le_name : str; le_group : str; le_created : Z; le_ingested : str; le_source : str; le_description : str; le_content : str; le_valid : str;
  le_edges : list str; le_attrs : str }.
(** What is read: the two tables, and which episode mentions which entity. *)
Record read_db := { rd_entities : list listed; rd_episodes : list listed_episode; rd_mentions : list (str * str) }.

Definition in_groups (group_ids : option (list str)) (group : str) : bool :=
  match group_ids with None | Some [] => true | Some gids => bool_decide (group ∈ gids) end.
Definition opt_test {A} (f : A → bool) (x : option A) : bool := match x with Some a => f a | None => true end.
Definition uuid_desc {R} (uuid : R → str) (a b : R) : bool := str_leb (uuid b) (uuid a).

Section queries.
Context (db_lower : str → str).
Definition wanted_entity (group_ids : option (list str)) (kind name_prefix : option str) (e : listed) : bool :=
  in_groups group_ids (li_group e)
  && opt_test (λ k, match li_kind e with Some k' => bool_decide (k' = k) | None => bool_decide (k = DEFAULT_KIND) end) kind
  && opt_test (λ p, starts_with (db_lower p) (db_lower (li_name e))) name_prefix.
Definition below_uuid (e : listed) (u : str) : bool := str_leb (li_uuid e) u && negb (bool_decide (li_uuid e = u)).
(** Source: core/src/db.rs 1914-1978 (list_entities_page) *)
Definition list_entities_page (rows : list listed) (group_ids : option (list str)) (limit : N) (kind name_prefix after_uuid : option str) : list listed :=
  take (N.to_nat (N.min limit i64_max))
    (sort_by (uuid_desc li_uuid) (List.filter (λ e, wanted_entity group_ids kind name_prefix e && opt_test (below_uuid e) after_uuid) rows)).
Definition wanted_episode (groups : option (list str)) (name_prefix : option str) (e : listed_episode) : bool :=
  in_groups groups (le_group e) && opt_test (λ p, starts_with p (le_name e)) name_prefix.
Definition below_time (e : listed_episode) (pos : Z * str) : bool :=
  (le_created e <? pos.1)%Z || ((le_created e =? pos.1)%Z && str_leb (le_uuid e) pos.2 && negb (bool_decide (le_uuid e = pos.2))).
Definition time_desc (a b : listed_episode) : bool := (le_created b <? le_created a)%Z || ((le_created a =? le_created b)%Z && str_leb (le_uuid b) (le_uuid a)).
(** The years the time library knows, in microseconds. *)
Definition us_in_range (us : Z) : bool := ((-377705116800 * 10 ^ 6 <=? us) && (us <? 253402300800 * 10 ^ 6))%Z.
(** Source: core/src/db.rs 1220-1284 (retrieve_episodes_page) *)
Definition retrieve_episodes_page (rows : list listed_episode) (groups : option (list str)) (limit : N) (name_prefix : option str) (after : option (Z * str)) : result Error (list listed_episode) :=
  if opt_test (us_in_range ∘ fst) after then
    Ok (take (N.to_nat (N.min limit i64_max))
         (sort_by time_desc (List.filter (λ e, wanted_episode groups name_prefix e && opt_test (below_time e) after) rows)))
  else Err (Ipc (Msg "invalid cursor: {e}" [])).
(** The episodes that mention each entity, in the order of the table; the engine's order is its own.
    Source: core/src/db.rs 3016-3050 (get_episode_info_for_entities) *)
Definition get_episode_info_for_entities (d : read_db) (entity_uuids : list str) (group_ids : option (list str)) : gmap str (list str * list str) :=
  foldl (λ m '(episode, entity),
      match find_first (λ e, if bool_decide (le_uuid e = episode) then Some e else None) (rd_episodes d) with
      | Some e =>
          if bool_decide (entity ∈ entity_uuids) && in_groups group_ids (le_group e) then
            let '(us, ds) := default ([], []) (m !! entity) in
            if bool_decide (episode ∈ us) then m else <[entity := (us ++ [episode], ds ++ [le_description e])]> m
          else m
      | None => m
      end) ∅ (rd_mentions d).
Fixpoint enrich (info : gmap str (list str * list str)) (nodes : list listed) : list (listed * (list str * list str)) :=
  match nodes with
  | [] => []
  | n :: nodes => (n, default ([], []) (info !! li_uuid n)) :: enrich (base.delete (li_uuid n) info) nodes
  end.
End queries.

(** ** The handlers *)

Definition texts (l : list str) : value := VArray (VString <$> l).
Definition entity_json (x : listed * (list str * list str)) : value :=
  let '(e, (episodes, descriptions)) := x in
  VObject [(#"uuid", VString (li_uuid e)); (#"name", VString (li_name e)); (#"group_id", VString (li_group e)); (#"labels", texts (li_labels e));
           (#"kind", VString (value_as_kind (li_kind e))); (#"created_at", VString (li_created e)); (#"ingested_at", VString (li_ingested e));
           (#"summary", VString (li_summary e)); (#"attributes", VString (li_attrs e)); (#"episode_uuids", texts episodes); (#"source_descriptions", texts descriptions)].
Definition shaped (fields : option (list str)) (item : value) : value := match fields with Some fs => project item fs | None => item end.
Definition page_response (key : str) (items : list value) (paged : bool) (next_cursor : option str) : value :=
  VObject ([(key, VArray items); (#"count", VNumber (PosInt (N.of_nat (length items))))] ++ if paged then [(#"next_cursor", opt_value VString next_cursor)] else []).

Section handlers.
Context {U : Unicode} {AC : AttrCodec} {D : Digest} (db_lower : str → str) (us_text : Z → str).

(** A request for entities, once read. *)
Record entity_query := { eq_limit : N; eq_groups : option (list str); eq_kind : option str; eq_opts : ReadOpts }.
(** Source: core/src/handlers.rs 1597-1609 (handle_list_entities) *)
Definition entity_query_of (p : value) : result Error entity_query :=
  let num_results := default 500%Z (num_i64 (param "num_results" p)) in
  if (num_results <=? 0)%Z then Err (Ipc (Msg "num_results must be > 0" []))
  else
    let? kind := optional_kind_param (param "kind" p) in
    let? opts := parse_read_opts p ENTITY_FIELDS in
    Ok {| eq_limit := Z.to_N num_results; eq_groups := extract_optional_group_ids (param "group_ids" p); eq_kind := kind; eq_opts := opts |}.
(** Source: core/src/handlers.rs 1610-1618 (handle_list_entities) *)
Definition entity_shape (q : entity_query) : str := shape_hash ENTITIES_TAG (eq_groups q) (eq_kind q) (to_lowercase <$> ro_name_prefix (eq_opts q)).
(** Source: core/src/handlers.rs 1619-1628 (handle_list_entities) *)
Definition entity_position (q : entity_query) : result Error (option str) :=
  match ro_cursor (eq_opts q) with
  | None => Ok None
  | Some c =>
      let? pos := decode_cursor c ENTITIES_TAG (entity_shape q) in
      match as_str (param "uuid" pos) with Some u => Ok (Some u) | None => Err (Ipc (Msg "invalid cursor: malformed" [])) end
  end.
(** Source: core/src/handlers.rs 1630-1633 (handle_list_entities) *)
Definition needs_enrichment (q : entity_query) : bool :=
  match ro_fields (eq_opts q) with None => true | Some f => existsb (λ n, bool_decide (n = #"episode_uuids") || bool_decide (n = #"source_descriptions")) f end.
(** Source: core/src/handlers.rs 1635-1696 (handle_list_entities) *)
Definition entity_page (q : entity_query) (after_uuid : option str) (d : read_db) : value :=
  let rows := list_entities_page db_lower (rd_entities d) (eq_groups q) (eq_limit q + 1) (eq_kind q) (ro_name_prefix (eq_opts q)) after_uuid in
  let has_more := (N.to_nat (eq_limit q) <? length rows)%nat in
  let nodes := take (N.to_nat (eq_limit q)) rows in
  let info := if needs_enrichment q then get_episode_info_for_entities d (li_uuid <$> nodes) (eq_groups q) else ∅ in
  let next_cursor := if has_more then (λ n, encode_cursor ENTITIES_TAG (entity_shape q) (VObject [(#"uuid", VString (li_uuid n))])) <$> last nodes else None in
  page_response #"nodes" (shaped (ro_fields (eq_opts q)) ∘ entity_json <$> enrich info nodes) (ro_paged (eq_opts q)) next_cursor.
(** The tables are read once the request is known to make sense.
    Source: core/src/handlers.rs 1597-1696 (handle_list_entities) *)
Definition handle_list_entities (p : value) (d : read_db) : result Error value :=
  let? q := entity_query_of p in
  let? after_uuid := entity_position q in
  Ok (entity_page q after_uuid d).

(** A request for episodes, once read. *)
Record episode_query := { pq_last : N; pq_groups : option (list str); pq_opts : ReadOpts }.
(** Source: core/src/handlers.rs 1298-1302 (handle_get_episodes) *)
Definition episode_query_of (p : value) : result Error episode_query :=
  let? opts := parse_read_opts p EPISODE_FIELDS in
  Ok {| pq_last := default 50%N (as_u64 (param "last_n" p)); pq_groups := episode_group_scope p; pq_opts := opts |}.
(** Source: core/src/handlers.rs 1303-1308 (handle_get_episodes) *)
Definition episode_shape (q : episode_query) : str := shape_hash EPISODES_TAG (pq_groups q) None (ro_name_prefix (pq_opts q)).
(** Source: core/src/handlers.rs 1309-1318 (handle_get_episodes) *)
Definition episode_position (q : episode_query) : result Error (option (Z * str)) :=
  match ro_cursor (pq_opts q) with
  | None => Ok None
  | Some c =>
      let? pos := decode_cursor c EPISODES_TAG (episode_shape q) in
      match num_i64 (param "created_at_us" pos), as_str (param "uuid" pos) with
      | Some us, Some uuid => Ok (Some (us, uuid))
      | _, _ => Err (Ipc (Msg "invalid cursor: malformed" []))
      end
  end.
Definition episode_json (e : listed_episode) : value :=
  VObject [(#"uuid", VString (le_uuid e)); (#"name", VString (le_name e)); (#"group_id", VString (le_group e)); (#"created_at", VString (us_text (le_created e)));
           (#"source", VString (le_source e)); (#"source_description", VString (le_description e)); (#"content", VString (le_content e)); (#"valid_at", VString (le_valid e));
           (#"ingested_at", VString (le_ingested e)); (#"entity_edges", texts (le_edges e)); (#"attributes", VString (le_attrs e))].
(** Source: core/src/handlers.rs 1320-1370 (handle_get_episodes) *)
Definition episode_page (q : episode_query) (after : option (Z * str)) (d : read_db) : result Error value :=
  let? rows := retrieve_episodes_page (rd_episodes d) (pq_groups q) (sat_add64 (pq_last q) 1) (ro_name_prefix (pq_opts q)) after in
  let n := N.to_nat (pq_last q) in
  let next_cursor := if (n <? length rows)%nat
                     then (λ e, encode_cursor EPISODES_TAG (episode_shape q) (VObject [(#"created_at_us", VNumber (i64_num (le_created e))); (#"uuid", VString (le_uuid e))]))
                            <$> last (take n rows)
                     else None in
  Ok (page_response #"episodes" (shaped (ro_fields (pq_opts q)) ∘ episode_json <$> take n rows) (ro_paged (pq_opts q)) next_cursor).
(** Source: core/src/handlers.rs 1294-1370 (handle_get_episodes) *)
Definition handle_get_episodes (p : value) (d : read_db) : result Error value :=
  let? q := episode_query_of p in
  let? after := episode_position q in
  episode_page q after d.
End handlers.
