(* ===== verification/PageReadsTheory.v ===== *)
(** * PageReadsTheory: what following cursors through a listing gives

    A client that follows the cursors it is given sees no row twice and, whatever is written
    between its requests, every row that was there throughout; a cursor is accepted by the query
    it was given to and by no other. *)

From S2P Require Import Prelude Text Numbers Json Replay Ontology Pointer CrossGroupTheory Graph Assert EmbeddingCache WalStripTheory PageReads.

Lemma sorted_take {A} (P : A → A → Prop) n l : StronglySorted P l → StronglySorted P (take n l).
Proof. rewrite <- (take_drop n l) at 1. apply StronglySorted_app_1_l. Qed.
Lemma sorted_last {A} (P : A → A → Prop) l r x : StronglySorted P l → last l = Some r → x ∈ l → x = r ∨ P x r.
Proof.
  intros Hs [k ->]%last_Some [Hx|Hx%list_elem_of_singleton]%elem_of_app; [right|by left]. eapply StronglySorted_app_1_elem_of; [exact Hs|done|by apply list_elem_of_singleton].
Qed.

Lemma keys_filter {A B} (f : A → B) (P : A → bool) l : NoDup (f <$> l) → NoDup (f <$> List.filter P l).
Proof.
  induction l as [|r l IH]; [done|]. rewrite fmap_cons. intros [Hr Hn]%NoDup_cons. cbn [List.filter]. destruct (P r); [|by apply IH]. rewrite fmap_cons.
  apply NoDup_cons. split; [|by apply IH]. intros (x & Hx & Hin%list_elem_of_In%filter_In)%list_elem_of_fmap. apply Hr. rewrite Hx. apply list_elem_of_fmap_2, list_elem_of_In, Hin.
Qed.
Lemma nodup_take {A} n (l : list A) : NoDup l → NoDup (take n l).
Proof. rewrite <- (take_drop n l) at 1. by intros [H _]%NoDup_app. Qed.

(** ** Following a key through changing tables *)

Section keyset.
Context {R K DB : Type} (key : R → K) (kle : K → K → bool) (past : R → K → bool) (rows : DB → list R) (want : R → bool).
Context (kle_total : ∀ a b, kle a b = false → kle b a = true) (kle_trans : ∀ a b c, kle a b = true → kle b c = true → kle a c = true).
Context (kle_anti : ∀ a b, kle a b = true → kle b a = true → a = b) (past_spec : ∀ r k, past r k = true ↔ kle k (key r) = true ∧ key r ≠ k).

Definition by_key (a b : R) : bool := kle (key a) (key b).
Definition after_rows (after : option K) (d : DB) : list R := sort_by by_key (List.filter (λ r, want r && opt_test (past r) after) (rows d)).
(** Asking one row more than a page tells whether there is another page. *)
Fixpoint walk (n : nat) (dbs : list DB) (after : option K) : list (DB * R) * bool :=
  match dbs with
  | [] => ([], false)
  | d :: dbs =>
      let found := take (S n) (after_rows after d) in
      let out := take n found in
      match (if (n <? length found)%nat then last out else None) with
      | Some r => let '(more, done) := walk n dbs (Some (key r)) in ((pair d <$> out) ++ more, done)
      | None => (pair d <$> out, true)
      end
  end.
Definition beyond (after : option K) (r : R) : Prop := match after with Some k => past r k = true | None => True end.
Definition down (a b : R) : Prop := past b (key a) = true.

Lemma kle_refl k : kle k k = true.
Proof. destruct (kle k k) eqn:H; [done|]. by rewrite (kle_total _ _ H) in H. Qed.
Lemma past_trans a b c : down a b → down b c → down a c.
Proof.
  unfold down. rewrite !past_spec. intros [H1 H2] [H3 H4]. split; [by eapply kle_trans|]. intros He. apply H2. apply kle_anti; [by rewrite <- He|done].
Qed.
Lemma after_rows_elem after d r : r ∈ after_rows after d ↔ r ∈ rows d ∧ want r = true ∧ beyond after r.
Proof.
  unfold after_rows. rewrite sort_by_elem, list_elem_of_In, filter_In, <- list_elem_of_In, andb_true_iff. destruct after; cbn; tauto.
Qed.
Lemma after_rows_sorted after d : NoDup (key <$> rows d) → StronglySorted down (after_rows after d).
Proof.
  intros Hn. assert (NoDup (key <$> after_rows after d)) as Hk.
  { unfold after_rows. rewrite (sort_by_perm _ _). by apply keys_filter. }
  assert (StronglySorted (λ a b, by_key a b = true) (after_rows after d)) as Hs by (apply sort_by_sorted; unfold by_key; [intros ??; apply kle_total|intros ???; apply kle_trans]).
  revert Hk. induction Hs as [|r l _ IH Hall]; intros Hk; [constructor|]. rewrite fmap_cons in Hk. apply NoDup_cons in Hk as [Hr Hk]. constructor; [by apply IH|].
  rewrite Forall_forall in *. intros x Hx. apply past_spec. split; [by apply Hall|]. intros He. apply Hr. rewrite <- He. by apply list_elem_of_fmap_2.
Qed.
Lemma sorted_nodup l : StronglySorted down l → NoDup l.
Proof. induction 1 as [|x l _ IH Hall]; constructor; [|done]. intros Hx. rewrite Forall_forall in Hall. apply Hall in Hx. by apply past_spec in Hx as [_ []]. Qed.
(** Every row of a walk was wanted where it was found; keys go strictly down. *)
Lemma walk_sound n dbs : ∀ after, Forall (λ x, x.1 ∈ dbs ∧ x.2 ∈ rows x.1 ∧ want x.2 = true ∧ beyond after x.2) (walk n dbs after).1.
Proof.
  induction dbs as [|d dbs IH]; intros after; [constructor|]. cbn [walk].
  assert (Forall (λ x, x.1 ∈ d :: dbs ∧ x.2 ∈ rows x.1 ∧ want x.2 = true ∧ beyond after x.2) (pair d <$> take n (take (S n) (after_rows after d)))) as Hd.
  { apply Forall_forall. intros x (r & -> & Hr)%list_elem_of_fmap. apply subseteq_take, subseteq_take, after_rows_elem in Hr. cbn. split; [by left|done]. }
  destruct (if (n <? _)%nat then _ else _) as [r|] eqn:Hl; [|done]. specialize (IH (Some (key r))). destruct (walk n dbs (Some (key r))) as [more fin]. cbn [fst snd beyond] in *.
  apply Forall_app. split; [done|]. assert (beyond after r) as Hr.
  { destruct (n <? _)%nat; [|done]. apply last_Some_elem_of, subseteq_take, subseteq_take, after_rows_elem in Hl. tauto. }
  eapply Forall_impl; [exact IH|]. intros [d' x] (H1 & H2 & H3 & H4). cbn in *. split_and!; try done; [by right|].
  destruct after as [k|]; [|done]. cbn in *. rewrite past_spec in *. split; [by eapply kle_trans; [apply Hr|apply H4]|]. intros He. apply (proj2 Hr). apply kle_anti; [rewrite <- He; apply H4|apply Hr].
Qed.
Lemma walk_down n dbs : Forall (λ d, NoDup (key <$> rows d)) dbs → ∀ after, StronglySorted down (walk n dbs after).1.*2.
Proof.
  induction 1 as [|d dbs Hd _ IH]; intros after; [constructor|]. cbn [walk]. pose proof (after_rows_sorted after d Hd) as Hs.
  assert (StronglySorted down (take n (take (S n) (after_rows after d)))) as Ht by (by apply sorted_take, sorted_take).
  assert (∀ l : list R, (pair d <$> l).*2 = l) as Hp by (intros l; rewrite <- list_fmap_compose; apply list_fmap_id).
  destruct (if (n <? _)%nat then _ else _) as [r|] eqn:Hl; [|cbn [fst]; by rewrite Hp].
  specialize (IH (Some (key r))). pose proof (walk_sound n dbs (Some (key r))) as Hb. destruct (walk n dbs (Some (key r))) as [more fin]. cbn [fst snd beyond] in *. rewrite fmap_app, Hp.
  apply StronglySorted_app_2; [|done|done]. intros a b Ha (x & -> & Hx)%list_elem_of_fmap. rewrite Forall_forall in Hb. destruct (Hb x Hx) as (_ & _ & _ & Hrb).
  destruct (n <? _)%nat; [|done]. destruct (sorted_last down _ r a Ht Hl Ha) as [->|Har]; [done|]. by eapply past_trans.
Qed.
(** Asking for one row more than a page: the page is all there is, or the rest is beyond its last row. *)
Lemma page_rest n after d : NoDup (key <$> rows d) →
  let found := take (S n) (after_rows after d) in
  match (if (n <? length found)%nat then last (take n found) else None) with
  | Some r => ∀ x, x ∈ after_rows after d → x ∈ take n found ∨ past x (key r) = true
  | None => n = 0%nat ∨ take n found = after_rows after d
  end.
Proof.
  intros Hd. cbv zeta. set (l := after_rows after d). pose proof (after_rows_sorted after d Hd) as Hs. fold l in Hs. rewrite length_take, take_take.
  destruct (n <? _)%nat eqn:Hlt.
  - apply Nat.ltb_lt in Hlt. rewrite (Nat.min_l n (S n)) by lia. destruct (last (take n l)) as [r|] eqn:Hl.
    + intros x Hx. rewrite <- (take_drop n l) in Hx, Hs. apply elem_of_app in Hx as [Hx|Hx]; [by left|right]. change (down r x). eapply StronglySorted_app_1_elem_of; [exact Hs|by apply last_Some_elem_of|done].
    + left. apply last_None in Hl. apply (f_equal length) in Hl. rewrite length_take in Hl. cbn in Hl. lia.
  - right. apply Nat.ltb_ge in Hlt. apply take_ge. lia.
Qed.
Lemma walk_complete n dbs : (0 < n)%nat → Forall (λ d, NoDup (key <$> rows d)) dbs → ∀ after, (walk n dbs after).2 = true →
  ∀ r, (∀ d, d ∈ dbs → r ∈ rows d) → want r = true → beyond after r → r ∈ (walk n dbs after).1.*2.
Proof.
  intros Hn. induction 1 as [|d dbs Hd _ IH]; intros after Hfin r Hin Hw Hb; [done|]. revert Hfin. cbn [walk]. pose proof (page_rest n after d Hd) as Hrest. cbv zeta in Hrest.
  assert (r ∈ after_rows after d) as Hr by (apply after_rows_elem; split_and!; [apply Hin; by left|done|done]).
  assert (∀ l : list R, (pair d <$> l).*2 = l) as Hp by (intros l; rewrite <- list_fmap_compose; apply list_fmap_id).
  destruct (if (n <? _)%nat then _ else _) as [r'|]; [|cbn [fst snd]; rewrite Hp; intros _; destruct Hrest as [H0|H0]; [lia|by rewrite H0]].
  specialize (IH (Some (key r'))). destruct (walk n dbs (Some (key r'))) as [more fin]. cbn [fst snd] in *. intros Hfin. rewrite fmap_app, Hp. apply elem_of_app.
  destruct (Hrest r Hr) as [Hx|Hx]; [by left|right]. apply IH; [done| |done|done]. intros d' Hd'. apply Hin. by right.
Qed.
Lemma walk_ends n d : (0 < n)%nat → NoDup (key <$> rows d) → ∀ k after, (length (after_rows after d) < k)%nat → (walk n (replicate k d) after).2 = true.
Proof.
  intros Hn Hd. induction k as [|k IH]; intros after Hk; [lia|]. cbn [replicate walk]. pose proof (page_rest n after d Hd) as Hrest. cbv zeta in Hrest.
  destruct (if (n <? _)%nat then _ else _) as [r|] eqn:Hl; [|done]. specialize (IH (Some (key r))). destruct (walk n (replicate k d) (Some (key r))) as [more fin]. cbn [snd] in *. apply IH.
  destruct (n <? _)%nat; [|done]. apply last_Some_elem_of, subseteq_take, subseteq_take in Hl as Hr. pose proof (proj1 (after_rows_elem _ _ _) Hr) as (_ & _ & Hbr).
  assert (after_rows (Some (key r)) d ⊆ after_rows after d ∧ r ∉ after_rows (Some (key r)) d) as [Hsub Hnot].
  { split.
    - intros x (H1 & H2 & H3)%after_rows_elem. apply after_rows_elem. split_and!; try done. destruct after as [a|]; [|done]. cbn in *. rewrite past_spec in *.
      split; [by eapply kle_trans; [apply Hbr|apply H3]|]. intros He. apply (proj2 Hbr). apply kle_anti; [rewrite <- He; apply H3|apply Hbr].
    - intros (_ & _ & H)%after_rows_elem. cbn in H. by apply past_spec in H as [_ []]. }
  assert (NoDup (after_rows (Some (key r)) d)) as Hnd.
  { eapply sorted_nodup, after_rows_sorted, Hd. }
  enough (length (r :: after_rows (Some (key r)) d) ≤ length (after_rows after d))%nat by (cbn in *; lia). apply submseteq_length, NoDup_submseteq; [by constructor|].
  intros x [->|Hx]%elem_of_cons; [done|by apply Hsub].
Qed.

(** A walk through tables [dbs], read one per page: every row it gives was wanted where it was
    found, no key comes twice, a row that was wanted in every table is given, and a table that does
    not change is given whole, in order. *)
Definition walked (dbs : list DB) (out : list (DB * R)) (fin : bool) : Prop :=
  Forall (λ x, x.1 ∈ dbs ∧ x.2 ∈ rows x.1 ∧ want x.2 = true) out ∧ StronglySorted down out.*2 ∧
  (fin = true → ∀ r, (∀ d, d ∈ dbs → r ∈ rows d) → want r = true → r ∈ out.*2) ∧
  (∀ d, (∀ d', d' ∈ dbs → d' = d) → (length (rows d) < length dbs)%nat → fin = true ∧ out.*2 = sort_by by_key (List.filter want (rows d))).
Lemma walk_walked n dbs : (0 < n)%nat → Forall (λ d, NoDup (key <$> rows d)) dbs → walked dbs (walk n dbs None).1 (walk n dbs None).2.
Proof.
  intros Hn Hd. pose proof (walk_sound n dbs None) as Hs. pose proof (walk_down n dbs Hd None) as Hdown. split_and!; [|done| |].
  - eapply Forall_impl; [exact Hs|]. cbn. tauto.
  - intros Hf r Hr Hw. by apply walk_complete.
  - intros d Hall Hlen. assert (dbs = replicate (length dbs) d) as Hrep.
    { clear -Hall. induction dbs as [|d' dbs IH]; [done|]. cbn. f_equal; [apply Hall; by left|]. apply IH. intros x Hx. apply Hall. by right. }
    assert (d ∈ dbs) as Hin by (destruct dbs as [|d' dbs]; [cbn in Hlen; lia|rewrite (Hall d') by (by left); by left]).
    assert (NoDup (key <$> rows d)) as Hnd by (rewrite Forall_forall in Hd; by apply Hd).
    assert (sort_by by_key (List.filter want (rows d)) = after_rows None d) as ->.
    { unfold after_rows. f_equal. apply filter_ext. intros r. cbn. by rewrite andb_true_r. }
    assert ((walk n dbs None).2 = true) as Hf.
    { rewrite Hrep. apply walk_ends; [done..|]. eapply Nat.le_lt_trans; [|exact Hlen]. unfold after_rows. rewrite (Permutation_length (sort_by_perm _ _)). apply List.filter_length_le. }
    split; [done|]. pose proof (after_rows_sorted None d Hnd) as Ha. apply (sorted_perm_unique down).
    + intros x y Hx Hy. pose proof (past_trans _ _ _ Hx Hy) as H. unfold down in H. by apply past_spec in H as [_ []].
    + done.
    + done.
    + apply NoDup_Permutation; [| |].
      1, 2: by eapply sorted_nodup.
      intros r. rewrite after_rows_elem. split.
      * intros (x & -> & Hx)%list_elem_of_fmap. rewrite Forall_forall in Hs. destruct (Hs x Hx) as (H1 & H2 & H3 & H4). by rewrite (Hall _ H1) in H2.
      * intros (H1 & H2 & _). apply walk_complete; try done. intros d' Hd'. by rewrite (Hall _ Hd').
Qed.
End keyset.


(** ** Cursors *)

Lemma parse_hex2_lower b : (b < 256)%N → parse_uint 16 255 [hex_digit_lower (b / 16); hex_digit_lower (b mod 16)] = Some b.
Proof.
  intros Hb. unfold parse_uint. assert (hex_digit_lower (b / 16) ≠ 43%N) as Hne by (unfold hex_digit_lower; case_match; lia).
  rewrite (proj2 (N.eqb_neq _ _) Hne). cbn [parse_digits]. rewrite !digit_val_hex_lower by lia.
  rewrite (proj2 (N.ltb_lt (b / 16) 16)), (proj2 (N.leb_le (0 * 16 + b / 16) 255)) by lia.
  rewrite (proj2 (N.ltb_lt (b mod 16) 16)), (proj2 (N.leb_le ((0 * 16 + b / 16) * 16 + b mod 16) 255)) by lia. f_equal. lia.
Qed.
Lemma hex_pairs_of bs : Forall (λ b, b < 256)%N bs → hex_pairs (to_hex bs) = Some bs.
Proof.
  induction 1 as [|b bs Hb _ IH]; [done|]. unfold to_hex in *. cbn [flat_map app hex_pairs]. rewrite IH, (parse_hex2_lower b) by done. done.
Qed.
Lemma hex_digit_ascii d : (d < 16)%N → is_ascii (hex_digit_lower d) = true.
Proof. intros H. unfold hex_digit_lower, is_ascii. apply N.ltb_lt. destruct (N.ltb_spec d 10); lia. Qed.
Lemma hex_decode_of bs : Forall (λ b, b < 256)%N bs → hex_decode (to_hex bs) = Some bs.
Proof.
  intros H. unfold hex_decode. rewrite hex_pairs_of by done.
  assert (forallb is_ascii (to_hex bs) = true ∧ Nat.even (length (to_hex bs)) = true) as [-> ->]; [|done].
  unfold to_hex. induction H as [|b bs Hb _ [IH1 IH2]]; [done|]. cbn [flat_map app forallb length Nat.even]. rewrite IH1, IH2.
  rewrite !hex_digit_ascii; [done|apply N.mod_lt; lia|apply N.Div0.div_lt_upper_bound; lia].
Qed.
Lemma utf8_is_bytes s : wf_str s → Forall (λ b, b < 256)%N (utf8 s).
Proof.
  intros H. apply Forall_forall. intros b Hb. apply list_elem_of_In, in_flat_map in Hb as (c & Hc & Hb).
  apply (utf8_char_bytes c); [|by apply list_elem_of_In]. unfold wf_str in H. rewrite Forall_forall in H. by apply H, list_elem_of_In.
Qed.

Section cursors.
Context {AC : AttrCodec} {JT : JsonText} {D : Digest}.
Definition payload (tag shape : str) (m : object) : value :=
  VObject [(#"v", VNumber (PosInt CURSOR_VERSION)); (#"t", VString tag); (#"shape", VString shape); (#"pos", VObject m)].
Lemma payload_distinct tag shape m : distinct_keys (VObject m) = true → distinct_keys (payload tag shape m) = true.
Proof.
  intros Hm. apply distinct_object. split; [apply (bool_decide_unpack _); vm_compute; exact I|]. intros k x. rewrite !elem_of_cons.
  intros [[= -> ->]|[[= -> ->]|[[= -> ->]|[[= -> ->]|[]%elem_of_nil]]]]; done.
Qed.
Lemma cursor_nonempty tag shape m : distinct_keys (VObject m) = true → encode_cursor tag shape (VObject m) ≠ [].
Proof.
  intros Hm. pose proof (json_reparse _ (payload_distinct tag shape m Hm)) as Hr. unfold encode_cursor, payload in *. destruct (json_print _) as [|c s]; [by rewrite json_empty in Hr|].
  cbn [utf8 flat_map]. destruct (utf8_char c) as [|b bs] eqn:Hu; [|done]. pose proof (utf8_char_length c) as Hl. rewrite Hu in Hl. cbn in Hl. lia.
Qed.
(** A cursor is read back by a query of the same kind and shape, and refused by any other. *)
Lemma decode_encode tag shape tag' shape' m : distinct_keys (VObject m) = true →
  decode_cursor (encode_cursor tag shape (VObject m)) tag' shape' =
  if bool_decide (tag = tag') && bool_decide (shape = shape') then Ok (VObject m) else Err (bad "cursor does not belong to this query").
Proof.
  intros Hm. unfold decode_cursor, encode_cursor. pose proof (payload_distinct tag shape m Hm) as Hv. unfold payload in *. set (v := VObject [_; _; _; _]) in *.
  rewrite hex_decode_of by (apply utf8_is_bytes, json_print_wf). rewrite from_utf8_utf8 by apply json_print_wf. cbn [mbind option_bind]. rewrite json_reparse by done.
  change (param "v" v) with (VNumber (PosInt CURSOR_VERSION)). change (param "t" v) with (VString tag). change (param "shape" v) with (VString shape). cbn [as_u64 as_str].
  change (get #"pos" v) with (Some (VObject m)). rewrite bool_decide_eq_true_2 by done. cbn [negb].
  assert (∀ a b : str, bool_decide (Some a = Some b) = bool_decide (a = b)) as Hb by (intros; apply bool_decide_ext; split; congruence).
  rewrite !Hb. by destruct (bool_decide (tag = tag')), (bool_decide (shape = shape')).
Qed.
End cursors.

(** ** A client that follows the cursors it is given *)

Definition with_cursor (c : str) (p : value) : value := match p with VObject m => VObject (obj_insert #"cursor" (VString c) m) | _ => p end.
(** One request per database state; the answer's items and whether the end was reached. *)
Fixpoint follow {DB} (handler : value → DB → result Error value) (key : string) (p : value) (dbs : list DB) : result Error (list value * bool) :=
  match dbs with
  | [] => Ok ([], false)
  | d :: dbs =>
      let? r := handler p d in
      let items := default [] (as_array (param key r)) in
      match as_str (param "next_cursor" r) with
      | Some c => let? rest := follow handler key (with_cursor c p) dbs in Ok (items ++ rest.1, rest.2)
      | None => Ok (items, true)
      end
  end.
Lemma param_with_cursor k c p : lit k ≠ #"cursor" → param k (with_cursor c p) = param k p.
Proof. intros Hk. destruct p; try done. unfold param. cbn [with_cursor get]. rewrite obj_get_insert. by rewrite bool_decide_eq_false_2. Qed.
Lemma has_key_with_cursor k c p : lit k ≠ #"cursor" → has_key (with_cursor c p) k = has_key p k.
Proof. intros Hk. destruct p; try done. unfold has_key. cbn [with_cursor as_object mbind option_bind]. rewrite obj_get_insert. by rewrite (bool_decide_eq_false_2 (lit k = _)). Qed.
Definition at_cursor (c : str) (o : ReadOpts) : ReadOpts := {| ro_cursor := Some c; ro_fields := ro_fields o; ro_name_prefix := ro_name_prefix o; ro_paged := true |}.
Lemma opts_with_cursor allowed c p o : parse_read_opts p allowed = Ok o → ro_paged o = true → c ≠ [] → parse_read_opts (with_cursor c p) allowed = Ok (at_cursor c o).
Proof.
  intros Ho Hp Hc. unfold parse_read_opts in *. rewrite (param_with_cursor "name_prefix"), (param_with_cursor "fields") by done.
  destruct (opt_text (param "cursor" p) _) as [x|]; [|done]. cbn [rbind] in Ho. destruct (opt_text (param "name_prefix" p) _) as [np|]; [|done]. cbn [rbind] in *.
  destruct (match param "fields" p with VNull => _ | _ => _ end) as [f|]; [|done]. cbn [rbind] in *. injection Ho as <-. cbn [ro_paged] in Hp.
  destruct p as [| | | | |m]; [by cbn in Hp..|].
  assert (param "cursor" (with_cursor c (VObject m)) = VString c) as ->.
  { unfold param. cbn [with_cursor get]. rewrite obj_get_insert. by rewrite bool_decide_eq_true_2. }
  assert (has_key (with_cursor c (VObject m)) "cursor" = true) as ->.
  { unfold has_key. cbn [with_cursor as_object mbind option_bind]. rewrite obj_get_insert. by rewrite (bool_decide_eq_true_2 (lit "cursor" = _)). }
  cbn [opt_text rbind orb]. by destruct c.
Qed.
Lemma response_items key items paged next : param key (page_response (lit key) items paged next) = VArray items.
Proof. unfold param, page_response. cbn [app get obj_get]. by rewrite bool_decide_eq_true_2. Qed.

(** ** Entities *)

(** What a page says of an entity's episodes does not depend on the other entities of the page. *)
Lemma info_alone d uuids gids u : u ∈ uuids → get_episode_info_for_entities d uuids gids !! u = get_episode_info_for_entities d [u] gids !! u.
Proof.
  intros Hu. unfold get_episode_info_for_entities.
  enough (∀ m m' : gmap str (list str * list str), m !! u = m' !! u → foldl _ m (rd_mentions d) !! u = foldl _ m' (rd_mentions d) !! u) as H by (by apply H).
  induction (rd_mentions d) as [|[episode entity] ms IH]; intros m m' H; [done|]. cbn [foldl]. apply IH. destruct (find_first _ _) as [e|]; [|done].
  destruct (decide (entity = u)) as [->|Hne].
  - rewrite (bool_decide_eq_true_2 (u ∈ uuids)), (bool_decide_eq_true_2 (u ∈ [u])) by (done || by apply list_elem_of_singleton). cbn [andb]. rewrite H. destruct (in_groups _ _); [|done].
    destruct (default _ (m' !! u)) as [us ds]. case_bool_decide; [done|]. by rewrite !lookup_insert_eq.
  - rewrite (bool_decide_eq_false_2 (entity ∈ [u])) by (by rewrite list_elem_of_singleton). cbn [andb]. destruct (_ && _); [|done].
    destruct (default _ (m !! entity)) as [us ds]. case_bool_decide; [done|]. by rewrite lookup_insert_ne.
Qed.
Lemma enrich_each info nodes : NoDup (li_uuid <$> nodes) → enrich info nodes = (λ n, (n, default ([], []) (info !! li_uuid n))) <$> nodes.
Proof.
  revert info. induction nodes as [|n nodes IH]; intros info Hn; [done|]. rewrite fmap_cons in Hn. apply NoDup_cons in Hn as [Hn Hnd]. cbn [enrich]. rewrite IH by done. rewrite fmap_cons. f_equal.
  apply list_fmap_ext. intros i x Hx. rewrite lookup_delete_ne; [done|]. intros He. apply Hn. rewrite He. apply list_elem_of_fmap_2. by eapply list_elem_of_lookup_2.
Qed.
Definition uuid_kle (a b : str) : bool := str_leb b a.
Lemma below_spec e u : below_uuid e u = true ↔ uuid_kle u (li_uuid e) = true ∧ li_uuid e ≠ u.
Proof. unfold below_uuid, uuid_kle. by rewrite andb_true_iff, negb_true_iff, bool_decide_eq_false. Qed.

Section entities.
Context {U : Unicode} {AC : AttrCodec} {JT : JsonText} {D : Digest} (db_lower : str → str).
Definition wanted_by (q : entity_query) : listed → bool := wanted_entity db_lower (eq_groups q) (eq_kind q) (ro_name_prefix (eq_opts q)).
(** The item a query shows for a row. *)
Definition entity_item (q : entity_query) (x : read_db * listed) : value :=
  shaped (ro_fields (eq_opts q))
    (entity_json (x.2, if needs_enrichment q then default ([], []) (get_episode_info_for_entities x.1 [li_uuid x.2] (eq_groups q) !! li_uuid x.2) else ([], []))).
Definition q_at (cur : option str) (q : entity_query) : entity_query :=
  {| eq_limit := eq_limit q; eq_groups := eq_groups q; eq_kind := eq_kind q;
     eq_opts := {| ro_cursor := cur; ro_fields := ro_fields (eq_opts q); ro_name_prefix := ro_name_prefix (eq_opts q); ro_paged := true |} |}.
Lemma query_with_cursor c p q cur : entity_query_of p = Ok (q_at cur q) → c ≠ [] → entity_query_of (with_cursor c p) = Ok (q_at (Some c) q).
Proof.
  unfold entity_query_of. intros Hq Hc. rewrite (param_with_cursor "num_results"), (param_with_cursor "kind"), (param_with_cursor "group_ids") by done.
  destruct (_ <=? 0)%Z; [done|]. destruct (optional_kind_param _) as [k|]; [|done]. cbn [rbind] in *. destruct (parse_read_opts p _) as [o|] eqn:Ho; [|done]. cbn [rbind] in Hq. injection Hq as H1 H2 H3 H4.
  rewrite (opts_with_cursor _ c p o Ho) by (done || by subst o). cbn [rbind]. unfold at_cursor. subst o. cbn. unfold q_at. by rewrite H1, H2, H3.
Qed.
Lemma entity_page_walk q cur after d : (eq_limit q + 1 <= i64_max)%N → NoDup (li_uuid <$> rd_entities d) →
  let found := take (S (N.to_nat (eq_limit q))) (after_rows li_uuid uuid_kle below_uuid rd_entities (wanted_by q) after d) in
  let out := take (N.to_nat (eq_limit q)) found in
  entity_page db_lower (q_at cur q) after d =
  page_response #"nodes" (entity_item q <$> (pair d <$> out)) true
    ((λ n, encode_cursor ENTITIES_TAG (entity_shape q) (VObject [(#"uuid", VString (li_uuid n))])) <$> (if (N.to_nat (eq_limit q) <? length found)%nat then last out else None)).
Proof.
  intros Hl Hd. cbv zeta. unfold entity_page. cbn [q_at eq_limit eq_groups eq_kind eq_opts ro_name_prefix ro_fields ro_paged].
  change (needs_enrichment (q_at cur q)) with (needs_enrichment q). change (entity_shape (q_at cur q)) with (entity_shape q). unfold list_entities_page. rewrite N.min_l by done. replace (N.to_nat (eq_limit q + 1)) with (S (N.to_nat (eq_limit q))) by lia.
  change (sort_by (uuid_desc li_uuid) _) with (after_rows li_uuid uuid_kle below_uuid rd_entities (wanted_by q) after d).
  pose proof (after_rows_sorted li_uuid uuid_kle below_uuid rd_entities (wanted_by q)) as Hs.
  set (l := after_rows _ _ _ _ _ _ _) in *. set (found := take (S _) l). set (out := take _ found).
  assert (NoDup (li_uuid <$> out)) as Hnd.
  { assert (NoDup (li_uuid <$> l)) as Hnl.
    { unfold l, after_rows. rewrite (sort_by_perm _ _). by apply keys_filter. }
    unfold out, found. rewrite !fmap_take. by apply nodup_take, nodup_take. }
  f_equal; [|by destruct (_ <? _)%nat]. rewrite enrich_each by done. rewrite <- !list_fmap_compose. apply list_fmap_ext. intros i n Hn. cbn.
  unfold entity_item. cbn [fst snd]. destruct (needs_enrichment q); [|by rewrite lookup_empty]. rewrite info_alone; [done|]. apply list_elem_of_fmap_2. by eapply list_elem_of_lookup_2.
Qed.
Lemma entity_position_at q c u : c = encode_cursor ENTITIES_TAG (entity_shape q) (VObject [(#"uuid", VString u)]) → entity_position (q_at (Some c) q) = Ok (Some u).
Proof.
  intros ->. unfold entity_position. cbn [q_at eq_opts ro_cursor]. change (entity_shape (q_at _ q)) with (entity_shape q). rewrite decode_encode by (vm_compute; reflexivity).
  by rewrite !bool_decide_eq_true_2 by done.
Qed.
Lemma follow_entities q : (eq_limit q + 1 <= i64_max)%N → ∀ dbs p cur after, Forall (λ d, NoDup (li_uuid <$> rd_entities d)) dbs →
  entity_query_of p = Ok (q_at cur q) → entity_position (q_at cur q) = Ok after →
  follow (handle_list_entities db_lower) "nodes" p dbs =
  let w := walk li_uuid uuid_kle below_uuid rd_entities (wanted_by q) (N.to_nat (eq_limit q)) dbs after in Ok (entity_item q <$> w.1, w.2).
Proof.
  intros Hl. induction dbs as [|d dbs IH]; intros p cur after Hd Hq Hpos; [done|]. apply Forall_cons in Hd as [Hd Hds]. cbn [follow walk].
  assert (handle_list_entities db_lower p d = Ok (entity_page db_lower (q_at cur q) after d)) as -> by (unfold handle_list_entities; rewrite Hq; cbn [rbind]; by rewrite Hpos).
  cbn [rbind]. rewrite entity_page_walk by done. rewrite response_items.
  set (found := take (S _) _). set (out := take _ found). destruct (if (_ <? _)%nat then last out else None) as [r|] eqn:Hr; cbn [fmap option_fmap option_map].
  - change (as_str (param "next_cursor" _)) with (Some (encode_cursor ENTITIES_TAG (entity_shape q) (VObject [(#"uuid", VString (li_uuid r))]))). set (c := encode_cursor _ _ _). cbv match.
    rewrite (IH (with_cursor c p) (Some c) (Some (li_uuid r))); [|done| |by apply entity_position_at].
    + cbn [rbind]. destruct (walk _ _ _ _ _ _ dbs _) as [more fin]. cbn [fst snd as_array default from_option id]. by rewrite fmap_app.
    + eapply query_with_cursor; [exact Hq|]. by apply cursor_nonempty.
  - change (as_str (param "next_cursor" _)) with (@None str). done.
Qed.

End entities.

(** ** Episodes *)

Definition time_key (e : listed_episode) : Z * str := (le_created e, le_uuid e).
Definition time_kle (a b : Z * str) : bool := (b.1 <? a.1)%Z || ((a.1 =? b.1)%Z && str_leb b.2 a.2).
Lemma time_kle_spec a b : time_kle a b = true ↔ (b.1 < a.1)%Z ∨ (a.1 = b.1 ∧ str_leb b.2 a.2 = true).
Proof. unfold time_kle. rewrite orb_true_iff, andb_true_iff, Z.ltb_lt, Z.eqb_eq. done. Qed.
Lemma below_time_spec e k : below_time e k = true ↔ time_kle k (time_key e) = true ∧ time_key e ≠ k.
Proof.
  rewrite time_kle_spec. unfold below_time, time_key. destruct k as [t u]. cbn. rewrite orb_true_iff, !andb_true_iff, negb_true_iff, bool_decide_eq_false, Z.ltb_lt, Z.eqb_eq.
  split; [intros [H|[[H1 H2] H3]]; (split; [lia || by right|congruence || (intros [= ? ?]; lia)])|].
  intros [[H|[H1 H2]] Hne]; [by left|right]. split_and!; [done..|]. congruence.
Qed.
Lemma i64_num_back z : (- 2 ^ 63 <= z < 2 ^ 63)%Z → num_i64 (VNumber (i64_num z)) = Some z.
Proof.
  intros H. unfold i64_num. destruct (Z.leb_spec 0 z); [|done]. cbn [num_i64]. rewrite (proj2 (N.ltb_lt _ _)) by lia. f_equal. lia.
Qed.
Section episodes.
Context {U : Unicode} {AC : AttrCodec} {JT : JsonText} {D : Digest} (us_text : Z → str).
Definition episode_wanted (q : episode_query) : listed_episode → bool := wanted_episode (pq_groups q) (ro_name_prefix (pq_opts q)).
Definition episode_item (q : episode_query) (x : read_db * listed_episode) : value := shaped (ro_fields (pq_opts q)) (episode_json us_text x.2).
Definition pq_at (cur : option str) (q : episode_query) : episode_query :=
  {| pq_last := pq_last q; pq_groups := pq_groups q;
     pq_opts := {| ro_cursor := cur; ro_fields := ro_fields (pq_opts q); ro_name_prefix := ro_name_prefix (pq_opts q); ro_paged := true |} |}.
Definition times_known (d : read_db) : Prop := Forall (λ e, us_in_range (le_created e) = true) (rd_episodes d).
Lemma episode_query_with_cursor c p q cur : episode_query_of p = Ok (pq_at cur q) → c ≠ [] → episode_query_of (with_cursor c p) = Ok (pq_at (Some c) q).
Proof.
  unfold episode_query_of, episode_group_scope. intros Hq Hc. rewrite (param_with_cursor "last_n"), (param_with_cursor "group_ids"), (param_with_cursor "group_id") by done.
  destruct (parse_read_opts p _) as [o|] eqn:Ho; [|done]. cbn [rbind] in Hq. injection Hq as H1 H2 H3.
  rewrite (opts_with_cursor _ c p o Ho) by (done || by subst o). cbn [rbind]. unfold at_cursor. subst o. cbn. unfold pq_at. by rewrite H1, H2.
Qed.
Lemma episode_position_at q e : us_in_range (le_created e) = true →
  episode_position (pq_at (Some (encode_cursor EPISODES_TAG (episode_shape q) (VObject [(#"created_at_us", VNumber (i64_num (le_created e))); (#"uuid", VString (le_uuid e))]))) q) = Ok (Some (time_key e)).
Proof.
  intros Hr. unfold episode_position. cbn [pq_at pq_opts ro_cursor]. change (episode_shape (pq_at _ q)) with (episode_shape q).
  rewrite decode_encode by (vm_compute; reflexivity). rewrite !bool_decide_eq_true_2 by done. cbn [andb rbind].
  change (param "created_at_us" _) with (VNumber (i64_num (le_created e))). rewrite i64_num_back; [done|]. unfold us_in_range in Hr. rewrite andb_true_iff, Z.leb_le, Z.ltb_lt in Hr. lia.
Qed.
Lemma episode_page_walk q cur after d : (pq_last q < i64_max)%N → opt_test (us_in_range ∘ fst) after = true →
  let found := take (S (N.to_nat (pq_last q))) (after_rows time_key time_kle below_time rd_episodes (episode_wanted q) after d) in
  let out := take (N.to_nat (pq_last q)) found in
  episode_page us_text (pq_at cur q) after d =
  Ok (page_response #"episodes" (episode_item q <$> (pair d <$> out)) true
    ((λ e, encode_cursor EPISODES_TAG (episode_shape q) (VObject [(#"created_at_us", VNumber (i64_num (le_created e))); (#"uuid", VString (le_uuid e))]))
       <$> (if (N.to_nat (pq_last q) <? length found)%nat then last out else None))).
Proof.
  intros Hl Ha. cbv zeta. unfold episode_page, retrieve_episodes_page. rewrite Ha. cbn [pq_at pq_last pq_groups pq_opts ro_name_prefix ro_fields ro_paged rbind].
  change (episode_shape (pq_at cur q)) with (episode_shape q). unfold sat_add64, i64_max, u64_max in *. rewrite (N.min_r _ (pq_last q + 1)) by lia. rewrite N.min_l by lia.
  replace (N.to_nat (pq_last q + 1)) with (S (N.to_nat (pq_last q))) by lia.
  change (sort_by time_desc _) with (after_rows time_key time_kle below_time rd_episodes (episode_wanted q) after d). set (l := after_rows _ _ _ _ _ _ _).
  f_equal. f_equal; [|by destruct (_ <? _)%nat]. by rewrite <- list_fmap_compose.
Qed.
Lemma follow_episodes q : (pq_last q < i64_max)%N → ∀ dbs p cur after, Forall times_known dbs →
  episode_query_of p = Ok (pq_at cur q) → episode_position (pq_at cur q) = Ok after → opt_test (us_in_range ∘ fst) after = true →
  follow (handle_get_episodes us_text) "episodes" p dbs =
  let w := walk time_key time_kle below_time rd_episodes (episode_wanted q) (N.to_nat (pq_last q)) dbs after in Ok (episode_item q <$> w.1, w.2).
Proof.
  intros Hl. induction dbs as [|d dbs IH]; intros p cur after Ht Hq Hpos Ha; [done|]. apply Forall_cons in Ht as [Ht Hts]. cbn [follow walk].
  assert (handle_get_episodes us_text p d = episode_page us_text (pq_at cur q) after d) as -> by (unfold handle_get_episodes; rewrite Hq; cbn [rbind]; by rewrite Hpos).
  rewrite episode_page_walk by done. cbn [rbind]. rewrite response_items.
  set (found := take (S _) _). set (out := take _ found). destruct (if (_ <? _)%nat then last out else None) as [r|] eqn:Hr; cbn [fmap option_fmap option_map].
  - assert (us_in_range (le_created r) = true) as Hrange.
    { destruct (_ <? _)%nat; [|done]. apply last_Some_elem_of, subseteq_take, subseteq_take, after_rows_elem in Hr as (Hr & _). unfold times_known in Ht. rewrite Forall_forall in Ht. by apply Ht. }
    set (pos := VObject [(#"created_at_us", _); _]). change (as_str (param "next_cursor" _)) with (Some (encode_cursor EPISODES_TAG (episode_shape q) pos)). cbv match.
    rewrite (IH _ (Some (encode_cursor EPISODES_TAG (episode_shape q) pos)) (Some (time_key r))); [|done| |by apply episode_position_at|done].
    + cbn [rbind]. destruct (walk _ _ _ _ _ _ dbs _) as [more fin]. cbn [fst snd as_array default from_option id]. by rewrite fmap_app.
    + eapply episode_query_with_cursor; [exact Hq|]. by apply cursor_nonempty.
  - change (as_str (param "next_cursor" _)) with (@None str). done.
Qed.

(** The same for episodes, newest first: whatever is written between its requests, a client that
    follows the cursors sees no episode twice, and every episode that matched throughout. *)
Theorem listing_episodes_by_pages (p : value) (q : episode_query) (dbs : list read_db) (Hq : episode_query_of p = Ok q) (Hpaged : ro_paged (pq_opts q) = true)
    (Hfirst : ro_cursor (pq_opts q) = None) (Hlast : (0 < pq_last q < i64_max)%N) (Huuids : Forall (λ d, NoDup (le_uuid <$> rd_episodes d) ∧ times_known d) dbs) :
  ∃ shown fin, follow (handle_get_episodes us_text) "episodes" p dbs = Ok (episode_item q <$> shown, fin) ∧
    walked time_key time_kle below_time rd_episodes (episode_wanted q) dbs shown fin.
Proof.
  assert (q = pq_at None q) as Hat by (destruct q as [? ? [? ? ? ?]]; cbn in *; by subst). apply Forall_and in Huuids as [Hu Ht].
  eexists _, _. split; [rewrite (follow_episodes q) with (cur := None) (after := None); [reflexivity|lia|done|by rewrite <- Hat|by rewrite <- Hat; unfold episode_position; rewrite Hfirst|done]|].
  apply walk_walked.
  - intros a b H. apply time_kle_spec. destruct (Z.lt_trichotomy a.1 b.1) as [?|[He|?]]; [by left|right|].
    + split; [done|]. apply str_leb_total. unfold time_kle in H. rewrite He, Z.eqb_refl in H. by apply orb_false_iff in H as [_ H].
    + assert (time_kle a b = true) by (apply time_kle_spec; by left). congruence.
  - intros a b c. rewrite !time_kle_spec. intros [?|[? ?]] [?|[? ?]]; [left; lia..|right]. split; [lia|by eapply str_leb_trans].
  - intros [t u] [t' u']. rewrite !time_kle_spec. cbn. intros [?|[-> ?]] [?|[? ?]]; try lia. f_equal. by apply str_leb_antisym.
  - apply below_time_spec.
  - lia.
  - eapply Forall_impl; [exact Hu|]. cbn. intros d Hd. clear -Hd. induction (rd_episodes d) as [|e l IH]; [constructor|]. rewrite fmap_cons in *. apply NoDup_cons in Hd as [He Hd]. apply NoDup_cons. split; [|by apply IH].
    intros (x & [= _ Hx] & Hin)%list_elem_of_fmap. apply He. rewrite Hx. by apply list_elem_of_fmap_2.
Qed.
End episodes.

(** ** A concrete client *)

Definition SumDigest : Digest := λ b, [N.of_nat (length b) mod 256; foldl N.add 0 b mod 256]%N.
Definition toy_listed (u : string) : listed :=
  {| li_uuid := lit u; li_name := lit u; li_group := #"g"; li_labels := [ #"Entity"]; li_kind := None; li_created := []; li_ingested := []; li_summary := []; li_attrs := [] |}.
Definition toy_episode (u : string) (us : Z) : listed_episode :=
  {| le_uuid := lit u; le_name := lit u; le_group := #"g"; le_created := us; le_ingested := []; le_source := []; le_description := []; le_content := []; le_valid := []; le_edges := []; le_attrs := [] |}.
Definition read_before : read_db := {| rd_entities := [toy_listed "a"; toy_listed "b"]; rd_episodes := [toy_episode "a" 5; toy_episode "b" 5]; rd_mentions := [(#"a", #"b")] |}.
Definition read_after : read_db := {| rd_entities := [toy_listed "a"; toy_listed "c"; toy_listed "b"]; rd_episodes := [toy_episode "c" 9; toy_episode "a" 5; toy_episode "b" 5]; rd_mentions := [] |}.
Definition toy_pages : value := VObject [(#"num_results", VNumber (PosInt 1)); (#"last_n", VNumber (PosInt 1)); (#"cursor", VNull); (#"fields", VArray [VString #"uuid"])].
Definition shown_entities := @follow read_db (@handle_list_entities AsciiUnicode LineAttrs SumDigest id) "nodes" toy_pages [read_before; read_after].
Definition shown_episodes := @follow read_db (@handle_get_episodes LineAttrs SumDigest (λ _, [])) "episodes" toy_pages [read_before; read_after].
Lemma listing_episodes_by_pages_witness :
  shown_episodes = Ok ([VObject [(#"uuid", VString #"b")]; VObject [(#"uuid", VString #"a")]], true) ∧
  ∃ q shown, shown_episodes = Ok (@episode_item (λ _, []) q <$> shown, true) ∧
    walked time_key time_kle below_time rd_episodes (episode_wanted q) [read_before; read_after] shown true.
Proof.
  assert (shown_episodes = Ok ([VObject [(#"uuid", VString #"b")]; VObject [(#"uuid", VString #"a")]], true)) as H by (vm_compute; reflexivity). split; [exact H|].
  destruct (episode_query_of toy_pages) as [q|] eqn:Hq; [|vm_compute in Hq; discriminate Hq]. exists q.
  destruct (@listing_episodes_by_pages LineAttrs LineAttrsText SumDigest (λ _, []) toy_pages q [read_before; read_after] Hq) as (shown & fin & H1 & H2).
  - vm_compute in Hq. injection Hq as <-. reflexivity.
  - vm_compute in Hq. injection Hq as <-. reflexivity.
  - vm_compute in Hq. injection Hq as <-. split; reflexivity.
  - repeat constructor; (vm_compute; reflexivity) || (apply (bool_decide_unpack _); vm_compute; exact I).
  - fold shown_episodes in H1. exists shown. rewrite H in H1. injection H1 as H1 H3. subst fin. rewrite H, H1. split; [reflexivity|exact H2].
Defined.
