(* ===== verification/Rebuild.v ===== *)
(** * Rebuild: replaying one group's log into the running service (core/src/handlers.rs:
    handle_rebuild_from_wal, clear_group_for_rebuild, handle_rebuild_status; core/src/rebuild_job.rs)

    The engine's connection is the one the replayer uses; its tables are seen through [Tables].
    What a failing query, an index step or a column back-fill does is an input.  A request goes
    through phases, and what happens under one hold of the write lock is one step, so overlapping
    requests are interleavings of steps.  Progress messages, telemetry, the ontology sidecars
    stamped at the end and the time of day are left out. *)

From S2P Require Import Prelude Text Numbers Json WalGeneration WalScan Checkpoint WalGroup Wal LegacyWal Replay WalExec Recovery Pointer Prompts Graph CrossGroup GroupPurge Assert MergeEntities.

(** The tables of a connection, as the graph's queries see and rewrite them. *)
Class Tables {DB : Db} := { tables : conn → graph; put_tables : graph → conn → conn }.
Class TablesLaws `{Tables} := { tables_put g c : tables (put_tables g c) = g }.

(** ** Parameters *)

(** Source: core/src/handlers.rs 5821-5844 (validate_from_seq) *)
Definition validate_from_seq (v : value) : result Error N :=
  match v with
  | VNull => Ok 0%N
  | VBool _ => Err (Ipc (Msg "from_seq must be a non-negative integer, not a boolean" []))
  | VNumber (PosInt n) => Ok n
  | VNumber (NegInt _) => Err (Ipc (Msg "from_seq must be non-negative, got {i}" []))
  | _ => Err (Ipc (Msg "from_seq must be a non-negative integer" []))
  end.
(** Source: core/src/handlers.rs 5848-5869 (validate_to_seq) *)
Definition validate_to_seq (v : value) : result Error (option N) :=
  match v with
  | VNull => Ok None
  | VBool _ => Err (Ipc (Msg "to_seq must be a non-negative integer, not a boolean" []))
  | VNumber (PosInt n) => Ok (Some n)
  | VNumber (NegInt _) => Err (Ipc (Msg "to_seq must be non-negative, got {i}" []))
  | _ => Err (Ipc (Msg "to_seq must be a non-negative integer" []))
  end.
(** Source: core/src/handlers.rs 2490-2496 (group_id_param) *)
Definition group_id_param (params : value) : str :=
  match as_str (param "group_id" params) with Some g => if nonempty g then g else DEFAULT_GROUP_ID | None => DEFAULT_GROUP_ID end.
(** Source: core/src/handlers.rs 2473-2486 (resolve_group_wal_dir) *)
Definition resolve_group_wal_dir (root : option wroot) (group_id : str) : result Error str :=
  match root with
  | None => Err (Ipc (Msg "No WAL directory configured (set LCG_WAL_DIR)" []))
  | Some root =>
      let? dir_name := encode_group_dir_name group_id in
      let? _ := check_no_case_insensitive_collision root dir_name in
      Ok dir_name
  end.
(** Source: core/src/handlers.rs 5871-5879 (has_jsonl_files) *)
Definition has_jsonl_files (d : list wfile) : bool := match jsonl_files d with [] => false | _ => true end.

(** ** State *)

(** Source: core/src/rebuild_job.rs 7-11 (JobStatus) *)
Inductive JobStatus := Running | Completed | Failed.
Global Instance JobStatus_eq_dec : EqDecision JobStatus.
Proof. solve_decision. Defined.

(** What a request has been found to ask for. *)
Record plan := {
  pl_group : str; pl_dir : str; pl_from : N; pl_to : option N; pl_dry : bool; pl_force : bool;
  pl_reset : bool; pl_previous : option str; pl_generation : option str }.
Record rebuild_report := {
  rp_plan : plan; rp_stats : ReplayStats; rp_indices_built : bool; rp_lookup_key_ok : bool; rp_rebind : option RebindCounts }.
(** Source: core/src/rebuild_job.rs 25-37 (RebuildJob) *)
Record RebuildJob := { job_status : JobStatus; job_error : option str; job_result : option rebuild_report }.
Record rebuild_state {DB : Db} := {
  rs_conn : conn; rs_wal : wal_app; rs_positions : positions; rs_indices_built : bool; rs_jobs : gmap str RebuildJob; rs_active_writes : N }.
Arguments rebuild_state _ : clear implicits.

(** The surroundings of a run. *)
Record rebuild_env {RD : ReplayDeps} {DB : Db} := {
  rv_open : open_env;
  rv_identity : str * Z;
  rv_ts : str;
  rv_options : ReplayOptions;
  rv_replay : replay_env;
  rv_get_ok : bool;
  rv_set_ok : str → bool;
  rv_drop_fts : conn → conn;
  rv_drop_vectors : conn → conn;
  rv_backfills : conn → conn;
  rv_lookup_key_ok : conn → bool;
  rv_indexes : conn → result Error unit * conn;
}.

Section rebuild.
Context {U : Unicode} {AC : AttrCodec} {LP : LinePrinter} {SR : SeqReader} {GC : GenerationCodec}.
Context {RD : ReplayDeps} {DB : Db} {LGP : LegacyPatterns} {TB : Tables}.
Context (db_lower : str → str) (ts_text : N → str) (logged : str * gmut → flush_env * mutation).
Context (display : Error → str) (new_job_id : gmap str RebuildJob → str) (e : rebuild_env).

Definition with_conn (c : conn) (s : rebuild_state DB) : rebuild_state DB :=
  {| rs_conn := c; rs_wal := rs_wal s; rs_positions := rs_positions s; rs_indices_built := rs_indices_built s; rs_jobs := rs_jobs s; rs_active_writes := rs_active_writes s |}.
Definition with_wal (w : wal_app) (s : rebuild_state DB) : rebuild_state DB :=
  {| rs_conn := rs_conn s; rs_wal := w; rs_positions := rs_positions s; rs_indices_built := rs_indices_built s; rs_jobs := rs_jobs s; rs_active_writes := rs_active_writes s |}.
Definition with_positions (p : positions) (s : rebuild_state DB) : rebuild_state DB :=
  {| rs_conn := rs_conn s; rs_wal := rs_wal s; rs_positions := p; rs_indices_built := rs_indices_built s; rs_jobs := rs_jobs s; rs_active_writes := rs_active_writes s |}.
Definition with_indices (b : bool) (s : rebuild_state DB) : rebuild_state DB :=
  {| rs_conn := rs_conn s; rs_wal := rs_wal s; rs_positions := rs_positions s; rs_indices_built := b; rs_jobs := rs_jobs s; rs_active_writes := rs_active_writes s |}.
Definition with_jobs (j : gmap str RebuildJob) (s : rebuild_state DB) : rebuild_state DB :=
  {| rs_conn := rs_conn s; rs_wal := rs_wal s; rs_positions := rs_positions s; rs_indices_built := rs_indices_built s; rs_jobs := j; rs_active_writes := rs_active_writes s |}.

(** ** What a request asks for *)

(** Source: core/src/handlers.rs 2640-2728 (handle_rebuild_from_wal) *)
Definition rebuild_plan (p : value) (s : rebuild_state DB) : result Error plan :=
  let? from_seq := validate_from_seq (param "from_seq" p) in
  let? to_seq := validate_to_seq (param "to_seq" p) in
  if match to_seq with Some t => (t <? from_seq)%N | None => false end then
    Err (Ipc (Msg "knowledge_rebuild_from_wal: to_seq must not be less than from_seq" [ANum (default 0%N to_seq); ANum from_seq]))
  else
    let dry_run := default false (as_bool (param "dry_run" p)) in
    let group_id := group_id_param p in
    let? wal_dir := resolve_group_wal_dir (wa_root (rs_wal s)) group_id in
    if negb (has_jsonl_files (default [] (wa_dirs (rs_wal s) !! wal_dir))) then Err (Ipc (Msg "No WAL files found at {}" [AStr wal_dir]))
    else
      let? recorded := get_wal_position (rv_get_ok e) group_id (rs_positions s) in
      let generation := read_generation (wa_gens (rs_wal s) !! wal_dir) in
      if bool_decide (is_Some (applied_seq recorded)) && bool_decide (generation = None) then
        Err (WalGenerationUnknown (Msg "group: the generation is absent or unreadable" [AStr group_id]))
      else
        let reset := position_reset_detected (applied_seq recorded) (wp_generation recorded) generation in
        (* a reset overrides the bounds, unless the run is dry, which then only reports it *)
        Ok {| pl_group := group_id; pl_dir := wal_dir; pl_from := if reset && negb dry_run then 0 else from_seq;
              pl_to := if reset && negb dry_run then None else to_seq; pl_dry := dry_run;
              pl_force := default false (as_bool (param "force_clear" p)) || reset; pl_reset := reset;
              pl_previous := wp_generation recorded; pl_generation := generation |}.

(** Source: core/src/handlers.rs 2780-2784 (handle_rebuild_from_wal) *)
Definition group_has_data (group_id : str) (g : graph) : bool :=
  (0 <? count_entities_by_group_ids [group_id] g)%N || (0 <? count_episodics_by_group_ids [group_id] g)%N || (0 <? count_relates_to_by_group_ids [group_id] g)%N.
Definition busy (s : rebuild_state DB) : bool := (0 <? rs_active_writes s)%N.
Definition busy_error (s : rebuild_state DB) : Error := Ipc (Msg "Service is busy: {active} write operation(s) in progress" [ANum (rs_active_writes s)]).
(** Whether the group has to be cleared first.
    Source: core/src/handlers.rs 2770-2829 (handle_rebuild_from_wal) *)
Definition clear_needed (pl : plan) (s : rebuild_state DB) : result Error bool :=
  if (pl_from pl =? 0)%N && group_has_data (pl_group pl) (tables (rs_conn s)) then
    if pl_dry pl then Err (Ipc (Msg "knowledge_rebuild_from_wal: group already contains data; a dry run cannot preview this" [AStr (pl_group pl)]))
    else if negb (pl_force pl) then Err (Ipc (Msg "knowledge_rebuild_from_wal: group already contains data; pass force_clear: true" [AStr (pl_group pl)]))
    else if busy s then Err (busy_error s)
    else Ok true
  else Ok false.

(** ** Clearing the group *)

Definition applied_of (p : positions) (gid : str) : option N := match get_wal_position true gid p with Ok r => applied_seq r | Err _ => None end.
(** Each bucket goes to its own group's log, and moves that group's position.
    Source: core/src/handlers.rs 3762-3765 (clear_group_for_rebuild) *)
Definition flush_buckets (grouped : GroupedMutations) (s : rebuild_state DB) : rebuild_state DB :=
  foldl (λ s '(gid, ms),
      let '(seq, w) := wal_flush_ungrouped (rv_open e) gid (logged <$> ms) (rs_wal s) in
      with_positions (advance_wal_position (rv_set_ok e gid) gid seq (rv_identity e) (rs_positions s)) (with_wal w s)) s (map_to_list grouped).
(** The group's own bucket is dropped, never logged.
    Source: core/src/handlers.rs 3717-3777 (clear_group_for_rebuild) *)
Definition clear_group_for_rebuild (group_id wal_dir : str) (s : rebuild_state DB) : result Error unit * rebuild_state DB :=
  let generation := read_generation (wa_gens (rs_wal s) !! wal_dir) in
  let c := rv_drop_fts e (rs_conn s) in
  let '(_, grouped, g) := purge_groups db_lower ts_text (applied_of (rs_positions s)) [group_id] (rv_ts e) false (fresh_connection (tables c)) in
  let s := flush_buckets (base.delete group_id grouped) (with_conn (put_tables g c) (with_indices false s)) in
  let '(r, p) := set_wal_position (rv_set_ok e group_id) group_id 0 generation None (rs_positions s) in
  (r, with_positions p s).

(** ** Replaying under the lock *)

Definition options_of (pl : plan) : ReplayOptions :=
  let o := rv_options e in
  {| from_seq := pl_from pl; to_seq := pl_to pl; dry_run := pl_dry pl; progress_fn := progress_fn o; cancel_fn := cancel_fn o;
     failure_sample_cap := None; batch_size := None; embed_window_size := None;
     recompute_embed_fn := recompute_embed_fn o; recompute_embed_dim := recompute_embed_dim o |}.
(** After a reset the pointers into the group are bound again.
    Source: core/src/handlers.rs 3064-3088 (handle_rebuild_from_wal) *)
Definition rebind_after_reset (pl : plan) (s : rebuild_state DB) : option RebindCounts * rebuild_state DB :=
  if pl_reset pl then
    let '(counts, grouped, g) := rebind_pointers db_lower ts_text (applied_of (rs_positions s)) (pl_group pl) (rv_ts e) (fresh_connection (tables (rs_conn s))) in
    (Some counts, flush_buckets grouped (with_conn (put_tables g (rs_conn s)) s))
  else (None, s).
(** The position is written only when something was committed, with the generation read when the
    request was planned, and the embedder's identity only when every recompute succeeded.
    Source: core/src/handlers.rs 3039-3096 (handle_rebuild_from_wal) *)
Definition persist_rebuilt (pl : plan) (stats : ReplayStats) (s : rebuild_state DB) : option RebindCounts * rebuild_state DB :=
  match last_committed_seq stats with
  | None => (None, s)
  | Some seq =>
      let identity := if embeddings_recompute_had_no_failures stats then Some (rv_identity e) else None in
      match set_wal_position (rv_set_ok e (pl_group pl)) (pl_group pl) seq (pl_generation pl) identity (rs_positions s) with
      | (Ok _, p) => rebind_after_reset pl (with_positions p s)
      | (Err _, _) => (None, s)
      end
  end.
(** The body shared by the streaming and the background run.  The guard scans the log again when
    the run ends without having done so.
    Source: core/src/handlers.rs 2908-3099 (handle_rebuild_from_wal) *)
Definition replay_group (pl : plan) (s : rebuild_state DB) : result Error rebuild_report * rebuild_state DB :=
  let drop_guard done s := if pl_dry pl then s else with_wal (drop_resync_guard done (rv_open e) (pl_group pl) (rs_wal s)) s in
  let c := if pl_dry pl then rs_conn s else rv_drop_vectors e (rv_drop_fts e (rs_conn s)) in
  match replay_opts (options_of pl) (rv_replay e) (Some <$> (wa_dirs (rs_wal s) !! pl_dir pl)) c with
  | (Err x, c) => (Err x, drop_guard false (with_conn c s))
  | (Ok stats, c) =>
      if pl_dry pl then
        (Ok {| rp_plan := pl; rp_stats := stats; rp_indices_built := false; rp_lookup_key_ok := false; rp_rebind := None |}, with_conn c s)
      else
        let c := rv_backfills e c in
        let lookup_key_ok := rv_lookup_key_ok e c in
        let '(built, c) := rv_indexes e c in
        let '(resynced, w) := resync_global_seq_after_rebuild (rv_open e) (pl_group pl) (last_committed_seq stats) (rs_wal s) in
        let '(rebind, s) := persist_rebuilt pl stats (with_wal w (with_conn c s)) in
        (Ok {| rp_plan := pl; rp_stats := stats; rp_indices_built := is_ok built; rp_lookup_key_ok := lookup_key_ok; rp_rebind := rebind |}, drop_guard resynced s)
  end.
(** The flag says the indexes are gone while they are, and afterwards whether they were built.
    Source: core/src/handlers.rs 2882-2889 (handle_rebuild_from_wal) *)
Definition run_locked (pl : plan) (s : rebuild_state DB) : result Error rebuild_report * rebuild_state DB :=
  let s := if pl_dry pl then s else with_indices false s in
  match replay_group pl s with
  | (Ok r, s) => (Ok r, if pl_dry pl then s else with_indices (rp_indices_built r) s)
  | out => out
  end.

(** ** Jobs and phases *)

Inductive answer :=
| Preview (pl : plan)
| Report (r : rebuild_report)
| Started (job : str).
(** Where a request is; a background run goes on after its request was answered. *)
Inductive phase :=
| Asked (streaming : bool) (p : value)
| Clearing (streaming : bool) (pl : plan)
| Ready (streaming : bool) (pl : plan)
| Streaming (pl : plan)
| InJob (job : str) (pl : plan)
| JobEnding (job : str) (pl : plan) (r : result Error rebuild_report)
| Ended (a : result Error answer).

(** Source: core/src/handlers.rs 3325-3328 (handle_rebuild_from_wal) *)
Definition running_job (jobs : gmap str RebuildJob) : option str :=
  find_first (λ '(id, j), if bool_decide (job_status j = Running) then Some id else None) (map_to_list jobs).
(** A run that is already there is the answer, whatever group it is for.
    Source: core/src/handlers.rs 3320-3339 (handle_rebuild_from_wal) *)
Definition register_job (s : rebuild_state DB) : str + str * rebuild_state DB :=
  match running_job (rs_jobs s) with
  | Some existing => inl existing
  | None =>
      let id := new_job_id (rs_jobs s) in
      inr (id, with_jobs (<[id := {| job_status := Running; job_error := None; job_result := None |}]> (rs_jobs s)) s)
  end.
(** Source: core/src/handlers.rs 3586-3688 (handle_rebuild_from_wal) *)
Definition finish_job (id : str) (r : result Error rebuild_report) (s : rebuild_state DB) : rebuild_state DB :=
  match rs_jobs s !! id with
  | None => s
  | Some j =>
      with_jobs (<[id := match r with
                         | Ok rep => {| job_status := Completed; job_error := job_error j; job_result := Some rep |}
                         | Err x => {| job_status := Failed; job_error := Some (display x); job_result := job_result j |}
                         end]> (rs_jobs s)) s
  end.
(** A dry run only reports a reset.
    Source: core/src/handlers.rs 2730-2788 (handle_rebuild_from_wal) *)
Definition step_asked (streaming : bool) (p : value) (s : rebuild_state DB) : phase :=
  match rebuild_plan p s with
  | Err x => Ended (Err x)
  | Ok pl =>
      if pl_reset pl && pl_dry pl then Ended (Ok (Preview pl))
      else match clear_needed pl s with
           | Err x => Ended (Err x)
           | Ok true => Clearing streaming pl
           | Ok false => Ready streaming pl
           end
  end.
(** Source: core/src/handlers.rs 3233-3265 (handle_rebuild_from_wal) *)
Definition step_ready (streaming : bool) (pl : plan) (s : rebuild_state DB) : phase * rebuild_state DB :=
  if negb (pl_dry pl) && busy s then (Ended (Err (busy_error s)), s)
  else if streaming || pl_dry pl then (Streaming pl, s)
  else match register_job s with
       | inl existing => (Ended (Ok (Started existing)), s)
       | inr (id, s) => (InJob id pl, s)
       end.
(** One step of one request. *)
Definition call_step (ph : phase) (s : rebuild_state DB) : phase * rebuild_state DB :=
  match ph with
  | Asked streaming p => (step_asked streaming p s, s)
  | Clearing streaming pl =>
      match clear_group_for_rebuild (pl_group pl) (pl_dir pl) s with
      | (Err x, s) => (Ended (Err x), s)
      | (Ok _, s) => (Ready streaming pl, s)
      end
  | Ready streaming pl => step_ready streaming pl s
  | Streaming pl => let '(r, s) := run_locked pl s in (Ended (rmap Report r), s)
  | InJob id pl => let '(r, s) := run_locked pl s in (JobEnding id pl r, s)
  | JobEnding id pl r => (Ended (Ok (Started id)), finish_job id r s)
  | Ended a => (Ended a, s)
  end.
(** Source: core/src/handlers.rs 3779-3806 (handle_rebuild_status) *)
Definition handle_rebuild_status (p : value) (s : rebuild_state DB) : result Error (option RebuildJob) :=
  match as_str (param "job_id" p) with
  | Some (c :: id) => Ok (rs_jobs s !! (c :: id))
  | _ => Err (Ipc (Msg "job_id is required and must be non-empty" []))
  end.

(** The requests in progress, and the state they share. *)
Record system := { sy_state : rebuild_state DB; sy_calls : list phase }.
(** A request arrives, one in progress takes a step, or another part of the service changes what it
    shares with them, the jobs excepted. *)
Inductive system_step : system → system → Prop :=
| step_arrives streaming p s calls : system_step {| sy_state := s; sy_calls := calls |} {| sy_state := s; sy_calls := calls ++ [Asked streaming p] |}
| step_advances i ph s calls : calls !! i = Some ph →
    system_step {| sy_state := s; sy_calls := calls |} {| sy_state := (call_step ph s).2; sy_calls := <[i := (call_step ph s).1]> calls |}
| step_elsewhere s s' calls : rs_jobs s' = rs_jobs s → system_step {| sy_state := s; sy_calls := calls |} {| sy_state := s'; sy_calls := calls |}.
(** A schedule of requests, by number. *)
Definition run_schedule (schedule : list nat) (y : system) : system :=
  foldl (λ y i, match sy_calls y !! i with
                | Some ph => let '(ph, s) := call_step ph (sy_state y) in {| sy_state := s; sy_calls := <[i := ph]> (sy_calls y) |}
                | None => y
                end) y schedule.
End rebuild.
