(* ===== verification/RebuildTheory.v ===== *)
(** * RebuildTheory: what rebuilding a group from its log promises

    At most one background run at a time; clearing a group empties it, leaves its own log alone and
    forgets its position; a run's position is the replay's; but a group can be cleared and then not
    replayed, and a reset is forgotten once the group was cleared for it. *)

From S2P Require Import Prelude Text Numbers Json WalGeneration WalScan Checkpoint WalGroup Wal LegacyWal Replay WalExec Recovery Pointer Prompts Graph CrossGroup CrossGroupTheory GroupPurge Assert MergeEntities Rebuild.

Section theory.
Context {U : Unicode} {AC : AttrCodec} {LP : LinePrinter} {SR : SeqReader} {GC : GenerationCodec}.
Context {RD : ReplayDeps} {DB : Db} {LGP : LegacyPatterns} {TB : Tables}.
Context (db_lower : str → str) (ts_text : N → str) (logged : str * gmut → flush_env * mutation).
Context (display : Error → str) (new_job_id : gmap str RebuildJob → str) (e : rebuild_env).

(** ** What each part leaves alone *)

Definition same_jobs (s s' : rebuild_state DB) : Prop := rs_jobs s' = rs_jobs s.
Lemma flush_buckets_jobs grouped s : same_jobs s (flush_buckets logged e grouped s).
Proof.
  unfold flush_buckets, same_jobs. generalize (map_to_list grouped) as l. intros l. revert s. induction l as [|[gid ms] l IH]; intros s; [done|]. cbn [foldl].
  destruct (wal_flush_ungrouped _ _ _ _) as [seq w]. by rewrite IH.
Qed.
Lemma clear_jobs gid dir s : same_jobs s (clear_group_for_rebuild db_lower ts_text logged e gid dir s).2.
Proof.
  unfold clear_group_for_rebuild, same_jobs. destruct (purge_groups _ _ _ _ _ _ _) as [[c grouped] g]. cbv zeta.
  destruct (set_wal_position _ _ _ _ _ _) as [r p]. cbn. by rewrite flush_buckets_jobs.
Qed.
Lemma persist_jobs pl st s : same_jobs s (persist_rebuilt db_lower ts_text logged e pl st s).2.
Proof.
  unfold persist_rebuilt, same_jobs. destruct (last_committed_seq st) as [seq|]; [|done]. destruct (set_wal_position _ _ _ _ _ _) as [[u|x] p]; [|done].
  unfold rebind_after_reset. destruct (pl_reset pl); [|done]. destruct (rebind_pointers _ _ _ _ _ _) as [[c grouped] g]. cbn. by rewrite flush_buckets_jobs.
Qed.
Lemma run_locked_jobs pl s : same_jobs s (run_locked db_lower ts_text logged e pl s).2.
Proof.
  unfold run_locked, replay_group, same_jobs. destruct (replay_opts _ _ _ _) as [[st|x] c]; [|by destruct (pl_dry pl)]. destruct (pl_dry pl) eqn:Hd; [done|].
  destruct (rv_indexes _ _) as [b c']. destruct (resync_global_seq_after_rebuild _ _ _ _) as [ok w].
  destruct (persist_rebuilt _ _ _ _ _ _ _) as [rb s'] eqn:Hp. cbn. pose proof (persist_jobs pl st (with_wal w (with_conn c' (with_indices false s)))) as H. unfold same_jobs in H. rewrite Hp in H. exact H.
Qed.

(** ** Jobs *)

Definition works_on (id : str) (ph : phase) : Prop := match ph with InJob i _ => i = id | JobEnding i _ _ => i = id | _ => False end.
Definition running (jobs : gmap str RebuildJob) (id : str) : Prop := job_status <$> jobs !! id = Some Running.
(** The calls that work on a job: a job that runs has exactly one, and there is at most one in all. *)
Record jobs_owned (y : system) : Prop := {
  jo_owner : ∀ id, running (rs_jobs (sy_state y)) id → ∃ i ph, sy_calls y !! i = Some ph ∧ works_on id ph;
  jo_runs : ∀ id i ph, sy_calls y !! i = Some ph → works_on id ph → running (rs_jobs (sy_state y)) id;
  jo_one : ∀ i j id id' ph ph', sy_calls y !! i = Some ph → sy_calls y !! j = Some ph' → works_on id ph → works_on id' ph' → i = j;
}.
Lemma running_job_spec jobs id : running_job jobs = Some id → running jobs id.
Proof.
  unfold running_job, running. intros ([i j] & Hin & H)%find_first_Some. apply elem_of_map_to_list in Hin. case_bool_decide as Hs; [|done]. injection H as <-. rewrite Hin. cbn. by rewrite Hs.
Qed.
Lemma running_job_none jobs id : running_job jobs = None → ¬ running jobs id.
Proof.
  unfold running_job, running. intros Hn. destruct (jobs !! id) as [j|] eqn:Hj; [|done]. intros [= Hs]. rewrite find_first_omap in Hn.
  assert (id ∈ omap (λ '(id, j), if bool_decide (job_status j = Running) then Some id else None) (map_to_list jobs)) as Hin.
  { apply list_elem_of_omap. exists (id, j). split; [by apply elem_of_map_to_list|by rewrite bool_decide_eq_true_2]. }
  destruct (omap _ _); [by apply elem_of_nil in Hin|done].
Qed.
(** A step that neither enters nor leaves a job, and leaves the jobs alone. *)
Lemma owned_kept i ph ph' s s' calls : calls !! i = Some ph → rs_jobs s' = rs_jobs s → (∀ id, works_on id ph' ↔ works_on id ph) →
  jobs_owned {| sy_state := s; sy_calls := calls |} → jobs_owned {| sy_state := s'; sy_calls := <[i := ph']> calls |}.
Proof.
  intros Hi Hj Hw [H1 H2 H3]. cbn in *. assert (Hlen : (i < length calls)%nat) by (by eapply lookup_lt_Some).
  assert (∀ k x, <[i := ph']> calls !! k = Some x → ∃ x', calls !! k = Some x' ∧ ∀ id, works_on id x ↔ works_on id x') as Hback.
  { intros k x Hk. destruct (decide (i = k)) as [<-|Hne]; [rewrite list_lookup_insert_eq in Hk by done; injection Hk as <-; by exists ph|]. rewrite list_lookup_insert_ne in Hk by done. by exists x. }
  split; cbn.
  - intros id Hr. rewrite Hj in Hr. destruct (H1 id Hr) as (k & x & Hk & Hx). destruct (decide (i = k)) as [<-|Hne].
    + exists i, ph'. rewrite list_lookup_insert_eq by done. split; [done|]. apply Hw. congruence.
    + exists k, x. by rewrite list_lookup_insert_ne.
  - intros id k x Hk Hx. rewrite Hj. destruct (Hback k x Hk) as (x' & Hk' & Hx'). eapply H2; [exact Hk'|by apply Hx'].
  - intros k l id id' x x' Hk Hl Hx Hx'. destruct (Hback k x Hk) as (z & Hz & Hzx), (Hback l x' Hl) as (z' & Hz' & Hzx'). eapply H3; [exact Hz|exact Hz'|by apply Hzx|by apply Hzx'].
Qed.
Lemma owned_step y y' : system_step db_lower ts_text logged display new_job_id e y y' → jobs_owned y → jobs_owned y'.
Proof.
  intros Hstep Hy. destruct Hstep as [streaming p s calls|i ph s calls Hi|s s' calls Hj].
  - destruct Hy as [H1 H2 H3]. cbn in *.
    assert (∀ k x id, (calls ++ [Asked streaming p]) !! k = Some x → works_on id x → calls !! k = Some x) as Hold.
    { intros k x id Hk Hx. apply lookup_app_Some in Hk as [?|[_ Hk]]; [done|]. apply list_lookup_singleton_Some in Hk as [_ <-]. done. }
    split; cbn.
    + intros id Hr. destruct (H1 id Hr) as (k & x & Hk & Hx). exists k, x. split; [by apply lookup_app_l_Some|done].
    + intros id k x Hk Hx. apply (H2 id k x); [by apply (Hold k x id)|done].
    + intros k l id id' x x' Hk Hl Hx Hx'. apply (H3 k l id id' x x'); [by apply (Hold k x id)|by apply (Hold l x' id')|done|done].
  - destruct ph as [streaming p|streaming pl|streaming pl|pl|id pl|id pl r|a]; cbn [call_step].
    + unfold step_asked. destruct (rebuild_plan e p s) as [pl|x]; [|by eapply owned_kept]. destruct (pl_reset pl && pl_dry pl); [by eapply owned_kept|].
      destruct (clear_needed pl s) as [[]|x]; by eapply owned_kept.
    + pose proof (clear_jobs (pl_group pl) (pl_dir pl) s) as Hc. destruct (clear_group_for_rebuild _ _ _ _ _ _ _) as [[u|x] s']; by eapply owned_kept.
    + unfold step_ready. destruct (negb (pl_dry pl) && busy s); [by eapply owned_kept|]. destruct (streaming || pl_dry pl); [by eapply owned_kept|].
      unfold register_job. destruct (running_job (rs_jobs s)) as [id|] eqn:Hr; [by eapply owned_kept|].
      set (id := new_job_id (rs_jobs s)). destruct Hy as [H1 H2 H3]. cbn in *. assert (Hlen : (i < length calls)%nat) by (by eapply lookup_lt_Some).
      assert (∀ k x id', calls !! k = Some x → ¬ works_on id' x) as Hnone.
      { intros k x id' Hk Hx. by apply (running_job_none _ id' Hr), (H2 id' k x). }
      assert (∀ k x id', <[i := InJob id pl]> calls !! k = Some x → works_on id' x → k = i ∧ id' = id) as Hnew.
      { intros k x id' Hk Hx. destruct (decide (i = k)) as [<-|Hne]; [rewrite list_lookup_insert_eq in Hk by done; injection Hk as <-; by cbn in Hx|].
        rewrite list_lookup_insert_ne in Hk by done. by destruct (Hnone k x id' Hk). }
      split; cbn.
      * intros id' Hr'. unfold running in Hr'. destruct (decide (id = id')) as [<-|Hne]; [exists i, (InJob id pl); by rewrite list_lookup_insert_eq|].
        rewrite lookup_insert_ne in Hr' by done. by apply running_job_none with (id := id') in Hr.
      * intros id' k x Hk Hx. destruct (Hnew k x id' Hk Hx) as [-> ->]. unfold running. by rewrite lookup_insert_eq.
      * intros k l id1 id2 x x' Hk Hl Hx Hx'. destruct (Hnew _ _ _ Hk Hx) as [-> _], (Hnew _ _ _ Hl Hx') as [-> _]. done.
    + pose proof (run_locked_jobs pl s) as Hc. destruct (run_locked _ _ _ _ _ _) as [r s']. by eapply owned_kept.
    + pose proof (run_locked_jobs pl s) as Hc. destruct (run_locked _ _ _ _ _ _) as [r s']. by eapply owned_kept.
    + destruct Hy as [H1 H2 H3]. cbn in *. assert (Hlen : (i < length calls)%nat) by (by eapply lookup_lt_Some).
      assert (running (rs_jobs s) id) as Hrun by (by eapply H2). unfold finish_job. unfold running in Hrun. destruct (rs_jobs s !! id) as [j|] eqn:Hj; [|done].
      set (j' := match r with Ok _ => _ | Err _ => _ end). assert (job_status j' ≠ Running) as Hj' by (unfold j'; by destruct r).
      assert (∀ k x id', <[i := Ended (Ok (Started id))]> calls !! k = Some x → works_on id' x → False) as Hnew.
      { intros k x id' Hk Hx. destruct (decide (i = k)) as [<-|Hne]; [rewrite list_lookup_insert_eq in Hk by done; injection Hk as <-; done|].
        rewrite list_lookup_insert_ne in Hk by done. apply Hne. by eapply H3. }
      split; cbn.
      * intros id' Hr'. exfalso. unfold running in Hr'. destruct (decide (id = id')) as [<-|Hne]; [rewrite lookup_insert_eq in Hr'; by injection Hr'|].
        rewrite lookup_insert_ne in Hr' by done. destruct (H1 id' Hr') as (k & x & Hk & Hx). assert (k = i) as -> by (by eapply H3). rewrite Hi in Hk. injection Hk as <-. by cbn in Hx.
      * intros id' k x Hk Hx. by destruct (Hnew k x id' Hk).
      * intros k l id1 id2 x x' Hk Hl Hx Hx'. by destruct (Hnew k x id1 Hk).
    + by eapply owned_kept.
  - destruct Hy as [H1 H2 H3]. split; cbn in *; unfold running in *; rewrite ?Hj; done.
Qed.

End theory.

(** ** Clearing a group *)

Section clearing.
Context {U : Unicode} {AC : AttrCodec} {AL : AttrCodecLaws} {LP : LinePrinter} {SR : SeqReader} {GC : GenerationCodec}.
Context {RD : ReplayDeps} {DB : Db} {LGP : LegacyPatterns} {TB : Tables} {TL : TablesLaws}.
Context (db_lower : str → str) (ts_text : N → str) (logged : str * gmut → flush_env * mutation) (e : rebuild_env).
(** The compact printer quotes every key. *)
Context (print_key : ∀ m, POINTERS_KEY ∈ keys m → contains key_mark (json_print (VObject m)) = true).

(** Flushing other groups' buckets leaves a group's directory, generation and position alone. *)
Lemma flush_one_elsewhere gid dir k ms s : dirs_own (rs_wal s) → wf_str gid → wf_str k → gid ≠ k → encode_group_dir_name gid = Ok dir →
  let '(seq, w) := wal_flush_ungrouped (rv_open e) k ms (rs_wal s) in
  dirs_own w ∧ wa_dirs w !! dir = wa_dirs (rs_wal s) !! dir ∧ wa_gens w !! dir = wa_gens (rs_wal s) !! dir.
Proof.
  intros Ho Hg Hk Hne He. unfold wal_flush_ungrouped. destruct ms as [|m ms]; [done|].
  destruct (with_wal_writer _ _ _ _) as [r w] eqn:Hw. apply (writer_isolation _ k gid dir) in Hw as (H1 & _ & H2 & H3); done.
Qed.
Lemma flush_elsewhere gid dir grouped s : dirs_own (rs_wal s) → wf_str gid → (∀ k, is_Some (grouped !! k) → wf_str k) → encode_group_dir_name gid = Ok dir → grouped !! gid = None →
  let s' := flush_buckets logged e grouped s in
  dirs_own (rs_wal s') ∧ wa_dirs (rs_wal s') !! dir = wa_dirs (rs_wal s) !! dir ∧ wa_gens (rs_wal s') !! dir = wa_gens (rs_wal s) !! dir ∧
  rs_positions s' !! gid = rs_positions s !! gid ∧ rs_conn s' = rs_conn s ∧ rs_indices_built s' = rs_indices_built s.
Proof.
  intros Ho Hg Hks He Hn. cbv zeta. unfold flush_buckets. assert (∀ k ms, (k, ms) ∈ map_to_list grouped → wf_str k ∧ gid ≠ k) as Hl.
  { intros k ms Hin%elem_of_map_to_list. split; [apply Hks; by exists ms|congruence]. }
  revert s Ho. induction (map_to_list grouped) as [|[k ms] l IH]; intros s Ho; [done|]. cbn [foldl]. destruct (Hl k ms) as [Hk Hne]; [by left|].
  pose proof (flush_one_elsewhere gid dir k (logged <$> ms) s Ho Hg Hk Hne He) as H. destruct (wal_flush_ungrouped _ _ _ _) as [seq w]. destruct H as (H1 & H2 & H3).
  destruct (IH (λ k ms Hin, Hl k ms (list_elem_of_further _ _ _ Hin)) (with_positions (advance_wal_position (rv_set_ok e k) k seq (rv_identity e) (rs_positions s)) (with_wal w s))) as (G1 & G2 & G3 & G4 & G5 & G6); [exact H1|].
  cbn in *. split_and!; [done|congruence|congruence| |done|done]. rewrite G4. unfold advance_wal_position, set_wal_position. destruct seq as [[q gen]|]; [|done]. destruct (rv_set_ok e k); [|done]. cbn. by rewrite lookup_insert_ne.
Qed.

#[local] Opaque purge_groups.
Definition purge_of (gid : str) (s : rebuild_state DB) : GroupedMutations * graph :=
  let '(_, grouped, g) := purge_groups db_lower ts_text (applied_of (rs_positions s)) [gid] (rv_ts e) false (fresh_connection (tables (rv_drop_fts e (rs_conn s)))) in (grouped, g).
(** What clearing asks of the state: proper rows, each writer on its own directory, and groups named
    by text. *)
Record clearable (gid dir : str) (s : rebuild_state DB) : Prop := {
  cl_rels : NoDup (rn_uuid <$> g_rels (tables (rv_drop_fts e (rs_conn s))));
  cl_hops : Forall hop_ok (g_rels (tables (rv_drop_fts e (rs_conn s))));
  cl_ents : ents_ok (tables (rv_drop_fts e (rs_conn s)));
  cl_writers : dirs_own (rs_wal s);
  cl_name : wf_str gid;
  cl_dir : encode_group_dir_name gid = Ok dir;
  cl_buckets : ∀ k, is_Some ((purge_of gid s).1 !! k) → wf_str k;
}.
Lemma clear_elsewhere gid dir s r s' : clearable gid dir s → clear_group_for_rebuild db_lower ts_text logged e gid dir s = (r, s') →
  wa_dirs (rs_wal s') !! dir = wa_dirs (rs_wal s) !! dir ∧ wa_gens (rs_wal s') !! dir = wa_gens (rs_wal s) !! dir ∧
  tables (rs_conn s') = (purge_of gid s).2 ∧ rs_indices_built s' = false ∧
  rs_positions s' !! gid = if is_ok r then Some {| row_seq := 0; row_generation := read_generation (wa_gens (rs_wal s) !! dir); row_model := None; row_dim := None |} else rs_positions s !! gid.
Proof.
  intros [_ _ _ Hw Hg Hd Hb]. unfold clear_group_for_rebuild, purge_of in *. destruct (purge_groups _ _ _ _ _ _ _) as [[c grouped] g]. cbv zeta. cbn [fst snd] in *.
  assert (∀ k, is_Some (base.delete gid grouped !! k) → wf_str k) as Hks.
  { intros k [ms Hk%lookup_delete_Some]. apply Hb. exists ms. tauto. }
  set (s1 := with_conn _ _). assert (rs_wal s1 = rs_wal s) as W1 by reflexivity. assert (rs_positions s1 = rs_positions s) as W2 by reflexivity.
  assert (tables (rs_conn s1) = g) as W3 by apply tables_put. assert (rs_indices_built s1 = false) as W4 by reflexivity. clearbody s1.
  destruct (flush_elsewhere gid dir (base.delete gid grouped) s1) as (H1 & H2 & H3 & H4 & H5 & H6); [by rewrite W1|done|done|done|apply lookup_delete_eq|].
  set (s2 := flush_buckets _ _ _ _) in *. clearbody s2. rewrite W1, W2 in *. unfold set_wal_position.
  destruct (rv_set_ok e gid); cbn [negb]; intros [= <- <-]; cbn [with_positions rs_wal rs_conn rs_indices_built rs_positions is_ok].
  - rewrite lookup_insert_eq, H5. split_and!; [exact H2|exact H3|exact W3|congruence|reflexivity].
  - rewrite H5. split_and!; [exact H2|exact H3|exact W3|congruence|exact H4].
Qed.
Lemma no_rows {A} (f : A → str) gid l : gid ∉ f <$> l → List.filter (λ x, bool_decide (f x ∈ [gid])) l = [].
Proof.
  induction l as [|x l IH]; [done|]. rewrite fmap_cons. intros [Hx Hl]%not_elem_of_cons. cbn [List.filter]. rewrite bool_decide_eq_false_2; [by apply IH|]. rewrite list_elem_of_singleton. congruence.
Qed.
Lemma outside_group {A} (f : A → str) gid l : gid ∉ f <$> outside f [gid] l.
Proof.
  intros (x & -> & Hx)%list_elem_of_fmap. unfold outside in Hx. apply list_elem_of_In, filter_In in Hx as [_ Hx]. rewrite negb_true_iff, bool_decide_eq_false in Hx. apply Hx. by apply list_elem_of_singleton.
Qed.


(** Clearing a group for a reset records the new generation, so a request that follows, should the
    replay have failed or never begun, sees no reset: it will not bind again the pointers that the
    clearing has let go, whatever it replays. *)
Theorem reset_is_forgotten (gid dir : str) (s s' s2 : rebuild_state DB) (p : value) (pl : plan) (Hs : clearable gid dir s)
    (Hclear : clear_group_for_rebuild db_lower ts_text logged e gid dir s = (Ok tt, s')) (Hgen : read_generation (wa_gens (rs_wal s) !! dir) ≠ Some [])
    (Hplan : rebuild_plan e p s' = Ok pl) (Hgroup : pl_group pl = gid) :
  pl_reset pl = false ∧ rebind_after_reset db_lower ts_text logged e pl s2 = (None, s2).
Proof.
  pose proof (clear_elsewhere _ _ _ _ _ Hs Hclear) as (_ & H2 & _ & _ & H5). destruct Hs as [_ _ _ _ _ Hd _]. cbn [is_ok] in H5.
  enough (pl_reset pl = false) as Hr by (split; [done|unfold rebind_after_reset; by rewrite Hr]). revert Hplan. unfold rebuild_plan.
  destruct (validate_from_seq _) as [from|]; [|done]. cbn [rbind]. destruct (validate_to_seq _) as [to|]; [|done]. cbn [rbind]. destruct (match to with Some _ => _ | None => _ end); [done|].
  destruct (resolve_group_wal_dir _ _) as [d|] eqn:Hdir; [|done]. cbn [rbind]. destruct (negb (has_jsonl_files _)); [done|].
  unfold get_wal_position. destruct (rv_get_ok e); [|done]. cbn [negb rbind].
  destruct (bool_decide _ && bool_decide _); [done|]. intros [= <-]. cbn in Hgroup. rewrite Hgroup in *. cbn [pl_reset].
  assert (d = dir) as ->.
  { unfold resolve_group_wal_dir in Hdir. destruct (wa_root _); [|done]. rewrite Hd in Hdir. cbn [rbind] in Hdir. destruct (check_no_case_insensitive_collision _ _); [|done]. by injection Hdir. }
  rewrite H5. cbn [applied_seq wp_generation row_seq row_generation]. rewrite H2. unfold position_reset_detected.
  destruct (read_generation (wa_gens (rs_wal s) !! dir)) as [[|c g]|] eqn:Hg; [done| |]; cbn [value_as_optional_string].
  - rewrite (bool_decide_eq_false_2 (Some (c :: g) ≠ _)) by (intros H; by apply H). by rewrite andb_false_r.
  - by rewrite (bool_decide_eq_false_2 (is_Some None)), andb_false_r by (by intros [? ?]).
Qed.

(** ** The position a run leaves *)

(** C17. After a run that was not for a reset, the group's position says what the replay committed last,
    under the generation read when the request was made, and names the embedder only if every
    recompute succeeded; when nothing was committed, or the run failed, it is as before, and no
    other group's position changes.  And a writer that was open numbers its next line above
    everything the replay has committed. *)
Theorem rebuilt_position_exact (pl : plan) (s s' : rebuild_state DB) (r : result Error rebuild_report) (Hdry : pl_dry pl = false) (Hreset : pl_reset pl = false)
    (Hrun : replay_group db_lower ts_text logged e pl s = (r, s')) :
  (rs_positions s' = match r with
                     | Ok rep =>
                         match last_committed_seq (rp_stats rep) with
                         | Some seq =>
                             if rv_set_ok e (pl_group pl) then
                               <[pl_group pl := {| row_seq := as_i64 seq; row_generation := pl_generation pl;
                                                   row_model := if embeddings_recompute_had_no_failures (rp_stats rep) then Some (rv_identity e).1 else None;
                                                   row_dim := if embeddings_recompute_had_no_failures (rp_stats rep) then Some (rv_identity e).2 else None |}]> (rs_positions s)
                             else rs_positions s
                         | None => rs_positions s
                         end
                     | Err _ => rs_positions s
                     end) ∧
  (∀ dir w d rep seq, opened (rs_wal s) (pl_group pl) dir w d → r = Ok rep → last_committed_seq (rp_stats rep) = Some seq → (seq < u64_max)%N →
    ∃ w', wa_writers (rs_wal s') !! pl_group pl = Some (dir, w') ∧ (seq < global_seq w')%N ∧ (global_seq w <= global_seq w')%N).
Proof.
  revert Hrun. unfold replay_group. rewrite Hdry. destruct (replay_opts _ _ _ _) as [[st|x] c]; [|intros [= <- <-]; split; [done|by intros]].
  destruct (rv_indexes _ _) as [b c']. destruct (resync_global_seq_after_rebuild _ _ _ _) as [ok w1] eqn:Hres.
  assert (∀ st0 : rebuild_state DB, (persist_rebuilt db_lower ts_text logged e pl st st0) =
    (None, with_positions (match last_committed_seq st with
                           | Some seq => (set_wal_position (rv_set_ok e (pl_group pl)) (pl_group pl) seq (pl_generation pl)
                                            (if embeddings_recompute_had_no_failures st then Some (rv_identity e) else None) (rs_positions st0)).2
                           | None => rs_positions st0 end) st0)) as Hp.
  { intros st0. unfold persist_rebuilt, rebind_after_reset, set_wal_position. rewrite Hreset. destruct (last_committed_seq st) as [seq|]; [|by destruct st0]. by destruct (rv_set_ok e (pl_group pl)); [|destruct st0]. }
  rewrite Hp. intros [= <- <-]. cbn [rp_stats with_wal with_positions rs_positions rs_wal with_conn]. split.
  { unfold set_wal_position. destruct (last_committed_seq st) as [seq|]; [|done]. destruct (rv_set_ok e (pl_group pl)); [|done]. cbn [negb snd]. by destruct (embeddings_recompute_had_no_failures st). }
  intros dir w d rep seq Hop [= <-] Hseq Hlt. cbn [rp_stats] in Hseq. rewrite Hseq in Hres.
  unfold resync_global_seq_after_rebuild in Hres. rewrite (with_opened _ _ dir w d) in Hres by done.
  destruct (resync_global_seq (oe_window (rv_open e)) (Some seq) w (Some d)) as [rr w2] eqn:Hr. injection Hres as <- <-.
  assert (seq < global_seq w2 ∧ global_seq w <= global_seq w2)%N as Hw2.
  { apply (f_equal snd) in Hr. cbn in Hr. subst w2. unfold resync_global_seq, sat_add64. destruct (scan_max_seq _ _); cbn; lia. }
  assert (opened (set_group (pl_group pl) dir w2 d [] (rs_wal s)) (pl_group pl) dir w2 d) as Hop2.
  { destruct Hop as (? & ? & ? & ?). split_and!; [done|done|apply lookup_insert_eq|apply lookup_insert_eq]. }
  unfold drop_resync_guard. destruct rr as [u|x]; cbn [is_ok default from_option]; unfold id; [exists w2; split; [apply lookup_insert_eq|done]|].
  unfold resync_global_seq_after_rebuild. rewrite (with_opened _ _ dir w2 d) by done.
  destruct (resync_global_seq (oe_window (rv_open e)) None w2 (Some d)) as [rr3 w3] eqn:Hr3. cbn [snd]. exists w3. split; [apply lookup_insert_eq|].
  apply (f_equal snd) in Hr3. cbn in Hr3. subst w3. revert Hw2. clear. intros Hw2. unfold resync_global_seq. destruct (scan_max_seq _ _); cbn; lia.
Qed.
End clearing.

(** ** Concrete services *)

(** An engine whose connection is its tables: statements succeed and change nothing. *)
Definition PlainDb : Db := {|
  conn := graph; stmt := str; prepare _ t := Ok t; execute_prepared c _ _ := (Ok tt, c);
  execute_prepared_returning_count c _ _ := (Ok 1%Z, c); exec_transaction_control _ c := (Ok tt, c) |}.
Definition PlainTables : @Tables PlainDb := @Build_Tables PlainDb (λ c, c) (λ g _, g).
Global Instance PlainTablesLaws : @TablesLaws PlainDb PlainTables.
Proof. by split. Qed.
(** A line is its statement; its length is its sequence number. *)
Definition LengthDeps : ReplayDeps := {|
  parse_wal_line raw := Some {| wl_seq := N.of_nat (length raw); wl_ts := []; wl_db := []; wl_cypher := raw; wl_params := VObject [] |};
  f32 := N; number_of_f32 n := Some (PosInt n) |}.
Definition NoLegacy : LegacyPatterns := {| find_vector_literal _ _ := None; find_bulk_sets s := ([], s); parse_json _ := None |}.
Definition plain_options : @ReplayOptions LengthDeps := {|
  from_seq := 0; to_seq := None; dry_run := false; progress_fn := None; cancel_fn := None; failure_sample_cap := None; batch_size := None; embed_window_size := None;
  recompute_embed_fn _ _ := Err io_err; recompute_embed_dim := 3 |}.
Definition plain_env : @rebuild_env LengthDeps PlainDb := {|
  rv_open := toy_open; rv_identity := (#"m", 3%Z); rv_ts := #"now"; rv_options := plain_options;
  rv_replay := {| env_batch_size := None; env_embed_window_size := None; env_failure_samples := None; env_threshold := f64_of_N 0 |};
  rv_get_ok := true; rv_set_ok _ := true; rv_drop_fts c := c; rv_drop_vectors c := c; rv_backfills c := c; rv_lookup_key_ok _ := true; rv_indexes c := (Ok tt, c) |}.
Definition one_log : list wfile := [WFile #"a.jsonl" (Some (#"CREATE (n)" ++ [10%N]))].
Definition two_groups : wal_app := {|
  wa_root := Some (Root [REntry (Some #"S") true; REntry (Some #"L") true]); wa_poisoned := false; wa_writers := {[ #"S" := (#"S", toy_writer 2 0 None 0 0) ]};
  wa_dirs := {[ #"S" := one_log; #"L" := one_log ]}; wa_gens := {[ #"S" := #"new"; #"L" := #"old" ]}; wa_max_events := 10; wa_max_bytes := 0; wa_rotations := [] |}.
(** The group S was last replayed from a log of another generation; L has a pointer into it. *)
Definition two_state : rebuild_state PlainDb := {|
  rs_conn := toy_bound : @conn PlainDb; rs_wal := two_groups;
  rs_positions := {[ #"S" := {| row_seq := 7; row_generation := Some #"old"; row_model := None; row_dim := None |} ]};
  rs_indices_built := true; rs_jobs := ∅; rs_active_writes := 0 |}.
Definition plain_call := @call_step AsciiUnicode KeyAttrs ToyPrinter ToyReader PlainCodec LengthDeps PlainDb NoLegacy PlainTables toy_lower toy_ts (λ _, (toy_env FlushOk, toy_mut)) (λ _, []).
Definition plain_schedule (schedule : list nat) (calls : list value) : system :=
  @run_schedule AsciiUnicode KeyAttrs ToyPrinter ToyReader PlainCodec LengthDeps PlainDb NoLegacy PlainTables toy_lower toy_ts (λ _, (toy_env FlushOk, toy_mut)) (λ _, []) (λ _, #"job") plain_env
    schedule {| sy_state := two_state; sy_calls := Asked false <$> calls |}.
Definition rebuild_request (group : string) (from : N) : value := VObject [(#"group_id", VString (lit group)); (#"from_seq", VNumber (PosInt from))].

(** A request alone: a reset is found, the group is cleared and replayed, and the job ends. *)
Example reset_replays : let y := plain_schedule [0; 0; 0; 0; 0]%nat [rebuild_request "S" 5] in
  (job_status <$> rs_jobs (sy_state y) !! #"job") = Some Completed ∧ (rs_positions (sy_state y) !! #"S") = Some {| row_seq := 10; row_generation := Some #"new"; row_model := Some #"m"; row_dim := Some 3%Z |}.
Proof. vm_compute. auto. Qed.

(** A request for S comes while a run for L is registered.  S, whose log is of another generation,
    is cleared without having been asked to be; then the request is answered with the run for L,
    and nothing replays S: its entity is gone. *)
Theorem cleared_but_not_replayed :
  let y := plain_schedule [0; 0; 1; 1; 1; 0; 0]%nat [rebuild_request "L" 1; rebuild_request "S" 5] in
  group_has_data #"S" (rs_conn two_state) = true ∧ group_has_data #"S" (rs_conn (sy_state y)) = false ∧
  (∃ id, sy_calls y = [Ended (Ok (Started id)); Ended (Ok (Started id))] ∧
         (pl_group ∘ rp_plan <$> (rs_jobs (sy_state y) !! id ≫= job_result)) = Some #"L" ∧ (job_status <$> rs_jobs (sy_state y) !! id) = Some Completed).
Proof. cbv zeta. split; [vm_compute; reflexivity|]. split; [vm_compute; reflexivity|]. exists #"job". vm_compute. auto. Qed.

Abbreviation plain_clear := (@clear_group_for_rebuild AsciiUnicode KeyAttrs ToyPrinter ToyReader PlainCodec LengthDeps PlainDb PlainTables toy_lower toy_ts (λ _, (toy_env FlushOk, toy_mut)) plain_env).
Lemma two_clearable : @clearable AsciiUnicode KeyAttrs LengthDeps PlainDb PlainTables toy_lower toy_ts plain_env #"S" #"S" two_state.
Proof.
  split.
  - apply NoDup_singleton.
  - exact toy_bound_hops.
  - exact (toy_ents_ok true).
  - intros gid dir w H. cbn [two_state rs_wal two_groups wa_writers] in H. apply lookup_singleton_Some in H as [<- [= <- <-]]. reflexivity.
  - by apply ascii_wf.
  - reflexivity.
  - intros k [ms Hk]. assert (k ∈ (map_to_list (@purge_of AsciiUnicode KeyAttrs LengthDeps PlainDb PlainTables toy_lower toy_ts plain_env #"S" two_state).1).*1) as Hin.
    { apply list_elem_of_fmap. exists (k, ms). split; [done|]. by apply elem_of_map_to_list. }
    clear Hk ms. revert Hin. match goal with |- k ∈ ?l → _ => replace l with [ #"S"; #"L" ] by (vm_compute; reflexivity) end.
    intros [->|[->|[]%elem_of_nil]%elem_of_cons]%elem_of_cons; by apply ascii_wf.
Qed.
Definition one_plan : plan :=
  {| pl_group := #"S"; pl_dir := #"S"; pl_from := 1; pl_to := None; pl_dry := false; pl_force := false; pl_reset := false; pl_previous := None; pl_generation := Some #"new" |}.
Abbreviation plain_replay := (@replay_group AsciiUnicode KeyAttrs ToyPrinter ToyReader PlainCodec LengthDeps PlainDb NoLegacy PlainTables toy_lower toy_ts (λ _, (toy_env FlushOk, toy_mut)) plain_env).
Lemma rebuilt_position_exact_witness :
  rs_positions (plain_replay one_plan two_state).2 !! #"S" = Some {| row_seq := 10; row_generation := Some #"new"; row_model := Some #"m"; row_dim := Some 3%Z |} ∧
  ∃ w', wa_writers (rs_wal (plain_replay one_plan two_state).2) !! #"S" = Some (#"S", w') ∧ (10 < global_seq w')%N.
Proof.
  assert (match (plain_replay one_plan two_state).1 with
          | Ok rep => (last_committed_seq (rp_stats rep), embeddings_recompute_had_no_failures (rp_stats rep)) | Err _ => (None, false) end = (Some 10%N, true)) as Hv by (vm_compute; reflexivity).
  destruct (plain_replay one_plan two_state) as [r s'] eqn:Hrun. cbn [fst snd] in *.
  destruct (@rebuilt_position_exact AsciiUnicode KeyAttrs ToyPrinter ToyReader PlainCodec LengthDeps PlainDb NoLegacy PlainTables toy_lower toy_ts
    (λ _, (toy_env FlushOk, toy_mut)) plain_env one_plan two_state s' r eq_refl eq_refl Hrun) as [H1 H2]. clear Hrun.
  destruct r as [rep|x]; [|discriminate Hv]. apply pair_equal_spec in Hv as [Hs He]. split.
  - rewrite H1, Hs, He. vm_compute. reflexivity.
  - destruct (H2 #"S" (toy_writer 2 0 None 0 0) one_log rep 10%N) as (w' & Hw & Hlt & _); [split; [by eexists|]; split; [done|]; split; vm_compute; reflexivity|reflexivity|exact Hs|reflexivity|].
    exists w'. split; [exact Hw|exact Hlt].
Defined.
