(* ===== verification/Mcp.v ===== *)
(** * Mcp: the tool surface and the two ways a tool call is executed (service/src/mcp/*,
    core/src/ipc.rs, core/src/handlers.rs: dispatch and handle, service/src/main.rs:
    handle_connection)

    A backend is a class: [StandaloneBackend] runs the dispatcher on the service's state,
    [AttachedBackend] writes one line to a socket and reads lines back.  The handlers behind the
    dispatcher are a class too; the files that model them are their instances.  A socket is what
    each write does and the lines it will deliver; after the last line it is silent.  A tool's
    schema keeps the required names; descriptions and property types are for the client.  Telemetry
    and a client that leaves in the middle of a streamed reply are left out. *)

From S2P Require Import Prelude Text Json Pointer.

(** ** Scopes *)

(** Source: service/src/mcp/scope.rs 9-14 (Scope) *)
Inductive Scope := Read | Write | Cypher | Admin.
Global Instance Scope_eq_dec : EqDecision Scope.
Proof. solve_decision. Defined.
Definition ALL_SCOPES : list Scope := [Read; Write; Cypher; Admin].

Definition push_unique (scopes : list Scope) (s : Scope) : list Scope :=
  if bool_decide (s ∈ scopes) then scopes else scopes ++ [s].
(** The scopes a token of the list stands for, [None] for an unknown one. *)
Definition scopes_of_token (tok : str) : option (list Scope) :=
  if bool_decide (tok = #"all") then Some ALL_SCOPES
  else if bool_decide (tok = #"read") then Some [Read]
  else if bool_decide (tok = #"write") then Some [Write]
  else if bool_decide (tok = #"cypher") then Some [Cypher]
  else if bool_decide (tok = #"admin") then Some [Admin] else None.
Fixpoint parse_tokens (toks : list str) (scopes : list Scope) : result msg (list Scope) :=
  match toks with
  | [] => Ok scopes
  | tok :: toks =>
      let tok := trim tok in
      if negb (nonempty tok) then parse_tokens toks scopes
      else match scopes_of_token tok with
           | Some l => parse_tokens toks (foldl push_unique scopes l)
           | None => Err (Msg "unknown scope '{other}'; valid values: read, write, cypher, admin, all" [AStr tok])
           end
  end.
(** Source: service/src/mcp/scope.rs 23-62 (Scope::parse_list) *)
Definition parse_list (s : str) : result msg (list Scope) :=
  let? scopes := parse_tokens (split_on (N.eqb 44) s) [] in
  match scopes with
  | [] => Err (Msg "--scope requires at least one scope value (read, write, cypher, admin, all)" [])
  | _ => Ok scopes
  end.

(** ** The registry *)

(** Source: service/src/mcp/tools.rs 22-27 (ToolSpec) *)
Record ToolSpec := { ts_name : str; ts_scope : Scope; ts_required : list str }.
(** Source: service/src/mcp/tools.rs 85-1397 (registry) *)
Definition registry : list ToolSpec :=
  [
    {| ts_name := #"knowledge_status"; ts_scope := Read; ts_required := [] |};
    {| ts_name := #"knowledge_find_entities"; ts_scope := Read; ts_required := [ #"query"] |};
    {| ts_name := #"knowledge_resolve_entity"; ts_scope := Read; ts_required := [ #"name"] |};
    {| ts_name := #"knowledge_find_relationships"; ts_scope := Read; ts_required := [ #"query"] |};
    {| ts_name := #"knowledge_get_episodes"; ts_scope := Read; ts_required := [] |};
    {| ts_name := #"knowledge_get_nodes_by_group"; ts_scope := Read; ts_required := [] |};
    {| ts_name := #"knowledge_get_edges_by_group"; ts_scope := Read; ts_required := [] |};
    {| ts_name := #"knowledge_get_edges_by_uuids"; ts_scope := Read; ts_required := [ #"uuids"] |};
    {| ts_name := #"knowledge_search_passages"; ts_scope := Read; ts_required := [ #"query"] |};
    {| ts_name := #"knowledge_list_entities"; ts_scope := Read; ts_required := [] |};
    {| ts_name := #"knowledge_list_relationships"; ts_scope := Read; ts_required := [] |};
    {| ts_name := #"knowledge_get_entity_neighbors"; ts_scope := Read; ts_required := [ #"entity_uuid"] |};
    {| ts_name := #"knowledge_get_entities_by_source"; ts_scope := Read; ts_required := [ #"source"] |};
    {| ts_name := #"knowledge_rebuild_status"; ts_scope := Read; ts_required := [ #"job_id"] |};
    {| ts_name := #"knowledge_validate_corrections"; ts_scope := Read; ts_required := [] |};
    {| ts_name := #"knowledge_process_chunk"; ts_scope := Write; ts_required := [ #"chunk_text"; #"chunk_id"; #"source_file"] |};
    {| ts_name := #"knowledge_add_episode"; ts_scope := Write; ts_required := [ #"name"; #"episode_body"] |};
    {| ts_name := #"knowledge_delete_episode"; ts_scope := Write; ts_required := [ #"episode_uuid"] |};
    {| ts_name := #"knowledge_delete_by_source"; ts_scope := Write; ts_required := [ #"source_file"; #"group_ids"] |};
    {| ts_name := #"knowledge_delete_chunk_episode"; ts_scope := Write; ts_required := [ #"chunk_id"; #"group_ids"] |};
    {| ts_name := #"knowledge_clear_all"; ts_scope := Write; ts_required := [ #"confirm"] |};
    {| ts_name := #"knowledge_apply_corrections"; ts_scope := Write; ts_required := [] |};
    {| ts_name := #"knowledge_merge_entities"; ts_scope := Write; ts_required := [] |};
    {| ts_name := #"knowledge_reprocess_entity_types"; ts_scope := Write; ts_required := [] |};
    {| ts_name := #"knowledge_canonicalize_relations"; ts_scope := Write; ts_required := [ #"group_id"] |};
    {| ts_name := #"knowledge_backfill_relation_types"; ts_scope := Write; ts_required := [ #"group_id"] |};
    {| ts_name := #"knowledge_backfill_summary_embeddings"; ts_scope := Admin; ts_required := [ #"group_id"] |};
    {| ts_name := #"knowledge_reprocess_relation_types"; ts_scope := Write; ts_required := [] |};
    {| ts_name := #"knowledge_add_cross_group_edge"; ts_scope := Write; ts_required := [ #"name"; #"source"; #"target"; #"fact"] |};
    {| ts_name := #"knowledge_assert_entity"; ts_scope := Write; ts_required := [ #"name"] |};
    {| ts_name := #"knowledge_assert_relationship"; ts_scope := Write; ts_required := [ #"source_name"; #"target_name"; #"predicate"] |};
    {| ts_name := #"knowledge_query_cypher"; ts_scope := Cypher; ts_required := [ #"query"] |};
    {| ts_name := #"knowledge_dump_wal"; ts_scope := Admin; ts_required := [] |};
    {| ts_name := #"knowledge_strip_wal_embeddings"; ts_scope := Admin; ts_required := [] |};
    {| ts_name := #"knowledge_prepare_checkpoint"; ts_scope := Admin; ts_required := [] |};
    {| ts_name := #"knowledge_wal_mark_create"; ts_scope := Admin; ts_required := [ #"name"] |};
    {| ts_name := #"knowledge_wal_mark_list"; ts_scope := Admin; ts_required := [] |};
    {| ts_name := #"knowledge_wal_mark_delete"; ts_scope := Admin; ts_required := [ #"name"] |};
    {| ts_name := #"knowledge_rebuild_from_wal"; ts_scope := Admin; ts_required := [] |};
    {| ts_name := #"knowledge_recover"; ts_scope := Admin; ts_required := [ #"strategy"] |};
    {| ts_name := #"knowledge_recover_full"; ts_scope := Admin; ts_required := [] |};
    {| ts_name := #"knowledge_close"; ts_scope := Admin; ts_required := [] |};
    {| ts_name := #"knowledge_build_indices"; ts_scope := Admin; ts_required := [] |};
    {| ts_name := #"knowledge_rebind_pointers"; ts_scope := Admin; ts_required := [ #"source_group_id"] |};
    {| ts_name := #"knowledge_delete_by_group"; ts_scope := Admin; ts_required := [ #"group_ids"] |};
    {| ts_name := #"knowledge_reload_ontology"; ts_scope := Admin; ts_required := [ #"group_id"] |}
  ].
(** The advertised schema, as far as a call reads it. *)
Definition input_schema (spec : ToolSpec) : value :=
  VObject ((#"type", VString #"object") ::
    match ts_required spec with [] => [] | names => [(#"required", VArray (VString <$> names))] end).
(** Source: service/src/mcp/tools.rs 1406-1416 (missing_required) *)
Definition missing_required (schema params : value) : list str :=
  match get #"required" schema ≫= as_array with
  | None => []
  | Some required =>
      List.filter (λ name, match get name params with None | Some VNull => true | _ => false end) (omap as_str required)
  end.
(** Source: service/src/mcp/tools.rs 1419-1429 (is_streaming_method) *)
Definition is_streaming_method (name : str) : bool :=
  bool_decide (name ∈ [ #"knowledge_rebuild_from_wal"; #"knowledge_canonicalize_relations";
    #"knowledge_backfill_relation_types"; #"knowledge_backfill_summary_embeddings";
    #"knowledge_reprocess_relation_types"; #"knowledge_reprocess_entity_types"]).

(** ** Requests and replies *)

(** A message: a text read off the wire, a formatted one, or an error's display form. *)
Inductive text := TStr (s : str) | TMsg (m : msg) | TErr (e : Error).
(** Formatting, which keeps a text that is already one. *)
Class Display := { show : text → str }.
Class DisplayLaws `{Display} := { show_str s : show (TStr s) = s }.

(** Source: core/src/ipc.rs 6-12 (IpcRequest) *)
Record IpcRequest := { rq_id : value; rq_method : str; rq_params : value }.
(** Source: core/src/ipc.rs 17-28 (IpcResponse) *)
Inductive IpcResponse :=
| IpcOk (id result : value)
| IpcErr (id : value) (code : Z) (message : text) (data : option value).

Definition int_value (z : Z) : value := VNumber (if (z <? 0)%Z then NegInt z else PosInt (Z.to_N z)).
Section wire.
Context {DI : Display}.
(** Serialisation: the variants are untagged and an absent [data] is skipped.
    Source: core/src/ipc.rs 31-36 (IpcError) *)
Definition response_value (r : IpcResponse) : value :=
  match r with
  | IpcOk id res => VObject [(#"jsonrpc", VString #"2.0"); (#"id", id); (#"result", res)]
  | IpcErr id code message data =>
      VObject [(#"jsonrpc", VString #"2.0"); (#"id", id);
        (#"error", VObject ((#"code", int_value code) :: (#"message", VString (show message)) ::
           match data with Some d => [(#"data", d)] | None => [] end))]
  end.

Definition as_i64 (v : value) : option Z :=
  match v with
  | VNumber (PosInt n) => if (n <? 2 ^ 63)%N then Some (Z.of_N n) else None
  | VNumber (NegInt z) => Some z
  | _ => None
  end.
(** [as i32] keeps the low thirty-two bits. *)
Definition wrap_i32 (z : Z) : Z := (z + 2 ^ 31) mod 2 ^ 32 - 2 ^ 31.
(** Source: service/src/mcp/attached.rs 131-148 (parse_ipc_response) *)
Definition parse_ipc_response (v : value) : IpcResponse :=
  let id := default VNull (get #"id" v) in
  match get #"error" v with
  | Some err =>
      IpcErr id (wrap_i32 (default (-32000)%Z (get #"code" err ≫= as_i64)))
        (TStr (default #"unknown error from attached service" (get #"message" err ≫= as_str))) (get #"data" err)
  | None => IpcOk id (default VNull (get #"result" v))
  end.

(** ** The server *)

Inductive CallToolResult := Structured (v : value) | StructuredError (v : value).
Inductive McpError := UnknownTool (name : str).
(** Source: service/src/mcp/server.rs 95-106 (ipc_response_to_call_tool_result) *)
Definition ipc_response_to_call_tool_result (resp : IpcResponse) : CallToolResult :=
  match resp with
  | IpcOk _ res => Structured res
  | IpcErr _ code message data =>
      StructuredError (VObject ((#"code", int_value code) :: (#"message", VString (show message)) ::
        match data with Some d => [(#"data", d)] | None => [] end))
  end.

(** What one call does to a backend: its reply, the progress events it forwarded, its state.
    Source: service/src/mcp/backend.rs 17-28 (McpBackend) *)
Class McpBackend (St : Type) := {
  is_attached : bool;
  backend_call (method : str) (params : value) (progress : bool) (s : St) : IpcResponse * list value * St;
}.

(** Source: service/src/mcp/server.rs 29-38 (LcgMcpServer) *)
Record LcgMcpServer := { sv_scopes : list Scope; sv_allow_remote_close : bool; sv_has_shutdown_ct : bool }.
(** A finished call: what the client gets, the notifications before it, whether the server is told to stop. *)
Record call_outcome St := {
  co_result : result McpError CallToolResult; co_notified : list (N * option str); co_cancelled : bool; co_state : St;
}.
Global Arguments co_result {St} _.
Global Arguments co_notified {St} _.
Global Arguments co_cancelled {St} _.
Global Arguments co_state {St} _.

Section server.
Context {St : Type} {MB : McpBackend St}.
Implicit Types (sv : LcgMcpServer) (s : St).

(** Source: service/src/mcp/server.rs 56-65 (is_tool_visible) *)
Definition is_tool_visible sv (spec : ToolSpec) : bool :=
  if negb (bool_decide (ts_scope spec ∈ sv_scopes sv)) then false
  else if bool_decide (ts_name spec = #"knowledge_close") && is_attached && negb (sv_allow_remote_close sv) then false
  else true.
(** Source: service/src/mcp/server.rs 67-71 (find_visible) *)
Definition find_visible sv (name : str) : option ToolSpec :=
  List.find (λ t, bool_decide (ts_name t = name) && is_tool_visible sv t) registry.
(** Source: service/src/mcp/server.rs 122-133 (list_tools) *)
Definition list_tools sv : list ToolSpec := List.filter (is_tool_visible sv) registry.

(** One notification per event, numbered from one. *)
Fixpoint forward (progress : N) (events : list value) : list (N * option str) :=
  match events with
  | [] => []
  | e :: events => ((progress + 1)%N, get #"message" e ≫= as_str) :: forward (progress + 1) events
  end.
(** Source: service/src/mcp/server.rs 139-211 (call_tool) *)
Definition call_tool sv (name : str) (arguments : option object) (token : bool) s : call_outcome St :=
  match find_visible sv name with
  | None => {| co_result := Err (UnknownTool name); co_notified := []; co_cancelled := false; co_state := s |}
  | Some spec =>
      let params := VObject (default [] arguments) in
      match missing_required (input_schema spec) params with
      | [] =>
          let wants_progress := token && is_streaming_method (ts_name spec) in
          let '(response, events, s) := backend_call (ts_name spec) params wants_progress s in
          let ok := match response with IpcOk _ _ => true | IpcErr _ _ _ _ => false end in
          {| co_result := Ok (ipc_response_to_call_tool_result response);
             co_notified := if wants_progress then forward 0 events else [];
             co_cancelled := bool_decide (ts_name spec = #"knowledge_close") && ok && sv_has_shutdown_ct sv;
             co_state := s |}
      | missing =>
          {| co_result := Ok (StructuredError (VObject [(#"code", int_value (-32602)); (#"message",
               VString (show (TMsg (Msg "Missing required argument(s) for '{}': {}" [AStr (ts_name spec); AStr (join #", " missing)]))))]));
             co_notified := []; co_cancelled := false; co_state := s |}
      end
  end.
End server.

(** ** The dispatcher *)

(** The methods, and whether the handler is given the progress channel.
    Source: core/src/handlers.rs 156-215 (handle) *)
Definition METHODS : list (str * bool) :=
  [(#"health_check", false); (#"knowledge_status", false); (#"knowledge_process_chunk", false); (#"knowledge_add_episode", false);
   (#"knowledge_find_entities", false); (#"knowledge_resolve_entity", false); (#"knowledge_find_relationships", false);
   (#"knowledge_get_episodes", false); (#"knowledge_delete_episode", false); (#"knowledge_get_nodes_by_group", false);
   (#"knowledge_get_edges_by_group", false); (#"knowledge_get_edges_by_uuids", false); (#"knowledge_query_cypher", false);
   (#"knowledge_build_indices", false); (#"knowledge_delete_by_source", false); (#"knowledge_delete_chunk_episode", false);
   (#"knowledge_delete_by_group", false); (#"knowledge_reload_ontology", false); (#"knowledge_clear_all", false);
   (#"knowledge_dump_wal", false); (#"knowledge_prepare_checkpoint", false); (#"knowledge_strip_wal_embeddings", false);
   (#"knowledge_wal_mark_create", false); (#"knowledge_wal_mark_list", false); (#"knowledge_wal_mark_delete", false);
   (#"knowledge_rebuild_from_wal", true); (#"knowledge_rebuild_status", false); (#"knowledge_recover", false);
   (#"knowledge_recover_full", false); (#"knowledge_close", false); (#"knowledge_search_passages", false);
   (#"knowledge_list_entities", false); (#"knowledge_list_relationships", false); (#"knowledge_get_entity_neighbors", false);
   (#"knowledge_get_entities_by_source", false); (#"knowledge_validate_corrections", false); (#"knowledge_apply_corrections", false);
   (#"knowledge_merge_entities", false); (#"knowledge_add_cross_group_edge", false); (#"knowledge_rebind_pointers", false);
   (#"knowledge_assert_entity", false); (#"knowledge_assert_relationship", false); (#"knowledge_reprocess_entity_types", true);
   (#"knowledge_canonicalize_relations", true); (#"knowledge_backfill_relation_types", true);
   (#"knowledge_backfill_summary_embeddings", true); (#"knowledge_reprocess_relation_types", true)].
(** Source: core/src/handlers.rs 128-145 (handle) *)
Definition exempt_in_degraded (method : str) : bool :=
  bool_decide (method ∈ [ #"health_check"; #"knowledge_status"; #"knowledge_recover"; #"knowledge_recover_full"; #"knowledge_close";
    #"knowledge_wal_mark_list"; #"knowledge_wal_mark_delete"; #"knowledge_strip_wal_embeddings"]).

(** The handlers: one per method, given the progress channel or not. *)
Class Handlers (St : Type) := {
  db_open : St → bool;
  degraded_reason : St → option msg;
  run_handler (method : str) (params : value) (progress : bool) (s : St) : result Error value * list value * St;
}.

Section dispatch.
Context {St : Type} {HD : Handlers St}.

(** Source: core/src/handlers.rs 121-216 (handle) *)
Definition handle (req : IpcRequest) (progress : bool) (s : St) : result Error value * list value * St :=
  let method := rq_method req in
  if negb (exempt_in_degraded method) && negb (db_open s) then
    (Err (DbUnavailable (default (Msg "unknown" []) (degraded_reason s))), [], s)
  else match List.find (λ e, bool_decide (e.1 = method)) METHODS with
       | None => (Err (Ipc (Msg "Method not found: {}" [AStr method])), [], s)
       | Some (_, takes_progress) =>
           if bool_decide (method = #"knowledge_close") then (Ok (VObject [(#"status", VString #"closed")]), [], s)
           else let progress := progress && takes_progress in
                let '(r, events, s) := run_handler method (rq_params req) progress s in
                (r, if progress then events else [], s)
       end.
Definition candidate_value (c : str * str) : value := VObject [(#"uuid", VString c.1); (#"kind", VString c.2)].
(** Source: core/src/handlers.rs 40-119 (dispatch) *)
Definition dispatch (req : IpcRequest) (progress : bool) (s : St) : IpcResponse * list value * St :=
  let '(r, events, s) := handle req progress s in
  (match r with
   | Ok res => IpcOk (rq_id req) res
   | Err e =>
       match e with
       | DbUnavailable reason =>
           IpcErr (rq_id req) (-32001) (TMsg (Msg "DB unavailable, recovery required" []))
             (Some (VObject [(#"reason", VString (show (TMsg reason)))]))
       | AmbiguousEntity name group_id candidates =>
           IpcErr (rq_id req) (-32002) (TErr e)
             (Some (VObject [(#"reason", VString #"ambiguous_entity"); (#"name", VString name); (#"group_id", VString group_id);
                (#"candidates", VArray (candidate_value <$> candidates))]))
       | IdentitySetChangeRefused group_id label count _ =>
           IpcErr (rq_id req) (-32003) (TErr e)
             (Some (VObject [(#"reason", VString #"identity_set_change_refused"); (#"group_id", VString group_id);
                (#"label", VString label); (#"entity_count", VNumber (PosInt count))]))
       | _ => IpcErr (rq_id req) (-32000) (TErr e) None
       end
   end, events, s).

(** Source: service/src/mcp/backend.rs 43-62 (StandaloneBackend) *)
Definition StandaloneBackend : McpBackend St := {|
  is_attached := false;
  backend_call method params progress s := dispatch {| rq_id := VNull; rq_method := method; rq_params := params |} progress s;
|}.
End dispatch.

(** ** The socket client *)

(** What a socket does with one request line: it is taken, or the write or the flush fails. *)
Inductive write_outcome := Taken | WriteFails (e : str) | FlushFails (e : str).
Global Instance write_outcome_eq_dec : EqDecision write_outcome.
Proof. solve_decision. Defined.
(** What a read gives before the call times out; no event left is silence. *)
Inductive read_event := RLine (s : str) | REof | RError (e : str).
Record connection := { cn_writes : list write_outcome; cn_reads : list read_event }.
(** The world a call meets: what the next dials give, and every line written so far. *)
Record world := { wd_dials : list (result str connection); wd_sent : list (str * write_outcome) }.

(** Source: service/src/mcp/attached.rs 50-56 (AttachedBackend) *)
Record AttachedBackend := { ab_stream : option connection; ab_socket_path : str; ab_next_id : N; ab_call_timeout : N }.
(** Source: service/src/mcp/attached.rs 81-88 (new_lazy) *)
Definition new_lazy (socket_path : str) (call_timeout : N) : AttachedBackend :=
  {| ab_stream := None; ab_socket_path := socket_path; ab_next_id := 1; ab_call_timeout := call_timeout |}.
Definition with_stream (c : option connection) (a : AttachedBackend) : AttachedBackend :=
  {| ab_stream := c; ab_socket_path := ab_socket_path a; ab_next_id := ab_next_id a; ab_call_timeout := ab_call_timeout a |}.

(** Source: service/src/mcp/attached.rs 100-108 (dial) *)
Definition dial (socket_path : str) (w : world) : result msg connection * world :=
  match wd_dials w with
  | Ok c :: dials => (Ok c, {| wd_dials := dials; wd_sent := wd_sent w |})
  | Err e :: dials =>
      (Err (Msg "failed to connect to attached service at '{socket_path}': {e}." [AStr socket_path; AStr e]),
       {| wd_dials := dials; wd_sent := wd_sent w |})
  | [] => (Err (Msg "failed to connect to attached service at '{socket_path}': {e}." [AStr socket_path]), w)
  end.
(** Source: service/src/mcp/attached.rs 115-125 (write_request) *)
Definition write_request (c : connection) (line : str) (w : world) : result msg unit * connection * world :=
  let outcome := default Taken (head (cn_writes c)) in
  (match outcome with
   | Taken => Ok ()
   | WriteFails e => Err (Msg "attached socket write failed: {e}" [AStr e])
   | FlushFails e => Err (Msg "attached socket flush failed: {e}" [AStr e])
   end,
   {| cn_writes := tail (cn_writes c); cn_reads := cn_reads c |},
   {| wd_dials := wd_dials w; wd_sent := wd_sent w ++ [(line, outcome)] |}).

Definition shown_args (m : msg) : list arg := [AStr (show (TMsg m))].
(** Source: service/src/mcp/attached.rs 159-169 (AttachedBackend::call) *)
Definition with_progress_token (progress : bool) (params : value) : value :=
  if progress then
    match params with
    | VObject map => match obj_get #"_progress_token" map with Some _ => VObject map | None => VObject (obj_insert #"_progress_token" (VBool true) map) end
    | VNull => VObject [(#"_progress_token", VBool true)]
    | _ => params
    end
  else params.
Definition request_value (id : N) (method : str) (params : value) : value :=
  VObject [(#"jsonrpc", VString #"2.0"); (#"id", VNumber (PosInt id)); (#"method", VString method); (#"params", params)].
Definition failure (m : msg) : IpcResponse := IpcErr VNull (-32000) (TMsg m) None.
Definition is_progress (v : value) : bool := bool_decide (get #"type" v ≫= as_str = Some #"progress").

Section attached.
Context {AC : AttrCodec}.

(** The connection to write on, redialled if the last one was given up.
    Source: service/src/mcp/attached.rs 190-195 (AttachedBackend::call) *)
Definition ensure_stream (a : AttachedBackend) (w : world) : result msg connection * world :=
  match ab_stream a with Some c => (Ok c, w) | None => dial (ab_socket_path a) w end.
(** The write, and the one retry on a fresh connection.
    Source: service/src/mcp/attached.rs 198-230 (AttachedBackend::call) *)
Definition write_phase (socket_path : str) (c : connection) (line : str) (w : world) : result msg connection * world :=
  let '(r, c, w) := write_request c line w in
  match r with
  | Ok _ => (Ok c, w)
  | Err write_err =>
      let '(d, w) := dial socket_path w in
      match d with
      | Err dial_err =>
          (Err (Msg "attached socket write failed ({write_err}); reconnect attempt failed ({dial_err})" (shown_args write_err ++ shown_args dial_err)), w)
      | Ok c =>
          let '(r, c, w) := write_request c line w in
          match r with
          | Ok _ => (Ok c, w)
          | Err retry_err =>
              (Err (Msg "attached socket write failed ({write_err}); reconnected but retry write also failed ({retry_err})" (shown_args write_err ++ shown_args retry_err)), w)
          end
      end
  end.
(** What reading the reply gives: the reply and the lines left, or a failure; and the events met.
    Source: service/src/mcp/attached.rs 236-314 (AttachedBackend::call) *)
Fixpoint read_phase (call_timeout id : N) (evs : list read_event) (events : list value) : result msg (IpcResponse * list read_event) * list value :=
  match evs with
  | [] => (Err (Msg "attached service call timed out after {}ms with no response" [ANum call_timeout]), events)
  | REof :: _ => (Err (Msg "attached service closed the connection unexpectedly" []), events)
  | RError e :: _ => (Err (Msg "attached socket read failed: {e}" [AStr e]), events)
  | RLine buf :: evs =>
      let trimmed := trim buf in
      if negb (nonempty trimmed) then read_phase call_timeout id evs events
      else match json_parse trimmed with
           | None => (Err (Msg "malformed response from attached service: {e}" []), events)
           | Some v =>
               if is_progress v then read_phase call_timeout id evs (events ++ [v])
               else if bool_decide (get #"id" v ≫= as_u64 = Some id) then (Ok (parse_ipc_response v, evs), events)
               else read_phase call_timeout id evs events
           end
  end.
(** Source: service/src/mcp/attached.rs 151-315 (AttachedBackend::call) *)
Definition attached_call (method : str) (params : value) (progress : bool) (s : AttachedBackend * world) : IpcResponse * list value * (AttachedBackend * world) :=
  let '(a, w) := s in
  let id := ab_next_id a in
  let a := {| ab_stream := ab_stream a; ab_socket_path := ab_socket_path a; ab_next_id := add64 id 1; ab_call_timeout := ab_call_timeout a |} in
  let line := json_print (request_value id method (with_progress_token progress params)) in
  let '(d, w) := ensure_stream a w in
  match d with
  | Err e => (failure e, [], (with_stream None a, w))
  | Ok c =>
      let '(r, w) := write_phase (ab_socket_path a) c line w in
      match r with
      | Err e => (failure e, [], (with_stream None a, w))
      | Ok c =>
          let '(r, events) := read_phase (ab_call_timeout a) id (cn_reads c) [] in
          let events := if progress then events else [] in
          match r with
          | Err e => (failure e, events, (with_stream None a, w))
          | Ok (resp, evs) => (resp, events, (with_stream (Some {| cn_writes := cn_writes c; cn_reads := evs |}) a, w))
          end
      end
  end.
Definition AttachedMcp : McpBackend (AttachedBackend * world) := {| is_attached := true; backend_call := attached_call |}.

(** ** The other end of the socket *)

Definition read_request (v : value) : option IpcRequest :=
  match get #"jsonrpc" v ≫= as_str, get #"id" v, get #"method" v ≫= as_str, get #"params" v with
  | Some _, Some id, Some method, Some params => Some {| rq_id := id; rq_method := method; rq_params := params |}
  | _, _, _, _ => None
  end.
(** A parse error's reply.
    Source: service/src/main.rs 95-103 (write_parse_error) *)
Definition parse_error_value (e : str) : value :=
  VObject [(#"jsonrpc", VString #"2.0"); (#"id", VNull);
    (#"error", VObject [(#"code", int_value (-32700)); (#"message", VString e)])].
Definition wants_streaming (params : value) : bool :=
  match get #"_progress_token" params with Some v => negb (is_null v) | None => false end.

Section service.
Context {St : Type} {HD : Handlers St}.
Context (parse_error : str → str).
(** One line of the connection: the lines written back, whether the connection ends, the state.
    Source: service/src/main.rs 55-92 (handle_connection) *)
Definition serve_line (line : str) (s : St) : list str * bool * St :=
  let line := trim line in
  if negb (nonempty line) then ([], false, s)
  else match json_parse line ≫= read_request with
       | None => ([json_print (parse_error_value (parse_error line))], false, s)
       | Some req =>
           let is_close := bool_decide (rq_method req = #"knowledge_close") in
           let is_streaming := wants_streaming (rq_params req) in
           let '(resp, events, s) := dispatch req is_streaming s in
           ((json_print <$> events) ++ [json_print (response_value resp)], is_close, s)
       end.
(** Source: service/src/main.rs 48-93 (handle_connection) *)
Fixpoint handle_connection (lines : list str) (s : St) : list str * bool * St :=
  match lines with
  | [] => ([], false, s)
  | line :: lines =>
      let '(out, closed, s) := serve_line line s in
      if closed then (out, true, s)
      else let '(out', closed, s) := handle_connection lines s in (out ++ out', closed, s)
  end.
End service.
End attached.
End wire.
