(* ===== verification/McpTheory.v ===== *)
(** * McpTheory: what a tool call may reach, which reply it gets, and that the two ways of executing
    it agree *)

From S2P Require Import Prelude Text Json Pointer WalStrip WalStripTheory Mcp.

(** ** The scope list *)

Lemma elem_of_push_unique l s x : x ∈ push_unique l s ↔ x ∈ l ∨ x = s.
Proof. unfold push_unique. case_bool_decide; set_solver. Qed.
Lemma push_unique_NoDup l s : NoDup l → NoDup (push_unique l s).
Proof.
  intros H. unfold push_unique. case_bool_decide; [done|]. apply NoDup_app.
  split; [done|]. split; [set_solver|apply NoDup_singleton].
Qed.
Lemma push_all l k x : x ∈ foldl push_unique l k ↔ x ∈ l ∨ x ∈ k.
Proof.
  revert l. induction k as [|s k IH]; intros l; cbn [foldl]; [set_solver|].
  rewrite IH, elem_of_push_unique. set_solver.
Qed.
Lemma push_all_NoDup l k : NoDup l → NoDup (foldl push_unique l k).
Proof. revert l. induction k as [|s k IH]; intros l H; [done|]. apply IH. by apply push_unique_NoDup. Qed.

(** The scopes a token grants. *)
Definition granted (tok : str) : list Scope := default [] (scopes_of_token (trim tok)).
Definition known (tok : str) : Prop := nonempty (trim tok) = true → is_Some (scopes_of_token (trim tok)).
Lemma blank_grants_nothing tok : nonempty (trim tok) = false → granted tok = [].
Proof. unfold granted. by destruct (trim tok). Qed.

Lemma parse_tokens_spec toks l :
  NoDup l →
  match parse_tokens toks l with
  | Ok scopes => NoDup scopes ∧ Forall known toks ∧ ∀ x, x ∈ scopes ↔ x ∈ l ∨ ∃ tok, tok ∈ toks ∧ x ∈ granted tok
  | Err _ => ∃ tok, tok ∈ toks ∧ ¬ known tok
  end.
Proof.
  revert l. induction toks as [|tok toks IH]; intros l Hl; cbn [parse_tokens]; [set_solver|].
  assert (∀ (P : Prop) l', (∀ x, x ∈ l' ↔ x ∈ l ∨ x ∈ granted tok) → NoDup l' → known tok →
    match parse_tokens toks l' with
    | Ok scopes => NoDup scopes ∧ Forall known (tok :: toks) ∧ ∀ x, x ∈ scopes ↔ x ∈ l ∨ ∃ t, t ∈ tok :: toks ∧ x ∈ granted t
    | Err _ => ∃ t, t ∈ tok :: toks ∧ ¬ known t
    end) as Hstep.
  { intros _ l' Hl' Hnd Hk. specialize (IH l' Hnd). destruct (parse_tokens toks l') as [scopes|e].
    - destruct IH as (Hs & Hf & Hx). split; [done|]. split; [by constructor|]. intros x. rewrite Hx, Hl'. set_solver.
    - set_solver. }
  destruct (nonempty (trim tok)) eqn:Hn; cbn [negb].
  - destruct (scopes_of_token (trim tok)) as [k|] eqn:Hk.
    + apply (Hstep True); [|by apply push_all_NoDup|by (unfold known; rewrite Hk)].
      intros x. rewrite push_all. unfold granted. by rewrite Hk.
    + exists tok. split; [by left|]. unfold known. rewrite Hk, Hn. intros [? ?]; [done|congruence].
  - apply (Hstep True); [|done|unfold known; congruence]. rewrite blank_grants_nothing by done. set_solver.
Qed.

(** The parsed scope list is duplicate-free and holds exactly the scopes some token of the text
    grants; the text is refused exactly when a token is unknown or no token grants anything. *)
Lemma parse_list_spec (s : str) :
  match parse_list s with
  | Ok scopes => NoDup scopes ∧ ∀ x, x ∈ scopes ↔ ∃ tok, tok ∈ split_on (N.eqb 44) s ∧ x ∈ granted tok
  | Err _ => (∃ tok, tok ∈ split_on (N.eqb 44) s ∧ ¬ known tok) ∨ ∀ tok, tok ∈ split_on (N.eqb 44) s → granted tok = []
  end.
Proof.
  unfold parse_list. pose proof (parse_tokens_spec (split_on (N.eqb 44) s) [] ltac:(constructor)) as H.
  destruct (parse_tokens _ _) as [scopes|e]; cbn [rbind]; [|by left].
  destruct H as (Hnd & _ & Hx). destruct scopes as [|x scopes].
  - right. intros tok Htok. destruct (granted tok) as [|y k] eqn:Hg; [done|].
    assert (y ∈ @nil Scope) as []%elem_of_nil. apply Hx. right. exists tok. rewrite Hg. set_solver.
  - split; [done|]. intros y. rewrite Hx. set_solver.
Qed.


(** ** The registry and the dispatch table *)

Definition names : list str := ts_name <$> registry.
Lemma registry_distinct : NoDup names.
Proof. apply (bool_decide_unpack _). vm_compute. exact I. Qed.
Lemma registry_inj t u : t ∈ registry → u ∈ registry → ts_name t = ts_name u → t = u.
Proof.
  intros Ht Hu He. apply list_elem_of_lookup in Ht as [i Hi]. apply list_elem_of_lookup in Hu as [j Hj].
  assert (i = j) as ->; [|congruence].
  eapply (NoDup_lookup names); [apply registry_distinct| |]; unfold names; rewrite list_lookup_fmap; [by rewrite Hi|by rewrite Hj, He].
Qed.

(** The tool registry and the dispatcher's table agree: tool names are distinct, every tool is a
    dispatched method and every dispatched method but the health check is a tool, so no tool call
    ends in an unknown method; and the tools for which progress is bridged are exactly those whose
    handler is given the progress channel. *)
Theorem registry_is_dispatch_table :
  NoDup names ∧ #"health_check" :: names ≡ₚ METHODS.*1 ∧
  ∀ m takes, (m, takes) ∈ METHODS → takes = is_streaming_method m.
Proof.
  split; [apply registry_distinct|]. split.
  - apply NoDup_Permutation; [apply (bool_decide_unpack _); vm_compute; exact I..|]. intros m. split; intros Hm.
    + assert (Forall (λ m, m ∈ METHODS.*1) (#"health_check" :: names)) as H by (apply (bool_decide_unpack _); vm_compute; exact I).
      rewrite Forall_forall in H. by apply H.
    + assert (Forall (λ m, m ∈ #"health_check" :: names) METHODS.*1) as H by (apply (bool_decide_unpack _); vm_compute; exact I).
      rewrite Forall_forall in H. by apply H.
  - assert (Forall (λ e, e.2 = is_streaming_method e.1) METHODS) as H by (apply (bool_decide_unpack _); vm_compute; exact I).
    rewrite Forall_forall in H. intros m takes Hm. exact (H _ Hm).
Qed.

(** ** Gating *)

Section gating.
Context {DI : Display} {St : Type} {MB : McpBackend St}.
Implicit Types (sv : LcgMcpServer) (s : St).

Lemma find_visible_Some sv name spec :
  find_visible sv name = Some spec → spec ∈ registry ∧ ts_name spec = name ∧ is_tool_visible sv spec = true.
Proof.
  intros H. apply List.find_some in H as [Hin [Hn Hv]%andb_true_iff].
  apply bool_decide_eq_true in Hn. by rewrite <- list_elem_of_In in Hin.
Qed.
Lemma find_visible_None sv name spec :
  find_visible sv name = None → spec ∈ registry → ts_name spec = name → is_tool_visible sv spec = false.
Proof.
  intros H Hin Hn. rewrite list_elem_of_In in Hin. pose proof (List.find_none _ _ H spec Hin) as Hf. cbn beta in Hf.
  rewrite bool_decide_eq_true_2 in Hf by done. by destruct (is_tool_visible sv spec).
Qed.
Lemma visible_granted sv spec : is_tool_visible sv spec = true → ts_scope spec ∈ sv_scopes sv.
Proof. unfold is_tool_visible. by case_bool_decide. Qed.
Lemma visible_close sv spec :
  is_tool_visible sv spec = true → ts_name spec = #"knowledge_close" → is_attached = true → sv_allow_remote_close sv = true.
Proof.
  unfold is_tool_visible. intros H Hn Ha. case_bool_decide; [|done]. cbn [negb] in H.
  rewrite Hn, (bool_decide_eq_true_2 (_ = _)), Ha in H by done. by destruct (sv_allow_remote_close sv).
Qed.

(** Present and not null. *)
Definition given (args : object) (name : str) : Prop := ∃ v, obj_get name args = Some v ∧ v ≠ VNull.
Lemma omap_VString (l : list str) : omap as_str (VString <$> l) = l.
Proof. induction l as [|x l IH]; [done|]. cbn [fmap list_fmap]. change (omap as_str (VString x :: (VString <$> l))) with (x :: omap as_str (VString <$> l)). by rewrite IH. Qed.
Lemma missing_required_nil spec args :
  missing_required (input_schema spec) (VObject args) = [] ↔ Forall (given args) (ts_required spec).
Proof.
  unfold missing_required, input_schema. destruct (ts_required spec) as [|n ns] eqn:Hr.
  - cbn. split; [constructor|done].
  - assert (get #"required" (VObject [(#"type", VString #"object"); (#"required", VArray (VString <$> (n :: ns)))]) ≫= as_array
      = Some (VString <$> (n :: ns))) as -> by reflexivity.
    rewrite omap_VString. generalize (n :: ns) as l. clear Hr n ns. induction l as [|n l IH]; [split; [constructor|done]|].
    cbn [List.filter get]. rewrite Forall_cons. unfold given at 1. destruct (obj_get n args) as [v|] eqn:Hv.
    + destruct v; rewrite <- ?IH; naive_solver.
    + naive_solver.
Qed.

(** What stands between a client and the backend. *)
Definition allowed sv (name : str) (args : option object) (spec : ToolSpec) : Prop :=
  spec ∈ registry ∧ ts_name spec = name ∧ ts_scope spec ∈ sv_scopes sv ∧
  (name = #"knowledge_close" → is_attached = true → sv_allow_remote_close sv = true) ∧
  Forall (given (default [] args)) (ts_required spec).

Lemma call_tool_cases sv name args token s :
  let o := call_tool sv name args token s in
  (∃ spec, allowed sv name args spec ∧
     ∃ r events s', backend_call name (VObject (default [] args)) (token && is_streaming_method name) s = (r, events, s') ∧
       co_result o = Ok (ipc_response_to_call_tool_result r) ∧ co_state o = s' ∧
       co_notified o = (if token && is_streaming_method name then forward 0 events else []) ∧
       co_cancelled o = bool_decide (name = #"knowledge_close") && (match r with IpcOk _ _ => true | _ => false end) && sv_has_shutdown_ct sv) ∨
  ((∀ spec, ¬ allowed sv name args spec) ∧ co_state o = s ∧ co_notified o = [] ∧ co_cancelled o = false ∧
     (co_result o = Err (UnknownTool name) ∨ ∃ v, co_result o = Ok (StructuredError v))).
Proof.
  cbv zeta. unfold call_tool. destruct (find_visible sv name) as [spec|] eqn:Hf.
  - apply find_visible_Some in Hf as (Hin & Hn & Hv).
    destruct (missing_required (input_schema spec) (VObject (default [] args))) as [|m ms] eqn:Hm.
    + left. exists spec. apply missing_required_nil in Hm. split.
      { split; [done|]. split; [done|]. split; [by apply visible_granted|]. split; [|done]. rewrite <- Hn. by apply visible_close. }
      rewrite Hn. destruct (backend_call _ _ _ s) as [[r events] s'] eqn:Hc. by exists r, events, s'.
    + right. split; [|naive_solver]. intros spec' (Hin' & Hn' & _ & _ & Hreq).
      rewrite (registry_inj spec' spec) in Hreq by congruence. apply missing_required_nil in Hreq. congruence.
  - right. split; [|naive_solver]. intros spec' (Hin' & Hn' & Hs & Hc & _).
    pose proof (find_visible_None sv name spec' Hf Hin' Hn') as Hv. unfold is_tool_visible in Hv.
    rewrite (bool_decide_eq_true_2 (_ ∈ _)) in Hv by done. cbn [negb] in Hv. rewrite Hn' in Hv.
    case_bool_decide as Hk; [|done]. destruct is_attached; [|done]. by rewrite Hc in Hv.
Qed.

Lemma granted_cypher tok : Cypher ∈ granted tok → trim tok = #"cypher" ∨ trim tok = #"all".
Proof.
  unfold granted, scopes_of_token. repeat case_bool_decide; auto; intros H'; exfalso;
    apply list_elem_of_In in H'; cbn in H'; intuition discriminate.
Qed.
Lemma cypher_scope spec : spec ∈ registry → ts_name spec = #"knowledge_query_cypher" → ts_scope spec = Cypher.
Proof.
  assert (Forall (λ t, ts_name t = #"knowledge_query_cypher" → ts_scope t = Cypher) registry) as H.
  { apply (bool_decide_unpack _). vm_compute. exact I. }
  rewrite Forall_forall in H. intros. by apply H.
Qed.

(** C15. Started with the scopes of a text, the server lets a tool call reach the backend, stop the
    server, notify progress or answer with a result only when the tool is registered, some token of
    the text grants its scope, every required argument is given and not null, and closing a remote
    service was allowed; raw Cypher, in particular, needs the token "cypher" or "all". *)
Theorem tool_calls_are_gated sv (scope_text name : str) args token s :
  parse_list scope_text = Ok (sv_scopes sv) →
  let o := call_tool sv name args token s in
  co_state o ≠ s ∨ co_notified o ≠ [] ∨ co_cancelled o = true ∨ (∃ v, co_result o = Ok (Structured v)) →
  ∃ spec tok, spec ∈ registry ∧ ts_name spec = name ∧
    tok ∈ split_on (N.eqb 44) scope_text ∧ ts_scope spec ∈ granted tok ∧
    Forall (given (default [] args)) (ts_required spec) ∧
    (name = #"knowledge_close" → is_attached = true → sv_allow_remote_close sv = true) ∧
    (name = #"knowledge_query_cypher" → trim tok = #"cypher" ∨ trim tok = #"all").
Proof.
  intros Hp o Ho. pose proof (parse_list_spec scope_text) as Hs. rewrite Hp in Hs. destruct Hs as [_ Hs].
  destruct (call_tool_cases sv name args token s) as [(spec & (Hin & Hn & Hsc & Hcl & Hreq) & _)|(_ & Hst & Hno & Hca & Hr)].
  - apply Hs in Hsc as (tok & Htok & Hg). exists spec, tok. do 6 (split; [done|]).
    intros Hc. apply granted_cypher. by rewrite <- (cypher_scope spec Hin ltac:(congruence)).
  - exfalso. subst o. destruct Ho as [Ho|[Ho|[Ho|[v Ho]]]]; [congruence..|]. destruct Hr as [Hr|[w Hr]]; congruence.
Qed.

(** The tools a client is shown are exactly the tools it can call. *)
Theorem listed_tools_are_callable sv name args token s :
  name ∈ ts_name <$> list_tools sv ↔ co_result (call_tool sv name args token s) ≠ Err (UnknownTool name).
Proof.
  unfold list_tools. rewrite list_elem_of_fmap. split.
  - intros (spec & -> & Hin). apply list_elem_of_In, filter_In in Hin as [Hin Hv]. apply list_elem_of_In in Hin.
    unfold call_tool. destruct (find_visible sv (ts_name spec)) as [spec'|] eqn:Hf.
    + destruct (missing_required _ _); [|done]. by destruct (backend_call _ _ _ s) as [[r events] s'].
    + rewrite (find_visible_None _ _ spec Hf Hin eq_refl) in Hv. done.
  - unfold call_tool. destruct (find_visible sv name) as [spec|] eqn:Hf; [|done]. intros _.
    apply find_visible_Some in Hf as (Hin & Hn & Hv). exists spec. split; [done|].
    apply list_elem_of_In, filter_In. by rewrite <- list_elem_of_In.
Qed.
End gating.

(** ** The socket client *)

Section client.
Context {DI : Display} {AC : AttrCodec}.

(** A line the read phase passes over in a call with this number: blank, progress, or another call's. *)
Definition passed (id : N) (e : read_event) : Prop :=
  ∃ buf, e = RLine buf ∧ (nonempty (trim buf) = false ∨
    ∃ v, json_parse (trim buf) = Some v ∧ (is_progress v = true ∨ get #"id" v ≫= as_u64 ≠ Some id)).
Definition progress_in (e : read_event) : list value :=
  match e with
  | RLine buf => if nonempty (trim buf) then match json_parse (trim buf) with Some v => if is_progress v then [v] else [] | None => [] end else []
  | _ => []
  end.

Lemma read_phase_spec t id evs acc :
  match read_phase t id evs acc with
  | (Ok (resp, rest), events) =>
      ∃ skipped buf v, evs = skipped ++ RLine buf :: rest ∧ Forall (passed id) skipped ∧ json_parse (trim buf) = Some v ∧
        get #"id" v ≫= as_u64 = Some id ∧ resp = parse_ipc_response v ∧ events = acc ++ (skipped ≫= progress_in)
  | (Err _, events) => True
  end.
Proof.
  revert acc. induction evs as [|e evs IH]; intros acc; [done|]. destruct e as [buf| |e]; [|done..]. cbn [read_phase].
  assert (∀ acc' p, passed id (RLine buf) → progress_in (RLine buf) = p → acc' = acc ++ p →
    match read_phase t id evs acc' with
    | (Ok (resp, rest), events) => ∃ skipped b v, RLine buf :: evs = skipped ++ RLine b :: rest ∧ Forall (passed id) skipped ∧
        json_parse (trim b) = Some v ∧ get #"id" v ≫= as_u64 = Some id ∧ resp = parse_ipc_response v ∧ events = acc ++ (skipped ≫= progress_in)
    | (Err _, events) => True
    end) as Hpass.
  { intros acc' p Hp Hpr ->. specialize (IH (acc ++ p)). destruct (read_phase _ _ _ _) as [[[resp rest]|] events]; [|done].
    destruct IH as (sk & b & v & -> & Hsk & Hv & Hid & Hr & He). exists (RLine buf :: sk), b, v.
    split; [done|]. split; [by constructor|]. do 3 (split; [done|]). rewrite bind_cons, Hpr, He. by rewrite app_assoc. }
  destruct (nonempty (trim buf)) eqn:Hn; cbn [negb].
  - destruct (json_parse (trim buf)) as [v|] eqn:Hv; [|done]. destruct (is_progress v) eqn:Hp.
    + apply (Hpass _ [v]); [|by cbn; rewrite Hn, Hv, Hp|done]. exists buf. split; [done|]. right. exists v. auto.
    + case_bool_decide as Hid.
      * exists [], buf, v. rewrite app_nil_r. by repeat split.
      * apply (Hpass _ []); [|by cbn; rewrite Hn, Hv, Hp|by rewrite app_nil_r]. exists buf. split; [done|]. right. exists v. auto.
  - apply (Hpass _ []); [|by cbn; rewrite Hn|by rewrite app_nil_r]. exists buf. auto.
Qed.

(** What one call may write: nothing, its line once, or its line twice when the first write failed. *)
Inductive attempts (line : str) : list (str * write_outcome) → Prop :=
| no_attempt : attempts line []
| one_attempt o : attempts line [(line, o)]
| two_attempts o o' : o ≠ Taken → attempts line [(line, o); (line, o')].

Lemma write_phase_spec path c line w :
  let '(r, w') := write_phase path c line w in
  ∃ l, wd_sent w' = wd_sent w ++ l ∧ attempts line l ∧
    (is_ok r = true → ∃ l', l = l' ++ [(line, Taken)]).
Proof.
  assert (∀ p w0, wd_sent (dial p w0).2 = wd_sent w0) as Hdial.
  { intros p w0. unfold dial. by destruct (wd_dials w0) as [|[] ?]. }
  unfold write_phase, write_request. set (o := default Taken (head (cn_writes c))).
  set (w1 := {| wd_dials := wd_dials w; wd_sent := wd_sent w ++ [(line, o)] |}).
  destruct (decide (o = Taken)) as [->|Ho].
  { exists [(line, Taken)]. split; [done|]. split; [constructor|]. intros _. by exists []. }
  replace (match o with Taken => Ok () | WriteFails e => Err (Msg "attached socket write failed: {e}" [AStr e])
    | FlushFails e => Err (Msg "attached socket flush failed: {e}" [AStr e]) end)
    with (@Err msg () (match o with Taken => Msg "" [] | WriteFails e => Msg "attached socket write failed: {e}" [AStr e]
    | FlushFails e => Msg "attached socket flush failed: {e}" [AStr e] end)) by (by destruct o).
  pose proof (Hdial path w1) as Hd. destruct (dial path w1) as [[c'|e] w2]; cbn [snd] in Hd.
  - set (o' := default Taken (head (cn_writes c'))). destruct o' as [|e|e] eqn:Ho'.
    all: eexists [(line, o); (line, _)]; split; [cbn; rewrite Hd; cbn; by rewrite <- app_assoc|]; split; [by constructor|]; try done.
    intros _. by exists [(line, o)].
  - exists [(line, o)]. split; [by rewrite Hd|]. split; [constructor|done].
Qed.

(** C16. Whatever the socket does, a call over it ends in one of two ways.  It fails with the code
    -32000 and no number of its own, and the connection is given up, so that the next call dials
    afresh; or its reply is the reading of a received line that carries this call's number, found
    after lines that were blank, progress or another call's, on a connection that took the
    request.  It writes its own line only, at most twice, and a second time only after the
    first write failed; the number is used once. *)
Theorem attached_reply_is_this_calls method params progress a w :
  let id := ab_next_id a in
  let line := json_print (request_value id method (with_progress_token progress params)) in
  let '(resp, events, (a', w')) := attached_call method params progress (a, w) in
  ab_next_id a' = add64 id 1 ∧
  (∃ sent, wd_sent w' = wd_sent w ++ sent ∧ attempts line sent ∧
    ((∃ m, resp = failure m ∧ ab_stream a' = None) ∨
     ∃ skipped buf v c, resp = parse_ipc_response v ∧ json_parse (trim buf) = Some v ∧ get #"id" v ≫= as_u64 = Some id ∧
       ab_stream a' = Some c ∧ Forall (passed id) skipped ∧
       (∃ c0, cn_reads c0 = skipped ++ RLine buf :: cn_reads c) ∧
       events = (if progress then skipped ≫= progress_in else []) ∧
       ∃ sent', sent = sent' ++ [(line, Taken)])).
Proof.
  cbv zeta. unfold attached_call. set (line := json_print _). set (a1 := {| ab_stream := _ |}).
  assert (∀ w0, wd_sent (ensure_stream a1 w0).2 = wd_sent w0) as Hens.
  { intros w0. unfold ensure_stream, dial. destruct (ab_stream a1); [done|]. by destruct (wd_dials w0) as [|[] ?]. }
  specialize (Hens w). destruct (ensure_stream a1 w) as [[c|e] w1]; cbn [snd] in Hens.
  2: { split; [done|]. exists []. rewrite app_nil_r. split; [done|]. split; [constructor|]. left. by exists e. }
  pose proof (write_phase_spec (ab_socket_path a1) c line w1) as Hw. destruct (write_phase _ _ _ w1) as [[c1|e] w2].
  2: { destruct Hw as (l & Hl & Ha & _). split; [done|]. exists l. split; [congruence|]. split; [done|]. left. by exists e. }
  destruct Hw as (l & Hl & Ha & Ht). pose proof (read_phase_spec (ab_call_timeout a1) (ab_next_id a) (cn_reads c1) []) as Hr.
  destruct (read_phase _ _ _ []) as [[[resp rest]|e] events].
  - destruct Hr as (sk & buf & v & Hc & Hsk & Hv & Hid & -> & ->). split; [done|]. exists l. split; [congruence|]. split; [done|].
    right. exists sk, buf, v. eexists. do 3 (split; [done|]). split; [reflexivity|]. split; [done|]. split; [by exists c1|]. split; [done|]. by apply Ht.
  - split; [done|]. exists l. split; [congruence|]. split; [done|]. left. by exists e.
Qed.

(** ** Attached and standalone agree *)

Context {DL : DisplayLaws}.

Lemma wrap_i32_id z : (- 2 ^ 31 ≤ z < 2 ^ 31)%Z → wrap_i32 z = z.
Proof. intros H. unfold wrap_i32. rewrite Z.mod_small by lia. lia. Qed.
Lemma as_i64_int z : (- 2 ^ 31 ≤ z < 2 ^ 31)%Z → as_i64 (int_value z) = Some z.
Proof.
  intros H. unfold int_value. destruct (Z.ltb_spec z 0); [done|]. cbn [as_i64].
  destruct (N.ltb_spec (Z.to_N z) (2 ^ 63)); [by rewrite Z2N.id|]. exfalso.
  assert (Z.of_N (2 ^ 63) ≤ Z.of_N (Z.to_N z))%Z as Hz by (by apply N2Z.inj_le). rewrite Z2N.id in Hz by done. lia.
Qed.
Definition code_fits (r : IpcResponse) : Prop := match r with IpcErr _ code _ _ => (- 2 ^ 31 ≤ code < 2 ^ 31)%Z | _ => True end.
Lemma reply_survives_the_wire r :
  code_fits r → ipc_response_to_call_tool_result (parse_ipc_response (response_value r)) = ipc_response_to_call_tool_result r.
Proof.
  destruct r as [i res|i code m d]; [done|]. intros H.
  set (err := (#"code", int_value code) :: (#"message", VString (show m)) :: match d with Some d => [(#"data", d)] | None => [] end).
  assert (get #"error" (response_value (IpcErr i code m d)) = Some (VObject err)) as He by reflexivity.
  assert (get #"code" (VObject err) = Some (int_value code)) as Hc by reflexivity.
  assert (get #"message" (VObject err) = Some (VString (show m))) as Hm by reflexivity.
  assert (get #"data" (VObject err) = d) as Hd by (by destruct d).
  unfold parse_ipc_response. rewrite He, Hc, Hm, Hd. cbn [mbind option_bind]. rewrite as_i64_int by done. cbn [as_str from_option].
  change (Datatypes.id code) with code. rewrite wrap_i32_id by done. cbn [ipc_response_to_call_tool_result].
  change (Datatypes.id (show m)) with (show m). by rewrite show_str.
Qed.
Lemma dispatch_fits {St} `{HD : Handlers St} req progress s : let '(r, _, _) := dispatch req progress s in code_fits r.
Proof. unfold dispatch. destruct (handle req progress s) as [[[res|e] ev] s']; [done|]. destruct e; cbn; lia. Qed.

(** A value that a line carries: its text is not blank and reads back as the value. *)
Definition carried (v : value) : Prop := nonempty (trim (json_print v)) = true ∧ json_parse (trim (json_print v)) = Some v.
Definition reply_id (r : IpcResponse) : value := match r with IpcOk i _ | IpcErr i _ _ _ => i end.
Lemma read_served t id events resp rest acc :
  Forall (λ e, is_progress e = true ∧ carried e) events → carried (response_value resp) → reply_id resp = VNumber (PosInt id) →
  read_phase t id ((RLine ∘ json_print <$> events) ++ RLine (json_print (response_value resp)) :: rest) acc =
    (Ok (parse_ipc_response (response_value resp), rest), acc ++ events).
Proof.
  intros He [Hn Hp] Hid. revert acc. induction He as [|e events [Hpr [Hne Hpe]] _ IH]; intros acc.
  - cbn [fmap list_fmap app read_phase]. rewrite Hn, Hp. cbn [negb].
    assert (is_progress (response_value resp) = false) as -> by (by destruct resp).
    assert (get #"id" (response_value resp) = Some (reply_id resp)) as -> by (by destruct resp).
    rewrite Hid. cbn [mbind option_bind as_u64]. rewrite bool_decide_eq_true_2 by done. by rewrite app_nil_r.
  - cbn [fmap list_fmap app read_phase compose]. rewrite Hne, Hpe, Hpr. cbn [negb]. rewrite IH. by rewrite <- app_assoc.
Qed.

Section agree.
Context {St : Type} {HD : Handlers St} (parse_error : str → str).

Lemma dispatch_reply_id req progress (s : St) : reply_id (dispatch req progress s).1.1 = rq_id req.
Proof. unfold dispatch. destruct (handle req progress s) as [[[res|e] ev] s']; [done|]. by destruct e. Qed.
(** The number of a request is only echoed. *)
Lemma dispatch_alike i j m ps qs progress (s : St) :
  (∀ p, run_handler m ps p s = run_handler m qs p s) →
  let '(r, events, s1) := dispatch {| rq_id := i; rq_method := m; rq_params := ps |} progress s in
  let '(r', events', s1') := dispatch {| rq_id := j; rq_method := m; rq_params := qs |} progress s in
  ipc_response_to_call_tool_result r = ipc_response_to_call_tool_result r' ∧ events = events' ∧ s1 = s1'.
Proof.
  intros H. unfold dispatch.
  assert (handle {| rq_id := i; rq_method := m; rq_params := ps |} progress s = handle {| rq_id := j; rq_method := m; rq_params := qs |} progress s) as ->.
  { unfold handle. cbn [rq_method rq_params]. destruct (negb _ && _); [done|]. destruct (List.find _ _) as [[k takes]|]; [|done]. by rewrite H. }
  destruct (handle _ progress s) as [[[res|e] ev] s']; [done|]. by destruct e.
Qed.

(** A call that both ways carry alike: no progress token of the client's own among the arguments, a
    handler that does not look at one, and a request, events and a reply that lines carry. *)
Definition fits (m : str) (args : object) (progress : bool) (s : St) : Prop :=
  let ps := with_progress_token progress (VObject args) in
  obj_get #"_progress_token" args = None ∧
  (∀ p, run_handler m ps p s = run_handler m (VObject args) p s) ∧
  ∀ id, carried (request_value id m ps) ∧
    let '(resp, events, _) := dispatch {| rq_id := VNumber (PosInt id); rq_method := m; rq_params := ps |} progress s in
    Forall (λ e, is_progress e = true ∧ carried e) events ∧ carried (response_value resp).

Lemma token_asks_streaming progress args :
  obj_get #"_progress_token" args = None → wants_streaming (with_progress_token progress (VObject args)) = progress.
Proof.
  intros H. unfold wants_streaming, with_progress_token. destruct progress; [|by cbn [get]; rewrite H].
  rewrite H. cbn [get]. by rewrite obj_get_insert, bool_decide_eq_true_2.
Qed.
Lemma serve_request id m args progress (s : St) :
  fits m args progress s →
  let ps := with_progress_token progress (VObject args) in
  let '(resp, events, s') := dispatch {| rq_id := VNumber (PosInt id); rq_method := m; rq_params := ps |} progress s in
  serve_line parse_error (json_print (request_value id m ps)) s =
    ((json_print <$> events) ++ [json_print (response_value resp)], bool_decide (m = #"knowledge_close"), s').
Proof.
  intros (Hno & _ & Hc). cbv zeta. specialize (Hc id) as [[Hn Hp] _]. unfold serve_line. rewrite Hn, Hp. cbn [negb].
  assert (Some (request_value id m (with_progress_token progress (VObject args))) ≫= read_request =
    Some {| rq_id := VNumber (PosInt id); rq_method := m; rq_params := with_progress_token progress (VObject args) |}) as -> by reflexivity.
  cbn [rq_method rq_params]. rewrite token_asks_streaming by done.
  by destruct (dispatch _ progress s) as [[resp events] s'].
Qed.

(** The client, its socket and the service as one backend: the service reads the line a call writes
    and the call reads the lines the service writes. *)
Definition deliver (lines : list str) (c : connection) : connection := {| cn_writes := cn_writes c; cn_reads := cn_reads c ++ (RLine <$> lines) |}.
Definition joint_call (method : str) (params : value) (progress : bool) (x : AttachedBackend * world * St) : IpcResponse * list value * (AttachedBackend * world * St) :=
  let '(a, w, s) := x in
  let line := json_print (request_value (ab_next_id a) method (with_progress_token progress params)) in
  let '(out, _, s') := serve_line parse_error line s in
  let '(r, events, aw) := attached_call method params progress (with_stream (deliver out <$> ab_stream a) a, w) in
  (r, events, (aw, s')).
#[local] Instance JointMcp : McpBackend (AttachedBackend * world * St) := {| is_attached := true; backend_call := joint_call |}.
#[local] Existing Instance StandaloneBackend.

(** Connected, with every write taken and nothing left to read. *)
Definition linked (a : AttachedBackend) : Prop :=
  ∃ c, ab_stream a = Some c ∧ cn_reads c = [] ∧ Forall (λ o, o = Taken) (cn_writes c).

Lemma joint_call_agrees m args progress a w (s : St) :
  linked a → fits m args progress s →
  let '(r, events, (a', w', s1)) := joint_call m (VObject args) progress (a, w, s) in
  let '(r', events', s1') := backend_call (McpBackend := StandaloneBackend) m (VObject args) progress s in
  ipc_response_to_call_tool_result r = ipc_response_to_call_tool_result r' ∧
  (if progress then events else []) = (if progress then events' else []) ∧ s1 = s1' ∧ linked a'.
Proof.
  intros (c & Hc & Hr & Hw) Hf. pose proof Hf as (_ & Hblind & Hcar). cbn [backend_call StandaloneBackend].
  set (ps := with_progress_token progress (VObject args)) in *.
  pose proof (serve_request (ab_next_id a) m args progress s Hf) as Hs. fold ps in Hs. cbv zeta in Hs.
  specialize (Hcar (ab_next_id a)) as [_ Hcar].
  pose proof (dispatch_alike (VNumber (PosInt (ab_next_id a))) VNull m ps (VObject args) progress s Hblind) as Ha.
  pose proof (dispatch_fits {| rq_id := VNumber (PosInt (ab_next_id a)); rq_method := m; rq_params := ps |} progress s) as Hcode.
  pose proof (dispatch_reply_id {| rq_id := VNumber (PosInt (ab_next_id a)); rq_method := m; rq_params := ps |} progress s) as Hid.
  destruct (dispatch {| rq_id := VNumber _; rq_method := m; rq_params := ps |} progress s) as [[resp events] s'].
  destruct (dispatch {| rq_id := VNull; rq_method := m; rq_params := VObject args |} progress s) as [[resp0 events0] s0].
  destruct Ha as (Hres & <- & <-). destruct Hcar as [Hev Hresp]. cbn [fst rq_id] in Hid.
  unfold joint_call. fold ps. rewrite Hs, Hc. cbn [fmap option_fmap option_map]. unfold attached_call. fold ps.
  cbn [with_stream ab_next_id ab_stream ab_socket_path ab_call_timeout ensure_stream]. unfold write_phase, write_request.
  assert (default Taken (head (cn_writes (deliver ((json_print <$> events) ++ [json_print (response_value resp)]) c))) = Taken) as ->.
  { cbn [cn_writes deliver]. by destruct Hw as [|o l ->]. }
  cbn [cn_reads cn_writes deliver]. rewrite Hr, fmap_app, <- list_fmap_compose. cbn [app fmap list_fmap].
  rewrite (read_served _ _ _ _ [] []) by done. cbn [app]. split; [by rewrite reply_survives_the_wire|].
  split; [by destruct progress|]. split; [done|]. eexists. split; [reflexivity|]. split; [done|]. cbn [cn_writes].
  destruct Hw; [constructor|done].
Qed.

(** A client's session: calls one after the other, with what it is shown for each. *)
Record tool_call := { tc_name : str; tc_args : option object; tc_token : bool }.
Fixpoint session {St' : Type} {MB : McpBackend St'} (sv : LcgMcpServer) (calls : list tool_call) (s : St') :
    list (result McpError CallToolResult * list (N * option str)) * St' :=
  match calls with
  | [] => ([], s)
  | c :: calls =>
      let o := call_tool sv (tc_name c) (tc_args c) (tc_token c) s in
      let '(rs, s) := session sv calls (co_state o) in ((co_result o, co_notified o) :: rs, s)
  end.
Fixpoint session_fits (sv : LcgMcpServer) (calls : list tool_call) (s : St) : Prop :=
  match calls with
  | [] => True
  | c :: calls =>
      tc_name c ≠ #"knowledge_close" ∧
      fits (tc_name c) (default [] (tc_args c)) (tc_token c && is_streaming_method (tc_name c)) s ∧
      session_fits sv calls (co_state (call_tool sv (tc_name c) (tc_args c) (tc_token c) s))
  end.

Lemma visible_either_way sv sv' spec :
  sv_scopes sv = sv_scopes sv' → ts_name spec ≠ #"knowledge_close" →
  is_tool_visible (MB := JointMcp) sv spec = is_tool_visible (MB := StandaloneBackend) sv' spec.
Proof. intros H Hn. unfold is_tool_visible. rewrite H. by rewrite !(bool_decide_eq_false_2 (ts_name spec = _)) by done. Qed.
Lemma found_either_way sv sv' name :
  sv_scopes sv = sv_scopes sv' → name ≠ #"knowledge_close" →
  find_visible (MB := JointMcp) sv name = find_visible (MB := StandaloneBackend) sv' name.
Proof.
  intros H Hn. unfold find_visible. generalize registry as l. induction l as [|t l IH]; [done|]. cbn [List.find].
  destruct (decide (ts_name t = name)) as [Ht|Ht].
  - rewrite (visible_either_way sv sv' t H) by congruence. by rewrite IH.
  - rewrite bool_decide_eq_false_2 by done. cbn [andb]. by rewrite IH.
Qed.

(** C14. Attached mode is standalone mode: over a live connection, a session of tool calls through the
    socket shows the client the same results and the same progress notifications, call by call, as
    the same session on a server that owns the database, and leaves the service in the same state
    and the connection idle, for calls that carry no progress token of their own among the
    arguments, do not close the service, and whose request, events and reply lines can carry. *)
Theorem attached_mode_is_standalone_mode sv sv' calls a w (s : St) :
  sv_scopes sv = sv_scopes sv' → linked a → session_fits sv' calls s →
  let '(rs, (a', _, s1)) := session (MB := JointMcp) sv calls (a, w, s) in
  (rs, s1) = session (MB := StandaloneBackend) sv' calls s ∧ linked a'.
Proof.
  intros Hsc. revert a w s. induction calls as [|c calls IH]; intros a w s Hl; [done|]. intros (Hn & Hf & Hrest). cbn [session].
  assert (let o := call_tool (MB := JointMcp) sv (tc_name c) (tc_args c) (tc_token c) (a, w, s) in
    let o' := call_tool (MB := StandaloneBackend) sv' (tc_name c) (tc_args c) (tc_token c) s in
    co_result o = co_result o' ∧ co_notified o = co_notified o' ∧ ∃ a1 w1, co_state o = (a1, w1, co_state o') ∧ linked a1) as Hstep.
  { cbv zeta. unfold call_tool. rewrite (found_either_way sv sv') by done.
    destruct (find_visible sv' (tc_name c)) as [spec|] eqn:Hv; [|eauto 6].
    apply find_visible_Some in Hv as (_ & Hname & _). destruct (missing_required _ _); [|eauto 6]. rewrite Hname.
    pose proof (joint_call_agrees _ _ _ a w s Hl Hf) as Hj. unfold backend_call in *. cbn [JointMcp] in *.
    destruct (joint_call _ _ _ (a, w, s)) as [[r events] [[a1 w1] s1]].
    cbn [StandaloneBackend] in *. destruct (dispatch _ _ s) as [[r' events'] s1'].
    destruct Hj as (-> & He & -> & Hl1). cbn [co_result co_notified co_state]. split; [done|]. split; [|by exists a1, w1].
    destruct (tc_token c && is_streaming_method (tc_name c)); [by rewrite He|done]. }
  destruct Hstep as (Hr & Hno & a1 & w1 & Hst & Hl1). rewrite Hr, Hno, Hst. specialize (IH a1 w1 _ Hl1 Hrest).
  destruct (session (MB := JointMcp) sv calls _) as [rs [[a' w'] s']]. destruct IH as [IH Hl']. rewrite <- IH. done.
Qed.
End agree.

(** A null token among the client's own arguments keeps the service from streaming: the client asked
    for progress, a server that owns the database streams, and the socket client's request does not. *)
Lemma null_token_stops_streaming args :
  obj_get #"_progress_token" args = Some VNull → wants_streaming (with_progress_token true (VObject args)) = false.
Proof. intros H. unfold wants_streaming, with_progress_token. rewrite H. cbn [get]. by rewrite H. Qed.
End client.

(** ** The dispatcher *)

Section dispatcher.
Context {DI : Display} {St : Type} {HD : Handlers St}.

(** The dispatcher answers every request, with the request's own number.  While the database is
    unavailable every method outside the eight that need none is refused with the code -32001 and
    nothing happens; an unknown method is an error and nothing happens; closing answers at once;
    and any other method is its handler's answer, with progress only when the method takes it. *)
Theorem dispatch_by_cases req progress (s : St) :
  let '(r, events, s') := dispatch req progress s in
  let m := rq_method req in
  reply_id r = rq_id req ∧
  if negb (exempt_in_degraded m) && negb (db_open s) then
    (∃ d, r = IpcErr (rq_id req) (-32001) (TMsg (Msg "DB unavailable, recovery required" [])) (Some d)) ∧ events = [] ∧ s' = s
  else if negb (bool_decide (m ∈ METHODS.*1)) then (∃ e, r = IpcErr (rq_id req) (-32000) (TErr e) None) ∧ events = [] ∧ s' = s
  else if bool_decide (m = #"knowledge_close") then r = IpcOk (rq_id req) (VObject [(#"status", VString #"closed")]) ∧ events = [] ∧ s' = s
  else ∃ takes answer evs, (m, takes) ∈ METHODS ∧ run_handler m (rq_params req) (progress && takes) s = (answer, evs, s') ∧
    events = (if progress && takes then evs else []) ∧
    match answer with Ok v => r = IpcOk (rq_id req) v | Err _ => ∃ code msg data, r = IpcErr (rq_id req) code msg data end.
Proof.
  pose proof (dispatch_reply_id req progress s) as Hid. unfold dispatch in *. unfold handle in *.
  destruct (negb (exempt_in_degraded (rq_method req)) && negb (db_open s)) eqn:Hg.
  { split; [done|]. split; [by eexists|done]. }
  destruct (List.find _ METHODS) as [[k takes]|] eqn:Hf.
  - apply List.find_some in Hf as [Hin Hk]. cbn in Hk. apply bool_decide_eq_true in Hk as ->. apply list_elem_of_In in Hin.
    rewrite (bool_decide_eq_true_2 (rq_method req ∈ METHODS.*1)) by (by apply (list_elem_of_fmap_2 fst _ (rq_method req, takes))). cbn [negb].
    case_bool_decide as Hc; [done|]. destruct (run_handler _ _ _ s) as [[answer evs] s'] eqn:Hr. split; [exact Hid|].
    exists takes, answer, evs. split; [done|]. split; [done|]. split; [done|]. destruct answer as [v|e]; [done|]. destruct e; by repeat eexists.
  - rewrite (bool_decide_eq_false_2 (rq_method req ∈ METHODS.*1)).
    + split; [exact Hid|]. split; [by eexists|done].
    + intros ([k takes] & Hk & Hin)%list_elem_of_fmap. apply list_elem_of_In in Hin. pose proof (List.find_none _ _ Hf _ Hin) as Hn.
      cbn in Hn, Hk. by rewrite bool_decide_eq_true_2 in Hn.
Qed.
End dispatcher.

(** ** Witnesses *)

#[local] Instance toy_display : Display := {| show t := match t with TStr s => s | TMsg _ => #"message" | TErr _ => #"error" end |}.
#[local] Instance toy_display_laws : DisplayLaws.
Proof. by split. Qed.
(** A service that counts its calls and reports them. *)
#[local] Instance counting : Handlers N := {|
  db_open _ := true; degraded_reason _ := None;
  run_handler m ps p n := (Ok (VNumber (PosInt n)), [VObject [(#"type", VString #"progress"); (#"message", VString #"one")]], (n + 1)%N);
|}.

Lemma trim_solid s : Forall (λ c, is_whitespace c = false) s → trim s = s.
Proof.
  intros H. unfold trim, trim_matches, trim_end_matches.
  assert (∀ l, Forall (λ c, is_whitespace c = false) l → drop_while is_whitespace l = l) as Hd.
  { intros l Hl. destruct Hl as [|c l Hc _]; [done|]. cbn [drop_while]. by rewrite Hc. }
  rewrite (Hd s H), Hd; [apply reverse_involutive|]. by apply Forall_reverse.
Qed.
Lemma line_carried v : distinct_keys v = true → carried (AC := LineAttrs) v.
Proof.
  intros H. unfold carried.
  assert (trim (@json_print LineAttrs v) = @json_print LineAttrs v) as ->.
  { apply trim_solid. cbn [json_print LineAttrs]. unfold print_any. induction (countable.encode _); cbn [pos_str]; constructor; done. }
  pose proof (json_reparse (AC := LineAttrs) v H) as Hr. split; [|done]. destruct (@json_print LineAttrs v); [|done].
  by rewrite (json_empty (AC := LineAttrs)) in Hr.
Qed.
Lemma counting_fits m (args : object) progress n :
  obj_get #"_progress_token" args = None → distinct_keys (VObject args) = true →
  fits (AC := LineAttrs) m args progress n.
Proof.
  intros Hno Hd. split; [done|]. split; [done|]. intros i.
  assert (distinct_keys (with_progress_token progress (VObject args)) = true) as Hps.
  { unfold with_progress_token. destruct progress; [|done]. rewrite Hno. by apply distinct_insert. }
  split.
  - apply line_carried. unfold request_value. generalize (with_progress_token progress (VObject args)) Hps. intros v Hv.
    apply distinct_object. split; [apply (bool_decide_unpack _); vm_compute; exact I|]. set_solver.
  - unfold dispatch, handle. cbn [rq_method rq_params rq_id db_open degraded_reason run_handler counting]. rewrite andb_false_r.
    destruct (List.find _ METHODS) as [[k takes]|].
    + case_bool_decide.
      * split; [constructor|]. apply line_carried. by vm_compute.
      * split.
        -- destruct (progress && takes); [|constructor]. constructor; [|constructor]. split; [by vm_compute|]. apply line_carried. by vm_compute.
        -- apply line_carried. by vm_compute.
    + split; [constructor|]. apply line_carried. by vm_compute.
Qed.

Definition toy_server (attached : bool) : LcgMcpServer := {| sv_scopes := [Read; Admin]; sv_allow_remote_close := attached; sv_has_shutdown_ct := negb attached |}.
Definition toy_client : AttachedBackend := {| ab_stream := Some {| cn_writes := []; cn_reads := [] |}; ab_socket_path := #"s"; ab_next_id := 1; ab_call_timeout := 30000 |}.
Definition toy_world : world := {| wd_dials := []; wd_sent := [] |}.
(** A read, a rebuild with progress, a call outside the scopes and one without its argument. *)
Definition toy_session : list tool_call := [
  {| tc_name := #"knowledge_status"; tc_args := None; tc_token := false |};
  {| tc_name := #"knowledge_rebuild_from_wal"; tc_args := Some [(#"group_id", VString #"g")]; tc_token := true |};
  {| tc_name := #"knowledge_query_cypher"; tc_args := Some [(#"query", VString #"q")]; tc_token := false |};
  {| tc_name := #"knowledge_find_entities"; tc_args := None; tc_token := false |}].
(** The first two reach the service, the second with a notification. *)
Example toy_session_runs :
  session (MB := StandaloneBackend) (toy_server false) (take 3 toy_session) 0%N =
    ([(Ok (Structured (VNumber (PosInt 0))), []);
      (Ok (Structured (VNumber (PosInt 1))), [(1%N, Some #"one")]);
      (Err (UnknownTool #"knowledge_query_cypher"), [])], 2%N).
Proof. vm_compute. reflexivity. Qed.

Lemma attached_mode_is_standalone_mode_witness :
  linked toy_client ∧
  let '(rs, (a', _, s1)) := session (MB := JointMcp (AC := LineAttrs) (λ e, e)) (toy_server true) toy_session (toy_client, toy_world, 0%N) in
  (rs, s1) = session (MB := StandaloneBackend) (toy_server false) toy_session 0%N ∧ linked a'.
Proof.
  assert (linked toy_client) as Hl by (eexists; split; [reflexivity|]; split; [reflexivity|constructor]).
  split; [exact Hl|].
  apply (attached_mode_is_standalone_mode (AC := LineAttrs) (λ e, e) (toy_server true) (toy_server false) toy_session toy_client toy_world 0%N); [reflexivity|exact Hl|].
  cbn [session_fits toy_session tc_name tc_args tc_token].
  repeat (split; [discriminate|split; [apply counting_fits; vm_compute; reflexivity|]]). exact I.
Defined.

Lemma tool_calls_are_gated_witness :
  parse_list #"read, cypher" = Ok [Read; Cypher] ∧
  ∃ spec tok, spec ∈ registry ∧ ts_name spec = #"knowledge_query_cypher" ∧
    tok ∈ split_on (N.eqb 44) #"read, cypher" ∧ ts_scope spec ∈ granted tok ∧
    Forall (given [(#"query", VString #"q")]) (ts_required spec) ∧
    (#"knowledge_query_cypher" = #"knowledge_close" → is_attached (McpBackend := StandaloneBackend) = true → false = true) ∧
    (#"knowledge_query_cypher" = #"knowledge_query_cypher" → trim tok = #"cypher" ∨ trim tok = #"all").
Proof.
  split; [vm_compute; reflexivity|].
  apply (tool_calls_are_gated (MB := StandaloneBackend) {| sv_scopes := [Read; Cypher]; sv_allow_remote_close := false; sv_has_shutdown_ct := true |}
    #"read, cypher" #"knowledge_query_cypher" (Some [(#"query", VString #"q")]) false 0%N); [vm_compute; reflexivity|].
  left. vm_compute. discriminate.
Defined.
