(* ===== verification/Passes.v ===== *)
(** * Passes: typing a group's edges again and embedding its summaries again (core/src/backfill.rs,
    core/src/reprocess_relations.rs, core/src/backfill_summary_embeddings.rs, with their handlers
    in core/src/handlers.rs)

    The tables are lists of rows, read in pages and written in batches, one hold of the lock each;
    [pd_others] is what other writers do before the lock is taken.  A statement that succeeds is in
    the table at once, and is in the log when its batch is flushed.  Progress events are left out. *)

From S2P Require Import Prelude Text Numbers Json WalGeneration WalScan Checkpoint WalGroup Wal LegacyWal Replay WalExec Pointer Ontology SummaryMerge Replies Prompts Extraction Graph IdentifierVeto Embedder Search DedupSearch EpisodeFilter Canonicalize Assert Reprocess PageReads.

(** One write of a type: guarded, it fills an empty column only. *)
Record type_write := { tw_uuid : str; tw_type : str; tw_guarded : bool }.
Definition untyped_row (r : edge_row) : bool := match rw_type r with None | Some [] => true | _ => false end.
Definition apply_type (tw : type_write) (table : list edge_row) : list edge_row :=
  (λ r, if bool_decide (rw_uuid r = tw_uuid tw) && (negb (tw_guarded tw) || untyped_row r)
        then {| rw_uuid := rw_uuid r; rw_group := rw_group r; rw_name := rw_name r; rw_fact := rw_fact r; rw_type := Some (tw_type tw) |} else r) <$> table.

Class PassDeps (W : Type) := {
  pd_db : W → bool;
  pd_connect_error : W → option str;
  pd_page_error : W → nat → option str;
  pd_others : W → list edge_row → list edge_row;
  pd_classify : list (str * str) → list (str * option str) → W → result Error (list str) * W;
  pd_exec_error : W → type_write → option Error;
  pd_flush : str → list type_write → W → option (N * option str) * W;
  pd_position_ok : W → bool;
  pd_identity : str * Z;
  pd_next : W → W;
  pd_display : Error → str;
}.

(** ** Shared parts *)

Section edges.
Context {U : Unicode} {W : Type} {PD : PassDeps W}.
Record pst := { ps_world : W; ps_table : list edge_row; ps_positions : positions; ps_log : list type_write }.

(** The lock is taken and a connection opened. *)
Definition enter (s : pst) : result Error unit * pst :=
  let s' := {| ps_world := pd_next (ps_world s); ps_table := pd_others (ps_world s) (ps_table s); ps_positions := ps_positions s; ps_log := ps_log s |} in
  match pd_connect_error (ps_world s) with
  | Some e => (Err (Ipc (Msg "db: {e}" [AStr e])), s')
  | None => (Ok tt, s')
  end.
(** The edges of a group, by pages. *)
Definition read_group (group_id : str) (s : pst) : result Error (list EdgeRecord) * pst :=
  match enter s with
  | (Err e, s) => (Err e, s)
  | (Ok _, s) => (read_pages (S (length (ps_table s))) (ps_table s) group_id (pd_page_error (ps_world s)) 0, s)
  end.
(** The statements in order, up to the first that fails; [true] when all succeeded. *)
Fixpoint exec_writes (batch : list type_write) (table : list edge_row) (w : W) : option Error * list edge_row * W :=
  match batch with
  | [] => (None, table, w)
  | tw :: batch =>
      match pd_exec_error w tw with
      | Some e => (Some e, table, pd_next w)
      | None => exec_writes batch (apply_type tw table) (pd_next w)
      end
  end.
(** One hold of the lock.  A failing statement leaves at once: what succeeded before it is in the
    table and is never handed to the log.
    Source: core/src/reprocess_relations.rs 276-313 (reprocess_relation_types) *)
Definition write_types_batch (group_id : str) (batch : list type_write) (s : pst) : result Error unit * pst :=
  match enter s with
  | (Err e, s) => (Err e, s)
  | (Ok _, s) =>
      match exec_writes batch (ps_table s) (ps_world s) with
      | (Some e, table, w) => (Err e, {| ps_world := w; ps_table := table; ps_positions := ps_positions s; ps_log := ps_log s |})
      | (None, table, w) =>
          let '(seq, w) := pd_flush group_id batch w in
          (Ok tt, {| ps_world := w; ps_table := table;
                     ps_positions := advance_wal_position (pd_position_ok w) group_id seq pd_identity (ps_positions s);
                     ps_log := ps_log s ++ batch |})
      end
  end.
Fixpoint write_types_batches (group_id : str) (batches : list (list type_write)) (s : pst) : result Error unit * pst :=
  match batches with
  | [] => (Ok tt, s)
  | b :: batches => match write_types_batch group_id b s with (Ok _, s) => write_types_batches group_id batches s | out => out end
  end.

(** ** Filling empty types *)

(** Source: core/src/backfill.rs 92-100 (derive_relation_type) *)
Definition derive_relation_type (name fact : str) : str :=
  if nonempty name && negb (contains [8594%N] name) && negb (contains #"->" name) then
    let normalized := normalize_relation_type name in
    if nonempty normalized then normalized else derive_relation_type_from_fact fact
  else derive_relation_type_from_fact fact.
(** Source: core/src/backfill.rs 44-49 (BackfillReport) *)
Record BackfillReport := { br_group : str; br_total : nat; br_backfilled : nat; br_dry_run : bool }.
Definition backfill_write (e : EdgeRecord) : type_write :=
  {| tw_uuid := er_uuid e; tw_type := derive_relation_type (er_name e) (er_fact e); tw_guarded := true |}.
(** Source: core/src/backfill.rs 116-237 (backfill_relation_types) *)
Definition backfill_relation_types (group_id : str) (dry_run : bool) (s : pst) : result Error BackfillReport * pst :=
  if negb (pd_db (ps_world s)) then (Err (DbUnavailable (Msg "DB unavailable" [])), s)
  else
    match read_group group_id s with
    | (Err e, s) => (Err e, s)
    | (Ok edges, s) =>
        let candidates := List.filter (λ e, match er_type e with None => true | Some _ => false end) edges in
        let report := {| br_group := group_id; br_total := length edges; br_backfilled := length candidates; br_dry_run := dry_run |} in
        if dry_run then (Ok report, s)
        else match write_types_batches group_id (batches_of (length candidates) (backfill_write <$> candidates)) s with
             | (Ok _, s) => (Ok report, s)
             | (Err e, s) => (Err e, s)
             end
    end.
(** Source: core/src/handlers.rs 5198-5207 (handle_backfill_relation_types) *)
Definition handle_backfill_relation_types (p : value) (s : pst) : result Error BackfillReport * pst :=
  match extract_required_group_id (param "group_id" p) with
  | Err e => (Err e, s)
  | Ok group_id => backfill_relation_types group_id (default false (as_bool (param "dry_run" p))) s
  end.

(** ** Classifying by the fact *)

(** Source: core/src/reprocess_relations.rs 35-44 (RelationReprocessScope) *)
Inductive RelationReprocessScope := RelUntyped | RelOffOntology | RelAll.
(** Source: core/src/reprocess_relations.rs 52-56 (EdgeCandidate) *)
Record EdgeCandidate := { ec_uuid : str; ec_fact : str; ec_current : option str }.
(** Source: core/src/reprocess_relations.rs 62-64 (is_untyped) *)
Definition is_untyped (rt : str) : bool := negb (nonempty (trim rt)).
(** Source: core/src/reprocess_relations.rs 69-71 (is_off_ontology) *)
Definition relation_off_ontology (rt : str) (type_names : gset str) : bool := is_untyped rt || negb (bool_decide (rt ∈ type_names)).
Definition in_scope (scope : RelationReprocessScope) (type_names : gset str) (rt : str) : bool :=
  match scope with RelUntyped => is_untyped rt | RelOffOntology => relation_off_ontology rt type_names | RelAll => true end.
Definition edge_candidate (e : EdgeRecord) : EdgeCandidate :=
  let rt := default [] (er_type e) in
  {| ec_uuid := er_uuid e; ec_fact := er_fact e; ec_current := if is_untyped rt then None else Some rt |}.
(** Source: core/src/reprocess_relations.rs 75-115 (list_edges_for_scope) *)
Definition list_edges_for_scope (group_id : str) (scope : RelationReprocessScope) (type_names : gset str) (s : pst) : result Error (list EdgeCandidate) * pst :=
  let '(r, s) := read_group group_id s in
  (rmap (λ edges, edge_candidate <$> List.filter (λ e, in_scope scope type_names (default [] (er_type e))) edges) r, s).
(** A batch of verdicts is padded or cut to the batch asked about.
    Source: core/src/reprocess_relations.rs 190-223 (reprocess_relation_types) *)
Fixpoint classify_relation_chunks (chunks : list (list (str * str))) (allowed : list (str * option str)) (w : W) : result Error (list str) * W :=
  match chunks with
  | [] => (Ok [], w)
  | chunk :: chunks =>
      match pd_classify chunk allowed w with
      | (Err e, w) => (Err e, w)
      | (Ok batch, w) =>
          let '(more, w) := classify_relation_chunks chunks allowed w in
          (rmap (λ more, take (length chunk) (batch ++ replicate (length chunk) []) ++ more) more, w)
      end
  end.
(** Source: core/src/reprocess_relations.rs 248-253 (reprocess_relation_types) *)
Record relation_change := { rg_uuid : str; rg_fact : str; rg_old : option str; rg_new : str }.
(** An abstention is the marker, a change unless the edge has it already.
    Source: core/src/reprocess_relations.rs 231-256 (reprocess_relation_types) *)
Definition decide_relation (onto : Ontology) (edge : EdgeCandidate) (verdict : str) : option relation_change :=
  let new_type := if nonempty verdict then verdict else UNCLASSIFIED in
  if bool_decide (ec_current edge = Some new_type) then None
  else if is_extract_false_relation onto new_type then None
  else Some {| rg_uuid := ec_uuid edge; rg_fact := ec_fact edge; rg_old := ec_current edge; rg_new := new_type |}.
Definition breakdown_of (plan : list relation_change) : gmap str nat :=
  foldl (λ m c, <[rg_new c := S (default O (m !! rg_new c))]> m) ∅ plan.
Inductive relations_result :=
| RelFailed (group_id : option str) (error : str)
| RelDry (plan : list relation_change) (breakdown : gmap str nat)
| RelDone (reclassified unchanged : nat) (group_id : str) (breakdown : gmap str nat).
Definition change_write (c : relation_change) : type_write := {| tw_uuid := rg_uuid c; tw_type := rg_new c; tw_guarded := false |}.
(** Source: core/src/reprocess_relations.rs 123-322 (reprocess_relation_types) *)
Definition reprocess_relation_types (group_id : str) (scope : RelationReprocessScope) (dry_run : bool) (onto : Ontology) (s : pst) : result Error relations_result * pst :=
  let allowed := sort_by (λ a b, str_leb a.1 b.1) ((λ rt, (rt_name rt, rt_description rt)) <$> extractable_relation_types onto) in
  match allowed with
  | [] => (Ok (RelFailed None #"every declared relation type is `extract: false`; reprocessing has no extractable type to classify into"), s)
  | _ =>
      if negb (pd_db (ps_world s)) then (Err (DbUnavailable (Msg "DB unavailable" [])), s)
      else
        match list_edges_for_scope group_id scope (relation_type_names onto) s with
        | (Err e, s) => (Err e, s)
        | (Ok [], s) => (Ok (if dry_run then RelDry [] ∅ else RelDone 0 0 group_id ∅), s)
        | (Ok candidates, s) =>
            let pairs := (λ c, (ec_fact c, default [] (ec_current c))) <$> candidates in
            let '(r, w) := classify_relation_chunks (chunks (length pairs) REPROCESS_BATCH_SIZE pairs) allowed (ps_world s) in
            let s := {| ps_world := w; ps_table := ps_table s; ps_positions := ps_positions s; ps_log := ps_log s |} in
            match r with
            | Err e => (Ok (RelFailed (Some group_id) (#"Failed to reprocess relation types: " ++ pd_display e)), s)
            | Ok verdicts =>
                let decided := zip_with (decide_relation onto) candidates verdicts in
                let plan := omap id decided in
                if dry_run then (Ok (RelDry plan (breakdown_of plan)), s)
                else match write_types_batches group_id (batches_of (length plan) (change_write <$> plan)) s with
                     | (Ok _, s) => (Ok (RelDone (length plan) (length decided - length plan) group_id (breakdown_of plan)), s)
                     | (Err e, s) => (Err e, s)
                     end
            end
        end
  end.
Definition relation_scope_of (p : value) : str + RelationReprocessScope :=
  match default #"untyped" (as_str (param "scope" p)) with
  | s => if bool_decide (s = #"untyped") then inr RelUntyped else if bool_decide (s = #"off_ontology") then inr RelOffOntology
         else if bool_decide (s = #"all") then inr RelAll else inl s
  end.
(** [resolve] is the group's own ontology or the workspace's.
    Source: core/src/handlers.rs 5236-5292 (handle_reprocess_relation_types) *)
Definition handle_reprocess_relation_types (resolve : str → option Ontology) (p : value) (s : pst) : result Error relations_result * pst :=
  let group_id := default DEFAULT_GROUP_ID (as_str (param "group_id" p)) in
  match relation_scope_of p with
  | inl other => (Ok (RelFailed None (#"unknown scope '" ++ other ++ #"'; valid values: untyped, off_ontology, all")), s)
  | inr scope =>
      match resolve group_id with
      | Some o =>
          if has_relation_types o then reprocess_relation_types group_id scope (default false (as_bool (param "dry_run" p))) o s
          else (Ok (RelFailed None #"the configured ontology declares no relation types; knowledge_reprocess_relation_types requires at least one"), s)
      | None => (Ok (RelFailed None #"knowledge_reprocess_relation_types requires a resolved ontology with relation_types defined"), s)
      end
  end.
End edges.

(** ** Embedding the summaries again *)

(** A row of the entity table, as far as the pass reads and writes it. *)
Record summary_row {V : Type} := { sr_uuid : str; sr_group : str; sr_summary : str; sr_embedding : V }.
Arguments summary_row V : clear implicits.
(** One write: an entity's vector with the text it was computed from. *)
Abbreviation summary_write V := (str * str * V)%type.
(** The four indexes, split into the one this pass owns and the others, and the flag that says they
    are all built. *)
Record indexes := { ix_summary : bool; ix_rest : bool; ix_built : bool }.
Class SummaryDeps (W V : Type) := {
  sd_db : W → bool;
  sd_connect_error : W → option str;
  sd_page_error : W → nat → option str;
  sd_others : W → list (summary_row V) * indexes → list (summary_row V) * indexes;
  sd_embed_batch : list str → W → result Error (list V) * W;
  sd_drops : W → bool;
  sd_exec_error : W → summary_write V → option Error;
  sd_create_error : W → option Error;
  sd_flush : str → list (summary_write V) → W → option (N * option str) * W;
  sd_position_ok : W → bool;
  sd_identity : str * Z;
  sd_next : W → W;
  sd_indexed : Error;
}.

Section summaries.
Context {W V : Type} {SD : SummaryDeps W V}.
Record sst := { ss_world : W; ss_rows : list (summary_row V); ss_indexes : indexes; ss_positions : positions; ss_log : list (summary_write V) }.
Definition with_indexes (i : indexes) (s : sst) : sst :=
  {| ss_world := ss_world s; ss_rows := ss_rows s; ss_indexes := i; ss_positions := ss_positions s; ss_log := ss_log s |}.
Definition with_summary_world (w : W) (s : sst) : sst :=
  {| ss_world := w; ss_rows := ss_rows s; ss_indexes := ss_indexes s; ss_positions := ss_positions s; ss_log := ss_log s |}.

(** Source: core/src/backfill_summary_embeddings.rs 56-58 (WRITE_BATCH_SIZE) *)
Definition SUMMARY_BATCH_SIZE : nat := 100.
(** Source: core/src/db.rs 3632-3655 (dump_entities_page) *)
Definition dump_entities_page (rows : list (summary_row V)) (group_id : str) (offset limit : nat) : list (summary_row V) :=
  take limit (drop offset (sort_by (λ a b, str_leb (sr_uuid a) (sr_uuid b)) (List.filter (λ r, bool_decide (sr_group r = group_id)) rows))).
(** Source: core/src/backfill_summary_embeddings.rs 122-153 (backfill_summary_embeddings) *)
Fixpoint read_summaries (fuel : nat) (rows : list (summary_row V)) (group_id : str) (page_error : nat → option str) (offset : nat) : result Error (list (summary_row V)) :=
  match fuel with
  | O => Ok []
  | S fuel =>
      match page_error offset with
      | Some e => Err (Ipc (Msg "read entities page: {e}" [AStr e]))
      | None =>
          let page := dump_entities_page rows group_id offset PAGE_SIZE in
          if (length page <? PAGE_SIZE)%nat then Ok page
          else let? more := read_summaries fuel rows group_id page_error (offset + length page) in Ok (page ++ more)
      end
  end.
(** A connection; the lock is held already. *)
Definition connect_now (s : sst) : result Error unit * sst :=
  (match sd_connect_error (ss_world s) with Some e => Err (Ipc (Msg "db: {e}" [AStr e])) | None => Ok tt end,
   with_summary_world (sd_next (ss_world s)) s).
Definition apply_summary (sw : summary_write V) (rows : list (summary_row V)) : list (summary_row V) :=
  (λ r, if bool_decide (sr_uuid r = sw.1.1) then {| sr_uuid := sr_uuid r; sr_group := sr_group r; sr_summary := sw.1.2; sr_embedding := sw.2 |} else r) <$> rows.
(** A plain [SET] is rejected while the column is indexed. *)
Fixpoint exec_summaries (batch : list (summary_write V)) (indexed : bool) (rows : list (summary_row V)) (w : W) : option Error * list (summary_row V) * W :=
  match batch with
  | [] => (None, rows, w)
  | sw :: batch =>
      match (if indexed then Some sd_indexed else sd_exec_error w sw) with
      | Some e => (Some e, rows, sd_next w)
      | None => exec_summaries batch indexed (apply_summary sw rows) (sd_next w)
      end
  end.
(** Source: core/src/backfill_summary_embeddings.rs 207-257 (backfill_summary_embeddings) *)
Fixpoint embed_batches (group_id : str) (batches : list (list (summary_row V))) (s : sst) : result Error unit * sst :=
  match batches with
  | [] => (Ok tt, s)
  | batch :: batches =>
      match sd_embed_batch (sr_summary <$> batch) (ss_world s) with
      | (Err e, w) => (Err e, with_summary_world w s)
      | (Ok embeddings, w) =>
          let writes := zip_with (λ c emb, (sr_uuid c, sr_summary c, emb)) batch embeddings in
          match connect_now (with_summary_world w s) with
          | (Err e, s) => (Err e, s)
          | (Ok _, s) =>
              match exec_summaries writes (ix_summary (ss_indexes s)) (ss_rows s) (ss_world s) with
              | (Some e, rows, w) =>
                  (Err e, {| ss_world := w; ss_rows := rows; ss_indexes := ss_indexes s; ss_positions := ss_positions s; ss_log := ss_log s |})
              | (None, rows, w) =>
                  let '(seq, w) := sd_flush group_id writes w in
                  embed_batches group_id batches
                    {| ss_world := w; ss_rows := rows; ss_indexes := ss_indexes s;
                       ss_positions := advance_wal_position (sd_position_ok w) group_id seq sd_identity (ss_positions s); ss_log := ss_log s ++ writes |}
              end
          end
      end
  end.
(** Source: core/src/db.rs 1169-1171 (drop_entity_summary_embedding_index) *)
Definition drop_entity_summary_embedding_index (w : W) (i : indexes) : indexes :=
  {| ix_summary := if sd_drops w then false else ix_summary i; ix_rest := ix_rest i; ix_built := ix_built i |}.
(** Source: core/src/db.rs 1155-1165 (create_entity_summary_embedding_index) *)
Definition create_entity_summary_embedding_index (w : W) (i : indexes) : result Error unit * indexes :=
  match sd_create_error w with
  | Some e => (Err e, i)
  | None => (Ok tt, {| ix_summary := true; ix_rest := ix_rest i; ix_built := ix_built i |})
  end.
Definition flag (b : bool) (i : indexes) : indexes := {| ix_summary := ix_summary i; ix_rest := ix_rest i; ix_built := b |}.
(** Source: core/src/backfill_summary_embeddings.rs 95-278 (backfill_summary_embeddings) *)
Definition backfill_summary_embeddings (group_id : str) (dry_run : bool) (s : sst) : result Error BackfillReport * sst :=
  if negb (sd_db (ss_world s)) then (Err (DbUnavailable (Msg "DB unavailable" [])), s)
  else
    let '(rows, i) := sd_others (ss_world s) (ss_rows s, ss_indexes s) in
    let s := {| ss_world := ss_world s; ss_rows := rows; ss_indexes := i; ss_positions := ss_positions s; ss_log := ss_log s |} in
    match connect_now s with
    | (Err e, s) => (Err e, s)
    | (Ok _, s) =>
        match read_summaries (S (length (ss_rows s))) (ss_rows s) group_id (sd_page_error (ss_world s)) 0 with
        | Err e => (Err e, s)
        | Ok entities =>
            let candidates := List.filter (λ r, nonempty (trim (sr_summary r))) entities in
            let report := {| br_group := group_id; br_total := length entities; br_backfilled := length candidates; br_dry_run := dry_run |} in
            if dry_run then (Ok report, s)
            else match candidates with
            | [] => (Ok report, s)
            | _ =>
                let s := with_indexes (flag false (ss_indexes s)) s in
                match connect_now s with
                | (Err e, s) => (Err e, s)
                | (Ok _, s) =>
                    let s := with_indexes (drop_entity_summary_embedding_index (ss_world s) (ss_indexes s)) s in
                    match embed_batches group_id (chunks (length candidates) SUMMARY_BATCH_SIZE candidates) s with
                    | (Err e, s) => (Err e, s)
                    | (Ok _, s) =>
                        match connect_now s with
                        | (Err e, s) => (Err e, s)
                        | (Ok _, s) =>
                            let '(r, i) := create_entity_summary_embedding_index (ss_world s) (ss_indexes s) in
                            match r with
                            | Err e => (Err e, with_indexes i s)
                            | Ok _ => (Ok report, with_indexes (flag true i) s)
                            end
                        end
                    end
                end
            end
        end
    end.
(** Source: core/src/handlers.rs 5220-5229 (handle_backfill_summary_embeddings) *)
Definition handle_backfill_summary_embeddings (p : value) (s : sst) : result Error BackfillReport * sst :=
  match extract_required_group_id (param "group_id" p) with
  | Err e => (Err e, s)
  | Ok group_id => backfill_summary_embeddings group_id (default false (as_bool (param "dry_run" p))) s
  end.
End summaries.
