(* ===== verification/PassesTheory.v ===== *)
(** * PassesTheory: what the passes over a group's edges and summaries change and log *)

From S2P Require Import Prelude Text Numbers Json WalGeneration WalScan Checkpoint WalGroup Wal LegacyWal Replay WalExec Pointer Ontology SummaryMerge Replies Prompts Extraction Graph IdentifierVeto Embedder Search DedupSearch EpisodeFilter Canonicalize CanonicalizeTheory Assert Reprocess PageReads Passes.

(** ** Writes to rows found by a key *)

Section keyed.
Context {Wr R : Type} (key : Wr → str) (row_key : R → str) (upd : Wr → R → R).
Hypothesis (upd_other : ∀ w r, key w ≠ row_key r → upd w r = r) (upd_key : ∀ w r, row_key (upd w r) = row_key r).
Definition written (ws : list Wr) (table : list R) : list R := foldl (λ t w, upd w <$> t) table ws.

Lemma written_rows ws table : written ws table = (λ r, foldl (λ r w, upd w r) r ws) <$> table.
Proof.
  unfold written. revert table. induction ws as [|w ws IH]; intros table; cbn [foldl]; [by rewrite list_fmap_id|].
  by rewrite IH, <- list_fmap_compose.
Qed.
Lemma row_untouched ws r : row_key r ∉ key <$> ws → foldl (λ r w, upd w r) r ws = r.
Proof.
  revert r. induction ws as [|w ws IH]; intros r; [done|]. cbn [fmap list_fmap foldl]. rewrite not_elem_of_cons. intros [Hk Hr].
  rewrite upd_other by congruence. by apply IH.
Qed.
Lemma row_written_once ws w r : NoDup (key <$> ws) → w ∈ ws → key w = row_key r → foldl (λ r w, upd w r) r ws = upd w r.
Proof.
  revert r. induction ws as [|x ws IH]; intros r; [by intros _ ?%elem_of_nil|]. cbn [fmap list_fmap foldl]. intros [Hx Hnd]%NoDup_cons Hin Hk.
  apply elem_of_cons in Hin as [->|Hin].
  - apply row_untouched. by rewrite upd_key, <- Hk.
  - rewrite upd_other; [by apply IH|]. intros He. apply Hx. rewrite He, <- Hk. by apply list_elem_of_fmap_2.
Qed.
End keyed.

Lemma filter_key_nodup {A} (key : A → str) f l : NoDup (key <$> l) → NoDup (key <$> List.filter f l).
Proof.
  intros H. apply (sublist_NoDup _ (key <$> l)); [done|]. clear H. induction l as [|r l IH]; [constructor|]. cbn. destruct (f r); cbn; by constructor.
Qed.
Lemma sorted_key_nodup {A} (key : A → str) le (l : list A) : NoDup (key <$> l) → NoDup (key <$> sort_by le l).
Proof. by rewrite (fmap_Permutation _ _ _ (sort_by_perm _ _)). Qed.
#[local] Hint Resolve filter_key_nodup sorted_key_nodup group_rows_nodup : core.

Definition retype (tw : type_write) (r : edge_row) : edge_row :=
  if bool_decide (rw_uuid r = tw_uuid tw) && (negb (tw_guarded tw) || untyped_row r)
  then {| rw_uuid := rw_uuid r; rw_group := rw_group r; rw_name := rw_name r; rw_fact := rw_fact r; rw_type := Some (tw_type tw) |} else r.
Lemma retype_other tw r : tw_uuid tw ≠ rw_uuid r → retype tw r = r.
Proof. intros H. unfold retype. by rewrite bool_decide_eq_false_2 by congruence. Qed.
Lemma retype_key tw r : rw_uuid (retype tw r) = rw_uuid r.
Proof. unfold retype. by destruct (_ && _). Qed.
Abbreviation retyped_by := (written retype).

(** ** Batches *)

Section batches.
Context {U : Unicode} {W : Type} {PD : PassDeps W}.
Implicit Types (s : @pst W) (w : W).

Lemma exec_writes_prefix batch : ∀ table w e table' w', exec_writes batch table w = (e, table', w') →
  ∃ k, k `prefix_of` batch ∧ table' = retyped_by k table ∧ (e = None → k = batch).
Proof.
  induction batch as [|tw batch IH]; intros table w e table' w'; cbn [exec_writes].
  - intros [= <- <- <-]. by exists [].
  - destruct (pd_exec_error w tw).
    + intros [= <- <- <-]. exists []. split; [apply prefix_nil|done].
    + intros (k & Hp & -> & Hk)%IH. exists (tw :: k). split; [by apply prefix_cons|]. split; [done|]. intros H. f_equal. by apply Hk.
Qed.

(** A type set by someone else is never overwritten by a guarded write: whatever the other writers
    do, as long as they keep it. *)
Definition typed (u t : str) (table : list edge_row) : Prop := ∀ r, r ∈ table → rw_uuid r = u → rw_type r = Some t.
Lemma guarded_keeps u t tw table : t ≠ [] → tw_guarded tw = true → typed u t table → typed u t (apply_type tw table).
Proof.
  intros Ht Hg H r (r0 & -> & Hr)%list_elem_of_fmap Hu. fold (retype tw r0) in *. rewrite retype_key in Hu.
  pose proof (H r0 Hr Hu) as Hty. unfold retype, untyped_row. rewrite Hg, Hty. by destruct t; rewrite ?andb_false_r.
Qed.
Lemma guarded_batches_keep u t gid batches : t ≠ [] → (∀ w tb, typed u t tb → typed u t (pd_others w tb)) →
  Forall (Forall (λ tw, tw_guarded tw = true)) batches → ∀ s r s', write_types_batches gid batches s = (r, s') →
  typed u t (ps_table s) → typed u t (ps_table s').
Proof.
  intros Ht Hothers. induction 1 as [|b batches Hb _ IH]; intros s r s'; cbn [write_types_batches]; [by intros [= <- <-]|].
  destruct (write_types_batch gid b s) as [r1 s1] eqn:Hw. intros Hrun Hty.
  assert (typed u t (ps_table s1)) as H1.
  { revert Hw. unfold write_types_batch, enter. destruct (pd_connect_error _); [intros [= <- <-]; by apply Hothers|]. cbn [ps_table ps_world].
    assert (∀ tb w e tb' w', exec_writes b tb w = (e, tb', w') → typed u t tb → typed u t tb') as Hex.
    { clear -Hb Ht. induction Hb as [|tw b Htw _ IH]; intros tb w e tb' w'; cbn [exec_writes]; [by intros [= <- <- <-]|].
      destruct (pd_exec_error w tw); [by intros [= <- <- <-]|]. intros He Htb. eapply IH; [exact He|]. by apply guarded_keeps. }
    destruct (exec_writes _ _ _) as [[[e|] tb'] w'] eqn:He.
    - intros [= <- <-]. eapply Hex; [exact He|]. by apply Hothers.
    - destruct (pd_flush gid b w') as [seq w'']. intros [= <- <-]. eapply Hex; [exact He|]. by apply Hothers. }
  destruct r1; [by eapply IH|]. by simplify_eq.
Qed.

(** No other writer interferes. *)
Hypothesis alone : ∀ w tb, pd_others w tb = tb.

Lemma write_batches_log gid batches : ∀ s r s', write_types_batches gid batches s = (r, s') →
  ∃ k lost, ps_log s' = ps_log s ++ k ∧ ps_table s' = retyped_by (k ++ lost) (ps_table s) ∧ k ++ lost `prefix_of` concat batches ∧
    (r = Ok tt → lost = [] ∧ k = concat batches).
Proof.
  induction batches as [|b batches IH]; intros s r s'; cbn [write_types_batches].
  { intros [= <- <-]. exists [], []. by rewrite app_nil_r. }
  unfold write_types_batch, enter. rewrite alone. cbn [concat]. destruct (pd_connect_error _); cbn [ps_table ps_world ps_log ps_positions].
  { intros [= <- <-]. exists [], []. rewrite !app_nil_r. split_and!; try done. apply prefix_nil. }
  destruct (exec_writes _ _ _) as [[[e|] tb'] w'] eqn:He; apply exec_writes_prefix in He as (k & Hk & -> & Hok).
  - intros [= <- <-]. exists [], k. rewrite app_nil_r. split_and!; try done. by apply prefix_app_r.
  - destruct (pd_flush gid b w') as [seq w'']. intros (k2 & lost & Hl & Ht & Hp & Hr)%IH. cbn [ps_table ps_log] in *. rewrite (Hok eq_refl) in *.
    exists (b ++ k2), lost. rewrite Hl, Ht, <- !app_assoc. split_and!; try done.
    + unfold written. by rewrite !foldl_app.
    + by apply prefix_app.
    + intros [-> ->]%Hr. done.
Qed.
Lemma read_group_exact gid s edges s' : read_group gid s = (Ok edges, s') →
  edges = edge_record <$> group_rows (ps_table s) gid ∧ ps_table s' = ps_table s ∧ ps_log s' = ps_log s ∧ ps_positions s' = ps_positions s.
Proof.
  unfold read_group, enter. rewrite alone. destruct (pd_connect_error _); [done|]. cbn [ps_table ps_world].
  destruct (read_pages _ _ _ _ _) as [l|] eqn:Hr; [|done]. intros [= <- <-]. by apply read_pages_all in Hr.
Qed.
End batches.

(** ** Filling empty types *)

Section backfill.
Context {U : Unicode} {W : Type} {PD : PassDeps W}.
Hypothesis alone : ∀ (w : W) tb, pd_others w tb = tb.

Lemma derived_nonempty name fact : derive_relation_type name fact ≠ [].
Proof.
  assert (derive_relation_type_from_fact fact ≠ []) as Hf.
  { unfold derive_relation_type_from_fact. cbv zeta. by destruct (normalize_relation_type _). }
  unfold derive_relation_type. destruct (_ && _); [|done]. cbv zeta. by destruct (normalize_relation_type name).
Qed.
(** A row after a backfill of its group. *)
Definition filled (gid : str) (r : edge_row) : edge_row :=
  if bool_decide (rw_group r = gid) && untyped_row r
  then {| rw_uuid := rw_uuid r; rw_group := rw_group r; rw_name := rw_name r; rw_fact := rw_fact r;
          rw_type := Some (derive_relation_type (rw_name r) (rw_fact r)) |} else r.
(** What a backfill of a group writes: its untyped rows, in the order of their uuids. *)
Definition empties (table : list edge_row) (gid : str) : list edge_row := List.filter untyped_row (group_rows table gid).
Definition backfill_writes (table : list edge_row) (gid : str) : list type_write := backfill_write ∘ edge_record <$> empties table gid.

Lemma empties_elem table gid r : r ∈ empties table gid ↔ r ∈ table ∧ rw_group r = gid ∧ untyped_row r = true.
Proof.
  unfold empties, group_rows. rewrite list_elem_of_In, filter_In, <- list_elem_of_In, sort_by_perm, list_elem_of_In, filter_In, <- list_elem_of_In, bool_decide_eq_true. tauto.
Qed.
Lemma candidates_are_empties table gid :
  List.filter (λ e, match er_type e with None => true | Some _ => false end) (edge_record <$> group_rows table gid) = edge_record <$> empties table gid.
Proof.
  unfold empties. generalize (group_rows table gid) as l. induction l as [|r l IH]; [done|]. cbn [fmap list_fmap List.filter]. rewrite IH.
  unfold untyped_row. cbn [edge_record er_type]. by destruct (rw_type r) as [[|]|].
Qed.
Lemma writes_nodup table gid : NoDup (rw_uuid <$> table) → NoDup (tw_uuid <$> backfill_writes table gid).
Proof.
  intros H. unfold backfill_writes. rewrite <- list_fmap_compose. change (NoDup (rw_uuid <$> empties table gid)). unfold empties. auto.
Qed.
Lemma backfill_rows table gid : NoDup (rw_uuid <$> table) → retyped_by (backfill_writes table gid) table = filled gid <$> table.
Proof.
  intros Hn. rewrite written_rows. apply list_fmap_ext. intros i r Hr. unfold filled.
  destruct (bool_decide (rw_group r = gid) && untyped_row r) eqn:Hd.
  - apply andb_true_iff in Hd as [Hg%bool_decide_eq_true Hu].
    rewrite (row_written_once tw_uuid rw_uuid retype retype_other retype_key _ (backfill_write (edge_record r))).
    + unfold retype. cbn [tw_uuid tw_guarded tw_type backfill_write er_uuid er_name er_fact edge_record]. by rewrite bool_decide_eq_true_2, Hu.
    + by apply writes_nodup.
    + apply list_elem_of_fmap. exists r. split; [done|]. apply empties_elem. split; [by eapply list_elem_of_lookup_2|done].
    + done.
  - apply (row_untouched tw_uuid rw_uuid retype retype_other). intros (tw & Htw & (r' & -> & Hr')%list_elem_of_fmap)%list_elem_of_fmap.
    apply empties_elem in Hr' as (Hr' & Hg & Hu). cbn in Htw. apply list_elem_of_lookup in Hr' as [j Hj].
    assert (i = j) as ->.
    { eapply (NoDup_lookup (rw_uuid <$> table)); [done| |]; rewrite list_lookup_fmap; [by rewrite Hr|by rewrite Hj; cbn; rewrite Htw]. }
    simplify_eq. rewrite bool_decide_eq_true_2 in Hd by done. by rewrite Hu in Hd.
Qed.
Lemma filled_again gid table : empties (filled gid <$> table) gid = [].
Proof.
  destruct (empties _ gid) as [|r l] eqn:He; [done|]. exfalso.
  assert (r ∈ empties (filled gid <$> table) gid) as (Hin & Hg & Hu)%empties_elem by (rewrite He; by left).
  apply list_elem_of_fmap in Hin as (r0 & -> & _). unfold filled in *.
  destruct (bool_decide (rw_group r0 = gid) && untyped_row r0) eqn:Hd; cbn [rw_group] in Hg.
  - cbn [untyped_row rw_type] in Hu. pose proof (derived_nonempty (rw_name r0) (rw_fact r0)). by destruct (derive_relation_type _ _).
  - rewrite bool_decide_eq_true_2 in Hd by done. by rewrite Hu in Hd.
Qed.
Lemma backfill_cases gid dry s r s' : backfill_relation_types gid dry s = (r, s') →
  match r with
  | Ok rep => rep = {| br_group := gid; br_total := length (group_rows (ps_table s) gid); br_backfilled := length (empties (ps_table s) gid); br_dry_run := dry |} ∧
      let ws := if dry then [] else backfill_writes (ps_table s) gid in
      ps_table s' = retyped_by ws (ps_table s) ∧ ps_log s' = ps_log s ++ ws
  | Err _ => ∃ k lost, k ++ lost `prefix_of` backfill_writes (ps_table s) gid ∧
      ps_table s' = retyped_by (k ++ lost) (ps_table s) ∧ ps_log s' = ps_log s ++ k
  end.
Proof.
  unfold backfill_relation_types. destruct (negb _).
  { intros [= <- <-]. exists [], []. rewrite !app_nil_r. split; [apply prefix_nil|done]. }
  destruct (read_group gid s) as [[edges|e] s1] eqn:Hr.
  2: { intros [= <- <-]. exists [], []. rewrite !app_nil_r. split; [apply prefix_nil|].
       unfold read_group, enter in Hr. destruct (pd_connect_error _); [by simplify_eq; cbn; rewrite alone|].
       injection Hr as _ <-. cbn. by rewrite alone. }
  apply read_group_exact in Hr as (-> & Ht & Hl & _); [|done]. rewrite candidates_are_empties, !length_fmap. destruct dry.
  { intros [= <- <-]. rewrite app_nil_r, Ht, Hl. done. }
  rewrite <- list_fmap_compose. fold (backfill_writes (ps_table s) gid).
  destruct (write_types_batches _ _ s1) as [r1 s2] eqn:Hw. apply write_batches_log in Hw as (k & lost & Hk & Htab & Hp & Hok); [|done].
  rewrite batches_concat in Hp, Hok by (unfold backfill_writes; by rewrite length_fmap). rewrite Ht in Htab. rewrite Hl in Hk.
  destruct r1 as [[]|e]; intros [= <- <-]; [|by exists k, lost]. destruct (Hok eq_refl) as [-> ->]. rewrite app_nil_r in Htab. done.
Qed.

End backfill.

(** A type that another writer sets while a backfill is under way survives the rest of it: whatever
    was read before, writing the candidates from a state in which the edge is typed leaves it so. *)
Theorem backfill_keeps_concurrent_types {U : Unicode} {W} {PD : PassDeps W} u t gid candidates (s : pst) r s' :
  t ≠ [] → (∀ w tb, typed u t tb → typed u t (pd_others w tb)) →
  write_types_batches gid (batches_of (length candidates) (backfill_write <$> candidates)) s = (r, s') →
  typed u t (ps_table s) → typed u t (ps_table s').
Proof.
  intros Ht Hothers Hw. eapply guarded_batches_keep; [exact Ht|exact Hothers| |exact Hw].
  assert (∀ fuel l, Forall (λ tw, tw_guarded tw = true) l → Forall (Forall (λ tw, tw_guarded tw = true)) (batches_of fuel l)) as H.
  { induction fuel as [|fuel IH]; intros [|x l] Hl; cbn [batches_of]; try constructor; [by apply Forall_take|]. by apply IH, Forall_drop. }
  apply H, Forall_forall. by intros tw (e & -> & _)%list_elem_of_fmap.
Qed.

(** ** Classifying by the fact *)

Section reprocess.
Context {U : Unicode} {W : Type} {PD : PassDeps W}.
Hypothesis alone : ∀ (w : W) tb, pd_others w tb = tb.

Definition scope_rows (scope : RelationReprocessScope) (onto : Ontology) (table : list edge_row) (gid : str) : list edge_row :=
  List.filter (λ r, in_scope scope (relation_type_names onto) (default [] (er_type (edge_record r)))) (group_rows table gid).
Abbreviation candidate := (edge_candidate ∘ edge_record).

Lemma scope_rows_elem scope onto table gid r : r ∈ scope_rows scope onto table gid ↔
  r ∈ table ∧ rw_group r = gid ∧ in_scope scope (relation_type_names onto) (default [] (er_type (edge_record r))) = true.
Proof.
  unfold scope_rows, group_rows. rewrite list_elem_of_In, filter_In, <- list_elem_of_In, sort_by_perm, list_elem_of_In, filter_In, <- list_elem_of_In, bool_decide_eq_true. tauto.
Qed.
Lemma scope_rows_nodup scope onto table gid : NoDup (rw_uuid <$> table) → NoDup (rw_uuid <$> scope_rows scope onto table gid).
Proof.
  intros H. unfold scope_rows. auto.
Qed.
Lemma listed_scope gid scope onto (s : pst) cands s1 : list_edges_for_scope gid scope (relation_type_names onto) s = (Ok cands, s1) →
  cands = candidate <$> scope_rows scope onto (ps_table s) gid ∧ ps_table s1 = ps_table s ∧ ps_log s1 = ps_log s.
Proof.
  unfold list_edges_for_scope. destruct (read_group gid s) as [[edges|e] s0] eqn:Hr; [|done]. cbn [rmap]. intros [= <- <-].
  apply read_group_exact in Hr as (-> & Ht & Hl & _); [|done]. split; [|done]. rewrite list_fmap_compose. f_equal. apply filter_map_swap.
Qed.
Lemma verdict_per_edge chunks allowed : ∀ w vs w', classify_relation_chunks chunks allowed w = (Ok vs, w') → length vs = length (concat chunks).
Proof.
  induction chunks as [|c chunks IH]; intros w vs w'; cbn [classify_relation_chunks concat]; [by intros [= <- <-]|].
  destruct (pd_classify c allowed w) as [[batch|e] w1]; [|done]. destruct (classify_relation_chunks chunks allowed w1) as [[more|e] w2] eqn:Hc; [|done].
  cbn [rmap]. intros [= <- <-]. apply IH in Hc. rewrite !length_app, Hc, length_take, length_app, length_replicate. lia.
Qed.

(** A planned change and the row it was planned for. *)
Record planned_change (scope : RelationReprocessScope) (onto : Ontology) (gid : str) (row : edge_row) (c : relation_change) : Prop := {
  pc_uuid : rg_uuid c = rw_uuid row;
  pc_fact : rg_fact c = rw_fact row;
  pc_group : rw_group row = gid;
  pc_scope : in_scope scope (relation_type_names onto) (default [] (er_type (edge_record row))) = true;
  pc_old : rg_old c = ec_current (candidate row);
  pc_new : rg_old c ≠ Some (rg_new c);
  pc_nonempty : rg_new c ≠ [];
  pc_extractable : is_extract_false_relation onto (rg_new c) = false;
}.
Lemma decided_uuids onto rows : ∀ vs, length vs = length rows →
  (rg_uuid <$> omap id (zip_with (decide_relation onto) (candidate <$> rows) vs)) `sublist_of` (rw_uuid <$> rows).
Proof.
  induction rows as [|r rows IH]; intros [|v vs] Hl; cbn in Hl; try done. cbn [fmap list_fmap zip_with].
  change (omap id (?x :: ?l)) with (match x with Some y => y :: omap id l | None => omap id l end).
  destruct (decide_relation onto _ v) as [c|] eqn:Hd; [|apply sublist_cons, IH; lia]. cbn [fmap list_fmap].
  assert (rg_uuid c = rw_uuid r) as ->.
  { revert Hd. unfold decide_relation. cbv zeta. case_bool_decide; [done|]. destruct (is_extract_false_relation _ _); [done|]. by intros [= <-]. }
  apply sublist_skip, IH. lia.
Qed.
Lemma decided_planned scope onto table gid vs c :
  c ∈ omap id (zip_with (decide_relation onto) (candidate <$> scope_rows scope onto table gid) vs) →
  ∃ row, row ∈ table ∧ planned_change scope onto gid row c.
Proof.
  rewrite list_elem_of_omap. intros (o & Ho & Hid). cbn in Hid. subst o. apply list_elem_of_lookup in Ho as [i Hi].
  rewrite lookup_zip_with in Hi. apply bind_Some in Hi as (e & He & Hi). apply bind_Some in Hi as (v & _ & Hi).
  rewrite list_lookup_fmap in He. destruct (scope_rows scope onto table gid !! i) as [row|] eqn:Hr; [|done]. cbn [fmap option_fmap option_map] in He.
  injection He as <-. apply list_elem_of_lookup_2, scope_rows_elem in Hr as (Hr & Hg & Hs). exists row. split; [done|].
  unfold decide_relation in Hi. cbv zeta in Hi. case_bool_decide as Hc; [done|]. destruct (is_extract_false_relation _ _) eqn:Hx; [done|].
  injection Hi as Hi. subst c. split; try done. cbn [rg_new]. by destruct v.
Qed.

Lemma relations_cases gid scope dry onto (s : pst) out s' : reprocess_relation_types gid scope dry onto s = (Ok out, s') →
  match out with
  | RelFailed _ _ => ps_table s' = ps_table s ∧ ps_log s' = ps_log s
  | RelDry p b => dry = true ∧ ps_table s' = ps_table s ∧ ps_log s' = ps_log s
  | RelDone n u g b => dry = false ∧ g = gid ∧ ∃ vs,
      length vs = length (scope_rows scope onto (ps_table s) gid) ∧
      (∃ chunks allowed w w', concat chunks = (λ r, (rw_fact r, default [] (ec_current (candidate r)))) <$> scope_rows scope onto (ps_table s) gid ∧
         classify_relation_chunks chunks allowed w = (Ok vs, w')) ∧
      let p := omap id (zip_with (decide_relation onto) (candidate <$> scope_rows scope onto (ps_table s) gid) vs) in
      n = length p ∧ n + u = length (scope_rows scope onto (ps_table s) gid) ∧ b = breakdown_of p ∧
      ps_table s' = retyped_by (change_write <$> p) (ps_table s) ∧ ps_log s' = ps_log s ++ (change_write <$> p)
  end.
Proof.
  unfold reprocess_relation_types. destruct (sort_by _ _) as [|a l] eqn:Ha; [by intros [= <- <-]|]. rewrite <- Ha. set (allowed := sort_by _ _). clearbody allowed. clear Ha a l.
  destruct (negb _); [done|]. destruct (list_edges_for_scope _ _ _ s) as [[cands|e] s1] eqn:Hl; [|done]. apply listed_scope in Hl as (-> & Ht & Hlog).
  set (rows := scope_rows scope onto (ps_table s) gid) in *.
  destruct (candidate <$> rows) as [|c l] eqn:Hc.
  { intros [= <- <-]. destruct dry; [done|]. split; [done|]. split; [done|]. apply fmap_nil_inv in Hc. exists []. rewrite Hc. split; [done|].
    split; [by exists [], [], (ps_world s), (ps_world s)|]. cbv zeta. rewrite app_nil_r. done. }
  rewrite <- Hc. clear Hc c l. cbv zeta. set (pairs := (λ c, (ec_fact c, default [] (ec_current c))) <$> (candidate <$> rows)).
  assert (concat (chunks (length pairs) REPROCESS_BATCH_SIZE pairs) = pairs) as Hcat by (apply chunks_concat; unfold REPROCESS_BATCH_SIZE; lia).
  destruct (classify_relation_chunks _ allowed (ps_world s1)) as [[vs|e] w] eqn:Hv; [|by intros [= <- <-]].
  pose proof (verdict_per_edge _ _ _ _ _ Hv) as Hlen. rewrite Hcat in Hlen. unfold pairs in Hlen. rewrite !length_fmap in Hlen.
  destruct dry; [by intros [= <- <-]|]. set (p := omap id _). destruct (write_types_batches _ _ _) as [r1 s2] eqn:Hw.
  apply write_batches_log in Hw as (k & lost & Hk & Htab & _ & Hok); [|done]. destruct r1 as [[]|e]; [|done]. intros [= <- <-].
  destruct (Hok eq_refl) as [-> ->]. rewrite batches_concat, app_nil_r in * by (by rewrite length_fmap). cbn [ps_table ps_log] in *. rewrite Ht in Htab. rewrite Hlog in Hk.
  split; [done|]. split; [done|]. exists vs. split; [done|]. split.
  { eexists _, allowed, _, w. split; [|exact Hv]. rewrite Hcat. unfold pairs. by rewrite <- list_fmap_compose. }
  cbv zeta. split; [done|]. split; [|done].
  assert (length (zip_with (decide_relation onto) (candidate <$> rows) vs) = length rows) as Hz by (rewrite length_zip_with, length_fmap; lia).
  pose proof (sublist_length _ _ (decided_uuids onto rows vs Hlen)) as Hle. rewrite !length_fmap in Hle. fold p in Hle. rewrite Hz. lia.
Qed.

(** A finished reclassification of a group's edges accounts for every edge in scope: those changed
    and those left add up to the edges read, in scope and of the group.  It logs exactly one write
    per change, each to a different edge of the scope, with a type that is not the one it has, is
    not empty and may be extracted; a changed edge has its new type and nothing else of it is
    changed, and every other edge is as it was. *)
Theorem relations_reprocessed gid scope onto (s s' : pst) n u g b :
  NoDup (rw_uuid <$> ps_table s) →
  reprocess_relation_types gid scope false onto s = (Ok (RelDone n u g b), s') →
  n + u = length (scope_rows scope onto (ps_table s) gid) ∧
  ∃ p, length p = n ∧ b = breakdown_of p ∧ ps_log s' = ps_log s ++ (change_write <$> p) ∧ NoDup (rg_uuid <$> p) ∧
    (∀ c, c ∈ p → ∃ row, row ∈ ps_table s ∧ planned_change scope onto gid row c) ∧
    ∀ i row, ps_table s !! i = Some row →
      ps_table s' !! i = Some row ∧ rw_uuid row ∉ rg_uuid <$> p ∨
      ∃ c, c ∈ p ∧ rg_uuid c = rw_uuid row ∧
        ps_table s' !! i = Some {| rw_uuid := rw_uuid row; rw_group := rw_group row; rw_name := rw_name row; rw_fact := rw_fact row; rw_type := Some (rg_new c) |}.
Proof.
  intros Hn (_ & -> & vs & Hlen & _ & Hnum & Hsum & Hb & Ht & Hl)%relations_cases. split; [done|].
  set (p := omap id _) in *. exists p. split; [done|]. split; [done|]. split; [done|].
  assert (NoDup (rg_uuid <$> p)) as Hnd.
  { eapply sublist_NoDup; [apply (scope_rows_nodup scope onto _ gid Hn)|]. by apply decided_uuids. }
  split; [done|]. split; [intros c; apply decided_planned|]. intros i row Hrow. rewrite Ht, written_rows, list_lookup_fmap, Hrow. cbn [fmap option_fmap option_map].
  assert (tw_uuid <$> (change_write <$> p) = rg_uuid <$> p) as Hkeys by (by rewrite <- list_fmap_compose).
  destruct (decide (rw_uuid row ∈ rg_uuid <$> p)) as [Hin|Hin].
  - right. apply list_elem_of_fmap in Hin as (c & Hu & Hc). exists c. split; [done|]. split; [done|].
    rewrite (row_written_once tw_uuid rw_uuid retype retype_other retype_key _ (change_write c)).
    + unfold retype. cbn [change_write tw_uuid tw_guarded tw_type]. by rewrite bool_decide_eq_true_2.
    + by rewrite Hkeys.
    + by apply list_elem_of_fmap_2.
    + done.
  - left. split; [|done]. rewrite (row_untouched tw_uuid rw_uuid retype retype_other); [done|]. by rewrite Hkeys.
Qed.

(** ** A second reclassification *)

(** A classifier that goes by the fact alone and answers with a type or abstains. *)
Context (f : str → str).
Hypothesis by_fact : ∀ chunk allowed (w : W), (pd_classify chunk allowed w).1 = Ok ((λ p, f p.1) <$> chunk).
Hypothesis no_blank : ∀ fact, f fact = [] ∨ trim (f fact) ≠ [].

Definition decision (onto : Ontology) (r : edge_row) : option relation_change := decide_relation onto (candidate r) (f (rw_fact r)).
Lemma verdicts_by_fact chunks allowed : ∀ (w : W) vs w', classify_relation_chunks chunks allowed w = (Ok vs, w') → vs = (λ p, f p.1) <$> concat chunks.
Proof.
  induction chunks as [|c chunks IH]; intros w vs w'; cbn [classify_relation_chunks concat]; [by intros [= <- <-]|].
  pose proof (by_fact c allowed w) as Hb. destruct (pd_classify c allowed w) as [r w1]. cbn [fst] in Hb. subst r.
  destruct (classify_relation_chunks chunks allowed w1) as [[more|e] w2] eqn:Hc; [|done]. cbn [rmap]. intros [= <- <-]. apply IH in Hc as ->.
  rewrite fmap_app. f_equal. apply take_app_length'. by rewrite length_fmap.
Qed.
Lemma plan_by_fact onto rows : omap id (zip_with (decide_relation onto) (candidate <$> rows) ((λ r, f (rw_fact r)) <$> rows)) = omap (decision onto) rows.
Proof.
  induction rows as [|r rows IH]; [done|]. cbn [fmap list_fmap zip_with omap list_omap id].
  change (decide_relation onto (candidate r) (f (rw_fact r))) with (decision onto r). by rewrite IH.
Qed.
Lemma decision_settled onto r c : decision onto r = Some c →
  decision onto {| rw_uuid := rw_uuid r; rw_group := rw_group r; rw_name := rw_name r; rw_fact := rw_fact r; rw_type := Some (rg_new c) |} = None.
Proof.
  unfold decision, decide_relation. cbv zeta. cbn [rw_fact]. case_bool_decide; [done|]. destruct (is_extract_false_relation _ _); [done|].
  intros [= <-]. cbn [rg_new]. set (nt := if nonempty (f (rw_fact r)) then _ else _).
  assert (trim nt ≠ [] ∧ nt ≠ []) as [Hb Hne].
  { unfold nt. destruct (no_blank (rw_fact r)) as [-> | Hb]; [by vm_compute|]. destruct (f (rw_fact r)) as [|x l] eqn:Hf; [done|]. cbn [nonempty]. split; [congruence|done]. }
  rewrite bool_decide_eq_true_2; [done|]. clearbody nt.
  assert (er_type (edge_record {| rw_uuid := rw_uuid r; rw_group := rw_group r; rw_name := rw_name r; rw_fact := rw_fact r; rw_type := Some nt |}) = Some nt) as He.
  { cbn [edge_record er_type rw_type]. by destruct nt. }
  cbn [compose]. unfold edge_candidate. cbv zeta. rewrite He. cbn [ec_current]. unfold is_untyped. change (default [] (Some nt)) with nt.
  by destruct (trim nt).
Qed.

(** Reclassifying a second time with a classifier that goes by the fact alone changes and logs nothing. *)
Theorem relation_reprocessing_idempotent gid scope onto (s s1 s2 : pst) n u g b out :
  NoDup (rw_uuid <$> ps_table s) →
  reprocess_relation_types gid scope false onto s = (Ok (RelDone n u g b), s1) →
  reprocess_relation_types gid scope false onto s1 = (Ok out, s2) →
  ps_table s2 = ps_table s1 ∧ ps_log s2 = ps_log s1.
Proof.
  intros Hn (_ & _ & vs & _ & (ch & al & w & w' & Hch & Hv) & _ & _ & _ & Ht & _)%relations_cases.
  apply verdicts_by_fact in Hv. rewrite Hch, <- list_fmap_compose in Hv. subst vs.
  change (((λ p : str * str, f p.1) ∘ (λ r, (rw_fact r, default [] (ec_current (candidate r)))))) with (λ r, f (rw_fact r)) in Ht. rewrite plan_by_fact in Ht.
  intros Hrun%relations_cases. destruct out as [ | |n2 u2 g2 b2]; [done|by destruct Hrun as (_ & ? & ?)|].
  destruct Hrun as (_ & _ & vs2 & _ & (ch2 & al2 & w2 & w2' & Hch2 & Hv2) & _ & _ & _ & Ht2 & Hl2).
  apply verdicts_by_fact in Hv2. rewrite Hch2, <- list_fmap_compose in Hv2. subst vs2.
  change (((λ p : str * str, f p.1) ∘ (λ r, (rw_fact r, default [] (ec_current (candidate r)))))) with (λ r, f (rw_fact r)) in Ht2, Hl2. rewrite plan_by_fact in Ht2, Hl2.
  assert (omap (decision onto) (scope_rows scope onto (ps_table s1) gid) = []) as Hnil; [|rewrite Hnil in Ht2, Hl2; by rewrite app_nil_r in Hl2].
  set (p := omap (decision onto) (scope_rows scope onto (ps_table s) gid)) in Ht.
  assert (∀ r2, r2 ∈ scope_rows scope onto (ps_table s1) gid → decision onto r2 = None) as Hall.
  { intros r2 (Hin & Hg & Hsc)%scope_rows_elem. rewrite Ht, written_rows in Hin. apply list_elem_of_fmap in Hin as (r & Hr2 & Hr).
    destruct (decide (rw_uuid r ∈ tw_uuid <$> (change_write <$> p))) as [Hin|Hin].
    - rewrite <- list_fmap_compose in Hin. apply list_elem_of_fmap in Hin as (c & Hu & Hc). pose proof Hc as Hcp. unfold p in Hcp.
      apply list_elem_of_omap in Hcp as (r0 & Hr0 & Hd). apply scope_rows_elem in Hr0 as (Hr0 & _ & _). cbn in Hu.
      assert (r0 = r) as ->.
      { assert (rg_uuid c = rw_uuid r0) as Hcu.
        { revert Hd. unfold decision, decide_relation. cbv zeta. case_bool_decide; [done|]. destruct (is_extract_false_relation _ _); [done|]. by intros [= <-]. }
        apply list_elem_of_lookup in Hr0 as [j Hj]. apply list_elem_of_lookup in Hr as [i Hi].
        assert (i = j) as ->; [|congruence]. eapply (NoDup_lookup (rw_uuid <$> ps_table s)); [done| |]; rewrite list_lookup_fmap; [by rewrite Hi|by rewrite Hj; cbn; rewrite Hu, Hcu]. }
      rewrite (row_written_once tw_uuid rw_uuid retype retype_other retype_key _ (change_write c)) in Hr2.
      + rewrite Hr2. unfold retype. cbn [change_write tw_uuid tw_guarded tw_type]. rewrite bool_decide_eq_true_2 by done. cbn [negb andb orb]. by apply decision_settled.
      + rewrite <- list_fmap_compose. change (NoDup (rg_uuid <$> p)). unfold p. rewrite <- plan_by_fact.
        eapply sublist_NoDup; [apply (scope_rows_nodup scope onto _ gid Hn)|]. apply decided_uuids. by rewrite length_fmap.
      + by apply list_elem_of_fmap_2.
      + done.
    - rewrite (row_untouched tw_uuid rw_uuid retype retype_other) in Hr2 by done. subst r2. destruct (decision onto r) as [c|] eqn:Hd; [|done]. exfalso. apply Hin.
      rewrite <- list_fmap_compose. apply list_elem_of_fmap. exists c. split.
      + revert Hd. unfold decision, decide_relation. cbv zeta. case_bool_decide; [done|]. destruct (is_extract_false_relation _ _); [done|]. by intros [= <-].
      + apply list_elem_of_omap. exists r. split; [|done]. by apply scope_rows_elem. }
  clear -Hall. induction (scope_rows scope onto (ps_table s1) gid) as [|r l IH]; [done|]. cbn [omap list_omap]. rewrite Hall by (by left).
  apply IH. intros r2 H2. apply Hall. by right.
Qed.
End reprocess.

(** ** Summaries *)

Section summaries.
Context {W V : Type} {SD : SummaryDeps W V}.
Implicit Types (s : @sst W V).

(** When the flag says the indexes are built, the one this pass owns is there. *)
Definition honest (i : indexes) : Prop := ix_built i = true → ix_summary i = true.
Lemma embed_batches_indexes gid batches : ∀ s r s', embed_batches gid batches s = (r, s') → ss_indexes s' = ss_indexes s.
Proof.
  induction batches as [|b batches IH]; intros s r s'; cbn [embed_batches]; [by intros [= <- <-]|].
  destruct (sd_embed_batch _ _) as [[embs|e] w]; [|by intros [= <- <-]]. unfold connect_now. destruct (sd_connect_error _); [by intros [= <- <-]|].
  destruct (exec_summaries _ _ _ _) as [[[e|] rows] w']; [by intros [= <- <-]|]. destruct (sd_flush _ _ _) as [seq w''].
  by intros ->%IH.
Qed.
(** How a run leaves the indexes. *)
Lemma summary_indexes gid dry s r s' : backfill_summary_embeddings gid dry s = (r, s') →
  ∃ i, (i = ss_indexes s ∨ i = (sd_others (ss_world s) (ss_rows s, ss_indexes s)).2) ∧
    (ss_indexes s' = i ∨ ix_built (ss_indexes s') = false ∧ is_ok r = false ∨
     ix_built (ss_indexes s') = true ∧ ix_summary (ss_indexes s') = true ∧ ix_rest (ss_indexes s') = ix_rest i ∧ is_ok r = true ∧ dry = false).
Proof.
  unfold backfill_summary_embeddings. destruct (negb _); [intros [= <- <-]; eauto|].
  destruct (sd_others _ _) as [rows i]. intros H. exists i. split; [by right|]. revert H.
  unfold connect_now. destruct (sd_connect_error _); [intros [= <- <-]; by left|]. cbn [ss_rows ss_world ss_indexes with_summary_world].
  destruct (read_summaries _ _ _ _ _) as [entities|e]; [|intros [= <- <-]; by left]. cbv zeta. destruct dry; [intros [= <- <-]; by left|].
  destruct (List.filter _ entities) as [|c cands]; [intros [= <- <-]; by left|]. cbn [with_indexes ss_world ss_indexes].
  destruct (sd_connect_error _); [intros [= <- <-]; by (right; left)|]. cbn [ss_rows ss_world ss_indexes with_summary_world].
  destruct (embed_batches _ _ _) as [[[]|e] s1] eqn:He; apply embed_batches_indexes in He; cbn [ss_indexes with_indexes] in He.
  2: { intros [= <- <-]. right. left. by rewrite He. }
  destruct (sd_connect_error _). { intros [= <- <-]. right. left. cbn [ss_indexes with_summary_world]. by rewrite He. }
  unfold create_entity_summary_embedding_index. destruct (sd_create_error _); intros [= <- <-]; cbn [ss_indexes with_indexes with_summary_world].
  - right. left. by rewrite He.
  - right. right. by rewrite He.
Qed.

(** However a run ends, and whatever fails in it, the flag that says the indexes are built is
    never left standing over a dropped summary index: a failed run that touched the index leaves
    the flag down, so that the next search builds the indexes again. *)
Theorem flag_never_covers_dropped_index gid dry s r s' :
  (∀ w rows i, honest i → honest (sd_others w (rows, i)).2) → honest (ss_indexes s) →
  backfill_summary_embeddings gid dry s = (r, s') → honest (ss_indexes s').
Proof.
  intros Ho Hs (i & Hi & Hc)%summary_indexes.
  assert (honest i) as Hh by (destruct Hi as [-> | ->]; [done|by apply Ho]).
  destruct Hc as [->|[[Hb _]|(_ & Hb & _)]]; [done|unfold honest; congruence|by intros _].
Qed.

(** But a run that succeeds raises the flag over whatever the other three indexes are: raised over
    indexes that are missing, it turns off the rebuild that would have made them. *)
Lemma flag_raised_over_others gid s r s' : (∀ w p, sd_others w p = p) → ix_built (ss_indexes s) = false →
  backfill_summary_embeddings gid false s = (r, s') → ix_built (ss_indexes s') = true →
  ix_rest (ss_indexes s') = ix_rest (ss_indexes s).
Proof.
  intros Ho Hf (i & Hi & Hc)%summary_indexes Hb. rewrite Ho in Hi. assert (i = ss_indexes s) as -> by (by destruct Hi).
  destruct Hc as [He|[[He _]|(_ & _ & He & _)]]; [by rewrite He|congruence|done].
Qed.

(** *** What is embedded *)

Hypothesis alone : ∀ (w : W) p, sd_others w p = p.
Context (embed : str → V).
(** An embedder that answers text by text. *)
Hypothesis pointwise : ∀ texts (w : W) embs, (sd_embed_batch texts w).1 = Ok embs → embs = embed <$> texts.

Definition group_entities (rows : list (summary_row V)) (gid : str) : list (summary_row V) :=
  sort_by (λ a b, str_leb (sr_uuid a) (sr_uuid b)) (List.filter (λ r, bool_decide (sr_group r = gid)) rows).
Definition described_rows (rows : list (summary_row V)) (gid : str) : list (summary_row V) :=
  List.filter (λ r, nonempty (trim (sr_summary r))) (group_entities rows gid).
Definition summary_write_of (r : summary_row V) : summary_write V := (sr_uuid r, sr_summary r, embed (sr_summary r)).
Definition put_summary (sw : summary_write V) (r : summary_row V) : summary_row V :=
  if bool_decide (sr_uuid r = sw.1.1) then {| sr_uuid := sr_uuid r; sr_group := sr_group r; sr_summary := sw.1.2; sr_embedding := sw.2 |} else r.

Lemma read_summaries_exact fuel rows gid errors : ∀ offset l,
  length (group_entities rows gid) < offset + fuel → read_summaries fuel rows gid errors offset = Ok l → l = drop offset (group_entities rows gid).
Proof.
  induction fuel as [|fuel IH]; intros offset l Hf; cbn [read_summaries].
  - intros [= <-]. by rewrite drop_ge by lia.
  - destruct (errors offset); [done|]. unfold dump_entities_page. fold (group_entities rows gid).
    set (rest := drop offset (group_entities rows gid)). assert (Hrest : length rest = length (group_entities rows gid) - offset) by apply length_drop.
    cbv zeta. destruct (_ <? _)%nat eqn:Hlt.
    + intros [= <-]. apply Nat.ltb_lt in Hlt. rewrite length_take in Hlt. by rewrite take_ge by lia.
    + apply Nat.ltb_ge in Hlt. intros (more & Hm & [= <-])%rbind_ok. apply IH in Hm as ->; [|rewrite length_take in *; unfold PAGE_SIZE in *; lia].
      rewrite length_take in *. replace (PAGE_SIZE `min` length rest) with PAGE_SIZE by lia. unfold rest at 1. rewrite <- drop_drop. fold rest. apply take_drop.
Qed.
Lemma exec_summaries_all batch indexed rows (w : W) rows' w' :
  exec_summaries batch indexed rows w = (None, rows', w') → rows' = written put_summary batch rows.
Proof.
  revert rows w. induction batch as [|sw batch IH]; intros rows w; cbn [exec_summaries]; [by intros [= <- <-]|].
  destruct indexed; [done|]. destruct (sd_exec_error w sw); [done|]. by intros ->%IH.
Qed.
Lemma embed_batches_all gid batches : ∀ s s', embed_batches gid batches s = (Ok tt, s') →
  ss_rows s' = written put_summary (summary_write_of <$> concat batches) (ss_rows s) ∧ ss_log s' = ss_log s ++ (summary_write_of <$> concat batches).
Proof.
  induction batches as [|b batches IH]; intros s s'; cbn [embed_batches concat]; [intros [= <-]; by rewrite app_nil_r|].
  pose proof (pointwise (sr_summary <$> b) (ss_world s)) as Hp. destruct (sd_embed_batch _ _) as [[embs|e] w]; [|done]. cbn [fst] in Hp. rewrite (Hp embs eq_refl).
  unfold connect_now. destruct (sd_connect_error _); [done|]. cbn [ss_rows ss_world ss_indexes ss_positions ss_log with_summary_world].
  assert (zip_with (λ (c : summary_row V) emb, (sr_uuid c, sr_summary c, emb)) b (embed <$> (sr_summary <$> b)) = summary_write_of <$> b) as ->.
  { clear. induction b as [|r b IH]; [done|]. cbn. by rewrite IH. }
  destruct (exec_summaries _ _ _ _) as [[[e|] rows] w'] eqn:Hx; [done|]. apply exec_summaries_all in Hx as ->. destruct (sd_flush _ _ _) as [seq w''].
  intros [Hr Hl]%IH. cbn [ss_rows ss_log] in Hr, Hl. rewrite Hr, Hl, fmap_app, <- app_assoc. split; [|done]. unfold written. by rewrite foldl_app.
Qed.

Lemma described_length rows gid : length (group_entities rows gid) ≤ length rows.
Proof. unfold group_entities. rewrite (Permutation_length (sort_by_perm _ _)). apply List.filter_length_le. Qed.
Lemma described_elem rows gid r : r ∈ described_rows rows gid ↔ r ∈ rows ∧ sr_group r = gid ∧ nonempty (trim (sr_summary r)) = true.
Proof.
  unfold described_rows, group_entities. rewrite list_elem_of_In, filter_In, <- list_elem_of_In, sort_by_perm, list_elem_of_In, filter_In, <- list_elem_of_In, bool_decide_eq_true. tauto.
Qed.
Lemma put_other sw (r : summary_row V) : sw.1.1 ≠ sr_uuid r → put_summary sw r = r.
Proof. intros H. unfold put_summary. by rewrite bool_decide_eq_false_2 by congruence. Qed.
Lemma put_key sw (r : summary_row V) : sr_uuid (put_summary sw r) = sr_uuid r.
Proof. unfold put_summary. by case_bool_decide. Qed.
Lemma summary_rows_written rows gid : NoDup (sr_uuid <$> rows) →
  written put_summary (summary_write_of <$> described_rows rows gid) rows =
  (λ r, if bool_decide (sr_group r = gid) && nonempty (trim (sr_summary r))
        then {| sr_uuid := sr_uuid r; sr_group := sr_group r; sr_summary := sr_summary r; sr_embedding := embed (sr_summary r) |} else r) <$> rows.
Proof.
  intros Hn. rewrite written_rows. apply list_fmap_ext. intros i r Hr. pose proof (list_elem_of_lookup_2 _ _ _ Hr) as Hin.
  set (key := λ sw : summary_write V, sw.1.1). assert (key <$> (summary_write_of <$> described_rows rows gid) = sr_uuid <$> described_rows rows gid) as Hk by (by rewrite <- list_fmap_compose).
  assert (NoDup (sr_uuid <$> described_rows rows gid)) as Hnd by (unfold described_rows, group_entities; auto).
  destruct (bool_decide (sr_group r = gid) && nonempty (trim (sr_summary r))) eqn:Hd.
  - apply andb_true_iff in Hd as [Hg%bool_decide_eq_true Hs].
    rewrite (row_written_once key sr_uuid put_summary put_other put_key _ (summary_write_of r)); [|by rewrite Hk| |done].
    + unfold put_summary, summary_write_of. cbn [fst snd]. by rewrite bool_decide_eq_true_2.
    + apply list_elem_of_fmap_2. by apply described_elem.
  - apply (row_untouched key sr_uuid put_summary put_other). rewrite Hk. intros (r' & Hu & Hr')%list_elem_of_fmap.
    apply described_elem in Hr' as (Hr' & Hg & Hs). apply list_elem_of_lookup in Hr' as [j Hj].
    assert (i = j) as ->.
    { eapply (NoDup_lookup (sr_uuid <$> rows)); [done| |]; rewrite list_lookup_fmap; [by rewrite Hr|by rewrite Hj; cbn; rewrite Hu]. }
    simplify_eq. rewrite bool_decide_eq_true_2, Hs in Hd by done. done.
Qed.

(** A run that succeeds embeds exactly the entities of the group that have a summary: each has the
    embedding of its own summary, everything else is as it was, and the log has one write per
    entity, which carries the text its vector was computed from. *)
Theorem summaries_embedded_exact gid s s' rep :
  NoDup (sr_uuid <$> ss_rows s) →
  backfill_summary_embeddings gid false s = (Ok rep, s') →
  ss_rows s' = (λ r, if bool_decide (sr_group r = gid) && nonempty (trim (sr_summary r))
                     then {| sr_uuid := sr_uuid r; sr_group := sr_group r; sr_summary := sr_summary r; sr_embedding := embed (sr_summary r) |} else r) <$> ss_rows s ∧
  ss_log s' = ss_log s ++ (summary_write_of <$> described_rows (ss_rows s) gid) ∧
  br_total rep = length (group_entities (ss_rows s) gid) ∧ br_backfilled rep = length (described_rows (ss_rows s) gid).
Proof.
  intros Hn. unfold backfill_summary_embeddings. destruct (negb _); [done|]. rewrite alone. unfold connect_now. destruct (sd_connect_error _); [done|].
  cbn [ss_rows ss_world ss_indexes with_summary_world]. destruct (read_summaries _ _ _ _ _) as [entities|e] eqn:Hr; [|done].
  apply read_summaries_exact in Hr; [|pose proof (described_length (ss_rows s) gid); lia]. rewrite drop_0 in Hr. subst entities. cbv zeta. fold (described_rows (ss_rows s) gid).
  destruct (described_rows (ss_rows s) gid) as [|c l] eqn:Hd.
  { intros [= <- <-]. cbn [ss_rows ss_log with_summary_world fmap list_fmap]. rewrite app_nil_r. split; [|done].
    rewrite <- (list_fmap_id (ss_rows s)) at 1. apply list_fmap_ext. intros i r Hi. destruct (_ && _) eqn:Hc; [|done]. exfalso.
    assert (r ∈ described_rows (ss_rows s) gid) as Hin; [|rewrite Hd in Hin; by apply elem_of_nil in Hin].
    apply andb_true_iff in Hc as [Hg%bool_decide_eq_true Hs]. apply described_elem. split; [by eapply list_elem_of_lookup_2|done]. }
  rewrite <- Hd. cbn [with_indexes ss_world ss_indexes]. destruct (sd_connect_error _); [done|]. cbn [ss_rows ss_world ss_indexes with_summary_world].
  destruct (embed_batches _ _ _) as [[[]|e] s1] eqn:He; [|done]. apply embed_batches_all in He. cbn [ss_rows ss_log with_indexes with_summary_world] in He.
  rewrite chunks_concat in He by (unfold SUMMARY_BATCH_SIZE; lia). destruct He as [Hrows Hlog].
  destruct (sd_connect_error _); [done|]. destruct (create_entity_summary_embedding_index _ _) as [[[]|e] i]; [|done].
  intros [= <- <-]. cbn [ss_rows ss_log with_indexes with_summary_world br_total br_backfilled]. split; [|done]. rewrite Hrows. by apply summary_rows_written.
Qed.
End summaries.

(** ** Concrete passes *)

(** The world counts the statements tried; one of them may fail. *)
Definition ToyPass (fails : option nat) : PassDeps nat := {|
  pd_db _ := true; pd_connect_error _ := None; pd_page_error _ _ := None; pd_others _ t := t;
  pd_classify chunk _ w := (Ok ((λ p : str * str, if contains #"works" p.1 then #"WORKS_AT" else []) <$> chunk), w);
  pd_exec_error w _ := if bool_decide (Some w = fails) then Some (QueryFailed (Msg "disk" [])) else None;
  pd_flush _ ws w := (Some (N.of_nat (length ws), None), w); pd_position_ok _ := true; pd_identity := (#"toy", 1%Z); pd_next := S;
  pd_display _ := #"error";
|}.
Definition toy_row (uuid name fact : string) (rt : option str) : edge_row :=
  {| rw_uuid := lit uuid; rw_group := #"g"; rw_name := lit name; rw_fact := lit fact; rw_type := rt |}.
Definition toy_rows : list edge_row :=
  [toy_row "e2" "A -> B" "A knows B very well" (Some []); toy_row "e1" "works at" "A works at B" None; toy_row "e3" "likes" "A likes B" (Some #"LIKES")].
Definition toy_state (rows : list edge_row) : @pst nat := {| ps_world := 0%nat; ps_table := rows; ps_positions := ∅; ps_log := [] |}.
Definition toy_fill (fails : option nat) (s : @pst nat) := @backfill_relation_types AsciiUnicode nat (ToyPass fails) #"g" false s.

(** Two edges are filled, from the name and from the fact. *)
Example toy_fill_runs : (λ r : edge_row, default [] (rw_type r)) <$> ps_table (toy_fill None (toy_state toy_rows)).2 = [ #"A_KNOWS_B_VERY"; #"WORKS_AT"; #"LIKES"].
Proof. vm_compute. reflexivity. Qed.

(** When a statement of a batch fails, the ones before it have changed the rows and are never logged:
    the batch's connection goes away with them.  [canonicalize_relations] flushes them first. *)
Theorem failed_batch_unlogged :
  let out := toy_fill (Some 3%nat) (toy_state toy_rows) in
  is_ok out.1 = false ∧ (λ r : edge_row, default [] (rw_type r)) <$> ps_table out.2 = [[]; #"WORKS_AT"; #"LIKES"] ∧ ps_log out.2 = [].
Proof. vm_compute. split_and!; reflexivity. Qed.

Definition toy_onto : Ontology := toy_relations [toy_relation "WORKS_AT" []].
Definition toy_relabel (s : @pst nat) := @reprocess_relation_types AsciiUnicode nat (ToyPass None) #"g" RelOffOntology false toy_onto s.
Lemma relations_reprocessed_witness :
  let s' := (toy_relabel (toy_state toy_rows)).2 in
  tw_type <$> ps_log s' = [ #"WORKS_AT"; UNCLASSIFIED; UNCLASSIFIED] ∧ length (scope_rows RelOffOntology toy_onto toy_rows #"g") = 3%nat.
Proof.
  cbv zeta. assert ((toy_relabel (toy_state toy_rows)).1 = Ok (RelDone 3 0 #"g" (breakdown_of
    [{| rg_uuid := []; rg_fact := []; rg_old := None; rg_new := #"WORKS_AT" |}; {| rg_uuid := []; rg_fact := []; rg_old := None; rg_new := UNCLASSIFIED |};
     {| rg_uuid := []; rg_fact := []; rg_old := None; rg_new := UNCLASSIFIED |}]))) as Hrep by (vm_compute; reflexivity).
  destruct (@relations_reprocessed AsciiUnicode nat (ToyPass None) (λ _ _, eq_refl) #"g" RelOffOntology toy_onto (toy_state toy_rows)
    (toy_relabel (toy_state toy_rows)).2 3 0 #"g" (breakdown_of
    [{| rg_uuid := []; rg_fact := []; rg_old := None; rg_new := #"WORKS_AT" |}; {| rg_uuid := []; rg_fact := []; rg_old := None; rg_new := UNCLASSIFIED |};
     {| rg_uuid := []; rg_fact := []; rg_old := None; rg_new := UNCLASSIFIED |}])) as (Hsum & _).
  - apply (bool_decide_unpack _). vm_compute. exact I.
  - unfold toy_relabel in *. rewrite <- Hrep. apply surjective_pairing.
  - split; [vm_compute; reflexivity|]. symmetry. exact Hsum.
Defined.

(** One entity with a summary, one without. *)
Definition ToySummaries : SummaryDeps nat nat := {|
  sd_db _ := true; sd_connect_error _ := None; sd_page_error _ _ := None; sd_others _ p := p;
  sd_embed_batch texts w := (Ok (length <$> texts), w); sd_drops _ := true; sd_exec_error _ _ := None; sd_create_error _ := None;
  sd_flush _ ws w := (Some (N.of_nat (length ws), None), w); sd_position_ok _ := true; sd_identity := (#"toy", 1%Z); sd_next := S; sd_indexed := InvalidPath;
|}.
Definition toy_summaries : list (summary_row nat) :=
  [{| sr_uuid := #"a"; sr_group := #"g"; sr_summary := #"abc"; sr_embedding := 0%nat |}; {| sr_uuid := #"b"; sr_group := #"g"; sr_summary := #" "; sr_embedding := 0%nat |}].
Definition toy_sst (i : indexes) : @sst nat nat := {| ss_world := 0%nat; ss_rows := toy_summaries; ss_indexes := i; ss_positions := ∅; ss_log := [] |}.
Definition toy_embed (i : indexes) := @backfill_summary_embeddings nat nat ToySummaries #"g" false (toy_sst i).
Definition all_built : indexes := {| ix_summary := true; ix_rest := true; ix_built := true |}.
Lemma summaries_embedded_exact_witness : sr_embedding <$> ss_rows (toy_embed all_built).2 = [3%nat; 0%nat] ∧ ss_log (toy_embed all_built).2 = [(#"a", #"abc", 3%nat)].
Proof.
  destruct (@summaries_embedded_exact nat nat ToySummaries (λ _ _, eq_refl) length (λ texts w embs H, ltac:(injection H as <-; reflexivity)) #"g" (toy_sst all_built)
    (toy_embed all_built).2 {| br_group := #"g"; br_total := 2; br_backfilled := 1; br_dry_run := false |}) as (Hr & Hl & _).
  - apply (bool_decide_unpack _). vm_compute. exact I.
  - vm_compute. reflexivity.
  - rewrite Hr, Hl. split; vm_compute; reflexivity.
Defined.
Lemma flag_never_covers_dropped_index_witness : honest (ss_indexes (toy_embed all_built).2).
Proof.
  apply (@flag_never_covers_dropped_index nat nat ToySummaries #"g" false (toy_sst all_built) (toy_embed all_built).1); [by intros ? ? ? ?|by intros _|].
  vm_compute. reflexivity.
Defined.
(** The flag is raised by a run that found the other indexes missing and the flag down. *)
Theorem flag_raised_over_missing_indexes :
  ss_indexes (toy_embed {| ix_summary := false; ix_rest := false; ix_built := false |}).2 = {| ix_summary := true; ix_rest := false; ix_built := true |}.
Proof. vm_compute. reflexivity. Qed.
