(* ===== verification/Dump.v ===== *)
(** * Dump: writing the database out as a fresh log (core/src/dump.rs, with its page queries in
    core/src/db.rs and handle_dump_wal in core/src/handlers.rs)

    A row is its columns, in the order a query returns them; a node table is a list of rows, a
    relation with properties a list of links.  The hops between entities and edge nodes are two
    lists of pairs, and the direct links between entities, which the dump does not read, a third.
    A line is logged as every mutation is, without its vectors; a replay binds a vector for each of
    them from the text beside it ([with_vectors]), and [apply_line] is what the statement then does
    to the database.  Ties in a query's order are broken by the engine ([arrange]); reading and printing of times
    belong to the time library. *)

From S2P Require Import Prelude Text Numbers Json WalGeneration Wal Replay Graph.

(** Source: core/src/dump.rs 18-18 (PAGE_SIZE) *)
Definition DUMP_PAGE_SIZE : nat := 500.

Inductive node_kind := NEntity | NEpisodic | NRelato | NCommunity | NSaga.
Inductive link_kind := LMentions | LHasEpisode | LMemberEntity | LMemberCommunity | LNextEpisode.
Global Instance node_kind_eq_dec : EqDecision node_kind.
Proof. solve_decision. Defined.
Global Instance link_kind_eq_dec : EqDecision link_kind.
Proof. solve_decision. Defined.
Inductive template := TNode (k : node_kind) | TRelatesTo | TLink (k : link_kind).
Definition time_or_null (target name : string) : str :=
  lit target ++ #" = CASE WHEN $" ++ lit name ++ #" IS NULL THEN NULL ELSE timestamp($" ++ lit name ++ #") END".
Definition link_cypher (match_ends merge : string) : str :=
  lit match_ends ++ lit merge ++ #"SET r.uuid = $uuid, r.group_id = $group_id, " ++ time_or_null "r.created_at" "created_at".
(** The statement of a line.
    Source: core/src/dump.rs 25-98 (ENTITY_CYPHER) *)
Definition cypher_of (t : template) : str :=
  match t with
  | TNode NEntity => #"MERGE (n:Entity {uuid: $uuid}) SET n.name = $name, n.group_id = $group_id, n.labels = $labels, " ++
      #"n.created_at = timestamp($created_at), n.name_embedding = $name_embedding, n.summary = $summary, n.attributes = $attributes, " ++
      #"n.summary_embedding = $summary_embedding, n.kind = $kind, " ++ time_or_null "n.ingested_at" "ingested_at"
  | TNode NEpisodic => #"MERGE (n:Episodic {uuid: $uuid}) SET n.name = $name, n.group_id = $group_id, " ++
      #"n.created_at = timestamp($created_at), n.source = $source, n.source_description = $source_description, n.content = $content, " ++
      #"n.content_embedding = $content_embedding, " ++ time_or_null "n.valid_at" "valid_at" ++
      #", n.entity_edges = $entity_edges, n.attributes = $attributes, " ++ time_or_null "n.ingested_at" "ingested_at"
  | TNode NRelato => #"MERGE (n:RelatesToNode_ {uuid: $uuid}) SET n.name = $name, n.group_id = $group_id, " ++
      #"n.created_at = timestamp($created_at), n.fact = $fact, n.fact_embedding = $fact_embedding, n.episodes = $episodes, " ++
      time_or_null "n.expired_at" "expired_at" ++ #", " ++ time_or_null "n.valid_at" "valid_at" ++ #", " ++ time_or_null "n.invalid_at" "invalid_at" ++
      #", n.attributes = $attributes, n.relation_type = $relation_type, " ++ time_or_null "n.ingested_at" "ingested_at"
  | TNode NCommunity => #"MERGE (n:Community {uuid: $uuid}) SET n.name = $name, n.group_id = $group_id, " ++
      #"n.created_at = timestamp($created_at), n.name_embedding = $name_embedding, n.summary = $summary"
  | TNode NSaga => #"MERGE (n:Saga {uuid: $uuid}) SET n.name = $name, n.group_id = $group_id, n.created_at = timestamp($created_at)"
  | TRelatesTo => #"MATCH (src:Entity {uuid: $src_uuid}), (rn:RelatesToNode_ {uuid: $rn_uuid}), (dst:Entity {uuid: $dst_uuid}) " ++
      #"MERGE (src)-[:RELATES_TO]->(rn) MERGE (rn)-[:RELATES_TO]->(dst)"
  | TLink LMentions => link_cypher "MATCH (ep:Episodic {uuid: $ep_uuid}), (en:Entity {uuid: $en_uuid}) " "MERGE (ep)-[r:MENTIONS]->(en) "
  | TLink LHasEpisode => link_cypher "MATCH (sg:Saga {uuid: $sg_uuid}), (ep:Episodic {uuid: $ep_uuid}) " "MERGE (sg)-[r:HAS_EPISODE]->(ep) "
  | TLink LMemberEntity => link_cypher "MATCH (c:Community {uuid: $c_uuid}), (e:Entity {uuid: $e_uuid}) " "MERGE (c)-[r:HAS_MEMBER]->(e) "
  | TLink LMemberCommunity => link_cypher "MATCH (c:Community {uuid: $c_uuid}), (m:Community {uuid: $m_uuid}) " "MERGE (c)-[r:HAS_MEMBER]->(m) "
  | TLink LNextEpisode => link_cypher "MATCH (ep1:Episodic {uuid: $ep1_uuid}), (ep2:Episodic {uuid: $ep2_uuid}) " "MERGE (ep1)-[r:NEXT_EPISODE]->(ep2) "
  end.
Abbreviation dump_line := (template * value)%type.

Section dump.
Context {U : Unicode} {F : Type} (fzero : F) (float_json : F → value) (json_float : value → option F).

(** A stored value: null, a text, a time in microseconds, a list of texts, a vector, or another. *)
Inductive cell := CNull | CText (s : str) | CTime (us : Z) | CTexts (l : list str) | CFloats (l : list F) | COther (shown : str).
Abbreviation row := (list cell).
Context (show_cell : cell → str).
(** The fields of a time: year, month, day, hour, minute, second, microsecond. *)
Context (civil : Z → N * N * N * N * N * N * N) (parse_rfc3339 parse_space : str → option Z).
Context (arrange : ∀ A : Type, nat → (A → str) → list A → list A).
Context (query_error : template → nat → option Error) (chunk_error : nat → option Error).

(** ** Reading columns *)

Definition col (i : nat) (r : row) : cell := default CNull (r !! i).
(** Source: core/src/db.rs 4147-4153 (value_as_string) *)
Definition value_as_string (v : cell) : str := match v with CText s => s | CNull => [] | _ => show_cell v end.
(** Source: core/src/db.rs 4251-4258 (value_as_str_list) *)
Definition value_as_str_list (v : cell) : list str := match v with CTexts l => l | _ => [] end.
(** Source: core/src/db.rs 4237-4249 (value_as_float_array) *)
Definition value_as_float_array (v : cell) : list F := match v with CFloats l => l | _ => [] end.
(** Source: core/src/db.rs 4382-4389 (value_as_kind) *)
Definition cell_as_kind (v : cell) : str := let k := value_as_string v in if nonempty (trim k) then k else DEFAULT_KIND.
Definition padded (width : nat) (n : N) : str := let d := dec_str n in replicate (width - length d) 48%N ++ d.
(** Source: core/src/db.rs 4293-4308 (format_datetime_rfc3339_subsecond) *)
Definition format_datetime_rfc3339_subsecond (us : Z) : str :=
  let '(y, mo, d, h, mi, s, f) := civil us in
  padded 4 y ++ #"-" ++ padded 2 mo ++ #"-" ++ padded 2 d ++ #"T" ++ padded 2 h ++ #":" ++ padded 2 mi ++ #":" ++ padded 2 s ++ #"." ++ padded 6 f ++ #"Z".
(** Source: core/src/db.rs 4315-4326 (normalize_ts_str_for_dump) *)
Definition normalize_ts_str_for_dump (s : str) : str :=
  match parse_rfc3339 s with
  | Some t => format_datetime_rfc3339_subsecond t
  | None => match parse_space s with Some t => format_datetime_rfc3339_subsecond t | None => s end
  end.
(** Source: core/src/dump.rs 622-632 (dump_ts_str) *)
Definition dump_ts_str (v : cell) : str :=
  match v with
  | CTime t => format_datetime_rfc3339_subsecond t
  | CText s => normalize_ts_str_for_dump s
  | CNull => []
  | _ => show_cell v
  end.
(** Source: core/src/dump.rs 635-640 (dump_opt_ts_json) *)
Definition dump_opt_ts_json (v : cell) : value := match v with CNull => VNull | _ => VString (dump_ts_str v) end.
(** Source: core/src/dump.rs 647-653 (dump_ingested_at_json) *)
Definition dump_ingested_at_json (v : cell) (created_at : str) : value :=
  match v with CNull => if nonempty created_at then VString created_at else VNull | _ => VString (dump_ts_str v) end.
(** Source: core/src/dump.rs 655-665 (float_slice_to_json) *)
Definition float_slice_to_json (l : list F) : value := VArray (float_json <$> l).
Definition text_json (v : cell) : value := VString (value_as_string v).
Definition texts_json (v : cell) : value := VArray (VString <$> value_as_str_list v).
Definition floats_json (v : cell) : value := float_slice_to_json (value_as_float_array v).

(** ** The parameters of a line *)

(** Source: core/src/dump.rs 143-211 (dump_entity_nodes) *)
Definition entity_params (r : row) : value :=
  let created_at := dump_ts_str (col 4 r) in
  let embedding := value_as_float_array (col 5 r) in
  let summary_embedding := match value_as_float_array (col 8 r) with [] => replicate (length embedding) fzero | l => l end in
  VObject [(#"uuid", text_json (col 0 r)); (#"name", text_json (col 1 r)); (#"group_id", text_json (col 2 r)); (#"labels", texts_json (col 3 r));
    (#"created_at", VString created_at); (#"name_embedding", float_slice_to_json embedding); (#"summary", text_json (col 6 r));
    (#"attributes", text_json (col 7 r)); (#"summary_embedding", float_slice_to_json summary_embedding);
    (#"kind", VString (cell_as_kind (col 9 r))); (#"ingested_at", dump_ingested_at_json (col 10 r) created_at)].
(** Source: core/src/dump.rs 213-266 (dump_episodic_nodes) *)
Definition episodic_params (r : row) : value :=
  let created_at := dump_ts_str (col 3 r) in
  VObject [(#"uuid", text_json (col 0 r)); (#"name", text_json (col 1 r)); (#"group_id", text_json (col 2 r)); (#"created_at", VString created_at);
    (#"source", text_json (col 4 r)); (#"source_description", text_json (col 5 r)); (#"content", text_json (col 6 r));
    (#"content_embedding", floats_json (col 7 r)); (#"valid_at", dump_opt_ts_json (col 8 r)); (#"entity_edges", texts_json (col 9 r));
    (#"attributes", text_json (col 10 r)); (#"ingested_at", dump_ingested_at_json (col 11 r) created_at)].
(** Source: core/src/dump.rs 268-323 (dump_relato_nodes) *)
Definition relato_params (r : row) : value :=
  let created_at := dump_ts_str (col 3 r) in
  VObject [(#"uuid", text_json (col 0 r)); (#"name", text_json (col 1 r)); (#"group_id", text_json (col 2 r)); (#"created_at", VString created_at);
    (#"fact", text_json (col 4 r)); (#"fact_embedding", floats_json (col 5 r)); (#"episodes", texts_json (col 6 r));
    (#"expired_at", dump_opt_ts_json (col 7 r)); (#"valid_at", dump_opt_ts_json (col 8 r)); (#"invalid_at", dump_opt_ts_json (col 9 r));
    (#"attributes", text_json (col 10 r)); (#"relation_type", text_json (col 11 r)); (#"ingested_at", dump_ingested_at_json (col 12 r) created_at)].
(** Source: core/src/dump.rs 325-365 (dump_community_nodes) *)
Definition community_params (r : row) : value :=
  VObject [(#"uuid", text_json (col 0 r)); (#"name", text_json (col 1 r)); (#"group_id", text_json (col 2 r)); (#"created_at", VString (dump_ts_str (col 3 r)));
    (#"name_embedding", floats_json (col 4 r)); (#"summary", text_json (col 5 r))].
(** Source: core/src/dump.rs 367-403 (dump_saga_nodes) *)
Definition saga_params (r : row) : value :=
  VObject [(#"uuid", text_json (col 0 r)); (#"name", text_json (col 1 r)); (#"group_id", text_json (col 2 r)); (#"created_at", VString (dump_ts_str (col 3 r)))].
Definition node_params (k : node_kind) : row → value :=
  match k with NEntity => entity_params | NEpisodic => episodic_params | NRelato => relato_params | NCommunity => community_params | NSaga => saga_params end.

(** ** The database and its pages *)

(** A relation with properties, between the nodes of two uuids. *)
Record link := { lk_from : str; lk_to : str; lk_uuid : cell; lk_group : cell; lk_created : cell }.
Record database := {
  db_nodes : node_kind → list row;
  db_src_hops : list (str * str);
  db_dst_hops : list (str * str);
  db_links : link_kind → list link;
  db_direct : list (str * str * str);
}.
Definition row_uuid (r : row) : str := value_as_string (col 0 r).
Definition in_group (gid : option str) (v : cell) : bool := match gid with None => true | Some g => match v with CText s => bool_decide (s = g) | _ => false end end.
Definition page {A} (l : list A) (offset limit : nat) : list A := take limit (drop offset l).
(** Source: core/src/db.rs 3660-3685 (dump_episodics_page) *)
Definition node_page (db : database) (k : node_kind) (gid : option str) (offset limit : nat) : list row :=
  page (sort_by (λ a b, str_leb (row_uuid a) (row_uuid b)) (List.filter (λ r, in_group gid (col 2 r)) (db_nodes db k))) offset limit.
(** An edge node with an entity before it and one after it. *)
Definition triples (db : database) : list (str * str * str) :=
  flat_map (λ '(s, r), (λ '(_, d), (s, r, d)) <$> List.filter (λ h, bool_decide (h.1 = r)) (db_dst_hops db)) (db_src_hops db).
Definition group_of_relato (db : database) (uuid : str) : cell :=
  default CNull ((λ r, col 2 r) <$> List.find (λ r, bool_decide (row_uuid r = uuid)) (db_nodes db NRelato)).
(** Source: core/src/db.rs 3769-3791 (dump_relates_to_page) *)
Definition dump_relates_to_page (db : database) (gid : option str) (offset limit : nat) : list (str * str * str) :=
  page (arrange _ offset (λ t, t.1.2) (List.filter (λ t, in_group gid (group_of_relato db t.1.2)) (triples db))) offset limit.
(** Source: core/src/db.rs 3796-3817 (dump_mentions_page) *)
Definition link_page (db : database) (k : link_kind) (gid : option str) (offset limit : nat) : list link :=
  page (arrange _ offset lk_from (List.filter (λ l, in_group gid (lk_group l)) (db_links db k))) offset limit.

(** ** The dump *)

(** What has been written, and how many chunks. *)
Record sink := { sk_lines : list dump_line; sk_chunks : nat }.
(** The line the writer keeps for a mutation, if it keeps one. *)
Definition logged (t : template) (params : value) : list dump_line :=
  if is_index_ddl (cypher_of t) || negb (looks_like_mutation (cypher_of t)) then [] else [(t, strip_derived_params (strip_vector_params params))].
(** A chunk of lines, whole; a page without lines writes none. *)
Definition write_chunk (lines : list dump_line) (s : sink) : result Error unit * sink :=
  match lines with
  | [] => (Ok tt, s)
  | _ => match chunk_error (sk_chunks s) with
         | Some e => (Err e, {| sk_lines := sk_lines s; sk_chunks := S (sk_chunks s) |})
         | None => (Ok tt, {| sk_lines := sk_lines s ++ lines; sk_chunks := S (sk_chunks s) |})
         end
  end.
(** Pages until one is not full, a line per row that has one.
    Source: core/src/dump.rs 508-552 (dump_simple_edge) *)
Fixpoint dump_pages {A} (t : template) (fetch : nat → nat → list A) (emit : A → option value) (fuel offset total : nat) (s : sink) : result Error nat * sink :=
  match fuel with
  | O => (Ok total, s)
  | S fuel =>
      match query_error t offset with
      | Some e => (Err e, s)
      | None =>
          let rows := fetch offset DUMP_PAGE_SIZE in
          let mutations := omap emit rows in
          match write_chunk (mutations ≫= logged t) s with
          | (Err e, s) => (Err e, s)
          | (Ok _, s) =>
              let total := (total + length mutations)%nat in
              if (length rows <? DUMP_PAGE_SIZE)%nat then (Ok total, s) else dump_pages t fetch emit fuel (offset + length rows) total s
          end
      end
  end.
Definition dump_nodes (db : database) (gid : option str) (k : node_kind) : sink → result Error nat * sink :=
  dump_pages (TNode k) (node_page db k gid) (λ r, Some (node_params k r)) (S (length (db_nodes db k))) 0 0.
(** Source: core/src/dump.rs 422-456 (dump_relates_to_edges) *)
Definition dump_relates_to_edges (db : database) (gid : option str) : sink → result Error nat * sink :=
  dump_pages TRelatesTo (dump_relates_to_page db gid)
    (λ t, Some (VObject [(#"src_uuid", VString t.1.1); (#"rn_uuid", VString t.1.2); (#"dst_uuid", VString t.2)])) (S (length (triples db))) 0 0.
(** The names the two ends have in a statement.
    Source: core/src/dump.rs 554-612 (dump_has_episode_edges) *)
Definition link_keys (k : link_kind) : str * str :=
  match k with
  | LMentions => (#"ep_uuid", #"en_uuid")
  | LHasEpisode => (#"sg_uuid", #"ep_uuid")
  | LMemberEntity => (#"c_uuid", #"e_uuid")
  | LMemberCommunity => (#"c_uuid", #"m_uuid")
  | LNextEpisode => (#"ep1_uuid", #"ep2_uuid")
  end.
(** A mention without a uuid is skipped, any other relation is not.
    Source: core/src/dump.rs 458-506 (dump_mentions_edges) *)
Definition link_params (k : link_kind) (l : link) : option value :=
  if bool_decide (k = LMentions) && negb (nonempty (value_as_string (lk_uuid l))) then None
  else Some (VObject [((link_keys k).1, VString (lk_from l)); ((link_keys k).2, VString (lk_to l)); (#"uuid", text_json (lk_uuid l));
         (#"group_id", text_json (lk_group l)); (#"created_at", dump_opt_ts_json (lk_created l))]).
Definition dump_links (db : database) (gid : option str) (k : link_kind) : sink → result Error nat * sink :=
  dump_pages (TLink k) (link_page db k gid) (link_params k) (S (length (db_links db k))) 0 0.

(** One phase after the other, the counts added up. *)
Fixpoint run_phases (phases : list (sink → result Error nat * sink)) (total : nat) (s : sink) : result Error nat * sink :=
  match phases with
  | [] => (Ok total, s)
  | p :: phases => match p s with (Ok n, s) => run_phases phases (total + n) s | out => out end
  end.
(** Source: core/src/dump.rs 129-141 (dump_nodes_phase) *)
Definition dump_nodes_phase (db : database) (gid : option str) : sink → result Error nat * sink :=
  run_phases [dump_nodes db gid NEntity; dump_nodes db gid NEpisodic; dump_nodes db gid NRelato; dump_nodes db gid NCommunity; dump_nodes db gid NSaga] 0.
(** Source: core/src/dump.rs 407-420 (dump_edges_phase) *)
Definition dump_edges_phase (db : database) (gid : option str) : sink → result Error nat * sink :=
  run_phases [dump_relates_to_edges db gid; dump_links db gid LMentions; dump_links db gid LHasEpisode; dump_links db gid LMemberEntity;
    dump_links db gid LMemberCommunity; dump_links db gid LNextEpisode] 0.
(** Source: core/src/dump.rs 106-109 (DumpResult) *)
Record DumpResult := { nodes_dumped : nat; edges_dumped : nat }.
(** Source: core/src/dump.rs 113-125 (run_dump) *)
Definition run_dump (db : database) (gid : option str) (s : sink) : result Error DumpResult * sink :=
  match dump_nodes_phase db gid s with
  | (Err e, s) => (Err e, s)
  | (Ok n, s) => match dump_edges_phase db gid s with (Err e, s) => (Err e, s) | (Ok m, s) => (Ok {| nodes_dumped := n; edges_dumped := m |}, s) end
  end.

(** ** Replaying a dump *)

Fixpoint all_of {A B} (f : A → option B) (l : list A) : option (list B) :=
  match l with
  | [] => Some []
  | x :: l => match f x, all_of f l with Some y, Some ys => Some (y :: ys) | _, _ => None end
  end.
Definition text_at (k : string) (p : value) : option cell := match get (lit k) p with Some (VString s) => Some (CText s) | _ => None end.
Definition texts_at (k : string) (p : value) : option cell :=
  match get (lit k) p with Some (VArray l) => option_map CTexts (all_of as_str l) | _ => None end.
Definition floats_at (k : string) (p : value) : option cell :=
  match get (lit k) p with Some (VArray l) => option_map CFloats (all_of json_float l) | _ => None end.
(** [timestamp($x)] *)
Definition time_at (k : string) (p : value) : option cell := match get (lit k) p with Some (VString s) => option_map CTime (parse_rfc3339 s) | _ => None end.
(** [CASE WHEN $x IS NULL THEN NULL ELSE timestamp($x) END] *)
Definition opt_time_at (k : string) (p : value) : option cell := match get (lit k) p with Some VNull => Some CNull | _ => time_at k p end.
(** What a replay binds for the vectors a statement names: a vector for the text beside each, one of
    zeros if there is no text ([Replay.resolve_embed_window], of which [recompute] is the outcome). *)
Context (recompute : option str → list F).
Definition source_text (k : str) (p : value) : option str :=
  match get k p with Some (VString s) => if nonempty s then Some s else None | _ => None end.
Definition vector_pairs (t : template) : list (str * str) := List.filter (λ e : str * str, contains (#"$" ++ e.1) (cypher_of t)) EMBEDDING_TEXT_PAIRS.
Definition with_vectors (t : template) (p : value) : value :=
  match p with
  | VObject m => VObject (foldl (λ acc '(vec_key, text_key), obj_insert vec_key (float_slice_to_json (recompute (source_text text_key p))) acc) m (vector_pairs t))
  | _ => p
  end.
(** The columns a node statement sets, in the order they are read back. *)
Definition node_row (k : node_kind) (p : value) : option row :=
  all_of (λ o, o) match k with
  | NEntity => [text_at "uuid" p; text_at "name" p; text_at "group_id" p; texts_at "labels" p; time_at "created_at" p; floats_at "name_embedding" p;
                text_at "summary" p; text_at "attributes" p; floats_at "summary_embedding" p; text_at "kind" p; opt_time_at "ingested_at" p]
  | NEpisodic => [text_at "uuid" p; text_at "name" p; text_at "group_id" p; time_at "created_at" p; text_at "source" p; text_at "source_description" p;
                  text_at "content" p; floats_at "content_embedding" p; opt_time_at "valid_at" p; texts_at "entity_edges" p; text_at "attributes" p; opt_time_at "ingested_at" p]
  | NRelato => [text_at "uuid" p; text_at "name" p; text_at "group_id" p; time_at "created_at" p; text_at "fact" p; floats_at "fact_embedding" p; texts_at "episodes" p;
                opt_time_at "expired_at" p; opt_time_at "valid_at" p; opt_time_at "invalid_at" p; text_at "attributes" p; text_at "relation_type" p; opt_time_at "ingested_at" p]
  | NCommunity => [text_at "uuid" p; text_at "name" p; text_at "group_id" p; time_at "created_at" p; floats_at "name_embedding" p; text_at "summary" p]
  | NSaga => [text_at "uuid" p; text_at "name" p; text_at "group_id" p; time_at "created_at" p]
  end.
(** [MERGE] on the uuid: the row is replaced or added. *)
Fixpoint upsert (r : row) (rows : list row) : list row :=
  match rows with [] => [r] | x :: rows => if bool_decide (row_uuid x = row_uuid r) then r :: rows else x :: upsert r rows end.
Definition has_node (db : database) (k : node_kind) (uuid : str) : bool := bool_decide (uuid ∈ row_uuid <$> db_nodes db k).
Definition ends (k : link_kind) : node_kind * node_kind :=
  match k with LMentions => (NEpisodic, NEntity) | LHasEpisode => (NSaga, NEpisodic) | LMemberEntity => (NCommunity, NEntity)
             | LMemberCommunity => (NCommunity, NCommunity) | LNextEpisode => (NEpisodic, NEpisodic) end.
(** The parameters that name the ends in the [MATCH] of a statement. *)
Definition end_params (k : link_kind) : str * str :=
  match k with
  | LMentions => (#"ep_uuid", #"en_uuid")
  | LHasEpisode => (#"sg_uuid", #"ep_uuid")
  | LMemberEntity => (#"c_uuid", #"e_uuid")
  | LMemberCommunity => (#"c_uuid", #"m_uuid")
  | LNextEpisode => (#"ep1_uuid", #"ep2_uuid")
  end.
(** [MERGE (a)-[r]->(b) SET ...]: one relation of a kind per pair of ends. *)
Fixpoint merge_link (l : link) (links : list link) : list link :=
  match links with
  | [] => [l]
  | x :: links => if bool_decide (lk_from x = lk_from l ∧ lk_to x = lk_to l) then l :: links else x :: merge_link l links
  end.
Definition add_hop (h : str * str) (hops : list (str * str)) : list (str * str) := if bool_decide (h ∈ hops) then hops else hops ++ [h].
Definition set_nodes (k : node_kind) (rows : list row) (db : database) : database :=
  {| db_nodes := λ j, if decide (j = k) then rows else db_nodes db j; db_src_hops := db_src_hops db; db_dst_hops := db_dst_hops db;
     db_links := db_links db; db_direct := db_direct db |}.
Definition set_links (k : link_kind) (links : list link) (db : database) : database :=
  {| db_nodes := db_nodes db; db_src_hops := db_src_hops db; db_dst_hops := db_dst_hops db;
     db_links := λ j, if decide (j = k) then links else db_links db j; db_direct := db_direct db |}.
(** One statement; [None] when it fails.  A statement that finds no ends does nothing. *)
Definition apply_line (l : dump_line) (db : database) : option database :=
  let p := with_vectors l.1 l.2 in
  match l.1 with
  | TNode k => r ← node_row k p; Some (set_nodes k (upsert r (db_nodes db k)) db)
  | TRelatesTo =>
      s ← get #"src_uuid" p ≫= as_str; r ← get #"rn_uuid" p ≫= as_str; d ← get #"dst_uuid" p ≫= as_str;
      Some (if has_node db NEntity s && has_node db NRelato r && has_node db NEntity d
            then {| db_nodes := db_nodes db; db_src_hops := add_hop (s, r) (db_src_hops db); db_dst_hops := add_hop (r, d) (db_dst_hops db);
                    db_links := db_links db; db_direct := db_direct db |} else db)
  | TLink k =>
      a ← get (end_params k).1 p ≫= as_str; b ← get (end_params k).2 p ≫= as_str;
      u ← text_at "uuid" p; g ← text_at "group_id" p; c ← opt_time_at "created_at" p;
      Some (if has_node db (ends k).1 a && has_node db (ends k).2 b
            then set_links k (merge_link {| lk_from := a; lk_to := b; lk_uuid := u; lk_group := g; lk_created := c |} (db_links db k)) db else db)
  end.
Fixpoint apply_lines (ls : list dump_line) (db : database) : option database :=
  match ls with [] => Some db | l :: ls => apply_line l db ≫= apply_lines ls end.
Definition empty_database : database := {| db_nodes := λ _, []; db_src_hops := []; db_dst_hops := []; db_links := λ _, []; db_direct := [] |}.

(** ** The handler *)

(** A directory, if it exists: its files. *)
Abbreviation directory := (gmap str (list dump_line)).
Definition is_nonempty_dir (d : option directory) : bool := match d with Some files => negb (bool_decide (files = ∅)) | None => false end.
Definition is_jsonl (name : str) : bool := ends_with #".jsonl" name.
(** How the writer spreads lines over files; making the directory, or the stream's identity in it, may fail. *)
Context (wal_files : list dump_line → directory) (create_error : option Error).
Definition dump_refused : Error := Ipc (Msg "knowledge_dump_wal: target_dir '{}' already exists and is not empty" []).
(** Before the lock: refuse a directory with files, and note whether it existed.
    Source: core/src/handlers.rs 2249-2260 (handle_dump_wal) *)
Definition dump_precheck (target : option directory) : result Error bool :=
  if is_nonempty_dir target then Err dump_refused else Ok (bool_decide (is_Some target)).
(** Source: core/src/handlers.rs 2293-2308 (handle_dump_wal) *)
Definition dump_cleanup (dir_existed_before : bool) (target : option directory) : option directory :=
  if dir_existed_before then (λ files, base.filter (λ e : str * list dump_line, is_jsonl e.1 = false) files) <$> target else None.
(** Under the lock: check again, write, and clean up after any failure.
    Source: core/src/handlers.rs 2269-2334 (handle_dump_wal) *)
Definition dump_locked (dir_existed_before : bool) (db : database) (gid : option str) (target : option directory) : result Error DumpResult * option directory :=
  if is_nonempty_dir target then (Err dump_refused, dump_cleanup dir_existed_before target)
  else match create_error with
       | Some e => (Err e, dump_cleanup dir_existed_before target)
       | None =>
           let '(r, s) := run_dump db gid {| sk_lines := []; sk_chunks := 0 |} in
           let target := Some (<[WAL_GENERATION_FILE := []]> (wal_files (sk_lines s))) in
           match r with Ok res => (Ok res, target) | Err e => (Err e, dump_cleanup dir_existed_before target) end
       end.
(** A call on its own.
    Source: core/src/handlers.rs 2232-2335 (handle_dump_wal) *)
Definition handle_dump_wal (db : database) (gid : option str) (target : option directory) : result Error DumpResult * option directory :=
  match dump_precheck target with
  | Err e => (Err e, target)
  | Ok existed => dump_locked existed db gid target
  end.
End dump.
Global Arguments cell F : clear implicits.
Global Arguments link F : clear implicits.
Global Arguments database F : clear implicits.
