(* ===== verification/DumpTheory.v ===== *)
(** * DumpTheory: replaying a dump into an empty database gives the database back *)

From S2P Require Import Prelude Text Numbers Json WalGeneration Wal Replay Graph Dump.

Lemma omap_pure {A B} (f : A → B) (l : list A) : omap (λ x, Some (f x)) l = f <$> l.
Proof. induction l as [|x l IH]; [done|]. cbn [omap list_omap fmap list_fmap]. by rewrite IH. Qed.
Lemma all_of_fmap {A B C} (f : A → option B) (g : C → A) (h : C → B) l : Forall (λ x, f (g x) = Some (h x)) l → all_of f (g <$> l) = Some (h <$> l).
Proof. induction 1 as [|x l Hx _ IH]; [done|]. cbn [fmap list_fmap all_of]. by rewrite Hx, IH. Qed.
Lemma all_of_texts l : all_of as_str (VString <$> l) = Some l.
Proof. rewrite (all_of_fmap as_str VString id); [by rewrite list_fmap_id|]. by apply Forall_forall. Qed.

(** ** The lines of a dump *)

Section lines.
Context {U : Unicode} {UL : UnicodeLaws} {F : Type} (fzero : F) (float_json : F → value) (json_float : value → option F) (show_cell : cell F → str).
Context (civil : Z → N * N * N * N * N * N * N) (parse_rfc3339 parse_space : str → option Z).
Context (arrange : ∀ A : Type, nat → (A → str) → list A → list A).
Context (query_error : template → nat → option Error) (chunk_error : nat → option Error).
(** The engine breaks ties alike in every page of a query. *)
Hypothesis arrange_perm : ∀ A n (k : A → str) l, arrange A n k l ≡ₚ l.
Hypothesis arrange_stable : ∀ A n (k : A → str) l, arrange A n k l = arrange A 0 k l.

(** What the writer keeps of a mutation's parameters. *)
Abbreviation kept p := (strip_derived_params (strip_vector_params p)).
Lemma cypher_ascii t : to_uppercase (cypher_of t) = ascii_upper <$> cypher_of t.
Proof. apply to_uppercase_ascii. destruct t as [[]| |[]]; vm_compute; reflexivity. Qed.
(** No statement of the dump is taken for a read or for index upkeep: the writer keeps each, and
    the replay loop knows each for a mutation. *)
Lemma dump_statements_kept t : is_index_ddl (cypher_of t) = false ∧ looks_like_mutation (cypher_of t) = true ∧ is_known (cypher_of t) = true.
Proof. unfold is_index_ddl, looks_like_mutation, is_known. rewrite cypher_ascii. destruct t as [[]| |[]]; vm_compute; auto. Qed.
Lemma logged_once t p : logged t p = [(t, kept p)].
Proof. unfold logged. destruct (dump_statements_kept t) as (-> & -> & _). done. Qed.
Lemma all_logged t ps : ps ≫= logged t = (λ p, (t, kept p)) <$> ps.
Proof. induction ps as [|p ps IH]; [done|]. by rewrite bind_cons, logged_once, IH. Qed.
Lemma pages_lines {A} t (fetch : nat → nat → list A) (emit : A → option value) (L : list A) :
  (∀ o n, fetch o n = page L o n) → ∀ fuel offset total s r s',
  length L < offset + fuel → dump_pages query_error chunk_error t fetch emit fuel offset total s = (Ok r, s') →
  sk_lines s' = sk_lines s ++ ((λ p, (t, kept p)) <$> omap emit (drop offset L)) ∧ r = total + length (omap emit (drop offset L)).
Proof.
  intros Hf. induction fuel as [|fuel IH]; intros offset total s r s' Hl; cbn [dump_pages].
  { intros [= <- <-]. rewrite drop_ge by lia. cbn. rewrite app_nil_r. split; [done|lia]. }
  destruct (query_error t offset); [done|]. rewrite Hf. unfold page. set (rest := drop offset L).
  assert (length rest = length L - offset) as Hrest by apply length_drop. cbv zeta. rewrite all_logged.
  destruct (write_chunk _ _ s) as [[[]|e] s1] eqn:Hw; [|done].
  assert (sk_lines s1 = sk_lines s ++ ((λ p, (t, kept p)) <$> omap emit (take DUMP_PAGE_SIZE rest))) as Hs1.
  { revert Hw. unfold write_chunk. destruct ((λ p, (t, kept p)) <$> omap emit _); [intros [= <-]; by rewrite app_nil_r|]. destruct (chunk_error _); [done|]. by intros [= <-]. }
  destruct (_ <? _)%nat eqn:Hlt.
  - intros [= <- <-]. apply Nat.ltb_lt in Hlt. rewrite length_take in Hlt. rewrite take_ge in Hs1 |- * by lia. done.
  - apply Nat.ltb_ge in Hlt. rewrite length_take in *. replace (DUMP_PAGE_SIZE `min` length rest) with DUMP_PAGE_SIZE by lia.
    intros [Hlines ->]%IH; [|unfold DUMP_PAGE_SIZE in *; lia]. rewrite <- drop_drop in *. fold rest in Hlines |- *.
    assert (omap emit rest = omap emit (take DUMP_PAGE_SIZE rest) ++ omap emit (drop DUMP_PAGE_SIZE rest)) as -> by (by rewrite <- omap_app, take_drop).
    rewrite fmap_app, length_app, Hlines, Hs1, <- app_assoc. split; [done|lia].
Qed.

(** The rows and links of a group as the queries return them. *)
Definition node_rows (db : database F) gid (k : node_kind) : list (list (cell F)) :=
  sort_by (λ a b, str_leb (row_uuid show_cell a) (row_uuid show_cell b)) (List.filter (λ r, in_group gid (col 2 r)) (db_nodes db k)).
Definition relates_rows (db : database F) gid : list (str * str * str) :=
  arrange _ 0 (λ t, t.1.2) (List.filter (λ t, in_group gid (group_of_relato show_cell db t.1.2)) (triples db)).
Definition link_rows (db : database F) gid (k : link_kind) : list (link F) :=
  arrange _ 0 lk_from (List.filter (λ l, in_group gid (lk_group l)) (db_links db k)).
Abbreviation node_line k := (λ r, (TNode k, kept (node_params fzero float_json show_cell civil parse_rfc3339 parse_space k r))).
Definition relates_line (t : str * str * str) : dump_line :=
  (TRelatesTo, kept (VObject [(#"src_uuid", VString t.1.1); (#"rn_uuid", VString t.1.2); (#"dst_uuid", VString t.2)])).
Abbreviation link_value := (link_params show_cell civil parse_rfc3339 parse_space).
Definition node_lines (db : database F) gid k : list dump_line := node_line k <$> node_rows db gid k.
Definition link_lines (db : database F) gid k : list dump_line := (λ p, (TLink k, kept p)) <$> omap (link_value k) (link_rows db gid k).
Definition dump_lines (db : database F) gid : list dump_line :=
  (node_lines db gid NEntity ++ node_lines db gid NEpisodic ++ node_lines db gid NRelato ++ node_lines db gid NCommunity ++ node_lines db gid NSaga) ++
  (relates_line <$> relates_rows db gid) ++
  link_lines db gid LMentions ++ link_lines db gid LHasEpisode ++ link_lines db gid LMemberEntity ++ link_lines db gid LMemberCommunity ++ link_lines db gid LNextEpisode.

Lemma filter_le {A} (f : A → bool) l : length (List.filter f l) ≤ length l.
Proof. apply List.filter_length_le. Qed.
Lemma nodes_lines db gid k s r s' : dump_nodes fzero float_json show_cell civil parse_rfc3339 parse_space query_error chunk_error db gid k s = (Ok r, s') →
  sk_lines s' = sk_lines s ++ node_lines db gid k ∧ r = length (node_rows db gid k).
Proof.
  unfold dump_nodes. intros H. apply (pages_lines _ _ _ (node_rows db gid k)) in H as [Hl Hr]; [|done|].
  - rewrite drop_0, omap_pure in *. rewrite length_fmap in Hr. split; [|done]. rewrite Hl. unfold node_lines. by rewrite <- list_fmap_compose.
  - unfold node_rows. rewrite (Permutation_length (sort_by_perm _ _)). pose proof (filter_le (λ r, in_group gid (col 2 r)) (db_nodes db k)). lia.
Qed.
Lemma relates_lines db gid s r s' : dump_relates_to_edges show_cell arrange query_error chunk_error db gid s = (Ok r, s') →
  sk_lines s' = sk_lines s ++ (relates_line <$> relates_rows db gid) ∧ r = length (relates_rows db gid).
Proof.
  unfold dump_relates_to_edges. intros H. apply (pages_lines _ _ _ (relates_rows db gid)) in H as [Hl Hr].
  - rewrite drop_0, omap_pure in *. rewrite length_fmap in Hr. split; [|done]. rewrite Hl. by rewrite <- list_fmap_compose.
  - intros o n. unfold dump_relates_to_page. by rewrite arrange_stable.
  - unfold relates_rows. rewrite (Permutation_length (arrange_perm _ _ _ _)). pose proof (filter_le (λ t, in_group gid (group_of_relato show_cell db t.1.2)) (triples db)). lia.
Qed.
Lemma links_lines db gid k s r s' : dump_links show_cell civil parse_rfc3339 parse_space arrange query_error chunk_error db gid k s = (Ok r, s') →
  sk_lines s' = sk_lines s ++ link_lines db gid k ∧ r = length (link_lines db gid k).
Proof.
  unfold dump_links. intros H. apply (pages_lines _ _ _ (link_rows db gid k)) in H as [Hl Hr].
  - rewrite drop_0 in *. split; [done|]. unfold link_lines. by rewrite length_fmap.
  - intros o n. unfold link_page. by rewrite arrange_stable.
  - unfold link_rows. rewrite (Permutation_length (arrange_perm _ _ _ _)). pose proof (filter_le (λ l, in_group gid (lk_group l)) (db_links db k)). lia.
Qed.
Lemma phase_cons p ps total s r s' : run_phases (p :: ps) total s = (Ok r, s') → ∃ n s1, p s = (Ok n, s1) ∧ run_phases ps (total + n) s1 = (Ok r, s').
Proof. cbn [run_phases]. destruct (p s) as [[n|e] s1]; [|done]. by exists n, s1. Qed.
Lemma run_dump_lines db gid s res s' :
  run_dump fzero float_json show_cell civil parse_rfc3339 parse_space arrange query_error chunk_error db gid s = (Ok res, s') →
  sk_lines s' = sk_lines s ++ dump_lines db gid ∧
  nodes_dumped res = length (node_rows db gid NEntity) + length (node_rows db gid NEpisodic) + length (node_rows db gid NRelato) +
                     length (node_rows db gid NCommunity) + length (node_rows db gid NSaga) ∧
  edges_dumped res = length (relates_rows db gid) + length (link_lines db gid LMentions) + length (link_lines db gid LHasEpisode) +
                     length (link_lines db gid LMemberEntity) + length (link_lines db gid LMemberCommunity) + length (link_lines db gid LNextEpisode).
Proof.
  unfold run_dump. destruct (dump_nodes_phase _ _ _ _ _ _ _ _ _ _ s) as [[n|e] s1] eqn:Hn; [|done].
  destruct (dump_edges_phase _ _ _ _ _ _ _ _ _ s1) as [[m|e] s2] eqn:Hm; [|done]. intros [= <- <-].
  unfold dump_nodes_phase in Hn. apply phase_cons in Hn as (n1 & t1 & [L1 ->]%nodes_lines & Hn). apply phase_cons in Hn as (n2 & t2 & [L2 ->]%nodes_lines & Hn).
  apply phase_cons in Hn as (n3 & t3 & [L3 ->]%nodes_lines & Hn). apply phase_cons in Hn as (n4 & t4 & [L4 ->]%nodes_lines & Hn).
  apply phase_cons in Hn as (n5 & t5 & [L5 ->]%nodes_lines & Hn). injection Hn as <- <-.
  unfold dump_edges_phase in Hm. apply phase_cons in Hm as (m1 & u1 & [K1 ->]%relates_lines & Hm). apply phase_cons in Hm as (m2 & u2 & [K2 ->]%links_lines & Hm).
  apply phase_cons in Hm as (m3 & u3 & [K3 ->]%links_lines & Hm). apply phase_cons in Hm as (m4 & u4 & [K4 ->]%links_lines & Hm).
  apply phase_cons in Hm as (m5 & u5 & [K5 ->]%links_lines & Hm). apply phase_cons in Hm as (m6 & u6 & [K6 ->]%links_lines & Hm). injection Hm as <- <-.
  split; [|cbn [nodes_dumped edges_dumped]; lia]. rewrite K6, K5, K4, K3, K2, K1, L5, L4, L3, L2, L1. unfold dump_lines. by rewrite <- !app_assoc.
Qed.

(** ** One statement replayed *)

Abbreviation format_time := (format_datetime_rfc3339_subsecond civil).
(** A time and a number whose printed form reads back. *)
Definition legible (us : Z) : Prop := parse_rfc3339 (format_time us) = Some us.
Definition finite (x : F) : Prop := json_float (float_json x) = Some x.
Context (recompute : option str → list F).
(** A replay binds no vector with a component that is not a number. *)
Hypothesis recomputed_finite : ∀ o, Forall finite (recompute o).
Definition optional_time (c : cell F) : Prop := c = CNull ∨ ∃ us, c = CTime us ∧ legible us.

(** A row as the service stores it: texts that are texts, a legible creation time, and an ingest
    time except where the table has none; an entity has a kind. *)
Inductive stored : node_kind → list (cell F) → Prop :=
| stored_entity u n g ls t e s a se kd i : nonempty (trim kd) = true → legible t → legible i →
    stored NEntity [CText u; CText n; CText g; CTexts ls; CTime t; CFloats e; CText s; CText a; CFloats se; CText kd; CTime i]
| stored_episodic u n g t so sd c e v ee a i : optional_time v → legible t → legible i →
    stored NEpisodic [CText u; CText n; CText g; CTime t; CText so; CText sd; CText c; CFloats e; v; CTexts ee; CText a; CTime i]
| stored_relato u n g t f e ep x v iv a rt i : optional_time x → optional_time v → optional_time iv → legible t → legible i →
    stored NRelato [CText u; CText n; CText g; CTime t; CText f; CFloats e; CTexts ep; x; v; iv; CText a; CText rt; CTime i]
| stored_community u n g t e s : legible t → stored NCommunity [CText u; CText n; CText g; CTime t; CFloats e; CText s]
| stored_saga u n g t : legible t → stored NSaga [CText u; CText n; CText g; CTime t].

(** The vector columns of a table, each with the column of its text. *)
Definition vector_columns (k : node_kind) : list (nat * nat) :=
  match k with NEntity => [(5, 1); (8, 6)] | NEpisodic => [(7, 6)] | NRelato => [(5, 4)] | NCommunity => [(4, 1)] | NSaga => [] end.
Definition text_in (c : cell F) : option str := match c with CText s => if nonempty s then Some s else None | _ => None end.
(** A row with its vectors recomputed from its texts. *)
Definition revector (k : node_kind) (r : list (cell F)) : list (cell F) :=
  foldl (λ acc '(v, t), <[v := CFloats (recompute (text_in (col t r)))]> acc) r (vector_columns k).

Lemma floats_read_back o : all_of json_float (float_json <$> recompute o) = Some (recompute o).
Proof. rewrite (all_of_fmap json_float float_json id); [by rewrite list_fmap_id|apply recomputed_finite]. Qed.
Lemma opt_time_read (c : cell F) :
  optional_time c → ∀ k p, get (lit k) p = Some (dump_opt_ts_json show_cell civil parse_rfc3339 parse_space c) → opt_time_at parse_rfc3339 k p = Some c.
Proof.
  intros [->|(us & -> & Hus)] k p Hk; unfold opt_time_at; rewrite Hk; cbn [dump_opt_ts_json dump_ts_str]; [done|].
  unfold time_at. rewrite Hk. cbn [dump_opt_ts_json dump_ts_str]. by rewrite Hus.
Qed.
Lemma field_time k p us : legible us → get (lit k) p = Some (VString (format_time us)) → time_at (F := F) parse_rfc3339 k p = Some (CTime us).
Proof. intros Hus H. unfold time_at. by rewrite H, Hus. Qed.
Lemma field_opt_time k p us : legible us → get (lit k) p = Some (VString (format_time us)) → opt_time_at (F := F) parse_rfc3339 k p = Some (CTime us).
Proof. intros Hus H. unfold opt_time_at. rewrite H. by apply field_time. Qed.
Lemma field_text k p s : get (lit k) p = Some (VString s) → text_at (F := F) k p = Some (CText s).
Proof. intros H. unfold text_at. by rewrite H. Qed.
Lemma field_texts k p l : get (lit k) p = Some (VArray (VString <$> l)) → texts_at (F := F) k p = Some (CTexts l).
Proof. intros H. unfold texts_at. by rewrite H, all_of_texts. Qed.
Lemma field_floats k p o : get (lit k) p = Some (VArray (float_json <$> recompute o)) → floats_at json_float k p = Some (CFloats (recompute o)).
Proof. intros H. unfold floats_at. by rewrite H, floats_read_back. Qed.
Lemma all_of_cons {A B} (f : A → option B) x y l ys : f x = Some y → all_of f l = Some ys → all_of f (x :: l) = Some (y :: ys).
Proof. intros H1 H2. cbn [all_of]. by rewrite H1, H2. Qed.
(** Reads one field of a line's parameters. *)
Ltac read_field := first
  [ apply field_text; reflexivity | apply field_texts; reflexivity | apply field_time; [eassumption|reflexivity] | apply field_opt_time; [eassumption|reflexivity]
  | apply field_floats; reflexivity | apply opt_time_read; [eassumption|reflexivity] ].
(** The parameters of a line as the replay binds them. *)
Abbreviation bound t p := (with_vectors float_json recompute t (kept p)).
Abbreviation params_of := (node_params fzero float_json show_cell civil parse_rfc3339 parse_space).
Lemma node_vector_pairs k : vector_pairs (TNode k) =
  match k with NEntity => [(#"name_embedding", #"name"); (#"summary_embedding", #"summary")] | NEpisodic => [(#"content_embedding", #"content")]
             | NRelato => [(#"fact_embedding", #"fact")] | NCommunity => [(#"name_embedding", #"name")] | NSaga => [] end.
Proof. destruct k; vm_compute; reflexivity. Qed.
Lemma stored_reads_back k r : stored k r → node_row json_float parse_rfc3339 k (bound (TNode k) (params_of k r)) = Some (revector k r).
Proof.
  unfold with_vectors. rewrite node_vector_pairs. destruct 1 as [u n g ls t e s a se kd i Hk Ht Hi| | | |]; cbn [node_params node_row revector vector_columns].
  - assert (cell_as_kind show_cell (CText kd) = kd) as Hkd by (unfold cell_as_kind; cbn [value_as_string]; by rewrite Hk).
    repeat apply all_of_cons; try reflexivity; try read_field. apply field_text. cbn [entity_params]. rewrite <- Hkd at 2. reflexivity.
  - repeat apply all_of_cons; try reflexivity; read_field.
  - repeat apply all_of_cons; try reflexivity; read_field.
  - repeat apply all_of_cons; try reflexivity; read_field.
  - repeat apply all_of_cons; try reflexivity; read_field.
Qed.

(** ** Many statements *)

Abbreviation replayed := (apply_lines float_json json_float show_cell parse_rfc3339 recompute).
Abbreviation uuid_of := (row_uuid show_cell).
Lemma replayed_app ls ks (db : database F) : replayed (ls ++ ks) db = replayed ls db ≫= replayed ks.
Proof.
  revert db. induction ls as [|l ls IH]; intros db; [done|]. cbn [app apply_lines]. destruct (apply_line _ _ _ _ _ l db) as [db1|]; [|done]. cbn [mbind option_bind]. apply IH.
Qed.
Lemma upsert_new (r : list (cell F)) rows : uuid_of r ∉ uuid_of <$> rows → upsert show_cell r rows = rows ++ [r].
Proof.
  induction rows as [|x rows IH]; [done|]. cbn [fmap list_fmap upsert]. rewrite not_elem_of_cons. intros [Hx Hr].
  rewrite bool_decide_eq_false_2 by congruence. cbn [app]. f_equal. by apply IH.
Qed.
(** What replaying leaves alone. *)
Definition same_but_nodes (k : node_kind) (a b : database F) : Prop :=
  (∀ j, j ≠ k → db_nodes b j = db_nodes a j) ∧ db_src_hops b = db_src_hops a ∧ db_dst_hops b = db_dst_hops a ∧
  (∀ j, db_links b j = db_links a j) ∧ db_direct b = db_direct a.
Lemma revector_uuid k r : stored k r → uuid_of (revector k r) = uuid_of r.
Proof. by destruct 1. Qed.
Lemma revector_uuids k rows : Forall (stored k) rows → uuid_of <$> (revector k <$> rows) = uuid_of <$> rows.
Proof. induction 1 as [|r rows Hr _ IH]; [done|]. cbn [fmap list_fmap]. by rewrite revector_uuid, IH. Qed.
Lemma nodes_replayed k rows : Forall (stored k) rows → ∀ db, NoDup ((uuid_of <$> db_nodes db k) ++ (uuid_of <$> rows)) →
  ∃ db', replayed (node_line k <$> rows) db = Some db' ∧ db_nodes db' k = db_nodes db k ++ (revector k <$> rows) ∧ same_but_nodes k db db'.
Proof.
  induction 1 as [|r rows Hr _ IH]; intros db Hn.
  - exists db. cbn [fmap list_fmap]. rewrite app_nil_r. by repeat split.
  - cbn [fmap list_fmap apply_lines]. unfold apply_line at 1. cbn [fst snd]. rewrite stored_reads_back by done. cbn [mbind option_bind].
    assert (uuid_of (revector k r) ∉ uuid_of <$> db_nodes db k) as Hnew.
    { rewrite revector_uuid by done. apply NoDup_app in Hn as (_ & Hd & _). intros Hin. apply (Hd _ Hin). by left. }
    rewrite upsert_new by done. destruct (IH (set_nodes k (db_nodes db k ++ [revector k r]) db)) as (db' & H & Hk & Hj & Hs & Hd & Hl & Hx).
    + cbn [db_nodes set_nodes]. rewrite decide_True, fmap_app by done. cbn [fmap list_fmap]. rewrite revector_uuid by done. by rewrite <- app_assoc.
    + exists db'. split; [exact H|]. cbn [db_nodes set_nodes] in Hk. rewrite decide_True in Hk by done. split; [by rewrite Hk, <- app_assoc|].
      split; [|done]. intros j Hne. rewrite Hj by done. cbn [db_nodes set_nodes]. by rewrite decide_False.
Qed.

Lemma merge_link_new (l : link F) ls : (lk_from l, lk_to l) ∉ (λ x, (lk_from x, lk_to x)) <$> ls → merge_link l ls = ls ++ [l].
Proof.
  induction ls as [|x ls IH]; [done|]. cbn [fmap list_fmap merge_link]. rewrite not_elem_of_cons. intros [Hx Hr].
  rewrite bool_decide_eq_false_2 by (intros [? ?]; congruence). cbn [app]. f_equal. by apply IH.
Qed.
(** A relation as the service stores it, between nodes that exist; a mention has a uuid. *)
Record stored_link (db : database F) (k : link_kind) (l : link F) : Prop := {
  sl_from : lk_from l ∈ uuid_of <$> db_nodes db (ends k).1;
  sl_to : lk_to l ∈ uuid_of <$> db_nodes db (ends k).2;
  sl_uuid : ∃ u, lk_uuid l = CText u ∧ (k = LMentions → u ≠ []);
  sl_group : ∃ g, lk_group l = CText g;
  sl_created : optional_time (lk_created l);
}.
Definition same_but_links (k : link_kind) (a b : database F) : Prop :=
  (∀ j, j ≠ k → db_links b j = db_links a j) ∧ db_src_hops b = db_src_hops a ∧ db_dst_hops b = db_dst_hops a ∧
  (∀ j, db_nodes b j = db_nodes a j) ∧ db_direct b = db_direct a.
(** The ends are matched in order: the first parameter names a node of the first table. *)
Example statement_names_ends k : ∃ a b rest, strip_prefix (#"MATCH (" ++ a ++ #" {uuid: $" ++ (end_params k).1 ++ #"}), (" ++ b ++ #" {uuid: $" ++ (end_params k).2 ++ #"}) ") (cypher_of (TLink k)) = Some rest.
Proof.
  exists (match k with LMentions => #"ep:Episodic" | LHasEpisode => #"sg:Saga" | LMemberEntity | LMemberCommunity => #"c:Community" | LNextEpisode => #"ep1:Episodic" end).
  exists (match k with LMentions => #"en:Entity" | LHasEpisode => #"ep:Episodic" | LMemberEntity => #"e:Entity" | LMemberCommunity => #"m:Community" | LNextEpisode => #"ep2:Episodic" end).
  destruct k; eexists; vm_compute; reflexivity.
Qed.
(** Only node statements name vectors. *)
Lemma unvectored t p : (∀ k, t ≠ TNode k) → with_vectors float_json recompute t p = p.
Proof. intros Ht. unfold with_vectors. assert (vector_pairs t = []) as -> by (destruct t as [k| |[]]; [by destruct (Ht k)|vm_compute; reflexivity..]). by destruct p. Qed.
Lemma link_line_replayed (db0 db : database F) k l : stored_link db0 k l → (∀ j, uuid_of <$> db_nodes db j ≡ₚ uuid_of <$> db_nodes db0 j) →
  ∃ v, link_value k l = Some v ∧ apply_line float_json json_float show_cell parse_rfc3339 recompute (TLink k, kept v) db = Some (set_links k (merge_link l (db_links db k)) db).
Proof.
  intros [Hf Ht (u & Hu & Hm) (g & Hg) Hc] Hn. unfold link_params.
  assert (bool_decide (k = LMentions) && negb (nonempty (value_as_string show_cell (lk_uuid l))) = false) as ->.
  { rewrite Hu. cbn [value_as_string]. case_bool_decide as Hk; [|done]. specialize (Hm Hk). by destruct u. }
  eexists. split; [reflexivity|]. unfold apply_line. cbn [fst snd]. rewrite unvectored by done. set (p := kept (VObject _)).
  assert (get (end_params k).1 p = Some (VString (lk_from l))) as -> by (by destruct k).
  assert (get (end_params k).2 p = Some (VString (lk_to l))) as -> by (by destruct k).
  cbn [mbind option_bind as_str].
  assert (text_at (F := F) "uuid" p = Some (lk_uuid l)) as -> by (rewrite Hu; apply field_text; unfold p; rewrite Hu; by destruct k).
  assert (text_at (F := F) "group_id" p = Some (lk_group l)) as -> by (rewrite Hg; apply field_text; unfold p; rewrite Hg; by destruct k).
  cbn [mbind option_bind]. rewrite (opt_time_read (lk_created l) Hc "created_at" p) by (by destruct k). cbn [mbind option_bind].
  assert (∀ j x, x ∈ uuid_of <$> db_nodes db0 j → has_node show_cell db j x = true) as Hh.
  { intros j x Hx. apply bool_decide_eq_true. by rewrite Hn. }
  rewrite (Hh _ _ Hf), (Hh _ _ Ht). cbn [andb]. by destruct l.
Qed.
Lemma links_replayed (db0 : database F) k ls : Forall (stored_link db0 k) ls → ∀ db,
  (∀ j, uuid_of <$> db_nodes db j ≡ₚ uuid_of <$> db_nodes db0 j) → NoDup ((λ x, (lk_from x, lk_to x)) <$> db_links db k ++ ls) →
  ∃ db', replayed ((λ p, (TLink k, kept p)) <$> omap (link_value k) ls) db = Some db' ∧ db_links db' k = db_links db k ++ ls ∧ same_but_links k db db' ∧
    length (omap (link_value k) ls) = length ls.
Proof.
  induction 1 as [|l ls Hl _ IH]; intros db Hn Hd.
  - exists db. rewrite app_nil_r. by repeat split.
  - destruct (link_line_replayed db0 db k l Hl Hn) as (v & Hv & Ha). cbn [omap list_omap]. rewrite Hv. cbn [fmap list_fmap apply_lines]. rewrite Ha. cbn [mbind option_bind].
    rewrite merge_link_new.
    2: { rewrite fmap_app in Hd. apply NoDup_app in Hd as (_ & Hd & _). intros Hin. apply (Hd _ Hin). by left. }
    destruct (IH (set_links k (db_links db k ++ [l]) db)) as (db' & H & Hk & (Hj & Hs & Hdst & Hno & Hx) & Hlen).
    + done.
    + cbn [db_links set_links]. rewrite decide_True by done. by rewrite <- app_assoc.
    + exists db'. split; [exact H|]. cbn [db_links set_links] in Hk. rewrite decide_True in Hk by done. split; [by rewrite Hk, <- app_assoc|].
      split; [|cbn [length]; by rewrite Hlen]. split; [|done]. intros j Hne. rewrite Hj by done. cbn [db_links set_links]. by rewrite decide_False.
Qed.

Lemma elem_of_add_hop (h x : str * str) hops : x ∈ add_hop h hops ↔ x ∈ hops ∨ x = h.
Proof. unfold add_hop. case_bool_decide; set_solver. Qed.
Lemma add_hop_NoDup h hops : NoDup hops → NoDup (add_hop h hops).
Proof. intros H. unfold add_hop. case_bool_decide; [done|]. apply NoDup_app. split; [done|]. split; [set_solver|apply NoDup_singleton]. Qed.
Lemma hops_replayed ts : ∀ db,
  Forall (λ t : str * str * str, has_node show_cell db NEntity t.1.1 = true ∧ has_node show_cell db NRelato t.1.2 = true ∧ has_node show_cell db NEntity t.2 = true) ts →
  NoDup (db_src_hops db) → NoDup (db_dst_hops db) →
  ∃ db', replayed (relates_line <$> ts) db = Some db' ∧ (∀ j, db_nodes db' j = db_nodes db j) ∧ (∀ j, db_links db' j = db_links db j) ∧ db_direct db' = db_direct db ∧
    NoDup (db_src_hops db') ∧ NoDup (db_dst_hops db') ∧
    (∀ h, h ∈ db_src_hops db' ↔ h ∈ db_src_hops db ∨ ∃ t, t ∈ ts ∧ h = (t.1.1, t.1.2)) ∧
    (∀ h, h ∈ db_dst_hops db' ↔ h ∈ db_dst_hops db ∨ ∃ t, t ∈ ts ∧ h = (t.1.2, t.2)).
Proof.
  induction ts as [|[[s r] d] ts IH]; intros db Hall Hns Hnd.
  - exists db. split; [done|]. repeat split; try done; set_solver.
  - apply Forall_cons in Hall as [(H1 & H2 & H3) Hall]. cbn [fst snd] in *. cbn [fmap list_fmap apply_lines].
    set (db1 := {| db_nodes := db_nodes db; db_src_hops := add_hop (s, r) (db_src_hops db); db_dst_hops := add_hop (r, d) (db_dst_hops db);
                   db_links := db_links db; db_direct := db_direct db |}).
    assert (apply_line float_json json_float show_cell parse_rfc3339 recompute (relates_line (s, r, d)) db = Some db1) as ->.
    { unfold apply_line, relates_line. cbn [fst snd]. rewrite unvectored by done.
      change (get #"src_uuid" _) with (Some (VString s)). change (get #"rn_uuid" _) with (Some (VString r)). change (get #"dst_uuid" _) with (Some (VString d)).
      cbn [mbind option_bind as_str]. by rewrite H1, H2, H3. }
    cbn [mbind option_bind]. destruct (IH db1) as (db' & H & Hno & Hli & Hdi & Hns' & Hnd' & Hs & Hd); [done|by apply add_hop_NoDup..|].
    exists db'. split; [exact H|]. do 5 (split; [done|]). split; intros h.
    + rewrite Hs. cbn [db_src_hops db1]. rewrite elem_of_add_hop. set_solver.
    + rewrite Hd. cbn [db_dst_hops db1]. rewrite elem_of_add_hop. set_solver.
Qed.

(** ** A whole database *)

(** A database as the service keeps it: rows as stored, uuids and links unique, hops between nodes
    that exist, and every edge node that is bound at one end bound at the other. *)
Record whole (db : database F) : Prop := {
  wh_rows k : Forall (stored k) (db_nodes db k);
  wh_uuids k : NoDup (uuid_of <$> db_nodes db k);
  wh_src s r : (s, r) ∈ db_src_hops db → s ∈ uuid_of <$> db_nodes db NEntity ∧ r ∈ uuid_of <$> db_nodes db NRelato ∧ ∃ d, (r, d) ∈ db_dst_hops db;
  wh_dst r d : (r, d) ∈ db_dst_hops db → d ∈ uuid_of <$> db_nodes db NEntity ∧ ∃ s, (s, r) ∈ db_src_hops db;
  wh_src_nodup : NoDup (db_src_hops db);
  wh_dst_nodup : NoDup (db_dst_hops db);
  wh_links k : Forall (stored_link db k) (db_links db k);
  wh_pairs k : NoDup ((λ l, (lk_from l, lk_to l)) <$> db_links db k);
}.
(** Equal up to the order of rows, hops and links; the direct links are not compared. *)
Definition same_graph (a b : database F) : Prop :=
  (∀ k, db_nodes a k ≡ₚ db_nodes b k) ∧ db_src_hops a ≡ₚ db_src_hops b ∧ db_dst_hops a ≡ₚ db_dst_hops b ∧ ∀ k, db_links a k ≡ₚ db_links b k.

Lemma filter_everything {A} (l : list A) (f : A → bool) : (∀ x, f x = true) → List.filter f l = l.
Proof. intros H. induction l as [|x l IH]; [done|]. cbn. rewrite H. by rewrite IH. Qed.
Lemma node_rows_perm db k : node_rows db None k ≡ₚ db_nodes db k.
Proof. unfold node_rows. rewrite sort_by_perm. by rewrite filter_everything. Qed.
Lemma link_rows_perm db k : link_rows db None k ≡ₚ db_links db k.
Proof. unfold link_rows. rewrite arrange_perm. by rewrite filter_everything. Qed.
Lemma elem_of_triples (db : database F) s r d : (s, r, d) ∈ triples db ↔ (s, r) ∈ db_src_hops db ∧ (r, d) ∈ db_dst_hops db.
Proof.
  unfold triples. rewrite list_elem_of_In, in_flat_map. split.
  - intros ([s0 r0] & Hs%list_elem_of_In & H). apply list_elem_of_In, list_elem_of_fmap in H as ([r1 d1] & He & H).
    apply list_elem_of_In, filter_In in H as [H%list_elem_of_In Hr%bool_decide_eq_true]. cbn in Hr. by simplify_eq.
  - intros [Hs Hd]. exists (s, r). split; [by apply list_elem_of_In|]. apply list_elem_of_In, list_elem_of_fmap. exists (r, d). split; [done|].
    apply list_elem_of_In, filter_In. split; [by apply list_elem_of_In|]. by apply bool_decide_eq_true.
Qed.
Lemma relates_rows_elem db t : t ∈ relates_rows db None ↔ t ∈ triples db.
Proof. unfold relates_rows. rewrite arrange_perm. by rewrite filter_everything. Qed.

Lemma all_nodes_replayed (db0 : database F) ks : whole db0 → NoDup ks → ∀ db, (∀ k, k ∈ ks → db_nodes db k = []) →
  ∃ db', replayed (ks ≫= node_lines db0 None) db = Some db' ∧ (∀ k, k ∈ ks → db_nodes db' k = revector k <$> node_rows db0 None k) ∧
    (∀ k, k ∉ ks → db_nodes db' k = db_nodes db k) ∧ db_src_hops db' = db_src_hops db ∧ db_dst_hops db' = db_dst_hops db ∧
    (∀ j, db_links db' j = db_links db j).
Proof.
  intros Hw. induction 1 as [|k ks Hk Hks IH]; intros db He.
  { exists db. split; [done|]. split; [by intros k ?%elem_of_nil|]. done. }
  rewrite bind_cons, replayed_app.
  destruct (nodes_replayed k (node_rows db0 None k)) with (db := db) as (db1 & Hr1 & H1 & Hj & Hs & Hd & Hl & _).
  - apply Forall_forall. intros r Hr. rewrite node_rows_perm in Hr. revert r Hr. apply Forall_forall, wh_rows, Hw.
  - rewrite He by (by left). cbn [fmap list_fmap app]. rewrite node_rows_perm. by apply wh_uuids.
  - rewrite He in H1 by (by left). change (replayed (node_lines db0 None k) db = Some db1) in Hr1. rewrite Hr1. cbn [mbind option_bind]. destruct (IH db1) as (db2 & H & Hin & Hout & Hs2 & Hd2 & Hl2).
    { intros j Hin. rewrite Hj by (intros ->; done). apply He. by right. }
    exists db2. split; [exact H|]. split; [|split].
    + intros j [->|Hin']%elem_of_cons; [|by apply Hin]. by rewrite Hout.
    + intros j [Hne Hnot]%not_elem_of_cons. rewrite Hout by done. by apply Hj.
    + split; [congruence|]. split; [congruence|]. intros j. by rewrite Hl2.
Qed.
Lemma all_links_replayed (db0 : database F) ks : whole db0 → NoDup ks → ∀ db, (∀ k, k ∈ ks → db_links db k = []) →
  (∀ j, uuid_of <$> db_nodes db j ≡ₚ uuid_of <$> db_nodes db0 j) →
  ∃ db', replayed (ks ≫= link_lines db0 None) db = Some db' ∧ (∀ k, k ∈ ks → db_links db' k = link_rows db0 None k) ∧
    (∀ k, k ∉ ks → db_links db' k = db_links db k) ∧ db_src_hops db' = db_src_hops db ∧ db_dst_hops db' = db_dst_hops db ∧
    (∀ j, db_nodes db' j = db_nodes db j).
Proof.
  intros Hw. induction 1 as [|k ks Hk Hks IH]; intros db He Hn.
  { exists db. split; [done|]. split; [by intros k ?%elem_of_nil|]. done. }
  rewrite bind_cons, replayed_app.
  destruct (links_replayed db0 k (link_rows db0 None k)) with (db := db) as (db1 & Hr1 & H1 & (Hj & Hs & Hd & Hno & _) & _).
  - apply Forall_forall. intros l Hl. rewrite link_rows_perm in Hl. revert l Hl. apply Forall_forall, wh_links, Hw.
  - done.
  - rewrite He by (by left). cbn [app]. rewrite link_rows_perm. by apply wh_pairs.
  - rewrite He in H1 by (by left). change (replayed (link_lines db0 None k) db = Some db1) in Hr1. rewrite Hr1. cbn [mbind option_bind]. destruct (IH db1) as (db2 & H & Hin & Hout & Hs2 & Hd2 & Hno2).
    { intros j Hin. rewrite Hj by (intros ->; done). apply He. by right. }
    { intros j. by rewrite Hno. }
    exists db2. split; [exact H|]. split; [|split].
    + intros j [->|Hin']%elem_of_cons; [|by apply Hin]. by rewrite Hout.
    + intros j [Hne Hnot]%not_elem_of_cons. rewrite Hout by done. by apply Hj.
    + split; [congruence|]. split; [congruence|]. intros j. by rewrite Hno2.
Qed.
Lemma link_lines_length db k : whole db → length (link_lines db None k) = length (db_links db k).
Proof.
  intros Hw. unfold link_lines. rewrite length_fmap, <- (Permutation_length (link_rows_perm db k)).
  assert (Forall (stored_link db k) (link_rows db None k)) as H.
  { apply Forall_forall. intros l Hl. rewrite link_rows_perm in Hl. revert l Hl. apply Forall_forall, wh_links, Hw. }
  induction H as [|l ls Hl _ IH]; [done|]. destruct (link_line_replayed db db k l Hl ltac:(done)) as (v & Hv & _).
  cbn [omap list_omap]. rewrite Hv. cbn [length]. by rewrite IH.
Qed.

(** The database with every vector recomputed from its text. *)
Definition revectored (db : database F) : database F :=
  {| db_nodes := λ k, revector k <$> db_nodes db k; db_src_hops := db_src_hops db; db_dst_hops := db_dst_hops db; db_links := db_links db; db_direct := db_direct db |}.

(** ** Failures *)

Lemma pages_complete {A} t (fetch : nat → nat → list A) emit : (∀ t n, query_error t n = None) → (∀ n, chunk_error n = None) →
  ∀ fuel offset total s, ∃ r s', dump_pages query_error chunk_error t fetch emit fuel offset total s = (Ok r, s').
Proof.
  intros Hq Hc. induction fuel as [|fuel IH]; intros offset total s; cbn [dump_pages]; [by eauto|]. rewrite Hq. cbv zeta.
  assert (∃ s1, write_chunk chunk_error (omap emit (fetch offset DUMP_PAGE_SIZE) ≫= logged t) s = (Ok tt, s1)) as (s1 & ->).
  { unfold write_chunk. destruct (_ ≫= _); [by eauto|]. rewrite Hc. by eauto. }
  destruct (_ <? _)%nat; [by eauto|apply IH].
Qed.
Lemma phases_complete ps : Forall (λ p : sink → result Error nat * sink, ∀ s, ∃ r s', p s = (Ok r, s')) ps →
  ∀ total s, ∃ r s', run_phases ps total s = (Ok r, s').
Proof. induction 1 as [|p ps Hp _ IH]; intros total s; cbn [run_phases]; [by eauto|]. destruct (Hp s) as (r & s' & ->). apply IH. Qed.
Abbreviation dump_all := (run_dump fzero float_json show_cell civil parse_rfc3339 parse_space arrange query_error chunk_error).
(** When no query and no write fails, the dump ends with its counts. *)
Theorem dump_completes db gid s : (∀ t n, query_error t n = None) → (∀ n, chunk_error n = None) → ∃ res s', dump_all db gid s = (Ok res, s').
Proof.
  intros Hq Hc. unfold run_dump.
  assert (∀ s, ∃ n s', dump_nodes_phase fzero float_json show_cell civil parse_rfc3339 parse_space query_error chunk_error db gid s = (Ok n, s')) as Hn.
  { intros s0. apply phases_complete. repeat constructor; intros s1; by apply pages_complete. }
  assert (∀ s, ∃ n s', dump_edges_phase show_cell civil parse_rfc3339 parse_space arrange query_error chunk_error db gid s = (Ok n, s')) as He.
  { intros s0. apply phases_complete. repeat constructor; intros s1; by apply pages_complete. }
  destruct (Hn s) as (n & s1 & ->). destruct (He s1) as (m & s2 & ->). by eauto.
Qed.

Context (wal_files : list dump_line → gmap str (list dump_line)) (create_error : option Error).
Abbreviation locked := (dump_locked fzero float_json show_cell civil parse_rfc3339 parse_space arrange query_error chunk_error wal_files create_error).
Abbreviation call := (handle_dump_wal fzero float_json show_cell civil parse_rfc3339 parse_space arrange query_error chunk_error wal_files create_error).
Abbreviation fresh := ({| sk_lines := []; sk_chunks := 0 |}).
(** The writer names its files as log files. *)
Hypothesis files_are_jsonl : ∀ ls name x, wal_files ls !! name = Some x → is_jsonl name = true.

(** What is left of a new log after its log files are removed: the record of its identity. *)
Lemma cleanup_existing ls : dump_cleanup true (Some (<[WAL_GENERATION_FILE := []]> (wal_files ls))) = Some {[WAL_GENERATION_FILE := []]}.
Proof.
  unfold dump_cleanup. cbn [fmap option_fmap option_map]. f_equal. apply map_eq. intros name. rewrite map_lookup_filter. destruct (decide (name = WAL_GENERATION_FILE)) as [->|Hne].
  - rewrite lookup_insert_eq, lookup_singleton_eq. cbn [mbind option_bind]. case_guard as Hg; [done|]. by destruct Hg; vm_compute.
  - rewrite lookup_insert_ne, lookup_singleton_ne by done. destruct (wal_files ls !! name) as [x|] eqn:Hx; [|done]. cbn [mbind option_bind].
    case_guard as Hg; [|done]. exfalso. cbn in Hg. by rewrite (files_are_jsonl _ _ _ Hx) in Hg.
Qed.
(** A failed call gives the target back as it found it, except an empty directory it had begun to
    write in, in which the record of the log's identity stays. *)
Theorem failed_dump_restores_target db gid target e target' :
  call db gid target = (Err e, target') → target' = target ∨ target = Some ∅ ∧ target' = Some {[WAL_GENERATION_FILE := []]}.
Proof.
  unfold handle_dump_wal, dump_precheck. destruct (is_nonempty_dir target) eqn:Hd; [intros [= <- <-]; by left|]. unfold dump_locked. rewrite Hd.
  destruct target as [files|]; cbn in Hd.
  - apply negb_false_iff, bool_decide_eq_true in Hd as ->. rewrite bool_decide_eq_true_2 by done. destruct create_error as [c|].
    + intros [= <- <-]. left. cbn. by rewrite map_filter_empty.
    + destruct (dump_all db gid fresh) as [[res|f] s]; [done|]. intros [= <- <-]. right. split; [done|]. apply cleanup_existing.
  - rewrite bool_decide_eq_false_2 by (by intros [? ?]). destruct create_error as [c|]; [intros [= <- <-]; by left|].
    destruct (dump_all db gid fresh) as [[res|f] s]; [done|]. intros [= <- <-]. by left.
Qed.
(** A dump that fails in an empty directory leaves that directory refused: calling again fails too. *)
Theorem failed_dump_blocks_retry db gid e s :
  create_error = None → dump_all db gid fresh = (Err e, s) →
  call db gid (Some ∅) = (Err e, Some {[WAL_GENERATION_FILE := []]}) ∧
  ∀ db' gid', call db' gid' (Some {[WAL_GENERATION_FILE := []]}) = (Err dump_refused, Some {[WAL_GENERATION_FILE := []]}).
Proof.
  intros Hc Hr. split.
  - unfold handle_dump_wal, dump_precheck, dump_locked. cbn [is_nonempty_dir]. rewrite bool_decide_eq_true_2 by done. cbn [negb].
    rewrite Hc, Hr, bool_decide_eq_true_2 by done. by rewrite cleanup_existing.
  - intros db' gid'. unfold handle_dump_wal, dump_precheck. cbn [is_nonempty_dir]. rewrite bool_decide_eq_false_2; [done|].
    apply map_non_empty_singleton.
Qed.
(** Of two calls for the same new directory, both past the check made without the lock, the second
    to run fails its check under the lock and removes the directory, the finished dump with it. *)
Theorem second_dump_deletes_first db gid db' gid' res s :
  create_error = None → dump_all db gid fresh = (Ok res, s) →
  dump_precheck None = Ok false ∧
  ∃ files, files ≠ ∅ ∧ locked false db gid None = (Ok res, Some files) ∧ locked false db' gid' (Some files) = (Err dump_refused, None).
Proof.
  intros Hc Hr. split; [reflexivity|].
  exists (<[WAL_GENERATION_FILE := []]> (wal_files (sk_lines s))). split; [apply insert_non_empty|].
  unfold dump_locked at 1. cbn [is_nonempty_dir]. rewrite Hc, Hr. split; [done|]. unfold dump_locked. cbn [is_nonempty_dir].
  by rewrite bool_decide_eq_false_2 by apply insert_non_empty.
Qed.
End lines.

(** ** A small database *)

Definition toy_number (n : N) : value := VNumber (PosInt n).
Definition toy_read_number (v : value) : option N := match v with VNumber (PosInt n) => Some n | _ => None end.
Definition toy_civil (us : Z) : N * N * N * N * N * N * N := (2024, 1, 1, 0, 0, 0, Z.to_N us)%N.
Definition toy_parse (s : str) : option Z := List.find (λ us, bool_decide (s = format_datetime_rfc3339_subsecond toy_civil us)) [7%Z; 9%Z].
Definition toy_recompute (o : option str) : list N := match o with Some s => [N.of_nat (length s)] | None => [0%N] end.
Definition toy_show (c : cell N) : str := [].
Definition toy_arrange (A : Type) (n : nat) (k : A → str) (l : list A) : list A := l.
Definition toy_entity (u : string) (created : cell N) : list (cell N) :=
  [CText (lit u); CText (lit u); CText #"g"; CTexts (#"Entity" :: nil); created; CFloats [4%N]; CText []; CText #"{}"; CFloats []; CText #"Person"; CTime 9].
Definition toy_relato : list (cell N) :=
  [CText #"r"; CText #"KNOWS"; CText #"g"; CTime 7; CText #"a knows b"; CFloats [3%N]; CTexts (#"p" :: nil); CNull; CTime 7; CNull; CText #"{}"; CText #"KNOWS"; CTime 9].
Definition toy_link (a b : string) (created : cell N) : link N := {| lk_from := lit a; lk_to := lit b; lk_uuid := CText #"l"; lk_group := CText #"g"; lk_created := created |}.
Definition toy_db (created : cell N) (dst : list (str * str)) : database N :=
  {| db_nodes := λ k, match k with
       | NEntity => [toy_entity "b" (CTime 7); toy_entity "a" created]
       | NEpisodic => [[CText #"p"; CText #"p"; CText #"g"; CTime 7; CText #"text"; CText []; CText #"a met b"; CFloats []; CNull; CTexts []; CText #"{}"; CTime 9]]
       | NRelato => [toy_relato]
       | NCommunity => []
       | NSaga => [[CText #"s"; CText #"s"; CText #"g"; CTime 7]]
       end;
     db_src_hops := [(#"a", #"r")]; db_dst_hops := dst;
     db_links := λ k, match k with LMentions => [toy_link "p" "a" (CTime 7)] | LHasEpisode => [toy_link "s" "p" CNull] | _ => [] end;
     db_direct := [] |}.
Definition toy_dump (db : database N) : result Error DumpResult * sink :=
  @run_dump AsciiUnicode N 0%N toy_number toy_show toy_civil toy_parse toy_parse toy_arrange (λ _ _, None) (λ _, None) db None {| sk_lines := []; sk_chunks := 0 |}.
Abbreviation toy_replay := (@apply_lines N toy_number toy_read_number toy_show toy_parse toy_recompute).
Abbreviation toy_legible := (legible toy_civil toy_parse).
Lemma legible_7 : toy_legible 7.
Proof. vm_compute. reflexivity. Qed.
Lemma legible_9 : toy_legible 9.
Proof. vm_compute. reflexivity. Qed.
Lemma toy_no_time : optional_time toy_civil toy_parse (CNull (F := N)).
Proof. by left. Qed.
Lemma toy_time : optional_time toy_civil toy_parse (CTime 7 (F := N)).
Proof. right. exists 7%Z. split; [done|apply legible_7]. Qed.
Lemma toy_whole : whole toy_show toy_civil toy_parse (toy_db (CTime 7) [(#"r", #"b")]).
Proof.
  split.
  - destruct k; cbn [db_nodes toy_db]; repeat apply Forall_cons_2; try apply Forall_nil_2;
      (apply stored_entity; [vm_compute; reflexivity|..]) || apply stored_episodic || apply stored_relato || apply stored_saga;
      apply legible_7 || apply legible_9 || apply toy_no_time || apply toy_time.
  - destruct k; apply (bool_decide_unpack _); vm_compute; exact I.
  - intros s r [[= -> ->]| []%elem_of_nil]%elem_of_cons. repeat split; try (apply (bool_decide_unpack _); vm_compute; exact I). exists #"b". by left.
  - intros r d [[= -> ->]| []%elem_of_nil]%elem_of_cons. repeat split; try (apply (bool_decide_unpack _); vm_compute; exact I). exists #"a". by left.
  - apply (bool_decide_unpack _). vm_compute. exact I.
  - apply (bool_decide_unpack _). vm_compute. exact I.
  - destruct k; cbn [db_links toy_db]; repeat apply Forall_cons_2; try apply Forall_nil_2; (split;
      [apply (bool_decide_unpack _); vm_compute; exact I|apply (bool_decide_unpack _); vm_compute; exact I
      |exists #"l"; split; [reflexivity|intros _; vm_compute; discriminate]|exists #"g"; reflexivity|apply toy_time || apply toy_no_time]).
  - destruct k; apply (bool_decide_unpack _); vm_compute; exact I.
Qed.

(** ** What a dump loses *)

(** An edge node with an entity before it and none after it is in no line but its own: the hop to
    it is not dumped. *)
Theorem half_bound_edge_loses_its_source : ∃ res s db', toy_dump (toy_db (CTime 7) []) = (Ok res, s) ∧
  toy_replay (sk_lines s) empty_database = Some db' ∧ db_src_hops (toy_db (CTime 7) []) = [(#"a", #"r")] ∧ db_src_hops db' = [].
Proof. do 3 eexists. split; [vm_compute; reflexivity|]. split; [vm_compute; reflexivity|]. split; reflexivity. Qed.
(** A row without a creation time is dumped with an empty one, and its line does not replay. *)
Theorem unset_creation_time_not_replayed : ∃ res s, toy_dump (toy_db CNull []) = (Ok res, s) ∧ nodes_dumped res = 5 ∧
  toy_replay (sk_lines s) empty_database = None.
Proof. do 2 eexists. split; [vm_compute; reflexivity|]. split; vm_compute; reflexivity. Qed.
