(* ===== verification/Deletion.v ===== *)
(** * Deletion: removing episodes, and clearing the whole graph (core/src/handlers.rs:
    handle_delete_episode, handle_delete_by_source, handle_delete_chunk_episode,
    handle_delete_by_group, handle_clear_all; the removals of core/src/db.rs)

    A request takes the database that is open before it waits for the write lock, and works on it
    under the lock, so the databases that have been open are kept by handle: clearing puts a fresh
    one in place, and a request that waited meanwhile still has the old one.  The statements of a
    call fail by their number; a transaction that does not commit leaves the tables as they were.
    The log is the one of [WalExec]. *)

From S2P Require Import Prelude Text Numbers Json WalGeneration WalScan Checkpoint WalGroup Wal LegacyWal Replay WalExec Pointer Prompts Graph CrossGroup GroupPurge Assert Ontology OntologyState PageReads MergeEntities Rebuild.

(** ** Tables *)

(** An episode row; [DETACH DELETE] removes its relations with it. *)
Record del_episode := { de_uuid : str; de_name : str; de_desc : str; de_group : option str }.
Record del_tables := {
  dt_eps : list del_episode;
  dt_mentions : list (str * str);
  dt_members : list (str * str);
  dt_nexts : list (str * str);
  dt_entities : list str;
  dt_positions : positions;
}.
Definition detach_delete (gone : str → bool) (d : del_tables) : del_tables :=
  {| dt_eps := List.filter (λ e, negb (gone (de_uuid e))) (dt_eps d);
     dt_mentions := List.filter (λ m, negb (gone m.1)) (dt_mentions d);
     dt_members := List.filter (λ m, negb (gone m.2)) (dt_members d);
     dt_nexts := List.filter (λ m, negb (gone m.1) && negb (gone m.2)) (dt_nexts d);
     dt_entities := dt_entities d; dt_positions := dt_positions d |}.
Definition put_positions (p : positions) (d : del_tables) : del_tables :=
  {| dt_eps := dt_eps d; dt_mentions := dt_mentions d; dt_members := dt_members d; dt_nexts := dt_nexts d; dt_entities := dt_entities d; dt_positions := p |}.
Definition empty_tables : del_tables := {| dt_eps := []; dt_mentions := []; dt_members := []; dt_nexts := []; dt_entities := []; dt_positions := ∅ |}.

(** A recorded statement with its parameters. *)
Abbreviation del_mutation := (str * value)%type.
Definition DELETE_ONE : str := #"MATCH (ep:Episodic {uuid: $uuid}) DETACH DELETE ep".
Definition DELETE_MANY : str := #"MATCH (ep:Episodic) WHERE ep.uuid IN $uuids DETACH DELETE ep".
Definition delete_mutation (uuids : list str) : del_mutation := (DELETE_MANY, VObject [(#"uuids", VArray (VString <$> uuids))]).

(** What the engine answers to the statements of a call: the [n]-th one, and those of a transaction. *)
Record engine := {
  en_connect : option Error;
  en_statement : nat → option Error;
  en_begin : option Error;
  en_commit : option Error;
}.
Section removals.
Context (en : engine).

(** Source: core/src/db.rs 1293-1298 (remove_episode) *)
Definition remove_episode (n : nat) (uuid : str) (d : del_tables) : result Error (list del_mutation) * del_tables :=
  match en_statement en n with
  | Some e => (Err e, d)
  | None => (Ok [(DELETE_ONE, VObject [(#"uuid", VString uuid)])], detach_delete (λ u, bool_decide (u = uuid)) d)
  end.
(** Source: core/src/db.rs 1306-1315 (get_episode_group_id) *)
Definition get_episode_group_id (n : nat) (uuid : str) (d : del_tables) : result Error (option str) :=
  match en_statement en n with
  | Some e => Err e
  | None => Ok (e ← List.find (λ e, bool_decide (de_uuid e = uuid)) (dt_eps d); value_as_optional_string (de_group e))
  end.

(** The buckets of a call, by group. *)
Abbreviation del_grouped := (gmap str (list del_mutation)).
(** One query and one deletion per group, drained into the group's own bucket.
    Source: core/src/db.rs 1356-1373 (remove_episodes_by_source) *)
Fixpoint remove_each (wanted : del_episode → bool) (n : nat) (gids : list str) (acc : list str * del_grouped) (d : del_tables) :
    result Error (list str * del_grouped) * del_tables :=
  match gids with
  | [] => (Ok acc, d)
  | gid :: gids =>
      match en_statement en n with
      | Some e => (Err e, d)
      | None =>
          match de_uuid <$> List.filter (λ e, wanted e && bool_decide (de_group e = Some gid)) (dt_eps d) with
          | [] => remove_each wanted (S n) gids acc d
          | uuids =>
              match en_statement en (S n) with
              | Some e => (Err e, d)
              | None =>
                  remove_each wanted (S (S n)) gids (acc.1 ++ uuids, <[gid := default [] (acc.2 !! gid) ++ [delete_mutation uuids]]> acc.2)
                    (detach_delete (λ u, bool_decide (u ∈ uuids)) d)
              end
          end
      end
  end.
(** All groups in one transaction.
    Source: core/src/db.rs 1342-1386 (remove_episodes_by_source) *)
Definition remove_in_transaction (wanted : del_episode → bool) (group_ids : list str) (d : del_tables) : result Error (list str * del_grouped) * del_tables :=
  match group_ids with
  | [] => (Err (Ipc (Msg "remove_episodes requires a non-empty group_ids" [])), d)
  | _ =>
      match en_begin en with
      | Some e => (Err e, d)
      | None =>
          match remove_each wanted 0 group_ids ([], ∅) d with
          | (Err e, _) => (Err e, d)
          | (Ok out, d') => match en_commit en with Some e => (Err e, d) | None => (Ok out, d') end
          end
      end
  end.
(** Source: core/src/db.rs 1347-1350 (remove_episodes_by_source) *)
Definition from_source (source_file : str) (e : del_episode) : bool :=
  bool_decide (de_desc e = source_file) || starts_with (source_file ++ #":") (de_desc e).
Definition remove_episodes_by_source (source_file : str) : list str → del_tables → result Error (list str * del_grouped) * del_tables :=
  remove_in_transaction (from_source source_file).
(** Source: core/src/db.rs 1406-1452 (remove_episodes_by_chunk_id) *)
Definition remove_episodes_by_chunk_id (chunk_id : str) : list str → del_tables → result Error (list str * del_grouped) * del_tables :=
  remove_in_transaction (λ e, bool_decide (de_name e = chunk_id)).
End removals.
Abbreviation del_grouped := (gmap str (list del_mutation)).

(** ** The service *)

(** The database in place, by handle, all that have been open, why there is none, and the rest of
    the state these requests reach. *)
Record del_service := {
  ds_db : option nat;
  ds_tables : gmap nat del_tables;
  ds_degraded : option str;
  ds_wal : wal_app;
  ds_indices : bool;
  ds_onto : ostate;
}.
Definition on_tables (h : nat) (d : del_tables) (s : del_service) : del_service :=
  {| ds_db := ds_db s; ds_tables := <[h := d]> (ds_tables s); ds_degraded := ds_degraded s; ds_wal := ds_wal s; ds_indices := ds_indices s; ds_onto := ds_onto s |}.
Definition on_wal (w : wal_app) (s : del_service) : del_service :=
  {| ds_db := ds_db s; ds_tables := ds_tables s; ds_degraded := ds_degraded s; ds_wal := w; ds_indices := ds_indices s; ds_onto := ds_onto s |}.
Definition on_db (h : option nat) (s : del_service) : del_service :=
  {| ds_db := h; ds_tables := ds_tables s; ds_degraded := ds_degraded s; ds_wal := ds_wal s; ds_indices := ds_indices s; ds_onto := ds_onto s |}.
Definition on_onto (o : ostate) (s : del_service) : del_service :=
  {| ds_db := ds_db s; ds_tables := ds_tables s; ds_degraded := ds_degraded s; ds_wal := ds_wal s; ds_indices := ds_indices s; ds_onto := o |}.
Definition tables_of (h : nat) (s : del_service) : del_tables := default empty_tables (ds_tables s !! h).
(** Source: core/src/app_state.rs 916-926 (load_db) *)
Definition take_db (s : del_service) : result Error nat :=
  match ds_db s with
  | Some h => Ok h
  | None => Err (DbUnavailable (Msg "{}" [AStr (default #"unknown" (ds_degraded s))]))
  end.

Section deletions.
Context {U : Unicode} {LP : LinePrinter} {SR : SeqReader} {GC : GenerationCodec}.
Context (en : engine) (oe : open_env) (logged : del_mutation → flush_env * mutation) (set_ok : str → bool) (identity : str * Z).

(** One bucket to its group's log, and the group's position to where that got.
    Source: core/src/handlers.rs 1868-1871 (handle_delete_by_source) *)
Definition flush_group (h : nat) (s : del_service) (bucket : str * list del_mutation) : del_service :=
  let '(gid, ms) := bucket in
  let '(seq, w) := wal_flush_ungrouped oe gid (logged <$> ms) (ds_wal s) in
  let d := tables_of h s in
  on_tables h (put_positions (advance_wal_position (set_ok gid) gid seq identity (dt_positions d)) d) (on_wal w s).
Definition key_order (grouped : del_grouped) : list (str * list del_mutation) := sort_by (λ a b : str * list del_mutation, str_leb a.1 b.1) (map_to_list grouped).

(** The part under the lock. *)
(** Source: core/src/handlers.rs 1399-1414 (handle_delete_episode) *)
Definition delete_episode_locked (h : nat) (uuid : str) (s : del_service) : result Error value * del_service :=
  match en_connect en with
  | Some e => (Err e, s)
  | None =>
      match get_episode_group_id en 0 uuid (tables_of h s) with
      | Err e => (Err e, s)
      | Ok gid =>
          match remove_episode en 1 uuid (tables_of h s) with
          | (Err e, _) => (Err e, s)
          | (Ok ms, d) => (Ok (VObject [(#"status", VString #"deleted")]), flush_group h (on_tables h d s) (default DEFAULT_GROUP_ID gid, ms))
          end
      end
  end.
(** Source: core/src/handlers.rs 1859-1882 (handle_delete_by_source) *)
Definition delete_many_locked (key : str) (wanted : del_episode → bool) (h : nat) (p : value) (gids : list str) (s : del_service) : result Error value * del_service :=
  match en_connect en with
  | Some e => (Err e, s)
  | None =>
      match remove_in_transaction en wanted gids (tables_of h s) with
      | (Err e, _) => (Err e, s)
      | (Ok (uuids, grouped), d) =>
          (Ok (VObject [(#"success", VBool true); (key, default VNull (get key p)); (#"deleted_count", VNumber (PosInt (N.of_nat (length uuids))));
             (#"deleted_uuids", VArray (VString <$> uuids))]),
           foldl (flush_group h) (on_tables h d s) (key_order grouped))
      end
  end.
Definition named (key : string) (p : value) : result Error str :=
  match as_str (param key p) with Some s => if nonempty s then Ok s else Err (Ipc (Msg "{} is required and must be non-empty" [AStr (lit key)])) | None => Err (Ipc (Msg "{} is required and must be non-empty" [AStr (lit key)])) end.

(** A request before the lock: what it will do, and to which database. *)
Inductive deletion := DelEpisode (uuid : str) | DelSource (source_file : str) (gids : list str) | DelChunk (chunk_id : str) (gids : list str).
(** Source: core/src/handlers.rs 1846-1856 (handle_delete_by_source) *)
Definition source_request (p : value) : result Error deletion :=
  let? source_file := named "source_file" p in
  let? gids := extract_required_group_ids (param "group_ids" p) in Ok (DelSource source_file gids).
(** Source: core/src/handlers.rs 1896-1905 (handle_delete_chunk_episode) *)
Definition chunk_request (p : value) : result Error deletion :=
  let? chunk_id := named "chunk_id" p in
  let? gids := extract_required_group_ids (param "group_ids" p) in Ok (DelChunk chunk_id gids).
Definition episode_request (p : value) : deletion := DelEpisode (default [] (as_str (param "episode_uuid" p))).
Definition run_deletion (p : value) (r : deletion) (h : nat) (s : del_service) : result Error value * del_service :=
  match r with
  | DelEpisode uuid => delete_episode_locked h uuid s
  | DelSource src gids => delete_many_locked #"source_file" (from_source src) h p gids s
  | DelChunk id gids => delete_many_locked #"chunk_id" (λ e, bool_decide (de_name e = id)) h p gids s
  end.
(** Nothing else between the two parts. *)
Definition alone (p : value) (r : result Error deletion) (s : del_service) : result Error value * del_service :=
  match r with
  | Err e => (Err e, s)
  | Ok r => match take_db s with Err e => (Err e, s) | Ok h => run_deletion p r h s end
  end.
(** Source: core/src/handlers.rs 1390-1419 (handle_delete_episode) *)
Definition handle_delete_episode (p : value) : del_service → result Error value * del_service := alone p (Ok (episode_request p)).
(** Source: core/src/handlers.rs 1846-1883 (handle_delete_by_source) *)
Definition handle_delete_by_source (p : value) : del_service → result Error value * del_service := alone p (source_request p).
(** Source: core/src/handlers.rs 1892-1943 (handle_delete_chunk_episode) *)
Definition handle_delete_chunk_episode (p : value) : del_service → result Error value * del_service := alone p (chunk_request p).

(** ** Clearing everything *)

(** What the file system and the engine do: deleting the database file, deleting the log root,
    opening a fresh database, and setting its first position. *)
Record clear_env := {
  ce_delete_db : option str;
  ce_delete_wal : option str;
  ce_reopen : option str;
  ce_position : bool;
  ce_handle : nat;
}.
Context (ce : clear_env).
Definition drop_writers (w : wal_app) : wal_app :=
  {| wa_root := wa_root w; wa_poisoned := wa_poisoned w; wa_writers := ∅; wa_dirs := wa_dirs w; wa_gens := wa_gens w;
     wa_max_events := wa_max_events w; wa_max_bytes := wa_max_bytes w; wa_rotations := wa_rotations w |}.
Definition drop_root (w : wal_app) : wal_app :=
  {| wa_root := (λ _, RootAbsent) <$> wa_root w; wa_poisoned := wa_poisoned w; wa_writers := wa_writers w; wa_dirs := ∅; wa_gens := ∅;
     wa_max_events := wa_max_events w; wa_max_bytes := wa_max_bytes w; wa_rotations := wa_rotations w |}.
(** The files: the database, then the log unless it is kept.
    Source: core/src/handlers.rs 2114-2145 (handle_clear_all) *)
Definition delete_files (preserve_wal : bool) (s : del_service) : result Error unit * del_service :=
  match ce_delete_db ce with
  | Some e => (Err (Ipc (Msg "failed to delete DB: {e}" [AStr e])), s)
  | None =>
      if preserve_wal then (Ok tt, s)
      else match wa_root (ds_wal s) with
           | None => (Ok tt, s)
           | Some RootAbsent => (Ok tt, s)
           | Some _ => match ce_delete_wal ce with
                       | Some e => (Err (Ipc (Msg "failed to delete WAL root: {e}" [AStr e])), s)
                       | None => (Ok tt, on_wal (drop_root (ds_wal s)) s)
                       end
           end
  end.
(** Source: core/src/handlers.rs 2183-2190 (handle_clear_all) *)
Definition kept_generation (preserve_wal : bool) (s : del_service) : option str :=
  if preserve_wal then
    match wa_root (ds_wal s), encode_group_dir_name DEFAULT_GROUP_ID with
    | Some _, Ok dir => read_generation (wa_gens (ds_wal s) !! dir)
    | _, _ => None
    end
  else None.
(** Source: core/src/handlers.rs 2161-2213 (handle_clear_all) *)
Definition reopen (preserve_wal : bool) (s : del_service) : result Error unit * del_service :=
  let reinit e := Ipc (Msg "Graph files deleted but reinitialization failed: {e}. Restart the service to recover." [AStr e]) in
  match ce_reopen ce with
  | Some e => (Err (reinit e), s)
  | None =>
      match set_wal_position (ce_position ce) DEFAULT_GROUP_ID 0 (kept_generation preserve_wal s) None ∅ with
      | (Err e, _) => (Err (reinit #"query failed"), s)
      | (Ok _, p) => (Ok tt, on_db (Some (ce_handle ce)) (on_tables (ce_handle ce) (put_positions p empty_tables) s))
      end
  end.
(** Source: core/src/handlers.rs 2069-2227 (handle_clear_all) *)
Definition handle_clear_all (p : value) (s : del_service) : result Error value * del_service :=
  if negb (default false (as_bool (param "confirm" p))) then (Err (Ipc (Msg "Must set 'confirm' to true to clear graph" [])), s)
  else
    let preserve_wal := default false (as_bool (param "preserve_wal" p)) in
    let s := on_db None s in
    if negb preserve_wal && wa_poisoned (ds_wal s) then (Err (Ipc (Msg "wal_writers lock poisoned" [])), s)
    else
      let s := if preserve_wal then s else on_wal (drop_writers (ds_wal s)) s in
      match delete_files preserve_wal s with
      | (Err e, s) => (Err e, s)
      | (Ok _, s) =>
          let s := if negb preserve_wal && o_root (ds_onto s)
                   then on_onto (forget_everything (ds_onto s)) s else s in
          match reopen preserve_wal s with
          | (Err e, s) => (Err e, s)
          | (Ok _, s) =>
              (Ok (VObject [(#"success", VBool true); (#"message", VString #"Graph cleared and reinitialized successfully")]),
               {| ds_db := ds_db s; ds_tables := ds_tables s; ds_degraded := ds_degraded s; ds_wal := ds_wal s; ds_indices := false; ds_onto := ds_onto s |})
          end
      end.
End deletions.

(** ** Purging groups *)

Section purging.
Context {U : Unicode} {AC : AttrCodec} {LP : LinePrinter} {SR : SeqReader} {GC : GenerationCodec}.
Context (db_lower : str → str) (ts_text : N → str) (logged : str * gmut → flush_env * mutation).
Context (oe : open_env) (set_ok : str → bool) (identity : str * Z) (ts : str).
Record purge_service := { pg_graph : graph; pg_positions : positions; pg_wal : wal_app; pg_onto : ostate }.
Definition flush_purged (s : purge_service) (bucket : str * list (str * gmut)) : purge_service :=
  let '(gid, ms) := bucket in
  let '(seq, w) := wal_flush_ungrouped oe gid (logged <$> ms) (pg_wal s) in
  {| pg_graph := pg_graph s; pg_positions := advance_wal_position (set_ok gid) gid seq identity (pg_positions s); pg_wal := w; pg_onto := pg_onto s |}.
(** The stamp and the cached ontology of each group go with its entities.
    Source: core/src/handlers.rs 2027-2034 (handle_delete_by_group) *)
Definition forget_groups (gids : list str) (o : ostate) : ostate :=
  if o_root o then foldl (λ o gid, forget_group gid o) o gids else o.
(** Source: core/src/handlers.rs 2000-2067 (handle_delete_by_group) *)
Definition handle_delete_by_group (db : option Error) (p : value) (s : purge_service) : result Error PurgeCounts * purge_service :=
  match extract_required_group_ids (param "group_ids" p) with
  | Err e => (Err e, s)
  | Ok gids =>
      let dry_run := default false (as_bool (param "dry_run" p)) in
      let confirm := default false (as_bool (param "confirm" p)) in
      if negb dry_run && negb confirm then (Err (Ipc (Msg "Must set 'confirm' to true to purge group data (or 'dry_run' to preview)" [])), s)
      else
        match db with
        | Some e => (Err e, s)
        | None =>
            let '(counts, grouped, g) := purge_groups db_lower ts_text (applied_of (pg_positions s)) gids ts dry_run (fresh_connection (pg_graph s)) in
            let s := {| pg_graph := g; pg_positions := pg_positions s; pg_wal := pg_wal s; pg_onto := if dry_run then pg_onto s else forget_groups gids (pg_onto s) |} in
            (Ok counts, foldl flush_purged s (sort_by (λ a b : str * list (str * gmut), str_leb a.1 b.1) (map_to_list grouped)))
        end
  end.
End purging.
