(* ===== verification/DeletionTheory.v ===== *)
(** * DeletionTheory: what deleting episodes removes, what it logs, and what clearing leaves *)

From S2P Require Import Prelude Text Numbers Json WalGeneration WalScan Checkpoint WalGroup Wal LegacyWal Replay WalExec Pointer Prompts Graph CrossGroup CrossGroupTheory GroupPurge Assert Ontology OntologyState OntologyGuard PageReads MergeEntities Rebuild RebuildTheory Deletion.

(** ** Removing rows *)

Lemma keep_ext {A} (f g : A → bool) l : (∀ x, f x = g x) → List.filter f l = List.filter g l.
Proof. intros H. induction l as [|x l IH]; [done|]. cbn. by rewrite H, IH. Qed.
Lemma keep_twice {A} (f g : A → bool) l : List.filter f (List.filter g l) = List.filter (λ x, g x && f x) l.
Proof. induction l as [|x l IH]; [done|]. cbn. destruct (g x); cbn; [destruct (f x); by rewrite IH|done]. Qed.
Lemma detach_ext f g d : (∀ u, f u = g u) → detach_delete f d = detach_delete g d.
Proof. intros H. unfold detach_delete. f_equal; apply keep_ext; intros x; by rewrite ?H. Qed.
Lemma detach_twice f g d : detach_delete f (detach_delete g d) = detach_delete (λ u, g u || f u) d.
Proof.
  unfold detach_delete. cbn. f_equal; rewrite keep_twice; apply keep_ext; intros x; rewrite ?negb_orb; try done.
  destruct (g x.1), (g x.2), (f x.1), (f x.2); done.
Qed.
Lemma detach_none d : detach_delete (λ _, false) d = d.
Proof.
  assert (∀ A (l : list A) f, (∀ x, f x = true) → List.filter f l = l) as H.
  { intros A l f Hf. induction l as [|x l IH]; [done|]. cbn. by rewrite Hf, IH. }
  unfold detach_delete. destruct d. cbn. by rewrite !H by done.
Qed.

Lemma unique_key {A B} (f : A → B) l x y : NoDup (f <$> l) → x ∈ l → y ∈ l → f x = f y → x = y.
Proof.
  induction l as [|z l IH]; [by intros _ ?%elem_of_nil|]. cbn. intros [Hz Hn]%NoDup_cons Hx Hy He.
  apply elem_of_cons in Hx as [->|Hx]; apply elem_of_cons in Hy as [->|Hy]; [done| | |by apply IH].
  - destruct Hz. rewrite He. by apply list_elem_of_fmap_2.
  - destruct Hz. rewrite <- He. by apply list_elem_of_fmap_2.
Qed.

Section removing.
Context (en : engine) (wanted : del_episode → bool).
Definition doomed (d : del_tables) (gid : str) : list str := de_uuid <$> List.filter (λ e, wanted e && bool_decide (de_group e = Some gid)) (dt_eps d).
Lemma elem_of_doomed d gid u : u ∈ doomed d gid ↔ ∃ e, e ∈ dt_eps d ∧ de_uuid e = u ∧ wanted e = true ∧ de_group e = Some gid.
Proof.
  unfold doomed. rewrite list_elem_of_fmap. split.
  - intros (e & -> & H). apply list_elem_of_In, filter_In in H as [H%list_elem_of_In [Hw Hg%bool_decide_eq_true]%andb_true_iff]. eauto.
  - intros (e & H & <- & Hw & Hg). exists e. split; [done|]. apply list_elem_of_In, filter_In. split; [by apply list_elem_of_In|]. by rewrite Hw, bool_decide_eq_true_2.
Qed.
Lemma keep_unharmed (f : str → bool) (P : del_episode → bool) l :
  (∀ e, e ∈ l → P e = true → f (de_uuid e) = false) → List.filter (λ x, negb (f (de_uuid x)) && P x) l = List.filter P l.
Proof.
  induction l as [|e l IH]; intros H; [done|]. cbn. rewrite IH by (intros e' He'; apply H; by right).
  destruct (P e) eqn:Hp; [rewrite (H e) by (done || by left)|rewrite andb_false_r]; done.
Qed.
(** The rows of other groups are not among those of a group that is deleted. *)
Lemma doomed_elsewhere d gid gid' : NoDup (de_uuid <$> dt_eps d) → gid ≠ gid' → doomed (detach_delete (λ u, bool_decide (u ∈ doomed d gid)) d) gid' = doomed d gid'.
Proof.
  intros Hn Hne. assert (∀ e, e ∈ dt_eps d → de_group e = Some gid' → (λ u, bool_decide (u ∈ doomed d gid)) (de_uuid e) = false) as Hout.
  { intros e He Hg. apply bool_decide_eq_false. intros Hin. apply elem_of_doomed in Hin as (e' & He' & Hu & _ & Hg').
    assert (e' = e) as -> by (by apply (unique_key de_uuid (dt_eps d))). congruence. }
  revert Hout. generalize (λ u, bool_decide (u ∈ doomed d gid)) as f. intros f Hout. unfold doomed. f_equal. cbn [dt_eps detach_delete]. rewrite keep_twice.
  apply keep_unharmed. intros e He [_ Hg%bool_decide_eq_true]%andb_true_iff. by apply Hout.
Qed.
Lemma doomed_nodup d gid : NoDup (de_uuid <$> dt_eps d) → NoDup (doomed d gid).
Proof. intros Hn. by apply nodup_filter_map. Qed.
Lemma detach_uuids f d : NoDup (de_uuid <$> dt_eps d) → NoDup (de_uuid <$> dt_eps (detach_delete f d)).
Proof. intros Hn. by apply nodup_filter_map. Qed.
(** The statement of a group, if it had rows to delete. *)
Definition bucket_of (d : del_tables) (gid : str) : option (list del_mutation) := match doomed d gid with [] => None | us => Some [delete_mutation us] end.
Lemma remove_each_spec gids : ∀ n acc d us grouped d',
  NoDup gids → NoDup (de_uuid <$> dt_eps d) → (∀ g, g ∈ gids → acc.2 !! g = None) →
  remove_each en wanted n gids acc d = (Ok (us, grouped), d') →
  us = acc.1 ++ (gids ≫= doomed d) ∧ d' = detach_delete (λ u, bool_decide (u ∈ gids ≫= doomed d)) d ∧
  ∀ g, grouped !! g = if decide (g ∈ gids) then bucket_of d g else acc.2 !! g.
Proof.
  induction gids as [|gid gids IH]; intros n acc d us grouped d' Hg Hn Hacc.
  - cbn [remove_each]. intros [= -> <-]. cbn. rewrite app_nil_r. split; [done|]. split.
    + rewrite (detach_ext _ (λ _, false)); [by rewrite detach_none|]. intros u. apply bool_decide_eq_false. apply not_elem_of_nil.
    + intros g. rewrite decide_False by apply not_elem_of_nil. done.
  - apply NoDup_cons in Hg as [Hgid Hg]. cbn [remove_each]. destruct (en_statement en n); [done|].
    change (de_uuid <$> _) with (doomed d gid). cbn [mbind list_bind].
    assert (∀ g, g ∈ gids → doomed (detach_delete (λ u, bool_decide (u ∈ doomed d gid)) d) g = doomed d g) as Hsame.
    { intros g Hin. apply doomed_elsewhere; [done|]. intros ->. done. }
    assert (∀ gs, (∀ g, g ∈ gs → doomed (detach_delete (λ u, bool_decide (u ∈ doomed d gid)) d) g = doomed d g) →
              gs ≫= doomed (detach_delete (λ u, bool_decide (u ∈ doomed d gid)) d) = gs ≫= doomed d) as Hbind.
    { induction gs as [|g gs IHg]; [done|]. intros H. rewrite !bind_cons, H by (by left). f_equal. apply IHg. intros g' ?. apply H. by right. }
    destruct (doomed d gid) as [|u0 us0] eqn:Hd.
    + intros (H1 & H2 & H3)%IH; [|done..|intros g ?; apply Hacc; by right]. split; [by rewrite H1|]. split; [by rewrite H2|].
      intros g. rewrite H3. destruct (decide (g ∈ gids)) as [Hin|Hin].
      * by rewrite decide_True by (by right).
      * destruct (decide (g = gid)) as [->|Hne].
        -- rewrite decide_True by (by left). unfold bucket_of. rewrite Hd. apply Hacc. by left.
        -- by rewrite decide_False by (intros [?|?]%elem_of_cons; done).
    + destruct (en_statement en (S n)); [done|]. intros (H1 & H2 & H3)%IH; [|done|by apply detach_uuids|].
      2: { intros g Hin. cbn [snd]. rewrite lookup_insert_ne by (intros ->; done). apply Hacc. by right. }
      cbn [fst snd] in *. specialize (Hbind gids Hsame). split; [by rewrite H1, Hbind, <- app_assoc|]. split.
      * rewrite H2, detach_twice, Hbind. apply detach_ext. intros u.  apply eq_true_iff_eq.
        rewrite orb_true_iff, !bool_decide_eq_true, elem_of_app. done.
      * intros g. rewrite H3. destruct (decide (g ∈ gids)) as [Hin|Hin].
        -- rewrite decide_True by (by right). unfold bucket_of. by rewrite Hsame.
        -- destruct (decide (g = gid)) as [->|Hne].
           ++ rewrite decide_True by (by left). rewrite lookup_insert_eq. unfold bucket_of. by rewrite Hd, Hacc by (by left).
           ++ rewrite lookup_insert_ne by done. by rewrite decide_False by (intros [?|?]%elem_of_cons; done).
Qed.
End removing.

(** ** Replaying a deletion *)

Definition uuids_of (m : del_mutation) : list str :=
  if bool_decide (m.1 = DELETE_MANY) then match get #"uuids" m.2 with Some (VArray l) => omap as_str l | _ => [] end
  else if bool_decide (m.1 = DELETE_ONE) then match get #"uuid" m.2 ≫= as_str with Some u => [u] | None => [] end else [].
(** What a logged statement does to the tables. *)
Definition apply_deletion (d : del_tables) (m : del_mutation) : del_tables := detach_delete (λ u, bool_decide (u ∈ uuids_of m)) d.
Lemma uuids_of_delete us : uuids_of (delete_mutation us) = us.
Proof.
  unfold uuids_of. rewrite bool_decide_eq_true_2 by done. change (get #"uuids" (delete_mutation us).2) with (Some (VArray (VString <$> us))). cbv iota beta.
  induction us as [|u us IH]; [done|]. cbn [fmap list_fmap omap list_omap as_str]. by rewrite IH.
Qed.
Lemma apply_deletions ms d : foldl apply_deletion d ms = detach_delete (λ u, bool_decide (u ∈ ms ≫= uuids_of)) d.
Proof.
  revert d. induction ms as [|m ms IH]; intros d; cbn [foldl].
  - rewrite (detach_ext _ (λ _, false)); [by rewrite detach_none|]. intros u. apply bool_decide_eq_false, not_elem_of_nil.
  - rewrite IH. unfold apply_deletion at 1. rewrite detach_twice, bind_cons. apply detach_ext. intros u. apply eq_true_iff_eq.
    by rewrite orb_true_iff, !bool_decide_eq_true, elem_of_app.
Qed.
Lemma bound_lists {A B} (l : list A) (f : A → list B) x : x ∈ l ≫= f ↔ ∃ a, a ∈ l ∧ x ∈ f a.
Proof. rewrite list_elem_of_bind. split; intros (a & ? & ?); eauto. Qed.

Section exact.
Context (en : engine) (wanted : del_episode → bool).
Abbreviation doomed_in := (doomed wanted).
Lemma all_doomed_nodup d gids : NoDup gids → NoDup (de_uuid <$> dt_eps d) → NoDup (gids ≫= doomed_in d).
Proof.
  intros Hg Hn. induction Hg as [|g gids Hg0 _ IH]; [apply NoDup_nil_2|]. rewrite bind_cons. apply NoDup_app. split; [by apply doomed_nodup|]. split; [|done].
  intros u Hu (g' & Hg' & Hu')%bound_lists. apply elem_of_doomed in Hu as (e & He & Heu & _ & Hge), Hu' as (e' & He' & Heu' & _ & Hge').
  assert (e = e') as -> by (apply (unique_key de_uuid (dt_eps d)); [done..|congruence]). assert (g = g') as -> by congruence. done.
Qed.
Definition group_in (gids : list str) (e : del_episode) : bool := match de_group e with Some g => bool_decide (g ∈ gids) | None => false end.
Lemma survivors d gids : NoDup (de_uuid <$> dt_eps d) →
  dt_eps (detach_delete (λ u, bool_decide (u ∈ gids ≫= doomed_in d)) d) = List.filter (λ e, negb (wanted e && group_in gids e)) (dt_eps d).
Proof.
  intros Hn. cbn [dt_eps detach_delete]. apply filter_ext_in. intros e He%list_elem_of_In. f_equal. apply eq_true_iff_eq.
  rewrite bool_decide_eq_true, bound_lists, andb_true_iff. unfold group_in. split.
  - intros (g & Hg & (e' & He' & Hu & Hw & Hge)%elem_of_doomed). assert (e' = e) as -> by (by apply (unique_key de_uuid (dt_eps d))).
    split; [done|]. rewrite Hge. by apply bool_decide_eq_true.
  - intros [Hw Hg]. destruct (de_group e) as [g|] eqn:Hge; [|done]. apply bool_decide_eq_true in Hg. exists g. split; [done|]. apply elem_of_doomed. eauto.
Qed.

(** C32. Deleting the episodes of a source or of a chunk deletes those of the groups named and no
    others, each once, with their relations and without any entity; the reply lists them.  What is
    logged is one statement for each group that had any, naming the group's own episodes, and
    replaying those statements, group by group in whatever order, does what the call has done. *)
Theorem deletion_exact gids d us grouped d' :
  NoDup gids → NoDup (de_uuid <$> dt_eps d) → remove_in_transaction en wanted gids d = (Ok (us, grouped), d') →
  (∀ u, u ∈ us ↔ ∃ e, e ∈ dt_eps d ∧ de_uuid e = u ∧ wanted e && group_in gids e = true) ∧ NoDup us ∧
  dt_eps d' = List.filter (λ e, negb (wanted e && group_in gids e)) (dt_eps d) ∧
  dt_mentions d' = List.filter (λ m, negb (bool_decide (m.1 ∈ us))) (dt_mentions d) ∧ dt_entities d' = dt_entities d ∧
  (∀ g, grouped !! g = if decide (g ∈ gids) then bucket_of wanted d g else None) ∧
  ∀ buckets, buckets ≡ₚ map_to_list grouped → foldl apply_deletion d (buckets ≫= snd) = d'.
Proof.
  intros Hg Hn. unfold remove_in_transaction. destruct gids as [|g0 gs]; [done|]. set (gids := g0 :: gs) in *.
  destruct (en_begin en); [done|]. destruct (remove_each _ _ _ _ _ _) as [[[us1 gr1]|e] d1] eqn:Hr; [|done]. destruct (en_commit en); [done|].
  intros [= <- <- <-]. apply remove_each_spec in Hr as (H1 & H2 & H3); [|done..]. cbn [fst snd app] in *. subst us1 d1.
  split; [|split; [by apply all_doomed_nodup|]; split; [by apply survivors|]; split; [done|]; split; [done|]; split; [by intros g; rewrite H3, lookup_empty|]].
  - intros u. rewrite bound_lists. setoid_rewrite andb_true_iff. unfold group_in. split.
    + intros (g & Hin & (e & He & Hu & Hw & Hge)%elem_of_doomed). exists e. rewrite Hge. rewrite bool_decide_eq_true. auto.
    + intros (e & He & Hu & Hw & Hin). destruct (de_group e) as [g|] eqn:Hge; [|done]. apply bool_decide_eq_true in Hin.
      exists g. split; [done|]. apply elem_of_doomed. eauto.
  - intros buckets Hb. rewrite apply_deletions. apply detach_ext. intros u. apply eq_true_iff_eq. rewrite !bool_decide_eq_true, !bound_lists.
    assert (∀ g, g ∈ gids → ∀ ms, bucket_of wanted d g = Some ms ↔ doomed_in d g ≠ [] ∧ ms = [delete_mutation (doomed_in d g)]) as Hbk.
    { intros g _ ms. unfold bucket_of. destruct (doomed_in d g) as [|x l]; [naive_solver|]. split; [by intros [= <-]|by intros [_ ->]]. }
    split.
    + intros (m & ([g ms] & Hin & Hm)%bound_lists & Hu). rewrite Hb in Hin. apply elem_of_map_to_list in Hin. rewrite H3, lookup_empty in Hin.
      destruct (decide (g ∈ gids)) as [Hgi|]; [|done]. apply Hbk in Hin as [_ ->]; [|done]. apply list_elem_of_singleton in Hm as ->.
      rewrite uuids_of_delete in Hu. eauto.
    + intros (g & Hgi & Hu). exists (delete_mutation (doomed_in d g)). rewrite uuids_of_delete. split; [|done]. apply bound_lists.
      exists (g, [delete_mutation (doomed_in d g)]). split; [|by apply list_elem_of_singleton]. rewrite Hb. apply elem_of_map_to_list.
      rewrite H3, decide_True by done. apply Hbk; [done|]. split; [|done]. intros He. rewrite He in Hu. by apply elem_of_nil in Hu.
Qed.
End exact.

(** ** The handlers *)

Section handlers.
Context {U : Unicode} {LP : LinePrinter} {SR : SeqReader} {GC : GenerationCodec}.
Context (en : engine) (oe : open_env) (log : del_mutation → flush_env * mutation) (set_ok : str → bool) (identity : str * Z).
Abbreviation flushing := (flush_group oe log set_ok identity).

(** What flushing buckets touches: the log, and the positions of the database the call works on. *)
Lemma flush_group_frame h s b : ds_db (flushing h s b) = ds_db s ∧ ds_indices (flushing h s b) = ds_indices s ∧ ds_onto (flushing h s b) = ds_onto s ∧
  ds_degraded (flushing h s b) = ds_degraded s ∧ (∀ h', h' ≠ h → ds_tables (flushing h s b) !! h' = ds_tables s !! h') ∧
  ∃ p, tables_of h (flushing h s b) = put_positions p (tables_of h s).
Proof.
  destruct b as [gid ms]. unfold flush_group. destruct (wal_flush_ungrouped _ _ _ _) as [seq w]. repeat (split; [done|]). split.
  - intros h' Hne. cbn. by rewrite lookup_insert_ne.
  - eexists. unfold tables_of at 1. cbn. by rewrite lookup_insert_eq.
Qed.
Lemma put_positions_twice p q d : put_positions p (put_positions q d) = put_positions p d.
Proof. done. Qed.
Lemma put_own_positions d : put_positions (dt_positions d) d = d.
Proof. by destruct d. Qed.
Lemma flush_frame h bs : ∀ s, let s' := foldl (flushing h) s bs in
  ds_db s' = ds_db s ∧ ds_indices s' = ds_indices s ∧ ds_onto s' = ds_onto s ∧ ds_degraded s' = ds_degraded s ∧
  (∀ h', h' ≠ h → ds_tables s' !! h' = ds_tables s !! h') ∧ ∃ p, tables_of h s' = put_positions p (tables_of h s).
Proof.
  induction bs as [|b bs IH]; intros s; cbv zeta; cbn [foldl].
  - repeat (split; [done|]). exists (dt_positions (tables_of h s)). by rewrite put_own_positions.
  - destruct (IH (flushing h s b)) as (A & B & C & D & E & p & Hp). destruct (flush_group_frame h s b) as (A' & B' & C' & D' & E' & q & Hq).
    split; [congruence|]. split; [congruence|]. split; [congruence|]. split; [congruence|]. split; [intros h' Hne; by rewrite E, E'|].
    exists p. by rewrite Hp, Hq.
Qed.

(** A deletion that fails changes nothing: no row, no log line, no position. *)
Theorem failed_deletion_changes_nothing p r s e s' : alone en oe log set_ok identity p r s = (Err e, s') → s' = s.
Proof.
  unfold alone. destruct r as [r|]; [|by intros [= _ <-]]. destruct (take_db s) as [h|]; [|by intros [= _ <-]].
  assert (∀ key wanted gids, delete_many_locked en oe log set_ok identity key wanted h p gids s = (Err e, s') → s' = s) as Hm.
  { intros key wanted gids. unfold delete_many_locked. destruct (en_connect en); [by intros [= _ <-]|].
    destruct (remove_in_transaction _ _ _ _) as [[[us gr]|] d]; [done|by intros [= _ <-]]. }
  destruct r as [u|src gids|id gids]; cbn [run_deletion]; [|apply Hm..]. unfold delete_episode_locked. destruct (en_connect en); [by intros [= _ <-]|].
  destruct (get_episode_group_id _ _ _ _); [|by intros [= _ <-]]. destruct (remove_episode _ _ _ _) as [[ms|] d]; [done|by intros [= _ <-]].
Qed.
(** A deletion works on the database it was given, whichever is in place by then. *)
Theorem deletion_stays_in_its_database p r h s v s' : run_deletion en oe log set_ok identity p r h s = (Ok v, s') →
  ds_db s' = ds_db s ∧ ∀ h', h' ≠ h → ds_tables s' !! h' = ds_tables s !! h'.
Proof.
  assert (∀ d bs, let s' := foldl (flushing h) (on_tables h d s) bs in ds_db s' = ds_db s ∧ ∀ h', h' ≠ h → ds_tables s' !! h' = ds_tables s !! h') as Hf.
  { intros d bs. cbv zeta. destruct (flush_frame h bs (on_tables h d s)) as (A & _ & _ & _ & E & _). split; [done|]. intros h' Hne. rewrite E by done. cbn. by rewrite lookup_insert_ne. }
  assert (∀ key wanted gids, delete_many_locked en oe log set_ok identity key wanted h p gids s = (Ok v, s') →
            ds_db s' = ds_db s ∧ ∀ h', h' ≠ h → ds_tables s' !! h' = ds_tables s !! h') as Hm.
  { intros key wanted gids. unfold delete_many_locked. destruct (en_connect en); [done|].
    destruct (remove_in_transaction _ _ _ _) as [[[us gr]|] d]; [|done]. intros [= _ <-]. apply Hf. }
  destruct r as [u|src gids|id gids]; cbn [run_deletion]; [|apply Hm..]. unfold delete_episode_locked. destruct (en_connect en); [done|].
  destruct (get_episode_group_id _ _ _ _) as [g|]; [|done]. destruct (remove_episode _ _ _ _) as [[ms|] d]; [|done]. intros [= _ <-]. exact (Hf d [(default DEFAULT_GROUP_ID g, ms)]).
Qed.
End handlers.

Section clearing.
Context {GC : GenerationCodec} (ce : clear_env).
Abbreviation clear := (handle_clear_all ce).
Definition confirmed (p : value) : bool := default false (as_bool (param "confirm" p)).
Definition preserving (p : value) : bool := default false (as_bool (param "preserve_wal" p)).

End clearing.

(** ** Purging groups *)

Section purging.
Context {U : Unicode} {AC : AttrCodec} {LP : LinePrinter} {SR : SeqReader} {GC : GenerationCodec}.
Context (db_lower : str → str) (ts_text : N → str) (log : str * gmut → flush_env * mutation).
Context (oe : open_env) (set_ok : str → bool) (identity : str * Z) (ts : str).
Lemma forgotten gids : ∀ o, o_root o = true → Forall wf_str gids → let o' := forget_groups gids o in
  (∀ g, g ∈ gids → cached o' g = None ∧ ∀ name, encode_group_dir_name g = Ok name → d_stamps (o_disk o') !! name = None) ∧
  ∀ h, wf_str h → h ∉ gids → cached o' h = cached o h ∧ read_stamp (o_disk o') h = read_stamp (o_disk o) h.
Proof.
  unfold forget_groups. intros o Hr Hw. cbv zeta. rewrite Hr. clear Hr. induction gids as [|gid gids IH] using rev_ind.
  { split; [by intros g ?%elem_of_nil|done]. }
  apply Forall_app in Hw as [Hw Hg]. apply Forall_inv in Hg. rewrite foldl_app. cbn [foldl]. set (o1 := foldl _ o gids) in *. destruct (IH Hw) as [I1 I2]. split.
  - intros g Hin. unfold forget_group. rewrite cached_invalidate. split.
    + case_decide; [done|]. apply elem_of_app in Hin as [Hin|Hin%list_elem_of_singleton]; [|by subst]. apply (I1 g Hin).
    + intros name Hn. cbn. unfold remove_stamp. destruct (encode_group_dir_name gid) as [n|] eqn:Eg; cbn.
      * destruct (decide (name = n)) as [->|Hne]; [by rewrite lookup_delete_eq|]. rewrite lookup_delete_ne by done.
        apply elem_of_app in Hin as [Hin|Hin%list_elem_of_singleton]; [by apply (I1 g Hin)|]. subst g. congruence.
      * apply elem_of_app in Hin as [Hin|Hin%list_elem_of_singleton]; [by apply (I1 g Hin)|]. subst g. congruence.
  - intros h Hwh [Hnot Hne]%not_elem_of_app. assert (gid ≠ h) as Hd by (intros ->; apply Hne; by left).
    unfold forget_group. rewrite cached_invalidate, decide_False by done.
    cbn [o_disk with_disk with_cache invalidate_group_ontology]. rewrite remove_stamp_frame by done. exact (I2 h Hwh Hnot).
Qed.
Lemma flush_purged_frame bs : ∀ s, let s' := foldl (flush_purged log oe set_ok identity) s bs in pg_graph s' = pg_graph s ∧ pg_onto s' = pg_onto s.
Proof.
  induction bs as [|[gid ms] bs IH]; intros s; [done|]. cbv zeta in *. cbn [foldl]. destruct (IH (flush_purged log oe set_ok identity s (gid, ms))) as [H1 H2].
  rewrite H1, H2. unfold flush_purged. by destruct (wal_flush_ungrouped _ _ _ _).
Qed.
(** A purge forgets the identity stamp and the cached ontology of the groups it empties and of no
    other group; a dry run touches neither, nor the rows, the log or the positions. *)
Theorem purge_forgets_groups db p s counts s' gids :
  handle_delete_by_group db_lower ts_text log oe set_ok identity ts db p s = (Ok counts, s') → extract_required_group_ids (param "group_ids" p) = Ok gids →
  Forall wf_str gids → o_root (pg_onto s) = true →
  if default false (as_bool (param "dry_run" p)) then
    pg_onto s' = pg_onto s ∧ pg_wal s' = pg_wal s ∧ pg_positions s' = pg_positions s ∧ pg_graph s' = fresh_connection (pg_graph s)
  else
    (∀ g, g ∈ gids → cached (pg_onto s') g = None ∧ ∀ name, encode_group_dir_name g = Ok name → d_stamps (o_disk (pg_onto s')) !! name = None) ∧
    ∀ h, wf_str h → h ∉ gids → cached (pg_onto s') h = cached (pg_onto s) h ∧ read_stamp (o_disk (pg_onto s')) h = read_stamp (o_disk (pg_onto s)) h.
Proof.
  unfold handle_delete_by_group. intros H He Hw Hr. rewrite He in H. destruct (negb _ && negb _); [done|]. destruct db; [done|].
  destruct (default false (as_bool (param "dry_run" p))).
  - unfold purge_groups in H. cbn in H. injection H as _ <-. rewrite map_to_list_empty. done.
  - destruct (purge_groups _ _ _ _ _ _ _) as [[c grouped] g]. injection H as _ <-.
    destruct (flush_purged_frame (sort_by (λ a b : str * list (str * gmut), str_leb a.1 b.1) (map_to_list grouped))
      {| pg_graph := g; pg_positions := pg_positions s; pg_wal := pg_wal s; pg_onto := forget_groups gids (pg_onto s) |}) as [_ ->].
    by apply forgotten.
Qed.
End purging.

(** ** A small service *)

Definition toy_engine : engine := {| en_connect := None; en_statement := λ _, None; en_begin := None; en_commit := None |}.
Definition toy_episode (u name desc g : string) : del_episode := {| de_uuid := lit u; de_name := lit name; de_desc := lit desc; de_group := Some (lit g) |}.
Definition toy_tables : del_tables :=
  {| dt_eps := [toy_episode "1" "c1" "a.md:c1" "g"; toy_episode "2" "c2" "a.md" "h"; toy_episode "3" "c3" "a.mdx" "g"; toy_episode "4" "c4" "a.md:c4" "other"];
     dt_mentions := [(#"1", #"e"); (#"3", #"e")]; dt_members := []; dt_nexts := [(#"1", #"3")]; dt_entities := #"e" :: nil; dt_positions := ∅ |}.
Lemma deletion_exact_witness : ∃ us grouped d',
  remove_in_transaction toy_engine (from_source #"a.md") [ #"g"; #"h"] toy_tables = (Ok (us, grouped), d') ∧
  us = [ #"1"; #"2"] ∧ de_uuid <$> dt_eps d' = [ #"3"; #"4"] ∧ dt_mentions d' = [(#"3", #"e")] ∧
  foldl apply_deletion toy_tables (map_to_list grouped ≫= snd) = d'.
Proof.
  destruct (remove_in_transaction toy_engine (from_source #"a.md") [ #"g"; #"h"] toy_tables) as [[[us grouped]|e] d'] eqn:H; [|vm_compute in H; discriminate H].
  exists us, grouped, d'. destruct (deletion_exact toy_engine (from_source #"a.md") [ #"g"; #"h"] toy_tables us grouped d') as (_ & _ & H1 & H2 & _ & _ & H3).
  - apply (bool_decide_unpack _). vm_compute. exact I.
  - apply (bool_decide_unpack _). vm_compute. exact I.
  - exact H.
  - split; [reflexivity|]. split; [|split; [rewrite H1; vm_compute; reflexivity|]; split; [|exact (H3 _ (Permutation_refl _))]].
    + vm_compute in H. injection H as <- _ _. reflexivity.
    + rewrite H2. assert (us = [ #"1"; #"2"]) as -> by (vm_compute in H; injection H as <- _ _; reflexivity). vm_compute. reflexivity.
Defined.

Definition toy_clear (delete_db : option str) : clear_env := {| ce_delete_db := delete_db; ce_delete_wal := None; ce_reopen := None; ce_position := true; ce_handle := 1 |}.
Definition toy_service : del_service :=
  {| ds_db := Some 0; ds_tables := {[ 0 := toy_tables ]}; ds_degraded := None; ds_wal := toy_app; ds_indices := true; ds_onto := toy_ostate |}.
Definition clear_keeping : value := VObject [(#"confirm", VBool true); (#"preserve_wal", VBool true)].

(** ** What goes wrong *)

(** A deletion takes the database before it waits for the lock.  Here it waits for a clearing that
    keeps the log and for the replay that follows: it is acknowledged, and the episode it was to
    delete is in the graph. *)
Theorem deletion_waiting_for_clear_is_lost : ∃ s1 v s3,
  take_db toy_service = Ok 0 ∧ @handle_clear_all PlainCodec (toy_clear None) clear_keeping toy_service = (Ok v, s1) ∧
  let s2 := on_tables 1 toy_tables s1 in
  run_deletion (U := AsciiUnicode) (LP := ToyPrinter) (SR := ToyReader) (GC := PlainCodec) toy_engine toy_open (λ m, (Wal.toy_env FlushOk, (#"t", m.1, m.2))) (λ _, true) (#"m", 3%Z)
    VNull (DelEpisode #"1") 0 s2 = (Ok (VObject [(#"status", VString #"deleted")]), s3) ∧
  ds_db s3 = Some 1 ∧ dt_eps (tables_of 1 s3) = dt_eps toy_tables.
Proof. do 3 eexists. split; [reflexivity|]. split; [vm_compute; reflexivity|]. split; [vm_compute; reflexivity|]. split; vm_compute; reflexivity. Qed.
(** When the database file cannot be deleted nothing has been lost, but the service has let go of its
    database and refuses every request, for an unknown reason. *)
Theorem failed_clear_takes_service_down :
  let '(r, s') := @handle_clear_all PlainCodec (toy_clear (Some #"busy")) clear_keeping toy_service in
  is_ok r = false ∧ ds_tables s' = ds_tables toy_service ∧ take_db s' = Err (DbUnavailable (Msg "{}" [AStr #"unknown"])).
Proof. vm_compute. auto. Qed.
