(* ===== verification/Strategies.v ===== *)
(** * Strategies: repairing a database on request (core/src/handlers.rs: handle_knowledge_recover
    with its three strategies, handle_knowledge_recover_full)

    The files around the database are a map by path.  A strategy rearranges them, opens what is then
    at the database's path, and hands the connection to the service.  What a file operation does,
    what opening a file of given content yields, and the upkeep of columns and indexes are inputs;
    the replay is that of [Replay], the full sequence that of [Recovery]. *)

From S2P Require Import Prelude Text Numbers Json WalGeneration WalScan Checkpoint WalGroup Wal LegacyWal Replay WalExec Recovery Assert.

(** A file with its content, or a directory, and when it was last changed, if that can be read. *)
Inductive node_kind (C : Type) := NodeFile (c : C) | NodeDir.
Arguments NodeFile {C} c.
Arguments NodeDir {C}.
Record node (C : Type) := { nd_kind : node_kind C; nd_mtime : option N }.
Arguments nd_kind {C} n.
Arguments nd_mtime {C} n.
(** A copy works, or fails leaving the target as it was or with some content. *)
Inductive copying (C : Type) := CopyDone | CopyFailed (why : str) (left : option C).
Arguments CopyDone {C}.
Arguments CopyFailed {C} why left.

Section strategies.
Context {U : Unicode} {SR : SeqReader} {RD : ReplayDeps} {DB : Db} {LGP : LegacyPatterns} {GC : GenerationCodec}.
Context {C : Type}.
Abbreviation files := (gmap str (node C)).
(** The outcomes of the calls. *)
Record strategy_env := {
  se_rename : bool;
  se_remove : str → bool;
  se_mkdir : bool;
  se_copy : copying C;
  se_open : option C → result Error conn;
  se_fresh : C;
  se_init : conn → result Error conn;
  se_upkeep : conn → conn;
  se_indexes : conn → result Error unit * conn;
  se_set_ok : str → bool;
}.
Context (e : strategy_env).
Definition is_file (n : option (node C)) : bool := match n with Some {| nd_kind := NodeFile _ |} => true | _ => false end.
(** Source: core/src/handlers.rs 5296-5299 (RecoverOutcome) *)
Record RecoverOutcome := { ro_db : option conn; ro_restart_required : bool }.
Definition content_at (path : str) (fs : files) : option C := match fs !! path with Some {| nd_kind := NodeFile c |} => Some c | _ => None end.
(** Open or create, then the schema. The file is what it was when opened; what is written later is the connection's. *)
Definition open_at (path : str) (fs : files) : result Error conn := let? c := se_open e (content_at path fs) in se_init e c.

(** What opening leaves: a file that was not there is made. *)
Definition made_at (path : str) (fs : files) : files :=
  match fs !! path, se_open e None with None, Ok _ => <[path := {| nd_kind := NodeFile (se_fresh e); nd_mtime := None |}]> fs | _, _ => fs end.

(** Source: core/src/handlers.rs 5546-5618 (recover_drop_lbug_wal) *)
Definition recover_drop_lbug_wal (db_path ts : str) (fs : files) : result Error RecoverOutcome * files :=
  let wal_path := db_path ++ #".wal" in
  let corrupt_path := db_path ++ #".wal.corrupt-" ++ ts in
  let reopen fs :=
    (if negb (is_file (fs !! db_path)) then Err (Ipc (Msg "drop_lbug_wal requires an existing checkpoint file; none found at {db_path}" [AStr db_path]))
     else let? c := open_at db_path fs in Ok {| ro_db := Some (se_upkeep e c); ro_restart_required := false |}, fs) in
  match fs !! wal_path with
  | None => reopen fs
  | Some n => if se_rename e then reopen (<[corrupt_path := n]> (base.delete wal_path fs)) else (Ok {| ro_db := None; ro_restart_required := true |}, fs)
  end.

(** Removing without looking at the outcome. *)
Definition try_remove (path : str) (fs : files) : files := if se_remove e path then base.delete path fs else fs.
Definition remove_siblings (db_path : str) (fs : files) : files := try_remove (db_path ++ #".lock") (try_remove (db_path ++ #".wal") fs).
Definition below (dir : str) (path : str) : bool := bool_decide (path = dir) || starts_with (dir ++ #"/") path.
(** Source: core/src/handlers.rs 5638-5643 (recover_rebuild_from_workspace_wal) *)
Definition remove_database (db_path : str) (fs : files) : result Error unit * files :=
  match fs !! db_path with
  | None => (Ok tt, fs)
  | Some n =>
      if negb (se_remove e db_path) then (Err io_err, fs)
      else match nd_kind n with
           | NodeDir => (Ok tt, base.filter (λ x : str * node C, below db_path x.1 = false) fs)
           | NodeFile _ => (Ok tt, base.delete db_path fs)
           end
  end.
Context (opts : ReplayOptions) (renv : replay_env) (identity : str * Z).
Context (root : wroot) (dirs : str → option wal_dir) (sidecars : str → option str).
(** Every group from its beginning, its position written as soon as it is done.
    Source: core/src/handlers.rs 5665-5701 (recover_rebuild_from_workspace_wal) *)
Fixpoint replay_each (groups : list (str * str)) (c : conn) (p : positions) : result Error unit * conn * positions :=
  match groups with
  | [] => (Ok tt, c, p)
  | (gid, dir) :: groups =>
      match replay_opts (from_opts 0 opts) renv (dirs dir) c with
      | (Err x, c) => (Err x, c, p)
      | (Ok stats, c) =>
          let p := match last_committed_seq stats with
                   | Some seq => (set_wal_position (se_set_ok e gid) gid seq (read_generation (sidecars dir))
                                    (if embeddings_recompute_had_no_failures stats then Some identity else None) p).2
                   | None => p
                   end in
          replay_each groups c p
      end
  end.
(** Source: core/src/handlers.rs 5627-5742 (recover_rebuild_from_workspace_wal) *)
Definition recover_rebuild_from_workspace_wal (db_path : str) (fs : files) : result Error (RecoverOutcome * positions) * files :=
  match remove_database db_path fs with
  | (Err x, fs) => (Err x, fs)
  | (Ok _, fs) =>
      let fs := remove_siblings db_path fs in
      if negb (se_mkdir e) then (Err io_err, fs)
      else
        (let? c := open_at db_path fs in
         let? groups := list_group_wal_dirs root in
         match replay_each groups c ∅ with
         | (Err x, _, _) => Err x
         | (Ok _, c, p) => match se_indexes e (se_upkeep e c) with (Err x, _) => Err x | (Ok _, c) => Ok ({| ro_db := Some c; ro_restart_required := false |}, p) end
         end, made_at db_path fs)
  end.

(** [listing]: the names in the database's directory, in the order they are read; [None] if there is
    no such directory to name. *)
Definition is_backup (name : str) : bool := contains #".pre-" name && ends_with #"-backup" name.
(** Source: core/src/handlers.rs 5756-5772 (recover_restore_from_backup) *)
Definition better_backup (fs : files) (dir : str) (best : option (N * str)) (name : str) : option (N * str) :=
  if is_backup name then
    match fs !! (dir ++ #"/" ++ name) ≫= nd_mtime with
    | Some mtime => match best with Some (t, _) => if (t <? mtime)%N then Some (mtime, dir ++ #"/" ++ name) else best | None => Some (mtime, dir ++ #"/" ++ name) end
    | None => best
    end
  else best.
Definition best_backup (fs : files) (dir : str) (listing : list str) : option (N * str) := foldl (better_backup fs dir) None listing.
(** Source: core/src/handlers.rs 5744-5817 (recover_restore_from_backup) *)
Definition recover_restore_from_backup (db_path : str) (dir : option str) (listing : list str) (now : option N) (fs : files) : result Error RecoverOutcome * files :=
  match dir with
  | None => (Err (Ipc (Msg "Cannot determine DB directory" [])), fs)
  | Some dir =>
      match best_backup fs dir listing with
      | None => (Err (Ipc (Msg "No backup file found" [])), fs)
      | Some (_, backup_path) =>
          let fs := remove_siblings db_path fs in
          let failed e := Err (Ipc (Msg "Failed to restore backup: {e}" [AStr e])) in
          match content_at backup_path fs, se_copy e with
          | None, _ => (failed #"not a file", fs)
          | Some _, CopyFailed why None => (failed why, fs)
          | Some _, CopyFailed why (Some c) => (failed why, <[db_path := {| nd_kind := NodeFile c; nd_mtime := now |}]> fs)
          | Some c, CopyDone =>
              let fs := <[db_path := {| nd_kind := NodeFile c; nd_mtime := now |}]> fs in
              (let? cn := open_at db_path fs in Ok {| ro_db := Some (se_upkeep e cn); ro_restart_required := false |}, fs)
          end
      end
  end.

(** ** The handlers *)

(** [rc_busy]: the write lock is held by another. *)
Record rc_state := { rc_db : option conn; rc_indices : bool; rc_degraded : option str; rc_busy : bool; rc_files : files }.
Definition on_files (fs : files) (s : rc_state) : rc_state :=
  {| rc_db := rc_db s; rc_indices := rc_indices s; rc_degraded := rc_degraded s; rc_busy := rc_busy s; rc_files := fs |}.
Definition on_indices (b : bool) (s : rc_state) : rc_state :=
  {| rc_db := rc_db s; rc_indices := b; rc_degraded := rc_degraded s; rc_busy := rc_busy s; rc_files := rc_files s |}.
Definition now_healthy (c : conn) (indices : bool) (s : rc_state) : rc_state :=
  {| rc_db := Some c; rc_indices := indices; rc_degraded := None; rc_busy := rc_busy s; rc_files := rc_files s |}.
(** Source: core/src/embedder.rs 1039-1039 (EMBEDDER_UNREACHABLE_DEGRADED_REASON) *)
Definition EMBEDDER_UNREACHABLE : str := #"embedder_unreachable_at_startup".
(** Source: core/src/handlers.rs 5305-5313 (is_embedder_unreachable_degraded) *)
Definition is_embedder_unreachable_degraded (s : rc_state) : bool := bool_decide (rc_degraded s = Some EMBEDDER_UNREACHABLE).
Context (display : Error → str) (db_path ts : str) (dir : option str) (listing : list str) (now : option N) (wal_root : bool).
Definition recover_reply (strategy : str) (success : bool) (error : option str) (restart : bool) : value :=
  VObject ([(#"strategy", VString strategy); (#"success", VBool success)] ++ match error with Some x => [(#"error", VString x)] | None => [] end ++
    [(#"restart_required", VBool restart)]).
(** Source: core/src/handlers.rs 5350-5379 (handle_knowledge_recover) *)
Definition run_strategy (strategy : str) (s : rc_state) : result Error (result Error RecoverOutcome) * rc_state :=
  if bool_decide (strategy = #"drop_lbug_wal") then
    let '(r, fs) := recover_drop_lbug_wal db_path ts (rc_files s) in (Ok r, on_files fs s)
  else if bool_decide (strategy = #"rebuild_from_workspace_wal") then
    if wal_root then
      let '(r, fs) := recover_rebuild_from_workspace_wal db_path (rc_files s) in (Ok (rmap fst r), on_files fs (on_indices false s))
    else (Err (Ipc (Msg "No WAL dir configured" [])), s)
  else if bool_decide (strategy = #"restore_from_backup") then
    let '(r, fs) := recover_restore_from_backup db_path dir listing now (rc_files s) in (Ok r, on_files fs s)
  else (Err (Ipc (Msg "Unknown strategy: {other}" [AStr strategy])), s).
(** Source: core/src/handlers.rs 5315-5435 (handle_knowledge_recover) *)
Definition handle_knowledge_recover (p : value) (s : rc_state) : result Error value * rc_state :=
  let strategy := default [] (as_str (param "strategy" p)) in
  if negb (nonempty strategy) then (Err (Ipc (Msg "strategy is required" [])), s)
  else if rc_busy s then (Err (Ipc (Msg "Recovery already in progress" [])), s)
  else if is_embedder_unreachable_degraded s then (Err (Ipc (Msg "recovery is unavailable: the embedder was unreachable at startup" [])), s)
  else
    match run_strategy strategy s with
    | (Err x, s) => (Err x, s)
    | (Ok (Err x), s) => (Ok (recover_reply strategy false (Some (display x)) false), s)
    | (Ok (Ok {| ro_restart_required := true |}), s) => (Ok (recover_reply strategy true None true), s)
    | (Ok (Ok {| ro_db := Some c; ro_restart_required := false |}), s) => (Ok (recover_reply strategy true None false), now_healthy c true s)
    | (Ok (Ok {| ro_db := None; ro_restart_required := false |}), s) =>
        (Ok (recover_reply strategy false (Some #"Recovery operation succeeded but DB did not reopen") false), s)
    end.

(** [sequence]: what the full sequence of [Recovery] answers when it is run.
    Source: core/src/handlers.rs 5440-5544 (handle_knowledge_recover_full) *)
Definition handle_knowledge_recover_full (connect : result Error N) (sequence : result Error (conn * RecoveryReport)) (s : rc_state) : result Error value * rc_state :=
  match rc_db s with
  | Some _ =>
      match connect with
      | Err x => (Err x, s)
      | Ok episodes =>
          (Ok (VObject [(#"success", VBool true); (#"recovery_needed", VBool false); (#"episodes_before", VNumber (PosInt episodes));
             (#"mutations_replayed", VNumber (PosInt 0)); (#"episodes_after", VNumber (PosInt episodes)); (#"indexes_rebuilt", VBool false)]), s)
      end
  | None =>
      if rc_busy s then (Err (Ipc (Msg "Recovery already in progress" [])), s)
      else if is_embedder_unreachable_degraded s then (Err (Ipc (Msg "recovery is unavailable: the embedder was unreachable at startup" [])), s)
      else if negb wal_root then (Err (Ipc (Msg "No WAL dir configured" [])), s)
      else
        let s := on_indices false s in
        match sequence with
        | Err x => (Ok (VObject [(#"success", VBool false); (#"error", VString (display x))]), s)
        | Ok (c, report) =>
            (Ok (VObject [(#"success", VBool true); (#"recovery_needed", VBool true); (#"episodes_before", VNumber (PosInt (episodes_before report)));
               (#"mutations_replayed", VNumber (PosInt (mutations_replayed report))); (#"episodes_after", VNumber (PosInt (episodes_after report)));
               (#"indexes_rebuilt", VBool (indexes_rebuilt report))]), now_healthy c (indexes_rebuilt report) s)
        end
  end.
End strategies.
Global Arguments strategy_env {DB} C.
Global Arguments rc_state {DB} C.
