(* ===== verification/StrategiesTheory.v ===== *)
(** * StrategiesTheory: what a recovery leaves, and what its reply says *)

From S2P Require Import Prelude Text Numbers Json WalGeneration WalScan Checkpoint WalGroup Wal LegacyWal Replay WalExec Recovery Pointer Prompts Graph CrossGroup CrossGroupTheory GroupPurge Assert MergeEntities Rebuild RebuildTheory Strategies.

Section strategies.
Context {U : Unicode} {SR : SeqReader} {RD : ReplayDeps} {DB : Db} {LGP : LegacyPatterns} {GC : GenerationCodec}.
Context {C : Type} (e : strategy_env C).
Abbreviation files := (gmap str (node C)).
Context (opts : ReplayOptions) (renv : replay_env) (identity : str * Z).
Context (root : wroot) (dirs : str → option wal_dir) (sidecars : str → option str).

(** ** Dropping the engine's log *)

(** Dropping the log loses no file: whatever there was is still in its place, except the log, which
    is under its new name.  (An earlier log set aside in the same second is replaced by it.) *)
Theorem drop_loses_no_file db_path ts fs r fs' path n :
  recover_drop_lbug_wal e db_path ts fs = (r, fs') → fs !! path = Some n → path ≠ db_path ++ #".wal.corrupt-" ++ ts →
  fs' !! path = Some n ∨ path = db_path ++ #".wal" ∧ fs' !! (db_path ++ #".wal.corrupt-" ++ ts) = Some n.
Proof.
  unfold recover_drop_lbug_wal. intros H Hp Hne. destruct (fs !! (db_path ++ #".wal")) as [w|] eqn:Hw; [|injection H as _ <-; by left].
  destruct (se_rename e); [|injection H as _ <-; by left]. injection H as _ <-.
  destruct (decide (path = db_path ++ #".wal")) as [->|Hd].
  - right. split; [done|]. rewrite lookup_insert_eq. congruence.
  - left. by rewrite lookup_insert_ne, lookup_delete_ne.
Qed.
(** When it succeeds it has opened the file that was there, with the log out of the way. *)
Theorem drop_opens_what_was_there db_path ts fs c r fs' :
  recover_drop_lbug_wal e db_path ts fs = (Ok {| ro_db := Some c; ro_restart_required := r |}, fs') → db_path ≠ db_path ++ #".wal.corrupt-" ++ ts →
  r = false ∧ fs' !! (db_path ++ #".wal") = None ∧ ∃ content c0 c1, content_at db_path fs = Some content ∧ se_open e (Some content) = Ok c0 ∧ se_init e c0 = Ok c1 ∧ c = se_upkeep e c1.
Proof.
  intros H Hne. assert (db_path ≠ db_path ++ #".wal") as Hw1. { intros Heq. apply (f_equal length) in Heq. rewrite length_app in Heq. cbn in Heq. lia. }
  assert (db_path ++ #".wal.corrupt-" ++ ts ≠ db_path ++ #".wal") as Hw2. { intros Heq%(inj (app db_path)). discriminate Heq. }
  assert (∀ fs0 : files, fs0 !! db_path = fs !! db_path → (if negb (is_file (fs0 !! db_path)) then Err (Ipc (Msg "drop_lbug_wal requires an existing checkpoint file; none found at {db_path}" [AStr db_path]))
     else let? c := open_at e db_path fs0 in Ok {| ro_db := Some (se_upkeep e c); ro_restart_required := false |}) = Ok {| ro_db := Some c; ro_restart_required := r |} →
     r = false ∧ ∃ content c0 c1, content_at db_path fs = Some content ∧ se_open e (Some content) = Ok c0 ∧ se_init e c0 = Ok c1 ∧ c = se_upkeep e c1) as Hopen.
  { intros fs0 Hsame. unfold open_at, content_at. rewrite Hsame. destruct (fs !! db_path) as [[[content|] m]|]; [|done..]. cbn [is_file negb].
    destruct (se_open e (Some content)) as [c0|] eqn:Ho; [|done]. cbn [rbind]. destruct (se_init e c0) as [c1|] eqn:Hi; [|done]. cbn [rbind]. intros [= <- <-].
    split; [done|]. exists content, c0, c1. done. }
  unfold recover_drop_lbug_wal in H. destruct (fs !! (db_path ++ #".wal")) as [w|] eqn:Hw.
  - destruct (se_rename e); [|done]. injection H as H <-. apply Hopen in H as [-> H].
    + split; [done|]. split; [|exact H]. by rewrite lookup_insert_ne, lookup_delete_eq.
    + by rewrite lookup_insert_ne, lookup_delete_ne.
  - injection H as H <-. apply Hopen in H as [-> H]; [|done]. split; [done|]. by split.
Qed.

(** ** Restoring a backup *)

(** A backup that can be compared, and its time. *)
Definition candidate (fs : files) (dir name : str) (t : N) : Prop := is_backup name = true ∧ fs !! (dir ++ #"/" ++ name) ≫= nd_mtime = Some t.
Lemma best_among fs dir listing : match best_backup fs dir listing with
  | Some (t, path) => (∃ name, name ∈ listing ∧ path = dir ++ #"/" ++ name ∧ candidate fs dir name t) ∧ ∀ name t', name ∈ listing → candidate fs dir name t' → (t' ≤ t)%N
  | None => ∀ name t', name ∈ listing → ¬ candidate fs dir name t'
  end.
Proof.
  unfold best_backup. induction listing as [|name l IH] using rev_ind; [by intros name t' ?%elem_of_nil|]. rewrite foldl_app. cbn [foldl].
  set (best := foldl _ None l) in *.
  assert (∀ P : str → N → Prop, (∀ n t, n ∈ l → candidate fs dir n t → P n t) → (∀ t, candidate fs dir name t → P name t) → ∀ n t, n ∈ l ++ [name] → candidate fs dir n t → P n t) as Hsnoc.
  { intros P H1 H2 n t [Hin|Hin%list_elem_of_singleton]%elem_of_app Hc; [by apply H1|subst; by apply H2]. }
  assert ((∀ t, ¬ candidate fs dir name t) → better_backup fs dir best name = best) as Hskip.
  { intros Hno. unfold better_backup. destruct (is_backup name) eqn:Hb; [|done]. destruct (_ ≫= nd_mtime) as [m|] eqn:Hm; [|done]. by destruct (Hno m). }
  destruct (is_backup name) eqn:Hb; [destruct (fs !! (dir ++ #"/" ++ name) ≫= nd_mtime) as [m|] eqn:Hm|].
  2-3: rewrite Hskip by (intros t [? ?]; congruence); destruct best as [[t path]|];
    [destruct IH as [(n & Hn & Hn2) Hall]; split; [exists n; split; [set_solver|done]|apply (Hsnoc (λ _ t', (t' ≤ t)%N)); [done|intros t' [? ?]; congruence]]|intros n' t' Hin Hc'; refine (Hsnoc (λ _ _, False) _ _ n' t' Hin Hc'); [exact IH|intros t2 [? ?]; congruence]].
  assert (candidate fs dir name m) as Hc by done. assert (∀ t', candidate fs dir name t' → t' = m) as Huniq by (intros t' [_ ?]; congruence).
  unfold better_backup. rewrite Hb, Hm. destruct best as [[t path]|].
  - destruct IH as [(n & Hn & Hn2) Hall]. destruct (t <? m)%N eqn:Hlt.
    + apply N.ltb_lt in Hlt. split; [exists name; set_solver|]. apply (Hsnoc (λ _ t', (t' ≤ m)%N)); [intros n' t' Hin Hc'; specialize (Hall n' t' Hin Hc'); lia|intros t' ->%Huniq; lia].
    + apply N.ltb_ge in Hlt. split; [exists n; set_solver|]. apply (Hsnoc (λ _ t', (t' ≤ t)%N)); [done|intros t' ->%Huniq; lia].
  - split; [exists name; set_solver|]. apply (Hsnoc (λ _ t', (t' ≤ m)%N)); [intros n' t' Hin Hc'; by destruct (IH n' t')|intros t' ->%Huniq; lia].
Qed.
(** What is restored is the newest of the backups in the database's directory, and nothing else there
    changes but the database and the engine's log and lock beside it. *)
Theorem restore_takes_newest db_path dir listing now fs oc fs' :
  recover_restore_from_backup e db_path (Some dir) listing now fs = (Ok oc, fs') →
  ∃ name t content, name ∈ listing ∧ candidate fs dir name t ∧ (∀ name' t', name' ∈ listing → candidate fs dir name' t' → (t' ≤ t)%N) ∧
    content_at db_path fs' = Some content ∧ (content_at (dir ++ #"/" ++ name) fs = Some content) ∧
    ∀ path, path ∉ [db_path; db_path ++ #".wal"; db_path ++ #".lock"] → fs' !! path = fs !! path.
Proof.
  unfold recover_restore_from_backup. pose proof (best_among fs dir listing) as Hb. destruct (best_backup fs dir listing) as [[t path]|]; [|done].
  destruct Hb as [(name & Hin & -> & Hc) Hall]. intros H.
  assert (∀ q, q ∉ [db_path ++ #".wal"; db_path ++ #".lock"] → remove_siblings e db_path fs !! q = fs !! q) as Hsib.
  { intros q Hq. unfold remove_siblings, try_remove. destruct (se_remove e _), (se_remove e _); rewrite ?lookup_delete_ne; try done; set_solver. }
  destruct (content_at (dir ++ #"/" ++ name) (remove_siblings e db_path fs)) as [content|] eqn:Hcon; [|done].
  destruct (se_copy e) as [|why [c|]]; [|done..]. injection H as _ <-. exists name, t, content. split; [done|]. split; [done|]. split; [done|].
  split; [unfold content_at; by rewrite lookup_insert_eq|]. split.
  - revert Hcon. unfold content_at, remove_siblings, try_remove.
    destruct (se_remove e _), (se_remove e _); rewrite ?lookup_delete; repeat case_decide; congruence || (intros; done) || done.
  - intros q Hq. rewrite lookup_insert_ne by set_solver. apply Hsib. set_solver.
Qed.

(** ** Rebuilding from the logs *)

Definition replayed_fully (dir : str) (stats : ReplayStats) : Prop := ∃ c c', replay_opts (from_opts 0 opts) renv (dirs dir) c = (Ok stats, c').
Definition earned_row (dir : str) (stats : ReplayStats) (row : position_row) : Prop := ∃ seq, last_committed_seq stats = Some seq ∧
  row = {| row_seq := as_i64 seq; row_generation := read_generation (sidecars dir);
           row_model := if embeddings_recompute_had_no_failures stats then Some identity.1 else None;
           row_dim := if embeddings_recompute_had_no_failures stats then Some identity.2 else None |}.
Lemma replay_each_spec groups : ∀ c p c' p', replay_each e opts renv identity dirs sidecars groups c p = (Ok tt, c', p') →
  (∀ gid dir, (gid, dir) ∈ groups → ∃ stats, replayed_fully dir stats) ∧
  ∀ gid row, p' !! gid = Some row → p !! gid = Some row ∨ ∃ dir stats, (gid, dir) ∈ groups ∧ replayed_fully dir stats ∧ earned_row dir stats row.
Proof.
  induction groups as [|[gid dir] groups IH]; intros c p c' p'; cbn [replay_each].
  - intros [= <- <-]. split; [by intros ? ? ?%elem_of_nil|by left].
  - destruct (replay_opts _ _ (dirs dir) c) as [[stats|x] c1] eqn:Hr; [|done]. assert (replayed_fully dir stats) as Hf by (by exists c, c1).
    intros [I1 I2]%IH. split.
    + intros g d [[= -> ->]|Hin]%elem_of_cons; [by exists stats|]. by apply (I1 g).
    + intros g row [Hrow|(d & st & Hin & H)]%I2; [|right; exists d, st; split; [by right|done]]. revert Hrow.
      destruct (last_committed_seq stats) as [seq|] eqn:Hs; [|by left]. unfold set_wal_position. destruct (se_set_ok e gid); cbn [negb snd]; [|by left].
      destruct (decide (gid = g)) as [->|Hne]; [|rewrite lookup_insert_ne by done; by left]. rewrite lookup_insert_eq. intros [= <-]. right.
      exists dir, stats. split; [by left|]. split; [done|]. exists seq. split; [done|]. by destruct (embeddings_recompute_had_no_failures stats).
Qed.
(** A rebuild that succeeds has replayed the log of every group from its beginning into a fresh
    database; every position it records is one that the group's own replay has earned, with the
    generation on disk, and the embedder is claimed only where no vector failed. *)
Theorem rebuild_positions_earned db_path fs oc p fs' :
  recover_rebuild_from_workspace_wal e opts renv identity root dirs sidecars db_path fs = (Ok (oc, p), fs') →
  ro_restart_required oc = false ∧ is_Some (ro_db oc) ∧ content_at db_path fs' = Some (se_fresh e) ∧ ∃ groups, list_group_wal_dirs root = Ok groups ∧
    (∀ gid dir, (gid, dir) ∈ groups → ∃ stats, replayed_fully dir stats) ∧
    ∀ gid row, p !! gid = Some row → ∃ dir stats, (gid, dir) ∈ groups ∧ replayed_fully dir stats ∧ earned_row dir stats row.
Proof.
  unfold recover_rebuild_from_workspace_wal. destruct (remove_database e db_path fs) as [[[]|x] fs1] eqn:Hrm; [|done]. destruct (se_mkdir e); [|done]. cbn [negb].
  assert (fs1 !! db_path = None) as Hgone.
  { revert Hrm. unfold remove_database. destruct (fs !! db_path) as [n|] eqn:Hn; [|by intros [= <-]]. destruct (se_remove e db_path); [|done]. cbn [negb].
    destruct (nd_kind n); intros [= <-]; [by rewrite lookup_delete_eq|]. apply map_lookup_filter_None. right. intros x _. cbn. unfold below.
    by rewrite bool_decide_eq_true_2. }
  assert (remove_siblings e db_path fs1 !! db_path = None) as Hsib.
  { unfold remove_siblings, try_remove. destruct (se_remove e _), (se_remove e _); rewrite ?lookup_delete; repeat case_decide; done. }
  assert (∀ c, open_at e db_path (remove_siblings e db_path fs1) = Ok c → content_at db_path (made_at e db_path (remove_siblings e db_path fs1)) = Some (se_fresh e)) as Hmade.
  { intros c. unfold open_at, made_at, content_at. rewrite Hsib. destruct (se_open e None); [|done]. intros _. by rewrite lookup_insert_eq. }
  destruct (open_at e db_path _) as [c|]; [|done]. specialize (Hmade c eq_refl). cbn [rbind]. destruct (list_group_wal_dirs root) as [groups|]; [|done]. cbn [rbind].
  destruct (replay_each _ _ _ _ _ _ groups c ∅) as [[[[]|x] c1] p1] eqn:Hr; [|done]. destruct (se_indexes e _) as [[[]|x] c2]; [|done]. intros [= <- <- <-].
  apply replay_each_spec in Hr as [H1 H2]. split; [done|]. split; [by eexists|]. split; [done|]. exists groups. split; [done|]. split; [done|].
  intros gid row [Hrow|H]%H2; [by rewrite lookup_empty in Hrow|exact H].
Qed.

(** ** The reply *)

Context (display : Error → str) (db_path ts : str) (dir : option str) (listing : list str) (now : option N) (wal_root : bool).
Abbreviation recover := (handle_knowledge_recover e opts renv identity root dirs sidecars display db_path ts dir listing now wal_root).
Lemma run_strategy_frame strategy s r s' : run_strategy e opts renv identity root dirs sidecars db_path ts dir listing now wal_root strategy s = (r, s') →
  rc_db s' = rc_db s ∧ rc_degraded s' = rc_degraded s ∧ rc_busy s' = rc_busy s ∧
  (rc_indices s' = rc_indices s ∨ strategy = #"rebuild_from_workspace_wal" ∧ rc_indices s' = false) ∧ (is_ok r = false → s' = s).
Proof.
  unfold run_strategy. case_bool_decide as H1; [destruct (recover_drop_lbug_wal _ _ _ _) as [x fs]; intros [= <- <-]; repeat split; try done; by left|].
  case_bool_decide as H2.
  { destruct wal_root; [|intros [= <- <-]; repeat split; try done; by left]. destruct (recover_rebuild_from_workspace_wal _ _ _ _ _ _ _ _ _) as [x fs].
    intros [= <- <-]. repeat split; try done. by right. }
  case_bool_decide as H3; [destruct (recover_restore_from_backup _ _ _ _ _ _) as [x fs]|]; intros [= <- <-]; repeat split; try done; by left.
Qed.
(** C29. The reply to a recovery says what has become of the service.  It claims success without a
    restart exactly when a database has been put in place, the indexes count as built and nothing is
    held against the service's health; in every other case the database and the reason for being
    degraded are those from before, and only a rebuild may have taken back the claim that the indexes
    are built.  A call that is refused outright has changed nothing at all, and no strategy runs while
    another holds the lock or when no embedding dimension was ever established. *)
Theorem recovery_reply_is_state p s r s' : recover p s = (r, s') →
  match r with
  | Err _ => s' = s
  | Ok v => rc_busy s = false ∧ rc_degraded s ≠ Some EMBEDDER_UNREACHABLE ∧
      (if bool_decide (get #"success" v = Some (VBool true) ∧ get #"restart_required" v = Some (VBool false))
       then is_Some (rc_db s') ∧ rc_indices s' = true ∧ rc_degraded s' = None
       else rc_db s' = rc_db s ∧ rc_degraded s' = rc_degraded s ∧
            (rc_indices s' = rc_indices s ∨ as_str (param "strategy" p) = Some #"rebuild_from_workspace_wal" ∧ rc_indices s' = false))
  end.
Proof.
  unfold handle_knowledge_recover. set (strategy := default [] (as_str (param "strategy" p))). destruct (nonempty strategy) eqn:Hne; cbn [negb]; [|by intros [= <- <-]].
  destruct (rc_busy s) eqn:Hb; [by intros [= <- <-]|]. destruct (is_embedder_unreachable_degraded s) eqn:Hu; [by intros [= <- <-]|]. apply bool_decide_eq_false in Hu.
  destruct (run_strategy _ _ _ _ _ _ _ _ _ _ _ _ _ strategy s) as [out s1] eqn:Hr. apply run_strategy_frame in Hr as (H1 & H2 & H3 & H4 & H5).
  assert (rc_indices s1 = rc_indices s ∨ as_str (param "strategy" p) = Some #"rebuild_from_workspace_wal" ∧ rc_indices s1 = false) as Hi.
  { destruct H4 as [H4|[Hs H4]]; [by left|]. right. split; [|done]. unfold strategy in Hs. destruct (as_str (param "strategy" p)); [cbn in Hs; by subst|done]. }
  destruct out as [[[[c|] []]|x]|x].
  - intros [= <- <-]. split; [done|]. split; [done|]. rewrite bool_decide_eq_false_2; [done|]. by intros [_ ?].
  - intros [= <- <-]. split; [done|]. split; [done|]. rewrite bool_decide_eq_true_2 by (by split). split; [by eexists|done].
  - intros [= <- <-]. split; [done|]. split; [done|]. rewrite bool_decide_eq_false_2; [done|]. by intros [_ ?].
  - intros [= <- <-]. split; [done|]. split; [done|]. rewrite bool_decide_eq_false_2; [done|]. by intros [? _].
  - intros [= <- <-]. split; [done|]. split; [done|]. rewrite bool_decide_eq_false_2; [done|]. by intros [? _].
  - intros [= <- <-]. by apply H5.
Qed.
End strategies.

(** ** A small workspace *)

Definition toy_strategies (rename : bool) (copy : copying N) : @strategy_env PlainDb N := {|
  se_rename := rename; se_remove _ := true; se_mkdir := true; se_copy := copy; se_open _ := Ok (toy_bound : @conn PlainDb); se_fresh := 0%N; se_init c := Ok c;
  se_upkeep c := c; se_indexes c := (Ok tt, c); se_set_ok _ := true |}.
Definition toy_file (c : N) (t : N) : node N := {| nd_kind := NodeFile c; nd_mtime := Some t |}.
Definition toy_files : gmap str (node N) :=
  {[ #"/w/db" := toy_file 1 5; #"/w/db.wal" := toy_file 2 6; #"/w/db.pre-1-backup" := toy_file 3 3; #"/w/other.pre-2-backup" := toy_file 4 4 ]}.
Definition toy_listing : list str := #"db" :: #"db.wal" :: #"db.pre-1-backup" :: #"other.pre-2-backup" :: nil.
Definition toy_recover (en : @strategy_env PlainDb N) (root : wroot) (strategy : string) :=
  @handle_knowledge_recover AsciiUnicode ToyReader LengthDeps PlainDb NoLegacy PlainCodec N en plain_options (rv_replay plain_env) (#"m", 3%Z) root (λ _, None) (λ _, None)
    (λ _, []) #"/w/db" #"t" (Some #"/w") toy_listing (Some 9%N) true (VObject [(#"strategy", VString (lit strategy))]).
Definition healthy (fs : gmap str (node N)) : rc_state N := {| rc_db := Some (toy_bound : @conn PlainDb); rc_indices := true; rc_degraded := None; rc_busy := false; rc_files := fs |}.
Definition degraded (fs : gmap str (node N)) : rc_state N := {| rc_db := None : option (@conn PlainDb); rc_indices := true; rc_degraded := Some #"corrupt"; rc_busy := false; rc_files := fs |}.
Lemma recovery_reply_is_state_witness :
  let s' := (toy_recover (toy_strategies true CopyDone) RootAbsent "drop_lbug_wal" (degraded toy_files)).2 in
  is_Some (rc_db s') ∧ rc_indices s' = true ∧ rc_degraded s' = None.
Proof.
  cbv zeta. destruct (toy_recover _ _ _ _) as [r s'] eqn:H. cbn [snd].
  pose proof (@recovery_reply_is_state AsciiUnicode ToyReader LengthDeps PlainDb NoLegacy PlainCodec N (toy_strategies true CopyDone) plain_options (rv_replay plain_env) (#"m", 3%Z)
    RootAbsent (λ _, None) (λ _, None) (λ _, []) #"/w/db" #"t" (Some #"/w") toy_listing (Some 9%N) true _ _ r s' H) as Hs.
  destruct r as [v|x]; [|vm_compute in H; discriminate H]. destruct Hs as (_ & _ & Hs).
  assert (v = recover_reply #"drop_lbug_wal" true None false) as -> by (vm_compute in H; injection H as <- _; reflexivity).
  rewrite bool_decide_eq_true_2 in Hs by (split; reflexivity). exact Hs.
Defined.

(** ** What goes wrong *)

(** Without log directories a rebuild succeeds: the database is deleted and an empty one put in its
    place. *)
Theorem rebuild_without_logs_empties : let '(r, s') := toy_recover (toy_strategies true CopyDone) RootAbsent "rebuild_from_workspace_wal" (degraded toy_files) in
  r = Ok (recover_reply #"rebuild_from_workspace_wal" true None false) ∧ content_at #"/w/db" (rc_files s') = Some 0%N.
Proof. vm_compute. auto. Qed.
(** The logs are listed only after the database has been deleted: when they cannot be read, the
    database is gone, and a service that was healthy goes on with the one it has open. *)
Theorem unreadable_logs_cost_the_database : let '(r, s') := toy_recover (toy_strategies true CopyDone) RootUnlistable "rebuild_from_workspace_wal" (healthy toy_files) in
  r = Ok (recover_reply #"rebuild_from_workspace_wal" false (Some []) false) ∧ content_at #"/w/db" (rc_files s') = Some 0%N ∧ rc_db s' = rc_db (healthy toy_files) ∧ rc_degraded s' = None.
Proof. vm_compute. auto. Qed.
(** The engine's log is moved away before it is noticed that there is no checkpoint to open. *)
Theorem drop_moves_log_of_missing_checkpoint : let fs := base.delete #"/w/db" toy_files in
  let '(r, s') := toy_recover (toy_strategies true CopyDone) RootAbsent "drop_lbug_wal" (degraded fs) in
  r = Ok (recover_reply #"drop_lbug_wal" false (Some []) false) ∧ rc_files s' !! #"/w/db.wal" = None ∧ rc_files s' !! #"/w/db.wal.corrupt-t" = Some (toy_file 2 6).
Proof. vm_compute. auto. Qed.
(** A restore deletes the engine's log before it copies: when the copy fails the changes in that log
    are lost, though the database is still the old one. *)
Theorem failed_restore_loses_the_log : let '(r, s') := toy_recover (toy_strategies true (CopyFailed #"disk full" None)) RootAbsent "restore_from_backup" (degraded toy_files) in
  r = Ok (recover_reply #"restore_from_backup" false (Some []) false) ∧ rc_files s' !! #"/w/db" = Some (toy_file 1 5) ∧ rc_files s' !! #"/w/db.wal" = None.
Proof. vm_compute. auto. Qed.
(** Any backup in the directory will do: that of another database is restored if it is newer. *)
Theorem foreign_backup_restored : let '(r, s') := toy_recover (toy_strategies true CopyDone) RootAbsent "restore_from_backup" (degraded toy_files) in
  r = Ok (recover_reply #"restore_from_backup" true None false) ∧ content_at #"/w/db" (rc_files s') = content_at #"/w/other.pre-2-backup" toy_files.
Proof. vm_compute. auto. Qed.
